(* ===== verification/_CoqProject ===== *)
-Q . S2P
Prelude.v
TaskTypes.v
TaskDeque.v
TaskDequeConc.v
MPSCQueue.v
SlabPool.v
TaskAllocator.v
WaitGroups.v
WaitLists.v
FiberModel.v
CancelTokens.v
EpochModel.v
HazardModel.v
TaskDag.v
TaskDagRun.v
TaskDagOrder.v
TimerWheel.v
TimerQueue.v
TimerTime.v
SyncCore.v
SchedSemaphore.v
SchedMutex.v
SchedCondVar.v
Placement.v
HuntPark.v
HuntSleep.v
ParallelFor.v
Futures.v
TaskLocals.v
FiberPool.v
IoBuffers.v
IoRequests.v
IoStreams.v
IoAccept.v
WorkerFind.v
RefCounts.v
TaskRun.v
Topology.v
PoolStart.v
DirectEvents.v
EdgeArena.v
MainWait.v
CoroFrames.v
SpinHelp.v
Registry.v
