(* ===== verification/Prelude.v ===== *)
(** * JLib::Scheduler -- verification development

    JLib::Scheduler is a C++ task scheduler: a pool of worker threads runs tasks that are
    native calls, fibers (stackful) or coroutines (stackless).  This library models the
    scheduler's own code, from the queues up to the blocking primitives, the task graphs, the
    timers and the asynchronous I/O, and proves what makes each part correct.

    ** The program and the files that model it

    A task is created ([CreateTaskImpl]), placed on a queue ([Push] and its relatives), found
    by a worker ([Thread::Worker]), run, and either ends, is queued again, or suspends until a
    primitive wakes it; a worker that finds nothing hunts, parks and is woken.  Memory comes
    from slabs and is given back through epochs or hazard pointers.

    - Prelude: outcomes, machine integers ([u64], [u32], [⊕], [⊖]), step relations and
      [reachable], [gather] and [num] (what all threads hold, how many are at a point), list
      and map lemmas, the tactics that run a concrete execution.
    - TaskTypes (include/Task.h): the task, its record, flags and pins.
    - TaskDeque, TaskDequeConc (include/TaskDeque.h): the work-stealing deque as functions, then
      owner and thieves interleaved at every atomic access.
    - MPSCQueue (include/TaskMPSCQueue.h): the inboxes.
    - SlabPool, TaskAllocator (include/SlabPool.h, include/TaskAllocator.h): the allocators.
    - WaitGroups (include/WaitGroup.h, src/WaitGroup.cpp), WaitLists (include/WaitList.h,
      include/Event.h), SyncCore, SchedSemaphore, SchedMutex, SchedCondVar
      (src/TaskScheduler.cpp), Futures (include/Future.h), DirectEvents
      (include/DirectEvent.h), Registry (include/WaitPrimitive.h): what a task can wait on, and
      the list of the primitives that shutdown empties.  [SyncCore.WaitQueue] is the interface
      between the primitives and their waiter queue, with [WaitLists] as its instance.
    - FiberModel (include/Fiber.h, src/Fiber.cpp, the context switches), FiberPool
      (src/GlobalFiberPool.cpp, include/ThreadLocalCache.h, include/FiberStackArena.h).
    - CancelTokens (include/CancelToken.h, src/CancelToken.cpp), TaskLocals
      (src/TaskLocal.cpp).
    - EpochModel (include/Epochs.h, src/Reclaimer.cpp), HazardModel (include/Hazard.h,
      src/Hazard.cpp), RefCounts (include/Ref.h): reclamation and references.
    - TaskDag, TaskDagRun, TaskDagOrder, EdgeArena (include/TaskDAG.h, src/TaskDAG.cpp): graphs.
    - TimerWheel, TimerQueue, TimerTime (src/Timer.cpp, include/Timer.h).
    - Placement, HuntPark, HuntSleep, WorkerFind, ParallelFor, TaskRun, MainWait, SpinHelp
      (src/TaskScheduler.cpp, src/Thread.cpp): where a task goes, who sleeps and who is woken,
      how a task is found, how it is run and freed, loops, how main waits inside and outside the
      pool, how a spinning thread helps and a worker blocks in place.
    - CoroFrames (include/Coroutine.h): where coroutine frames come from and go to.
    - IoBuffers, IoRequests, IoStreams, IoAccept (src/posix/IoReactor.cpp, src/IoShared.cpp,
      src/posix/IoUring.cpp).
    - Topology, PoolStart (src/posix/Topology.cpp, StartPool and BuildTopology).

    ** How the code is modelled

    Pointers and handles are [Z], 0 for null; a w-bit integer is a [Z] wrapped where the source
    wraps.  An operation with no concurrent access is a function of its state; an operation
    that ends the program returns [Err].  A concurrent component is a state, an initial
    predicate and a step relation: one step is one atomic operation of one thread, every thread
    is at a program point, and theorems hold of every reachable state.  A section under a lock
    or a spin lock is one step, since nothing else touches what it guards.  The interleavings
    are sequentially consistent: the weaker orders the source names are not modelled (the
    repository's own models under tests/verify address them).  What is not the program's to
    decide is left open: an argument of the function or a free choice of the step (the answers
    of the operating system and of the kernel's rings, the clock, which thread runs, what a
    task's body does, whether a vendored queue delivers at once).

    ** What the theorems show

    - Exactly once: a task pushed is taken by one thread (deque, inboxes, find pass), placed on
      one queue, and settled once when it is run: its group told once, its memory freed once;
      an index of a parallel loop is visited once; a request, connection, waiter, timer slot,
      fiber, slot of memory, edge, frame or event is in one place.
    - No lost wake: fibers, groups, mutex, semaphore, condition variable, futures, direct
      events, workers that park, main.
    - Safety of memory: epochs, hazard pointers (and the two ways they fail), counted
      references, the group a waiter may destroy.
    - Order: inboxes are FIFO, a graph's node starts after what it depends on, a stream's bytes
      go out in order, the lock goes to the oldest waiter.
    - Functional: the cycle check decides cycles, the timer search agrees with trying each
      slot, CPU lists are read as they are written, timers are on time, loops end.
    - Composition: [PoolStart] establishes what [Placement] assumes, [TaskRun] runs tasks on
      [Placement] and [FiberModel], the primitives run on any [WaitQueue], [CoroFrames] takes
      frames from [TaskAllocator], and [EdgeArena] gives the fresh, untagged edges that
      [TaskDag.AddDependency] is given.

    ** Conditions, and what happens without them

    Where the code does not do what it means to, the exact condition is a theorem and the
    counterexample a concrete run ([TaskRun.main_coroutine_unsafe], [TimerTime], [HazardModel],
    [Topology.long_list_cut], [SpinHelp.block_hides_push], [Registry.join_drains_freed], and):
    - a wait group may be added to at any time, but a waiter is only sure to be woken if nobody
      adds while an operation that has seen the count at zero is still in progress
      ([WaitGroups.waitgroup_reuse_loses_wakeup]);
    - a fiber may hand its thread to others with [SwitchTo], the chain ending in a fiber that
      comes back to the worker; one that is still queued must not be switched to
      ([TaskRun.switch_to_queued_faults]);
    - edges may be added while a graph runs; it completes if they leave it acyclic, and the
      order holds of an edge added before its node was due;
    - an I/O request that the ring refuses is refused for good unless the kernel's enter fails
      after the tail was published ([IoRequests.io_refused_completes]);
    - a parallel cursor must not pass 2^31 ([ParallelFor.cursor_wraps]);
    - the timer thread's next event is at most one tick after the deadline or the clock,
      whichever is later ([TimerTime]);
    - a cancelled coroutine passes a semaphore it has no permit for, which is the one term that
      upsets the balance ([SchedSemaphore.semaphore_coroutine_overrun]);
    - a cancellation token is safe to keep until its slot has been reused 65536 times
      ([CancelTokens.token_generation_wraps] gives the condition and the run).

    ** Bounds and fuel

    Fuel is always the size of what is consumed, with a lemma that it is enough: Kahn's
    algorithm the number of nodes plus one, cascades and firing the table size plus one, waiter
    loops and the unloading of an inbox the queue length plus one, the retire chain its blocks
    plus one, [take_some] the number of links plus one, the parser the length of its text, the
    bit loops 64, the collection of a list its length plus one, future loops the waiters linked,
    the probe loop its cap.  Counters are assumed not to wrap where
    the program relies on it: the epoch counter below 2^64-1, the tag of the cancel stack, the
    version of the idle stack and the count of references below 2^32, timer entries below
    2^32-1, 256 workers for placement, 64 deques for the seek of the find pass, and a parallel
    cursor whose end plus grain times lanes fits an int.  Clock ticks are unbounded.

    ** Not modelled

    The vendored concurrent queues and mimalloc; the Windows reactor, topology and fiber set-up,
    the stub reactor and the coroutine wrappers of I/O; statistics; platform macros and
    sanitizer hooks; the compiler's half of coroutines and [Lazy]; the rest of shutdown
    ([Join]), the watchdog and the dumps, which are timed sequences of calls modelled elsewhere;
    weak memory.
    Tests, benchmarks, extras and tools are not part of the library. *)

From stdpp Require Export base tactics numbers list gmap relations.

#[export] Set Default Goal Selector "!".
#[global] Open Scope Z_scope.

(** ** Outcomes

    The program reports an unrecoverable state by printing a diagnostic and calling
    [std::abort] (the [Fatal*] functions), and reports an ordinary failure by a
    return value.  [Err] is the first kind: the call does not return. *)

Inductive res (E A : Type) : Type :=
| Ok (a : A)
| Err (e : E).
Arguments Ok {E A} a.
Arguments Err {E A} e.

#[export] Instance res_ret {E} : MRet (res E) := fun A a => Ok a.

#[export] Instance res_bind {E} : MBind (res E) := fun A B f m =>
  match m with Ok a => f a | Err e => Err e end.

(** ** Machine integers

    A [size_t]/[uintptr_t]/[uint64_t] is a [Z] in [0, 2^64); a [uint32_t] one in
    [0, 2^32).  Arithmetic is done in [Z] and wrapped where the source wraps. *)

Definition u64 (x : Z) : Z := x `mod` 2 ^ 64.
Definition u32 (x : Z) : Z := x `mod` 2 ^ 32.
Definition u16 (x : Z) : Z := x `mod` 2 ^ 16.
Definition SIZE_MAX : Z := 2 ^ 64 - 1.

(** The scope of the notations of this development. *)
Declare Scope sched_scope.
Delimit Scope sched_scope with sched.
Notation "a ⊕ b" := (u64 (a + b)) (at level 50, left associativity) : sched_scope.
Notation "a ⊖ b" := (u64 (a - b)) (at level 50, left associativity) : sched_scope.
#[global] Open Scope sched_scope.

Create HintDb sched.
Create HintDb word.

Lemma u64_small x : (0 ≤ x < 2 ^ 64) → u64 x = x.
Proof. intros H. unfold u64. apply Z.mod_small. lia. Qed.

Lemma u32_small x : (0 ≤ x < 2 ^ 32) → u32 x = x.
Proof. intros H. unfold u32. apply Z.mod_small. lia. Qed.

Lemma u16_small x : (0 ≤ x < 2 ^ 16) → u16 x = x.
Proof. intros H. unfold u16. apply Z.mod_small. lia. Qed.

Lemma u64_range x : (0 ≤ u64 x < 2 ^ 64).
Proof. unfold u64. apply Z.mod_pos_bound. lia. Qed.

Lemma u32_range x : (0 ≤ u32 x < 2 ^ 32).
Proof. unfold u32. apply Z.mod_pos_bound. lia. Qed.

Lemma u16_range x : (0 ≤ u16 x < 2 ^ 16).
Proof. unfold u16. apply Z.mod_pos_bound. lia. Qed.

#[export] Hint Resolve u64_range u32_range u16_range : word.

(** Masking with [2^k - 1] is reduction modulo [2^k]: the ring-buffer index. *)
Lemma land_mask i k : (0 ≤ k) → Z.land i (2 ^ k - 1) = i `mod` 2 ^ k.
Proof.
  intros Hk. rewrite <- Z.land_ones by lia. f_equal. rewrite Z.ones_equiv. lia.
Qed.

(** Tagging: [v] fits in the low [k] bits that the alignment of [p] leaves clear, so
    or-ing it in is adding it, and both halves can be read back. *)
Lemma testbit_small v k i :
  (0 ≤ v < 2 ^ k) → (0 ≤ k ≤ i) → Z.testbit v i = false.
Proof.
  intros Hv Hi. destruct (decide (v = 0)) as [->|Hne]; [by rewrite Z.bits_0|].
  apply Z.bits_above_log2; [lia|].
  assert (Z.log2 v < k) by (apply Z.log2_lt_pow2; lia). lia.
Qed.

Lemma testbit_aligned p k i :
  (0 ≤ k) → (p `mod` 2 ^ k = 0) → (i < k) → Z.testbit p i = false.
Proof.
  intros Hk Hp Hi. destruct (decide (i < 0)); [by apply Z.testbit_neg_r|].
  rewrite <- (Z.mod_pow2_bits_low p k i) by lia. by rewrite Hp, Z.bits_0.
Qed.

Lemma tag_low p v k :
  (0 ≤ k) → (0 ≤ v < 2 ^ k) → (p `mod` 2 ^ k = 0) →
  Z.land (Z.lor p v) (2 ^ k - 1) = v.
Proof.
  intros Hk Hv Hp. rewrite land_mask by done. apply Z.bits_inj'. intros i Hi.
  destruct (decide (i < k)).
  - rewrite Z.mod_pow2_bits_low, Z.lor_spec by lia. by rewrite (testbit_aligned p k).
  - rewrite Z.mod_pow2_bits_high by lia. by rewrite (testbit_small v k) by lia.
Qed.

Lemma tag_high p v k :
  (0 ≤ k) → (0 ≤ v < 2 ^ k) → (p `mod` 2 ^ k = 0) →
  Z.ldiff (Z.lor p v) (2 ^ k - 1) = p.
Proof.
  intros Hk Hv Hp.
  replace (2 ^ k - 1) with (Z.ones k) by (rewrite Z.ones_equiv; lia).
  apply Z.bits_inj'. intros i Hi. rewrite Z.ldiff_spec, Z.lor_spec.
  destruct (decide (i < k)).
  - rewrite Z.ones_spec_low by lia. rewrite (testbit_aligned p k) by lia. by rewrite andb_false_r.
  - rewrite Z.ones_spec_high, (testbit_small v k) by lia. by rewrite andb_true_r, orb_false_r.
Qed.

(** ** Step relations

    A concurrent component is a state type, an initial predicate and a step relation:
    one step is one atomic operation of one thread. *)

Section transition.
Context {S : Type} (init : S → Prop) (step : S → S → Prop).

Definition reachable (s : S) : Prop := ∃ s0, init s0 ∧ rtc step s0 s.

Lemma reachable_ind (I : S → Prop) :
  (∀ s, init s → I s) → (∀ s s', I s → step s s' → I s') → ∀ s, reachable s → I s.
Proof.
  intros Hi Hs s (s0 & H0 & Hr). apply Hi in H0.
  induction Hr as [|x y z Hxy _ IH]; eauto.
Qed.

(** As above, with a quantity that never decreases and is bounded at the end. *)
Lemma reachable_ind_bounded (m : S → Z) (bound : Z) (I : S → Prop) :
  (∀ s s', step s s' → (m s ≤ m s')) →
  (∀ s, init s → I s) →
  (∀ s s', (m s' < bound) → I s → step s s' → I s') →
  ∀ s, reachable s → (m s < bound) → I s.
Proof.
  intros Hm Hi Hs s (s0 & H0 & Hr) Hb. apply Hi in H0.
  revert H0 Hb. induction Hr as [|x y z Hxy Hyz IH]; [done|]. intros Hx Hz.
  apply IH; [|done]. eapply Hs; [|done|done].
  assert (m y ≤ m z); [|lia].
  clear -Hm Hyz. induction Hyz as [|a b c Hab _ IH]; [lia|]. apply Hm in Hab. lia.
Qed.

Lemma reachable_init s : init s → reachable s.
Proof. intros H. exists s. by split. Qed.

Lemma reachable_step s s' : reachable s → step s s' → reachable s'.
Proof. intros (s0 & H0 & Hr) Hs. exists s0. split; [done|]. by eapply rtc_r. Qed.

(** The induction may use what is known of the reachable state a step starts from. *)
Lemma reachable_strong_ind (I : S → Prop) :
  (∀ s, init s → I s) → (∀ s s', reachable s → I s → step s s' → I s') → ∀ s, reachable s → I s.
Proof.
  intros Hi Hs s Hr. cut (reachable s ∧ I s); [by intros [_ ?]|]. revert s Hr. apply reachable_ind.
  - intros s H0. split; [by apply reachable_init|by apply Hi].
  - intros s s' [Hr HI] Hst. split; [by eapply reachable_step|by eapply Hs].
Qed.
End transition.

#[export] Hint Resolve reachable_init reachable_step : sched.

(** ** Intrusive lists

    Several components link their nodes through a field of the node itself.  The heap is
    a map from a node's address to that field; 0 is the null pointer. *)

Definition next_of (m : gmap Z Z) (x : Z) : Z := default 0 (m !! x).

(** [lseg m h l e]: following the links from [h] visits [l] and then stands at [e]. *)
Fixpoint lseg (m : gmap Z Z) (h : Z) (l : list Z) (e : Z) : Prop :=
  match l with
  | [] => h = e
  | x :: l' => h = x ∧ x ≠ 0 ∧ lseg m (next_of m x) l' e
  end.

(** A whole list ends in null. *)
Definition chain (m : gmap Z Z) (h : Z) (l : list Z) : Prop := lseg m h l 0.

Lemma next_of_insert m a v x :
  next_of (<[a := v]> m) x = if decide (a = x) then v else next_of m x.
Proof.
  unfold next_of. destruct (decide (a = x)) as [->|Hne].
  - by rewrite lookup_insert_eq.
  - by rewrite lookup_insert_ne.
Qed.

Lemma next_of_eq m a v : next_of (<[a := v]> m) a = v.
Proof. rewrite next_of_insert. by rewrite decide_True. Qed.

(** Only the links of the nodes visited matter. *)
Lemma lseg_ext m m' h l e :
  (∀ x, x ∈ l → next_of m' x = next_of m x) → lseg m h l e → lseg m' h l e.
Proof.
  revert h. induction l as [|x l IH]; intros h Hm; simpl; [done|].
  intros (-> & Hx & Hl). rewrite Hm by set_solver. split_and!; [done|done|].
  apply IH; [|done]. intros y Hy. apply Hm. set_solver.
Qed.

Lemma lseg_insert m h l e a v : a ∉ l → lseg m h l e → lseg (<[a := v]> m) h l e.
Proof.
  intros Ha. apply lseg_ext. intros x Hx. rewrite next_of_insert.
  by rewrite decide_False by set_solver.
Qed.

Lemma lseg_app m h l1 l2 e :
  lseg m h (l1 ++ l2) e ↔ ∃ k, lseg m h l1 k ∧ lseg m k l2 e.
Proof.
  revert h. induction l1 as [|x l1 IH]; intros h; simpl.
  - naive_solver.
  - rewrite IH. naive_solver.
Qed.

(** Redirecting the last link of a segment. *)
Lemma lseg_redirect m h l e t e' :
  NoDup l → last l = Some t → lseg m h l e → lseg (<[t := e']> m) h l e'.
Proof.
  intros Hnd Hl Hs. apply last_Some in Hl as [l' ->].
  apply lseg_app in Hs as (k & H1 & (-> & Hk & _)). apply lseg_app. exists t. split.
  - apply lseg_insert; [|done]. apply NoDup_app in Hnd as (_ & Hn & _). intros Ht.
    apply (Hn _ Ht). set_solver.
  - simpl. rewrite next_of_eq. done.
Qed.

Lemma lseg_head m h l e : lseg m h l e → l ≠ [] → head l = Some h ∧ h ≠ 0.
Proof. destruct l as [|x l]; simpl; naive_solver. Qed.

Lemma chain_nil_iff m h l : chain m h l → h = 0 ↔ l = [].
Proof.
  destruct l as [|x l]; simpl; [naive_solver|]. intros (-> & Hx & _). naive_solver.
Qed.

(** A null-terminated list is determined by its head. *)
Lemma chain_det m h l l' : chain m h l → chain m h l' → l = l'.
Proof.
  unfold chain. revert h l'. induction l as [|x l IH]; intros h [|y l']; simpl; naive_solver.
Qed.

(** Following [n] links. *)
Fixpoint nth_next (m : gmap Z Z) (n : nat) (x : Z) : Z :=
  match n with O => x | S k => nth_next m k (next_of m x) end.

Lemma nth_next_lookup m h l e n x : lseg m h l e → l !! n = Some x → nth_next m n h = x.
Proof.
  revert h n. induction l as [|y l IH]; intros h [|n]; simpl; try done.
  - by intros (-> & _ & _) [= ->].
  - intros (-> & _ & Hl) Hn. by apply IH.
Qed.

(** Cutting a list after its [n]-th node. *)
Lemma chain_cut m h l n :
  chain m h l → (n < length l)%nat →
  let x := nth_next m n h in
  last (take (S n) l) = Some x ∧ lseg m h (take (S n) l) (next_of m x) ∧
  chain m (next_of m x) (drop (S n) l).
Proof.
  unfold chain. intros Hc Hn. simpl. destruct (lookup_lt_is_Some_2 l n Hn) as [x Hx].
  rewrite (nth_next_lookup _ _ _ _ _ _ Hc Hx). rewrite <- (take_drop (S n) l) in Hc.
  apply lseg_app in Hc as (k & H1 & H2). rewrite (take_S_r l n x Hx) in *.
  rewrite last_snoc. split; [done|].
  apply lseg_app in H1 as (k' & H1 & (-> & Hx0 & Hk)). simpl in Hk. subst k. split; [|done].
  apply lseg_app. exists x. by split.
Qed.

(** Hanging a list behind a segment by redirecting the segment's last link. *)
Lemma chain_splice m h l1 k t h2 l2 :
  NoDup (l1 ++ l2) → last l1 = Some t → lseg m h l1 k → chain m h2 l2 →
  chain (<[t := h2]> m) h (l1 ++ l2).
Proof.
  intros (Hnd & Hdis & _)%NoDup_app Hl H1 H2. apply lseg_app. exists h2. split.
  - by eapply lseg_redirect.
  - apply lseg_insert; [|done]. apply Hdis. by apply last_Some_elem_of.
Qed.

Lemma NoDup_perm {A} (l l' : list A) : l ≡ₚ l' → NoDup l → NoDup l'.
Proof. by intros ->. Qed.

(** ** What the threads hold

    A step relation keeps one program counter per thread; [gather f] collects what every
    thread holds according to [f] (up to order). *)

Section gather.
Context {A B : Type} (f : A → list B).

Definition gather (m : gmap nat A) : list B := mjoin (f <$> (map_to_list m).*2).

Lemma gather_delete m i p : m !! i = Some p → gather m ≡ₚ f p ++ gather (delete i m).
Proof. intros Hi. unfold gather. by rewrite <- (map_to_list_delete m i p Hi). Qed.

Lemma gather_insert m i q : gather (<[i := q]> m) ≡ₚ f q ++ gather (delete i m).
Proof.
  rewrite (gather_delete _ i q) by apply lookup_insert_eq. by rewrite delete_insert_eq.
Qed.

Lemma elem_of_gather m x : x ∈ gather m ↔ ∃ i p, m !! i = Some p ∧ x ∈ f p.
Proof.
  unfold gather. rewrite list_elem_of_join. split.
  - intros (l & Hx & (p & -> & Hp)%list_elem_of_fmap).
    apply list_elem_of_fmap in Hp as ([i q] & -> & Hm). apply elem_of_map_to_list in Hm. by exists i, q.
  - intros (i & p & Hm & Hx). exists (f p). split; [done|]. apply list_elem_of_fmap_2.
    apply (list_elem_of_fmap_2 snd _ (i, p)). by apply elem_of_map_to_list.
Qed.

(** A step of thread [i] that keeps, drops or gains what it holds. *)
Lemma gather_move m i p q : m !! i = Some p → f q = f p → gather (<[i := q]> m) ≡ₚ gather m.
Proof. intros Hi Hq. by rewrite gather_insert, Hq, <- gather_delete. Qed.

Lemma gather_change m i p q :
  m !! i = Some p → f p ++ gather (<[i := q]> m) ≡ₚ f q ++ gather m.
Proof.
  intros Hi. rewrite gather_insert, (gather_delete m i p Hi). solve_Permutation.
Qed.

Lemma gather_none m : (∀ i p, m !! i = Some p → f p = []) → gather m = [].
Proof.
  intros H. destruct (gather m) as [|x l] eqn:Eg; [done|]. assert (Hx : x ∈ x :: l) by set_solver. rewrite <- Eg in Hx.
  apply elem_of_gather in Hx as (i & p & Hi & Hx). rewrite (H i p Hi) in Hx. by apply elem_of_nil in Hx.
Qed.
End gather.

(** The number of threads whose program counter satisfies [P]. *)
Section num.
Context {A : Type}.

Definition num (P : A → bool) (m : gmap nat A) : Z :=
  Z.of_nat (length (gather (λ p, if P p then [tt] else []) m)).

Lemma num_nonneg P m : 0 ≤ num P m.
Proof. unfold num. lia. Qed.

Lemma num_insert P m i p q :
  m !! i = Some p → num P (<[i := q]> m) = num P m - Z.b2z (P p) + Z.b2z (P q).
Proof.
  intros Hi. unfold num. pose proof (gather_change (λ p, if P p then [tt] else []) m i p q Hi) as Hg.
  apply Permutation_length in Hg. rewrite !length_app in Hg.
  destruct (P p), (P q); simpl in *; lia.
Qed.

Lemma num_pos P m i p : m !! i = Some p → P p = true → 0 < num P m.
Proof.
  intros Hi Hp. unfold num. rewrite (gather_delete _ m i p Hi), length_app, Hp. simpl. lia.
Qed.

Lemma num_zero P m i p : num P m = 0 → m !! i = Some p → P p = false.
Proof.
  intros Hn Hi. destruct (P p) eqn:Hp; [|done]. pose proof (num_pos P m i p Hi Hp). lia.
Qed.

Lemma num_none P m : (∀ i p, m !! i = Some p → P p = false) → num P m = 0.
Proof.
  intros H. unfold num. destruct (gather _ m) as [|u l] eqn:Hg; [done|].
  assert (Hu : u ∈ u :: l) by set_solver. rewrite <- Hg in Hu.
  apply elem_of_gather in Hu as (i & p & Hi & Hu). rewrite (H i p Hi) in Hu. set_solver.
Qed.

Lemma num_le P Q m : (∀ p, P p = true → Q p = true) → num P m ≤ num Q m.
Proof.
  intros H. unfold num, gather. induction ((map_to_list m).*2) as [|p l IH]; [done|].
  rewrite !fmap_cons. simpl mjoin. rewrite !length_app. specialize (H p).
  destruct (P p), (Q p); simpl length; [lia|by discriminate H|lia|lia].
Qed.

(** Disjoint predicates below a common one. *)
Lemma num_add_le P Q R m :
  (∀ p, P p = true → R p = true ∧ Q p = false) → (∀ p, Q p = true → R p = true) →
  num P m + num Q m ≤ num R m.
Proof.
  intros H1 H2. unfold num, gather. induction ((map_to_list m).*2) as [|p l IH]; [done|].
  rewrite !fmap_cons. simpl mjoin. rewrite !length_app. specialize (H1 p). specialize (H2 p).
  destruct (P p), (Q p), (R p); simpl length; try lia; naive_solver.
Qed.
End num.

Lemma num_le_size {A} (P : A → bool) (m : gmap nat A) : num P m ≤ Z.of_nat (size m).
Proof.
  unfold num, gather. rewrite <- length_map_to_list. rewrite <- (length_fmap snd).
  induction (map_to_list m).*2 as [|p k IH]; [done|]. rewrite fmap_cons. simpl mjoin. rewrite length_app. simpl length in *. destruct (P p); simpl length; lia.
Qed.

(** A thread that is not [i] has not got there yet. *)
Lemma num_below {A} (P : A → bool) (m : gmap nat A) i p : m !! i = Some p → P p = false → num P m ≤ Z.of_nat (size m) - 1.
Proof.
  intros Hi Hp. assert (num P m = num P (delete i m)) as ->.
  { unfold num. by rewrite (gather_delete _ m i p Hi), Hp. }
  pose proof (num_le_size P (delete i m)) as H. rewrite map_size_delete_Some in H by (by eexists). 
  assert (size m ≠ 0%nat) by (intros E; apply map_size_empty_inv in E; by rewrite E in Hi). lia.
Qed.

(** A count that is not zero counts someone. *)
Lemma num_some {A} (P : A → bool) (m : gmap nat A) : num P m ≠ 0 → ∃ i p, m !! i = Some p ∧ P p = true.
Proof.
  intros H. destruct (gather (λ p, if P p then [tt] else []) m) as [|u k] eqn:Eg; [unfold num in H; by rewrite Eg in H|].
  assert (Hu : u ∈ u :: k) by set_solver. rewrite <- Eg in Hu. apply elem_of_gather in Hu as (j & pj & Hj & Hu).
  exists j, pj. split; [done|]. destruct (P pj); [done|]. by apply elem_of_nil in Hu.
Qed.

(** A thread that starts. *)
Lemma num_insert_new {A} (P : A → bool) (m : gmap nat A) i q : m !! i = None → num P (<[i := q]> m) = num P m + Z.b2z (P q).
Proof.
  intros Hi. unfold num. rewrite gather_insert, delete_id by done. rewrite length_app. destruct (P q); simpl length; simpl Z.b2z; lia.
Qed.

(** At most one thread satisfies [R], thread [i] does: no thread satisfies a stronger [P]
    that [i] does not. *)
Lemma num_unique {A} (P R : A → bool) (m : gmap nat A) i p :
  num R m ≤ 1 → m !! i = Some p → R p = true → (∀ q, P q = true → R q = true) → P p = false →
  num P m = 0.
Proof.
  intros Hn Hi Hp HPR HPp. apply num_none. intros j q Hj.
  destruct (P q) eqn:Hq; [|done]. assert (i ≠ j) by (intros ->; congruence).
  pose proof (num_pos R (delete i m) j q) as H1. rewrite lookup_delete_ne in H1 by done.
  specialize (H1 Hj (HPR _ Hq)). unfold num in *.
  rewrite (gather_delete _ m i p Hi), length_app, Hp in Hn. simpl in Hn. lia.
Qed.

(** Following links from a node leads to null only once. *)
Lemma chain_NoDup m h l : chain m h l → NoDup l.
Proof.
  unfold chain. revert h. induction l as [|x l IH]; intros h; [constructor|].
  intros (-> & Hx & Hl). apply NoDup_cons. split; [|by eapply IH].
  intros (l1 & l2 & ->)%list_elem_of_split.
  pose proof Hl as (k & _ & (-> & _ & H2))%lseg_app.
  pose proof (chain_det m (next_of m x) _ _ Hl H2) as Heq.
  apply (f_equal length) in Heq. rewrite length_app in Heq. simpl in Heq. lia.
Qed.

(** One step of a concrete run: constructor [g] of the step relation, rule [c] of the
    thread's own; the state reached is evaluated. *)
Ltac eval_state :=
  match goal with |- rtc _ ?x _ => let y := eval vm_compute in x in change x with y end.
Tactic Notation "run_step" uconstr(g) uconstr(c) :=
  eapply rtc_l; [eapply g; eapply c; vm_compute; reflexivity|]; eval_state.

Lemma filter_keep {A} (P : A → Prop) `{∀ x, Decision (P x)} (l : list A) :
  (∀ x, x ∈ l → P x) → filter P l = l.
Proof.
  induction l as [|x l IH]; intros Hp; [done|].
  rewrite filter_cons_True by (apply Hp; set_solver). f_equal. apply IH. set_solver.
Qed.
