(* ===== verification/TaskTypes.v ===== *)
(** * Task metadata (include/Task.h)

    The enumerations a worker reads off a task, the pin that says where a suspended
    task resumes, the task and its record, the one-byte flag block and the layout
    hash the library uses to compare flag layouts across translation units. *)

From S2P Require Import Prelude.

(** ** Enumerations *)

Inductive TaskType := Fiber | Coroutine | Native.
Inductive StackClass := Standard | Deep.
Inductive Lane := Normal | LowLatency.
Inductive CorePref := PrefP | PrefE | PrefAny.
Inductive Mode := Migrate | Pinned.
Inductive MainMode := OutOfPool | InPool | DefaultMain.

#[export] Instance TaskType_eq_dec : EqDecision TaskType.
Proof. solve_decision. Defined.
#[export] Instance StackClass_eq_dec : EqDecision StackClass.
Proof. solve_decision. Defined.
#[export] Instance Lane_eq_dec : EqDecision Lane.
Proof. solve_decision. Defined.

(** The underlying [uint8_t] of each enumerator. *)
Definition TaskType_code (t : TaskType) : Z :=
  match t with Fiber => 0 | Coroutine => 1 | Native => 2 end.

(** [static_cast<TaskType>(v)]: the value 3 names no enumerator. *)
Definition TaskType_of (v : Z) : option TaskType :=
  match v with 0 => Some Fiber | 1 => Some Coroutine | 2 => Some Native | _ => None end.

Definition StackClass_code (c : StackClass) : Z := match c with Standard => 0 | Deep => 1 end.
Definition StackClass_of (v : Z) : option StackClass :=
  match v with 0 => Some Standard | 1 => Some Deep | _ => None end.

Definition Lane_code (l : Lane) : Z := match l with Normal => 0 | LowLatency => 1 end.
Definition Lane_of (v : Z) : option Lane :=
  match v with 0 => Some Normal | 1 => Some LowLatency | _ => None end.

Definition IsLowLatency (l : Lane) : bool := bool_decide (l = LowLatency).
Definition IsNormalLane (l : Lane) : bool := bool_decide (l = Normal).

(** ** Pin *)

Record Pin := mkPin { target : Z }.
#[export] Instance Pin_eq_dec : EqDecision Pin.
Proof. solve_decision. Defined.

Definition kNone : Z := 0xFFFF.
Definition kCurrent : Z := 0xFFFE.
Definition kMain : Z := 0xFFFD.
Definition Pin_None : Pin := mkPin kNone.
Definition Pin_Current : Pin := mkPin kCurrent.
Definition Pin_Main : Pin := mkPin kMain.
Definition Pin_Thread (worker : Z) : Pin := mkPin (u16 worker).

(** What a pin asks for, in the words of the comment on [struct Pin]. *)
Inductive PinMeaning := Anywhere | SuspendingThread | MainThread | Worker (n : Z).

Definition Pin_meaning (p : Pin) : PinMeaning :=
  if decide (p = Pin_None) then Anywhere
  else if decide (p = Pin_Current) then SuspendingThread
  else if decide (p = Pin_Main) then MainThread
  else Worker (target p).

(** ** The task and its record

    Pointers are [Z], 0 for null. *)

Record TaskDebt := mkTaskDebt { debt_next : Z; debt_obj : Z; debt_release : Z }.

Definition kLocalSlots : Z := 8.
Definition kNoPin : Z := kNone.

Record TaskRecord := mkTaskRecord {
  rec_fiber : Z; rec_debts : Z; rec_locals : Z; rec_waitNext : Z; rec_waitPrev : Z;
  rec_generation : Z; rec_pinTo : Z; rec_home : Z }.

Definition new_TaskRecord : TaskRecord := mkTaskRecord 0 0 0 0 0 0 kNoPin 0.

Record TaskFlags := mkFlags {
  lane : Lane; type : TaskType; priorityBoost : bool; trivialDtor : bool; stackClass : StackClass }.

Record Task := mkTask {
  fn : Z; data : Z; record : Z; next : Z; waitGroup : Z;
  flags : TaskFlags; started : Z; cancelledDirect : Z; cancelToken : Z }.

(** The two constructors of [Task] and those of [LambdaTask], whose [this] is [self]
    and whose wrapper is [wrapper]. *)
Definition default_flags (ln : Lane) : TaskFlags := mkFlags ln Fiber false false Standard.
Definition new_Task : Task := mkTask 0 0 0 0 0 (default_flags Normal) 0 0 0xFFFFFFFF.
Definition new_Task_fn (f d : Z) (ln : Lane) : Task :=
  mkTask f d 0 0 0 (default_flags ln) 0 0 0xFFFFFFFF.
Definition new_LambdaTask (self wrapper : Z) : Task :=
  mkTask wrapper self 0 0 0 (mkFlags Normal Native false false Standard) 0 0 0xFFFFFFFF.

Definition native (t : Task) : bool := bool_decide (type (flags t) = Native).

(** [Execute] calls [fn(data)]; [DestroyTask] runs the destructor unless it is trivial.
    Both are returned as the call they make. *)
Definition Execute (t : Task) : Z * Z := (fn t, data t).
Definition DestroyTask (t : Task) : bool := negb (trivialDtor (flags t)).

(** ** The flag byte

    Bit-fields are allocated from the low bit up, as the supported ABIs do. *)
Definition pack_flags (f : TaskFlags) : Z :=
  Lane_code (lane f)
  + Z.shiftl (TaskType_code (type f)) 1
  + Z.shiftl (Z.b2z (priorityBoost f)) 3
  + Z.shiftl (Z.b2z (trivialDtor f)) 4
  + Z.shiftl (StackClass_code (stackClass f)) 5.

Definition bitfield (b pos width : Z) : Z := Z.land (Z.shiftr b pos) (2 ^ width - 1).

Definition unpack_flags (b : Z) : option TaskFlags :=
  l ← Lane_of (bitfield b 0 1);
  ty ← TaskType_of (bitfield b 1 2);
  sc ← StackClass_of (bitfield b 5 2);
  Some (mkFlags l ty (bitfield b 3 1 =? 1) (bitfield b 4 1 =? 1) sc).

(** [TaskFlagBitLayout]: FNV-1a over the byte images of five probes, each with one
    field set to a non-zero value and every other field zero. *)
Definition fnv_mix (h b : Z) : Z := u32 (Z.lxor h b * 16777619).

Definition zero_flags : TaskFlags := mkFlags Normal Fiber false false Standard.

Definition layout_probes : list TaskFlags :=
  [ mkFlags LowLatency Fiber false false Standard;
    mkFlags Normal Native false false Standard;
    mkFlags Normal Fiber true false Standard;
    mkFlags Normal Fiber false true Standard;
    mkFlags Normal Fiber false false Deep ].

Definition TaskFlagBitLayout : Z :=
  fold_left fnv_mix (pack_flags <$> layout_probes) 2166136261.

(** ** Facts *)

Lemma TaskType_of_code t : TaskType_of (TaskType_code t) = Some t.
Proof. by destruct t. Qed.

Lemma TaskType_code_range t : 0 ≤ TaskType_code t < 2 ^ 2.
Proof. destruct t; simpl; lia. Qed.

#[export] Hint Resolve TaskType_code_range : word.

(** the five flag fields of a task pack into one byte, every value of every field
    is read back unchanged, and the layout hash mixes bytes in which exactly one field
    differs from zero. *)
Theorem flags_roundtrip (f : TaskFlags) :
  unpack_flags (pack_flags f) = Some f ∧ 0 ≤ pack_flags f < 2 ^ 7.
Proof. destruct f as [[] [] [] [] []]; split; vm_compute; done. Qed.

(** the four kinds of pin are told apart: a worker index is read back as that
    worker exactly when it is below the three sentinels, and the sentinels mean
    resume-anywhere, the suspending thread and main. *)
Theorem pin_meaning_spec (n : Z) :
  0 ≤ n < 2 ^ 16 →
  (Pin_meaning (Pin_Thread n) = Worker n ↔ n < kMain)
  ∧ Pin_meaning Pin_None = Anywhere
  ∧ Pin_meaning Pin_Current = SuspendingThread
  ∧ Pin_meaning Pin_Main = MainThread.
Proof.
  intros Hn. split; [|done]. unfold Pin_meaning, Pin_Thread. rewrite u16_small by done.
  unfold Pin_None, Pin_Current, Pin_Main, kNone, kCurrent, kMain.
  assert (Hinj : ∀ m, mkPin n ≠ mkPin m → n ≠ m) by congruence.
  repeat case_decide; simplify_eq; split; try done; intros; simplify_eq; try lia;
    repeat match goal with H : mkPin _ ≠ mkPin _ |- _ => apply Hinj in H end; lia.
Qed.

Lemma pin_meaning_spec_witness :
  0 ≤ 3 < 2 ^ 16 ∧ Pin_meaning (Pin_Thread 3) = Worker 3.
Proof. split; [lia|]. apply (pin_meaning_spec 3); vm_compute; done. Defined.
