(* ===== verification/TaskDeque.v ===== *)
(** * The work-stealing deque (include/TaskDeque.h)

    The ring buffer, its growth, the tagged slots and every operation of the class as a
    function of the whole deque, with the theorems that relate them to a list of tagged
    task pointers.  TaskDequeConc interleaves the same operations atomic access by
    atomic access. *)

From stdpp Require Import strings.
From S2P Require Import Prelude TaskTypes.

(** ** Slots: a task pointer with its [TaskType] in the two low bits *)

Definition kTagMask : Z := 0x3.

Definition tag (ty : TaskType) (item : Z) : Z := Z.lor item (Z.land (TaskType_code ty) 0x3).
Definition untag (v : Z) : Z := Z.ldiff v kTagMask.
Definition bits (v : Z) : option TaskType := TaskType_of (Z.land v 0x3).
Definition native_bits (b : option TaskType) : bool := bool_decide (b = Some Native).

(** ** State *)

Record Ring := mkRing { mask : Z; capacity : Z; slots : list Z }.

Inductive DequeFatal :=
| CapacityNotPowerOfTwo
| PopOnPushOnly (owner : Z)
| CannotGrow (cap : Z) (why : string) (owner : Z) (lane : string) (top bottom : Z)
| Diverges.

Record Deque := mkDeque {
  ring_ : Ring; retired_ : list Ring; maxCapacity_ : Z; ceilingIsHard_ : bool;
  warnedPastCeiling_ : bool; ownerIndex_ : Z; ownerLane_ : string; pushOnly_ : bool;
  flagMirror_ : Z; workFlag_ : option Z; top_ : Z; bottom_ : Z; g_growCount : Z }.

Definition kDefaultMaxCapacity : Z := 2 ^ 16.
Definition kHardMaxCapacity : Z := 2 ^ 22.

Definition set_ring (r : Ring) (d : Deque) : Deque :=
  mkDeque r (retired_ d) (maxCapacity_ d) (ceilingIsHard_ d) (warnedPastCeiling_ d)
    (ownerIndex_ d) (ownerLane_ d) (pushOnly_ d) (flagMirror_ d) (workFlag_ d)
    (top_ d) (bottom_ d) (g_growCount d).
Definition set_warned (w : bool) (d : Deque) : Deque :=
  mkDeque (ring_ d) (retired_ d) (maxCapacity_ d) (ceilingIsHard_ d) w
    (ownerIndex_ d) (ownerLane_ d) (pushOnly_ d) (flagMirror_ d) (workFlag_ d)
    (top_ d) (bottom_ d) (g_growCount d).
Definition set_top (t : Z) (d : Deque) : Deque :=
  mkDeque (ring_ d) (retired_ d) (maxCapacity_ d) (ceilingIsHard_ d) (warnedPastCeiling_ d)
    (ownerIndex_ d) (ownerLane_ d) (pushOnly_ d) (flagMirror_ d) (workFlag_ d)
    t (bottom_ d) (g_growCount d).
Definition set_bottom (b : Z) (d : Deque) : Deque :=
  mkDeque (ring_ d) (retired_ d) (maxCapacity_ d) (ceilingIsHard_ d) (warnedPastCeiling_ d)
    (ownerIndex_ d) (ownerLane_ d) (pushOnly_ d) (flagMirror_ d) (workFlag_ d)
    (top_ d) b (g_growCount d).

(** ** Rings *)

Definition MakeRing (cap : Z) : Ring := mkRing (cap ⊖ 1) cap (replicate (Z.to_nat cap) 0).

Definition ring_get (r : Ring) (i : Z) : Z := default 0 (slots r !! Z.to_nat (Z.land i (mask r))).
Definition ring_set (r : Ring) (i v : Z) : Ring :=
  mkRing (mask r) (capacity r) (<[Z.to_nat (Z.land i (mask r)) := v]> (slots r)).

(** [for (i = t; i != b; ++i) r->slots[i & r->mask] = old->slots[i & old->mask]]: the
    loop runs [b - t] times (modulo [2^64]). *)
Fixpoint copy_range (n : nat) (i : Z) (old r : Ring) : Ring :=
  match n with
  | O => r
  | S n' => copy_range n' (i ⊕ 1) old (ring_set r i (ring_get old i))
  end.

(** [for (i = 0; i < count; ++i) r->slots[(b + i) & r->mask] = tag(items[i])] *)
Fixpoint store_range (ty : Z → TaskType) (b : Z) (items : list Z) (r : Ring) : Ring :=
  match items with
  | [] => r
  | x :: xs => store_range ty (b ⊕ 1) xs (ring_set r b (tag (ty x) x))
  end.

(** ** Construction and configuration *)

Definition new_TaskDeque (cap maxCap : Z) : res DequeFatal Deque :=
  if negb (Z.land cap (cap ⊖ 1) =? 0) then Err CapacityNotPowerOfTwo
  else Ok (mkDeque (MakeRing cap) [] (if maxCap <? cap then cap else maxCap)
             (negb (maxCap =? kDefaultMaxCapacity)) false SIZE_MAX "untagged" false 0 None 0 0 0).

Definition SetOwnerTag (index : Z) (lane : string) (d : Deque) : Deque :=
  mkDeque (ring_ d) (retired_ d) (maxCapacity_ d) (ceilingIsHard_ d) (warnedPastCeiling_ d)
    index lane (pushOnly_ d) (flagMirror_ d) (workFlag_ d) (top_ d) (bottom_ d) (g_growCount d).

Definition SetPushOnly (d : Deque) : Deque :=
  mkDeque (ring_ d) (retired_ d) (maxCapacity_ d) (ceilingIsHard_ d) (warnedPastCeiling_ d)
    (ownerIndex_ d) (ownerLane_ d) true (flagMirror_ d) (workFlag_ d)
    (top_ d) (bottom_ d) (g_growCount d).

(** The work flag lives in the scheduler's array: [workFlag_] carries its current value
    once one is attached. *)
Definition SetWorkFlag (cell : Z) (d : Deque) : Deque :=
  mkDeque (ring_ d) (retired_ d) (maxCapacity_ d) (ceilingIsHard_ d) (warnedPastCeiling_ d)
    (ownerIndex_ d) (ownerLane_ d) (pushOnly_ d) 0 (Some cell)
    (top_ d) (bottom_ d) (g_growCount d).

Definition StoreFlag (v : Z) (d : Deque) : Deque :=
  match workFlag_ d with
  | Some _ =>
      if flagMirror_ d =? v then d
      else mkDeque (ring_ d) (retired_ d) (maxCapacity_ d) (ceilingIsHard_ d)
             (warnedPastCeiling_ d) (ownerIndex_ d) (ownerLane_ d) (pushOnly_ d) v (Some v)
             (top_ d) (bottom_ d) (g_growCount d)
  | None => d
  end.
Definition MarkHasWork (d : Deque) : Deque := StoreFlag 1 d.
Definition MarkEmpty (d : Deque) : Deque := StoreFlag 0 d.

(** ** Operations

    [alloc_ok cap] says whether [new] delivers a ring of [cap] slots; an array of [2^61]
    or more 8-byte slots exceeds the address space and [new] always throws
    ([std::bad_array_new_length], a [std::bad_alloc]).  [ty p] is the [type] field of the
    task at [p]. *)
Section operations.
Context (alloc_ok : Z → bool) (ty : Z → TaskType).

Definition new_ring_ok (cap : Z) : bool := (cap <? 2 ^ 61) && alloc_ok cap.

Definition FatalGrow (d : Deque) (why : string) (t b : Z) : DequeFatal :=
  CannotGrow (capacity (ring_ d)) why (ownerIndex_ d) (ownerLane_ d) t b.

Definition install_ring (r : Ring) (d : Deque) : Deque :=
  mkDeque r (retired_ d ++ [ring_ d]) (maxCapacity_ d) (ceilingIsHard_ d) (warnedPastCeiling_ d)
    (ownerIndex_ d) (ownerLane_ d) (pushOnly_ d) (flagMirror_ d) (workFlag_ d)
    (top_ d) (bottom_ d) (g_growCount d ⊕ 1).

Definition grow (t b : Z) (d : Deque) : res DequeFatal Deque :=
  let old := ring_ d in
  let newCap := u64 (capacity old * 2) in
  if (maxCapacity_ d <? newCap) && ceilingIsHard_ d
  then Err (FatalGrow d "ceiling reached" t b)
  else if (maxCapacity_ d <? newCap) && (kHardMaxCapacity <? newCap)
  then Err (FatalGrow d "hard ceiling reached" t b)
  else
    let d1 := if maxCapacity_ d <? newCap then set_warned true d else d in
    if negb (new_ring_ok newCap) then Err (FatalGrow d "out of memory" t b)
    else Ok (install_ring (copy_range (Z.to_nat (b ⊖ t)) t old (MakeRing newCap)) d1).

Definition push_bottom (item : Z) (d : Deque) : res DequeFatal (bool * Deque) :=
  if item =? 0 then Ok (false, d)
  else
    let b := bottom_ d in
    let t := top_ d in
    d1 ← (if capacity (ring_ d) <=? b ⊖ t then grow t b d else Ok d);
    let d2 := set_ring (ring_set (ring_ d1) b (tag (ty item) item)) d1 in
    Ok (true, MarkHasWork (set_bottom (b ⊕ 1) d2)).

(** [while ((b + count) - t > r->capacity) grow(r, t, b)]: each turn doubles the ring. *)
Fixpoint grow_until (fuel : nat) (t b count : Z) (d : Deque) : res DequeFatal Deque :=
  match fuel with
  | O => Err Diverges
  | S fuel' =>
      if capacity (ring_ d) <? (b ⊕ count) ⊖ t
      then d1 ← grow t b d; grow_until fuel' t b count d1
      else Ok d
  end.

Definition push_bottom_batch (items : list Z) (d : Deque) : res DequeFatal (bool * Deque) :=
  let b := bottom_ d in
  let t := top_ d in
  let count := Z.of_nat (length items) in
  d1 ← grow_until 65 t b count d;
  let d2 := set_ring (store_range ty b items (ring_ d1)) d1 in
  Ok (true, MarkHasWork (set_bottom (b ⊕ count) d2)).

(** [compare_exchange_strong(t, t + 1)] on [top_]. *)
Definition cas_top (t : Z) (d : Deque) : bool * Deque :=
  if top_ d =? t then (true, set_top (t ⊕ 1) d) else (false, d).

Definition pop_bottom (d : Deque) : res DequeFatal (option Z * Deque) :=
  if pushOnly_ d then Err (PopOnPushOnly (ownerIndex_ d))
  else if bottom_ d <=? top_ d then Ok (None, MarkEmpty d)
  else
    let b := bottom_ d ⊖ 1 in
    let d1 := set_bottom b d in
    let t := top_ d1 in
    if t <=? b then
      let item := untag (ring_get (ring_ d1) b) in
      if t =? b then
        let '(won, d2) := cas_top t d1 in
        let d3 := MarkEmpty (set_bottom (b ⊕ 1) d2) in
        Ok (if won then Some item else None, d3)
      else Ok (Some item, d1)
    else Ok (None, MarkEmpty (set_bottom t d1)).

Definition steal (d : Deque) : option Z * Deque :=
  let t := top_ d in
  let b := bottom_ d in
  if t <? b then
    let item := untag (ring_get (ring_ d) t) in
    let '(won, d1) := cas_top t d in
    (if won then Some item else None, d1)
  else (None, d).

Definition steal_if (pred : option TaskType → bool) (d : Deque) : option Z * Deque :=
  let t := top_ d in
  let b := bottom_ d in
  if t <? b then
    let slot := ring_get (ring_ d) t in
    if negb (pred (bits slot)) then (None, d)
    else
      let item := untag slot in
      let '(won, d1) := cas_top t d in
      (if won then Some item else None, d1)
  else (None, d).

Definition size_approx (d : Deque) : Z :=
  if top_ d <? bottom_ d then bottom_ d ⊖ top_ d else 0.
Definition deque_capacity (d : Deque) : Z := capacity (ring_ d).
Definition deque_empty (d : Deque) : bool := bottom_ d <=? top_ d.
End operations.

(** ** Rings as infinite arrays modulo their capacity *)

Definition ring_wf (r : Ring) : Prop :=
  ∃ k, 0 ≤ k ≤ 60 ∧ capacity r = 2 ^ k ∧ mask r = 2 ^ k - 1
       ∧ length (slots r) = Z.to_nat (2 ^ k).

Lemma ring_wf_pos r : ring_wf r → 0 < capacity r < 2 ^ 64.
Proof.
  intros (k & Hk & -> & _). split; [apply Z.pow_pos_nonneg; lia|].
  apply Z.pow_lt_mono_r; lia.
Qed.

Lemma MakeRing_wf k : 0 ≤ k ≤ 60 → ring_wf (MakeRing (2 ^ k)).
Proof.
  intros Hk. exists k. split; [done|].
  assert (0 < 2 ^ k < 2 ^ 64).
  { split; [apply Z.pow_pos_nonneg|apply Z.pow_lt_mono_r]; lia. }
  simpl. rewrite u64_small by lia. by rewrite length_replicate.
Qed.

Lemma ring_set_wf r i v : ring_wf r → ring_wf (ring_set r i v).
Proof.
  intros (k & Hk & Hc & Hm & Hl). exists k. simpl. by rewrite length_insert.
Qed.

Lemma ring_get_set r i j v :
  ring_wf r →
  ring_get (ring_set r i v) j
  = if decide (i `mod` capacity r = j `mod` capacity r) then v else ring_get r j.
Proof.
  intros (k & Hk & Hc & Hm & Hl). unfold ring_get, ring_set. simpl.
  rewrite Hm, !land_mask, Hc by lia.
  assert (Hpos : 0 < 2 ^ k) by (apply Z.pow_pos_nonneg; lia).
  pose proof (Z.mod_pos_bound i _ Hpos). pose proof (Z.mod_pos_bound j _ Hpos).
  case_decide as Hij.
  - rewrite Hij, list_lookup_insert_eq by lia. done.
  - rewrite list_lookup_insert_ne by lia. done.
Qed.

(** Two indices at most a capacity apart share a slot only when equal. *)
Lemma mod_window_inj c i j : 0 < c → i `mod` c = j `mod` c → Z.abs (i - j) < c → i = j.
Proof.
  intros Hc Hm Hd. assert (H : (i - j) `mod` c = 0).
  { rewrite Zminus_mod, Hm, Z.sub_diag, Zmod_0_l. done. }
  apply Z.mod_divide in H; [|lia]. destruct H as [q Hq].
  assert (q = 0) by nia. lia.
Qed.

Lemma ring_get_set_eq r i v : ring_wf r → ring_get (ring_set r i v) i = v.
Proof. intros Hr. rewrite ring_get_set by done. by case_decide. Qed.

Lemma ring_get_set_ne r i j v :
  ring_wf r → i ≠ j → Z.abs (i - j) < capacity r →
  ring_get (ring_set r i v) j = ring_get r j.
Proof.
  intros Hr Hne Hd. rewrite ring_get_set by done. case_decide as Hm; [|done].
  destruct Hne. eapply mod_window_inj; [|done|done]. apply ring_wf_pos in Hr; lia.
Qed.

Lemma copy_range_spec n i old r :
  ring_wf r → 0 ≤ i → i + Z.of_nat n < 2 ^ 64 → Z.of_nat n ≤ capacity r →
  let r' := copy_range n i old r in
  ring_wf r' ∧ capacity r' = capacity r
  ∧ (∀ j, i ≤ j < i + Z.of_nat n → ring_get r' j = ring_get old j)
  ∧ (∀ j, j < i → i + Z.of_nat n - j ≤ capacity r → ring_get r' j = ring_get r j).
Proof.
  revert i r. induction n as [|n IH]; intros i r Hr Hi Hlt Hcap; simpl.
  { split_and!; try done. lia. }
  rewrite u64_small by lia.
  destruct (IH (i + 1) (ring_set r i (ring_get old i))) as (H1 & H2 & H3 & H4);
    [by apply ring_set_wf|lia|lia|simpl; lia|].
  split_and!; [done|done|..].
  - intros j Hj. destruct (decide (j = i)) as [->|].
    + rewrite H4 by (simpl; lia). by apply ring_get_set_eq.
    + apply H3. lia.
  - intros j Hj Hw. rewrite H4 by (simpl; lia). apply ring_get_set_ne; [done|lia|lia].
Qed.

Lemma store_range_spec ty b items r :
  ring_wf r → 0 ≤ b → b + Z.of_nat (length items) < 2 ^ 64 →
  Z.of_nat (length items) ≤ capacity r →
  let r' := store_range ty b items r in
  ring_wf r' ∧ capacity r' = capacity r
  ∧ (∀ n x, items !! n = Some x → ring_get r' (b + Z.of_nat n) = tag (ty x) x)
  ∧ (∀ j, j < b → b + Z.of_nat (length items) - j ≤ capacity r → ring_get r' j = ring_get r j).
Proof.
  revert b r. induction items as [|x items IH]; intros b r Hr Hb Hlt Hcap; simpl in *.
  { split_and!; [done|done|intros n y; by rewrite lookup_nil|done]. }
  rewrite u64_small by lia.
  destruct (IH (b + 1) (ring_set r b (tag (ty x) x))) as (H1 & H2 & H3 & H4);
    [by apply ring_set_wf|lia|lia|simpl; lia|].
  split_and!; [done|done|..].
  - intros [|n] y Hy; simplify_eq/=.
    + rewrite Z.add_0_r, H4 by (simpl; lia). by apply ring_get_set_eq.
    + rewrite <- (H3 n y Hy). f_equal. lia.
  - intros j Hj Hw. rewrite H4 by (simpl; lia). apply ring_get_set_ne; [done|lia|lia].
Qed.

(** ** The abstract contents *)

Definition contents_of (r : Ring) (t b : Z) : list Z := ring_get r <$> seqZ t (b - t).
Definition contents (d : Deque) : list Z := contents_of (ring_ d) (top_ d) (bottom_ d).

Definition wf (d : Deque) : Prop :=
  ring_wf (ring_ d) ∧ 0 ≤ top_ d ≤ bottom_ d ∧ bottom_ d < 2 ^ 64
  ∧ bottom_ d - top_ d ≤ capacity (ring_ d).

Lemma contents_of_ext r r' t b :
  (∀ j, t ≤ j < b → ring_get r' j = ring_get r j) → contents_of r' t b = contents_of r t b.
Proof.
  intros H. unfold contents_of. apply list_fmap_ext. intros n j Hj.
  apply lookup_seqZ in Hj. apply H. lia.
Qed.

Lemma contents_of_snoc r t b : t ≤ b → contents_of r t (b + 1) = contents_of r t b ++ [ring_get r b].
Proof.
  intros H. unfold contents_of. replace (b + 1 - t) with ((b - t) + 1) by lia.
  rewrite seqZ_app by lia. rewrite fmap_app. do 2 f_equal.
  rewrite seqZ_cons by lia. simpl. f_equal. f_equal. lia.
Qed.

Lemma contents_of_cons r t b : t < b → contents_of r t b = ring_get r t :: contents_of r (t + 1) b.
Proof.
  intros H. unfold contents_of. rewrite seqZ_cons by lia. simpl. do 3 f_equal; lia.
Qed.

Lemma contents_of_nil r t b : b ≤ t → contents_of r t b = [].
Proof. intros H. unfold contents_of. by rewrite seqZ_nil by lia. Qed.

Lemma contents_of_app r t m b :
  t ≤ m ≤ b → contents_of r t b = contents_of r t m ++ contents_of r m b.
Proof.
  intros H. unfold contents_of. rewrite <- fmap_app. f_equal.
  replace (b - t) with ((m - t) + (b - m)) by lia. rewrite seqZ_app by lia.
  do 2 f_equal. lia.
Qed.

(** Every element of the contents is a slot in the window. *)
Lemma contents_of_length r t b : t ≤ b → length (contents_of r t b) = Z.to_nat (b - t).
Proof. intros H. unfold contents_of. rewrite length_fmap, length_seqZ. done. Qed.

(** ** What each operation does to the contents *)

Lemma u64_pred_spec b t : 0 ≤ t ≤ b → b < 2 ^ 64 → b ⊖ t = b - t.
Proof. intros. apply u64_small. lia. Qed.

Lemma StoreFlag_core v d :
  ring_ (StoreFlag v d) = ring_ d ∧ top_ (StoreFlag v d) = top_ d
  ∧ bottom_ (StoreFlag v d) = bottom_ d ∧ pushOnly_ (StoreFlag v d) = pushOnly_ d.
Proof. unfold StoreFlag. destruct (workFlag_ d); [case_match|]; done. Qed.

Lemma StoreFlag_wf v d : wf d → wf (StoreFlag v d).
Proof. unfold wf. destruct (StoreFlag_core v d) as (-> & -> & -> & _). done. Qed.

Lemma StoreFlag_contents v d : contents (StoreFlag v d) = contents d.
Proof. unfold contents. destruct (StoreFlag_core v d) as (-> & -> & -> & _). done. Qed.

#[export] Hint Resolve StoreFlag_wf : sched.

Section operation_lemmas.
Context (alloc_ok : Z → bool) (ty : Z → TaskType).

(** Growing keeps the live window, doubles the ring and retires the old one. *)
Lemma grow_spec d d' :
  wf d → grow alloc_ok (top_ d) (bottom_ d) d = Ok d' →
  wf d' ∧ contents d' = contents d ∧ capacity (ring_ d') = 2 * capacity (ring_ d)
  ∧ top_ d' = top_ d ∧ bottom_ d' = bottom_ d ∧ retired_ d' = retired_ d ++ [ring_ d]
  ∧ pushOnly_ d' = pushOnly_ d.
Proof.
  intros (Hr & Ht & Hb & Hn) Hg. pose proof Hr as (k & Hk & Hc & Hm & Hl).
  assert (Hd : u64 (capacity (ring_ d) * 2) = 2 ^ (k + 1)).
  { rewrite Hc, Z.pow_add_r, Z.pow_1_r by lia. apply u64_small.
    assert (2 ^ k ≤ 2 ^ 60) by (apply Z.pow_le_mono_r; lia).
    assert (0 < 2 ^ k) by (apply Z.pow_pos_nonneg; lia). lia. }
  assert (Hdbl : 2 ^ (k + 1) = 2 * 2 ^ k) by (rewrite Z.pow_add_r by lia; lia).
  unfold grow in Hg. rewrite Hd in Hg. repeat (case_match; simplify_eq).
  all: unfold new_ring_ok in *.
  all: match goal with H : negb (_ && _) = false |- _ =>
         apply negb_false_iff, andb_true_iff in H as [Hlim%Z.ltb_lt _] end.
  all: assert (k + 1 < 61) by (apply (Z.pow_lt_mono_r_iff 2); lia).
  all: rewrite u64_pred_spec by lia.
  all: destruct (copy_range_spec (Z.to_nat (bottom_ d - top_ d)) (top_ d) (ring_ d)
         (MakeRing (2 ^ (k + 1)))) as (Hw & Hcp & Hcopy & _);
       [apply MakeRing_wf; lia|lia|lia|simpl in *; lia|simpl in Hcp].
  all: unfold wf, contents; simpl; split_and!; try done; try lia.
  all: apply contents_of_ext; intros j Hj; apply Hcopy; lia.
Qed.

Lemma push_ready_spec item d :
  wf d → bottom_ d - top_ d < capacity (ring_ d) → bottom_ d + 1 < 2 ^ 64 →
  let r := ring_set (ring_ d) (bottom_ d) (tag (ty item) item) in
  let d' := MarkHasWork (set_bottom (bottom_ d ⊕ 1) (set_ring r d)) in
  wf d' ∧ contents d' = contents d ++ [tag (ty item) item].
Proof.
  intros (Hr & Ht & Hb & Hn) Hroom Hov r d'. unfold d', MarkHasWork.
  rewrite StoreFlag_contents. rewrite u64_small by lia.
  split.
  - apply StoreFlag_wf. unfold wf, r; simpl. split_and!; try lia. by apply ring_set_wf.
  - unfold contents; simpl. rewrite contents_of_snoc by lia. unfold r.
    rewrite ring_get_set_eq by done. f_equal. apply contents_of_ext. intros j Hj.
    apply ring_get_set_ne; [done|lia|lia].
Qed.

Lemma grow_until_spec fuel count d d' :
  wf d → 0 ≤ count → bottom_ d + count < 2 ^ 64 →
  grow_until alloc_ok fuel (top_ d) (bottom_ d) count d = Ok d' →
  wf d' ∧ contents d' = contents d ∧ top_ d' = top_ d ∧ bottom_ d' = bottom_ d
  ∧ bottom_ d + count - top_ d ≤ capacity (ring_ d').
Proof.
  revert d. induction fuel as [|fuel IH]; intros d Hwf Hc Hov Hg; simplify_eq/=.
  pose proof Hwf as (Hr & Ht & Hb & Hn).
  rewrite (u64_small (bottom_ d + count)), u64_pred_spec in Hg by lia.
  case_match eqn:Hcap; [|simplify_eq; apply Z.ltb_ge in Hcap; done].
  destruct (grow _ _ _ d) as [d1|] eqn:Hg1; simplify_eq/=.
  apply grow_spec in Hg1 as (Hwf1 & Hc1 & _ & Ht1 & Hb1 & _); [|done].
  rewrite <- Ht1, <- Hb1 in Hg. apply IH in Hg as (? & ? & ? & ? & ?); [|done|done|lia].
  split_and!; [done|congruence|congruence|congruence|lia].
Qed.

Lemma grow_until_terminates fuel count d k :
  wf d → capacity (ring_ d) = 2 ^ k → 0 ≤ k ≤ 60 → 60 < k + Z.of_nat fuel →
  grow_until alloc_ok fuel (top_ d) (bottom_ d) count d ≠ Err Diverges.
Proof.
  revert d k. induction fuel as [|fuel IH]; intros d k Hwf Hcap Hk Hf; simpl; [lia|].
  case_match; [|done]. destruct (grow _ _ _ d) as [d1|e] eqn:Hg; simpl.
  - pose proof Hg as Hg'.
    apply grow_spec in Hg' as (Hwf1 & _ & Hc1 & Ht1 & Hb1 & _); [|done].
    rewrite <- Ht1, <- Hb1.
    assert (Hk1 : capacity (ring_ d1) = 2 ^ (k + 1)) by (rewrite Z.pow_add_r by lia; lia).
    pose proof Hwf1 as ((k' & Hk' & Hc' & _) & _).
    assert (k' = k + 1) by (apply (Z.pow_inj_r 2); lia).
    apply (IH d1 (k + 1)); [done|lia|lia|lia].
  - unfold grow in Hg. repeat (case_match; simplify_eq); unfold FatalGrow; done.
Qed.

End operation_lemmas.

(** ** Properties *)

(** a slot keeps both halves of what was packed into it: the 16-byte aligned task
    pointer and the task's type, which a thief reads without touching the task. *)
Theorem tag_roundtrip (p : Z) (t : TaskType) :
  p `mod` 16 = 0 → untag (tag t p) = p ∧ bits (tag t p) = Some t.
Proof.
  intros Hp. assert (Hp' : p `mod` 2 ^ 2 = 0).
  { apply Z.mod_divide in Hp as [q ->]; [|lia]. apply Z.mod_divide; [lia|].
    exists (q * 4). lia. }
  pose proof (TaskType_code_range t).
  assert (Htc : Z.land (TaskType_code t) 0x3 = TaskType_code t) by (by destruct t).
  unfold untag, bits, tag, kTagMask. rewrite Htc.
  change 3 with (2 ^ 2 - 1). rewrite tag_high, tag_low by lia.
  split; [done|]. apply TaskType_of_code.
Qed.

Lemma tag_roundtrip_witness :
  48 `mod` 16 = 0 ∧ untag (tag Native 48) = 48 ∧ bits (tag Native 48) = Some Native.
Proof. split; [done|]. apply (tag_roundtrip 48 Native). vm_compute. done. Defined.

(** [push_bottom] refuses only null; otherwise, unless it stops the program because
    the ring cannot grow, it appends the tagged task at the bottom, keeps everything
    already queued in order across a growth, and preserves well-formedness. *)
Theorem push_bottom_spec alloc_ok ty item d :
  wf d → bottom_ d + 1 < 2 ^ 64 →
  match push_bottom alloc_ok ty item d with
  | Ok (false, d') => item = 0 ∧ d' = d
  | Ok (true, d') => item ≠ 0 ∧ wf d' ∧ contents d' = contents d ++ [tag (ty item) item]
  | Err e => capacity (ring_ d) = bottom_ d - top_ d
             ∧ grow alloc_ok (top_ d) (bottom_ d) d = Err e
  end.
Proof.
  intros Hwf Hov. pose proof Hwf as (Hr & Ht & Hb & Hn). unfold push_bottom.
  destruct (item =? 0) eqn:Hz; [split; [lia|done]|]. rewrite u64_pred_spec by lia.
  destruct (capacity (ring_ d) <=? bottom_ d - top_ d) eqn:Hfull; simpl.
  - apply Z.leb_le in Hfull. destruct (grow _ _ _ d) as [d1|e] eqn:Hg; simpl.
    + apply grow_spec in Hg as (Hwf1 & Hc1 & Hcap1 & Ht1 & Hb1 & _); [|done].
      split; [lia|]. rewrite <- Hc1, <- Hb1.
      apply push_ready_spec; [done|..]; apply ring_wf_pos in Hr; lia.
    + split; [lia|done].
  - apply Z.leb_gt in Hfull. split; [lia|]. by apply push_ready_spec.
Qed.

Definition example_deque : Deque :=
  match new_TaskDeque 2 kDefaultMaxCapacity with
  | Ok d => d
  | Err _ => mkDeque (MakeRing 1) [] 1 false false 0 "" false 0 None 0 0 0
  end.

Lemma example_deque_wf : wf example_deque.
Proof. split; [apply (MakeRing_wf 1); lia|]. simpl. lia. Qed.

Lemma push_bottom_spec_witness :
  wf example_deque ∧
  match push_bottom (λ _, true) (λ _, Native) 16 example_deque with
  | Ok (true, d') => contents d' = contents example_deque ++ [tag Native 16]
  | _ => False
  end.
Proof.
  split; [exact example_deque_wf|].
  pose proof (push_bottom_spec (λ _, true) (λ _, Native) 16 example_deque
                example_deque_wf ltac:(vm_compute; done)) as H.
  revert H. vm_compute. intros (_ & _ & H). exact H.
Defined.

(** [push_bottom_batch] appends every task of the batch in order, growing as often
    as needed; the growth loop always ends. *)
Theorem push_bottom_batch_spec alloc_ok ty items d :
  wf d → bottom_ d + Z.of_nat (length items) < 2 ^ 64 →
  match push_bottom_batch alloc_ok ty items d with
  | Ok (ok, d') => ok = true ∧ wf d'
                   ∧ contents d' = contents d ++ ((λ x, tag (ty x) x) <$> items)
  | Err e => e ≠ Diverges
  end.
Proof.
  intros Hwf Hov. unfold push_bottom_batch.
  destruct (grow_until _ _ _ _ _ d) as [d1|e] eqn:Hg; simpl.
  - apply grow_until_spec in Hg as (Hwf1 & Hc1 & Ht1 & Hb1 & Hroom); [|done|lia|done].
    pose proof Hwf1 as (Hr & Ht & Hb & Hn).
    destruct (store_range_spec ty (bottom_ d) items (ring_ d1)) as (Hr' & Hcap & Hst & Hkeep);
      [done|lia|lia|lia|].
    split; [done|]. unfold MarkHasWork. rewrite StoreFlag_contents, u64_small by lia.
    split; [apply StoreFlag_wf; unfold wf; simpl; rewrite Hcap; split_and!; try done; lia|].
    rewrite <- Hc1. unfold contents; simpl. rewrite (contents_of_app _ _ (bottom_ d)) by lia.
    rewrite Hb1. f_equal.
    + apply contents_of_ext. intros j Hj. apply Hkeep; lia.
    + apply list_eq. intros n. unfold contents_of. rewrite !list_lookup_fmap.
      destruct (items !! n) as [x|] eqn:Hx; simpl.
      * pose proof (lookup_lt_Some _ _ _ Hx). rewrite lookup_seqZ_lt by lia. simpl.
        by rewrite (Hst n x Hx).
      * apply lookup_ge_None in Hx. by rewrite lookup_seqZ_ge by lia.
  - intros ->. destruct Hwf as (Hr & Hwf). pose proof Hr as (k & Hk & Hc & _).
    by apply (grow_until_terminates alloc_ok 65 (Z.of_nat (length items)) d k) in Hg; [|..|lia].
Qed.

Lemma push_bottom_batch_spec_witness :
  wf example_deque ∧
  match push_bottom_batch (λ _, true) (λ _, Fiber) [16; 32; 48; 64; 80] example_deque with
  | Ok (_, d') => contents d' = [16; 32; 48; 64; 80] ∧ capacity (ring_ d') = 8
  | Err _ => False
  end.
Proof.
  split; [exact example_deque_wf|].
  pose proof (push_bottom_batch_spec (λ _, true) (λ _, Fiber) [16; 32; 48; 64; 80] example_deque
                example_deque_wf ltac:(vm_compute; done)) as H.
  revert H. vm_compute. intros (_ & _ & H). split; [exact H|done].
Defined.

(** run without interference, [pop_bottom] takes the newest task and [steal] and
    [steal_if] the oldest; each reports empty exactly when there is none (or, for
    [steal_if], when the vetting predicate refuses the oldest), and the rest of the
    queue is unchanged. *)
Theorem take_spec d :
  wf d → pushOnly_ d = false →
  (∃ o d', pop_bottom d = Ok (o, d') ∧ wf d'
     ∧ match o with
       | Some p => ∃ v, contents d = contents d' ++ [v] ∧ p = untag v
       | None => contents d = [] ∧ contents d' = []
       end)
  ∧ (∀ pred, let '(o, d') := steal_if pred d in
     wf d' ∧ match o with
             | Some p => ∃ v, contents d = v :: contents d' ∧ p = untag v ∧ pred (bits v) = true
             | None => contents d' = contents d
                       ∧ (contents d = [] ∨ ∃ v l, contents d = v :: l ∧ pred (bits v) = false)
             end)
  ∧ steal d = steal_if (λ _, true) d.
Proof.
  intros Hwf Hpo. pose proof Hwf as (Hr & Ht & Hb & Hn). split_and!.
  - unfold pop_bottom. rewrite Hpo. case_match eqn:He; simpl.
    { exists None, (MarkEmpty d). unfold MarkEmpty. rewrite StoreFlag_contents.
      split_and!; auto with sched; apply contents_of_nil; lia. }
    apply Z.leb_gt in He. rewrite u64_pred_spec by lia.
    replace (top_ d <=? bottom_ d - 1) with true by (symmetry; apply Z.leb_le; lia).
    assert (Hsnoc : contents d = contents_of (ring_ d) (top_ d) (bottom_ d - 1)
                                 ++ [ring_get (ring_ d) (bottom_ d - 1)]).
    { rewrite <- contents_of_snoc by lia. unfold contents. f_equal. lia. }
    case_match eqn:Hlast.
    + unfold cas_top; simpl. rewrite Z.eqb_refl. rewrite !u64_small by lia.
      eexists _, _. split; [done|]. unfold MarkEmpty. rewrite StoreFlag_contents.
      split; [apply StoreFlag_wf; unfold wf; simpl; split_and!; try done; lia|].
      eexists. split; [|done]. rewrite Hsnoc. unfold contents; simpl.
      rewrite !contents_of_nil by lia. done.
    + eexists _, _. split; [done|]. split; [unfold wf; simpl; split_and!; try done; lia|].
      eexists. split; [|done]. exact Hsnoc.
  - intros pred. unfold steal_if. destruct (top_ d <? bottom_ d) eqn:He.
    + apply Z.ltb_lt in He. unfold contents. rewrite (contents_of_cons _ (top_ d)) by lia.
      destruct (negb _) eqn:Hp; [apply negb_true_iff in Hp|apply negb_false_iff in Hp].
      * split; [done|]. split; [by apply contents_of_cons|]. right. eauto.
      * unfold cas_top. rewrite Z.eqb_refl, u64_small by lia.
        split; [unfold wf; simpl; split_and!; try done; lia|]. eexists. by split_and!.
    + apply Z.ltb_ge in He. split; [done|]. split; [done|]. left. by apply contents_of_nil.
  - unfold steal, steal_if, cas_top. repeat case_match; done.
Qed.

Lemma take_spec_witness :
  ∃ d, wf d ∧ pushOnly_ d = false ∧ contents d = [18]
       ∧ wf (snd (steal_if (λ _, true) d)) ∧ fst (steal_if (λ _, true) d) = Some 16.
Proof.
  destruct (push_bottom (λ _, true) (λ _, Native) 16 example_deque) as [[[] d]|] eqn:He;
    [|exfalso; vm_compute in He; done|exfalso; vm_compute in He; done].
  exists d.
  assert (Hwf : wf d).
  { split; [|vm_compute in He; injection He as <-; simpl; lia].
    vm_compute in He. injection He as <-. exists 1. simpl. by split_and!. }
  split; [done|].
  assert (Hp : pushOnly_ d = false) by (vm_compute in He; by injection He as <-).
  split; [done|]. destruct (take_spec d Hwf Hp) as (_ & Hs & _). specialize (Hs (λ _, true)).
  vm_compute in He. injection He as <-. split; [done|]. split; [apply Hs|done].
Defined.

(** the deque accepts a capacity of zero, which is not a power of two; its ring then
    never gains a slot by doubling, and the first push writes outside the ring. *)
Theorem zero_capacity_accepted :
  ∃ d, new_TaskDeque 0 kDefaultMaxCapacity = Ok d ∧ slots (ring_ d) = []
       ∧ ∀ alloc_ok ty item, alloc_ok 0 = true → item ≠ 0 →
         ∃ d', push_bottom alloc_ok ty item d = Ok (true, d')
               ∧ bottom_ d' = 1 ∧ slots (ring_ d') = [] ∧ ring_get (ring_ d') 0 ≠ tag (ty item) item.
Proof.
  eexists. split; [vm_compute; reflexivity|]. split; [done|].
  intros alloc_ok ty item Ha Hi. unfold push_bottom.
  replace (item =? 0) with false by (symmetry; lia). simpl.
  unfold grow; simpl. unfold new_ring_ok. change (u64 (0 * 2)) with 0. rewrite Ha. simpl.
  eexists. split; [done|]. split_and!; [done|done|].
  unfold ring_get; simpl. intros H. symmetry in H. unfold tag in H.
  apply Z.lor_eq_0_iff in H as [-> _]. done.
Qed.
