(* ===== verification/TaskDequeConc.v ===== *)
(** * The work-stealing deque under interleaving (include/TaskDeque.h)

    One owner and any number of thieves run [push_bottom], [pop_bottom], [steal] and
    [steal_if]; a step is one atomic access of one of them (sequentially consistent).
    The theorem is the deque's contract: every task pushed is taken by exactly one
    thread or still queued. *)

From S2P Require Import Prelude TaskTypes TaskDeque.

(** ** State *)

(** Where the owner is inside its current operation. *)
Inductive owner :=
| OIdle
| OPushTop (v b t : Z)       (* push: [bottom_] and [top_] loaded *)
| OPushStore (v b : Z)       (* push: the ring has room, slot store next *)
| OPushBottom (v b : Z)      (* push: slot stored, [bottom_] store next *)
| OPopLoaded (b : Z)         (* pop: not empty, [bottom_ = b - 1] store next *)
| OPopStored (b : Z)         (* pop: [bottom_ = b] stored, [top_] load next *)
| OPopTop (b t : Z)          (* pop: [top_] loaded, [t <= b], slot read next *)
| OPopCas (b v : Z)          (* pop: last task, CAS on [top_] next *)
| OPopRestore (b : Z)        (* pop: CAS done, [bottom_ = b + 1] store next *)
| OPopFix (t : Z).           (* pop: lost before the load, [bottom_ = t] store next *)

(** Where a thief is. *)
Inductive thief :=
| TIdle
| TTop (t : Z)               (* [top_] loaded *)
| TBottom (t : Z)            (* [bottom_] loaded, [t < b] *)
| TRing (t : Z) (r : nat)    (* [ring_] loaded *)
| TSlot (t v : Z).           (* slot loaded, CAS on [top_] next *)

(** [rings] holds every ring ever installed, oldest first: a retired ring stays readable
    until the deque is destroyed, and [ring_] is the last one.  [pushed] and [taken] are
    the values published by a push and returned by a successful take, in order. *)
Record cstate := mkC {
  rings : list Ring; ctop : Z; cbottom : Z; own : owner; thieves : gmap nat thief;
  pushed : list Z; taken : list Z }.

Definition cur (s : cstate) : Ring := default (MakeRing 1) (last (rings s)).

Definition with_own (o : owner) (s : cstate) : cstate :=
  mkC (rings s) (ctop s) (cbottom s) o (thieves s) (pushed s) (taken s).
Definition with_thief (i : nat) (h : thief) (s : cstate) : cstate :=
  mkC (rings s) (ctop s) (cbottom s) (own s) (<[i:=h]> (thieves s)) (pushed s) (taken s).
Definition with_top (t : Z) (s : cstate) : cstate :=
  mkC (rings s) t (cbottom s) (own s) (thieves s) (pushed s) (taken s).
Definition with_bottom (b : Z) (s : cstate) : cstate :=
  mkC (rings s) (ctop s) b (own s) (thieves s) (pushed s) (taken s).
Definition add_ring (r : Ring) (s : cstate) : cstate :=
  mkC (rings s ++ [r]) (ctop s) (cbottom s) (own s) (thieves s) (pushed s) (taken s).
Definition store_slot (i v : Z) (s : cstate) : cstate :=
  mkC (<[pred (length (rings s)) := ring_set (cur s) i v]> (rings s))
    (ctop s) (cbottom s) (own s) (thieves s) (pushed s) (taken s).
Definition note_push (v : Z) (s : cstate) : cstate :=
  mkC (rings s) (ctop s) (cbottom s) (own s) (thieves s) (pushed s ++ [v]) (taken s).
Definition note_take (v : Z) (s : cstate) : cstate :=
  mkC (rings s) (ctop s) (cbottom s) (own s) (thieves s) (pushed s) (taken s ++ [v]).

(** ** Steps *)

Inductive owner_step (s : cstate) : cstate → Prop :=
(* push_bottom *)
| push_load ty item :
    own s = OIdle → item ≠ 0 →
    owner_step s (with_own (OPushTop (tag ty item) (cbottom s) (ctop s)) s)
| push_room v b t :
    own s = OPushTop v b t → b ⊖ t < capacity (cur s) →
    owner_step s (with_own (OPushStore v b) s)
| push_grow v b t :
    own s = OPushTop v b t → capacity (cur s) ≤ b ⊖ t → u64 (capacity (cur s) * 2) < 2 ^ 61 →
    owner_step s (with_own (OPushStore v b)
      (add_ring (copy_range (Z.to_nat (b ⊖ t)) t (cur s)
                   (MakeRing (u64 (capacity (cur s) * 2)))) s))
| push_store v b :
    own s = OPushStore v b → owner_step s (with_own (OPushBottom v b) (store_slot b v s))
| push_publish v b :
    own s = OPushBottom v b →
    owner_step s (with_own OIdle (note_push v (with_bottom (b ⊕ 1) s)))
(* pop_bottom *)
| pop_load :
    own s = OIdle → ctop s < cbottom s → owner_step s (with_own (OPopLoaded (cbottom s)) s)
| pop_claim b :
    own s = OPopLoaded b →
    owner_step s (with_own (OPopStored (b ⊖ 1)) (with_bottom (b ⊖ 1) s))
| pop_top b :
    own s = OPopStored b → ctop s ≤ b → owner_step s (with_own (OPopTop b (ctop s)) s)
| pop_top_lost b :
    own s = OPopStored b → b < ctop s → owner_step s (with_own (OPopFix (ctop s)) s)
| pop_fix t :
    own s = OPopFix t → owner_step s (with_own OIdle (with_bottom t s))
| pop_take b t :
    own s = OPopTop b t → t ≠ b →
    owner_step s (with_own OIdle (note_take (ring_get (cur s) b) s))
| pop_last b t :
    own s = OPopTop b t → t = b → owner_step s (with_own (OPopCas b (ring_get (cur s) b)) s)
| pop_cas_won b v :
    own s = OPopCas b v → ctop s = b →
    owner_step s (with_own (OPopRestore b) (note_take v (with_top (b ⊕ 1) s)))
| pop_cas_lost b v :
    own s = OPopCas b v → ctop s ≠ b → owner_step s (with_own (OPopRestore b) s)
| pop_restore b :
    own s = OPopRestore b → owner_step s (with_own OIdle (with_bottom (b ⊕ 1) s)).

Inductive thief_step (i : nat) (s : cstate) : cstate → Prop :=
| steal_top : thieves s !! i = Some TIdle → thief_step i s (with_thief i (TTop (ctop s)) s)
| steal_bottom t :
    thieves s !! i = Some (TTop t) → t < cbottom s → thief_step i s (with_thief i (TBottom t) s)
| steal_empty t :
    thieves s !! i = Some (TTop t) → cbottom s ≤ t → thief_step i s (with_thief i TIdle s)
| steal_ring t :
    thieves s !! i = Some (TBottom t) →
    thief_step i s (with_thief i (TRing t (pred (length (rings s)))) s)
| steal_slot t r ring :
    thieves s !! i = Some (TRing t r) → rings s !! r = Some ring →
    thief_step i s (with_thief i (TSlot t (ring_get ring t)) s)
| steal_refused t v (pred : option TaskType → bool) :
    thieves s !! i = Some (TSlot t v) → pred (bits v) = false →
    thief_step i s (with_thief i TIdle s)
| steal_won t v :
    thieves s !! i = Some (TSlot t v) → ctop s = t →
    thief_step i s (with_thief i TIdle (note_take v (with_top (t ⊕ 1) s)))
| steal_lost t v :
    thieves s !! i = Some (TSlot t v) → ctop s ≠ t → thief_step i s (with_thief i TIdle s).

Definition cstep (s s' : cstate) : Prop := owner_step s s' ∨ ∃ i, thief_step i s s'.

Definition cinit (s : cstate) : Prop :=
  ∃ k, 0 ≤ k ≤ 60 ∧ rings s = [MakeRing (2 ^ k)] ∧ ctop s = 0 ∧ cbottom s = 0 ∧ own s = OIdle
       ∧ (∀ i h, thieves s !! i = Some h → h = TIdle) ∧ pushed s = [] ∧ taken s = [].

(** ** The live window and the invariant *)

(** One past the last live index: [bottom_], except while the owner is deciding a pop. *)
Definition beff (s : cstate) : Z :=
  match own s with
  | OPopStored b => b + 1
  | OPopTop b t => if t =? b then b + 1 else b
  | OPopCas b _ => b + 1
  | OPopRestore b => b + 1
  | OPopFix t => t
  | _ => cbottom s
  end.

(** A task the owner has claimed but not yet returned. *)
Definition claimed (s : cstate) : list Z :=
  match own s with
  | OPopTop b t => if t =? b then [] else [ring_get (cur s) b]
  | _ => []
  end.

Definition live (s : cstate) : list Z := contents_of (cur s) (ctop s) (beff s).

Definition owner_inv (s : cstate) : Prop :=
  let c := capacity (cur s) in
  match own s with
  | OIdle => True
  | OPushTop v b t => b = cbottom s ∧ 0 ≤ t ≤ ctop s ∧ b - t ≤ c
  | OPushStore v b => b = cbottom s ∧ b - ctop s < c
  | OPushBottom v b => b = cbottom s ∧ b - ctop s < c ∧ ring_get (cur s) b = v
  | OPopLoaded b => b = cbottom s ∧ 0 < b
  | OPopStored b => b = cbottom s ∧ 0 ≤ b
  | OPopTop b t => b = cbottom s ∧ 0 ≤ t ≤ b ∧ t ≤ ctop s ∧ b - t < c
  | OPopCas b v => b = cbottom s ∧ 0 ≤ b ∧ ring_get (cur s) b = v ∧ b ≤ ctop s
  | OPopRestore b => b = cbottom s ∧ 0 ≤ b ∧ ctop s = b + 1
  | OPopFix t => t = cbottom s + 1 ∧ ctop s = t
  end.

(** A thief past its [bottom_] load holds a top that is stale or names a live slot, and
    what it read is that slot's task as long as [top_] has not moved. *)
Definition thief_inv (s : cstate) (h : thief) : Prop :=
  match h with
  | TIdle => True
  | TTop t => 0 ≤ t ≤ ctop s
  | TBottom t => 0 ≤ t ≤ ctop s ∧ (t = ctop s → t < beff s)
  | TRing t r =>
      0 ≤ t ≤ ctop s ∧ (t = ctop s → t < beff s)
      ∧ (r < length (rings s))%nat
      ∧ (t = ctop s → ∀ ring, rings s !! r = Some ring → ring_get ring t = ring_get (cur s) t)
  | TSlot t v =>
      0 ≤ t ≤ ctop s ∧ (t = ctop s → t < beff s) ∧ (t = ctop s → v = ring_get (cur s) t)
  end.

Record inv (s : cstate) : Prop := {
  inv_rings : rings s ≠ [] ∧ ring_wf (cur s);
  inv_window : 0 ≤ ctop s ≤ beff s ∧ beff s ≤ Z.of_nat (length (pushed s))
               ∧ beff s - ctop s ≤ capacity (cur s) ∧ cbottom s ≤ beff s ∧ 0 ≤ cbottom s;
  inv_owner : owner_inv s;
  inv_thieves : ∀ i h, thieves s !! i = Some h → thief_inv s h;
  inv_perm : pushed s ≡ₚ taken s ++ live s ++ claimed s }.

(** ** Preservation *)

Lemma cur_add_ring r s : cur (add_ring r s) = r.
Proof. unfold cur. simpl. by rewrite last_snoc. Qed.

Lemma cur_lookup s : rings s ≠ [] → rings s !! pred (length (rings s)) = Some (cur s).
Proof.
  intros Hne. unfold cur. rewrite <- last_lookup. destruct (last (rings s)) eqn:Hl; [done|].
  by apply last_None in Hl.
Qed.

Lemma cur_store_slot i v s : rings s ≠ [] → cur (store_slot i v s) = ring_set (cur s) i v.
Proof.
  intros Hne. unfold cur at 1. simpl. rewrite last_lookup, length_insert.
  rewrite list_lookup_insert_eq; [done|]. destruct (rings s); [done|simpl; lia].
Qed.

(** The owner's side of a step leaves a thief alone when [top_] stays, a live top stays
    live, and the slot at [top_] reads the same in every ring. *)
Lemma thief_inv_keep s s' h :
  thief_inv s h → ctop s' = ctop s →
  (ctop s < beff s → ctop s < beff s') →
  (length (rings s) ≤ length (rings s'))%nat →
  (ctop s < beff s → ring_get (cur s') (ctop s) = ring_get (cur s) (ctop s)) →
  (ctop s < beff s → ∀ r ring', (r < length (rings s))%nat → rings s' !! r = Some ring' →
     ∃ ring, rings s !! r = Some ring ∧ ring_get ring' (ctop s) = ring_get ring (ctop s)) →
  thief_inv s' h.
Proof.
  intros Hh Ht Hb Hl Hc Hr. destruct h as [|t|t|t r|t v]; simpl in *; rewrite ?Ht; try done.
  - naive_solver lia.
  - destruct Hh as (H0 & H1 & H2 & H3). split_and!; [lia|lia|naive_solver lia|lia|].
    intros -> ring' Hring'. destruct (Hr (H1 eq_refl) r ring' H2 Hring') as (ring & Hring & Heq).
    rewrite Heq, (H3 eq_refl ring Hring), Hc; auto.
  - destruct Hh as (H0 & H1 & H2). split_and!; [lia|lia|naive_solver lia|].
    intros ->. rewrite Hc; auto.
Qed.

(** The same when the rings do not change either. *)
Lemma thief_inv_same s s' h :
  thief_inv s h → ctop s' = ctop s → rings s' = rings s →
  (ctop s < beff s → ctop s < beff s') → thief_inv s' h.
Proof.
  intros Hh Ht Hr Hb. apply (thief_inv_keep s); [done|done|done|by rewrite Hr|..].
  - intros _. unfold cur. by rewrite Hr.
  - intros _ r ring' _ Hring. rewrite Hr in Hring. eauto.
Qed.

(** A take at [top_] retires every other thief's claim on it. *)
Lemma thief_inv_advance s s' h :
  thief_inv s h → ctop s' = ctop s + 1 → rings s' = rings s → thief_inv s' h.
Proof.
  intros Hh Ht Hr. destruct h; simpl in *; rewrite ?Ht, ?Hr; intuition lia.
Qed.

Lemma live_take_top s s' :
  ctop s < beff s → ctop s' = ctop s + 1 → cur s' = cur s → beff s' = beff s →
  live s = ring_get (cur s) (ctop s) :: live s'.
Proof.
  intros Hlt Ht Hc Hb. unfold live. rewrite contents_of_cons by done. by rewrite Ht, Hc, Hb.
Qed.

Ltac dq_own H := unfold beff, owner_inv, claimed, live in *; simpl in *; rewrite H in *; simpl in *.

(** A thief's step that only moves the thief. *)
Lemma thief_move_inv i h s : inv s → thief_inv s h → inv (with_thief i h s).
Proof.
  intros [Hrings Hwin Hown Hth Hperm] Hh. constructor; [done|done|done| |done].
  intros j h' Hj. simpl in Hj. apply (thief_inv_same s); [|done|done|done].
  destruct (decide (i = j)) as [->|]; simplify_map_eq; eauto.
Qed.

(** The owner's bookkeeping survives a steal of a live task. *)
Lemma owner_inv_steal s s' :
  owner_inv s → ctop s < beff s → ctop s' = ctop s + 1 →
  own s' = own s → rings s' = rings s → cbottom s' = cbottom s → owner_inv s'.
Proof.
  intros Ho Hlt Ht Hown Hr Hb. unfold owner_inv, beff, cur in *. rewrite Hown, Hr, Hb, Ht.
  destruct (own s); try done; repeat case_match; lia.
Qed.

Lemma steal_won_inv i t v s :
  Z.of_nat (length (pushed s)) < 2 ^ 64 → inv s →
  thieves s !! i = Some (TSlot t v) → ctop s = t →
  inv (with_thief i TIdle (note_take v (with_top (t ⊕ 1) s))).
Proof.
  intros Hbound [Hrings Hwin Hown Hth Hperm] Hi <-.
  destruct (Hth _ _ Hi) as (H0 & H1 & H2). specialize (H1 eq_refl). specialize (H2 eq_refl).
  rewrite u64_small by lia. set (s' := with_thief _ _ _).
  assert (Hb : beff s' = beff s) by done.
  constructor.
  - done.
  - rewrite Hb. simpl. change (cur s') with (cur s). lia.
  - by apply (owner_inv_steal s).
  - intros j h Hj. apply (thief_inv_advance s); [|done|done].
    destruct (decide (i = j)) as [->|]; simpl in Hj; simplify_map_eq; eauto.
  - change (pushed s') with (pushed s). change (taken s') with (taken s ++ [v]).
    change (claimed s') with (claimed s).
    rewrite Hperm, (live_take_top s s' H1) by done. rewrite H2, <- (assoc (++)). done.
Qed.

Lemma thief_step_inv i s s' :
  Z.of_nat (length (pushed s')) < 2 ^ 64 → inv s → thief_step i s s' → inv s'.
Proof.
  intros Hbound Hinv Hstep. pose proof Hinv as [[Hne Hwf] Hwin Hown Hth Hperm].
  destruct Hstep as [Hi|t Hi Hlt|t Hi Hlt|t Hi|t r ring Hi Hring|t v pred Hi Hp|t v Hi Htop|t v Hi Htop];
    pose proof (Hth _ _ Hi) as Hme; simpl in Hme.
  all: try (apply thief_move_inv; [done|]; simpl; try done; lia).
  - apply thief_move_inv; [done|]. simpl. split_and!; [lia|lia|intuition lia|..].
    + destruct (rings s); [done|simpl; lia].
    + intros _ ring Hr. rewrite cur_lookup in Hr by done. by simplify_eq.
  - apply thief_move_inv; [done|]. simpl. destruct Hme as (? & ? & ? & Hsame).
    split_and!; [lia|lia|done|]. intros Ht. by apply Hsame.
  - by apply steal_won_inv.
Qed.

(** An owner step that changes neither the rings, [top_] nor the logs: what must be
    checked is the window and the owner's own assertions. *)
Lemma owner_move_inv s s' :
  inv s → rings s' = rings s → ctop s' = ctop s → thieves s' = thieves s →
  pushed s' = pushed s → taken s' = taken s →
  live s' ++ claimed s' ≡ₚ live s ++ claimed s →
  (ctop s < beff s → ctop s < beff s') →
  ctop s ≤ beff s' ≤ beff s → cbottom s' ≤ beff s' → 0 ≤ cbottom s' → owner_inv s' → inv s'.
Proof.
  intros [Hrings Hwin Hown Hth Hperm] Hr Ht Hths Hp Htk Hlive Hlt Hb Hcb Hcb0 Ho.
  assert (Hcur : cur s' = cur s) by (unfold cur; by rewrite Hr).
  constructor.
  - by rewrite Hcur, Hr.
  - rewrite Ht, Hp, Hcur. lia.
  - done.
  - intros i h Hh. rewrite Hths in Hh. by apply (thief_inv_same s); [eauto|..].
  - by rewrite Hp, Htk, Hlive.
Qed.

Lemma push_grow_inv v b t s :
  inv s → own s = OPushTop v b t → capacity (cur s) ≤ b ⊖ t →
  Z.of_nat (length (pushed s)) < 2 ^ 64 → u64 (capacity (cur s) * 2) < 2 ^ 61 →
  inv (with_own (OPushStore v b)
      (add_ring (copy_range (Z.to_nat (b ⊖ t)) t (cur s)
                   (MakeRing (u64 (capacity (cur s) * 2)))) s)).
Proof.
  intros [Hrings Hwin Hown Hth Hperm] Ho Hfull Hbound Hlim.
  assert (Hb0 : beff s = cbottom s) by (unfold beff; by rewrite Ho).
  unfold owner_inv in Hown. rewrite Ho in Hown. destruct Hown as (-> & Ht & Hcap).
  rewrite u64_pred_spec in Hfull |- * by lia.
  destruct Hrings as [Hne (k & Hk & Hc & Hm & Hl)].
  assert (Hpos : 0 < 2 ^ k ≤ 2 ^ 60).
  { split; [apply Z.pow_pos_nonneg|apply Z.pow_le_mono_r]; lia. }
  assert (Hdbl : u64 (capacity (cur s) * 2) = 2 ^ (k + 1)).
  { rewrite Hc, Z.pow_add_r, Z.pow_1_r by lia. apply u64_small. lia. }
  rewrite Hdbl in *.
  assert (k + 1 < 61) by (apply (Z.pow_lt_mono_r_iff 2); lia).
  assert (H2k : 2 ^ (k + 1) = 2 * 2 ^ k) by (rewrite Z.pow_add_r by lia; lia).
  destruct (copy_range_spec (Z.to_nat (cbottom s - t)) t (cur s) (MakeRing (2 ^ (k + 1))))
    as (Hw & Hcp & Hcopy & _); [apply MakeRing_wf; lia|lia|lia|simpl; lia|].
  set (r' := copy_range _ _ _ _) in *. simpl in Hcp. rewrite Z2Nat.id in Hcopy by lia.
  set (s' := with_own _ _).
  assert (Hcur : cur s' = r') by apply cur_add_ring.
  constructor.
  - rewrite Hcur. split; [simpl; by destruct (rings s)|done].
  - change (beff s') with (cbottom s). rewrite Hcur, Hcp. simpl. lia.
  - unfold owner_inv; simpl. rewrite Hcur, Hcp. lia.
  - intros i h Hi. apply (thief_inv_keep s); [by eapply Hth|done|..].
    + change (beff s') with (cbottom s). lia.
    + simpl. rewrite length_app. lia.
    + rewrite Hcur, Hb0. intros Hlt. apply Hcopy. lia.
    + intros _ r ring' Hr Hring. simpl in Hring. rewrite lookup_app_l in Hring by done. eauto.
  - simpl. rewrite Hperm. unfold live, claimed. simpl. rewrite Ho, Hcur.
    change (beff s') with (cbottom s). rewrite Hb0.
    rewrite (contents_of_ext (cur s) r'); [done|]. intros j Hj. apply Hcopy. lia.
Qed.

Lemma push_store_inv v b s :
  inv s → own s = OPushStore v b →
  inv (with_own (OPushBottom v b) (store_slot b v s)).
Proof.
  intros [Hrings Hwin Hown Hth Hperm] Ho. destruct Hrings as [Hne Hwf].
  assert (Hb0 : beff s = cbottom s) by (unfold beff; by rewrite Ho).
  unfold owner_inv in Hown. rewrite Ho in Hown. destruct Hown as (-> & Hroom).
  set (s' := with_own _ _).
  assert (Hcur : cur s' = ring_set (cur s) (cbottom s) v) by (by apply cur_store_slot).
  assert (Hsame : ∀ j, ctop s ≤ j < cbottom s → ring_get (cur s') j = ring_get (cur s) j).
  { intros j Hj. rewrite Hcur. apply ring_get_set_ne; [done|lia|lia]. }
  constructor.
  - rewrite Hcur. split; [|by apply ring_set_wf]. simpl. intros H. apply Hne.
    apply (f_equal length) in H. rewrite length_insert in H. by destruct (rings s).
  - change (beff s') with (cbottom s). rewrite Hcur. simpl. lia.
  - unfold owner_inv; simpl. rewrite Hcur. split_and!; [done|simpl; lia|].
    by apply ring_get_set_eq.
  - intros i h Hi. apply (thief_inv_keep s); [by eapply Hth|done|..].
    + change (beff s') with (cbottom s). lia.
    + simpl. by rewrite length_insert.
    + rewrite Hb0. intros Hlt. apply Hsame. lia.
    + rewrite Hb0. intros Hlt r ring' Hr Hring. simpl in Hring.
      destruct (decide (r = pred (length (rings s)))) as [->|].
      * rewrite list_lookup_insert_eq in Hring by done. simplify_eq. exists (cur s).
        split; [by apply cur_lookup|]. rewrite <- Hcur. apply Hsame. lia.
      * rewrite list_lookup_insert_ne in Hring by done. eauto.
  - simpl. rewrite Hperm. unfold live, claimed. simpl. rewrite Ho.
    change (beff s') with (cbottom s). rewrite Hb0.
    by rewrite (contents_of_ext (cur s) (cur s')).
Qed.

Lemma push_publish_inv v b s :
  Z.of_nat (length (pushed s)) + 1 < 2 ^ 64 → inv s → own s = OPushBottom v b →
  inv (with_own OIdle (note_push v (with_bottom (b ⊕ 1) s))).
Proof.
  intros Hbound [Hrings Hwin Hown Hth Hperm] Ho.
  assert (Hb0 : beff s = cbottom s) by (unfold beff; by rewrite Ho).
  unfold owner_inv in Hown. rewrite Ho in Hown. destruct Hown as (-> & Hroom & Hslot).
  rewrite u64_small by lia. set (s' := with_own _ _).
  change (beff s') with (cbottom s + 1) in *.
  constructor.
  - done.
  - change (beff s') with (cbottom s + 1). change (cur s') with (cur s). simpl.
    rewrite length_app. simpl. lia.
  - done.
  - intros i h Hi. apply (thief_inv_same s); [by eapply Hth|done|done|].
    change (beff s') with (cbottom s + 1). lia.
  - simpl. unfold live, claimed. simpl. change (cur s') with (cur s).
    change (beff s') with (cbottom s + 1). rewrite contents_of_snoc, Hslot, app_nil_r by lia.
    rewrite Hperm. unfold live, claimed. rewrite Ho, Hb0, app_nil_r. by rewrite (assoc (++)).
Qed.

Lemma pop_take_inv b t s :
  inv s → own s = OPopTop b t → t ≠ b →
  inv (with_own OIdle (note_take (ring_get (cur s) b) s)).
Proof.
  intros [Hrings Hwin Hown Hth Hperm] Ho Hne.
  assert (Hb0 : beff s = b) by (unfold beff; rewrite Ho; case_match; lia).
  unfold owner_inv in Hown. rewrite Ho in Hown. destruct Hown as (-> & Ht).
  set (s' := with_own _ _).
  constructor.
  - done.
  - change (beff s') with (cbottom s). change (cur s') with (cur s). simpl. lia.
  - done.
  - intros i h Hi. apply (thief_inv_same s); [by eapply Hth|done|done|].
    change (beff s') with (cbottom s). lia.
  - simpl. rewrite Hperm. unfold live, claimed. rewrite Ho, Hb0. simpl.
    replace (t =? cbottom s) with false by (symmetry; lia).
    change (beff s') with (cbottom s). change (cur s') with (cur s).
    rewrite app_nil_r, <- (assoc (++)). f_equiv. by rewrite (comm (++)).
Qed.

Lemma pop_cas_won_inv b v s :
  Z.of_nat (length (pushed s)) < 2 ^ 64 → inv s → own s = OPopCas b v → ctop s = b →
  inv (with_own (OPopRestore b) (note_take v (with_top (b ⊕ 1) s))).
Proof.
  intros Hbound [Hrings Hwin Hown Hth Hperm] Ho Htop.
  assert (Hb0 : beff s = b + 1) by (unfold beff; by rewrite Ho).
  unfold owner_inv in Hown. rewrite Ho in Hown. destruct Hown as (Hb & Hpos & Hslot & _).
  rewrite u64_small by lia. set (s' := with_own _ _).
  constructor.
  - done.
  - change (beff s') with (b + 1). change (cur s') with (cur s). simpl. lia.
  - unfold owner_inv; simpl. lia.
  - intros i h Hi. apply (thief_inv_advance s); [by eapply Hth|simpl; lia|done].
  - simpl. rewrite Hperm, (live_take_top s s'); [|lia|simpl; lia|done|by rewrite Hb0].
    unfold claimed. rewrite Ho, Htop, Hslot. simpl. rewrite <- (assoc (++)). done.
Qed.

Lemma owner_step_inv s s' :
  Z.of_nat (length (pushed s')) < 2 ^ 64 → inv s → owner_step s s' → inv s'.
Proof.
  intros Hbound Hinv Hstep. pose proof Hinv as [Hrings Hwin Hown Hth Hperm].
  assert (Hcap : 0 < capacity (cur s)) by (apply ring_wf_pos; apply Hrings).
  destruct Hstep as [ty item Ho Hi|v b t Ho Hlt|v b t Ho Hle Hlim|v b Ho|v b Ho|Ho Hlt|b Ho|b Ho Hle
                    |b Ho Hlt|t Ho|b t Ho Hne|b t Ho Heq|b v Ho Htop|b v Ho Htop|b Ho].
  3: by apply push_grow_inv.
  3: by apply push_store_inv.
  3: { apply push_publish_inv; [|done|done]. simpl in Hbound. rewrite length_app in Hbound.
       simpl in Hbound. lia. }
  8: by eapply pop_take_inv.
  9: by apply pop_cas_won_inv.
  all: simpl in Hbound; unfold owner_inv in Hown; rewrite Ho in Hown; unfold beff in Hwin;
       rewrite Ho in Hwin.
  all: try match type of Hown with _ = _ ∧ _ => destruct Hown as [-> Hown] end.
  all: rewrite ?u64_small in * by lia.
  all: apply (owner_move_inv s); try done.
  all: unfold owner_inv, live, claimed, beff; simpl; rewrite ?Ho; simpl.
  all: change (cur (with_own _ _)) with (cur s).
  all: repeat match goal with
       | |- context [?a =? ?b] => destruct (a =? b) eqn:?
       end; try done; try lia.
  all: rewrite ?app_nil_r, <- ?contents_of_snoc by lia.
  all: try (by replace (cbottom s - 1 + 1) with (cbottom s) by lia).
  all: by replace (cbottom s + 1) with (ctop s) by lia.
Qed.

(** ** The contract *)

Lemma cstep_pushed s s' :
  cstep s s' → Z.of_nat (length (pushed s)) ≤ Z.of_nat (length (pushed s')).
Proof.
  intros [H|[i H]]; destruct H; simpl; rewrite ?length_app; lia.
Qed.

Lemma cinit_inv s : cinit s → inv s.
Proof.
  intros (k & Hk & Hr & Ht & Hb & Ho & Hth & Hp & Htk).
  assert (Hcur : cur s = MakeRing (2 ^ k)) by (unfold cur; by rewrite Hr).
  assert (Hbe : beff s = 0) by (unfold beff; by rewrite Ho).
  assert (0 < 2 ^ k) by (apply Z.pow_pos_nonneg; lia).
  constructor.
  - rewrite Hcur, Hr. split; [done|]. by apply MakeRing_wf.
  - rewrite Hbe, Ht, Hb, Hp, Hcur. simpl. lia.
  - unfold owner_inv. by rewrite Ho.
  - intros i h Hi. apply Hth in Hi as ->. done.
  - unfold live, claimed. rewrite Ho, Hbe, Ht, Hp, Htk. by rewrite contents_of_nil.
Qed.

Lemma reachable_inv s :
  reachable cinit cstep s → Z.of_nat (length (pushed s)) < 2 ^ 64 → inv s.
Proof.
  apply (reachable_ind_bounded cinit cstep (λ s, Z.of_nat (length (pushed s)))).
  - apply cstep_pushed.
  - apply cinit_inv.
  - intros s1 s2 Hb Hi [H|[i H]]; [by eapply owner_step_inv|by eapply thief_step_inv].
Qed.

(** C1: under every interleaving of one owner and any number of thieves, the values
    published by pushes are exactly the values returned by successful takes, plus those
    still in the live window, plus the one the owner has claimed and not yet read: no
    task is lost, none is taken twice. *)
Theorem deque_exactly_once s :
  reachable cinit cstep s → Z.of_nat (length (pushed s)) < 2 ^ 64 →
  pushed s ≡ₚ taken s ++ live s ++ claimed s.
Proof. intros Hr Hb. by apply inv_perm, reachable_inv. Qed.

(** when the owner is between operations the live window is exactly what a
    sequential reader sees between [top_] and [bottom_], and it never exceeds the ring. *)
Theorem deque_idle_window s :
  reachable cinit cstep s → Z.of_nat (length (pushed s)) < 2 ^ 64 → own s = OIdle →
  pushed s ≡ₚ taken s ++ contents_of (cur s) (ctop s) (cbottom s)
  ∧ 0 ≤ ctop s ≤ cbottom s ∧ cbottom s - ctop s ≤ capacity (cur s).
Proof.
  intros Hr Hb Ho. destruct (reachable_inv s Hr Hb) as [_ Hw _ _ Hp].
  unfold live, claimed, beff in *. rewrite Ho in *. rewrite app_nil_r in Hp. split; [done|lia].
Qed.

(** A run in which the owner pops the last task while a thief is about to steal it. *)
Definition race_start : cstate := mkC [MakeRing 2] 0 0 OIdle {[0%nat := TIdle]} [] [].

Lemma race_start_init : cinit race_start.
Proof.
  exists 1. split_and!; try done; try lia. intros i h Hi. simpl in Hi.
  apply lookup_singleton_Some in Hi as [_ <-]. done.
Qed.

Ltac crun_norm :=
  match goal with |- rtc _ ?x _ => let y := eval vm_compute in x in change x with y end.
Ltac crun_owner c := eapply rtc_l; [left; eapply c; [reflexivity|vm_compute; done..]|]; crun_norm.
Ltac crun_thief c := eapply rtc_l; [right; exists 0%nat; eapply c; [reflexivity|vm_compute; done..]|]; crun_norm.

Lemma race_run :
  ∃ s, reachable cinit cstep s ∧ pushed s = [18] ∧ taken s = [18] ∧ own s = OIdle.
Proof.
  eexists. split.
  - exists race_start. split; [exact race_start_init|].
    crun_owner (push_load race_start Native 16).
    crun_owner push_room. crun_owner push_store. crun_owner push_publish.
    crun_thief steal_top. crun_thief steal_bottom. crun_thief steal_ring. crun_thief steal_slot.
    crun_owner pop_load. crun_owner pop_claim. crun_owner pop_top. crun_owner pop_last.
    crun_thief steal_won. crun_owner pop_cas_lost. crun_owner pop_restore.
    apply rtc_refl.
  - split_and!; vm_compute; done.
Qed.

Lemma deque_exactly_once_witness :
  ∃ s, pushed s = [18] ∧ pushed s ≡ₚ taken s ++ live s ++ claimed s.
Proof.
  destruct race_run as (s & Hr & Hp & _). exists s. split; [done|].
  apply (deque_exactly_once s Hr). rewrite Hp. done.
Defined.

Lemma deque_idle_window_witness :
  ∃ s, taken s = [18] ∧ pushed s ≡ₚ taken s ++ contents_of (cur s) (ctop s) (cbottom s).
Proof.
  destruct race_run as (s & Hr & Hp & Ht & Ho). exists s. split; [done|].
  apply (deque_idle_window s Hr); [rewrite Hp; done|done].
Defined.
