(* ===== verification/MPSCQueue.v ===== *)
(** * The multi-producer single-consumer task queue (include/TaskMPSCQueue.h)

    An intrusive queue through [Task::next]: a producer swaps [head_] and then links the
    node it displaced to its own; the single consumer walks from [tail_] and re-appends
    the stub when it catches up.  [pop], [empty], [quiescent] and [clear] are given as
    functions; a step relation interleaves producers and the consumer at every atomic
    access, and lets the owners of tasks outside the queue write their [next] fields.
    The theorems: the queue is FIFO in the order of the swaps, nothing is lost
    or delivered twice, and in a quiet state [pop] fails exactly when nothing is queued. *)

From S2P Require Import Prelude.

(** ** State

    [nxt] is the [next] field of every task (absent: null); [head_] is shared, [tail_]
    and [stub_] belong to the consumer. *)
Record mpsc := mkQ { nxt : gmap Z Z; head_ : Z; tail_ : Z; stub_ : Z }.

(** [init] takes the stub's storage from the allocator. *)
Definition mpsc_init (stub : Z) (q : mpsc) : mpsc := mkQ (<[stub := 0]> (nxt q)) stub stub stub.

(** [push_batch(h, t)]; [push(n)] and [append(n)] are the batch of one. *)
Definition push_batch (h t : Z) (q : mpsc) : mpsc :=
  let m := <[t := 0]> (nxt q) in
  let prev := head_ q in
  mkQ (<[prev := h]> m) t (tail_ q) (stub_ q).
Definition append (n : Z) (q : mpsc) : mpsc := push_batch n n q.
Definition push (n : Z) (q : mpsc) : mpsc := append n q.

Definition set_tail (t : Z) (q : mpsc) : mpsc := mkQ (nxt q) (head_ q) t (stub_ q).

(** The part of [pop] after the stub has been stepped over: [tail] is [tail_]. *)
Definition pop_node (tail : Z) (q : mpsc) : option Z * mpsc :=
  let next := next_of (nxt q) tail in
  if negb (next =? 0) then (Some tail, set_tail next q)
  else if negb (tail =? head_ q) then (None, q)
  else
    let q1 := append (stub_ q) q in
    let next := next_of (nxt q1) tail in
    if negb (next =? 0) then (Some tail, set_tail next q1) else (None, q1).

Definition pop (q : mpsc) : option Z * mpsc :=
  let tail := tail_ q in
  let next := next_of (nxt q) tail in
  if tail =? stub_ q then
    if next =? 0 then (None, q) else pop_node next (set_tail next q)
  else pop_node tail q.

Fixpoint clear (fuel : nat) (q : mpsc) : option mpsc :=
  match fuel with
  | O => None
  | S fuel' => match pop q with (None, q') => Some q' | (Some _, q') => clear fuel' q' end
  end.

Definition mpsc_empty (q : mpsc) : bool :=
  (tail_ q =? stub_ q) && (next_of (nxt q) (tail_ q) =? 0).

Definition quiescent (q : mpsc) : bool :=
  (tail_ q =? stub_ q) && (next_of (nxt q) (tail_ q) =? 0) && (head_ q =? tail_ q).

(** ** Interleaved steps *)

(** The consumer's position inside [pop]. *)
Inductive consumer :=
| CIdle
| CNode (t : Z)        (* [tail_ = t], not the stub: load [t->next] *)
| CHead (t : Z)        (* [t->next] was null: load [head_] *)
| CSwap (t : Z)        (* [t == head_]: store [stub->next], swap [head_] *)
| CLink (t : Z)        (* link the displaced node to the stub *)
| CAgain (t : Z).      (* load [t->next] again *)

(** A thread between its swap and its link store: [None] is the consumer appending the
    stub, [Some j] producer [j]; the pair is the node it displaced and its own first
    node. *)
Record qstate := mkS {
  qm : mpsc; cons : consumer; links : gmap (option nat) (Z * Z);
  order : list Z; pushed : list Z; popped : list Z }.

(** The caller's side of a push: fresh, non-null, already chained nodes that nobody else
    is using. *)
Fixpoint chained (m : gmap Z Z) (l : list Z) : Prop :=
  match l with
  | [] => True
  | x :: l' => match l' with [] => True | y :: _ => next_of m x = y ∧ chained m l' end
  end.

Definition pushable (s : qstate) (l : list Z) : Prop :=
  l ≠ [] ∧ NoDup l ∧ (∀ x, x ∈ l → x ≠ 0 ∧ x ≠ stub_ (qm s) ∧ x ∉ order s) ∧ chained (nxt (qm s)) l.

(** Store null in the last node, swap [head_]; the link store is a later step. *)
Definition swap_head (agent : option nat) (l : list Z) (t : Z) (s : qstate) : mpsc * gmap (option nat) (Z * Z) :=
  (mkQ (<[t := 0]> (nxt (qm s))) t (tail_ (qm s)) (stub_ (qm s)),
   <[agent := (head_ (qm s), default t (head l))]> (links s)).

Definition deliver (t nx : Z) (s : qstate) : qstate :=
  mkS (set_tail nx (qm s)) CIdle (links s) (drop 1 (order s)) (pushed s) (popped s ++ [t]).

Definition at_cons (c : consumer) (s : qstate) : qstate :=
  mkS (qm s) c (links s) (order s) (pushed s) (popped s).

Inductive qstep (s : qstate) : qstate → Prop :=
| q_push_swap j l t :
    links s !! Some j = None → pushable s l → last l = Some t →
    let '(q', ls) := swap_head (Some j) l t s in
    qstep s (mkS q' (cons s) ls (order s ++ l) (pushed s ++ l) (popped s))
| q_push_link j a b :
    links s !! Some j = Some (a, b) →
    qstep s (mkS (mkQ (<[a := b]> (nxt (qm s))) (head_ (qm s)) (tail_ (qm s)) (stub_ (qm s)))
               (cons s) (delete (Some j) (links s)) (order s) (pushed s) (popped s))
| q_user a v :
    a ∉ order s → a ≠ stub_ (qm s) →
    qstep s (mkS (mkQ (<[a := v]> (nxt (qm s))) (head_ (qm s)) (tail_ (qm s)) (stub_ (qm s)))
               (cons s) (links s) (order s) (pushed s) (popped s))
| q_pop_node :
    cons s = CIdle → tail_ (qm s) ≠ stub_ (qm s) → qstep s (at_cons (CNode (tail_ (qm s))) s)
| q_pop_skip nx :
    cons s = CIdle → tail_ (qm s) = stub_ (qm s) → next_of (nxt (qm s)) (tail_ (qm s)) = nx → nx ≠ 0 →
    qstep s (mkS (set_tail nx (qm s)) (CNode nx) (links s) (drop 1 (order s)) (pushed s) (popped s))
| q_pop_none :
    cons s = CIdle → tail_ (qm s) = stub_ (qm s) → next_of (nxt (qm s)) (tail_ (qm s)) = 0 → qstep s s
| q_node_some t nx :
    cons s = CNode t → next_of (nxt (qm s)) t = nx → nx ≠ 0 → qstep s (deliver t nx s)
| q_node_null t :
    cons s = CNode t → next_of (nxt (qm s)) t = 0 → qstep s (at_cons (CHead t) s)
| q_head_behind t :
    cons s = CHead t → t ≠ head_ (qm s) → qstep s (at_cons CIdle s)
| q_head_last t :
    cons s = CHead t → t = head_ (qm s) → qstep s (at_cons (CSwap t) s)
| q_stub_swap t :
    cons s = CSwap t →
    let '(q', ls) := swap_head None [stub_ (qm s)] (stub_ (qm s)) s in
    qstep s (mkS q' (CLink t) ls (order s ++ [stub_ (qm s)]) (pushed s) (popped s))
| q_stub_link t a b :
    cons s = CLink t → links s !! None = Some (a, b) →
    qstep s (mkS (mkQ (<[a := b]> (nxt (qm s))) (head_ (qm s)) (tail_ (qm s)) (stub_ (qm s)))
               (CAgain t) (delete None (links s)) (order s) (pushed s) (popped s))
| q_again_some t nx :
    cons s = CAgain t → next_of (nxt (qm s)) t = nx → nx ≠ 0 → qstep s (deliver t nx s)
| q_again_null t :
    cons s = CAgain t → next_of (nxt (qm s)) t = 0 → qstep s (at_cons CIdle s).

Definition qinit (s : qstate) : Prop :=
  ∃ stub q, stub ≠ 0 ∧ s = mkS (mpsc_init stub q) CIdle ∅ [stub] [] [].

(** ** Invariant *)

(** [a] immediately before [b]. *)
Definition adj (l : list Z) (a b : Z) : Prop := ∃ i, l !! i = Some a ∧ l !! S i = Some b.

Definition cons_inv (s : qstate) : Prop :=
  let st := stub_ (qm s) in
  match cons s with
  | CIdle => links s !! None = None
  | CNode t | CHead t => t = tail_ (qm s) ∧ t ≠ st ∧ links s !! None = None
  | CSwap t => t = tail_ (qm s) ∧ t ≠ st ∧ (st ∉ order s) ∧ links s !! None = None
  | CLink t => t = tail_ (qm s) ∧ t ≠ st ∧ (∃ p, links s !! None = Some p)
  | CAgain t => t = tail_ (qm s) ∧ t ≠ st ∧ links s !! None = None
  end.

(** The chain from [tail_] to [head_]: every node but the last points to its successor,
    or still holds null while exactly one thread is about to link it. *)
Record chain_inv (m : gmap Z Z) (h t : Z) (ls : gmap (option nat) (Z * Z)) (ord : list Z) : Prop := {
  ci_nodup : NoDup ord;
  ci_nonnull : 0 ∉ ord;
  ci_tail : head ord = Some t;
  ci_head : last ord = Some h;
  ci_end : next_of m h = 0;
  ci_adj : ∀ a b, adj ord a b →
    next_of m a = b ∨ (next_of m a = 0 ∧ (∃ j, ls !! j = Some (a, b)));
  ci_links : ∀ j a b, ls !! j = Some (a, b) → adj ord a b ∧ next_of m a = 0;
  ci_inj : ∀ j j' a b b', ls !! j = Some (a, b) → ls !! j' = Some (a, b') → j = j' }.

Record qinv (s : qstate) : Prop := {
  qi_stub : stub_ (qm s) ≠ 0;
  qi_chain : chain_inv (nxt (qm s)) (head_ (qm s)) (tail_ (qm s)) (links s) (order s);
  qi_cons : cons_inv s;
  qi_fifo : pushed s = popped s ++ filter (λ x, x ≠ stub_ (qm s)) (order s) }.

(** ** Adjacency *)

Lemma adj_elem l a b : adj l a b → a ∈ l ∧ b ∈ l.
Proof. intros (i & Ha & Hb). split; apply list_elem_of_lookup; eauto. Qed.

Lemma adj_fun l a b b' : NoDup l → adj l a b → adj l a b' → b = b'.
Proof.
  intros Hnd (i & Ha & Hb) (j & Ha' & Hb').
  assert (i = j) as -> by (eapply NoDup_lookup; eauto). congruence.
Qed.

Lemma adj_app_iff l1 l2 a b :
  adj (l1 ++ l2) a b ↔ adj l1 a b ∨ adj l2 a b ∨ (last l1 = Some a ∧ head l2 = Some b).
Proof.
  split.
  - intros (i & Ha & Hb). destruct (decide (S i < length l1)%nat).
    { left. exists i. rewrite !lookup_app_l in * by lia. done. }
    destruct (decide (length l1 ≤ i)%nat).
    { right; left. exists (i - length l1)%nat. rewrite !lookup_app_r in * by lia.
      split; [done|]. by replace (S (i - length l1)) with (S i - length l1)%nat by lia. }
    right; right. rewrite lookup_app_l in Ha by lia. rewrite lookup_app_r in Hb by lia.
    rewrite last_lookup, head_lookup. split.
    + by replace (pred (length l1)) with i by lia.
    + by replace (S i - length l1)%nat with 0%nat in Hb by lia.
  - intros [(i & Ha & Hb)|[(i & Ha & Hb)|[Ha Hb]]].
    + exists i. by rewrite !lookup_app_l by (eapply lookup_lt_Some; eauto).
    + exists (length l1 + i)%nat. rewrite !lookup_app_r by lia.
      replace (length l1 + i - length l1)%nat with i by lia.
      by replace (S (length l1 + i) - length l1)%nat with (S i) by lia.
    + rewrite last_lookup in Ha. rewrite head_lookup in Hb.
      pose proof (lookup_lt_Some _ _ _ Ha). exists (pred (length l1)).
      rewrite lookup_app_l, lookup_app_r by lia.
      by replace (S (pred (length l1)) - length l1)%nat with 0%nat by lia.
Qed.

Lemma adj_drop l a b : adj (drop 1 l) a b → adj l a b.
Proof. intros (i & Ha & Hb). rewrite !lookup_drop in *. by exists (S i). Qed.

Lemma adj_drop_ne l t a b : head l = Some t → a ≠ t → adj l a b → adj (drop 1 l) a b.
Proof.
  intros Hh Hne ([|i] & Ha & Hb).
  - rewrite head_lookup in Hh. congruence.
  - exists i. by rewrite !lookup_drop.
Qed.

Lemma adj_head l t b : NoDup l → head l = Some t → adj l t b → head (drop 1 l) = Some b.
Proof.
  intros Hnd Hh (i & Ha & Hb). rewrite head_lookup in Hh.
  assert (i = 0%nat) as -> by (eapply NoDup_lookup; eauto).
  by rewrite head_lookup, lookup_drop.
Qed.

(** A list that starts and ends with the same element, without repetition, is a singleton;
    otherwise its first element has a successor. *)
Lemma head_last_single (l : list Z) t : NoDup l → head l = Some t → last l = Some t → l = [t].
Proof.
  intros Hnd Hh Hl. rewrite head_lookup in Hh. rewrite last_lookup in Hl.
  assert (Hlen : pred (length l) = 0%nat) by (eapply NoDup_lookup; eauto).
  destruct l as [|x [|y l]]; simplify_eq/=. done.
Qed.

Lemma head_has_adj (l : list Z) t h :
  head l = Some t → last l = Some h → t ≠ h → ∃ b, adj l t b.
Proof.
  intros Hh Hl Hne. destruct l as [|x [|y l]]; simplify_eq/=. exists y. by exists 0%nat.
Qed.

Lemma adj_not_last l h b : NoDup l → last l = Some h → ¬ adj l h b.
Proof.
  intros Hnd Hl (i & Ha & Hb). rewrite last_lookup in Hl.
  assert (i = pred (length l)) as -> by (eapply NoDup_lookup; eauto).
  apply lookup_lt_Some in Hb. lia.
Qed.

Lemma chained_adj m l a b : chained m l → adj l a b → next_of m a = b.
Proof.
  induction l as [|x l IH]; intros Hc ([|i] & Ha & Hb); simplify_eq/=.
  - destruct l; simplify_eq/=. by destruct Hc.
  - apply IH; [by destruct l; [|destruct Hc]|]. by exists i.
Qed.

(** ** The three things that happen to the chain *)

Lemma chain_swap m h t ls ord ag l t' :
  chain_inv m h t ls ord → ls !! ag = None → l ≠ [] → NoDup l →
  (∀ x, x ∈ l → x ≠ 0 ∧ x ∉ ord) → chained m l → last l = Some t' →
  chain_inv (<[t' := 0]> m) t' t (<[ag := (h, default t' (head l))]> ls) (ord ++ l).
Proof.
  intros [Hnd Hnn Ht Hh He Hadj Hlk Hinj] Hag Hl Hndl Hfr Hch Hlast.
  assert (Ht'l : t' ∈ l) by (apply list_elem_of_lookup; rewrite last_lookup in Hlast; eauto).
  assert (Hne : ∀ x, x ∈ ord → t' ≠ x) by (intros x Hx ->; by destruct (Hfr x)).
  destruct (head l) as [f|] eqn:Hf; [|by destruct l]. simpl.
  assert (Hhord : h ∈ ord) by (apply list_elem_of_lookup; rewrite last_lookup in Hh; eauto).
  constructor.
  - apply NoDup_app. split_and!; [done| |done]. intros x Hx Hx'. by destruct (Hfr x).
  - rewrite elem_of_app. intros [?|Hx]; [done|]. by destruct (Hfr 0).
  - rewrite head_lookup in *. rewrite lookup_app_l; [done|]. by eapply lookup_lt_Some.
  - by rewrite last_app, Hlast.
  - rewrite next_of_insert. by rewrite decide_True.
  - intros a b Hab. apply adj_app_iff in Hab as [Hab|[Hab|[Ha Hb]]]; rewrite next_of_insert.
    + destruct (adj_elem _ _ _ Hab) as [Hao _]. rewrite decide_False by auto.
      destruct (Hadj a b Hab) as [|[? [j Hj]]]; [by left|right; split; [done|]].
      exists j. rewrite lookup_insert_ne; [done|congruence].
    + rewrite decide_False by (intros ->; by apply (adj_not_last l a b)).
      left. by apply (chained_adj m l).
    + simplify_eq. rewrite decide_False by (by apply Hne). right. split; [done|].
      exists ag. apply lookup_insert_eq.
  - intros j a b Hj. rewrite next_of_insert. destruct (decide (ag = j)) as [->|].
    + rewrite lookup_insert_eq in Hj. simplify_eq. split; [|by rewrite decide_False by auto].
      apply adj_app_iff. auto.
    + rewrite lookup_insert_ne in Hj by done. destruct (Hlk j a b Hj) as [Hab Hz].
      destruct (adj_elem _ _ _ Hab) as [Hao _].
      split; [apply adj_app_iff; auto|]. by rewrite decide_False by auto.
  - intros j j' a b b'. rewrite !lookup_insert. repeat case_decide; intros; simplify_eq; try done.
    + exfalso. by eapply (adj_not_last ord a); [..|apply (Hlk j')].
    + exfalso. by eapply (adj_not_last ord a); [..|apply (Hlk j)].
    + eauto.
Qed.

Lemma chain_link m h t ls ord j a b :
  chain_inv m h t ls ord → ls !! j = Some (a, b) →
  chain_inv (<[a := b]> m) h t (delete j ls) ord.
Proof.
  intros [Hnd Hnn Ht Hh He Hadj Hlk Hinj] Hj. destruct (Hlk j a b Hj) as [Hab Hz].
  constructor; try done.
  - rewrite next_of_insert, decide_False; [done|]. intros ->. by apply (adj_not_last ord h b).
  - intros x y Hxy. rewrite next_of_insert. case_decide as Hx.
    + subst x. left. by eapply adj_fun.
    + destruct (Hadj x y Hxy) as [|[? [j' Hj']]]; [by left|right; split; [done|]].
      exists j'. rewrite lookup_delete_ne; [done|congruence].
  - intros j' x y Hj'. apply lookup_delete_Some in Hj' as [Hne Hj'].
    destruct (Hlk j' x y Hj') as [Hxy Hzx]. split; [done|].
    rewrite next_of_insert, decide_False; [done|]. intros ->. by apply Hne, (Hinj j j' x b y).
  - intros j1 j2 x y y' H1 H2. apply lookup_delete_Some in H1 as [_ H1].
    apply lookup_delete_Some in H2 as [_ H2]. eauto.
Qed.

Lemma chain_drop m h t ls ord nx :
  chain_inv m h t ls ord → next_of m t = nx → nx ≠ 0 →
  chain_inv m h nx ls (drop 1 ord) ∧ ord = t :: drop 1 ord.
Proof.
  intros [Hnd Hnn Ht Hh He Hadj Hlk Hinj] Hnx Hne.
  assert (Hth : t ≠ h) by congruence.
  destruct (head_has_adj ord t h Ht Hh Hth) as [b Hb].
  assert (b = nx) as -> by (destruct (Hadj t b Hb) as [|[? _]]; congruence).
  destruct ord as [|x ord]; simplify_eq/=. rewrite drop_0 in *. split; [|done].
  apply NoDup_cons in Hnd as [Hx Hnd].
  assert (Hhd : head ord = Some (next_of m t)).
  { apply (adj_head (t :: ord) t); [by constructor|done|done]. }
  constructor; try done.
  - set_solver.
  - destruct ord; simplify_eq/=; done.
  - intros a b Hab. apply Hadj. by apply (adj_drop (t :: ord)).
  - intros j a b Hj. destruct (Hlk j a b Hj) as [Hab Hz]. split; [|done].
    apply (adj_drop_ne (t :: ord) t); [done| |done]. intros ->. congruence.
Qed.

(** ** The invariant is preserved *)

Lemma filter_stub_app (st : Z) (l l' : list Z) :
  (∀ x, x ∈ l' → x ≠ st) → filter (λ x, x ≠ st) (l ++ l') = filter (λ x, x ≠ st) l ++ l'.
Proof.
  intros H. rewrite filter_app. f_equal. induction l' as [|x l' IH]; [done|].
  rewrite filter_cons_True by (apply H; set_solver). f_equal. apply IH. set_solver.
Qed.

Lemma chain_user m h t ls ord a v :
  chain_inv m h t ls ord → a ∉ ord → chain_inv (<[a := v]> m) h t ls ord.
Proof.
  intros [Hnd Hnn Ht Hh He Hadj Hlk Hinj] Ha.
  assert (Hnx : ∀ x, x ∈ ord → next_of (<[a := v]> m) x = next_of m x).
  { intros x Hx. rewrite next_of_insert, decide_False; [done|]. by intros ->. }
  constructor; try done.
  - rewrite Hnx; [done|]. apply list_elem_of_lookup. rewrite last_lookup in Hh. eauto.
  - intros x y Hxy. rewrite Hnx by (by destruct (adj_elem _ _ _ Hxy)). auto.
  - intros j x y Hj. destruct (Hlk j x y Hj) as [Hxy Hz].
    rewrite Hnx by (by destruct (adj_elem _ _ _ Hxy)). done.
Qed.

Lemma deliver_inv t nx s :
  qinv s → t = tail_ (qm s) → t ≠ stub_ (qm s) → links s !! None = None →
  next_of (nxt (qm s)) t = nx → nx ≠ 0 → qinv (deliver t nx s).
Proof.
  intros [Hst Hch Hc Hf] -> Hts Hl Hnx Hne.
  destruct (chain_drop _ _ _ _ _ _ Hch Hnx Hne) as [Hch' Hord].
  constructor; simpl; [done|done|done|].
  rewrite Hf, Hord, filter_cons_True by done. by rewrite <- (assoc (++)).
Qed.

Lemma at_cons_inv c s : qinv s → cons_inv (at_cons c s) → qinv (at_cons c s).
Proof. intros [Hst Hch Hc Hf] Hc'. by constructor. Qed.

Lemma cons_inv_env s s' :
  cons_inv s → cons s' = cons s → tail_ (qm s') = tail_ (qm s) → stub_ (qm s') = stub_ (qm s) →
  links s' !! None = links s !! None →
  (stub_ (qm s) ∉ order s → stub_ (qm s) ∉ order s') → cons_inv s'.
Proof.
  unfold cons_inv. intros Hc -> -> -> -> Ho. destruct (cons s); naive_solver.
Qed.

Lemma qstep_inv s s' : qinv s → qstep s s' → qinv s'.
Proof.
  intros Hinv Hstep. pose proof Hinv as [Hst Hch Hc Hf].
  destruct Hstep as [j l t Hj (Hl & Hnd & Hfr & Hchd) Hlast|j a b Hj|a v Ha Hav|Hi Hne|nx Hi Heq Hnx Hne
    |Hi Heq Hnx|t nx Hi Hnx Hne|t Hi Hnx|t Hi Hne|t Hi Heq|t Hi|t a b Hi Hj|t nx Hi Hnx Hne|t Hi Hnx];
    unfold cons_inv in Hc; try rewrite Hi in Hc.
  - simpl. constructor; simpl; [done|..].
    + eapply chain_swap; try done. intros x Hx. by destruct (Hfr x Hx) as (? & ? & ?).
    + eapply (cons_inv_env s); try done; simpl; [by rewrite lookup_insert_ne|].
      intros Hn. rewrite elem_of_app. intros [?|Hx]; [done|]. by destruct (Hfr _ Hx) as (_ & ? & _).
    + rewrite filter_stub_app by (intros x Hx; by destruct (Hfr _ Hx) as (_ & ? & _)).
      by rewrite Hf, (assoc (++)).
  - constructor; simpl; [done|by eapply chain_link| |done].
    eapply (cons_inv_env s); try done; simpl. by rewrite lookup_delete_ne.
  - constructor; simpl; [done|by apply chain_user| |done]. by eapply (cons_inv_env s).
  - apply at_cons_inv; [done|]. unfold cons_inv; simpl. done.
  - destruct (chain_drop _ _ _ _ _ _ Hch Hnx Hne) as [Hch' Hord].
    constructor; simpl; [done|done| |].
    + unfold cons_inv; simpl. split_and!; [done| |done]. intros ->.
      destruct Hch as [Hnd _ _ _ _ _ _ _]. rewrite Hord in Hnd.
      apply NoDup_cons in Hnd as [Hnot _]. apply Hnot. rewrite Heq.
      destruct Hch' as [_ _ Hhd _ _ _ _ _]. rewrite head_lookup in Hhd.
      apply list_elem_of_lookup. eauto.
    + rewrite Hf. rewrite Hord at 1. rewrite filter_cons_False by naive_solver. done.
  - done.
  - apply deliver_inv; naive_solver.
  - apply at_cons_inv; [done|]. unfold cons_inv; simpl. done.
  - apply at_cons_inv; [done|]. unfold cons_inv; simpl. naive_solver.
  - apply at_cons_inv; [done|]. unfold cons_inv; simpl. destruct Hc as (-> & Hts & Hl).
    split_and!; [done|done| |done]. destruct Hch as [Hnd _ Ht Hh _ _ _ _].
    rewrite <- Heq in Hh. rewrite (head_last_single _ _ Hnd Ht Hh). set_solver.
  - simpl. destruct Hc as (-> & Hts & Hno & Hl). constructor; simpl; [done|..].
    + eapply (chain_swap _ _ _ _ _ None [stub_ (qm s)]); try done; [apply NoDup_singleton|set_solver].
    + unfold cons_inv; simpl. split_and!; [done|done|]. rewrite lookup_insert_eq. eauto.
    + rewrite filter_app, filter_cons_False, filter_nil, app_nil_r by naive_solver. done.
  - constructor; simpl; [done|by eapply chain_link| |done]. unfold cons_inv; simpl.
    rewrite lookup_delete_eq. naive_solver.
  - apply deliver_inv; naive_solver.
  - apply at_cons_inv; [done|]. unfold cons_inv; simpl. naive_solver.
Qed.

Lemma qinit_inv s : qinit s → qinv s.
Proof.
  intros (stub & q & Hs & ->). constructor; simpl; [done| |done|].
  - constructor; simpl.
    + apply NoDup_singleton.
    + set_solver.
    + done.
    + done.
    + by rewrite next_of_insert, decide_True.
    + intros a b (i & Ha & Hb). by destruct i.
    + intros j a b. by rewrite lookup_empty.
    + intros j j' a b b'. by rewrite lookup_empty.
  - by rewrite filter_cons_False by naive_solver.
Qed.

Lemma reachable_qinv s : reachable qinit qstep s → qinv s.
Proof. apply reachable_ind; [apply qinit_inv|intros; by eapply qstep_inv]. Qed.

(** ** Properties *)

(** What is queued and not yet delivered, oldest first. *)
Definition waiting (s : qstate) : list Z := filter (λ x, x ≠ stub_ (qm s)) (order s).

(** C2: under every interleaving, tasks leave in exactly the order in which their
    producers swapped [head_], each once: what was pushed is what was popped followed by
    what is still queued. *)
Theorem mpsc_fifo s : reachable qinit qstep s → pushed s = popped s ++ waiting s.
Proof. intros Hr. by apply qi_fifo, reachable_qinv. Qed.

Lemma quiet_next s b :
  qinv s → links s = ∅ → adj (order s) (tail_ (qm s)) b → next_of (nxt (qm s)) (tail_ (qm s)) = b.
Proof.
  intros [_ Hch _ _] Hl Hb. destruct (ci_adj _ _ _ _ _ Hch _ _ Hb) as [|[_ [j Hj]]]; [done|].
  by rewrite Hl, lookup_empty in Hj.
Qed.

Lemma quiet_single s :
  qinv s → links s = ∅ → next_of (nxt (qm s)) (tail_ (qm s)) = 0 →
  order s = [tail_ (qm s)] ∧ head_ (qm s) = tail_ (qm s).
Proof.
  intros Hinv Hl Hz. pose proof Hinv as [_ Hch _ _].
  destruct Hch as [Hnd Hnn Ht Hh _ _ _ _].
  destruct (decide (tail_ (qm s) = head_ (qm s))) as [Heq|Hne].
  - rewrite <- Heq in Hh. split; [|done]. by apply head_last_single.
  - destruct (head_has_adj _ _ _ Ht Hh Hne) as [b Hb]. exfalso.
    rewrite (quiet_next s b) in Hz by done. subst b. by apply Hnn, (adj_elem _ _ _ Hb).
Qed.

Lemma rtc_qinv s s' : rtc qstep s s' → qinv s → qinv s'.
Proof. induction 1; eauto using qstep_inv. Qed.

(** From a non-stub tail with nobody mid-push, the rest of [pop] delivers it. *)
Lemma pop_node_quiet s t :
  qinv s → links s = ∅ → cons s = CNode t →
  ∃ s', rtc qstep s s' ∧ links s' = ∅ ∧ cons s' = CIdle
        ∧ pop_node t (qm s) = (Some t, qm s') ∧ popped s' = popped s ++ [t].
Proof.
  intros Hinv Hl Hc. pose proof Hinv as [Hst Hch Hci Hf].
  unfold cons_inv in Hci. rewrite Hc in Hci. destruct Hci as (-> & Hts & _).
  unfold pop_node. destruct (next_of (nxt (qm s)) (tail_ (qm s)) =? 0) eqn:Hz; simpl.
  - apply Z.eqb_eq in Hz. destruct (quiet_single s Hinv Hl Hz) as [Hord Hht].
    rewrite Hht, Z.eqb_refl. simpl. rewrite next_of_insert, decide_True by done.
    replace (stub_ (qm s) =? 0) with false by (symmetry; by apply Z.eqb_neq). simpl.
    eexists. split.
    { eapply rtc_l; [by eapply q_node_null|].
      eapply rtc_l; [by eapply q_head_last|].
      eapply rtc_l; [by eapply (q_stub_swap _ (tail_ (qm s)))|].
      eapply rtc_l; [eapply q_stub_link; [done|simpl; apply lookup_insert_eq]|].
      eapply rtc_l; [eapply q_again_some; [done|done|]|apply rtc_refl].
      simpl. by rewrite Hht, next_of_insert, decide_True. }
    simpl. rewrite Hl, delete_insert_eq, delete_empty. split_and!; try done.
    unfold set_tail; simpl. by rewrite Hht, next_of_insert, decide_True.
  - apply Z.eqb_neq in Hz. exists (deliver (tail_ (qm s)) (next_of (nxt (qm s)) (tail_ (qm s))) s).
    split; [apply rtc_once; by eapply q_node_some|]. done.
Qed.

Lemma waiting_head s :
  qinv s → tail_ (qm s) ≠ stub_ (qm s) → head (waiting s) = Some (tail_ (qm s)).
Proof.
  intros [_ Hch _ _] Hne. unfold waiting. pose proof (ci_tail _ _ _ _ _ Hch) as Hhd.
  destruct (order s) as [|x l]; simplify_eq/=. by rewrite filter_cons_True.
Qed.

(** with no producer between its swap and its link, [pop] returns the oldest queued
    task, and nothing only when nothing is queued; it is a run of the interleaved steps. *)
Theorem pop_quiet s :
  reachable qinit qstep s → links s = ∅ → cons s = CIdle →
  ∃ s', rtc qstep s s' ∧ cons s' = CIdle ∧ links s' = ∅
        ∧ pop (qm s) = (head (waiting s), qm s')
        ∧ popped s' = popped s ++ option_list (head (waiting s)).
Proof.
  intros Hr Hl Hc. apply reachable_qinv in Hr as Hinv. pose proof Hinv as [Hst Hch Hci Hf].
  unfold pop, waiting. destruct (tail_ (qm s) =? stub_ (qm s)) eqn:Hts.
  - apply Z.eqb_eq in Hts. destruct (next_of (nxt (qm s)) (tail_ (qm s)) =? 0) eqn:Hz.
    + apply Z.eqb_eq in Hz. exists s. destruct (quiet_single s Hinv Hl Hz) as [Hord _].
      rewrite Hord, filter_cons_False by naive_solver. simpl. rewrite app_nil_r. by split_and!.
    + apply Z.eqb_neq in Hz.
      destruct (chain_drop _ _ _ _ _ _ Hch eq_refl Hz) as [Hch' Hord].
      pose proof (q_pop_skip s _ Hc Hts eq_refl Hz) as Hstep. set (s1 := mkS _ _ _ _ _ _) in Hstep.
      pose proof (qstep_inv _ _ Hinv Hstep) as Hinv1.
      destruct (pop_node_quiet s1 _ Hinv1 Hl eq_refl) as (s' & Hrun & ? & ? & Hpop & Hpp).
      assert (Hw : filter (λ x, x ≠ stub_ (qm s)) (order s) = waiting s1).
      { unfold waiting; simpl. rewrite Hord at 1. by rewrite filter_cons_False by naive_solver. }
      assert (Hhd : head (waiting s1) = Some (tail_ (qm s1))).
      { apply waiting_head; [done|]. destruct Hinv1 as [_ _ Hc1 _]. apply Hc1. }
      exists s'. split; [by eapply rtc_l|]. rewrite Hw, Hhd. by split_and!.
  - apply Z.eqb_neq in Hts.
    pose proof (q_pop_node s Hc Hts) as Hstep.
    pose proof (qstep_inv _ _ Hinv Hstep) as Hinv1.
    destruct (pop_node_quiet _ _ Hinv1 Hl eq_refl) as (s' & Hrun & ? & ? & Hpop & Hpp).
    exists s'. split; [by eapply rtc_l|]. simpl in *. rewrite Hpop, Hpp.
    pose proof (waiting_head s Hinv Hts) as Hhd. unfold waiting in Hhd.
    rewrite Hhd. by split_and!.
Qed.

(** [quiescent] is exact at any instant: it holds if and only if no task is queued
    and no producer is part-way through a push. *)
Theorem quiescent_exact s :
  reachable qinit qstep s →
  quiescent (qm s) = true ↔ order s = [stub_ (qm s)] ∧ links s = ∅.
Proof.
  intros Hr. apply reachable_qinv in Hr as [Hst [Hnd Hnn Ht Hh He Hadj Hlk _] Hc Hf].
  unfold quiescent. rewrite !andb_true_iff, !Z.eqb_eq. split.
  - intros [[Hts Hz] Hht]. rewrite Hht in Hh.
    pose proof (head_last_single _ _ Hnd Ht Hh) as Hord. rewrite Hord, Hts. split; [done|].
    apply map_empty. intros j. destruct (links s !! j) as [[a b]|] eqn:Hj; [|done].
    destruct (Hlk _ _ _ Hj) as [(i & Ha & Hb) _]. rewrite Hord in Hb. by destruct i.
  - intros [Hord _]. rewrite Hord in Ht, Hh. simplify_eq/=. split_and!; congruence.
Qed.

(** A queue with stub 8 into which task 16 has been pushed. *)
Definition one_queued : qstate :=
  mkS (push 16 (mpsc_init 8 (mkQ ∅ 0 0 0))) CIdle ∅ [8; 16] [16] [].

Lemma one_queued_reachable : reachable qinit qstep one_queued.
Proof.
  exists (mkS (mpsc_init 8 (mkQ ∅ 0 0 0)) CIdle ∅ [8] [] []). split; [by exists 8, (mkQ ∅ 0 0 0)|].
  eapply rtc_l.
  { eapply (q_push_swap _ 0 [16] 16); [done| |done].
    split_and!; [done|apply NoDup_singleton| |done].
    intros x ->%list_elem_of_singleton. simpl. split_and!; [done|done|].
    by intros ?%list_elem_of_singleton. }
  eapply rtc_l; [eapply (q_push_link _ 0 8 16); vm_compute; reflexivity|].
  vm_compute. apply rtc_refl.
Qed.

Lemma mpsc_fifo_witness : pushed one_queued = popped one_queued ++ waiting one_queued.
Proof. apply (mpsc_fifo one_queued one_queued_reachable). Defined.

Lemma pop_quiet_witness :
  ∃ s', rtc qstep one_queued s' ∧ pop (qm one_queued) = (Some 16, qm s') ∧ popped s' = [16].
Proof.
  destruct (pop_quiet one_queued one_queued_reachable eq_refl eq_refl)
    as (s' & Hrun & _ & _ & Hpop & Hpp).
  exists s'. vm_compute in Hpop, Hpp. by split_and!.
Defined.

Lemma quiescent_exact_witness :
  quiescent (qm one_queued) = true ↔ order one_queued = [stub_ (qm one_queued)] ∧ links one_queued = ∅.
Proof. apply (quiescent_exact one_queued one_queued_reachable). Defined.
