(* ===== verification/SlabPool.v ===== *)
(** * The slab allocator of one size class (include/SlabPool.h)

    A pool hands out fixed-size slots from one block and from extents it grows by, through
    per-thread magazines ([Cache]) refilled from and flushed to a shared free list in
    batches.  Free slots are linked through their first word ([heap]).  Every access to
    shared pool state is inside the pool's mutex and every other access is to the calling
    thread's own magazine, so an operation is one step of the concurrent relation at the
    end of the file.  The build without the debugging canary is modelled.

    [SLOT] is the template parameter; the storage of a new extent is the answer of the
    system allocator, an argument ([fresh], [None] for a failed [new (nothrow)]). *)

From S2P Require Import Prelude.

Definition BATCH : Z := 32.
Definition kGrowSlots : Z := 4096.
Definition kLiveSlots : Z := 128.

(** ** State *)

Record Extent := mkExtent { ext_mem : Z; ext_slots : Z; ext_bump : Z }.

Record Cache := mkCache { c_head : Z; c_count : Z; c_gen : Z }.

Record Pool := mkPool {
  mem : Z; memSlots : Z; extents : list Extent; grewOnce : bool;
  bumpNext : Z; sharedHead : Z; gen_ : Z }.

(** The per-class statics: the live counters, and the slot each thread was dealt. *)
Record Counters := mkCounters {
  liveRef : gmap nat Z; s_liveNext : Z; s_live : gmap Z (Z * Z) }.

Record Statics := mkStatics { heap : gmap Z Z; caches : gmap nat Cache; counters : Counters }.

Definition set_heap (m : gmap Z Z) (st : Statics) : Statics := mkStatics m (caches st) (counters st).
Definition set_cache (t : nat) (c : Cache) (st : Statics) : Statics :=
  mkStatics (heap st) (<[t := c]> (caches st)) (counters st).
Definition set_counters (k : Counters) (st : Statics) : Statics := mkStatics (heap st) (caches st) k.

(** ** The live counters *)

(** [liveSlot]: the first call of a thread deals it the next number. *)
Definition liveSlot (t : nat) (k : Counters) : Z * Counters :=
  match liveRef k !! t with
  | Some n => (n, k)
  | None =>
      let n := s_liveNext k in
      (n, mkCounters (<[t := n]> (liveRef k)) (n ⊕ 1) (s_live k))
  end.

Definition counter (k : Counters) (i : Z) : Z * Z := default (0, 0) (s_live k !! i).

(** The branch of a thread whose number is below [kLiveSlots] is a plain load followed by
    a plain store of the counter ([exclusive]); only the other branch is one [fetch_add]. *)
Definition exclusive (n : Z) : bool := n <? kLiveSlots.
Definition liveAdd_load (n d : Z) (k : Counters) : Z := (counter k (n `mod` kLiveSlots)).1 + d.
Definition liveAdd_store (n d now : Z) (k : Counters) : Counters :=
  let i := n `mod` kLiveSlots in
  let peak := (counter k i).2 in
  mkCounters (liveRef k) (s_liveNext k)
    (<[i := (now, if (0 <? d) && (peak <? now) then now else peak)]> (s_live k)).

Definition liveAdd (t : nat) (d : Z) (k : Counters) : Counters :=
  let '(n, k) := liveSlot t k in
  liveAdd_store n d (liveAdd_load n d k) k.

Definition sum_live (f : Z * Z → Z) (k : Counters) : Z :=
  foldr (λ i acc, f (counter k i) + acc) 0 (seqZ 0 kLiveSlots).

Definition LiveCount (k : Counters) : Z := sum_live fst k.
Definition PeakLive (k : Counters) : Z := sum_live snd k.

(** ** Free lists and batches *)

(** [while (curr && moved < BATCH)]: the part of the shared list a refill takes. *)
Fixpoint take_shared (n : nat) (m : gmap Z Z) (curr tail moved : Z) : Z * Z * Z :=
  match n with
  | O => (curr, tail, moved)
  | S n' =>
      if curr =? 0 then (curr, tail, moved)
      else take_shared n' m (next_of m curr) curr (moved + 1)
  end.

(** A batch under construction: the heap, its first and its last slot. *)
Record Batch := mkBatch { b_heap : gmap Z Z; b_head : Z; b_tail : Z }.

Section pool.
Variable SLOT : Z.

Definition slot_at (base i : Z) : Z := base + i * SLOT.

(** [for (k < take)]: link slots [i], [i+1], ... of a block in front of the batch. *)
Fixpoint carve (n : nat) (base i : Z) (b : Batch) : Batch :=
  match n with
  | O => b
  | S n' =>
      let slot := slot_at base i in
      carve n' base (i + 1)
        (mkBatch (<[slot := b_head b]> (b_heap b)) slot
           (if b_head b =? 0 then slot else b_tail b))
  end.

Definition Prefault (slots : Z) (p : Pool) (m : gmap Z Z) : Pool * gmap Z Z :=
  if mem p =? 0 then (p, m)
  else
    let slots := if memSlots p - bumpNext p <? slots then memSlots p - bumpNext p else slots in
    let b := carve (Z.to_nat slots) (mem p) (bumpNext p) (mkBatch m (sharedHead p) 0) in
    (mkPool (mem p) (memSlots p) (extents p) (grewOnce p) (bumpNext p + slots) (b_head b) (gen_ p),
     b_heap b).

Definition in_block (q base slots : Z) : bool := (base <=? q) && (q <? base + slots * SLOT).

Fixpoint in_extents (q : Z) (es : list Extent) : bool :=
  match es with
  | [] => false
  | e :: es' =>
      if in_block q (ext_mem e) (ext_slots e) then (q - ext_mem e) `mod` SLOT =? 0
      else in_extents q es'
  end.

Definition SlotInSlab (p : Pool) (q : Z) : bool :=
  if negb (mem p =? 0) && in_block q (mem p) (memSlots p) then (q - mem p) `mod` SLOT =? 0
  else in_extents q (extents p).

Definition HighWaterSlots (p : Pool) : Z :=
  foldl (λ n e, n + ext_bump e) (bumpNext p) (extents p).
Definition HighWaterBytes (p : Pool) : Z := HighWaterSlots p * SLOT.
Definition ExtentCount (p : Pool) : Z := foldl (λ n _, n + 1) 0 (extents p).
Definition Capacity (p : Pool) : Z := foldl (λ n e, n + ext_slots e) (memSlots p) (extents p).

(** ** Refill *)

(** The first extent that is not used up gives [take] slots. *)
Fixpoint carve_extents (es : list Extent) (b : Batch) : option (list Extent * Batch * Z) :=
  match es with
  | [] => None
  | e :: es' =>
      if ext_bump e <? ext_slots e then
        let take := if ext_slots e - ext_bump e <? BATCH then ext_slots e - ext_bump e else BATCH in
        Some (mkExtent (ext_mem e) (ext_slots e) (ext_bump e + take) :: es',
              carve (Z.to_nat take) (ext_mem e) (ext_bump e) b, take)
      else
        match carve_extents es' b with
        | Some (es'', b', take) => Some (e :: es'', b', take)
        | None => None
        end
  end.

(** The extents the growth branch works on, with a fresh one pushed in front when every
    one is used up; [None] when the allocation failed. *)
Definition grow_extents (fresh : option Z) (es : list Extent) (b : Batch)
  : option (list Extent * Batch * Z) :=
  match carve_extents es b with
  | Some r => Some r
  | None =>
      match fresh with
      | Some base => carve_extents (mkExtent base kGrowSlots 0 :: es) b
      | None => None
      end
  end.

Definition all_used (es : list Extent) : bool := forallb (λ e, ext_slots e <=? ext_bump e) es.

Definition set_extents (es : list Extent) (grew : bool) (p : Pool) : Pool :=
  mkPool (mem p) (memSlots p) es grew (bumpNext p) (sharedHead p) (gen_ p).

(** How many slots the bump pointer adds to a batch of [moved]. *)
Definition bump_take (moved : Z) (p : Pool) : Z :=
  if (moved <? BATCH) && (bumpNext p <? memSlots p)
  then Z.min (BATCH - moved) (memSlots p - bumpNext p) else 0.

Definition bump_by (take : Z) (p : Pool) : Pool :=
  mkPool (mem p) (memSlots p) (extents p) (grewOnce p) (bumpNext p + take) (sharedHead p) (gen_ p).

Definition refill_locked (growth : bool) (fresh : option Z) (p : Pool) (m : gmap Z Z)
  : Pool * Batch * Z :=
  let '(curr, tail, moved) := take_shared (Z.to_nat BATCH) m (sharedHead p) 0 0 in
  let b := mkBatch m (sharedHead p) tail in
  let p := mkPool (mem p) (memSlots p) (extents p) (grewOnce p) (bumpNext p) curr (gen_ p) in
  let take := bump_take moved p in
  let b := carve (Z.to_nat take) (mem p) (bumpNext p) b in
  let p := bump_by take p in
  let moved := moved + take in
  if (moved =? 0) && growth then
    let grew := grewOnce p || all_used (extents p) in
    match grow_extents fresh (extents p) b with
    | Some (es, b, took) => (set_extents es grew p, b, moved + took)
    | None => (set_extents (extents p) grew p, b, moved)
    end
  else (p, b, moved).

Definition refill (growth : bool) (fresh : option Z) (p : Pool) (m : gmap Z Z) (c : Cache)
  : Pool * gmap Z Z * Cache :=
  if mem p =? 0 then (p, m, c)
  else
    let '(p, b, moved) := refill_locked growth fresh p m in
    if b_head b =? 0 then (p, b_heap b, c)
    else (p, <[b_tail b := c_head c]> (b_heap b), mkCache (b_head b) (c_count c + moved) (c_gen c)).

Definition flush (p : Pool) (m : gmap Z Z) (c : Cache) : Pool * gmap Z Z * Cache :=
  if c_count c <=? BATCH then (p, m, c)
  else
    let toMove := c_count c - BATCH in
    let batchHead := c_head c in
    let batchTail := nth_next m (Z.to_nat (toMove - 1)) batchHead in
    (mkPool (mem p) (memSlots p) (extents p) (grewOnce p) (bumpNext p) batchHead (gen_ p),
     <[batchTail := sharedHead p]> m,
     mkCache (next_of m batchTail) BATCH (c_gen c)).

Definition giveBack (h count : Z) (p : Pool) (m : gmap Z Z) : Pool * gmap Z Z :=
  if (h =? 0) || (count =? 0) then (p, m)
  else
    let tail := nth_next m (Z.to_nat (count - 1)) h in
    (mkPool (mem p) (memSlots p) (extents p) (grewOnce p) (bumpNext p) h (gen_ p),
     <[tail := sharedHead p]> m).

(** ** The public operations *)

(** [local()]: the thread's magazine, default-constructed on first use. *)
Definition local (t : nat) (st : Statics) : Cache := default (mkCache 0 0 0) (caches st !! t).

(** [cache()]: emptied first when it belongs to an earlier pool. *)
Definition cache (p : Pool) (t : nat) (st : Statics) : Cache :=
  let c := local t st in
  if c_gen c =? gen_ p then c else mkCache 0 0 (gen_ p).

Definition Alloc (growth : bool) (fresh : option Z) (t : nat) (p : Pool) (st : Statics)
  : option Z * Pool * Statics :=
  let c := cache p t st in
  let '(p, m, c) := if c_head c =? 0 then refill growth fresh p (heap st) c else (p, heap st, c) in
  let slot := c_head c in
  if slot =? 0 then (None, p, mkStatics m (<[t := c]> (caches st)) (counters st))
  else
    (Some slot, p,
     mkStatics m (<[t := mkCache (next_of m slot) (c_count c - 1) (c_gen c)]> (caches st))
       (liveAdd t 1 (counters st))).

Definition Free (t : nat) (slot : Z) (p : Pool) (st : Statics) : Pool * Statics :=
  let c := cache p t st in
  let m := <[slot := c_head c]> (heap st) in
  let c := mkCache slot (c_count c + 1) (c_gen c) in
  let k := liveAdd t (-1) (counters st) in
  let '(p, m, c) := if 2 * BATCH <? c_count c then flush p m c else (p, m, c) in
  (p, mkStatics m (<[t := c]> (caches st)) k).

(** A thread exit runs the destructor of its magazine; [current] is the registered pool. *)
Definition Cache_dtor (t : nat) (current : option Pool) (st : Statics) : option Pool * Statics :=
  let c := local t st in
  if c_head c =? 0 then (current, st)
  else
    match current with
    | Some p =>
        if gen_ p =? c_gen c then
          let '(p, m) := giveBack (c_head c) (c_count c) p (heap st) in
          (Some p, mkStatics m (<[t := mkCache 0 0 (c_gen c)]> (caches st)) (counters st))
        else (Some p, set_cache t (mkCache 0 0 (c_gen c)) st)
    | None => (None, set_cache t (mkCache 0 0 (c_gen c)) st)
    end.

Definition zero_counters (k : Counters) : Counters :=
  mkCounters (liveRef k) (s_liveNext k) ∅.

Inductive SlabFatal := SecondPool.

(** The constructor: [base] is the block the allocator returned for [slots > 0] slots,
    [generation] the class's pool counter before the call. *)
Definition new_SlabPool (base slots generation : Z) (lazy : bool) (current : option Pool) (st : Statics)
  : res SlabFatal (Pool * Z * Statics) :=
  match current with
  | Some _ => Err SecondPool
  | None =>
      let gen := u32 (generation + 1) in
      let p := mkPool (if slots =? 0 then 0 else base) slots [] false 0 0 gen in
      let st := set_counters (zero_counters (counters st)) st in
      if lazy then Ok (p, gen, st)
      else let '(p, m) := Prefault slots p (heap st) in Ok (p, gen, set_heap m st)
  end.

(** The destructor keeps the pages mapped and unregisters the pool. *)
Definition delete_SlabPool (current : option Pool) : option Pool := None.

(** ** Invariant

    A block (the pool's first one, or an extent) is a range of slots of which the first
    [ext_bump] have been carved.  Blocks do not overlap; the slots carved so far are, with
    no repetition, the shared list, the magazines' lists and the slots handed out. *)

Definition block0 (p : Pool) : Extent := mkExtent (mem p) (memSlots p) (bumpNext p).
Definition blocks (p : Pool) : list Extent := block0 p :: extents p.

Definition block_ok (e : Extent) : Prop :=
  (0 ≤ ext_bump e ≤ ext_slots e) ∧ (0 ≤ ext_mem e) ∧ ((0 < ext_slots e) → (0 < ext_mem e)).
Definition apart (e e' : Extent) : Prop :=
  (ext_mem e + ext_slots e * SLOT ≤ ext_mem e') ∨ (ext_mem e' + ext_slots e' * SLOT ≤ ext_mem e).
Fixpoint apart_all (es : list Extent) : Prop :=
  match es with [] => True | e :: es' => Forall (apart e) es' ∧ apart_all es' end.

Definition slots_of (e : Extent) : list Z := slot_at (ext_mem e) <$> seqZ 0 (ext_bump e).
Definition carved (es : list Extent) : list Z := mjoin (slots_of <$> es).
Definition bumped (p : Pool) : list Z := carved (blocks p).

Definition cached (C : gmap nat (list Z)) (t : nat) : list Z := default [] (C !! t).
Definition pooled (C : gmap nat (list Z)) : list Z := mjoin (map_to_list C).*2.

Definition magazine_inv (p : Pool) (m : gmap Z Z) (c : Cache) (l : list Z) : Prop :=
  (0 ≤ c_gen c ≤ gen_ p) ∧
  if decide (c_gen c = gen_ p) then chain m (c_head c) l ∧ c_count c = Z.of_nat (length l) else l = [].

Record slab_inv (p : Pool) (st : Statics) (L : list Z) (C : gmap nat (list Z)) (A : list Z) : Prop := {
  si_gen : (0 < gen_ p);
  si_ok : Forall block_ok (blocks p);
  si_apart : apart_all (blocks p);
  si_shared : chain (heap st) (sharedHead p) L;
  si_caches t : magazine_inv p (heap st) (local t st) (cached C t);
  si_slots : L ++ pooled C ++ A ≡ₚ bumped p }.

(** The block a successful allocation of an extent returns overlaps no other. *)
Definition fresh_ok (p : Pool) (base : Z) : Prop :=
  (0 < base) ∧ Forall (apart (mkExtent base kGrowSlots 0)) (blocks p).

(** ** Ghost lists of the magazines *)

Lemma pooled_split C t : pooled C ≡ₚ cached C t ++ pooled (delete t C).
Proof.
  unfold pooled, cached. destruct (C !! t) as [l|] eqn:Ht; simpl.
  - by rewrite <- (map_to_list_delete C t l Ht).
  - by rewrite delete_id.
Qed.

Lemma pooled_insert C t l : pooled (<[t := l]> C) ≡ₚ l ++ pooled (delete t C).
Proof.
  rewrite (pooled_split (<[t := l]> C) t). unfold cached. rewrite lookup_insert_eq. simpl.
  by rewrite delete_insert_eq.
Qed.

Lemma cached_insert C t l t' :
  cached (<[t := l]> C) t' = if decide (t = t') then l else cached C t'.
Proof.
  unfold cached. destruct (decide (t = t')) as [->|]; [by rewrite lookup_insert_eq|].
  by rewrite lookup_insert_ne.
Qed.

Lemma cached_in_rest C t t' : t ≠ t' → cached C t' ⊆ pooled (delete t C).
Proof.
  intros Hne x Hx. rewrite (pooled_split (delete t C) t'). apply elem_of_app. left.
  unfold cached in *. by rewrite lookup_delete_ne.
Qed.

(** ** Blocks *)

Context (SLOT_pos : 0 < SLOT).

Lemma slots_of_in e x :
  block_ok e → x ∈ slots_of e →
  (ext_mem e ≤ x < ext_mem e + ext_slots e * SLOT) ∧ (x - ext_mem e) `mod` SLOT = 0.
Proof.
  intros ((Hb & Hs) & _) (i & -> & Hi%elem_of_seqZ)%list_elem_of_fmap. unfold slot_at. split; [nia|].
  replace (ext_mem e + i * SLOT - ext_mem e) with (i * SLOT) by lia. apply Z_mod_mult.
Qed.

Lemma slots_of_nodup e : NoDup (slots_of e).
Proof.
  apply NoDup_fmap_2; [|apply NoDup_seqZ]. intros i j. unfold slot_at. nia.
Qed.

Lemma carved_in es x : x ∈ carved es ↔ ∃ e, e ∈ es ∧ x ∈ slots_of e.
Proof.
  unfold carved. rewrite list_elem_of_join. split.
  - intros (l & Hx & (e & -> & He)%list_elem_of_fmap). by exists e.
  - intros (e & He & Hx). exists (slots_of e). split; [done|]. by apply list_elem_of_fmap_2.
Qed.

Lemma carved_nodup es : Forall block_ok es → apart_all es → NoDup (carved es).
Proof.
  induction es as [|e es IH]; [constructor|]. intros [He Hes]%Forall_cons [Ha Hap].
  unfold carved. simpl. apply NoDup_app. split_and!; [apply slots_of_nodup| |by apply IH].
  intros x Hx (e' & He' & Hx')%carved_in.
  apply slots_of_in in Hx as [Hx _]; [|done].
  rewrite Forall_forall in Hes, Ha. apply slots_of_in in Hx' as [Hx' _]; [|by apply Hes].
  destruct (Ha e' He'); lia.
Qed.

Lemma carved_nonzero es : Forall block_ok es → 0 ∉ carved es.
Proof.
  intros Hok (e & He & (i & Hi & Hr%elem_of_seqZ)%list_elem_of_fmap)%carved_in.
  rewrite Forall_forall in Hok. destruct (Hok e He) as (Hb & _ & Hp). unfold slot_at in Hi.
  assert (0 < ext_mem e) by (apply Hp; lia). nia.
Qed.

Lemma slots_of_grow b s n k :
  (0 ≤ n) → (0 ≤ k) →
  slots_of (mkExtent b s (n + k)) = slots_of (mkExtent b s n) ++ (slot_at b <$> seqZ n k).
Proof.
  intros Hn Hk. unfold slots_of. simpl. rewrite seqZ_app by lia.
  rewrite fmap_app. do 2 f_equal; lia.
Qed.

(** ** Batches *)

Definition link (b : Batch) (slot : Z) : Batch :=
  mkBatch (<[slot := b_head b]> (b_heap b)) slot (if b_head b =? 0 then slot else b_tail b).

Definition batch_inv (b : Batch) (B : list Z) : Prop :=
  (B = [] ∧ b_head b = 0) ∨
  ∃ e, lseg (b_heap b) (b_head b) B e ∧ last B = Some (b_tail b).

Lemma carve_link n base i b :
  carve n base i b = foldl link b (slot_at base <$> seqZ i (Z.of_nat n)).
Proof.
  revert i b. induction n as [|n IH]; intros i b; [done|].
  rewrite seqZ_cons by lia. simpl. rewrite IH. do 3 f_equal; lia.
Qed.

Lemma batch_head b B : batch_inv b B → b_head b = 0 ↔ B = [].
Proof.
  intros [[-> ?]|(e & Hs & Hl)]; [done|]. destruct B as [|x B]; [done|].
  destruct Hs as (-> & ? & _). done.
Qed.

Lemma link_all_inv new b B :
  NoDup new → 0 ∉ new → (∀ x, x ∈ new → x ∉ B) → batch_inv b B →
  let b' := foldl link b new in
  batch_inv b' (rev new ++ B) ∧
  (∀ x, x ∉ new → next_of (b_heap b') x = next_of (b_heap b) x).
Proof.
  revert b B. induction new as [|s new IH]; intros b B Hnd Hz Hdis Hb; [done|].
  apply NoDup_cons in Hnd as [Hs Hnd]. simpl.
  destruct (IH (link b s) (s :: B)) as [Hi Hx]; [done|set_solver|set_solver| |].
  { right. destruct Hb as [[-> Hh]|(e & Hsg & Hl)].
    - exists 0. unfold link. simpl. rewrite Hh. simpl. rewrite next_of_eq. set_solver.
    - exists e. assert (b_head b ≠ 0).
      { destruct B as [|y B]; [done|]. by destruct Hsg as (-> & ? & _). }
      unfold link. simpl. rewrite next_of_eq, (proj2 (Z.eqb_neq _ _)) by done.
      split_and!; [done|set_solver| |].
      + apply lseg_insert; [set_solver|done].
      + by rewrite last_cons, Hl. }
  split; [by rewrite <- app_assoc|]. intros x Hnx. rewrite Hx by set_solver.
  unfold link. simpl. rewrite next_of_insert. by rewrite decide_False by set_solver.
Qed.

Lemma take_shared_spec n m h L tail moved :
  chain m h L →
  ∃ curr tail', take_shared n m h tail moved = (curr, tail', moved + Z.of_nat (length (take n L))) ∧
    lseg m h (take n L) curr ∧ chain m curr (drop n L) ∧
    (tail' = default tail (last (take n L))).
Proof.
  unfold chain. revert h L tail moved. induction n as [|n IH]; intros h L tail moved Hc; simpl.
  - exists h, tail. split_and!; [f_equal; lia|done|done|done].
  - destruct L as [|x L]; simpl in *.
    + subst h. simpl. exists 0, tail. split_and!; [f_equal; lia|done|done|done].
    + destruct Hc as (-> & Hx & Hc). rewrite (proj2 (Z.eqb_neq _ _)) by done.
      destruct (IH (next_of m x) L x (moved + 1) Hc) as (curr & tail' & -> & H1 & H2 & H3).
      exists curr, tail'. split_and!; [f_equal; lia|done|done|done|done|].
      rewrite last_cons. subst tail'. by destruct (last (take n L)).
Qed.

(** Closing a batch into a magazine or a list. *)
Lemma batch_close b B e :
  NoDup B → batch_inv b B → b_head b ≠ 0 → chain (<[b_tail b := e]> (b_heap b)) e [] →
  chain (<[b_tail b := e]> (b_heap b)) (b_head b) B.
Proof.
  intros Hnd [[-> Hh]|(k & Hs & Hl)] Hne He; [done|].
  unfold chain in *. simpl in He. subst e. by eapply lseg_redirect.
Qed.

(** ** Growing the carved part *)

Definition range (e : Extent) : Z * Z := (ext_mem e, ext_slots e).

Lemma carve_extents_spec es b es' b' take :
  Forall block_ok es → carve_extents es b = Some (es', b', take) →
  ∃ new, b' = foldl link b new ∧ Z.of_nat (length new) = take ∧ (0 < take) ∧
    carved es' ≡ₚ new ++ carved es ∧ Forall block_ok es' ∧
    range <$> es' = range <$> es.
Proof.
  revert es'. induction es as [|e es IH]; intros es' Hok Hc; [done|]. simpl in Hc.
  apply Forall_cons in Hok as [[(Hb & Hs) [Hm Hm']] Hok]. unfold BATCH in *.
  destruct (ext_bump e <? ext_slots e) eqn:Hlt.
  - apply Z.ltb_lt in Hlt. injection Hc as <- <- Ht.
    assert (Htake : 0 < take ∧ take ≤ ext_slots e - ext_bump e).
    { destruct (ext_slots e - ext_bump e <? 32) eqn:Hd; lia. }
    exists (slot_at (ext_mem e) <$> seqZ (ext_bump e) take).
    rewrite Ht, carve_link, Z2Nat.id by lia. split_and!.
    + done.
    + rewrite length_fmap, length_seqZ. lia.
    + lia.
    + unfold carved. simpl. rewrite slots_of_grow by lia. destruct e; simpl.
      solve_Permutation.
    + constructor; [|done]. split_and!; simpl; lia.
    + done.
  - destruct (carve_extents es b) as [[[es'' b''] tk]|] eqn:He; [|done].
    injection Hc as <- <- <-. destruct (IH es'' Hok eq_refl) as (new & -> & Hl & Hp & Hpm & Hok' & Hr).
    exists new. split_and!; [done|done|done| | |by rewrite !fmap_cons, Hr].
    + unfold carved in *. simpl. rewrite Hpm. solve_Permutation.
    + constructor; [|done]. by split_and!.
Qed.

Lemma carve_extents_none es b : carve_extents es b = None ↔ all_used es = true.
Proof.
  induction es as [|e es IH]; [done|]. simpl. rewrite andb_true_iff.
  destruct (ext_bump e <? ext_slots e) eqn:Hlt.
  - split; [done|]. intros [?%Z.leb_le _]. apply Z.ltb_lt in Hlt. lia.
  - apply Z.ltb_ge in Hlt. destruct (carve_extents es b) as [[[? ?] ?]|] eqn:He.
    + split; [done|]. intros [_ Ha]. by apply IH in Ha.
    + split; [|done]. intros _. split; [by apply Z.leb_le|by apply IH].
Qed.

Lemma apart_all_ranges es es' : range <$> es' = range <$> es → apart_all es → apart_all es'.
Proof.
  revert es'. induction es as [|e es IH]; intros [|e' es'] Hr; try done.
  rewrite !fmap_cons in Hr. injection Hr as Hm Hs Hr. intros [Ha Hap]. split; [|by apply IH].
  rewrite Forall_forall in *. intros x Hx.
  apply (list_elem_of_fmap_2 range) in Hx. rewrite Hr in Hx.
  apply list_elem_of_fmap in Hx as (y & [= Hxm Hxs] & Hy).
  specialize (Ha y Hy). unfold apart in *. congruence.
Qed.

Definition pool_ok (p : Pool) : Prop := Forall block_ok (blocks p) ∧ apart_all (blocks p).

(** Half-way through a refill: a batch [B] in hand, [L] still shared behind [h], [R]
    everywhere else, untouched since heap [m]. *)
Record refilling (p : Pool) (m : gmap Z Z) (b : Batch) (B L R : list Z) : Prop := {
  rf_ok : pool_ok p;
  rf_batch : batch_inv b B;
  rf_shared : chain (b_heap b) (sharedHead p) L;
  rf_slots : L ++ B ++ R ≡ₚ bumped p;
  rf_same x : x ∈ R → next_of (b_heap b) x = next_of m x }.

Lemma refilling_carve p p' m b B L R new :
  refilling p m b B L R → pool_ok p' → sharedHead p' = sharedHead p →
  bumped p' ≡ₚ new ++ bumped p →
  refilling p' m (foldl link b new) (rev new ++ B) L R.
Proof.
  intros [Hok Hb Hs Hp Hm] Hok' Hh Hp'.
  assert (Hnd : NoDup (new ++ L ++ B ++ R)).
  { rewrite Hp, <- Hp'. by apply carved_nodup; apply Hok'. }
  assert (Hz : 0 ∉ new).
  { intros H0. apply (carved_nonzero (blocks p')); [by apply Hok'|].
    change (0 ∈ bumped p'). rewrite Hp'. set_solver. }
  apply NoDup_app in Hnd as (Hn & Hdis & _).
  destruct (link_all_inv new b B) as [Hb' Hx]; [done|done| |done|].
  { intros x Hx. specialize (Hdis x Hx). set_solver. }
  constructor; [done|done| | |].
  - rewrite Hh. eapply lseg_ext; [|exact Hs]. intros x Hxl. apply Hx. intros Hxn.
    apply (Hdis x Hxn). set_solver.
  - rewrite Hp', <- Hp, <- Permutation_rev. solve_Permutation.
  - intros x Hxr. rewrite Hx; [by apply Hm|]. intros Hxn. apply (Hdis x Hxn). set_solver.
Qed.

Lemma pool_ok_extents p es grew :
  Forall block_ok es → range <$> es = range <$> extents p → pool_ok p →
  pool_ok (set_extents es grew p).
Proof.
  intros Hes Hr [Hok Hap]. apply Forall_cons in Hok as [H0 _]. split; [by constructor|].
  eapply apart_all_ranges; [|exact Hap].
  change (range (block0 p) :: (range <$> es) = range (block0 p) :: (range <$> extents p)).
  by rewrite Hr.
Qed.

(** The growth branch, from the existing extents or a fresh one. *)
Lemma grow_extents_spec fresh p m b B L R es b' took grew :
  refilling p m b B L R → (∀ base, fresh = Some base → fresh_ok p base) →
  grow_extents fresh (extents p) b = Some (es, b', took) →
  ∃ new, Z.of_nat (length new) = took ∧ (0 < took) ∧
    refilling (set_extents es grew p) m b' (rev new ++ B) L R.
Proof.
  intros Hrf Hfr Hg. unfold grow_extents in Hg.
  pose proof (rf_ok _ _ _ _ _ _ Hrf) as [Hok Hap].
  apply Forall_cons in Hok as [H0 Hok]. destruct Hap as [Ha0 Hap].
  destruct (carve_extents (extents p) b) as [[[es1 b1] tk1]|] eqn:Hc.
  - injection Hg as -> -> ->.
    destruct (carve_extents_spec _ _ _ _ _ Hok Hc) as (new & -> & Hl & Hpos & Hpm & Hok' & Hr).
    exists new. split_and!; [done|done|].
    eapply refilling_carve; [done|by apply pool_ok_extents; [| |apply Hrf]|done|].
    change (slots_of (block0 p) ++ carved es ≡ₚ new ++ slots_of (block0 p) ++ carved (extents p)).
    rewrite Hpm. solve_Permutation.
  - destruct fresh as [base|]; [|done]. destruct (Hfr base eq_refl) as [Hb Hf].
    pose proof Hf as [Hf0 Hf']%Forall_cons.
    assert (Hok1 : Forall block_ok (mkExtent base kGrowSlots 0 :: extents p)).
    { constructor; [|done]. by unfold block_ok, kGrowSlots; simpl; lia. }
    destruct (carve_extents_spec _ _ _ _ _ Hok1 Hg) as (new & -> & Hl & Hpos & Hpm & Hok' & Hr).
    exists new. split_and!; [done|done|].
    eapply refilling_carve; [done| |done|].
    + split; [by constructor|]. apply (apart_all_ranges (block0 p :: mkExtent base kGrowSlots 0 :: extents p)).
      { change (range (block0 p) :: (range <$> es) =
                range (block0 p) :: (range <$> mkExtent base kGrowSlots 0 :: extents p)).
        by rewrite Hr. }
      split; [|by split]. constructor; [|done]. destruct Hf0 as [?|?]; [by right|by left].
    + change (slots_of (block0 p) ++ carved es ≡ₚ new ++ slots_of (block0 p) ++ carved (extents p)).
      rewrite Hpm. change (carved (mkExtent base kGrowSlots 0 :: extents p)) with (carved (extents p)).
      solve_Permutation.
Qed.

(** What is left when a refill finds nothing. *)
Definition exhausted (growth : bool) (fresh : option Z) (p : Pool) (L : list Z) : Prop :=
  L = [] ∧ (memSlots p ≤ bumpNext p) ∧
  (growth = false ∨ fresh = None ∧ all_used (extents p) = true).

Lemma refilling_start p m L R :
  pool_ok p → chain m (sharedHead p) L → L ++ R ≡ₚ bumped p →
  ∃ curr tail, take_shared (Z.to_nat BATCH) m (sharedHead p) 0 0 =
      (curr, tail, Z.of_nat (length (take (Z.to_nat BATCH) L))) ∧
    refilling (mkPool (mem p) (memSlots p) (extents p) (grewOnce p) (bumpNext p) curr (gen_ p))
      m (mkBatch m (sharedHead p) tail) (take (Z.to_nat BATCH) L) (drop (Z.to_nat BATCH) L) R.
Proof.
  intros Hok Hc Hp.
  destruct (take_shared_spec (Z.to_nat BATCH) _ _ _ 0 0 Hc) as (curr & tail & -> & Hs & Hd & Ht).
  exists curr, tail. split; [f_equal; lia|]. constructor; simpl; [done| |done| |done].
  - destruct L as [|x L]; simpl in *; [by left|]. right. exists curr. split; [done|].
    rewrite last_cons in *. subst tail. by destruct (last _).
  - change (bumped _) with (bumped p). rewrite <- Hp. rewrite <- (take_drop (Z.to_nat BATCH) L) at 3.
    solve_Permutation.
Qed.

Lemma bump_by_ok p take :
  (0 ≤ take ≤ memSlots p - bumpNext p) → pool_ok p →
  pool_ok (bump_by take p) ∧
  bumped (bump_by take p) ≡ₚ (slot_at (mem p) <$> seqZ (bumpNext p) take) ++ bumped p.
Proof.
  intros Ht [Hok Hap]. pose proof Hok as [H0 Hes]%Forall_cons. unfold block_ok in H0.
  simpl in H0. split.
  - split; [constructor; [unfold block_ok; simpl; lia|done]|]. by eapply apart_all_ranges; [|done].
  - unfold bumped, carved, blocks, block0. simpl. rewrite slots_of_grow by lia. solve_Permutation.
Qed.

Lemma bump_take_range moved p :
  pool_ok p →
  (0 ≤ bump_take moved p ≤ memSlots p - bumpNext p) ∧
  (bump_take moved p = 0 → moved < BATCH → memSlots p ≤ bumpNext p).
Proof.
  intros [[H0 _]%Forall_cons _]. unfold block_ok in H0. simpl in H0. unfold bump_take.
  destruct (moved <? BATCH) eqn:H1; simpl; [|lia].
  destruct (bumpNext p <? memSlots p) eqn:H2; lia.
Qed.

Lemma refilling_bump p m b B L R :
  refilling p m b B L R →
  let take := bump_take (Z.of_nat (length B)) p in
  ∃ B1, refilling (bump_by take p) m (carve (Z.to_nat take) (mem p) (bumpNext p) b) B1 L R ∧
    Z.of_nat (length B1) = Z.of_nat (length B) + take ∧
    (B1 = [] → B = [] ∧ memSlots p ≤ bumpNext p).
Proof.
  intros Hrf take. pose proof (rf_ok _ _ _ _ _ _ Hrf) as Hok.
  destruct (bump_take_range (Z.of_nat (length B)) p Hok) as [Ht Hz]. fold take in Ht, Hz.
  destruct (bump_by_ok p take Ht Hok) as [Hok1 Hp1]. rewrite carve_link, Z2Nat.id by lia.
  eexists (rev _ ++ B). split_and!; [by eapply refilling_carve| |].
  - rewrite length_app, length_rev, length_fmap, length_seqZ. lia.
  - intros [Hr ->]%app_nil. split; [done|]. apply Hz; [|done].
    apply (f_equal length) in Hr. rewrite length_rev, length_fmap, length_seqZ in Hr.
    simpl in Hr. lia.
Qed.

Lemma grow_extents_none fresh es b :
  grow_extents fresh es b = None → fresh = None ∧ all_used es = true.
Proof.
  unfold grow_extents. destruct (carve_extents es b) eqn:Hc; [done|].
  apply carve_extents_none in Hc. destruct fresh as [base|]; [|done].
  intros Hg%carve_extents_none. done.
Qed.

Lemma refilling_set_extents p m b B L R grew :
  refilling p m b B L R → refilling (set_extents (extents p) grew p) m b B L R.
Proof. intros [? ? ? ? ?]. by constructor. Qed.

Lemma refill_locked_spec growth fresh p m L R p' b moved :
  pool_ok p → chain m (sharedHead p) L → L ++ R ≡ₚ bumped p →
  (∀ base, fresh = Some base → fresh_ok p base) →
  refill_locked growth fresh p m = (p', b, moved) →
  ∃ L' B, refilling p' m b B L' R ∧ moved = Z.of_nat (length B) ∧ gen_ p' = gen_ p ∧
    (B = [] → exhausted growth fresh p L).
Proof.
  intros Hok Hc Hp Hfr. unfold refill_locked.
  destruct (refilling_start p m L R Hok Hc Hp) as (curr & tail & -> & Hrf).
  destruct (refilling_bump _ _ _ _ _ _ Hrf) as (B1 & Hrf1 & Hl1 & Hn1). clear Hrf.
  simpl in Hrf1, Hl1, Hn1. simpl. set (take := bump_take _ _) in *.
  set (p1 := bump_by take _) in *. set (b1 := carve _ _ _ _) in *. set (L2 := drop _ _) in *.
  assert (Hnil : B1 = [] → L = [] ∧ memSlots p ≤ bumpNext p).
  { intros Hb. destruct (Hn1 Hb) as [Ht ?]. split; [|done]. by destruct L. }
  rewrite <- Hl1. destruct ((_ =? 0) && growth) eqn:Hgr.
  - apply andb_true_iff in Hgr as [Hz%Z.eqb_eq ->].
    assert (B1 = []) as Hb1 by (apply nil_length_inv; lia).
    destruct (grow_extents fresh (extents p) b1) as [[[es b2] took]|] eqn:Hg; intros [= <- <- <-].
    + eapply (grow_extents_spec _ p1) in Hg as (new2 & Hl2 & Hpos & Hrf2); [|done|].
      2:{ intros base Hb. destruct (Hfr base Hb) as [? [Ha ?]%Forall_cons]. split; [done|].
          by constructor. }
      exists L2, (rev new2 ++ B1). split_and!; [exact Hrf2| |done|].
      * rewrite length_app, length_rev. lia.
      * intros [Hn _]%app_nil. apply (f_equal length) in Hn. rewrite length_rev in Hn. simpl in Hn. lia.
    + exists L2, B1. split_and!; [by apply (refilling_set_extents p1)|done|done|]. intros _.
      destruct (Hnil Hb1) as [-> ?]. apply grow_extents_none in Hg. split_and!; [done|done|by right].
  - intros [= <- <- <-]. exists L2, B1. split_and!; [done|done|done|]. intros Hn.
    destruct (Hnil Hn) as [-> ?]. split_and!; [done|done|]. left. subst B1. by destruct growth.
Qed.

(** A thread in the middle of an operation: its magazine [c] holds [l], the shared list
    [L]; [A] is handed out; [R] is the rest, with the links it had in heap [m0]. *)
Record thread_view (p : Pool) (m0 m : gmap Z Z) (c : Cache) (L l A R : list Z) : Prop := {
  tv_ok : pool_ok p;
  tv_shared : chain m (sharedHead p) L;
  tv_mag : chain m (c_head c) l;
  tv_count : c_count c = Z.of_nat (length l);
  tv_gen : c_gen c = gen_ p;
  tv_slots : L ++ l ++ A ++ R ≡ₚ bumped p;
  tv_same x : x ∈ R → next_of m x = next_of m0 x }.

Lemma thread_view_nodup p m0 m c L l A R : thread_view p m0 m c L l A R → NoDup (L ++ l ++ A ++ R).
Proof.
  intros Hv. eapply NoDup_perm; [symmetry; by apply (tv_slots _ _ _ _ _ _ _ _ Hv)|].
  by apply carved_nodup; apply (tv_ok _ _ _ _ _ _ _ _ Hv).
Qed.

Lemma thread_view_nonzero p m0 m c L l A R x :
  thread_view p m0 m c L l A R → x ∈ L ++ l ++ A ++ R → x ≠ 0.
Proof.
  intros Hv Hx ->. rewrite (tv_slots _ _ _ _ _ _ _ _ Hv) in Hx. revert Hx.
  apply carved_nonzero. by apply (tv_ok _ _ _ _ _ _ _ _ Hv).
Qed.

Lemma refill_view growth fresh p m0 m c L A R p' m' c' :
  thread_view p m0 m c L [] A R → (∀ base, fresh = Some base → fresh_ok p base) →
  refill growth fresh p m c = (p', m', c') →
  ∃ L' l', thread_view p' m0 m' c' L' l' A R ∧ gen_ p' = gen_ p ∧
    (l' = [] → mem p = 0 ∨ exhausted growth fresh p L).
Proof.
  intros Hv Hfr. pose proof Hv as [Hok Hs Hch Hcc Hgen Hp Hsame]. simpl in Hch, Hcc, Hp.
  unfold refill. destruct (mem p =? 0) eqn:Hmem.
  { apply Z.eqb_eq in Hmem. intros [= <- <- <-]. exists L, []. by auto. }
  destruct (refill_locked growth fresh p m) as [[p1 b] moved] eqn:Hl.
  destruct (refill_locked_spec _ _ _ _ _ _ _ _ _ Hok Hs Hp Hfr Hl)
    as (L' & B & [Hok' Hb Hs' Hpm Hx] & -> & Hg & Hn).
  assert (Hnd : NoDup (L' ++ B ++ A ++ R)) by (rewrite Hpm; by apply carved_nodup; apply Hok').
  apply NoDup_app in Hnd as (_ & HdL & (HndB & HdB & _)%NoDup_app).
  pose proof (batch_head _ _ Hb) as Hhd. destruct (b_head b =? 0) eqn:Hbh; intros [= <- <- <-].
  - apply Z.eqb_eq, Hhd in Hbh. subst B. exists L', []. split_and!; [|done|auto].
    constructor; [done..|congruence|done|]. intros x Hxr. rewrite Hx by set_solver. by apply Hsame.
  - apply Z.eqb_neq in Hbh. unfold chain in Hch. simpl in Hch. rewrite Hch, Hcc.
    assert (Ht : b_tail b ∈ B).
    { destruct Hb as [[-> ?]|(e & _ & ?%last_Some_elem_of)]; done. }
    exists L', B. split_and!; [|done|intros HB; by apply Hhd in HB]. constructor; simpl; try done.
    + apply lseg_insert; [|done]. intros Htl. apply (HdL _ Htl). set_solver.
    + apply batch_close; done.
    + congruence.
    + intros x Hxr. rewrite next_of_insert, decide_False by (intros <-; apply (HdB _ Ht); set_solver).
      rewrite Hx by set_solver. by apply Hsame.
Qed.

Lemma flush_view p m0 m c L l A R p' m' c' :
  thread_view p m0 m c L l A R → flush p m c = (p', m', c') →
  ∃ L' l', thread_view p' m0 m' c' L' l' A R ∧ gen_ p' = gen_ p.
Proof.
  intros Hv. pose proof Hv as [Hok Hs Hc Hn Hg Hp Hsame]. unfold flush, BATCH.
  destruct (c_count c <=? 32) eqn:Hle; intros [= <- <- <-].
  { by exists L, l. }
  apply Z.leb_gt in Hle. set (n := Z.to_nat (c_count c - 32 - 1)).
  destruct (chain_cut m (c_head c) l n Hc) as (Hlast & Hseg & Hrest); [lia|].
  set (x := nth_next m n (c_head c)) in *.
  pose proof (thread_view_nodup _ _ _ _ _ _ _ _ Hv) as Hnd.
  assert (Hlen : length (drop (S n) l) = 32%nat) by (rewrite length_drop; lia).
  rewrite <- (take_drop (S n) l) in Hnd, Hp. set (l1 := take _ _) in *. set (l2 := drop _ _) in *.
  assert (Hnd' : NoDup ((l1 ++ L) ++ l2 ++ A ++ R)) by (eapply NoDup_perm, Hnd; solve_Permutation).
  pose proof (last_Some_elem_of _ _ Hlast) as Hxin.
  apply NoDup_app in Hnd' as (Hnd1 & Hdis & _).
  assert (Hxr : x ∉ l2 ++ A ++ R) by (apply Hdis; set_solver).
  exists (l1 ++ L), l2. split; [|done]. constructor; simpl; try done.
  - by eapply chain_splice.
  - apply lseg_insert; [set_solver|done].
  - by rewrite Hlen.
  - change (bumped _) with (bumped p). rewrite <- Hp. solve_Permutation.
  - intros y Hy. rewrite next_of_insert, decide_False by set_solver. by apply Hsame.
Qed.

(** ** Operations preserve the invariant *)

(** The caller's magazine as [cache()] returns it. *)
Lemma cache_view p st L C A t :
  slab_inv p st L C A →
  thread_view p (heap st) (heap st) (cache p t st) L (cached C t) A (pooled (delete t C)).
Proof.
  intros Hi. pose proof (si_caches _ _ _ _ _ Hi t) as [_ Hc].
  assert (chain (heap st) (c_head (cache p t st)) (cached C t) ∧
          c_count (cache p t st) = Z.of_nat (length (cached C t)) ∧
          c_gen (cache p t st) = gen_ p) as (H1 & H2 & H3).
  { unfold cache. destruct (c_gen (local t st) =? gen_ p) eqn:Hg.
    - apply Z.eqb_eq in Hg. rewrite decide_True in Hc by done. naive_solver.
    - apply Z.eqb_neq in Hg. rewrite decide_False in Hc by done. by rewrite Hc. }
  destruct Hi as [? ? ? ? ? Hp]. constructor; try done.
  rewrite <- Hp, (pooled_split C t). solve_Permutation.
Qed.

(** The end of an operation of thread [t]. *)
Lemma slab_update p st L C A t p' m' c' k' L' l' A' :
  slab_inv p st L C A → gen_ p' = gen_ p →
  thread_view p' (heap st) m' c' L' l' A' (pooled (delete t C)) →
  slab_inv p' (mkStatics m' (<[t := c']> (caches st)) k') L' (<[t := l']> C) A'.
Proof.
  intros Hi Hg [[Hok Hap] Hs Hc Hcnt Hcg Hp Hsame]. pose proof (si_gen _ _ _ _ _ Hi) as Hpos.
  constructor; simpl; [lia|done|done|done| |].
  - intros t'. unfold magazine_inv, local. simpl. rewrite cached_insert.
    destruct (decide (t = t')) as [<-|Hne].
    + rewrite lookup_insert_eq. simpl. rewrite decide_True by done. by split_and!; [lia|lia|..].
    + rewrite lookup_insert_ne by done. destruct (si_caches _ _ _ _ _ Hi t') as [Hr Hm].
      unfold local in *. rewrite Hg. split; [done|]. destruct (decide _); [|done].
      destruct Hm as [Hm ?]. split; [|done]. eapply lseg_ext; [|exact Hm].
      intros x Hx. apply Hsame. by apply (cached_in_rest _ _ t').
  - rewrite pooled_insert, <- Hp. solve_Permutation.
Qed.

Lemma Alloc_inv growth fresh t p st L C A r p' st' :
  slab_inv p st L C A → (∀ base, fresh = Some base → fresh_ok p base) →
  Alloc growth fresh t p st = (r, p', st') →
  ∃ L' C', slab_inv p' st' L' C' (option_list r ++ A) ∧ gen_ p' = gen_ p ∧
    (r = None → cached C t = [] ∧ (mem p = 0 ∨ exhausted growth fresh p L)).
Proof.
  intros Hi Hfr. unfold Alloc. pose proof (cache_view _ _ _ _ _ t Hi) as Hv.
  set (c := cache p t st) in *. pose proof (chain_nil_iff _ _ _ (tv_mag _ _ _ _ _ _ _ _ Hv)) as Hnil.
  set (s1 := if c_head c =? 0 then _ else _).
  assert (∃ p1 m1 c1 L1 l1, s1 = (p1, m1, c1) ∧ gen_ p1 = gen_ p ∧
    thread_view p1 (heap st) m1 c1 L1 l1 A (pooled (delete t C)) ∧
    (l1 = [] → cached C t = [] ∧ (mem p = 0 ∨ exhausted growth fresh p L)))
    as (p1 & m1 & c1 & L1 & l1 & -> & Hg1 & Hv1 & Hex).
  { unfold s1. destruct (c_head c =? 0) eqn:Hz.
    - apply Z.eqb_eq, Hnil in Hz. rewrite Hz in *.
      destruct (refill growth fresh p (heap st) c) as [[p1 m1] c1] eqn:Hr.
      eapply refill_view in Hr as (L1 & l1 & ? & ? & ?); [|done..].
      exists p1, m1, c1, L1, l1. split_and!; tauto.
    - apply Z.eqb_neq in Hz. eexists p, (heap st), c, L, _. split_and!; [done..|].
      intros Hl. by apply Hnil in Hl. }
  pose proof (chain_nil_iff _ _ _ (tv_mag _ _ _ _ _ _ _ _ Hv1)) as Hnil1.
  destruct (c_head c1 =? 0) eqn:Hz; intros [= <- <- <-].
  - apply Z.eqb_eq, Hnil1 in Hz. subst l1. eexists L1, _.
    split_and!; [by eapply (slab_update p)|done|auto].
  - apply Z.eqb_neq in Hz. destruct l1 as [|x l1]; [by destruct Hz, Hnil1; auto|].
    destruct Hv1 as [? ? (-> & Hx0 & Hc1) Hn1 ? Hp1 Hx1]. eexists L1, _. split_and!; [|done|done].
    eapply (slab_update p); [exact Hi|done|]. constructor; simpl in *; try done; [lia|].
    rewrite <- Hp1. solve_Permutation.
Qed.

Lemma Free_inv t slot p st L C A p' st' :
  slab_inv p st L C (slot :: A) → Free t slot p st = (p', st') →
  gen_ p' = gen_ p ∧ ∃ L' C', slab_inv p' st' L' C' A.
Proof.
  intros Hi. unfold Free. pose proof (cache_view _ _ _ _ _ t Hi) as Hv.
  set (c := cache p t st) in *. set (m1 := <[slot := c_head c]> (heap st)).
  set (c1 := mkCache slot (c_count c + 1) (c_gen c)).
  assert (Hz : slot ≠ 0) by (eapply (thread_view_nonzero _ _ _ _ _ _ _ _ _ Hv); set_solver).
  assert (Hslot : slot ∉ L ++ cached C t ++ A ++ pooled (delete t C)).
  { apply thread_view_nodup in Hv. eapply NoDup_cons_1_1, NoDup_perm, Hv. solve_Permutation. }
  assert (Hv1 : thread_view p (heap st) m1 c1 L (slot :: cached C t) A (pooled (delete t C))).
  { destruct Hv as [? ? ? ? ? Hp ?]. constructor; try done.
    - apply lseg_insert; [set_solver|done].
    - split_and!; [done|done|]. unfold m1. rewrite next_of_eq. apply lseg_insert; [set_solver|done].
    - simpl. lia.
    - rewrite <- Hp. solve_Permutation.
    - intros x Hx. unfold m1. rewrite next_of_insert, decide_False by set_solver. done. }
  set (s1 := if 2 * BATCH <? c_count c1 then _ else _).
  assert (∃ p2 m2 c2 L2 l2, s1 = (p2, m2, c2) ∧ gen_ p2 = gen_ p ∧
    thread_view p2 (heap st) m2 c2 L2 l2 A (pooled (delete t C)))
    as (p2 & m2 & c2 & L2 & l2 & -> & Hg2 & Hv2).
  { unfold s1. destruct (2 * BATCH <? c_count c1).
    - destruct (flush p m1 c1) as [[p2 m2] c2] eqn:Hf.
      eapply flush_view in Hf as (L2 & l2 & ? & ?); [|done]. by exists p2, m2, c2, L2, l2.
    - by eexists p, m1, c1, L, _. }
  intros [= <- <-]. split; [done|]. eexists L2, _. by eapply (slab_update p).
Qed.

Lemma link_all_chain new b L :
  NoDup new → 0 ∉ new → (∀ x, x ∈ new → x ∉ L) → chain (b_heap b) (b_head b) L →
  chain (b_heap (foldl link b new)) (b_head (foldl link b new)) (rev new ++ L) ∧
  (∀ x, x ∉ new → next_of (b_heap (foldl link b new)) x = next_of (b_heap b) x).
Proof.
  revert b L. induction new as [|s new IH]; intros b L Hnd Hz Hdis Hb; [done|].
  apply NoDup_cons in Hnd as [Hs Hnd]. simpl.
  destruct (IH (link b s) (s :: L)) as [Hi Hx]; [done|set_solver|set_solver| |].
  { unfold link. simpl. split_and!; [done|set_solver|]. rewrite next_of_eq.
    apply lseg_insert; [set_solver|done]. }
  split; [by rewrite <- app_assoc|]. intros x Hnx. rewrite Hx by set_solver.
  unfold link. simpl. rewrite next_of_insert. by rewrite decide_False by set_solver.
Qed.

Lemma Prefault_inv slots p st L C A p' m' :
  slab_inv p st L C A → (0 ≤ slots) → Prefault slots p (heap st) = (p', m') →
  gen_ p' = gen_ p ∧ ∃ L', slab_inv p' (set_heap m' st) L' C A.
Proof.
  intros Hi Hs. unfold Prefault. destruct (mem p =? 0); [intros [= <- <-]|].
  { split; [done|]. exists L. by destruct Hi; constructor. }
  set (n := if _ <? slots then _ else _). intros [= <- <-]. split; [done|].
  pose proof Hi as [Hg Hok Hap Hsh Hc Hp].
  assert (Hn : 0 ≤ n ≤ memSlots p - bumpNext p).
  { apply Forall_cons in Hok as [[H0 _] _]. simpl in H0. unfold n. destruct (_ <? slots) eqn:Hd; lia. }
  destruct (bump_by_ok p n Hn (conj Hok Hap)) as [[Hok1 Hap1] Hp1].
  rewrite carve_link, Z2Nat.id by lia. set (new := slot_at _ <$> _) in *.
  assert (Hnd : NoDup (new ++ L ++ pooled C ++ A)) by (rewrite Hp, <- Hp1; by apply carved_nodup).
  assert (Hz : 0 ∉ new).
  { intros H0. apply (carved_nonzero (blocks (bump_by n p)) Hok1).
    change (0 ∈ bumped (bump_by n p)). rewrite Hp1. set_solver. }
  apply NoDup_app in Hnd as (Hnn & Hdis & _).
  destruct (link_all_chain new (mkBatch (heap st) (sharedHead p) 0) L) as [Hch Hx]; [done|done| |done|].
  { intros x Hx%Hdis. set_solver. }
  exists (rev new ++ L). constructor; try done.
  - intros t. destruct (Hc t) as [Hr Hm]. split; [done|]. change (local t (set_heap _ st)) with (local t st).
    simpl. destruct (decide _); [|done]. destruct Hm as [Hm ?]. split; [|done].
    eapply lseg_ext; [|exact Hm]. intros x Hxc. apply Hx. intros Hxn. apply (Hdis x Hxn).
    rewrite (pooled_split C t). set_solver.
  - change (bumped _) with (bumped (bump_by n p)). rewrite Hp1, <- Hp, <- Permutation_rev. solve_Permutation.
Qed.

(** A freshly constructed pool, before any prefault. *)
Lemma new_pool_inv base slots gen st :
  (0 ≤ slots) → (0 < base) → (0 < gen) → (∀ t, 0 ≤ c_gen (local t st) < gen) →
  slab_inv (mkPool (if slots =? 0 then 0 else base) slots [] false 0 0 gen) st [] ∅ [].
Proof.
  intros Hs Hb Hg Hc. constructor; simpl; try done.
  - constructor; [|done]. unfold block_ok. simpl. destruct (slots =? 0) eqn:He; lia.
  - intros t. unfold magazine_inv. simpl. specialize (Hc t). rewrite decide_False by lia. split; [lia|done].
Qed.

Lemma giveBack_view p m0 m c L l A R p' m' :
  thread_view p m0 m c L l A R → c_head c ≠ 0 → giveBack (c_head c) (c_count c) p m = (p', m') →
  gen_ p' = gen_ p ∧ thread_view p' m0 m' (mkCache 0 0 (c_gen c)) (l ++ L) [] A R.
Proof.
  intros Hv Hh. pose proof Hv as [Hok Hs Hc Hn Hg Hp Hsame]. unfold giveBack.
  pose proof (chain_nil_iff _ _ _ Hc) as Hnil.
  assert (Hl : (0 < length l)%nat) by (destruct l; [by destruct Hh, Hnil; auto|simpl; lia]).
  rewrite (proj2 (Z.eqb_neq _ _)) by done. rewrite (proj2 (Z.eqb_neq _ _)) by lia.
  simpl. intros [= <- <-]. split; [done|].
  destruct (chain_cut m (c_head c) l (Z.to_nat (c_count c - 1)) Hc) as (Hlast & Hseg & _); [lia|].
  rewrite take_ge in Hlast, Hseg by lia. set (x := nth_next _ _ _) in *.
  pose proof (last_Some_elem_of _ _ Hlast) as Hxin.
  assert (Hnd : NoDup ((l ++ L) ++ A ++ R)).
  { eapply NoDup_perm, (thread_view_nodup _ _ _ _ _ _ _ _ Hv). solve_Permutation. }
  apply NoDup_app in Hnd as (Hnd & Hdis & _).
  assert (Hxr : x ∉ A ++ R) by (apply Hdis; set_solver).
  constructor; simpl; try done.
  - by eapply chain_splice.
  - change (bumped _) with (bumped p). rewrite <- Hp. solve_Permutation.
  - intros y Hy. rewrite next_of_insert, decide_False by set_solver. by apply Hsame.
Qed.

(** ** Slot lookup *)

Lemma in_block_slots e x :
  block_ok e → x ∈ slots_of e →
  in_block x (ext_mem e) (ext_slots e) = true ∧ (x - ext_mem e) `mod` SLOT = 0.
Proof.
  intros Hok Hx. apply slots_of_in in Hx as [Hr Hm]; [|done]. split; [|done].
  unfold in_block. apply andb_true_iff. split; [apply Z.leb_le|apply Z.ltb_lt]; lia.
Qed.

Lemma in_block_apart e e' x :
  apart e e' → block_ok e' → x ∈ slots_of e' → in_block x (ext_mem e) (ext_slots e) = false.
Proof.
  intros Ha Hok Hx. apply slots_of_in in Hx as [Hr _]; [|done]. unfold in_block.
  apply andb_false_iff. destruct Ha; [right; apply Z.ltb_ge|left; apply Z.leb_gt]; lia.
Qed.

Lemma in_extents_carved es x :
  Forall block_ok es → apart_all es → x ∈ carved es → in_extents x es = true.
Proof.
  induction es as [|e es IH]; intros Hok Hap Hx; [by apply elem_of_nil in Hx|].
  apply Forall_cons in Hok as [He Hes]. destruct Hap as [Ha Hap].
  apply elem_of_app in Hx as [Hx|Hx]; simpl.
  - destruct (in_block_slots e x He Hx) as [-> ->]. done.
  - pose proof Hx as (e' & He' & Hx')%carved_in. rewrite Forall_forall in Hes, Ha.
    rewrite (in_block_apart e e') by auto. apply IH; [|done|done]. by apply Forall_forall.
Qed.

Lemma SlotInSlab_bumped p x : pool_ok p → x ∈ bumped p → SlotInSlab p x = true.
Proof.
  intros [Hok Hap] Hx. unfold SlotInSlab. pose proof Hok as [H0 Hes]%Forall_cons. destruct Hap as [Ha Hap].
  apply elem_of_app in Hx as [Hx|Hx].
  - destruct (in_block_slots _ _ H0 Hx) as [Hb Hm]. simpl in Hb, Hm. rewrite Hb, Hm, andb_true_r.
    apply slots_of_in in Hx as [Hr _]; [|done]. simpl in Hr. destruct H0 as (_ & _ & Hp).
    simpl in Hp. rewrite (proj2 (Z.eqb_neq _ _)); [done|]. assert (0 < memSlots p) by nia. lia.
  - pose proof Hx as (e' & He' & Hx')%carved_in.
    pose proof Hes as Hes'. rewrite Forall_forall in Hes', Ha.
    pose proof (in_block_apart _ _ x (Ha e' He') (Hes' e' He') Hx') as Hf. simpl in Hf.
    rewrite Hf, andb_false_r. by apply in_extents_carved.
Qed.

(** ** All threads, over the lifetimes of successive pools *)

(** [w_out] is the specification's view: the slots of the current pool handed out and not
    yet freed.  [w_gen] is [Generation()]. *)
Record world := mkWorld { w_pool : option Pool; w_gen : Z; w_st : Statics; w_out : list Z }.

Inductive slab_step (w : world) : world → Prop :=
| s_new base slots lazy p gen st :
    (0 ≤ slots) → (0 < base) → (w_gen w + 1 < 2 ^ 32) →
    new_SlabPool base slots (w_gen w) lazy (w_pool w) (w_st w) = Ok (p, gen, st) →
    slab_step w (mkWorld (Some p) gen st [])
| s_delete p :
    w_pool w = Some p →
    slab_step w (mkWorld (delete_SlabPool (w_pool w)) (w_gen w) (w_st w) [])
| s_alloc t growth fresh p r p' st' :
    w_pool w = Some p → (∀ base, fresh = Some base → fresh_ok p base) →
    Alloc growth fresh t p (w_st w) = (r, p', st') →
    slab_step w (mkWorld (Some p') (w_gen w) st' (option_list r ++ w_out w))
| s_free t x out p p' st' :
    w_pool w = Some p → w_out w ≡ₚ x :: out → Free t x p (w_st w) = (p', st') →
    slab_step w (mkWorld (Some p') (w_gen w) st' out)
| s_exit t p st :
    Cache_dtor t (w_pool w) (w_st w) = (p, st) →
    slab_step w (mkWorld p (w_gen w) st (w_out w))
| s_user x v :
    (∀ p, w_pool w = Some p → x ∈ w_out w ∨ x ∉ bumped p) →
    slab_step w (mkWorld (w_pool w) (w_gen w) (set_heap (<[x := v]> (heap (w_st w))) (w_st w)) (w_out w)).

Definition slab_init (w : world) : Prop :=
  ∃ m, w = mkWorld None 0 (mkStatics m ∅ (mkCounters ∅ 0 ∅)) [].

Definition world_inv (w : world) : Prop :=
  (0 ≤ w_gen w) ∧ (∀ t, 0 ≤ c_gen (local t (w_st w)) ≤ w_gen w) ∧
  match w_pool w with
  | None => w_out w = []
  | Some p => gen_ p = w_gen w ∧ (∃ L C, slab_inv p (w_st w) L C (w_out w)) ∧
      LiveCount (counters (w_st w)) = Z.of_nat (length (w_out w))
  end.

Lemma local_set t c st t' : local t' (set_cache t c st) = if decide (t = t') then c else local t' st.
Proof.
  unfold local. simpl. destruct (decide (t = t')) as [->|]; [by rewrite lookup_insert_eq|].
  by rewrite lookup_insert_ne.
Qed.

Lemma slab_inv_counters p st L C A k : slab_inv p st L C A → slab_inv p (set_counters k st) L C A.
Proof. intros [? ? ? ? ? ?]. by constructor. Qed.

Lemma slab_inv_perm p st L C A A' : A ≡ₚ A' → slab_inv p st L C A → slab_inv p st L C A'.
Proof. intros HA [? ? ? ? ? Hp]. constructor; try done. by rewrite <- HA. Qed.

Lemma slab_inv_gens p st L C A t : slab_inv p st L C A → (0 ≤ c_gen (local t st) ≤ gen_ p).
Proof. intros Hi. apply (si_caches _ _ _ _ _ Hi t). Qed.

(** A store to a slot that is on no free list. *)
Lemma slab_inv_write p st L C A x v :
  slab_inv p st L C A → x ∈ A ∨ x ∉ bumped p →
  slab_inv p (set_heap (<[x := v]> (heap st)) st) L C A.
Proof.
  intros Hi Hx. assert (Hnot : x ∉ L ++ pooled C).
  { destruct Hx as [Hx|Hx].
    - assert (Hnd : NoDup ((L ++ pooled C) ++ A)).
      { eapply NoDup_perm; [|by apply carved_nodup; apply Hi].
        change (bumped p ≡ₚ (L ++ pooled C) ++ A). rewrite <- (si_slots _ _ _ _ _ Hi). solve_Permutation. }
      apply NoDup_app in Hnd as (_ & Hd & _). intros Hl. by apply (Hd x Hl).
    - intros Hl. apply Hx. rewrite <- (si_slots _ _ _ _ _ Hi). set_solver. }
  destruct Hi as [? ? ? Hs Hc ?]. constructor; try done; simpl.
  - apply lseg_insert; [set_solver|done].
  - intros t. destruct (Hc t) as [Hr Hm]. split; [done|]. change (local t (set_heap _ st)) with (local t st).
    destruct (decide _); [|done]. destruct Hm as [Hm ?]. split; [|done]. apply lseg_insert; [|done].
    intros Hxc. apply Hnot. rewrite (pooled_split C t). set_solver.
Qed.

(** ** The live count *)

Lemma sum_insert f k i v l :
  NoDup l → i ∈ l →
  foldr (λ j acc, f (default (0, 0) (<[i := v]> (s_live k) !! j)) + acc) 0 l =
  foldr (λ j acc, f (counter k j) + acc) 0 l + f v - f (counter k i).
Proof.
  assert (Hout : ∀ l, i ∉ l →
    foldr (λ j acc, f (default (0, 0) (<[i := v]> (s_live k) !! j)) + acc) 0 l =
    foldr (λ j acc, f (counter k j) + acc) 0 l).
  { clear l. induction l as [|j l IH]; intros Hi; simpl; [done|].
    rewrite IH by set_solver. rewrite lookup_insert_ne by set_solver. done. }
  induction l as [|j l IH]; intros Hnd Hi; [by apply elem_of_nil in Hi|]. simpl.
  apply NoDup_cons in Hnd as [Hj Hnd]. destruct (decide (i = j)) as [->|Hne].
  - rewrite Hout, lookup_insert_eq by done. simpl. lia.
  - rewrite IH by set_solver. rewrite lookup_insert_ne by done. unfold counter. lia.
Qed.

Lemma liveAdd_count t d k : LiveCount (liveAdd t d k) = LiveCount k + d.
Proof.
  assert (H : ∀ n k, LiveCount (liveAdd_store n d (liveAdd_load n d k) k) = LiveCount k + d).
  { clear k. intros n k. unfold LiveCount, sum_live, liveAdd_store. unfold counter at 1. cbn [s_live].
    rewrite (sum_insert fst).
    - simpl. unfold liveAdd_load. lia.
    - apply NoDup_seqZ.
    - apply elem_of_seqZ. apply Z.mod_pos_bound. done. }
  unfold liveAdd. destruct (liveSlot t k) as [n k'] eqn:Hs. rewrite H.
  unfold liveSlot in Hs. by destruct (liveRef k !! t); injection Hs as <- <-.
Qed.

Lemma Alloc_count growth fresh t p st r p' st' :
  Alloc growth fresh t p st = (r, p', st') →
  LiveCount (counters st') = LiveCount (counters st) + Z.of_nat (length (option_list r)).
Proof.
  unfold Alloc. destruct (if _ =? 0 then _ else _) as [[p1 m1] c1].
  destruct (c_head c1 =? 0); intros [= <- <- <-]; simpl; [lia|]. by rewrite liveAdd_count.
Qed.

Lemma Free_count t x p st p' st' :
  Free t x p st = (p', st') → LiveCount (counters st') = LiveCount (counters st) - 1.
Proof.
  unfold Free. destruct (if _ <? _ then _ else _) as [[p1 m1] c1].
  intros [= <- <-]. simpl. by rewrite liveAdd_count.
Qed.

(** ** Preservation *)

Lemma world_inv_some p g st out :
  (0 ≤ g) → (∀ t, 0 ≤ c_gen (local t st) ≤ g) → gen_ p = g →
  (∃ L C, slab_inv p st L C out) → LiveCount (counters st) = Z.of_nat (length out) →
  world_inv (mkWorld (Some p) g st out).
Proof. intros. by split_and!. Qed.

Lemma slab_step_new base slots gen lazy st p gen' st' :
  (0 ≤ slots) → (0 < base) → (0 ≤ gen < 2 ^ 32 - 1) → (∀ t, 0 ≤ c_gen (local t st) ≤ gen) →
  new_SlabPool base slots gen lazy None st = Ok (p, gen', st') →
  world_inv (mkWorld (Some p) gen' st' []).
Proof.
  intros Hs Hb Hg Hc. unfold new_SlabPool. rewrite (u32_small (gen + 1)) by lia.
  set (p0 := mkPool _ _ _ _ _ _ _). set (st0 := set_counters _ st).
  assert (Hi : slab_inv p0 st0 [] ∅ []).
  { apply new_pool_inv; [done|done|lia|]. intros t. specialize (Hc t).
    change (local t st0) with (local t st). lia. }
  assert (Hlive : LiveCount (counters st0) = 0) by done.
  destruct lazy.
  - intros [= <- <- <-]. apply world_inv_some; simpl; [lia| |done|by eauto|done].
    intros t. specialize (Hc t). change (local t st0) with (local t st). lia.
  - destruct (Prefault slots p0 (heap st0)) as [p1 m1] eqn:Hpf. intros [= <- <- <-].
    destruct (Prefault_inv _ _ _ _ _ _ _ _ Hi Hs Hpf) as (Hg1 & L' & Hi').
    apply world_inv_some; simpl; [lia| |done|by eauto|done].
    intros t. specialize (Hc t). change (local t (set_heap m1 st0)) with (local t st). lia.
Qed.

Lemma slab_step_exit t w p st :
  world_inv w → Cache_dtor t (w_pool w) (w_st w) = (p, st) →
  world_inv (mkWorld p (w_gen w) st (w_out w)).
Proof.
  destruct w as [wp g ws out]. intros (Hg & Hc & Hw). simpl in *. unfold Cache_dtor.
  destruct (c_head (local t ws) =? 0) eqn:Hh; [intros [= <- <-]; by split_and!|].
  apply Z.eqb_neq in Hh.
  assert (Hgens : ∀ c m k t', c_gen c = c_gen (local t ws) →
    0 ≤ c_gen (local t' (mkStatics m (<[t := c]> (caches ws)) k)) ≤ g).
  { intros c m k t' Hcg. change (local t' _) with (local t' (set_cache t c ws)). rewrite local_set.
    destruct (decide (t = t')); [rewrite Hcg|]; apply Hc. }
  destruct wp as [q|]; [|intros [= <- <-]; split_and!; [done|intros t'; by apply Hgens|done]].
  destruct Hw as (Hgq & (L & C & Hi) & Hn). pose proof (cache_view _ _ _ _ _ t Hi) as Hv.
  destruct (gen_ q =? c_gen (local t ws)) eqn:Hgen.
  - apply Z.eqb_eq in Hgen. unfold cache in Hv. rewrite Hgen, Z.eqb_refl in Hv.
    destruct (giveBack _ _ q (heap ws)) as [q' m'] eqn:Hgb. intros [= <- <-].
    destruct (giveBack_view _ _ _ _ _ _ _ _ _ _ Hv Hh Hgb) as [Hg' Hv'].
    apply world_inv_some; simpl; [done|intros t'; by apply Hgens|congruence| |done].
    eexists _, _. eapply (slab_update q); [exact Hi|done|exact Hv'].
  - apply Z.eqb_neq in Hgen. intros [= <- <-].
    apply world_inv_some; simpl; [done|intros t'; by apply Hgens|done| |done].
    exists L, C. destruct Hi as [? ? ? ? Hcs ?]. constructor; try done. intros t'.
    specialize (Hcs t') as [Hr Hm]. unfold magazine_inv. rewrite local_set.
    destruct (decide (t = t')) as [<-|]; [|by split]. simpl. rewrite decide_False in * by done. by split.
Qed.

Lemma slab_step_inv w w' : world_inv w → slab_step w w' → world_inv w'.
Proof.
  intros (Hg & Hc & Hw) Hst.
  destruct Hst as [base slots lazy p gen st ? ? ? Hn|p Hp|t growth fresh p r p' st' Hp Hfr Ha
    |t x out p p' st' Hp Hout Hf|t p st Hd|x v Hx].
  - destruct (w_pool w); [done|]. eapply slab_step_new, Hn; [done|done|lia|done].
  - by split_and!.
  - rewrite Hp in Hw. destruct Hw as (Hgp & (L & C & Hi) & Hl).
    pose proof (Alloc_count _ _ _ _ _ _ _ _ Ha) as Hcnt.
    destruct (Alloc_inv _ _ _ _ _ _ _ _ _ _ _ Hi Hfr Ha) as (L' & C' & Hi' & Hg' & _).
    apply world_inv_some; simpl; [done| |congruence|by eauto|rewrite length_app; lia].
    intros t'. rewrite <- Hgp, <- Hg'. eapply slab_inv_gens, Hi'.
  - rewrite Hp in Hw. destruct Hw as (Hgp & (L & C & Hi) & Hl).
    pose proof (Free_count _ _ _ _ _ _ Hf) as Hcnt. rewrite Hout in Hl. simpl in Hl.
    destruct (Free_inv _ _ _ _ _ _ _ _ _ (slab_inv_perm _ _ _ _ _ _ Hout Hi) Hf)
      as (Hg' & L' & C' & Hi').
    apply world_inv_some; simpl; [done| |congruence|by eauto|lia].
    intros t'. rewrite <- Hgp, <- Hg'. eapply slab_inv_gens, Hi'.
  - by eapply slab_step_exit.
  - split_and!; simpl; [done|exact Hc|]. destruct (w_pool w) as [p|]; [|done].
    destruct Hw as (Hgp & (L & C & Hi) & Hl). split_and!; [done| |done].
    exists L, C. apply slab_inv_write; auto.
Qed.

Lemma reachable_world_inv w : reachable slab_init slab_step w → world_inv w.
Proof.
  apply reachable_ind; [|intros; by eapply slab_step_inv].
  intros ? (m & ->). split_and!; simpl; [done|done|done].
Qed.

Lemma HighWaterSlots_carved p : pool_ok p → HighWaterSlots p = Z.of_nat (length (bumped p)).
Proof.
  intros [[H0 Hes]%Forall_cons _]. unfold HighWaterSlots, bumped, blocks, carved. simpl.
  rewrite length_app. unfold slots_of at 1. rewrite length_fmap, length_seqZ. simpl.
  destruct H0 as [H0 _]. simpl in H0.
  replace (bumpNext p) with (Z.of_nat (Z.to_nat (bumpNext p))) at 1 by lia.
  generalize (Z.to_nat (bumpNext p)). clear H0. induction Hes as [|e es [He _] Hes IH]; intros n; simpl; [lia|].
  replace (Z.of_nat n + ext_bump e) with (Z.of_nat (n + Z.to_nat (ext_bump e))) by lia.
  rewrite IH, length_app. unfold slots_of at 2. rewrite length_fmap, length_seqZ. lia.
Qed.

(** C25: The slots of the current pool that are carved are, without repetition, the
    free ones and the ones handed out; every slot handed out is a slot of this pool;
    [LiveCount] and [HighWaterSlots] report exactly those numbers. *)
Theorem slab_partition w p :
  reachable slab_init slab_step w → w_pool w = Some p →
  (∃ free, free ++ w_out w ≡ₚ bumped p ∧ NoDup (free ++ w_out w) ∧
     HighWaterSlots p = Z.of_nat (length free + length (w_out w))) ∧
  (∀ x, x ∈ w_out w → (x ≠ 0) ∧ SlotInSlab p x = true) ∧
  LiveCount (counters (w_st w)) = Z.of_nat (length (w_out w)).
Proof.
  intros (_ & _ & Hw)%reachable_world_inv Hp. rewrite Hp in Hw.
  destruct Hw as (_ & (L & C & Hi) & Hl). destruct Hi as [_ Hok Hap _ _ Hs].
  rewrite app_assoc in Hs. split_and!; [| |done].
  - exists (L ++ pooled C). split_and!; [done|rewrite Hs; by apply carved_nodup|].
    rewrite HighWaterSlots_carved, <- Hs, !length_app by done. lia.
  - intros x Hx. assert (Hx' : x ∈ bumped p) by (rewrite <- Hs; set_solver). split.
    + intros ->. by apply (carved_nonzero _ Hok).
    + by apply SlotInSlab_bumped.
Qed.

(** A slot returned by [Alloc] is in the pool and is not handed out already. *)
Theorem slab_alloc_fresh w p growth fresh t x p' st' :
  reachable slab_init slab_step w → w_pool w = Some p →
  (∀ base, fresh = Some base → fresh_ok p base) →
  Alloc growth fresh t p (w_st w) = (Some x, p', st') →
  x ≠ 0 ∧ (x ∉ w_out w) ∧ SlotInSlab p' x = true.
Proof.
  intros (_ & _ & Hw)%reachable_world_inv Hp Hfr Ha. rewrite Hp in Hw.
  destruct Hw as (_ & (L & C & Hi) & _).
  destruct (Alloc_inv _ _ _ _ _ _ _ _ _ _ _ Hi Hfr Ha) as (L' & C' & [_ Hok Hap _ _ Hs] & _ & _).
  assert (Hx : x ∈ bumped p') by (rewrite <- Hs; set_solver). split_and!.
  - intros ->. by apply (carved_nonzero _ Hok).
  - assert (Hnd : NoDup (x :: w_out w ++ L' ++ pooled C')).
    { eapply NoDup_perm; [|by apply carved_nodup]. change (carved (blocks p')) with (bumped p').
      rewrite <- Hs. simpl. solve_Permutation. }
    apply NoDup_cons in Hnd as [Hnd _]. set_solver.
  - by apply SlotInSlab_bumped.
Qed.

(** [Alloc] returns null only when the class has no block at all, or the caller's
    magazine and the shared list are empty, the first block is used up and growth is off
    or every extent is used up and the system allocator refused another. *)
Theorem slab_alloc_null w p growth fresh t p' st' :
  reachable slab_init slab_step w → w_pool w = Some p →
  (∀ base, fresh = Some base → fresh_ok p base) →
  Alloc growth fresh t p (w_st w) = (None, p', st') →
  c_head (cache p t (w_st w)) = 0 ∧
  (mem p = 0 ∨ sharedHead p = 0 ∧ (memSlots p ≤ bumpNext p) ∧
     (growth = false ∨ fresh = None ∧ all_used (extents p) = true)).
Proof.
  intros (_ & _ & Hw)%reachable_world_inv Hp Hfr Ha. rewrite Hp in Hw.
  destruct Hw as (_ & (L & C & Hi) & _).
  destruct (Alloc_inv _ _ _ _ _ _ _ _ _ _ _ Hi Hfr Ha) as (L' & C' & _ & _ & Hn).
  destruct (Hn eq_refl) as [Hc Hex]. pose proof (tv_mag _ _ _ _ _ _ _ _ (cache_view _ _ _ _ _ t Hi)) as Hm.
  split; [by apply (chain_nil_iff _ _ _ Hm)|].
  destruct Hex as [?|(-> & ? & ?)]; [by left|right]. split_and!; [|done|done].
  by apply (chain_nil_iff _ _ _ (si_shared _ _ _ _ _ Hi)).
Qed.

End pool.

Arguments slab_step SLOT w w'.

(** ** A concrete pool: class 64, two slots, growth to an extent *)

Definition world0 : world := mkWorld None 0 (mkStatics ∅ ∅ (mkCounters ∅ 0 ∅)) [].

Definition alloc_world (growth : bool) (fresh : option Z) (t : nat) (w : world) : world :=
  match w_pool w with
  | Some p =>
      let '(r, p', st') := Alloc 64 growth fresh t p (w_st w) in
      mkWorld (Some p') (w_gen w) st' (option_list r ++ w_out w)
  | None => w
  end.

Definition new_world (base slots : Z) (lazy : bool) (w : world) : world :=
  match new_SlabPool 64 base slots (w_gen w) lazy (w_pool w) (w_st w) with
  | Ok (p, g, st) => mkWorld (Some p) g st []
  | Err _ => w
  end.

Definition world2 : world :=
  Eval vm_compute in
    alloc_world true None 1%nat (alloc_world true None 0%nat (new_world 4096 2 true world0)).

Lemma world2_reachable : reachable slab_init (slab_step 64) world2.
Proof.
  exists world0. split; [by exists ∅|].
  eapply rtc_l; [eapply (s_new 64 _ 4096 2 true); [done|done|done|vm_compute; reflexivity]|].
  eapply rtc_l; [eapply (s_alloc 64 _ 0%nat true None); [reflexivity|done|vm_compute; reflexivity]|].
  eapply rtc_l; [eapply (s_alloc 64 _ 1%nat true None); [reflexivity|done|vm_compute; reflexivity]|].
  vm_compute. apply rtc_refl.
Qed.

Definition pool2 : Pool := default (mkPool 0 0 [] false 0 0 0) (w_pool world2).

Lemma slab_partition_witness :
  (∀ x, x ∈ w_out world2 → x ≠ 0 ∧ SlotInSlab 64 pool2 x = true) ∧
  LiveCount (counters (w_st world2)) = 1.
Proof.
  destruct (slab_partition 64 eq_refl world2 pool2 world2_reachable eq_refl) as (_ & H1 & H2).
  by split.
Defined.

(** Thread 0 takes the second slot of its batch. *)
Lemma slab_alloc_fresh_witness :
  (Alloc 64 true None 0%nat pool2 (w_st world2)).1.1 = Some 4096 ∧
  (4096 ∉ w_out world2) ∧ SlotInSlab 64 pool2 4096 = true.
Proof.
  split; [reflexivity|].
  destruct (slab_alloc_fresh 64 eq_refl world2 pool2 true None 0%nat 4096 pool2
    (Alloc 64 true None 0%nat pool2 (w_st world2)).2 world2_reachable eq_refl) as (_ & H1 & H2).
  - done.
  - vm_compute. reflexivity.
  - by split.
Defined.

(** Thread 1 finds nothing: thread 0's magazine holds the remaining slot. *)
Lemma slab_alloc_null_witness :
  c_head (cache pool2 1%nat (w_st world2)) = 0 ∧
  (mem pool2 = 0 ∨ sharedHead pool2 = 0 ∧ (memSlots pool2 ≤ bumpNext pool2) ∧
     (true = false ∨ @None Z = None ∧ all_used (extents pool2) = true)).
Proof.
  eapply (slab_alloc_null 64 eq_refl world2 pool2 true None 1%nat); [apply world2_reachable|done|done|].
  vm_compute. reflexivity.
Defined.

(** ** The live counters of more than 128 threads *)

(** A thread number below 128 updates its counter by a load and a later store, and the
    thread numbered 128 more shares that counter and updates it in between: the shared
    counter ends at 1 after two allocations. *)
Theorem live_counter_lost_update :
  let k := mkCounters ∅ 129 ∅ in
  exclusive 0 = true ∧ exclusive 128 = false ∧ 0 `mod` kLiveSlots = 128 `mod` kLiveSlots ∧
  let now := liveAdd_load 0 1 k in
  let k1 := liveAdd_store 128 1 (liveAdd_load 128 1 k) k in
  LiveCount k1 = 1 ∧ LiveCount (liveAdd_store 0 1 now k1) = 1.
Proof. vm_compute. done. Qed.
