(* ===== verification/TaskAllocator.v ===== *)
(** * The size-class allocator (include/TaskAllocator.h)

    Five slab pools, tried from the smallest class that fits upwards; a slot goes back to
    the class whose slab contains it.  Each pool has its own statics (the source keeps
    them per template instance), so a class is a slot size, a pool and its statics. *)

From S2P Require Import Prelude SlabPool.

Definition SMALL_SLOT : Z := 64.
Definition SLOT80 : Z := 80.
Definition MID_SLOT : Z := 128.
Definition SLOT : Z := 256.
Definition LARGE_SLOT : Z := 512.

Record Class := mkClass { slotSize : Z; cpool : Pool; cst : Statics }.

(** The member pools in the order in which [AllocSized] and [FreeSized] try them. *)
Definition class_sizes : list Z := [SMALL_SLOT; SLOT80; MID_SLOT; SLOT; LARGE_SLOT].

(** The constructor: one pool per class, the five sizes given in the constructor's order
    (256, 128, 80, 64, 512); [base sz] is the block obtained for class [sz]. *)
Definition no_statics : Statics := mkStatics ∅ ∅ (mkCounters ∅ 0 ∅).

Definition new_class (sz base slots : Z) (lazy : bool) : option Class :=
  match new_SlabPool sz base slots 0 lazy None no_statics with
  | Ok (p, _, st) => Some (mkClass sz p st)
  | Err _ => None
  end.

Definition new_TaskAllocator (base : Z → Z) (bigSlots midSlots slots80 smallSlots largeSlots : Z)
  (lazy : bool) : option (list Class) :=
  mapM (λ '(sz, slots), new_class sz (base sz) slots lazy)
    [(SMALL_SLOT, smallSlots); (SLOT80, slots80); (MID_SLOT, midSlots); (SLOT, bigSlots);
     (LARGE_SLOT, largeSlots)].

(** [TaskAllocator(slots, lazy)]. *)
Definition new_TaskAllocator1 (base : Z → Z) (slots : Z) (lazy : bool) : option (list Class) :=
  new_TaskAllocator base slots (slots / 8) (slots / 8) (slots / 8) (slots / 8) lazy.

Section ops.
Variable growth : bool.

(** [AllocSized]; [fresh sz] is the system allocator's answer if class [sz] grows. *)
Fixpoint AllocSized (fresh : Z → option Z) (t : nat) (n : Z) (cs : list Class)
  : option Z * list Class :=
  match cs with
  | [] => (None, [])
  | c :: cs' =>
      if n <=? slotSize c then
        match Alloc (slotSize c) growth (fresh (slotSize c)) t (cpool c) (cst c) with
        | (Some x, p, st) => (Some x, mkClass (slotSize c) p st :: cs')
        | (None, p, st) =>
            let '(r, cs'') := AllocSized fresh t n cs' in
            (r, mkClass (slotSize c) p st :: cs'')
        end
      else let '(r, cs'') := AllocSized fresh t n cs' in (r, c :: cs'')
  end.

Fixpoint FreeSized (t : nat) (x : Z) (cs : list Class) : bool * list Class :=
  match cs with
  | [] => (false, [])
  | c :: cs' =>
      if SlotInSlab (slotSize c) (cpool c) x then
        let '(p, st) := Free t x (cpool c) (cst c) in (true, mkClass (slotSize c) p st :: cs')
      else let '(r, cs'') := FreeSized t x cs' in (r, c :: cs'')
  end.

Definition OwnsSized (x : Z) (cs : list Class) : bool :=
  existsb (λ c, SlotInSlab (slotSize c) (cpool c) x) cs.

(** [Free]: what no slab owns goes to [operator delete]; the second component says so. *)
Definition TaskAllocator_Free (t : nat) (x : Z) (cs : list Class) : list Class * bool :=
  let '(r, cs') := FreeSized t x cs in (cs', negb r).

(** [Alloc()] takes a slot of the 256-byte class. *)
Fixpoint TaskAllocator_Alloc (fresh : Z → option Z) (t : nat) (cs : list Class) : option Z * list Class :=
  match cs with
  | [] => (None, [])
  | c :: cs' =>
      if slotSize c =? SLOT then
        let '(r, p, st) := Alloc (slotSize c) growth (fresh (slotSize c)) t (cpool c) (cst c) in
        (r, mkClass (slotSize c) p st :: cs')
      else let '(r, cs'') := TaskAllocator_Alloc fresh t cs' in (r, c :: cs'')
  end.

Definition TotalCapacity (cs : list Class) : Z := foldr (λ c n, Capacity (cpool c) + n) 0 cs.
Definition TotalHighWaterBytes (cs : list Class) : Z :=
  foldr (λ c n, HighWaterBytes (slotSize c) (cpool c) + n) 0 cs.

(** [UsageProfile]: per class, slot bytes, capacity, resident slots, peak and live counts
    and the number of extents. *)
Record ClassUsage := mkUsage {
  slotBytes : Z; u_capacity : Z; resident : Z; peakLive : Z; u_live : Z; u_extents : Z }.

Definition UsageProfile (cs : list Class) : list ClassUsage :=
  (λ c, mkUsage (slotSize c) (Capacity (cpool c)) (HighWaterSlots (cpool c))
          (PeakLive (counters (cst c))) (LiveCount (counters (cst c))) (ExtentCount (cpool c))) <$> cs.

(** ** Invariant *)

Definition class_inv (c : Class) (A : list Z) : Prop :=
  (0 < slotSize c) ∧ ∃ L C, slab_inv (slotSize c) (cpool c) (cst c) L C A.

(** Bytes [b, b + n) against the blocks of a class. *)
Definition clear_of (b n : Z) (c : Class) : Prop :=
  ∀ e, e ∈ blocks (cpool c) →
    (b + n ≤ ext_mem e) ∨ (ext_mem e + ext_slots e * slotSize c ≤ b).

Definition foreign (c c' : Class) : Prop :=
  ∀ e, e ∈ blocks (cpool c) → clear_of (ext_mem e) (ext_slots e * slotSize c) c'.

Fixpoint pairwise_foreign (cs : list Class) : Prop :=
  match cs with [] => True | c :: cs' => Forall (foreign c) cs' ∧ pairwise_foreign cs' end.

Definition alloc_inv (cs : list Class) (outs : list (list Z)) : Prop :=
  Forall2 class_inv cs outs ∧ pairwise_foreign cs.

(** What [new (nothrow)] may return for an extent of class [sz]. *)
Definition fresh_clear (fresh : Z → option Z) (cs : list Class) : Prop :=
  ∀ c base, c ∈ cs → fresh (slotSize c) = Some base →
    (0 < base) ∧ ∀ c', c' ∈ cs → clear_of base (kGrowSlots * slotSize c) c'.

(** ** The blocks an operation leaves *)

Lemma carve_extents_ranges sz es b es' b' take :
  carve_extents sz es b = Some (es', b', take) → range <$> es' = range <$> es.
Proof.
  revert es'. induction es as [|e es IH]; intros es' Hc; [done|]. simpl in Hc.
  destruct (ext_bump e <? ext_slots e).
  - by injection Hc as <- <- _.
  - destruct (carve_extents sz es b) as [[[es'' b''] tk]|]; [|done].
    injection Hc as <- <- <-. rewrite !fmap_cons. by rewrite (IH es'' eq_refl).
Qed.

(** [Alloc] leaves the blocks alone, or adds the one extent it was given. *)
Lemma Alloc_ranges sz fresh t p st r p' st' :
  Alloc sz growth fresh t p st = (r, p', st') →
  range <$> blocks p' = range <$> blocks p ∨
  (growth = true ∧ mem p ≠ 0 ∧ ∃ base, fresh = Some base ∧
     range <$> blocks p' = range (block0 p) :: (base, kGrowSlots) :: (range <$> extents p)).
Proof.
  unfold Alloc. set (s1 := if _ =? 0 then _ else _). destruct s1 as [[p1 m1] c1] eqn:Hs1.
  assert (H : range <$> blocks p1 = range <$> blocks p ∨
    (growth = true ∧ mem p ≠ 0 ∧ ∃ base, fresh = Some base ∧
     range <$> blocks p1 = range (block0 p) :: (base, kGrowSlots) :: (range <$> extents p))).
  { unfold s1 in Hs1. destruct (c_head _ =? 0); [|injection Hs1 as <- <- <-; by left].
    unfold refill in Hs1. destruct (mem p =? 0) eqn:Hmem; [injection Hs1 as <- <- <-; by left|].
    apply Z.eqb_neq in Hmem. unfold refill_locked in Hs1.
    destruct (take_shared _ _ _ _ _) as [[curr tail] moved].
    set (b1 := carve _ _ _ _ _) in Hs1. set (q := bump_by _ _) in Hs1.
    assert (Hq : range <$> blocks q = range <$> blocks p) by done.
    destruct ((_ =? 0) && growth) eqn:Hg.
    - apply andb_true_iff in Hg as [_ Hg]. change (extents q) with (extents p) in Hs1.
      unfold grow_extents in Hs1.
      destruct (carve_extents sz (extents p) b1) as [[[es b2] tk]|] eqn:Hc.
      + apply carve_extents_ranges in Hc. left.
        destruct (b_head b2 =? 0); injection Hs1 as <- <- <-;
          change (range (block0 p) :: (range <$> es) = range <$> blocks p); by rewrite Hc.
      + destruct fresh as [base|].
        2:{ left. destruct (b_head b1 =? 0); by injection Hs1 as <- <- <-. }
        destruct (carve_extents sz (_ :: extents p) b1) as [[[es b2] tk]|] eqn:Hc2.
        2:{ left. destruct (b_head b1 =? 0); by injection Hs1 as <- <- <-. }
        apply carve_extents_ranges in Hc2. right. split_and!; [done|done|]. exists base. split; [done|].
        destruct (b_head b2 =? 0); injection Hs1 as <- <- <-;
          change (range (block0 p) :: (range <$> es) = range (block0 p) :: (range <$> mkExtent base kGrowSlots 0 :: extents p));
          by rewrite Hc2.
    - left. destruct (b_head b1 =? 0); by injection Hs1 as <- <- <-. }
  destruct (c_head c1 =? 0); intros [= <- <- <-]; exact H.
Qed.

Lemma Free_blocks t x p st p' st' : Free t x p st = (p', st') → blocks p' = blocks p.
Proof.
  unfold Free. destruct (2 * BATCH <? _); [|by intros [= <- <-]].
  unfold flush. destruct (_ <=? BATCH); by intros [= <- <-].
Qed.

(** [clear_of] and [foreign] only look at the blocks' ranges. *)
Lemma clear_of_ranges b n c c' :
  slotSize c' = slotSize c →
  (∀ r, r ∈ range <$> blocks (cpool c') →
     r ∈ range <$> blocks (cpool c) ∨ (b + n ≤ r.1 ∨ r.1 + r.2 * slotSize c ≤ b)) →
  clear_of b n c → clear_of b n c'.
Proof.
  intros Hs Hr Hc e He. rewrite Hs. pose proof (list_elem_of_fmap_2 range _ _ He) as He'.
  destruct (Hr _ He') as [(e0 & [= Hm Hl] & H0)%list_elem_of_fmap|H]; [|exact H].
  specialize (Hc e0 H0). rewrite Hm, Hl. exact Hc.
Qed.

Lemma foreign_sym c c' : foreign c c' → foreign c' c.
Proof.
  intros H e He e' He'. destruct (H e' He' e He) as [?|?]; [by right|by left].
Qed.

Lemma foreign_same c c' d :
  slotSize c' = slotSize c → range <$> blocks (cpool c') = range <$> blocks (cpool c) →
  foreign d c → foreign d c'.
Proof.
  intros Hs Hr H e He. eapply clear_of_ranges; [done| |by apply H]. intros r. rewrite Hr. by left.
Qed.

Definition fresh_for (fresh : Z → option Z) (c d : Class) : Prop :=
  ∀ base, fresh (slotSize c) = Some base → clear_of base (kGrowSlots * slotSize c) d.

Lemma Alloc_foreign fresh t c d r p st :
  Alloc (slotSize c) growth (fresh (slotSize c)) t (cpool c) (cst c) = (r, p, st) →
  foreign d c → fresh_for fresh c d → foreign d (mkClass (slotSize c) p st).
Proof.
  intros Ha Hf Hfr e He. destruct (Alloc_ranges _ _ _ _ _ _ _ _ Ha) as [Hr|(_ & _ & base & Hb & Hr)].
  - eapply (clear_of_ranges _ _ c); [done| |by apply Hf]. intros r'. cbn [cpool]. rewrite Hr. by left.
  - eapply (clear_of_ranges _ _ c); [done| |by apply Hf]. intros r'. cbn [cpool]. rewrite Hr.
    intros [->|[->|Hr']%elem_of_cons]%elem_of_cons.
    + left. by left.
    + right. destruct (Hfr _ Hb e He) as [?|?]; simpl; [by right|by left].
    + left. by right.
Qed.

(** Keeping clear of every class of a list, through [AllocSized] and [FreeSized]. *)
Lemma AllocSized_foreign fresh t n cs d r cs' :
  AllocSized fresh t n cs = (r, cs') → Forall (foreign d) cs →
  Forall (λ c, fresh_for fresh c d) cs → Forall (foreign d) cs'.
Proof.
  revert r cs'. induction cs as [|c cs IH]; intros r cs' Ha Hf Hfr; simpl in Ha.
  { by injection Ha as <- <-. }
  apply Forall_cons in Hf as [Hc Hf]. apply Forall_cons in Hfr as [Hfc Hfr].
  destruct (AllocSized fresh t n cs) as [r1 cs1] eqn:Hcs. specialize (IH _ _ eq_refl Hf Hfr).
  destruct (n <=? slotSize c); [|by injection Ha as <- <-; constructor].
  destruct (Alloc _ _ _ _ _ _) as [[r0 p0] st0] eqn:Hal.
  pose proof (Alloc_foreign _ _ _ _ _ _ _ Hal Hc Hfc).
  destruct r0; injection Ha as <- <-; by constructor.
Qed.

Lemma class_alloc fresh t c A r p st :
  class_inv c A → (∀ base, fresh (slotSize c) = Some base → 0 < base) → fresh_for fresh c c →
  Alloc (slotSize c) growth (fresh (slotSize c)) t (cpool c) (cst c) = (r, p, st) →
  class_inv (mkClass (slotSize c) p st) (option_list r ++ A) ∧ (∀ x, r = Some x → (x ∉ A)) ∧
  (r = None → range <$> blocks p = range <$> blocks (cpool c)).
Proof.
  intros (Hs & L & C & Hi) Hb Hfr Ha.
  assert (Hfo : ∀ base, fresh (slotSize c) = Some base → fresh_ok (slotSize c) (cpool c) base).
  { intros base Hbase. split; [by apply Hb|]. apply Forall_forall. intros e He.
    destruct (Hfr base Hbase e He) as [?|?]; [by left|by right]. }
  destruct (Alloc_inv _ Hs _ _ _ _ _ _ _ _ _ _ _ Hi Hfo Ha) as (L' & C' & Hi' & _ & Hn).
  split_and!; [by split; eauto| |].
  - intros x ->. destruct Hi' as [_ Hok Hap _ _ Hp].
    assert (Hnd : NoDup (x :: A ++ L' ++ pooled C')).
    { eapply NoDup_perm; [|by eapply carved_nodup].
      change (bumped (slotSize c) p ≡ₚ x :: A ++ L' ++ pooled C'). rewrite <- Hp. simpl. solve_Permutation. }
    apply NoDup_cons in Hnd as [Hnd _]. set_solver.
  - intros ->. destruct (Hn eq_refl) as [_ Hex].
    destruct (Alloc_ranges _ _ _ _ _ _ _ _ Ha) as [?|(Hg & Hm & base & Hbase & _)]; [done|].
    destruct Hex as [?|(_ & _ & [?|[? _]])]; congruence.
Qed.

Lemma fresh_clear_tail fresh c cs : fresh_clear fresh (c :: cs) → fresh_clear fresh cs.
Proof.
  intros H d base Hd Hb. destruct (H d base) as [? Hc]; [set_solver|done|]. split; [done|].
  intros c' Hc'. apply Hc. set_solver.
Qed.

Lemma fresh_clear_for fresh cs c d : fresh_clear fresh cs → c ∈ cs → d ∈ cs → fresh_for fresh c d.
Proof. intros H Hc Hd base Hb. by apply (H c base). Qed.

Lemma AllocSized_inv fresh t n cs outs r cs' :
  alloc_inv cs outs → fresh_clear fresh cs → AllocSized fresh t n cs = (r, cs') →
  match r with
  | None => alloc_inv cs' outs
  | Some x => ∃ i c A, cs !! i = Some c ∧ outs !! i = Some A ∧ (n ≤ slotSize c) ∧ (x ∉ A) ∧
      alloc_inv cs' (<[i := x :: A]> outs)
  end ∧ slotSize <$> cs' = slotSize <$> cs.
Proof.
  intros [Hcl Hpw]. revert r cs' Hpw. induction Hcl as [|c A cs outs Hc Hcl IH];
    intros r cs' Hpw Hfr Ha; simpl in Ha.
  { injection Ha as <- <-. split; [by split; [constructor|]|done]. }
  destruct Hpw as [Hf Hpw].
  destruct (AllocSized fresh t n cs) as [r1 cs1] eqn:Hcs.
  destruct (IH _ _ Hpw (fresh_clear_tail _ _ _ Hfr) eq_refl) as [IH1 IHs]. clear IH.
  assert (Hfor : Forall (foreign c) cs1).
  { eapply AllocSized_foreign; [exact Hcs|done|]. apply Forall_forall. intros d Hd.
    eapply fresh_clear_for; [exact Hfr|set_solver|set_solver]. }
  assert (Hskip : ∀ c', class_inv c' A → slotSize c' = slotSize c → Forall (foreign c') cs1 →
    match r1 with
    | None => alloc_inv (c' :: cs1) (A :: outs)
    | Some x => ∃ i c A', (c' :: cs) !! i = Some c ∧ (A :: outs) !! i = Some A' ∧ (n ≤ slotSize c) ∧
        (x ∉ A') ∧ alloc_inv (c' :: cs1) (<[i := x :: A']> (A :: outs))
    end ∧ slotSize <$> (c' :: cs1) = slotSize <$> (c :: cs)).
  { intros c' Hc' Hs Hf'. split; [|by rewrite !fmap_cons, Hs, IHs]. destruct r1 as [x|].
    - destruct IH1 as (i & d & A' & ? & ? & ? & ? & [? ?]). exists (S i), d, A'.
      split_and!; try done. split; [by constructor|done].
    - destruct IH1. split; [by constructor|done]. }
  destruct (n <=? slotSize c) eqn:Hle; [|injection Ha as <- <-; by apply Hskip].
  destruct (Alloc _ _ _ _ _ _) as [[r0 p0] st0] eqn:Hal.
  assert (Hpos : ∀ base, fresh (slotSize c) = Some base → 0 < base).
  { intros base Hb. by destruct (Hfr c base ltac:(set_solver) Hb). }
  assert (Hcc : fresh_for fresh c c) by (eapply fresh_clear_for; [exact Hfr|set_solver|set_solver]).
  destruct (class_alloc _ _ _ _ _ _ _ Hc Hpos Hcc Hal) as (Hc' & Hnew & Hsame).
  destruct r0 as [x|]; injection Ha as <- <-.
  - split; [|done]. exists 0%nat, c, A. apply Z.leb_le in Hle. split_and!; [done..|by apply Hnew|].
    split; [by constructor|]. split; [|done]. apply Forall_forall. intros d Hd. apply foreign_sym.
    eapply Alloc_foreign; [exact Hal| |eapply fresh_clear_for; [exact Hfr|set_solver|set_solver]].
    apply foreign_sym. rewrite Forall_forall in Hf. by apply Hf.
  - destruct (Hskip (mkClass (slotSize c) p0 st0) Hc' eq_refl) as [H1 H2].
    { apply Forall_forall. intros d Hd. apply foreign_sym, (foreign_same c); [done|by apply Hsame|].
      apply foreign_sym. rewrite Forall_forall in Hfor. by apply Hfor. }
    split; [|done]. destruct r1 as [x|]; [|done].
    destruct H1 as ([|i] & d & A' & Hd & ? & ? & ? & ?); [|by exists (S i), d, A'].
    exists 0%nat, c, A'. injection Hd as <-. by split_and!.
Qed.

Lemma SlotInSlab_foreign c d A x :
  class_inv c A → x ∈ bumped (slotSize c) (cpool c) → foreign d c →
  SlotInSlab (slotSize d) (cpool d) x = false.
Proof.
  intros (Hs & L & C & [_ Hok _ _ _ _]) (e & He & Hx)%carved_in Hf.
  rewrite Forall_forall in Hok. destruct (slots_of_in _ Hs _ _ (Hok e He) Hx) as [Hr _].
  assert (Hno : ∀ b, b ∈ blocks (cpool d) → in_block (slotSize d) x (ext_mem b) (ext_slots b) = false).
  { intros b Hb. unfold in_block. apply andb_false_iff.
    destruct (Hf b Hb e He); [right; apply Z.ltb_ge|left; apply Z.leb_gt]; lia. }
  unfold SlotInSlab. pose proof (Hno (block0 (cpool d)) ltac:(set_solver)) as H0. simpl in H0.
  rewrite H0, andb_false_r.
  assert (Hes : ∀ b, b ∈ extents (cpool d) → in_block (slotSize d) x (ext_mem b) (ext_slots b) = false).
  { intros b Hb. apply Hno. by right. }
  revert Hes. generalize (extents (cpool d)). intros es Hes.
  induction es as [|b es IH]; [done|]. simpl. rewrite Hes by set_solver. apply IH. set_solver.
Qed.

Lemma class_out c A x : class_inv c A → x ∈ A → x ∈ bumped (slotSize c) (cpool c).
Proof. intros (_ & L & C & [_ _ _ _ _ Hp]) Hx. rewrite <- Hp. set_solver. Qed.

(** A slot goes back to the class it came from, whatever class that is. *)
Lemma FreeSized_inv t x cs outs i A A' :
  alloc_inv cs outs → outs !! i = Some A → A ≡ₚ x :: A' →
  ∃ cs', FreeSized t x cs = (true, cs') ∧ alloc_inv cs' (<[i := A']> outs) ∧
    (∀ d, Forall (foreign d) cs → Forall (foreign d) cs').
Proof.
  intros [Hcl Hpw] Hi HA. revert i Hi Hpw.
  induction Hcl as [|c B cs outs Hc Hcl IH]; intros i Hi Hpw; [done|].
  destruct Hpw as [Hf Hpw]. destruct i as [|i].
  - injection Hi as ->. simpl.
    assert (Hx : x ∈ bumped (slotSize c) (cpool c)) by (eapply class_out; [done|rewrite HA; set_solver]).
    destruct Hc as (Hs & L & C & Hsi). pose proof Hsi as [_ Hok Hap _ _ _].
    rewrite (SlotInSlab_bumped _ Hs) by (by split || done).
    destruct (Free t x (cpool c) (cst c)) as [p st] eqn:Hfr. eexists. split; [reflexivity|].
    destruct (Free_inv _ Hs _ _ _ _ _ _ _ _ _ (slab_inv_perm _ _ _ _ _ _ _ HA Hsi) Hfr)
      as (_ & L' & C' & Hsi').
    pose proof (Free_blocks _ _ _ _ _ _ Hfr) as Hb. split.
    + split; [constructor; [by split; eauto|done]|]. split; [|done].
      apply Forall_forall. intros d Hd. apply foreign_sym, (foreign_same c); [done|cbn [cpool]; by rewrite Hb|].
      apply foreign_sym. rewrite Forall_forall in Hf. by apply Hf.
    + intros d [Hd Hds]%Forall_cons. constructor; [|done]. apply (foreign_same c); [done|cbn [cpool]; by rewrite Hb|done].
  - simpl in Hi. destruct (IH i Hi Hpw) as (cs' & Hfs & [Hcl' Hpw'] & Hfo). simpl.
    destruct (Forall2_lookup_r _ _ _ _ _ Hcl Hi) as (ci & Hci & Hcinv).
    rewrite Forall_forall in Hf. rewrite (SlotInSlab_foreign ci c A); [|done| |].
    + rewrite Hfs. eexists. split; [reflexivity|]. split; [split; [by constructor|]|].
      * split; [|done]. apply Hfo. by apply Forall_forall.
      * intros d [Hd Hds]%Forall_cons. constructor; [done|]. by apply Hfo.
    + eapply class_out; [done|]. rewrite HA. set_solver.
    + apply Hf. by eapply list_elem_of_lookup_2.
Qed.

End ops.

(** C37: A block returned by [AllocSized] is at least as large as asked, belongs to one
    class, was not handed out before, and [FreeSized], called by any thread, recognises
    it and gives it back to exactly that class. *)
Theorem alloc_free_sized growth fresh t t' n cs outs x cs1 :
  alloc_inv cs outs → fresh_clear fresh cs → AllocSized growth fresh t n cs = (Some x, cs1) →
  (∃ i c A, cs !! i = Some c ∧ outs !! i = Some A ∧ (n ≤ slotSize c) ∧ (x ∉ A) ∧
     alloc_inv cs1 (<[i := x :: A]> outs)) ∧
  ∃ cs2, FreeSized t' x cs1 = (true, cs2) ∧ alloc_inv cs2 outs.
Proof.
  intros Hi Hfr Ha. destruct (AllocSized_inv _ _ _ _ _ _ _ _ Hi Hfr Ha) as [H _].
  split; [exact H|]. destruct H as (i & c & A & Hc & HA & _ & _ & Hi1).
  assert (Hi' : <[i := x :: A]> outs !! i = Some (x :: A)).
  { apply list_lookup_insert_eq. by eapply lookup_lt_Some. }
  destruct (FreeSized_inv t' x cs1 _ i _ A Hi1 Hi' ltac:(done)) as (cs2 & Hf & Hi2 & _).
  exists cs2. split; [done|]. rewrite list_insert_insert_eq, list_insert_id in Hi2; done.
Qed.

(** ** A new allocator *)

Lemma new_class_inv sz base slots lazy c :
  (0 < sz) → (0 < base) → (0 ≤ slots) → new_class sz base slots lazy = Some c → class_inv c [].
Proof.
  intros Hsz Hb Hs. unfold new_class.
  destruct (new_SlabPool _ _ _ _ _ _ _) as [[[p g] st]|] eqn:Hn; [|done]. intros [= <-].
  eapply slab_step_new in Hn as (_ & _ & _ & Hi & _); [|done|done|done|done|].
  - by split.
  - intros t. unfold local. simpl. rewrite lookup_empty. simpl. lia.
Qed.

(** Two slots per class, the blocks 4096 bytes apart. *)
Definition small_base (sz : Z) : Z := sz * 4096.

Definition small_allocator : list Class :=
  Eval vm_compute in default [] (new_TaskAllocator small_base 2 2 2 2 2 true).

Lemma small_allocator_inv : alloc_inv small_allocator [[]; []; []; []; []].
Proof.
  split.
  - repeat constructor; [eapply (new_class_inv 64 262144 2 true)|eapply (new_class_inv 80 327680 2 true)
      |eapply (new_class_inv 128 524288 2 true)|eapply (new_class_inv 256 1048576 2 true)
      |eapply (new_class_inv 512 2097152 2 true)]; (lia || reflexivity).
  - repeat (split || apply Forall_cons || apply Forall_nil); intros e He e' He';
      apply list_elem_of_singleton in He as ->; apply list_elem_of_singleton in He' as ->;
      vm_compute; (left; discriminate) || (right; discriminate).
Qed.

(** A 100-byte request is served by the 128-byte class and given back by another thread. *)
Lemma alloc_free_sized_witness :
  (AllocSized true (λ _, None) 0%nat 100 small_allocator).1 = Some 524416 ∧
  ∃ cs2, FreeSized 1%nat 524416 (AllocSized true (λ _, None) 0%nat 100 small_allocator).2 = (true, cs2) ∧
    alloc_inv cs2 [[]; []; []; []; []].
Proof.
  split; [reflexivity|].
  refine (proj2 (alloc_free_sized true (λ _, None) 0%nat 1%nat 100 small_allocator _ 524416 _
    small_allocator_inv _ _)).
  - done.
  - vm_compute. reflexivity.
Defined.
