(* ===== verification/WaitGroups.v ===== *)
(** * WaitGroup (include/WaitGroup.h, src/WaitGroup.cpp)

    A counter with a waiter bit in one word, a list of suspended tasks, the wait words of
    blocked threads, and the [waking] mark that keeps a returning waiter from destroying
    the group under a waker.  First the operations as functions of the group and the
    intrusive list; then every atomic access of concurrent [Done], [AddWaiter],
    [BlockThread] and [Settle] as a step relation. *)

From S2P Require Import Prelude.

(** ** The counter word *)

Definition WAITER_BIT : Z := 0x40000000.
Definition COUNT_MASK : Z := WAITER_BIT - 1.

Definition count_of (n : Z) : Z := Z.land n COUNT_MASK.
Definition has_waiter (n : Z) : bool := negb (Z.land n WAITER_BIT =? 0).
Definition or_waiter (n : Z) : Z := Z.lor n WAITER_BIT.
Definition clear_waiter (n : Z) : Z := Z.ldiff n WAITER_BIT.

Definition kWaitRunning : Z := 0.
Definition kWaitWaiting : Z := 1.
Definition kWaitKicked : Z := 2.

(** ** The operations *)

(** [wg_next] is [TaskRecord::waitNext] of every task, [wg_words] the wait words. *)
Record WaitGroup := mkWG {
  wg_n : Z; wg_waking : Z; taskWaiters : Z; threadWaiter : Z; blockedThreads : list Z;
  wg_next : gmap Z Z; wg_words : gmap Z Z }.

Definition set_wn (n : Z) (g : WaitGroup) : WaitGroup :=
  mkWG n (wg_waking g) (taskWaiters g) (threadWaiter g) (blockedThreads g) (wg_next g) (wg_words g).
Definition set_waking (k : Z) (g : WaitGroup) : WaitGroup :=
  mkWG (wg_n g) k (taskWaiters g) (threadWaiter g) (blockedThreads g) (wg_next g) (wg_words g).
Definition set_taskWaiters (h : Z) (g : WaitGroup) : WaitGroup :=
  mkWG (wg_n g) (wg_waking g) h (threadWaiter g) (blockedThreads g) (wg_next g) (wg_words g).
Definition set_blocked (l : list Z) (g : WaitGroup) : WaitGroup :=
  mkWG (wg_n g) (wg_waking g) (taskWaiters g) (threadWaiter g) l (wg_next g) (wg_words g).
Definition set_next (m : gmap Z Z) (g : WaitGroup) : WaitGroup :=
  mkWG (wg_n g) (wg_waking g) (taskWaiters g) (threadWaiter g) (blockedThreads g) m (wg_words g).

Definition KickWaitWord (w : Z) (g : WaitGroup) : WaitGroup :=
  mkWG (wg_n g) (wg_waking g) (taskWaiters g) (threadWaiter g) (blockedThreads g) (wg_next g)
    (<[w := kWaitKicked]> (wg_words g)).

(** [WakeList]: the tasks woken, in order.  [fuel] bounds the number of nodes. *)
Fixpoint WakeList (fuel : nat) (head : Z) (g : WaitGroup) : option (list Z * WaitGroup) :=
  if head =? 0 then Some ([], g)
  else
    match fuel with
    | O => None
    | S fuel' =>
        let next := next_of (wg_next g) head in
        '(ws, g) ← WakeList fuel' next (set_next (<[head := 0]> (wg_next g)) g);
        Some (head :: ws, g)
    end.

Definition WakeAllDirect (fuel : nat) (g : WaitGroup) : option (list Z * WaitGroup) :=
  let head := taskWaiters g in
  let g := set_taskWaiters 0 g in
  if head =? 0 then Some ([], g)
  else WakeList fuel head (set_wn (clear_waiter (wg_n g)) g).

Definition AddWaiter (fuel : nat) (t : Z) (g : WaitGroup) : option (list Z * WaitGroup) :=
  let g := set_next (<[t := taskWaiters g]> (wg_next g)) g in
  let g := set_taskWaiters t g in
  let old := wg_n g in
  let g := set_wn (or_waiter old) g in
  if count_of old =? 0 then WakeAllDirect fuel g else Some ([], g).

Definition DoneBegin (g : WaitGroup) : bool * WaitGroup :=
  let g := set_waking (wg_waking g + 1) g in
  let old := wg_n g in
  let g := set_wn (old - 1) g in
  if (count_of old =? 1) && has_waiter old then (true, g)
  else (false, set_waking (wg_waking g - 1) g).

Definition WakeAll (fuel : nat) (releaseMark : bool) (g : WaitGroup) : option (list Z * WaitGroup) :=
  let threads := blockedThreads g in
  let g := set_blocked [] g in
  let mainWord := threadWaiter g in
  let taskHead := taskWaiters g in
  let g := set_taskWaiters 0 g in
  let g := set_wn (clear_waiter (wg_n g)) g in
  let g := if releaseMark then set_waking (wg_waking g - 1) g else g in
  let g := foldl (λ g w, KickWaitWord w g) g threads in
  let g := if mainWord =? 0 then g else KickWaitWord mainWord g in
  WakeList fuel taskHead g.

Definition Done (fuel : nat) (g : WaitGroup) : option (list Z * WaitGroup) :=
  match DoneBegin g with
  | (true, g) => WakeAll fuel true g
  | (false, g) => Some ([], g)
  end.

(** ** Concurrent execution

    One program counter per thread.  [waiters] is the list reached from [taskWaiters]
    through [waitNext]: a push is a compare-exchange that puts one task in front, a wake
    takes all of it. *)

Inductive wpc :=
| WIdle
(* Done *)
| DMarked                        (* the mark is set, the count not yet decremented *)
| DUnmark                        (* decremented, nothing to wake: drop the mark *)
| DLock                          (* WakeAll(true): before the lock *)
| DTake                          (* lock held *)
| DClear (ts h : list Z)         (* everything taken; clear the waiter bit *)
| DRelease (ts h : list Z)       (* drop the mark *)
| DUnlock (ts h : list Z)
| DWake (ts h : list Z)          (* only local copies: kick the words, wake the tasks *)
(* AddWaiter *)
| AOr (t : Z)                    (* t is on the list; set the bit *)
| ADirect                        (* the count was zero: WakeAllDirect *)
| AClear (h : list Z)
(* BlockThread *)
| BLock (w : Z)
| BOr (w : Z)
| BPush (w : Z)
| BUnlock (w : Z) (wait : bool)
| BWait (w : Z)
| BCheck (w : Z)
(* Settle *)
| SSpin | SLock | SHeld | SDone.

(** [g_todo]: the [Done] calls still to come; [g_reg], [g_woken]: the registrations and
    wakes so far. *)
Record gstate := mkG {
  g_n : Z; g_waking : Z; g_mtx : option nat; g_waiters : list Z; g_blocked : list Z;
  g_main : list Z; g_words : gmap Z Z; g_pcs : gmap nat wpc;
  g_todo : Z; g_reg : list Z; g_woken : list Z }.

Definition at_pc (i : nat) (p : wpc) (s : gstate) : gstate :=
  mkG (g_n s) (g_waking s) (g_mtx s) (g_waiters s) (g_blocked s) (g_main s) (g_words s)
    (<[i := p]> (g_pcs s)) (g_todo s) (g_reg s) (g_woken s).
Definition with_n (n : Z) (s : gstate) : gstate :=
  mkG n (g_waking s) (g_mtx s) (g_waiters s) (g_blocked s) (g_main s) (g_words s)
    (g_pcs s) (g_todo s) (g_reg s) (g_woken s).
Definition with_waking (k : Z) (s : gstate) : gstate :=
  mkG (g_n s) k (g_mtx s) (g_waiters s) (g_blocked s) (g_main s) (g_words s)
    (g_pcs s) (g_todo s) (g_reg s) (g_woken s).
Definition with_mtx (m : option nat) (s : gstate) : gstate :=
  mkG (g_n s) (g_waking s) m (g_waiters s) (g_blocked s) (g_main s) (g_words s)
    (g_pcs s) (g_todo s) (g_reg s) (g_woken s).
Definition with_lists (l b : list Z) (s : gstate) : gstate :=
  mkG (g_n s) (g_waking s) (g_mtx s) l b (g_main s) (g_words s)
    (g_pcs s) (g_todo s) (g_reg s) (g_woken s).
Definition with_words (m : gmap Z Z) (s : gstate) : gstate :=
  mkG (g_n s) (g_waking s) (g_mtx s) (g_waiters s) (g_blocked s) (g_main s) m
    (g_pcs s) (g_todo s) (g_reg s) (g_woken s).
Definition with_todo (k : Z) (s : gstate) : gstate :=
  mkG (g_n s) (g_waking s) (g_mtx s) (g_waiters s) (g_blocked s) (g_main s) (g_words s)
    (g_pcs s) k (g_reg s) (g_woken s).
Definition with_log (r k : list Z) (s : gstate) : gstate :=
  mkG (g_n s) (g_waking s) (g_mtx s) (g_waiters s) (g_blocked s) (g_main s) (g_words s)
    (g_pcs s) (g_todo s) r k.

(** The word a blocking thread owns (a local of [BlockThread]). *)
Definition own_word (p : wpc) : list Z :=
  match p with
  | BLock w | BOr w | BPush w | BUnlock w _ | BWait w | BCheck w => [w]
  | _ => []
  end.

Inductive done_step (i : nat) (s : gstate) : gstate → Prop :=
| d_mark :
    g_pcs s !! i = Some WIdle → (0 < g_todo s) →
    done_step i s (at_pc i DMarked (with_waking (g_waking s + 1) (with_todo (g_todo s - 1) s)))
| d_sub :
    g_pcs s !! i = Some DMarked →
    done_step i s
      (at_pc i (if (count_of (g_n s) =? 1) && has_waiter (g_n s) then DLock else DUnmark)
         (with_n (g_n s - 1) s))
| d_unmark :
    g_pcs s !! i = Some DUnmark →
    done_step i s (at_pc i WIdle (with_waking (g_waking s - 1) s))
| d_lock :
    g_pcs s !! i = Some DLock → g_mtx s = None →
    done_step i s (at_pc i DTake (with_mtx (Some i) s))
| d_take :
    g_pcs s !! i = Some DTake →
    done_step i s
      (at_pc i (DClear (g_blocked s ++ g_main s) (g_waiters s)) (with_lists [] [] s))
| d_clear ts h :
    g_pcs s !! i = Some (DClear ts h) →
    done_step i s (at_pc i (DRelease ts h) (with_n (clear_waiter (g_n s)) s))
| d_release ts h :
    g_pcs s !! i = Some (DRelease ts h) →
    done_step i s (at_pc i (DUnlock ts h) (with_waking (g_waking s - 1) s))
| d_unlock ts h :
    g_pcs s !! i = Some (DUnlock ts h) →
    done_step i s (at_pc i (DWake ts h) (with_mtx None s))
| d_kick w ts h :
    g_pcs s !! i = Some (DWake (w :: ts) h) →
    done_step i s (at_pc i (DWake ts h) (with_words (<[w := kWaitKicked]> (g_words s)) s))
| d_wake t h :
    g_pcs s !! i = Some (DWake [] (t :: h)) →
    done_step i s (at_pc i (DWake [] h) (with_log (g_reg s) (g_woken s ++ [t]) s))
| d_end :
    g_pcs s !! i = Some (DWake [] []) →
    done_step i s (at_pc i WIdle s).

Inductive add_step (i : nat) (s : gstate) : gstate → Prop :=
| a_push t :
    g_pcs s !! i = Some WIdle →
    add_step i s
      (at_pc i (AOr t) (with_lists (t :: g_waiters s) (g_blocked s) (with_log (g_reg s ++ [t]) (g_woken s) s)))
| a_or t :
    g_pcs s !! i = Some (AOr t) →
    add_step i s
      (at_pc i (if count_of (g_n s) =? 0 then ADirect else WIdle) (with_n (or_waiter (g_n s)) s))
| a_none :
    g_pcs s !! i = Some ADirect → g_waiters s = [] →
    add_step i s (at_pc i WIdle s)
| a_take :
    g_pcs s !! i = Some ADirect → g_waiters s ≠ [] →
    add_step i s (at_pc i (AClear (g_waiters s)) (with_lists [] (g_blocked s) s))
| a_clear h :
    g_pcs s !! i = Some (AClear h) →
    add_step i s (at_pc i (DWake [] h) (with_n (clear_waiter (g_n s)) s)).

Inductive block_step (i : nat) (s : gstate) : gstate → Prop :=
| b_start w :
    g_pcs s !! i = Some WIdle → w ∉ gather own_word (g_pcs s) →
    block_step i s (at_pc i (BLock w) (with_words (<[w := kWaitWaiting]> (g_words s)) s))
| b_lock w :
    g_pcs s !! i = Some (BLock w) → g_mtx s = None →
    block_step i s (at_pc i (BOr w) (with_mtx (Some i) s))
| b_or w :
    g_pcs s !! i = Some (BOr w) →
    block_step i s
      (at_pc i (if count_of (g_n s) =? 0 then BUnlock w false else BPush w) (with_n (or_waiter (g_n s)) s))
| b_push w :
    g_pcs s !! i = Some (BPush w) →
    block_step i s (at_pc i (BUnlock w true) (with_lists (g_waiters s) (g_blocked s ++ [w]) s))
| b_unlock w wait :
    g_pcs s !! i = Some (BUnlock w wait) →
    block_step i s (at_pc i (if wait then BWait w else SSpin) (with_mtx None s))
| b_wake w :
    g_pcs s !! i = Some (BWait w) → g_words s !! w ≠ Some kWaitWaiting →
    block_step i s (at_pc i (BCheck w) s)
| b_check w :
    g_pcs s !! i = Some (BCheck w) →
    block_step i s
      (if count_of (g_n s) =? 0 then at_pc i SSpin s
       else at_pc i (BLock w) (with_words (<[w := kWaitWaiting]> (g_words s)) s))
| b_settle :
    g_pcs s !! i = Some WIdle → count_of (g_n s) = 0 →
    block_step i s (at_pc i SSpin s)
| b_spin :
    g_pcs s !! i = Some SSpin → g_waking s = 0 →
    block_step i s (at_pc i SLock s)
| b_slock :
    g_pcs s !! i = Some SLock → g_mtx s = None →
    block_step i s (at_pc i SHeld (with_mtx (Some i) s))
| b_sunlock :
    g_pcs s !! i = Some SHeld →
    block_step i s (at_pc i SDone (with_mtx None s))
(* the caller of the wait goes on; it may use the group again *)
| b_return :
    g_pcs s !! i = Some SDone →
    block_step i s (at_pc i WIdle s).

(** In the middle of an operation that has seen the count at zero. *)
Definition late (p : wpc) : bool :=
  match p with
  | DLock | DTake | DClear _ _ | DRelease _ _ | DUnlock _ _ | ADirect | AClear _
  | BUnlock _ false | SSpin | SLock | SHeld | SDone => true
  | _ => false
  end.

(** Tasks are added to the group at any time ([RunCounted]).  With [any] false nothing is added
    while an operation that has seen the count at zero is in progress: the group is used again
    only after its last round is over.  (While the count is positive there is no such operation.) *)
Inductive gstep (any : bool) (s : gstate) : gstate → Prop :=
| g_done i s' : done_step i s s' → gstep any s s'
| g_wait i s' : add_step i s s' → gstep any s s'
| g_block i s' : block_step i s s' → gstep any s s'
| g_add k :
    any = true ∨ num late (g_pcs s) = 0 → (0 ≤ k) → (count_of (g_n s) + k < WAITER_BIT) →
    gstep any s (with_todo (g_todo s + k) (with_n (g_n s + k) s))
| g_setmain l : gstep any s (mkG (g_n s) (g_waking s) (g_mtx s) (g_waiters s) (g_blocked s) l (g_words s)
    (g_pcs s) (g_todo s) (g_reg s) (g_woken s)).

(** [k] tasks to wait for, any number of threads, nobody waiting yet. *)
Definition ginit (s : gstate) : Prop :=
  ∃ k pcs m, (0 ≤ k < WAITER_BIT) ∧ (∀ i p, pcs !! i = Some p → p = WIdle) ∧
    s = mkG k 0 None [] [] [] m pcs k [] [].

(** ** The counter word as a count and a bit *)

Definition word (c : Z) (b : bool) : Z := c + (if b then WAITER_BIT else 0).

Lemma land_waiter c : (0 ≤ c < WAITER_BIT) → Z.land c WAITER_BIT = 0.
Proof.
  intros Hc. apply Z.bits_inj'. intros i Hi. rewrite Z.land_spec, Z.bits_0. destruct (decide (i < 30)).
  - rewrite (testbit_aligned WAITER_BIT 30) by done. by rewrite andb_false_r.
  - by rewrite (testbit_small c 30) by (unfold WAITER_BIT in *; lia).
Qed.

Lemma word_lor c b : (0 ≤ c < WAITER_BIT) → word c b = Z.lor (if b then WAITER_BIT else 0) c.
Proof.
  intros Hc. unfold word. destruct b; [|by rewrite Z.add_0_r].
  rewrite Z.add_nocarry_lxor, Z.lxor_lor by (by apply land_waiter). apply Z.lor_comm.
Qed.

Lemma word_count c b : (0 ≤ c < WAITER_BIT) → count_of (word c b) = c.
Proof.
  intros Hc. rewrite word_lor by done. unfold count_of, COUNT_MASK.
  change WAITER_BIT with (2 ^ 30) in *. apply tag_low; [done|done|by destruct b].
Qed.

Lemma word_bit c b : (0 ≤ c < WAITER_BIT) → has_waiter (word c b) = b.
Proof.
  intros Hc. rewrite word_lor by done. unfold has_waiter.
  rewrite Z.land_lor_distr_l, (land_waiter c), Z.lor_0_r by done. by destruct b.
Qed.

Lemma word_or c b : (0 ≤ c < WAITER_BIT) → or_waiter (word c b) = word c true.
Proof.
  intros Hc. rewrite !word_lor by done. unfold or_waiter.
  rewrite <- Z.lor_assoc, (Z.lor_comm c), Z.lor_assoc. by destruct b.
Qed.

Lemma word_clear c b : (0 ≤ c < WAITER_BIT) → clear_waiter (word c b) = word c false.
Proof.
  intros Hc. rewrite !word_lor by done. unfold clear_waiter. rewrite Z.lor_0_l.
  apply Z.bits_inj'. intros i Hi. rewrite Z.ldiff_spec, Z.lor_spec.
  destruct (decide (i = 30)) as [->|Hne].
  - rewrite (testbit_small c 30) by (unfold WAITER_BIT in *; lia). by destruct b.
  - assert (Z.testbit WAITER_BIT i = false) as Hw.
    { change WAITER_BIT with (2 ^ 30). apply Z.pow2_bits_false. lia. }
    rewrite Hw, andb_true_r. by destruct b; rewrite ?Hw, ?Z.bits_0.
Qed.

(** ** Invariant *)

Definition premark (p : wpc) : bool := match p with DMarked => true | _ => false end.
(** Between the increment and the decrement of [waking]. *)
Definition marked (p : wpc) : bool :=
  match p with
  | DMarked | DUnmark | DLock | DTake | DClear _ _ | DRelease _ _ => true
  | _ => false
  end.
Definition holds (p : wpc) : bool :=
  match p with
  | DTake | DClear _ _ | DRelease _ _ | DUnlock _ _ | BOr _ | BPush _ | BUnlock _ _ | SHeld => true
  | _ => false
  end.
(** Will take the whole waiter list / the blocked words as well. *)
Definition taker (p : wpc) : bool :=
  match p with DLock | DTake | AOr _ | ADirect => true | _ => false end.
Definition btaker (p : wpc) : bool := match p with DLock | DTake => true | _ => false end.
Definition registering (p : wpc) : bool := match p with AOr _ => true | _ => false end.
Definition pushing (p : wpc) : bool := match p with BPush _ => true | _ => false end.
Definition settled (p : wpc) : bool := match p with SLock | SHeld | SDone => true | _ => false end.
Definition sdone (p : wpc) : bool := match p with SDone => true | _ => false end.
Definition unlocking (p : wpc) : bool := match p with DUnlock _ _ => true | _ => false end.
(** Still touches the group on behalf of a [Done]. *)
Definition touches (p : wpc) : bool := marked p || unlocking p.

(** Tasks and words in a waker's hands. *)
Definition hand (p : wpc) : list Z :=
  match p with DClear _ h | DRelease _ h | DUnlock _ h | DWake _ h | AClear h => h | _ => [] end.
Definition kicks (p : wpc) : list Z :=
  match p with DClear ts _ | DRelease ts _ | DUnlock ts _ | DWake ts _ => ts | _ => [] end.

Definition g_count (s : gstate) : Z := g_todo s + num premark (g_pcs s).

Definition len (l : list Z) : Z := Z.of_nat (length l).

Record ginv (s : gstate) (b : bool) : Prop := {
  gi_n : g_n s = word (g_count s) b;
  gi_todo : 0 ≤ g_todo s;
  gi_range : g_count s < WAITER_BIT;
  gi_waking : g_waking s = num marked (g_pcs s);
  gi_mtx : num holds (g_pcs s) = match g_mtx s with Some _ => 1 | None => 0 end;
  gi_late : 0 < num late (g_pcs s) → g_count s = 0;
  (* while tasks are outstanding, whoever waits has set the bit or is about to *)
  gi_bit : 0 < g_count s → Z.b2z b = 0 →
    (len (g_waiters s) = 0 ∨ 0 < num registering (g_pcs s)) ∧
    len (g_blocked s) = 0 ∧ num pushing (g_pcs s) = 0;
  (* once none is, whoever still waits is about to be taken *)
  gi_taker : g_count s = 0 → len (g_waiters s) = 0 ∨ 0 < num taker (g_pcs s);
  gi_btaker : g_count s = 0 →
    (len (g_blocked s) = 0 ∧ num pushing (g_pcs s) = 0) ∨ 0 < num btaker (g_pcs s);
  gi_settled : 0 < num settled (g_pcs s) → num marked (g_pcs s) = 0;
  gi_sdone : 0 < num sdone (g_pcs s) → num unlocking (g_pcs s) = 0;
  gi_log : g_reg s ≡ₚ g_woken s ++ g_waiters s ++ gather hand (g_pcs s) }.

(** The counts of program counters: all are non-negative, those the current one [p]
    belongs to are positive, and the counts after a step of thread [i]. *)
Ltac gfacts Hi :=
  match type of Hi with ?m !! _ = Some ?p =>
    pose proof (num_nonneg premark m); pose proof (num_nonneg marked m);
    pose proof (num_nonneg holds m); pose proof (num_nonneg late m);
    pose proof (num_nonneg taker m); pose proof (num_nonneg btaker m);
    pose proof (num_nonneg registering m); pose proof (num_nonneg pushing m);
    pose proof (num_nonneg settled m); pose proof (num_nonneg sdone m);
    pose proof (num_nonneg unlocking m);
    pose proof (num_le settled late m ltac:(by intros []));
    pose proof (num_le sdone settled m ltac:(by intros []));
    pose proof (num_le registering taker m ltac:(by intros []));
    try pose proof (num_pos premark m _ p Hi eq_refl);
    try pose proof (num_pos marked m _ p Hi eq_refl);
    try pose proof (num_pos holds m _ p Hi eq_refl);
    try pose proof (num_pos late m _ p Hi eq_refl);
    try pose proof (num_pos taker m _ p Hi eq_refl);
    try pose proof (num_pos settled m _ p Hi eq_refl);
    try pose proof (num_pos unlocking m _ p Hi eq_refl);
    try pose proof (num_pos pushing m _ p Hi eq_refl)
  end.

Ltac nums Hi :=
  unfold g_count in *; cbn -[num word WAITER_BIT len] in *;
  repeat match goal with
  | |- context [num ?P (<[_ := ?q]> _)] => rewrite (num_insert P _ _ _ q Hi)
  end;
  cbn [Z.b2z premark marked holds late taker btaker registering pushing settled sdone unlocking] in *.

(** Preservation by one step of thread [i]: arithmetic on the counts, and the log. *)
Ltac gstep_inv Hinv Hp :=
  gfacts Hp; destruct Hinv as [Hn ? ? Hwk Hmtx ? Hbit ? ? ? ? Hlog];
  constructor; nums Hp;
  try lia; try (rewrite ?Hn; unfold word; lia);
  try (repeat match goal with H : g_mtx _ = None |- _ => rewrite H in * end; lia);
  try (match type of Hmtx with context [g_mtx ?x] => destruct (g_mtx x) end; lia); try (f_equal; lia);
  try (unfold len in *; simpl length in *; lia);
  try (rewrite gather_insert, Hlog, (gather_delete hand _ _ _ Hp); simpl; solve_Permutation).

Lemma ginv_count_range s b : ginv s b → 0 ≤ g_count s < WAITER_BIT.
Proof.
  intros Hi. pose proof (gi_todo _ _ Hi). pose proof (gi_range _ _ Hi).
  pose proof (num_nonneg premark (g_pcs s)). unfold g_count in *. lia.
Qed.

(** The lock holder is the only thread at a program counter that needs the lock. *)
Lemma holder_alone s b i p P :
  ginv s b → g_pcs s !! i = Some p → holds p = true → (∀ q, P q = true → holds q = true) →
  P p = false → num P (g_pcs s) = 0.
Proof.
  intros Hi Hp Hh HP Hf. eapply (num_unique P holds); [|exact Hp|done|done|done].
  rewrite (gi_mtx _ _ Hi). destruct (g_mtx s); lia.
Qed.

Lemma done_step_inv s b i s' : ginv s b → done_step i s s' → ∃ b', ginv s' b'.
Proof.
  intros Hi Hst. pose proof (ginv_count_range _ _ Hi) as Hr.
  destruct Hst as [Hp Ht|Hp|Hp|Hp Hm|Hp|ts h Hp|ts h Hp|ts h Hp|w ts h Hp|t h Hp|Hp];
    try (exists b; gstep_inv Hi Hp; fail).
  - exists b. rewrite (gi_n _ _ Hi), word_count, word_bit by done.
    destruct (g_count s =? 1) eqn:H1, b; simpl; gstep_inv Hi Hp.
  - exists b.
    pose proof (holder_alone _ _ _ _ pushing Hi Hp eq_refl ltac:(by intros []) eq_refl).
    gstep_inv Hi Hp.
  - exists false. rewrite (gi_n _ _ Hi), word_clear by done. gstep_inv Hi Hp.
Qed.

Lemma add_step_inv s b i s' : ginv s b → add_step i s s' → ∃ b', ginv s' b'.
Proof.
  intros Hi Hst. pose proof (ginv_count_range _ _ Hi) as Hr.
  destruct Hst as [t Hp|t Hp|Hp Hw|Hp Hw|h Hp]; try (exists b; gstep_inv Hi Hp; fail).
  - exists true. rewrite (gi_n _ _ Hi), word_count, word_or by done.
    destruct (g_count s =? 0) eqn:H0; gstep_inv Hi Hp.
  - exists b. assert (len (g_waiters s) = 0) by (by rewrite Hw). gstep_inv Hi Hp.
  - exists false. rewrite (gi_n _ _ Hi), word_clear by done. gstep_inv Hi Hp.
Qed.

Lemma block_step_inv s b i s' : ginv s b → block_step i s s' → ∃ b', ginv s' b'.
Proof.
  intros Hi Hst. pose proof (ginv_count_range _ _ Hi) as Hr.
  destruct Hst as [w Hp Hw|w Hp Hm|w Hp|w Hp|w wait Hp|w Hp Hw|w Hp|Hp Hc|Hp Hk|Hp Hm|Hp|Hp];
    try (exists b; gstep_inv Hi Hp; fail).
  - exists true. rewrite (gi_n _ _ Hi), word_count, word_or by done.
    destruct (g_count s =? 0) eqn:H0; gstep_inv Hi Hp.
  - exists b. destruct wait; gstep_inv Hi Hp.
  - exists b. rewrite (gi_n _ _ Hi), word_count by done.
    destruct (g_count s =? 0) eqn:H0; gstep_inv Hi Hp.
  - exists b. rewrite (gi_n _ _ Hi), word_count in Hc by done. gstep_inv Hi Hp.
  - exists b.
    pose proof (holder_alone _ _ _ _ unlocking Hi Hp eq_refl ltac:(by intros []) eq_refl).
    gstep_inv Hi Hp.
Qed.

(** Whoever will take the list is registering or has seen zero. *)
Lemma wake_late m : num taker m ≤ num registering m + num late m.
Proof.
  unfold num, gather. induction ((map_to_list m).*2) as [|p l IH]; [done|]. rewrite !fmap_cons. simpl mjoin. rewrite !length_app. destruct p; simpl length; lia.
Qed.

Lemma gstep_inv_all s b s' : ginv s b → gstep false s s' → ∃ b', ginv s' b'.
Proof.
  intros Hi [i s1 H|i s1 H|i s1 H|k Ht Hk Hr|l].
  - by eapply done_step_inv.
  - by eapply add_step_inv.
  - by eapply block_step_inv.
  - destruct Ht as [?|Ht]; [done|]. pose proof (ginv_count_range _ _ Hi) as Hc. rewrite (gi_n _ _ Hi), word_count in Hr by done.
    exists b. pose proof (num_nonneg premark (g_pcs s)). pose proof (wake_late (g_pcs s)). pose proof (num_le settled late (g_pcs s) ltac:(by intros [])).
    pose proof (num_le sdone settled (g_pcs s) ltac:(by intros [])). pose proof (num_le btaker late (g_pcs s) ltac:(by intros [])). pose proof (num_nonneg btaker (g_pcs s)).
    destruct Hi as [Hn ? ? ? ? ? ? ? ? ? ? ?]. constructor; unfold g_count in *; cbn -[num word WAITER_BIT len] in *; try lia; try done.
    rewrite Hn. unfold word. lia.
  - exists b. by destruct Hi; constructor.
Qed.

(** ** The wait words *)

(** Blocked on word [w], or about to be. *)
Definition waits (p : wpc) : option Z :=
  match p with BUnlock w true | BWait w => Some w | _ => None end.

Record wordinv (s : gstate) : Prop := {
  wi_own : NoDup (gather own_word (g_pcs s));
  wi_cover i p w : g_pcs s !! i = Some p → waits p = Some w → g_words s !! w = Some kWaitWaiting →
    w ∈ g_blocked s ++ gather kicks (g_pcs s) }.

Lemma waits_own p w : waits p = Some w → own_word p = [w].
Proof. destruct p; simpl; try done; [case_match|]; congruence. Qed.

(** A step of thread [i] from [p] to [q]: it sets only its own word to waiting, and keeps
    every word still waiting among the blocked ones or those about to be kicked. *)
Lemma word_step s i p q n k m l b' mn ws td rg wk :
  wordinv s → g_pcs s !! i = Some p →
  own_word q = own_word p ∨ own_word q = [] ∨
    (own_word p = [] ∧ ∃ w, own_word q = [w] ∧ w ∉ gather own_word (g_pcs s)) →
  (∀ w, ws !! w = Some kWaitWaiting → own_word q = [w] ∨ g_words s !! w = Some kWaitWaiting) →
  (∀ w, ws !! w = Some kWaitWaiting → w ∈ g_blocked s ++ kicks p → w ∈ b' ++ kicks q) →
  (∀ w, waits q = Some w → ws !! w = Some kWaitWaiting →
     w ∈ b' ++ kicks q ∨ (waits p = Some w ∧ g_words s !! w = Some kWaitWaiting)) →
  wordinv (mkG n k m l b' mn ws (<[i := q]> (g_pcs s)) td rg wk).
Proof.
  intros [Hnd Hcov] Hp Hown Hset Hkeep Hself.
  assert (Hmove : ∀ w, ws !! w = Some kWaitWaiting → w ∈ g_blocked s ++ gather kicks (g_pcs s) →
    w ∈ b' ++ gather kicks (<[i := q]> (g_pcs s))).
  { intros w Hw Hin. rewrite gather_insert. rewrite (gather_delete kicks _ _ _ Hp) in Hin.
    specialize (Hkeep w Hw). set_solver. }
  constructor; simpl.
  - rewrite (gather_delete own_word _ _ _ Hp) in Hnd. rewrite gather_insert.
    destruct Hown as [->|[->|(H1 & w & -> & Hw)]]; [done| |].
    + apply NoDup_app in Hnd as (_ & _ & ?). done.
    + rewrite H1 in Hnd. apply NoDup_cons. split; [|done]. intros Hin. apply Hw.
      rewrite (gather_delete own_word _ _ _ Hp). set_solver.
  - intros j pj w Hj Hwt Hws. destruct (decide (i = j)) as [<-|Hne].
    + rewrite lookup_insert_eq in Hj. injection Hj as <-.
      destruct (Hself w Hwt Hws) as [Hin|[H1 H2]].
      * rewrite gather_insert. set_solver.
      * apply Hmove; [done|]. by eapply Hcov.
    + rewrite lookup_insert_ne in Hj by done. apply Hmove; [done|]. eapply Hcov; [done|done|].
      destruct (Hset w Hws) as [Hq|]; [|done]. exfalso.
      assert (Hwj : w ∈ gather own_word (delete i (g_pcs s))).
      { apply elem_of_gather. exists j, pj. rewrite lookup_delete_ne, (waits_own _ _ Hwt) by done.
        set_solver. }
      destruct Hown as [Ho|[Ho|(_ & w' & Ho & Hw')]]; [|congruence|].
      * rewrite (gather_delete own_word _ _ _ Hp), <- Ho, Hq in Hnd.
        apply NoDup_cons in Hnd as [Hnd _]. done.
      * apply Hw'. rewrite (gather_delete own_word _ _ _ Hp). assert (w' = w) as -> by congruence. set_solver.
Qed.

(** The write of a blocking thread to its own word, and a kick. *)
Lemma word_set_own (ws : gmap Z Z) w w' :
  <[w := kWaitWaiting]> ws !! w' = Some kWaitWaiting → [w] = [w'] ∨ ws !! w' = Some kWaitWaiting.
Proof.
  destruct (decide (w = w')) as [->|Hne]; [by left|]. rewrite lookup_insert_ne by done. by right.
Qed.

Lemma word_kick (ws : gmap Z Z) w w' :
  <[w := kWaitKicked]> ws !! w' = Some kWaitWaiting → w ≠ w' ∧ ws !! w' = Some kWaitWaiting.
Proof.
  destruct (decide (w = w')) as [->|Hne]; [by rewrite lookup_insert_eq|].
  by rewrite lookup_insert_ne.
Qed.

Ltac wstep Hp :=
  eapply (word_step _ _ _ _ _ _ _ _ _ _ _ _ _ _ ltac:(eassumption) Hp); simpl;
  [by auto|by auto|set_solver|by auto].

Lemma done_step_words s i s' : wordinv s → done_step i s s' → wordinv s'.
Proof.
  intros Hi Hst.
  destruct Hst as [Hp Ht|Hp|Hp|Hp Hm|Hp|ts h Hp|ts h Hp|ts h Hp|w ts h Hp|t h Hp|Hp].
  - wstep Hp.
  - destruct (_ && _); wstep Hp.
  - wstep Hp.
  - wstep Hp.
  - wstep Hp.
  - wstep Hp.
  - wstep Hp.
  - wstep Hp.
  - eapply (word_step _ _ _ _ _ _ _ _ _ _ _ _ _ _ Hi Hp); simpl; [by auto| | |done].
    + intros w' [_ ?]%word_kick. by right.
    + intros w' [? _]%word_kick. set_solver.
  - wstep Hp.
  - wstep Hp.
Qed.

Lemma add_step_words s i s' : wordinv s → add_step i s s' → wordinv s'.
Proof.
  intros Hi Hst. destruct Hst as [t Hp|t Hp|Hp Hw|Hp Hw|h Hp]; [wstep Hp| |wstep Hp|wstep Hp|wstep Hp].
  destruct (_ =? 0); wstep Hp.
Qed.

Lemma block_step_words s i s' : wordinv s → block_step i s s' → wordinv s'.
Proof.
  intros Hi Hst.
  destruct Hst as [w Hp Hw|w Hp Hm|w Hp|w Hp|w wait Hp|w Hp Hw|w Hp|Hp Hc|Hp Hk|Hp Hm|Hp|Hp].
  - eapply (word_step _ _ _ _ _ _ _ _ _ _ _ _ _ _ Hi Hp); simpl; [by eauto 10| |set_solver|done].
    intros w'. apply word_set_own.
  - wstep Hp.
  - destruct (_ =? 0); wstep Hp.
  - eapply (word_step _ _ _ _ _ _ _ _ _ _ _ _ _ _ Hi Hp); simpl; [by auto|by auto|set_solver|].
    intros w' [= <-] _. left. set_solver.
  - destruct wait; wstep Hp.
  - wstep Hp.
  - destruct (_ =? 0); [wstep Hp|].
    eapply (word_step _ _ _ _ _ _ _ _ _ _ _ _ _ _ Hi Hp); simpl; [by auto| |set_solver|done].
    intros w'. apply word_set_own.
  - wstep Hp.
  - wstep Hp.
  - wstep Hp.
  - wstep Hp.
  - wstep Hp.
Qed.

Lemma gstep_words s s' : wordinv s → gstep false s s' → wordinv s'.
Proof.
  intros Hi [i s1 H|i s1 H|i s1 H|k Ht Hk Hr|l].
  - by eapply done_step_words.
  - by eapply add_step_words.
  - by eapply block_step_words.
  - by destruct Hi; constructor.
  - by destruct Hi; constructor.
Qed.

Lemma gather_idle {B} (f : wpc → list B) pcs :
  f WIdle = [] → (∀ i p, pcs !! i = Some p → p = WIdle) → gather f pcs = [].
Proof.
  intros Hf Hp. destruct (gather f pcs) as [|x l] eqn:Hg; [done|].
  assert (Hx : x ∈ gather f pcs) by (rewrite Hg; set_solver).
  apply elem_of_gather in Hx as (i & p & Hi & Hx). rewrite (Hp _ _ Hi), Hf in Hx. set_solver.
Qed.

Lemma reachable_ginv s : reachable ginit (gstep false) s → (∃ b, ginv s b) ∧ wordinv s.
Proof.
  apply (reachable_ind ginit (gstep false) (λ s, (∃ b, ginv s b) ∧ wordinv s)).
  - intros ? (k & pcs & m & Hk & Hp & ->).
    assert (Hnum : ∀ P, P WIdle = false → num P pcs = 0).
    { intros P HP. apply num_none. intros i p Hi. by rewrite (Hp _ _ Hi). }
    split.
    + exists false. constructor; unfold g_count; cbn -[num word WAITER_BIT len];
        rewrite ?Hnum by done; unfold word, len; simpl length; try lia; try done.
      by rewrite (gather_idle hand).
    + constructor; simpl; [rewrite (gather_idle own_word) by done; constructor|].
      intros i p w Hi. by rewrite (Hp _ _ Hi).
  - intros s1 s2 [[b Hb] Hw] Hst. split; [by eapply gstep_inv_all|by eapply gstep_words].
Qed.

(** ** Theorems *)

(** Nobody is in the middle of an operation: idle, blocked, or gone. *)
Definition at_rest (p : wpc) : bool :=
  match p with WIdle | BWait _ | SDone => true | _ => false end.

(** C12: No wakeup is lost, for a group that is added to freely but never while an operation that
    has seen its count at zero is still in progress: whenever the count is zero and every
    operation in progress has finished, no task is left on the list, every registered task has
    been woken exactly as often as it registered, and no blocked thread's word still says
    waiting.  The group may be used for any number of rounds.  (Without the condition a wakeup can
    be lost: [waitgroup_reuse_loses_wakeup].) *)
Theorem waitgroup_no_lost_wakeup s :
  reachable ginit (gstep false) s → count_of (g_n s) = 0 →
  (∀ i p, g_pcs s !! i = Some p → at_rest p = true) →
  g_waiters s = [] ∧ g_blocked s = [] ∧ g_reg s ≡ₚ g_woken s ∧
  (∀ i w, g_pcs s !! i = Some (BWait w) → g_words s !! w ≠ Some kWaitWaiting).
Proof.
  intros [[b Hi] Hw]%reachable_ginv Hc Hrest.
  pose proof (ginv_count_range _ _ Hi) as Hr. rewrite (gi_n _ _ Hi), word_count in Hc by done.
  assert (Hnone : ∀ P, (∀ p, at_rest p = true → P p = false) → num P (g_pcs s) = 0).
  { intros P HP. apply num_none. eauto. }
  assert (Hgather : ∀ f : wpc → list Z, (∀ p, at_rest p = true → f p = []) → gather f (g_pcs s) = []).
  { intros f Hf. destruct (gather f (g_pcs s)) as [|x l] eqn:Hg; [done|].
    assert (Hx : x ∈ gather f (g_pcs s)) by (rewrite Hg; set_solver).
    apply elem_of_gather in Hx as (i & p & Hp & Hx). rewrite (Hf p) in Hx by eauto. set_solver. }
  pose proof (gi_taker _ _ Hi Hc) as Ht. rewrite (Hnone taker) in Ht by (by intros []).
  pose proof (gi_btaker _ _ Hi Hc) as Hb. rewrite (Hnone btaker) in Hb by (by intros []).
  assert (g_waiters s = []) as Hwt by (apply nil_length_inv; unfold len in Ht; lia).
  assert (g_blocked s = []) as Hbl by (apply nil_length_inv; unfold len in Hb; lia).
  pose proof (gi_log _ _ Hi) as Hlog. rewrite Hwt, (Hgather hand) in Hlog by (by intros []).
  split_and!; [done|done|by rewrite Hlog, !app_nil_r|].
  intros i w Hp Hws. pose proof (wi_cover _ Hw _ _ _ Hp eq_refl Hws) as Hin.
  rewrite Hbl, (Hgather kicks) in Hin by (by intros []). set_solver.
Qed.

(** Tasks registered are, at every instant, those woken, those on the list
    and those in the hands of a waker: none is lost, none is woken twice. *)
Theorem waitgroup_conservation s :
  reachable ginit (gstep false) s →
  g_reg s ≡ₚ g_woken s ++ g_waiters s ++ gather hand (g_pcs s).
Proof. intros [[b Hi] _]%reachable_ginv. apply (gi_log _ _ Hi). Qed.


(** ** The sequential operations *)

Lemma WakeList_spec fuel head g l :
  chain (wg_next g) head l → (length l ≤ fuel)%nat →
  ∃ m, WakeList fuel head g = Some (l, set_next m g).
Proof.
  intros Hc. pose proof (chain_NoDup _ _ _ Hc) as Hnd. unfold chain in Hc.
  revert head g l Hc Hnd. induction fuel as [|fuel IH]; intros head g l Hc Hnd Hf.
  - destruct l; [|simpl in Hf; lia]. simpl in Hc. subst head. exists (wg_next g). by destruct g.
  - destruct l as [|x l]; simpl in Hc.
    + subst head. exists (wg_next g). by destruct g.
    + destruct Hc as (-> & Hx & Hc). apply NoDup_cons in Hnd as [Hxl Hnd]. simpl.
      rewrite (proj2 (Z.eqb_neq _ _)) by done.
      destruct (IH (next_of (wg_next g) x) (set_next (<[x := 0]> (wg_next g)) g) l) as [m ->].
      * simpl. by apply lseg_insert.
      * done.
      * simpl in Hf. lia.
      * exists m. done.
Qed.

Lemma kick_all ws g :
  let g' := foldl (λ g w, KickWaitWord w g) g ws in
  wg_n g' = wg_n g ∧ wg_waking g' = wg_waking g ∧ taskWaiters g' = taskWaiters g ∧
  threadWaiter g' = threadWaiter g ∧ blockedThreads g' = blockedThreads g ∧ wg_next g' = wg_next g ∧
  (∀ w, w ∈ ws ∨ wg_words g !! w = Some kWaitKicked → wg_words g' !! w = Some kWaitKicked).
Proof.
  revert g. induction ws as [|x ws IH]; intros g; simpl.
  - split_and!; try done. intros w [Hw|Hw]; [by apply elem_of_nil in Hw|done].
  - destruct (IH (KickWaitWord x g)) as (-> & -> & -> & -> & -> & -> & Hk). split_and!; try done.
    intros w Hw. apply Hk. simpl. destruct (decide (x = w)) as [->|Hne].
    + right. by rewrite lookup_insert_eq.
    + rewrite lookup_insert_ne by done. set_solver.
Qed.

Lemma WakeAll_spec fuel g l :
  chain (wg_next g) (taskWaiters g) l → (length l ≤ fuel)%nat →
  ∃ g', WakeAll fuel true g = Some (l, g') ∧ wg_n g' = clear_waiter (wg_n g) ∧
    wg_waking g' = wg_waking g - 1 ∧ taskWaiters g' = 0 ∧ blockedThreads g' = [] ∧
    ∀ w, w ∈ blockedThreads g ∨ (w = threadWaiter g ∧ w ≠ 0) → wg_words g' !! w = Some kWaitKicked.
Proof.
  intros Hc Hf. unfold WakeAll. cbn [threadWaiter set_blocked taskWaiters]. set (g1 := set_waking _ _).
  destruct (kick_all (blockedThreads g) g1) as (H1 & H2 & H3 & H4 & H5 & H6 & H7).
  simpl in H1, H2, H3, H5, H6. set (g2 := foldl _ g1 _) in *.
  set (g3 := if threadWaiter g =? 0 then g2 else KickWaitWord (threadWaiter g) g2).
  assert (Hg3 : wg_n g3 = wg_n g2 ∧ wg_waking g3 = wg_waking g2 ∧ taskWaiters g3 = taskWaiters g2 ∧
    blockedThreads g3 = blockedThreads g2 ∧ wg_next g3 = wg_next g2 ∧
    (∀ w, w ∈ blockedThreads g ∨ (w = threadWaiter g ∧ w ≠ 0) → wg_words g3 !! w = Some kWaitKicked)).
  { unfold g3. destruct (threadWaiter g =? 0) eqn:Ht.
    - apply Z.eqb_eq in Ht. split_and!; try done. intros w [Hw|[-> Hne]]; [auto|done].
    - split_and!; try done. intros w Hw. simpl. destruct (decide (threadWaiter g = w)) as [->|Hne].
      + by rewrite lookup_insert_eq.
      + rewrite lookup_insert_ne by done. destruct Hw as [Hw|[-> _]]; [auto|done]. }
  destruct Hg3 as (E1 & E2 & E3 & E4 & E5 & E6).
  destruct (WakeList_spec fuel (taskWaiters g) g3 l) as [m Hm]; [by rewrite E5, H6|done|].
  exists (set_next m g3). split; [exact Hm|]. simpl. rewrite E1, E2, E3, E4. by split_and!.
Qed.

(** The last [Done] of a group with waiters wakes every task on the list, newest
    first, kicks every blocked thread's word and main's, and leaves the group empty, its
    count zero and its mark as it was. *)
Theorem last_done_wakes_all g l fuel :
  wg_n g = word 1 true → chain (wg_next g) (taskWaiters g) l → (length l ≤ fuel)%nat →
  ∃ g', Done fuel g = Some (l, g') ∧ wg_n g' = 0 ∧ wg_waking g' = wg_waking g ∧
    taskWaiters g' = 0 ∧ blockedThreads g' = [] ∧
    ∀ w, w ∈ blockedThreads g ∨ (w = threadWaiter g ∧ w ≠ 0) → wg_words g' !! w = Some kWaitKicked.
Proof.
  intros Hn Hc Hf. unfold Done, DoneBegin. cbn [wg_n set_waking]. rewrite Hn, word_count, word_bit by done.
  cbn [Z.eqb Pos.eqb andb].
  destruct (WakeAll_spec fuel (set_wn (word 1 true - 1) (set_waking (wg_waking g + 1) g)) l)
    as (g' & -> & H1 & H2 & H3 & H4 & H5); [done|done|].
  exists g'. simpl in H2. split_and!; [done|by rewrite H1|lia|done|done|done].
Qed.

(** ** Witnesses: one task to wait for, one waiter registered, one [Done] *)

Definition wg0 : gstate := mkG 1 0 None [] [] [] ∅ {[0%nat := WIdle; 1%nat := WIdle]} 1 [] [].

Lemma wg0_init : ginit wg0.
Proof.
  exists 1, {[0%nat := WIdle; 1%nat := WIdle]}, ∅. split; [by unfold WAITER_BIT; lia|]. split; [|done].
  intros i p Hi. destruct (decide (i = 0%nat)) as [->|]; [by vm_compute in Hi; injection Hi|].
  destruct (decide (i = 1%nat)) as [->|]; [by vm_compute in Hi; injection Hi|].
  by rewrite lookup_insert_ne, lookup_singleton_ne in Hi by done.
Qed.

(** Thread 1 registers task 48, thread 0 completes the group and wakes it, and thread 1
    then settles. *)
Definition wg_end : gstate :=
  mkG 0 0 None [] [] [] ∅ {[0%nat := WIdle; 1%nat := SDone]} 0 [48] [48].

Lemma wg_end_reachable : reachable ginit (gstep false) wg_end.
Proof.
  exists wg0. split; [apply wg0_init|].
  run_step g_wait (a_push 1%nat _ 48). run_step g_wait (a_or 1%nat).
  run_step g_done (d_mark 0%nat). run_step g_done (d_sub 0%nat). run_step g_done (d_lock 0%nat).
  run_step g_done (d_take 0%nat). run_step g_done (d_clear 0%nat). run_step g_done (d_release 0%nat).
  run_step g_done (d_unlock 0%nat). run_step g_done (d_wake 0%nat). run_step g_done (d_end 0%nat).
  run_step g_block (b_settle 1%nat). run_step g_block (b_spin 1%nat).
  run_step g_block (b_slock 1%nat). run_step g_block (b_sunlock 1%nat).
  vm_compute. apply rtc_refl.
Qed.

Lemma waitgroup_no_lost_wakeup_witness :
  g_waiters wg_end = [] ∧ g_blocked wg_end = [] ∧ g_reg wg_end ≡ₚ g_woken wg_end.
Proof.
  destruct (waitgroup_no_lost_wakeup wg_end wg_end_reachable eq_refl) as (H1 & H2 & H3 & _); [|by split_and!].
  intros i p Hi. destruct (decide (i = 0%nat)) as [->|]; [by vm_compute in Hi; injection Hi as <-|].
  destruct (decide (i = 1%nat)) as [->|]; [by vm_compute in Hi; injection Hi as <-|].
  simpl in Hi. by rewrite lookup_insert_ne, lookup_singleton_ne in Hi by done.
Defined.

Lemma waitgroup_conservation_witness :
  g_reg wg_end ≡ₚ g_woken wg_end ++ g_waiters wg_end ++ gather hand (g_pcs wg_end).
Proof. apply (waitgroup_conservation wg_end wg_end_reachable). Defined.


(** A group with two tasks on its list and one blocked thread. *)
Definition wg_two : WaitGroup :=
  mkWG (word 1 true) 0 32 0 [500] {[32 := 16; 16 := 0]} {[500 := kWaitWaiting]}.

Lemma last_done_wakes_all_witness :
  ∃ g', Done 2 wg_two = Some ([32; 16], g') ∧ wg_n g' = 0 ∧ wg_words g' !! 500 = Some kWaitKicked.
Proof.
  destruct (last_done_wakes_all wg_two [32; 16] 2 eq_refl) as (g' & H1 & H2 & _ & _ & _ & H3).
  - by vm_compute.
  - done.
  - exists g'. split_and!; [done|done|]. apply H3. left. set_solver.
Defined.

(** ** Adding to a group whose wake is in progress *)

(** Thread 1 waits on a group at zero and detaches the list to wake itself; the group is added to
    and thread 2 registers task 49 before thread 1 clears the bit; the [Done] of the new round
    then finds no bit. *)
Definition wg_idle : gstate := mkG 0 0 None [] [] [] ∅ {[0%nat := WIdle; 1%nat := WIdle; 2%nat := WIdle]} 0 [] [].
Definition wg_lost : gstate := mkG 0 0 None [49] [] [] ∅ {[0%nat := WIdle; 1%nat := WIdle; 2%nat := WIdle]} 0 [48; 49] [48].

Lemma wg_idle_rest (m : gmap nat wpc) i p : m = {[0%nat := WIdle; 1%nat := WIdle; 2%nat := WIdle]} → m !! i = Some p → p = WIdle.
Proof.
  intros -> Hi. destruct (decide (i = 0%nat)) as [->|]; [by vm_compute in Hi; injection Hi|].
  destruct (decide (i = 1%nat)) as [->|]; [by vm_compute in Hi; injection Hi|].
  destruct (decide (i = 2%nat)) as [->|]; [by vm_compute in Hi; injection Hi|].
  by rewrite !lookup_insert_ne, lookup_singleton_ne in Hi by done.
Qed.

(** [WakeAllDirect] and [WakeAll] clear the waiter bit after they have detached the list.  A group
    that is added to from zero in between, which nothing forbids, loses the bit of a waiter of the
    new round: the count reaches zero, everyone is at rest, and a task is left on the list. *)
Theorem waitgroup_reuse_loses_wakeup :
  ∃ s, reachable ginit (gstep true) s ∧ count_of (g_n s) = 0 ∧ (∀ i p, g_pcs s !! i = Some p → at_rest p = true) ∧ g_waiters s = [49].
Proof.
  exists wg_lost. split_and!; [|done| |done].
  - exists wg_idle. split; [exists 0, {[0%nat := WIdle; 1%nat := WIdle; 2%nat := WIdle]}, ∅; split_and!; [done|done| |done]; intros i p; by apply wg_idle_rest|].
    run_step g_wait (a_push 1%nat _ 48). run_step g_wait (a_or 1%nat). eapply rtc_l; [eapply g_wait, (a_take 1%nat); [vm_compute; reflexivity|done]|]. eval_state.
    eapply rtc_l; [apply (g_add true _ 1); [by left|done|done]|]. eval_state.
    run_step g_wait (a_push 2%nat _ 49). run_step g_wait (a_or 2%nat). run_step g_wait (a_clear 1%nat). run_step g_done (d_wake 1%nat). run_step g_done (d_end 1%nat).
    run_step g_done (d_mark 0%nat). run_step g_done (d_sub 0%nat). run_step g_done (d_unmark 0%nat).
    vm_compute. apply rtc_refl.
  - intros i p Hi. assert (p = WIdle) as -> by (by apply (wg_idle_rest (g_pcs wg_lost) i p)). done.
Qed.
