(* ===== verification/WaitLists.v ===== *)
(** * Waiter queues (include/WaitList.h, include/Event.h, include/DirectEvent.h)

    [WaitList], the singly linked FIFO of the blocking primitives, and the doubly linked
    list of [Event].  Both run under their primitive's lock, so an operation is a function
    of the links.  The theorems relate every operation to the same operation on the list
    of waiters, oldest first. *)

From S2P Require Import Prelude.

(** ** WaitList *)

(** A queued waiter; the queue itself reads only [next], kept in the heap below. *)
Record WaitNode := mkWaitNode { wn_next : Z; wn_fiber : Z; wn_coro : Z; wn_result : Z; wn_token : Z }.

Record WaitList := mkWL { wl_next : gmap Z Z; wl_head : Z; wl_tail : Z }.

Definition Empty (q : WaitList) : bool := wl_head q =? 0.

Definition PushBack (n : Z) (q : WaitList) : WaitList :=
  let m := <[n := 0]> (wl_next q) in
  if wl_tail q =? 0 then mkWL m n n
  else mkWL (<[wl_tail q := n]> m) (wl_head q) n.

Definition PopFront (q : WaitList) : Z * WaitList :=
  let n := wl_head q in
  if n =? 0 then (0, q)
  else
    let h := next_of (wl_next q) n in
    (n, mkWL (<[n := 0]> (wl_next q)) h (if h =? 0 then 0 else wl_tail q)).

Definition TakeAll (q : WaitList) : Z * WaitList := (wl_head q, mkWL (wl_next q) 0 0).

(** [Remove]: [prev] is the node before [n], 0 when the link is [head_]. *)
Fixpoint remove_loop (fuel : nat) (target prev n : Z) (q : WaitList) : option (bool * WaitList) :=
  if n =? 0 then Some (false, q)
  else
    match fuel with
    | O => None
    | S fuel' =>
        if n =? target then
          let nx := next_of (wl_next q) n in
          let m := if prev =? 0 then wl_next q else <[prev := nx]> (wl_next q) in
          let h := if prev =? 0 then nx else wl_head q in
          Some (true, mkWL (<[n := 0]> m) h (if wl_tail q =? n then prev else wl_tail q))
        else remove_loop fuel' target n (next_of (wl_next q) n) q
    end.

Definition Remove (fuel : nat) (target : Z) (q : WaitList) : option (bool * WaitList) :=
  remove_loop fuel target 0 (wl_head q) q.

(** An output list of [TakeIf] under construction: its first and last node. *)
Definition append_to (n : Z) (out : Z * Z) (m : gmap Z Z) : (Z * Z) * gmap Z Z :=
  if out.2 =? 0 then ((n, n), m) else ((out.1, n), <[out.2 := n]> m).

Fixpoint takeif_loop (fuel : nat) (pred : Z → bool) (n : Z) (taken keep : Z * Z) (m : gmap Z Z)
  : option ((Z * Z) * (Z * Z) * gmap Z Z) :=
  if n =? 0 then Some (taken, keep, m)
  else
    match fuel with
    | O => None
    | S fuel' =>
        let nx := next_of m n in
        let m := <[n := 0]> m in
        if pred n then let '(taken, m) := append_to n taken m in takeif_loop fuel' pred nx taken keep m
        else let '(keep, m) := append_to n keep m in takeif_loop fuel' pred nx taken keep m
    end.

Definition TakeIf (fuel : nat) (pred : Z → bool) (q : WaitList) : option (Z * WaitList) :=
  '(taken, keep, m) ← takeif_loop fuel pred (wl_head q) (0, 0) (0, 0) (wl_next q);
  Some (taken.1, mkWL m keep.1 keep.2).

(** ** Event

    [TaskRecord::waitNext] and [waitPrev] of every task, and the event's two ends. *)

Record Event := mkEvent { ev_next : gmap Z Z; ev_prev : gmap Z Z; ev_head : Z; ev_tail : Z }.

Definition AddWaiter (t : Z) (e : Event) : Event :=
  let nx := <[t := 0]> (ev_next e) in
  let pv := <[t := ev_tail e]> (ev_prev e) in
  if ev_tail e =? 0 then mkEvent nx pv t t
  else mkEvent (<[ev_tail e := t]> nx) pv (ev_head e) t.

Definition DetachAll (e : Event) : Z * Event := (ev_head e, mkEvent (ev_next e) (ev_prev e) 0 0).

(** [WakeChain]: the tasks woken, in order ([cancel] marks each one cancelled first). *)
Fixpoint WakeChain (fuel : nat) (t : Z) (cancel : bool) (e : Event) : option (list (Z * bool) * Event) :=
  if t =? 0 then Some ([], e)
  else
    match fuel with
    | O => None
    | S fuel' =>
        let nx := next_of (ev_next e) t in
        '(ws, e) ← WakeChain fuel' nx cancel
          (mkEvent (<[t := 0]> (ev_next e)) (<[t := 0]> (ev_prev e)) (ev_head e) (ev_tail e));
        Some ((t, cancel) :: ws, e)
    end.

(** The unlinking of one victim inside [CancelWaiters]. *)
Definition unlink (t : Z) (e : Event) : Event :=
  let nx := next_of (ev_next e) t in
  let pv := next_of (ev_prev e) t in
  let next1 := if pv =? 0 then ev_next e else <[pv := nx]> (ev_next e) in
  let head1 := if pv =? 0 then nx else ev_head e in
  let prev1 := if nx =? 0 then ev_prev e else <[nx := pv]> (ev_prev e) in
  let tail1 := if nx =? 0 then pv else ev_tail e in
  mkEvent (<[t := 0]> next1) (<[t := 0]> prev1) head1 tail1.

(** [for (t = head_; t;)] with the chain of victims collected so far. *)
Fixpoint cancel_loop (fuel : nat) (within : Z → bool) (t : Z) (victims : Z * Z) (e : Event)
  : option (Z * Event) :=
  if t =? 0 then Some (victims.1, e)
  else
    match fuel with
    | O => None
    | S fuel' =>
        let next := next_of (ev_next e) t in
        if within t then
          let e := unlink t e in
          let '(victims, m) := append_to t victims (ev_next e) in
          cancel_loop fuel' within next victims (mkEvent m (ev_prev e) (ev_head e) (ev_tail e))
        else cancel_loop fuel' within next victims e
    end.

(** [CancelWaiters(tok)]; [within] is [None] for an invalid token (every waiter), else
    says which task's token lies within [tok]. *)
Definition CancelWaiters (fuel : nat) (within : option (Z → bool)) (e : Event)
  : option (list (Z * bool) * Event) :=
  match within with
  | None => let '(h, e) := DetachAll e in WakeChain fuel h true e
  | Some f => '(h, e) ← cancel_loop fuel f (ev_head e) (0, 0) e; WakeChain fuel h true e
  end.

Definition SignalAll (fuel : nat) (e : Event) : option (list (Z * bool) * Event) :=
  if ev_head e =? 0 then Some ([], e)
  else let '(h, e) := DetachAll e in WakeChain fuel h false e.

(** ** The lists they represent *)

(** A singly linked queue with a tail pointer. *)
Definition wq (m : gmap Z Z) (h t : Z) (l : list Z) : Prop :=
  chain m h l ∧ t = default 0 (last l).

Definition waitlist (q : WaitList) (l : list Z) : Prop := wq (wl_next q) (wl_head q) (wl_tail q) l.

Lemma wq_nil m : wq m 0 0 [].
Proof. by split. Qed.

Lemma wq_tail_zero m h t l : wq m h t l → t = 0 ↔ l = [].
Proof.
  intros [Hc ->]. destruct (last l) as [x|] eqn:Hl; simpl.
  - apply last_Some in Hl as [l' ->]. split; [|by destruct l']. intros ->.
    unfold chain in Hc. apply lseg_app in Hc as (k & _ & (_ & ? & _)). done.
  - apply last_None in Hl. done.
Qed.

Lemma wq_nonzero m h t l x : wq m h t l → x ∈ l → x ≠ 0.
Proof.
  intros [Hc _]. unfold chain in Hc. revert h Hc.
  induction l as [|y l IH]; intros h Hc Hx; [by apply elem_of_nil in Hx|].
  destruct Hc as (-> & Hy & Hc). apply elem_of_cons in Hx as [->|Hx]; [done|by eapply IH].
Qed.

Lemma wq_ext m m' h t l : (∀ x, x ∈ l → next_of m' x = next_of m x) → wq m h t l → wq m' h t l.
Proof. intros Hx [Hc Ht]. split; [|done]. by eapply lseg_ext. Qed.

(** Appending a detached node behind the tail. *)
Lemma append_to_spec m out l n :
  wq m out.1 out.2 l → n ∉ l → n ≠ 0 → next_of m n = 0 →
  let '(out', m') := append_to n out m in
  wq m' out'.1 out'.2 (l ++ [n]) ∧ (∀ x, x ∉ l → next_of m' x = next_of m x).
Proof.
  intros Hq Hn Hz Hnx. pose proof (wq_tail_zero _ _ _ _ Hq) as Ht. destruct Hq as [Hc Hl].
  unfold append_to. destruct (out.2 =? 0) eqn:He.
  - apply Z.eqb_eq, Ht in He. subst l. simpl. split; [|done]. split; [|done].
    unfold chain. simpl. by rewrite Hnx.
  - apply Z.eqb_neq in He. simpl. destruct (last l) as [x|] eqn:Hlast; simpl in Hl; [|done].
    split.
    + split; [|by rewrite last_snoc]. rewrite Hl.
      eapply (chain_splice m _ l 0 x n [n]); [|done|done|].
      * apply NoDup_app. split_and!; [by eapply chain_NoDup|set_solver|apply NoDup_singleton].
      * split_and!; [done|done|done].
    + intros y Hy. rewrite next_of_insert, decide_False; [done|]. intros Heq. apply Hy.
      rewrite <- Heq, Hl. by apply last_Some_elem_of.
Qed.

Lemma PushBack_spec q l n :
  waitlist q l → n ≠ 0 → n ∉ l → waitlist (PushBack n q) (l ++ [n]).
Proof.
  intros Hq Hz Hn. pose proof (append_to_spec (<[n := 0]> (wl_next q)) (wl_head q, wl_tail q) l n) as H.
  unfold append_to, PushBack in *. simpl in H.
  destruct (wl_tail q =? 0); simpl in H; apply H; try done; try apply next_of_eq;
    (eapply wq_ext; [|exact Hq]); intros x Hx; rewrite next_of_insert, decide_False by set_solver; done.
Qed.

Lemma PopFront_spec q l :
  waitlist q l →
  let '(n, q') := PopFront q in n = default 0 (head l) ∧ waitlist q' (tail l).
Proof.
  intros [Hc Ht]. unfold PopFront. destruct l as [|x l].
  - rewrite (proj2 (chain_nil_iff _ _ _ Hc) eq_refl). simpl. split; [done|]. by split.
  - pose proof (chain_NoDup _ _ _ Hc) as [Hx _]%NoDup_cons. destruct Hc as (Hh & Hz & Hc).
    rewrite Hh, (proj2 (Z.eqb_neq _ _)) by done. simpl. split; [done|]. split; simpl.
    + by apply lseg_insert.
    + rewrite last_cons in Ht. destruct (next_of (wl_next q) x =? 0) eqn:He.
      * apply Z.eqb_eq, (chain_nil_iff _ _ _ Hc) in He. by subst l.
      * apply Z.eqb_neq in He. destruct (last l) eqn:Hl; [done|]. apply last_None in Hl. subst l.
        unfold chain in Hc. simpl in Hc. done.
Qed.

Lemma remove_loop_spec fuel target n q l1 l2 :
  waitlist q (l1 ++ l2) → target ∉ l1 → lseg (wl_next q) (wl_head q) l1 n → chain (wl_next q) n l2 →
  (length l2 ≤ fuel)%nat →
  ∃ q', remove_loop fuel target (default 0 (last l1)) n q = Some (bool_decide (target ∈ l2), q') ∧
    waitlist q' (l1 ++ filter (λ x, x ≠ target) l2).
Proof.
  intros Hq. pose proof (chain_NoDup _ _ _ (proj1 Hq)) as Hnd.
  revert fuel n l1 Hq Hnd. induction l2 as [|x l2 IH]; intros fuel n l1 Hq Hnd Ht H1 H2 Hf.
  { unfold chain in H2. simpl in H2. subst n. exists q. destruct fuel; simpl; by rewrite app_nil_r in *. }
  destruct fuel as [|fuel]; [simpl in Hf; lia|]. destruct H2 as (-> & Hx & H2). simpl.
  rewrite (proj2 (Z.eqb_neq _ _)) by done. destruct (x =? target) eqn:Hxt.
  - apply Z.eqb_eq in Hxt. subst x. rewrite bool_decide_true by set_solver.
    apply NoDup_app in Hnd as (Hnd1 & Hdis & [Hx2 Hnd2]%NoDup_cons).
    eexists. split; [reflexivity|].
    rewrite filter_cons_False by naive_solver.
    rewrite (filter_keep (λ x, x ≠ target) l2) by (intros ? ? ->; done).
    destruct Hq as [_ Htl]. rewrite last_app_cons, last_cons in Htl.
    assert (Htail : (if wl_tail q =? target then default 0 (last l1) else wl_tail q)
      = default 0 (last (l1 ++ l2))).
    { rewrite last_app. destruct (last l2) as [y|] eqn:Hl2; simpl in Htl.
      - rewrite Htl, (proj2 (Z.eqb_neq _ _)); [done|]. intros ->. apply Hx2. by apply last_Some_elem_of.
      - by rewrite Htl, Z.eqb_refl. }
    split; simpl; [|exact Htail]. apply lseg_insert; [set_solver|].
    destruct (last l1) as [p|] eqn:Hl1; simpl.
    + assert (Hp : p ∈ l1) by (by apply last_Some_elem_of).
      assert (p ≠ 0) by (eapply (wq_nonzero (<[p := 0]> (wl_next q)) _ (default 0 (last l1)) l1); [|done];
        split; [by eapply lseg_redirect|done]).
      rewrite (proj2 (Z.eqb_neq _ _)) by done. eapply chain_splice; [|done|done|done].
      apply NoDup_app. split_and!; [done| |done]. intros y Hy Hy2. apply (Hdis y Hy). set_solver.
    + apply last_None in Hl1. subst l1. simpl. done.
  - apply Z.eqb_neq in Hxt.
    destruct (IH fuel (next_of (wl_next q) x) (l1 ++ [x])) as (q' & Hr & Hq').
    + by rewrite <- app_assoc.
    + by rewrite <- app_assoc.
    + set_solver.
    + apply lseg_app. exists x. by split.
    + done.
    + simpl in Hf. lia.
    + rewrite last_snoc in Hr. simpl in Hr. exists q'. rewrite Hr. split.
      * do 2 f_equal. apply bool_decide_ext. set_solver.
      * rewrite filter_cons_True by done. by rewrite <- app_assoc in Hq'.
Qed.

Lemma takeif_loop_spec fuel pred n taken keep m l T K :
  chain m n l → wq m taken.1 taken.2 T → wq m keep.1 keep.2 K → NoDup (T ++ K ++ l) →
  (length l ≤ fuel)%nat →
  ∃ taken' keep' m', takeif_loop fuel pred n taken keep m = Some (taken', keep', m') ∧
    wq m' taken'.1 taken'.2 (T ++ filter (λ x, pred x = true) l) ∧
    wq m' keep'.1 keep'.2 (K ++ filter (λ x, pred x = false) l).
Proof.
  revert fuel n taken keep m T K. induction l as [|x l IH]; intros fuel n taken keep m T K Hc HT HK Hnd Hf.
  { unfold chain in Hc. simpl in Hc. subst n. exists taken, keep, m. rewrite !app_nil_r. by destruct fuel. }
  destruct fuel as [|fuel]; [simpl in Hf; lia|]. destruct Hc as (-> & Hx & Hc). simpl.
  rewrite (proj2 (Z.eqb_neq _ _)) by done. simpl in Hf.
  assert (Hnd' : NoDup (x :: T ++ K ++ l)) by (eapply NoDup_perm, Hnd; solve_Permutation).
  apply NoDup_cons in Hnd' as [Hxn Hnd2].
  set (m1 := <[x := 0]> m). assert (Hm1 : ∀ y, y ≠ x → next_of m1 y = next_of m y).
  { intros y Hy. unfold m1. by rewrite next_of_insert, decide_False by done. }
  assert (Hz : next_of m1 x = 0) by apply next_of_eq.
  assert (HT1 : wq m1 taken.1 taken.2 T) by (eapply wq_ext; [|exact HT]; intros y Hy; apply Hm1; set_solver).
  assert (HK1 : wq m1 keep.1 keep.2 K) by (eapply wq_ext; [|exact HK]; intros y Hy; apply Hm1; set_solver).
  assert (Hc1 : chain m1 (next_of m x) l) by (apply lseg_insert; [set_solver|done]).
  apply NoDup_app in Hnd2 as (HndT & HdT & (HndK & HdK & Hndl)%NoDup_app).
  destruct (pred x) eqn:Hp.
  - pose proof (append_to_spec m1 taken T x HT1 ltac:(set_solver) Hx Hz) as Ha.
    destruct (append_to x taken m1) as [taken2 m2]. destruct Ha as [HT2 Hm2].
    destruct (IH fuel (next_of m x) taken2 keep m2 (T ++ [x]) K) as (tk & kp & m' & Hr & H1 & H2).
    + eapply lseg_ext; [|exact Hc1]. intros y Hy. apply Hm2. intros HyT. apply (HdT y HyT). set_solver.
    + done.
    + eapply wq_ext; [|exact HK1]. intros y Hy. apply Hm2. intros HyT. apply (HdT y HyT). set_solver.
    + eapply NoDup_perm, Hnd. solve_Permutation.
    + lia.
    + exists tk, kp, m'. rewrite filter_cons_True, filter_cons_False by congruence.
      rewrite <- app_assoc in H1. done.
  - pose proof (append_to_spec m1 keep K x HK1 ltac:(set_solver) Hx Hz) as Ha.
    destruct (append_to x keep m1) as [keep2 m2]. destruct Ha as [HK2 Hm2].
    destruct (IH fuel (next_of m x) taken keep2 m2 T (K ++ [x])) as (tk & kp & m' & Hr & H1 & H2).
    + eapply lseg_ext; [|exact Hc1]. intros y Hy. apply Hm2. intros HyK. by apply (HdK y HyK).
    + eapply wq_ext; [|exact HT1]. intros y Hy. apply Hm2. intros HyK. apply (HdT y Hy). set_solver.
    + done.
    + eapply NoDup_perm, Hnd. solve_Permutation.
    + lia.
    + exists tk, kp, m'. rewrite filter_cons_False, filter_cons_True by congruence.
      rewrite <- app_assoc in H2. done.
Qed.

(** Every operation of [WaitList] does to the list of waiters what it says: a FIFO
    whose front is the oldest waiter, with removal of one waiter or of all a predicate
    accepts, the others keeping their order. *)
Theorem waitlist_refines q l :
  waitlist q l →
  (Empty q = true ↔ l = []) ∧
  (∀ n, n ≠ 0 → n ∉ l → waitlist (PushBack n q) (l ++ [n])) ∧
  (let '(n, q') := PopFront q in n = default 0 (head l) ∧ waitlist q' (tail l)) ∧
  (let '(h, q') := TakeAll q in chain (wl_next q') h l ∧ waitlist q' []) ∧
  (∀ x, ∃ q', Remove (length l) x q = Some (bool_decide (x ∈ l), q') ∧
     waitlist q' (filter (λ y, y ≠ x) l)) ∧
  (∀ pred, ∃ h q', TakeIf (length l) pred q = Some (h, q') ∧
     chain (wl_next q') h (filter (λ y, pred y = true) l) ∧
     waitlist q' (filter (λ y, pred y = false) l)).
Proof.
  intros Hq. pose proof Hq as [Hc Ht]. split_and!.
  - unfold Empty. rewrite Z.eqb_eq. by apply chain_nil_iff in Hc.
  - intros n. by apply PushBack_spec.
  - by apply PopFront_spec.
  - simpl. split; [done|]. apply wq_nil.
  - intros x. destruct (remove_loop_spec (length l) x (wl_head q) q [] l) as (q' & Hr & Hq'); try done.
    + set_solver.
    + by exists q'.
  - intros pred.
    destruct (takeif_loop_spec (length l) pred (wl_head q) (0, 0) (0, 0) (wl_next q) l [] [])
      as (tk & kp & m & Hr & [H1 _] & H2); [done|apply wq_nil|apply wq_nil|by eapply chain_NoDup|done|].
    exists tk.1, (mkWL m kp.1 kp.2). unfold TakeIf. rewrite Hr. done.
Qed.

Definition three_waiters : WaitList := mkWL {[16 := 32; 32 := 48]} 16 48.

Lemma waitlist_refines_witness :
  ∃ q', Remove 3 32 three_waiters = Some (true, q') ∧ waitlist q' [16; 48].
Proof.
  destruct (waitlist_refines three_waiters [16; 32; 48]) as (_ & _ & _ & _ & Hr & _); [by vm_compute|].
  destruct (Hr 32) as (q' & H1 & H2). exists q'. by split.
Defined.

(** ** Event: the doubly linked list *)

(** [dl m p l]: the back links of [l], starting behind [p]. *)
Fixpoint dl (m : gmap Z Z) (p : Z) (l : list Z) : Prop :=
  match l with [] => True | x :: l' => next_of m x = p ∧ dl m x l' end.

Record event_ok (e : Event) (l : list Z) : Prop := {
  eo_fwd : wq (ev_next e) (ev_head e) (ev_tail e) l;
  eo_back : dl (ev_prev e) 0 l }.

Lemma dl_ext m m' p l : (∀ x, x ∈ l → next_of m' x = next_of m x) → dl m p l → dl m' p l.
Proof.
  revert p. induction l as [|x l IH]; intros p Hx; simpl; [done|]. intros [H1 H2].
  rewrite Hx by set_solver. split; [done|]. apply IH; [|done]. set_solver.
Qed.

Lemma dl_app m p l1 l2 : dl m p (l1 ++ l2) ↔ dl m p l1 ∧ dl m (default p (last l1)) l2.
Proof.
  revert p. induction l1 as [|x l1 IH]; intros p; simpl; [naive_solver|].
  rewrite IH, last_cons. destruct (last l1) eqn:Hl; simpl; [naive_solver|].
  apply last_None in Hl. subst l1. simpl. naive_solver.
Qed.

Lemma event_AddWaiter e l t :
  event_ok e l → t ≠ 0 → t ∉ l → event_ok (AddWaiter t e) (l ++ [t]).
Proof.
  intros [Hf Hb] Hz Ht. pose proof (PushBack_spec (mkWL (ev_next e) (ev_head e) (ev_tail e)) l t Hf Hz Ht) as H.
  assert (Hb' : dl (<[t := ev_tail e]> (ev_prev e)) 0 (l ++ [t])).
  { apply dl_app. split.
    - eapply dl_ext; [|exact Hb]. intros x Hx. rewrite next_of_insert, decide_False by set_solver. done.
    - simpl. rewrite next_of_eq. split; [|done]. by destruct Hf as [_ ->]. }
  unfold AddWaiter, PushBack in *. simpl in H. destruct (ev_tail e =? 0); by constructor.
Qed.

Lemma WakeChain_spec fuel h cancel e l :
  chain (ev_next e) h l → (length l ≤ fuel)%nat →
  ∃ m pv, WakeChain fuel h cancel e = Some ((λ t, (t, cancel)) <$> l, mkEvent m pv (ev_head e) (ev_tail e)) ∧
    (∀ x, x ∉ l → next_of m x = next_of (ev_next e) x ∧ next_of pv x = next_of (ev_prev e) x).
Proof.
  intros Hc. pose proof (chain_NoDup _ _ _ Hc) as Hnd. unfold chain in Hc.
  revert h e l Hc Hnd. induction fuel as [|fuel IH]; intros h e l Hc Hnd Hf.
  - destruct l; [|simpl in Hf; lia]. simpl in Hc. subst h. exists (ev_next e), (ev_prev e). by destruct e.
  - destruct l as [|x l]; simpl in Hc.
    + subst h. exists (ev_next e), (ev_prev e). by destruct e.
    + destruct Hc as (-> & Hx & Hc). apply NoDup_cons in Hnd as [Hxl Hnd]. simpl.
      rewrite (proj2 (Z.eqb_neq _ _)) by done.
      set (e1 := mkEvent (<[x := 0]> (ev_next e)) (<[x := 0]> (ev_prev e)) (ev_head e) (ev_tail e)).
      destruct (IH (next_of (ev_next e) x) e1 l) as (m & pv & -> & Hm); [by apply lseg_insert|done|simpl in Hf; lia|].
      exists m, pv. split; [done|]. intros y Hy. destruct (Hm y) as [H1 H2]; [set_solver|].
      unfold e1 in H1, H2. simpl in H1, H2.
      rewrite next_of_insert, decide_False in H1 by set_solver.
      rewrite next_of_insert, decide_False in H2 by set_solver. done.
Qed.

(** Dropping the node after [K] from a singly linked queue. *)
Lemma wq_drop m h t K x l :
  wq m h t (K ++ x :: l) →
  let pv := default 0 (last K) in
  let nx := next_of m x in
  wq (if pv =? 0 then m else <[pv := nx]> m) (if pv =? 0 then nx else h)
     (if nx =? 0 then pv else t) (K ++ l) ∧ chain m nx l.
Proof.
  intros [Hc Ht]. pose proof (chain_NoDup _ _ _ Hc) as Hnd. simpl.
  unfold chain in Hc. apply lseg_app in Hc as (k & HK & (-> & Hx & Hl)).
  apply NoDup_app in Hnd as (HndK & Hdis & [Hxl Hndl]%NoDup_cons). split; [|done].
  assert (Htail : (if next_of m x =? 0 then default 0 (last K) else t) = default 0 (last (K ++ l))).
  { rewrite last_app_cons, last_cons in Ht. rewrite last_app.
    pose proof (chain_nil_iff m _ _ Hl) as Hn. destruct (last l) as [y|] eqn:Hlast.
    - destruct (next_of m x =? 0) eqn:He; [|done]. apply Z.eqb_eq, Hn in He. by subst l.
    - apply last_None in Hlast. by rewrite (proj2 Hn Hlast). }
  split; [|exact Htail]. destruct (last K) as [p|] eqn:HlK; simpl.
  - assert (p ≠ 0).
    { eapply (wq_nonzero (<[p := 0]> m) h p K); [|by apply last_Some_elem_of].
      split; [by eapply lseg_redirect|by rewrite HlK]. }
    rewrite (proj2 (Z.eqb_neq _ _)) by done. eapply chain_splice; [|done|done|done].
    apply NoDup_app. split_and!; [done| |done]. intros y Hy Hy2. apply (Hdis y Hy). set_solver.
  - apply last_None in HlK. subst K. done.
Qed.

Lemma dl_drop m p K x l :
  NoDup (K ++ x :: l) → dl m p (K ++ x :: l) → (∀ y, head l = Some y → y ≠ 0) →
  let nx := default 0 (head l) in
  dl (if nx =? 0 then m else <[nx := next_of m x]> m) p (K ++ l).
Proof.
  intros Hnd Hd Hnz. simpl. apply dl_app in Hd as [HK [Hx Hl]]. apply dl_app.
  apply NoDup_app in Hnd as (_ & Hdis & [Hxl Hndl]%NoDup_cons).
  destruct l as [|y l]; simpl; [done|]. rewrite (proj2 (Z.eqb_neq _ _)) by (by apply Hnz).
  destruct Hl as [Hy Hl]. apply NoDup_cons in Hndl as [Hyl _]. split_and!.
  - eapply dl_ext; [|exact HK]. intros z Hz. rewrite next_of_insert, decide_False; [done|].
    intros ->. apply (Hdis z Hz). set_solver.
  - by rewrite next_of_eq.
  - eapply dl_ext; [|exact Hl]. intros z Hz. rewrite next_of_insert, decide_False by set_solver. done.
Qed.

Lemma unlink_spec e K x l :
  event_ok e (K ++ x :: l) →
  event_ok (unlink x e) (K ++ l) ∧ chain (ev_next (unlink x e)) (next_of (ev_next e) x) l ∧
  next_of (ev_next (unlink x e)) x = 0 ∧
  (∀ y, y ∉ K ++ x :: l → next_of (ev_next (unlink x e)) y = next_of (ev_next e) y).
Proof.
  intros [Hf Hb]. pose proof (chain_NoDup _ _ _ (proj1 Hf)) as Hnd.
  pose proof (wq_drop _ _ _ _ _ _ Hf) as [Hq Hl]. pose proof Hb as [_ [Hpv _]]%dl_app.
  assert (Hnx : next_of (ev_next e) x = default 0 (head l)).
  { destruct l; [done|]. by destruct Hl as (-> & _). }
  assert (Hnz : ∀ y, head l = Some y → y ≠ 0).
  { intros y Hy. eapply wq_nonzero; [exact Hf|]. destruct l; [done|]. injection Hy as ->. set_solver. }
  pose proof (dl_drop _ _ _ _ _ Hnd Hb Hnz) as Hd. cbv zeta in Hd.
  rewrite <- Hnx in Hd. pose proof Hnd as (_ & Hdis & [Hxl _]%NoDup_cons)%NoDup_app.
  assert (HxK : x ∉ K ++ l) by (intros [Hk|Hk]%elem_of_app; [apply (Hdis x Hk); set_solver|done]).
  unfold unlink. rewrite Hpv in *. cbv zeta in Hq.
  set (nx := next_of (ev_next e) x) in *. set (pv := default 0 (last K)) in *. cbn [ev_next].
  split_and!.
  - constructor; cbn [ev_next ev_head ev_tail ev_prev].
    + eapply wq_ext; [|exact Hq]. intros y Hy. rewrite next_of_insert, decide_False by set_solver. done.
    + eapply dl_ext; [|exact Hd]. intros y Hy. rewrite next_of_insert, decide_False by set_solver. done.
  - apply lseg_insert; [done|]. destruct (pv =? 0) eqn:Hp0; [done|]. apply lseg_insert; [|done].
    apply Z.eqb_neq in Hp0. unfold pv in *. destruct (last K) as [z|] eqn:HlK; [|done]. simpl.
    intros Hz. apply (Hdis z); [by apply last_Some_elem_of|set_solver].
  - apply next_of_eq.
  - intros y Hy. rewrite next_of_insert, decide_False by set_solver.
    destruct (pv =? 0) eqn:Hp0; [done|]. rewrite next_of_insert, decide_False; [done|].
    intros <-. apply Hy. apply Z.eqb_neq in Hp0. unfold pv in *. destruct (last K) as [z|] eqn:HlK; [|done].
    simpl. apply elem_of_app. left. by apply last_Some_elem_of.
Qed.

Lemma event_ext e e' l :
  event_ok e l → ev_head e' = ev_head e → ev_tail e' = ev_tail e →
  (∀ x, x ∈ l → next_of (ev_next e') x = next_of (ev_next e) x ∧ next_of (ev_prev e') x = next_of (ev_prev e) x) →
  event_ok e' l.
Proof.
  intros [Hf Hb] Hh Ht Hx. constructor.
  - rewrite Hh, Ht. eapply wq_ext; [|exact Hf]. intros x Hxl. by apply Hx.
  - eapply dl_ext; [|exact Hb]. intros x Hxl. by apply Hx.
Qed.

Lemma cancel_loop_spec fuel within t victims e K l V :
  event_ok e (K ++ l) → chain (ev_next e) t l → wq (ev_next e) victims.1 victims.2 V →
  NoDup (V ++ K ++ l) → (length l ≤ fuel)%nat →
  ∃ h e', cancel_loop fuel within t victims e = Some (h, e') ∧
    event_ok e' (K ++ filter (λ x, within x = false) l) ∧
    chain (ev_next e') h (V ++ filter (λ x, within x = true) l).
Proof.
  revert fuel t victims e K V. induction l as [|x l IH]; intros fuel t victims e K V He Hc HV Hnd Hf.
  { unfold chain in Hc. simpl in Hc. subst t. exists victims.1, e. rewrite !app_nil_r in *.
    destruct HV as [HV _]. by destruct fuel. }
  destruct fuel as [|fuel]; [simpl in Hf; lia|]. destruct Hc as (-> & Hx & Hc). simpl in Hf.
  cbn [cancel_loop]. rewrite (proj2 (Z.eqb_neq _ _)) by done. cbv zeta. destruct (within x) eqn:Hw.
  - destruct (unlink_spec e K x l He) as (He1 & Hc1 & Hz & Hsame). set (e1 := unlink x e) in *.
    pose proof Hnd as (HndV & HdV & Hnd2)%NoDup_app.
    assert (HV1 : wq (ev_next e1) victims.1 victims.2 V).
    { eapply wq_ext; [|exact HV]. intros y Hy. apply Hsame. by apply HdV. }
    assert (HxV : x ∉ V) by (intros Hxv; apply (HdV x Hxv); set_solver).
    pose proof (append_to_spec (ev_next e1) victims V x HV1 HxV Hx Hz) as Ha.
    destruct (append_to x victims (ev_next e1)) as [victims2 m2]. destruct Ha as [HV2 Hm2].
    destruct (IH fuel (next_of (ev_next e) x) victims2 (mkEvent m2 (ev_prev e1) (ev_head e1) (ev_tail e1)) K (V ++ [x]))
      as (h & e' & Hr & H1 & H2).
    + eapply event_ext; [exact He1|done|done|]. intros y Hy. split; [|done]. apply Hm2. intros HyV.
      apply (HdV y HyV). set_solver.
    + eapply lseg_ext; [|exact Hc1]. intros y Hy. apply Hm2. intros HyV. apply (HdV y HyV). set_solver.
    + done.
    + eapply NoDup_perm, Hnd. solve_Permutation.
    + lia.
    + exists h, e'. rewrite filter_cons_False, filter_cons_True by congruence.
      rewrite <- app_assoc in H2. done.
  - destruct (IH fuel (next_of (ev_next e) x) victims e (K ++ [x]) V) as (h & e' & Hr & H1 & H2).
    + by rewrite <- app_assoc.
    + done.
    + done.
    + by rewrite <- app_assoc.
    + lia.
    + exists h, e'. rewrite filter_cons_True, filter_cons_False by congruence.
      rewrite <- app_assoc in H1. done.
Qed.

(** An event's waiters are a FIFO.  [SignalAll] wakes every one, oldest first, and
    empties it; [CancelWaiters] under a token wakes, oldest first and marked cancelled,
    exactly the waiters inside the token, and leaves the others linked in order; without a
    token it wakes them all.  Each waiter unlinked is woken once. *)
Theorem event_refines e l :
  event_ok e l →
  (∀ t, t ≠ 0 → t ∉ l → event_ok (AddWaiter t e) (l ++ [t])) ∧
  (∃ e', SignalAll (length l) e = Some ((λ t, (t, false)) <$> l, e') ∧ event_ok e' []) ∧
  (∃ e', CancelWaiters (length l) None e = Some ((λ t, (t, true)) <$> l, e') ∧ event_ok e' []) ∧
  (∀ within, ∃ e',
     CancelWaiters (length l) (Some within) e =
       Some ((λ t, (t, true)) <$> filter (λ t, within t = true) l, e') ∧
     event_ok e' (filter (λ t, within t = false) l)).
Proof.
  intros He. pose proof He as [[Hc Ht] Hb]. split_and!.
  - intros t. by apply event_AddWaiter.
  - unfold SignalAll. destruct (ev_head e =? 0) eqn:Hh.
    + apply Z.eqb_eq, (chain_nil_iff _ _ _ Hc) in Hh. subst l. exists e. by split.
    + simpl. destruct (WakeChain_spec (length l) (ev_head e) false (mkEvent (ev_next e) (ev_prev e) 0 0) l)
        as (m & pv & -> & _); [done|done|]. eexists. split; [done|]. by repeat split.
  - simpl. destruct (WakeChain_spec (length l) (ev_head e) true (mkEvent (ev_next e) (ev_prev e) 0 0) l)
      as (m & pv & -> & _); [done|done|]. eexists. split; [done|]. by repeat split.
  - intros within. pose proof (chain_NoDup _ _ _ Hc) as Hnd.
    destruct (cancel_loop_spec (length l) within (ev_head e) (0, 0) e [] l [])
      as (h & e' & Hr & H1 & H2); [done|done|apply wq_nil|done|done|]. simpl in H1, H2.
    unfold CancelWaiters. rewrite Hr. simpl.
    destruct (WakeChain_spec (length l) h true e' _ H2) as (m & pv & -> & Hm).
    { apply Nat.le_trans with (length l); [apply length_filter|done]. }
    eexists. split; [done|]. eapply event_ext; [exact H1|done|done|]. simpl. intros x Hx. apply Hm.
    intros Hx'. apply list_elem_of_filter in Hx as [? _]. apply list_elem_of_filter in Hx' as [? _]. congruence.
Qed.

Definition three_linked : Event :=
  mkEvent {[16 := 32; 32 := 48]} {[32 := 16; 48 := 32]} 16 48.

(** Cancelling the middle one of three waiters. *)
Lemma event_refines_witness :
  ∃ e', CancelWaiters 3 (Some (λ t, t =? 32)) three_linked = Some ([(32, true)], e') ∧ event_ok e' [16; 48].
Proof.
  destruct (event_refines three_linked [16; 32; 48]) as (_ & _ & _ & Hc); [by repeat split|].
  destruct (Hc (λ t, t =? 32)) as (e' & H1 & H2). exists e'. by split.
Defined.
