(* ===== verification/FiberModel.v ===== *)
(** * Fibers (include/Fiber.h, src/Fiber.cpp, the park step of src/Thread.cpp)

    Two parts.  The initial stack of a fiber: [Init] for each ABI lays out a frame, and
    the restoring half of the matching [ContextSwitch] reads it back.  The status word:
    the suspend primitives, [Resume] and [Thread::OnFiberReturned] race through it, and the
    step relation interleaves them at every atomic access. *)

From S2P Require Import Prelude TaskTypes.

(** ** State *)

Inductive FiberStatus :=
  READY | RUNNING | WANTS_YIELD | WANTS_SUSPEND | SUSPEND_SIGNALED | SUSPENDED | TRANSFERRED | DEAD.

#[export] Instance FiberStatus_eq_dec : EqDecision FiberStatus.
Proof. solve_decision. Defined.

Record FiberRec := mkFiber {
  rsp : Z; stackBase : Z; stackSize : Z; f_stackClass : StackClass; poolIndex : Z;
  owningTask : Z; last_yielder : Z; homeCtx : Z; status : FiberStatus }.

Definition new_Fiber : FiberRec := mkFiber 0 0 0 Standard SIZE_MAX 0 0 0 READY.

Definition set_status (s : FiberStatus) (f : FiberRec) : FiberRec :=
  mkFiber (rsp f) (stackBase f) (stackSize f) (f_stackClass f) (poolIndex f) (owningTask f)
    (last_yielder f) (homeCtx f) s.
Definition set_rsp (sp : Z) (f : FiberRec) : FiberRec :=
  mkFiber sp (stackBase f) (stackSize f) (f_stackClass f) (poolIndex f) (owningTask f)
    (last_yielder f) (homeCtx f) (status f).

Definition ResetForReuse (f : FiberRec) : FiberRec :=
  mkFiber (rsp f) (stackBase f) (stackSize f) (f_stackClass f) (poolIndex f) 0 0 0 READY.

Definition IsReady (f : FiberRec) : bool := bool_decide (status f = READY).

(** ** Who may suspend *)

Inductive SuspendFatal := NativeSuspendViolation | CoroutineBlockingWait.

(** [CheckSuspendable] in a debug build ([CoroutineBlockingWait] asserts there). *)
Definition CheckSuspendable (ty : option TaskType) : res SuspendFatal unit :=
  match ty with
  | None => Ok tt
  | Some Native => Err NativeSuspendViolation
  | Some Coroutine => Err CoroutineBlockingWait
  | Some Fiber => Ok tt
  end.

Definition can_suspend (ty : TaskType) : bool := match ty with Fiber => true | _ => false end.

(** The status half of the suspend primitives; [ty] is the owning task's type. *)
Definition BeginYield (f : FiberRec) : FiberRec := set_status WANTS_YIELD f.
Definition BeginSuspend (ty : TaskType) (f : FiberRec) : FiberRec :=
  if can_suspend ty then set_status WANTS_SUSPEND f else f.

(** [StampPin]: where the suspended task must resume.  [self] is the calling pool worker's
    index, [None] off the pool; [workers] the worker count, [None] before Init. *)
Definition StampPin (pinForced : bool) (self : option Z) (workers : option Z) (pin : Pin) : Z :=
  let t := if pinForced && negb (target pin =? kMain) then kCurrent else target pin in
  if t =? kCurrent then match self with Some q => u16 q | None => kNoPin end
  else if t =? kMain then kMain
  else if t =? kNone then kNone
  else match workers with Some n => if t <? n then t else kNoPin | None => kNoPin end.

(** ** The initial frame *)

(** Words pushed in order, each at [sp -= 8]. *)
Fixpoint push_words (ws : list Z) (sp : Z) (m : gmap Z Z) : Z * gmap Z Z :=
  match ws with
  | [] => (sp, m)
  | w :: ws' => push_words ws' (sp - 8) (<[sp - 8 := w]> m)
  end.

Definition stack_top (f : FiberRec) : Z := Z.ldiff (stackBase f + stackSize f) 0xF.

(** MXCSR 0x1F80 in the low half, x87 control word 0x037F above it. *)
Definition fp_word : Z := 0x0000037F00001F80.

Section init.
Variable (trampoline pageSize : Z).

Definition TebStackBase (f : FiberRec) : Z := stackBase f + stackSize f.
Definition TebStackLimit (f : FiberRec) : Z := stackBase f + pageSize.
Definition TebDealloc (f : FiberRec) : Z := stackBase f.

Definition sysv_words (entry : Z) : list Z := [trampoline; 0; entry; 0; 0; 0; 0; fp_word].

Definition win64_words (f : FiberRec) (entry : Z) : list Z :=
  [trampoline; entry; 0; 0; 0; 0; 0; 0; 0;
   TebStackBase f; TebStackLimit f; TebDealloc f; 0; fp_word] ++ replicate 20 0.

Definition aarch64_words (f : FiberRec) (entry : Z) (windows : bool) : list Z :=
  [trampoline; 0; 0; 0; 0; 0; 0; 0; 0; 0; 0; entry] ++
  (if windows then [TebStackBase f; TebStackLimit f; 0; TebDealloc f] else []) ++
  [0; 0] ++ replicate 8 0.

Definition Init_sysv (entry : Z) (f : FiberRec) (m : gmap Z Z) : FiberRec * gmap Z Z :=
  let '(sp, m) := push_words (sysv_words entry) (stack_top f) m in (set_rsp sp f, m).

(** The four words skipped first are the shadow space of the entry function. *)
Definition Init_win64 (entry : Z) (f : FiberRec) (m : gmap Z Z) : FiberRec * gmap Z Z :=
  let '(sp, m) := push_words (win64_words f entry) (stack_top f - 32) m in (set_rsp sp f, m).

Definition Init_aarch64 (windows : bool) (entry : Z) (f : FiberRec) (m : gmap Z Z)
  : FiberRec * gmap Z Z :=
  let '(sp, m) := push_words (aarch64_words f entry windows) (stack_top f) m in (set_rsp sp f, m).
End init.

(** What the restoring half of [ContextSwitch] leaves: the registers that matter to the
    trampoline, and the stack pointer it runs on. *)
Record Restored := mkRestored { pc : Z; entry_reg : Z; fp_control : Z; new_sp : Z; teb : option (Z * Z * Z) }.

Definition frame (m : gmap Z Z) (sp : Z) (k : Z) : Z := next_of m (sp + 8 * k).

(** x86-64 System V: FP word, r15, r14, r13, r12, rbx, rbp, return address. *)
Definition restore_sysv (m : gmap Z Z) (sp : Z) : Restored :=
  mkRestored (frame m sp 7) (frame m sp 5) (frame m sp 0) (sp + 64) None.

(** Win64: the xmm block, the FP word, pad, TEB bounds, r15 .. rbx, return address. *)
Definition restore_win64 (m : gmap Z Z) (sp : Z) : Restored :=
  mkRestored (frame m sp 33) (frame m sp 32) (frame m sp 20) (sp + 272)
    (Some (frame m sp 24, frame m sp 23, frame m sp 22)).

(** AArch64: d8-d15, FPCR and pad, x19-x28, x29, x30. *)
Definition restore_aarch64 (m : gmap Z Z) (sp : Z) : Restored :=
  mkRestored (frame m sp 21) (frame m sp 10) (frame m sp 8) (sp + 176) None.

(** ** The status word, sequentially *)

(** [Resume] with no concurrent access: the new status, and whether the task is requeued. *)
Definition Resume (s : FiberStatus) : FiberStatus * bool :=
  match s with
  | SUSPENDED => (READY, true)
  | WANTS_SUSPEND => (SUSPEND_SIGNALED, false)
  | s => (s, false)
  end.

Inductive Returned := Recycled | Yielded | Parked | Requeued | Left.

(** [Thread::OnFiberReturned] on the status. *)
Definition OnFiberReturned (s : FiberStatus) : FiberStatus * Returned :=
  match s with
  | DEAD => (DEAD, Recycled)
  | WANTS_YIELD => (READY, Yielded)
  | WANTS_SUSPEND => (SUSPENDED, Parked)
  | SUSPEND_SIGNALED => (READY, Requeued)
  | s => (s, Left)
  end.

(** [SwitchTo(f)]: [self] the running fiber's identity and status, [f] the target's. *)
Definition SwitchTo (ty : TaskType) (self f : Z) (me other : FiberRec) : bool * FiberRec * FiberRec :=
  if (f =? 0) || (f =? self) then (false, me, other)
  else if negb (can_suspend ty) then (false, me, other)
  else
    match status other with
    | READY | TRANSFERRED =>
        (true, set_status TRANSFERRED me,
         mkFiber (rsp other) (stackBase other) (stackSize other) (f_stackClass other)
           (poolIndex other) (owningTask other) self (homeCtx me) RUNNING)
    | _ => (false, me, other)
    end.

(** ** The status word, concurrently

    One fiber, the threads that may run it and the threads that may wake it.  A thread is
    at one of these points. *)

Inductive fpc :=
| FIdle
(* a worker with the fiber's task *)
| FStart                     (* taken from a queue; the status is not yet RUNNING *)
| FRun                       (* the fiber runs on this thread *)
| FBegan                     (* its code has called BeginSuspend and may register *)
| FBack                      (* switched back to the scheduler: OnFiberReturned *)
| FLoaded (s : FiberStatus)  (* has loaded the status *)
| FSignaled                  (* its compare-exchange found SUSPEND_SIGNALED *)
| FReady                     (* has stored READY; the placement follows *)
(* a thread in Resume, for suspension g *)
| KLoad (g : Z)
| KLoaded (g : Z) (s : FiberStatus)
| KPlace.                    (* its compare-exchange made the fiber READY *)

(** [f_placed]: how often the task is in a run queue.  [f_gen] numbers the suspensions;
    [f_armed]: the current one has been published to a waker; [f_permit]: that waker has
    not called [Resume] yet.  [f_gone]: the fiber has finished and was recycled. *)
Record fstate := mkF {
  f_status : FiberStatus; f_placed : Z; f_pcs : gmap nat fpc;
  f_gen : Z; f_armed : bool; f_permit : bool; f_gone : bool }.

Definition f_move (i : nat) (p : fpc) (s : fstate) : fstate :=
  mkF (f_status s) (f_placed s) (<[i := p]> (f_pcs s)) (f_gen s) (f_armed s) (f_permit s) (f_gone s).
Definition f_set (st : FiberStatus) (s : fstate) : fstate :=
  mkF st (f_placed s) (f_pcs s) (f_gen s) (f_armed s) (f_permit s) (f_gone s).
Definition f_place (d : Z) (s : fstate) : fstate :=
  mkF (f_status s) (f_placed s + d) (f_pcs s) (f_gen s) (f_armed s) (f_permit s) (f_gone s).

Inductive worker_step (i : nat) (s : fstate) : fstate → Prop :=
| f_pick : f_pcs s !! i = Some FIdle → (0 < f_placed s) →
    worker_step i s (f_move i FStart (f_place (-1) s))
| f_start : f_pcs s !! i = Some FStart →
    worker_step i s (f_move i FRun (f_set RUNNING s))
| f_suspend : f_pcs s !! i = Some FRun →
    worker_step i s (mkF WANTS_SUSPEND (f_placed s) (<[i := FBegan]> (f_pcs s)) (f_gen s + 1) false false (f_gone s))
| f_register : f_pcs s !! i = Some FBegan → f_armed s = false →
    worker_step i s (mkF (f_status s) (f_placed s) (f_pcs s) (f_gen s) true true (f_gone s))
| f_switch : f_pcs s !! i = Some FBegan →
    worker_step i s (f_move i FBack s)
| f_yield : f_pcs s !! i = Some FRun →
    worker_step i s (f_move i FBack (f_set WANTS_YIELD s))
| f_die : f_pcs s !! i = Some FRun →
    worker_step i s (f_move i FBack (f_set DEAD s))
| f_load : f_pcs s !! i = Some FBack →
    worker_step i s (f_move i (FLoaded (f_status s)) s)
| f_dead : f_pcs s !! i = Some (FLoaded DEAD) →
    worker_step i s (mkF (f_status s) (f_placed s) (<[i := FIdle]> (f_pcs s)) (f_gen s) (f_armed s) (f_permit s) true)
| f_yielded : f_pcs s !! i = Some (FLoaded WANTS_YIELD) →
    worker_step i s (f_move i FReady (f_set READY s))
| f_park l : f_pcs s !! i = Some (FLoaded l) → l ≠ DEAD → l ≠ WANTS_YIELD →
    f_status s = WANTS_SUSPEND →
    worker_step i s (f_move i FIdle (f_set SUSPENDED s))
| f_park_signaled l : f_pcs s !! i = Some (FLoaded l) → l ≠ DEAD → l ≠ WANTS_YIELD →
    f_status s = SUSPEND_SIGNALED →
    worker_step i s (f_move i FSignaled s)
| f_park_other l : f_pcs s !! i = Some (FLoaded l) → l ≠ DEAD → l ≠ WANTS_YIELD →
    f_status s ≠ WANTS_SUSPEND → f_status s ≠ SUSPEND_SIGNALED →
    worker_step i s (f_move i FIdle s)
| f_unsignal : f_pcs s !! i = Some FSignaled →
    worker_step i s (f_move i FReady (f_set READY s))
| f_requeue : f_pcs s !! i = Some FReady →
    worker_step i s (f_move i FIdle (f_place 1 s)).

Inductive waker_step (i : nat) (s : fstate) : fstate → Prop :=
| k_start : f_pcs s !! i = Some FIdle → f_permit s = true →
    waker_step i s (mkF (f_status s) (f_placed s) (<[i := KLoad (f_gen s)]> (f_pcs s)) (f_gen s) (f_armed s) false (f_gone s))
| k_spurious : f_pcs s !! i = Some FIdle →
    waker_step i s (f_move i (KLoad 0) s)
| k_load g : f_pcs s !! i = Some (KLoad g) →
    waker_step i s
      (f_move i (if decide (f_status s = SUSPENDED ∨ f_status s = WANTS_SUSPEND)
                 then KLoaded g (f_status s) else FIdle) s)
| k_claim g : f_pcs s !! i = Some (KLoaded g SUSPENDED) → f_status s = SUSPENDED →
    waker_step i s (f_move i KPlace (f_set READY s))
| k_claim_fail g : f_pcs s !! i = Some (KLoaded g SUSPENDED) → f_status s ≠ SUSPENDED →
    waker_step i s (f_move i FIdle s)
| k_signal g : f_pcs s !! i = Some (KLoaded g WANTS_SUSPEND) → f_status s = WANTS_SUSPEND →
    waker_step i s (f_move i FIdle (f_set SUSPEND_SIGNALED s))
| k_signal_fail g : f_pcs s !! i = Some (KLoaded g WANTS_SUSPEND) → f_status s ≠ WANTS_SUSPEND →
    waker_step i s (f_move i (KLoad g) s)
| k_requeue : f_pcs s !! i = Some KPlace →
    waker_step i s (f_move i FIdle (f_place 1 s)).

Inductive fstep (s : fstate) : fstate → Prop :=
| f_worker i s' : worker_step i s s' → fstep s s'
| f_waker i s' : waker_step i s s' → fstep s s'.

(** A task with a fresh fiber, queued once. *)
Definition finit (s : fstate) : Prop :=
  ∃ pcs, (∀ i p, pcs !! i = Some p → p = FIdle) ∧ s = mkF READY 1 pcs 0 false false false.

(** ** Invariant *)

(** Threads that hold the task, and the statuses each allows. *)
Definition f_holds (p : fpc) : bool :=
  match p with FIdle | KLoad _ | KLoaded _ _ => false | _ => true end.
Definition f_allows (p : fpc) (st : FiberStatus) : bool :=
  match p, st with
  | FStart, READY | FReady, READY | KPlace, READY => true
  | FRun, RUNNING => true
  | FBegan, (WANTS_SUSPEND | SUSPEND_SIGNALED) => true
  | FBack, (WANTS_SUSPEND | SUSPEND_SIGNALED | WANTS_YIELD | DEAD) => true
  | FLoaded DEAD, DEAD | FLoaded WANTS_YIELD, WANTS_YIELD => true
  | FLoaded (WANTS_SUSPEND | SUSPEND_SIGNALED), (WANTS_SUSPEND | SUSPEND_SIGNALED) => true
  | FSignaled, SUSPEND_SIGNALED => true
  | (FIdle | KLoad _ | KLoaded _ _), _ => true
  | _, _ => false
  end.

(** A waker of the current suspension that has not yet had its effect. *)
Definition f_hot (g : Z) (st : FiberStatus) (p : fpc) : bool :=
  match p with
  | KLoad g' => g' =? g
  | KLoaded g' WANTS_SUSPEND => g' =? g
  | KLoaded g' SUSPENDED => (g' =? g) && bool_decide (st = SUSPENDED)
  | _ => false
  end.

Definition waiting_status (st : FiberStatus) : bool :=
  match st with WANTS_SUSPEND | SUSPENDED => true | _ => false end.

Record finv (s : fstate) : Prop := {
  fi_total : f_placed s + num f_holds (f_pcs s) + Z.b2z (bool_decide (f_status s = SUSPENDED)) =
    Z.b2z (negb (f_gone s));
  fi_placed : 0 ≤ f_placed s;
  fi_ready : 0 < f_placed s → f_status s = READY;
  fi_allows i p : f_pcs s !! i = Some p → f_allows p (f_status s) = true;
  fi_gone : f_gone s = true → f_status s = DEAD;
  fi_gen : 0 ≤ f_gen s;
  fi_susp : waiting_status (f_status s) = true → 0 < f_gen s;
  fi_wake : f_armed s = true → f_permit s = false → waiting_status (f_status s) = true →
    0 < num (f_hot (f_gen s) (f_status s)) (f_pcs s);
  fi_permit : f_permit s = true → f_armed s = true }.

Lemma nonholder_allows p st : f_holds p = false → f_allows p st = true.
Proof. by destruct p. Qed.

Lemma holders_le s : finv s → num f_holds (f_pcs s) ≤ 1 ∧ 0 ≤ num f_holds (f_pcs s).
Proof.
  intros [Ht Hp _ _ _ _ _ _ _]. pose proof (num_nonneg f_holds (f_pcs s)).
  destruct (bool_decide _), (f_gone s); simpl in Ht; lia.
Qed.

(** While thread [i] holds the task no other thread does. *)
Lemma holder_only s i p j q :
  finv s → f_pcs s !! i = Some p → f_holds p = true → i ≠ j → f_pcs s !! j = Some q → f_holds q = false.
Proof.
  intros Hi Hp Hh Hne Hq. pose proof (holders_le s Hi) as [Hle _].
  pose proof (num_insert f_holds (f_pcs s) i p FIdle Hp) as Hn. rewrite Hh in Hn. simpl in Hn.
  pose proof (num_nonneg f_holds (<[i := FIdle]> (f_pcs s))).
  apply (num_zero f_holds (<[i := FIdle]> (f_pcs s)) j q); [lia|by rewrite lookup_insert_ne].
Qed.

Lemma holder_gone s i p : finv s → f_pcs s !! i = Some p → f_holds p = true →
  f_placed s = 0 ∧ num f_holds (f_pcs s) = 1 ∧ f_status s ≠ SUSPENDED ∧ f_gone s = false.
Proof.
  intros [Ht Hp _ _ _ _ _ _ _] Hi Hh. pose proof (num_pos f_holds _ _ _ Hi Hh).
  destruct (bool_decide (f_status s = SUSPENDED)) eqn:Hs, (f_gone s); simpl in Ht; try lia.
  apply bool_decide_eq_false in Hs. split_and!; [lia|lia|done|done].
Qed.

Lemma allows_insert s i q st :
  (∀ j p, i ≠ j → f_pcs s !! j = Some p → f_allows p st = true) → f_allows q st = true →
  ∀ j p, <[i := q]> (f_pcs s) !! j = Some p → f_allows p st = true.
Proof.
  intros Ho Hq j p Hj. destruct (decide (i = j)) as [<-|Hne].
  - rewrite lookup_insert_eq in Hj. by injection Hj as <-.
  - rewrite lookup_insert_ne in Hj by done. by eapply Ho.
Qed.

(** A step of the thread that holds the task, which may change the status. *)
Lemma holder_step s i p q st pl g ar pm gn :
  finv s → f_pcs s !! i = Some p → f_holds p = true → f_allows q st = true →
  pl + Z.b2z (f_holds q) + Z.b2z (bool_decide (st = SUSPENDED)) = Z.b2z (negb gn) → 0 ≤ pl →
  (0 < pl → st = READY) → (gn = true → st = DEAD) → 0 ≤ g → (waiting_status st = true → 0 < g) →
  (ar = true → pm = false → waiting_status st = true → 0 < num (f_hot g st) (<[i := q]> (f_pcs s))) →
  (pm = true → ar = true) →
  finv (mkF st pl (<[i := q]> (f_pcs s)) g ar pm gn).
Proof.
  intros Hi Hp Hh Hq Ht Hpl Hr Hgn Hg Hs Hw Hpm. pose proof (holder_gone _ _ _ Hi Hp Hh) as (_ & Hn & _ & _).
  constructor; simpl; try done.
  - rewrite (num_insert _ _ _ _ q Hp), Hn, Hh. simpl. lia.
  - apply allows_insert; [|done]. intros j pj Hne Hj. apply nonholder_allows. by apply (holder_only s i p j pj).
Qed.

(** A step of a thread that does not hold it and leaves the status alone. *)
Lemma other_step s i p q pm :
  finv s → f_pcs s !! i = Some p → f_holds p = false → f_holds q = false →
  (f_armed s = true → pm = false → waiting_status (f_status s) = true →
     0 < num (f_hot (f_gen s) (f_status s)) (<[i := q]> (f_pcs s))) →
  (pm = true → f_armed s = true) →
  finv (mkF (f_status s) (f_placed s) (<[i := q]> (f_pcs s)) (f_gen s) (f_armed s) pm (f_gone s)).
Proof.
  intros [Ht Hp Hr Ha Hgn Hg Hs Hw Hpm] Hi Hp1 Hq Hw' Hpm'. constructor; simpl; try done.
  - rewrite (num_insert _ _ _ _ q Hi), Hp1, Hq. simpl. lia.
  - apply allows_insert; [|by apply nonholder_allows]. intros j pj _ Hj. by eapply Ha.
Qed.

Lemma hot_keep s i p q st :
  finv s → f_pcs s !! i = Some p → f_hot (f_gen s) (f_status s) p = false → f_hot (f_gen s) st q = false →
  (∀ r, f_hot (f_gen s) (f_status s) r = true → f_hot (f_gen s) st r = true) →
  f_armed s = true → f_permit s = false → waiting_status (f_status s) = true →
  0 < num (f_hot (f_gen s) st) (<[i := q]> (f_pcs s)).
Proof.
  intros Hi Hp Hcold Hq Hmono Ha Hpm Hw. pose proof (fi_wake _ Hi Ha Hpm Hw) as Hn.
  pose proof (num_insert (f_hot (f_gen s) (f_status s)) _ i p FIdle Hp) as H1. rewrite Hcold in H1.
  pose proof (num_insert (f_hot (f_gen s) st) _ i p q Hp) as H2. rewrite Hq in H2.
  pose proof (num_insert (f_hot (f_gen s) st) _ i p FIdle Hp) as H3.
  pose proof (num_le (f_hot (f_gen s) (f_status s)) (f_hot (f_gen s) st) (<[i := FIdle]> (f_pcs s)) Hmono).
  simpl in *. lia.
Qed.

Ltac hstep Hi Hp :=
  let Hpl := fresh in let Hns := fresh in let Hgn := fresh in
  pose proof (holder_gone _ _ _ Hi Hp eq_refl) as (Hpl & _ & Hns & Hgn);
  pose proof (fi_allows _ Hi _ _ Hp); pose proof (fi_gen _ Hi); pose proof (fi_susp _ Hi);
  unfold f_move, f_set, f_place; cbn -[num]; rewrite ?Hpl, ?Hgn;
  eapply (holder_step _ _ _ _ _ _ _ _ _ _ Hi Hp);
  first [done | lia | by apply Hi | by auto | by destruct (f_status _)
        | by rewrite bool_decide_false by congruence | by intros; eapply hot_keep | idtac].

Lemma worker_step_inv s i s' : finv s → worker_step i s s' → finv s'.
Proof.
  intros Hi Hst.
  destruct Hst as [Hp Hpl|Hp|Hp|Hp Ha|Hp|Hp|Hp|Hp|Hp|Hp|l Hp H1 H2 Hs|l Hp H1 H2 Hs|l Hp H1 H2 Hs Hs'|Hp|Hp].
  - (* pick *)
    pose proof Hi as [Ht Hpl0 Hr Ha Hgn Hg Hsu Hw Hpm].
    specialize (Hr Hpl). pose proof (num_nonneg f_holds (f_pcs s)).
    constructor; simpl; try done; try lia.
    + rewrite (num_insert _ _ _ _ FStart Hp). simpl. lia.
    + rewrite Hr. apply allows_insert; [|done]. intros j pj _ Hj. specialize (Ha j pj Hj). by rewrite Hr in Ha.
    + rewrite Hr. done.
  - hstep Hi Hp.
  - hstep Hi Hp.
  - destruct Hi. by constructor.
  - hstep Hi Hp.
  - hstep Hi Hp.
  - hstep Hi Hp.
  - hstep Hi Hp.
  - hstep Hi Hp.
  - hstep Hi Hp.
  - hstep Hi Hp. intros Ha Hpm _. eapply hot_keep; try done; rewrite Hs; [|done].
    intros []; simpl; try done. destruct s0; try done. by rewrite andb_false_r.
  - hstep Hi Hp.
  - pose proof (fi_allows _ Hi _ _ Hp) as Hal. by destruct l, (f_status s).
  - hstep Hi Hp.
  - hstep Hi Hp.
Qed.

Lemma f_total_suspended s : finv s → f_status s = SUSPENDED →
  f_placed s = 0 ∧ num f_holds (f_pcs s) = 0 ∧ f_gone s = false.
Proof.
  intros [Ht Hp _ _ Hgn _ _ _ _] Hs. pose proof (num_nonneg f_holds (f_pcs s)).
  rewrite bool_decide_true in Ht by done. destruct (f_gone s); [by rewrite Hgn in Hs|].
  simpl in Ht. split_and!; [lia|lia|done].
Qed.

(** [SUSPENDED] becomes [READY] in the hands of a waker. *)
Lemma claim_inv s i g :
  finv s → f_pcs s !! i = Some (KLoaded g SUSPENDED) → f_status s = SUSPENDED →
  finv (f_move i KPlace (f_set READY s)).
Proof.
  intros Hi Hp Hs. destruct (f_total_suspended s Hi Hs) as (Hpl & Hn & Hgn).
  pose proof Hi as [Ht Hp0 Hr Ha Hg0 Hg Hsu Hw Hpm]. constructor; simpl; try done.
  - rewrite (num_insert _ _ _ _ KPlace Hp), Hn, Hpl, Hgn. done.
  - apply allows_insert; [|done]. intros j pj _ Hj. apply nonholder_allows. by eapply num_zero.
  - congruence.
Qed.

(** [WANTS_SUSPEND] becomes [SUSPEND_SIGNALED]: the running side will see it. *)
Lemma signal_inv s i g :
  finv s → f_pcs s !! i = Some (KLoaded g WANTS_SUSPEND) → f_status s = WANTS_SUSPEND →
  finv (f_move i FIdle (f_set SUSPEND_SIGNALED s)).
Proof.
  intros Hi Hp Hs. pose proof Hi as [Ht Hp0 Hr Ha Hg0 Hg Hsu Hw Hpm].
  rewrite Hs in Ht. simpl in Ht. constructor; simpl; try done.
  - rewrite (num_insert _ _ _ _ FIdle Hp). simpl. lia.
  - intros Hpos. specialize (Hr Hpos). congruence.
  - apply allows_insert; [|done]. intros j pj _ Hj. specialize (Ha j pj Hj). rewrite Hs in Ha.
    destruct pj as [| | | | |l| | | | |]; try done; by destruct l.
  - intros H. specialize (Hg0 H). congruence.
Qed.

(** A waker that goes from one hot position to another, or from a cold one. *)
Lemma wake_keep s i p q :
  finv s → f_pcs s !! i = Some p → f_hot (f_gen s) (f_status s) q = f_hot (f_gen s) (f_status s) p →
  f_armed s = true → f_permit s = false → waiting_status (f_status s) = true →
  0 < num (f_hot (f_gen s) (f_status s)) (<[i := q]> (f_pcs s)).
Proof.
  intros Hi Hp Hq Ha Hpm Hw. pose proof (fi_wake _ Hi Ha Hpm Hw) as Hn.
  rewrite (num_insert _ _ _ _ q Hp), Hq. lia.
Qed.

Lemma waker_step_inv s i s' : finv s → waker_step i s s' → finv s'.
Proof.
  intros Hi Hst. pose proof (fi_permit _ Hi) as Hpm.
  destruct Hst as [Hp Hk|Hp|g Hp|g Hp Hs|g Hp Hs|g Hp Hs|g Hp Hs|Hp].
  - eapply other_step; try done. intros _ _ _.
    eapply (num_pos _ _ i (KLoad (f_gen s))); [apply lookup_insert_eq|]. simpl. by rewrite Z.eqb_refl.
  - eapply other_step; try done. intros Ha Hk Hw. pose proof (fi_susp _ Hi Hw).
    eapply wake_keep; try done.
    change ((0 =? f_gen s) = false). apply Z.eqb_neq. lia.
  - eapply other_step; try done.
    + by destruct (decide _).
    + intros Ha Hk Hw. eapply wake_keep; try done.
      destruct (f_status s); simpl; try done. by rewrite andb_true_r.
  - by eapply claim_inv.
  - eapply other_step; try done. intros. eapply wake_keep; try done. simpl.
    rewrite bool_decide_false by done. by rewrite andb_false_r.
  - by eapply signal_inv.
  - eapply other_step; try done. intros. by eapply wake_keep.
  - hstep Hi Hp.
Qed.

Lemma reachable_finv s : reachable finit fstep s → finv s.
Proof.
  apply reachable_ind.
  - intros ? (pcs & Hp & ->). constructor; simpl; try done.
    + rewrite (num_none f_holds); [done|]. intros i p Hi. by rewrite (Hp _ _ Hi).
    + intros i p Hi. by rewrite (Hp _ _ Hi).
  - intros s1 s2 Hi [i s' H|i s' H]; [by eapply worker_step_inv|by eapply waker_step_inv].
Qed.

(** ** Theorems *)

(** C3: A live fiber is in exactly one place: once in a run queue, or with exactly one
    thread, or suspended.  However many wakers race, it is never queued twice and never
    run by two threads, and it is READY whenever it is queued. *)
Theorem fiber_one_place s :
  reachable finit fstep s →
  f_placed s + num f_holds (f_pcs s) + Z.b2z (bool_decide (f_status s = SUSPENDED)) =
    Z.b2z (negb (f_gone s)) ∧
  (0 ≤ f_placed s ≤ 1) ∧ (f_placed s = 1 → f_status s = READY) ∧
  (∀ i j p q, f_pcs s !! i = Some p → f_pcs s !! j = Some q → f_holds p = true → f_holds q = true → i = j).
Proof.
  intros Hi%reachable_finv. pose proof Hi as [Ht Hp Hr _ _ _ _ _ _].
  pose proof (num_nonneg f_holds (f_pcs s)). split_and!; [done|done| | |].
  - destruct (bool_decide _), (f_gone s); simpl in Ht; lia.
  - intros H1. apply Hr. lia.
  - intros i j p q Hpi Hqj Hhp Hhq. destruct (decide (i = j)) as [|Hne]; [done|].
    pose proof (holder_only s i p j q Hi Hpi Hhp Hne Hqj). congruence.
Qed.

(** C4: No wakeup is lost: if the current suspension was published, its waker has
    called [Resume], and every thread is between operations, the fiber is not suspended:
    it is in a run queue (or has finished). *)
Theorem fiber_no_lost_wakeup s :
  reachable finit fstep s → f_armed s = true → f_permit s = false →
  (∀ i p, f_pcs s !! i = Some p → p = FIdle) →
  f_gone s = false → f_placed s = 1 ∧ f_status s = READY.
Proof.
  intros Hi%reachable_finv Ha Hpm Hidle Hgn. pose proof Hi as [Ht Hp Hr _ _ _ _ Hw _].
  rewrite (num_none f_holds), Hgn in Ht by (intros i p Hip; by rewrite (Hidle _ _ Hip)). simpl in Ht.
  assert (Hns : f_status s ≠ SUSPENDED).
  { intros Hs. specialize (Hw Ha Hpm). rewrite Hs in Hw. specialize (Hw eq_refl).
    rewrite num_none in Hw; [lia|]. intros i p Hip. by rewrite (Hidle _ _ Hip). }
  rewrite bool_decide_false in Ht by done. simpl in Ht. split; [lia|]. apply Hr. lia.
Qed.

(** Thread 0 runs the fiber; thread 1 resumes it between its [BeginSuspend] and its switch
    back to the scheduler. *)
Definition fiber_start : fstate :=
  mkF READY 1 {[0%nat := FIdle; 1%nat := FIdle]} 0 false false false.
Definition fiber_end : fstate :=
  mkF READY 1 {[0%nat := FIdle; 1%nat := FIdle]} 1 true false false.

Lemma two_idle i p : ({[0%nat := FIdle; 1%nat := FIdle]} : gmap nat fpc) !! i = Some p → p = FIdle.
Proof.
  intros [[_ <-]|[_ [_ <-]%lookup_singleton_Some]]%lookup_insert_Some; done.
Qed.

Lemma fiber_end_reachable : reachable finit fstep fiber_end.
Proof.
  exists fiber_start. split; [eexists; split; [apply two_idle|done]|].
  run_step f_worker (f_pick 0%nat). run_step f_worker (f_start 0%nat). run_step f_worker (f_suspend 0%nat).
  run_step f_worker (f_register 0%nat). run_step f_waker (k_start 1%nat). run_step f_waker (k_load 1%nat).
  run_step f_worker (f_switch 0%nat). run_step f_waker (k_signal 1%nat).
  run_step f_worker (f_load 0%nat).
  eapply rtc_l; [eapply f_worker, (f_park_signaled 0%nat _ SUSPEND_SIGNALED); [reflexivity|done|done|reflexivity]|].
  eval_state.
  run_step f_worker (f_unsignal 0%nat). run_step f_worker (f_requeue 0%nat).
  vm_compute. apply rtc_refl.
Qed.

Lemma fiber_one_place_witness :
  f_placed fiber_end + num f_holds (f_pcs fiber_end) +
    Z.b2z (bool_decide (f_status fiber_end = SUSPENDED)) = 1 ∧ (0 ≤ f_placed fiber_end ≤ 1).
Proof.
  destruct (fiber_one_place fiber_end fiber_end_reachable) as (H1 & H2 & _). by split.
Defined.

Lemma fiber_no_lost_wakeup_witness : f_placed fiber_end = 1 ∧ f_status fiber_end = READY.
Proof.
  apply (fiber_no_lost_wakeup fiber_end fiber_end_reachable eq_refl eq_refl); [apply two_idle|done].
Defined.

(** ** The initial frame is the one the switch expects *)

Lemma push_words_sp ws sp m : (push_words ws sp m).1 = sp - 8 * Z.of_nat (length ws).
Proof.
  revert sp m. induction ws as [|w ws IH]; intros sp m; simpl; [lia|]. rewrite IH. lia.
Qed.

Lemma push_words_above ws sp m a : sp ≤ a → next_of (push_words ws sp m).2 a = next_of m a.
Proof.
  revert sp m. induction ws as [|w ws IH]; intros sp m Ha; simpl; [done|].
  rewrite IH by lia. rewrite next_of_insert, decide_False by lia. done.
Qed.

Lemma push_words_lookup ws sp m i w :
  ws !! i = Some w → next_of (push_words ws sp m).2 (sp - 8 * (Z.of_nat i + 1)) = w.
Proof.
  revert sp m i. induction ws as [|x ws IH]; intros sp m i Hi; [done|]. destruct i as [|i]; simpl in *.
  - injection Hi as ->. rewrite push_words_above by lia.
    apply next_of_eq.
  - rewrite <- (IH (sp - 8) (<[sp - 8 := x]> m) i Hi). f_equal. lia.
Qed.

(** The [k]-th word of the frame, counted from the saved stack pointer. *)
Lemma push_words_frame ws sp m k i w :
  ws !! i = Some w → k = Z.of_nat (length ws) - Z.of_nat i - 1 →
  frame (push_words ws sp m).2 (push_words ws sp m).1 k = w.
Proof.
  intros Hi ->. unfold frame. rewrite push_words_sp, <- (push_words_lookup ws sp m i w Hi).
  f_equal. lia.
Qed.

(** Words of the frame are all inside the stack. *)
Lemma push_words_below ws sp m a :
  a < sp - 8 * Z.of_nat (length ws) → next_of (push_words ws sp m).2 a = next_of m a.
Proof.
  revert sp m. induction ws as [|w ws IH]; intros sp m Ha; simpl in *; [done|].
  rewrite IH by lia. rewrite next_of_insert, decide_False by lia. done.
Qed.

Lemma stack_top_range f : stackBase f + stackSize f - 16 < stack_top f ≤ stackBase f + stackSize f ∧
  stack_top f `mod` 16 = 0.
Proof.
  unfold stack_top. change 0xF with (Z.ones 4). rewrite Z.ldiff_ones_r by lia.
  rewrite Z.shiftl_mul_pow2, Z.shiftr_div_pow2 by lia. change (2 ^ 4) with 16.
  pose proof (Z.div_mod (stackBase f + stackSize f) 16). pose proof (Z.mod_pos_bound (stackBase f + stackSize f) 16).
  split; [lia|]. apply Z_mod_mult.
Qed.

Lemma top_aligned f k : (stack_top f - 16 * k) `mod` 16 = 0.
Proof.
  destruct (stack_top_range f) as [_ Hm].
  rewrite Zminus_mod, Hm, (Z.mul_comm 16 k), Z_mod_mult. done.
Qed.

Lemma sysv_frame tramp entry f m :
  let '(f', m') := Init_sysv tramp entry f m in
  restore_sysv m' (rsp f') = mkRestored tramp entry fp_word (stack_top f) None ∧ rsp f' `mod` 16 = 0.
Proof.
  unfold Init_sysv. pose proof (push_words_frame (sysv_words tramp entry) (stack_top f) m) as F.
  pose proof (push_words_sp (sysv_words tramp entry) (stack_top f) m) as S.
  destruct (push_words _ _ m) as [sp m1]. simpl in S. cbn [rsp set_rsp fst snd] in *.
  split; [|replace sp with (stack_top f - 16 * 4) by lia; apply top_aligned]. unfold restore_sysv.
  rewrite (F 7 0%nat tramp), (F 5 2%nat entry), (F 0 7%nat fp_word) by done. f_equal. lia.
Qed.

Lemma win64_frame tramp page entry f m :
  let '(f', m') := Init_win64 tramp page entry f m in
  restore_win64 m' (rsp f') = mkRestored tramp entry fp_word (stack_top f - 32)
    (Some (stackBase f + stackSize f, stackBase f + page, stackBase f)) ∧ rsp f' `mod` 16 = 0.
Proof.
  unfold Init_win64. pose proof (push_words_frame (win64_words tramp page f entry) (stack_top f - 32) m) as F.
  pose proof (push_words_sp (win64_words tramp page f entry) (stack_top f - 32) m) as S.
  destruct (push_words _ _ m) as [sp m1]. simpl in S. cbn [rsp set_rsp fst snd] in *.
  split; [|replace sp with (stack_top f - 16 * 19) by lia; apply top_aligned]. unfold restore_win64.
  rewrite (F 33 0%nat tramp), (F 32 1%nat entry), (F 20 13%nat fp_word), (F 24 9%nat (TebStackBase f)),
    (F 23 10%nat (TebStackLimit page f)), (F 22 11%nat (TebDealloc f)) by done.
  f_equal. lia.
Qed.

Lemma aarch64_frame tramp page entry f m :
  let '(f', m') := Init_aarch64 tramp page false entry f m in
  restore_aarch64 m' (rsp f') = mkRestored tramp entry 0 (stack_top f) None ∧ rsp f' `mod` 16 = 0.
Proof.
  unfold Init_aarch64. pose proof (push_words_frame (aarch64_words tramp page f entry false) (stack_top f) m) as F.
  pose proof (push_words_sp (aarch64_words tramp page f entry false) (stack_top f) m) as S.
  destruct (push_words _ _ m) as [sp m1]. simpl in S. cbn [rsp set_rsp fst snd] in *.
  split; [|replace sp with (stack_top f - 16 * 11) by lia; apply top_aligned]. unfold restore_aarch64.
  rewrite (F 21 0%nat tramp), (F 10 11%nat entry), (F 8 13%nat 0) by done. f_equal. lia.
Qed.

(** Pushing at most 304 bytes below the top stays inside the stack. *)
Lemma push_words_inside f ws sp m a :
  304 + 16 ≤ stackSize f → sp ≤ stackBase f + stackSize f → stackBase f ≤ sp - 8 * Z.of_nat (length ws) →
  a < stackBase f ∨ stackBase f + stackSize f ≤ a → next_of (push_words ws sp m).2 a = next_of m a.
Proof. intros Hs H1 H2 [Ha|Ha]; [apply push_words_below|apply push_words_above]; lia. Qed.

(** On every ABI the first switch to a fresh fiber lands in the trampoline, with the
    entry point in the register the trampoline calls, default floating-point control, a
    16-aligned stack pointer (and on Windows the fiber's own stack bounds), and [Init] has
    written only inside the fiber's stack. *)
Theorem fiber_first_switch tramp page entry f m :
  304 + 16 ≤ stackSize f →
  (let '(f', m') := Init_sysv tramp entry f m in
   restore_sysv m' (rsp f') = mkRestored tramp entry fp_word (stack_top f) None ∧
   rsp f' `mod` 16 = 0) ∧
  (let '(f', m') := Init_win64 tramp page entry f m in
   restore_win64 m' (rsp f') = mkRestored tramp entry fp_word (stack_top f - 32)
     (Some (stackBase f + stackSize f, stackBase f + page, stackBase f)) ∧ rsp f' `mod` 16 = 0) ∧
  (let '(f', m') := Init_aarch64 tramp page false entry f m in
   restore_aarch64 m' (rsp f') = mkRestored tramp entry 0 (stack_top f) None ∧ rsp f' `mod` 16 = 0) ∧
  (∀ a, a < stackBase f ∨ stackBase f + stackSize f ≤ a →
     next_of (Init_sysv tramp entry f m).2 a = next_of m a ∧
     next_of (Init_win64 tramp page entry f m).2 a = next_of m a ∧
     next_of (Init_aarch64 tramp page false entry f m).2 a = next_of m a).
Proof.
  intros Hsz. pose proof (stack_top_range f) as [Hr _].
  split_and!; [apply sysv_frame|apply win64_frame|apply aarch64_frame|]. intros a Ha.
  pose proof (push_words_inside f (sysv_words tramp entry) (stack_top f) m a Hsz) as H1.
  pose proof (push_words_inside f (win64_words tramp page f entry) (stack_top f - 32) m a Hsz) as H2.
  pose proof (push_words_inside f (aarch64_words tramp page f entry false) (stack_top f) m a Hsz) as H3.
  unfold Init_sysv, Init_win64, Init_aarch64.
  destruct (push_words (sysv_words tramp entry) _ m), (push_words (win64_words tramp page f entry) _ m),
    (push_words (aarch64_words tramp page f entry false) _ m).
  simpl in *. split_and!; [apply H1|apply H2|apply H3]; lia.
Qed.

Lemma fiber_first_switch_witness :
  let f := mkFiber 0 65536 65536 Standard 0 0 0 0 READY in
  restore_sysv (Init_sysv 4242 777 f ∅).2 (rsp (Init_sysv 4242 777 f ∅).1) =
    mkRestored 4242 777 fp_word 131072 None.
Proof.
  intros f. pose proof (fiber_first_switch 4242 4096 777 f ∅) as H.
  destruct H as [H _]; [vm_compute; discriminate|].
  destruct (Init_sysv 4242 777 f ∅) as [f' m']. destruct H as [H _]. exact H.
Defined.
