(* ===== verification/CancelTokens.v ===== *)
(** * Cancellation scopes and tokens (include/CancelToken.h, src/CancelToken.cpp)

    A scope owns a slot of a fixed table; a token is the slot's index with the slot's
    generation, so a token outlives its scope safely; a scope may have a parent token, and
    a token is cancelled when its slot or one of its ancestors is.  Slots are handed out by
    a lock-free stack whose head carries a tag.  First the token operations on the table,
    then the free stack as a step relation over its atomic accesses. *)

From S2P Require Import Prelude.

(** ** The table *)

Definition kCancelSlots : Z := 65535.
Definition kMaxScopeDepth : nat := 8.
Definition kNoToken : Z := 0xFFFFFFFF.
Definition kCancelledBit : Z := 1.

Record CancelSlot := mkSlot { state : Z; parent : Z; nextFree : Z }.

Definition GenOf (s : Z) : Z := Z.land (Z.shiftr s 32) 0xFFFF.
Definition CancelledIn (s : Z) : bool := negb (Z.land s kCancelledBit =? 0).

(** The table (an untouched slot as the initialiser leaves it) and [FreeHead()]. *)
Record Cancel := mkCancel { table : gmap Z CancelSlot; freeHead : Z }.

Definition slot_of (c : Cancel) (i : Z) : CancelSlot :=
  default (mkSlot 0 kNoToken (if i =? kCancelSlots - 1 then 0 else i + 2)) (table c !! i).

Definition cancel_init : Cancel := mkCancel ∅ 1.

Definition set_slot (i : Z) (s : CancelSlot) (c : Cancel) : Cancel :=
  mkCancel (<[i := s]> (table c)) (freeHead c).

Definition kIndexMask : Z := 0xFFFFFFFF.

(** [(((head >> 32) + 1) << 32) | low], in 64 bits. *)
Definition bump_head (head low : Z) : Z := Z.lor (u64 (Z.shiftl (Z.shiftr head 32 + 1) 32)) low.

Definition AcquireSlot (c : Cancel) : option Z * Cancel :=
  let idx := Z.land (freeHead c) kIndexMask in
  if idx =? 0 then (None, c)
  else (Some (idx - 1), mkCancel (table c) (bump_head (freeHead c) (nextFree (slot_of c (idx - 1))))).

Definition ReleaseSlot (i : Z) (c : Cancel) : Cancel :=
  let s := slot_of c i in
  mkCancel (<[i := mkSlot (state s) (parent s) (Z.land (freeHead c) kIndexMask)]> (table c))
    (bump_head (freeHead c) (i + 1)).

(** ** Tokens *)

Definition token_index (raw : Z) : Z := Z.land raw 0xFFFF.
Definition token_gen (raw : Z) : Z := Z.shiftr raw 16.
Definition Valid (raw : Z) : bool := negb (raw =? kNoToken).

Definition ResolveCancelSlot (c : Cancel) (raw : Z) : option CancelSlot :=
  if kCancelSlots <=? token_index raw then None
  else
    let s := slot_of c (token_index raw) in
    if GenOf (state s) =? token_gen raw then Some s else None.

(** [Cancelled]: at most [depth] links are followed. *)
Fixpoint cancelled_loop (depth : nat) (c : Cancel) (raw : Z) : bool :=
  match depth with
  | O => false
  | S d =>
      if raw =? kNoToken then false
      else if kCancelSlots <=? token_index raw then false
      else
        let s := slot_of c (token_index raw) in
        if negb (GenOf (state s) =? token_gen raw) then false
        else if CancelledIn (state s) then true
        else cancelled_loop d c (parent s)
  end.
Definition Cancelled (c : Cancel) (raw : Z) : bool := cancelled_loop kMaxScopeDepth c raw.

Fixpoint within_loop (depth : nat) (c : Cancel) (ancestor raw : Z) : bool :=
  match depth with
  | O => false
  | S d =>
      if raw =? kNoToken then false
      else if raw =? ancestor then true
      else if kCancelSlots <=? token_index raw then false
      else
        let s := slot_of c (token_index raw) in
        if negb (GenOf (state s) =? token_gen raw) then false
        else within_loop d c ancestor (parent s)
  end.
Definition IsWithin (c : Cancel) (raw ancestor : Z) : bool :=
  Valid ancestor && within_loop kMaxScopeDepth c ancestor raw.

(** [CancelVia]. *)
Definition CancelVia (raw : Z) (c : Cancel) : bool * Cancel :=
  if raw =? kNoToken then (false, c)
  else if kCancelSlots <=? token_index raw then (false, c)
  else
    let i := token_index raw in
    let s := slot_of c i in
    if negb (GenOf (state s) =? token_gen raw) then (false, c)
    else if CancelledIn (state s) then (true, c)
    else (true, set_slot i (mkSlot (Z.lor (state s) kCancelledBit) (parent s) (nextFree s)) c).

(** ** Scopes: a scope is its raw token *)

Definition make_token (gen i : Z) : Z := Z.lor (Z.shiftl gen 16) i.

Definition new_scope_with (par : Z) (c : Cancel) : Z * Cancel :=
  match AcquireSlot c with
  | (None, c) => (kNoToken, c)
  | (Some i, c) =>
      let s := slot_of c i in
      (make_token (GenOf (state s)) i, set_slot i (mkSlot (state s) par (nextFree s)) c)
  end.

Definition CancelScope_new (c : Cancel) : Z * Cancel := new_scope_with kNoToken c.

(** [CancelScope(parent)]: a stale parent counts as none.  The slot is acquired first. *)
Definition CancelScope_child (par : Z) (c : Cancel) : Z * Cancel :=
  match AcquireSlot c with
  | (None, c) => (kNoToken, c)
  | (Some i, c) =>
      let p := match ResolveCancelSlot c par with Some _ => par | None => kNoToken end in
      let s := slot_of c i in
      (make_token (GenOf (state s)) i, set_slot i (mkSlot (state s) p (nextFree s)) c)
  end.

(** The state after the destructor: the 32-bit generation plus one, nothing cancelled. *)
Definition next_state (st : Z) : Z := Z.shiftl (u32 (u32 (Z.shiftr st 32) + 1)) 32.

Definition CancelScope_delete (raw : Z) (c : Cancel) : Cancel :=
  if raw =? kNoToken then c
  else
    let i := token_index raw in
    let s := slot_of c i in
    ReleaseSlot i (set_slot i (mkSlot (next_state (state s)) kNoToken (nextFree s)) c).

Definition CancelScope_Cancel (raw : Z) (c : Cancel) : Cancel :=
  if raw =? kNoToken then c
  else
    let i := token_index raw in
    let s := slot_of c i in
    set_slot i (mkSlot (Z.lor (state s) kCancelledBit) (parent s) (nextFree s)) c.

(** ** Well-formed tables *)

(** A state word: the 32-bit generation above the cancelled bit. *)
Definition mk_state (g : Z) (b : bool) : Z := g * 2 ^ 32 + Z.b2z b.
Definition state_ok (st : Z) : Prop := ∃ g b, (0 ≤ g < 2 ^ 32) ∧ st = mk_state g b.

Lemma mk_state_shift g b : Z.shiftr (mk_state g b) 32 = g.
Proof.
  rewrite Z.shiftr_div_pow2 by lia. unfold mk_state. rewrite Z.div_add_l by lia.
  rewrite Z.div_small by (destruct b; simpl; lia). lia.
Qed.

Lemma mk_state_gen g b : GenOf (mk_state g b) = g `mod` 2 ^ 16.
Proof. unfold GenOf. rewrite mk_state_shift. apply (land_mask g 16). lia. Qed.

Lemma mk_state_bit g b : CancelledIn (mk_state g b) = b.
Proof.
  unfold CancelledIn. change kCancelledBit with (2 ^ 1 - 1). rewrite land_mask by lia.
  unfold mk_state. replace (g * 2 ^ 32 + Z.b2z b) with (Z.b2z b + g * 2 ^ 31 * 2 ^ 1) by ring.
  rewrite Z_mod_plus_full. by destruct b.
Qed.

Lemma mk_state_or g b : (0 ≤ g) → Z.lor (mk_state g b) kCancelledBit = mk_state g true.
Proof.
  intros Hg. unfold mk_state, kCancelledBit.
  assert (Hm : Z.lor (g * 2 ^ 32) 1 = g * 2 ^ 32 + 1).
  { assert (Hl : Z.land (g * 2 ^ 32) (2 ^ 1 - 1) = 0).
    { rewrite land_mask by lia. replace (g * 2 ^ 32) with (g * 2 ^ 31 * 2 ^ 1) by ring. apply Z_mod_mult. }
    symmetry. by rewrite Z.add_nocarry_lxor, Z.lxor_lor. }
  destruct b; simpl; [|rewrite Z.add_0_r; exact Hm].
  rewrite <- Hm, <- Z.lor_assoc. done.
Qed.

Lemma mk_state_next g b :
  (0 ≤ g < 2 ^ 32) → next_state (mk_state g b) = mk_state ((g + 1) `mod` 2 ^ 32) false.
Proof.
  intros Hg. unfold next_state. rewrite mk_state_shift, (u32_small g) by lia.
  rewrite Z.shiftl_mul_pow2 by lia. unfold mk_state, u32. simpl. lia.
Qed.

Lemma token_fields gen i :
  (0 ≤ gen < 2 ^ 16) → (0 ≤ i < kCancelSlots) →
  token_index (make_token gen i) = i ∧ token_gen (make_token gen i) = gen ∧ make_token gen i ≠ kNoToken.
Proof.
  intros Hg Hi. unfold make_token, token_index, token_gen, kCancelSlots in *.
  rewrite Z.shiftl_mul_pow2 by lia.
  assert (Hlow : Z.land (Z.lor (gen * 2 ^ 16) i) 0xFFFF = i).
  { change 0xFFFF with (2 ^ 16 - 1). apply tag_low; [lia|lia|]. apply Z_mod_mult. }
  split_and!; [done| |].
  - rewrite Z.shiftr_lor, Z.shiftr_div_pow2, Z.div_mul by lia.
    rewrite Z.shiftr_div_pow2, Z.div_small by lia. apply Z.lor_0_r.
  - intros He. rewrite He in Hlow. change (Z.land kNoToken 0xFFFF) with 65535 in Hlow. lia.
Qed.

Lemma gen_range st : state_ok st → 0 ≤ GenOf st < 2 ^ 16.
Proof. intros (g & b & Hg & ->). rewrite mk_state_gen. apply Z.mod_pos_bound. lia. Qed.

Lemma slot_of_set i s c j : slot_of (set_slot i s c) j = if decide (i = j) then s else slot_of c j.
Proof.
  unfold slot_of, set_slot. simpl. destruct (decide (i = j)) as [->|Hne].
  - by rewrite lookup_insert_eq.
  - by rewrite lookup_insert_ne.
Qed.

(** The free stack: [h] is an index plus one, 0 the end. *)
Fixpoint free_chain (c : Cancel) (h : Z) (l : list Z) : Prop :=
  match l with
  | [] => h = 0
  | i :: l' => h = i + 1 ∧ (0 ≤ i < kCancelSlots) ∧ free_chain c (nextFree (slot_of c i)) l'
  end.

Record table_inv (c : Cancel) (l : list Z) : Prop := {
  ti_states i : state_ok (state (slot_of c i));
  ti_free : free_chain c (Z.land (freeHead c) kIndexMask) l;
  ti_nodup : NoDup l }.

(** No free slot is marked: so it is while no token is used that the generations confuse. *)
Record cancel_inv (c : Cancel) (l : list Z) : Prop := {
  ci_table : table_inv c l;
  ci_clean i : i ∈ l → CancelledIn (state (slot_of c i)) = false }.

Lemma ci_states c l i : cancel_inv c l → state_ok (state (slot_of c i)).
Proof. intros [H _]. apply H. Qed.

Lemma free_chain_ext c c' h l :
  (∀ i, i ∈ l → nextFree (slot_of c' i) = nextFree (slot_of c i)) → free_chain c h l → free_chain c' h l.
Proof.
  revert h. induction l as [|i l IH]; intros h He; simpl; [done|]. intros (-> & Hi & Hl).
  rewrite He by set_solver. split_and!; [done|lia|lia|]. apply IH; [|done]. set_solver.
Qed.

Lemma free_chain_head c h l : free_chain c h l → 0 ≤ h < 2 ^ 32.
Proof. destruct l; simpl; [lia|]. unfold kCancelSlots. lia. Qed.

Lemma bump_head_index head low : (0 ≤ low < 2 ^ 32) → Z.land (bump_head head low) kIndexMask = low.
Proof.
  intros Hl. unfold bump_head, kIndexMask. change 0xFFFFFFFF with (2 ^ 32 - 1). apply tag_low; [lia|lia|].
  rewrite Z.shiftl_mul_pow2 by lia. unfold u64.
  replace (2 ^ 64) with (2 ^ 32 * 2 ^ 32) by lia. rewrite Zmult_mod_distr_r. apply Z_mod_mult.
Qed.

Lemma AcquireSlot_table c i l :
  table_inv c (i :: l) →
  ∃ c', AcquireSlot c = (Some i, c') ∧ (∀ j, slot_of c' j = slot_of c j) ∧ table_inv c' l ∧
    (0 ≤ i < kCancelSlots) ∧ i ∉ l.
Proof.
  intros [Hs (Hh & Hi & Hf) [Hnin Hnd]%NoDup_cons]. unfold AcquireSlot. rewrite Hh.
  rewrite (proj2 (Z.eqb_neq _ _)) by lia. replace (i + 1 - 1) with i by lia.
  eexists. split; [reflexivity|]. split; [done|]. split; [|done]. constructor; try done.
  simpl. rewrite bump_head_index by (by eapply free_chain_head).
  eapply free_chain_ext; [|exact Hf]. done.
Qed.

Lemma AcquireSlot_spec c i l :
  cancel_inv c (i :: l) →
  ∃ c', AcquireSlot c = (Some i, c') ∧ (∀ j, slot_of c' j = slot_of c j) ∧ cancel_inv c' l ∧
    (0 ≤ i < kCancelSlots) ∧ i ∉ l.
Proof.
  intros [Ht Hc]. destruct (AcquireSlot_table _ _ _ Ht) as (c' & H1 & H2 & H3 & H4). exists c'. split_and!; try done; try apply H4.
  constructor; [done|]. intros j Hj. rewrite H2. apply Hc. set_solver.
Qed.

Lemma ReleaseSlot_table c i l :
  table_inv c l → (0 ≤ i < kCancelSlots) → i ∉ l →
  table_inv (ReleaseSlot i c) (i :: l) ∧
  (∀ j, state (slot_of (ReleaseSlot i c) j) = state (slot_of c j)).
Proof.
  intros [Hs Hf Hnd] Hi Hnin.
  set (s' := mkSlot (state (slot_of c i)) (parent (slot_of c i)) (Z.land (freeHead c) kIndexMask)).
  assert (Hslot : ∀ j, slot_of (ReleaseSlot i c) j = if decide (i = j) then s' else slot_of c j).
  { intros j. rewrite <- (slot_of_set i s' c j). done. }
  assert (Hst : ∀ j, state (slot_of (ReleaseSlot i c) j) = state (slot_of c j)).
  { intros j. rewrite Hslot. by destruct (decide (i = j)) as [<-|]. }
  split; [|done]. constructor.
  - intros j. by rewrite Hst.
  - unfold ReleaseSlot at 2. simpl freeHead. rewrite bump_head_index by (unfold kCancelSlots in *; lia).
    split_and!; [done|lia|lia|]. rewrite Hslot, decide_True by done. simpl.
    eapply free_chain_ext; [|exact Hf]. intros j Hj. rewrite Hslot, decide_False by set_solver. done.
  - by apply NoDup_cons.
Qed.

(** ** Lineages *)

(** The token names a slot in the slot's present generation. *)
Definition live (c : Cancel) (raw : Z) : Prop :=
  raw ≠ kNoToken ∧ token_index raw < kCancelSlots ∧
  GenOf (state (slot_of c (token_index raw))) = token_gen raw.

Definition bit_set (c : Cancel) (raw : Z) : Prop :=
  CancelledIn (state (slot_of c (token_index raw))) = true.

Definition parent_of (c : Cancel) (raw : Z) : Z := parent (slot_of c (token_index raw)).

(** [raw], its parent, its grandparent, ... each one live except perhaps the last. *)
Fixpoint lineage (c : Cancel) (raw : Z) (l : list Z) : Prop :=
  match l with
  | [] => True
  | r :: l' => live c raw ∧ parent_of c raw = r ∧ lineage c r l'
  end.

Lemma cancelled_live d c raw :
  live c raw →
  cancelled_loop (S d) c raw =
    CancelledIn (state (slot_of c (token_index raw))) || cancelled_loop d c (parent_of c raw).
Proof.
  intros (Hn & Hi & Hg). cbn [cancelled_loop]. rewrite (proj2 (Z.eqb_neq _ _)) by done.
  rewrite (proj2 (Z.leb_gt _ _)) by done. rewrite Hg, Z.eqb_refl. cbn [negb].
  by destruct (CancelledIn _).
Qed.

Lemma cancelled_dead d c raw : ¬ live c raw → cancelled_loop d c raw = false.
Proof.
  intros Hl. destruct d as [|d]; [done|]. cbn [cancelled_loop]. destruct (raw =? kNoToken) eqn:H1; [done|].
  destruct (kCancelSlots <=? token_index raw) eqn:H2; [done|].
  destruct (_ =? token_gen raw) eqn:H3; [|done]. exfalso. apply Hl.
  apply Z.eqb_neq in H1. apply Z.leb_gt in H2. by apply Z.eqb_eq in H3.
Qed.

#[export] Instance live_dec c raw : Decision (live c raw).
Proof. unfold live. apply _. Defined.

Lemma cancelled_loop_iff d c raw :
  cancelled_loop d c raw = true ↔
  ∃ l r, lineage c raw l ∧ (length l < d)%nat ∧ last (raw :: l) = Some r ∧ live c r ∧ bit_set c r.
Proof.
  revert raw. induction d as [|d IH]; intros raw.
  { split; [done|]. intros (l & r & _ & Hl & _). lia. }
  destruct (decide (live c raw)) as [Hlv|Hd].
  - rewrite cancelled_live by done. rewrite orb_true_iff, IH. split.
    + intros [Hb|(l & r & Hl & Hlen & Hlast & Hr)].
      * exists [], raw. split_and!; [done|simpl; lia|done|done|done].
      * exists (parent_of c raw :: l), r. split_and!; [done|simpl; lia|by rewrite last_cons_cons|apply Hr..].
    + intros (l & r & Hl & Hlen & Hlast & Hr & Hb). destruct l as [|p l].
      * injection Hlast as <-. by left.
      * right. destruct Hl as (_ & -> & Hl). exists l, r. rewrite last_cons_cons in Hlast.
        simpl in Hlen. split_and!; [done|lia|done|done|done].
  - rewrite cancelled_dead by done. split; [done|]. intros (l & r & Hl & _ & Hlast & Hr & _).
    destruct l as [|p l]; [injection Hlast as <-; done|]. by destruct Hl.
Qed.

Lemma within_loop_iff d c a raw :
  raw ≠ kNoToken ∨ a ≠ kNoToken →
  within_loop d c a raw = true ↔ ∃ l, lineage c raw l ∧ (length l < d)%nat ∧ last (raw :: l) = Some a ∧ a ≠ kNoToken.
Proof.
  revert raw. induction d as [|d IH]; intros raw Hn.
  { split; [done|]. intros (l & _ & Hl & _). lia. }
  cbn [within_loop]. destruct (raw =? kNoToken) eqn:H1.
  { apply Z.eqb_eq in H1. subst raw. split; [done|]. intros (l & Hl & _ & Hlast & Ha).
    destruct l as [|p l]; [by injection Hlast as <-|]. by destruct Hl as [[? _] _]. }
  apply Z.eqb_neq in H1. destruct (raw =? a) eqn:H2.
  { apply Z.eqb_eq in H2. subst a. split; [|done]. intros _. exists []. split_and!; [done|simpl; lia|done|done]. }
  apply Z.eqb_neq in H2.
  destruct (decide (live c raw)) as [Hlv|Hd].
  - pose proof Hlv as (_ & Hi & Hg). rewrite (proj2 (Z.leb_gt _ _)), Hg, Z.eqb_refl by done. cbn [negb].
    destruct (decide (a = kNoToken)) as [->|Ha].
    { split; [|intros (l & _ & _ & _ & ?); done]. intros Hw. exfalso.
      clear -Hw. change (parent _) with (parent_of c raw) in Hw. revert Hw.
      generalize (parent_of c raw). induction d as [|d IHd]; intros r; [done|]. cbn [within_loop].
      destruct (r =? kNoToken); [done|]. destruct (kCancelSlots <=? _); [done|].
      destruct (negb _); [done|]. apply IHd. }
    change (parent (slot_of c (token_index raw))) with (parent_of c raw). rewrite IH by auto. split.
    + intros (l & Hl & Hlen & Hlast & _). exists (parent_of c raw :: l).
      split_and!; [done|simpl; lia|by rewrite last_cons_cons|done].
    + intros (l & Hl & Hlen & Hlast & _). destruct l as [|p l]; [injection Hlast as <-; done|].
      destruct Hl as (_ & -> & Hl). exists l. rewrite last_cons_cons in Hlast. simpl in Hlen.
      split_and!; [done|lia|done|done].
  - split.
    + destruct (kCancelSlots <=? token_index raw) eqn:H3; [done|].
      destruct (_ =? token_gen raw) eqn:H4; [|done]. exfalso. apply Hd.
      apply Z.leb_gt in H3. by apply Z.eqb_eq in H4.
    + intros (l & Hl & _ & Hlast & _). destruct l as [|p l]; [injection Hlast as <-; done|]. by destruct Hl.
Qed.

(** A token is cancelled exactly when some live scope among the token itself and its
    first seven ancestors has been cancelled; it is within a scope exactly when that scope
    is the token itself or one of its first seven ancestors. *)
Theorem cancelled_exact c raw :
  (Cancelled c raw = true ↔
   ∃ l r, lineage c raw l ∧ (length l < 8)%nat ∧ last (raw :: l) = Some r ∧ live c r ∧ bit_set c r) ∧
  (∀ a, IsWithin c raw a = true ↔
   ∃ l, lineage c raw l ∧ (length l < 8)%nat ∧ last (raw :: l) = Some a ∧ a ≠ kNoToken).
Proof.
  split; [apply cancelled_loop_iff|]. intros a. unfold IsWithin, Valid. rewrite andb_true_iff, negb_true_iff, Z.eqb_neq.
  split.
  - intros [Ha Hw]. apply within_loop_iff in Hw; [done|by right].
  - intros H. pose proof H as (l & _ & _ & _ & Ha). split; [done|]. apply within_loop_iff; [by right|done].
Qed.

(** ** The life of a scope *)

Lemma make_token_live c i :
  (0 ≤ i < kCancelSlots) → state_ok (state (slot_of c i)) →
  let raw := make_token (GenOf (state (slot_of c i))) i in live c raw ∧ token_index raw = i.
Proof.
  intros Hi Hs. destruct (token_fields (GenOf (state (slot_of c i))) i) as (H1 & H2 & H3);
    [by apply gen_range|done|]. split; [|done]. split_and!; [done|rewrite H1; lia|by rewrite H1, H2].
Qed.

(** Writing a slot whose link stays, or that is not free. *)
Lemma set_slot_table c l i s :
  table_inv c l → (i ∈ l → nextFree s = nextFree (slot_of c i)) → state_ok (state s) → table_inv (set_slot i s c) l.
Proof.
  intros [Hs Hf Hnd] Hi Hok. constructor; [| |done].
  - intros j. rewrite slot_of_set. by destruct (decide (i = j)).
  - simpl. eapply free_chain_ext; [|exact Hf]. intros j Hj. rewrite slot_of_set. destruct (decide (i = j)) as [<-|]; [by apply Hi|done].
Qed.

Lemma set_slot_inv c l i s :
  cancel_inv c l → i ∉ l → state_ok (state s) → cancel_inv (set_slot i s c) l.
Proof.
  intros [Ht Hc] Hi Hok. constructor; [by apply set_slot_table|].
  intros j Hj. rewrite slot_of_set, decide_False by set_solver. by apply Hc.
Qed.

Lemma child_scope_spec par c i l :
  cancel_inv c (i :: l) →
  ∃ raw c1, CancelScope_child par c = (raw, c1) ∧ live c1 raw ∧ token_index raw = i ∧ (i ∉ l) ∧
    (0 ≤ i < kCancelSlots) ∧ cancel_inv c1 l ∧ ¬ bit_set c1 raw ∧
    parent_of c1 raw = match ResolveCancelSlot c par with Some _ => par | None => kNoToken end ∧
    (∀ j, j ≠ i → slot_of c1 j = slot_of c j).
Proof.
  intros Hi. destruct (AcquireSlot_spec _ _ _ Hi) as (c0 & Ha & Hsame & Hi0 & Hr & Hnin).
  unfold CancelScope_child. rewrite Ha. rewrite !Hsame.
  set (p := match ResolveCancelSlot c0 par with Some _ => par | None => kNoToken end).
  set (s1 := mkSlot (state (slot_of c i)) p (nextFree (slot_of c i))).
  pose proof (ci_states _ _ i Hi) as Hst.
  assert (Hs1 : slot_of (set_slot i s1 c0) i = s1) by (by rewrite slot_of_set, decide_True).
  destruct (make_token_live (set_slot i s1 c0) i Hr) as [Hl Hidx]; [by rewrite Hs1|].
  rewrite Hs1 in Hl, Hidx. simpl in Hl, Hidx. unfold bit_set, parent_of.
  eexists _, _. split; [reflexivity|]. rewrite Hidx, Hs1. split_and!; try done; try lia.
  - by apply set_slot_inv.
  - simpl. rewrite (ci_clean _ _ Hi i) by set_solver. done.
  - simpl. unfold p, ResolveCancelSlot. by rewrite Hsame.
  - intros j Hj. rewrite slot_of_set, decide_False by done. apply Hsame.
Qed.

(** A stale token resolves to nothing, however it is used. *)
Lemma stale_token c raw :
  GenOf (state (slot_of c (token_index raw))) ≠ token_gen raw →
  ResolveCancelSlot c raw = None ∧ Cancelled c raw = false ∧ CancelVia raw c = (false, c).
Proof.
  intros Hg. split_and!.
  - unfold ResolveCancelSlot. destruct (kCancelSlots <=? _); [done|]. by rewrite (proj2 (Z.eqb_neq _ _)).
  - apply cancelled_dead. intros (_ & _ & ?). done.
  - unfold CancelVia. destruct (raw =? kNoToken); [done|]. destruct (kCancelSlots <=? _); [done|].
    by rewrite (proj2 (Z.eqb_neq _ _)).
Qed.

Lemma next_state_gen st : state_ok st → state_ok (next_state st) ∧ CancelledIn (next_state st) = false ∧
  GenOf (next_state st) = (GenOf st + 1) `mod` 2 ^ 16.
Proof.
  intros (g & b & Hg & ->). rewrite mk_state_next, !mk_state_gen, mk_state_bit by done. split_and!; [|done|].
  - eexists _, _. split; [|done]. apply Z.mod_pos_bound. lia.
  - rewrite Zplus_mod_idemp_l, Z.mod_mod_divide; [done|]. by exists (2 ^ 16).
Qed.

Lemma gen_bump g : (0 ≤ g < 2 ^ 16) → (g + 1) `mod` 2 ^ 16 ≠ g.
Proof. intros Hg. destruct (decide (g = 2 ^ 16 - 1)) as [->|]; [done|]. rewrite Z.mod_small; lia. Qed.

(** The destructor gives the slot back, with its generation moved on by one. *)
Lemma delete_scope_table raw c l :
  table_inv c l → live c raw → (0 ≤ token_index raw) → token_index raw ∉ l →
  let c' := CancelScope_delete raw c in
  table_inv c' (token_index raw :: l) ∧
  (∀ j, state (slot_of c' j) = if decide (token_index raw = j) then next_state (state (slot_of c j)) else state (slot_of c j)).
Proof.
  intros Hi (Hn & Hlt & Hg) Hpos Hnin. unfold CancelScope_delete. rewrite (proj2 (Z.eqb_neq _ _)) by done.
  cbv zeta. set (i := token_index raw) in *. set (s1 := mkSlot (next_state (state (slot_of c i))) kNoToken (nextFree (slot_of c i))).
  destruct (ReleaseSlot_table (set_slot i s1 c) i l) as [H1 H2]; [|lia|done|].
  - apply set_slot_table; [done|done|]. by apply next_state_gen, (ti_states _ _ Hi).
  - split; [exact H1|]. intros j. rewrite H2, slot_of_set. by destruct (decide (i = j)) as [<-|].
Qed.

Lemma delete_scope_spec raw c l :
  cancel_inv c l → live c raw → (0 ≤ token_index raw) → token_index raw ∉ l →
  let c' := CancelScope_delete raw c in
  cancel_inv c' (token_index raw :: l) ∧
  GenOf (state (slot_of c' (token_index raw))) ≠ token_gen raw.
Proof.
  intros [Ht Hc] Hl Hpos Hnin. destruct (delete_scope_table raw c l Ht Hl Hpos Hnin) as [H1 H2].
  pose proof (ti_states _ _ Ht (token_index raw)) as Hok. destruct (next_state_gen _ Hok) as (_ & Hclean & Hgen). split.
  - constructor; [done|]. intros j Hj. rewrite H2. case_decide; [by subst j|]. apply Hc. set_solver.
  - rewrite H2, decide_True, Hgen by done. destruct Hl as (_ & _ & <-). by apply gen_bump, gen_range.
Qed.

Lemma cancel_scope_live c raw : live c raw → (∀ i, state_ok (state (slot_of c i))) →
  Cancelled (CancelScope_Cancel raw c) raw = true ∧
  (¬ bit_set c raw → CancelVia raw c = (true, CancelScope_Cancel raw c)).
Proof.
  intros (Hn & Hlt & Hg) Hs. unfold CancelScope_Cancel, CancelVia.
  rewrite (proj2 (Z.eqb_neq _ _)) by done. rewrite (proj2 (Z.leb_gt _ _)) by done.
  cbv zeta. set (i := token_index raw) in *. destruct (Hs i) as (g & b & Hr & Hst). split.
  - unfold Cancelled, kMaxScopeDepth. rewrite cancelled_live.
    + fold i. rewrite slot_of_set, decide_True by done. cbn [state].
      by rewrite Hst, mk_state_or, mk_state_bit by lia.
    + split_and!; [done|done|]. fold i. rewrite slot_of_set, decide_True by done. cbn [state].
      rewrite Hst, mk_state_or, mk_state_gen by lia. rewrite <- Hg. fold i. by rewrite Hst, mk_state_gen.
  - intros Hb. rewrite Hg, Z.eqb_refl. cbn [negb]. unfold bit_set in Hb. fold i in Hb.
    by destruct (CancelledIn _).
Qed.

(** A scope made while a slot is free is a live, uncancelled scope under its parent
    (under none if the parent is stale); cancelling it, by the scope or through its token,
    cancels the token; destroying it frees the slot and makes the token stale: it resolves
    to nothing, reports "not cancelled" and cancels nothing. *)
Theorem scope_lifecycle par c i l :
  cancel_inv c (i :: l) →
  ∃ raw c1, CancelScope_child par c = (raw, c1) ∧
    live c1 raw ∧ ¬ bit_set c1 raw ∧ cancel_inv c1 l ∧
    parent_of c1 raw = match ResolveCancelSlot c par with Some _ => par | None => kNoToken end ∧
    Cancelled (CancelScope_Cancel raw c1) raw = true ∧
    CancelVia raw c1 = (true, CancelScope_Cancel raw c1) ∧
    let c2 := CancelScope_delete raw c1 in
    cancel_inv c2 (i :: l) ∧ ResolveCancelSlot c2 raw = None ∧ Cancelled c2 raw = false ∧
    CancelVia raw c2 = (false, c2).
Proof.
  intros Hi. destruct (child_scope_spec par c i l Hi)
    as (raw & c1 & Hc & Hl & Hidx & Hnin & Hr & Hi1 & Hb & Hp & _).
  destruct (cancel_scope_live c1 raw Hl (λ j, ci_states _ _ j Hi1)) as [Hx Hy].
  destruct (delete_scope_spec raw c1 l Hi1 Hl) as [Hd Hg]; [lia|by rewrite Hidx|].
  rewrite Hidx in Hd. exists raw, c1. split_and!; try done; [by apply Hy|].
  split; [done|by apply stale_token].
Qed.

(** ** Generations are 16 bits of a token

    A program that makes, cancels and destroys scopes, and that keeps tokens of destroyed
    scopes and cancels through them: [sc_own] are the scopes alive, each by its token, and
    [sc_ends] the slots of the scopes destroyed so far. *)

Record scopes := mkScopes { sc_tab : Cancel; sc_own : list Z; sc_ends : list Z }.

Definition scopes_init (s : scopes) : Prop := s = mkScopes cancel_init [] [].

(** Scopes are built with and without a parent; a constructor that finds no free slot leaves
    the scope without one. *)
Definition constructs (c : Cancel) (raw : Z) (c' : Cancel) : Prop :=
  CancelScope_new c = (raw, c') ∨ ∃ par, CancelScope_child par c = (raw, c').

Inductive scope_step (s : scopes) : scopes → Prop :=
| sc_new raw c : constructs (sc_tab s) raw c →
    scope_step s (mkScopes c (if raw =? kNoToken then sc_own s else raw :: sc_own s) (sc_ends s))
| sc_cancel raw : raw ∈ sc_own s → scope_step s (mkScopes (CancelScope_Cancel raw (sc_tab s)) (sc_own s) (sc_ends s))
| sc_via raw b c : CancelVia raw (sc_tab s) = (b, c) → scope_step s (mkScopes c (sc_own s) (sc_ends s))
| sc_delete raw own : sc_own s ≡ₚ raw :: own →
    scope_step s (mkScopes (CancelScope_delete raw (sc_tab s)) own (token_index raw :: sc_ends s)).

(** How many scopes of slot [i] have been destroyed. *)
Definition ended (i : Z) (s : scopes) : Z := Z.of_nat (length (filter (λ j, j = i) (sc_ends s))).

Definition gen_at (c : Cancel) (i : Z) : Z := GenOf (state (slot_of c i)).

Record scopes_ok (s : scopes) (l : list Z) : Prop := {
  so_table : table_inv (sc_tab s) l;
  so_own raw : raw ∈ sc_own s → live (sc_tab s) raw ∧ (0 ≤ token_index raw) ∧ (token_index raw ∉ l) ∧
    raw = make_token (gen_at (sc_tab s) (token_index raw)) (token_index raw);
  so_nodup : NoDup (token_index <$> sc_own s) }.

Lemma constructs_ok c l raw c' :
  table_inv c l → constructs c raw c' →
  (raw = kNoToken ∧ c' = c ∧ l = []) ∨
  ∃ i l', l = i :: l' ∧ table_inv c' l' ∧ (i ∉ l') ∧ (0 ≤ i) ∧ token_index raw = i ∧ live c' raw ∧
    raw = make_token (gen_at c' i) i ∧ (∀ j, state (slot_of c' j) = state (slot_of c j)).
Proof.
  intros Ht Hc. destruct l as [|i l].
  { left. destruct Ht as [_ Hf _]. cbn in Hf. unfold constructs, CancelScope_new, new_scope_with, CancelScope_child, AcquireSlot in Hc.
    rewrite Hf in Hc. cbn in Hc. destruct Hc as [[= <- <-]|[par [= <- <-]]]; done. }
  right. exists i, l. destruct (AcquireSlot_table _ _ _ Ht) as (c0 & Ha & Hsame & Ht0 & Hr & Hnin).
  unfold constructs, CancelScope_new, new_scope_with, CancelScope_child in Hc. rewrite Ha in Hc.
  assert (Hp : ∃ p, raw = make_token (GenOf (state (slot_of c0 i))) i ∧
    c' = set_slot i (mkSlot (state (slot_of c0 i)) p (nextFree (slot_of c0 i))) c0) by (destruct Hc as [[= <- <-]|[par [= <- <-]]]; by eexists).
  destruct Hp as (p & -> & ->). set (c1 := set_slot _ _ _).
  assert (Hst : ∀ j, state (slot_of c1 j) = state (slot_of c0 j)) by (intros j; unfold c1; rewrite slot_of_set; by case_decide; [subst j|]).
  pose proof (make_token_live c1 i Hr) as Hl. cbv zeta in Hl. unfold gen_at. rewrite Hst in Hl.
  destruct Hl as [Hl Hidx]; [apply (ti_states _ _ Ht0)|]. split_and!; try done; try lia.
  - apply set_slot_table; [done|done|apply (ti_states _ _ Ht0)].
  - by rewrite Hst.
  - intros j. by rewrite Hst, Hsame.
Qed.

(** Marking a slot cancelled, whether it is in use or free. *)
Lemma mark_ok c l i :
  table_inv c l → let c' := set_slot i (mkSlot (Z.lor (state (slot_of c i)) kCancelledBit) (parent (slot_of c i)) (nextFree (slot_of c i))) c in
  table_inv c' l ∧ (∀ j, gen_at c' j = gen_at c j).
Proof.
  intros Ht. destruct (ti_states _ _ Ht i) as (g & b & Hg & Hst). cbv zeta. unfold gen_at. split.
  - apply set_slot_table; [done|done|]. cbn. rewrite Hst, mk_state_or by lia. by exists g, true.
  - intros j. rewrite slot_of_set. case_decide; [subst j|done]. cbn. by rewrite Hst, mk_state_or, !mk_state_gen by lia.
Qed.

(** Steps that move no generation leave the scopes alive as they are. *)
Lemma scopes_same s l c :
  scopes_ok s l → table_inv c l → (∀ j, gen_at c j = gen_at (sc_tab s) j) → scopes_ok (mkScopes c (sc_own s) (sc_ends s)) l.
Proof.
  intros [Ht Ho Hn] Hc Hg. constructor; [done| |done]. cbn. intros raw Hr. destruct (Ho raw Hr) as ((L1 & L2 & L3) & H2 & H3 & H4).
  split_and!; try done; rewrite ?Hg; [|done]. split_and!; [done|done|]. rewrite <- L3. apply Hg.
Qed.

Lemma scopes_mark s l raw c' b :
  scopes_ok s l → c' = CancelScope_Cancel raw (sc_tab s) ∨ CancelVia raw (sc_tab s) = (b, c') →
  scopes_ok (mkScopes c' (sc_own s) (sc_ends s)) l ∧ (∀ j, gen_at c' j = gen_at (sc_tab s) j).
Proof.
  intros H Hc. pose proof (mark_ok _ _ (token_index raw) (so_table _ _ H)) as [M1 M2].
  assert (Hcase : c' = sc_tab s ∨ c' = set_slot (token_index raw) (mkSlot (Z.lor (state (slot_of (sc_tab s) (token_index raw))) kCancelledBit)
    (parent (slot_of (sc_tab s) (token_index raw))) (nextFree (slot_of (sc_tab s) (token_index raw)))) (sc_tab s)).
  { destruct Hc as [->|Hc]; [unfold CancelScope_Cancel; case_match; by auto|]. unfold CancelVia in Hc. repeat case_match; simplify_eq; by auto. }
  destruct Hcase as [->| ->]; (split; [|done]); apply scopes_same; try done. apply H.
Qed.

(** The slots' generations follow the destructions. *)
Lemma scope_step_ok s s' l :
  scopes_ok s l → scope_step s s' →
  (∃ l', scopes_ok s' l') ∧ ∀ i, gen_at (sc_tab s') i = (gen_at (sc_tab s) i + (ended i s' - ended i s)) `mod` 2 ^ 16.
Proof.
  intros H Hs. pose proof H as [Ht Ho Hn].
  assert (Hsame : ∀ c own, (∀ j, gen_at c j = gen_at (sc_tab s) j) → ∀ i,
    gen_at c i = (gen_at (sc_tab s) i + (ended i (mkScopes c own (sc_ends s)) - ended i s)) `mod` 2 ^ 16).
  { intros c own E i. rewrite E, Z.mod_small; [unfold ended; cbn; lia|]. unfold ended. cbn. pose proof (gen_range _ (ti_states _ _ Ht i)). unfold gen_at. lia. }
  destruct Hs as [raw c Hc|raw Hr|raw b c Hc|raw own Hp]; cbn [sc_tab].
  - destruct (constructs_ok _ _ _ _ Ht Hc) as [(-> & -> & _)|(i & l' & -> & H1 & H2 & H3 & <- & H5 & H6 & H7)]; [cbn; split; [by exists l; destruct s|by apply Hsame]|].
    assert (Hg : ∀ j, gen_at c j = gen_at (sc_tab s) j) by (intros j; unfold gen_at; by rewrite H7).
    pose proof (proj1 H5) as Hne. rewrite (proj2 (Z.eqb_neq _ _)) by done. split; [|by apply Hsame]. exists l'. constructor; cbn; [done| |].
    + intros r [->|Hr]%elem_of_cons; [done|]. destruct (Ho r Hr) as ((L1 & L2 & L3) & O2 & O3 & O4).
      split_and!; rewrite ?Hg; try done; [|set_solver]. split_and!; [done|done|]. rewrite <- L3. apply Hg.
    + apply NoDup_cons. split; [|done]. intros (r & E & Hr)%list_elem_of_fmap. destruct (Ho r Hr) as (_ & _ & O3 & _). set_solver.
  - destruct (scopes_mark s l raw _ true H (or_introl eq_refl)) as [M1 M2]. split; [by exists l|by apply Hsame].
  - destruct (scopes_mark s l raw c b H (or_intror Hc)) as [M1 M2]. split; [by exists l|by apply Hsame].
  - destruct (Ho raw) as (O1 & O2 & O3 & O4); [by rewrite Hp; left|]. destruct (delete_scope_table raw _ l Ht O1 O2 O3) as [D1 D2].
    rewrite Hp in Hn. cbn in Hn. apply NoDup_cons in Hn as [Hn1 Hn2]. split.
    + exists (token_index raw :: l). constructor; cbn; [done| |done]. intros r Hr.
      assert (Hne : token_index raw ≠ token_index r) by (intros E; apply Hn1; rewrite E; by apply list_elem_of_fmap_2).
      destruct (Ho r) as ((L1 & L2 & L3) & R2 & R3 & R4); [rewrite Hp; by right|]. unfold live, gen_at. rewrite !D2, !decide_False by done.
      split_and!; try done. set_solver.
    + intros i. unfold gen_at, ended. cbn [sc_ends sc_tab]. rewrite D2, filter_cons. case_decide as E.
      * rewrite (proj2 (proj2 (next_state_gen _ (ti_states _ _ Ht i)))). f_equal. cbn [length]. lia.
      * rewrite Z.mod_small; [lia|]. pose proof (gen_range _ (ti_states _ _ Ht i)). lia.
Qed.

Lemma scope_steps_ok s s' l :
  scopes_ok s l → rtc scope_step s s' →
  (∃ l', scopes_ok s' l') ∧ ∀ i, gen_at (sc_tab s') i = (gen_at (sc_tab s) i + (ended i s' - ended i s)) `mod` 2 ^ 16.
Proof.
  intros H Hs. revert l H. induction Hs as [s|s s1 s' Hs _ IH]; intros l H.
  - split; [by exists l|]. intros i. rewrite Z.mod_small; [lia|]. pose proof (gen_range _ (ti_states _ _ (so_table _ _ H) i)). unfold gen_at. lia.
  - destruct (scope_step_ok s s1 l H Hs) as [(l1 & H1) G1]. destruct (IH l1 H1) as [Hok G2]. split; [done|]. intros i.
    rewrite G2, G1, Zplus_mod_idemp_l. f_equal. lia.
Qed.

Lemma free_chain_init n : (Z.of_nat n ≤ kCancelSlots) →
  free_chain cancel_init (if decide (n = 0%nat) then 0 else kCancelSlots - Z.of_nat n + 1) (seqZ (kCancelSlots - Z.of_nat n) (Z.of_nat n)).
Proof.
  induction n as [|n IH]; intros Hn; [done|]. rewrite seqZ_cons by lia. cbn [free_chain]. rewrite decide_False by done.
  split; [lia|]. split; [unfold kCancelSlots in *; lia|]. replace (Z.succ (kCancelSlots - Z.of_nat (S n))) with (kCancelSlots - Z.of_nat n) by lia.
  replace (Z.pred (Z.of_nat (S n))) with (Z.of_nat n) by lia. specialize (IH ltac:(lia)). unfold slot_of at 1. cbn [table cancel_init]. rewrite lookup_empty. cbn.
  case_decide as E; [subst n; rewrite (proj2 (Z.eqb_eq _ _)) by lia; exact IH|].
  rewrite (proj2 (Z.eqb_neq _ _)) by lia. replace (kCancelSlots - Z.of_nat (S n) + 2) with (kCancelSlots - Z.of_nat n + 1) by lia. exact IH.
Qed.

Lemma reachable_scopes s : reachable scopes_init scope_step s → ∃ l, scopes_ok s l.
Proof.
  revert s. apply reachable_ind; [|intros s s' [l H] Hs; by eapply scope_step_ok]. intros s ->. exists (seqZ 0 kCancelSlots).
  constructor; cbn [sc_tab sc_own]; [|set_solver|constructor]. constructor; [| |apply NoDup_seqZ].
  - intros i. exists 0, false. unfold slot_of. cbn. rewrite lookup_empty. done.
  - assert (Hk : 0 < kCancelSlots) by done. pose proof (free_chain_init (Z.to_nat kCancelSlots)) as Hf.
    rewrite Z2Nat.id, decide_False, Z.sub_diag in Hf by lia. apply Hf. done.
Qed.

(** The free stack gives the slot just released to the next scope. *)
Lemma scopes_reuse n s l raw :
  scopes_ok s l → raw ∈ sc_own s →
  ∃ s' raw', rtc scope_step s s' ∧ raw' ∈ sc_own s' ∧ token_index raw' = token_index raw ∧
    ended (token_index raw) s' = ended (token_index raw) s + Z.of_nat n.
Proof.
  intros H Hr. revert s l H raw Hr. induction n as [|n IH]; intros s l H raw Hr; [by exists s, raw; split_and!; [apply rtc_refl|..|lia]|].
  apply elem_of_Permutation in Hr as [own Hp]. destruct (so_own _ _ H raw) as (O1 & O2 & O3 & O4); [by rewrite Hp; left|].
  pose proof (sc_delete s raw own Hp) as Hd. set (s1 := mkScopes _ _ _) in Hd.
  destruct (delete_scope_table raw _ l (so_table _ _ H) O1 O2 O3) as [D1 _].
  destruct (scope_step_ok s s1 l H Hd) as [(l1 & H1) _].
  destruct (CancelScope_new (sc_tab s1)) as [raw1 c1] eqn:Ec.
  destruct (constructs_ok _ _ _ _ D1 (or_introl Ec)) as [(_ & _ & [=])|(i & l' & [= <- <-] & _ & _ & _ & Hi & Hl & _)].
  pose proof (sc_new s1 raw1 c1 (or_introl Ec)) as Hn. rewrite (proj2 (Z.eqb_neq _ _)) in Hn by apply Hl. set (s2 := mkScopes _ _ _) in Hn.
  destruct (scope_step_ok s1 s2 l1 H1 Hn) as [(l2 & H2) _]. destruct (IH s2 l2 H2 raw1) as (s' & raw' & R1 & R2 & R3 & R4); [by left|].
  exists s', raw'. rewrite Hi in *. split_and!; [by eapply rtc_l, rtc_l|done|done|]. rewrite R4. unfold ended. cbn [s2 s1 sc_ends].
  rewrite filter_cons_True by done. cbn [length]. lia.
Qed.

Lemma gen_return g k : (0 ≤ g < 2 ^ 16) → (g + k) `mod` 2 ^ 16 = g ↔ k `mod` 65536 = 0.
Proof. intros Hg. change (2 ^ 16) with 65536 in *. Z.to_euclidean_division_equations. lia. Qed.

(** What a token means after [k] scopes of its slot have been destroyed. *)
Lemma token_after s s' l raw :
  scopes_ok s l → raw ∈ sc_own s → rtc scope_step s s' →
  let k := ended (token_index raw) s' - ended (token_index raw) s in
  (is_Some (ResolveCancelSlot (sc_tab s') raw) ↔ k `mod` 65536 = 0) ∧
  ((CancelVia raw (sc_tab s')).1 = true ↔ k `mod` 65536 = 0) ∧
  (∀ raw', raw' ∈ sc_own s' → token_index raw' = token_index raw → raw' = raw ↔ k `mod` 65536 = 0).
Proof.
  intros H Hr Hs. cbv zeta. destruct (so_own _ _ H raw Hr) as ((L1 & L2 & L3) & _ & _ & O4).
  destruct (scope_steps_ok s s' l H Hs) as [(l' & H') Hg]. specialize (Hg (token_index raw)).
  pose proof (gen_range _ (ti_states _ _ (so_table _ _ H) (token_index raw))) as Hrg. fold (gen_at (sc_tab s) (token_index raw)) in Hrg, L3.
  pose proof (gen_return _ (ended (token_index raw) s' - ended (token_index raw) s) Hrg) as Hk. rewrite <- Hg in Hk. split_and!.
  - rewrite <- Hk, L3. unfold ResolveCancelSlot. rewrite (proj2 (Z.leb_gt _ _)) by done. fold (gen_at (sc_tab s') (token_index raw)).
    destruct (_ =? _) eqn:E; [apply Z.eqb_eq in E; by split|apply Z.eqb_neq in E; split; [by intros []|done]].
  - rewrite <- Hk, L3. unfold CancelVia. rewrite (proj2 (Z.eqb_neq _ _)), (proj2 (Z.leb_gt _ _)) by done. fold (gen_at (sc_tab s') (token_index raw)).
    destruct (_ =? token_gen raw) eqn:E; [apply Z.eqb_eq in E; cbn; by case_match|apply Z.eqb_neq in E; by split].
  - intros raw' Hr' Hi. rewrite <- Hk. destruct (so_own _ _ H' raw' Hr') as ((_ & _ & L3') & _ & _ & O4'). rewrite Hi in L3', O4'.
    fold (gen_at (sc_tab s') (token_index raw)) in L3'. split; [intros ->; congruence|]. intros E. rewrite O4, O4', E. done.
Qed.

Lemma via_cancels s l raw : scopes_ok s l → raw ∈ sc_own s → Cancelled (CancelVia raw (sc_tab s)).2 raw = true.
Proof.
  intros H Hr. destruct (so_own _ _ H raw Hr) as (L & _). destruct (cancel_scope_live _ _ L (ti_states _ _ (so_table _ _ H))) as [C1 C2].
  destruct (CancelledIn (state (slot_of (sc_tab s) (token_index raw)))) eqn:E; [|rewrite C2; [done|by unfold bit_set; rewrite E]].
  pose proof L as (L1 & L2 & L3). unfold CancelVia. rewrite (proj2 (Z.eqb_neq _ _)), (proj2 (Z.leb_gt _ _)), L3, Z.eqb_refl, E by done. cbn [negb snd].
  unfold Cancelled, kMaxScopeDepth. by rewrite cancelled_live, E.
Qed.

(** C39: A token outlives its scope safely until its slot has been reused 65536 times, and not
    longer.  Take a live scope in any state a program can reach by constructing, cancelling
    and destroying scopes, and any continuation in which [k] scopes of its slot have been
    destroyed.  The token resolves, cancels through [CancelVia], and is the token of the
    scope that then holds the slot, exactly when [k] is a multiple of 65536: for every other
    [k] it is dead.  And the free stack can give the same slot out 65536 times in a row, so
    that the token of a destroyed scope names, and cancels, an unrelated new one. *)
Theorem token_generation_wraps s raw :
  reachable scopes_init scope_step s → raw ∈ sc_own s →
  (∀ s', rtc scope_step s s' →
    let k := ended (token_index raw) s' - ended (token_index raw) s in
    (is_Some (ResolveCancelSlot (sc_tab s') raw) ↔ k `mod` 65536 = 0) ∧
    ((CancelVia raw (sc_tab s')).1 = true ↔ k `mod` 65536 = 0) ∧
    (∀ raw', raw' ∈ sc_own s' → token_index raw' = token_index raw → raw' = raw ↔ k `mod` 65536 = 0)) ∧
  ∃ s', rtc scope_step s s' ∧ ended (token_index raw) s' = ended (token_index raw) s + 65536 ∧ raw ∈ sc_own s' ∧
    Cancelled (CancelVia raw (sc_tab s')).2 raw = true.
Proof.
  intros [l H]%reachable_scopes Hr. split; [intros s' Hs; by eapply token_after|].
  destruct (scopes_reuse (Z.to_nat 65536) s l raw H Hr) as (s' & raw' & R1 & R2 & R3 & R4). rewrite Z2Nat.id in R4 by lia.
  destruct (token_after s s' l raw H Hr R1) as (_ & _ & E). destruct (scope_steps_ok s s' l H R1) as [(l' & H') _].
  assert (Er : raw' = raw) by (apply E; [done|done|]; rewrite R4, Z.add_simpl_l; done).
  subst raw'. exists s'. split_and!; [done|done|done|by eapply via_cancels].
Qed.

(** One scope, constructed and destroyed: its token is dead, and after 65536 rounds it is not. *)
Definition one_scope : scopes := mkScopes (CancelScope_new cancel_init).2 [0] [].

Lemma token_generation_wraps_witness :
  (CancelVia 0 (CancelScope_delete 0 (sc_tab one_scope))).1 ≠ true ∧
  ∃ s', ended 0 s' = 65536 ∧ 0 ∈ sc_own s' ∧ Cancelled (CancelVia 0 (sc_tab s')).2 0 = true.
Proof.
  assert (Hr : reachable scopes_init scope_step one_scope).
  { exists (mkScopes cancel_init [] []). split; [reflexivity|]. apply rtc_once. refine (sc_new _ 0 _ (or_introl _)). vm_compute. reflexivity. }
  assert (H0 : 0 ∈ sc_own one_scope) by (apply list_elem_of_here).
  destruct (token_generation_wraps one_scope 0 Hr H0) as [H1 (s' & _ & H2 & H3 & H4)]. split; [|by exists s'].
  destruct (H1 (mkScopes (CancelScope_delete 0 (sc_tab one_scope)) [] [0])) as (_ & H & _).
  - apply rtc_once. exact (sc_delete one_scope 0 [] (reflexivity _)).
  - rewrite H. vm_compute. discriminate.
Defined.

(** ** The free stack under concurrency

    [N] slots, numbered from 1 here (the source stores index plus one); [fs_next] is
    [nextFree]; [fs_word] is [FreeHead()] and [fs_tag] counts its successful exchanges. *)

Inductive cpc :=
| CIdle
| AHead (w : Z)              (* AcquireSlot: has loaded the head *)
| ANext (w nx : Z)           (* has read nextFree of the head's slot *)
| RStart (i : Z)             (* ReleaseSlot(i) *)
| RHead (i w : Z)            (* has loaded the head *)
| RWrote (i w : Z).          (* has written nextFree of its own slot *)

Record fstack := mkFS {
  fs_next : gmap Z Z; fs_word : Z; fs_pcs : gmap nat cpc; fs_held : list Z; fs_tag : Z }.

Definition head_index (w : Z) : Z := Z.land w kIndexMask.

Definition fs_move (i : nat) (p : cpc) (s : fstack) : fstack :=
  mkFS (fs_next s) (fs_word s) (<[i := p]> (fs_pcs s)) (fs_held s) (fs_tag s).

Inductive free_step (s : fstack) : fstack → Prop :=
| c_load t : fs_pcs s !! t = Some CIdle →
    free_step s (fs_move t (if head_index (fs_word s) =? 0 then CIdle else AHead (fs_word s)) s)
| c_next t w : fs_pcs s !! t = Some (AHead w) →
    free_step s (fs_move t (ANext w (next_of (fs_next s) (head_index w))) s)
| c_take t w nx : fs_pcs s !! t = Some (ANext w nx) → fs_word s = w →
    free_step s (mkFS (fs_next s) (bump_head w nx) (<[t := CIdle]> (fs_pcs s))
      (head_index w :: fs_held s) (fs_tag s + 1))
| c_retry t w nx : fs_pcs s !! t = Some (ANext w nx) →
    free_step s (fs_move t (if head_index (fs_word s) =? 0 then CIdle else AHead (fs_word s)) s)
| c_release t i held : fs_pcs s !! t = Some CIdle → fs_held s ≡ₚ i :: held →
    free_step s (mkFS (fs_next s) (fs_word s) (<[t := RStart i]> (fs_pcs s)) held (fs_tag s))
| c_rload t i : fs_pcs s !! t = Some (RStart i) →
    free_step s (fs_move t (RHead i (fs_word s)) s)
| c_write t i w : fs_pcs s !! t = Some (RHead i w) →
    free_step s (mkFS (<[i := head_index w]> (fs_next s)) (fs_word s) (<[t := RWrote i w]> (fs_pcs s))
      (fs_held s) (fs_tag s))
| c_push t i w : fs_pcs s !! t = Some (RWrote i w) → fs_word s = w →
    free_step s (mkFS (fs_next s) (bump_head w i) (<[t := CIdle]> (fs_pcs s)) (fs_held s) (fs_tag s + 1))
| c_rretry t i w : fs_pcs s !! t = Some (RWrote i w) →
    free_step s (fs_move t (RHead i (fs_word s)) s).

(** [N] slots all free, linked in order; the tag is zero. *)
Definition free_init (N : Z) (s : fstack) : Prop :=
  ∃ m pcs, chain m 1 (seqZ 1 N) ∧ (0 < N < 2 ^ 32) ∧ (∀ t p, pcs !! t = Some p → p = CIdle) ∧
    s = mkFS m 1 pcs [] 0.

(** The slot a releasing thread still owns. *)
Definition releasing (p : cpc) : list Z :=
  match p with RStart i | RHead i _ | RWrote i _ => [i] | _ => [] end.

Definition word_of (tag idx : Z) : Z := tag * 2 ^ 32 + idx.

Definition pc_ok (s : fstack) (p : cpc) : Prop :=
  match p with
  | AHead w => ∃ g x, w = word_of g x ∧ (0 ≤ g ≤ fs_tag s) ∧ (0 < x < 2 ^ 32)
  | ANext w nx => ∃ g x, w = word_of g x ∧ (0 ≤ g ≤ fs_tag s) ∧ (0 < x < 2 ^ 32) ∧
      (fs_word s = w → nx = next_of (fs_next s) x)
  | RHead _ w => ∃ g x, w = word_of g x ∧ (0 ≤ g ≤ fs_tag s) ∧ (0 ≤ x < 2 ^ 32)
  | RWrote i w => ∃ g x, w = word_of g x ∧ (0 ≤ g ≤ fs_tag s) ∧ (0 ≤ x < 2 ^ 32) ∧
      next_of (fs_next s) i = x
  | _ => True
  end.

Record free_inv (N : Z) (s : fstack) (l : list Z) : Prop := {
  fv_chain : chain (fs_next s) (default 0 (head l)) l;
  fv_word : fs_word s = word_of (fs_tag s) (default 0 (head l));
  fv_tag : 0 ≤ fs_tag s;
  fv_all : l ++ fs_held s ++ gather releasing (fs_pcs s) ≡ₚ seqZ 1 N;
  fv_n : 0 < N < 2 ^ 32;
  fv_pcs t p : fs_pcs s !! t = Some p → pc_ok s p }.

Lemma word_of_index g x : (0 ≤ x < 2 ^ 32) → head_index (word_of g x) = x.
Proof.
  intros Hx. unfold head_index, kIndexMask, word_of. change 0xFFFFFFFF with (2 ^ 32 - 1).
  rewrite land_mask by lia. rewrite Z.add_comm, Z_mod_plus_full. by apply Z.mod_small.
Qed.

Lemma word_of_bump g x y :
  (0 ≤ g < 2 ^ 32 - 1) → (0 ≤ x < 2 ^ 32) → (0 ≤ y < 2 ^ 32) → bump_head (word_of g x) y = word_of (g + 1) y.
Proof.
  intros Hg Hx Hy. unfold bump_head, word_of. rewrite Z.shiftr_div_pow2, Z.div_add_l by lia.
  rewrite (Z.div_small x), Z.add_0_r, Z.shiftl_mul_pow2 by lia. rewrite u64_small by nia.
  symmetry. rewrite Z.add_nocarry_lxor, Z.lxor_lor; [done|..];
    apply Z.bits_inj'; intros i Hi; rewrite Z.land_spec, Z.bits_0;
    (destruct (decide (i < 32));
     [rewrite (testbit_aligned _ 32); [done|lia|apply Z_mod_mult|lia]
     |rewrite (testbit_small y 32) by lia; apply andb_false_r]).
Qed.

Lemma word_of_inj g x g' x' :
  (0 ≤ x < 2 ^ 32) → (0 ≤ x' < 2 ^ 32) → word_of g x = word_of g' x' → g = g' ∧ x = x'.
Proof. intros Hx Hx'. unfold word_of. lia. Qed.

Lemma free_range N s l x : free_inv N s l → x ∈ l ++ fs_held s ++ gather releasing (fs_pcs s) → 1 ≤ x < 2 ^ 32.
Proof.
  intros [_ _ _ Ha Hn _] Hx. rewrite Ha in Hx. apply elem_of_seqZ in Hx. lia.
Qed.

Lemma free_head_range N s l : free_inv N s l → 0 ≤ default 0 (head l) < 2 ^ 32.
Proof.
  intros Hi. destruct l as [|x l]; simpl; [lia|].
  assert (1 ≤ x < 2 ^ 32); [|lia]. eapply free_range; [done|set_solver].
Qed.

(** A move that leaves the stack alone and keeps what the thread holds. *)
Lemma free_inv_move N s l t p q :
  free_inv N s l → fs_pcs s !! t = Some p → releasing q = releasing p → pc_ok s q →
  free_inv N (fs_move t q s) l.
Proof.
  intros [Hc Hw Ht Ha Hn Hp] Hs Hr Hq. constructor; simpl; try done.
  - by rewrite (gather_move _ _ _ _ _ Hs Hr).
  - intros t' p' [[<- <-]|[_ H]]%lookup_insert_Some; [done|]. by apply (Hp t').
Qed.

(** What a thread has read of the head stays usable after a successful exchange: a thread
    that saw the old head no longer sees it. *)
Lemma pc_ok_exchange s s' p y :
  pc_ok s p → fs_next s' = fs_next s → fs_tag s' = fs_tag s + 1 →
  fs_word s' = word_of (fs_tag s + 1) y → (0 ≤ y < 2 ^ 32) → pc_ok s' p.
Proof.
  intros Hp Hn Ht Hw Hy. destruct p; simpl in *; rewrite ?Hn, ?Ht; try done;
    destruct Hp as (g & x & -> & Hg & Hp); exists g, x; split_and?; try done; try lia; try naive_solver.
  rewrite Hw. intros Heq. apply word_of_inj in Heq; lia.
Qed.

(** The loaded head as the next program counter. *)
Lemma pc_ok_load N s l :
  free_inv N s l →
  pc_ok s (if head_index (fs_word s) =? 0 then CIdle else AHead (fs_word s)).
Proof.
  intros Hi. pose proof (free_head_range _ _ _ Hi). pose proof (fv_tag _ _ _ Hi).
  rewrite (fv_word _ _ _ Hi), word_of_index by done. case_match eqn:E; [done|].
  apply Z.eqb_neq in E. exists (fs_tag s), (default 0 (head l)). split_and!; done || lia.
Qed.

Lemma free_distinct N s l :
  free_inv N s l → NoDup (l ++ fs_held s ++ gather releasing (fs_pcs s)).
Proof. intros [_ _ _ Ha _ _]. rewrite Ha. apply NoDup_seqZ. Qed.

(** A successful pop. *)
Lemma free_inv_take N s l t w nx :
  free_inv N s l → (fs_tag s + 1 < 2 ^ 32) →
  fs_pcs s !! t = Some (ANext w nx) → fs_word s = w →
  free_inv N (mkFS (fs_next s) (bump_head w nx) (<[t := CIdle]> (fs_pcs s))
    (head_index w :: fs_held s) (fs_tag s + 1)) (tail l).
Proof.
  intros Hi Hb Ht Hw. pose proof (free_head_range _ _ _ Hi) as Hr.
  destruct (fv_pcs _ _ _ Hi _ _ Ht) as (g & x & -> & Hg & Hx & Hnx). specialize (Hnx Hw).
  pose proof Hw as Hw'. rewrite (fv_word _ _ _ Hi) in Hw'. apply word_of_inj in Hw' as [<- <-]; [|lia|lia].
  pose proof Hi as [Hc _ Htg Ha Hn Hp]. destruct l as [|y l]; simpl in *; [lia|].
  destruct Hc as (_ & Hy0 & Hc). rewrite <- Hnx in Hc.
  assert (Hnxh : nx = default 0 (head l)).
  { destruct l as [|z l]; simpl in *; [done|]. by destruct Hc. }
  assert (Hnr : 0 ≤ nx < 2 ^ 32).
  { rewrite Hnxh. destruct l as [|z l]; simpl; [lia|].
    assert (1 ≤ z < 2 ^ 32); [|lia]. eapply free_range; [done|set_solver]. }
  rewrite word_of_bump by lia. constructor; simpl.
  - by rewrite <- Hnxh.
  - by rewrite <- Hnxh.
  - lia.
  - rewrite word_of_index by lia. rewrite (gather_move _ _ _ _ _ Ht) by done.
    rewrite <- Ha. solve_Permutation.
  - done.
  - intros t' p' [[<- <-]|[_ H]]%lookup_insert_Some; [done|].
    eapply (pc_ok_exchange s _ _ _ (Hp _ _ H)); simpl; done || lia.
Qed.

(** A successful push. *)
Lemma free_inv_push N s l t i w :
  free_inv N s l → (fs_tag s + 1 < 2 ^ 32) →
  fs_pcs s !! t = Some (RWrote i w) → fs_word s = w →
  free_inv N (mkFS (fs_next s) (bump_head w i) (<[t := CIdle]> (fs_pcs s)) (fs_held s) (fs_tag s + 1)) (i :: l).
Proof.
  intros Hi Hb Ht Hw. pose proof (free_head_range _ _ _ Hi) as Hr.
  destruct (fv_pcs _ _ _ Hi _ _ Ht) as (g & x & -> & Hg & Hx & Hnx).
  pose proof Hw as Hw'. rewrite (fv_word _ _ _ Hi) in Hw'. apply word_of_inj in Hw' as [<- <-]; [|lia|lia].
  assert (Hir : 1 ≤ i < 2 ^ 32).
  { eapply free_range; [done|]. rewrite !elem_of_app, elem_of_gather. right. right. exists t, (RWrote i (word_of (fs_tag s) (default 0 (head l)))). set_solver. }
  pose proof Hi as [Hc _ Htg Ha Hn Hp]. rewrite word_of_bump by lia. constructor; simpl.
  - split_and!; [done|lia|]. by rewrite Hnx.
  - done.
  - lia.
  - rewrite <- Ha. rewrite (gather_delete _ _ _ _ Ht), gather_insert. simpl. solve_Permutation.
  - done.
  - intros t' p' [[<- <-]|[_ H]]%lookup_insert_Some; [done|].
    eapply (pc_ok_exchange s _ _ _ (Hp _ _ H)); simpl; done || lia.
Qed.

(** The link of a slot being released is written while nobody else owns the slot. *)
Lemma free_inv_write N s l t i w :
  free_inv N s l → fs_pcs s !! t = Some (RHead i w) →
  free_inv N (mkFS (<[i := head_index w]> (fs_next s)) (fs_word s) (<[t := RWrote i w]> (fs_pcs s))
    (fs_held s) (fs_tag s)) l.
Proof.
  intros Hi Ht. pose proof (free_distinct _ _ _ Hi) as Hd. pose proof (free_head_range _ _ _ Hi) as Hr.
  destruct (fv_pcs _ _ _ Hi _ _ Ht) as (g & x & -> & Hg & Hx).
  pose proof Hi as [Hc Hw Htg Ha Hn Hp]. rewrite word_of_index by lia.
  rewrite (gather_delete _ _ _ _ Ht) in Hd. simpl in Hd.
  assert (Hil : i ∉ l).
  { apply NoDup_app in Hd as (_ & Hd & _). intros Hl. apply (Hd _ Hl). set_solver. }
  assert (Hig : i ∉ gather releasing (delete t (fs_pcs s))).
  { apply NoDup_app in Hd as (_ & _ & (_ & _ & Hd)%NoDup_app). by apply NoDup_cons in Hd as [? _]. }
  constructor; simpl; try done.
  - by apply lseg_insert.
  - by rewrite (gather_move _ _ _ _ _ Ht).
  - intros t' p' [[<- <-]|[Hne H]]%lookup_insert_Some.
    { exists g, x. simpl. split_and!; try done; try lia. apply next_of_eq. }
    pose proof (Hp _ _ H) as Hok. destruct p' as [|w'|w' nx'|i'|i' w'|i' w']; simpl in *; try done;
      destruct Hok as (g' & x' & -> & Hg' & Hok); exists g', x'; split_and?; try done; try lia; try naive_solver;
      destruct Hok as [Hx' Hok].
    + intros Heq. rewrite Hok by done. rewrite next_of_insert, decide_False; [done|].
      rewrite Hw in Heq. apply word_of_inj in Heq as [_ <-]; [|lia|lia].
      intros ->. destruct l as [|z l]; simpl in *; [lia|]. set_solver.
    + rewrite next_of_insert, decide_False; [done|]. intros ->. apply Hig. apply elem_of_gather.
      exists t', (RWrote i' (word_of g' x')). rewrite lookup_delete_ne by done. set_solver.
Qed.

Lemma free_step_inv N s s' l :
  free_inv N s l → (fs_tag s' < 2 ^ 32) → free_step s s' → ∃ l', free_inv N s' l'.
Proof.
  intros Hi Hb Hs. pose proof (free_head_range _ _ _ Hi) as Hr. pose proof (fv_tag _ _ _ Hi) as Htg.
  destruct Hs as [t Ht|t w Ht|t w nx Ht Hw|t w nx Ht|t i held Ht Hh|t i Ht|t i w Ht|t i w Ht Hw|t i w Ht].
  - exists l. eapply free_inv_move; [done|done|by case_match|by eapply pc_ok_load].
  - exists l. eapply free_inv_move; [done..|].
    destruct (fv_pcs _ _ _ Hi _ _ Ht) as (g & x & -> & Hg & Hx). exists g, x.
    rewrite word_of_index by lia. split_and!; done || lia.
  - exists (tail l). by eapply free_inv_take.
  - exists l. eapply free_inv_move; [done|done|by case_match|by eapply pc_ok_load].
  - exists l. pose proof Hi as [Hc Hw _ Ha Hn Hp]. constructor; simpl; try done.
    + rewrite <- Ha, Hh, gather_insert, (gather_delete _ _ _ _ Ht). simpl. solve_Permutation.
    + intros t' p' [[<- <-]|[_ H]]%lookup_insert_Some; [done|]. by apply (Hp t').
  - exists l. eapply free_inv_move; [done..|]. exists (fs_tag s), (default 0 (head l)).
    rewrite (fv_word _ _ _ Hi). split_and!; done || lia.
  - exists l. by apply free_inv_write.
  - exists (i :: l). by eapply free_inv_push.
  - exists l. eapply free_inv_move; [done..|]. exists (fs_tag s), (default 0 (head l)).
    rewrite (fv_word _ _ _ Hi). split_and!; done || lia.
Qed.

Lemma free_init_inv N s : free_init N s → ∃ l, free_inv N s l.
Proof.
  intros (m & pcs & Hc & HN & Hp & ->). exists (seqZ 1 N).
  assert (Hh : head (seqZ 1 N) = Some 1).
  { rewrite (seqZ_cons 1 N) by lia. done. }
  constructor; simpl; rewrite ?Hh; try done.
  - replace (gather releasing pcs) with (@nil Z); [by rewrite app_nil_r|].
    symmetry. apply elem_of_nil_inv. intros x (t & p & Ht & Hx)%elem_of_gather.
    by rewrite (Hp _ _ Ht) in Hx; set_solver.
  - intros t p Ht. by rewrite (Hp _ _ Ht).
Qed.

(** the free stack of cancellation slots, with any number of threads in [AcquireSlot]
    and [ReleaseSlot] at once, interleaved at every access: the slots on the stack, the
    ones handed out and the ones being released are together exactly the [N] slots, each
    once.  No slot is handed to two scopes and none is lost; the stack read from the head
    word is a proper list.  The 32-bit tag of the head must not have wrapped. *)
Theorem cancel_slots_exclusive N s :
  reachable (free_init N) free_step s → (fs_tag s < 2 ^ 32) →
  ∃ l, chain (fs_next s) (head_index (fs_word s)) l ∧
    l ++ fs_held s ++ gather releasing (fs_pcs s) ≡ₚ seqZ 1 N ∧ NoDup (fs_held s).
Proof.
  intros Hr Hb. cut (∃ l, free_inv N s l).
  { intros [l Hi]. exists l. pose proof (free_head_range _ _ _ Hi).
    rewrite (fv_word _ _ _ Hi), word_of_index by done. split_and!.
    - apply Hi.
    - apply Hi.
    - apply free_distinct in Hi. by apply NoDup_app in Hi as (_ & _ & (? & _)%NoDup_app). }
  revert s Hr Hb. apply (reachable_ind_bounded _ _ fs_tag).
  - intros s s' Hs. destruct Hs; simpl; lia.
  - apply free_init_inv.
  - intros s s' Hb [l Hi] Hs. by eapply free_step_inv.
Qed.

(** ** Witnesses *)

(** A table with one free slot. *)
Definition one_slot : Cancel := mkCancel {[0 := mkSlot 0 kNoToken 0]} 1.

Lemma one_slot_inv : cancel_inv one_slot [0].
Proof.
  constructor; [constructor|].
  - intros i. exists 0, false. split; [lia|]. unfold slot_of. simpl.
    destruct (decide (i = 0)) as [->|Hne]; [done|]. by rewrite lookup_singleton_ne.
  - vm_compute. done.
  - apply NoDup_singleton.
  - intros i ->%list_elem_of_singleton. done.
Qed.

Lemma scope_lifecycle_witness :
  ∃ raw c1, CancelScope_child kNoToken one_slot = (raw, c1) ∧ live c1 raw ∧
    Cancelled (CancelScope_Cancel raw c1) raw = true ∧
    Cancelled (CancelScope_delete raw c1) raw = false.
Proof.
  destruct (scope_lifecycle kNoToken one_slot 0 [] one_slot_inv)
    as (raw & c1 & H1 & H2 & _ & _ & _ & H3 & _ & _ & _ & H4 & _).
  by exists raw, c1.
Defined.

(** Two slots; thread 0 has taken slot 1, thread 1 has read the old head. *)
Lemma cancel_slots_exclusive_witness :
  let s := mkFS {[1 := 2]} (word_of 1 2) {[0%nat := CIdle; 1%nat := ANext 1 2]} [1] 1 in
  ∃ l, chain (fs_next s) (head_index (fs_word s)) l ∧
    l ++ fs_held s ++ gather releasing (fs_pcs s) ≡ₚ seqZ 1 2 ∧ NoDup (fs_held s).
Proof.
  intros s. apply (cancel_slots_exclusive 2 s); [|unfold s; simpl; lia].
  exists (mkFS {[1 := 2]} 1 {[0%nat := CIdle; 1%nat := CIdle]} [] 0). split.
  - exists {[1 := 2]}, {[0%nat := CIdle; 1%nat := CIdle]}. split_and!; try done.
    intros t p. rewrite lookup_insert_Some, lookup_singleton_Some. naive_solver.
  - eapply rtc_l; [eapply (c_load _ 1); vm_compute; reflexivity|]. eval_state.
    eapply rtc_l; [eapply (c_next _ 1); vm_compute; reflexivity|]. eval_state.
    eapply rtc_l; [eapply (c_load _ 0); vm_compute; reflexivity|]. eval_state.
    eapply rtc_l; [eapply (c_next _ 0); vm_compute; reflexivity|]. eval_state.
    eapply rtc_l; [eapply (c_take _ 0); vm_compute; reflexivity|]. eval_state.
    match goal with |- rtc _ ?x ?y => replace x with y; [by apply rtc_refl|by vm_compute] end.
Defined.
