(* ===== verification/EpochModel.v ===== *)
(** * Epoch-based reclamation (include/Epochs.h, src/Epochs.cpp, src/Reclaimer.cpp)

    Readers announce the global epoch in their thread's slot; an unlinked object is
    stamped with the epoch and put into the retiring thread's bag; a gate advances the
    epoch, takes the minimum over the announced slots and frees the older entries; entries
    still protected move to a shared store that other gates sweep.  The state keeps, for
    the proofs, which objects are linked in the client's structures, in which epoch an
    object was unlinked, and which objects each reader has obtained.  The step relation
    interleaves the threads at every access of shared memory; the gate is also given as a
    sequential function. *)

From S2P Require Import Prelude.

(** ** State *)

Record EpochRetired := mkRet { ptr : Z; epoch : Z; deleter : Z }.

Definition kPublishAt : Z := 64.

(** What the caller of [TryReclaim] does next: [Gate(false, _)], [Gate(true, _)], or the
    destructor of [ThreadScope]. *)
Inductive After := Busy | Idle | ScopeEnd.

(** Where a thread stands in [Gate]; the arguments first. *)
Inductive gpc :=
| Out
| GAdv (a : After) (orphans : bool)                 (* AdvanceEpoch: before the load *)
| GCas (a : After) (orphans : bool) (e : Z)         (* before the exchange of e *)
| GTest (a : After) (orphans : bool)                (* TryReclaim: before the empty test *)
| GLoad (a : After) (orphans : bool)                (* MinActiveEpoch: before its first load *)
| GMin (a : After) (orphans : bool) (min : Z) (k : nat)   (* before slot k *)
| GWork (a : After) (orphans : bool) (safe : Z) (todo kept : list EpochRetired)
| GSweep (a : After) (orphans : bool) (safe : Z)
| GTail (a : After).

(** A thread: its slot, the guards open on it (innermost first; the flag is [outermost]),
    the epoch a guard's constructor has loaded, the objects obtained under the guards, the
    bag and its limit, a retire in progress (the object, then its stamp), its gate,
    [t_runsGates] and [t_epochBagDead]. *)
Record thr := mkThr {
  t_slot : Z; t_guards : list bool; t_enter : option Z; t_held : list Z;
  t_bag : list EpochRetired; t_limit : Z; t_ret : option (Z * option Z); t_gate : gpc;
  t_runs : bool; t_dead : bool }.

Definition new_thr (runs : bool) : thr :=
  mkThr SIZE_MAX [] None [] [] kPublishAt None Out runs false.

Definition set_reader (slot : Z) (g : list bool) (e : option Z) (h : list Z) (t : thr) : thr :=
  mkThr slot g e h (t_bag t) (t_limit t) (t_ret t) (t_gate t) (t_runs t) (t_dead t).
Definition set_bag (b : list EpochRetired) (t : thr) : thr :=
  mkThr (t_slot t) (t_guards t) (t_enter t) (t_held t) b (t_limit t) (t_ret t) (t_gate t) (t_runs t) (t_dead t).
Definition set_limit (n : Z) (t : thr) : thr :=
  mkThr (t_slot t) (t_guards t) (t_enter t) (t_held t) (t_bag t) n (t_ret t) (t_gate t) (t_runs t) (t_dead t).
Definition set_ret (r : option (Z * option Z)) (t : thr) : thr :=
  mkThr (t_slot t) (t_guards t) (t_enter t) (t_held t) (t_bag t) (t_limit t) r (t_gate t) (t_runs t) (t_dead t).
Definition set_gate (g : gpc) (t : thr) : thr :=
  mkThr (t_slot t) (t_guards t) (t_enter t) (t_held t) (t_bag t) (t_limit t) (t_ret t) g (t_runs t) (t_dead t).
Definition set_runs (b : bool) (t : thr) : thr :=
  mkThr (t_slot t) (t_guards t) (t_enter t) (t_held t) (t_bag t) (t_limit t) (t_ret t) (t_gate t) b (t_dead t).
Definition set_dead (b : bool) (t : thr) : thr :=
  mkThr (t_slot t) (t_guards t) (t_enter t) (t_held t) (t_bag t) (t_limit t) (t_ret t) (t_gate t) (t_runs t) b.

Record epochs := mkEp {
  globalEpoch : Z; threads : gmap nat thr; orphans : list EpochRetired;
  freed : list EpochRetired; linked : gset Z; unlinked : gmap Z Z }.

Definition put (i : nat) (t : thr) (s : epochs) : epochs :=
  mkEp (globalEpoch s) (<[i := t]> (threads s)) (orphans s) (freed s) (linked s) (unlinked s).

Definition thr_at (s : epochs) (i : nat) : thr := default (new_thr false) (threads s !! i).
Definition epoch_slot (s : epochs) (i : nat) : Z := t_slot (thr_at s i).

(** ** Operations *)

(** [OrphanEpochEntries], under the store's lock. *)
Definition OrphanEpochEntries (v : list EpochRetired) (s : epochs) : epochs :=
  mkEp (globalEpoch s) (threads s) (orphans s ++ v) (freed s) (linked s) (unlinked s).

(** [SweepEpochOrphans], under the store's lock. *)
Definition SweepEpochOrphans (safeEpoch : Z) (s : epochs) : epochs :=
  mkEp (globalEpoch s) (threads s) (filter (λ it, safeEpoch ≤ epoch it) (orphans s))
    (freed s ++ filter (λ it, epoch it < safeEpoch) (orphans s)) (linked s) (unlinked s).

Definition run_deleter (it : EpochRetired) (s : epochs) : epochs :=
  mkEp (globalEpoch s) (threads s) (orphans s) (freed s ++ [it]) (linked s) (unlinked s).

(** The exchange of [AdvanceEpoch]. *)
Definition advance_cas (e : Z) (s : epochs) : epochs :=
  mkEp (if globalEpoch s =? e then e ⊕ 1 else globalEpoch s) (threads s) (orphans s) (freed s)
    (linked s) (unlinked s).

Definition AdvanceEpoch (s : epochs) : epochs := advance_cas (globalEpoch s) s.

(** One slot of [MinActiveEpoch]. *)
Definition min_slot (s : epochs) (min : Z) (k : nat) : Z :=
  let e := epoch_slot s k in if negb (e =? SIZE_MAX) && (e <? min) then e else min.

(** [RetirePtr]: into the bag, with a gate at the bag's limit; a thread without gates, or
    whose bag is gone, gives the entry to the orphan store. *)
Definition RetirePtr (i : nat) (t : thr) (it : EpochRetired) (s : epochs) : epochs :=
  if t_dead t || negb (t_runs t) then OrphanEpochEntries [it] (put i t s)
  else
    let t1 := set_bag (t_bag t ++ [it]) t in
    if t_limit t <=? Z.of_nat (length (t_bag t1)) then
      match t_gate t with Out => put i (set_gate (GAdv Busy false) t1) s | _ => put i t1 s end
    else put i t1 s.

(** What follows [TryReclaim]. *)
Definition gate_tail (a : After) (i : nat) (t : thr) (s : epochs) : epochs :=
  match a with
  | Busy => put i (set_gate Out (set_limit (Z.of_nat (length (t_bag t)) + kPublishAt) t)) s
  | Idle => OrphanEpochEntries (t_bag t) (put i (set_gate Out (set_limit kPublishAt (set_bag [] t))) s)
  | ScopeEnd => OrphanEpochEntries (t_bag t) (put i (set_gate Out (set_runs false (set_bag [] t))) s)
  end.

(** ** Steps

    [n] is the number of participants, the slots [Init] registered. *)

Section steps.
Context (n : nat).

Inductive estep (s : epochs) : epochs → Prop :=
| e_load i t : threads s !! i = Some t → (i < n)%nat → t_runs t = true → t_slot t = SIZE_MAX → t_enter t = None →
    estep s (put i (set_reader (t_slot t) (t_guards t) (Some (globalEpoch s)) (t_held t) t) s)
| e_store i t e : threads s !! i = Some t → t_enter t = Some e →
    estep s (put i (set_reader e (true :: t_guards t) None (t_held t) t) s)
| e_nest i t : threads s !! i = Some t → (i < n)%nat → t_slot t ≠ SIZE_MAX → t_enter t = None →
    estep s (put i (set_reader (t_slot t) (false :: t_guards t) None (t_held t) t) s)
| e_leave i t o gs : threads s !! i = Some t → t_enter t = None → t_guards t = o :: gs →
    estep s (put i (if o : bool then set_reader SIZE_MAX gs None [] t
                    else set_reader (t_slot t) gs None (t_held t) t) s)
| e_read i t x : threads s !! i = Some t → t_guards t ≠ [] → x ∈ linked s →
    estep s (put i (set_reader (t_slot t) (t_guards t) (t_enter t) (x :: t_held t) t) s)
| e_publish x : x ∉ linked s → unlinked s !! x = None →
    estep s (mkEp (globalEpoch s) (threads s) (orphans s) (freed s) ({[x]} ∪ linked s) (unlinked s))
| e_unlink i t x : threads s !! i = Some t → t_ret t = None → x ∈ linked s →
    estep s (mkEp (globalEpoch s) (<[i := set_ret (Some (x, None)) t]> (threads s)) (orphans s) (freed s)
      (linked s ∖ {[x]}) (<[x := globalEpoch s]> (unlinked s)))
| e_stamp i t x : threads s !! i = Some t → t_ret t = Some (x, None) →
    estep s (put i (set_ret (Some (x, Some (globalEpoch s))) t) s)
| e_retire i t x e d : threads s !! i = Some t → t_ret t = Some (x, Some e) →
    estep s (RetirePtr i (set_ret None t) (mkRet x e d) s)
| e_gate i t a o : threads s !! i = Some t → t_gate t = Out → t_dead t = false → a ≠ ScopeEnd →
    estep s (put i (set_gate (GAdv a o) t) s)
| e_adv i t a o : threads s !! i = Some t → t_gate t = GAdv a o →
    estep s (put i (set_gate (GCas a o (globalEpoch s)) t) s)
| e_cas i t a o e : threads s !! i = Some t → t_gate t = GCas a o e →
    estep s (put i (set_gate (GTest a o) t) (advance_cas e s))
| e_test i t a o : threads s !! i = Some t → t_gate t = GTest a o →
    estep s (put i (set_gate (if bool_decide (t_bag t = []) && (negb o || bool_decide (orphans s = []))
                              then GTail a else GLoad a o) t) s)
| e_min i t a o : threads s !! i = Some t → t_gate t = GLoad a o →
    estep s (put i (set_gate (GMin a o (globalEpoch s) 0) t) s)
| e_slot i t a o m k : threads s !! i = Some t → t_gate t = GMin a o m k → (k < n)%nat →
    estep s (put i (set_gate (GMin a o (min_slot s m k) (S k)) t) s)
| e_detach i t a o m : threads s !! i = Some t → t_gate t = GMin a o m n →
    estep s (put i (set_gate (GWork a o m (t_bag t) []) (set_bag [] t)) s)
| e_free i t a o safe it todo kept : threads s !! i = Some t → t_gate t = GWork a o safe (it :: todo) kept →
    estep s (if epoch it <? safe then run_deleter it (put i (set_gate (GWork a o safe todo kept) t) s)
             else put i (set_gate (GWork a o safe todo (kept ++ [it])) t) s)
| e_merge i t a o safe kept : threads s !! i = Some t → t_gate t = GWork a o safe [] kept →
    estep s (put i (set_gate (GSweep a o safe) (set_bag (t_bag t ++ kept) t)) s)
| e_sweep i t a o safe : threads s !! i = Some t → t_gate t = GSweep a o safe →
    estep s (put i (set_gate (GTail a) t)
      (if o && negb (bool_decide (orphans s = [])) then SweepEpochOrphans safe s else s))
| e_tail i t a : threads s !! i = Some t → t_gate t = GTail a → estep s (gate_tail a i t s)
| e_scope_begin i t : threads s !! i = Some t → (i < n)%nat → t_runs t = false → t_gate t = Out →
    estep s (put i (set_runs true t) s)
| e_scope_end i t : threads s !! i = Some t → t_runs t = true → t_gate t = Out →
    t_slot t = SIZE_MAX → t_enter t = None →
    estep s (put i (set_gate (GTest ScopeEnd false) t) s)
| e_exit i t : threads s !! i = Some t → t_gate t = Out →
    estep s (OrphanEpochEntries (t_bag t) (put i (set_dead true (set_bag [] t)) s)).

(** After [Init]: nothing announced, nothing retired. *)
Definition einit (s : epochs) : Prop :=
  ∃ ts lk, (∀ i t, ts !! i = Some t → ∃ b, t = new_thr b) ∧ s = mkEp 0 ts [] [] lk ∅.
End steps.

(** ** Safety *)

Section safety.
Context (n : nat).

(** [floor s P m]: every object a reader of [P] holds was unlinked in epoch [m] or later. *)
Definition floor (s : epochs) (P : nat → Prop) (m : Z) : Prop :=
  m ≤ globalEpoch s ∧
  ∀ r t x eu, P r → threads s !! r = Some t → x ∈ t_held t → unlinked s !! x = Some eu → m ≤ eu.

Definition item_ok (s : epochs) (it : EpochRetired) : Prop :=
  ∃ eu, unlinked s !! ptr it = Some eu ∧ (eu ≤ epoch it) ∧ (epoch it ≤ globalEpoch s).

Definition gate_ok (s : epochs) (g : gpc) : Prop :=
  match g with
  | GMin _ _ m k => floor s (λ r, (r < k)%nat) m
  | GWork _ _ safe todo kept => floor s (λ _, True) safe ∧ (∀ it, it ∈ todo ++ kept → item_ok s it)
  | GSweep _ _ safe => floor s (λ _, True) safe
  | _ => True
  end.

Definition reader_ok (s : epochs) (i : nat) (t : thr) : Prop :=
  (t_slot t = SIZE_MAX ∧ t_guards t = [] ∧ t_held t = [] ∧
     ∀ e, t_enter t = Some e → (0 ≤ e) ∧ (e ≤ globalEpoch s) ∧ (i < n)%nat) ∨
  ((∃ k, t_guards t = replicate k false ++ [true]) ∧ t_enter t = None ∧
     (0 ≤ t_slot t) ∧ (t_slot t ≤ globalEpoch s) ∧ (i < n)%nat).

Record thr_ok (s : epochs) (i : nat) (t : thr) : Prop := {
  to_reader : reader_ok s i t;
  to_held x : x ∈ t_held t → x ∈ linked s ∨ ∃ eu, unlinked s !! x = Some eu ∧ (t_slot t ≤ eu);
  to_ret x o : t_ret t = Some (x, o) →
    ∃ eu, unlinked s !! x = Some eu ∧ ∀ e, o = Some e → (eu ≤ e) ∧ (e ≤ globalEpoch s);
  to_bag it : it ∈ t_bag t → item_ok s it;
  to_gate : gate_ok s (t_gate t) }.

Record ewf (s : epochs) : Prop := {
  w_range : 0 ≤ globalEpoch s < SIZE_MAX;
  w_disj x : x ∈ linked s → unlinked s !! x = None;
  w_unl x eu : unlinked s !! x = Some eu → eu ≤ globalEpoch s;
  w_thr i t : threads s !! i = Some t → thr_ok s i t;
  w_orphans it : it ∈ orphans s → item_ok s it;
  w_freed it : it ∈ freed s →
    is_Some (unlinked s !! ptr it) ∧ ∀ r t, threads s !! r = Some t → ptr it ∉ t_held t }.

(** What any step may do to the parts other threads rely on. *)
Record eff (s s' : epochs) : Prop := {
  ef_epoch : globalEpoch s ≤ globalEpoch s';
  ef_held r t' x : threads s' !! r = Some t' → x ∈ t_held t' →
    x ∈ linked s ∨ ∃ t, threads s !! r = Some t ∧ x ∈ t_held t;
  ef_unl x eu : unlinked s' !! x = Some eu → unlinked s !! x = Some eu ∨ eu = globalEpoch s;
  ef_mono x eu : unlinked s !! x = Some eu → unlinked s' !! x = Some eu;
  ef_linked x : x ∈ linked s → x ∈ linked s' ∨ unlinked s' !! x = Some (globalEpoch s) }.

Lemma floor_eff s s' P m : ewf s → eff s s' → floor s P m → floor s' P m.
Proof.
  intros Hw He [Hm Hf]. pose proof (ef_epoch _ _ He). split; [lia|].
  intros r t x eu HP Ht Hx Hu. destruct (ef_unl _ _ He _ _ Hu) as [Hu'| ->]; [|done].
  destruct (ef_held _ _ He _ _ _ Ht Hx) as [Hl|(t0 & Ht0 & Hx0)].
  - apply (w_disj _ Hw) in Hl. congruence.
  - by eapply Hf.
Qed.

Lemma item_eff s s' it : eff s s' → item_ok s it → item_ok s' it.
Proof.
  intros He (eu & Hu & H1 & H2). pose proof (ef_epoch _ _ He). exists eu. split_and!; [|done|lia].
  by apply (ef_mono _ _ He).
Qed.

Lemma thr_eff s s' i t :
  ewf s → eff s s' → thr_ok s i t → thr_ok s' i t.
Proof.
  intros Hw He [Hr Hh Hret Hb Hg]. pose proof (ef_epoch _ _ He) as Hep. constructor.
  - destruct Hr as [(H1 & H2 & H3 & H4)|(H1 & H2 & H3 & H4 & H5)].
    + left. split_and!; try done. intros e He'. destruct (H4 e He') as (? & ? & ?). split_and!; done || lia.
    + right. split_and!; done || lia.
  - intros x Hx. destruct (Hh x Hx) as [Hl|(eu & Hu & Hle)].
    + destruct (ef_linked _ _ He x Hl) as [?|Hu]; [by left|]. right. exists (globalEpoch s). split; [done|].
      destruct Hr as [(H1 & H2 & H3 & H4)|(H1 & H2 & H3 & H4 & H5)]; [|done]. rewrite H3 in Hx. set_solver.
    + right. exists eu. split; [by apply (ef_mono _ _ He)|done].
  - intros x o Ho. destruct (Hret x o Ho) as (eu & Hu & He'). exists eu. split; [by apply (ef_mono _ _ He)|].
    intros e Hoe. destruct (He' e Hoe). lia.
  - intros it Hit. by eapply item_eff, Hb.
  - destruct (t_gate t); simpl in *; try done.
    + by eapply floor_eff.
    + destruct Hg as [Hf Hi]. split; [by eapply floor_eff|]. intros it Hit. by eapply item_eff, Hi.
    + by eapply floor_eff.
Qed.

(** Putting a step together. *)
Lemma ewf_step s s' :
  ewf s → eff s s' → (globalEpoch s' < SIZE_MAX) →
  (∀ x, x ∈ linked s' → unlinked s' !! x = None) →
  (∀ i t', threads s' !! i = Some t' → threads s !! i = Some t' ∨ thr_ok s' i t') →
  (∀ it, it ∈ orphans s' → item_ok s' it) →
  (∀ it, it ∈ freed s' → it ∈ freed s ∨
     (is_Some (unlinked s !! ptr it) ∧ ∀ r t, threads s !! r = Some t → ptr it ∉ t_held t)) →
  ewf s'.
Proof.
  intros Hw He Hb Hd Ht Ho Hf. pose proof (ef_epoch _ _ He). constructor; try done.
  - pose proof (w_range _ Hw). lia.
  - intros x eu Hu. destruct (ef_unl _ _ He _ _ Hu) as [Hu'| ->]; [|done]. apply (w_unl _ Hw) in Hu'. lia.
  - intros i t' Ht'. destruct (Ht i t' Ht') as [Hold|]; [|done]. eapply thr_eff; [done|done|by apply (w_thr _ Hw)].
  - intros it Hit.
    assert (Hit' : is_Some (unlinked s !! ptr it) ∧ ∀ r t, threads s !! r = Some t → ptr it ∉ t_held t).
    { destruct (Hf it Hit) as [?|?]; [by apply (w_freed _ Hw)|done]. }
    destruct Hit' as [[eu Hu] Hn]. split; [exists eu; by apply (ef_mono _ _ He)|].
    intros r t' Hr Hx. destruct (ef_held _ _ He _ _ _ Hr Hx) as [Hl|(t0 & Ht0 & Hx0)].
    + apply (w_disj _ Hw) in Hl. congruence.
    + by eapply Hn.
Qed.

(** A step that changes only one thread's record, and possibly raises the epoch, moves
    entries to the orphan store or frees some. *)
Lemma ewf_local s s' i t t' :
  ewf s → threads s !! i = Some t →
  threads s' = <[i := t']> (threads s) → linked s' = linked s → unlinked s' = unlinked s →
  (globalEpoch s ≤ globalEpoch s') → (globalEpoch s' < SIZE_MAX) →
  (∀ x, x ∈ t_held t' → x ∈ t_held t ∨ x ∈ linked s) →
  (thr_ok s i t → thr_ok s i t') →
  (∀ it, it ∈ orphans s' → it ∈ orphans s ∨ item_ok s it) →
  (∀ it, it ∈ freed s' → it ∈ freed s ∨
     (is_Some (unlinked s !! ptr it) ∧ ∀ r t, threads s !! r = Some t → ptr it ∉ t_held t)) →
  ewf s'.
Proof.
  intros Hw Ht Hts Hl Hu Hg Hb Hh Hok Ho Hf.
  assert (He : eff s s').
  { constructor; [done|..]; rewrite ?Hl, ?Hu; try (by auto).
    intros r t0 x. rewrite Hts, lookup_insert_Some. intros [[<- <-]|[_ Hr]] Hx; [|by eauto].
    destruct (Hh x Hx); eauto. }
  eapply ewf_step; try done.
  - intros x. rewrite Hl, Hu. apply Hw.
  - intros j t0. rewrite Hts, lookup_insert_Some. intros [[<- <-]|[_ Hr]]; [|by left].
    right. eapply thr_eff; [done|done|]. by apply Hok, (w_thr _ Hw).
  - intros it Hit. eapply item_eff; [done|]. destruct (Ho it Hit); [by apply (w_orphans _ Hw)|done].
Qed.

Lemma thr_gate s i t g : thr_ok s i t → gate_ok s g → thr_ok s i (set_gate g t).
Proof. by intros [????? ] ?; constructor. Qed.

Lemma thr_bag s i t b : thr_ok s i t → (∀ it, it ∈ b → item_ok s it) → thr_ok s i (set_bag b t).
Proof. by intros [????? ] ?; constructor. Qed.

Lemma thr_limit s i t m : thr_ok s i t → thr_ok s i (set_limit m t).
Proof. by intros [????? ]; constructor. Qed.
Lemma thr_runs s i t b : thr_ok s i t → thr_ok s i (set_runs b t).
Proof. by intros [????? ]; constructor. Qed.
Lemma thr_dead s i t d : thr_ok s i t → thr_ok s i (set_dead d t).
Proof. by intros [????? ]; constructor. Qed.

Lemma thr_unret s i t : thr_ok s i t → thr_ok s i (set_ret None t).
Proof. by intros [????? ]; constructor. Qed.

(** A holder is pinned, at or before the epoch its object was unlinked in. *)
Lemma holder s r t x eu :
  ewf s → threads s !! r = Some t → x ∈ t_held t → unlinked s !! x = Some eu →
  (r < n)%nat ∧ t_slot t ≠ SIZE_MAX ∧ (t_slot t ≤ eu).
Proof.
  intros Hw Ht Hx Hu. destruct (w_thr _ Hw _ _ Ht) as [Hr Hh _ _ _]. pose proof (w_range _ Hw).
  destruct Hr as [(_ & _ & Hn & _)|(_ & _ & H0 & H1 & Hrn)]; [rewrite Hn in Hx; set_solver|].
  split_and!; [done|lia|]. destruct (Hh x Hx) as [Hl|(eu' & Hu' & Hle)]; [|congruence].
  apply (w_disj _ Hw) in Hl. congruence.
Qed.

Lemma floor_slot s m k :
  ewf s → floor s (λ r, (r < k)%nat) m → floor s (λ r, (r < S k)%nat) (min_slot s m k).
Proof.
  intros Hw [Hm Hf]. unfold min_slot.
  assert (Hmin : ∀ e, e = epoch_slot s k → (if negb (e =? SIZE_MAX) && (e <? m) then e else m) ≤ m ∧
    (e ≠ SIZE_MAX → (if negb (e =? SIZE_MAX) && (e <? m) then e else m) ≤ e)).
  { intros e _. destruct (e =? SIZE_MAX) eqn:E1; [apply Z.eqb_eq in E1; simpl; lia|].
    destruct (e <? m) eqn:E2; simpl; lia. }
  destruct (Hmin _ eq_refl) as [H1 H2]. split; [lia|]. intros r t x eu Hr Ht Hx Hu.
  destruct (decide (r = k)) as [->|Hne].
  - destruct (holder _ _ _ _ _ Hw Ht Hx Hu) as (_ & Hs & Hle).
    assert (epoch_slot s k = t_slot t) as Heq by (unfold epoch_slot, thr_at; by rewrite Ht).
    rewrite Heq in *. specialize (H2 Hs). lia.
  - assert (m ≤ eu); [|lia]. eapply (Hf r t x); [lia|done..].
Qed.

Lemma floor_all s m : ewf s → floor s (λ r, (r < n)%nat) m → floor s (λ _, True) m.
Proof.
  intros Hw [Hm Hf]. split; [done|]. intros r t x eu _ Ht Hx Hu.
  eapply Hf; [|done..]. by eapply holder.
Qed.

(** An entry older than the floor of all readers is held by none of them. *)
Lemma floor_safe s safe it :
  ewf s → floor s (λ _, True) safe → item_ok s it → (epoch it < safe) →
  is_Some (unlinked s !! ptr it) ∧ ∀ r t, threads s !! r = Some t → ptr it ∉ t_held t.
Proof.
  intros Hw [_ Hf] (eu & Hu & H1 & H2) Hlt. split; [by exists eu|].
  intros r t Ht Hx. pose proof (Hf r t _ _ I Ht Hx Hu). lia.
Qed.

(** Steps of the reader side. *)
Lemma reader_step s i t t' :
  ewf s → threads s !! i = Some t →
  (∃ sl g e h, t' = set_reader sl g e h t) → reader_ok s i t' →
  (∀ x, x ∈ t_held t' → x ∈ linked s ∨ (x ∈ t_held t ∧ t_slot t' = t_slot t)) →
  ewf (put i t' s).
Proof.
  intros Hw Ht (sl & g & e & h & ->) Hr Hh.
  apply (ewf_local s _ i t (set_reader sl g e h t)); simpl; try done; try apply Hw; [| |by auto..].
  - intros x Hx. destruct (Hh x Hx) as [?|[? _]]; auto.
  - intros [_ Hheld Hret Hb Hg]. constructor; simpl in *; try done.
    intros x Hx. destruct (Hh x Hx) as [?|[Hx' ->]]; [by left|by apply Hheld].
Qed.
(** Steps that change one thread's gate, bag, limit or flags only. *)
Lemma gate_step s i t t' :
  ewf s → threads s !! i = Some t → t_held t' = t_held t → (thr_ok s i t → thr_ok s i t') → ewf (put i t' s).
Proof.
  intros Hw Ht Hh Hok. apply (ewf_local s _ i t t'); simpl; try done; try apply Hw; [|by auto..].
  intros x. rewrite Hh. by left.
Qed.
Lemma ewf_orphan s v : ewf s → (∀ it, it ∈ v → item_ok s it) → ewf (OrphanEpochEntries v s).
Proof.
  intros Hw Hv. apply (ewf_step s); simpl; try done; try apply Hw; try by auto.
  - constructor; simpl; eauto; lia.
  - intros it. rewrite elem_of_app. intros [?|?]; [by apply (w_orphans _ Hw)|by apply Hv].
Qed.

Lemma ewf_retire s i t it :
  ewf s → (∃ t0, threads s !! i = Some t0 ∧ t_held t0 = t_held t) → thr_ok s i t → item_ok s it → ewf (RetirePtr i t it s).
Proof.
  intros Hw (t0 & Ht0 & Hh) Hok Hit.
  assert (Hput : ∀ t', t_held t' = t_held t → thr_ok s i t' → ewf (put i t' s)).
  { intros t' Hh' Hok'. apply (gate_step s i t0); [done|done|congruence|done]. }
  assert (Hb : thr_ok s i (set_bag (t_bag t ++ [it]) t)).
  { apply thr_bag; [done|]. intros x. rewrite elem_of_app, list_elem_of_singleton.
    intros [?| ->]; [|done]. by apply (to_bag _ _ _ Hok). }
  unfold RetirePtr. repeat case_match; try (by apply Hput).
  - apply ewf_orphan; [by apply Hput|]. by intros x ->%list_elem_of_singleton.
  - apply Hput; [done|]. by apply thr_gate.
Qed.

Lemma ewf_tail s i t a :
  ewf s → threads s !! i = Some t → ewf (gate_tail a i t s).
Proof.
  intros Hw Ht. pose proof (w_thr _ Hw _ _ Ht) as Hok.
  assert (Hput : ∀ t', t_held t' = t_held t → thr_ok s i t' → ewf (put i t' s)).
  { intros t' Hh' Hok'. by apply (gate_step s i t). }
  assert (Hnil : thr_ok s i (set_bag [] t)) by (apply thr_bag; [done|set_solver]).
  destruct a; simpl; [|apply ewf_orphan; [|apply (to_bag _ _ _ Hok)]..];
    (apply Hput; [done|]; apply thr_gate; [|done]; auto using thr_limit, thr_runs).
Qed.
Lemma ewf_unlink s i t x :
  ewf s → threads s !! i = Some t → t_ret t = None → x ∈ linked s →
  ewf (mkEp (globalEpoch s) (<[i := set_ret (Some (x, None)) t]> (threads s)) (orphans s) (freed s)
        (linked s ∖ {[x]}) (<[x := globalEpoch s]> (unlinked s))).
Proof.
  intros Hw Ht Hr Hx. pose proof (w_disj _ Hw _ Hx) as Hux. set (s' := mkEp _ _ _ _ _ _).
  assert (He : eff s s').
  { constructor; simpl.
    - lia.
    - intros r t' y. rewrite lookup_insert_Some. intros [[<- <-]|[_ H]] Hy; eauto.
    - intros y eu. rewrite lookup_insert_Some. intros [[<- <-]|[_ H]]; auto.
    - intros y eu Hy. rewrite lookup_insert_ne; [done|congruence].
    - intros y Hy. destruct (decide (y = x)) as [->|Hne]; [right; by rewrite lookup_insert_eq|left; set_solver]. }
  eapply ewf_step; [done|done|apply Hw|..]; simpl.
  - intros y Hy. rewrite lookup_insert_ne by set_solver. apply Hw. set_solver.
  - intros j t'. rewrite lookup_insert_Some. intros [[<- <-]|[_ H]]; [|by left]. right.
    pose proof (thr_eff _ _ _ _ Hw He (w_thr _ Hw _ _ Ht)) as [H1 H2 H3 H4 H5]. constructor; simpl; try done.
    intros y o [= <- <-]. exists (globalEpoch s). by rewrite lookup_insert_eq.
  - intros it Hit. eapply item_eff; [done|by apply (w_orphans _ Hw)].
  - by left.
Qed.

Lemma ewf_cas s i t a o e :
  ewf s → threads s !! i = Some t → (globalEpoch (advance_cas e s) < SIZE_MAX) →
  ewf (put i (set_gate (GTest a o) t) (advance_cas e s)).
Proof.
  intros Hw Ht Hb. pose proof (w_range _ Hw).
  apply (ewf_local s _ i t (set_gate (GTest a o) t)); simpl; try done; [|by auto| |by auto..].
  - destruct (_ =? e) eqn:E; [|done]. apply Z.eqb_eq in E. rewrite u64_small by (unfold SIZE_MAX in *; lia). lia.
  - intros H'. by apply thr_gate.
Qed.

(** The freeing steps. *)
Lemma ewf_free s i t a o safe it todo kept :
  ewf s → threads s !! i = Some t → t_gate t = GWork a o safe (it :: todo) kept →
  ewf (if epoch it <? safe then run_deleter it (put i (set_gate (GWork a o safe todo kept) t) s)
       else put i (set_gate (GWork a o safe todo (kept ++ [it])) t) s).
Proof.
  intros Hw Ht Hgt. pose proof (w_thr _ Hw _ _ Ht) as Hok. pose proof (to_gate _ _ _ Hok) as Hgo.
  rewrite Hgt in Hgo. destruct Hgo as [Hf Hi]. destruct (epoch it <? safe) eqn:E.
  - apply Z.ltb_lt in E. apply (ewf_local s _ i t (set_gate (GWork a o safe todo kept) t)); simpl; try done; try apply Hw; [by auto| |by auto|].
    + intros _. apply thr_gate; [done|]. split; [done|]. intros y Hy. apply Hi. set_solver.
    + intros y. rewrite elem_of_app, list_elem_of_singleton. intros [?| ->]; [by left|]. right.
      apply (floor_safe s safe); [done|done| |done]. apply Hi. set_solver.
  - apply (gate_step s i t); [done|done|done|]. intros _. apply thr_gate; [done|]. split; [done|].
    intros y Hy. apply Hi. set_solver.
Qed.

Lemma ewf_sweep s i t a o safe :
  ewf s → threads s !! i = Some t → t_gate t = GSweep a o safe →
  ewf (put i (set_gate (GTail a) t)
    (if o && negb (bool_decide (orphans s = [])) then SweepEpochOrphans safe s else s)).
Proof.
  intros Hw Ht Hgt. pose proof (w_thr _ Hw _ _ Ht) as Hok. pose proof (to_gate _ _ _ Hok) as Hgo.
  rewrite Hgt in Hgo. case_match; [|by eapply gate_step; [..|intros ?; apply thr_gate]].
  apply (ewf_local s _ i t (set_gate (GTail a) t)); simpl; try done; try apply Hw; [by auto|..].
  - intros _. by apply thr_gate.
  - intros y [_ Hy]%list_elem_of_filter. by left.
  - intros y. rewrite elem_of_app, list_elem_of_filter. intros [?|[Hlt Hy]]; [by left|]. right.
    apply (floor_safe s safe); [done|done| |done]. by apply (w_orphans _ Hw).
Qed.

(** The reader's own steps. *)
Lemma ewf_store s i t e :
  ewf s → threads s !! i = Some t → t_enter t = Some e →
  ewf (put i (set_reader e (true :: t_guards t) None (t_held t) t) s).
Proof.
  intros Hw Ht Hen. pose proof (to_reader _ _ _ (w_thr _ Hw _ _ Ht)) as Hrd.
  destruct Hrd as [(H1 & H2 & H3 & H4)|(_ & H1 & _)]; [destruct (H4 e Hen) as (H5 & H6 & H7)|congruence].
  eapply reader_step; [done|done|by eauto 10|..]; simpl.
  - right. simpl. rewrite H2. split_and!; try done. by exists 0%nat.
  - rewrite H3. set_solver.
Qed.

Lemma ewf_leave s i t o gs :
  ewf s → threads s !! i = Some t → t_enter t = None → t_guards t = o :: gs →
  ewf (put i (if o : bool then set_reader SIZE_MAX gs None [] t
              else set_reader (t_slot t) gs None (t_held t) t) s).
Proof.
  intros Hw Ht Hen Hgs. pose proof (to_reader _ _ _ (w_thr _ Hw _ _ Ht)) as Hrd.
  destruct Hrd as [(_ & H1 & _)|([k Hk] & _ & H1 & H2 & H3)]; [congruence|]. rewrite Hgs in Hk.
  destruct k as [|k]; injection Hk as -> ->;
    eapply reader_step; [done|done|by eauto 10| |set_solver|done|done|by eauto 10| |by simpl; auto].
  - left. done.
  - right. simpl. split_and!; try done. by exists k.
Qed.

Lemma ewf_publish s x :
  ewf s → x ∉ linked s → unlinked s !! x = None →
  ewf (mkEp (globalEpoch s) (threads s) (orphans s) (freed s) ({[x]} ∪ linked s) (unlinked s)).
Proof.
  intros Hw Hx Hu. eapply ewf_step; simpl; try done; try apply Hw; try by auto.
  - constructor; simpl; try done; eauto. intros y Hy. left. set_solver.
  - intros y. rewrite elem_of_union, elem_of_singleton. intros [-> |?]; [done|]. by apply Hw.
Qed.

Lemma estep_ewf s s' : ewf s → estep n s s' → (globalEpoch s' < SIZE_MAX) → ewf s'.
Proof.
  intros Hw Hs Hb. pose proof (w_range _ Hw) as Hg.
  destruct Hs as [i t Ht Hi Hruns Hsl Hen|i t e Ht Hen|i t Ht Hi Hsl Hen|i t o gs Ht Hen Hgs|i t x Ht Hgs Hx|x Hx Hu
    |i t x Ht Hr Hx|i t x Ht Hr|i t x e d Ht Hr|i t a o Ht Hgt Hd Ha|i t a o Ht Hgt|i t a o e Ht Hgt|i t a o Ht Hgt
    |i t a o Ht Hgt|i t a o m k Ht Hgt Hk|i t a o m Ht Hgt|i t a o safe it todo kept Ht Hgt|i t a o safe kept Ht Hgt
    |i t a o safe Ht Hgt|i t a Ht Hgt|i t Ht Hi Hruns Hgt|i t Ht Hruns Hgt Hsl Hen|i t Ht Hgt];
    try pose proof (w_thr _ Hw _ _ Ht) as Hok; try pose proof (to_reader _ _ _ Hok) as Hrd;
    try (pose proof (to_gate _ _ _ Hok) as Hgo; rewrite Hgt in Hgo; simpl in Hgo).
  - (* load *) eapply reader_step; [done|done|by eauto 10| |by simpl; auto].
    destruct Hrd as [(H1 & H2 & H3 & _)|(_ & _ & H1 & H2 & _)]; [|lia].
    left. simpl. split_and!; try done. intros e [= <-]. lia.
  - by apply ewf_store.
  - (* nest *) eapply reader_step; [done|done|by eauto 10| |by simpl; auto].
    destruct Hrd as [(H1 & _)|([k Hk] & _ & H1 & H2 & _)]; [done|].
    right. simpl. split_and!; try done. exists (S k). by rewrite Hk.
  - by apply ewf_leave.
  - (* read *) eapply reader_step; [done|done|by eauto 10| |].
    + destruct Hrd as [(_ & H1 & _)|(H1 & H2 & H3 & H4 & H5)]; [done|]. right. done.
    + simpl. intros y. rewrite elem_of_cons. intros [-> |?]; auto.
  - by apply ewf_publish.
  - by apply ewf_unlink.
  - (* stamp *) eapply gate_step; [done|done|done|]. intros [H1 H2 H3 H4 H5]. constructor; simpl; try done.
    intros y o [= <- <-]. destruct (H3 _ _ Hr) as (eu & Hu & _). exists eu. split; [done|]. intros e [= <-].
    split; [|done]. by apply (w_unl _ Hw) in Hu.
  - (* retire *) destruct (to_ret _ _ _ Hok _ _ Hr) as (eu & Hu & He). destruct (He e eq_refl).
    apply ewf_retire; [done|by exists t|by apply thr_unret|]. by exists eu.
  - by eapply gate_step; [..|intros ?; apply thr_gate].
  - by eapply gate_step; [..|intros ?; apply thr_gate].
  - by apply ewf_cas.
  - eapply gate_step; [done|done|done|]. intros _. apply thr_gate; [done|]. by case_match.
  - eapply gate_step; [done|done|done|]. intros _. apply thr_gate; [done|]. split; [done|lia].
  - eapply gate_step; [done|done|done|]. intros _. apply thr_gate; [done|]. by apply floor_slot.
  - eapply gate_step; [done|done|done|]. intros _. apply thr_gate; [apply thr_bag; [done|set_solver]|].
    split; [by apply floor_all|]. rewrite app_nil_r. apply (to_bag _ _ _ Hok).
  - by apply ewf_free.
  - eapply gate_step; [done|done|done|]. intros _. destruct Hgo as [Hf Hi]. apply thr_gate; [apply thr_bag; [done|]|done].
    intros it. rewrite elem_of_app. intros [?|?]; [by apply (to_bag _ _ _ Hok)|]. apply Hi. set_solver.
  - by apply ewf_sweep.
  - by apply ewf_tail.
  - eapply gate_step; [done|done|done|]. intros _. by apply thr_runs.
  - by eapply gate_step; [..|intros ?; apply thr_gate].
  - apply ewf_orphan; [|apply (to_bag _ _ _ Hok)]. eapply gate_step; [done|done|done|]. intros _.
    apply thr_dead, thr_bag; [done|set_solver].
Qed.
End safety.

(** A step that leaves the 64-bit epoch counter short of [SIZE_MAX], the idle mark. *)
Definition bstep (n : nat) (s s' : epochs) : Prop := estep n s s' ∧ (globalEpoch s' < SIZE_MAX).

Lemma einit_ewf n s : einit s → ewf n s.
Proof.
  intros (ts & lk & Hts & ->). constructor; simpl; try done; try set_solver.
  intros i t Ht. destruct (Hts i t Ht) as [b ->]. constructor; simpl; try done; try set_solver.
  left. done.
Qed.

Lemma reachable_ewf n s : reachable einit (bstep n) s → ewf n s.
Proof.
  revert s. apply reachable_ind; [apply einit_ewf|]. intros s s' Hw [Hs Hb]. by eapply estep_ewf.
Qed.

(** C14: no use after free.  Whatever the interleaving of guards, retires, gates, sweeps of
    the shared store, scopes beginning and ending and threads exiting: an object a thread
    obtained under an open guard has not been freed, and the thread's slot announces an
    epoch no later than the one in which the object was unlinked. *)
Theorem epoch_no_use_after_free n s r t x :
  reachable einit (bstep n) s → threads s !! r = Some t → x ∈ t_held t →
  (x ∉ (ptr <$> freed s)) ∧ t_slot t ≠ SIZE_MAX ∧ ∀ eu, unlinked s !! x = Some eu → t_slot t ≤ eu.
Proof.
  intros Hr Ht Hx. apply reachable_ewf in Hr as Hw. pose proof (w_range _ _ Hw). split_and!.
  - intros (it & -> & Hit)%list_elem_of_fmap. by apply (w_freed _ _ Hw it Hit) in Ht.
  - destruct (to_reader _ _ _ _ (w_thr _ _ Hw _ _ Ht)) as [(_ & _ & Hn & _)|(_ & _ & ? & ? & _)]; [|lia].
    intros _. rewrite Hn in Hx. set_solver.
  - intros eu Hu. by eapply (holder n s r t x eu).
Qed.

(** ** Every retired object is in one place *)

Definition work_of (g : gpc) : list EpochRetired :=
  match g with GWork _ _ _ todo kept => todo ++ kept | _ => [] end.

Definition t_places (t : thr) : list Z :=
  match t_ret t with Some (x, _) => [x] | None => [] end ++ (ptr <$> t_bag t) ++ (ptr <$> work_of (t_gate t)).

Definition places (s : epochs) : list Z :=
  gather t_places (threads s) ++ (ptr <$> orphans s) ++ (ptr <$> freed s).

(** Thread [i] becomes [t']; what it gives up goes to the orphan store or is freed. *)
Lemma places_move s i t t' g o f lk u :
  threads s !! i = Some t →
  t_places t ++ (ptr <$> orphans s) ++ (ptr <$> freed s) ≡ₚ t_places t' ++ (ptr <$> o) ++ (ptr <$> f) →
  places (mkEp g (<[i := t']> (threads s)) o f lk u) ≡ₚ places s.
Proof.
  intros Ht Hp. unfold places. simpl. rewrite gather_insert, (gather_delete _ _ _ _ Ht).
  rewrite <- !app_assoc, (Permutation_app_comm (gather _ _)), (app_assoc (t_places t')), <- Hp.
  solve_Permutation.
Qed.

Lemma places_put s i t t' :
  threads s !! i = Some t → t_places t ≡ₚ t_places t' → places (put i t' s) ≡ₚ places s.
Proof. intros Ht Hp. unfold put. eapply places_move; [done|]. by rewrite Hp. Qed.

Lemma sweep_perm (safe : Z) (l : list EpochRetired) :
  filter (λ it, safe ≤ epoch it) l ++ filter (λ it, epoch it < safe) l ≡ₚ l.
Proof.
  induction l as [|x l IH]; [done|]. rewrite !filter_cons. repeat case_decide; try lia; simpl.
  - by rewrite IH.
  - rewrite <- IH at 3. solve_Permutation.
Qed.

Definition placed (s : epochs) : Prop :=
  (∀ x, x ∈ linked s → unlinked s !! x = None) ∧ places s ≡ₚ (map_to_list (unlinked s)).*1.

(** Same client structures, entries moved around. *)
Lemma placed_move s s' :
  placed s → linked s' = linked s → unlinked s' = unlinked s → places s' ≡ₚ places s → placed s'.
Proof. intros [Hd Hp] Hl Hu Hs. split; rewrite Hu; [by rewrite Hl|]. by rewrite Hs. Qed.

Lemma placed_put s i t t' :
  placed s → threads s !! i = Some t → t_places t ≡ₚ t_places t' → placed (put i t' s).
Proof. intros Hp Ht Hq. eapply placed_move; [done..|]. by eapply places_put. Qed.

Lemma placed_orphan s i t t' :
  placed s → threads s !! i = Some t → t_places t ≡ₚ t_places t' ++ (ptr <$> t_bag t) →
  placed (OrphanEpochEntries (t_bag t) (put i t' s)).
Proof.
  intros Hp Ht Hq. eapply placed_move; [done..|]. unfold OrphanEpochEntries, put. simpl.
  eapply places_move; [done|]. rewrite Hq, fmap_app. solve_Permutation.
Qed.

Lemma placed_retire s i t x e d :
  placed s → threads s !! i = Some t → t_ret t = Some (x, Some e) →
  placed (RetirePtr i (set_ret None t) (mkRet x e d) s).
Proof.
  intros Hp Ht Hr.
  assert (Hin : ∀ g, work_of g = work_of (t_gate t) →
    t_places t ≡ₚ t_places (set_gate g (set_bag (t_bag t ++ [mkRet x e d]) (set_ret None t)))).
  { intros g Hg. unfold t_places. simpl. rewrite Hr, Hg, fmap_app. simpl. solve_Permutation. }
  unfold RetirePtr. repeat case_match; try (eapply placed_put; [done..|]; by apply (Hin (t_gate t))).
  - eapply placed_move; [done..|]. unfold OrphanEpochEntries, put. simpl. eapply places_move; [done|].
    unfold t_places. simpl. rewrite Hr, fmap_app. simpl. solve_Permutation.
  - eapply placed_put; [done..|]. simpl in *. apply Hin. by rewrite H1.
Qed.

Lemma placed_unlink s i t x :
  placed s → threads s !! i = Some t → t_ret t = None → x ∈ linked s →
  placed (mkEp (globalEpoch s) (<[i := set_ret (Some (x, None)) t]> (threads s)) (orphans s) (freed s)
      (linked s ∖ {[x]}) (<[x := globalEpoch s]> (unlinked s))).
Proof.
  intros [Hd Hp] Ht Hr Hx. pose proof (Hd x Hx) as Hu. split; simpl.
  - intros y Hy. rewrite lookup_insert_ne by set_solver. apply Hd. set_solver.
  - rewrite (map_to_list_insert _ _ _ Hu). simpl. rewrite <- Hp. unfold places. simpl.
    rewrite gather_insert, (gather_delete _ _ _ _ Ht). unfold t_places at 1 3. simpl. rewrite Hr. done.
Qed.

Lemma placed_free s i t a o safe it todo kept :
  placed s → threads s !! i = Some t → t_gate t = GWork a o safe (it :: todo) kept →
  placed (if epoch it <? safe then run_deleter it (put i (set_gate (GWork a o safe todo kept) t) s)
       else put i (set_gate (GWork a o safe todo (kept ++ [it])) t) s).
Proof.
  intros Hp Ht Hg. case_match.
  - eapply placed_move; [done..|]. unfold run_deleter, put. simpl. eapply places_move; [done|].
    unfold t_places. rewrite Hg. simpl. rewrite !fmap_app. simpl. solve_Permutation.
  - eapply placed_put; [done..|]. unfold t_places. rewrite Hg. simpl. rewrite !fmap_app. simpl. solve_Permutation.
Qed.

Lemma estep_placed n s s' : placed s → estep n s s' → placed s'.
Proof.
  intros Hp Hs.
  destruct Hs as [i t Ht Hi Hruns Hsl Hen|i t e Ht Hen|i t Ht Hi Hsl Hen|i t o gs Ht Hen Hgs|i t x Ht Hgs Hx|x Hx Hu
    |i t x Ht Hr Hx|i t x Ht Hr|i t x e d Ht Hr|i t a o Ht Hgt Hd Ha|i t a o Ht Hgt|i t a o e Ht Hgt|i t a o Ht Hgt
    |i t a o Ht Hgt|i t a o m k Ht Hgt Hk|i t a o m Ht Hgt|i t a o safe it todo kept Ht Hgt|i t a o safe kept Ht Hgt
    |i t a o safe Ht Hgt|i t a Ht Hgt|i t Ht Hi Hruns Hgt|i t Ht Hruns Hgt Hsl Hen|i t Ht Hgt];
    try (by eapply placed_put; [done..|unfold t_places; simpl; rewrite ?Hgt, ?Hr; simpl; solve_Permutation]).
  - eapply placed_put; [done..|]. by destruct o.
  - destruct Hp as [Hd Hp]. split; [|done]. simpl. intros y. rewrite elem_of_union, elem_of_singleton.
    intros [-> |?]; [done|by apply Hd].
  - by apply placed_unlink.
  - by apply placed_retire.
  - eapply placed_put; [done..|]. unfold t_places. rewrite Hgt. simpl. by destruct (_ && _).
  - eapply placed_put; [done..|]. unfold t_places. rewrite Hgt. simpl. rewrite !app_nil_r. solve_Permutation.
  - by apply placed_free.
  - eapply placed_put; [done..|]. unfold t_places. rewrite Hgt. simpl. rewrite fmap_app. simpl. solve_Permutation.
  - case_match; [|eapply placed_put; [done..|]; unfold t_places; by rewrite Hgt].
    eapply placed_move; [done..|]. unfold SweepEpochOrphans, put. simpl. eapply places_move; [done|].
    rewrite fmap_app. unfold t_places. rewrite Hgt. simpl. rewrite <- (sweep_perm safe (orphans s)) at 1.
    rewrite fmap_app. solve_Permutation.
  - destruct a; simpl; [eapply placed_put; [done..|]|eapply placed_orphan; [done..|]|eapply placed_orphan; [done..|]];
      unfold t_places; rewrite Hgt; simpl; solve_Permutation.
  - eapply placed_orphan; [done..|]. unfold t_places. simpl. solve_Permutation.
Qed.

(** every object unlinked from a client structure and handed to the reclaimer is in
    exactly one place: a retire in progress, a thread's bag or its detached working copy,
    the orphan store, or the freed objects.  So no entry is lost, and no deleter runs twice
    for one object. *)
Theorem epoch_conservation n s :
  reachable einit (estep n) s →
  places s ≡ₚ (map_to_list (unlinked s)).*1 ∧ NoDup (places s).
Proof.
  intros Hr. assert (placed s) as [_ Hp].
  { revert s Hr. apply reachable_ind; [|intros s s' Hp Hs; by eapply estep_placed].
    intros s (ts & lk & Hts & ->). split; simpl; [done|]. unfold places. simpl.
    rewrite app_nil_r, map_to_list_empty. simpl. apply Permutation_nil_r, elem_of_nil_inv.
    intros x (i & t & Ht & Hx)%elem_of_gather. destruct (Hts i t Ht) as [b ->]. set_solver. }
  split; [done|]. rewrite Hp. apply NoDup_fst_map_to_list.
Qed.

(** ** Suspending under a guard *)

Inductive suspend_check := CheckOk | CheckHandled | FatalHazard | FatalEpoch.

(** [depth] is the thread's count of hazard guards, [slot] its epoch slot if it has one,
    [handler] whether a test handler is installed. *)
Definition EpochGuardSuspendCheck (depth : Z) (slot : option Z) (handler : bool) : suspend_check :=
  if negb (depth =? 0) then FatalHazard
  else match slot with
       | None => CheckOk
       | Some e => if e =? SIZE_MAX then CheckOk else if handler then CheckHandled else FatalEpoch
       end.

(** the check at every suspension point is exact: with no hazard guard open it passes
    just when no epoch guard is open on the thread, and aborts otherwise. *)
Theorem suspend_check_exact n s i t :
  reachable einit (bstep n) s → threads s !! i = Some t →
  EpochGuardSuspendCheck 0 (Some (t_slot t)) false =
    (if bool_decide (t_guards t = []) then CheckOk else FatalEpoch).
Proof.
  intros Hr Ht. apply reachable_ewf in Hr as Hw. pose proof (w_range _ _ Hw).
  unfold EpochGuardSuspendCheck. simpl.
  destruct (to_reader _ _ _ _ (w_thr _ _ Hw _ _ Ht)) as [(-> & -> & _)|([k ->] & _ & ? & ? & _)]; [done|].
  rewrite bool_decide_false by (by destruct k). destruct (t_slot t =? SIZE_MAX) eqn:E; [|done].
  apply Z.eqb_eq in E. lia.
Qed.

(** ** The gate as a sequential function *)

Definition MinActiveEpoch (n : nat) (s : epochs) : Z := foldl (min_slot s) (globalEpoch s) (seq 0 n).

Definition TryReclaim (n i : nat) (o : bool) (s : epochs) : epochs :=
  let t := thr_at s i in
  if bool_decide (t_bag t = []) && (negb o || bool_decide (orphans s = [])) then s
  else
    let safe := MinActiveEpoch n s in
    let s1 := mkEp (globalEpoch s) (<[i := set_bag (filter (λ it, safe ≤ epoch it) (t_bag t)) t]> (threads s))
                (orphans s) (freed s ++ filter (λ it, epoch it < safe) (t_bag t)) (linked s) (unlinked s) in
    if o && negb (bool_decide (orphans s1 = [])) then SweepEpochOrphans safe s1 else s1.

Definition inGate (g : gpc) : bool := match g with Out => false | _ => true end.

Definition Gate (n i : nat) (idle o : bool) (s : epochs) : epochs :=
  if inGate (t_gate (thr_at s i)) || t_dead (thr_at s i) then s
  else
    let s1 := TryReclaim n i o (AdvanceEpoch s) in
    gate_tail (if idle then Idle else Busy) i (thr_at s1 i) s1.

(** [GatePending] and [OrphansPending]; [hz] tells whether the hazard domain holds any. *)
Definition GatePending (i : nat) (hz : bool) (s : epochs) : bool :=
  (negb (t_dead (thr_at s i)) && negb (bool_decide (t_bag (thr_at s i) = []))) || hz.
Definition OrphansPending (hz : bool) (s : epochs) : bool := negb (bool_decide (orphans s = [])) || hz.

Fixpoint Drain (maxPasses n i : nat) (hz : bool) (s : epochs) : bool * epochs :=
  match maxPasses with
  | O => (false, s)
  | S k =>
      let s1 := Gate n i false true s in
      if negb (GatePending i hz s1) && negb (OrphansPending hz s1) then (true, s1)
      else Drain k n i hz s1
  end.

Lemma thr_at_eq s i t : threads s !! i = Some t → thr_at s i = t.
Proof. unfold thr_at. by intros ->. Qed.

Lemma put_put i t t' s : put i t' (put i t s) = put i t' s.
Proof. unfold put. simpl. by rewrite insert_insert_eq. Qed.

Lemma put_same i t s : threads s !! i = Some t → put i t s = s.
Proof. intros Ht. unfold put. rewrite insert_id by done. by destruct s. Qed.

Lemma lookup_put i t s : threads (put i t s) !! i = Some t.
Proof. apply lookup_insert_eq. Qed.

Lemma min_slot_gate s i t g m k :
  threads s !! i = Some t → min_slot (put i (set_gate g t) s) m k = min_slot s m k.
Proof.
  intros Ht. unfold min_slot, epoch_slot, thr_at. simpl. destruct (decide (i = k)) as [<-|Hne].
  - by rewrite lookup_insert_eq, Ht.
  - by rewrite lookup_insert_ne.
Qed.

Lemma foldl_ext {A B} (f g : A → B → A) (l : list B) (a : A) :
  (∀ a b, f a b = g a b) → foldl f a l = foldl g a l.
Proof. intros H. revert a. induction l as [|b l IH]; intros a; simpl; [done|]. by rewrite H, IH. Qed.

Section gate_run.
Context (n i : nat).

Lemma scan_run s t a o m k :
  threads s !! i = Some t → t_gate t = GMin a o m k → (k ≤ n)%nat →
  rtc (estep n) s (put i (set_gate (GMin a o (foldl (min_slot s) m (seq k (n - k))) n) t) s).
Proof.
  intros Ht Hg Hk. remember (n - k)%nat as d eqn:Hd. revert s t m k Ht Hg Hk Hd.
  induction d as [|d IH]; intros s t m k Ht Hg Hk Hd; simpl.
  - assert (k = n) as -> by lia. rewrite put_same; [constructor|]. rewrite Ht. f_equal.
    destruct t; simpl in *. by subst.
  - eapply rtc_l; [apply (e_slot n s i t a o m k); [done|done|lia]|].
    specialize (IH _ (set_gate (GMin a o (min_slot s m k) (S k)) t) (min_slot s m k) (S k)
      (lookup_put _ _ s) eq_refl ltac:(lia) ltac:(lia)). rewrite put_put in IH.
    erewrite (foldl_ext _ (min_slot s)) in IH; [exact IH|]. intros m' k'. by apply min_slot_gate.
Qed.

Lemma work_run s t a o safe todo kept :
  threads s !! i = Some t → t_gate t = GWork a o safe todo kept →
  rtc (estep n) s (mkEp (globalEpoch s)
    (<[i := set_gate (GWork a o safe [] (kept ++ filter (λ it, safe ≤ epoch it) todo)) t]> (threads s))
    (orphans s) (freed s ++ filter (λ it, epoch it < safe) todo) (linked s) (unlinked s)).
Proof.
  revert s t kept. induction todo as [|it todo IH]; intros s t kept Ht Hg.
  - rewrite !filter_nil, !app_nil_r. replace (mkEp _ _ _ _ _ _) with s; [constructor|].
    destruct s; simpl in *. f_equal. rewrite insert_id; [done|]. rewrite Ht. f_equal. destruct t; simpl in *. by subst.
  - eapply rtc_l; [by eapply e_free|]. rewrite !filter_cons. destruct (epoch it <? safe) eqn:E.
    + apply Z.ltb_lt in E. case_decide; [lia|]. case_decide; [|lia].
      specialize (IH (run_deleter it (put i (set_gate (GWork a o safe todo kept) t) s))
        (set_gate (GWork a o safe todo kept) t) kept (lookup_put _ _ s) eq_refl).
      simpl in IH. rewrite insert_insert_eq, <- app_assoc in IH. exact IH.
    + apply Z.ltb_ge in E. case_decide; [|lia]. case_decide; [lia|].
      specialize (IH (put i (set_gate (GWork a o safe todo (kept ++ [it])) t) s)
        (set_gate (GWork a o safe todo (kept ++ [it])) t) (kept ++ [it]) (lookup_put _ _ s) eq_refl).
      simpl in IH. rewrite insert_insert_eq, <- app_assoc in IH. exact IH.
Qed.

(** [TryReclaim] uninterrupted. *)
Lemma TryReclaim_run s t a o :
  threads s !! i = Some t →
  let s1 := TryReclaim n i o s in
  rtc (estep n) (put i (set_gate (GTest a o) t) s) (put i (set_gate (GTail a) (thr_at s1 i)) s1).
Proof.
  intros Ht s1. unfold s1, TryReclaim. rewrite (thr_at_eq _ _ _ Ht).
  eapply rtc_l; [eapply e_test; [apply lookup_put|done]|]. rewrite put_put. simpl.
  destruct (bool_decide (t_bag t = []) && _) eqn:Hempty; [rewrite (thr_at_eq _ _ _ Ht); constructor|].
  set (safe := MinActiveEpoch n s).
  eapply rtc_l; [eapply e_min; [apply lookup_put|done]|]. rewrite put_put. simpl.
  etrans; [eapply scan_run; [apply lookup_put|done|lia]|]. rewrite put_put, Nat.sub_0_r.
  rewrite (foldl_ext (min_slot (put i (set_gate (GMin a o (globalEpoch s) 0) t) s)) (min_slot s))
    by (intros; by apply min_slot_gate).
  change (foldl (min_slot s) (globalEpoch s) (seq 0 n)) with safe.
  eapply rtc_l; [eapply e_detach; [apply lookup_put|done]|]. rewrite put_put. simpl.
  etrans; [eapply work_run; [apply lookup_put|done]|]. simpl. rewrite insert_insert_eq.
  eapply rtc_l; [eapply e_merge; [apply lookup_insert_eq|done]|]. unfold put at 1. simpl. rewrite insert_insert_eq.
  eapply rtc_l; [eapply e_sweep; [apply lookup_insert_eq|done]|]. simpl.
  destruct (o && negb (bool_decide (orphans s = []))) eqn:Ho; simpl.
  - unfold SweepEpochOrphans, put. simpl. rewrite insert_insert_eq.
    rewrite (thr_at_eq _ i (set_bag (filter (λ it, safe ≤ epoch it) (t_bag t)) t)) by apply lookup_insert_eq.
    simpl. rewrite insert_insert_eq. constructor.
  - unfold put. simpl. rewrite insert_insert_eq.
    rewrite (thr_at_eq _ i (set_bag (filter (λ it, safe ≤ epoch it) (t_bag t)) t)) by apply lookup_insert_eq.
    rewrite insert_insert_eq. constructor.
Qed.

(** The sequential gate is an uninterrupted run of the thread's steps. *)
Lemma Gate_run s t idle o :
  threads s !! i = Some t → t_gate t = Out → t_dead t = false →
  rtc (estep n) s (Gate n i idle o s).
Proof.
  intros Ht Hg Hd. unfold Gate. rewrite (thr_at_eq _ _ _ Ht), Hg, Hd. simpl orb. cbv iota. set (a := if idle then Idle else Busy).
  eapply rtc_l; [eapply (e_gate n s i t a o); [done|done|done|by destruct idle]|].
  eapply rtc_l; [eapply e_adv; [apply lookup_put|done]|]. rewrite put_put. simpl.
  eapply rtc_l; [eapply e_cas; [apply lookup_put|done]|].
  change (advance_cas (globalEpoch s) (put i ?x s)) with (put i x (AdvanceEpoch s)). rewrite put_put. simpl.
  etrans; [eapply (TryReclaim_run (AdvanceEpoch s) t a o Ht)|].
  eapply rtc_l; [eapply e_tail; [apply lookup_put|done]|]. unfold gate_tail, OrphanEpochEntries, put.
  destruct idle; simpl; rewrite insert_insert_eq; constructor.
Qed.
End gate_run.

(** With no slot announced the minimum is the global epoch itself. *)
Lemma MinActiveEpoch_idle n s :
  (∀ k, (k < n)%nat → epoch_slot s k = SIZE_MAX) → MinActiveEpoch n s = globalEpoch s.
Proof.
  intros Hidle. unfold MinActiveEpoch.
  assert (Hall : ∀ l, (∀ k, k ∈ l → (k < n)%nat) → foldl (min_slot s) (globalEpoch s) l = globalEpoch s).
  { induction l as [|k l IH]; intros Hl; [done|]. simpl. unfold min_slot at 2.
    rewrite Hidle by (apply Hl; set_solver). simpl. apply IH. set_solver. }
  apply Hall. intros k Hk. apply elem_of_seq in Hk. lia.
Qed.

Lemma filter_all_old (m : Z) (l : list EpochRetired) :
  (∀ it, it ∈ l → epoch it < m) →
  filter (λ it, m ≤ epoch it) l = [] ∧ filter (λ it, epoch it < m) l = l.
Proof.
  intros Hl. split; [|by apply filter_keep].
  apply elem_of_nil_inv. intros it [Hle Hit]%list_elem_of_filter. apply Hl in Hit. lia.
Qed.

(** Reclaiming right after an advance, nobody pinned. *)
Lemma TryReclaim_idle n i t s :
  threads s !! i = Some t → (∀ k, (k < n)%nat → epoch_slot s k = SIZE_MAX) →
  (∀ it, it ∈ t_bag t ++ orphans s → epoch it < globalEpoch s) →
  let s1 := TryReclaim n i true s in
  threads s1 !! i = Some (set_bag [] t) ∧ orphans s1 = [] ∧ freed s1 = freed s ++ t_bag t ++ orphans s.
Proof.
  intros Ht Hidle Hold. unfold TryReclaim. rewrite (thr_at_eq _ _ _ Ht).
  rewrite MinActiveEpoch_idle by done.
  destruct (filter_all_old (globalEpoch s) (t_bag t)) as [Hb1 Hb2]; [intros; apply Hold; set_solver|].
  destruct (filter_all_old (globalEpoch s) (orphans s)) as [Ho1 Ho2]; [intros; apply Hold; set_solver|].
  rewrite Hb1, Hb2. simpl. case_match eqn:E1.
  - apply andb_true_iff in E1 as [E1%bool_decide_eq_true E2%bool_decide_eq_true].
    rewrite E1, E2, app_nil_r. split_and!; try done. rewrite Ht. f_equal. destruct t; simpl in *. by subst.
  - case_match eqn:E2; simpl; rewrite lookup_insert_eq.
    + rewrite Ho1, Ho2, <- app_assoc. done.
    + apply negb_false_iff, bool_decide_eq_true in E2. by rewrite E2, app_nil_r.
Qed.

(** teardown reclaims everything.  When no guard is open, the first pass of [Drain]
    frees the calling thread's whole bag and the whole orphan store, and [Drain] reports
    success (the hazard domain being empty). *)
Theorem drain_frees_all maxPasses n i t s :
  reachable einit (bstep n) s → threads s !! i = Some t → t_gate t = Out → t_dead t = false →
  (∀ k, (k < n)%nat → epoch_slot s k = SIZE_MAX) → (globalEpoch s + 1 < SIZE_MAX) → (0 < maxPasses)%nat →
  ∃ s', Drain maxPasses n i false s = (true, s') ∧ orphans s' = [] ∧ t_bag (thr_at s' i) = [] ∧
    freed s' = freed s ++ t_bag t ++ orphans s.
Proof.
  intros Hr Ht Hout Hd Hidle Hb Hp. apply reachable_ewf in Hr as Hw. pose proof (w_range _ _ Hw) as Hg.
  assert (Hge : globalEpoch (AdvanceEpoch s) = globalEpoch s + 1).
  { simpl. rewrite Z.eqb_refl. apply u64_small. unfold SIZE_MAX in *. lia. }
  destruct (TryReclaim_idle n i t (AdvanceEpoch s)) as (H1 & H2 & H3); [done|done| |].
  { intros it Hit. rewrite Hge. assert (item_ok s it) as (eu & _ & _ & ?); [|lia].
    apply elem_of_app in Hit as [?|?]; [by apply (to_bag _ _ _ _ (w_thr _ _ Hw _ _ Ht))|by apply (w_orphans _ _ Hw)]. }
  destruct maxPasses as [|k]; [lia|]. cbn [Drain]. unfold Gate. rewrite (thr_at_eq _ _ _ Ht), Hout, Hd. simpl orb. cbv iota.
  set (s1 := TryReclaim n i true (AdvanceEpoch s)) in *. rewrite (thr_at_eq _ _ _ H1). cbn [gate_tail].
  unfold GatePending, OrphansPending. erewrite thr_at_eq by apply lookup_put. simpl. rewrite H2. simpl.
  rewrite andb_false_r. simpl. eexists. split; [done|]. simpl. rewrite H2.
  erewrite thr_at_eq by apply lookup_put. done.
Qed.

(** ** Slots for threads outside the pool *)

Record ExternalSlots := mkExt { externalBase : Z; claimed : list bool }.

(** The slot part of [EpochManager::Init]. *)
Definition Init_slots (poolSlots : Z) (externalSlots : nat) : ExternalSlots :=
  mkExt poolSlots (replicate externalSlots false).

(** The loop of [ClaimExternalSlot] from index [k]; each exchange is atomic. *)
Fixpoint claim_from (k : nat) (c : list bool) : option nat :=
  match c with
  | [] => None
  | false :: _ => Some k
  | true :: c' => claim_from (S k) c'
  end.

Definition ClaimExternalSlot (x : ExternalSlots) : option Z * ExternalSlots :=
  match claim_from 0 (claimed x) with
  | Some k => (Some (externalBase x + Z.of_nat k), mkExt (externalBase x) (<[k := true]> (claimed x)))
  | None => (None, x)
  end.

Definition ReleaseExternalSlot (tid : Z) (x : ExternalSlots) : ExternalSlots :=
  if (externalBase x <=? tid) && (tid - externalBase x <? Z.of_nat (length (claimed x)))
  then mkExt (externalBase x) (<[Z.to_nat (tid - externalBase x) := false]> (claimed x))
  else x.

Lemma claim_from_spec k c :
  match claim_from k c with
  | Some j => (k ≤ j)%nat ∧ c !! (j - k)%nat = Some false
  | None => Forall (λ b, b = true) c
  end.
Proof.
  revert k. induction c as [|[] c IH]; intros k; simpl; [done| |by rewrite Nat.sub_diag].
  specialize (IH (S k)). destruct (claim_from (S k) c) as [j|]; [|by constructor].
  destruct IH as [H1 H2]. split; [lia|]. by replace (j - k)%nat with (S (j - S k)) by lia.
Qed.

(** A claim takes a free slot past the pool's own, fails only when all are taken, and
    releasing undoes it. *)
Lemma external_slot_claim x :
  match ClaimExternalSlot x with
  | (Some tid, x') =>
      (externalBase x ≤ tid < externalBase x + Z.of_nat (length (claimed x))) ∧
      claimed x !! Z.to_nat (tid - externalBase x) = Some false ∧
      claimed x' !! Z.to_nat (tid - externalBase x) = Some true ∧ ReleaseExternalSlot tid x' = x
  | (None, x') => x' = x ∧ Forall (λ b, b = true) (claimed x)
  end.
Proof.
  unfold ClaimExternalSlot. pose proof (claim_from_spec 0 (claimed x)) as Hc.
  destruct (claim_from 0 (claimed x)) as [k|]; [|done]. destruct Hc as [_ Hc]. rewrite Nat.sub_0_r in Hc.
  apply lookup_lt_Some in Hc as Hlen.
  replace (Z.to_nat (externalBase x + Z.of_nat k - externalBase x)) with k by lia.
  split; [lia|]. split; [done|]. split; [by apply list_lookup_insert_eq|].
  unfold ReleaseExternalSlot. simpl. rewrite length_insert.
  replace (externalBase x + Z.of_nat k - externalBase x) with (Z.of_nat k) by lia.
  destruct ((_ <=? _) && _) eqn:E; [|lia]. rewrite Nat2Z.id, list_insert_insert_eq, list_insert_id by done.
  by destruct x.
Qed.

(** ** Witnesses *)

(** Two slotted threads and one object. *)
Definition ep0 : epochs :=
  mkEp 0 {[0%nat := new_thr true; 1%nat := new_thr true]} [] [] {[5]} ∅.

Lemma ep0_init : einit ep0.
Proof.
  exists {[0%nat := new_thr true; 1%nat := new_thr true]}, {[5]}. split; [|done].
  intros i t. rewrite lookup_insert_Some, lookup_singleton_Some. naive_solver.
Qed.

Tactic Notation "ep_step" uconstr(c) :=
  eapply rtc_l; [split; [eapply c; vm_compute; (reflexivity || lia || done)|vm_compute; reflexivity]|]; eval_state.

(** Thread 0 holds object 5 under a guard; thread 1 has unlinked and retired it. *)
Definition ep1 : epochs :=
  mkEp 0 {[0%nat := mkThr 0 [true] None [5] [] 64 None Out true false;
           1%nat := mkThr SIZE_MAX [] None [] [mkRet 5 0 7] 64 None Out true false]} [] [] ∅ {[5 := 0]}.

Lemma ep1_reachable : reachable einit (bstep 2) ep1.
Proof.
  exists ep0. split; [apply ep0_init|].
  ep_step (e_load _ _ 0%nat). ep_step (e_store _ _ 0%nat). ep_step (e_read _ _ 0%nat _ 5).
  ep_step (e_unlink _ _ 1%nat _ 5). ep_step (e_stamp _ _ 1%nat). ep_step (e_retire _ _ 1%nat _ _ _ 7).
  match goal with |- rtc _ ?x ?y => replace x with y; [by apply rtc_refl|by vm_compute] end.
Qed.

Lemma epoch_no_use_after_free_witness :
  (5 ∉ (ptr <$> freed ep1)) ∧ (0 : Z) ≠ SIZE_MAX ∧ ∀ eu, unlinked ep1 !! 5 = Some eu → 0 ≤ eu.
Proof.
  apply (epoch_no_use_after_free 2 ep1 0%nat (mkThr 0 [true] None [5] [] 64 None Out true false) 5 ep1_reachable);
    [by vm_compute|set_solver].
Defined.

Lemma epoch_conservation_witness :
  places ep1 ≡ₚ (map_to_list (unlinked ep1)).*1 ∧ NoDup (places ep1).
Proof.
  apply (epoch_conservation 2 ep1). destruct ep1_reachable as (s0 & H0 & Hr). exists s0. split; [done|].
  eapply (rtc_subrel (bstep 2)); [|done]. by intros ?? [??].
Defined.

Lemma suspend_check_exact_witness :
  EpochGuardSuspendCheck 0 (Some 0) false = FatalEpoch.
Proof.
  apply (suspend_check_exact 2 ep1 0%nat (mkThr 0 [true] None [5] [] 64 None Out true false) ep1_reachable).
  by vm_compute.
Defined.

(** Thread 0 has left its guard. *)
Definition ep2 : epochs :=
  mkEp 0 {[0%nat := new_thr true; 1%nat := mkThr SIZE_MAX [] None [] [mkRet 5 0 7] 64 None Out true false]}
    [] [] ∅ {[5 := 0]}.

Lemma ep2_reachable : reachable einit (bstep 2) ep2.
Proof.
  destruct ep1_reachable as (s0 & H0 & Hr). exists s0. split; [done|]. etrans; [exact Hr|].
  ep_step (e_leave _ _ 0%nat).
  match goal with |- rtc _ ?x ?y => replace x with y; [by apply rtc_refl|by vm_compute] end.
Qed.

Lemma drain_frees_all_witness :
  ∃ s', Drain 4096 2 1 false ep2 = (true, s') ∧ orphans s' = [] ∧ t_bag (thr_at s' 1) = [] ∧
    freed s' = [mkRet 5 0 7].
Proof.
  apply (drain_frees_all 4096 2 1%nat (mkThr SIZE_MAX [] None [] [mkRet 5 0 7] 64 None Out true false) ep2 ep2_reachable);
    try (by vm_compute); [|lia].
  intros [|[|k]] Hk; [by vm_compute..|lia].
Defined.
