(* ===== verification/HazardModel.v ===== *)
(** * Hazard pointers (include/Hazard.h, src/Hazard.cpp)

    A reader publishes the pointer it is about to use in a cell of its thread's row and
    checks that the source still holds it; a scan collects every cell and frees the
    retired objects no cell names.  The step relation interleaves the threads at every
    access of a cell or a source.  Its two switches admit the sweep of the shared orphan
    store and [HazardGuard::Swap]: without them no protected object is freed, with either
    one a run that frees a protected object is exhibited. *)

From S2P Require Import Prelude.

(** ** State *)

(** A retired pointer with its deleter. *)
Definition hitem : Type := Z * Z.

(** Where a thread stands in a [HazardGuard] operation. *)
Inductive hop :=
| HNone
| PTry (k : nat) (src : Z)                 (* Protect: before the load of the source *)
| PLoaded (k : nat) (src p : Z)            (* before the store into cell k *)
| PSet (k : nat) (src p : Z)               (* before the second load of the source *)
| Leaving (k : nat)                        (* ~HazardGuard: before clearing cell k *)
| SwLoaded (a b : nat) (va vb : Z)         (* Swap: before the store into cell a *)
| SwHalf (a b : nat) (va vb : Z).          (* before the store into cell b *)

(** Where a thread stands in [Scan(orphans)]. *)
Inductive hscan :=
| HOut
| HCells (orphans : bool) (j : nat) (named : list Z)
| HFree (orphans : bool) (named : list Z) (todo keep : list hitem)
| HOrph (named : list Z).

(** [p_held] maps a cell index to the object the guard's user holds through it. *)
Record hthr := mkH {
  p_guard : bool; p_held : gmap nat Z; p_op : hop; p_bag : list hitem; p_ret : option Z;
  p_scan : hscan; p_runs : bool }.

Definition new_hthr (runs : bool) : hthr := mkH false ∅ HNone [] None HOut runs.

Definition set_op (o : hop) (t : hthr) : hthr :=
  mkH (p_guard t) (p_held t) o (p_bag t) (p_ret t) (p_scan t) (p_runs t).
Definition set_hold (g : bool) (h : gmap nat Z) (o : hop) (t : hthr) : hthr :=
  mkH g h o (p_bag t) (p_ret t) (p_scan t) (p_runs t).
Definition set_scan (b : list hitem) (sc : hscan) (t : hthr) : hthr :=
  mkH (p_guard t) (p_held t) (p_op t) b (p_ret t) sc (p_runs t).
Definition set_hret (r : option Z) (t : hthr) : hthr :=
  mkH (p_guard t) (p_held t) (p_op t) (p_bag t) r (p_scan t) (p_runs t).

(** The client's pointers, the cell table, the objects unlinked for good, the threads, the
    orphan store, the freed objects. *)
Record hazards := mkHz {
  h_src : gmap Z Z; h_cells : gmap nat Z; h_unl : gset Z; h_thr : gmap nat hthr;
  h_orph : list hitem; h_freed : list hitem }.

Definition src_at (s : hazards) (l : Z) : Z := default 0 (h_src s !! l).
Definition cell_at (s : hazards) (j : nat) : Z := default 0 (h_cells s !! j).

Definition hput (i : nat) (t : hthr) (s : hazards) : hazards :=
  mkHz (h_src s) (h_cells s) (h_unl s) (<[i := t]> (h_thr s)) (h_orph s) (h_freed s).
Definition set_cell (j : nat) (p : Z) (s : hazards) : hazards :=
  mkHz (h_src s) (<[j := p]> (h_cells s)) (h_unl s) (h_thr s) (h_orph s) (h_freed s).

(** ** Operations *)

(** [AdoptOrphans], under the store's lock. *)
Definition AdoptOrphans (v : list hitem) (s : hazards) : hazards :=
  mkHz (h_src s) (h_cells s) (h_unl s) (h_thr s) (h_orph s ++ v) (h_freed s).

Definition hfree (v : list hitem) (s : hazards) : hazards :=
  mkHz (h_src s) (h_cells s) (h_unl s) (h_thr s) (h_orph s) (h_freed s ++ v).

(** The sweep of the orphan store in [Scan], under the store's lock. *)
Definition sweep_orphans (named : list Z) (s : hazards) : hazards :=
  mkHz (h_src s) (h_cells s) (h_unl s) (h_thr s) (filter (λ it, it.1 ∈ named) (h_orph s))
    (h_freed s ++ filter (λ it, it.1 ∉ named) (h_orph s)).

Section steps.
(** [K] cells per reader, [R] readers (rows); the switches. *)
Context (K R : nat) (sweeps swaps : bool).

Definition cell_index (reader k : nat) : nat := (reader * K + k)%nat.

(** The retire-list size that triggers a scan. *)
Definition threshold : nat := if decide (2 * R * K = 0)%nat then 64%nat else (2 * R * K)%nat.

(** [Retire], after its test of the arguments. *)
Definition HazardRetire (i : nat) (t : hthr) (it : hitem) (s : hazards) : hazards :=
  if negb (p_runs t) then AdoptOrphans [it] (hput i t s)
  else
    let b := p_bag t ++ [it] in
    hput i (set_scan b (if (threshold <=? length b)%nat then HCells false 0 [] else HOut) t) s.

Inductive hstep (s : hazards) : hazards → Prop :=
| h_store l y : y ∉ h_unl s →
    hstep s (mkHz (<[l := y]> (h_src s)) (h_cells s) (h_unl s) (h_thr s) (h_orph s) (h_freed s))
| h_unlink i t x : h_thr s !! i = Some t → p_ret t = None → x ≠ 0 → x ∉ h_unl s → (∀ l, src_at s l ≠ x) →
    hstep s (mkHz (h_src s) (h_cells s) ({[x]} ∪ h_unl s) (<[i := set_hret (Some x) t]> (h_thr s)) (h_orph s) (h_freed s))
| h_retire i t x d : h_thr s !! i = Some t → p_ret t = Some x → p_scan t = HOut →
    hstep s (HazardRetire i (set_hret None t) (x, d) s)
| h_guard i t : h_thr s !! i = Some t → (i < R)%nat → p_guard t = false →
    hstep s (hput i (set_hold true ∅ HNone t) s)
| h_protect i t k l : h_thr s !! i = Some t → p_guard t = true → p_op t = HNone → (k < K)%nat →
    hstep s (hput i (set_op (PTry k l) t) s)
| h_load i t k l : h_thr s !! i = Some t → p_op t = PTry k l →
    hstep s (hput i (set_op (PLoaded k l (src_at s l)) t) s)
| h_set i t k l p : h_thr s !! i = Some t → p_op t = PLoaded k l p →
    hstep s (set_cell (cell_index i k) p
      (hput i (set_hold (p_guard t) (delete k (p_held t)) (PSet k l p) t) s))
| h_check i t k l p : h_thr s !! i = Some t → p_op t = PSet k l p →
    hstep s (hput i (if src_at s l =? p
                     then set_hold (p_guard t) (if p =? 0 then p_held t else <[k := p]> (p_held t)) HNone t
                     else set_op (PTry k l) t) s)
| h_clear i t k : h_thr s !! i = Some t → p_guard t = true → p_op t = HNone → (k < K)%nat →
    hstep s (set_cell (cell_index i k) 0 (hput i (set_hold (p_guard t) (delete k (p_held t)) HNone t) s))
| h_leave i t : h_thr s !! i = Some t → p_guard t = true → p_op t = HNone →
    hstep s (hput i (set_hold true ∅ (Leaving 0) t) s)
| h_leave_cell i t k : h_thr s !! i = Some t → p_op t = Leaving k → (k < K)%nat →
    hstep s (set_cell (cell_index i k) 0 (hput i (set_op (Leaving (S k)) t) s))
| h_left i t : h_thr s !! i = Some t → p_op t = Leaving K →
    hstep s (hput i (set_hold false ∅ HNone t) s)
| h_swap i t a b : swaps = true → h_thr s !! i = Some t → p_guard t = true → p_op t = HNone →
    (a < K)%nat → (b < K)%nat →
    hstep s (hput i (set_op (SwLoaded a b (cell_at s (cell_index i a)) (cell_at s (cell_index i b))) t) s)
| h_swap_a i t a b va vb : h_thr s !! i = Some t → p_op t = SwLoaded a b va vb →
    hstep s (set_cell (cell_index i a) vb (hput i (set_op (SwHalf a b va vb) t) s))
| h_swap_b i t a b va vb : h_thr s !! i = Some t → p_op t = SwHalf a b va vb →
    hstep s (set_cell (cell_index i b) va
      (hput i (set_hold (p_guard t)
         (partial_alter (λ _, p_held t !! a) b (partial_alter (λ _, p_held t !! b) a (p_held t))) HNone t) s))
| h_scan i t o : (o = true → sweeps = true) → h_thr s !! i = Some t → p_scan t = HOut →
    hstep s (hput i (set_scan (p_bag t)
      (if bool_decide (p_bag t = []) && (negb o || bool_decide (h_orph s = [])) then HOut else HCells o 0 []) t) s)
| h_cell i t o j named : h_thr s !! i = Some t → p_scan t = HCells o j named → (j < R * K)%nat →
    hstep s (hput i (set_scan (p_bag t)
      (HCells o (S j) (if cell_at s j =? 0 then named else cell_at s j :: named)) t) s)
| h_cells_done i t o named : h_thr s !! i = Some t → p_scan t = HCells o (R * K) named →
    hstep s (hput i (set_scan (p_bag t) (HFree o named (p_bag t) []) t) s)
| h_free i t o named it todo keep : h_thr s !! i = Some t → p_scan t = HFree o named (it :: todo) keep →
    hstep s (if decide (it.1 ∈ named)
             then hput i (set_scan (p_bag t) (HFree o named todo (keep ++ [it])) t) s
             else hfree [it] (hput i (set_scan (p_bag t) (HFree o named todo keep) t) s))
| h_free_done i t o named keep : h_thr s !! i = Some t → p_scan t = HFree o named [] keep →
    hstep s (hput i (set_scan keep
      (if o && negb (bool_decide (h_orph s = [])) then HOrph named else HOut) t) s)
| h_sweep i t named : h_thr s !! i = Some t → p_scan t = HOrph named →
    hstep s (sweep_orphans named (hput i (set_scan (p_bag t) HOut t) s))
| h_handoff i t : h_thr s !! i = Some t → p_scan t = HOut →
    hstep s (AdoptOrphans (p_bag t) (hput i (set_scan [] HOut t) s)).

(** After [Init]: all cells null, nothing retired. *)
Definition hinit (s : hazards) : Prop :=
  ∃ src ts, (∀ i t, ts !! i = Some t → ∃ b, t = new_hthr b) ∧ s = mkHz src ∅ ∅ ts [] [].
End steps.

(** ** Safety without the orphan sweep and [Swap] *)

Definition holds (s : hazards) (r k : nat) (x : Z) : Prop :=
  ∃ t, h_thr s !! r = Some t ∧ p_held t !! k = Some x.

Section safety.
Context (K R : nat).

(** The objects of [l] that are held through a cell satisfying [P] are all in [named]. *)
Definition covered (s : hazards) (P : nat → Prop) (l : list hitem) (named : list Z) : Prop :=
  ∀ r k it, holds s r k it.1 → P (cell_index K r k) → it ∈ l → it.1 ∈ named.

Definition scan_ok (s : hazards) (bag : list hitem) (sc : hscan) : Prop :=
  match sc with
  | HOut => True
  | HCells o j named => o = false ∧ covered s (λ c, (c < j)%nat) bag named
  | HFree o named todo keep =>
      o = false ∧ covered s (λ _, True) todo named ∧ ∀ it, it ∈ todo ++ keep → it ∈ bag
  | HOrph _ => False
  end.

Definition op_ok (s : hazards) (i : nat) (t : hthr) : Prop :=
  match p_op t with
  | HNone => True
  | PTry k _ | PLoaded k _ _ => (k < K)%nat
  | PSet k _ p => (k < K)%nat ∧ cell_at s (cell_index K i k) = p
  | Leaving _ => p_held t = ∅
  | SwLoaded _ _ _ _ | SwHalf _ _ _ _ => False
  end.

Record hok (s : hazards) (i : nat) (t : hthr) : Prop := {
  ho_held k x : p_held t !! k = Some x → (k < K)%nat ∧ cell_at s (cell_index K i k) = x ∧ x ≠ 0;
  ho_op : op_ok s i t;
  ho_row : p_guard t = true → (i < R)%nat;
  ho_free : p_guard t = false → p_held t = ∅ ∧ p_op t = HNone;
  ho_bag it : it ∈ p_bag t → it.1 ∈ h_unl s;
  ho_ret x : p_ret t = Some x → x ∈ h_unl s;
  ho_scan : scan_ok s (p_bag t) (p_scan t) }.

Record hinv (s : hazards) : Prop := {
  hv_src l : src_at s l ∉ h_unl s;
  hv_null : 0 ∉ h_unl s;
  hv_thr i t : h_thr s !! i = Some t → hok s i t;
  hv_orph it : it ∈ h_orph s → it.1 ∈ h_unl s;
  hv_freed it : it ∈ h_freed s → it.1 ∈ h_unl s ∧ ∀ r k, ¬ holds s r k it.1 }.

(** What a step of thread [i] may do to the rest. *)
Record heff (i : nat) (s s' : hazards) : Prop := {
  he_unl x : x ∈ h_unl s → x ∈ h_unl s';
  he_holds r k x : holds s' r k x → holds s r k x ∨ x ∉ h_unl s;
  he_cells r k : r ≠ i → (k < K)%nat → cell_at s' (cell_index K r k) = cell_at s (cell_index K r k);
  he_thr r : r ≠ i → h_thr s' !! r = h_thr s !! r }.

Lemma cell_index_inj r k r' k' :
  (k < K)%nat → (k' < K)%nat → cell_index K r k = cell_index K r' k' → r = r' ∧ k = k'.
Proof.
  unfold cell_index. intros Hk Hk' Heq. assert (r = r') as ->; [|lia].
  destruct (lt_eq_lt_dec r r') as [[H| ->]|H]; [|done|]; nia.
Qed.

Lemma covered_eff i s s' P l named :
  heff i s s' → (∀ it, it ∈ l → it.1 ∈ h_unl s) → covered s P l named → covered s' P l named.
Proof.
  intros He Hl Hc r k it Hh HP Hit. destruct (he_holds _ _ _ He _ _ _ Hh) as [Hh'|Hn].
  - by eapply Hc.
  - by apply Hl in Hit.
Qed.

Lemma scan_eff i s s' bag sc :
  heff i s s' → (∀ it, it ∈ bag → it.1 ∈ h_unl s) → scan_ok s bag sc → scan_ok s' bag sc.
Proof.
  intros He Hb. destruct sc; simpl; [done| | |done].
  - intros [? ?]. split; [done|]. by eapply covered_eff.
  - intros (? & ? & Hin). split_and!; [done| |done]. eapply covered_eff; [done| |done].
    intros it Hit. apply Hb, Hin. set_solver.
Qed.

Lemma hinv_step i s s' :
  hinv s → heff i s s' →
  (∀ l, src_at s' l ∉ h_unl s') → (0 ∉ h_unl s') →
  (∀ t', h_thr s' !! i = Some t' → hok s' i t') →
  (∀ it, it ∈ h_orph s' → it ∈ h_orph s ∨ it.1 ∈ h_unl s') →
  (∀ it, it ∈ h_freed s' → it ∈ h_freed s ∨ (it.1 ∈ h_unl s ∧ ∀ r k, ¬ holds s r k it.1)) →
  hinv s'.
Proof.
  intros Hi He Hsrc H0 Ht Ho Hf. constructor; try done.
  - intros j t' Hj. destruct (decide (j = i)) as [->|Hne]; [by apply Ht|].
    rewrite (he_thr _ _ _ He j Hne) in Hj. destruct (hv_thr _ Hi j t' Hj) as [H1 H2 H3 H4 H5 H6 H7].
    constructor; try done.
    + intros k x Hk. destruct (H1 k x Hk) as (? & ? & ?). by rewrite (he_cells _ _ _ He).
    + unfold op_ok in *. destruct (p_op t'); try done. destruct H2. by rewrite (he_cells _ _ _ He).
    + intros it Hit. by apply (he_unl _ _ _ He), H5.
    + intros x Hx. by apply (he_unl _ _ _ He), H6.
    + by eapply scan_eff.
  - intros it Hit. destruct (Ho it Hit); [|done]. by apply (he_unl _ _ _ He), (hv_orph _ Hi).
  - intros it Hit.
    assert (Hit' : it.1 ∈ h_unl s ∧ ∀ r k, ¬ holds s r k it.1).
    { destruct (Hf it Hit); [by apply (hv_freed _ Hi)|done]. }
    destruct Hit' as [Hu Hn]. split; [by apply (he_unl _ _ _ He)|]. intros r k Hh.
    destruct (he_holds _ _ _ He _ _ _ Hh) as [?|?]; [by eapply Hn|done].
Qed.

(** Steps of thread [i] that leave the sources and the unlinked objects alone: the new
    record [t'] may hold less, or more objects that are not unlinked. *)
Lemma hinv_local i t t' s s' :
  hinv s → h_thr s !! i = Some t → h_thr s' = <[i := t']> (h_thr s) →
  h_src s' = h_src s → h_unl s' = h_unl s →
  (∀ k x, p_held t' !! k = Some x → p_held t !! k = Some x ∨ x ∉ h_unl s) →
  (∀ r k, r ≠ i → (k < K)%nat → cell_at s' (cell_index K r k) = cell_at s (cell_index K r k)) →
  (heff i s s' → hok s' i t') →
  (∀ it, it ∈ h_orph s' → it ∈ h_orph s ∨ it.1 ∈ h_unl s) →
  (∀ it, it ∈ h_freed s' → it ∈ h_freed s ∨ (it.1 ∈ h_unl s ∧ ∀ r k, ¬ holds s r k it.1)) →
  hinv s'.
Proof.
  intros Hi Ht Hts Hsrc Hu Hh Hc Hok Ho Hf.
  assert (He : heff i s s').
  { constructor; [by rewrite Hu| |done|].
    - intros r k x (t0 & Ht0 & Hx). rewrite Hts in Ht0. apply lookup_insert_Some in Ht0 as [[<- <-]|[Hne Ht0]].
      + destruct (Hh k x Hx); [left; by exists t|by right].
      + left. by exists t0.
    - intros r Hr. rewrite Hts. by rewrite lookup_insert_ne. }
  eapply (hinv_step i); try done; rewrite ?Hu; try done.
  - intros l. unfold src_at. rewrite Hsrc. apply Hi.
  - apply Hi.
  - intros t0. rewrite Hts, lookup_insert_eq. intros [= <-]. by apply Hok.
Qed.

(** Steps of the guard: new cells in its own row, new holdings, a new operation state. *)
Lemma hinv_guard i t s cells' g h o :
  let s' := mkHz (h_src s) cells' (h_unl s) (<[i := set_hold g h o t]> (h_thr s)) (h_orph s) (h_freed s) in
  hinv s → h_thr s !! i = Some t →
  (∀ r k, r ≠ i → (k < K)%nat → cell_at s' (cell_index K r k) = cell_at s (cell_index K r k)) →
  (∀ k x, h !! k = Some x → (p_held t !! k = Some x ∨ x ∉ h_unl s) ∧ (k < K)%nat ∧
     cell_at s' (cell_index K i k) = x ∧ x ≠ 0) →
  op_ok s' i (set_hold g h o t) → (g = true → (i < R)%nat) → (g = false → h = ∅ ∧ o = HNone) →
  hinv s'.
Proof.
  intros s' Hi Ht Hc Hh Hop Hg1 Hg2. destruct (hv_thr _ Hi _ _ Ht) as [_ _ _ _ H5 H6 H7].
  apply (hinv_local i t (set_hold g h o t) s s'); try done; [by apply Hh| |by left..].
  intros He. constructor; try done.
  - intros k x Hk. by apply Hh in Hk as (_ & ? & ? & ?).
  - by eapply scan_eff.
Qed.

(** Steps of the scan that free nothing. *)
Lemma hinv_scan i t s b sc :
  hinv s → h_thr s !! i = Some t → (∀ it, it ∈ b → it.1 ∈ h_unl s) → scan_ok s b sc →
  hinv (hput i (set_scan b sc t) s).
Proof.
  intros Hi Ht Hb Hsc. destruct (hv_thr _ Hi _ _ Ht) as [H1 H2 H3 H4 H5 H6 H7].
  apply (hinv_local i t (set_scan b sc t) s); try done; [by left| |by left..].
  intros He. constructor; try done. by eapply scan_eff.
Qed.

Lemma hinv_orphans s v : hinv s → (∀ it, it ∈ v → it.1 ∈ h_unl s) → hinv (AdoptOrphans v s).
Proof.
  intros Hi Hv. destruct Hi as [H1 H2 H3 H4 H5]. constructor; try done.
  - intros i t Ht. by destruct (H3 i t Ht).
  - intros it. simpl. rewrite elem_of_app. naive_solver.
Qed.

(** Reading one more cell. *)
Lemma covered_cell s bag j named :
  hinv s → covered s (λ c, (c < j)%nat) bag named →
  covered s (λ c, (c < S j)%nat) bag (if cell_at s j =? 0 then named else cell_at s j :: named).
Proof.
  intros Hi Hc r k it (t & Ht & Hk) Hj Hit. destruct (ho_held _ _ _ (hv_thr _ Hi _ _ Ht) _ _ Hk) as (_ & Hcell & H0).
  destruct (decide (cell_index K r k = j)) as [<-|Hne].
  - rewrite Hcell. destruct (_ =? 0) eqn:E; [by apply Z.eqb_eq in E|set_solver].
  - assert (it.1 ∈ named) by (eapply Hc; [by exists t|lia|done]). case_match; set_solver.
Qed.

(** All cells read: every holder is in some row of the table. *)
Lemma covered_all s bag named :
  hinv s → covered s (λ c, (c < R * K)%nat) bag named → covered s (λ _, True) bag named.
Proof.
  intros Hi Hc r k it (t & Ht & Hk) _ Hit. pose proof (hv_thr _ Hi _ _ Ht) as Hok.
  destruct (ho_held _ _ _ Hok _ _ Hk) as (HkK & _). assert (r < R)%nat.
  { apply (ho_row _ _ _ Hok). destruct (p_guard t) eqn:E; [done|].
    destruct (ho_free _ _ _ Hok E) as [He _]. by rewrite He in Hk. }
  eapply Hc; [by exists t| |done]. unfold cell_index. nia.
Qed.

Lemma hinv_free i t s o named it todo keep :
  hinv s → h_thr s !! i = Some t → p_scan t = HFree o named (it :: todo) keep →
  hinv (if decide (it.1 ∈ named)
        then hput i (set_scan (p_bag t) (HFree o named todo (keep ++ [it])) t) s
        else hfree [it] (hput i (set_scan (p_bag t) (HFree o named todo keep) t) s)).
Proof.
  intros Hi Ht Hsc. pose proof (hv_thr _ Hi _ _ Ht) as [H1 H2 H3 H4 H5 H6 H7]. rewrite Hsc in H7.
  destruct H7 as (-> & Hcov & Hin).
  assert (Hcov' : covered s (λ _, True) todo named) by (intros r k x Hh HP Hx; eapply Hcov; [done|done|set_solver]).
  case_decide as Hn.
  - apply hinv_scan; [done..|]. split_and!; [done|done|]. intros x Hx. apply Hin. set_solver.
  - apply (hinv_local i t (set_scan (p_bag t) (HFree false named todo keep) t) s); try done; [by left| |by left|].
    + intros He. constructor; try done. eapply scan_eff; [done|done|]. split_and!; [done|done|].
      intros x Hx. apply Hin. set_solver.
    + simpl. intros x. rewrite elem_of_app, list_elem_of_singleton. intros [?| ->]; [by left|]. right. split.
      * apply H5, Hin. set_solver.
      * intros r k Hh. apply Hn. eapply Hcov; [done|done|set_solver].
Qed.

Lemma hinv_retire i t s x d :
  hinv s → h_thr s !! i = Some t → p_ret t = Some x → p_scan t = HOut →
  hinv (HazardRetire K R i (set_hret None t) (x, d) s).
Proof.
  intros Hi Ht Hr Hsc. pose proof (hv_thr _ Hi _ _ Ht) as [H1 H2 H3 H4 H5 H6 H7].
  assert (Hx : x ∈ h_unl s) by by apply H6.
  assert (Hput : ∀ b sc, (∀ it, it ∈ b → it.1 ∈ h_unl s) → scan_ok s b sc →
    hinv (hput i (set_scan b sc (set_hret None t)) s)).
  { intros b sc Hb Hs. apply (hinv_local i t (set_scan b sc (set_hret None t)) s); try done; [by left| |by left..].
    intros He. constructor; try done. by eapply scan_eff. }
  unfold HazardRetire. case_match.
  - apply hinv_orphans; [|by intros it ->%list_elem_of_singleton].
    replace (set_hret None t) with (set_scan (p_bag t) HOut (set_hret None t)); [by apply Hput|].
    unfold set_scan, set_hret. simpl. by rewrite Hsc.
  - apply Hput.
    + intros it. simpl. rewrite elem_of_app, list_elem_of_singleton. intros [?| ->]; [by apply H5|done].
    + case_match; [|done]. split; [done|]. intros r k it _ Hlt. lia.
Qed.

Lemma cell_at_insert src c u ts o f j p j' :
  cell_at (mkHz src (<[j := p]> c) u ts o f) j' =
    if decide (j = j') then p else cell_at (mkHz src c u ts o f) j'.
Proof.
  unfold cell_at. simpl. case_decide; [subst; by rewrite lookup_insert_eq|by rewrite lookup_insert_ne].
Qed.

(** A store into cell [k] of the guard's own row; the object held through it is given up. *)
Lemma hinv_cell i t s k p o :
  hinv s → h_thr s !! i = Some t → (k < K)%nat →
  op_ok (set_cell (cell_index K i k) p s) i (set_hold (p_guard t) (delete k (p_held t)) o t) →
  (p_guard t = false → o = HNone) →
  hinv (set_cell (cell_index K i k) p (hput i (set_hold (p_guard t) (delete k (p_held t)) o t) s)).
Proof.
  intros Hi Ht Hk Hop Hg. pose proof (hv_thr _ Hi _ _ Ht) as [H1 H2 H3 H4 H5 H6 H7].
  apply (hinv_guard i t s); try done.
  - intros r k' Hr Hk'. rewrite cell_at_insert, decide_False; [done|].
    intros Heq. apply cell_index_inj in Heq; naive_solver.
  - intros k' x. rewrite lookup_delete_Some. intros [Hne Hx]. destruct (H1 k' x Hx) as (? & ? & ?).
    split_and!; [by left|done| |done]. rewrite cell_at_insert, decide_False; [done|].
    intros Heq. apply cell_index_inj in Heq; naive_solver.
  - intros Hf. split; [|by apply Hg]. destruct (H4 Hf) as [-> _]. apply delete_empty.
Qed.

(** Steps of the guard that touch no cell and give up no object. *)
Lemma hinv_op i t s o :
  hinv s → h_thr s !! i = Some t → op_ok s i (set_op o t) → p_guard t = true → hinv (hput i (set_op o t) s).
Proof.
  intros Hi Ht Hop Hg. pose proof (hv_thr _ Hi _ _ Ht) as [H1 H2 H3 H4 H5 H6 H7].
  apply (hinv_guard i t s (h_cells s) (p_guard t) (p_held t) o); try done.
  - intros k x Hx. destruct (H1 k x Hx) as (? & ? & ?). split_and!; [by left|done..].
  - congruence.
Qed.

Lemma hinv_check i t s k l p :
  hinv s → h_thr s !! i = Some t → p_op t = PSet k l p →
  hinv (hput i (if src_at s l =? p
                then set_hold (p_guard t) (if p =? 0 then p_held t else <[k := p]> (p_held t)) HNone t
                else set_op (PTry k l) t) s).
Proof.
  intros Hi Ht Ho. pose proof (hv_thr _ Hi _ _ Ht) as [H1 H2 H3 H4 H5 H6 H7].
  unfold op_ok in H2. rewrite Ho in H2. destruct H2 as [Hk Hc].
  assert (Hg : p_guard t = true).
  { destruct (p_guard t); [done|]. destruct H4 as [_ H4]; [done|]. congruence. }
  destruct (src_at s l =? p) eqn:Es; [|by apply hinv_op].
  apply Z.eqb_eq in Es. apply (hinv_guard i t s (h_cells s) _ _ HNone); try done; [|by rewrite Hg].
  intros k' x Hx. destruct (p =? 0) eqn:Ep.
  - destruct (H1 k' x Hx) as (? & ? & ?). split_and!; [by left|done..].
  - apply Z.eqb_neq in Ep. apply lookup_insert_Some in Hx as [[<- <-]|[_ Hx]].
    + split_and!; try done. right. rewrite <- Es. apply Hi.
    + destruct (H1 k' x Hx) as (? & ? & ?). split_and!; [by left|done..].
Qed.

Lemma hinv_drop i t s g o :
  hinv s → h_thr s !! i = Some t → (g = true → (i < R)%nat) → (g = false → o = HNone) →
  op_ok s i (set_hold g ∅ o t) → hinv (hput i (set_hold g ∅ o t) s).
Proof.
  intros Hi Ht Hg1 Hg2 Hop. apply (hinv_guard i t s (h_cells s) g ∅ o); try done; by auto.
Qed.

Lemma hinv_unlink i t s x :
  hinv s → h_thr s !! i = Some t → x ≠ 0 → x ∉ h_unl s → (∀ l, src_at s l ≠ x) →
  hinv (mkHz (h_src s) (h_cells s) ({[x]} ∪ h_unl s) (<[i := set_hret (Some x) t]> (h_thr s)) (h_orph s) (h_freed s)).
Proof.
  intros Hi Ht Hx Hu Hs. set (s' := mkHz _ _ _ _ _ _).
  assert (He : heff i s s').
  { constructor; simpl; [set_solver| |done|].
    - intros r k y (t0 & Ht0 & Hy). simpl in Ht0. left.
      apply lookup_insert_Some in Ht0 as [[<- <-]|[_ Ht0]]; [by exists t|by exists t0].
    - intros r Hr. by rewrite lookup_insert_ne. }
  eapply (hinv_step i s); try done; simpl.
  - intros l. rewrite not_elem_of_union, not_elem_of_singleton. split; [apply Hs|apply Hi].
  - rewrite not_elem_of_union, not_elem_of_singleton. split; [done|apply Hi].
  - intros t'. rewrite lookup_insert_eq. intros [= <-].
    pose proof (hv_thr _ Hi _ _ Ht) as [H1 H2 H3 H4 H5 H6 H7]. constructor; try done.
    + intros it Hit. apply (he_unl _ _ _ He), H5, Hit.
    + simpl. intros y [= <-]. set_solver.
    + by eapply scan_eff.
  - by left.
  - by left.
Qed.

Lemma hstep_inv s s' : hinv s → hstep K R false false s s' → hinv s'.
Proof.
  intros Hi Hs. destruct Hs as [l y Hy|i t x Ht Hr Hx Hu Hsrc|i t x d Ht Hr Hsc|i t Ht HR Hg|i t k l Ht Hg Ho Hk
    |i t k l Ht Ho|i t k l p Ht Ho|i t k l p Ht Ho|i t k Ht Hg Ho Hk|i t Ht Hg Ho|i t k Ht Ho Hk|i t Ht Ho|i t a b Hsw
    |i t a b va vb Ht Ho|i t a b va vb Ht Ho|i t o Hsw Ht Hsc|i t o j named Ht Hsc Hj|i t o named Ht Hsc
    |i t o named it todo keep Ht Hsc|i t o named keep Ht Hsc|i t named Ht Hsc|i t Ht Hsc];
    try pose proof (hv_thr _ Hi _ _ Ht) as [H1 H2 H3 H4 H5 H6 H7];
    try (rewrite Hsc in H7; simpl in H7);
    try (unfold op_ok in H2; rewrite Ho in H2; simpl in H2);
    try (assert (Hgd : p_guard t = true) by (destruct (p_guard t); [done|]; destruct H4 as [_ H4]; [done|]; congruence)).
  - destruct Hi as [G1 G2 G3 G4 G5]. constructor; try done.
    + intros l'. unfold src_at. simpl. destruct (decide (l = l')) as [->|Hne];
        [by rewrite lookup_insert_eq|rewrite lookup_insert_ne by done; apply G1].
    + intros i t Ht. by destruct (G3 i t Ht).
  - by apply hinv_unlink.
  - by apply hinv_retire.
  - by apply hinv_drop.
  - by apply hinv_op.
  - by apply hinv_op.
  - apply hinv_cell; try done; [|congruence]. split; [done|]. unfold set_cell. by rewrite cell_at_insert, decide_True.
  - by apply hinv_check.
  - by apply hinv_cell.
  - apply hinv_drop; [done|done|by auto|done|done].
  - rewrite H2 in *. assert (Hd : set_op (Leaving (S k)) t = set_hold (p_guard t) (delete k (p_held t)) (Leaving (S k)) t).
    { unfold set_op, set_hold. by rewrite H2, delete_empty. }
    rewrite Hd. apply hinv_cell; try done; [|congruence]. unfold op_ok. simpl. by rewrite H2, delete_empty.
  - by apply hinv_drop.
  - done.
  - done.
  - done.
  - apply hinv_scan; [done..|]. case_match; [done|]. destruct o; [by discriminate Hsw|]. split; [done|].
    intros r k it _ Hlt. lia.
  - destruct H7 as [-> Hc]. apply hinv_scan; [done..|]. split; [done|]. by apply covered_cell.
  - destruct H7 as [-> Hc]. apply hinv_scan; [done..|]. split_and!; [done|by apply covered_all|].
    intros it. by rewrite app_nil_r.
  - by apply hinv_free.
  - destruct H7 as (-> & _ & Hin). apply hinv_scan; [done..| |done].
    intros it Hit. by apply H5, Hin.
  - done.
  - apply hinv_orphans; [|done]. apply hinv_scan; [done..|set_solver|done].
Qed.
End safety.

(** C35: hazard pointers protect.  In every interleaving of guards, [Protect], [Clear],
    retires, hand-offs and scans of the threads' own lists, a pointer returned by [Protect]
    is published in its cell and its object has not been freed until the cell is reused,
    cleared or the guard ends.  ([Swap] and the sweep of the orphan store are excluded:
    see the two races below.) *)
Theorem hazard_protects K R s r k x :
  reachable hinit (hstep K R false false) s → holds s r k x →
  (x ∉ (h_freed s).*1) ∧ cell_at s (cell_index K r k) = x ∧ (k < K)%nat ∧ (r < R)%nat.
Proof.
  intros Hr Hh. assert (Hi : hinv K R s).
  { revert s Hr Hh. intros s Hr _. revert s Hr. apply reachable_ind; [|intros s s' Hi Hs; by eapply hstep_inv].
    intros s (src & ts & Hts & ->). constructor; simpl; try set_solver.
    intros i t Ht. destruct (Hts i t Ht) as [b ->]. constructor; simpl; try done; set_solver. }
  split.
  - intros (it & -> & Hit)%list_elem_of_fmap. by apply (hv_freed _ _ _ Hi it Hit) in Hh.
  - destruct Hh as (t & Ht & Hk). pose proof (hv_thr _ _ _ Hi _ _ Ht) as Hok.
    destruct (ho_held _ _ _ _ _ Hok _ _ Hk) as (? & ? & ?). split_and!; [done|done|].
    apply (ho_row _ _ _ _ _ Hok). destruct (p_guard t) eqn:E; [done|].
    destruct (ho_free _ _ _ _ _ Hok E) as [He _]. by rewrite He in Hk.
Qed.

(** ** Two races *)

(** Three threads; source 100 holds object 5. *)
Definition hz0 : hazards :=
  mkHz {[100 := 5]} ∅ ∅ {[0%nat := new_hthr true; 1%nat := new_hthr true; 2%nat := new_hthr true]} [] [].

Lemma hz0_init : hinit hz0.
Proof.
  exists {[100 := 5]}, {[0%nat := new_hthr true; 1%nat := new_hthr true; 2%nat := new_hthr true]}. split; [|done].
  intros i t. rewrite !lookup_insert_Some, lookup_singleton_Some. naive_solver.
Qed.

Lemma src_none (m : gmap Z Z) (x : Z) : map_Forall (λ _ y, y ≠ x) m → x ≠ 0 → ∀ l, default 0 (m !! l) ≠ x.
Proof.
  intros Hm Hx l. destruct (m !! l) as [y|] eqn:E; simpl; [by apply (Hm l)|done].
Qed.

(** One step of a concrete run; the side conditions are decided by evaluation. *)
Ltac hz_side :=
  lazymatch goal with
  | |- ∀ l, src_at _ l ≠ _ => apply src_none; [apply (bool_decide_unpack _); vm_compute; exact I|done]
  | |- _ = true → _ => first [by intros _ | by intros [=]]
  | |- _ ∉ _ => apply (bool_decide_unpack _); vm_compute; exact I
  | |- (_ < _)%nat => vm_compute; lia
  | |- _ ≠ _ => done
  | |- _ => vm_compute; reflexivity
  end.
Tactic Notation "hz_step" uconstr(c) := eapply rtc_l; [eapply c; hz_side|]; eval_state.

Ltac hz_end := match goal with |- rtc _ ?x ?y => replace x with y; [by apply rtc_refl|by vm_compute] end.

(** The end of the first race: object 5, freed, held by reader 0. *)
Definition hz_orphan : hazards :=
  mkHz {[100 := 0]} {[0%nat := 5]} {[5; 6]}
    {[0%nat := mkH true {[0%nat := 5]} HNone [] None HOut true; 1%nat := new_hthr true; 2%nat := new_hthr true]}
    [] [(6, 7); (5, 7)].

Lemma hz_orphan_run : reachable hinit (hstep 1 3 true false) hz_orphan.
Proof.
  exists hz0. split; [apply hz0_init|].
  hz_step (h_unlink _ _ _ _ _ 2%nat _ 6). hz_step (h_retire _ _ _ _ _ 2%nat _ _ 7).
  hz_step (h_scan _ _ _ _ _ 2%nat _ true).
  do 3 (hz_step (h_cell _ _ _ _ _ 2%nat)).
  hz_step (h_guard _ _ _ _ _ 0%nat). hz_step (h_protect _ _ _ _ _ 0%nat _ 0%nat 100).
  hz_step (h_load _ _ _ _ _ 0%nat). hz_step (h_set _ _ _ _ _ 0%nat). hz_step (h_check _ _ _ _ _ 0%nat).
  hz_step (h_store _ _ _ _ _ 100 0). hz_step (h_unlink _ _ _ _ _ 1%nat _ 5).
  hz_step (h_retire _ _ _ _ _ 1%nat _ _ 7). hz_step (h_handoff _ _ _ _ _ 1%nat).
  hz_step (h_cells_done _ _ _ _ _ 2%nat). hz_step (h_free _ _ _ _ _ 2%nat). hz_step (h_free_done _ _ _ _ _ 2%nat).
  hz_step (h_sweep _ _ _ _ _ 2%nat).
  hz_end.
Qed.

(** the sweep of the orphan store is not safe.  [Scan] collects the cells, then takes the
    store's lock and frees every orphan its collection does not name.  Here a scanner has
    read all cells; then a reader protects object 5, its validation succeeding; then
    another thread unlinks 5, retires it and hands it off to the store; the scanner's
    sweep frees 5 while the reader's cell still names it. *)
Theorem hazard_orphan_race :
  ∃ s, reachable hinit (hstep 1 3 true false) s ∧ holds s 0 0 5 ∧ cell_at s (cell_index 1 0 0) = 5 ∧
    5 ∈ (h_freed s).*1.
Proof.
  exists hz_orphan. split; [apply hz_orphan_run|]. split_and!; [|done|set_solver].
  eexists. split; [by vm_compute|done].
Qed.

(** The end of the second race: two cells in a row, the guard half way through [Swap]. *)
Definition hz_swap : hazards :=
  mkHz {[100 := 0]} {[0%nat := 0]} {[5]}
    {[0%nat := mkH true {[0%nat := 5]} (SwHalf 0 1 5 0) [] None HOut true;
      1%nat := mkH false ∅ HNone [(5, 7)] None (HFree false [] [] []) true; 2%nat := new_hthr true]}
    [] [(5, 7)].

Lemma hz_swap_run : reachable hinit (hstep 2 3 false true) hz_swap.
Proof.
  exists hz0. split; [apply hz0_init|].
  hz_step (h_guard _ _ _ _ _ 0%nat). hz_step (h_protect _ _ _ _ _ 0%nat _ 0%nat 100).
  hz_step (h_load _ _ _ _ _ 0%nat). hz_step (h_set _ _ _ _ _ 0%nat). hz_step (h_check _ _ _ _ _ 0%nat).
  hz_step (h_store _ _ _ _ _ 100 0). hz_step (h_unlink _ _ _ _ _ 1%nat _ 5).
  hz_step (h_retire _ _ _ _ _ 1%nat _ _ 7). hz_step (h_scan _ _ _ _ _ 1%nat _ false).
  hz_step (h_swap _ _ _ _ _ 0%nat _ 0%nat 1%nat). hz_step (h_swap_a _ _ _ _ _ 0%nat).
  do 6 (hz_step (h_cell _ _ _ _ _ 1%nat)).
  hz_step (h_cells_done _ _ _ _ _ 1%nat). hz_step (h_free _ _ _ _ _ 1%nat).
  hz_end.
Qed.

(** [Swap] opens a window.  It stores the second pointer into the first cell before the
    first pointer into the second: in between the first pointer is in no cell, and a scan
    that reads the row then frees the object the guard holds. *)
Theorem hazard_swap_race :
  ∃ s, reachable hinit (hstep 2 3 false true) s ∧ holds s 0 0 5 ∧ 5 ∈ (h_freed s).*1.
Proof.
  exists hz_swap. split; [apply hz_swap_run|]. split; [|set_solver].
  eexists. split; [by vm_compute|done].
Qed.

(** ** Witness *)

(** Reader 0 protects object 5, which another thread has unlinked and retired. *)
Definition hz_held : hazards :=
  mkHz {[100 := 0]} {[0%nat := 5]} {[5]}
    {[0%nat := mkH true {[0%nat := 5]} HNone [] None HOut true;
      1%nat := mkH false ∅ HNone [(5, 7)] None HOut true; 2%nat := new_hthr true]} [] [].

Lemma hz_held_run : reachable hinit (hstep 2 3 false false) hz_held.
Proof.
  exists hz0. split; [apply hz0_init|].
  hz_step (h_guard _ _ _ _ _ 0%nat). hz_step (h_protect _ _ _ _ _ 0%nat _ 0%nat 100).
  hz_step (h_load _ _ _ _ _ 0%nat). hz_step (h_set _ _ _ _ _ 0%nat). hz_step (h_check _ _ _ _ _ 0%nat).
  hz_step (h_store _ _ _ _ _ 100 0). hz_step (h_unlink _ _ _ _ _ 1%nat _ 5).
  hz_step (h_retire _ _ _ _ _ 1%nat _ _ 7). hz_end.
Qed.

Lemma hazard_protects_witness :
  (5 ∉ (h_freed hz_held).*1) ∧ cell_at hz_held (cell_index 2 0 0) = 5 ∧ (0 < 2)%nat ∧ (0 < 3)%nat.
Proof.
  apply (hazard_protects 2 3 hz_held 0 0 5 hz_held_run). eexists. split; [by vm_compute|done].
Defined.
