(* ===== verification/TaskDag.v ===== *)
(** * Task graphs: data, construction, the cycle check (include/TaskNode.h,
      include/TaskDAG.h, src/TaskDAG.cpp)

    Nodes and edges live at addresses; a node's outgoing edges are an intrusive list whose
    head word carries the two seal bits.  Construction keeps, for every node, the number of
    edges into it in [dependencies_left]; [HasCycle] is Kahn's algorithm over these counts
    and is proved to decide whether the graph has a cycle. *)

From S2P Require Import Prelude TaskTypes.

(** ** Data *)

Inductive Outcome := Completed | OCancelled.
Inductive LogicType := AND | OR.

#[export] Instance Outcome_eq_dec : EqDecision Outcome.
Proof. solve_decision. Defined.
#[export] Instance LogicType_eq_dec : EqDecision LogicType.
Proof. solve_decision. Defined.

Definition kEdgeSealed : Z := 1.
Definition kEdgeCancelled : Z := 2.
Definition kEdgeTagMask : Z := 3.

Definition EdgePtr (t : Z) : Z := Z.ldiff t kEdgeTagMask.
Definition EdgeSealed (t : Z) : bool := negb (Z.land t kEdgeSealed =? 0).
Definition EdgeCancelled (t : Z) : bool := negb (Z.land t kEdgeCancelled =? 0).
Definition EdgeSeal (p : Z) (cancelled : bool) : Z :=
  Z.lor (Z.lor p kEdgeSealed) (if cancelled then kEdgeCancelled else 0).

Definition NONE : Z := 255.
Definition kNoAffinity : Z := 0xFF.
Definition EXT_ARMED : Z := 1.
Definition EXT_SIGNALLED : Z := 2.

Record TaskNode := mkNode {
  n_task : Z; gateType : LogicType; isGate : bool; isExternal : bool; extBits : Z;
  firstEdge : Z; dependencies_left : Z; n_submitted : bool;
  cpuID : Z; priority : Z; isLocal : bool; isFork : bool; isMainNode : bool }.

Definition new_TaskNode (t : Z) : TaskNode :=
  mkNode t AND false false 0 0 0 false kNoAffinity 0 true false false.

Definition set_firstEdge (w : Z) (n : TaskNode) : TaskNode :=
  mkNode (n_task n) (gateType n) (isGate n) (isExternal n) (extBits n) w (dependencies_left n)
    (n_submitted n) (cpuID n) (priority n) (isLocal n) (isFork n) (isMainNode n).
Definition set_left (k : Z) (n : TaskNode) : TaskNode :=
  mkNode (n_task n) (gateType n) (isGate n) (isExternal n) (extBits n) (firstEdge n) k
    (n_submitted n) (cpuID n) (priority n) (isLocal n) (isFork n) (isMainNode n).
Definition set_submitted (b : bool) (n : TaskNode) : TaskNode :=
  mkNode (n_task n) (gateType n) (isGate n) (isExternal n) (extBits n) (firstEdge n) (dependencies_left n)
    b (cpuID n) (priority n) (isLocal n) (isFork n) (isMainNode n).
Definition set_extBits (b : Z) (n : TaskNode) : TaskNode :=
  mkNode (n_task n) (gateType n) (isGate n) (isExternal n) b (firstEdge n) (dependencies_left n)
    (n_submitted n) (cpuID n) (priority n) (isLocal n) (isFork n) (isMainNode n).
Definition set_task (t : Z) (n : TaskNode) : TaskNode :=
  mkNode t (gateType n) (isGate n) (isExternal n) (extBits n) (firstEdge n) (dependencies_left n)
    (n_submitted n) (cpuID n) (priority n) (isLocal n) (isFork n) (isMainNode n).

(** Where [Fire] sends a node's task. *)
Inductive Route := PushMain | PushTo (cpu : Z) | PushTarget.

Definition route (n : TaskNode) : Route :=
  if isMainNode n then PushMain
  else if (isFork n || isLocal n) && negb (cpuID n =? kNoAffinity) then PushTo (cpuID n)
  else PushTarget.

(** The graph under construction: [d_nodes] is the vector [nodes]; edges have a dependent
    and a next pointer. *)
Record Dag := mkDag {
  d_nodes : list Z; d_node : gmap Z TaskNode; d_dep : gmap Z Z; d_next : gmap Z Z; d_submitted : bool }.

Definition new_Dag : Dag := mkDag [] ∅ ∅ ∅ false.

Definition node_at (g : Dag) (v : Z) : TaskNode := default (new_TaskNode 0) (d_node g !! v).

(** ** Construction

    [mem] is the address the allocator returned, 0 when it is out of memory.  [Err] is the
    abort of [RejectIfSubmitted]. *)

Inductive DagFatal := NodeAfterSubmit | EdgeOutOfMemory.

Definition add_node (mem : Z) (n : TaskNode) (g : Dag) : res DagFatal (Z * Dag) :=
  if d_submitted g then Err NodeAfterSubmit
  else if mem =? 0 then Ok (0, g)
  else Ok (mem, mkDag (d_nodes g ++ [mem]) (<[mem := n]> (d_node g)) (d_dep g) (d_next g) (d_submitted g)).

Definition node_for (t prio cpu : Z) : TaskNode :=
  mkNode t AND false false 0 0 0 false cpu (if prio =? NONE then 0 else prio) (prio =? NONE) false false.

(** A task without a token of its own ([tok] is its token) takes the graph's. *)
Definition adopt_token (t tok scope : Z) : Z :=
  if negb (t =? 0) && (tok =? 0xFFFFFFFF) then scope else tok.

(** The address, the task's token afterwards, the graph. *)
Definition CreateNode (mem t tok scope prio cpu : Z) (g : Dag) : res DagFatal (Z * Z * Dag) :=
  r ← add_node mem (node_for t prio cpu) g; mret (r.1, adopt_token t tok scope, r.2).

Definition set_main (n : TaskNode) : TaskNode :=
  mkNode (n_task n) (gateType n) (isGate n) (isExternal n) (extBits n) (firstEdge n) (dependencies_left n)
    (n_submitted n) (cpuID n) (priority n) (isLocal n) (isFork n) true.

Definition CreateMainNode (mem t tok scope prio : Z) (g : Dag) : res DagFatal (Z * Z * Dag) :=
  r ← add_node mem (set_main (node_for t prio NONE)) g; mret (r.1, adopt_token t tok scope, r.2).

Definition CreateGate (mem : Z) (ty : LogicType) (g : Dag) : res DagFatal (Z * Dag) :=
  add_node mem (mkNode 0 ty true false 0 0 0 false kNoAffinity 0 true false false) g.

Definition CreateExternalNode (mem : Z) (g : Dag) : res DagFatal (Z * Dag) :=
  add_node mem (mkNode 0 AND false true 0 0 0 false kNoAffinity 0 true false false) g.

Definition upd_node (v : Z) (f : TaskNode → TaskNode) (g : Dag) : Dag :=
  mkDag (d_nodes g) (<[v := f (node_at g v)]> (d_node g)) (d_dep g) (d_next g) (d_submitted g).

(** [AddDependency] run without interference; [e] is the edge [AllocEdge] returned, 0 when
    out of memory.  The second component is the node to fire, with its outcome, when the
    dependency has finished already. *)
Definition AddDependency (e dependent dependency : Z) (g : Dag) : res DagFatal (Dag * option (Z * Outcome)) :=
  if (dependent =? 0) || (dependency =? 0) then Ok (g, None)
  else if e =? 0 then Err EdgeOutOfMemory
  else
    let g1 := upd_node dependent (λ n, set_left (dependencies_left n + 1) n)
                (mkDag (d_nodes g) (d_node g) (<[e := dependent]> (d_dep g)) (<[e := 0]> (d_next g)) (d_submitted g)) in
    let head := firstEdge (node_at g1 dependency) in
    if EdgeSealed head then
      if EdgeCancelled head then Ok (g1, Some (dependent, OCancelled))
      else
        match gateType (node_at g1 dependent) with
        | OR => Ok (g1, Some (dependent, Completed))
        | AND =>
            let left := dependencies_left (node_at g1 dependent) - 1 in
            let g2 := upd_node dependent (set_left left) g1 in
            Ok (g2, if left =? 0 then Some (dependent, Completed) else None)
        end
    else
      Ok (upd_node dependency (set_firstEdge e)
            (mkDag (d_nodes g1) (d_node g1) (d_dep g1) (<[e := EdgePtr head]> (d_next g1)) (d_submitted g1)), None).

(** ** The cycle check *)

(** The dependents on the edge list from [e]; there are at most as many as edges. *)
Fixpoint edge_list (fuel : nat) (g : Dag) (e : Z) : list Z :=
  match fuel with
  | O => []
  | S k => if e =? 0 then [] else default 0 (d_dep g !! e) :: edge_list k g (next_of (d_next g) e)
  end.

Definition dependents (g : Dag) (v : Z) : list Z :=
  edge_list (size (d_dep g)) g (EdgePtr (firstEdge (node_at g v))).

(** [buildIndex]: the position in [nodes]. *)
Fixpoint buildIndex (l : list Z) (v : Z) : nat :=
  match l with [] => 0 | x :: l' => if x =? v then 0 else S (buildIndex l' v) end.

(** The inner loop: the edges of the node just taken.  [ready] has its back at the head. *)
Fixpoint relax (bi : Z → nat) (deps : list Z) (indeg : list Z) (ready : list Z) : list Z * list Z :=
  match deps with
  | [] => (indeg, ready)
  | d :: deps' =>
      let c := indeg !!! bi d - 1 in
      relax bi deps' (<[bi d := c]> indeg) (if c =? 0 then d :: ready else ready)
  end.

(** The outer loop counts the nodes taken.  Every node is taken at most once, so as many
    rounds as nodes, and one to see [ready] empty, are enough. *)
Fixpoint kahn (fuel : nat) (bi : Z → nat) (adj : Z → list Z) (indeg ready : list Z) : nat :=
  match fuel with
  | O => 0
  | S k =>
      match ready with
      | [] => 0
      | nd :: ready' =>
          let '(indeg', ready'') := relax bi (adj nd) indeg ready' in
          S (kahn k bi adj indeg' ready'')
      end
  end.

Definition HasCycle (g : Dag) : bool :=
  let n := length (d_nodes g) in
  let indeg := (λ v, dependencies_left (node_at g v)) <$> d_nodes g in
  let ready := reverse (filter (λ v, dependencies_left (node_at g v) = 0) (d_nodes g)) in
  negb (kahn (S n) (buildIndex (d_nodes g)) (dependents g) indeg ready =? n)%nat.

(** [Submit]: whether the graph is accepted, the roots to fire in order, the nodes disposed
    of unexecuted, and the graph afterwards. *)
Definition Submit (g : Dag) : bool * list Z * list Z * Dag :=
  let g' := mkDag [] (d_node g) (d_dep g) (d_next g) true in
  if HasCycle g then (false, [], d_nodes g, g')
  else (true, filter (λ v, dependencies_left (node_at g v) = 0) (d_nodes g), [], g').

(** ** Kahn's algorithm *)

Definition occ (v : Z) (l : list Z) : Z := Z.of_nat (length (filter (λ x, x = v) l)).

Lemma occ_app v l1 l2 : occ v (l1 ++ l2) = occ v l1 + occ v l2.
Proof. unfold occ. rewrite filter_app, length_app. lia. Qed.

Lemma occ_cons v x l : occ v (x :: l) = (if decide (x = v) then 1 else 0) + occ v l.
Proof. unfold occ. rewrite filter_cons. case_decide; simpl; lia. Qed.

Lemma occ_nonneg v l : 0 ≤ occ v l.
Proof. unfold occ. lia. Qed.

Lemma occ_pos v l : 0 < occ v l ↔ v ∈ l.
Proof.
  induction l as [|x l IH]; [split; [done|by intros ?%not_elem_of_nil]|].
  rewrite occ_cons, elem_of_cons, <- IH. pose proof (occ_nonneg v l). case_decide as E.
  - split; [by left|lia].
  - split; [right; lia|intros [->|?]; [done|lia]].
Qed.

Lemma occ_perm v l l' : l ≡ₚ l' → occ v l = occ v l'.
Proof. intros Hp. unfold occ. by rewrite Hp. Qed.

#[export] Instance occ_proper v : Proper ((≡ₚ) ==> (=)) (occ v).
Proof. intros l l'. apply occ_perm. Qed.

Lemma not_NoDup (l : list Z) : ¬ NoDup l → ∃ x l1 l2 l3, l = l1 ++ x :: l2 ++ x :: l3.
Proof.
  induction l as [|y l IH]; intros Hn; [by destruct Hn; constructor|].
  destruct (decide (y ∈ l)) as [(l2 & l3 & ->)%list_elem_of_split|Hy]; [by exists y, [], l2, l3|].
  destruct IH as (x & l1 & l2 & l3 & ->); [|by exists x, (y :: l1), l2, l3].
  intros Hl. apply Hn. by constructor.
Qed.

Section graph.
Context (V : list Z) (adj : Z → list Z).

Definition gedge (u v : Z) : Prop := u ∈ V ∧ v ∈ adj u.
Definition cyclic : Prop := ∃ v, tc gedge v v.

(** Following predecessors inside a finite set closes a cycle. *)
Fixpoint path (l : list Z) : Prop :=
  match l with u :: (v :: _) as l' => gedge u v ∧ path l' | _ => True end.

Lemma path_tc u l1 v l2 : path (u :: l1 ++ v :: l2) → tc gedge u v.
Proof.
  revert u. induction l1 as [|w l1 IH]; intros u [He Hp]; [by apply tc_once|].
  eapply tc_l; [done|]. by apply IH.
Qed.

Lemma path_app l1 l2 : path (l1 ++ l2) → path l2.
Proof.
  induction l1 as [|u l1 IH]; [done|]. intros Hp. apply IH. simpl in Hp.
  destruct (l1 ++ l2); [done|]. by destruct Hp.
Qed.

Lemma predecessors_cycle (S : list Z) :
  S ≠ [] → (∀ v, v ∈ S → ∃ u, u ∈ S ∧ gedge u v) → cyclic.
Proof.
  intros HS Hpred.
  assert (Hlong : ∀ k, ∃ l, length l = k ∧ path l ∧ ∀ x, x ∈ l → x ∈ S).
  { induction k as [|k (l & Hl & Hp & Hin)]; [by exists []; split_and!; [| |set_solver]|].
    destruct l as [|x l].
    - destruct S as [|s S']; [done|]. exists [s]. simpl in *. split_and!; [lia|done|set_solver].
    - destruct (Hpred x) as (u & Hu & He); [apply Hin; set_solver|]. exists (u :: x :: l).
      simpl in *. split_and!; [lia|done|done|set_solver]. }
  destruct (Hlong (Datatypes.S (length S))) as (l & Hl & Hp & Hin).
  destruct (decide (NoDup l)) as [Hnd|Hnd].
  - apply (NoDup_submseteq l S) in Hnd; [|done]. apply submseteq_length in Hnd. lia.
  - apply not_NoDup in Hnd as (x & l1 & l2 & l3 & ->). exists x.
    apply path_app in Hp. by eapply path_tc.
Qed.
End graph.

Section kahn.
Context (V : list Z) (adj : Z → list Z) (bi : Z → nat).
Hypothesis V_nodup : NoDup V.
Hypothesis adj_in : ∀ u v, u ∈ V → v ∈ adj u → v ∈ V.
Hypothesis bi_lt : ∀ v, v ∈ V → (bi v < length V)%nat.
Hypothesis bi_inj : ∀ u v, u ∈ V → v ∈ V → bi u = bi v → u = v.

(** The edges from nodes not yet taken. *)
Definition open_edges (P : list Z) : list Z := mjoin (adj <$> filter (λ u, u ∉ P) V).

(** Nodes taken, latest first, all of whose predecessors were taken before. *)
Fixpoint topo (P : list Z) : Prop :=
  match P with [] => True | v :: P' => (∀ u, gedge V adj u v → u ∈ P') ∧ topo P' end.

(** [todo]: the edges of the node just taken still to be relaxed. *)
Record kinv (P todo indeg ready : list Z) : Prop := {
  ki_len : length indeg = length V;
  ki_nodup : NoDup (P ++ ready);
  ki_sub v : v ∈ P ++ ready → v ∈ V;
  ki_todo v : v ∈ todo → v ∈ V;
  ki_deg v : v ∈ V → indeg !!! bi v = occ v (open_edges P ++ todo);
  ki_zero v : v ∈ V → (v ∈ P ++ ready ↔ indeg !!! bi v = 0);
  ki_topo : topo P }.

Lemma open_edges_cons P v :
  v ∈ V → v ∉ P → open_edges P ≡ₚ adj v ++ open_edges (v :: P).
Proof.
  intros Hv HP. unfold open_edges.
  assert (Hf : filter (λ u, u ∉ P) V ≡ₚ v :: filter (λ u, u ∉ v :: P) V).
  { apply NoDup_Permutation.
    - by apply NoDup_filter.
    - apply NoDup_cons. split; [|by apply NoDup_filter]. rewrite list_elem_of_filter. set_solver.
    - intros x. rewrite elem_of_cons, !list_elem_of_filter, elem_of_cons. destruct (decide (x = v)); naive_solver. }
  rewrite Hf. done.
Qed.

Lemma relax_inv P todo indeg ready :
  kinv P todo indeg ready →
  let r := relax bi todo indeg ready in kinv P [] r.1 r.2.
Proof.
  revert indeg ready. induction todo as [|d todo IH]; intros indeg ready Hk; [exact Hk|].
  cbn [relax]. apply IH. destruct Hk as [Hlen Hnd Hsub Htd Hdeg Hz Ht].
  assert (Hd : d ∈ V) by (apply Htd; set_solver). pose proof (bi_lt d Hd) as Hbd.
  assert (Hup : ∀ v, v ∈ V → <[bi d := indeg !!! bi d - 1]> indeg !!! bi v =
    indeg !!! bi v - if decide (d = v) then 1 else 0).
  { intros v Hv. case_decide as E.
    - subst. rewrite list_lookup_total_insert_eq by lia. done.
    - rewrite list_lookup_total_insert_ne; [lia|]. intros Heq. apply E. by apply bi_inj. }
  assert (Hpos : 0 < indeg !!! bi d).
  { rewrite Hdeg by done. apply occ_pos. set_solver. }
  assert (Hdn : d ∉ P ++ ready) by (rewrite Hz by done; lia).
  constructor; try done.
  - by rewrite length_insert.
  - case_match; [|done]. rewrite <- Permutation_middle. by apply NoDup_cons.
  - intros v. case_match; [|by apply Hsub]. rewrite <- Permutation_middle, elem_of_cons. naive_solver.
  - intros v Hv. apply Htd. set_solver.
  - intros v Hv. rewrite Hup, Hdeg, !occ_app, occ_cons by done. lia.
  - intros v Hv. rewrite Hup by done. destruct (indeg !!! bi d - 1 =? 0) eqn:E.
    + apply Z.eqb_eq in E. rewrite <- Permutation_middle, elem_of_cons, Hz by done.
      case_decide as E2; [subst; split; [lia|by left]|]. split; [intros [?|?]; [congruence|lia]|right; lia].
    + apply Z.eqb_neq in E. rewrite Hz by done. case_decide as E2; [subst; lia|].
      by rewrite Z.sub_0_r.
Qed.

(** Taking a node. *)
Lemma take_inv P indeg nd ready :
  kinv P [] indeg (nd :: ready) → kinv (nd :: P) (adj nd) indeg ready.
Proof.
  intros [Hlen Hnd Hsub Htd Hdeg Hz Ht].
  assert (Hnv : nd ∈ V) by (apply Hsub; set_solver).
  assert (HnP : nd ∉ P).
  { rewrite <- Permutation_middle in Hnd. apply NoDup_cons in Hnd as [Hnd _]. set_solver. }
  constructor; try done.
  - simpl. by rewrite Permutation_middle.
  - intros v Hv. apply Hsub. set_solver.
  - intros v Hv. by apply (adj_in nd).
  - intros v Hv. rewrite Hdeg, app_nil_r by done. apply occ_perm. rewrite (open_edges_cons P nd) by done.
    solve_Permutation.
  - intros v Hv. rewrite <- Hz by done. set_solver.
  - split; [|done]. intros u [Hu Huv]. destruct (decide (u ∈ P)) as [|Hn]; [done|].
    assert (indeg !!! bi nd = 0) as H0 by (apply Hz; [done|set_solver]).
    rewrite Hdeg, app_nil_r in H0 by done.
    assert (0 < occ nd (open_edges P)); [|lia]. apply occ_pos. unfold open_edges.
    apply list_elem_of_join. exists (adj u). split; [done|]. apply list_elem_of_fmap_2. by apply list_elem_of_filter.
Qed.

Lemma kahn_run fuel P indeg ready :
  kinv P [] indeg ready → (length V < length P + fuel)%nat →
  ∃ P' indeg', kinv P' [] indeg' [] ∧ length P' = (length P + kahn fuel bi adj indeg ready)%nat.
Proof.
  revert P indeg ready. induction fuel as [|k IH]; intros P indeg ready Hk Hf.
  - assert (length P ≤ length V)%nat; [|lia]. apply submseteq_length, NoDup_submseteq.
    + pose proof (ki_nodup _ _ _ _ Hk) as Hn. by apply NoDup_app in Hn as [? _].
    + intros v Hv. apply (ki_sub _ _ _ _ Hk). set_solver.
  - destruct ready as [|nd ready]; [exists P, indeg; split; [done|simpl; lia]|]. cbn [kahn].
    pose proof (relax_inv _ _ _ _ (take_inv _ _ _ _ Hk)) as Hr. simpl in Hr.
    destruct (relax bi (adj nd) indeg ready) as [indeg' ready'']. simpl in Hr.
    destruct (IH _ _ _ Hr) as (P' & i' & H1 & H2); [simpl; lia|]. exists P', i'. split; [done|]. simpl in H2. lia.
Qed.

(** A node is taken only after everything it depends on, however remotely. *)
Lemma topo_tc P u v : topo P → tc (gedge V adj) u v → ∀ P1 P2, P = P1 ++ v :: P2 → u ∈ P2.
Proof.
  intros Ht Hc. assert (Hone : ∀ u v P1 P2, topo (P1 ++ v :: P2) → gedge V adj u v → u ∈ P2).
  { intros a b P1 P2. induction P1 as [|x P1 IH]; intros [H1 H2] He; [by apply H1|by apply IH]. }
  induction Hc as [u v He|u w v He Hc IH]; intros P1 P2 ->; [by eapply Hone|].
  specialize (IH P1 P2 eq_refl). apply list_elem_of_split in IH as (Q1 & Q2 & ->).
  rewrite elem_of_app, elem_of_cons. right. right.
  eapply (Hone u w (P1 ++ v :: Q1)); [|done]. by rewrite <- app_assoc.
Qed.

Lemma open_edges_nil : open_edges [] = mjoin (adj <$> V).
Proof. unfold open_edges. rewrite filter_keep; [done|]. intros u _. apply not_elem_of_nil. Qed.

(** The count is the number of nodes exactly when there is no cycle. *)
Lemma kahn_correct deg :
  (∀ v, v ∈ V → deg v = occ v (mjoin (adj <$> V))) → (∀ v k, V !! k = Some v → bi v = k) →
  let n := kahn (S (length V)) bi adj (deg <$> V) (reverse (filter (λ v, deg v = 0) V)) in
  (n = length V ∧ ¬ cyclic V adj) ∨ (n ≠ length V ∧ cyclic V adj).
Proof.
  intros Hdeg Hbi n. unfold n. clear n.
  assert (Hlk : ∀ v, v ∈ V → (deg <$> V) !!! bi v = deg v).
  { intros v [k Hk]%list_elem_of_lookup. rewrite (Hbi _ _ Hk). apply list_lookup_total_correct.
    by rewrite list_lookup_fmap, Hk. }
  destruct (kahn_run (S (length V)) [] (deg <$> V) (reverse (filter (λ v, deg v = 0) V))) as (P & indeg & Hk & Hlen).
  { constructor; simpl; try done.
    - by rewrite length_fmap.
    - rewrite reverse_Permutation. by apply NoDup_filter.
    - intros v. rewrite elem_of_reverse, list_elem_of_filter. by intros [_ ?].
    - intros v Hv. by apply not_elem_of_nil in Hv.
    - intros v Hv. by rewrite Hlk, Hdeg, open_edges_nil, app_nil_r.
    - intros v Hv. rewrite Hlk, elem_of_reverse, list_elem_of_filter by done. naive_solver. }
  { simpl. lia. }
  destruct Hk as [_ Hnd Hsub _ Hdg Hz Ht]. rewrite app_nil_r in *.
  rewrite Nat.add_0_l in Hlen. rewrite <- Hlen.
  destruct (decide (filter (λ v, v ∉ P) V = [])) as [He|He].
  - left.
    assert (Hp : P ≡ₚ V).
    { apply NoDup_Permutation; [done|done|]. intros v. split; [apply Hsub|].
      intros Hv. destruct (decide (v ∈ P)) as [|Hn]; [done|].
      assert (Hf : v ∈ filter (λ v, v ∉ P) V) by by apply list_elem_of_filter. rewrite He in Hf.
      by apply not_elem_of_nil in Hf. }
    split; [by rewrite Hp|]. intros [v Hc].
    assert (HvP : v ∈ P) by (rewrite Hp; inversion Hc as [? ? Hg|? ? ? Hg _]; by destruct Hg).
    apply list_elem_of_split in HvP as (P1 & P2 & ->).
    pose proof (topo_tc _ _ _ Ht Hc P1 P2 eq_refl) as Hin.
    apply NoDup_app in Hnd as (_ & _ & [Hn _]%NoDup_cons). done.
  - right. split.
    + intros Hl. apply He, elem_of_nil_inv. intros v [HvP Hv]%list_elem_of_filter. apply HvP.
      assert (Hp : P ≡ₚ V); [|by rewrite Hp].
      apply submseteq_length_Permutation; [by apply NoDup_submseteq|lia].
    + eapply predecessors_cycle; [exact He|].
      intros v [HvP Hv]%list_elem_of_filter. assert (H0 : indeg !!! bi v ≠ 0) by by rewrite <- Hz.
      rewrite Hdg in H0 by done. pose proof (occ_nonneg v (open_edges P)).
      assert (Hin : v ∈ open_edges P) by (apply occ_pos; lia).
      apply list_elem_of_join in Hin as (l & Hvl & (u & -> & Hu)%list_elem_of_fmap).
      exists u. split; [done|]. apply list_elem_of_filter in Hu as [_ Hu]. done.
Qed.
End kahn.

(** ** The seal bits *)

Lemma EdgePtr_aligned p : p `mod` 4 = 0 → EdgePtr p = p.
Proof.
  intros Hp. unfold EdgePtr, kEdgeTagMask. rewrite <- (Z.lor_0_r p) at 1.
  apply (tag_high p 0 2); [lia..|done].
Qed.

Lemma low_bits p v : (0 ≤ v < 4) → p `mod` 4 = 0 → ∀ m, (m = 1 ∨ m = 2) → Z.land (Z.lor p v) m = Z.land v m.
Proof.
  intros Hv Hp m Hm. assert (Hm3 : Z.land 3 m = m) by (destruct Hm; by subst).
  rewrite <- Hm3 at 1. rewrite Z.land_assoc. f_equal. by apply (tag_low p v 2).
Qed.

Lemma EdgeSealed_aligned p : p `mod` 4 = 0 → EdgeSealed p = false.
Proof.
  intros Hp. unfold EdgeSealed, kEdgeSealed. rewrite <- (Z.lor_0_r p).
  rewrite (low_bits p 0) by (done || lia || by left). done.
Qed.

Lemma EdgeSeal_read p c :
  p `mod` 4 = 0 →
  EdgePtr (EdgeSeal p c) = p ∧ EdgeSealed (EdgeSeal p c) = true ∧ EdgeCancelled (EdgeSeal p c) = c.
Proof.
  intros Hp. unfold EdgeSeal, EdgePtr, EdgeSealed, EdgeCancelled, kEdgeSealed, kEdgeCancelled, kEdgeTagMask.
  rewrite <- Z.lor_assoc. destruct c.
  - change (Z.lor 1 2) with 3. split_and!; [by apply (tag_high p 3 2)|..];
      rewrite (low_bits p 3); done || lia || (by left) || by right.
  - change (Z.lor 1 0) with 1. split_and!; [by apply (tag_high p 1 2)|..];
      rewrite (low_bits p 1); done || lia || (by left) || by right.
Qed.

(** ** Graphs as built

    [L v] lists the edges of [v]. *)

Definition dep_of (g : Dag) (e : Z) : Z := default 0 (d_dep g !! e).
Definition all_edges (g : Dag) (L : Z → list Z) : list Z := mjoin (L <$> d_nodes g).

Record dag_wf (g : Dag) (L : Z → list Z) : Prop := {
  dw_nodup : NoDup (d_nodes g);
  dw_null : 0 ∉ d_nodes g;
  dw_chain v : v ∈ d_nodes g → chain (d_next g) (firstEdge (node_at g v)) (L v);
  dw_align v : v ∈ d_nodes g → firstEdge (node_at g v) `mod` 4 = 0;
  dw_edges : NoDup (all_edges g L);
  dw_dep e : e ∈ all_edges g L → is_Some (d_dep g !! e) ∧ dep_of g e ∈ d_nodes g;
  dw_left v : v ∈ d_nodes g → dependencies_left (node_at g v) = occ v (dep_of g <$> all_edges g L);
  dw_open : d_submitted g = false;
  dw_all e : is_Some (d_dep g !! e) → e ∈ all_edges g L ∧ e `mod` 4 = 0;
  dw_new v n : d_node g !! v = Some n → v ∈ d_nodes g ∧ n_submitted n = false ∧ extBits n = 0;
  dw_node v : v ∈ d_nodes g → is_Some (d_node g !! v) }.

Lemma edge_list_chain g fuel h l :
  chain (d_next g) h l → (length l ≤ fuel)%nat → edge_list fuel g h = dep_of g <$> l.
Proof.
  unfold chain. revert fuel h. induction l as [|e l IH]; intros fuel h Hc Hf; simpl in *.
  - subst. by destruct fuel.
  - destruct Hc as (-> & He & Hc). destruct fuel as [|k]; [lia|]. cbn [edge_list].
    apply Z.eqb_neq in He as ->. unfold dep_of at 1. f_equal. apply IH; [done|lia].
Qed.

Lemma in_all_edges g L v e : v ∈ d_nodes g → e ∈ L v → e ∈ all_edges g L.
Proof. intros Hv He. apply list_elem_of_join. exists (L v). split; [done|by apply list_elem_of_fmap_2]. Qed.

Lemma dependents_spec g L v : dag_wf g L → v ∈ d_nodes g → dependents g v = dep_of g <$> L v.
Proof.
  intros Hw Hv. unfold dependents. rewrite EdgePtr_aligned by by apply (dw_align _ _ Hw).
  apply edge_list_chain; [by apply Hw|].
  assert (Hs : list_to_set (L v) ⊆ dom (d_dep g)).
  { intros e He. apply elem_of_list_to_set in He. apply elem_of_dom.
    by apply (dw_dep _ _ Hw), (in_all_edges _ _ v). }
  apply subseteq_size in Hs. rewrite size_list_to_set, size_dom in Hs; [done|].
  eapply chain_NoDup. by apply Hw.
Qed.

Lemma buildIndex_lookup l v k : NoDup l → l !! k = Some v → buildIndex l v = k.
Proof.
  revert k. induction l as [|x l IH]; intros k Hn Hk; [done|]. apply NoDup_cons in Hn as [Hx Hn].
  destruct k as [|k]; simpl in *; [injection Hk as ->; by rewrite Z.eqb_refl|].
  destruct (x =? v) eqn:E; [|by rewrite (IH k)]. apply Z.eqb_eq in E. subst.
  by apply list_elem_of_lookup_2 in Hk.
Qed.

Lemma join_fmap (f : Z → Z) (L : Z → list Z) l : mjoin ((λ v, f <$> L v) <$> l) = f <$> mjoin (L <$> l).
Proof. induction l as [|x l IH]; [done|]. rewrite !fmap_cons. simpl mjoin. rewrite fmap_app. by f_equal. Qed.

Lemma HasCycle_wf g L : dag_wf g L → HasCycle g = true ↔ cyclic (d_nodes g) (dependents g).
Proof.
  intros Hw. unfold HasCycle.
  assert (Hadj : dependents g <$> d_nodes g = (λ v, dep_of g <$> L v) <$> d_nodes g).
  { apply list_fmap_ext. intros i v Hv. eapply dependents_spec; [done|]. by eapply list_elem_of_lookup_2. }
  pose proof (kahn_correct (d_nodes g) (dependents g) (buildIndex (d_nodes g)) (dw_nodup _ _ Hw)) as Hk.
  specialize (Hk ltac:(intros u v Hu Hv; rewrite (dependents_spec g L u Hw Hu) in Hv;
    apply list_elem_of_fmap in Hv as (e & -> & He); eapply Hw, in_all_edges; done)).
  specialize (Hk ltac:(intros v [k Hv]%list_elem_of_lookup; rewrite (buildIndex_lookup _ _ _ (dw_nodup _ _ Hw) Hv);
    by eapply lookup_lt_Some)).
  specialize (Hk ltac:(intros u v [k Hu]%list_elem_of_lookup [j Hv]%list_elem_of_lookup;
    rewrite (buildIndex_lookup _ _ _ (dw_nodup _ _ Hw) Hu), (buildIndex_lookup _ _ _ (dw_nodup _ _ Hw) Hv);
    intros ->; congruence)).
  specialize (Hk (λ v, dependencies_left (node_at g v))
    ltac:(intros v Hv; rewrite Hadj, join_fmap; by apply Hw)
    ltac:(intros v k Hv; by apply (buildIndex_lookup _ _ _ (dw_nodup _ _ Hw)))).
  rewrite negb_true_iff, Nat.eqb_neq. naive_solver.
Qed.

(** What a sequence of construction calls produces, the allocators returning fresh
    addresses (those of edges aligned). *)
Inductive built : Dag → Prop :=
| b_new : built new_Dag
| b_node g mem t tok scope prio cpu r : built g → mem ≠ 0 → mem ∉ d_nodes g →
    CreateNode mem t tok scope prio cpu g = Ok r → built r.2
| b_main g mem t tok scope prio r : built g → mem ≠ 0 → mem ∉ d_nodes g →
    CreateMainNode mem t tok scope prio g = Ok r → built r.2
| b_gate g mem ty r : built g → mem ≠ 0 → mem ∉ d_nodes g → CreateGate mem ty g = Ok r → built r.2
| b_external g mem r : built g → mem ≠ 0 → mem ∉ d_nodes g → CreateExternalNode mem g = Ok r → built r.2
| b_edge g e d p r : built g → e ≠ 0 → e `mod` 4 = 0 → d_dep g !! e = None →
    d ∈ d_nodes g → p ∈ d_nodes g → AddDependency e d p g = Ok r → built r.1.

Lemma node_at_insert g ns v n w sub :
  node_at (mkDag ns (<[v := n]> (d_node g)) (d_dep g) (d_next g) sub) w =
    if decide (v = w) then n else node_at g w.
Proof.
  unfold node_at. simpl. case_decide; [subst; by rewrite lookup_insert_eq|by rewrite lookup_insert_ne].
Qed.

Lemma all_edges_ext g g' L L' :
  d_nodes g' = d_nodes g → (∀ v, v ∈ d_nodes g → L' v = L v) → all_edges g' L' = all_edges g L.
Proof.
  intros Hn HL. unfold all_edges. rewrite Hn. f_equal. apply list_fmap_ext. intros i v Hv.
  apply HL. by eapply list_elem_of_lookup_2.
Qed.

Lemma wf_add_node g L mem n :
  dag_wf g L → mem ≠ 0 → mem ∉ d_nodes g → firstEdge n = 0 → dependencies_left n = 0 →
  n_submitted n = false → extBits n = 0 →
  dag_wf (mkDag (d_nodes g ++ [mem]) (<[mem := n]> (d_node g)) (d_dep g) (d_next g) (d_submitted g))
    (λ v, if decide (v = mem) then [] else L v).
Proof.
  intros Hw Hm0 Hm He Hl Hns Hx. destruct Hw as [W1 W2 W3 W4 W5 W6 W7 W8 W9 W10 W11].
  set (L' := λ v, if decide (v = mem) then [] else L v).
  set (g' := mkDag _ _ _ _ _).
  assert (Hall : all_edges g' L' = all_edges g L).
  { unfold all_edges. simpl. rewrite fmap_app, join_app. simpl. unfold L' at 2. rewrite decide_True by done.
    simpl. rewrite app_nil_r. f_equal. apply list_fmap_ext. intros i v Hv. unfold L'.
    rewrite decide_False; [done|]. intros ->. by apply Hm, (list_elem_of_lookup_2 _ i). }
  assert (Hcase : ∀ v, v ∈ d_nodes g' → v = mem ∨ (v ∈ d_nodes g ∧ mem ≠ v)).
  { simpl. intros v. rewrite elem_of_app, list_elem_of_singleton. destruct (decide (v = mem)); naive_solver. }
  constructor; rewrite ?Hall; try done.
  - simpl. apply NoDup_app. split_and!; [done| |apply NoDup_singleton]. intros v Hv ->%list_elem_of_singleton. done.
  - simpl. rewrite elem_of_app, list_elem_of_singleton. naive_solver.
  - intros v Hv. unfold g'. rewrite node_at_insert. unfold L'. destruct (Hcase v Hv) as [->|[Hv' Hne]].
    + rewrite !decide_True by done. by rewrite He.
    + rewrite !decide_False by congruence. by apply W3.
  - intros v Hv. unfold g'. rewrite node_at_insert. destruct (Hcase v Hv) as [->|[Hv' Hne]].
    + rewrite decide_True by done. by rewrite He.
    + rewrite decide_False by done. by apply W4.
  - intros e Hi. destruct (W6 e Hi) as [? ?]. split; [done|]. simpl. rewrite elem_of_app. by left.
  - intros v Hv. unfold g'. rewrite node_at_insert. destruct (Hcase v Hv) as [->|[Hv' Hne]].
    + rewrite decide_True, Hl by done. symmetry. pose proof (occ_nonneg mem (dep_of g <$> all_edges g L)).
      destruct (decide (0 < occ mem (dep_of g <$> all_edges g L))) as [Ho|Ho]; [|unfold dep_of in *; simpl; lia].
      apply occ_pos, list_elem_of_fmap in Ho as (e & -> & Hie). by apply W6 in Hie as [_ ?].
    + rewrite decide_False by done. by apply W7.
  - intros v n'. simpl. rewrite lookup_insert_Some, elem_of_app, list_elem_of_singleton.
    intros [[<- <-]|[_ Hv]]; [by auto|]. destruct (W10 _ _ Hv) as (? & ? & ?). auto.
  - intros v Hv. simpl. destruct (Hcase v Hv) as [->|[Hv' Hne]]; [by rewrite lookup_insert_eq|].
    rewrite lookup_insert_ne by done. by apply W11.
Qed.

(** Consing an edge onto the list of [p]. *)
Lemma all_edges_cons g g' L p e :
  d_nodes g' = d_nodes g → NoDup (d_nodes g) → p ∈ d_nodes g →
  all_edges g' (λ v, if decide (v = p) then e :: L v else L v) ≡ₚ e :: all_edges g L.
Proof.
  intros Hn Hnd Hp. unfold all_edges. rewrite Hn. apply list_elem_of_split in Hp as (l1 & l2 & Heq).
  rewrite Heq in *. apply NoDup_app in Hnd as (_ & Hd & [Hp2 _]%NoDup_cons).
  assert (Hsame : ∀ l : list Z, p ∉ l → (λ v, if decide (v = p) then e :: L v else L v) <$> l = L <$> l).
  { intros l Hl. apply list_fmap_ext. intros i v Hv. rewrite decide_False; [done|].
    intros ->. by apply Hl, (list_elem_of_lookup_2 _ i). }
  rewrite !fmap_app, !fmap_cons, !join_app. rewrite (Hsame l1), (Hsame l2); [|done|].
  - simpl. rewrite decide_True by done. simpl. solve_Permutation.
  - intros Hp1. apply (Hd p Hp1). set_solver.
Qed.

Lemma node_at_ext g g' v : d_node g = d_node g' → node_at g v = node_at g' v.
Proof. unfold node_at. by intros ->. Qed.

Lemma node_at_upd g v f w :
  node_at (upd_node v f g) w = if decide (v = w) then f (node_at g v) else node_at g w.
Proof.
  unfold upd_node, node_at. simpl. case_decide; [subst; by rewrite lookup_insert_eq|by rewrite lookup_insert_ne].
Qed.

Lemma AddDependency_open g e d p :
  e ≠ 0 → d ≠ 0 → p ≠ 0 → EdgeSealed (firstEdge (node_at g p)) = false →
  ∃ g', AddDependency e d p g = Ok (g', None) ∧
    d_nodes g' = d_nodes g ∧ d_submitted g' = d_submitted g ∧ d_dep g' = <[e := d]> (d_dep g) ∧
    d_next g' = <[e := EdgePtr (firstEdge (node_at g p))]> (d_next g) ∧
    ∀ v, firstEdge (node_at g' v) = (if decide (v = p) then e else firstEdge (node_at g v)) ∧
      dependencies_left (node_at g' v) = dependencies_left (node_at g v) + (if decide (v = d) then 1 else 0) ∧
      n_submitted (node_at g' v) = n_submitted (node_at g v) ∧ extBits (node_at g' v) = extBits (node_at g v) ∧
      (is_Some (d_node g' !! v) ↔ v = d ∨ v = p ∨ is_Some (d_node g !! v)).
Proof.
  intros He Hd Hp Hs. unfold AddDependency. rewrite !(proj2 (Z.eqb_neq _ _)) by done. simpl.
  set (g1 := upd_node d _ _).
  assert (Hn1 : ∀ v, node_at g1 v = if decide (d = v)
    then set_left (dependencies_left (node_at g d) + 1) (node_at g d) else node_at g v).
  { intros v. unfold g1. by rewrite node_at_upd. }
  assert (Hf1 : ∀ v, firstEdge (node_at g1 v) = firstEdge (node_at g v)).
  { intros v. rewrite Hn1. case_decide; [subst|]; done. }
  rewrite Hf1, Hs. eexists. split; [reflexivity|]. simpl. split_and!; try done.
  - by rewrite insert_insert_eq.
  - intros v. rewrite node_at_upd. rewrite !(node_at_ext (mkDag (d_nodes g) _ _ _ _) g1) by done.
    split_and!.
    + destruct (decide (p = v)) as [->|Hne]; [by rewrite decide_True|]. rewrite decide_False by done. apply Hf1.
    + destruct (decide (p = v)) as [->|Hne]; cbn [set_firstEdge dependencies_left]; rewrite Hn1;
        repeat case_decide; subst; done || (simpl; lia).
    + destruct (decide (p = v)) as [->|Hne]; cbn [set_firstEdge n_submitted]; rewrite Hn1; case_decide; by subst.
    + destruct (decide (p = v)) as [->|Hne]; cbn [set_firstEdge extBits]; rewrite Hn1; case_decide; by subst.
    + simpl. rewrite !lookup_insert_is_Some. destruct (decide (v = p)), (decide (v = d)); intuition congruence.
Qed.

Lemma wf_add_edge g L e d p r :
  dag_wf g L → e ≠ 0 → e `mod` 4 = 0 → d_dep g !! e = None → d ∈ d_nodes g → p ∈ d_nodes g →
  AddDependency e d p g = Ok r → dag_wf r.1 (λ v, if decide (v = p) then e :: L v else L v).
Proof.
  intros Hw He Hal Hfresh Hd Hp Hadd. pose proof Hw as [W1 W2 W3 W4 W5 W6 W7 W8 W9 W10 W11].
  destruct (AddDependency_open g e d p) as (g' & Hok & Hn & Hsub & Hdep & Hnext & Hv); [done|congruence|congruence| |].
  { by apply EdgeSealed_aligned, W4. }
  rewrite Hok in Hadd. injection Hadd as <-. simpl. rewrite EdgePtr_aligned in Hnext by by apply W4.
  assert (Hnew : e ∉ all_edges g L) by (intros [[? H] _]%W6; congruence).
  assert (Hdo : ∀ x, x ∈ all_edges g L → dep_of g' x = dep_of g x).
  { intros x Hx. unfold dep_of. rewrite Hdep, lookup_insert_ne; [done|]. by intros ->. }
  pose proof (all_edges_cons g g' L p e Hn W1 Hp) as Hall.
  constructor; rewrite ?Hn; try done.
  - intros v Hv'. destruct (Hv v) as [-> _]. rewrite Hnext.
    assert (HeL : e ∉ L v) by (intros ?; by apply Hnew, (in_all_edges _ _ v)).
    case_decide as E; [|by apply lseg_insert; [done|apply W3]]. subst. simpl. split_and!; [done|done|].
    rewrite next_of_eq. apply lseg_insert; [done|by apply W3].
  - intros v Hv'. destruct (Hv v) as [-> _]. case_decide; [done|by apply W4].
  - rewrite Hall. by apply NoDup_cons.
  - intros x. rewrite Hall, elem_of_cons. intros [->|Hx].
    + unfold dep_of. rewrite Hdep, lookup_insert_eq. done.
    + rewrite Hdo by done. split; [|by apply W6]. rewrite Hdep, lookup_insert_ne; [by apply W6|by intros ->].
  - intros v Hv'. destruct (Hv v) as (_ & -> & _). rewrite W7 by done. rewrite Hall, fmap_cons, occ_cons.
    replace (dep_of g' e) with d by (unfold dep_of; by rewrite Hdep, lookup_insert_eq).
    replace (dep_of g' <$> all_edges g L) with (dep_of g <$> all_edges g L); [repeat case_decide; try congruence; lia|].
    apply list_fmap_ext. intros i x Hx. symmetry. apply Hdo. by eapply list_elem_of_lookup_2.
  - congruence.
  - intros x. rewrite Hdep, Hall, elem_of_cons. destruct (decide (x = e)) as [->|Hne]; [by auto|].
    rewrite lookup_insert_ne by done. intros Hx. destruct (W9 x Hx). auto.
  - intros v n Hn'. destruct (Hv v) as (_ & _ & H1 & H2 & H3).
    assert (Hat : node_at g' v = n) by (unfold node_at; by rewrite Hn').
    assert (Hold : is_Some (d_node g !! v)).
    { destruct H3 as [H3 _]. destruct H3 as [->|[->|?]]; [by eexists|by apply W11..|done]. }
    destruct Hold as [n0 Hn0]. destruct (W10 _ _ Hn0) as (? & ? & ?).
    assert (node_at g v = n0) as Hat0 by (unfold node_at; by rewrite Hn0). rewrite Hat, Hat0 in *.
    split_and!; congruence.
  - intros v Hv'. apply Hv. right. right. by apply W11.
Qed.

Lemma built_wf g : built g → ∃ L, dag_wf g L.
Proof.
  assert (Hadd : ∀ g mem n r, (∃ L, dag_wf g L) → mem ≠ 0 → mem ∉ d_nodes g → firstEdge n = 0 →
    dependencies_left n = 0 → n_submitted n = false → extBits n = 0 → add_node mem n g = Ok r → ∃ L, dag_wf r.2 L).
  { intros g0 mem n r [L Hw] Hm Hn Hf Hl Hns Hx. unfold add_node. rewrite (dw_open _ _ Hw). apply Z.eqb_neq in Hm as Hm'.
    rewrite Hm'. intros [= <-]. simpl. rewrite <- (dw_open _ _ Hw). eexists. by apply wf_add_node. }
  assert (Hbind : ∀ (m : res DagFatal (Z * Dag)) (k : Z) r, (x ← m; mret (x.1, k, x.2)) = Ok r → ∃ x, m = Ok x ∧ r.2 = x.2).
  { intros [x|] k r; simpl; [|done]. intros [= <-]. by exists x. }
  induction 1 as [|g mem t tok scope prio cpu r _ IH Hm Hn Hc|g mem t tok scope prio r _ IH Hm Hn Hc
    |g mem ty r _ IH Hm Hn Hc|g mem r _ IH Hm Hn Hc|g e d p r _ [L IH] He Hal Hfr Hd Hp Hc].
  - exists (λ _, []). constructor; try (by apply NoDup_nil_2); try done; try (by intros ? []%not_elem_of_nil).
    + apply not_elem_of_nil.
    + intros e [? ?]. done.
  - apply Hbind in Hc as (x & Hx & ->). by eapply Hadd; [..|exact Hx].
  - apply Hbind in Hc as (x & Hx & ->). by eapply Hadd; [..|exact Hx].
  - by eapply Hadd; [..|exact Hc].
  - by eapply Hadd; [..|exact Hc].
  - eexists. by apply (wf_add_edge g L e d p r).
Qed.

(** C33: the cycle check is exact.  For every graph built with [CreateNode],
    [CreateMainNode], [CreateGate], [CreateExternalNode] and [AddDependency], [HasCycle]
    answers true exactly when following dependents from some node leads back to it; so
    [Submit] refuses just the graphs that could never finish. *)
Theorem has_cycle_exact g :
  built g → HasCycle g = true ↔ cyclic (d_nodes g) (dependents g).
Proof. intros Hb. destruct (built_wf g Hb) as [L Hw]. by eapply HasCycle_wf. Qed.

(** ** Witness *)

(** Two nodes that depend on each other. *)
Definition two_nodes : Dag :=
  mkDag [16; 32] {[16 := node_for 1 NONE NONE; 32 := node_for 2 NONE NONE]} ∅ ∅ false.
Definition two_cycle : Dag :=
  mkDag [16; 32]
    {[16 := set_firstEdge 64 (set_left 1 (node_for 1 NONE NONE)); 32 := set_firstEdge 128 (set_left 1 (node_for 2 NONE NONE))]}
    {[64 := 32; 128 := 16]} {[64 := 0; 128 := 0]} false.

Lemma two_cycle_built : built two_cycle.
Proof.
  assert (H0 : built two_nodes).
  { pose proof (b_node new_Dag 16 1 0 0 NONE NONE _ b_new ltac:(done) (not_elem_of_nil _) eq_refl) as H1. simpl in H1.
    eapply (b_node _ 32 2 0 0 NONE NONE) in H1; [|done|set_solver|reflexivity]. exact H1. }
  assert (H2 : built (mkDag [16; 32] {[16 := set_firstEdge 64 (node_for 1 NONE NONE);
    32 := set_left 1 (node_for 2 NONE NONE)]} {[64 := 32]} {[64 := 0]} false)).
  { eapply (b_edge _ 64 32 16) in H0; [|done|done|done|set_solver|set_solver|reflexivity]. exact H0. }
  eapply (b_edge _ 128 16 32) in H2; [|done|done|done|set_solver|set_solver|reflexivity]. exact H2.
Qed.

Lemma has_cycle_exact_witness : HasCycle two_cycle = true ∧ cyclic [16; 32] (dependents two_cycle).
Proof.
  split; [by vm_compute|]. apply (has_cycle_exact two_cycle two_cycle_built). by vm_compute.
Defined.
