(* ===== verification/TaskDagRun.v ===== *)
(** * Task graphs: execution (include/TaskDAG.h, src/TaskDAG.cpp)

    [Fire], [OnTaskFinished], [WalkAndSeal], [AddDependency] and [SignalExternal] run on any
    number of threads at once and call each other recursively; a thread is a stack of
    frames, and a step executes one access of shared memory of its top frame.  Firing a
    node hands its task to the scheduler; running or discarding a queued task finishes the
    node.  For the proofs the state logs which edges were delivered, with what outcome nodes
    started and finished, and which node an edge leaves from.

    Shown: every node finishes and every edge is delivered at most once; an AND node starts
    only after everything it depends on has completed; when the system is at rest every
    node of an acyclic graph has finished; and an OR gate is freed while edges still lead
    to it. *)

From S2P Require Import Prelude TaskTypes TaskDag.

(** ** State *)

Inductive frame :=
| FFire (v : Z) (o : Outcome)                 (* Fire: before the exchange of submitted *)
| FGo (v : Z) (o : Outcome)                   (* before the load of cancelled *)
| FExt (v : Z)                                (* an external node: before fetch_or ARMED *)
| FDispatch (v : Z)                           (* before the push to the scheduler *)
| FFinish (v : Z) (o : Outcome)               (* OnTaskFinished: before the first load *)
| FWalk (v : Z) (o : Outcome) (head done cur : Z)   (* WalkAndSeal: cur is the next edge *)
| FRetire (v : Z)                             (* before RetirePtr *)
| FRoots (l : list Z)                         (* Submit: roots still to fire *)
| FAddLoad (e d p : Z)                        (* AddDependency: before the first load *)
| FAddTry (e d p head : Z)                    (* before the test of the seal *)
| FAddCas (e d p head : Z).                   (* before the exchange *)

Record shared := mkSh {
  h_node : gmap Z TaskNode; h_dep : gmap Z Z; h_src : gmap Z Z; h_next : gmap Z Z;
  h_cancelled : bool; h_queue : list Z; h_retired : list Z; h_freed : list Z; h_disposed : list Z;
  h_delivered : list (Z * Outcome); h_started : list (Z * Outcome); h_finished : list (Z * Outcome) }.

Record drun := mkRun { sh : shared; stacks : gmap nat (list frame) }.

Definition nd (s : shared) (v : Z) : TaskNode := default (new_TaskNode 0) (h_node s !! v).

Definition set_nd (v : Z) (n : TaskNode) (s : shared) : shared :=
  mkSh (<[v := n]> (h_node s)) (h_dep s) (h_src s) (h_next s) (h_cancelled s) (h_queue s) (h_retired s)
    (h_freed s) (h_disposed s) (h_delivered s) (h_started s) (h_finished s).
Definition set_queue (q : list Z) (s : shared) : shared :=
  mkSh (h_node s) (h_dep s) (h_src s) (h_next s) (h_cancelled s) q (h_retired s)
    (h_freed s) (h_disposed s) (h_delivered s) (h_started s) (h_finished s).
Definition log_delivered (e : Z) (o : Outcome) (s : shared) : shared :=
  mkSh (h_node s) (h_dep s) (h_src s) (h_next s) (h_cancelled s) (h_queue s) (h_retired s)
    (h_freed s) (h_disposed s) (h_delivered s ++ [(e, o)]) (h_started s) (h_finished s).
Definition log_started (v : Z) (o : Outcome) (s : shared) : shared :=
  mkSh (h_node s) (h_dep s) (h_src s) (h_next s) (h_cancelled s) (h_queue s) (h_retired s)
    (h_freed s) (h_disposed s) (h_delivered s) (h_started s ++ [(v, o)]) (h_finished s).
Definition log_finished (v : Z) (o : Outcome) (s : shared) : shared :=
  mkSh (h_node s) (h_dep s) (h_src s) (h_next s) (h_cancelled s) (h_queue s) (h_retired s)
    (h_freed s) (h_disposed s) (h_delivered s) (h_started s) (h_finished s ++ [(v, o)]).
Definition retire (v : Z) (s : shared) : shared :=
  mkSh (h_node s) (h_dep s) (h_src s) (h_next s) (h_cancelled s) (h_queue s) (h_retired s ++ [v])
    (h_freed s) (h_disposed s) (h_delivered s) (h_started s) (h_finished s).
Definition set_cancelled (s : shared) : shared :=
  mkSh (h_node s) (h_dep s) (h_src s) (h_next s) true (h_queue s) (h_retired s)
    (h_freed s) (h_disposed s) (h_delivered s) (h_started s) (h_finished s).
Definition set_next (e w : Z) (s : shared) : shared :=
  mkSh (h_node s) (h_dep s) (h_src s) (<[e := w]> (h_next s)) (h_cancelled s) (h_queue s) (h_retired s)
    (h_freed s) (h_disposed s) (h_delivered s) (h_started s) (h_finished s).
Definition free_node (v : Z) (s : shared) : shared :=
  mkSh (h_node s) (h_dep s) (h_src s) (h_next s) (h_cancelled s) (h_queue s) (h_retired s)
    (h_freed s ++ [v]) (h_disposed s) (h_delivered s) (h_started s) (h_finished s).

(** ** Operations *)

(** [DisposeUnexecutedTask]: the task, if any, is given back (its wait group counted down). *)
Definition DisposeUnexecutedTask (v : Z) (s : shared) : shared :=
  if n_task (nd s v) =? 0 then s
  else mkSh (<[v := set_task 0 (nd s v)]> (h_node s)) (h_dep s) (h_src s) (h_next s) (h_cancelled s)
         (h_queue s) (h_retired s) (h_freed s) (h_disposed s ++ [n_task (nd s v)]) (h_delivered s)
         (h_started s) (h_finished s).

(** What [Fire] does after its exchange and the load of [cancelled]. *)
Definition fire_go (v : Z) (o : Outcome) (s : shared) : shared * list frame :=
  let o' := if h_cancelled s then OCancelled else o in
  let s1 := log_started v o' s in
  match o' with
  | OCancelled => (DisposeUnexecutedTask v s1, [FFinish v OCancelled])
  | Completed =>
      if isGate (nd s v) then (s1, [FFinish v Completed])
      else if isExternal (nd s v) then (s1, [FExt v])
      else if n_task (nd s v) =? 0 then (s1, [FFinish v Completed])
      else (s1, [FDispatch v])
  end.

(** Telling dependent [d] that a dependency ended with [o]: the callback of
    [OnTaskFinished], and the sealed case of [AddDependency]. *)
Definition notify (d : Z) (o : Outcome) (s : shared) : shared * list frame :=
  match o with
  | OCancelled => (s, [FFire d OCancelled])
  | Completed =>
      match gateType (nd s d) with
      | OR => (s, [FFire d Completed])
      | AND =>
          let left := dependencies_left (nd s d) - 1 in
          (set_nd d (set_left left (nd s d)) s, if left =? 0 then [FFire d Completed] else [])
      end
  end.

Definition edge_dep (s : shared) (e : Z) : Z := default 0 (h_dep s !! e).

Definition seal_outcome (c : bool) : Outcome := if c then OCancelled else Completed.
Definition is_cancelled (o : Outcome) : bool := match o with OCancelled => true | Completed => false end.

(** One step of the top frame [f]: the new shared state and the frames that replace it. *)
Inductive frame_step (s : shared) : frame → shared → list frame → Prop :=
| s_fire_again v o : n_submitted (nd s v) = true → frame_step s (FFire v o) s []
| s_fire v o : n_submitted (nd s v) = false →
    frame_step s (FFire v o) (set_nd v (set_submitted true (nd s v)) s) [FGo v o]
| s_go v o s' fs : fire_go v o s = (s', fs) → frame_step s (FGo v o) s' fs
| s_ext v : frame_step s (FExt v) (set_nd v (set_extBits (Z.lor (extBits (nd s v)) EXT_ARMED) (nd s v)) s)
    (if negb (Z.land (extBits (nd s v)) EXT_SIGNALLED =? 0) then [FFinish v Completed] else [])
| s_queued v : frame_step s (FDispatch v) (set_queue (h_queue s ++ [v]) s) []
| s_rejected v : frame_step s (FDispatch v) (DisposeUnexecutedTask v s) [FFinish v OCancelled]
| s_finish v o : frame_step s (FFinish v o) (log_finished v o s)
    [FWalk v o (firstEdge (nd s v)) 0 (EdgePtr (firstEdge (nd s v)))]
| s_walk v o head done cur s' fs : cur ≠ done → notify (edge_dep s cur) o (log_delivered cur o s) = (s', fs) →
    frame_step s (FWalk v o head done cur) s' (fs ++ [FWalk v o head done (next_of (h_next s) cur)])
| s_seal v o head done : firstEdge (nd s v) = head →
    frame_step s (FWalk v o head done done)
      (set_nd v (set_firstEdge (EdgeSeal (EdgePtr head) (is_cancelled o)) (nd s v)) s) [FRetire v]
| s_again v o head done :
    frame_step s (FWalk v o head done done) s
      [FWalk v o (firstEdge (nd s v)) (EdgePtr head) (EdgePtr (firstEdge (nd s v)))]
| s_retire v : frame_step s (FRetire v) (retire v s) []
| s_root v l : frame_step s (FRoots (v :: l)) s [FFire v Completed; FRoots l]
| s_roots : frame_step s (FRoots []) s []
| s_add_load e d p : frame_step s (FAddLoad e d p) s [FAddTry e d p (firstEdge (nd s p))]
| s_add_sealed e d p head s' fs : EdgeSealed head = true →
    notify d (seal_outcome (EdgeCancelled head)) (log_delivered e (seal_outcome (EdgeCancelled head)) s) = (s', fs) →
    frame_step s (FAddTry e d p head) s' fs
| s_add_link e d p head : EdgeSealed head = false →
    frame_step s (FAddTry e d p head) (set_next e (EdgePtr head) s) [FAddCas e d p head]
| s_add_cas e d p head : firstEdge (nd s p) = head →
    frame_step s (FAddCas e d p head) (set_nd p (set_firstEdge e (nd s p)) s) []
| s_add_retry e d p head : frame_step s (FAddCas e d p head) s [FAddTry e d p (firstEdge (nd s p))].

(** A thread outside the graph's functions calls into it.  [dyn] admits [AddDependency] on
    the running graph. *)
Inductive idle_step (dyn : bool) (s : shared) : shared → list frame → Prop :=
| i_run v q1 q2 : h_queue s = q1 ++ v :: q2 → idle_step dyn s (set_queue (q1 ++ q2) s) [FFinish v Completed]
| i_discard v q1 q2 : h_queue s = q1 ++ v :: q2 → idle_step dyn s (set_queue (q1 ++ q2) s) [FFinish v OCancelled]
| i_signal v : is_Some (h_node s !! v) → isExternal (nd s v) = true →
    idle_step dyn s (set_nd v (set_extBits (Z.lor (extBits (nd s v)) EXT_SIGNALLED) (nd s v)) s)
      (if negb (Z.land (extBits (nd s v)) EXT_SIGNALLED =? 0) then []
       else if negb (Z.land (extBits (nd s v)) EXT_ARMED =? 0) then [FFinish v Completed] else [])
| i_add e d p : dyn = true → e ≠ 0 → e `mod` 4 = 0 → h_dep s !! e = None →
    is_Some (h_node s !! d) → is_Some (h_node s !! p) →
    idle_step dyn s
      (mkSh (<[d := set_left (dependencies_left (nd s d) + 1) (nd s d)]> (h_node s)) (<[e := d]> (h_dep s))
         (<[e := p]> (h_src s)) (<[e := 0]> (h_next s)) (h_cancelled s) (h_queue s) (h_retired s) (h_freed s)
         (h_disposed s) (h_delivered s) (h_started s) (h_finished s)) [FAddLoad e d p]
| i_cancel : idle_step dyn s (set_cancelled s) [].

Inductive dstep (dyn : bool) (s : drun) : drun → Prop :=
| d_frame i f k s' fs : stacks s !! i = Some (f :: k) → frame_step (sh s) f s' fs →
    dstep dyn s (mkRun s' (<[i := fs ++ k]> (stacks s)))
| d_idle i s' fs : stacks s !! i = Some [] → idle_step dyn (sh s) s' fs →
    dstep dyn s (mkRun s' (<[i := fs]> (stacks s)))
| d_free v : v ∈ h_retired (sh s) → v ∉ h_freed (sh s) → (∀ i k, stacks s !! i = Some k → k = []) →
    dstep dyn s (mkRun (free_node v (sh s)) (stacks s)).

(** [Submit] of the built graph [g] by thread 0 has collected the roots; [src] says which
    node's list an edge is on. *)
Definition dinit (g : Dag) (s : drun) : Prop :=
  ∃ L ts src roots ng, dag_wf g L ∧ Submit g = (true, roots, [], ng) ∧
    (∀ e v, src !! e = Some v ↔ v ∈ d_nodes g ∧ e ∈ L v) ∧
    (∀ i k, ts !! i = Some k → k = []) ∧
    s = mkRun (mkSh (d_node g) (d_dep g) src (d_next g) false [] [] [] [] [] [] [])
          (<[0%nat := [FRoots roots]]> ts).

(** ** Every node finishes at most once

    A submitted node has exactly one token: a frame past the exchange in [Fire], its place
    in the scheduler's queue, the armed bit of an external node, or the retired nodes. *)

Definition toks (f : frame) : list Z :=
  match f with
  | FGo v _ | FExt v | FDispatch v | FFinish v _ | FWalk v _ _ _ _ | FRetire v => [v]
  | _ => []
  end.
Definition stoks (k : list frame) : list Z := mjoin (toks <$> k).

Definition ext_wait (s : shared) (v : Z) : bool :=
  isExternal (nd s v) && (extBits (nd s v) =? EXT_ARMED).

Definition tok_shared (s : shared) (v : Z) : Z :=
  occ v (h_queue s) + occ v (h_retired s) + Z.b2z (ext_wait s v) - Z.b2z (n_submitted (nd s v)).

(** Nodes that have not reached the armed bit. *)
Definition pre (f : frame) : list Z := match f with FGo v _ | FExt v => [v] | _ => [] end.
Definition spre (k : list frame) : list Z := mjoin (pre <$> k).

Definition ext_frame (s : shared) (f : frame) : Prop :=
  match f with FExt v => isExternal (nd s v) = true | _ => True end.

Record tinv (s : drun) : Prop := {
  ti_tok v : occ v (gather stoks (stacks s)) + tok_shared (sh s) v = 0;
  ti_bits v : 0 ≤ extBits (nd (sh s) v) < 4;
  ti_armed v : Z.testbit (extBits (nd (sh s) v)) 0 = true →
    n_submitted (nd (sh s) v) = true ∧ v ∉ gather spre (stacks s);
  ti_ext i k f : stacks s !! i = Some k → f ∈ k → ext_frame (sh s) f }.

Lemma nd_set v n s w : nd (set_nd v n s) w = if decide (v = w) then n else nd s w.
Proof.
  unfold nd, set_nd. simpl. case_decide; [subst; by rewrite lookup_insert_eq|by rewrite lookup_insert_ne].
Qed.

Lemma join_fmap_app {A} (f : A → list Z) k1 k2 : mjoin (f <$> (k1 ++ k2)) = mjoin (f <$> k1) ++ mjoin (f <$> k2).
Proof. by rewrite fmap_app, join_app. Qed.
Lemma join_fmap_cons {A} (f : A → list Z) x k : mjoin (f <$> (x :: k)) = f x ++ mjoin (f <$> k).
Proof. done. Qed.

(** Replacing the top frame. *)
Lemma gather_top (g : frame → list Z) ts i f k fs :
  ts !! i = Some (f :: k) →
  g f ++ gather (λ k, mjoin (g <$> k)) (<[i := fs ++ k]> ts) ≡ₚ mjoin (g <$> fs) ++ gather (λ k, mjoin (g <$> k)) ts.
Proof.
  intros Ht. pose proof (gather_change (λ k, mjoin (g <$> k)) ts i _ (fs ++ k) Ht) as Hg.
  cbv beta in Hg. rewrite join_fmap_app, join_fmap_cons in Hg. apply (Permutation_app_inv_l (mjoin (g <$> k))).
  etrans; [|etrans; [exact Hg|]]; solve_Permutation.
Qed.

(** The shared part of the token count changes by what the frames give and take. *)
Lemma nd_dispose v s w :
  nd (DisposeUnexecutedTask v s) w = (if decide (v = w) then set_task 0 (nd s w) else nd s w) ∨
  nd (DisposeUnexecutedTask v s) w = nd s w.
Proof.
  unfold DisposeUnexecutedTask. case_match; [by right|]. left. unfold nd at 1. simpl.
  case_decide; [subst; by rewrite lookup_insert_eq|by rewrite lookup_insert_ne].
Qed.

(** The fields the token count reads. *)
Definition tok_same (s s' : shared) : Prop :=
  h_queue s' = h_queue s ∧ h_retired s' = h_retired s ∧
  ∀ v, isExternal (nd s' v) = isExternal (nd s v) ∧ extBits (nd s' v) = extBits (nd s v) ∧
    n_submitted (nd s' v) = n_submitted (nd s v).

Lemma tok_same_eq s s' v : tok_same s s' → tok_shared s' v = tok_shared s v.
Proof.
  intros (Hq & Hr & Hn). unfold tok_shared, ext_wait. destruct (Hn v) as (-> & -> & ->). by rewrite Hq, Hr.
Qed.

Lemma tok_same_trans s1 s2 s3 : tok_same s1 s2 → tok_same s2 s3 → tok_same s1 s3.
Proof.
  intros (Q1 & R1 & N1) (Q2 & R2 & N2). split_and!; [congruence|congruence|]. intros v.
  destruct (N1 v) as (? & ? & ?), (N2 v) as (? & ? & ?). split_and!; congruence.
Qed.

Lemma tok_same_nd v n s :
  isExternal n = isExternal (nd s v) → extBits n = extBits (nd s v) → n_submitted n = n_submitted (nd s v) →
  tok_same s (set_nd v n s).
Proof. intros H1 H2 H3. split_and!; try done. intros w. rewrite nd_set. case_decide; by subst. Qed.

Lemma tok_same_dispose v s : tok_same s (DisposeUnexecutedTask v s).
Proof.
  split_and!; [by unfold DisposeUnexecutedTask; case_match..|]. intros w.
  destruct (nd_dispose v s w) as [-> | ->]; [|done]. by case_decide.
Qed.

Lemma notify_same d o s s' fs :
  notify d o s = (s', fs) → tok_same s s' ∧ stoks fs = [] ∧ spre fs = [] ∧ ∀ f, f ∈ fs → ∃ o', f = FFire d o'.
Proof.
  unfold notify. intros H.
  assert (Hf : ∀ o', stoks [FFire d o'] = [] ∧ spre [FFire d o'] = [] ∧ ∀ f, f ∈ [FFire d o'] → ∃ o', f = FFire d o').
  { intros o'. split_and!; [done|done|]. intros f ->%list_elem_of_singleton. by eexists. }
  destruct o; [destruct (gateType _)|]; injection H as <- <-; (split; [|try apply Hf]).
  - by apply tok_same_nd.
  - case_match; [apply Hf|]. split_and!; [done|done|]. by intros f ?%not_elem_of_nil.
  - done.
  - done.
Qed.

Lemma go_same v o s s' fs :
  fire_go v o s = (s', fs) → tok_same s s' ∧ stoks fs = [v] ∧ (∀ w, w ∈ spre fs → w = v) ∧
    (∀ f, f ∈ fs → ext_frame s' f) .
Proof.
  unfold fire_go. intros H.
  assert (Hs : tok_same s (log_started v (if h_cancelled s then OCancelled else o) s)) by done.
  assert (Hf : ∀ o' s1 f, f ∈ [FFinish v o'] → ext_frame s1 f) by by intros o' s1 f ->%list_elem_of_singleton.
  assert (Hn : ∀ o' w, w ∈ spre [FFinish v o'] → w = v) by by intros o' w ?%not_elem_of_nil.
  destruct (if h_cancelled s then OCancelled else o).
  - destruct (isGate (nd s v)); [injection H as <- <-; split_and!; try done; [apply Hn|apply Hf]|].
    destruct (isExternal (nd s v)) eqn:E.
    { injection H as <- <-. split_and!; try done; [by intros w ->%list_elem_of_singleton|].
      by intros f ->%list_elem_of_singleton. }
    destruct (_ =? 0); injection H as <- <-; split_and!; try done; [apply Hn|apply Hf|..].
    + by intros w ?%not_elem_of_nil.
    + by intros f ->%list_elem_of_singleton.
  - injection H as <- <-. split_and!; [|done|apply Hn|apply Hf].
    eapply tok_same_trans; [exact Hs|apply tok_same_dispose].
Qed.

Lemma ext_bits_cases b : (0 ≤ b < 4) → b = 0 ∨ b = 1 ∨ b = 2 ∨ b = 3.
Proof. lia. Qed.

(** [fetch_or] of the armed bit on an external node that is not armed. *)
Lemma ext_arm s v :
  (0 ≤ extBits (nd s v) < 4) → Z.testbit (extBits (nd s v)) 0 = false → isExternal (nd s v) = true →
  let s' := set_nd v (set_extBits (Z.lor (extBits (nd s v)) EXT_ARMED) (nd s v)) s in
  let fs := if negb (Z.land (extBits (nd s v)) EXT_SIGNALLED =? 0) then [FFinish v Completed] else [] in
  ∀ w, occ w (stoks fs) + tok_shared s' w = occ w [v] + tok_shared s w.
Proof.
  intros Hr Hb Hx s' fs w. unfold tok_shared, ext_wait, s'. rewrite nd_set. case_decide as E.
  - subst w. simpl. rewrite Hx. unfold fs, EXT_SIGNALLED, EXT_ARMED.
    destruct (ext_bits_cases _ Hr) as [Hc|[Hc|[Hc|Hc]]]; rewrite Hc in *; try done; simpl;
      unfold stoks; simpl; rewrite ?app_nil_r, !occ_cons, ?decide_True by done; unfold occ; simpl; lia.
  - assert (occ w (stoks fs) = 0 ∧ occ w [v] = 0) as [-> ->]; [|simpl; lia].
    unfold fs. case_match; unfold stoks; simpl; rewrite ?app_nil_r, ?occ_cons, ?decide_False by done; done.
Qed.

(** [fetch_or] of the signalled bit. *)
Lemma ext_signal s v :
  (0 ≤ extBits (nd s v) < 4) → isExternal (nd s v) = true →
  let s' := set_nd v (set_extBits (Z.lor (extBits (nd s v)) EXT_SIGNALLED) (nd s v)) s in
  let fs := if negb (Z.land (extBits (nd s v)) EXT_SIGNALLED =? 0) then []
            else if negb (Z.land (extBits (nd s v)) EXT_ARMED =? 0) then [FFinish v Completed] else [] in
  ∀ w, occ w (stoks fs) + tok_shared s' w = tok_shared s w.
Proof.
  intros Hr Hx s' fs w. unfold tok_shared, ext_wait, s'. rewrite nd_set. case_decide as E.
  - subst w. simpl. rewrite Hx. unfold fs, EXT_SIGNALLED, EXT_ARMED.
    destruct (ext_bits_cases _ Hr) as [Hc|[Hc|[Hc|Hc]]]; rewrite Hc in *; try done; simpl;
      unfold stoks; simpl; rewrite ?app_nil_r, ?occ_cons, ?decide_True by done; unfold occ; simpl; lia.
  - assert (occ w (stoks fs) = 0) as ->; [|simpl; lia].
    unfold fs. repeat case_match; unfold stoks; simpl; rewrite ?app_nil_r, ?occ_cons, ?decide_False by done; done.
Qed.

Lemma frame_tok s f s' fs :
  frame_step s f s' fs → ext_frame s f →
  (∀ v, f = FExt v → (0 ≤ extBits (nd s v) < 4) ∧ Z.testbit (extBits (nd s v)) 0 = false) →
  ∀ w, occ w (stoks fs) + tok_shared s' w = occ w (toks f) + tok_shared s w.
Proof.
  intros Hs Hx Hb w. destruct Hs as [v o Hsub|v o Hsub|v o s' fs Hgo|v|v|v|v o|v o head done cur s' fs Hne Hn|v o head done Hh
    |v o head done|v|v l| |e d p|e d p head s' fs Hse Hn|e d p head Hse|e d p head Hh|e d p head]; simpl toks.
  - done.
  - unfold tok_shared, ext_wait. rewrite nd_set. unfold stoks. simpl. rewrite occ_cons. unfold occ. simpl.
    case_decide as E; [subst; rewrite Hsub; simpl|]; lia.
  - apply go_same in Hgo as (Hsame & -> & _). by rewrite (tok_same_eq _ _ _ Hsame).
  - destruct (Hb v eq_refl). by apply ext_arm.
  - unfold tok_shared, ext_wait, nd. simpl. rewrite occ_app. unfold occ. simpl. lia.
  - rewrite (tok_same_eq _ _ _ (tok_same_dispose v s)). done.
  - done.
  - apply notify_same in Hn as (Hsame & Hst & _). unfold stoks in *. rewrite join_fmap_app, Hst.
    rewrite (tok_same_eq _ _ _ Hsame). done.
  - rewrite (tok_same_eq s); [done|]. by apply tok_same_nd.
  - done.
  - unfold tok_shared, ext_wait, nd. simpl. rewrite occ_app. unfold occ. simpl. lia.
  - done.
  - done.
  - done.
  - apply notify_same in Hn as (Hsame & -> & _). by rewrite (tok_same_eq _ _ _ Hsame).
  - done.
  - rewrite (tok_same_eq s); [done|]. by apply tok_same_nd.
  - done.
Qed.

(** What a step leaves of a node. *)
Lemma frame_node s f s' fs w :
  frame_step s f s' fs →
  isExternal (nd s' w) = isExternal (nd s w) ∧ gateType (nd s' w) = gateType (nd s w) ∧
  (n_submitted (nd s w) = true → n_submitted (nd s' w) = true) ∧
  (extBits (nd s' w) = extBits (nd s w) ∨ (f = FExt w ∧ extBits (nd s' w) = Z.lor (extBits (nd s w)) EXT_ARMED)).
Proof.
  assert (Hdis : ∀ v s0, isExternal (nd (DisposeUnexecutedTask v s0) w) = isExternal (nd s0 w) ∧
    gateType (nd (DisposeUnexecutedTask v s0) w) = gateType (nd s0 w) ∧
    n_submitted (nd (DisposeUnexecutedTask v s0) w) = n_submitted (nd s0 w) ∧
    extBits (nd (DisposeUnexecutedTask v s0) w) = extBits (nd s0 w)).
  { intros v s0. destruct (nd_dispose v s0 w) as [-> | ->]; [|done]. by case_decide. }
  assert (Hnot : ∀ d o s0 s1 fs0, notify d o s0 = (s1, fs0) → isExternal (nd s1 w) = isExternal (nd s0 w) ∧
    gateType (nd s1 w) = gateType (nd s0 w) ∧ n_submitted (nd s1 w) = n_submitted (nd s0 w) ∧
    extBits (nd s1 w) = extBits (nd s0 w)).
  { intros d o s0 s1 fs0. unfold notify. destruct o; [destruct (gateType _)|]; intros [= <- <-]; try done.
    rewrite nd_set. case_decide; by subst. }
  intros Hs. destruct Hs as [v o Hsub|v o Hsub|v o s' fs Hgo|v|v|v|v o|v o head done cur s' fs Hne Hn|v o head done Hh
    |v o head done|v|v l| |e d p|e d p head s' fs Hse Hn|e d p head Hse|e d p head Hh|e d p head];
    try (by (split_and!; auto)); try (rewrite !nd_set; case_decide; subst; simpl; by auto 10).
  - unfold fire_go in Hgo. repeat case_match; injection Hgo as <- <-; try (by (split_and!; auto));
      destruct (Hdis v (log_started v OCancelled s)) as (-> & -> & -> & ->); by auto.
  - destruct (Hdis v s) as (-> & -> & -> & ->). by auto.
  - destruct (Hnot _ _ _ _ _ Hn) as (-> & -> & -> & ->). by auto.
  - destruct (Hnot _ _ _ _ _ Hn) as (-> & -> & -> & ->). by auto.
Qed.

Lemma frame_pre s f s' fs w : frame_step s f s' fs → w ∈ spre fs → w ∈ pre f ∨ n_submitted (nd s w) = false.
Proof.
  assert (Hnil : ∀ d o s0 s1 fs0, notify d o s0 = (s1, fs0) → w ∈ spre fs0 → False).
  { intros d o s0 s1 fs0 Hn. apply notify_same in Hn as (_ & _ & -> & _). apply not_elem_of_nil. }
  intros Hs Hw. destruct Hs as [v o Hsub|v o Hsub|v o s' fs Hgo|v|v|v|v o|v o head done cur s' fs Hne Hn|v o head done Hh
    |v o head done|v|v l| |e d p|e d p head s' fs Hse Hn|e d p head Hse|e d p head Hh|e d p head];
    try (by apply not_elem_of_nil in Hw).
  - apply list_elem_of_singleton in Hw as ->. by right.
  - apply go_same in Hgo as (_ & _ & Hp & _). apply Hp in Hw as ->. left. set_solver.
  - case_match; by apply not_elem_of_nil in Hw.
  - exfalso. unfold spre in Hw. rewrite join_fmap_app in Hw. apply elem_of_app in Hw as [Hw|Hw].
    + by eapply Hnil.
    + by apply not_elem_of_nil in Hw.
  - exfalso. by eapply Hnil.
Qed.

(** The frames past the armed bit. *)
Definition post (f : frame) : list Z :=
  match f with FDispatch v | FFinish v _ | FWalk v _ _ _ _ | FRetire v => [v] | _ => [] end.

Lemma stoks_split ts :
  gather stoks ts ≡ₚ gather spre ts ++ gather (λ k, mjoin (post <$> k)) ts.
Proof.
  assert (Hk : ∀ k, stoks k ≡ₚ spre k ++ mjoin (post <$> k)).
  { induction k as [|f k IH]; [done|]. unfold stoks, spre in *. rewrite !join_fmap_cons, IH.
    destruct f; simpl; solve_Permutation. }
  unfold gather. induction ((map_to_list ts).*2) as [|k l IH]; [done|].
  rewrite !join_fmap_cons, IH, Hk. solve_Permutation.
Qed.

Lemma tok_bound s v : tinv s → occ v (gather stoks (stacks s)) ≤ 1.
Proof.
  intros Ht. pose proof (ti_tok _ Ht v) as H. unfold tok_shared in H.
  pose proof (occ_nonneg v (h_queue (sh s))). pose proof (occ_nonneg v (h_retired (sh s))).
  destruct (ext_wait _ _), (n_submitted _); simpl in H; lia.
Qed.

Lemma frame_ext s f s' fs f' : frame_step s f s' fs → f' ∈ fs → ext_frame s' f'.
Proof.
  assert (Hnot : ∀ d o s0 s1 fs0, notify d o s0 = (s1, fs0) → f' ∈ fs0 → ext_frame s1 f').
  { intros d o s0 s1 fs0 Hn Hf. apply notify_same in Hn as (_ & _ & _ & Hn). by destruct (Hn f' Hf) as [o' ->]. }
  intros Hs Hf. destruct Hs as [v o Hsub|v o Hsub|v o s' fs Hgo|v|v|v|v o|v o head done cur s' fs Hne Hn|v o head done Hh
    |v o head done|v|v l| |e d p|e d p head s' fs Hse Hn|e d p head Hse|e d p head Hh|e d p head];
    try (by apply not_elem_of_nil in Hf); try (by apply list_elem_of_singleton in Hf as ->).
  - apply go_same in Hgo as (_ & _ & _ & He). by apply He.
  - case_match; [by apply list_elem_of_singleton in Hf as ->|by apply not_elem_of_nil in Hf].
  - apply elem_of_app in Hf as [Hf|Hf]; [by eapply Hnot|by apply list_elem_of_singleton in Hf as ->].
  - apply elem_of_cons in Hf as [->|Hf]; [done|by apply list_elem_of_singleton in Hf as ->].
  - by eapply Hnot.
Qed.

Lemma tok_move ts i f k fs v :
  ts !! i = Some (f :: k) →
  occ v (toks f) + occ v (gather stoks (<[i := fs ++ k]> ts)) = occ v (stoks fs) + occ v (gather stoks ts).
Proof.
  intros Ht. pose proof (gather_top toks ts i f k fs Ht) as Hg.
  apply (occ_perm v) in Hg. rewrite !occ_app in Hg. exact Hg.
Qed.

Lemma armed_bit b : (0 ≤ b < 4) →
  Z.testbit (Z.lor b EXT_ARMED) 0 = true ∧ (0 ≤ Z.lor b EXT_ARMED < 4) ∧
  Z.testbit (Z.lor b EXT_SIGNALLED) 0 = Z.testbit b 0 ∧ (0 ≤ Z.lor b EXT_SIGNALLED < 4).
Proof. intros Hb. destruct (ext_bits_cases b Hb) as [-> |[-> |[-> | ->]]]; vm_compute; intuition congruence. Qed.

Lemma tok_submitted s v :
  tinv s → 0 < occ v (gather stoks (stacks s)) → n_submitted (nd (sh s) v) = true.
Proof.
  intros Ht Hp. pose proof (ti_tok _ Ht v) as H. unfold tok_shared in H.
  pose proof (occ_nonneg v (h_queue (sh s))). pose proof (occ_nonneg v (h_retired (sh s))).
  destruct (n_submitted _); [done|]. destruct (ext_wait _ _); simpl in H; lia.
Qed.

(** The frame that arms [v] is the only one before the armed bit. *)
Lemma arm_pre s i v k fs :
  tinv s → stacks s !! i = Some (FExt v :: k) → fs = [] ∨ fs = [FFinish v Completed] →
  v ∉ gather spre (<[i := fs ++ k]> (stacks s)).
Proof.
  intros Ht Hk Hfs Hin. apply occ_pos in Hin. pose proof (tok_bound _ v Ht) as Hone.
  pose proof (tok_move (stacks s) i (FExt v) k fs v Hk) as Hmv.
  rewrite (stoks_split (<[i := _]> _)), occ_app in Hmv. simpl toks in Hmv.
  rewrite occ_cons, decide_True in Hmv by done. change (occ v []) with 0 in Hmv.
  pose proof (occ_nonneg v (gather (λ k, mjoin (post <$> k)) (<[i := fs ++ k]> (stacks s)))).
  destruct Hfs as [-> | ->]; [change (occ v (stoks [])) with 0 in Hmv; lia|].
  assert (0 < occ v (gather (λ k, mjoin (post <$> k)) (<[i := [FFinish v Completed] ++ k]> (stacks s)))).
  { apply occ_pos, elem_of_gather. exists i, (FFinish v Completed :: k). rewrite lookup_insert_eq. split; [done|].
    rewrite join_fmap_cons. set_solver. }
  replace (occ v (stoks [FFinish v Completed])) with 1 in Hmv; [lia|].
  unfold stoks. simpl. rewrite occ_cons, decide_True by done. done.
Qed.

Lemma tinv_frame s i f k s' fs :
  tinv s → stacks s !! i = Some (f :: k) → frame_step (sh s) f s' fs →
  tinv (mkRun s' (<[i := fs ++ k]> (stacks s))).
Proof.
  intros Ht Hk Hs.
  assert (Htop : ∀ v, v ∈ pre f → v ∈ gather spre (stacks s)).
  { intros v Hv. apply elem_of_gather. exists i, (f :: k). split; [done|]. unfold spre. rewrite join_fmap_cons. set_solver. }
  assert (Hef : ext_frame (sh s) f) by (eapply (ti_ext _ Ht); [done|set_solver]).
  assert (Hbits : ∀ v, f = FExt v → (0 ≤ extBits (nd (sh s) v) < 4) ∧ Z.testbit (extBits (nd (sh s) v)) 0 = false).
  { intros v ->. split; [apply Ht|]. destruct (Z.testbit _ 0) eqn:E; [|done]. exfalso.
    apply (ti_armed _ Ht) in E as [_ Hn]. apply Hn, Htop. set_solver. }
  pose proof (frame_tok _ _ _ _ Hs Hef Hbits) as Htok.
  assert (Hnew : ∀ v, occ v (gather stoks (<[i := fs ++ k]> (stacks s))) + tok_shared s' v = 0).
  { intros v. specialize (Htok v). pose proof (tok_move (stacks s) i f k fs v Hk). pose proof (ti_tok _ Ht v). lia. }
  constructor; simpl; [done|..].
  - intros v. destruct (frame_node _ _ _ _ v Hs) as (_ & _ & _ & [-> |[-> ->]]); [apply Ht|]. by apply armed_bit, Ht.
  - intros v Hv. destruct (frame_node _ _ _ _ v Hs) as (_ & _ & Hsub & Hx).
    destruct Hx as [Hx|[-> Hx]].
    + rewrite Hx in Hv. apply (ti_armed _ Ht) in Hv as [Hsb Hn]. split; [by apply Hsub|]. intros Hin. apply Hn.
      pose proof (gather_top pre (stacks s) i f k fs Hk) as Hg.
      assert (Hin' : v ∈ mjoin (pre <$> fs) ++ gather spre (stacks s)) by (unfold spre in *; rewrite <- Hg; set_solver).
      apply elem_of_app in Hin' as [Hin'|?]; [|done].
      destruct (frame_pre _ _ _ _ v Hs Hin') as [?|?]; [by apply Htop|congruence].
    + split; [by apply Hsub, (tok_submitted s v Ht), occ_pos; rewrite stoks_split; specialize (Htop v); set_solver|].
      apply (arm_pre s i v k fs Ht Hk). inversion Hs. case_match; auto.
  - intros j k' f' Hj Hf'.
    assert (Hold : ∀ j k0, stacks s !! j = Some k0 → f' ∈ k0 → ext_frame s' f').
    { intros j0 k0 Hj0 Hf0. pose proof (ti_ext _ Ht _ _ _ Hj0 Hf0) as He. destruct f'; simpl in *; try done.
      by destruct (frame_node _ _ _ _ v Hs) as (-> & _). }
    apply lookup_insert_Some in Hj as [[<- <-]|[_ Hj]]; [|by eapply Hold].
    apply elem_of_app in Hf' as [Hf'|Hf']; [by eapply frame_ext|]. eapply Hold; [exact Hk|set_solver].
Qed.

(** A call from outside: the frames it leaves and what it does to the tokens. *)
Lemma idle_tok dyn s s' fs w :
  idle_step dyn s s' fs → (∀ v, 0 ≤ extBits (nd s v) < 4) →
  occ w (stoks fs) + tok_shared s' w = tok_shared s w ∧ spre fs = [] ∧ (∀ f, f ∈ fs → ext_frame s' f) ∧
  isExternal (nd s' w) = isExternal (nd s w) ∧ gateType (nd s' w) = gateType (nd s w) ∧
  n_submitted (nd s' w) = n_submitted (nd s w) ∧
  (extBits (nd s' w) = extBits (nd s w) ∨ extBits (nd s' w) = Z.lor (extBits (nd s w)) EXT_SIGNALLED).
Proof.
  intros Hs Hr. destruct Hs as [v q1 q2 Hq|v q1 q2 Hq|v Hv Hx|e d p Hd He Hal Hf Hdn Hpn|].
  - split; [|by split_and!; auto; intros f ->%list_elem_of_singleton].
    unfold tok_shared, ext_wait, nd. simpl. rewrite Hq, !occ_app, !occ_cons. change (stoks _) with [v].
    rewrite occ_cons. change (occ w []) with 0. lia.
  - split; [|by split_and!; auto; intros f ->%list_elem_of_singleton].
    unfold tok_shared, ext_wait, nd. simpl. rewrite Hq, !occ_app, !occ_cons. change (stoks _) with [v].
    rewrite occ_cons. change (occ w []) with 0. lia.
  - split; [by apply ext_signal|]. rewrite nd_set. split_and!.
    + by repeat case_match.
    + intros f Hf. repeat case_match; try (by apply not_elem_of_nil in Hf). by apply list_elem_of_singleton in Hf as ->.
    + case_decide; by subst.
    + case_decide; by subst.
    + case_decide; by subst.
    + case_decide; subst; simpl; by auto.
  - set (s' := mkSh _ _ _ _ _ _ _ _ _ _ _ _).
    assert (Hnd : nd s' w = nd (set_nd d (set_left (dependencies_left (nd s d) + 1) (nd s d)) s) w) by done.
    assert (Hsame : tok_same s s').
    { split_and!; try done. intros x.
      change (nd s' x) with (nd (set_nd d (set_left (dependencies_left (nd s d) + 1) (nd s d)) s) x).
      rewrite nd_set. case_decide; by subst. }
    rewrite (tok_same_eq _ _ _ Hsame), Hnd, nd_set.
    split_and!; [done|done|by intros f ->%list_elem_of_singleton|case_decide; subst; by auto..].
  - split_and!; auto. by intros f ?%not_elem_of_nil.
Qed.

(** A thread that was idle. *)
Lemma gather_idle_stack (g : frame → list Z) ts i fs :
  ts !! i = Some [] → gather (λ k, mjoin (g <$> k)) (<[i := fs]> ts) ≡ₚ mjoin (g <$> fs) ++ gather (λ k, mjoin (g <$> k)) ts.
Proof. intros Ht. pose proof (gather_change (λ k, mjoin (g <$> k)) ts i [] fs Ht) as Hg. exact Hg. Qed.

Lemma tinv_idle dyn s i s' fs :
  tinv s → stacks s !! i = Some [] → idle_step dyn (sh s) s' fs → tinv (mkRun s' (<[i := fs]> (stacks s))).
Proof.
  intros Ht Hk Hs. pose proof (λ w, idle_tok dyn _ _ _ w Hs (ti_bits _ Ht)) as Hi. constructor; simpl.
  - intros v. destruct (Hi v) as [H _]. pose proof (gather_idle_stack toks _ _ fs Hk) as Hg.
    apply (occ_perm v) in Hg. rewrite occ_app in Hg. pose proof (ti_tok _ Ht v). unfold stoks in *. lia.
  - intros v. destruct (Hi v) as (_ & _ & _ & _ & _ & _ & [-> | ->]); [apply Ht|by apply armed_bit, Ht].
  - intros v Hv. destruct (Hi v) as (_ & Hp & _ & _ & _ & -> & Hx).
    assert (Hv' : Z.testbit (extBits (nd (sh s) v)) 0 = true).
    { destruct Hx as [Hx|Hx]; rewrite Hx in Hv; [done|]. by destruct (armed_bit _ (ti_bits _ Ht v)) as (_ & _ & <- & _). }
    apply (ti_armed _ Ht) in Hv' as [? Hn]. split; [done|]. unfold spre in *. rewrite (gather_idle_stack pre _ _ fs Hk), Hp. done.
  - intros j k f Hj Hf. apply lookup_insert_Some in Hj as [[<- <-]|[_ Hj]]; [by apply (Hi 0)|].
    pose proof (ti_ext _ Ht _ _ _ Hj Hf) as He. destruct f; simpl in *; try done. by destruct (Hi v) as (_ & _ & _ & -> & _).
Qed.

Lemma tinv_init g s : dinit g s → tinv s.
Proof.
  intros (L & ts & src & roots & ng & Hw & _ & _ & Hts & ->).
  assert (Hnd : ∀ v, n_submitted (default (new_TaskNode 0) (d_node g !! v)) = false ∧
    extBits (default (new_TaskNode 0) (d_node g !! v)) = 0).
  { intros v. destruct (d_node g !! v) as [n|] eqn:E; [|done]. by apply (dw_new _ _ Hw) in E as (_ & ? & ?). }
  assert (Hno : ∀ (h : frame → list Z), h (FRoots roots) = [] →
    gather (λ k, mjoin (h <$> k)) (<[0%nat := [FRoots roots]]> ts) = []).
  { intros h Hh. apply elem_of_nil_inv. intros x (i & k & Hi & Hx)%elem_of_gather.
    apply lookup_insert_Some in Hi as [[<- <-]|[_ Hi]].
    - rewrite join_fmap_cons, Hh in Hx. by apply not_elem_of_nil in Hx.
    - rewrite (Hts _ _ Hi) in Hx. by apply not_elem_of_nil in Hx. }
  constructor; simpl.
  - intros v. unfold stoks. rewrite (Hno toks) by done. unfold tok_shared, ext_wait, nd. simpl.
    destruct (Hnd v) as [-> ->]. rewrite andb_false_r. done.
  - intros v. unfold nd. simpl. destruct (Hnd v) as [_ ->]. lia.
  - intros v. unfold nd. simpl. destruct (Hnd v) as [_ ->]. done.
  - intros i k f Hi Hf. apply lookup_insert_Some in Hi as [[<- <-]|[_ Hi]]; [by apply list_elem_of_singleton in Hf as ->|].
    rewrite (Hts _ _ Hi) in Hf. by apply not_elem_of_nil in Hf.
Qed.

Lemma reachable_tinv dyn g s : reachable (dinit g) (dstep dyn) s → tinv s.
Proof.
  revert s. apply reachable_ind; [apply tinv_init|]. intros s s' Ht [i f k s1 fs Hk Hs|i s1 fs Hk Hs|v Hv Hf Hall].
  - by eapply tinv_frame.
  - by eapply tinv_idle.
  - by destruct Ht.
Qed.

(** ** Finished nodes *)

Definition late (f : frame) : list Z := match f with FWalk v _ _ _ _ | FRetire v => [v] | _ => [] end.
Definition slate (k : list frame) : list Z := mjoin (late <$> k).

Definition finv (s : drun) : Prop :=
  (h_finished (sh s)).*1 ≡ₚ gather slate (stacks s) ++ h_retired (sh s).

Lemma frame_fin s f s' fs :
  frame_step s f s' fs →
  (h_finished s').*1 ++ late f ++ h_retired s ≡ₚ (h_finished s).*1 ++ slate fs ++ h_retired s'.
Proof.
  assert (Hnot : ∀ d o s0 s1 fs0, notify d o s0 = (s1, fs0) →
    slate fs0 = [] ∧ h_finished s1 = h_finished s0 ∧ h_retired s1 = h_retired s0).
  { intros d o s0 s1 fs0. unfold notify. repeat case_match; intros [= <- <-]; done. }
  intros Hs. destruct Hs as [v o Hsub|v o Hsub|v o s' fs Hgo|v|v|v|v o|v o head done cur s' fs Hne Hn|v o head done Hh
    |v o head done|v|v l| |e d p|e d p head s' fs Hse Hn|e d p head Hse|e d p head Hh|e d p head]; try reflexivity.
  - unfold fire_go in Hgo. repeat case_match; injection Hgo as <- <-; try reflexivity; unfold DisposeUnexecutedTask; case_match; reflexivity.
  - case_match; reflexivity.
  - unfold DisposeUnexecutedTask. case_match; reflexivity.
  - simpl. rewrite fmap_app. simpl. solve_Permutation.
  - destruct (Hnot _ _ _ _ _ Hn) as (Hf & -> & ->). unfold slate in *. rewrite join_fmap_app, Hf. reflexivity.
  - simpl. solve_Permutation.
  - destruct (Hnot _ _ _ _ _ Hn) as (-> & -> & ->). reflexivity.
Qed.

Lemma finv_frame s i f k s' fs :
  finv s → stacks s !! i = Some (f :: k) → frame_step (sh s) f s' fs → finv (mkRun s' (<[i := fs ++ k]> (stacks s))).
Proof.
  unfold finv. simpl. intros Hf Hk Hs. pose proof (frame_fin _ _ _ _ Hs) as H1.
  pose proof (gather_top late (stacks s) i f k fs Hk) as H2.
  apply (Permutation_app_inv_r (late f ++ h_retired (sh s))). rewrite H1, Hf. unfold slate in *.
  trans ((late f ++ gather (λ k, mjoin (late <$> k)) (<[i := fs ++ k]> (stacks s))) ++ h_retired s' ++ h_retired (sh s));
    [rewrite H2|]; solve_Permutation.
Qed.

Lemma finv_idle dyn s i s' fs :
  finv s → stacks s !! i = Some [] → idle_step dyn (sh s) s' fs → finv (mkRun s' (<[i := fs]> (stacks s))).
Proof.
  unfold finv. simpl. intros Hf Hk Hs. unfold slate in *. rewrite (gather_idle_stack late _ _ fs Hk).
  destruct Hs; simpl; rewrite Hf; repeat case_match; done.
Qed.

Lemma reachable_fin dyn g s : reachable (dinit g) (dstep dyn) s → finv s.
Proof.
  revert s. apply reachable_ind.
  - intros s (L & ts & src & roots & ng & Hw & _ & _ & Hts & ->). unfold finv. simpl. rewrite app_nil_r.
    symmetry. apply Permutation_nil_r, elem_of_nil_inv. intros x (i & k & Hi & Hx)%elem_of_gather.
    apply lookup_insert_Some in Hi as [[<- <-]|[_ Hi]]; [by apply not_elem_of_nil in Hx|].
    rewrite (Hts _ _ Hi) in Hx. by apply not_elem_of_nil in Hx.
  - intros s s' Ht [i f k s1 fs Hk Hs|i s1 fs Hk Hs|v Hv Hf Hall].
    + by eapply finv_frame.
    + by eapply finv_idle.
    + done.
Qed.

(** The tokens past [OnTaskFinished]'s first load, apart from the others. *)
Lemma slate_le v ts : occ v (gather slate ts) ≤ occ v (gather stoks ts).
Proof.
  assert (Hk : ∀ k, occ v (slate k) ≤ occ v (stoks k)).
  { induction k as [|f k IH]; [done|]. unfold slate, stoks in *. rewrite !join_fmap_cons, !occ_app.
    pose proof (occ_nonneg v (toks f)). destruct f; simpl late; simpl toks in *; change (occ v []) with 0 in *; lia. }
  unfold gather. induction ((map_to_list ts).*2) as [|k l IH]; [done|].
  rewrite !join_fmap_cons, !occ_app. pose proof (Hk k). lia.
Qed.

Lemma occ_NoDup (l : list Z) : (∀ v, occ v l ≤ 1) → NoDup l.
Proof.
  induction l as [|x l IH]; intros Ho; [constructor|]. apply NoDup_cons. split.
  - intros Hx%occ_pos. specialize (Ho x). rewrite occ_cons, decide_True in Ho by done. lia.
  - apply IH. intros v. specialize (Ho v). rewrite occ_cons in Ho. case_decide; lia.
Qed.

Lemma finished_once s : tinv s → finv s → NoDup (h_finished (sh s)).*1 ∧ NoDup (h_retired (sh s)).
Proof.
  intros Ht Hf. unfold finv in Hf.
  assert (Hn : NoDup (h_finished (sh s)).*1).
  { apply occ_NoDup. intros v. rewrite Hf, occ_app. pose proof (slate_le v (stacks s)).
    pose proof (ti_tok _ Ht v) as H1. unfold tok_shared in H1. pose proof (occ_nonneg v (h_queue (sh s))).
    destruct (ext_wait _ _), (n_submitted _); simpl in H1; lia. }
  split; [done|]. rewrite Hf in Hn. by apply NoDup_app in Hn as (_ & _ & ?).
Qed.

(** A frame about to finish [v]: [v] has not finished. *)
Lemma finish_fresh s i k v o :
  tinv s → finv s → stacks s !! i = Some (FFinish v o :: k) → v ∉ (h_finished (sh s)).*1.
Proof.
  intros Ht Hf Hk Hin. unfold finv in Hf. rewrite Hf in Hin. apply occ_pos in Hin. rewrite occ_app in Hin.
  pose proof (ti_tok _ Ht v) as H1. unfold tok_shared in H1. pose proof (occ_nonneg v (h_queue (sh s))).
  assert (H2 : occ v (gather slate (stacks s)) + 1 ≤ occ v (gather stoks (stacks s))).
  { pose proof (slate_le v (<[i := k]> (stacks s))).
    pose proof (tok_move (stacks s) i _ k [] v Hk) as Hm. simpl in Hm. rewrite occ_cons, decide_True in Hm by done.
    change (occ v []) with 0 in Hm. change (occ v (stoks [])) with 0 in Hm.
    pose proof (gather_top late (stacks s) i _ k [] Hk) as Hl. simpl in Hl. apply (occ_perm v) in Hl.
    unfold slate in *. lia. }
  destruct (ext_wait _ _), (n_submitted _); simpl in H1; lia.
Qed.

(** ** Every edge is delivered at most once *)

Definition adding (f : frame) : list Z :=
  match f with FAddLoad e _ _ | FAddTry e _ _ _ | FAddCas e _ _ _ => [e] | _ => [] end.
Definition sadding (k : list frame) : list Z := mjoin (adding <$> k).

Definition word_ok (w : Z) : Prop := w `mod` 4 = 0 ∨ ∃ p c, p `mod` 4 = 0 ∧ w = EdgeSeal p c.

Definition done_edges (s : shared) : list Z := (h_delivered s).*1.
Definition first (s : shared) (v : Z) : Z := firstEdge (nd s v).

(** Where a walk of [v] stands in the list [l] of its edges: [new] were pushed since the
    head was loaded, [walked] and [old] are delivered, [todo] is next. *)
Definition walk_at (s : shared) (l : list Z) (head done cur : Z) : Prop :=
  ∃ new walked todo old, l = new ++ walked ++ todo ++ old ∧
    chain (h_next s) head (walked ++ todo ++ old) ∧ chain (h_next s) cur (todo ++ old) ∧ chain (h_next s) done old ∧
    ∀ e, e ∈ l → (e ∈ done_edges s ↔ e ∈ walked ++ old).

Definition frame_ok (s : shared) (L : Z → list Z) (f : frame) : Prop :=
  match f with
  | FWalk v o head done cur =>
      (v, o) ∈ h_finished s ∧ EdgeSealed (first s v) = false ∧ head `mod` 4 = 0 ∧ walk_at s (L v) head done cur
  | FAddLoad e d p => h_dep s !! e = Some d ∧ h_src s !! e = Some p
  | FAddTry e d p head => h_dep s !! e = Some d ∧ h_src s !! e = Some p ∧ word_ok head ∧
      (EdgeSealed head = true → (p, seal_outcome (EdgeCancelled head)) ∈ h_finished s)
  | FAddCas e d p head => h_dep s !! e = Some d ∧ h_src s !! e = Some p ∧ head `mod` 4 = 0 ∧
      next_of (h_next s) e = head
  | _ => True
  end.

(** [A]: the edges being added; [F]: the frames on the stacks. *)
Record sinv (s : shared) (A : list Z) (F : frame → Prop) (L : Z → list Z) : Prop := {
  si_chain v : chain (h_next s) (EdgePtr (first s v)) (L v);
  si_word v : word_ok (first s v);
  si_list v e : e ∈ L v → h_src s !! e = Some v ∧ is_Some (h_dep s !! e) ∧ e `mod` 4 = 0;
  si_adds : NoDup A;
  si_add e : e ∈ A → (e ∉ done_edges s) ∧ (∀ v, e ∉ L v) ∧ is_Some (h_dep s !! e) ∧ e ≠ 0 ∧ e `mod` 4 = 0;
  si_once : NoDup (done_edges s);
  si_from e o : (e, o) ∈ h_delivered s → is_Some (h_dep s !! e) ∧ ∃ p, h_src s !! e = Some p ∧ (p, o) ∈ h_finished s;
  si_sealed v : EdgeSealed (first s v) = true →
    (v, seal_outcome (EdgeCancelled (first s v))) ∈ h_finished s ∧ ∀ e, e ∈ L v → e ∈ done_edges s;
  si_open v : v ∉ (h_finished s).*1 → EdgeSealed (first s v) = false ∧ ∀ e, e ∈ L v → e ∉ done_edges s;
  si_frame f : F f → frame_ok s L f;
  si_all e : is_Some (h_dep s !! e) → e ∈ A ∨ (∃ v, e ∈ L v) ∨ e ∈ done_edges s }.

Lemma word_open w : word_ok w → EdgeSealed w = false → w `mod` 4 = 0 ∧ EdgePtr w = w.
Proof.
  intros [Hw|(p & c & Hp & ->)] Hs; [split; [done|by apply EdgePtr_aligned]|].
  destruct (EdgeSeal_read p c Hp) as (_ & H & _). congruence.
Qed.

Lemma chain_head_eq m h h' l : chain m h l → chain m h' l → h = h'.
Proof. unfold chain. destruct l as [|x l]; simpl; intros H H'; [congruence|]. by destruct H as [-> _], H' as [-> _]. Qed.

(** The parts of the state the edges are about. *)
Record same_edges (s s' : shared) : Prop := {
  se_dep : h_dep s' = h_dep s; se_src : h_src s' = h_src s; se_next : h_next s' = h_next s;
  se_del : h_delivered s' = h_delivered s; se_fin : h_finished s' = h_finished s;
  se_first v : first s' v = first s v }.

Lemma frame_ok_same s s' L f : same_edges s s' → frame_ok s L f → frame_ok s' L f.
Proof.
  intros [H1 H2 H3 H4 H5 H6]. destruct f; simpl; unfold walk_at, done_edges;
    rewrite ?H1, ?H2, ?H3, ?H4, ?H5, ?H6; done.
Qed.

Lemma sinv_same s s' A A' (F F' : frame → Prop) L :
  sinv s A F L → same_edges s s' → A' ≡ₚ A → (∀ f, F' f → F f ∨ frame_ok s' L f) → sinv s' A' F' L.
Proof.
  intros [S1 S2 S3 S4 S5 S6 S7 S8 S9 S10 S11] Hsame HA HF. pose proof Hsame as [H1 H2 H3 H4 H5 H6].
  assert (Hd : done_edges s' = done_edges s) by (unfold done_edges; by rewrite H4).
  constructor; rewrite ?H1, ?H2, ?H3, ?H4, ?H5, ?Hd; try done.
  - intros v. rewrite H6. apply S1.
  - intros v. rewrite H6. apply S2.
  - by rewrite HA.
  - intros e. rewrite HA. apply S5.
  - intros v. rewrite H6. apply S8.
  - intros v. rewrite H6. apply S9.
  - intros f Hf. destruct (HF f Hf) as [Hf'|Hok]; [|done]. by eapply frame_ok_same, S10.
  - intros e. rewrite HA. apply S11.
Qed.

Lemma frame_ok_fin s v o L f : frame_ok s L f → frame_ok (log_finished v o s) L f.
Proof.
  destruct f; simpl; try done.
  - intros (H1 & H2 & H3 & H4). split_and!; try done. set_solver.
  - intros (H1 & H2 & H3 & H4). split_and!; try done. set_solver.
Qed.

Lemma sinv_finish s A (F F' : frame → Prop) L v o :
  sinv s A F L → v ∉ (h_finished s).*1 →
  (∀ f, F' f → F f ∨ f = FWalk v o (first s v) 0 (EdgePtr (first s v))) →
  sinv (log_finished v o s) A F' L.
Proof.
  intros [S1 S2 S3 S4 S5 S6 S7 S8 S9 S10 S11] Hv HF. destruct (S9 v Hv) as [Hop Hnd].
  constructor; try done.
  - intros e o' He. destruct (S7 e o' He) as (Hd & p & Hp & Hf). split; [done|]. exists p. split; [done|]. simpl. set_solver.
  - intros w Hw. destruct (S8 w Hw) as [? ?]. split; [|done]. simpl. set_solver.
  - intros w. simpl. rewrite fmap_app, elem_of_app. intros Hw. apply S9. naive_solver.
  - intros f Hf. destruct (HF f Hf) as [Hf'| ->]; [by apply frame_ok_fin, S10|].
    destruct (word_open _ (S2 v) Hop) as [Hal Hpt]. simpl. split_and!; [set_solver|done|done|].
    exists [], [], (L v), []. simpl. rewrite app_nil_r. split_and!; try done.
    + rewrite <- Hpt at 1. apply S1.
    + intros e He. split; [intros ?; by apply Hnd in He|by intros ?%not_elem_of_nil].
Qed.

Lemma done_edges_log e o s x : x ∈ done_edges (log_delivered e o s) ↔ x ∈ done_edges s ∨ x = e.
Proof. unfold done_edges. simpl. rewrite fmap_app, elem_of_app. simpl. rewrite list_elem_of_singleton. done. Qed.

(** Delivering edge [e] of [p]. *)
Lemma sinv_deliver s A A' (F F' : frame → Prop) L e o p :
  sinv s A F L → e ∉ done_edges s → is_Some (h_dep s !! e) → h_src s !! e = Some p → (p, o) ∈ h_finished s →
  NoDup A' → (∀ x, x ∈ A' → x ∈ A ∧ x ≠ e) → (∀ x, x ∈ A → x ∈ A' ∨ x = e) →
  (∀ f, F' f → (F f ∧ ∀ w o' h d c, f = FWalk w o' h d c → e ∉ L w) ∨ frame_ok (log_delivered e o s) L f) →
  sinv (log_delivered e o s) A' F' L.
Proof.
  intros [S1 S2 S3 S4 S5 S6 S7 S8 S9 S10 S11] Hnew Hdep Hsrc Hfin HA HA1 HA2 HF. constructor; try done.
  - intros x Hx. destruct (HA1 x Hx) as [HxA Hne]. destruct (S5 x HxA) as (H1 & H2 & H3 & H4).
    split_and!; try done; try apply H4. rewrite done_edges_log. naive_solver.
  - unfold done_edges. simpl. rewrite fmap_app. apply NoDup_app. split_and!; [done| |apply NoDup_singleton].
    simpl. intros x Hx ->%list_elem_of_singleton. done.
  - intros x o'. simpl. rewrite elem_of_app, list_elem_of_singleton. intros [?|[= -> ->]]; [by apply S7|].
    split; [done|]. by exists p.
  - intros w Hw. destruct (S8 w Hw) as [H1 H2]. split; [done|]. intros x Hx. rewrite done_edges_log. left. by apply H2.
  - intros w Hw. destruct (S9 w Hw) as [H1 H2]. split; [done|]. intros x Hx. rewrite done_edges_log.
    intros [?| ->]; [by apply (H2 x)|]. apply S3 in Hx as (Hx & _). apply Hw. apply list_elem_of_fmap.
    exists (p, o). split; [simpl; congruence|done].
  - intros f Hf. destruct (HF f Hf) as [[Hf' Hw]|?]; [|done]. apply S10 in Hf'. destruct f; simpl in *; try done.
    destruct Hf' as (H1 & H2 & H3 & new & walked & todo & old & H4 & H5 & H6 & H7 & H8). split_and!; try done.
    exists new, walked, todo, old. split_and!; try done. intros x Hx. rewrite done_edges_log.
    rewrite (H8 x Hx). specialize (Hw v o0 head done cur eq_refl). naive_solver.
  - intros x Hx. simpl in Hx. rewrite done_edges_log. destruct (S11 x Hx) as [H|[H|H]]; [|by auto..].
    destruct (HA2 x H); by auto.
Qed.

(** The next edge of a walk exists, is not delivered, and belongs to the node walked. *)
Lemma walk_next s L v o head done cur A (F : frame → Prop) :
  sinv s A F L → F (FWalk v o head done cur) → cur ≠ done →
  cur ∈ L v ∧ (cur ∉ done_edges s) ∧ walk_at (log_delivered cur o s) (L v) head done (next_of (h_next s) cur).
Proof.
  intros Hs Hf Hne. pose proof (si_frame _ _ _ _ Hs _ Hf) as (H1 & H2 & H3 & new & walked & todo & old & H4 & H5 & H6 & H7 & H8).
  destruct todo as [|x todo]; [by destruct Hne; eapply chain_head_eq|].
  pose proof H6 as (-> & Hx0 & H6'). assert (Hin : x ∈ L v) by (rewrite H4; set_solver).
  assert (Hnd : NoDup (L v)) by (eapply chain_NoDup, (si_chain _ _ _ _ Hs)).
  assert (Hnx : x ∉ walked ++ old).
  { rewrite H4 in Hnd. apply NoDup_app in Hnd as (_ & _ & Hnd). simpl in Hnd. rewrite <- Permutation_middle in Hnd.
    apply NoDup_cons in Hnd as [Hnd _]. set_solver. }
  split_and!; [done|by rewrite H8|]. exists new, (walked ++ [x]), todo, old. split_and!.
  - by rewrite H4, <- !app_assoc.
  - by rewrite <- !app_assoc.
  - done.
  - done.
  - intros e He. rewrite done_edges_log, (H8 e He). rewrite !elem_of_app, list_elem_of_singleton. naive_solver.
Qed.

Lemma first_set v n s w : first (set_nd v n s) w = if decide (v = w) then firstEdge n else first s w.
Proof. unfold first. rewrite nd_set. by case_decide. Qed.

(** A walk that has reached its end mark: everything from its head on is delivered. *)
Lemma walk_end s l head done :
  walk_at s l head done done →
  ∃ new old, l = new ++ old ∧ chain (h_next s) head old ∧ ∀ e, e ∈ l → (e ∈ done_edges s ↔ e ∈ old).
Proof.
  intros (new & walked & todo & old & H1 & H2 & H3 & H4 & H5).
  pose proof (chain_det _ _ _ _ H3 H4) as Ht. assert (todo = []) as ->.
  { apply (f_equal length) in Ht. rewrite length_app in Ht. destruct todo; [done|simpl in Ht; lia]. }
  exists new, (walked ++ old). by simpl in *.
Qed.

Lemma sinv_seal s A (F F' : frame → Prop) L v o head done :
  sinv s A F L → F (FWalk v o head done done) → first s v = head →
  (∀ f, F' f → f = FRetire v ∨ (F f ∧ ∀ o' h d c, f ≠ FWalk v o' h d c)) →
  sinv (set_nd v (set_firstEdge (EdgeSeal (EdgePtr head) (is_cancelled o)) (nd s v)) s) A F' L.
Proof.
  intros Hs Hf Hh HF. pose proof Hs as [S1 S2 S3 S4 S5 S6 S7 S8 S9 S10 S11].
  destruct (S10 _ Hf) as (Hfin & Hop & Hal & Hw). rewrite EdgePtr_aligned by done.
  destruct (EdgeSeal_read head (is_cancelled o) Hal) as (He1 & He2 & He3).
  destruct (walk_end _ _ _ _ Hw) as (new & old & HL & Hc & Hd).
  assert (Hold : L v = old).
  { pose proof (S1 v) as Hc'. rewrite Hh, EdgePtr_aligned in Hc' by done. by eapply chain_det. }
  assert (Ho : seal_outcome (is_cancelled o) = o) by by destruct o.
  constructor; try done.
  - intros w. rewrite first_set. case_decide as E; [|apply S1]. subst w. simpl. rewrite He1. by rewrite Hold.
  - intros w. rewrite first_set. case_decide; [|apply S2]. right. by exists head, (is_cancelled o).
  - intros w. rewrite first_set. case_decide as E; [|apply S8]. subst w. intros _. simpl. rewrite He3, Ho. split; [done|].
    intros e He. rewrite Hold in He. apply Hd; [by rewrite Hold|done].
  - intros w Hw'. rewrite first_set. case_decide as E; [|by apply S9]. subst w. destruct Hw'. apply list_elem_of_fmap.
    by exists (v, o).
  - intros f Hf'. destruct (HF f Hf') as [-> |[Hf2 Hne]]; [done|]. apply S10 in Hf2. destruct f; simpl in *; try done.
    rewrite first_set. rewrite decide_False; [done|]. intros ->. by eapply Hne.
Qed.

(** The exchange of the seal failed: the walk goes on with what was pushed meanwhile. *)
Lemma again_ok s A (F : frame → Prop) L v o head done :
  sinv s A F L → F (FWalk v o head done done) →
  frame_ok s L (FWalk v o (first s v) (EdgePtr head) (EdgePtr (first s v))).
Proof.
  intros Hs Hf. pose proof (si_frame _ _ _ _ Hs _ Hf) as (Hfin & Hop & Hal & Hw).
  destruct (walk_end _ _ _ _ Hw) as (new & old & HL & Hc & Hd).
  destruct (word_open _ (si_word _ _ _ _ Hs v) Hop) as [Hal' Hp]. simpl. split_and!; try done.
  exists [], [], new, old. simpl. rewrite Hp, EdgePtr_aligned by done. rewrite <- HL. split_and!; try done.
  - rewrite <- Hp. apply (si_chain _ _ _ _ Hs).
  - rewrite <- Hp. apply (si_chain _ _ _ _ Hs).
Qed.

(** Writing the link of an edge not yet on a list. *)
Lemma sinv_link s A (F F' : frame → Prop) L e w :
  sinv s A F L → e ∈ A →
  (∀ f, F' f → (F f ∧ e ∉ adding f) ∨ frame_ok (set_next e w s) L f) →
  sinv (set_next e w s) A F' L.
Proof.
  intros [S1 S2 S3 S4 S5 S6 S7 S8 S9 S10 S11] He HF. destruct (S5 e He) as (_ & HeL & _).
  constructor; try done.
  - intros v. apply lseg_insert; [apply HeL|apply S1].
  - intros f Hf. destruct (HF f Hf) as [[Hf' Hne]|?]; [|done]. apply S10 in Hf'. destruct f; simpl in *; try done.
    + destruct Hf' as (H1 & H2 & H3 & new & walked & todo & old & H4 & H5 & H6 & H7 & H8). split_and!; try done.
      specialize (HeL v). rewrite H4 in HeL. exists new, walked, todo, old.
      split_and!; try done; apply lseg_insert; [set_solver|done|set_solver|done|set_solver|done].
    + destruct Hf' as (H1 & H2 & H3 & H4). split_and!; try done. rewrite next_of_insert, decide_False; [done|set_solver].
Qed.

(** Publishing an edge. *)
Lemma sinv_cas s A A' (F F' : frame → Prop) L e d p head :
  sinv s A F L → F (FAddCas e d p head) → first s p = head → A ≡ₚ e :: A' →
  (∀ f, F' f → F f) →
  sinv (set_nd p (set_firstEdge e (nd s p)) s) A' F' (λ v, if decide (v = p) then e :: L v else L v).
Proof.
  intros Hs Hf Hh HA HF. pose proof Hs as [S1 S2 S3 S4 S5 S6 S7 S8 S9 S10 S11].
  destruct (S10 _ Hf) as (Hdep & Hsrc & Hal & Hnx). destruct (S5 e) as (HeD & HeL & _ & He0 & Hea); [rewrite HA; set_solver|].
  assert (HeA : e ∉ A') by (rewrite HA in S4; by apply NoDup_cons in S4 as [? _]).
  assert (Hop : EdgeSealed (first s p) = false) by (rewrite Hh; by apply EdgeSealed_aligned).
  set (L' := λ v, if decide (v = p) then e :: L v else L v).
  assert (HL' : ∀ v x, x ∈ L' v ↔ x ∈ L v ∨ (v = p ∧ x = e)).
  { intros v x. unfold L'. case_decide; [subst; rewrite elem_of_cons|]; naive_solver. }
  constructor; try done.
  - intros v. rewrite first_set. unfold L'. destruct (decide (p = v)) as [->|Hne].
    + rewrite decide_True by done. simpl. rewrite EdgePtr_aligned by done. split_and!; [done|done|].
      rewrite Hnx, <- Hh. rewrite <- (EdgePtr_aligned (first s v)) at 1 by (rewrite Hh; done). apply S1.
    + rewrite decide_False by congruence. apply S1.
  - intros v. rewrite first_set. case_decide; [by left|apply S2].
  - intros v x. rewrite HL'. intros [?|[-> ->]]; [by apply S3|]. simpl. rewrite Hdep. split_and!; done || by eexists.
  - rewrite HA in S4. by apply NoDup_cons in S4 as [_ ?].
  - intros x Hx. destruct (S5 x) as (H1 & H2 & H3 & H4); [rewrite HA; set_solver|]. split_and!; try done; try apply H4.
    intros v. rewrite HL'. intros [?|[-> ->]]; [by apply (H2 v)|done].
  - intros v. rewrite first_set. case_decide as E; [simpl; by rewrite EdgeSealed_aligned|]. intros Hv.
    destruct (S8 v Hv) as [? H]. split; [done|]. intros x. rewrite HL'. intros [?|[-> _]]; [by apply H|done].
  - intros v Hv. rewrite first_set. destruct (S9 v Hv) as [H1 H2]. split; [case_decide; [by apply EdgeSealed_aligned|done]|].
    intros x. rewrite HL'. intros [?|[-> ->]]; [by apply H2|done].
  - intros f Hf'. apply HF, S10 in Hf'. destruct f; simpl in *; try done.
    destruct Hf' as (H1 & H2 & H3 & new & walked & todo & old & H4 & H5 & H6 & H7 & H8). rewrite first_set.
    split_and!; try done; [case_decide; [by apply EdgeSealed_aligned|done]|].
    unfold L'. destruct (decide (v = p)) as [->|Hne]; [|by exists new, walked, todo, old].
    exists (e :: new), walked, todo, old. split_and!; try done; [by rewrite H4|].
    intros x. rewrite elem_of_cons. intros [->|Hx]; [|by apply H8]. split; [done|]. intros Hx. destruct (HeL p).
    rewrite H4. set_solver.
  - intros x Hx. destruct (S11 x Hx) as [H|[[v H]|H]]; [|right; left; exists v; rewrite HL'; by left|by auto].
    rewrite HA in H. apply elem_of_cons in H as [-> |?]; [|by left]. right. left. exists p. rewrite HL'. by right.
Qed.

(** A new edge, for [AddDependency]. *)
Lemma sinv_new s s' A (F F' : frame → Prop) L e d p :
  sinv s A F L → e ≠ 0 → e `mod` 4 = 0 → h_dep s !! e = None →
  h_dep s' = <[e := d]> (h_dep s) → h_src s' = <[e := p]> (h_src s) → h_next s' = <[e := 0]> (h_next s) →
  h_delivered s' = h_delivered s → h_finished s' = h_finished s → (∀ v, first s' v = first s v) →
  (∀ f, F' f → F f ∨ f = FAddLoad e d p) →
  sinv s' (e :: A) F' L.
Proof.
  intros [S1 S2 S3 S4 S5 S6 S7 S8 S9 S10 S11] He0 Hea Hfr Hdep Hsrc Hnext Hdel Hfin Hfirst HF.
  assert (HeL : ∀ v, e ∉ L v) by (intros v (_ & [? H] & _)%S3; congruence).
  assert (HeD : e ∉ done_edges s).
  { intros ([x o] & -> & Hx)%list_elem_of_fmap. apply S7 in Hx as [[? H] _]. simpl in *. congruence. }
  assert (HeA : e ∉ A) by (intros (_ & _ & [? H] & _)%S5; congruence).
  assert (Hd : ∀ x, is_Some (h_dep s !! x) → h_dep s' !! x = h_dep s !! x ∧ h_src s' !! x = h_src s !! x).
  { intros x [y Hx]. rewrite Hdep, Hsrc, !lookup_insert_ne; [done|..]; congruence. }
  assert (Hdone : done_edges s' = done_edges s) by (unfold done_edges; by rewrite Hdel).
  constructor; rewrite ?Hdel, ?Hfin, ?Hdone; try done.
  - intros v. rewrite Hfirst, Hnext. apply lseg_insert; [apply HeL|apply S1].
  - intros v. rewrite Hfirst. apply S2.
  - intros v x Hx. destruct (S3 v x Hx) as (H1 & H2 & H3). destruct (Hd x H2) as [-> ->]. done.
  - by apply NoDup_cons.
  - intros x. rewrite elem_of_cons. intros [->|Hx].
    + split_and!; try done. rewrite Hdep, lookup_insert_eq. done.
    + destruct (S5 x Hx) as (H1 & H2 & H3 & H4). destruct (Hd x H3) as [-> _]. done.
  - intros x o Hx. destruct (S7 x o Hx) as (H1 & H2). destruct (Hd x H1) as [-> ->]. done.
  - intros v. rewrite Hfirst. apply S8.
  - intros v. rewrite Hfirst. apply S9.
  - intros f Hf. destruct (HF f Hf) as [Hf'| ->].
    2:{ simpl. by rewrite Hdep, Hsrc, !lookup_insert_eq. }
    apply S10 in Hf'. destruct f; simpl in *; try done.
    + destruct Hf' as (H1 & H2 & H3 & new & walked & todo & old & H4 & H5 & H6 & H7 & H8). rewrite Hfin, Hfirst.
      split_and!; try done. specialize (HeL v). rewrite H4 in HeL. exists new, walked, todo, old. rewrite Hnext, Hdone.
      split_and!; try done; apply lseg_insert; [set_solver|done|set_solver|done|set_solver|done].
    + destruct Hf' as [H1 H2]. destruct (Hd e0) as [-> ->]; [by eexists|done].
    + destruct Hf' as (H1 & H2 & H3). destruct (Hd e0) as [-> ->]; [by eexists|]. by rewrite Hfin.
    + destruct Hf' as (H1 & H2 & H3 & H4). destruct (Hd e0) as [-> ->]; [by eexists|]. split_and!; try done.
      rewrite Hnext, next_of_insert, decide_False; [done|]. intros ->. congruence.
  - intros x [y Hx]. rewrite elem_of_cons. rewrite Hdep in Hx. apply lookup_insert_Some in Hx as [[-> _]|[_ Hx]]; [by auto|].
    destruct (S11 x) as [?|[?|?]]; [by eexists|by auto..].
Qed.

Definition inF (ts : gmap nat (list frame)) (f : frame) : Prop := ∃ i k, ts !! i = Some k ∧ f ∈ k.

Lemma inF_top ts i k fs f' : inF (<[i := fs ++ k]> ts) f' → f' ∈ fs ∨ inF (<[i := k]> ts) f'.
Proof.
  intros (j & k' & Hj & Hf). apply lookup_insert_Some in Hj as [[<- <-]|[Hne Hj]].
  - apply elem_of_app in Hf as [?|?]; [by left|]. right. exists i, k. by rewrite lookup_insert_eq.
  - right. exists j, k'. by rewrite lookup_insert_ne.
Qed.

Lemma inF_rest ts i f k f' : ts !! i = Some (f :: k) → inF (<[i := k]> ts) f' → inF ts f'.
Proof.
  intros Ht (j & k' & Hj & Hf). apply lookup_insert_Some in Hj as [[<- <-]|[Hne Hj]].
  - exists i, (f :: k). set_solver.
  - by exists j, k'.
Qed.

Lemma inF_gather (g : frame → list Z) ts f x : inF ts f → x ∈ g f → x ∈ gather (λ k, mjoin (g <$> k)) ts.
Proof.
  intros (i & k & Hi & Hf) Hx. apply elem_of_gather. exists i, k. split; [done|].
  apply list_elem_of_join. exists (g f). split; [done|by apply list_elem_of_fmap_2].
Qed.

Lemma gather_pop (g : frame → list Z) ts i f k :
  ts !! i = Some (f :: k) → gather (λ k, mjoin (g <$> k)) ts ≡ₚ g f ++ gather (λ k, mjoin (g <$> k)) (<[i := k]> ts).
Proof. intros Ht. symmetry. apply (gather_top g ts i f k [] Ht). Qed.

(** The walk at the top of a stack is the only frame of its node. *)
Lemma walk_unique s i v o h d c k f :
  tinv s → stacks s !! i = Some (FWalk v o h d c :: k) → inF (<[i := k]> (stacks s)) f →
  ∀ o' h' d' c', f ≠ FWalk v o' h' d' c'.
Proof.
  intros Ht Hk Hf o' h' d' c' ->. pose proof (tok_bound _ v Ht) as Hb.
  unfold stoks in Hb. rewrite (gather_pop toks _ _ _ _ Hk), occ_app in Hb. simpl toks in Hb.
  rewrite occ_cons, decide_True in Hb by done. change (occ v []) with 0 in Hb.
  assert (0 < occ v (gather (λ k, mjoin (toks <$> k)) (<[i := k]> (stacks s)))); [|lia].
  apply occ_pos. eapply inF_gather; [done|]. set_solver.
Qed.

(** The edge a frame is adding is added by no other frame. *)
Lemma add_unique s L i f k f' e :
  sinv (sh s) (gather sadding (stacks s)) (inF (stacks s)) L → stacks s !! i = Some (f :: k) → e ∈ adding f →
  inF (<[i := k]> (stacks s)) f' → e ∉ adding f'.
Proof.
  intros Hs Hk He Hf He'. pose proof (si_adds _ _ _ _ Hs) as Hn. unfold sadding in Hn.
  rewrite (gather_pop adding _ _ _ _ Hk) in Hn. apply NoDup_app in Hn as (_ & Hn & _).
  apply (Hn e He). by eapply inF_gather.
Qed.

Lemma notify_edges d o s s' fs : notify d o s = (s', fs) → same_edges s s'.
Proof.
  unfold notify. destruct o; [destruct (gateType _)|]; intros [= <- <-]; constructor; try done.
  intros v. rewrite first_set. case_decide; [by subst|done].
Qed.

Lemma dispose_edges v s : same_edges s (DisposeUnexecutedTask v s).
Proof.
  constructor; try (unfold DisposeUnexecutedTask; by case_match). intros w. unfold first.
  destruct (nd_dispose v s w) as [-> | ->]; [by case_decide|done].
Qed.

Lemma go_edges v o s s' fs :
  fire_go v o s = (s', fs) → same_edges s s' ∧ sadding fs = [] ∧ ∀ L f, f ∈ fs → frame_ok s' L f.
Proof.
  assert (Hl : ∀ o', same_edges s (log_started v o' s)) by done.
  assert (H1 : ∀ f0, adding f0 = [] → (∀ s0 L, frame_ok s0 L f0) → sadding [f0] = [] ∧
    ∀ s0 L f, f ∈ [f0] → frame_ok s0 L f).
  { intros f0 Ha Hok. split; [unfold sadding; simpl; by rewrite Ha|]. by intros s0 L f ->%list_elem_of_singleton. }
  unfold fire_go. intros H. repeat case_match; injection H as <- <-;
    (split; [|by split; [|intros L; apply H1]]); try apply Hl;
    (pose proof (dispose_edges v (log_started v OCancelled s)) as [E1 E2 E3 E4 E5 E6]; by constructor).
Qed.

Lemma adding_same ts i f k fs :
  ts !! i = Some (f :: k) → sadding fs = adding f →
  gather sadding (<[i := fs ++ k]> ts) ≡ₚ gather sadding ts.
Proof.
  intros Hk Ha. pose proof (gather_top adding ts i f k fs Hk) as Hg. unfold sadding in *. rewrite Ha in Hg.
  by apply Permutation_app_inv_l in Hg.
Qed.

Lemma sadding_fire fs d : (∀ f, f ∈ fs → ∃ o, f = FFire d o) → sadding fs = [].
Proof.
  intros Hff. apply elem_of_nil_inv. intros x (l & Hxl & (f & -> & Hf)%list_elem_of_fmap)%list_elem_of_join.
  destruct (Hff f Hf) as [o ->]. by apply not_elem_of_nil in Hxl.
Qed.

Definition dinv (s : drun) : Prop := ∃ L, sinv (sh s) (gather sadding (stacks s)) (inF (stacks s)) L.

(** Steps that leave the edges alone. *)
Lemma dinv_same s i f k s' fs :
  dinv s → stacks s !! i = Some (f :: k) → same_edges (sh s) s' → sadding fs = adding f →
  (∀ L f', sinv (sh s) (gather sadding (stacks s)) (inF (stacks s)) L → f' ∈ fs → frame_ok s' L f') →
  dinv (mkRun s' (<[i := fs ++ k]> (stacks s))).
Proof.
  intros [L Hs] Hk Hsame Ha Hok. exists L. simpl. eapply sinv_same; [done|done|..].
  - by eapply adding_same.
  - intros f' Hf'. apply inF_top in Hf' as [?|?]; [right; by apply Hok|left]. by eapply inF_rest.
Qed.

Lemma dinv_walk s i v o head done cur k s' fs :
  tinv s → dinv s → stacks s !! i = Some (FWalk v o head done cur :: k) → cur ≠ done →
  notify (edge_dep (sh s) cur) o (log_delivered cur o (sh s)) = (s', fs) →
  dinv (mkRun s' (<[i := (fs ++ [FWalk v o head done (next_of (h_next (sh s)) cur)]) ++ k]> (stacks s))).
Proof.
  intros Ht [L Hs] Hk Hne Hn. set (W := FWalk v o head done (next_of (h_next (sh s)) cur)).
  assert (Hin : inF (stacks s) (FWalk v o head done cur)) by (exists i, (FWalk v o head done cur :: k); set_solver).
  destruct (walk_next _ _ _ _ _ _ _ _ _ Hs Hin Hne) as (HcL & HcD & Hw).
  pose proof (si_frame _ _ _ _ Hs _ Hin) as (Hfin & Hop & Hal & _).
  destruct (si_list _ _ _ _ Hs v cur HcL) as (Hsrc & Hdep & _).
  assert (HcA : cur ∉ gather sadding (stacks s)) by (intros (_ & H & _)%(si_add _ _ _ _ Hs); by apply (H v)).
  apply notify_edges in Hn as Hsame. exists L. simpl. apply notify_same in Hn as (_ & _ & _ & Hff).
  assert (HA : gather sadding (<[i := (fs ++ [W]) ++ k]> (stacks s)) ≡ₚ gather sadding (stacks s)).
  { eapply adding_same; [done|]. unfold sadding. rewrite join_fmap_app.
    change (mjoin (adding <$> fs)) with (sadding fs). by rewrite (sadding_fire _ _ Hff). }
  eapply (sinv_same (log_delivered cur o (sh s)) _ (gather sadding (stacks s)) _
    (λ f, f = W ∨ inF (<[i := k]> (stacks s)) f)); [|done|exact HA|].
  - eapply (sinv_deliver (sh s) (gather sadding (stacks s))); [done..|apply (si_adds _ _ _ _ Hs)| |by left|].
    + intros x Hx. split; [done|]. by intros ->.
    + intros f [->|Hf]; [right; by simpl; split_and!|]. left. split; [by eapply inF_rest|].
      intros w o' h d c -> HcW. pose proof (walk_unique _ _ _ _ _ _ _ _ _ Ht Hk Hf o' h d c) as Hu.
      apply (si_list _ _ _ _ Hs) in HcW as (Hsw & _). congruence.
  - intros f Hf. apply inF_top in Hf as [Hf|Hf]; [|by left; right]. apply elem_of_app in Hf as [Hf|Hf].
    + right. by destruct (Hff f Hf) as [o' ->].
    + apply list_elem_of_singleton in Hf as ->. by left; left.
Qed.

(** The dependency had finished: the adder delivers its own edge. *)
Lemma dinv_add_sealed s i e d p head k s' fs :
  dinv s → stacks s !! i = Some (FAddTry e d p head :: k) → EdgeSealed head = true →
  let o := seal_outcome (EdgeCancelled head) in
  notify d o (log_delivered e o (sh s)) = (s', fs) →
  dinv (mkRun s' (<[i := fs ++ k]> (stacks s))).
Proof.
  intros [L Hs] Hk Hse o Hn.
  assert (Hin : inF (stacks s) (FAddTry e d p head)) by (exists i, (FAddTry e d p head :: k); set_solver).
  pose proof (si_frame _ _ _ _ Hs _ Hin) as (Hdep & Hsrc & _ & Hfin). specialize (Hfin Hse).
  pose proof (gather_pop adding _ _ _ _ Hk) as Hpop. simpl in Hpop.
  pose proof (si_adds _ _ _ _ Hs) as Hnd. unfold sadding in Hnd. rewrite Hpop in Hnd. apply NoDup_cons in Hnd as [HeA' Hnd].
  destruct (si_add _ _ _ _ Hs e) as (HeD & HeL & _); [unfold sadding; rewrite Hpop; set_solver|].
  apply notify_edges in Hn as Hsame. apply notify_same in Hn as (_ & _ & _ & Hff).
  exists L. simpl.
  assert (HA : gather sadding (<[i := fs ++ k]> (stacks s)) ≡ₚ gather sadding (<[i := k]> (stacks s))).
  { pose proof (gather_top adding (stacks s) i _ k fs Hk) as Hg.
    change (mjoin (adding <$> fs)) with (sadding fs) in Hg. rewrite (sadding_fire _ _ Hff), Hpop in Hg.
    by apply (Permutation_app_inv_l [e]) in Hg. }
  eapply (sinv_same (log_delivered e o (sh s)) _ (gather sadding (<[i := k]> (stacks s))) _
    (inF (<[i := k]> (stacks s)))); [|done|exact HA|].
  - eapply (sinv_deliver (sh s) (gather sadding (stacks s))); [done|done|by eexists|done|done|done|..].
    + intros x Hx. unfold sadding. rewrite Hpop. split; [set_solver|]. by intros ->.
    + intros x. unfold sadding. rewrite Hpop, elem_of_cons. naive_solver.
    + intros f Hf. left. split; [by eapply inF_rest|]. intros w o' h d' c _. apply HeL.
  - intros f Hf. apply inF_top in Hf as [Hf|Hf]; [|by left]. right. by destruct (Hff f Hf) as [o' ->].
Qed.

Lemma dinv_add_link s i e d p head k :
  dinv s → stacks s !! i = Some (FAddTry e d p head :: k) → EdgeSealed head = false →
  dinv (mkRun (set_next e (EdgePtr head) (sh s)) (<[i := [FAddCas e d p head] ++ k]> (stacks s))).
Proof.
  intros [L Hs] Hk Hse.
  assert (Hin : inF (stacks s) (FAddTry e d p head)) by (exists i, (FAddTry e d p head :: k); set_solver).
  pose proof (si_frame _ _ _ _ Hs _ Hin) as (Hdep & Hsrc & Hw & _). destruct (word_open _ Hw Hse) as [Hal Hp].
  assert (Hea : e ∈ gather sadding (stacks s)) by (eapply inF_gather; [done|set_solver]).
  exists L. cbn [sh stacks]. eapply (sinv_same _ _ (gather sadding (stacks s)) _
    (λ f, f = FAddCas e d p head ∨ inF (<[i := k]> (stacks s)) f)).
  - apply (sinv_link (sh s) _ (inF (stacks s))); [done|done|]. intros f [->|Hf].
    + right. simpl. split_and!; try done. by rewrite next_of_eq.
    + left. split; [by eapply inF_rest|]. eapply add_unique; [done|exact Hk|set_solver|done].
  - done.
  - by eapply adding_same.
  - intros f Hf. left. apply inF_top in Hf as [Hf|Hf]; [|by right]. left. by apply list_elem_of_singleton in Hf.
Qed.

Lemma dinv_add_cas s i e d p head k :
  dinv s → stacks s !! i = Some (FAddCas e d p head :: k) → firstEdge (nd (sh s) p) = head →
  dinv (mkRun (set_nd p (set_firstEdge e (nd (sh s) p)) (sh s)) (<[i := [] ++ k]> (stacks s))).
Proof.
  intros [L Hs] Hk Hh. eexists. simpl.
  eapply (sinv_cas (sh s) (gather sadding (stacks s)) _ (inF (stacks s)) _ L e d p head); [done| |exact Hh|..].
  - exists i, (FAddCas e d p head :: k). set_solver.
  - apply (gather_pop adding _ _ _ _ Hk).
  - intros f Hf. by eapply inF_rest.
Qed.

Lemma dinv_finish s i v o k :
  tinv s → finv s → dinv s → stacks s !! i = Some (FFinish v o :: k) →
  dinv (mkRun (log_finished v o (sh s))
    (<[i := [FWalk v o (firstEdge (nd (sh s) v)) 0 (EdgePtr (firstEdge (nd (sh s) v)))] ++ k]> (stacks s))).
Proof.
  intros Ht Hf [L Hs] Hk. exists L. cbn [sh stacks]. eapply (sinv_same _ _ (gather sadding (stacks s)) _
    (λ f, f = FWalk v o (first (sh s) v) 0 (EdgePtr (first (sh s) v)) ∨ inF (<[i := k]> (stacks s)) f)).
  - eapply (sinv_finish (sh s) _ (inF (stacks s))); [done|by eapply finish_fresh|].
    intros f [?|?]; [by right|left; by eapply inF_rest].
  - done.
  - by eapply adding_same.
  - intros f Hf'. left. apply inF_top in Hf' as [Hf'|Hf']; [|by right]. left. by apply list_elem_of_singleton in Hf'.
Qed.

Lemma dinv_seal s i v o head done k :
  tinv s → dinv s → stacks s !! i = Some (FWalk v o head done done :: k) → firstEdge (nd (sh s) v) = head →
  dinv (mkRun (set_nd v (set_firstEdge (EdgeSeal (EdgePtr head) (is_cancelled o)) (nd (sh s) v)) (sh s))
    (<[i := [FRetire v] ++ k]> (stacks s))).
Proof.
  intros Ht [L Hs] Hk Hh. exists L. cbn [sh stacks]. eapply (sinv_same _ _ (gather sadding (stacks s)) _
    (λ f, f = FRetire v ∨ inF (<[i := k]> (stacks s)) f)).
  - eapply (sinv_seal (sh s) _ (inF (stacks s)) _ L v o head done); [done| |exact Hh|].
    + exists i, (FWalk v o head done done :: k). set_solver.
    + intros f [->|Hf]; [by left|]. right. split; [by eapply inF_rest|by eapply walk_unique].
  - done.
  - by eapply adding_same.
  - intros f Hf'. left. apply inF_top in Hf' as [Hf'|Hf']; [|by right]. left. by apply list_elem_of_singleton in Hf'.
Qed.

Lemma dinv_frame s i f k s' fs :
  tinv s → finv s → dinv s → stacks s !! i = Some (f :: k) → frame_step (sh s) f s' fs →
  dinv (mkRun s' (<[i := fs ++ k]> (stacks s))).
Proof.
  intros Ht Hf Hd Hk Hs.
  assert (Hin : inF (stacks s) f) by (exists i, (f :: k); set_solver).
  assert (Hone : ∀ (f0 : frame) s0, (∀ L, sinv (sh s) (gather sadding (stacks s)) (inF (stacks s)) L → frame_ok s0 L f0) →
    ∀ L f', sinv (sh s) (gather sadding (stacks s)) (inF (stacks s)) L → f' ∈ [f0] → frame_ok s0 L f').
  { intros f0 s0 H0 L f' HL ->%list_elem_of_singleton. by apply H0. }
  assert (Hnil : ∀ s0 L f', sinv (sh s) (gather sadding (stacks s)) (inF (stacks s)) L → f' ∈ [] → frame_ok s0 L f').
  { intros s0 L f' _ Hn. by apply not_elem_of_nil in Hn. }
  destruct Hs as [v o Hsub|v o Hsub|v o s' fs Hgo|v|v|v|v o|v o head done cur s' fs Hne Hn|v o head done Hh
    |v o head done|v|v l| |e d p|e d p head s' fs Hse Hn|e d p head Hse|e d p head Hh|e d p head].
  - eapply dinv_same; [done|exact Hk|done|done|apply Hnil].
  - eapply dinv_same; [done|exact Hk| |done|by apply Hone]. constructor; try done. intros w. rewrite first_set. case_decide; by subst.
  - apply go_edges in Hgo as (Hsame & Ha & Hok). eapply dinv_same; [done|exact Hk|done|done|]. intros L f' _. by apply Hok.
  - eapply dinv_same; [done|exact Hk| |by case_match|].
    + constructor; try done. intros w. rewrite first_set. case_decide; by subst.
    + case_match; [by apply Hone|apply Hnil].
  - eapply dinv_same; [done|exact Hk|done|done|apply Hnil].
  - eapply dinv_same; [done|exact Hk|apply dispose_edges|done|by apply Hone].
  - by apply dinv_finish.
  - by apply dinv_walk.
  - by eapply dinv_seal.
  - eapply dinv_same; [done|exact Hk|done|done|]. apply Hone. intros L HL. by eapply again_ok.
  - eapply dinv_same; [done|exact Hk|done|done|apply Hnil].
  - eapply dinv_same; [done|exact Hk|done|done|]. intros L f' _. rewrite elem_of_cons, list_elem_of_singleton. by intros [-> | ->].
  - eapply dinv_same; [done|exact Hk|done|done|apply Hnil].
  - eapply dinv_same; [done|exact Hk|done|done|]. apply Hone. intros L HL. destruct (si_frame _ _ _ _ HL _ Hin). simpl.
    split_and!; try done; [apply (si_word _ _ _ _ HL)|]. intros Hse. by apply (si_sealed _ _ _ _ HL).
  - by eapply dinv_add_sealed.
  - by apply dinv_add_link.
  - by eapply dinv_add_cas.
  - eapply dinv_same; [done|exact Hk|done|done|]. apply Hone. intros L HL. destruct (si_frame _ _ _ _ HL _ Hin) as (? & ? & _). simpl.
    split_and!; try done; [apply (si_word _ _ _ _ HL)|]. intros Hse. by apply (si_sealed _ _ _ _ HL).
Qed.

Lemma inF_idle ts i fs f : ts !! i = Some [] → inF (<[i := fs]> ts) f → f ∈ fs ∨ inF ts f.
Proof.
  intros Hk (j & k & Hj & Hf). apply lookup_insert_Some in Hj as [[<- <-]|[_ Hj]]; [by left|]. right. by exists j, k.
Qed.

Lemma dinv_idle dyn s i s' fs :
  dinv s → stacks s !! i = Some [] → idle_step dyn (sh s) s' fs → dinv (mkRun s' (<[i := fs]> (stacks s))).
Proof.
  intros [L Hs] Hk Hst. exists L. cbn [sh stacks].
  assert (Hsame : ∀ s0, same_edges (sh s) s0 → sadding fs = [] → (∀ f, f ∈ fs → frame_ok s0 L f) →
    sinv s0 (gather sadding (<[i := fs]> (stacks s))) (inF (<[i := fs]> (stacks s))) L).
  { intros s0 He Ha Hok. eapply sinv_same; [done|done|..].
    - unfold sadding in *. by rewrite (gather_idle_stack adding _ _ fs Hk), Ha.
    - intros f Hf. apply inF_idle in Hf as [?|?]; [right; by apply Hok|by left|done]. }
  destruct Hst as [v q1 q2 Hq|v q1 q2 Hq|v Hv Hx|e d p Hd He Hal Hfr Hdn Hpn|].
  - apply Hsame; [done|done|]. by intros f ->%list_elem_of_singleton.
  - apply Hsame; [done|done|]. by intros f ->%list_elem_of_singleton.
  - apply Hsame.
    + constructor; try done. intros w. rewrite first_set. case_decide; by subst.
    + by repeat case_match.
    + intros f Hf. repeat case_match; try (by apply not_elem_of_nil in Hf). by apply list_elem_of_singleton in Hf as ->.
  - match goal with |- sinv ?s1 _ _ _ => set (s' := s1) end.
    eapply (sinv_same s' s' (e :: gather sadding (stacks s)) _ (inF (<[i := [FAddLoad e d p]]> (stacks s)))).
    + eapply (sinv_new (sh s) _ _ (inF (stacks s)) _ L e d p); try done.
      * intros w. change (first s' w) with (first (set_nd d (set_left (dependencies_left (nd (sh s) d) + 1) (nd (sh s) d)) (sh s)) w).
        rewrite first_set. case_decide; by subst.
      * intros f Hf. apply inF_idle in Hf as [Hf|?]; [|by left|done]. right. by apply list_elem_of_singleton in Hf.
    + done.
    + unfold sadding. by rewrite (gather_idle_stack adding _ _ _ Hk).
    + by left.
  - apply Hsame; [done|done|]. by intros f ?%not_elem_of_nil.
Qed.

Lemma dinv_init g s : dinit g s → dinv s.
Proof.
  intros (L & ts & src & roots & ng & Hw & _ & Hsrc & Hts & ->).
  set (L' := λ v, if decide (v ∈ d_nodes g) then L v else []). exists L'. cbn [sh stacks].
  assert (Hfirst : ∀ v, v ∉ d_nodes g → firstEdge (default (new_TaskNode 0) (d_node g !! v)) = 0).
  { intros v Hv. destruct (d_node g !! v) as [n|] eqn:E; [|done]. by apply (dw_new _ _ Hw) in E as [? _]. }
  assert (Hal : ∀ v, firstEdge (default (new_TaskNode 0) (d_node g !! v)) `mod` 4 = 0).
  { intros v. destruct (decide (v ∈ d_nodes g)); [by apply (dw_align _ _ Hw)|by rewrite Hfirst]. }
  assert (Hno : gather sadding (<[0%nat := [FRoots roots]]> ts) = []).
  { apply elem_of_nil_inv. intros x (i & k & Hi & Hx)%elem_of_gather.
    apply lookup_insert_Some in Hi as [[<- <-]|[_ Hi]]; [by apply not_elem_of_nil in Hx|].
    rewrite (Hts _ _ Hi) in Hx. by apply not_elem_of_nil in Hx. }
  rewrite Hno. constructor; unfold first, nd, done_edges; simpl; try done.
  - intros v. rewrite EdgePtr_aligned by apply Hal. unfold L'. case_decide; [by apply (dw_chain _ _ Hw)|]. by rewrite Hfirst.
  - intros v. left. apply Hal.
  - intros v e. unfold L'. case_decide; [|by intros ?%not_elem_of_nil]. intros He.
    pose proof (in_all_edges _ _ _ _ H He) as Hall. destruct (dw_dep _ _ Hw e Hall) as [Hd _].
    destruct (dw_all _ _ Hw e Hd). split_and!; [by apply Hsrc|done|done].
  - constructor.
  - by intros e ?%not_elem_of_nil.
  - constructor.
  - by intros e o ?%not_elem_of_nil.
  - intros v. by rewrite EdgeSealed_aligned by apply Hal.
  - intros v _. rewrite EdgeSealed_aligned by apply Hal. split; [done|]. intros e _. apply not_elem_of_nil.
  - intros f (i & k & Hi & Hf). apply lookup_insert_Some in Hi as [[<- <-]|[_ Hi]];
      [by apply list_elem_of_singleton in Hf as ->|]. rewrite (Hts _ _ Hi) in Hf. by apply not_elem_of_nil in Hf.
  - intros e He. right. left. apply (dw_all _ _ Hw) in He as [He _].
    apply list_elem_of_join in He as (l & Hel & (v & -> & Hv)%list_elem_of_fmap). exists v. unfold L'. by rewrite decide_True.
Qed.

Lemma reachable_dinv dyn g s : reachable (dinit g) (dstep dyn) s → tinv s ∧ finv s ∧ dinv s.
Proof.
  revert s. apply reachable_ind.
  - intros s Hi. split_and!; [by eapply tinv_init| |by eapply dinv_init]. by eapply (reachable_fin true), reachable_init.
  - intros s s' (Ht & Hf & Hd) [i f k s1 fs Hk Hs|i s1 fs Hk Hs|v Hv Hf' Hall].
    + split_and!; [by eapply tinv_frame|by eapply finv_frame|by eapply dinv_frame].
    + split_and!; [by eapply tinv_idle|by eapply finv_idle|by eapply dinv_idle].
    + split_and!; [by destruct Ht|done|]. destruct Hd as [L Hd]. exists L. cbn [sh stacks].
      eapply sinv_same; [done|done|done|by left].
Qed.

(** C16: a graph runs each node and each edge once.  Whatever the interleaving of the
    threads that fire nodes, run or discard their tasks, signal external nodes, cancel the
    graph and add edges to it while it runs: no node finishes twice or is retired twice, no
    edge is delivered twice, an edge is only delivered after the node it leaves from has
    finished and with that node's outcome, and once a node's list is sealed every edge on it
    has been delivered. *)
Theorem dag_runs_once dyn g s :
  reachable (dinit g) (dstep dyn) s →
  NoDup (h_finished (sh s)).*1 ∧ NoDup (h_retired (sh s)) ∧ NoDup (h_delivered (sh s)).*1 ∧
  (∀ e o, (e, o) ∈ h_delivered (sh s) → ∃ p, h_src (sh s) !! e = Some p ∧ (p, o) ∈ h_finished (sh s)) ∧
  ∃ L, (∀ v, chain (h_next (sh s)) (EdgePtr (first (sh s) v)) (L v)) ∧
    ∀ v e, EdgeSealed (first (sh s) v) = true → e ∈ L v → e ∈ (h_delivered (sh s)).*1.
Proof.
  intros Hr. destruct (reachable_dinv _ _ _ Hr) as (Ht & Hf & L & Hd).
  destruct (finished_once _ Ht Hf) as [H1 H2]. split_and!; try done.
  - apply Hd.
  - intros e o He. by apply (si_from _ _ _ _ Hd) in He as [_ ?].
  - exists L. split; [apply Hd|]. intros v e Hv. by apply (si_sealed _ _ _ _ Hd).
Qed.

(** ** The counts of dependencies, and nothing left behind *)

Definition all_deps (s : shared) : list Z := (map_to_list (h_dep s)).*2.
Definition completed (s : shared) : list (Z * Outcome) := filter (λ eo, eo.2 = Completed) (h_delivered s).
Definition completed_deps (s : shared) : list Z := (λ eo, edge_dep s eo.1) <$> completed s.

Definition pending (ts : gmap nat (list frame)) (v : Z) : Prop := ∃ o, inF ts (FFire v o).

(** A delivered edge into [v] that lets it start. *)
Definition enabled (s : shared) (v : Z) : Prop :=
  ∃ e o, (e, o) ∈ h_delivered s ∧ edge_dep s e = v ∧
    (o = OCancelled ∨ gateType (nd s v) = OR ∨ dependencies_left (nd s v) = 0).

Record cinv (rs : list Z) (s : drun) : Prop := {
  ci_left v : gateType (nd (sh s) v) = AND →
    dependencies_left (nd (sh s) v) = occ v (all_deps (sh s)) - occ v (completed_deps (sh s));
  ci_fire v : enabled (sh s) v → n_submitted (nd (sh s) v) = true ∨ pending (stacks s) v;
  ci_roots v : v ∈ rs → n_submitted (nd (sh s) v) = true ∨ pending (stacks s) v ∨
    ∃ l, inF (stacks s) (FRoots l) ∧ v ∈ l }.

(** What the counts read, unchanged but for the submitted flags. *)
Record same_counts (s s' : shared) : Prop := {
  sc_dep : h_dep s' = h_dep s; sc_del : h_delivered s' = h_delivered s;
  sc_node v : gateType (nd s' v) = gateType (nd s v) ∧ dependencies_left (nd s' v) = dependencies_left (nd s v) ∧
    (n_submitted (nd s v) = true → n_submitted (nd s' v) = true) }.

(** What a step may take from the stacks: a frame [FFire] only when it is submitted, a root
    only when it is fired. *)
Lemma cinv_same rs s s' ts' :
  cinv rs s → same_counts (sh s) s' →
  (∀ v, pending (stacks s) v → n_submitted (nd s' v) = true ∨ pending ts' v) →
  (∀ l v, inF (stacks s) (FRoots l) → v ∈ l → pending ts' v ∨ ∃ l', inF ts' (FRoots l') ∧ v ∈ l') →
  cinv rs (mkRun s' ts').
Proof.
  intros [C1 C2 C3] [H1 H2 H3] Hp Hr. constructor; cbn [sh stacks].
  - intros v. destruct (H3 v) as (-> & -> & _). intros Hv. rewrite (C1 v Hv).
    unfold completed_deps, completed, all_deps, edge_dep. by rewrite H1, H2.
  - intros v (e & o & He & Hd & Ho). destruct (H3 v) as (Hg & Hl & Hs). unfold edge_dep in Hd. rewrite H1 in Hd. rewrite H2 in He.
    rewrite Hg, Hl in Ho. destruct (C2 v) as [?|?]; [by exists e, o|by left; apply Hs|by apply Hp].
  - intros v Hv. destruct (H3 v) as (_ & _ & Hs). destruct (C3 v Hv) as [?|[?|(l & Hl & Hvl)]]; [by left; apply Hs|..].
    + destruct (Hp v); by auto.
    + destruct (Hr l v Hl Hvl); by auto.
Qed.

(** Popping a frame keeps the others. *)
Lemma pending_pop ts i f k fs v :
  ts !! i = Some (f :: k) → pending ts v → (∃ o, f = FFire v o) ∨ pending (<[i := fs ++ k]> ts) v.
Proof.
  intros Hk (o & j & k' & Hj & Hf). destruct (decide (i = j)) as [<-|Hne].
  - rewrite Hk in Hj. injection Hj as <-. apply elem_of_cons in Hf as [<-|Hf]; [left; by eexists|].
    right. exists o, i, (fs ++ k). rewrite lookup_insert_eq. set_solver.
  - right. exists o, j, k'. rewrite lookup_insert_ne by done. done.
Qed.

Lemma roots_pop ts i f k fs l :
  ts !! i = Some (f :: k) → inF ts (FRoots l) → f = FRoots l ∨ inF (<[i := fs ++ k]> ts) (FRoots l).
Proof.
  intros Hk (j & k' & Hj & Hf). destruct (decide (i = j)) as [<-|Hne].
  - rewrite Hk in Hj. injection Hj as <-. apply elem_of_cons in Hf as [<-|Hf]; [by left|].
    right. exists i, (fs ++ k). rewrite lookup_insert_eq. set_solver.
  - right. exists j, k'. rewrite lookup_insert_ne by done. done.
Qed.

Lemma pending_push ts i k fs v o : FFire v o ∈ fs → pending (<[i := fs ++ k]> ts) v.
Proof. intros Hf. exists o, i, (fs ++ k). rewrite lookup_insert_eq. set_solver. Qed.

(** The frame steps other than a delivery. *)
Lemma cinv_quiet rs s i f k s' fs :
  cinv rs s → stacks s !! i = Some (f :: k) → same_counts (sh s) s' →
  (∀ v o, f = FFire v o → n_submitted (nd s' v) = true) →
  (∀ l v, f = FRoots l → v ∈ l → ∃ o, FFire v o ∈ fs ∨ ∃ l', FRoots l' ∈ fs ∧ v ∈ l') →
  cinv rs (mkRun s' (<[i := fs ++ k]> (stacks s))).
Proof.
  intros Hc Hk Hsc Hff Hfr. eapply cinv_same; [done|done|..].
  - intros v Hv. destruct (pending_pop _ _ _ _ fs _ Hk Hv) as [[o ->]|?]; [left; by eapply Hff|by right].
  - intros l v Hl Hv. destruct (roots_pop _ _ _ _ fs _ Hk Hl) as [->|?]; [|right; by exists l].
    destruct (Hfr l v eq_refl Hv) as (o & [Hin|(l' & Hin & Hv')]); [left; by eapply pending_push|].
    right. exists l'. split; [|done]. exists i, (fs ++ k). rewrite lookup_insert_eq. set_solver.
Qed.

Lemma completed_log e o s :
  completed_deps (log_delivered e o s) =
    completed_deps s ++ match o with Completed => [edge_dep s e] | OCancelled => [] end.
Proof.
  unfold completed_deps, completed. simpl. rewrite filter_app, fmap_app. f_equal.
  by destruct o; rewrite filter_cons; simpl.
Qed.

(** Delivering an edge into [d]. *)
Lemma cinv_deliver rs s i f k e d o s' fs ex :
  cinv rs s → stacks s !! i = Some (f :: k) → edge_dep (sh s) e = d →
  (∀ v o', f ≠ FFire v o') → (∀ l, f ≠ FRoots l) →
  notify d o (log_delivered e o (sh s)) = (s', fs) →
  cinv rs (mkRun s' (<[i := (fs ++ ex) ++ k]> (stacks s))).
Proof.
  intros Hc Hk Hd Hf1 Hf2 Hn. pose proof Hc as [C1 C2 C3].
  assert (Hdeps : all_deps s' = all_deps (sh s) ∧ completed_deps s' = completed_deps (log_delivered e o (sh s)) ∧
    h_delivered s' = h_delivered (sh s) ++ [(e, o)] ∧ ∀ x, edge_dep s' x = edge_dep (sh s) x).
  { unfold notify in Hn. destruct o; [destruct (gateType _)|]; injection Hn as <- <-; by split_and!. }
  destruct Hdeps as (Hall & Hcd & Hdel & Hed).
  assert (Hnode : ∀ v, gateType (nd s' v) = gateType (nd (sh s) v) ∧ n_submitted (nd s' v) = n_submitted (nd (sh s) v) ∧
    dependencies_left (nd s' v) = dependencies_left (nd (sh s) v) -
      (if decide (d = v ∧ o = Completed ∧ gateType (nd (sh s) d) = AND) then 1 else 0)).
  { intros v. unfold notify in Hn. change (nd (log_delivered e o (sh s)) d) with (nd (sh s) d) in Hn.
    destruct o; [destruct (gateType (nd (sh s) d)) eqn:E|]; injection Hn as <- <-.
    - rewrite nd_set. destruct (decide (d = v)) as [->|Hne]; [rewrite decide_True by done|rewrite decide_False by naive_solver];
        simpl; split_and!; done || (change (nd (log_delivered e Completed (sh s)) v) with (nd (sh s) v); lia).
    - rewrite decide_False by naive_solver. change (nd (log_delivered e Completed (sh s)) v) with (nd (sh s) v). split_and!; done || lia.
    - rewrite decide_False by naive_solver. change (nd (log_delivered e OCancelled (sh s)) v) with (nd (sh s) v). split_and!; done || lia. }
  assert (Hpush : o = OCancelled ∨ gateType (nd s' d) = OR ∨ dependencies_left (nd s' d) = 0 →
    ∃ o', FFire d o' ∈ fs).
  { destruct (Hnode d) as (Hg & _ & Hl). rewrite Hg, Hl. unfold notify in Hn.
    change (nd (log_delivered e o (sh s)) d) with (nd (sh s) d) in Hn.
    destruct o; [destruct (gateType (nd (sh s) d)) eqn:E|]; injection Hn as <- <-.
    - rewrite decide_True by done. intros [?|[?|Hz]]; try done. rewrite Hz. simpl. exists Completed. set_solver.
    - intros _. exists Completed. set_solver.
    - intros _. exists OCancelled. set_solver. }
  assert (Hkeep : ∀ v, pending (stacks s) v → pending (<[i := (fs ++ ex) ++ k]> (stacks s)) v).
  { intros v Hv. destruct (pending_pop _ _ _ _ (fs ++ ex) _ Hk Hv) as [[o' Hff]|?]; [|done]. by apply Hf1 in Hff. }
  constructor; cbn [sh stacks].
  - intros v Hv. destruct (Hnode v) as (Hg & _ & ->). rewrite Hg in Hv. rewrite (C1 v Hv), Hall, Hcd, completed_log, occ_app, Hd.
    destruct o; [|rewrite decide_False by naive_solver; change (occ v []) with 0; lia].
    rewrite occ_cons. change (occ v []) with 0. repeat case_decide; naive_solver lia.
  - intros v (e' & o' & He' & Hd' & Ho'). rewrite Hed in Hd'. rewrite Hdel in He'. destruct (Hnode v) as (Hg & -> & Hl).
    destruct (decide (d = v)) as [<-|Hne].
    + destruct (decide (o = OCancelled ∨ gateType (nd s' d) = OR ∨ dependencies_left (nd s' d) = 0)) as [Hen|Hen].
      * destruct (Hpush Hen) as [o1 Ho1]. right. apply (pending_push _ _ _ _ _ o1), elem_of_app. by left.
      * apply elem_of_app in He' as [He'|[= -> ->]%list_elem_of_singleton]; [|by destruct Hen].
        destruct Ho' as [-> |Ho']; [|destruct Hen; by right].
        destruct (C2 d) as [?|?]; [by exists e', OCancelled; auto|by left|right; by apply Hkeep].
    + rewrite decide_False in Hl by naive_solver.
      apply elem_of_app in He' as [He'|[= -> ->]%list_elem_of_singleton]; [|congruence].
      destruct (C2 v) as [?|?]; [|by left|right; by apply Hkeep]. exists e', o'. split_and!; try done.
      rewrite Hg in Ho'. rewrite Hl, Z.sub_0_r in Ho'. done.
  - intros v Hv. destruct (Hnode v) as (_ & -> & _). destruct (C3 v Hv) as [?|[?|(l & Hl & Hvl)]]; [by left|by auto|].
    right. right. exists l. split; [|done]. destruct (roots_pop _ _ _ _ (fs ++ ex) _ Hk Hl) as [Hff|?]; [|done]. by apply Hf2 in Hff.
Qed.

Lemma counts_nd v n s :
  gateType n = gateType (nd s v) → dependencies_left n = dependencies_left (nd s v) →
  (n_submitted (nd s v) = true → n_submitted n = true) → same_counts s (set_nd v n s).
Proof. intros H1 H2 H3. constructor; try done. intros w. rewrite nd_set. case_decide; by subst. Qed.

Lemma counts_dispose v s : same_counts s (DisposeUnexecutedTask v s).
Proof.
  constructor; try (unfold DisposeUnexecutedTask; by case_match). intros w.
  destruct (nd_dispose v s w) as [-> | ->]; [by case_decide|done].
Qed.

Lemma counts_go v o s s' fs : fire_go v o s = (s', fs) → same_counts s s'.
Proof.
  unfold fire_go. intros H. repeat case_match; injection H as <- <-; try (by constructor);
    (pose proof (counts_dispose v (log_started v OCancelled s)) as [E1 E2 E3]; by constructor).
Qed.

Lemma cinv_frame rs s i f k s' fs :
  cinv rs s → dinv s → stacks s !! i = Some (f :: k) → frame_step (sh s) f s' fs →
  cinv rs (mkRun s' (<[i := fs ++ k]> (stacks s))).
Proof.
  intros Hc [L Hd] Hk Hs.
  assert (Hin : inF (stacks s) f) by (exists i, (f :: k); set_solver).
  destruct Hs as [v o Hsub|v o Hsub|v o s' fs Hgo|v|v|v|v o|v o head done cur s' fs Hne Hn|v o head done Hh
    |v o head done|v|v l| |e d p|e d p head s' fs Hse Hn|e d p head Hse|e d p head Hh|e d p head].
  - eapply cinv_quiet; [done|exact Hk|by constructor| |done]. by intros w o' [= <- <-].
  - eapply cinv_quiet; [done|exact Hk|by apply counts_nd| |done]. intros w o' [= <- <-]. by rewrite nd_set, decide_True.
  - eapply cinv_quiet; [done|exact Hk|by eapply counts_go|done|done].
  - eapply cinv_quiet; [done|exact Hk|by apply counts_nd|done|done].
  - eapply cinv_quiet; [done|exact Hk|by constructor|done|done].
  - eapply cinv_quiet; [done|exact Hk|apply counts_dispose|done|done].
  - eapply cinv_quiet; [done|exact Hk|by constructor|done|done].
  - by eapply cinv_deliver.
  - eapply cinv_quiet; [done|exact Hk|by apply counts_nd|done|done].
  - eapply cinv_quiet; [done|exact Hk|by constructor|done|done].
  - eapply cinv_quiet; [done|exact Hk|by constructor|done|done].
  - eapply cinv_quiet; [done|exact Hk|by constructor|done|]. intros l' w [= <-] Hw. exists Completed.
    apply elem_of_cons in Hw as [->|Hw]; [left; set_solver|]. right. exists l. set_solver.
  - eapply cinv_quiet; [done|exact Hk|by constructor|done|]. by intros l' w [= <-] ?%not_elem_of_nil.
  - eapply cinv_quiet; [done|exact Hk|by constructor|done|done].
  - rewrite <- (app_nil_r fs). eapply cinv_deliver; [done|exact Hk| |done|done|done].
    destruct (si_frame _ _ _ _ Hd _ Hin) as (Hdep & _). unfold edge_dep. by rewrite Hdep.
  - eapply cinv_quiet; [done|exact Hk|by constructor|done|done].
  - eapply cinv_quiet; [done|exact Hk|by apply counts_nd|done|done].
  - eapply cinv_quiet; [done|exact Hk|by constructor|done|done].
Qed.

Lemma occ_submseteq v (l l' : list Z) : l ⊆+ l' → occ v l ≤ occ v l'.
Proof. intros [k ->]%submseteq_Permutation. rewrite occ_app. pose proof (occ_nonneg v k). lia. Qed.

(** The completed deliveries are deliveries of different edges. *)
Lemma completed_edges s A F L :
  sinv s A F L → completed_deps s = edge_dep s <$> (completed s).*1 ∧
    all_deps s = edge_dep s <$> (map_to_list (h_dep s)).*1 ∧ (completed s).*1 ⊆+ (map_to_list (h_dep s)).*1.
Proof.
  intros Hs. split_and!.
  - unfold completed_deps. by rewrite <- list_fmap_compose.
  - unfold all_deps. rewrite <- list_fmap_compose. apply list_fmap_ext. intros i [e d] He.
    apply list_elem_of_lookup_2, elem_of_map_to_list in He. simpl. unfold edge_dep. by rewrite He.
  - apply NoDup_submseteq.
    + pose proof (si_once _ _ _ _ Hs) as Hn. unfold done_edges in Hn. unfold completed. revert Hn. generalize (h_delivered s).
      induction l as [|[e o] l IH]; [done|]. rewrite fmap_cons, filter_cons. intros [He Hl]%NoDup_cons.
      case_decide; [|by apply IH]. rewrite fmap_cons. apply NoDup_cons. split; [|by apply IH].
      intros (x & Hx & [_ Hin]%list_elem_of_filter)%list_elem_of_fmap. apply He, list_elem_of_fmap. by exists x.
    + intros e ([x o] & -> & [_ Hx]%list_elem_of_filter)%list_elem_of_fmap.
      apply (si_from _ _ _ _ Hs) in Hx as [[d Hx] _]. simpl. apply list_elem_of_fmap. exists (x, d).
      by rewrite elem_of_map_to_list.
Qed.

Lemma occ_fmap {A} (f : A → Z) v (l : list A) : occ v (f <$> l) = Z.of_nat (length (filter (λ x, f x = v) l)).
Proof.
  induction l as [|x l IH]; [done|]. rewrite fmap_cons, occ_cons, filter_cons, IH. repeat case_decide; try done; simpl; lia.
Qed.

(** The count is zero exactly when every edge into the node was delivered as completed. *)
Lemma left_zero rs s v :
  cinv rs s → dinv s → gateType (nd (sh s) v) = AND →
  dependencies_left (nd (sh s) v) = 0 ↔ ∀ e, h_dep (sh s) !! e = Some v → (e, Completed) ∈ h_delivered (sh s).
Proof.
  intros Hc [L Hd] Hg. rewrite (ci_left _ _ Hc v Hg). destruct (completed_edges _ _ _ _ Hd) as (-> & -> & Hsub).
  rewrite !occ_fmap. set (K := (map_to_list (h_dep (sh s))).*1) in *. set (C := (completed (sh s)).*1) in *.
  assert (HK : ∀ e, e ∈ filter (λ x, edge_dep (sh s) x = v) K ↔ h_dep (sh s) !! e = Some v).
  { intros e. rewrite list_elem_of_filter. unfold K. rewrite list_elem_of_fmap. unfold edge_dep. split.
    - intros [He ([x d] & -> & Hx)]. apply elem_of_map_to_list in Hx. simpl in *. rewrite Hx in *. simpl in He. by subst.
    - intros He. split; [by rewrite He|]. exists (e, v). by rewrite elem_of_map_to_list. }
  assert (HC : ∀ e, e ∈ C ↔ (e, Completed) ∈ h_delivered (sh s)).
  { intros e. unfold C, completed. rewrite list_elem_of_fmap. split.
    - intros ([x o] & -> & [Ho Hx]%list_elem_of_filter). simpl in *. by subst.
    - intros He. exists (e, Completed). by rewrite list_elem_of_filter. }
  assert (Hfs : filter (λ x, edge_dep (sh s) x = v) C ⊆+ filter (λ x, edge_dep (sh s) x = v) K).
  { apply submseteq_Permutation in Hsub as [k Hk]. rewrite Hk, filter_app. by apply submseteq_inserts_r. }
  assert (HnK : NoDup (filter (λ x, edge_dep (sh s) x = v) K)) by apply NoDup_filter, NoDup_fst_map_to_list.
  split.
  - intros Hz e He. assert (Hp : filter (λ x, edge_dep (sh s) x = v) C ≡ₚ filter (λ x, edge_dep (sh s) x = v) K).
    { apply submseteq_length_Permutation; [done|lia]. }
    assert (Hin : e ∈ filter (λ x, edge_dep (sh s) x = v) C) by (rewrite Hp; by apply HK).
    apply list_elem_of_filter in Hin as [_ Hin]. by apply HC.
  - intros Hall. apply submseteq_length in Hfs.
    assert (Hrev : filter (λ x, edge_dep (sh s) x = v) K ⊆+ filter (λ x, edge_dep (sh s) x = v) C).
    { apply NoDup_submseteq; [done|]. intros e He. pose proof (proj1 (HK e) He) as Hd0. apply list_elem_of_filter in He as [He _].
      apply list_elem_of_filter. split; [done|]. by apply HC, Hall. }
    apply submseteq_length in Hrev. lia.
Qed.

Lemma left_nonneg rs s v : cinv rs s → dinv s → gateType (nd (sh s) v) = AND → 0 ≤ dependencies_left (nd (sh s) v).
Proof.
  intros Hc [L Hd] Hg. rewrite (ci_left _ _ Hc v Hg). destruct (completed_edges _ _ _ _ Hd) as (-> & -> & Hsub).
  apply (fmap_submseteq (edge_dep (sh s))) in Hsub. apply (occ_submseteq v) in Hsub. lia.
Qed.

Lemma pending_idle ts i fs v : ts !! i = Some [] → pending ts v → pending (<[i := fs]> ts) v.
Proof.
  intros Hk (o & j & k & Hj & Hf). exists o, j, k. rewrite lookup_insert_ne; [done|]. intros ->.
  rewrite Hk in Hj. injection Hj as <-. by apply not_elem_of_nil in Hf.
Qed.

Lemma roots_idle ts i fs l : ts !! i = Some [] → inF ts (FRoots l) → inF (<[i := fs]> ts) (FRoots l).
Proof.
  intros Hk (j & k & Hj & Hf). exists j, k. rewrite lookup_insert_ne; [done|]. intros ->.
  rewrite Hk in Hj. injection Hj as <-. by apply not_elem_of_nil in Hf.
Qed.

(** A new edge into [d]. *)
Lemma cinv_new rs s i e d p fs s' :
  cinv rs s → dinv s → stacks s !! i = Some [] → h_dep (sh s) !! e = None →
  (∀ v, nd s' v = if decide (d = v) then set_left (dependencies_left (nd (sh s) d) + 1) (nd (sh s) d) else nd (sh s) v) →
  h_dep s' = <[e := d]> (h_dep (sh s)) → h_delivered s' = h_delivered (sh s) → fs = [FAddLoad e d p] →
  cinv rs (mkRun s' (<[i := fs]> (stacks s))).
Proof.
  intros Hc Hdv Hk Hfr Hnd Hdep Hdel Hfs. pose proof Hc as [C1 C2 C3]. pose proof Hdv as [L Hd].
  assert (Hed : ∀ x o, (x, o) ∈ h_delivered (sh s) → edge_dep s' x = edge_dep (sh s) x).
  { intros x o Hx. unfold edge_dep. rewrite Hdep, lookup_insert_ne; [done|]. intros ->.
    apply (si_from _ _ _ _ Hd) in Hx as [[? H] _]. congruence. }
  assert (Hcd : completed_deps s' = completed_deps (sh s)).
  { unfold completed_deps, completed. rewrite Hdel. apply list_fmap_ext. intros j [x o] Hx.
    apply list_elem_of_lookup_2, list_elem_of_filter in Hx as [_ Hx]. by eapply Hed. }
  constructor; cbn [sh stacks].
  - intros v. rewrite Hnd, Hcd. unfold all_deps. rewrite Hdep, (map_to_list_insert _ _ _ Hfr), fmap_cons, occ_cons. cbn [snd].
    destruct (decide (d = v)) as [->|Hne]; intros Hg; cbn [set_left dependencies_left gateType] in *;
      rewrite (C1 _ Hg); unfold all_deps; lia.
  - intros v (x & o & Hx & Hxd & Ho). rewrite Hdel in Hx. rewrite (Hed _ _ Hx) in Hxd. rewrite Hnd in *.
    assert (Hsub : n_submitted (nd (sh s) v) = true ∨ pending (stacks s) v →
      n_submitted (if decide (d = v) then set_left (dependencies_left (nd (sh s) d) + 1) (nd (sh s) d) else nd (sh s) v) = true
      ∨ pending (<[i := fs]> (stacks s)) v).
    { intros [?|?]; [left; case_decide; by subst|right; by apply pending_idle]. }
    destruct (decide (d = v)) as [->|Hne]; [|apply Hsub, C2; by exists x, o].
    simpl in Ho. destruct Ho as [->|[Ho|Ho]]; [apply Hsub, C2; exists x, OCancelled; by auto|apply Hsub, C2; exists x, o; by auto|].
    destruct (gateType (nd (sh s) v)) eqn:Hg; [|apply Hsub, C2; exists x, o; by auto].
    pose proof (left_nonneg _ _ _ Hc Hdv Hg). lia.
  - intros v Hv. rewrite Hnd. destruct (C3 v Hv) as [?|[?|(l & Hl & Hvl)]].
    + left. case_decide; by subst.
    + right. left. by apply pending_idle.
    + right. right. exists l. split; [by apply roots_idle|done].
Qed.

Lemma cinv_idle dyn rs s i s' fs :
  cinv rs s → dinv s → stacks s !! i = Some [] → idle_step dyn (sh s) s' fs →
  cinv rs (mkRun s' (<[i := fs]> (stacks s))).
Proof.
  intros Hc Hd Hk Hst.
  assert (Hsame : ∀ s0, same_counts (sh s) s0 → cinv rs (mkRun s0 (<[i := fs]> (stacks s)))).
  { intros s0 Hs0. eapply cinv_same; [done|done|..].
    - intros v Hv. right. by apply pending_idle.
    - intros l v Hl Hv. right. exists l. split; [by apply roots_idle|done]. }
  destruct Hst as [v q1 q2 Hq|v q1 q2 Hq|v Hv Hx|e d p He0 He Hal Hfr Hdn Hpn|].
  - apply Hsame. by constructor.
  - apply Hsame. by constructor.
  - apply Hsame. by apply counts_nd.
  - eapply (cinv_new rs s i e d p); try done. intros w.
    match goal with |- nd ?s1 w = _ =>
      change (nd s1 w) with (nd (set_nd d (set_left (dependencies_left (nd (sh s) d) + 1) (nd (sh s) d)) (sh s)) w) end.
    apply nd_set.
  - apply Hsame. by constructor.
Qed.

(** The roots [Submit] collects. *)
Definition roots_of (g : Dag) : list Z := filter (λ v, dependencies_left (node_at g v) = 0) (d_nodes g).

Lemma submit_roots g r ng rest : Submit g = (true, r, rest, ng) → HasCycle g = false ∧ r = roots_of g.
Proof. unfold Submit, roots_of. destruct (HasCycle g); intros [= <- <- <-]; done. Qed.

Lemma all_edges_keys g L : dag_wf g L → all_edges g L ≡ₚ (map_to_list (d_dep g)).*1.
Proof.
  intros Hw. apply NoDup_Permutation; [apply Hw|apply NoDup_fst_map_to_list|]. intros e. split.
  - intros He. apply (dw_dep _ _ Hw) in He as [[d He] _]. apply list_elem_of_fmap. exists (e, d).
    by rewrite elem_of_map_to_list.
  - intros ([x d] & -> & He)%list_elem_of_fmap. apply elem_of_map_to_list in He. apply (dw_all _ _ Hw). by eexists.
Qed.

Lemma deps_of_keys (m : gmap Z Z) : (λ e, default 0 (m !! e)) <$> (map_to_list m).*1 = (map_to_list m).*2.
Proof.
  rewrite <- list_fmap_compose. apply list_fmap_ext. intros i [e d] He.
  apply list_elem_of_lookup_2, elem_of_map_to_list in He. simpl. by rewrite He.
Qed.

(** The count the construction keeps is the number of edges into the node. *)
Lemma left_is_indegree g L v :
  dag_wf g L → dependencies_left (node_at g v) = occ v (map_to_list (d_dep g)).*2.
Proof.
  intros Hw. rewrite <- deps_of_keys. rewrite <- (all_edges_keys g L Hw).
  destruct (decide (v ∈ d_nodes g)) as [Hv|Hv]; [by apply (dw_left _ _ Hw)|].
  unfold node_at. destruct (d_node g !! v) as [n|] eqn:E; [by apply (dw_new _ _ Hw) in E as [? _]|]. simpl.
  pose proof (occ_nonneg v ((λ e, default 0 (d_dep g !! e)) <$> all_edges g L)).
  destruct (decide (0 < occ v ((λ e, default 0 (d_dep g !! e)) <$> all_edges g L))) as [Ho|]; [|lia].
  apply occ_pos, list_elem_of_fmap in Ho as (e & -> & He). by apply (dw_dep _ _ Hw) in He as [_ ?].
Qed.

Lemma cinv_init g s : dinit g s → cinv (roots_of g) s.
Proof.
  intros (L & ts & src & roots & ng & Hw & Hsub & Hsrc & Hts & ->). apply submit_roots in Hsub as [_ ->].
  constructor; cbn [sh stacks].
  - intros v _. unfold nd, completed_deps, completed, all_deps. simpl. rewrite <- (left_is_indegree g L v Hw).
    unfold node_at. change (occ v []) with 0. lia.
  - intros v (e & o & He & _). by apply not_elem_of_nil in He.
  - intros v Hv. right. right. exists (roots_of g). split; [|done]. exists 0%nat, [FRoots (roots_of g)].
    rewrite lookup_insert_eq. set_solver.
Qed.

Lemma reachable_cinv dyn g s :
  reachable (dinit g) (dstep dyn) s → tinv s ∧ finv s ∧ dinv s ∧ cinv (roots_of g) s.
Proof.
  intros Hr. destruct (reachable_dinv _ _ _ Hr) as (Ht & Hf & Hd). split_and!; [done..|]. clear Ht Hf Hd.
  revert s Hr. apply reachable_strong_ind; [by intros s; apply cinv_init|]. intros x y Hx Hc Hxy.
  destruct (reachable_dinv _ _ _ Hx) as (_ & _ & Hd).
  destruct Hxy as [i f k s1 fs Hk Hs|i s1 fs Hk Hs|v Hv Hf' Hall].
  - by eapply cinv_frame.
  - by eapply cinv_idle.
  - by destruct Hc.
Qed.

(** ** At rest, everything has finished *)

(** A node past its seal is sealed. *)
Definition rinv (s : drun) : Prop :=
  ∀ v, v ∈ h_retired (sh s) ∨ inF (stacks s) (FRetire v) → EdgeSealed (first (sh s) v) = true.

Lemma notify_retired d o s s' fs : notify d o s = (s', fs) → h_retired s' = h_retired s.
Proof. unfold notify. destruct o; [destruct (gateType _)|]; by intros [= <- <-]. Qed.

Lemma frame_retired s A F L f s' fs v :
  sinv s A F L → F f → frame_step s f s' fs →
  (v ∈ h_retired s' → v ∈ h_retired s ∨ f = FRetire v) ∧ (FRetire v ∈ fs → EdgeSealed (first s' v) = true).
Proof.
  assert (Hone : ∀ f0, FRetire v ∈ [f0] → f0 = FRetire v) by by intros f0 ->%list_elem_of_singleton.
  assert (Hnot : ∀ d o s0 s1 fs0, notify d o s0 = (s1, fs0) → FRetire v ∈ fs0 → False).
  { intros d o s0 s1 fs0 Hn Hf. apply notify_same in Hn as (_ & _ & _ & Hn). by destruct (Hn _ Hf). }
  intros Hd Hf Hs. pose proof (si_frame _ _ _ _ Hd _ Hf) as Hok.
  destruct Hs as [w o Hsub|w o Hsub|w o s' fs Hgo|w|w|w|w o|w o head done cur s' fs Hne Hn|w o head done Hh
    |w o head done|w|w l| |e d p|e d p head s' fs Hse Hn|e d p head Hse|e d p head Hh|e d p head].
  - split; [by left|by intros ?%not_elem_of_nil].
  - split; [by left|by intros ?%Hone].
  - unfold fire_go in Hgo. repeat case_match; injection Hgo as <- <-; (split; [|by intros ?%Hone]); try (by left);
      unfold DisposeUnexecutedTask; case_match; by left.
  - split; [by left|]. case_match; [by intros ?%Hone|by intros ?%not_elem_of_nil].
  - split; [by left|by intros ?%not_elem_of_nil].
  - split; [|by intros ?%Hone]. unfold DisposeUnexecutedTask. case_match; by left.
  - split; [by left|by intros ?%Hone].
  - rewrite (notify_retired _ _ _ _ _ Hn). split; [by left|].
    intros [Hv|Hv]%elem_of_app; [by destruct (Hnot _ _ _ _ _ Hn)|by apply Hone in Hv].
  - split; [by left|]. intros [= ->]%Hone. rewrite first_set, decide_True by done. simpl.
    apply EdgeSeal_read. destruct Hok as (_ & _ & Hal & _). by rewrite EdgePtr_aligned.
  - split; [by left|by intros ?%Hone].
  - split; [|by intros ?%not_elem_of_nil]. simpl. rewrite elem_of_app, list_elem_of_singleton. intros [?| ->]; auto.
  - split; [by left|]. rewrite elem_of_cons, list_elem_of_singleton. by intros [?|?].
  - split; [by left|by intros ?%not_elem_of_nil].
  - split; [by left|by intros ?%Hone].
  - rewrite (notify_retired _ _ _ _ _ Hn). split; [by left|]. intros Hv. by destruct (Hnot _ _ _ _ _ Hn).
  - split; [by left|by intros ?%Hone].
  - split; [by left|by intros ?%not_elem_of_nil].
  - split; [by left|by intros ?%Hone].
Qed.

(** A seal is never broken. *)
Lemma frame_sealed s A F L f s' fs v :
  sinv s A F L → F f → frame_step s f s' fs → EdgeSealed (first s v) = true → EdgeSealed (first s' v) = true.
Proof.
  intros Hd Hf Hs Hv. pose proof (si_frame _ _ _ _ Hd _ Hf) as Hok.
  destruct Hs as [w o Hsub|w o Hsub|w o s' fs Hgo|w|w|w|w o|w o head done cur s' fs Hne Hn|w o head done Hh
    |w o head done|w|w l| |e d p|e d p head s' fs Hse Hn|e d p head Hse|e d p head Hh|e d p head]; try exact Hv.
  - rewrite first_set. case_decide; by subst.
  - apply go_edges in Hgo as (Hsame & _). by rewrite (se_first _ _ Hsame).
  - rewrite first_set. case_decide; by subst.
  - by rewrite (se_first _ _ (dispose_edges w s)).
  - apply notify_edges in Hn. by rewrite (se_first _ _ Hn).
  - rewrite first_set. case_decide; [|done]. simpl. apply EdgeSeal_read. rewrite EdgePtr_aligned; by destruct Hok as (_ & _ & ? & _).
  - apply notify_edges in Hn. by rewrite (se_first _ _ Hn).
  - rewrite first_set. case_decide; [|done]. subst. destruct Hok as (_ & _ & Hal & _).
    change (firstEdge (nd s v)) with (first s v) in *. by rewrite EdgeSealed_aligned in Hv.
Qed.

Lemma rinv_frame s i f k s' fs :
  rinv s → dinv s → stacks s !! i = Some (f :: k) → frame_step (sh s) f s' fs → rinv (mkRun s' (<[i := fs ++ k]> (stacks s))).
Proof.
  intros Hr [L Hd] Hk Hs v. cbn [sh stacks].
  assert (Hin : inF (stacks s) f) by (exists i, (f :: k); set_solver).
  destruct (frame_retired _ _ _ _ _ _ _ v Hd Hin Hs) as [H1 H2].
  assert (Hold : v ∈ h_retired (sh s) ∨ inF (stacks s) (FRetire v) → EdgeSealed (first s' v) = true).
  { intros Ho. eapply frame_sealed; [done|exact Hin|done|by apply Hr]. }
  intros [Hv|Hv].
  - destruct (H1 Hv) as [?| ->]; [apply Hold; by left|apply Hold; by right].
  - apply inF_top in Hv as [Hv|Hv]; [by apply H2|apply Hold; right; by eapply inF_rest].
Qed.

(** Without new edges the graph is the one submitted. *)
Definition static (g : Dag) (s : shared) : Prop :=
  h_dep s = d_dep g ∧ ∃ L, dag_wf g L ∧ ∀ e v, h_src s !! e = Some v ↔ v ∈ d_nodes g ∧ e ∈ L v.

Lemma frame_static s f s' fs : frame_step s f s' fs → h_dep s' = h_dep s ∧ h_src s' = h_src s.
Proof.
  intros Hs. destruct Hs as [w o Hsub|w o Hsub|w o s' fs Hgo|w|w|w|w o|w o head done cur s' fs Hne Hn|w o head done Hh
    |w o head done|w|w l| |e d p|e d p head s' fs Hse Hn|e d p head Hse|e d p head Hh|e d p head]; try by split.
  - apply go_edges in Hgo as ([? ? _ _ _ _] & _). done.
  - by destruct (dispose_edges w s).
  - apply notify_edges in Hn as [? ? _ _ _ _]. done.
  - apply notify_edges in Hn as [? ? _ _ _ _]. done.
Qed.

Lemma reachable_static g s :
  reachable (dinit g) (dstep false) s → static g (sh s) ∧ HasCycle g = false.
Proof.
  revert s. apply reachable_ind.
  - intros s (L & ts & src & roots & ng & Hw & Hsub & Hsrc & Hts & ->). apply submit_roots in Hsub as [Hc _].
    split; [|done]. split; [done|]. by exists L.
  - intros s s' [(Hd & L & Hw & Hs) Hc] [i f k s1 fs Hk Hst|i s1 fs Hk Hst|v Hv Hf' Hall]; (split; [|done]).
    + apply frame_static in Hst as [H1 H2]. split; cbn [sh]; [congruence|]. exists L. by rewrite H2.
    + destruct Hst as [| | |? ? ? Hdyn|]; [..|done|]; try (split; [done|by exists L]).
    + split; [done|by exists L].
Qed.

(** Whatever edges are added, those submitted are still there, and every edge has a source. *)
Record grown (g : Dag) (s : shared) : Prop := {
  gr_dep : d_dep g ⊆ h_dep s;
  gr_src : ∃ L, dag_wf g L ∧ ∀ e v, v ∈ d_nodes g → e ∈ L v → h_src s !! e = Some v;
  gr_some e : is_Some (h_dep s !! e) → is_Some (h_src s !! e) }.

Lemma reachable_grown dyn g s : reachable (dinit g) (dstep dyn) s → grown g (sh s).
Proof.
  revert s. apply reachable_ind.
  - intros s (L & ts & src & roots & ng & Hw & _ & Hsrc & Hts & ->). constructor; cbn; [done| |].
    + exists L. split; [done|]. intros e v Hv He. by apply Hsrc.
    + intros e [He _]%(dw_all _ _ Hw). apply list_elem_of_join in He as (l & Hel & (v & -> & Hv)%list_elem_of_fmap). exists v. by apply Hsrc.
  - intros s s' [G1 (L & Hw & G2) G3] [i f k s1 fs Hk Hst|i s1 fs Hk Hst|v Hv Hf' Hall].
    + apply frame_static in Hst as [H1 H2]. constructor; cbn [sh]; rewrite ?H1, ?H2; [done|by exists L|done].
    + destruct Hst as [| | |e d p Hdyn He Hal Hfr Hdn Hpn|]; [by constructor; [|exists L|]..| |by constructor; [|exists L|]].
      constructor; cbn [sh h_dep h_src].
      * etrans; [exact G1|]. by apply insert_subseteq.
      * exists L. split; [done|]. intros e' v Hv He'. rewrite lookup_insert_ne; [by apply G2|]. intros <-.
        destruct (dw_dep _ _ Hw e (in_all_edges _ _ _ _ Hv He')) as [[d' Hd'] _]. eapply lookup_weaken in Hd'; [|exact G1]. congruence.
      * intros x Hx. destruct (decide (x = e)) as [->|Hn]; [rewrite lookup_insert_eq; by eexists|].
        rewrite lookup_insert_ne in * by done. by apply G3.
    + by constructor; [|exists L|].
Qed.

(** Node [v] depends on node [p], by an edge submitted or added since. *)
Definition depends (s : shared) (p v : Z) : Prop := ∃ e, h_src s !! e = Some p ∧ h_dep s !! e = Some v.

Lemma reachable_rinv dyn g s : reachable (dinit g) (dstep dyn) s → rinv s.
Proof.
  revert s. apply reachable_strong_ind.
  { intros s0 (L & ts & src & roots & ng & Hw & Hsub & Hsrc & Hts & ->) v [Hv|Hv]; [by apply not_elem_of_nil in Hv|].
    destruct Hv as (i & k & Hi & Hf). cbn [stacks] in Hi.
    apply lookup_insert_Some in Hi as [[<- <-]|[_ Hi]]; [by apply list_elem_of_singleton in Hf|].
    rewrite (Hts _ _ Hi) in Hf. by apply not_elem_of_nil in Hf. }
  intros x y Hx Hi Hxy. destruct (reachable_dinv _ _ _ Hx) as (_ & _ & Hd).
  destruct Hxy as [i f k s1 fs Hk Hs|i s1 fs Hk Hs|v Hv Hf' Hall]; [by eapply rinv_frame| |done].
  intros v. cbn [sh stacks]. intros Hv.
  assert (Hfs : FRetire v ∉ fs ∧ h_retired s1 = h_retired (sh x) ∧ first s1 v = first (sh x) v).
  { destruct Hs as [w q1 q2 Hq|w q1 q2 Hq|w Hw Hx'|e d p Hdyn He Hal Hfr Hdn Hpn|].
    - split_and!; [by intros ?%list_elem_of_singleton|done|done].
    - split_and!; [by intros ?%list_elem_of_singleton|done|done].
    - split_and!; [|done|rewrite first_set; case_decide; by subst].
      repeat case_match; by (intros ?%not_elem_of_nil || intros ?%list_elem_of_singleton).
    - split_and!; [by intros ?%list_elem_of_singleton|done|].
      match goal with |- first ?s1 v = _ =>
        change (first s1 v) with (first (set_nd d (set_left (dependencies_left (nd (sh x) d) + 1) (nd (sh x) d)) (sh x)) v) end.
      rewrite first_set. case_decide; by subst.
    - split_and!; [by intros ?%not_elem_of_nil|done|done]. }
  destruct Hfs as (Hnf & Hret & ->). apply Hi. rewrite Hret in Hv. destruct Hv as [?|Hv]; [by left|]. right.
  apply inF_idle in Hv as [?|?]; done.
Qed.

(** Nothing is running or waiting to run: no thread is in the graph's functions, no task is
    queued, no armed external node waits for its signal. *)
Definition at_rest (s : drun) : Prop :=
  (∀ i k, stacks s !! i = Some k → k = []) ∧ h_queue (sh s) = [] ∧ ∀ v, ext_wait (sh s) v = false.

Lemma rest_frames s f : at_rest s → ¬ inF (stacks s) f.
Proof. intros (Hs & _) (i & k & Hi & Hf). rewrite (Hs _ _ Hi) in Hf. by apply not_elem_of_nil in Hf. Qed.

Lemma rest_gather s (h : list frame → list Z) : at_rest s → h [] = [] → gather h (stacks s) = [].
Proof.
  intros (Hs & _) Hh. apply elem_of_nil_inv. intros x (i & k & Hi & Hx)%elem_of_gather.
  rewrite (Hs _ _ Hi), Hh in Hx. by apply not_elem_of_nil in Hx.
Qed.

Lemma rest_submitted s v : tinv s → at_rest s → n_submitted (nd (sh s) v) = true → v ∈ h_retired (sh s).
Proof.
  intros Ht Hr Hsub. pose proof (ti_tok _ Ht v) as H. rewrite (rest_gather s stoks Hr) in H by done.
  destruct Hr as (_ & Hq & He). unfold tok_shared in H. rewrite Hq, He, Hsub in H.
  change (occ v []) with 0 in H. simpl in H. apply occ_pos. lia.
Qed.

(** A node at rest that has not been retired has a dependency that has not. *)
Lemma rest_blocked dyn g s v :
  reachable (dinit g) (dstep dyn) s → at_rest s → v ∈ d_nodes g → v ∉ h_retired (sh s) →
  ∃ p, depends (sh s) p v ∧ p ∉ h_retired (sh s).
Proof.
  intros Hreach Hr Hv Hn. destruct (reachable_cinv _ _ _ Hreach) as (Ht & Hf & Hdv & Hc). pose proof Hdv as [L Hd].
  destruct (reachable_grown _ _ _ Hreach) as [Hdep (L0 & Hw & Hsrc) Hsome0]. pose proof (reachable_rinv _ _ _ Hreach) as Hri.
  assert (Hns : ¬ (n_submitted (nd (sh s) v) = true ∨ pending (stacks s) v)).
  { intros [?|[o ?]]; [by apply Hn, rest_submitted|by eapply rest_frames]. }
  set (bad := λ e, edge_dep (sh s) e = v ∧ (default 0 (h_src (sh s) !! e) ∉ h_retired (sh s))).
  set (keys := (map_to_list (h_dep (sh s))).*1).
  destruct (decide (Exists bad keys)) as [Hex|Hex].
  - apply Exists_exists in Hex as (e & He & Hbd & Hbs). apply list_elem_of_fmap in He as ([x d] & -> & He).
    apply elem_of_map_to_list in He. simpl in *. unfold edge_dep in Hbd. rewrite He in Hbd. simpl in Hbd. subst d.
    destruct (Hsome0 x) as [p Hxp]; [by eexists|]. exists p. split; [by exists x|]. by rewrite Hxp in Hbs.
  - exfalso. assert (Hdone : ∀ e, h_dep (sh s) !! e = Some v → ∃ o, (e, o) ∈ h_delivered (sh s)).
    { intros e He. assert (Hin : e ∈ done_edges (sh s)).
      { destruct (si_all _ _ _ _ Hd e) as [Ha|[[p Hp]|?]]; [by eexists| | |done].
        - rewrite (rest_gather s sadding Hr) in Ha by done. by apply not_elem_of_nil in Ha.
        - apply (si_list _ _ _ _ Hd) in Hp as Hp'. destruct Hp' as (Hps & _).
          apply (si_sealed _ _ _ _ Hd p); [|done]. apply Hri. left.
          destruct (decide (p ∈ h_retired (sh s))) as [|Hnp]; [done|]. destruct Hex. apply Exists_exists. exists e. split.
          + apply list_elem_of_fmap. exists (e, v). by rewrite elem_of_map_to_list.
          + unfold bad, edge_dep. rewrite He, Hps. done. }
      apply list_elem_of_fmap in Hin as ([x o] & -> & Hin). by exists o. }
    assert (Hen : ¬ enabled (sh s) v) by (intros He; by apply Hns, (ci_fire _ _ Hc)).
    assert (Hsome : ∃ e0, h_dep (sh s) !! e0 = Some v).
    { assert (Hnr : v ∉ roots_of g).
      { intros Hro. destruct (ci_roots _ _ Hc v Hro) as [?|[?|(l & Hl & _)]]; [by auto..|by eapply rest_frames]. }
      assert (Hl : dependencies_left (node_at g v) ≠ 0) by (intros Hl; apply Hnr, list_elem_of_filter; done).
      rewrite (left_is_indegree g L0 v Hw) in Hl. pose proof (occ_nonneg v (map_to_list (d_dep g)).*2).
      assert (Hin : v ∈ (map_to_list (d_dep g)).*2) by (apply occ_pos; lia).
      apply list_elem_of_fmap in Hin as ([x d] & -> & Hx). apply elem_of_map_to_list in Hx. exists x. by eapply lookup_weaken. }
    destruct Hsome as [e0 He0]. destruct (Hdone e0 He0) as [o0 Ho0]. apply Hen.
    assert (Hed : ∀ e, h_dep (sh s) !! e = Some v → edge_dep (sh s) e = v) by (intros e He; unfold edge_dep; by rewrite He).
    destruct (gateType (nd (sh s) v)) eqn:Hg; [|exists e0, o0; by auto].
    exists e0, o0. split_and!; [done|by apply Hed|]. right. right. apply (left_zero _ _ _ Hc Hdv Hg). intros e He.
    destruct (Hdone e He) as [[] Ho]; [done|]. exfalso. apply Hen. exists e, OCancelled. auto.
Qed.

(** A list of nodes each of which depends on another of the list holds a cycle. *)
Lemma blocked_cycle s (S : list Z) : S ≠ [] → (∀ v, v ∈ S → ∃ p, p ∈ S ∧ depends s p v) → ∃ v, tc (depends s) v v.
Proof.
  intros HS Hp. set (adj := λ p, (filter (λ ev : Z * Z, h_src s !! ev.1 = Some p) (map_to_list (h_dep s))).*2).
  assert (Hadj : ∀ p v, v ∈ adj p ↔ depends s p v).
  { intros p v. unfold adj, depends. rewrite list_elem_of_fmap. split.
    - intros ([e d] & -> & [H1 H2%elem_of_map_to_list]%list_elem_of_filter). by exists e.
    - intros (e & H1 & H2). exists (e, v). split; [done|]. apply list_elem_of_filter. by rewrite elem_of_map_to_list. }
  destruct (predecessors_cycle S adj S HS) as [v Hv].
  - intros v Hv. destruct (Hp v Hv) as (p & Hpin & Hd). exists p. split; [done|]. split; [done|]. by apply Hadj.
  - exists v. eapply (tc_congruence (λ x, x)); [|exact Hv]. intros x y [_ H]. by apply Hadj.
Qed.

Lemma static_acyclic g s v : static g s → HasCycle g = false → tc (depends s) v v → False.
Proof.
  intros (Hdep & L & Hw & Hsrc) Hc Htc. assert (HasCycle g = true); [|congruence]. apply (HasCycle_wf g L Hw). exists v.
  eapply (tc_congruence (λ x, x)); [|exact Htc]. intros x y (e & He1 & He2). apply Hsrc in He1 as [H1 H2]. split; [done|].
  rewrite (dependents_spec g L) by done. apply list_elem_of_fmap. exists e. split; [|done]. unfold dep_of. by rewrite <- Hdep, He2.
Qed.

(** C17: A graph comes to an end.  Take any graph accepted by [Submit] and any execution
    (tasks run, discarded or refused by the scheduler, external nodes signalled at any
    time, the graph cancelled at any time, edges added while it runs).  When it comes to rest,
    with no thread in the graph's functions, no task queued and every armed external node
    signalled, every node has finished: no node waits forever for a notification.  If edges
    were added after [Submit], which does not check them, this is under the condition that
    they lead between nodes of the graph and that the edges close no cycle. *)
Theorem dag_completes dyn g s v :
  built g → reachable (dinit g) (dstep dyn) s → at_rest s →
  dyn = false ∨ ((∀ e p, h_src (sh s) !! e = Some p → p ∈ d_nodes g) ∧ ∀ w, ¬ tc (depends (sh s)) w w) →
  v ∈ d_nodes g → v ∈ h_retired (sh s) ∧ v ∈ (h_finished (sh s)).*1.
Proof.
  intros Hb Hreach Hr Hgood Hv.
  assert (Hclosed : ∀ e p, h_src (sh s) !! e = Some p → p ∈ d_nodes g).
  { destruct Hgood as [->|[? _]]; [|done]. destruct (reachable_static _ _ Hreach) as [(_ & L & _ & Hsrc) _]. by intros e p [? _]%Hsrc. }
  assert (Hret : v ∈ h_retired (sh s)).
  { destruct (decide (v ∈ h_retired (sh s))) as [|Hn]; [done|]. exfalso.
    destruct (blocked_cycle (sh s) (filter (λ v, v ∉ h_retired (sh s)) (d_nodes g))) as [w Hw].
    - intros He. assert (Hin : v ∈ filter (λ v, v ∉ h_retired (sh s)) (d_nodes g)) by by apply list_elem_of_filter.
      rewrite He in Hin. by apply not_elem_of_nil in Hin.
    - intros w [Hwn Hw]%list_elem_of_filter. destruct (rest_blocked dyn g s w Hreach Hr Hw Hwn) as (p & (e & He & Hd) & Hp).
      exists p. split; [|by exists e]. apply list_elem_of_filter. split; [done|by eapply Hclosed].
    - destruct Hgood as [->|[_ Hac]]; [|by apply (Hac w)]. destruct (reachable_static _ _ Hreach) as [Hst Hnc].
      by eapply static_acyclic. }
  split; [done|]. destruct (reachable_dinv _ _ _ Hreach) as (_ & Hf & _). unfold finv in Hf. rewrite Hf. set_solver.
Qed.
