(* ===== verification/TaskDagOrder.v ===== *)
(** * Task graphs: ordering, and the lifetime of OR gates (src/TaskDAG.cpp)

    On the executions of [TaskDagRun], edges added while the graph runs included: an AND node
    is started, queued or completed only after every node it depends on has completed, for the
    dependencies submitted and those added before the node was due; an OR gate is retired while the other
    dependencies still have edges to it.  Also the concrete runs that witness the theorems
    on graph execution. *)

From S2P Require Import Prelude TaskTypes TaskDag TaskDagRun.

(** ** What a step keeps *)

(** Node [v] may run, as far as the edges [D] go: every one of them into it was delivered by a
    completed dependency. *)
Definition clear (D : gmap Z Z) (s : shared) (v : Z) : Prop :=
  gateType (nd s v) = AND → ∀ e, D !! e = Some v → (e, Completed) ∈ h_delivered s.

Record later (s s' : shared) : Prop := {
  la_dep : h_dep s ⊆ h_dep s';
  la_gate v : gateType (nd s' v) = gateType (nd s v);
  la_del eo : eo ∈ h_delivered s → eo ∈ h_delivered s' }.

Lemma clear_later D s s' v : later s s' → clear D s v → clear D s' v.
Proof. intros [H1 H2 H3] Hc Hg e. rewrite H2 in Hg. eauto. Qed.

#[global] Instance later_preorder : PreOrder later.
Proof.
  split; [by constructor|]. intros s1 s2 s3 [A1 A2 A3] [B1 B2 B3]. constructor; [by etrans| |auto].
  intros v. by rewrite B2, A2.
Qed.

Lemma later_nd v n s : gateType n = gateType (nd s v) → later s (set_nd v n s).
Proof. intros Hn. constructor; try done. intros w. rewrite nd_set. case_decide; by subst. Qed.

Lemma later_dispose v s : later s (DisposeUnexecutedTask v s).
Proof.
  constructor; try (unfold DisposeUnexecutedTask; by case_match). intros w.
  destruct (nd_dispose v s w) as [-> | ->]; [by case_decide|done].
Qed.

Lemma later_log e o s : later s (log_delivered e o s).
Proof. constructor; try done. intros eo. simpl. rewrite elem_of_app. by left. Qed.

Lemma later_notify d o s s' fs : notify d o s = (s', fs) → later s s'.
Proof. unfold notify. destruct o; [destruct (gateType _)|]; intros [= <- <-]; [by apply later_nd|done|done]. Qed.

Lemma later_go v o s s' fs : fire_go v o s = (s', fs) → later s s'.
Proof.
  unfold fire_go. intros Hgo. repeat case_match; injection Hgo as <- <-; try by constructor.
  all: trans (log_started v OCancelled s); [by constructor|apply later_dispose].
Qed.

Lemma later_frame s f s' fs : frame_step s f s' fs → later s s'.
Proof.
  intros [w o Hsub|w o Hsub|w o s1 fs1 Hgo|w|w|w|w o|w o head done cur s1 fs1 Hne Hn|w o head done Hh
    |w o head done|w|w l| |e d p|e d p head s1 fs1 Hse Hn|e d p head Hse|e d p head Hh|e d p head];
    try by constructor.
  - by apply later_nd.
  - by eapply later_go.
  - by apply later_nd.
  - apply later_dispose.
  - etrans; [apply later_log|by eapply later_notify].
  - by apply later_nd.
  - etrans; [apply later_log|by eapply later_notify].
  - by apply later_nd.
Qed.

Lemma later_idle dyn s s' fs : idle_step dyn s s' fs → later s s'.
Proof.
  intros [w q1 q2 Hq|w q1 q2 Hq|w Hw Hx|e d p Hdyn He Hal Hfr Hdn Hpn|]; try by constructor.
  - by apply later_nd.
  - constructor; cbn [h_dep h_delivered]; [by apply insert_subseteq| |done]. intros v. unfold nd at 1. cbn [h_node].
    destruct (decide (d = v)) as [->|Hn]; [by rewrite lookup_insert_eq|by rewrite lookup_insert_ne].
Qed.

(** An edge keeps its source. *)
Lemma kept_sources dyn s s' e q :
  rtc (dstep dyn) s s' → is_Some (h_dep (sh s) !! e) → h_src (sh s) !! e = Some q → h_src (sh s') !! e = Some q.
Proof.
  induction 1 as [|x y z Hxy _ IH]; [done|]. intros He Hq.
  assert (is_Some (h_dep (sh y) !! e) ∧ h_src (sh y) !! e = Some q) as [? ?]; [|by apply IH].
  destruct Hxy as [i f k s1 fs Hk Hs|i s1 fs Hk Hs|v Hv Hf Hall]; cbn [sh]; [| |done].
  - apply frame_static in Hs as [-> ->]. done.
  - destruct Hs as [| | |e' d p Hdyn He' Hal Hfr Hdn Hpn|]; try done. cbn [h_dep h_src].
    destruct (decide (e' = e)) as [->|Hn]; [rewrite Hfr in He; by destruct He|]. by rewrite !lookup_insert_ne.
Qed.

(** ** The invariant *)

(** The frame is about to run [v], or to complete it. *)
Definition under_way (f : frame) (v : Z) : Prop :=
  match f with
  | FFire w Completed | FGo w Completed | FExt w | FDispatch w | FFinish w Completed
  | FWalk w Completed _ _ _ => w = v
  | FRoots l => v ∈ l
  | _ => False
  end.
Definition frame_clear (D : gmap Z Z) (s : shared) (f : frame) : Prop :=
  match f with
  | FFire v Completed | FGo v Completed | FExt v | FDispatch v | FFinish v Completed
  | FWalk v Completed _ _ _ => clear D s v
  | FRoots l => Forall (clear D s) l
  | _ => True
  end.

Lemma frame_clear_intro D s f : (∀ v, under_way f v → clear D s v) → frame_clear D s f.
Proof.
  destruct f as [v o|v o|v|v|v o|v o head dn cur|v|l|e d p|e d p head|e d p head]; cbn; try done; try (destruct o; [|done]);
    try (intros H; by apply H). intros H. by apply Forall_forall.
Qed.

Definition armed (s : shared) (v : Z) : Prop := Z.testbit (extBits (nd s v)) 0 = true.

(** The places where the state says that [v] is under way or done. *)
Definition begun (s : shared) (v : Z) : Prop :=
  v ∈ h_queue s ∨ armed s v ∨ (v, Completed) ∈ h_started s ∨ (v, Completed) ∈ h_finished s.

Section order.
Context (D : gmap Z Z).

Record oinv (s : drun) : Prop := {
  oi_frame f : inF (stacks s) f → frame_clear D (sh s) f;
  oi_begun v : begun (sh s) v → clear D (sh s) v;
  oi_edges : D ⊆ h_dep (sh s) }.

Lemma frame_clear_later s s' f : later s s' → frame_clear D s f → frame_clear D s' f.
Proof.
  intros Hl. destruct f as [v o|v o|v|v|v o|v o head dn cur|v|l|e d p|e d p head|e d p head]; simpl; try done;
    try (destruct o; [|done]); try exact (clear_later _ _ _ _ Hl).
  intros Hf. eapply Forall_impl; [exact Hf|]. intros v. exact (clear_later _ _ _ _ Hl).
Qed.

(** A step of a top frame keeps the invariant when its new frames are clear and what it
    newly begins is. *)
Lemma oinv_frame s i f k s' fs :
  oinv s → stacks s !! i = Some (f :: k) → later (sh s) s' →
  (∀ f', f' ∈ fs → frame_clear D s' f') → (∀ v, begun s' v → begun (sh s) v ∨ clear D s' v) →
  oinv (mkRun s' (<[i := fs ++ k]> (stacks s))).
Proof.
  intros [O1 O2 O3] Hk Hl Hfs Hb. constructor; cbn [sh stacks].
  - intros f' [Hf|Hf]%inF_top; [by apply Hfs|]. apply (frame_clear_later _ _ _ Hl), O1. by eapply inF_rest.
  - intros v [Hv|Hv]%Hb; [|done]. by apply (clear_later _ _ _ _ Hl), O2.
  - etrans; [exact O3|apply (la_dep _ _ Hl)].
Qed.

Lemma begun_same s s' :
  h_queue s' = h_queue s → h_started s' = h_started s → h_finished s' = h_finished s →
  (∀ v, extBits (nd s' v) = extBits (nd s v)) → ∀ v, begun s' v → begun s v ∨ clear D s' v.
Proof. intros H1 H2 H3 H4 v. unfold begun, armed. rewrite H1, H2, H3, H4. by left. Qed.

(** The frame [notify] leaves, in a state with exact counts. *)
Lemma notify_clear rs s' ts' d o s1 fs :
  D ⊆ h_dep s' → cinv rs (mkRun s' ts') → dinv (mkRun s' ts') → notify d o s1 = (s', fs) → ∀ f, f ∈ fs → frame_clear D s' f.
Proof.
  intros Hsub Hc Hd Hn f Hf. unfold notify in Hn. destruct o; [destruct (gateType (nd s1 d)) eqn:Hg|].
  - injection Hn as <- <-. destruct (_ =? 0) eqn:Hl; [|by apply not_elem_of_nil in Hf].
    apply list_elem_of_singleton in Hf as ->. intros Hg' e He. pose proof (left_zero _ _ _ Hc Hd Hg') as [Hz _].
    apply Hz; [|by eapply lookup_weaken]. cbn [sh]. rewrite nd_set, decide_True by done. simpl. lia.
  - injection Hn as <- <-. apply list_elem_of_singleton in Hf as ->. intros Hg'. congruence.
  - injection Hn as <- <-. by apply list_elem_of_singleton in Hf as ->.
Qed.

(** [Fire] past its exchange: what it starts as completed was clear. *)
Lemma go_clear v o s s' fs :
  fire_go v o s = (s', fs) → (o = Completed → clear D s v) →
  (∀ f, f ∈ fs → frame_clear D s' f) ∧ (∀ w, begun s' w → begun s w ∨ clear D s' w).
Proof.
  intros Hgo Hv. pose proof (later_go _ _ _ _ _ Hgo) as Hl.
  assert (Hc : o = Completed → clear D s' v) by (intros ->; by eapply clear_later, Hv).
  assert (Hlog : ∀ o' w, h_started s' = h_started s ++ [(v, o')] → h_queue s' = h_queue s →
    h_finished s' = h_finished s → extBits (nd s' w) = extBits (nd s w) → (o' = Completed → o = Completed) →
    begun s' w → begun s w ∨ clear D s' w).
  { unfold begun, armed. intros o' w -> -> -> -> Ho. rewrite elem_of_app, list_elem_of_singleton.
    intros [?|[?|[[?|[= -> <-]]|?]]]; auto 6. }
  unfold fire_go in Hgo. destruct (h_cancelled s); [|destruct o].
  - injection Hgo as <- <-. split; [by intros f ->%list_elem_of_singleton|]. intros w. apply (Hlog OCancelled); try done.
    all: unfold DisposeUnexecutedTask; case_match; try done. unfold nd; simpl.
    destruct (decide (v = w)) as [->|]; [by rewrite lookup_insert_eq|by rewrite lookup_insert_ne].
  - repeat case_match; injection Hgo as <- <-; (split; [intros f ->%list_elem_of_singleton; by apply Hc|]);
      intros w; by apply (Hlog Completed).
  - injection Hgo as <- <-. split; [by intros f ->%list_elem_of_singleton|]. intros w. apply (Hlog OCancelled); try done.
    all: unfold DisposeUnexecutedTask; case_match; try done. unfold nd; simpl.
    destruct (decide (v = w)) as [->|]; [by rewrite lookup_insert_eq|by rewrite lookup_insert_ne].
Qed.

Lemma ext_armed_bits b : Z.testbit (Z.lor b EXT_ARMED) 0 = true ∧ Z.testbit (Z.lor b EXT_SIGNALLED) 0 = Z.testbit b 0.
Proof. unfold EXT_ARMED, EXT_SIGNALLED. rewrite !Z.lor_spec. simpl. by rewrite orb_true_r, orb_false_r. Qed.

Lemma notify_begun d o s s' fs : notify d o s = (s', fs) → ∀ v, begun s' v → begun s v ∨ clear D s' v.
Proof.
  unfold notify. destruct o; [destruct (gateType _)|]; intros [= <- <-]; apply begun_same; try done.
  intros v. rewrite nd_set. case_decide; by subst.
Qed.

Lemma oinv_step_frame rs s i f k s' fs :
  oinv s → stacks s !! i = Some (f :: k) → frame_step (sh s) f s' fs →
  cinv rs (mkRun s' (<[i := fs ++ k]> (stacks s))) → dinv (mkRun s' (<[i := fs ++ k]> (stacks s))) →
  oinv (mkRun s' (<[i := fs ++ k]> (stacks s))).
Proof.
  intros Ho Hk Hs Hc' Hd'. assert (Hin : inF (stacks s) f) by (exists i, (f :: k); set_solver).
  pose proof (oi_frame _ Ho f Hin) as Hf. pose proof (later_frame _ _ _ _ Hs) as Hl.
  assert (HD : D ⊆ h_dep s') by (etrans; [apply (oi_edges _ Ho)|apply (la_dep _ _ Hl)]).
  apply (oinv_frame _ _ _ _ _ _ Ho Hk Hl).
  - pose proof (frame_clear_later _ _ _ Hl Hf) as Hf'.
    destruct Hs as [w o Hsub|w o Hsub|w o s1 fs1 Hgo|w|w|w|w o|w o head dn cur s1 fs1 Hne Hn|w o head dn Hh
      |w o head dn|w|w l| |e d p|e d p head s1 fs1 Hse Hn|e d p head Hse|e d p head Hh|e d p head];
      try (by intros ? ?%not_elem_of_nil); try (by intros f' ->%list_elem_of_singleton).
    + apply (go_clear _ _ _ _ _ Hgo). by intros ->.
    + intros f'. case_match; [|by intros ?%not_elem_of_nil]. by intros ->%list_elem_of_singleton.
    + intros f' [Hf1|Hf1]%elem_of_app; [by eapply notify_clear|]. by apply list_elem_of_singleton in Hf1 as ->.
    + apply Forall_cons in Hf' as [H1 H2]. intros f'. rewrite elem_of_cons, list_elem_of_singleton. by intros [->| ->].
    + by eapply notify_clear.
  - destruct Hs as [w o Hsub|w o Hsub|w o s1 fs1 Hgo|w|w|w|w o|w o head dn cur s1 fs1 Hne Hn|w o head dn Hh
      |w o head dn|w|w l| |e d p|e d p head s1 fs1 Hse Hn|e d p head Hse|e d p head Hh|e d p head]; try (by left).
    + apply begun_same; try done. intros v. rewrite nd_set. case_decide; by subst.
    + apply (go_clear _ _ _ _ _ Hgo). by intros ->.
    + intros v. unfold begun, armed. rewrite nd_set. case_decide as E; [|auto]. subst. right. by eapply clear_later.
    + intros v. unfold begun. simpl. rewrite elem_of_app, list_elem_of_singleton. intros [[?| ->]|?]; [by auto..|].
      left. by right.
    + apply begun_same; try (by unfold DisposeUnexecutedTask; case_match). intros v.
      destruct (nd_dispose w (sh s) v) as [-> | ->]; [by case_decide|done].
    + intros v. unfold begun. simpl. rewrite elem_of_app, list_elem_of_singleton.
      intros [?|[?|[?|[?|[= -> <-]]]]]; [left; by auto..|by right].
    + by apply (notify_begun _ _ _ _ _ Hn).
    + apply begun_same; try done. intros v. rewrite nd_set. case_decide; by subst.
    + by apply (notify_begun _ _ _ _ _ Hn).
    + apply begun_same; try done. intros v. rewrite nd_set. case_decide; by subst.
Qed.

Lemma oinv_idle dyn s i s' fs :
  oinv s → stacks s !! i = Some [] → idle_step dyn (sh s) s' fs → oinv (mkRun s' (<[i := fs]> (stacks s))).
Proof.
  intros [O1 O2 O3] Hk Hs. pose proof (later_idle _ _ _ _ Hs) as Hl.
  assert (Hfb : (∀ f, f ∈ fs → frame_clear D s' f) ∧ ∀ v, begun s' v → begun (sh s) v).
  { destruct Hs as [w q1 q2 Hq|w q1 q2 Hq|w Hw Hx|e d p Hdyn He Hal Hfr Hdn Hpn|].
    - split.
      + intros f ->%list_elem_of_singleton. apply O2. left. rewrite Hq. set_solver.
      + intros v. unfold begun. simpl. rewrite Hq. set_solver.
    - split; [by intros f ->%list_elem_of_singleton|]. intros v. unfold begun. simpl. rewrite Hq. set_solver.
    - set (s1 := set_nd _ _ _) in *. split.
      + intros f. case_match; [by intros ?%not_elem_of_nil|]. case_match eqn:E; [|by intros ?%not_elem_of_nil].
        intros ->%list_elem_of_singleton. apply (clear_later _ _ _ _ Hl), O2. right. left. unfold armed.
        apply negb_true_iff, Z.eqb_neq in E. unfold EXT_ARMED in E.
        destruct (Z.testbit (extBits (nd (sh s) w)) 0) eqn:Eb; [done|]. destruct E.
        apply Z.bits_inj'. intros n Hn. rewrite Z.land_spec, Z.bits_0. destruct (decide (n = 0)) as [->|]; [by rewrite Eb|].
        rewrite (Z.bits_above_log2 1 n), andb_false_r; [done|lia|simpl; lia].
      + intros v. unfold begun, armed, s1. rewrite nd_set. case_decide as E; [|done]. subst.
        cbn [set_extBits extBits]. by rewrite (proj2 (ext_armed_bits _)).
    - split; [by intros f ->%list_elem_of_singleton|]. intros v. unfold begun, armed. cbn [h_queue h_started h_finished]. unfold nd at 1. cbn [h_node].
      destruct (decide (d = v)) as [->|Hn]; [by rewrite lookup_insert_eq|by rewrite lookup_insert_ne].
    - split; [by intros f ?%not_elem_of_nil|done]. }
  destruct Hfb as [Hfs Hb]. constructor; cbn [sh stacks].
  - intros f [Hf|Hf]%inF_idle; [by apply Hfs| |done]. by apply (frame_clear_later _ _ _ Hl), O1.
  - intros v Hv. by apply (clear_later _ _ _ _ Hl), O2, Hb.
  - etrans; [exact O3|apply (la_dep _ _ Hl)].
Qed.

Lemma oinv_run dyn g s0 s : reachable (dinit g) (dstep dyn) s0 → oinv s0 → rtc (dstep dyn) s0 s → oinv s.
Proof.
  intros Hr Ho Hst. revert Hr Ho. induction Hst as [x|x y z Hxy _ IH]; [done|]. intros Hr Ho.
  assert (Hr' : reachable (dinit g) (dstep dyn) y) by by eapply reachable_step. apply IH; [done|].
  destruct (reachable_cinv _ _ _ Hr') as (_ & _ & Hd & Hc). destruct Hxy as [i f k s1 fs Hk Hs|i s1 fs Hk Hs|v Hv Hf Hall].
  - by eapply oinv_step_frame.
  - by eapply oinv_idle.
  - by destruct Ho.
Qed.
End order.

(** Node [v] has not been begun, and no frame is about to begin it. *)
Definition untouched (s : drun) (v : Z) : Prop := ¬ begun (sh s) v ∧ ∀ f, inF (stacks s) f → ¬ under_way f v.

(** An edge into an untouched node is delivered before the node is begun. *)
Lemma untouched_edge dyn g s0 s e v :
  reachable (dinit g) (dstep dyn) s0 → rtc (dstep dyn) s0 s → untouched s0 v → h_dep (sh s0) !! e = Some v →
  gateType (nd (sh s) v) = AND → begun (sh s) v → (e, Completed) ∈ h_delivered (sh s).
Proof.
  intros Hr Hst [Hb Hf] He Hg Hv. eapply (oi_begun {[e := v]}); [|exact Hv|done|apply lookup_singleton_eq]. eapply oinv_run; [done| |done].
  constructor.
  - intros f Hin. apply frame_clear_intro. intros w Hw _ x [-> ->]%lookup_singleton_Some. by destruct (Hf f Hin).
  - by intros w Hw _ x [-> ->]%lookup_singleton_Some.
  - by apply map_singleton_subseteq_l.
Qed.

(** In the state [Submit] leaves, a node with a dependency is untouched. *)
Lemma submitted_untouched g s e v : dinit g s → d_dep g !! e = Some v → untouched s v.
Proof.
  intros (L & ts & src & roots & ng & Hw & Hsub & Hsrc & Hts & ->) He. apply submit_roots in Hsub as [_ ->]. split; cbn [sh stacks].
  - unfold begun, armed. simpl. rewrite !elem_of_nil. intros [?|[Hv|[?|?]]]; try done. unfold nd in Hv. simpl in Hv.
    destruct (d_node g !! v) as [n|] eqn:E; [|done]. apply (dw_new _ _ Hw) in E as (_ & _ & E). simpl in Hv. by rewrite E in Hv.
  - intros f (i & k & Hi & Hf). apply lookup_insert_Some in Hi as [[<- <-]|[_ Hi]].
    + apply list_elem_of_singleton in Hf as ->. cbn. intros [Hl Hv]%list_elem_of_filter. rewrite (left_is_indegree g L v Hw) in Hl.
      assert (Hin : v ∈ (map_to_list (d_dep g)).*2) by (apply list_elem_of_fmap; exists (e, v); by rewrite elem_of_map_to_list).
      apply occ_pos in Hin. lia.
    + rewrite (Hts _ _ Hi) in Hf. by apply not_elem_of_nil in Hf.
Qed.

Lemma reachable_gate dyn g s v : reachable (dinit g) (dstep dyn) s → gateType (nd (sh s) v) = gateType (node_at g v).
Proof.
  revert s. apply reachable_ind; [by intros s (L & ts & src & roots & ng & _ & _ & _ & _ & ->)|].
  intros s s' IH [i f k s1 fs Hk Hs|i s1 fs Hk Hs|w Hw Hf Hall]; cbn [sh]; [| |done]; rewrite <- IH; apply la_gate.
  - by eapply later_frame.
  - by eapply later_idle.
Qed.

(** C18: Dependencies order execution.  In every execution of a submitted graph, edges added
    while it runs included, a node that waits for all of its dependencies is handed to the
    scheduler, armed, started or completed only when each dependency it was submitted with
    has already completed: not one of them is still running, and none was cancelled.  The
    same holds of a dependency added after [Submit], if it was added before the node was due:
    while the node was not begun and no thread was about to fire it.  (An edge added later
    than that cannot hold the node back.) *)
Theorem dag_order dyn g s p v :
  reachable (dinit g) (dstep dyn) s → gateType (node_at g v) = AND → begun (sh s) v →
  (p ∈ d_nodes g → v ∈ dependents g p → (p, Completed) ∈ h_finished (sh s)) ∧
  (∀ s0, reachable (dinit g) (dstep dyn) s0 → rtc (dstep dyn) s0 s → untouched s0 v → depends (sh s0) p v →
     (p, Completed) ∈ h_finished (sh s)).
Proof.
  intros Hr Hg Hb. destruct (reachable_dinv _ _ _ Hr) as (_ & _ & L' & Hd). rewrite <- (reachable_gate dyn g s v Hr) in Hg.
  assert (Hedge : ∀ s0 e, reachable (dinit g) (dstep dyn) s0 → rtc (dstep dyn) s0 s → untouched s0 v → h_dep (sh s0) !! e = Some v →
    h_src (sh s0) !! e = Some p → (p, Completed) ∈ h_finished (sh s)).
  { intros s0 e Hr0 Hst Hu He Hp. pose proof (untouched_edge _ _ _ _ _ _ Hr0 Hst Hu He Hg Hb) as Hdel.
    apply (si_from _ _ _ _ Hd) in Hdel as (_ & p' & Hp' & Hfin).
    assert (h_src (sh s) !! e = Some p) by (eapply kept_sources; [done|by eexists|done]). congruence. }
  split; [|intros s0 Hr0 Hst Hu (e & H1 & H2); by eapply Hedge]. intros Hp Hv. destruct Hr as (s0 & H0 & Hst).
  pose proof (reachable_init _ (dstep dyn) _ H0) as Hr0. pose proof H0 as (L & ts & src & roots & ng & Hw & _ & Hsrc & _ & ->).
  rewrite (dependents_spec g L) in Hv by done. apply list_elem_of_fmap in Hv as (e & Hv & He).
  assert (Hsome : d_dep g !! e = Some v).
  { destruct (dw_dep _ _ Hw e) as [[d Hde] _]; [by eapply in_all_edges|]. unfold dep_of in Hv. rewrite Hde in *. by rewrite Hv. }
  apply (Hedge _ e Hr0 Hst); [by eapply submitted_untouched|done|]. by apply Hsrc.
Qed.

(** ** Executable runs

    One scheduler's choice of the steps, to run concrete graphs: exchanges succeed when
    they can, every task is queued, tasks run in queue order. *)

Definition frame_exec (s : shared) (f : frame) : shared * list frame :=
  match f with
  | FFire v o => if n_submitted (nd s v) then (s, []) else (set_nd v (set_submitted true (nd s v)) s, [FGo v o])
  | FGo v o => fire_go v o s
  | FExt v => (set_nd v (set_extBits (Z.lor (extBits (nd s v)) EXT_ARMED) (nd s v)) s,
      if negb (Z.land (extBits (nd s v)) EXT_SIGNALLED =? 0) then [FFinish v Completed] else [])
  | FDispatch v => (set_queue (h_queue s ++ [v]) s, [])
  | FFinish v o => (log_finished v o s, [FWalk v o (firstEdge (nd s v)) 0 (EdgePtr (firstEdge (nd s v)))])
  | FWalk v o head done cur =>
      if cur =? done then
        if firstEdge (nd s v) =? head
        then (set_nd v (set_firstEdge (EdgeSeal (EdgePtr head) (is_cancelled o)) (nd s v)) s, [FRetire v])
        else (s, [FWalk v o (firstEdge (nd s v)) (EdgePtr head) (EdgePtr (firstEdge (nd s v)))])
      else
        let r := notify (edge_dep s cur) o (log_delivered cur o s) in
        (r.1, r.2 ++ [FWalk v o head done (next_of (h_next s) cur)])
  | FRetire v => (retire v s, [])
  | FRoots [] => (s, [])
  | FRoots (v :: l) => (s, [FFire v Completed; FRoots l])
  | FAddLoad e d p => (s, [FAddTry e d p (firstEdge (nd s p))])
  | FAddTry e d p head =>
      if EdgeSealed head
      then notify d (seal_outcome (EdgeCancelled head)) (log_delivered e (seal_outcome (EdgeCancelled head)) s)
      else (set_next e (EdgePtr head) s, [FAddCas e d p head])
  | FAddCas e d p head =>
      if firstEdge (nd s p) =? head then (set_nd p (set_firstEdge e (nd s p)) s, [])
      else (s, [FAddTry e d p (firstEdge (nd s p))])
  end.

Lemma frame_exec_step s f : frame_step s f (frame_exec s f).1 (frame_exec s f).2.
Proof.
  destruct f as [v o|v o|v|v|v o|v o head dn cur|v|[|v l]|e d p|e d p head|e d p head]; simpl; try by constructor.
  - destruct (n_submitted (nd s v)) eqn:E; by constructor.
  - destruct (fire_go v o s) eqn:E. by constructor.
  - destruct (cur =? dn) eqn:E.
    + apply Z.eqb_eq in E as ->. destruct (_ =? head) eqn:E; [apply Z.eqb_eq in E|]; by constructor.
    + apply Z.eqb_neq in E. destruct (notify _ _ _) eqn:Hn. by constructor.
  - destruct (EdgeSealed head) eqn:E; [|by constructor]. destruct (notify _ _ _) eqn:Hn. by eapply s_add_sealed.
  - destruct (_ =? head) eqn:E; [apply Z.eqb_eq in E|]; by constructor.
Qed.

#[global] Instance frame_eq_dec : EqDecision frame.
Proof. solve_decision. Defined.

Inductive action := ACall (i : nat) | ARun (i : nat) | ASignal (i : nat) (v : Z) | AFree (v : Z).

Fixpoint call_exec (fuel : nat) (i : nat) (s : drun) : drun :=
  match fuel, stacks s !! i with
  | S fuel, Some (f :: k) =>
      call_exec fuel i (mkRun (frame_exec (sh s) f).1 (<[i := (frame_exec (sh s) f).2 ++ k]> (stacks s)))
  | _, _ => s
  end.

Definition act_exec (a : action) (s : drun) : drun :=
  match a with
  | ACall i => call_exec 100 i s
  | ARun i =>
      match stacks s !! i, h_queue (sh s) with
      | Some [], v :: q => mkRun (set_queue q (sh s)) (<[i := [FFinish v Completed]]> (stacks s))
      | _, _ => s
      end
  | ASignal i v =>
      if decide (stacks s !! i = Some [] ∧ is_Some (h_node (sh s) !! v) ∧ isExternal (nd (sh s) v) = true)
      then mkRun (set_nd v (set_extBits (Z.lor (extBits (nd (sh s) v)) EXT_SIGNALLED) (nd (sh s) v)) (sh s))
             (<[i := if negb (Z.land (extBits (nd (sh s) v)) EXT_SIGNALLED =? 0) then []
               else if negb (Z.land (extBits (nd (sh s) v)) EXT_ARMED =? 0) then [FFinish v Completed] else []]>
                (stacks s))
      else s
  | AFree v =>
      if decide (v ∈ h_retired (sh s) ∧ (v ∉ h_freed (sh s)) ∧ map_Forall (λ _ k, k = []) (stacks s))
      then mkRun (free_node v (sh s)) (stacks s) else s
  end.

Definition run (l : list action) (s : drun) : drun := fold_left (λ s a, act_exec a s) l s.

Lemma call_exec_rtc dyn fuel i s : rtc (dstep dyn) s (call_exec fuel i s).
Proof.
  revert s. induction fuel as [|fuel IH]; intros s; simpl; [done|].
  destruct (stacks s !! i) as [[|f k]|] eqn:E; [done| |done]. eapply rtc_l; [|apply IH].
  eapply d_frame; [done|apply frame_exec_step].
Qed.

Lemma act_exec_rtc dyn a s : rtc (dstep dyn) s (act_exec a s).
Proof.
  destruct a as [i|i|i v|v]; cbn [act_exec].
  - apply call_exec_rtc.
  - destruct (stacks s !! i) as [[|]|] eqn:E; [|done..]. destruct (h_queue (sh s)) as [|v q] eqn:Eq; [done|].
    apply rtc_once, d_idle; [done|]. by apply (i_run _ _ v [] q).
  - case_decide as E; [|done]. destruct E as (? & ? & ?). apply rtc_once, d_idle; [done|]. by constructor.
  - case_decide as E; [|done]. destruct E as (? & ? & Ha). apply rtc_once, d_free; [done|done|]. intros i k Hk. by apply (Ha i).
Qed.

Lemma run_rtc dyn l s : rtc (dstep dyn) s (run l s).
Proof.
  revert s. induction l as [|a l IH]; intros s; simpl; [done|]. etrans; [apply act_exec_rtc|apply IH].
Qed.

(** Every graph [Submit] accepts has an initial state. *)
Definition start (g : Dag) (src : gmap Z Z) : drun :=
  mkRun (mkSh (d_node g) (d_dep g) src (d_next g) false [] [] [] [] [] [] [])
    (<[0%nat := [FRoots (roots_of g)]]> {[1%nat := []]}).

Lemma start_init g : built g → HasCycle g = false → ∃ src, dinit g (start g src).
Proof.
  intros Hb Hc. destruct (built_wf g Hb) as [L Hw].
  set (pairs := v ← d_nodes g; (λ e, (e, v)) <$> L v).
  assert (Hin : ∀ e v, (e, v) ∈ pairs ↔ v ∈ d_nodes g ∧ e ∈ L v).
  { intros e v. unfold pairs. rewrite list_elem_of_bind. split.
    - intros (w & (x & [= -> ->] & Hx)%list_elem_of_fmap & Hw'). done.
    - intros [Hv He]. exists v. split; [|done]. apply list_elem_of_fmap. by exists e. }
  assert (Hfst : pairs.*1 = all_edges g L).
  { unfold pairs, all_edges. clear. induction (d_nodes g) as [|v l IH]; [done|]. rewrite bind_cons, fmap_app, IH.
    rewrite fmap_cons. simpl. f_equal. rewrite <- list_fmap_compose. by apply list_fmap_id. }
  exists (list_to_map pairs), L, {[1%nat := []]}, (list_to_map pairs), (roots_of g). unfold Submit. rewrite Hc.
  eexists. split_and!; [done|reflexivity| |by intros i k [_ <-]%lookup_singleton_Some|done].
  intros e v. rewrite <- Hin. symmetry. apply elem_of_list_to_map. rewrite Hfst. apply Hw.
Qed.

(** ** A graph with an OR gate *)

Definition gate_node (ty : LogicType) : TaskNode := mkNode 0 ty true false 0 0 0 false kNoAffinity 0 true false false.

(** Tasks 16 and 32, and the gate 48 of type [ty] over both. *)
Definition gate_graph (ty : LogicType) : Dag :=
  mkDag [16; 32; 48]
    {[16 := set_firstEdge 64 (node_for 1 NONE NONE); 32 := set_firstEdge 128 (node_for 2 NONE NONE);
      48 := set_left 2 (gate_node ty)]}
    {[64 := 48; 128 := 48]} {[64 := 0; 128 := 0]} false.

Lemma gate_graph_built ty : built (gate_graph ty).
Proof.
  pose proof (b_node new_Dag 16 1 0 0 NONE NONE _ b_new ltac:(done) (not_elem_of_nil _) eq_refl) as H. simpl in H.
  eapply (b_node _ 32 2 0 0 NONE NONE) in H; [|done|set_solver|reflexivity].
  eapply (b_gate _ 48 ty) in H; [|done|set_solver|reflexivity].
  eapply (b_edge _ 64 48 16) in H; [|done|done|done|set_solver|set_solver|reflexivity].
  eapply (b_edge _ 128 48 32) in H; [|done|done|done|set_solver|set_solver|reflexivity].
  exact H.
Qed.

Lemma gate_graph_nodes ty v : v ∈ d_nodes (gate_graph ty) ↔ v = 16 ∨ v = 32 ∨ v = 48.
Proof. simpl. rewrite !elem_of_cons, elem_of_nil. tauto. Qed.

Lemma gate_graph_start ty : ∃ src, dinit (gate_graph ty) (start (gate_graph ty) src).
Proof. apply start_init; [apply gate_graph_built|by vm_compute]. Qed.

(** Submit, run both tasks. *)
Definition whole_run : list action := [ACall 0; ARun 0; ACall 0; ARun 1; ACall 1].

(** an OR gate is freed under its other dependencies.  The gate fires, finishes and is
    retired as soon as one dependency completes, while the others still have edges to it:
    after its memory is reclaimed, a dependency that finishes later walks its list to an
    edge whose dependent is the freed gate, and fires it. *)
Theorem dag_or_gate_uaf :
  ∃ s head cur, reachable (dinit (gate_graph OR)) (dstep false) s ∧
    stacks s !! 1%nat = Some [FWalk 32 Completed head 0 cur] ∧ cur ≠ 0 ∧ edge_dep (sh s) cur ∈ h_freed (sh s).
Proof.
  destruct (gate_graph_start OR) as [src H0].
  exists (call_exec 1 1 (run [ACall 0; ARun 0; ACall 0; AFree 48; ARun 1] (start (gate_graph OR) src))), 128, 128.
  split_and!.
  - eexists. split; [exact H0|]. etrans; [apply run_rtc|apply call_exec_rtc].
  - by vm_compute.
  - done.
  - replace (edge_dep _ _) with 48 by by vm_compute. replace (h_freed _) with [48] by by vm_compute. set_solver.
Qed.

(** ** Witnesses *)

Lemma gate_run_reachable ty l src :
  dinit (gate_graph ty) (start (gate_graph ty) src) → reachable (dinit (gate_graph ty)) (dstep false) (run l (start (gate_graph ty) src)).
Proof. intros H0. eexists. split; [exact H0|apply run_rtc]. Qed.

Lemma dag_runs_once_witness :
  ∃ s, h_finished (sh s) = [(16, Completed); (32, Completed); (48, Completed)] ∧
    NoDup (h_retired (sh s)) ∧ NoDup (h_delivered (sh s)).*1.
Proof.
  destruct (gate_graph_start AND) as [src H0]. exists (run whole_run (start (gate_graph AND) src)).
  split; [by vm_compute|].
  destruct (dag_runs_once false (gate_graph AND) (run whole_run (start (gate_graph AND) src))) as (_ & H1 & H2 & _); [|done].
  by apply gate_run_reachable.
Defined.

Lemma whole_run_rest src : at_rest (run whole_run (start (gate_graph AND) src)).
Proof.
  assert (Hs : map_Forall (λ _ k, k = []) (stacks (run whole_run (start (gate_graph AND) src)))).
  { replace (stacks _) with (<[0%nat := []]> {[1%nat := []]} : gmap nat (list frame)) by by vm_compute.
    intros i k [[_ <-]|[_ Hk]]%lookup_insert_Some; [done|]. by apply lookup_singleton_Some in Hk as [_ <-]. }
  split_and!; [intros i k; apply Hs|by vm_compute|]. intros v. unfold ext_wait.
  assert (Hn : map_Forall (λ _ n, isExternal n = false) (h_node (sh (run whole_run (start (gate_graph AND) src))))).
  { set (m := h_node _). assert (bool_decide (map_Forall (λ _ n, isExternal n = false) m) = true) as Hb by by vm_compute.
    by apply bool_decide_eq_true in Hb. }
  unfold nd. destruct (h_node _ !! v) as [n|] eqn:E; [|done]. simpl. by rewrite (Hn v n E).
Qed.

Lemma dag_completes_witness :
  ∃ s, at_rest s ∧ 48 ∈ h_retired (sh s) ∧ 48 ∈ (h_finished (sh s)).*1.
Proof.
  destruct (gate_graph_start AND) as [src H0]. exists (run whole_run (start (gate_graph AND) src)).
  split; [apply whole_run_rest|].
  assert (Hv : 48 ∈ d_nodes (gate_graph AND)) by (apply gate_graph_nodes; auto).
  exact (dag_completes false (gate_graph AND) _ 48 (gate_graph_built AND) (gate_run_reachable AND whole_run src H0)
    (whole_run_rest src) (or_introl eq_refl) Hv).
Defined.

Lemma dag_order_witness :
  ∃ s, begun (sh s) 48 ∧ (16, Completed) ∈ h_finished (sh s).
Proof.
  destruct (gate_graph_start AND) as [src H0]. exists (run whole_run (start (gate_graph AND) src)).
  assert (Hb : begun (sh (run whole_run (start (gate_graph AND) src))) 48).
  { right. right. right. replace (h_finished _) with [(16, Completed); (32, Completed); (48, Completed)] by by vm_compute.
    rewrite !elem_of_cons. auto. }
  split; [exact Hb|].
  assert (Hp : 16 ∈ d_nodes (gate_graph AND)) by (apply gate_graph_nodes; auto).
  assert (Hd : 48 ∈ dependents (gate_graph AND) 16).
  { replace (dependents _ _) with [48] by by vm_compute. by apply list_elem_of_singleton. }
  exact (proj1 (dag_order false (gate_graph AND) _ 16 48 (gate_run_reachable AND whole_run src H0) eq_refl Hb) Hp Hd).
Defined.
