(* ===== verification/TimerWheel.v ===== *)
(** * The timer wheel (src/Timer.cpp)

    Armed timers sit in a wheel of four levels of 256 slots: level 0 holds the next 256
    ticks, each higher level 256 times coarser slots, whose entries cascade down when the
    clock reaches the slot.  A slot is a doubly linked list through the entry table, a
    bitmap per level tells which slots are occupied, and released entries form a free list.

    Shown here: the search of the bitmap agrees with trying the slots one by one; every
    operation keeps the table, the slot lists, the bitmap, the free list and the count of
    armed timers consistent, so that an armed timer is in exactly one slot until it fires or
    is disarmed. *)

From S2P Require Import Prelude.

(** ** Occupancy bitmap of one level *)

Definition kLevels : Z := 4.
Definition kSlotBits : Z := 8.
Definition kSlots : Z := 256.
Definition kSlotMask : Z := kSlots - 1.
Definition kOccWords : Z := kSlots / 64.
Definition kMaxTicks : Z := Z.shiftl 1 (kSlotBits * kLevels).
Definition LevelGranularity (level : Z) : Z := Z.shiftl 1 (kSlotBits * level).

Fixpoint ctz_loop (fuel : nat) (w i : Z) : Z :=
  match fuel with O => i | S n => if Z.testbit w i then i else ctz_loop n w (i + 1) end.
Definition CountTrailingZeros64 (w : Z) : Z := ctz_loop 64 w 0.

(** [~uint64_t(0) << b] *)
Definition ones_from (b : Z) : Z := u64 (Z.shiftl (2 ^ 64 - 1) b).

(** The words of the level after the first: [n] of them left, [i] the next. *)
Fixpoint next_words (n : nat) (occ : Z → Z) (startWord i : Z) : option Z :=
  match n with
  | O => None
  | S n' =>
      let wi := (startWord + i) `mod` kOccWords in
      if occ wi =? 0 then next_words n' occ startWord (i + 1)
      else Some (Z.shiftl wi 6 + CountTrailingZeros64 (occ wi))
  end.

Definition NextOccupied (occ : Z → Z) (from : Z) : Z :=
  let startWord := Z.shiftr from 6 in
  let startBit := Z.land from 63 in
  let w := Z.land (occ startWord) (ones_from startBit) in
  if negb (w =? 0) then Z.shiftl startWord 6 + CountTrailingZeros64 w
  else match next_words 3 occ startWord 1 with
       | Some s => s
       | None =>
           let w := Z.land (occ startWord) (Z.lxor (ones_from startBit) (2 ^ 64 - 1)) in
           if negb (w =? 0) then Z.shiftl startWord 6 + CountTrailingZeros64 w else kSlots
       end.

(** Slot [s] is marked. *)
Definition marked (occ : Z → Z) (s : Z) : bool := Z.testbit (occ (Z.shiftr s 6)) (Z.land s 63).

(** The reference: try the slots one by one, from [from] around the level. *)
Fixpoint scan_slots (n : nat) (occ : Z → Z) (s : Z) : Z :=
  match n with
  | O => kSlots
  | S n' => if marked occ s then s else scan_slots n' occ (Z.land (s + 1) kSlotMask)
  end.

Section bitmap.
Context (occ : Z → Z) (from : Z).
Hypothesis Hocc : ∀ i, (0 ≤ occ i < 2 ^ 64).
Hypothesis Hfrom : (0 ≤ from < 256).

(** No slot among the first [k] from [from] is marked. *)
Definition none_before (k : Z) : Prop := ∀ j, (0 ≤ j < k) → marked occ ((from + j) `mod` 256) = false.

Definition first_marked (r : Z) : Prop :=
  (r = 256 ∧ none_before 256) ∨
  ∃ k, (0 ≤ k < 256) ∧ r = (from + k) `mod` 256 ∧ marked occ r = true ∧ none_before k.

Lemma first_marked_unique r r' : first_marked r → first_marked r' → r = r'.
Proof.
  intros [[-> Hn]|(k & Hk & -> & Hm & Hn)] [[-> Hn']|(k' & Hk' & -> & Hm' & Hn')]; [done|..].
  - rewrite Hn in Hm' by lia. done.
  - rewrite Hn' in Hm by lia. done.
  - destruct (Z.lt_trichotomy k k') as [H|[->|H]]; [|done|].
    + rewrite Hn' in Hm by lia. done.
    + rewrite Hn in Hm' by lia. done.
Qed.

Lemma marked_word wi b : (0 ≤ b < 64) → marked occ (64 * wi + b) = Z.testbit (occ wi) b.
Proof.
  intros Hb. unfold marked. rewrite Z.shiftr_div_pow2 by lia. change 63 with (Z.ones 6).
  rewrite Z.land_ones by lia. change (2 ^ 6) with 64. f_equal; [f_equal|].
  - symmetry. apply (Z.div_unique _ _ _ b); lia.
  - symmetry. apply (Z.mod_unique _ _ wi); lia.
Qed.

Lemma ctz_loop_spec n w i :
  (0 ≤ i) → (∀ j, (0 ≤ j < i) → Z.testbit w j = false) →
  (∃ j, (i ≤ j < i + Z.of_nat n) ∧ Z.testbit w j = true) →
  let c := ctz_loop n w i in
  (i ≤ c < i + Z.of_nat n) ∧ Z.testbit w c = true ∧ ∀ j, (0 ≤ j < c) → Z.testbit w j = false.
Proof.
  revert i. induction n as [|n IH]; intros i Hi Hb (j & Hj & Hw); simpl; [lia|].
  destruct (Z.testbit w i) eqn:E; [split_and!; [lia|lia|done|done]|].
  destruct (IH (i + 1)) as (H1 & H2 & H3).
  - lia.
  - intros k Hk. destruct (decide (k = i)) as [->|]; [done|]. apply Hb. lia.
  - exists j. split; [|done]. destruct (decide (j = i)) as [->|]; [congruence|lia].
  - split_and!; [lia|lia|done|done].
Qed.

Lemma CountTrailingZeros64_spec w :
  (0 ≤ w < 2 ^ 64) → w ≠ 0 →
  let c := CountTrailingZeros64 w in (0 ≤ c < 64) ∧ Z.testbit w c = true ∧ ∀ j, (0 ≤ j < c) → Z.testbit w j = false.
Proof.
  intros Hw Hz. pose proof (ctz_loop_spec 64 w 0 ltac:(lia) ltac:(lia)) as Hs. cbv zeta in Hs.
  change (ctz_loop 64 w 0) with (CountTrailingZeros64 w) in Hs. destruct Hs as (H1 & H2 & H3); [|split_and!; done || lia].
  destruct (decide (Exists (λ i, Z.testbit w i = true) (seqZ 0 64))) as [(i & Hi & Hb)%Exists_exists|Hn].
  - apply elem_of_seqZ in Hi. exists i. split; [lia|done].
  - destruct Hz. apply Z.bits_inj'. intros i Hi. rewrite Z.bits_0.
    destruct (decide (i < 64)); [|apply (testbit_small w 64); lia].
    apply not_true_iff_false. intros Hb. apply Hn, Exists_exists. exists i. split; [|done]. apply elem_of_seqZ. lia.
Qed.

(** One stage of the search: bits [b0, b1) of word [wi], which are the slots at distances
    [k0, k0 + (b1 - b0)). *)
Lemma stage wi b0 b1 k0 w :
  (0 ≤ b0) → (b0 ≤ b1 ≤ 64) → (0 ≤ wi < 4) → (0 ≤ k0) → (k0 + (b1 - b0) ≤ 256) → (from + k0) `mod` 256 = (64 * wi + b0) `mod` 256 →
  (∀ i, (0 ≤ i) → Z.testbit w i = Z.testbit (occ wi) i && bool_decide (b0 ≤ i < b1)) → (0 ≤ w < 2 ^ 64) →
  none_before k0 →
  if w =? 0 then none_before (k0 + (b1 - b0)) else first_marked (Z.shiftl wi 6 + CountTrailingZeros64 w).
Proof.
  intros Hb0 Hb1 Hwi Hk0 Hk1 Hd Hw Hwr Hn.
  assert (Hpos : ∀ j, (0 ≤ j < b1 - b0) → (from + (k0 + j)) `mod` 256 = 64 * wi + (b0 + j)).
  { intros j Hj. replace (from + (k0 + j)) with (from + k0 + j) by lia.
    rewrite Z.add_mod by lia. rewrite Hd, <- Z.add_mod by lia. rewrite Z.mod_small by lia. lia. }
  destruct (w =? 0) eqn:E.
  - apply Z.eqb_eq in E. intros j Hj. destruct (decide (j < k0)); [apply Hn; lia|].
    replace j with (k0 + (j - k0)) by lia. rewrite Hpos, marked_word by lia.
    specialize (Hw (b0 + (j - k0)) ltac:(lia)). rewrite E, Z.bits_0 in Hw.
    rewrite bool_decide_true, andb_true_r in Hw by lia. done.
  - apply Z.eqb_neq in E. destruct (CountTrailingZeros64_spec w Hwr E) as (H1 & H2 & H3).
    set (c := CountTrailingZeros64 w) in *. pose proof (Hw c ltac:(lia)) as Hc. rewrite H2 in Hc. symmetry in Hc.
    apply andb_true_iff in Hc as [Hc1 Hc2]. apply bool_decide_eq_true in Hc2.
    right. exists (k0 + (c - b0)). rewrite Z.shiftl_mul_pow2 by lia. change (2 ^ 6) with 64. rewrite Hpos by lia.
    replace (64 * wi + (b0 + (c - b0))) with (wi * 64 + c) by lia. split_and!; [lia|lia|done| |].
    + replace (wi * 64 + c) with (64 * wi + c) by lia. by rewrite marked_word by lia.
    + intros j Hj. destruct (decide (j < k0)); [apply Hn; lia|]. replace j with (k0 + (j - k0)) by lia.
      rewrite Hpos, marked_word by lia. specialize (H3 (b0 + (j - k0)) ltac:(lia)). rewrite Hw in H3 by lia.
      rewrite bool_decide_true, andb_true_r in H3 by lia. done.
Qed.

Lemma next_words_spec n startWord i :
  (0 ≤ startWord < 4) → (1 ≤ i) → i + Z.of_nat n = 4 → startWord = from / 64 →
  none_before (64 * i - from `mod` 64) →
  match next_words n occ startWord i with
  | Some s => first_marked s
  | None => none_before (256 - from `mod` 64)
  end.
Proof.
  intros Hsw. revert i. induction n as [|n IH]; intros i Hi Hn Hs Hb; simpl.
  - replace (256 - from `mod` 64) with (64 * i - from `mod` 64) by lia. done.
  - change kOccWords with 4. set (wi := (startWord + i) `mod` 4).
    pose proof (Z.div_mod from 64 ltac:(lia)) as Hdm. pose proof (Z.mod_pos_bound from 64 ltac:(lia)) as Hm.
    assert (Hwi : (0 ≤ wi < 4)) by (unfold wi; apply Z.mod_pos_bound; lia).
    assert (Hd : (from + (64 * i - from `mod` 64)) `mod` 256 = (64 * wi + 0) `mod` 256).
    { pose proof (Z.div_mod (startWord + i) 4 ltac:(lia)). fold wi in H.
      replace (from + (64 * i - from `mod` 64)) with (64 * wi + 0 + (startWord + i) / 4 * 256) by lia.
      by rewrite Z.mod_add. }
    assert (Hbits : ∀ j, (0 ≤ j) → Z.testbit (occ wi) j = Z.testbit (occ wi) j && bool_decide (0 ≤ j < 64)).
    { intros j Hj. destruct (decide (j < 64)); [by rewrite bool_decide_true, andb_true_r by lia|].
      rewrite bool_decide_false, andb_false_r by lia. apply (testbit_small _ 64); [apply Hocc|lia]. }
    pose proof (stage wi 0 64 (64 * i - from `mod` 64) (occ wi) ltac:(lia) ltac:(lia) Hwi ltac:(lia) ltac:(lia) Hd Hbits
      (Hocc wi) Hb) as Hst.
    destruct (occ wi =? 0); [|exact Hst]. apply IH; [lia|lia|done|].
    by replace (64 * (i + 1) - from `mod` 64) with (64 * i - from `mod` 64 + (64 - 0)) by lia.
Qed.

Lemma ones_from_bits b j :
  (0 ≤ b < 64) → (0 ≤ j) → Z.testbit (ones_from b) j = bool_decide (b ≤ j < 64).
Proof.
  intros Hb Hj. unfold ones_from, u64. change (2 ^ 64 - 1) with (Z.ones 64).
  destruct (decide (j < 64)).
  - rewrite Z.mod_pow2_bits_low, Z.shiftl_spec by lia. destruct (decide (b ≤ j)).
    + rewrite Z.ones_spec_low, bool_decide_true by lia. done.
    + rewrite Z.testbit_neg_r, bool_decide_false by lia. done.
  - rewrite Z.mod_pow2_bits_high, bool_decide_false by lia. done.
Qed.

Lemma land_range x y : (0 ≤ x < 2 ^ 64) → (0 ≤ Z.land x y < 2 ^ 64).
Proof.
  intros Hx. replace x with (Z.land x (Z.ones 64)) by (rewrite Z.land_ones, Z.mod_small by lia; done).
  rewrite <- Z.land_assoc, (Z.land_comm (Z.ones 64)), Z.land_assoc, Z.land_ones by lia. apply Z.mod_pos_bound. lia.
Qed.

Lemma NextOccupied_first : first_marked (NextOccupied occ from).
Proof.
  unfold NextOccupied. rewrite Z.shiftr_div_pow2 by lia. change 63 with (Z.ones 6). rewrite Z.land_ones by lia.
  change (2 ^ 6) with 64. set (sw := from / 64). set (b := from `mod` 64).
  pose proof (Z.div_mod from 64 ltac:(lia)) as Hdm. pose proof (Z.mod_pos_bound from 64 ltac:(lia)) as Hm. fold sw b in Hdm, Hm.
  assert (Hsw : (0 ≤ sw < 4)) by lia.
  pose proof (stage sw b 64 0 (Z.land (occ sw) (ones_from b)) ltac:(lia) ltac:(lia) Hsw ltac:(lia) ltac:(lia)) as H0.
  destruct (Z.land (occ sw) (ones_from b) =? 0) eqn:E0; simpl negb; cbv iota.
  2: { apply H0; [f_equal; lia| |by apply land_range|intros j ?; lia].
       intros i Hi. by rewrite Z.land_spec, ones_from_bits by lia. }
  assert (Hn : none_before (64 * 1 - b)).
  { replace (64 * 1 - b) with (0 + (64 - b)) by lia. apply H0; [f_equal; lia| |by apply land_range|intros j ?; lia].
    intros i Hi. by rewrite Z.land_spec, ones_from_bits by lia. }
  pose proof (next_words_spec 3 sw 1 Hsw ltac:(lia) eq_refl eq_refl Hn) as H1. destruct (next_words 3 occ sw 1); [done|].
  fold b in H1.
  pose proof (stage sw 0 b (256 - b) (Z.land (occ sw) (Z.lxor (ones_from b) (2 ^ 64 - 1))) ltac:(lia) ltac:(lia) Hsw
    ltac:(lia) ltac:(lia)) as H2.
  assert (Hbits : ∀ i, (0 ≤ i) → Z.testbit (Z.land (occ sw) (Z.lxor (ones_from b) (2 ^ 64 - 1))) i =
    Z.testbit (occ sw) i && bool_decide (0 ≤ i < b)).
  { intros i Hi. rewrite Z.land_spec, Z.lxor_spec, ones_from_bits by lia. change (2 ^ 64 - 1) with (Z.ones 64).
    destruct (decide (i < 64)).
    - rewrite Z.ones_spec_low by lia. destruct (decide (i < b)).
      + rewrite bool_decide_false, bool_decide_true by lia. done.
      + rewrite bool_decide_true, bool_decide_false by lia. done.
    - rewrite (testbit_small _ 64) by (done || lia). done. }
  assert (Hd : (from + (256 - b)) `mod` 256 = (64 * sw + 0) `mod` 256).
  { replace (from + (256 - b)) with (64 * sw + 0 + 1 * 256) by lia. by rewrite Z.mod_add. }
  specialize (H2 Hd Hbits (land_range _ _ (Hocc sw)) H1).
  destruct (Z.land (occ sw) (Z.lxor (ones_from b) (2 ^ 64 - 1)) =? 0); simpl negb; cbv iota; [|done].
  left. split; [done|]. by replace 256 with (256 - b + (b - 0)) by lia.
Qed.

Lemma scan_first n k :
  (0 ≤ k) → k + Z.of_nat n = 256 → none_before k → first_marked (scan_slots n occ ((from + k) `mod` 256)).
Proof.
  revert k. induction n as [|n IH]; intros k Hk Hn Hb; simpl; [left; split; [done|]; by replace 256 with k by lia|].
  destruct (marked occ _) eqn:E; [right; exists k; split_and!; done || lia|].
  replace (Z.land ((from + k) `mod` 256 + 1) kSlotMask) with ((from + (k + 1)) `mod` 256).
  - apply IH; [lia|lia|]. intros j Hj. destruct (decide (j = k)) as [->|]; [done|]. apply Hb. lia.
  - change kSlotMask with (Z.ones 8). rewrite Z.land_ones by lia. change (2 ^ 8) with 256.
    rewrite Z.add_mod_idemp_l by lia. f_equal. lia.
Qed.
End bitmap.

(** C38: Searching the occupancy bitmap is searching the slots.  For every content of a
    level's four occupancy words and every starting slot, [NextOccupied] (word by word, with
    count-trailing-zeros, the starting word split in two) returns what trying the 256 slots
    one after the other from the starting slot around the level returns: a marked slot, the
    first from there, and [kSlots] exactly when no slot of the level is marked. *)
Theorem next_occupied_equiv occ from :
  (∀ i, (0 ≤ occ i < 2 ^ 64)) → (0 ≤ from < 256) →
  NextOccupied occ from = scan_slots 256 occ from ∧ first_marked occ from (NextOccupied occ from) ∧
  (NextOccupied occ from = kSlots ↔ ∀ s, (0 ≤ s < 256) → marked occ s = false).
Proof.
  intros Ho Hf. pose proof (NextOccupied_first occ from Ho Hf) as Hn. split_and!; [|done|].
  - apply (first_marked_unique occ from); [done|].
    replace from with ((from + 0) `mod` 256) at 2 by (rewrite Z.mod_small; lia).
    apply scan_first; [lia|done|]. intros j Hj. lia.
  - split.
    + destruct Hn as [[_ Hn]|(k & Hk & Hs & _)]; intros E s Hs'.
      * rewrite <- (Hn ((s - from) `mod` 256)) by (apply Z.mod_pos_bound; lia). f_equal.
        rewrite Z.add_mod_idemp_r by lia. replace (from + (s - from)) with s by lia. by rewrite Z.mod_small.
      * pose proof (Z.mod_pos_bound (from + k) 256 ltac:(lia)). unfold kSlots in E. lia.
    + intros Hall. destruct Hn as [[Hn _]|(k & Hk & Hs & Hm & _)]; [done|].
      pose proof (Z.mod_pos_bound (from + k) 256 ltac:(lia)). rewrite Hall in Hm by lia. done.
Qed.

Lemma next_occupied_equiv_witness :
  NextOccupied (λ i, if i =? 1 then 6 else 0) 66 = scan_slots 256 (λ i, if i =? 1 then 6 else 0) 66 ∧
  NextOccupied (λ i, if i =? 1 then 6 else 0) 67 = 65 ∧ NextOccupied (λ _, 0) 67 = kSlots.
Proof.
  split; [|by vm_compute]. apply next_occupied_equiv; [|lia]. intros i. case_match; lia.
Defined.

(** ** The wheel *)

Definition kNil : Z := 0xFFFFFFFF.
Definition kNone : Z := 0xFFFFFFFF.

Record Entry := mkE {
  e_deadline : Z; e_token : Z; e_eject : Z; e_ctx : Z; e_periodic : Z;
  e_prev : Z; e_next : Z; e_gen : Z; e_nextFree : Z; e_level : Z; e_slot : Z }.
Definition new_Entry : Entry := mkE 0 kNone 0 0 0 kNil kNil 0 0 (-1) 0.

Definition set_prev (p : Z) (e : Entry) : Entry :=
  mkE (e_deadline e) (e_token e) (e_eject e) (e_ctx e) (e_periodic e) p (e_next e) (e_gen e) (e_nextFree e) (e_level e) (e_slot e).
Definition set_enext (n : Z) (e : Entry) : Entry :=
  mkE (e_deadline e) (e_token e) (e_eject e) (e_ctx e) (e_periodic e) (e_prev e) n (e_gen e) (e_nextFree e) (e_level e) (e_slot e).
Definition set_pos (l s p n : Z) (e : Entry) : Entry :=
  mkE (e_deadline e) (e_token e) (e_eject e) (e_ctx e) (e_periodic e) p n (e_gen e) (e_nextFree e) l s.
Definition set_gen (g : Z) (e : Entry) : Entry :=
  mkE (e_deadline e) (e_token e) (e_eject e) (e_ctx e) (e_periodic e) (e_prev e) (e_next e) g (e_nextFree e) (e_level e) (e_slot e).
Definition set_deadline (d : Z) (e : Entry) : Entry :=
  mkE d (e_token e) (e_eject e) (e_ctx e) (e_periodic e) (e_prev e) (e_next e) (e_gen e) (e_nextFree e) (e_level e) (e_slot e).
Definition set_what (d tok ej ctx per : Z) (e : Entry) : Entry :=
  mkE d tok ej ctx per (e_prev e) (e_next e) (e_gen e) (e_nextFree e) (e_level e) (e_slot e).
Definition set_free (nf : Z) (e : Entry) : Entry :=
  mkE (e_deadline e) kNone 0 0 0 (e_prev e) (e_next e) (e_gen e) nf (-1) (e_slot e).

Record wheel := mkW {
  w_entries : gmap Z Entry; w_size : Z; w_freeHead : Z; w_heads : gmap (Z * Z) Z;
  w_occ : gmap (Z * Z) Z; w_tick : Z; w_armed : Z }.
Definition new_wheel : wheel := mkW ∅ 0 0 ∅ ∅ 0 0.

Definition ent (w : wheel) (i : Z) : Entry := default new_Entry (w_entries w !! i).
Definition head_at (w : wheel) (l s : Z) : Z := default kNil (w_heads w !! (l, s)).
Definition occ_at (w : wheel) (l i : Z) : Z := default 0 (w_occ w !! (l, i)).

Definition set_ent (i : Z) (e : Entry) (w : wheel) : wheel :=
  mkW (<[i := e]> (w_entries w)) (w_size w) (w_freeHead w) (w_heads w) (w_occ w) (w_tick w) (w_armed w).
Definition set_head (l s h : Z) (w : wheel) : wheel :=
  mkW (w_entries w) (w_size w) (w_freeHead w) (<[(l, s) := h]> (w_heads w)) (w_occ w) (w_tick w) (w_armed w).
Definition set_occ (l i x : Z) (w : wheel) : wheel :=
  mkW (w_entries w) (w_size w) (w_freeHead w) (w_heads w) (<[(l, i) := x]> (w_occ w)) (w_tick w) (w_armed w).
Definition set_tick (t : Z) (w : wheel) : wheel :=
  mkW (w_entries w) (w_size w) (w_freeHead w) (w_heads w) (w_occ w) t (w_armed w).
Definition set_armed (a : Z) (w : wheel) : wheel :=
  mkW (w_entries w) (w_size w) (w_freeHead w) (w_heads w) (w_occ w) (w_tick w) a.
Definition set_freeHead (f : Z) (w : wheel) : wheel :=
  mkW (w_entries w) (w_size w) f (w_heads w) (w_occ w) (w_tick w) (w_armed w).
Definition push_entry (w : wheel) : wheel :=
  mkW (<[w_size w := new_Entry]> (w_entries w)) (w_size w + 1) (w_freeHead w) (w_heads w) (w_occ w) (w_tick w) (w_armed w).

Definition MarkOccupied (l s : Z) (w : wheel) : wheel :=
  set_occ l (Z.shiftr s 6) (Z.lor (occ_at w l (Z.shiftr s 6)) (Z.shiftl 1 (Z.land s 63))) w.
Definition MarkEmpty (l s : Z) (w : wheel) : wheel :=
  set_occ l (Z.shiftr s 6) (Z.ldiff (occ_at w l (Z.shiftr s 6)) (Z.shiftl 1 (Z.land s 63))) w.
Definition LevelEmpty (w : wheel) (l : Z) : bool := forallb (λ i, occ_at w l i =? 0) (seqZ 0 kOccWords).

Definition Link (i l s : Z) (w : wheel) : wheel :=
  let nx := head_at w l s in
  let w1 := set_ent i (set_pos l s kNil nx (ent w i)) w in
  let w2 := if nx =? kNil then w1 else set_ent nx (set_prev i (ent w1 nx)) w1 in
  MarkOccupied l s (set_head l s i w2).

Definition Unlink (i : Z) (w : wheel) : wheel :=
  let e := ent w i in
  if e_level e <? 0 then w
  else
    let l := e_level e in
    let s := e_slot e in
    let w1 := if e_prev e =? kNil then set_head l s (e_next e) w
              else set_ent (e_prev e) (set_enext (e_next e) (ent w (e_prev e))) w in
    let w2 := if e_next e =? kNil then w1 else set_ent (e_next e) (set_prev (e_prev e) (ent w1 (e_next e))) w1 in
    let w3 := set_ent i (set_pos (-1) s kNil kNil (ent w2 i)) w2 in
    if head_at w3 l s =? kNil then MarkEmpty l s w3 else w3.

(** The level and slot [Place] chooses at time [c] for a deadline [d]. *)
Definition place_slot (c d : Z) : Z * Z :=
  let delta := d - c in
  if delta <=? 0 then (0, Z.land c kSlotMask)
  else if delta <? LevelGranularity 1 then (0, Z.land d kSlotMask)
  else if delta <? LevelGranularity 2 then (1, Z.land (Z.shiftr d (kSlotBits * 1)) kSlotMask)
  else if delta <? LevelGranularity 3 then (2, Z.land (Z.shiftr d (kSlotBits * 2)) kSlotMask)
  else if delta <? LevelGranularity 4 then (3, Z.land (Z.shiftr d (kSlotBits * 3)) kSlotMask)
  else (kLevels - 1, Z.land (Z.shiftr (c + kMaxTicks - 1) (kSlotBits * (kLevels - 1))) kSlotMask).

Definition Place (i d : Z) (w : wheel) : wheel :=
  let ls := place_slot (w_tick w) d in Link i ls.1 ls.2 w.

Fixpoint cascade_loop (fuel : nat) (i : Z) (w : wheel) : wheel :=
  match fuel with
  | O => w
  | S n =>
      if i =? kNil then w
      else
        let nextIdx := e_next (ent w i) in
        let w1 := set_ent i (set_pos (-1) (e_slot (ent w i)) kNil kNil (ent w i)) w in
        cascade_loop n nextIdx (Place i (e_deadline (ent w1 i)) w1)
  end.

Definition Cascade (level slot : Z) (w : wheel) : wheel :=
  let i := head_at w level slot in
  cascade_loop (Z.to_nat (w_size w) + 1) i (MarkEmpty level slot (set_head level slot kNil w)).

Definition AcquireEntry (w : wheel) : Z * wheel :=
  if negb (w_freeHead w =? 0) then
    let i := w_freeHead w - 1 in (i, set_freeHead (e_nextFree (ent w i)) w)
  else (w_size w, push_entry w).

Definition ReleaseEntry (i : Z) (w : wheel) : wheel :=
  set_freeHead (i + 1) (set_ent i (set_free (w_freeHead w) (ent w i)) w).

(** The tick of the next occupied slot of level [l]. *)
Definition next_at_level (w : wheel) (l : Z) : option Z :=
  if LevelEmpty w l then None
  else
    let cur := Z.land (Z.shiftr (w_tick w) (kSlotBits * l)) kSlotMask in
    let from := if l =? 0 then cur else Z.land (cur + 1) kSlotMask in
    let s := NextOccupied (occ_at w l) from in
    if s =? kSlots then None
    else
      let ahead := Z.land (s - from) kSlotMask in
      let base := if l =? 0 then w_tick w else Z.shiftl (Z.shiftr (w_tick w) (kSlotBits * l) + 1) (kSlotBits * l) in
      Some (base + ahead * LevelGranularity l).

Definition better (best : Z) (o : option Z) : Z :=
  match o with None => best | Some when => if (best <? 0) || (when <? best) then when else best end.

Definition NextEventTick (w : wheel) : Z :=
  fold_left (λ best l, better best (next_at_level w l)) (seqZ 0 kLevels) (-1).

Definition cascade_if (l s : Z) (w : wheel) : wheel :=
  if head_at w l s =? kNil then w else Cascade l s w.

(** The slots of level [l] that [AdvanceTo] visits between two times. *)
Definition visited (from to : Z) : list Z :=
  if kSlots <=? to - from then seqZ 0 kSlots else (λ k, Z.land (from + k) kSlotMask) <$> seqZ 1 (to - from).

Fixpoint advance_levels (n : nat) (l from0 target : Z) (w : wheel) : wheel :=
  match n with
  | O => w
  | S n' =>
      let from := Z.shiftr from0 (kSlotBits * l) in
      let to := Z.shiftr target (kSlotBits * l) in
      if from =? to then w
      else advance_levels n' (l + 1) from0 target (fold_left (λ w s, cascade_if l s w) (visited from to) w)
  end.

Definition AdvanceTo (target : Z) (w : wheel) : wheel :=
  if target <=? w_tick w then w else advance_levels 3 1 (w_tick w) target (set_tick target w).

(** ** Doubly linked lists

    [dlseg E p h l q e]: from [h], entered from [p], the links visit [l], the last node
    being [q], and leave to [e]. *)

Fixpoint dlseg (E : Z → Entry) (p h : Z) (l : list Z) (q e : Z) : Prop :=
  match l with
  | [] => h = e ∧ p = q
  | x :: l' => h = x ∧ x ≠ kNil ∧ e_prev (E x) = p ∧ dlseg E x (e_next (E x)) l' q e
  end.

Lemma dlseg_ext E E' p h l q e :
  (∀ x, x ∈ l → e_prev (E' x) = e_prev (E x) ∧ e_next (E' x) = e_next (E x)) → dlseg E p h l q e → dlseg E' p h l q e.
Proof.
  revert p h. induction l as [|x l IH]; intros p h Hx; simpl; [done|]. intros (-> & Hn & <- & Hl).
  destruct (Hx x) as [-> ->]; [set_solver|]. split_and!; try done. apply IH; [|done]. intros y Hy. apply Hx. set_solver.
Qed.

Lemma dlseg_app E p h l1 l2 q e :
  dlseg E p h (l1 ++ l2) q e ↔ ∃ q1 e1, dlseg E p h l1 q1 e1 ∧ dlseg E q1 e1 l2 q e.
Proof.
  revert p h. induction l1 as [|x l1 IH]; intros p h; simpl.
  - split; [intros H; exists p, h; done|]. intros (q1 & e1 & [-> ->] & H). done.
  - rewrite (IH x). split.
    + intros (-> & Hx & Hp & q1 & e1 & H1 & H2). exists q1, e1. done.
    + intros (q1 & e1 & (-> & Hx & Hp & H1) & H2). split_and!; [done|done|done|]. by exists q1, e1.
Qed.

Lemma dlseg_last E p h l q e : dlseg E p h l q e → l ≠ [] → q ∈ l.
Proof.
  revert p h. induction l as [|x l IH]; intros p h; [done|]. simpl. intros (_ & _ & _ & Hl) _.
  destruct l as [|y l]; [destruct Hl as [_ <-]; set_solver|]. apply elem_of_cons. right. by eapply IH.
Qed.

Lemma dlseg_nonnil E p h l q e x : dlseg E p h l q e → x ∈ l → x ≠ kNil.
Proof.
  revert p h. induction l as [|y l IH]; intros p h; simpl; [by intros _ ?%not_elem_of_nil|].
  intros (_ & Hy & _ & Hl) [->|Hx]%elem_of_cons; [done|by eapply IH].
Qed.

(** Redirecting the way out of a segment, and the way in. *)
Lemma dlseg_exit E E' p h l q e e' :
  dlseg E p h l q e → NoDup l → l ≠ [] → (∀ x, x ∈ l → e_prev (E' x) = e_prev (E x)) →
  (∀ x, x ∈ l → e_next (E' x) = if decide (x = q) then e' else e_next (E x)) → dlseg E' p h l q e'.
Proof.
  revert p h. induction l as [|x l IH]; intros p h Hl Hnd Hne Hp Hn; [done|].
  simpl in *. destruct Hl as (-> & Hx & <- & Hl). apply NoDup_cons in Hnd as [Hxl Hnd].
  rewrite Hp, Hn by set_solver. split_and!; try done. destruct l as [|y l].
  - simpl in *. destruct Hl as [_ ->]. by rewrite decide_True.
  - pose proof (dlseg_last _ _ _ _ _ _ Hl ltac:(done)) as Hq. rewrite decide_False by (intros ->; done).
    apply IH; try done; intros z Hz; [apply Hp|apply Hn]; set_solver.
Qed.

Lemma dlseg_entry E E' p p' h l q e :
  dlseg E p h l q e → NoDup l → l ≠ [] → (∀ x, x ∈ l → e_next (E' x) = e_next (E x)) →
  (∀ x, x ∈ l → e_prev (E' x) = if decide (x = h) then p' else e_prev (E x)) → dlseg E' p' h l q e.
Proof.
  destruct l as [|x l]; [done|]. simpl. intros (-> & Hx & Hp & Hl) [Hxl Hnd]%NoDup_cons _ Hn Hpv.
  rewrite Hn, Hpv, decide_True by set_solver. split_and!; try done. eapply dlseg_ext; [|done].
  intros z Hz. rewrite Hn, Hpv by set_solver. by rewrite decide_False by (intros ->; done).
Qed.

(** Taking a node out. *)
Lemma dlseg_remove E E' h l1 i l2 q :
  dlseg E kNil h (l1 ++ i :: l2) q kNil → NoDup (l1 ++ i :: l2) →
  (∀ x, x ∈ l1 ++ l2 → e_next (E' x) = if decide (x = e_prev (E i)) then e_next (E i) else e_next (E x)) →
  (∀ x, x ∈ l1 ++ l2 → e_prev (E' x) = if decide (x = e_next (E i)) then e_prev (E i) else e_prev (E x)) →
  ∃ q', dlseg E' kNil (if decide (e_prev (E i) = kNil) then e_next (E i) else h) (l1 ++ l2) q' kNil.
Proof.
  intros (q1 & e1 & H1 & (-> & Hi & Hp & H2))%dlseg_app Hnd Hn Hpv. rewrite Hp in *.
  apply NoDup_app in Hnd as (Hnd1 & Hdis & [Hi2 Hnd2]%NoDup_cons).
  set (n := e_next (E i)) in *.
  assert (Hnl1 : ∀ x, x ∈ l1 → x ≠ n ∨ l2 = []).
  { intros x Hx. destruct l2 as [|z l2]; [by right|]. left. destruct H2 as (-> & _). intros ->. apply (Hdis z Hx). set_solver. }
  assert (Hq1 : l1 = [] ∧ q1 = kNil ∨ l1 ≠ [] ∧ q1 ∈ l1 ∧ q1 ≠ kNil).
  { destruct l1 as [|y l1]; [left; by destruct H1 as [_ <-]|]. right. pose proof (dlseg_last _ _ _ _ _ _ H1 ltac:(done)) as Hq.
    split_and!; try done. exact (dlseg_nonnil _ _ _ _ _ _ _ H1 Hq). }
  assert (H1' : l1 ≠ [] → dlseg E' kNil h l1 q1 n).
  { intros Hne. eapply (dlseg_exit E); [exact H1|done|done| |].
    - intros x Hx. rewrite Hpv by set_solver. case_decide as Ex; [|done]. exfalso.
      destruct (Hnl1 x Hx) as [?| ->]; [done|]. destruct H2 as [H2 _]. fold n in H2. subst x.
      by apply (dlseg_nonnil _ _ _ _ _ _ _ H1 Hx).
    - intros x Hx. by rewrite Hn by set_solver. }
  assert (H2' : dlseg E' q1 n l2 (if decide (l2 = []) then q1 else q) kNil).
  { destruct l2 as [|z l2]; [rewrite decide_True by done; destruct H2 as [-> _]; done|]. rewrite decide_False by done.
    pose proof H2 as (Hz & _). fold n in Hz.
    eapply (dlseg_entry E); [exact H2|done|done| |].
    - intros x Hx. rewrite Hn by set_solver. case_decide as Ex; [|done]. exfalso. subst x.
      destruct Hq1 as [(_ & ->)|(_ & Hq & _)]; [|by apply (Hdis q1 Hq); set_solver].
      by apply (dlseg_nonnil _ _ _ _ _ _ _ H2 Hx).
    - intros x Hx. by rewrite Hpv by set_solver. }
  eexists. apply dlseg_app. exists q1, n. split; [|exact H2'].
  destruct Hq1 as [(-> & ->)|(Hne & _ & Hk)]; [by rewrite decide_True|]. rewrite decide_False by done. by apply H1'.
Qed.

(** ** Well-formedness of the slots *)

Definition valid_ls (l s : Z) : Prop := (0 ≤ l < 4) ∧ (0 ≤ s < 256).
Definition exists_in (w : wheel) (i : Z) : Prop := is_Some (w_entries w !! i).
Definition posn (w : wheel) (i : Z) : Z * Z := (e_level (ent w i), e_slot (ent w i)).

Record linv (w : wheel) (L : Z → Z → list Z) : Prop := {
  li_list l s : valid_ls l s → ∃ q, dlseg (ent w) kNil (head_at w l s) (L l s) q kNil;
  li_nodup l s : valid_ls l s → NoDup (L l s);
  li_in l s i : valid_ls l s → i ∈ L l s ↔ exists_in w i ∧ posn w i = (l, s);
  li_pos i : exists_in w i → e_level (ent w i) = -1 ∨ valid_ls (e_level (ent w i)) (e_slot (ent w i));
  li_occ l s : valid_ls l s → marked (occ_at w l) s = negb (bool_decide (L l s = []));
  li_occr l i : (0 ≤ occ_at w l i < 2 ^ 64);
  li_dom i : exists_in w i ↔ (0 ≤ i < w_size w);
  li_size : (0 ≤ w_size w ≤ kNil) }.

Definition wok (w : wheel) : Prop := ∃ L, linv w L.

(** The fields a move between slots leaves alone. *)
Definition payload (e : Entry) : Z * Z * Z * Z * Z * Z * Z :=
  (e_deadline e, e_token e, e_eject e, e_ctx e, e_periodic e, e_gen e, e_nextFree e).

Record moved (w w' : wheel) : Prop := {
  mv_pay i : payload (ent w' i) = payload (ent w i);
  mv_dom i : exists_in w' i ↔ exists_in w i;
  mv_size : w_size w' = w_size w; mv_free : w_freeHead w' = w_freeHead w;
  mv_tick : w_tick w' = w_tick w; mv_armed : w_armed w' = w_armed w }.

#[global] Instance moved_preorder : PreOrder moved.
Proof.
  split; [by constructor|]. intros w1 w2 w3 [A1 A2 A3 A4 A5 A6] [B1 B2 B3 B4 B5 B6].
  constructor; [|intros i; by rewrite B2, A2|congruence..]. intros i. by rewrite B1, A1.
Qed.

Lemma ent_set i e w j : ent (set_ent i e w) j = if decide (i = j) then e else ent w j.
Proof.
  unfold ent, set_ent. simpl. case_decide; [subst; by rewrite lookup_insert_eq|by rewrite lookup_insert_ne].
Qed.

Lemma exists_set i e w j : exists_in w i → exists_in (set_ent i e w) j ↔ exists_in w j.
Proof.
  unfold exists_in, set_ent. simpl. intros Hi. rewrite lookup_insert_is_Some. destruct (decide (i = j)) as [->|]; tauto.
Qed.

Lemma moved_set i e w : exists_in w i → payload e = payload (ent w i) → moved w (set_ent i e w).
Proof.
  intros Hi He. constructor; try done; intros j; [|by apply exists_set].
  rewrite ent_set. case_decide; by subst.
Qed.

Lemma head_set l s h w l' s' : head_at (set_head l s h w) l' s' = if decide ((l, s) = (l', s')) then h else head_at w l' s'.
Proof.
  unfold head_at, set_head. simpl. case_decide as E; [rewrite E; by rewrite lookup_insert_eq|by rewrite lookup_insert_ne].
Qed.

Lemma occ_set l i x w l' i' : occ_at (set_occ l i x w) l' i' = if decide ((l, i) = (l', i')) then x else occ_at w l' i'.
Proof.
  unfold occ_at, set_occ. simpl. case_decide as E; [rewrite E; by rewrite lookup_insert_eq|by rewrite lookup_insert_ne].
Qed.

Lemma slot_split s s' :
  (0 ≤ s < 256) → (0 ≤ s' < 256) → Z.shiftr s 6 = Z.shiftr s' 6 → Z.land s 63 = Z.land s' 63 → s = s'.
Proof.
  intros Hs Hs'. rewrite !Z.shiftr_div_pow2 by lia. change 63 with (Z.ones 6). rewrite !Z.land_ones by lia.
  change (2 ^ 6) with 64. intros H1 H2. rewrite (Z.div_mod s 64), (Z.div_mod s' 64) by lia. congruence.
Qed.

Lemma land63_range s : (0 ≤ Z.land s 63 < 64).
Proof. change 63 with (Z.ones 6). rewrite Z.land_ones by lia. by apply Z.mod_pos_bound. Qed.

Lemma bit_one b i : (0 ≤ b) → (0 ≤ i) → Z.testbit (Z.shiftl 1 b) i = bool_decide (i = b).
Proof.
  intros Hb Hi. rewrite Z.shiftl_1_l, Z.pow2_bits_eqb by lia. destruct (decide (i = b)) as [->|].
  - by rewrite Z.eqb_refl, bool_decide_true.
  - rewrite bool_decide_false by done. by apply Z.eqb_neq.
Qed.

Lemma marked_occupied l s w l' s' :
  (0 ≤ s < 256) → (0 ≤ s' < 256) →
  marked (occ_at (MarkOccupied l s w) l') s' = bool_decide ((l, s) = (l', s')) || marked (occ_at w l') s'.
Proof.
  intros Hs Hs'. unfold marked, MarkOccupied. rewrite occ_set.
  pose proof (land63_range s). pose proof (land63_range s'). case_decide as E.
  - injection E as <- Es. rewrite Es, Z.lor_spec, bit_one by lia. rewrite orb_comm. f_equal. apply bool_decide_ext. split.
    + intros Hb. by rewrite (slot_split s s') by done.
    + by intros [= ->].
  - rewrite bool_decide_false; [done|]. intros [= -> ->]. done.
Qed.

Lemma marked_empty l s w l' s' :
  (0 ≤ s < 256) → (0 ≤ s' < 256) →
  marked (occ_at (MarkEmpty l s w) l') s' = negb (bool_decide ((l, s) = (l', s'))) && marked (occ_at w l') s'.
Proof.
  intros Hs Hs'. unfold marked, MarkEmpty. rewrite occ_set.
  pose proof (land63_range s). pose proof (land63_range s'). case_decide as E.
  - injection E as <- Es. rewrite Es, Z.ldiff_spec, bit_one by lia. rewrite andb_comm. f_equal. f_equal.
    apply bool_decide_ext. split.
    + intros Hb. by rewrite (slot_split s s') by done.
    + by intros [= ->].
  - rewrite bool_decide_false; [done|]. intros [= -> ->]. done.
Qed.

(** A word below 2^64 keeps to 64 bits. *)
Lemma bits_range x : 0 ≤ x → (∀ i, (64 ≤ i) → Z.testbit x i = false) → (0 ≤ x < 2 ^ 64).
Proof.
  intros H0 Hb. split; [done|]. destruct (decide (x < 2 ^ 64)) as [|Hx]; [done|exfalso].
  assert (Hl : (64 ≤ Z.log2 x)) by (apply Z.log2_le_pow2; lia).
  specialize (Hb _ Hl). rewrite Z.bit_log2 in Hb; [done|lia].
Qed.

Lemma mark_range l s w l' i :
  (∀ l i, (0 ≤ occ_at w l i < 2 ^ 64)) →
  (0 ≤ occ_at (MarkOccupied l s w) l' i < 2 ^ 64) ∧ (0 ≤ occ_at (MarkEmpty l s w) l' i < 2 ^ 64).
Proof.
  intros Hr. pose proof (land63_range s) as Hb. unfold MarkOccupied, MarkEmpty. rewrite !occ_set. case_decide as E; [|by split].
  injection E as <- <-. pose proof (Hr l (Z.shiftr s 6)) as Hw. split; apply bits_range.
  - apply Z.lor_nonneg. split; [lia|]. apply Z.shiftl_nonneg. lia.
  - intros j Hj. rewrite Z.lor_spec, bit_one, (testbit_small _ 64), bool_decide_false by lia. done.
  - apply Z.ldiff_nonneg. lia.
  - intros j Hj. rewrite Z.ldiff_spec, (testbit_small _ 64) by lia. done.
Qed.

Definition upd_list (l s : Z) (v : list Z) (L : Z → Z → list Z) : Z → Z → list Z :=
  λ l' s', if decide ((l, s) = (l', s')) then v else L l' s'.

Lemma li_nonnil w L i : linv w L → exists_in w i → i ≠ kNil.
Proof. intros Hl Hi ->. apply (li_dom _ _ Hl) in Hi. pose proof (li_size _ _ Hl). lia. Qed.

Lemma li_head w L l s : linv w L → valid_ls l s → head_at w l s = default kNil (head (L l s)).
Proof.
  intros Hl Hv. destruct (li_list _ _ Hl l s Hv) as [q Hd]. destruct (L l s); simpl in *; [by destruct Hd|by destruct Hd as (-> & _)].
Qed.

(** The entries after [Link]. *)
Lemma link_ent w i l s j :
  head_at w l s ≠ i →
  ent (Link i l s w) j =
    if decide (j = i) then set_pos l s kNil (head_at w l s) (ent w i)
    else if decide (j = head_at w l s ∧ j ≠ kNil) then set_prev i (ent w j) else ent w j.
Proof.
  intros Hne. unfold Link. set (nx := head_at w l s) in *.
  match goal with |- ent (MarkOccupied _ _ (set_head _ _ _ ?w2)) j = _ =>
    change (ent (MarkOccupied l s (set_head l s i w2)) j) with (ent w2 j) end.
  destruct (nx =? kNil) eqn:E.
  - apply Z.eqb_eq in E. rewrite ent_set. repeat case_decide; subst; try done; naive_solver.
  - apply Z.eqb_neq in E. rewrite !ent_set. rewrite (decide_False (P := i = nx)) by congruence. repeat case_decide; subst; try done; naive_solver.
Qed.

Lemma link_moved w i l s :
  exists_in w i → head_at w l s ≠ i → (head_at w l s ≠ kNil → exists_in w (head_at w l s)) → moved w (Link i l s w).
Proof.
  intros Hi Hne Hh. constructor.
  - intros j. rewrite link_ent by done. repeat case_decide; by subst.
  - intros j. unfold Link. destruct (_ =? kNil) eqn:E; [by apply exists_set|]. apply Z.eqb_neq, Hh in E.
    unfold exists_in, MarkOccupied, set_occ, set_head, set_ent in *; simpl. rewrite !lookup_insert_is_Some'.
    split; [|tauto]. intros H. repeat destruct H as [<-|H]; done.
  - unfold Link. by case_match.
  - unfold Link. by case_match.
  - unfold Link. by case_match.
  - unfold Link. by case_match.
Qed.

Lemma li_head_in w L l s : linv w L → valid_ls l s → head_at w l s ≠ kNil → exists_in w (head_at w l s) ∧ posn w (head_at w l s) = (l, s).
Proof.
  intros Hl Hv. rewrite (li_head _ _ _ _ Hl Hv). destruct (L l s) as [|x k] eqn:EL; [done|]. simpl. intros _.
  apply (li_in _ _ Hl l s x Hv). rewrite EL. set_solver.
Qed.

Lemma li_head_ne w L i l s :
  linv w L → valid_ls l s → exists_in w i → e_level (ent w i) = -1 → head_at w l s ≠ i.
Proof.
  intros Hl Hv Hi Hlev E. destruct (li_head_in _ _ _ _ Hl Hv) as [_ Hp]; [rewrite E; by eapply li_nonnil|].
  rewrite E in Hp. unfold posn in Hp. rewrite Hlev in Hp. injection Hp as Hb _. destruct Hv. lia.
Qed.

Lemma link_head w i l s l' s' : head_at (Link i l s w) l' s' = if decide ((l, s) = (l', s')) then i else head_at w l' s'.
Proof. unfold Link. case_match; (etrans; [apply head_set|done]). Qed.

Lemma link_occ w i l s l' k : occ_at (Link i l s w) l' k = occ_at (MarkOccupied l s w) l' k.
Proof. unfold Link. by case_match. Qed.

Lemma link_posn w i l s j :
  head_at w l s ≠ i → posn (Link i l s w) j = if decide (j = i) then (l, s) else posn w j.
Proof. intros Hne. unfold posn. rewrite link_ent by done. repeat case_decide; by subst. Qed.

Lemma link_inv w L i l s :
  linv w L → exists_in w i → e_level (ent w i) = -1 → valid_ls l s →
  linv (Link i l s w) (upd_list l s (i :: L l s) L).
Proof.
  intros Hl Hi Hlev Hv. pose proof Hl as [H1 H2 H3 H4 H5 H6 H7 H8].
  assert (Hnot : ∀ l' s', valid_ls l' s' → i ∉ L l' s').
  { intros l' s' Hv' [_ [= E _]]%H3; [|done]. destruct Hv'. lia. }
  assert (Hne : head_at w l s ≠ i) by by eapply li_head_ne.
  assert (Hm : moved w (Link i l s w)) by (apply link_moved; [done|done|by apply (li_head_in _ _ _ _ Hl Hv)]).
  assert (Hent := λ j, link_ent w i l s j Hne).
  constructor.
  - intros l' s' Hv'. rewrite link_head. unfold upd_list. case_decide as E.
    + injection E as <- <-. destruct (H1 l s Hv) as [q Hd]. destruct (L l s) as [|x k] eqn:EL.
      * exists i. simpl. rewrite Hent, decide_True by done. simpl. destruct Hd as [-> _]. split_and!; try done. by eapply li_nonnil.
      * exists q. assert (Htail : dlseg (ent (Link i l s w)) i (head_at w l s) (x :: k) q kNil).
        { eapply (dlseg_entry (ent w)); [exact Hd|rewrite <- EL; by apply H2|done| |].
          - intros y Hy. rewrite <- EL in Hy. rewrite Hent, decide_False by (intros ->; by apply (Hnot l s)). by case_decide.
          - intros y Hy. rewrite Hent. rewrite decide_False by (intros ->; rewrite <- EL in Hy; by apply (Hnot l s)).
            pose proof (dlseg_nonnil _ _ _ _ _ _ _ Hd Hy). repeat case_decide; naive_solver. }
        split; [done|]. split; [by eapply li_nonnil|]. split; by rewrite Hent, decide_True.
    + destruct (H1 l' s' Hv') as [q Hd]. exists q. eapply dlseg_ext; [|exact Hd]. intros y Hy.
      rewrite Hent, decide_False by (intros ->; by apply (Hnot l' s')). rewrite decide_False; [done|]. intros [-> Hk].
      rewrite (li_head _ _ _ _ Hl Hv) in *. destruct (L l s) as [|x k] eqn:EL; simpl in *; [done|].
      apply (H3 l' s') in Hy as [_ Hy]; [|done]. assert (Hx : x ∈ L l s) by (rewrite EL; set_solver).
      apply H3 in Hx as [_ Hx]; [|done]. congruence.
  - intros l' s' Hv'. unfold upd_list. case_decide; [|by apply H2]. apply NoDup_cons. split; [by apply Hnot|by apply H2].
  - intros l' s' j Hv'. unfold upd_list. rewrite (mv_dom _ _ Hm j), link_posn by done.
    assert (Hold := H3 l' s' j Hv'). case_decide as E.
    + injection E as <- <-. rewrite elem_of_cons, Hold. case_decide; [subst j|]; tauto.
    + rewrite Hold. case_decide as Ej; [subst j|tauto]. unfold posn. rewrite Hlev. split.
      * intros [_ [= Hb _]]. destruct Hv'. lia.
      * intros [_ ?]. congruence.
  - intros j Hj. apply (mv_dom _ _ Hm) in Hj. rewrite Hent. case_decide; [by right|]. apply H4 in Hj. by case_decide.
  - intros l' s' Hv'. unfold Link. rewrite marked_occupied by (destruct Hv, Hv'; done). unfold upd_list.
    destruct (decide ((l, s) = (l', s'))) as [E|E]; [by rewrite bool_decide_true|]. rewrite bool_decide_false by done.
    rewrite <- H5 by done. by case_match.
  - intros l' j. apply mark_range. intros l0 j0. specialize (H6 l0 j0). by case_match.
  - intros j. rewrite (mv_dom _ _ Hm j), (mv_size _ _ Hm). apply H7.
  - by rewrite (mv_size _ _ Hm).
Qed.

Lemma link_ok w i l s :
  wok w → exists_in w i → e_level (ent w i) = -1 → valid_ls l s →
  wok (Link i l s w) ∧ moved w (Link i l s w) ∧ ∀ j, posn (Link i l s w) j = if decide (j = i) then (l, s) else posn w j.
Proof.
  intros [L Hl] Hi Hlev Hv.
  assert (Hne : head_at w l s ≠ i) by by eapply li_head_ne.
  split_and!; [by eexists; apply link_inv| |intros j; by apply link_posn].
  apply link_moved; [done|done|by apply (li_head_in _ _ _ _ Hl Hv)].
Qed.

(** The entries after [Unlink]. *)
Section unlink.
Context (w : wheel) (i : Z).
Let p := e_prev (ent w i).
Let n := e_next (ent w i).
Let l := e_level (ent w i).
Let s := e_slot (ent w i).
Hypothesis Hlev : 0 ≤ l.
Hypothesis Hp : p ≠ i.
Hypothesis Hn : n ≠ i.

Definition unlinked : wheel :=
  let w1 := if p =? kNil then set_head l s n w else set_ent p (set_enext n (ent w p)) w in
  let w2 := if n =? kNil then w1 else set_ent n (set_prev p (ent w1 n)) w1 in
  set_ent i (set_pos (-1) s kNil kNil (ent w2 i)) w2.

Lemma unlink_eq : Unlink i w = if head_at unlinked l s =? kNil then MarkEmpty l s unlinked else unlinked.
Proof. unfold Unlink. fold l s p n. destruct (l <? 0) eqn:E; [apply Z.ltb_lt in E; lia|]. done. Qed.

Lemma unlink_same : ∀ j, ent (Unlink i w) j = ent unlinked j.
Proof. intros j. rewrite unlink_eq. by case_match. Qed.

Lemma unlink_ent j :
  payload (ent (Unlink i w) j) = payload (ent w j) ∧
  posn (Unlink i w) j = (if decide (j = i) then (-1, s) else posn w j) ∧
  (j ≠ i → e_next (ent (Unlink i w) j) = (if decide (j = p ∧ p ≠ kNil) then n else e_next (ent w j)) ∧
    e_prev (ent (Unlink i w) j) = if decide (j = n ∧ n ≠ kNil) then p else e_prev (ent w j)).
Proof.
  unfold posn. rewrite unlink_same. unfold unlinked. rewrite ent_set. clearbody p n s.
  destruct (p =? kNil) eqn:Ep; [apply Z.eqb_eq in Ep|apply Z.eqb_neq in Ep];
    (destruct (n =? kNil) eqn:En; [apply Z.eqb_eq in En|apply Z.eqb_neq in En]);
    repeat match goal with |- context [ent (set_head ?a ?b ?c w) ?x] => change (ent (set_head a b c w) x) with (ent w x) end;
    rewrite ?ent_set; repeat case_decide; subst; split_and!; try done; try naive_solver.
Qed.

Lemma unlink_head l' s' :
  head_at (Unlink i w) l' s' = if decide ((l, s) = (l', s') ∧ p = kNil) then n else head_at w l' s'.
Proof.
  rewrite unlink_eq. transitivity (head_at unlinked l' s'); [by case_match|]. unfold unlinked.
  destruct (p =? kNil) eqn:Ep; [apply Z.eqb_eq in Ep|apply Z.eqb_neq in Ep].
  - transitivity (head_at (set_head l s n w) l' s'); [by case_match|]. rewrite head_set. repeat case_decide; naive_solver.
  - rewrite decide_False by naive_solver. by case_match.
Qed.
End unlink.

(** Where a linked entry stands in its list. *)
Lemma li_split w L i :
  linv w L → exists_in w i → 0 ≤ e_level (ent w i) →
  let l := e_level (ent w i) in let s := e_slot (ent w i) in
  valid_ls l s ∧ ∃ l1 l2, L l s = l1 ++ i :: l2 ∧ NoDup (l1 ++ i :: l2) ∧ (i ∉ l1 ++ l2) ∧
    (e_prev (ent w i) = kNil ∧ l1 = [] ∨ e_prev (ent w i) ∈ l1) ∧
    (e_next (ent w i) = kNil ∧ l2 = [] ∨ e_next (ent w i) ∈ l2).
Proof.
  intros Hl Hi Hlev l s. assert (Hv : valid_ls l s) by (destruct (li_pos _ _ Hl i Hi); [lia|done]). split; [done|].
  assert (Hin : i ∈ L l s) by by apply (li_in _ _ Hl). pose proof (li_nodup _ _ Hl l s Hv) as Hnd.
  apply list_elem_of_split in Hin as (l1 & l2 & E). exists l1, l2. rewrite E in Hnd.
  destruct (li_list _ _ Hl l s Hv) as [q Hd]. rewrite E in Hd. apply dlseg_app in Hd as (q1 & e1 & H1 & (-> & Hik & Hp & H2)).
  pose proof Hnd as (_ & Hdis & [Hi2 _]%NoDup_cons)%NoDup_app. split_and!; [done|done| | |].
  - intros [H|H]%elem_of_app; [|done]. apply (Hdis i H). set_solver.
  - rewrite Hp. destruct l1 as [|y l1]; [left; by destruct H1 as [_ <-]|right]. by eapply dlseg_last.
  - destruct l2 as [|z l2]; [left; by destruct H2 as [-> _]|right]. destruct H2 as (-> & _). set_solver.
Qed.

Section unlink_inv.
Context (w : wheel) (L : Z → Z → list Z) (i : Z).
Hypothesis Hl : linv w L.
Hypothesis Hi : exists_in w i.
Hypothesis Hlev : 0 ≤ e_level (ent w i).
Notation l := (e_level (ent w i)).
Notation s := (e_slot (ent w i)).
Notation p := (e_prev (ent w i)).
Notation n := (e_next (ent w i)).

Lemma unlink_sides : p ≠ i ∧ n ≠ i ∧ (p ≠ kNil → exists_in w p ∧ posn w p = (l, s)) ∧ (n ≠ kNil → exists_in w n ∧ posn w n = (l, s)).
Proof.
  destruct (li_split _ _ _ Hl Hi Hlev) as (Hv & l1 & l2 & EL & _ & Hni & Hpp & Hnn).
  assert (Hik : i ≠ kNil) by by eapply li_nonnil.
  assert (Hin : ∀ x, x ∈ l1 ++ l2 → x ≠ i ∧ exists_in w x ∧ posn w x = (l, s)).
  { intros x Hx. split; [by intros ->|]. apply (li_in _ _ Hl); [done|]. rewrite EL. set_solver. }
  destruct Hpp as [[Hp _]|Hp], Hnn as [[Hn _]|Hn]; rewrite ?Hp, ?Hn; split_and!; try done;
    first [apply Hin; set_solver | intros _; apply Hin; set_solver].
Qed.

Lemma unlink_dom j : exists_in (Unlink i w) j ↔ exists_in w j.
Proof.
  destruct unlink_sides as (_ & _ & Hp & Hn). rewrite (unlink_eq w i Hlev).
  transitivity (exists_in (unlinked w i) j); [by case_match|]. unfold unlinked.
  destruct (p =? kNil) eqn:Ep; [|apply Z.eqb_neq, Hp in Ep as [Ep _]];
    (destruct (n =? kNil) eqn:En; [|apply Z.eqb_neq, Hn in En as [En _]]);
    unfold exists_in, set_head, set_ent in *; simpl; rewrite ?lookup_insert_is_Some';
    (split; [|tauto]); intros H; repeat destruct H as [<-|H]; done.
Qed.

Lemma unlink_moved : moved w (Unlink i w).
Proof.
  destruct unlink_sides as (Hp & Hn & _). constructor; [intros j; by apply unlink_ent|apply unlink_dom|..];
    rewrite (unlink_eq w i Hlev); unfold unlinked; repeat case_match; done.
Qed.

Lemma unlink_own :
  ∃ l1 l2 q, L l s = l1 ++ i :: l2 ∧ NoDup (l1 ++ l2) ∧ (i ∉ l1 ++ l2) ∧
    dlseg (ent (Unlink i w)) kNil (head_at (Unlink i w) l s) (l1 ++ l2) q kNil.
Proof.
  destruct unlink_sides as (Hp & Hn & _).
  destruct (li_split _ _ _ Hl Hi Hlev) as (Hv & l1 & l2 & EL & Hnd & Hni & _).
  destruct (li_list _ _ Hl l s Hv) as [q Hd]. rewrite EL in Hd. pose proof (λ x, unlink_ent w i Hlev Hp Hn x) as Hent.
  assert (Hx : ∀ x, x ∈ l1 ++ l2 → x ≠ i ∧ x ≠ kNil).
  { intros x Hx. split; [by intros ->|]. apply (dlseg_nonnil _ _ _ _ _ _ _ Hd). set_solver. }
  destruct (dlseg_remove (ent w) (ent (Unlink i w)) _ _ _ _ _ Hd Hnd) as [q' Hq'].
  - intros x [Hxi Hxk]%Hx. destruct (proj2 (proj2 (Hent x)) Hxi) as [-> _]. repeat case_decide; naive_solver.
  - intros x [Hxi Hxk]%Hx. destruct (proj2 (proj2 (Hent x)) Hxi) as [_ ->]. repeat case_decide; naive_solver.
  - exists l1, l2, q'. split_and!; [done| |done|].
    + apply NoDup_app in Hnd as (Ha & Hb & [_ Hc]%NoDup_cons). apply NoDup_app. split_and!; try done.
      intros x Hx1 Hx2. apply (Hb x Hx1). set_solver.
    + rewrite (unlink_head w i Hlev). destruct (decide (p = kNil)); [rewrite decide_True by done|rewrite decide_False by tauto]; done.
Qed.

Lemma unlink_other l' s' :
  valid_ls l' s' → (l, s) ≠ (l', s') → ∃ q, dlseg (ent (Unlink i w)) kNil (head_at (Unlink i w) l' s') (L l' s') q kNil.
Proof.
  intros Hv E. destruct unlink_sides as (Hp & Hn & Hp' & Hn'). rewrite (unlink_head w i Hlev), decide_False by tauto.
  destruct (li_list _ _ Hl l' s' Hv) as [q Hd]. exists q. eapply dlseg_ext; [|exact Hd].
  intros x Hx. pose proof (proj1 (li_in _ _ Hl l' s' x Hv) Hx) as [Hxe Hxp].
  assert (Hxi : x ≠ i) by (intros ->; by apply E).
  destruct (proj2 (proj2 (unlink_ent w i Hlev Hp Hn x)) Hxi) as [-> ->]. rewrite !decide_False; [done|..].
  - intros [-> Hk]. destruct (Hp' Hk). congruence.
  - intros [-> Hk]. destruct (Hn' Hk). congruence.
Qed.

Lemma unlink_occ l' :
  occ_at (Unlink i w) l' = if head_at (Unlink i w) l s =? kNil then occ_at (MarkEmpty l s w) l' else occ_at w l'.
Proof.
  assert (Hh : head_at (Unlink i w) l s = head_at (unlinked w i) l s) by (rewrite (unlink_eq w i Hlev); by case_match).
  assert (Ho : w_occ (unlinked w i) = w_occ w) by (unfold unlinked; repeat case_match; done).
  rewrite Hh, (unlink_eq w i Hlev). unfold MarkEmpty, set_occ, occ_at.
  case_match; cbn [w_occ]; by rewrite Ho.
Qed.

Lemma unlink_inv : wok (Unlink i w).
Proof.
  pose proof Hl as [H1 H2 H3 H4 H5 H6 H7 H8]. destruct unlink_own as (l1 & l2 & q & EL & Hnd & Hni & Hown).
  destruct unlink_sides as (Hp & Hn & _). pose proof (λ j, unlink_ent w i Hlev Hp Hn j) as Hent.
  assert (Hv : valid_ls l s) by (destruct (H4 i Hi); [lia|done]).
  exists (upd_list l s (l1 ++ l2) L). constructor.
  - intros l' s' Hv'. unfold upd_list. destruct (decide ((l, s) = (l', s'))) as [E|E]; [|by apply unlink_other].
    apply pair_eq in E as [<- <-]. by exists q.
  - intros l' s' Hv'. unfold upd_list. destruct (decide _); [done|by apply H2].
  - intros l' s' j Hv'. unfold upd_list. rewrite unlink_dom, (proj1 (proj2 (Hent j))). assert (Hold := H3 l' s' j Hv').
    destruct (decide ((l, s) = (l', s'))) as [E|E].
    + apply pair_eq in E as [<- <-]. rewrite EL, elem_of_app, elem_of_cons in Hold. rewrite elem_of_app. rewrite elem_of_app in Hni.
      destruct (decide (j = i)) as [Ej|]; [subst j|tauto]. split; [tauto|]. intros [_ [= Hb]]. destruct Hv. lia.
    + rewrite Hold. destruct (decide (j = i)) as [Ej|]; [subst j|tauto]. split; intros [_ Hb]; [done|]. injection Hb as Hb. destruct Hv'. lia.
  - intros j Hj%unlink_dom. destruct (Hent j) as (_ & Hpos & _). unfold posn in Hpos.
    destruct (decide (j = i)); injection Hpos as -> ->; [by left|by apply H4].
  - intros l' s' Hv'. rewrite unlink_occ. unfold upd_list.
    assert (Hh : head_at (Unlink i w) l s = kNil ↔ l1 ++ l2 = []).
    { destruct (l1 ++ l2) as [|x k]; [by destruct Hown|]. destruct Hown as (-> & ? & _). done. }
    destruct (_ =? kNil) eqn:E; [apply Z.eqb_eq, Hh in E|apply Z.eqb_neq in E; rewrite Hh in E].
    + rewrite marked_empty, H5 by (destruct Hv, Hv'; done). destruct (decide ((l, s) = (l', s'))).
      * rewrite E, !bool_decide_true by done. done.
      * by rewrite (bool_decide_false (_ = _)) by done.
    + rewrite H5 by done. destruct (decide ((l, s) = (l', s'))) as [E'|]; [|done]. apply pair_eq in E' as [<- <-]. rewrite EL, !bool_decide_false; [done|done|by destruct l1].
  - intros l' j. rewrite unlink_occ. case_match; [by apply mark_range|apply H6].
  - intros j. rewrite unlink_dom, (mv_size _ _ unlink_moved). apply H7.
  - by rewrite (mv_size _ _ unlink_moved).
Qed.
End unlink_inv.

Lemma unlink_ok w i :
  wok w → exists_in w i → 0 ≤ e_level (ent w i) →
  wok (Unlink i w) ∧ moved w (Unlink i w) ∧
  ∀ j, posn (Unlink i w) j = if decide (j = i) then (-1, e_slot (ent w i)) else posn w j.
Proof.
  intros [L Hl] Hi Hlev. destruct (unlink_sides _ _ _ Hl Hi Hlev) as (Hp & Hn & _).
  split_and!; [by eapply unlink_inv|by eapply unlink_moved|]. intros j. by apply unlink_ent.
Qed.

(** ** Placing and cascading *)

Lemma slot_mask_range x : (0 ≤ Z.land x kSlotMask < 256).
Proof. change kSlotMask with (Z.ones 8). rewrite Z.land_ones by lia. by apply Z.mod_pos_bound. Qed.

Lemma place_slot_valid c d : valid_ls (place_slot c d).1 (place_slot c d).2.
Proof. unfold place_slot, valid_ls. repeat case_match; simpl; split; try apply slot_mask_range; unfold kLevels; lia. Qed.

Lemma place_ok w i d :
  wok w → exists_in w i → e_level (ent w i) = -1 →
  wok (Place i d w) ∧ moved w (Place i d w) ∧
  ∀ j, posn (Place i d w) j = if decide (j = i) then place_slot (w_tick w) d else posn w j.
Proof.
  intros Hw Hi Hlev. unfold Place. destruct (link_ok w i _ _ Hw Hi Hlev (place_slot_valid (w_tick w) d)) as (H1 & H2 & H3).
  split_and!; [done|done|]. intros j. rewrite H3. by destruct (place_slot _ _).
Qed.

(** Two wheels with the same links. *)
Record same_links (w w' : wheel) : Prop := {
  sl_ent j : e_prev (ent w' j) = e_prev (ent w j) ∧ e_next (ent w' j) = e_next (ent w j) ∧ posn w' j = posn w j;
  sl_dom j : exists_in w' j ↔ exists_in w j;
  sl_head l s : head_at w' l s = head_at w l s;
  sl_occ l i : occ_at w' l i = occ_at w l i;
  sl_size : w_size w' = w_size w }.

Lemma linv_same w w' L : same_links w w' → linv w L → linv w' L.
Proof.
  intros [S1 S2 S3 S4 S5] [H1 H2 H3 H4 H5 H6 H7 H8]. constructor; rewrite ?S5; try done.
  - intros l s Hv. rewrite S3. destruct (H1 l s Hv) as [q Hd]. exists q. eapply dlseg_ext; [|exact Hd].
    intros x _. destruct (S1 x) as (-> & -> & _). done.
  - intros l s i Hv. rewrite S2. destruct (S1 i) as (_ & _ & ->). by apply H3.
  - intros i Hi. destruct (S1 i) as (_ & _ & E). unfold posn in E. injection E as -> ->. apply H4. by apply S2.
  - intros l s Hv. rewrite <- H5 by done. unfold marked. by rewrite S4.
  - intros l i. rewrite S4. apply H6.
  - intros i. rewrite S2. apply H7.
Qed.

(** The wheel with the entries of [R] taken for unlinked: their slot's head no longer leads
    to them. *)
Definition unplaced (e : Entry) : Entry := set_pos (-1) (e_slot e) (e_prev e) (e_next e) e.
Fixpoint wash (R : list Z) (w : wheel) : wheel :=
  match R with [] => w | x :: R' => set_ent x (unplaced (ent w x)) (wash R' w) end.

Lemma ent_wash R w j : ent (wash R w) j = if decide (j ∈ R) then unplaced (ent w j) else ent w j.
Proof.
  induction R as [|x R IH]; [by rewrite decide_False by apply not_elem_of_nil|]. cbn [wash]. rewrite ent_set.
  destruct (decide (x = j)) as [->|Hne]; [by rewrite decide_True by set_solver|]. rewrite IH.
  destruct (decide (j ∈ R)); [rewrite decide_True by set_solver|rewrite decide_False by set_solver]; done.
Qed.

Lemma wash_dom R w j : (∀ x, x ∈ R → exists_in w x) → exists_in (wash R w) j ↔ exists_in w j.
Proof.
  revert j. induction R as [|x R IH]; intros j HR; [done|]. cbn [wash]. rewrite <- IH by set_solver. apply exists_set.
  apply IH; set_solver.
Qed.

Lemma wash_rest R w :
  (∀ l s, head_at (wash R w) l s = head_at w l s) ∧ (∀ l i, occ_at (wash R w) l i = occ_at w l i) ∧
  w_size (wash R w) = w_size w ∧ w_tick (wash R w) = w_tick w.
Proof. induction R as [|x R IH]; [done|exact IH]. Qed.

(** The nodes still to visit, from [i]. *)
Fixpoint nchain (E : Z → Entry) (i : Z) (R : list Z) : Prop :=
  match R with [] => i = kNil | x :: R' => i = x ∧ x ≠ kNil ∧ nchain E (e_next (E x)) R' end.

Lemma nchain_ext E E' i R : (∀ x, x ∈ R → e_next (E' x) = e_next (E x)) → nchain E i R → nchain E' i R.
Proof.
  revert i. induction R as [|x R IH]; intros i Hx; simpl; [done|]. intros (-> & Hn & HR).
  rewrite Hx by set_solver. split_and!; [done|done|]. apply IH; [|done]. intros y Hy. apply Hx. set_solver.
Qed.

Lemma dlseg_nchain E p h l q : dlseg E p h l q kNil → nchain E h l.
Proof. revert p h. induction l as [|x l IH]; intros p h; simpl; [by intros [-> _]|]. intros (-> & ? & _ & Hl). eauto. Qed.

(** One turn of the loop in [Cascade]. *)
Lemma cascade_turn u x R d :
  (∃ L, linv (wash (x :: R) u) L) → NoDup (x :: R) → (∀ y, y ∈ x :: R → exists_in u y) →
  let u1 := set_ent x (set_pos (-1) (e_slot (ent u x)) kNil kNil (ent u x)) u in
  let u2 := Place x d u1 in
  (∃ L, linv (wash R u2) L) ∧ moved u u2 ∧
  (∀ j, posn u2 j = if decide (j = x) then place_slot (w_tick u) d else posn u j) ∧
  ∀ j, j ≠ x → e_next (ent u2 j) = e_next (ent u j).
Proof.
  intros [L Hl] [Hx Hnd]%NoDup_cons Hex u1 u2.
  assert (Hux : exists_in u x) by (apply Hex; set_solver).
  set (ls := place_slot (w_tick u) d). assert (Hv : valid_ls ls.1 ls.2) by apply place_slot_valid.
  destruct (wash_rest (x :: R) u) as (Hh & Ho & Hs & Ht).
  assert (Hwx : exists_in (wash (x :: R) u) x) by (apply wash_dom; [exact Hex|done]).
  assert (Hlx : e_level (ent (wash (x :: R) u) x) = -1) by (rewrite ent_wash, decide_True by set_solver; done).
  pose proof (link_inv _ _ x ls.1 ls.2 Hl Hwx Hlx Hv) as Hl2.
  assert (Hne : head_at u ls.1 ls.2 ≠ x) by (rewrite <- Hh; by eapply li_head_ne).
  assert (Hent2 : ∀ j, ent u2 j = if decide (j = x) then set_pos ls.1 ls.2 kNil (head_at u ls.1 ls.2) (ent u1 x)
      else if decide (j = head_at u ls.1 ls.2 ∧ j ≠ kNil) then set_prev x (ent u j) else ent u j).
  { intros j. unfold u2, Place. change (w_tick u1) with (w_tick u). fold ls. rewrite link_ent by done.
    change (head_at u1 ls.1 ls.2) with (head_at u ls.1 ls.2). unfold u1. rewrite !ent_set. repeat case_decide; naive_solver. }
  assert (Hm : moved u u2).
  { trans u1; [by apply moved_set|]. unfold u2, Place. change (w_tick u1) with (w_tick u). fold ls.
    apply link_moved; [by apply exists_set|done|]. change (head_at u1 ls.1 ls.2) with (head_at u ls.1 ls.2). intros Hk.
    apply exists_set; [done|]. rewrite <- Hh in Hk |- *. destruct (li_head_in _ _ _ _ Hl Hv Hk) as [He _].
    by apply wash_dom in He. }
  split_and!; [|done| |].
  - exists (upd_list ls.1 ls.2 (x :: L ls.1 ls.2) L). eapply linv_same; [|exact Hl2].
    destruct (wash_rest R u2) as (Hh' & Ho' & Hs' & _). constructor.
    + intros j. rewrite ent_wash. unfold posn. rewrite ent_wash, link_ent by (rewrite Hh; done). rewrite Hh, !ent_wash, !Hent2.
      assert (Hc : j ∈ x :: R ↔ j = x ∨ j ∈ R) by apply elem_of_cons. destruct (decide (j = x)) as [->|Hj].
      * rewrite (decide_False (P := x ∈ R)), decide_True by tauto. done.
      * destruct (decide (j ∈ R)); [rewrite (decide_True (P := j ∈ x :: R)) by tauto|rewrite (decide_False (P := j ∈ x :: R)) by tauto];
          by case_decide.
    + intros j. rewrite wash_dom by (intros y Hy; apply (mv_dom _ _ Hm), Hex; set_solver). rewrite (mv_dom _ _ Hm).
      rewrite (mv_dom _ _ (link_moved (wash (x :: R) u) x ls.1 ls.2 Hwx ltac:(rewrite Hh; done) ltac:(intros Hk; by apply (li_head_in _ _ _ _ Hl Hv)))).
      symmetry. by apply wash_dom.
    + intros l s. rewrite Hh', link_head, Hh. unfold u2, Place. by rewrite link_head.
    + intros l i. rewrite Ho', !link_occ. unfold u2, Place. rewrite link_occ. unfold MarkOccupied. rewrite !occ_set, !Ho. done.
    + rewrite Hs', (mv_size _ _ Hm). unfold Link. by case_match.
  - intros j. unfold posn. rewrite Hent2. fold ls. repeat case_decide; try done. by destruct ls.
  - intros j Hj. rewrite Hent2, decide_False by done. by case_decide.
Qed.

Lemma cascade_loop_ok fuel i u R :
  (∃ L, linv (wash R u) L) → NoDup R → (∀ y, y ∈ R → exists_in u y) → nchain (ent u) i R → (length R < fuel)%nat →
  let u' := cascade_loop fuel i u in
  wok u' ∧ moved u u' ∧
  ∀ j, posn u' j = if decide (j ∈ R) then place_slot (w_tick u) (e_deadline (ent u j)) else posn u j.
Proof.
  revert i u R. induction fuel as [|fuel IH]; intros i u R Hl Hnd Hex Hc Hf; [lia|]. cbn [cascade_loop].
  destruct R as [|x R].
  - simpl in Hc. subst i. rewrite Z.eqb_refl. split_and!; [exact Hl|done|]. intros j. by rewrite decide_False by apply not_elem_of_nil.
  - destruct Hc as (-> & Hx & Hc). apply Z.eqb_neq in Hx as ->. cbv zeta.
    set (u1 := set_ent x (set_pos (-1) (e_slot (ent u x)) kNil kNil (ent u x)) u). set (d := e_deadline (ent u1 x)).
    destruct (cascade_turn u x R d Hl Hnd Hex) as (Hl2 & Hm & Hp & Hn). fold u1 in Hl2, Hm, Hp, Hn.
    apply NoDup_cons in Hnd as [Hxr Hnd].
    destruct (IH (e_next (ent u x)) (Place x d u1) R) as (H1 & H2 & H3).
    + done.
    + done.
    + intros y Hy. apply (mv_dom _ _ Hm), Hex. set_solver.
    + eapply nchain_ext; [|exact Hc]. intros y Hy. apply Hn. by intros ->.
    + simpl in Hf. lia.
    + split_and!; [done|by trans (Place x d u1)|]. intros j. rewrite H3, Hp, (mv_tick _ _ Hm).
      assert (Hd : ∀ j, e_deadline (ent (Place x d u1) j) = e_deadline (ent u j)).
      { intros k. pose proof (mv_pay _ _ Hm k) as E. by injection E. }
      assert (Hdx : d = e_deadline (ent u x)) by (unfold d, u1; by rewrite ent_set, decide_True).
      assert (Hcj : j ∈ x :: R ↔ j = x ∨ j ∈ R) by apply elem_of_cons. destruct (decide (j = x)) as [->|Hj].
      * rewrite (decide_False (P := x ∈ R)), (decide_True (P := x ∈ x :: R)) by tauto. by rewrite Hdx.
      * destruct (decide (j ∈ R)); [rewrite (decide_True (P := j ∈ x :: R)) by tauto|rewrite (decide_False (P := j ∈ x :: R)) by tauto];
          [by rewrite Hd|done].
Qed.

Lemma li_length w L l s : linv w L → valid_ls l s → (length (L l s) ≤ Z.to_nat (w_size w))%nat.
Proof.
  intros Hl Hv. rewrite <- (length_seqZ 0). apply submseteq_length, NoDup_submseteq; [by apply (li_nodup _ _ Hl)|].
  intros x [Hx _]%(li_in _ _ Hl); [|done]. apply (li_dom _ _ Hl) in Hx. apply elem_of_seqZ. lia.
Qed.

(** A slot emptied of its head, its entries taken for unlinked. *)
Lemma empty_slot w L l s :
  linv w L → valid_ls l s → linv (wash (L l s) (MarkEmpty l s (set_head l s kNil w))) (upd_list l s [] L).
Proof.
  intros [H1 H2 H3 H4 H5 H6 H7 H8] Hv. set (w0 := MarkEmpty l s (set_head l s kNil w)).
  destruct (wash_rest (L l s) w0) as (Hh & Ho & Hs & _).
  assert (He : ∀ j, e_prev (ent (wash (L l s) w0) j) = e_prev (ent w j) ∧ e_next (ent (wash (L l s) w0) j) = e_next (ent w j) ∧
    posn (wash (L l s) w0) j = if decide (j ∈ L l s) then (-1, e_slot (ent w j)) else posn w j).
  { intros j. unfold posn. rewrite ent_wash. by case_decide. }
  assert (Hd : ∀ j, exists_in (wash (L l s) w0) j ↔ exists_in w j).
  { intros j. rewrite wash_dom; [done|]. intros x Hx. by apply H3 in Hx as [? _]. }
  constructor; rewrite ?Hs; try done.
  - intros l' s' Hv'. rewrite Hh. change (head_at w0 l' s') with (head_at (set_head l s kNil w) l' s'). rewrite head_set.
    unfold upd_list. destruct (decide ((l, s) = (l', s'))); [by exists kNil|]. destruct (H1 l' s' Hv') as [q Hq]. exists q.
    eapply dlseg_ext; [|exact Hq]. intros x _. by destruct (He x) as (-> & -> & _).
  - intros l' s' Hv'. unfold upd_list. destruct (decide _); [by apply NoDup_nil_2|by apply H2].
  - intros l' s' j Hv'. rewrite Hd. destruct (He j) as (_ & _ & ->). pose proof (H3 l s j Hv) as Hin. pose proof (H3 l' s' j Hv') as Hin'.
    unfold upd_list. destruct (decide ((l, s) = (l', s'))) as [E|E].
    + injection E as <- <-. rewrite elem_of_nil. destruct (decide (j ∈ L l s)); [|tauto]. split; [done|].
      intros [_ [= Hb]]. destruct Hv. lia.
    + destruct (decide (j ∈ L l s)) as [Hj|Hj]; [|done]. split.
      * intros Hx. exfalso. apply Hin' in Hx as [_ Hx]. apply Hin in Hj as [_ Hj]. congruence.
      * intros [_ [= Hb]]. destruct Hv'. lia.
  - intros j Hj%Hd. destruct (He j) as (_ & _ & E). unfold posn in E. destruct (decide _); injection E as -> ->; [by left|by apply H4].
  - intros l' s' Hv'. unfold marked. rewrite Ho. fold (marked (occ_at w0 l') s'). unfold w0.
    rewrite marked_empty by (destruct Hv, Hv'; done). change (occ_at (set_head l s kNil w) l') with (occ_at w l').
    rewrite H5 by done. unfold upd_list. destruct (decide ((l, s) = (l', s'))); [by rewrite (bool_decide_true (_ = (l', s')))|].
    by rewrite (bool_decide_false (_ = (l', s'))) by done.
  - intros l' i. rewrite Ho. by apply mark_range.
  - intros i. rewrite Hd. apply H7.
Qed.

(** [Cascade] empties one slot and places its entries anew. *)
Lemma cascade_ok w l s :
  wok w → valid_ls l s →
  wok (Cascade l s w) ∧ moved w (Cascade l s w) ∧
  ∀ j, exists_in w j → posn (Cascade l s w) j =
    if decide (posn w j = (l, s)) then place_slot (w_tick w) (e_deadline (ent w j)) else posn w j.
Proof.
  intros [L Hl] Hv. unfold Cascade. set (w0 := MarkEmpty l s (set_head l s kNil w)).
  destruct (li_list _ _ Hl l s Hv) as [q Hd]. pose proof (li_in _ _ Hl l s) as Hin.
  assert (Hw0 : linv (wash (L l s) w0) (upd_list l s [] L)).
  { by apply empty_slot. }
  destruct (cascade_loop_ok (Z.to_nat (w_size w) + 1) (head_at w l s) w0 (L l s)) as (H1 & H2 & H3).
  - by eexists.
  - by apply (li_nodup _ _ Hl).
  - intros y Hy. by apply Hin.
  - by eapply dlseg_nchain.
  - pose proof (li_length _ _ _ _ Hl Hv). lia.
  - split_and!; [done|by trans w0|]. intros j Hj. rewrite H3. change (posn w0 j) with (posn w j).
    destruct (decide (posn w j = (l, s))) as [E|E]; [rewrite decide_True by by apply Hin|rewrite decide_False by (intros ?%Hin; tauto)]; done.
Qed.

Lemma cascade_if_ok w l s :
  wok w → valid_ls l s →
  wok (cascade_if l s w) ∧ moved w (cascade_if l s w) ∧
  ∀ j, exists_in w j → posn (cascade_if l s w) j =
    if decide (posn w j = (l, s)) then place_slot (w_tick w) (e_deadline (ent w j)) else posn w j.
Proof.
  intros Hw Hv. unfold cascade_if. destruct (head_at w l s =? kNil) eqn:E; [|by apply cascade_ok].
  apply Z.eqb_eq in E. split_and!; [done|done|]. intros j Hj. rewrite decide_False; [done|]. intros Hp.
  destruct Hw as [L Hl]. assert (Hin : j ∈ L l s) by by apply (li_in _ _ Hl). rewrite (li_head _ _ _ _ Hl Hv) in E.
  destruct (L l s) as [|x k] eqn:EL; [by apply not_elem_of_nil in Hin|]. simpl in E. subst x.
  assert (Hk : kNil ∈ L l s) by (rewrite EL; set_solver). apply (li_in _ _ Hl) in Hk as [Hk _]; [|done].
  by apply (li_nonnil _ _ _ Hl Hk).
Qed.

(** Visiting slots of one level: an entry ends where [P] holds if placing it anew gives
    [P], and it either has [P] already or stands on a slot still to visit. *)
Lemma visit_ok (P : Z → Z * Z → Prop) l slots w :
  wok w → (0 ≤ l < 4) → (∀ s, s ∈ slots → 0 ≤ s < 256) →
  (∀ j, exists_in w j → P j (place_slot (w_tick w) (e_deadline (ent w j)))) →
  let w' := fold_left (λ w s, cascade_if l s w) slots w in
  wok w' ∧ moved w w' ∧
  (∀ j, exists_in w j → P j (posn w j) ∨ (posn w j).1 = l ∧ (posn w j).2 ∈ slots → P j (posn w' j)) ∧
  ∀ j, exists_in w j → (posn w j).1 < 0 → posn w' j = posn w j.
Proof.
  revert w. induction slots as [|s slots IH]; intros w Hw Hl Hs HP; cbn [fold_left].
  - split_and!; [done|done| |done]. intros j Hj [?|[_ ?%not_elem_of_nil]]; done.
  - assert (Hv : valid_ls l s) by (split; [done|]; apply Hs; set_solver).
    destruct (cascade_if_ok w l s Hw Hv) as (H1 & H2 & H3).
    destruct (IH (cascade_if l s w)) as (I1 & I2 & I3 & I4).
    + done.
    + done.
    + set_solver.
    + intros j Hj%(mv_dom _ _ H2). rewrite (mv_tick _ _ H2). pose proof (mv_pay _ _ H2 j) as E.
      injection E as -> ? ? ? ? ? ?. by apply HP.
    + split_and!; [done|by trans (cascade_if l s w)| |].
      2: { intros j Hj Hn. assert (Hp : posn (cascade_if l s w) j = posn w j).
           { rewrite (H3 j Hj), decide_False; [done|]. intros E. rewrite E in Hn. simpl in Hn. lia. }
           rewrite I4; [done|by apply (mv_dom _ _ H2)|by rewrite Hp]. }
      intros j Hj Hor. apply I3; [by apply (mv_dom _ _ H2)|]. rewrite (H3 j Hj). destruct (decide (posn w j = (l, s))) as [E|E]; [left; by apply HP|].
      destruct Hor as [?|[Hp1 Hp2]]; [by left|right]. split; [done|]. apply elem_of_cons in Hp2 as [Hp2|?]; [|done].
      destruct E. rewrite <- Hp1, <- Hp2. by destruct (posn w j).
Qed.

Lemma visited_range from to s : s ∈ visited from to → (0 ≤ s < 256).
Proof.
  unfold visited. case_match; [intros Hs%elem_of_seqZ; unfold kSlots in *; lia|].
  intros (k & -> & _)%list_elem_of_fmap. apply slot_mask_range.
Qed.

Lemma advance_levels_ok n l from0 target w :
  wok w → (1 ≤ l) → l + Z.of_nat n ≤ 4 →
  let w' := advance_levels n l from0 target w in
  wok w' ∧ moved w w' ∧ ∀ j, exists_in w j → 0 ≤ (posn w' j).1 ↔ 0 ≤ (posn w j).1.
Proof.
  revert l w. induction n as [|n IH]; intros l w Hw Hl Hn; cbn [advance_levels]; [done|].
  destruct (_ =? _); [done|]. set (w1 := fold_left _ _ _).
  destruct (visit_ok (λ _ p, 0 ≤ p.1) l (visited (Z.shiftr from0 (kSlotBits * l)) (Z.shiftr target (kSlotBits * l))) w)
    as (V1 & V2 & V3 & V4).
  - done.
  - lia.
  - apply visited_range.
  - intros j _. apply place_slot_valid.
  - fold w1 in V1, V2, V3, V4. destruct (IH (l + 1) w1) as (I1 & I2 & I3); [done|lia|lia|].
    split_and!; [done|by trans w1|]. intros j Hj. rewrite I3 by by apply (mv_dom _ _ V2). split.
    + intros Hp. destruct (decide (0 ≤ (posn w j).1)); [done|]. rewrite V4 in Hp by (done || lia). done.
    + intros Hp. apply V3; [done|by left].
Qed.

(** [AdvanceTo] moves entries between slots and sets the clock; it neither arms nor
    disarms. *)
Lemma AdvanceTo_ok target w :
  wok w →
  wok (AdvanceTo target w) ∧ moved (set_tick (Z.max target (w_tick w)) w) (AdvanceTo target w) ∧
  ∀ j, exists_in w j → 0 ≤ e_level (ent (AdvanceTo target w) j) ↔ 0 ≤ e_level (ent w j).
Proof.
  intros Hw. unfold AdvanceTo. destruct (target <=? w_tick w) eqn:E.
  - apply Z.leb_le in E. rewrite Z.max_r by lia. split_and!; [done|by constructor|done].
  - apply Z.leb_gt in E. rewrite Z.max_l by lia.
    destruct (advance_levels_ok 3 1 (w_tick w) target (set_tick target w)) as (H1 & H2 & H3); [|lia|lia|split_and!; done].
    destruct Hw as [L Hl]. exists L. by eapply linv_same; [|exact Hl].
Qed.
