(* ===== verification/TimerQueue.v ===== *)
(** * Arming, firing and periodic timers (src/Timer.cpp, include/Timer.h)

    The operations on the wheel of [TimerWheel]: arming and disarming one-shot timers,
    periodic timers, the step that fires what a tick holds, and the clocks that drive it
    (the timer thread and polling workers).  All of them run under the timer mutex, so an
    execution is a sequence of operations; time is a parameter of each.

    Shown: every operation keeps the wheel and its entry table consistent; a one-shot timer
    never fires before its delay has passed; periodic timers keep to their grid and count
    every point they skip. *)

From S2P Require Import Prelude WaitGroups TimerWheel.

(** ** Entries: armed and released *)

(** A fresh entry armed for deadline [d]: the common part of [Arm] and [Periodic::Start]. *)
Definition arm_entry (d tok ej ctx per : Z) (w : wheel) : Z * wheel :=
  let '(i, w1) := AcquireEntry w in
  let w2 := set_ent i (set_what d tok ej ctx per (set_gen (u32 (e_gen (ent w1 i) + 1)) (ent w1 i))) w1 in
  let w3 := Place i d w2 in
  (i, set_armed (w_armed w3 + 1) w3).

(** An armed entry taken out: the common part of [Disarm], [FireStepLocked] and
    [CancelPeriodicLocked]. *)
Definition drop_entry (i : Z) (w : wheel) : wheel :=
  let w1 := Unlink i w in
  let w2 := set_ent i (set_gen (u32 (e_gen (ent w1 i) + 1)) (ent w1 i)) w1 in
  let w3 := ReleaseEntry i w2 in
  set_armed (w_armed w3 - 1) w3.

(** The free list, which stores index + 1. *)
Fixpoint fchain (E : Z → Entry) (h : Z) (F : list Z) : Prop :=
  match F with [] => h = 0 | x :: F' => h = x + 1 ∧ fchain E (e_nextFree (E x)) F' end.

Record qinv (w : wheel) : Prop := {
  qi_ok : wok w;
  qi_gen i : (0 ≤ e_gen (ent w i) < 2 ^ 32);
  qi_lev i : exists_in w i → Z.odd (e_gen (ent w i)) = bool_decide (0 ≤ e_level (ent w i));
  qi_free : ∃ F, fchain (ent w) (w_freeHead w) F ∧ NoDup F ∧
    (∀ i, i ∈ F ↔ exists_in w i ∧ Z.odd (e_gen (ent w i)) = false) ∧
    w_armed w = w_size w - Z.of_nat (length F) }.

Lemma fchain_ext E E' h F : (∀ x, x ∈ F → e_nextFree (E' x) = e_nextFree (E x)) → fchain E h F → fchain E' h F.
Proof.
  revert h. induction F as [|x F IH]; intros h Hx; simpl; [done|]. intros [-> HF]. rewrite Hx by set_solver.
  split; [done|]. apply IH; [|done]. intros y Hy. apply Hx. set_solver.
Qed.

(** What a move of entries between slots keeps. *)
Lemma pay_gen w w' i : moved w w' →
  e_gen (ent w' i) = e_gen (ent w i) ∧ e_nextFree (ent w' i) = e_nextFree (ent w i) ∧
  e_deadline (ent w' i) = e_deadline (ent w i) ∧ e_periodic (ent w' i) = e_periodic (ent w i) ∧
  e_token (ent w' i) = e_token (ent w i).
Proof. intros Hm. pose proof (mv_pay _ _ Hm i) as E. injection E as ? ? ? ? ? ? ?. done. Qed.

Lemma qinv_moved w w' :
  qinv w → moved w w' → wok w' → (∀ i, exists_in w i → 0 ≤ e_level (ent w' i) ↔ 0 ≤ e_level (ent w i)) → qinv w'.
Proof.
  intros [Q1 Q2 Q3 (F & HF & Hnd & Hin & Ha)] Hm Hok Hlev. constructor; [done|..].
  - intros i. destruct (pay_gen _ _ i Hm) as (-> & _). apply Q2.
  - intros i Hi%(mv_dom _ _ Hm). destruct (pay_gen _ _ i Hm) as (-> & _). rewrite Q3 by done.
    apply bool_decide_ext. symmetry. by apply Hlev.
  - exists F. rewrite (mv_free _ _ Hm), (mv_armed _ _ Hm), (mv_size _ _ Hm). split_and!; [|done| |done].
    + eapply fchain_ext; [|exact HF]. intros x _. by apply pay_gen.
    + intros i. rewrite Hin, (mv_dom _ _ Hm). by destruct (pay_gen _ _ i Hm) as (-> & _).
Qed.

Lemma ent_push w j : (∀ i, exists_in w i ↔ (0 ≤ i < w_size w)) → ent (push_entry w) j = ent w j.
Proof.
  intros Hd. unfold ent, push_entry. simpl. destruct (decide (w_size w = j)) as [<-|Hne]; [|by rewrite lookup_insert_ne].
  rewrite lookup_insert_eq. destruct (w_entries w !! w_size w) eqn:E; [|done].
  assert (Hx : exists_in w (w_size w)) by (by eexists). apply Hd in Hx. lia.
Qed.

Lemma push_linv w L : linv w L → w_size w < kNil → linv (push_entry w) L.
Proof.
  intros [H1 H2 H3 H4 H5 H6 H7 H8] Hs. pose proof (λ j, ent_push w j H7) as He.
  assert (Hlast : ¬ exists_in w (w_size w)) by (rewrite H7; lia).
  assert (Hlev : e_level (ent w (w_size w)) = -1).
  { unfold ent. destruct (w_entries w !! w_size w) eqn:E; [|done]. destruct Hlast. by eexists. }
  assert (Hd : ∀ j, exists_in (push_entry w) j ↔ j = w_size w ∨ exists_in w j).
  { intros j. unfold exists_in, push_entry. simpl. rewrite lookup_insert_is_Some'. naive_solver. }
  constructor; try done.
  - intros l s Hv. destruct (H1 l s Hv) as [q Hq]. exists q. eapply dlseg_ext; [|exact Hq]. intros x _. by rewrite He.
  - intros l s i Hv. rewrite Hd, H3 by done. unfold posn. rewrite He. split; [tauto|]. intros [[->|?] Hp]; [|done].
    rewrite Hlev in Hp. injection Hp as Hb _. destruct Hv. lia.
  - intros i [->|Hi]%Hd; rewrite He; [by left|by apply H4].
  - intros i. rewrite Hd, H7. unfold push_entry. simpl. lia.
  - unfold push_entry. simpl. lia.
Qed.

(** Fields that no list or bitmap depends on. *)
Lemma same_links_set i e w :
  exists_in w i → e_prev e = e_prev (ent w i) → e_next e = e_next (ent w i) → e_level e = e_level (ent w i) →
  e_slot e = e_slot (ent w i) → same_links w (set_ent i e w).
Proof.
  intros Hi H1 H2 H3 H4. constructor; try done; [|intros j; by apply exists_set]. intros j. unfold posn. rewrite ent_set.
  case_decide; [subst j|done]. by rewrite H1, H2, H3, H4.
Qed.

Lemma wok_same w w' : same_links w w' → wok w → wok w'.
Proof. intros Hs [L Hl]. exists L. by eapply linv_same. Qed.

(** What happens to the entries other than [i]. *)
Record others (i : Z) (w w' : wheel) : Prop := {
  ot_pay j : j ≠ i → payload (ent w' j) = payload (ent w j);
  ot_pos j : j ≠ i → posn w' j = posn w j;
  ot_dom j : j ≠ i → exists_in w' j ↔ exists_in w j;
  ot_tick : w_tick w' = w_tick w }.

Lemma others_trans i w1 w2 w3 : others i w1 w2 → others i w2 w3 → others i w1 w3.
Proof.
  intros [A1 A2 A3 A4] [B1 B2 B3 B4]. constructor; [intros j Hj..|congruence].
  - by rewrite B1, A1.
  - by rewrite B2, A2.
  - by rewrite B3, A3.
Qed.

Lemma others_moved i w w' : moved w w' → (∀ j, j ≠ i → posn w' j = posn w j) → others i w w'.
Proof. intros Hm Hp. constructor; [intros j _; apply Hm|done|intros j _; apply Hm|apply Hm]. Qed.

Lemma others_set i e w : exists_in w i → others i w (set_ent i e w).
Proof.
  intros Hi. constructor; try done; intros j Hj; [|unfold posn|by apply exists_set];
    rewrite ent_set, decide_False by done; done.
Qed.

Lemma AcquireEntry_ok w :
  qinv w → w_size w < kNil →
  let i := (AcquireEntry w).1 in let w1 := (AcquireEntry w).2 in
  wok w1 ∧ exists_in w1 i ∧ e_level (ent w1 i) = -1 ∧ Z.odd (e_gen (ent w1 i)) = false ∧ others i w w1 ∧
  (∀ j, ent w1 j = ent w j) ∧ w_armed w1 = w_armed w ∧ (exists_in w i → e_level (ent w i) = -1) ∧
  ∃ F, fchain (ent w1) (w_freeHead w1) F ∧ NoDup F ∧ (i ∉ F) ∧
    (∀ j, j ∈ F ↔ j ≠ i ∧ exists_in w1 j ∧ Z.odd (e_gen (ent w1 j)) = false) ∧
    w_armed w = w_size w1 - Z.of_nat (length F) - 1.
Proof.
  intros [[L Hl] Q2 Q3 (F & HF & Hnd & Hin & Ha)] Hs. unfold AcquireEntry.
  destruct (w_freeHead w =? 0) eqn:E; cbn [negb fst snd].
  - apply Z.eqb_eq in E. rewrite E in HF. assert (F = []) as ->.
    { destruct F as [|x F]; [done|]. destruct HF as [Hx _]. assert (Hx' : x ∈ x :: F) by set_solver.
      apply Hin in Hx' as [Hx' _]. apply (li_dom _ _ Hl) in Hx'. lia. }
    pose proof (λ j, ent_push w j (li_dom _ _ Hl)) as He.
    assert (Hlast : ¬ exists_in w (w_size w)) by (rewrite (li_dom _ _ Hl); lia).
    assert (Hnew : ent w (w_size w) = new_Entry).
    { unfold ent. destruct (w_entries w !! w_size w) eqn:Ew; [|done]. destruct Hlast. by eexists. }
    assert (Hd : ∀ j, exists_in (push_entry w) j ↔ j = w_size w ∨ exists_in w j).
    { intros j. unfold exists_in, push_entry. simpl. rewrite lookup_insert_is_Some'. naive_solver. }
    split_and!; [by exists L; apply push_linv|by apply Hd; left|by rewrite He, Hnew|by rewrite He, Hnew| |done|done|done|].
    + constructor; [intros j Hj..|done]; [by rewrite He|unfold posn; by rewrite He|]. rewrite Hd. tauto.
    + exists []. split_and!; [done|by apply NoDup_nil_2|apply not_elem_of_nil| |simpl in *; lia].
      intros j. rewrite elem_of_nil. split; [done|]. intros (Hj & [?|Hx]%Hd & Ho); [done|]. rewrite He in Ho.
      apply (not_elem_of_nil j), Hin. done.
  - apply Z.eqb_neq in E. destruct F as [|x F]; [done|]. destruct HF as [Hx HF]. rewrite Hx.
    replace (x + 1 - 1) with x by lia. apply NoDup_cons in Hnd as [Hxf Hnd].
    assert (Hxi : exists_in w x ∧ Z.odd (e_gen (ent w x)) = false) by (apply Hin; set_solver). destruct Hxi as [Hxe Hxo].
    assert (Hlev : e_level (ent w x) = -1).
    { destruct (li_pos _ _ Hl x Hxe) as [?|[? _]]; [done|]. rewrite Q3 in Hxo by done. apply bool_decide_eq_false in Hxo. lia. }
    split_and!; try done.
    + exists L. by eapply linv_same; [|exact Hl].
    + exists F. split_and!; [done|done|done| |].
      * intros j. specialize (Hin j). rewrite elem_of_cons in Hin. split; [|tauto]. intros Hj. split; [by intros ->|tauto].
      * simpl in *. lia.
Qed.

Lemma odd_u32_succ g : Z.odd (u32 (g + 1)) = negb (Z.odd g).
Proof.
  unfold u32. rewrite <- Z.bit0_odd, Z.mod_pow2_bits_low, Z.bit0_odd by lia. by rewrite Z.odd_add, xorb_true_r.
Qed.

(** Arming: the entry is placed by its deadline, everything else stays. *)
Lemma arm_ok w d tok ej ctx per :
  qinv w → w_size w < kNil →
  let i := (arm_entry d tok ej ctx per w).1 in let w' := (arm_entry d tok ej ctx per w).2 in
  qinv w' ∧ others i w w' ∧ exists_in w' i ∧ (exists_in w i → e_level (ent w i) = -1) ∧
  posn w' i = place_slot (w_tick w) d ∧ e_deadline (ent w' i) = d ∧ e_periodic (ent w' i) = per ∧
  e_token (ent w' i) = tok ∧ e_gen (ent w' i) = u32 (e_gen (ent w i) + 1) ∧ w_armed w' = w_armed w + 1.
Proof.
  intros Hq Hs. pose proof (AcquireEntry_ok w Hq Hs) as Hacq. unfold arm_entry.
  destruct (AcquireEntry w) as [i w1]. cbn [fst snd] in *.
  destruct Hacq as ([L Hl] & Hi & Hlev & Hodd & Hoth & Hent & Harm & Hold & F & HF & Hnd & HiF & Hin & Hcnt).
  set (e2 := set_what d tok ej ctx per (set_gen (u32 (e_gen (ent w1 i) + 1)) (ent w1 i))).
  set (w2 := set_ent i e2 w1).
  assert (Hw2 : wok w2) by (exists L; eapply linv_same; [by apply same_links_set|exact Hl]).
  assert (Hi2 : exists_in w2 i) by by apply exists_set.
  assert (He2 : ent w2 i = e2) by (unfold w2; by rewrite ent_set, decide_True).
  destruct (place_ok w2 i d Hw2 Hi2) as (Hw3 & Hm & Hp); [by rewrite He2|].
  set (w3 := Place i d w2) in *.
  assert (Hi3 : payload (ent w3 i) = payload e2) by (rewrite (mv_pay _ _ Hm), He2; done).
  injection Hi3 as G1 G2 G3 G4 G5 G6 G7.
  assert (Hoth3 : others i w w3).
  { eapply others_trans; [exact Hoth|]. eapply others_trans; [by apply others_set|]. apply others_moved; [done|].
    intros j Hj. rewrite Hp. by rewrite decide_False. }
  assert (Hpi : posn w3 i = place_slot (w_tick w) d).
  { rewrite Hp, decide_True by done. f_equal. apply (ot_tick _ _ _ Hoth). }
  pose proof (place_slot_valid (w_tick w) d) as Hv. pose proof Hq as [_ Q2 Q3 _].
  assert (Hother : ∀ j, j ≠ i → e_gen (ent w3 j) = e_gen (ent w1 j) ∧ e_nextFree (ent w3 j) = e_nextFree (ent w1 j) ∧
    e_level (ent w3 j) = e_level (ent w1 j)).
  { intros j Hj. destruct (pay_gen _ _ j Hm) as (-> & -> & _). pose proof (Hp j) as E. rewrite decide_False in E by done.
    injection E as -> _. unfold w2. by rewrite ent_set, decide_False by done. }
  change (ent (set_armed (w_armed w3 + 1) w3)) with (ent w3).
  split_and!; try done.
  - constructor; [by apply (wok_same w3)|..].
    + intros j. change (ent (set_armed (w_armed w3 + 1) w3) j) with (ent w3 j).
      destruct (decide (j = i)) as [->|Hj]; [rewrite G6; apply u32_range|]. destruct (Hother j Hj) as (-> & _). rewrite Hent. apply Q2.
    + intros j Hj. change (ent (set_armed (w_armed w3 + 1) w3) j) with (ent w3 j).
      destruct (decide (j = i)) as [->|Hne].
      * rewrite G6, odd_u32_succ, Hodd. assert (Hl3 : e_level (ent w3 i) = (place_slot (w_tick w) d).1) by by rewrite <- Hpi.
        destruct Hv as [? _]. by rewrite Hl3, bool_decide_true by lia.
      * destruct (Hother j Hne) as (-> & _ & ->). rewrite !Hent. apply Q3. by apply (ot_dom _ _ _ Hoth3 j Hne).
    + exists F. set (w4 := set_armed (w_armed w3 + 1) w3).
      change (w_freeHead w4) with (w_freeHead w3). change (w_armed w4) with (w_armed w3 + 1).
      change (w_size w4) with (w_size w3). rewrite (mv_free _ _ Hm), (mv_armed _ _ Hm), (mv_size _ _ Hm).
      split_and!; [|done| |unfold w2; simpl; lia].
      * eapply fchain_ext; [|exact HF]. intros x Hx. apply Hother. by intros ->.
      * intros j. rewrite Hin. change (exists_in w4 j) with (exists_in w3 j). change (ent w4 j) with (ent w3 j). destruct (decide (j = i)) as [->|Hne].
        -- rewrite G6, odd_u32_succ, Hodd. split; [tauto|]. by intros [_ ?].
        -- destruct (Hother j Hne) as (-> & _). rewrite (mv_dom _ _ Hm). unfold w2. rewrite exists_set by done. tauto.
  - by destruct Hoth3.
  - by apply (mv_dom _ _ Hm).
  - by rewrite G6, Hent.
  - cbn [w_armed set_armed]. rewrite (mv_armed _ _ Hm). unfold w2. simpl. lia.
Qed.

(** Disarming. *)
Lemma drop_ok w i :
  qinv w → exists_in w i → 0 ≤ e_level (ent w i) →
  qinv (drop_entry i w) ∧ others i w (drop_entry i w) ∧ e_level (ent (drop_entry i w) i) = -1 ∧
  exists_in (drop_entry i w) i ∧ e_periodic (ent (drop_entry i w) i) = 0 ∧ w_armed (drop_entry i w) = w_armed w - 1.
Proof.
  intros [Q1 Q2 Q3 (F & HF & Hnd & Hin & Ha)] Hi Hlev. unfold drop_entry.
  destruct (unlink_ok w i Q1 Hi Hlev) as (Hw1 & Hm & Hp). set (w1 := Unlink i w) in *.
  set (e2 := set_gen (u32 (e_gen (ent w1 i) + 1)) (ent w1 i)). set (w2 := set_ent i e2 w1).
  assert (Hi1 : exists_in w1 i) by by apply (mv_dom _ _ Hm).
  assert (Hi2 : exists_in w2 i) by by apply exists_set.
  assert (He2 : ent w2 i = e2) by (unfold w2; by rewrite ent_set, decide_True).
  unfold ReleaseEntry. set (e3 := set_free (w_freeHead w2) (ent w2 i)). set (w3 := set_freeHead (i + 1) (set_ent i e3 w2)).
  assert (Hent3 : ∀ j, ent w3 j = if decide (j = i) then e3 else ent w1 j).
  { intros j. change (ent w3 j) with (ent (set_ent i e3 w2) j). rewrite ent_set. unfold w2. rewrite ent_set.
    repeat case_decide; try done; congruence. }
  assert (Hpi : e_level (ent w1 i) = -1) by (pose proof (Hp i) as E; rewrite decide_True in E by done; by injection E).
  assert (Hdom3 : ∀ j, exists_in w3 j ↔ exists_in w j).
  { intros j. change (exists_in w3 j) with (exists_in (set_ent i e3 w2) j). rewrite exists_set by done.
    unfold w2. rewrite exists_set by done. apply (mv_dom _ _ Hm). }
  assert (Hoth : others i w w3).
  { constructor; [intros j Hj..|].
    - rewrite Hent3, decide_False by done. apply (mv_pay _ _ Hm).
    - unfold posn. rewrite Hent3, decide_False by done. pose proof (Hp j) as E. rewrite decide_False in E by done. exact E.
    - apply Hdom3.
    - apply (mv_tick _ _ Hm). }
  assert (Hodd : Z.odd (e_gen (ent w i)) = true) by (rewrite Q3 by done; by apply bool_decide_eq_true).
  assert (Hg3 : e_gen e3 = u32 (e_gen (ent w i) + 1)).
  { unfold e3. simpl. rewrite He2. unfold e2. simpl. by destruct (pay_gen _ _ i Hm) as (-> & _). }
  assert (Hother : ∀ j, j ≠ i → e_gen (ent w3 j) = e_gen (ent w j) ∧ e_nextFree (ent w3 j) = e_nextFree (ent w j) ∧
    e_level (ent w3 j) = e_level (ent w j)).
  { intros j Hj. pose proof (ot_pay _ _ _ Hoth j Hj) as E1. pose proof (ot_pos _ _ _ Hoth j Hj) as E2.
    injection E1 as ? ? ? ? ? ? ?. injection E2 as ? ?. done. }
  change (ent (set_armed (w_armed w3 - 1) w3)) with (ent w3).
  split_and!.
  - constructor.
    + destruct Hw1 as [L Hl]. exists L. eapply linv_same; [|exact Hl]. constructor; try done.
      * intros j. change (posn (set_armed _ w3) j) with (posn w3 j). change (ent (set_armed _ w3) j) with (ent w3 j).
        unfold posn. rewrite Hent3. destruct (decide (j = i)) as [->|]; [|done]. unfold e3. rewrite He2. split_and!; [done|done|]. simpl. by rewrite Hpi.
      * intros j. change (exists_in (set_armed _ w3) j) with (exists_in w3 j). rewrite Hdom3. symmetry. apply (mv_dom _ _ Hm).
    + intros j. change (ent (set_armed _ w3) j) with (ent w3 j). destruct (decide (j = i)) as [->|Hj].
      * rewrite Hent3, decide_True, Hg3 by done. apply u32_range.
      * destruct (Hother j Hj) as (-> & _). apply Q2.
    + intros j Hj. change (ent (set_armed _ w3) j) with (ent w3 j). destruct (decide (j = i)) as [->|Hne].
      * rewrite Hent3, decide_True, Hg3, odd_u32_succ, Hodd by done. done.
      * destruct (Hother j Hne) as (-> & _ & ->). apply Q3. by apply Hdom3.
    + assert (HiF : i ∉ F) by (intros [_ ?]%Hin; congruence).
      exists (i :: F). set (w4 := set_armed (w_armed w3 - 1) w3).
      change (w_freeHead w4) with (i + 1). change (w_armed w4) with (w_armed w1 - 1).
      change (w_size w4) with (w_size w1). change (ent w4) with (ent w3). split_and!.
      * split; [done|]. rewrite Hent3, decide_True by done.
        change (fchain (ent w3) (w_freeHead w1) F). rewrite (mv_free _ _ Hm).
        eapply fchain_ext; [|exact HF]. intros x Hx. apply Hother. by intros ->.
      * by apply NoDup_cons.
      * intros j. rewrite elem_of_cons, Hin. change (exists_in w4 j) with (exists_in w3 j). rewrite Hdom3.
        destruct (decide (j = i)) as [->|Hne].
        -- rewrite Hent3, decide_True, Hg3, odd_u32_succ, Hodd by done. tauto.
        -- destruct (Hother j Hne) as (-> & _). tauto.
      * rewrite (mv_armed _ _ Hm), (mv_size _ _ Hm). simpl length. lia.
  - by destruct Hoth.
  - rewrite Hent3, decide_True by done. done.
  - by apply Hdom3.
  - rewrite Hent3, decide_True by done. done.
  - change (w_armed w1 - 1 = w_armed w - 1). by rewrite (mv_armed _ _ Hm).
Qed.

(** ** The timer queue *)

Record PeriodicRecord := mkP {
  p_interval : Z; p_due : Z; p_fn : Z; p_ctx : Z; p_lane : Z; p_totalSkipped : Z; p_runs : WaitGroup;
  p_entry : Z; p_pending : Z; p_inFlight : bool; p_cancelled : bool; p_detached : bool }.

Record timers := mkT {
  t_wheel : wheel; t_recs : gmap Z PeriodicRecord; t_tickNs : Z; t_epochNs : Z; t_sleepUntil : Z;
  t_gate : Z; t_running : bool; t_stopping : bool }.

Definition INT64_MAX : Z := 2 ^ 63 - 1.
Definition INT64_MIN : Z := - 2 ^ 63.
Definition kAwake : Z := INT64_MIN.

(** Constructed at time [now]. *)
Definition new_timers (now : Z) : timers := mkT new_wheel ∅ 1000000 now kAwake INT64_MAX false false.

Definition set_wheel (w : wheel) (t : timers) : timers :=
  mkT w (t_recs t) (t_tickNs t) (t_epochNs t) (t_sleepUntil t) (t_gate t) (t_running t) (t_stopping t).
Definition set_recs (m : gmap Z PeriodicRecord) (t : timers) : timers :=
  mkT (t_wheel t) m (t_tickNs t) (t_epochNs t) (t_sleepUntil t) (t_gate t) (t_running t) (t_stopping t).
Definition set_gate (g : Z) (t : timers) : timers :=
  mkT (t_wheel t) (t_recs t) (t_tickNs t) (t_epochNs t) (t_sleepUntil t) g (t_running t) (t_stopping t).
Definition set_sleep (u : Z) (t : timers) : timers :=
  mkT (t_wheel t) (t_recs t) (t_tickNs t) (t_epochNs t) u (t_gate t) (t_running t) (t_stopping t).
Definition set_running (r s : bool) (t : timers) : timers :=
  mkT (t_wheel t) (t_recs t) (t_tickNs t) (t_epochNs t) (t_sleepUntil t) (t_gate t) r s.

Definition PublishGateLocked (t : timers) : timers :=
  let next := NextEventTick (t_wheel t) in
  set_gate (if next <? 0 then INT64_MAX else t_epochNs t + next * t_tickNs t) t.

Definition NowTick (now : Z) (t : timers) : Z := (now - t_epochNs t) `quot` t_tickNs t.
Definition TickFor (ns : Z) (t : timers) : Z :=
  let rel := ns - t_epochNs t in if rel <=? 0 then 0 else (rel + t_tickNs t - 1) `quot` t_tickNs t.

Definition TimerGateDue (nowNs : Z) (t : timers) : bool := t_gate t <=? nowNs.

(** *** Periodic timers *)

(** The grid point [due] has been reached at time [now]: how many further points have
    passed, and the first one still ahead. *)
Definition grid_passed (now due interval : Z) : Z :=
  let behind := now - due in if 0 <? behind then behind `quot` interval else 0.

(** The record after a fire: the instance to launch, if none is in flight. *)
Definition fire_record (now : Z) (r : PeriodicRecord) : bool * PeriodicRecord :=
  let passed := grid_passed now (p_due r) (p_interval r) in
  let next := p_due r + (passed + 1) * p_interval r in
  let launch := negb (p_inFlight r) in
  let skippedNow := if launch then passed else passed + 1 in
  (launch,
   mkP (p_interval r) next (p_fn r) (p_ctx r) (p_lane r) (u64 (p_totalSkipped r + skippedNow))
     (if launch then set_wn (wg_n (p_runs r) + 1) (p_runs r) else p_runs r)
     (p_entry r) (u64 (p_pending r + skippedNow)) true (p_cancelled r) (p_detached r)).

Definition FirePeriodicLocked (now i : Z) (t : timers) : bool * timers :=
  let ra := e_periodic (ent (t_wheel t) i) in
  match t_recs t !! ra with
  | None => (false, t)
  | Some r =>
      let w1 := Unlink i (t_wheel t) in
      let fr := fire_record now r in
      let d := TickFor (p_due fr.2) t in
      let w2 := set_ent i (set_deadline d (ent w1 i)) w1 in
      (fr.1, set_wheel (Place i d w2) (set_recs (<[ra := fr.2]> (t_recs t)) t))
  end.

Definition cancel_record (entry : Z) (r : PeriodicRecord) : PeriodicRecord :=
  mkP (p_interval r) (p_due r) (p_fn r) (p_ctx r) (p_lane r) (p_totalSkipped r) (p_runs r) entry (p_pending r)
    (p_inFlight r) true (p_detached r).

Definition CancelPeriodicLocked (ra : Z) (t : timers) : timers :=
  match t_recs t !! ra with
  | None => t
  | Some r =>
      if p_entry r =? kNil then set_recs (<[ra := cancel_record kNil r]> (t_recs t)) t
      else set_wheel (drop_entry (p_entry r) (t_wheel t)) (set_recs (<[ra := cancel_record kNil r]> (t_recs t)) t)
  end.

Definition finish_record (r : PeriodicRecord) : bool * PeriodicRecord :=
  let d := DoneBegin (p_runs r) in
  (d.1, mkP (p_interval r) (p_due r) (p_fn r) (p_ctx r) (p_lane r) (p_totalSkipped r) d.2 (p_entry r) (p_pending r)
          false (p_cancelled r) (p_detached r)).

(** The end of an instance: whether its joiners must be woken, and the queue; a detached
    and cancelled record is deleted. *)
Definition FinishPeriodic (ra : Z) (stop : bool) (t : timers) : bool * timers :=
  let t1 := if stop then CancelPeriodicLocked ra t else t in
  match t_recs t1 !! ra with
  | None => (false, t1)
  | Some r =>
      let fr := finish_record r in
      if p_detached r && p_cancelled r then (fr.1, set_recs (delete ra (t_recs t1)) t1)
      else (fr.1, set_recs (<[ra := fr.2]> (t_recs t1)) t1)
  end.

(** [RunPeriodic] before the callback: the count handed to it, and whether the callback is
    passed over. *)
Definition RunPeriodic_begin (ra : Z) (t : timers) : Z * bool * timers :=
  match t_recs t !! ra with
  | None => (0, true, t)
  | Some r =>
      (p_pending r, p_cancelled r,
       set_recs (<[ra := mkP (p_interval r) (p_due r) (p_fn r) (p_ctx r) (p_lane r) (p_totalSkipped r) (p_runs r)
         (p_entry r) 0 (p_inFlight r) (p_cancelled r) (p_detached r)]> (t_recs t)) t)
  end.

(** *** Firing *)

Definition kBatch : Z := 64.

(** Walks the current slot from [i]: what to eject, which periodics to launch.  [clk i] is
    the clock read while entry [i] is handled. *)
Fixpoint fire_loop (fuel : nat) (clk : Z → Z) (i : Z) (ejs : list (Z * Z * Z)) (fired : list Z) (t : timers)
    : list (Z * Z * Z) * list Z * timers :=
  match fuel with
  | O => (ejs, fired, t)
  | S n =>
      let w := t_wheel t in
      if (i =? kNil) || negb (Z.of_nat (length ejs) + Z.of_nat (length fired) <? kBatch) then (ejs, fired, t)
      else
        let e := ent w i in
        if (e_deadline e <=? w_tick w) && negb (e_periodic e =? 0) then
          let f := FirePeriodicLocked (clk i) i t in
          fire_loop n clk (e_next e) ejs (if f.1 then fired ++ [e_periodic e] else fired) f.2
        else if e_deadline e <=? w_tick w then
          fire_loop n clk (e_next e) (ejs ++ [(e_token e, e_eject e, e_ctx e)]) fired (set_wheel (drop_entry i w) t)
        else fire_loop n clk (e_next e) ejs fired t
  end.

(** [FireStepLocked] up to where it drops the lock. *)
Definition FireStepLocked (clk : Z → Z) (next : Z) (t : timers) : list (Z * Z * Z) * list Z * timers :=
  let w := AdvanceTo next (t_wheel t) in
  let i := head_at w 0 (Z.land (w_tick w) kSlotMask) in
  let '(ejs, fired, t1) := fire_loop (Z.to_nat (w_size w) + 1) clk i [] [] (set_wheel w t) in
  match ejs, fired with
  | [], [] => ([], [], PublishGateLocked (set_wheel (set_tick (w_tick (t_wheel t1) + 1) (t_wheel t1)) t1))
  | _, _ => (ejs, fired, t1)
  end.

(** A worker's poll, the lock being free. *)
Definition PollFire (now : Z) (clk : Z → Z) (t : timers) : bool * (list (Z * Z * Z) * list Z * timers) :=
  if t_stopping t then (false, ([], [], t))
  else
    let next := NextEventTick (t_wheel t) in
    if next <? 0 then (false, ([], [], PublishGateLocked t))
    else if NowTick now t <? next then (false, ([], [], PublishGateLocked t))
    else (true, FireStepLocked clk next t).

Inductive clock_turn := Stopped | SleepForever | SleepUntil (ns : Z) | Fired.

(** One turn of the timer thread's loop, up to its sleep. *)
Definition Run_turn (now : Z) (clk : Z → Z) (t : timers) : clock_turn * (list (Z * Z * Z) * list Z * timers) :=
  if t_stopping t then (Stopped, ([], [], t))
  else
    let next := NextEventTick (t_wheel t) in
    if next <? 0 then
      (SleepForever, ([], [], set_sleep INT64_MAX (set_wheel (set_tick (NowTick now t) (t_wheel t)) t)))
    else if NowTick now t <? next then
      (SleepUntil (t_epochNs t + next * t_tickNs t), ([], [], set_sleep next t))
    else (Fired, FireStepLocked clk next t).

(** *** The interface *)

(** [on] says that timers are usable: no scheduler, or one with the timer layer.  [now1] and
    [now2] are the two readings of the clock. *)
Definition Arm (now1 now2 delayNs tok ej ctx : Z) (on : bool) (t : timers) : Z * bool * timers :=
  if tok =? kNone then (0, false, t)
  else if t_stopping t then (0, false, t)
  else if negb on then (0, false, t)
  else
    let t := set_running true (t_stopping t) t in
    let nowTick := NowTick now1 t in
    let deadlineTick := if 0 <? delayNs then TickFor (now2 + delayNs) t else nowTick in
    let '(i, w) := arm_entry deadlineTick tok ej ctx 0 (AdvanceTo nowTick (t_wheel t)) in
    let wake := NextEventTick w <? t_sleepUntil t in
    (Z.lor (Z.shiftl (e_gen (ent w i)) 32) i, wake, PublishGateLocked (set_wheel w t)).

Definition Disarm (h : Z) (t : timers) : bool * timers :=
  if h =? 0 then (false, t)
  else
    let i := Z.land h 0xFFFFFFFF in
    let g := Z.shiftr h 32 in
    let w := t_wheel t in
    if w_size w <=? i then (false, t)
    else if negb (e_gen (ent w i) =? g) || (Z.land g 1 =? 0) then (false, t)
    else (true, PublishGateLocked (set_wheel (drop_entry i w) t)).

(** [Periodic::Start]; [ra] is the address of the new record. *)
Definition Periodic_Start (now1 now2 intervalNs fn ctx lane firstDelayNs : Z) (on : bool) (ra : Z) (t : timers)
    : Z * timers :=
  if (intervalNs <=? 0) || (fn =? 0) then (0, t)
  else if t_stopping t then (0, t)
  else if negb on then (0, t)
  else
    let t := set_running true (t_stopping t) t in
    let interval := if intervalNs <? t_tickNs t then t_tickNs t else intervalNs in
    let due := now1 + (if firstDelayNs <? 0 then interval else firstDelayNs) in
    let '(i, w) := arm_entry (TickFor due t) kNone 0 0 ra (AdvanceTo (NowTick now2 t) (t_wheel t)) in
    let r := mkP interval due fn ctx lane 0 (mkWG 0 0 0 0 [] ∅ ∅) i 0 false false false in
    (ra, PublishGateLocked (set_wheel w (set_recs (<[ra := r]> (t_recs t)) t))).

Definition Periodic_Cancel (ra : Z) (t : timers) : timers := PublishGateLocked (CancelPeriodicLocked ra t).

Definition Periodic_Detach (ra : Z) (t : timers) : timers :=
  match t_recs t !! ra with
  | None => t
  | Some r =>
      if p_cancelled r && negb (p_inFlight r) then set_recs (delete ra (t_recs t)) t
      else set_recs (<[ra := mkP (p_interval r) (p_due r) (p_fn r) (p_ctx r) (p_lane r) (p_totalSkipped r) (p_runs r)
             (p_entry r) (p_pending r) (p_inFlight r) (p_cancelled r) true]> (t_recs t)) t
  end.

Definition Periodic_Skipped (ra : Z) (t : timers) : Z :=
  match t_recs t !! ra with None => 0 | Some r => p_totalSkipped r end.

Definition PendingCount (t : timers) : Z := w_armed (t_wheel t).
Definition TimerQueue_Start (t : timers) : timers := set_running (t_running t) false t.
Definition TimerQueue_Stop (t : timers) : timers :=
  if t_stopping t then t else set_gate INT64_MAX (set_running false true t).

(** ** Consistency *)

Definition armed (w : wheel) (i : Z) : Prop := exists_in w i ∧ 0 ≤ e_level (ent w i).

(** Unlinking disturbs the link to the next node only in the node before. *)
Lemma unlink_next w i j :
  wok w → armed w i → j ≠ i → j ≠ e_prev (ent w i) → e_next (ent (Unlink i w) j) = e_next (ent w j).
Proof.
  intros [L Hl] [Hi Hlev] Hj Hp. destruct (unlink_sides _ _ _ Hl Hi Hlev) as (Hpi & Hni & _).
  destruct (unlink_ent w i Hlev Hpi Hni j) as (_ & _ & H). destruct (H Hj) as [-> _]. rewrite decide_False; [done|]. tauto.
Qed.

Lemma place_next w i d j :
  wok w → exists_in w i → e_level (ent w i) = -1 → j ≠ i → e_next (ent (Place i d w) j) = e_next (ent w j).
Proof.
  intros [L Hl] Hi Hlev Hj. unfold Place. rewrite link_ent.
  - rewrite decide_False by done. by case_decide.
  - eapply li_head_ne; try done. apply place_slot_valid.
Qed.

(** Moving an armed entry to a new deadline, as [FirePeriodicLocked] does. *)
Definition rearm (i d : Z) (w : wheel) : wheel :=
  let w1 := Unlink i w in Place i d (set_ent i (set_deadline d (ent w1 i)) w1).

Lemma rearm_ok w i d :
  qinv w → armed w i →
  qinv (rearm i d w) ∧ others i w (rearm i d w) ∧ armed (rearm i d w) i ∧
  posn (rearm i d w) i = place_slot (w_tick w) d ∧ e_deadline (ent (rearm i d w) i) = d ∧
  e_periodic (ent (rearm i d w) i) = e_periodic (ent w i) ∧ w_size (rearm i d w) = w_size w ∧
  ∀ j, j ≠ i → j ≠ e_prev (ent w i) → e_next (ent (rearm i d w) j) = e_next (ent w j).
Proof.
  intros Hq Ha. pose proof Ha as [Hi Hlev]. pose proof Hq as [Q1 Q2 Q3 Q4].
  destruct (unlink_ok w i Q1 Hi Hlev) as (Hw1 & Hm1 & Hp1). unfold rearm. set (w1 := Unlink i w) in *.
  set (e2 := set_deadline d (ent w1 i)). set (w2 := set_ent i e2 w1).
  assert (Hi1 : exists_in w1 i) by by apply (mv_dom _ _ Hm1).
  assert (Hl1 : e_level (ent w1 i) = -1) by (pose proof (Hp1 i) as E; rewrite decide_True in E by done; by injection E).
  assert (Hw2 : wok w2) by (eapply wok_same; [by apply same_links_set|done]).
  assert (Hi2 : exists_in w2 i) by by apply exists_set.
  assert (He2 : ent w2 i = e2) by (unfold w2; by rewrite ent_set, decide_True).
  destruct (place_ok w2 i d Hw2 Hi2) as (Hw3 & Hm3 & Hp3); [by rewrite He2|]. set (w3 := Place i d w2) in *.
  assert (Hpi : posn w3 i = place_slot (w_tick w) d).
  { rewrite Hp3, decide_True by done. f_equal. apply (mv_tick _ _ Hm1). }
  assert (Hoth : others i w w3).
  { eapply others_trans; [apply others_moved; [exact Hm1|]; intros j Hj; rewrite Hp1; by rewrite decide_False|].
    eapply others_trans; [by apply others_set|]. apply others_moved; [done|]. intros j Hj. rewrite Hp3. by rewrite decide_False. }
  pose proof (place_slot_valid (w_tick w) d) as [Hv _].
  assert (Hl3 : 0 ≤ e_level (ent w3 i)).
  { assert (E : e_level (ent w3 i) = (place_slot (w_tick w) d).1) by by rewrite <- Hpi. rewrite E. lia. }
  destruct (pay_gen _ _ i Hm3) as (G1 & G2 & G3 & G4 & _). rewrite He2 in *.
  destruct (pay_gen _ _ i Hm1) as (G5 & G6 & _ & G7 & _).
  assert (Hdom : ∀ j, exists_in w3 j ↔ exists_in w j).
  { intros j. rewrite (mv_dom _ _ Hm3). unfold w2. rewrite exists_set by done. apply (mv_dom _ _ Hm1). }
  split_and!; try done.
  - assert (Hsame : ∀ j, e_gen (ent w3 j) = e_gen (ent w j) ∧ e_nextFree (ent w3 j) = e_nextFree (ent w j) ∧
      (0 ≤ e_level (ent w3 j) ↔ 0 ≤ e_level (ent w j))).
    { intros j. destruct (decide (j = i)) as [->|Hj]; [split_and!; [by rewrite G1|by rewrite G2|done]|].
      pose proof (ot_pay _ _ _ Hoth j Hj) as E. injection E as ? ? ? ? ? -> ->.
      pose proof (ot_pos _ _ _ Hoth j Hj) as E2. injection E2 as -> _. done. }
    destruct Q4 as (F & HF & Hnd & Hin & Hc). constructor; [done|..].
    + intros j. destruct (Hsame j) as (-> & _). apply Q2.
    + intros j Hj%Hdom. destruct (Hsame j) as (-> & _ & Hs). rewrite Q3 by done. apply bool_decide_ext. by rewrite Hs.
    + exists F. rewrite (mv_free _ _ Hm3), (mv_armed _ _ Hm3), (mv_size _ _ Hm3).
      change (w_freeHead w2) with (w_freeHead w1). change (w_armed w2) with (w_armed w1). change (w_size w2) with (w_size w1).
      rewrite (mv_free _ _ Hm1), (mv_armed _ _ Hm1), (mv_size _ _ Hm1). split_and!; [|done| |done].
      * eapply fchain_ext; [|exact HF]. intros x _. apply Hsame.
      * intros j. rewrite Hin, Hdom. by destruct (Hsame j) as (-> & _).
  - by split; [apply Hdom|].
  - by rewrite G4.
  - rewrite (mv_size _ _ Hm3). apply (mv_size _ _ Hm1).
  - intros j Hj Hpj. unfold w3. rewrite place_next; [|done|done|by rewrite He2|done]. unfold w2.
    rewrite ent_set, decide_False by done. by apply unlink_next.
Qed.

Lemma drop_next w i j :
  qinv w → armed w i → j ≠ i → j ≠ e_prev (ent w i) → e_next (ent (drop_entry i w) j) = e_next (ent w j).
Proof.
  intros Hq Ha Hj Hp. unfold drop_entry, ReleaseEntry.
  match goal with |- e_next (ent (set_armed _ ?x) j) = _ => change (ent (set_armed (w_armed x - 1) x) j) with (ent x j) end.
  match goal with |- e_next (ent (set_freeHead _ ?x) j) = _ => change (ent (set_freeHead (i + 1) x) j) with (ent x j) end.
  rewrite !ent_set, !decide_False by done. apply unlink_next; [apply Hq|done..].
Qed.

(** The node before [x] is not among those after it. *)
Lemma prev_passed w x R :
  wok w → armed w x → nchain (ent w) (e_next (ent w x)) R → NoDup (x :: R) → e_prev (ent w x) ∉ R.
Proof.
  intros [L Hl] [Hx Hlev] Hc [HxR Hnd]%NoDup_cons Hp.
  assert (Hkn : x ≠ kNil) by by eapply li_nonnil.
  assert (Hpk : e_prev (ent w x) ≠ kNil).
  { clear -Hc Hp. revert Hc Hp. generalize (e_next (ent w x)) (e_prev (ent w x)). induction R as [|y R IH]; intros i p; [set_solver|].
    simpl. intros (_ & Hy & Hc) [->|?]%elem_of_cons; [done|]. by eapply IH. }
  assert (Hback : e_next (ent w (e_prev (ent w x))) = x).
  { destruct (li_split _ _ _ Hl Hx Hlev) as (Hv & l1 & l2 & EL & _ & _ & Hpp & _). destruct (li_list _ _ Hl _ _ Hv) as [q Hd].
    rewrite EL in Hd. apply dlseg_app in Hd as (q1 & e1 & H1 & (-> & _ & Hq & _)). rewrite Hq in *.
    destruct l1 as [|y l1 _] using rev_ind; [by destruct H1 as [_ <-]|].
    apply dlseg_app in H1 as (q2 & e2 & _ & (-> & _ & _ & H2)). destruct H2 as [H2 <-]. exact H2. }
  assert (Hclosed : ∀ i y, nchain (ent w) i R → y ∈ R → e_next (ent w y) ∈ R ∨ e_next (ent w y) = kNil).
  { clear. induction R as [|z R IH]; intros i y; [set_solver|]. simpl. intros (-> & Hz & Hc) [->|Hy]%elem_of_cons.
    - destruct R as [|z' R]; [right; done|left]. destruct Hc as (-> & _). set_solver.
    - destruct (IH _ _ Hc Hy); [left; set_solver|by right]. }
  destruct (Hclosed _ _ Hc Hp) as [H|H]; rewrite Hback in H; done.
Qed.

(** Periodic records and their entries name each other. *)
Record rinv (w : wheel) (m : gmap Z PeriodicRecord) : Prop := {
  ri_entry i : armed w i → e_periodic (ent w i) ≠ 0 → ∃ r, m !! e_periodic (ent w i) = Some r ∧ p_entry r = i;
  ri_rec ra r : m !! ra = Some r → p_entry r ≠ kNil → armed w (p_entry r) ∧ e_periodic (ent w (p_entry r)) = ra;
  ri_live ra r : m !! ra = Some r → (p_cancelled r = true ↔ p_entry r = kNil) ∧ 0 < p_interval r;
  ri_null : m !! 0 = None }.

Lemma rinv_wheel w w' m :
  rinv w m → (∀ i, armed w' i ↔ armed w i) → (∀ i, armed w i → e_periodic (ent w' i) = e_periodic (ent w i)) → rinv w' m.
Proof.
  intros [R1 R2 R3 R4] Ha Hp. constructor; [| |done|done].
  - intros i Hi%Ha. rewrite Hp by done. by apply R1.
  - intros ra r Hr He. destruct (R2 ra r Hr He) as [H1 H2]. split; [by apply Ha|by rewrite Hp].
Qed.

Lemma others_armed i w w' j : others i w w' → j ≠ i → armed w' j ↔ armed w j.
Proof.
  intros Ho Hj. unfold armed. rewrite (ot_dom _ _ _ Ho j Hj). pose proof (ot_pos _ _ _ Ho j Hj) as E. injection E as -> _. done.
Qed.

Lemma others_pay i w w' j : others i w w' → j ≠ i →
  e_periodic (ent w' j) = e_periodic (ent w j) ∧ e_deadline (ent w' j) = e_deadline (ent w j) ∧
  e_gen (ent w' j) = e_gen (ent w j) ∧ e_token (ent w' j) = e_token (ent w j).
Proof. intros Ho Hj. pose proof (ot_pay _ _ _ Ho j Hj) as E. injection E as ? ? ? ? ? ? ?. done. Qed.

(** Taking an entry without a record out of the wheel. *)
Lemma rinv_drop w m i :
  qinv w → rinv w m → armed w i → e_periodic (ent w i) = 0 → rinv (drop_entry i w) m.
Proof.
  intros Hq [R1 R2 R3 R4] [Hi Hl] Hp. destruct (drop_ok w i Hq Hi Hl) as (_ & Ho & Hl' & Hi' & _).
  assert (Hni : ¬ armed (drop_entry i w) i) by (intros [_ ?]; lia).
  constructor; [| |done|done].
  - intros j Hj. destruct (decide (j = i)) as [->|Hne]; [done|]. destruct (others_pay _ _ _ _ Ho Hne) as (-> & _).
    apply (others_armed _ _ _ _ Ho Hne) in Hj. by apply R1.
  - intros ra r Hr He. destruct (R2 ra r Hr He) as [H1 H2]. assert (Hne : p_entry r ≠ i).
    { intros E. rewrite E in H2. congruence. }
    destruct (others_pay _ _ _ _ Ho Hne) as (-> & _). split; [by apply (others_armed _ _ _ _ Ho Hne)|done].
Qed.

(** A record with its entry's place and most fields changed. *)
Lemma rinv_update w w' m i r r' :
  rinv w m → armed w i → e_periodic (ent w i) ≠ 0 → m !! e_periodic (ent w i) = Some r → others i w w' → armed w' i →
  e_periodic (ent w' i) = e_periodic (ent w i) → p_entry r' = p_entry r → p_cancelled r' = p_cancelled r →
  p_interval r' = p_interval r → rinv w' (<[e_periodic (ent w i) := r']> m).
Proof.
  intros [R1 R2 R3 R4] Ha Hne Hr Ho Ha' Hp He Hc Hv. set (ra := e_periodic (ent w i)) in *.
  destruct (R1 i Ha Hne) as (r0 & Hr0 & Hri). fold ra in Hr0. rewrite Hr in Hr0. injection Hr0 as <-.
  assert (Har : ∀ j, armed w' j ↔ armed w j).
  { intros j. destruct (decide (j = i)) as [->|Hj]; [tauto|by apply (others_armed _ _ _ _ Ho)]. }
  assert (Hper : ∀ j, e_periodic (ent w' j) = e_periodic (ent w j)).
  { intros j. destruct (decide (j = i)) as [->|Hj]; [done|by apply (others_pay _ _ _ _ Ho)]. }
  constructor.
  - intros j Hj. rewrite Hper. apply Har in Hj. intros Hn. destruct (R1 j Hj Hn) as (rj & Hrj & Hej).
    destruct (decide (e_periodic (ent w j) = ra)) as [E|E].
    + rewrite E, lookup_insert_eq in *. exists r'. split; [done|]. rewrite Hr in Hrj. injection Hrj as <-. congruence.
    + rewrite lookup_insert_ne by done. by exists rj.
  - intros rb rr [[<- <-]|[Hb Hrr]]%lookup_insert_Some Hn.
    + rewrite He in *. rewrite Hper. rewrite Hri. split; [by apply Har|done].
    + destruct (R2 rb rr Hrr Hn) as [H1 H2]. rewrite Hper. split; [by apply Har|done].
  - intros rb rr [[<- <-]|[Hb Hrr]]%lookup_insert_Some; [rewrite Hc, He, Hv; by apply (R3 ra)|by apply (R3 rb)].
  - by rewrite lookup_insert_ne.
Qed.

(** What firing at a tick leaves alone: entries whose deadline lies ahead. *)
Record fired_ok (t t' : timers) : Prop := {
  fo_inv : qinv (t_wheel t') ∧ rinv (t_wheel t') (t_recs t');
  fo_conf : t_tickNs t' = t_tickNs t ∧ t_epochNs t' = t_epochNs t ∧ t_stopping t' = t_stopping t;
  fo_tick : w_tick (t_wheel t') = w_tick (t_wheel t) ∧ w_size (t_wheel t') = w_size (t_wheel t);
  fo_later j : armed (t_wheel t) j → w_tick (t_wheel t) < e_deadline (ent (t_wheel t) j) →
    armed (t_wheel t') j ∧ posn (t_wheel t') j = posn (t_wheel t) j ∧
    payload (ent (t_wheel t') j) = payload (ent (t_wheel t) j);
  fo_armed j : armed (t_wheel t') j → armed (t_wheel t) j ∧
    e_periodic (ent (t_wheel t') j) = e_periodic (ent (t_wheel t) j) ∧
    (e_periodic (ent (t_wheel t) j) = 0 → e_deadline (ent (t_wheel t') j) = e_deadline (ent (t_wheel t) j) ∧
       posn (t_wheel t') j = posn (t_wheel t) j) }.

Lemma fired_refl t : qinv (t_wheel t) → rinv (t_wheel t) (t_recs t) → fired_ok t t.
Proof. intros Hq Hr. by constructor. Qed.

Lemma fired_trans t1 t2 t3 : fired_ok t1 t2 → fired_ok t2 t3 → fired_ok t1 t3.
Proof.
  intros [A1 (A2 & A3 & A4) [A5 A6] A7 A8] [B1 (B2 & B3 & B4) [B5 B6] B7 B8]. constructor.
  - done.
  - split_and!; congruence.
  - split; congruence.
  - intros j Hj Hd. destruct (A7 j Hj Hd) as (H1 & H2 & H3). destruct (B7 j H1) as (H4 & H5 & H6).
    + injection H3 as -> ? ? ? ? ? ?. by rewrite A5.
    + split_and!; [done|by rewrite H5|by rewrite H6].
  - intros j Hj. destruct (B8 j Hj) as (H1 & H2 & H3). destruct (A8 j H1) as (H4 & H5 & H6). split_and!; [done|by rewrite H2|].
    intros Hp. destruct (H6 Hp) as [H7 H8]. destruct H3 as [H9 H10]; [by rewrite H5|]. split; congruence.
Qed.

(** Records in flight. *)
Definition flying (t : timers) (ra : Z) : Prop := ∃ r, t_recs t !! ra = Some r ∧ p_inFlight r = true.
Definition rec_ok (r : PeriodicRecord) : Prop := ∃ b, wg_n (p_runs r) = word (Z.b2z (p_inFlight r)) b.

Record launch_ok (t t' : timers) (new : list Z) : Prop := {
  lo_nodup : NoDup new;
  lo_new ra : flying t' ra ↔ flying t ra ∨ ra ∈ new;
  lo_old ra : ra ∈ new → ¬ flying t ra;
  lo_dom ra : is_Some (t_recs t' !! ra) ↔ is_Some (t_recs t !! ra);
  lo_runs : (∀ ra r, t_recs t !! ra = Some r → rec_ok r) → ∀ ra r, t_recs t' !! ra = Some r → rec_ok r }.

Lemma launch_refl t t' : t_recs t' = t_recs t → launch_ok t t' [].
Proof.
  intros E. constructor; rewrite ?E; try done; [by apply NoDup_nil_2|intros ra|by intros ra ?%not_elem_of_nil].
  unfold flying. rewrite E, elem_of_nil. tauto.
Qed.

Lemma launch_trans t1 t2 t3 n1 n2 : launch_ok t1 t2 n1 → launch_ok t2 t3 n2 → launch_ok t1 t3 (n1 ++ n2).
Proof.
  intros [A1 A2 A3 A4 A5] [B1 B2 B3 B4 B5]. constructor.
  - apply NoDup_app. split_and!; [done| |done]. intros ra H1 H2. apply (B3 ra H2), A2. by right.
  - intros ra. rewrite B2, A2, elem_of_app. tauto.
  - intros ra [H|H]%elem_of_app; [by apply A3|]. intros Hf. apply (B3 ra H), A2. by left.
  - intros ra. by rewrite B4.
  - intros H. apply B5, A5, H.
Qed.

Lemma launch_fire t t' ra r now :
  t_recs t !! ra = Some r → t_recs t' = <[ra := (fire_record now r).2]> (t_recs t) →
  launch_ok t t' (if (fire_record now r).1 then [ra] else []).
Proof.
  intros Hr Ht. unfold fire_record in *. cbn [fst snd] in *.
  assert (Hfly : ∀ x, flying t' x ↔ flying t x ∨ x = ra).
  { intros x. unfold flying. rewrite Ht. destruct (decide (x = ra)) as [->|Hne].
    - rewrite lookup_insert_eq. split; [by right|]. intros _. eexists. by split.
    - rewrite lookup_insert_ne by done. tauto. }
  assert (Hold : flying t ra ↔ p_inFlight r = true).
  { unfold flying. rewrite Hr. split; [by intros (? & [= <-] & ?)|]. intros ?. by exists r. }
  constructor.
  - case_match; [apply NoDup_singleton|apply NoDup_nil_2].
  - intros x. rewrite Hfly. destruct (p_inFlight r) eqn:E; simpl; [|by rewrite list_elem_of_singleton].
    rewrite elem_of_nil. split; [|tauto]. intros [?| ->]; left; [done|by apply Hold].
  - intros x. destruct (p_inFlight r); simpl; [by intros ?%not_elem_of_nil|]. intros ->%list_elem_of_singleton. by rewrite Hold.
  - intros x. rewrite Ht, lookup_insert_is_Some'. split; [intros [<-|?]; [by eexists|done]|by right].
  - intros Hok x rx. rewrite Ht. intros [[<- <-]|[_ Hx]]%lookup_insert_Some; [|by eapply Hok].
    destruct (Hok ra r Hr) as [b Hb]. exists b. cbn [p_runs p_inFlight]. destruct (p_inFlight r); simpl; [by rewrite Hb|].
    rewrite Hb. unfold word. simpl. lia.
Qed.

Lemma fire_periodic_ok now i t :
  qinv (t_wheel t) → rinv (t_wheel t) (t_recs t) → armed (t_wheel t) i → e_periodic (ent (t_wheel t) i) ≠ 0 →
  e_deadline (ent (t_wheel t) i) ≤ w_tick (t_wheel t) →
  let f := FirePeriodicLocked now i t in
  fired_ok t f.2 ∧ others i (t_wheel t) (t_wheel f.2) ∧
  launch_ok t f.2 (if f.1 then [e_periodic (ent (t_wheel t) i)] else []) ∧
  ∀ j, j ≠ i → j ≠ e_prev (ent (t_wheel t) i) → e_next (ent (t_wheel f.2) j) = e_next (ent (t_wheel t) j).
Proof.
  intros Hq Hr Ha Hp Hd. destruct (ri_entry _ _ Hr i Ha Hp) as (r & Hrec & Hri). unfold FirePeriodicLocked. rewrite Hrec.
  cbv zeta. set (d := TickFor _ t). change (Place i d _) with (rearm i d (t_wheel t)).
  destruct (rearm_ok (t_wheel t) i d Hq Ha) as (H1 & H2 & H3 & H4 & H5 & H6 & H7 & H8).
  cbn [fst snd t_wheel set_wheel set_recs t_recs]. split_and!; [|done|by apply launch_fire|done]. constructor; cbn [t_wheel set_wheel set_recs t_recs].
  - split; [done|]. by eapply rinv_update.
  - done.
  - split; [apply H2|done].
  - intros j Hj Hdj. assert (Hne : j ≠ i) by (intros ->; lia). split_and!; [by apply (others_armed _ _ _ _ H2 Hne)|by apply H2|by apply H2].
  - intros j Hj. destruct (decide (j = i)) as [->|Hne]; [split_and!; done|].
    apply (others_armed _ _ _ _ H2 Hne) in Hj. destruct (others_pay _ _ _ _ H2 Hne) as (-> & -> & _).
    split_and!; [done|done|]. intros _. split; [done|by apply H2].
Qed.

Lemma fire_drop_ok i t :
  qinv (t_wheel t) → rinv (t_wheel t) (t_recs t) → armed (t_wheel t) i → e_periodic (ent (t_wheel t) i) = 0 →
  e_deadline (ent (t_wheel t) i) ≤ w_tick (t_wheel t) → fired_ok t (set_wheel (drop_entry i (t_wheel t)) t).
Proof.
  intros Hq Hr Ha Hp Hd. pose proof Ha as [Hi Hl]. destruct (drop_ok _ i Hq Hi Hl) as (H1 & H2 & H3 & H4 & _).
  constructor; cbn [t_wheel set_wheel t_recs].
  - split; [done|by apply rinv_drop].
  - done.
  - split; [apply H2|]. unfold drop_entry, ReleaseEntry. simpl. destruct (unlink_ok _ i (qi_ok _ Hq) Hi Hl) as (_ & Hm & _). apply Hm.
  - intros j Hj Hdj. assert (Hne : j ≠ i) by (intros ->; lia). split_and!; [by apply (others_armed _ _ _ _ H2 Hne)|by apply H2|by apply H2].
  - intros j Hj. destruct (decide (j = i)) as [->|Hne]; [destruct Hj; lia|].
    apply (others_armed _ _ _ _ H2 Hne) in Hj. destruct (others_pay _ _ _ _ H2 Hne) as (-> & -> & _).
    split_and!; [done|done|]. intros _. split; [done|by apply H2].
Qed.

(** The walk of the current slot. *)
Lemma fire_loop_ok fuel clk i R ejs fired t :
  qinv (t_wheel t) → rinv (t_wheel t) (t_recs t) → nchain (ent (t_wheel t)) i R → NoDup R →
  (∀ y, y ∈ R → armed (t_wheel t) y) →
  let f := fire_loop fuel clk i ejs fired t in
  fired_ok t f.2 ∧ ∃ new, f.1.2 = fired ++ new ∧ launch_ok t f.2 new.
Proof.
  revert i R ejs fired t. induction fuel as [|fuel IH]; intros i R ejs fired t Hq Hr Hc Hnd HR; cbn [fire_loop].
  { split; [by apply fired_refl|]. exists []. rewrite app_nil_r. split; [done|by apply launch_refl]. }
  assert (Hstop : fired_ok t t ∧ ∃ new, fired = fired ++ new ∧ launch_ok t t new).
  { split; [by apply fired_refl|]. exists []. rewrite app_nil_r. split; [done|by apply launch_refl]. }
  destruct R as [|x R]; [simpl in Hc; subst i; rewrite Z.eqb_refl; simpl; exact Hstop|].
  destruct Hc as (-> & Hk & Hc). destruct (_ || _); [exact Hstop|]. clear Hstop.
  assert (Hx : armed (t_wheel t) x) by (apply HR; set_solver).
  pose proof (prev_passed _ _ _ (qi_ok _ Hq) Hx Hc Hnd) as Hprev. apply NoDup_cons in Hnd as [HxR Hnd].
  assert (Hnext : ∀ t', fired_ok t t' → others x (t_wheel t) (t_wheel t') →
    (∀ j, j ≠ x → j ≠ e_prev (ent (t_wheel t) x) → e_next (ent (t_wheel t') j) = e_next (ent (t_wheel t) j)) →
    nchain (ent (t_wheel t')) (e_next (ent (t_wheel t) x)) R ∧ ∀ y, y ∈ R → armed (t_wheel t') y).
  { intros t' Hf Ho Hn. split.
    - eapply nchain_ext; [|exact Hc]. intros y Hy. apply Hn; [by intros ->|by intros ->].
    - intros y Hy. apply (others_armed _ _ _ _ Ho); [by intros ->|]. apply HR. set_solver. }
  destruct (e_deadline (ent (t_wheel t) x) <=? w_tick (t_wheel t)) eqn:Ed; [apply Z.leb_le in Ed|].
  - destruct (e_periodic (ent (t_wheel t) x) =? 0) eqn:Ep; [apply Z.eqb_eq in Ep|apply Z.eqb_neq in Ep]; cbn [negb andb].
    + set (t1 := set_wheel _ t). assert (Hf : fired_ok t t1) by by apply fire_drop_ok.
      destruct (drop_ok _ x Hq) as (_ & Ho & _); [apply Hx|apply Hx|].
      destruct (Hnext t1 Hf Ho) as [H1 H2]; [intros j Hj Hp; by apply drop_next|].
      destruct (IH _ _ (ejs ++ [(e_token (ent (t_wheel t) x), e_eject (ent (t_wheel t) x), e_ctx (ent (t_wheel t) x))]) fired t1 (proj1 (fo_inv _ _ Hf)) (proj2 (fo_inv _ _ Hf)) H1 Hnd H2) as (I1 & new & I2 & I3).
      split; [by eapply fired_trans|]. exists new. split; [done|].
      change new with ([] ++ new). eapply launch_trans; [by apply (launch_refl t t1)|done].
    + destruct (fire_periodic_ok (clk x) x t Hq Hr Hx Ep Ed) as (Hf & Ho & Hla & Hn). set (f := FirePeriodicLocked _ _ _) in *.
      destruct (Hnext f.2 Hf Ho Hn) as [H1 H2].
      destruct (IH _ _ ejs (if f.1 then fired ++ [e_periodic (ent (t_wheel t) x)] else fired) f.2
        (proj1 (fo_inv _ _ Hf)) (proj2 (fo_inv _ _ Hf)) H1 Hnd H2) as (I1 & new & I2 & I3).
      split; [by eapply fired_trans|]. exists ((if f.1 then [e_periodic (ent (t_wheel t) x)] else []) ++ new).
      split; [|by eapply launch_trans]. rewrite I2. destruct f.1; [by rewrite <- app_assoc|done].
  - cbn [andb]. apply (IH _ R); try done. intros y Hy. apply HR. set_solver.
Qed.

(** ** Executions

    [promise] remembers, per armed one-shot entry, the earliest time it may fire, [flight]
    the periodic instances handed to the scheduler; [clock] is the last reading of the
    clock. *)

Record tstate := mkTS { ts : timers; flight : list Z; promise : gmap Z Z; clock : Z }.

Definition tinit (s : tstate) : Prop := ∃ now, s = mkTS (new_timers now) [] ∅ now.

Inductive tstep (s : tstate) : tstate → Prop :=
| ts_arm now1 now2 delay tok ej ctx on h wake t' :
    clock s ≤ now1 → now1 ≤ now2 → w_size (t_wheel (ts s)) < kNil →
    Arm now1 now2 delay tok ej ctx on (ts s) = (h, wake, t') → h ≠ 0 →
    tstep s (mkTS t' (flight s)
      (if 0 <? delay then <[Z.land h 0xFFFFFFFF := now2 + delay]> (promise s) else delete (Z.land h 0xFFFFFFFF) (promise s)) now2)
| ts_arm_refused now1 now2 delay tok ej ctx on wake t' :
    clock s ≤ now1 → now1 ≤ now2 → Arm now1 now2 delay tok ej ctx on (ts s) = (0, wake, t') →
    w_size (t_wheel (ts s)) < kNil → tstep s (mkTS t' (flight s) (promise s) now2)
| ts_disarm h b t' : Disarm h (ts s) = (b, t') →
    (b = true → e_periodic (ent (t_wheel (ts s)) (Z.land h 0xFFFFFFFF)) = 0) →     (* [h] came from [Arm] *)
    tstep s (mkTS t' (flight s) (promise s) (clock s))
| ts_fire now clk ejs fired t' : clock s ≤ now → (∀ i, now ≤ clk i) →
    (0 ≤ NextEventTick (t_wheel (ts s)) ≤ NowTick now (ts s)) →
    FireStepLocked clk (NextEventTick (t_wheel (ts s))) (ts s) = (ejs, fired, t') →
    tstep s (mkTS t' (flight s ++ fired) (promise s) now)
| ts_quiet now : clock s ≤ now → NextEventTick (t_wheel (ts s)) < 0 →
    tstep s (mkTS (set_sleep INT64_MAX (set_wheel (set_tick (NowTick now (ts s)) (t_wheel (ts s))) (ts s))) (flight s) (promise s) now)
| ts_publish u : tstep s (mkTS (set_sleep u (PublishGateLocked (ts s))) (flight s) (promise s) (clock s))
| ts_pstart now1 now2 interval fn ctx lane first on ra t' :
    clock s ≤ now1 → now1 ≤ now2 → w_size (t_wheel (ts s)) < kNil → ra ≠ 0 → t_recs (ts s) !! ra = None →
    Periodic_Start now1 now2 interval fn ctx lane first on ra (ts s) = (ra, t') →
    tstep s (mkTS t' (flight s) (promise s) now2)
| ts_pcancel ra : tstep s (mkTS (Periodic_Cancel ra (ts s)) (flight s) (promise s) (clock s))
| ts_pbegin ra n c t' : ra ∈ flight s → RunPeriodic_begin ra (ts s) = (n, c, t') →
    tstep s (mkTS t' (flight s) (promise s) (clock s))
| ts_pfinish ra stop l1 l2 wake t' : flight s = l1 ++ ra :: l2 → FinishPeriodic ra stop (ts s) = (wake, t') →
    tstep s (mkTS t' (l1 ++ l2) (promise s) (clock s))
| ts_pjoin ra r : t_recs (ts s) !! ra = Some r →     (* a joiner sets the waiter bit of the record's group *)
    tstep s (mkTS (set_recs (<[ra := mkP (p_interval r) (p_due r) (p_fn r) (p_ctx r) (p_lane r) (p_totalSkipped r)
        (set_wn (or_waiter (wg_n (p_runs r))) (p_runs r)) (p_entry r) (p_pending r) (p_inFlight r) (p_cancelled r)
        (p_detached r)]> (t_recs (ts s))) (ts s)) (flight s) (promise s) (clock s))
| ts_pdestroy ra r : t_recs (ts s) !! ra = Some r → p_cancelled r = true → count_of (wg_n (p_runs r)) = 0 →
    tstep s (mkTS (set_recs (delete ra (t_recs (ts s))) (ts s)) (flight s) (promise s) (clock s))
| ts_pdetach ra : tstep s (mkTS (Periodic_Detach ra (ts s)) (flight s) (promise s) (clock s))
| ts_start : tstep s (mkTS (TimerQueue_Start (ts s)) (flight s) (promise s) (clock s))
| ts_stop : tstep s (mkTS (TimerQueue_Stop (ts s)) (flight s) (promise s) (clock s)).

Record tinv (s : tstate) : Prop := {
  tv_q : qinv (t_wheel (ts s));
  tv_r : rinv (t_wheel (ts s)) (t_recs (ts s));
  tv_conf : t_tickNs (ts s) = 1000000 ∧ t_epochNs (ts s) ≤ clock s;
  tv_tick : 0 ≤ w_tick (t_wheel (ts s));
  tv_nodup : NoDup (flight s);
  tv_flight ra : ra ∈ flight s ↔ flying (ts s) ra;
  tv_runs ra r : t_recs (ts s) !! ra = Some r → rec_ok r;
  tv_promise i p : promise s !! i = Some p → armed (t_wheel (ts s)) i → e_periodic (ent (t_wheel (ts s)) i) = 0 →
    p ≤ t_epochNs (ts s) + e_deadline (ent (t_wheel (ts s)) i) * t_tickNs (ts s) }.

Lemma qinv_tick c w : qinv w → qinv (set_tick c w).
Proof. intros [Q1 Q2 Q3 Q4]. constructor; try done. by apply (wok_same w). Qed.

Lemma advance_qinv target w :
  qinv w →
  let w' := AdvanceTo target w in
  qinv w' ∧ (∀ i, armed w' i ↔ armed w i) ∧ (∀ i, payload (ent w' i) = payload (ent w i)) ∧
  w_tick w' = Z.max target (w_tick w) ∧ w_size w' = w_size w.
Proof.
  intros Hq w'. destruct (AdvanceTo_ok target w (qi_ok _ Hq)) as (H1 & H2 & H3). fold w' in H1, H2, H3. split_and!.
  - eapply qinv_moved; [by apply (qinv_tick (Z.max target (w_tick w)))|done|done|exact H3].
  - intros i. unfold armed. rewrite (mv_dom _ _ H2). change (exists_in (set_tick _ w) i) with (exists_in w i).
    split; intros [Hi Hl]; (split; [done|]); by apply H3.
  - intros i. apply (mv_pay _ _ H2).
  - apply (mv_tick _ _ H2).
  - apply (mv_size _ _ H2).
Qed.

Lemma pay_fields w w' i : payload (ent w' i) = payload (ent w i) →
  e_periodic (ent w' i) = e_periodic (ent w i) ∧ e_deadline (ent w' i) = e_deadline (ent w i) ∧ e_gen (ent w' i) = e_gen (ent w i).
Proof. intros E. injection E as ? ? ? ? ? ? ?. done. Qed.

Lemma TickFor_ge ns t : 0 < t_tickNs t → ns ≤ t_epochNs t + TickFor ns t * t_tickNs t.
Proof.
  intros Ht. unfold TickFor. destruct (_ <=? 0) eqn:E; [apply Z.leb_le in E; lia|apply Z.leb_gt in E].
  rewrite Z.quot_div_nonneg by lia. set (rel := ns - t_epochNs t) in *.
  pose proof (Z.div_mod (rel + t_tickNs t - 1) (t_tickNs t) ltac:(lia)) as H.
  pose proof (Z.mod_pos_bound (rel + t_tickNs t - 1) (t_tickNs t) Ht). unfold rel in *. nia.
Qed.

Lemma NowTick_le now t : 0 < t_tickNs t → t_epochNs t ≤ now → (0 ≤ NowTick now t) ∧ t_epochNs t + NowTick now t * t_tickNs t ≤ now.
Proof.
  intros Ht Hn. unfold NowTick. rewrite Z.quot_div_nonneg by lia. split; [apply Z.div_pos; lia|].
  pose proof (Z.mul_div_le (now - t_epochNs t) (t_tickNs t) Ht). lia.
Qed.

(** A handle names its entry and generation. *)
Lemma handle_split g i :
  (0 ≤ g < 2 ^ 32) → (0 ≤ i < 2 ^ 32) →
  Z.land (Z.lor (Z.shiftl g 32) i) 0xFFFFFFFF = i ∧ Z.shiftr (Z.lor (Z.shiftl g 32) i) 32 = g.
Proof.
  intros Hg Hi. split.
  - change 0xFFFFFFFF with (Z.ones 32). apply Z.bits_inj'. intros n Hn. rewrite Z.land_spec, Z.lor_spec, Z.shiftl_spec by lia.
    destruct (decide (n < 32)).
    + rewrite Z.ones_spec_low, (Z.testbit_neg_r g) by lia. by rewrite andb_true_r.
    + rewrite Z.ones_spec_high, (testbit_small i 32) by lia. by rewrite andb_false_r.
  - apply Z.bits_inj'. intros n Hn. rewrite Z.shiftr_spec, Z.lor_spec, Z.shiftl_spec by lia.
    rewrite (testbit_small i 32), orb_false_r by lia. f_equal. lia.
Qed.

(** A one-shot entry added to the wheel. *)
Lemma rinv_arm w w' m i :
  rinv w m → others i w w' → (exists_in w i → e_level (ent w i) = -1) → e_periodic (ent w' i) = 0 → rinv w' m.
Proof.
  intros [R1 R2 R3 R4] Ho Hi Hp. assert (Hni : ¬ armed w i) by (intros [He Hl]; rewrite Hi in Hl by done; lia).
  constructor; [| |done|done].
  - intros j Hj Hjp. assert (Hne : j ≠ i) by (intros ->; done). destruct (others_pay _ _ _ _ Ho Hne) as (E & _). rewrite E in *.
    apply R1; [by apply (others_armed _ _ _ _ Ho Hne)|done].
  - intros ra r Hr He. destruct (R2 ra r Hr He) as [H1 H2]. assert (Hne : p_entry r ≠ i) by (intros E; by rewrite E in H1).
    destruct (others_pay _ _ _ _ Ho Hne) as (-> & _). split; [by apply (others_armed _ _ _ _ Ho Hne)|done].
Qed.

(** A periodic entry added with its record. *)
Lemma rinv_start w w' m i ra r :
  rinv w m → others i w w' → (exists_in w i → e_level (ent w i) = -1) → armed w' i → e_periodic (ent w' i) = ra → ra ≠ 0 →
  m !! ra = None → p_entry r = i → i ≠ kNil → p_cancelled r = false → 0 < p_interval r → rinv w' (<[ra := r]> m).
Proof.
  intros [R1 R2 R3 R4] Ho Hi Ha Hp Hra Hm Hri Hik Hrc Hrv.
  assert (Hni : ¬ armed w i) by (intros [He Hl]; rewrite Hi in Hl by done; lia).
  constructor.
  - intros j Hj Hjp. destruct (decide (j = i)) as [->|Hne].
    + rewrite Hp, lookup_insert_eq. by exists r.
    + destruct (others_pay _ _ _ _ Ho Hne) as (E & _). rewrite E in *. apply (others_armed _ _ _ _ Ho Hne) in Hj.
      destruct (R1 j Hj Hjp) as (rj & Hrj & Hej). exists rj. rewrite lookup_insert_ne by congruence. done.
  - intros rb rr [[<- <-]|[Hb Hrr]]%lookup_insert_Some He; [rewrite Hri; done|].
    destruct (R2 rb rr Hrr He) as [H1 H2]. assert (Hne : p_entry rr ≠ i) by (intros E; by rewrite E in H1).
    destruct (others_pay _ _ _ _ Ho Hne) as (-> & _). split; [by apply (others_armed _ _ _ _ Ho Hne)|done].
  - intros rb rr [[<- <-]|[Hb Hrr]]%lookup_insert_Some; [|by apply (R3 rb)]. split; [|done]. rewrite Hrc, Hri. done.
  - by rewrite lookup_insert_ne.
Qed.

Lemma index_range w i : wok w → exists_in w i → (0 ≤ i < 2 ^ 32) ∧ i ≠ kNil.
Proof.
  intros [L Hl] Hi. split; [|by eapply li_nonnil]. apply (li_dom _ _ Hl) in Hi. pose proof (li_size _ _ Hl).
  unfold kNil in *. lia.
Qed.

(** What [Arm] does when it accepts, and that it otherwise changes nothing. *)
Lemma Arm_cases now1 now2 delay tok ej ctx on t h wake t' :
  qinv (t_wheel t) → w_size (t_wheel t) < kNil → Arm now1 now2 delay tok ej ctx on t = (h, wake, t') →
  (h = 0 ∧ t' = t) ∨
  ∃ i d, h ≠ 0 ∧ Z.land h 0xFFFFFFFF = i ∧ Z.shiftr h 32 = e_gen (ent (t_wheel t') i) ∧
    d = (if 0 <? delay then TickFor (now2 + delay) t else NowTick now1 t) ∧
    (i, t_wheel t') = arm_entry d tok ej ctx 0 (AdvanceTo (NowTick now1 t) (t_wheel t)) ∧
    t_recs t' = t_recs t ∧ t_tickNs t' = t_tickNs t ∧ t_epochNs t' = t_epochNs t.
Proof.
  intros Hq Hs. unfold Arm. destruct (tok =? kNone); [intros [= <- <- <-]; by left|].
  destruct (t_stopping t) eqn:Est; [intros [= <- <- <-]; by left|]. destruct on; [|intros [= <- <- <-]; by left]. cbn [negb].
  set (t0 := set_running true false t). change (t_wheel t0) with (t_wheel t).
  change (NowTick now1 t0) with (NowTick now1 t). change (TickFor (now2 + delay) t0) with (TickFor (now2 + delay) t).
  set (d := if 0 <? delay then _ else _). destruct (advance_qinv (NowTick now1 t) _ Hq) as (Hq1 & _ & _ & _ & Hsz).
  pose proof (arm_ok (AdvanceTo (NowTick now1 t) (t_wheel t)) d tok ej ctx 0 Hq1 ltac:(by rewrite Hsz)) as Harm.
  destruct (arm_entry d tok ej ctx 0 (AdvanceTo (NowTick now1 t) (t_wheel t))) as [i w] eqn:Ea. cbn [fst snd] in Harm.
  destruct Harm as (Hq2 & _ & Hi & _ & Hpos & _ & _ & _ & Hg & _). intros [= <- <- <-]. right.
  destruct (index_range _ _ (qi_ok _ Hq2) Hi) as [Hir _]. destruct (handle_split (e_gen (ent w i)) i (qi_gen _ Hq2 i) Hir) as [E1 E2].
  exists i, d. split_and!; try done.
  intros E. rewrite E, Z.shiftr_0_l in E2. pose proof (qi_lev _ Hq2 i Hi) as Ho. rewrite <- E2 in Ho.
  symmetry in Ho. apply bool_decide_eq_false in Ho. pose proof (place_slot_valid (w_tick (AdvanceTo (NowTick now1 t) (t_wheel t))) d) as [Hv _].
  rewrite <- Hpos in Hv. simpl in Hv. lia.
Qed.

Lemma tinv_arm s now1 now2 delay tok ej ctx on h wake t' :
  tinv s → clock s ≤ now1 → now1 ≤ now2 → w_size (t_wheel (ts s)) < kNil →
  Arm now1 now2 delay tok ej ctx on (ts s) = (h, wake, t') → h ≠ 0 →
  tinv (mkTS t' (flight s)
    (if 0 <? delay then <[Z.land h 0xFFFFFFFF := now2 + delay]> (promise s) else delete (Z.land h 0xFFFFFFFF) (promise s)) now2).
Proof.
  intros [T1 T2 [T3 T4] T5 T6 T7 T8 T9] Hn1 Hn2 Hs Harm Hh.
  destruct (Arm_cases _ _ _ _ _ _ _ _ _ _ _ T1 Hs Harm) as [[? _]|(i & d & _ & Ei & _ & Hd & Ea & Er & Et & Ee)]; [done|].
  rewrite Ei. set (w := t_wheel (ts s)) in *. set (w0 := AdvanceTo (NowTick now1 (ts s)) w) in *.
  destruct (advance_qinv (NowTick now1 (ts s)) w T1) as (Hq0 & Har0 & Hpay0 & Htick0 & Hsz0). fold w0 in Hq0, Har0, Hpay0, Htick0, Hsz0.
  pose proof (arm_ok w0 d tok ej ctx 0 Hq0 ltac:(by rewrite Hsz0)) as Hok. rewrite <- Ea in Hok. cbn [fst snd] in Hok.
  destruct Hok as (Hq & Ho & Hi & Hold & Hpos & Hdl & Hper & _ & _ & _).
  assert (Hni : ¬ armed w0 i) by (intros [He Hl]; rewrite Hold in Hl by done; lia).
  constructor; cbn [ts flight promise clock].
  - done.
  - rewrite Er. eapply rinv_arm; [|done|done|done]. eapply rinv_wheel; [done|done|].
    intros j _. apply (pay_fields _ _ j (Hpay0 j)).
  - rewrite Et, Ee. split; [done|lia].
  - rewrite (ot_tick _ _ _ Ho), Htick0. lia.
  - done.
  - intros ra. rewrite T7. unfold flying. by rewrite Er.
  - rewrite Er. done.
  - rewrite Et, Ee. intros j p Hp Hj Hjp. destruct (decide (j = i)) as [->|Hne].
    + destruct (0 <? delay) eqn:E; [|by rewrite lookup_delete_eq in Hp]. rewrite lookup_insert_eq in Hp. injection Hp as <-.
      rewrite Hdl, Hd. apply TickFor_ge. lia.
    + assert (Hp' : promise s !! j = Some p) by (destruct (0 <? delay); [by rewrite lookup_insert_ne in Hp|by rewrite lookup_delete_ne in Hp]).
      apply (others_armed _ _ _ _ Ho Hne), Har0 in Hj. destruct (others_pay _ _ _ _ Ho Hne) as (E1 & -> & _). rewrite E1 in Hjp.
      destruct (pay_fields _ _ j (Hpay0 j)) as (E3 & -> & _). rewrite E3 in Hjp. by apply T9.
Qed.

(** Nothing of the invariant reads the gate, the sleep target or the run flags. *)
Lemma tinv_view s t' :
  tinv s → t_wheel t' = t_wheel (ts s) → t_recs t' = t_recs (ts s) → t_tickNs t' = t_tickNs (ts s) →
  t_epochNs t' = t_epochNs (ts s) → tinv (mkTS t' (flight s) (promise s) (clock s)).
Proof.
  intros [T1 T2 T3 T5 T6 T7 T8 T9] E1 E2 E3 E4. constructor; cbn [ts flight promise clock]; rewrite ?E1, ?E2, ?E3, ?E4; try done.
  intros ra. rewrite T7. unfold flying. by rewrite E2.
Qed.

Lemma tinv_gate t fl pr ck : tinv (mkTS t fl pr ck) → tinv (mkTS (PublishGateLocked t) fl pr ck).
Proof. intros Ht. by apply (tinv_view (mkTS t fl pr ck)). Qed.

Lemma tinv_drop s i :
  tinv s → armed (t_wheel (ts s)) i → rinv (drop_entry i (t_wheel (ts s))) (t_recs (ts s)) →
  tinv (mkTS (set_wheel (drop_entry i (t_wheel (ts s))) (ts s)) (flight s) (promise s) (clock s)).
Proof.
  intros [T1 T2 T3 T5 T6 T7 T8 T9] [Hi Hl] Hr. destruct (drop_ok _ i T1 Hi Hl) as (H1 & Ho & Hl' & _).
  constructor; cbn [ts flight promise clock set_wheel t_wheel t_recs t_tickNs t_epochNs]; try done.
  - rewrite (ot_tick _ _ _ Ho). done.
  - intros j p Hp Hj. assert (Hne : j ≠ i) by (intros ->; destruct Hj; lia). apply (others_armed _ _ _ _ Ho Hne) in Hj.
    destruct (others_pay _ _ _ _ Ho Hne) as (-> & -> & _). by apply T9.
Qed.

Lemma Disarm_armed h t t' :
  qinv (t_wheel t) → Disarm h t = (true, t') →
  armed (t_wheel t) (Z.land h 0xFFFFFFFF) ∧ t_wheel t' = drop_entry (Z.land h 0xFFFFFFFF) (t_wheel t) ∧
  t' = PublishGateLocked (set_wheel (drop_entry (Z.land h 0xFFFFFFFF) (t_wheel t)) t).
Proof.
  intros Hq Hd. unfold Disarm in Hd. set (i := Z.land h 0xFFFFFFFF) in *. destruct (h =? 0); [done|].
  destruct (_ <=? i) eqn:Es; [done|]. destruct (negb _ || _) eqn:Eg; [done|]. injection Hd as <-. split; [|done].
  apply Z.leb_gt in Es. apply orb_false_iff in Eg as [Eg1 Eg2]. apply negb_false_iff, Z.eqb_eq in Eg1. apply Z.eqb_neq in Eg2.
  destruct (qi_ok _ Hq) as [L Hl].
  assert (Hi : exists_in (t_wheel t) i).
  { apply (li_dom _ _ Hl). unfold i in *. change 0xFFFFFFFF with (Z.ones 32) in *. rewrite Z.land_ones in * by lia.
    pose proof (Z.mod_pos_bound h (2 ^ 32) ltac:(lia)). lia. }
  split; [done|]. pose proof (qi_lev _ Hq i Hi) as Ho. rewrite Eg1 in Ho.
  assert (Z.odd (Z.shiftr h 32) = true) as Hodd.
  { rewrite <- Z.bit0_odd. destruct (Z.testbit (Z.shiftr h 32) 0) eqn:E; [done|]. destruct Eg2.
    change 1 with (Z.ones 1). rewrite Z.land_ones by lia. apply Z.bits_inj'. intros n Hn. rewrite Z.bits_0.
    destruct (decide (n = 0)) as [->|]; [by rewrite Z.mod_pow2_bits_low|by rewrite Z.mod_pow2_bits_high by lia]. }
  rewrite Hodd in Ho. symmetry in Ho. by apply bool_decide_eq_true in Ho.
Qed.

Lemma tinv_disarm s h b t' :
  tinv s → Disarm h (ts s) = (b, t') → (b = true → e_periodic (ent (t_wheel (ts s)) (Z.land h 0xFFFFFFFF)) = 0) →
  tinv (mkTS t' (flight s) (promise s) (clock s)).
Proof.
  intros Ht Hd Hp. destruct b.
  - destruct (Disarm_armed h (ts s) t' (tv_q _ Ht) Hd) as (Ha & _ & ->). apply tinv_gate, tinv_drop; [done|done|].
    apply rinv_drop; [apply Ht|apply Ht|done|by apply Hp].
  - unfold Disarm in Hd. repeat case_match; simplify_eq; by apply tinv_view.
Qed.

(** A fire: the slot walk, and the clock pushed on when it found nothing to do. *)
Lemma fire_step_ok clk next t ejs fired t' :
  qinv (t_wheel t) → rinv (t_wheel t) (t_recs t) → FireStepLocked clk next t = (ejs, fired, t') →
  let t0 := set_wheel (AdvanceTo next (t_wheel t)) t in
  ∃ t1, fired_ok t0 t1 ∧ launch_ok t t1 fired ∧ t_recs t' = t_recs t1 ∧ t_tickNs t' = t_tickNs t1 ∧
    t_epochNs t' = t_epochNs t1 ∧
    (t_wheel t' = t_wheel t1 ∨ t_wheel t' = set_tick (w_tick (t_wheel t1) + 1) (t_wheel t1)).
Proof.
  intros Hq Hr Hf t0. unfold FireStepLocked in Hf. cbv zeta in Hf. fold t0 in Hf. set (w := AdvanceTo next (t_wheel t)) in *.
  destruct (advance_qinv next _ Hq) as (Hq0 & Har0 & Hpay0 & _). fold w in Hq0, Har0, Hpay0.
  assert (Hr0 : rinv w (t_recs t)) by (eapply rinv_wheel; [done|done|]; intros i _; apply (pay_fields _ _ i (Hpay0 i))).
  destruct (qi_ok _ Hq0) as [L Hl]. set (slot := Z.land (w_tick w) kSlotMask) in *.
  assert (Hv : valid_ls 0 slot) by (split; [lia|apply slot_mask_range]).
  destruct (li_list _ _ Hl 0 slot Hv) as [q Hd].
  destruct (fire_loop_ok (Z.to_nat (w_size w) + 1) clk (head_at w 0 slot) (L 0 slot) [] [] t0) as (F1 & new & F2 & F3).
  - exact Hq0.
  - exact Hr0.
  - by eapply dlseg_nchain.
  - by apply (li_nodup _ _ Hl).
  - intros y Hy. apply (li_in _ _ Hl) in Hy as [Hy [= Hy2 _]]; [|done]. split; [exact Hy|]. change (t_wheel t0) with w. lia.
  - destruct (fire_loop (Z.to_nat (w_size w) + 1) clk (head_at w 0 slot) [] [] t0) as [[e f] t1]. cbn [fst snd] in *. simpl in F2. subst f.
    assert (Hla : launch_ok t t1 new).
    { change new with ([] ++ new). eapply launch_trans; [by apply (launch_refl t t0)|done]. }
    exists t1. destruct e as [|x e]; [destruct new as [|y new]|]; injection Hf as <- <- <-; split_and!; try done; by (left + right).
Qed.

Lemma tinv_fire s now clk ejs fired t' :
  tinv s → clock s ≤ now → FireStepLocked clk (NextEventTick (t_wheel (ts s))) (ts s) = (ejs, fired, t') →
  tinv (mkTS t' (flight s ++ fired) (promise s) now).
Proof.
  intros [T1 T2 [T3 T4] T5 T6 T7 T8 T9] Hn Hf. set (next := NextEventTick _) in *. set (w := t_wheel (ts s)) in *.
  destruct (fire_step_ok _ _ _ _ _ _ T1 T2 Hf) as (t1 & [F1 F2 F3 F4 F5] & L1 & E1 & E2 & E3 & E4). fold w in F2, F3, F4, F5.
  destruct (advance_qinv next w T1) as (Hq0 & Har0 & Hpay0 & Htick0 & Hsz0). cbn [set_wheel t_wheel t_tickNs t_epochNs t_stopping t_recs] in *.
  destruct F1 as [F1q F1r]. destruct F2 as (F2a & F2b & _). destruct F3 as [F3 _].
  assert (Hw : qinv (t_wheel t') ∧ (∀ i, armed (t_wheel t') i ↔ armed (t_wheel t1) i) ∧
    (∀ i, ent (t_wheel t') i = ent (t_wheel t1) i) ∧ 0 ≤ w_tick (t_wheel t')).
  { destruct E4 as [-> | ->]; split_and!; try done; [lia|by apply qinv_tick|simpl; lia]. }
  destruct Hw as (Hq & Har & Hent & Htk). destruct L1 as [L1 L2 L3 L4 L5].
  constructor; cbn [ts flight promise clock].
  - done.
  - rewrite E1. eapply rinv_wheel; [exact F1r|done|]. intros i _. by rewrite Hent.
  - rewrite E2, E3, F2a, F2b. split; [done|lia].
  - done.
  - apply NoDup_app. split_and!; [done| |done]. intros ra H1 H2. apply (L3 ra H2), T7, H1.
  - intros ra. rewrite elem_of_app, T7. transitivity (flying t1 ra); [by rewrite L2|]. unfold flying. by rewrite E1.
  - rewrite E1. by apply L5.
  - rewrite E2, E3, F2a, F2b. intros i p Hp Hi%Har. rewrite Hent. intros Hip. destruct (F5 i Hi) as (H1 & H2 & H3).
    rewrite H2 in Hip. destruct (H3 Hip) as [-> _]. destruct (pay_fields _ _ i (Hpay0 i)) as (E5 & -> & _). rewrite E5 in Hip.
    apply T9; [done|by apply Har0|done].
Qed.

Lemma tinv_quiet s now :
  tinv s → clock s ≤ now →
  tinv (mkTS (set_sleep INT64_MAX (set_wheel (set_tick (NowTick now (ts s)) (t_wheel (ts s))) (ts s))) (flight s) (promise s) now).
Proof.
  intros [T1 T2 [T3 T4] T5 T6 T7 T8 T9] Hn.
  constructor; cbn [ts flight promise clock set_sleep set_wheel t_wheel t_recs t_tickNs t_epochNs]; try done.
  - by apply qinv_tick.
  - by eapply rinv_wheel.
  - split; [done|lia].
  - apply NowTick_le; lia.
Qed.

(** Changing one record, its entry and whether it is in flight staying. *)
Lemma tinv_record s ra r r' :
  tinv s → t_recs (ts s) !! ra = Some r → p_entry r' = p_entry r → p_cancelled r' = p_cancelled r →
  p_interval r' = p_interval r → p_inFlight r' = p_inFlight r → rec_ok r' →
  tinv (mkTS (set_recs (<[ra := r']> (t_recs (ts s))) (ts s)) (flight s) (promise s) (clock s)).
Proof.
  intros [T1 [R1 R2 R3 R4] T3 T5 T6 T7 T8 T9] Hr He Hc Hv Hf Hok.
  constructor; cbn [ts flight promise clock set_recs t_wheel t_recs t_tickNs t_epochNs]; try done.
  - constructor.
    + intros i Hi Hp. destruct (R1 i Hi Hp) as (ri & Hri & Hei). destruct (decide (ra = e_periodic (ent (t_wheel (ts s)) i))) as [->|Hne].
      * rewrite lookup_insert_eq. exists r'. rewrite Hr in Hri. injection Hri as <-. split; [done|congruence].
      * rewrite lookup_insert_ne by done. by exists ri.
    + intros rb rr [[<- <-]|[_ Hrr]]%lookup_insert_Some; [rewrite He; by apply R2|by apply R2].
    + intros rb rr [[<- <-]|[_ Hrr]]%lookup_insert_Some; [rewrite Hc, He, Hv; by apply (R3 ra)|by apply (R3 rb)].
    + rewrite lookup_insert_ne; [done|]. intros ->. congruence.
  - intros rb. rewrite T7. unfold flying. cbn [set_recs t_recs]. destruct (decide (ra = rb)) as [->|Hne].
    + rewrite lookup_insert_eq, Hr. split; intros (x & [= <-] & Hx); eexists; (split; [done|]); congruence.
    + by rewrite lookup_insert_ne.
  - intros rb rr [[<- <-]|[_ Hrr]]%lookup_insert_Some; [done|by eapply T8].
Qed.

Lemma cancel_ok s ra :
  tinv s → tinv (mkTS (CancelPeriodicLocked ra (ts s)) (flight s) (promise s) (clock s)) ∧
  ∀ r, t_recs (ts s) !! ra = Some r → t_recs (CancelPeriodicLocked ra (ts s)) !! ra = Some (cancel_record kNil r).
Proof.
  intros Ht. unfold CancelPeriodicLocked. destruct (t_recs (ts s) !! ra) as [r|] eqn:Hr; [|split; [by apply tinv_view|done]].
  pose proof Ht as [T1 [R1 R2 R3 R4] T3 T5 T6 T7 T8 T9].
  assert (Hrec : ∀ x, Some r = Some x → <[ra := cancel_record kNil r]> (t_recs (ts s)) !! ra = Some (cancel_record kNil x)).
  { intros x [= <-]. by rewrite lookup_insert_eq. }
  assert (Hfly : ∀ rb, flying (set_recs (<[ra := cancel_record kNil r]> (t_recs (ts s))) (ts s)) rb ↔ flying (ts s) rb).
  { intros rb. unfold flying. cbn [set_recs t_recs]. destruct (decide (ra = rb)) as [->|Hne]; [|by rewrite lookup_insert_ne].
    rewrite lookup_insert_eq, Hr. split; intros (x & [= <-] & Hx); eexists; by split. }
  assert (Hruns : ∀ rb rr, <[ra := cancel_record kNil r]> (t_recs (ts s)) !! rb = Some rr → rec_ok rr).
  { intros rb rr [[<- <-]|[_ Hrr]]%lookup_insert_Some; [exact (T8 ra r Hr)|by eapply T8]. }
  destruct (R3 ra r Hr) as [Hc Hv]. destruct (p_entry r =? kNil) eqn:E.
  - apply Z.eqb_eq in E. split; [|by apply Hrec].
    constructor; cbn [ts flight promise clock set_recs t_wheel t_recs t_tickNs t_epochNs]; try done; [|by intros rb; rewrite T7, Hfly].
    constructor.
    + intros i Hi Hp. destruct (R1 i Hi Hp) as (ri & Hri & Hei). rewrite lookup_insert_ne; [by exists ri|]. intros Heq.
      rewrite <- Heq, Hr in Hri. injection Hri as <-. destruct Hi as [Hi _]. apply (index_range _ _ (qi_ok _ T1)) in Hi as [_ ?]. congruence.
    + intros rb rr [[<- <-]|[_ Hrr]]%lookup_insert_Some; [done|by apply R2].
    + intros rb rr [[<- <-]|[_ Hrr]]%lookup_insert_Some; [done|by apply (R3 rb)].
    + rewrite lookup_insert_ne; [done|]. intros ->. congruence.
  - apply Z.eqb_neq in E. destruct (R2 ra r Hr E) as [Ha Hp]. pose proof Ha as [Hi Hl].
    destruct (drop_ok _ _ T1 Hi Hl) as (H1 & Ho & Hl' & _). split; [|by apply Hrec].
    assert (Hni : ¬ armed (drop_entry (p_entry r) (t_wheel (ts s))) (p_entry r)) by (intros [_ ?]; lia).
    constructor; cbn [ts flight promise clock set_recs set_wheel t_wheel t_recs t_tickNs t_epochNs]; try done.
    + constructor.
      * intros i Hi' Hp'. assert (Hne : i ≠ p_entry r) by (intros ->; done).
        destruct (others_pay _ _ _ _ Ho Hne) as (E1 & _). rewrite E1 in *. apply (others_armed _ _ _ _ Ho Hne) in Hi'.
        destruct (R1 i Hi' Hp') as (ri & Hri & Hei). rewrite lookup_insert_ne; [by exists ri|]. intros Heq. congruence.
      * intros rb rr [[<- <-]|[Hb Hrr]]%lookup_insert_Some; [done|]. intros He. destruct (R2 rb rr Hrr He) as [H2 H3].
        assert (Hne : p_entry rr ≠ p_entry r) by (intros Heq; rewrite Heq in H3; congruence).
        destruct (others_pay _ _ _ _ Ho Hne) as (-> & _). split; [by apply (others_armed _ _ _ _ Ho Hne)|done].
      * intros rb rr [[<- <-]|[_ Hrr]]%lookup_insert_Some; [done|by apply (R3 rb)].
      * rewrite lookup_insert_ne; [done|]. intros ->. congruence.
    + by rewrite (ot_tick _ _ _ Ho).
    + intros rb. rewrite T7. symmetry. apply Hfly.
    + intros i p Hpr Hi' Hp'. assert (Hne : i ≠ p_entry r) by (intros ->; done). apply (others_armed _ _ _ _ Ho Hne) in Hi'.
      destruct (others_pay _ _ _ _ Ho Hne) as (E1 & -> & _). rewrite E1 in Hp'. by apply T9.
Qed.

(** Deleting a record that is cancelled and not in flight. *)
Lemma tinv_delete s ra r :
  tinv s → t_recs (ts s) !! ra = Some r → p_cancelled r = true → ra ∉ flight s →
  tinv (mkTS (set_recs (delete ra (t_recs (ts s))) (ts s)) (flight s) (promise s) (clock s)).
Proof.
  intros [T1 [R1 R2 R3 R4] T3 T5 T6 T7 T8 T9] Hr Hc Hnf. destruct (R3 ra r Hr) as [Hce _].
  constructor; cbn [ts flight promise clock set_recs t_wheel t_recs t_tickNs t_epochNs]; try done.
  - constructor.
    + intros i Hi Hp. destruct (R1 i Hi Hp) as (ri & Hri & Hei). exists ri. rewrite lookup_delete_ne; [done|]. intros Heq.
      rewrite <- Heq, Hr in Hri. injection Hri as <-. destruct Hi as [Hi _]. apply (index_range _ _ (qi_ok _ T1)) in Hi as [_ Hk].
      rewrite <- Hei in Hk. tauto.
    + intros rb rr [_ Hrr]%lookup_delete_Some. by apply R2.
    + intros rb rr [_ Hrr]%lookup_delete_Some. by apply (R3 rb).
    + apply lookup_delete_None. by right.
  - intros rb. rewrite T7. unfold flying. cbn [set_recs t_recs]. destruct (decide (ra = rb)) as [<-|Hne]; [|by rewrite lookup_delete_ne].
    rewrite lookup_delete_eq. split; [|by intros (? & ? & _)]. intros Hf. destruct Hnf. by apply T7.
  - intros rb rr [_ Hrr]%lookup_delete_Some. by eapply T8.
Qed.

Lemma done_begin_runs r : rec_ok r → p_inFlight r = true → rec_ok (finish_record r).2.
Proof.
  intros [b Hb] Hf. rewrite Hf in Hb. exists b. unfold finish_record, DoneBegin. cbn [fst snd p_runs p_inFlight].
  case_match; cbn [snd set_waking set_wn wg_n]; rewrite Hb; unfold word; simpl; lia.
Qed.

Lemma tinv_finish s ra stop l1 l2 wake t' :
  tinv s → flight s = l1 ++ ra :: l2 → FinishPeriodic ra stop (ts s) = (wake, t') →
  tinv (mkTS t' (l1 ++ l2) (promise s) (clock s)).
Proof.
  intros Ht Hfl Hf. unfold FinishPeriodic in Hf.
  set (t1 := if stop then CancelPeriodicLocked ra (ts s) else ts s) in *.
  assert (Ht1 : tinv (mkTS t1 (flight s) (promise s) (clock s))) by (unfold t1; destruct stop; [by apply cancel_ok|by apply tinv_view]).
  clearbody t1. pose proof Ht1 as [T1 T2 T3 T5 T6 T7 T8 T9]. cbn [ts flight promise clock] in *. rewrite Hfl in T6, T7.
  assert (Hnd : NoDup (l1 ++ l2) ∧ (ra ∉ l1 ++ l2)).
  { apply NoDup_app in T6 as (Ha & Hb & [Hc Hd]%NoDup_cons). split.
    - apply NoDup_app. split_and!; try done. intros x Hx Hx2. apply (Hb x Hx). set_solver.
    - intros [Hx|Hx]%elem_of_app; [|done]. apply (Hb ra Hx). set_solver. }
  destruct Hnd as [Hnd Hnin].
  assert (Hfly : flying t1 ra) by (apply T7; set_solver). destruct Hfly as (r & Hr & Hrf). rewrite Hr in Hf.
  assert (Hother : ∀ rb, rb ≠ ra → rb ∈ l1 ++ l2 ↔ flying t1 rb).
  { intros rb Hne. rewrite <- T7, !elem_of_app, elem_of_cons. naive_solver. }
  destruct T2 as [R1 R2 R3 R4]. destruct (p_detached r && p_cancelled r) eqn:Edc; injection Hf as <- <-.
  - apply andb_true_iff in Edc as [_ Hc]. destruct (R3 ra r Hr) as [Hce _].
    constructor; cbn [ts flight promise clock set_recs t_wheel t_recs t_tickNs t_epochNs]; try done.
    + constructor.
      * intros i Hi Hp. destruct (R1 i Hi Hp) as (ri & Hri & Hei). exists ri. rewrite lookup_delete_ne; [done|]. intros Heq.
        rewrite <- Heq, Hr in Hri. injection Hri as <-. destruct Hi as [Hi _]. apply (index_range _ _ (qi_ok _ T1)) in Hi as [_ Hk].
        rewrite <- Hei in Hk. tauto.
      * intros rb rr [_ Hrr]%lookup_delete_Some. by apply R2.
      * intros rb rr [_ Hrr]%lookup_delete_Some. by apply (R3 rb).
      * apply lookup_delete_None. by right.
    + intros rb. unfold flying. cbn [set_recs t_recs]. destruct (decide (rb = ra)) as [->|Hne].
      * rewrite lookup_delete_eq. split; [done|]. by intros (? & ? & _).
      * rewrite lookup_delete_ne by done. by apply Hother.
    + intros rb rr [_ Hrr]%lookup_delete_Some. by eapply T8.
  - constructor; cbn [ts flight promise clock set_recs t_wheel t_recs t_tickNs t_epochNs]; try done.
    + constructor.
      * intros i Hi Hp. destruct (R1 i Hi Hp) as (ri & Hri & Hei). destruct (decide (ra = e_periodic (ent (t_wheel t1) i))) as [->|Hne].
        -- rewrite lookup_insert_eq. rewrite Hr in Hri. injection Hri as <-. by eexists.
        -- rewrite lookup_insert_ne by done. by exists ri.
      * intros rb rr [[<- <-]|[_ Hrr]]%lookup_insert_Some; [exact (R2 ra r Hr)|by apply R2].
      * intros rb rr [[<- <-]|[_ Hrr]]%lookup_insert_Some; [exact (R3 ra r Hr)|by apply (R3 rb)].
      * rewrite lookup_insert_ne; [done|]. intros ->. congruence.
    + intros rb. unfold flying. cbn [set_recs t_recs]. destruct (decide (rb = ra)) as [->|Hne].
      * rewrite lookup_insert_eq. split; [done|]. by intros (? & [= <-] & ?).
      * rewrite lookup_insert_ne by done. by apply Hother.
    + intros rb rr [[<- <-]|[_ Hrr]]%lookup_insert_Some; [|by eapply T8]. apply done_begin_runs; [by eapply T8|done].
Qed.

(** What [Periodic::Start] does when it accepts. *)
Lemma Start_cases now1 now2 interval fn ctx lane first on ra t t' :
  ra ≠ 0 → Periodic_Start now1 now2 interval fn ctx lane first on ra t = (ra, t') →
  ∃ iv due i, 0 < interval ∧ iv = (if interval <? t_tickNs t then t_tickNs t else interval) ∧
    (i, t_wheel t') = arm_entry (TickFor due t) kNone 0 0 ra (AdvanceTo (NowTick now2 t) (t_wheel t)) ∧
    t_recs t' = <[ra := mkP iv due fn ctx lane 0 (mkWG 0 0 0 0 [] ∅ ∅) i 0 false false false]> (t_recs t) ∧
    t_tickNs t' = t_tickNs t ∧ t_epochNs t' = t_epochNs t.
Proof.
  intros Hra Hp. unfold Periodic_Start in Hp. destruct ((interval <=? 0) || (fn =? 0)) eqn:Ei; [by injection Hp|].
  destruct (t_stopping t); [by injection Hp|]. destruct on; [|by injection Hp]. cbn [negb] in Hp.
  apply orb_false_iff in Ei as [Ei _]. apply Z.leb_gt in Ei. set (t0 := set_running true false t) in *.
  destruct (arm_entry _ kNone 0 0 ra _) as [i w1] eqn:Ea. injection Hp as <-. eexists _, _, i. split_and!; try done.
Qed.

Lemma tinv_start s now1 now2 interval fn ctx lane first on ra t' :
  tinv s → clock s ≤ now1 → now1 ≤ now2 → w_size (t_wheel (ts s)) < kNil → ra ≠ 0 → t_recs (ts s) !! ra = None →
  Periodic_Start now1 now2 interval fn ctx lane first on ra (ts s) = (ra, t') →
  tinv (mkTS t' (flight s) (promise s) now2).
Proof.
  intros [T1 T2 [T3 T4] T5 T6 T7 T8 T9] Hn1 Hn2 Hs Hra Hfr Hp.
  destruct (Start_cases _ _ _ _ _ _ _ _ _ _ _ Hra Hp) as (iv & due & i & Hint & Hiv & Ea & Er & Et & Ee).
  set (w := t_wheel (ts s)) in *. set (w0 := AdvanceTo (NowTick now2 (ts s)) w) in *.
  destruct (advance_qinv (NowTick now2 (ts s)) w T1) as (Hq0 & Har0 & Hpay0 & Htick0 & Hsz0). fold w0 in Hq0, Har0, Hpay0, Htick0, Hsz0.
  pose proof (arm_ok w0 (TickFor due (ts s)) kNone 0 0 ra Hq0 ltac:(by rewrite Hsz0)) as Hok. rewrite <- Ea in Hok. cbn [fst snd] in Hok.
  destruct Hok as (Hq & Ho & Hi & Hold & Hpos & Hdl & Hper & _ & _ & _). set (w1 := t_wheel t') in *.
  assert (Ha : armed w1 i).
  { split; [done|]. pose proof (place_slot_valid (w_tick w0) (TickFor due (ts s))) as [Hv _]. rewrite <- Hpos in Hv. simpl in Hv. lia. }
  assert (Hivp : 0 < iv) by (subst iv; case_match; lia).
  set (r := mkP iv due fn ctx lane 0 _ i 0 false false false) in *.
  constructor; cbn [ts flight promise clock]; fold w1; rewrite ?Er, ?Et, ?Ee; try done.
  - apply (rinv_start w0 w1 _ i ra r); try done; [|exact (proj2 (index_range w1 i (qi_ok _ Hq) Hi))]. eapply rinv_wheel; [exact T2|done|].
    intros j _. apply (pay_fields _ _ j (Hpay0 j)).
  - split; [done|lia].
  - rewrite (ot_tick _ _ _ Ho), Htick0. lia.
  - intros rb. rewrite T7. unfold flying. rewrite Er.
    destruct (decide (ra = rb)) as [<-|Hne]; [|by rewrite lookup_insert_ne]. rewrite lookup_insert_eq, Hfr.
    split; intros (x & Hx & Hx2); [done|]. injection Hx as <-. done.
  - intros rb rr [[<- <-]|[_ Hrr]]%lookup_insert_Some; [by exists false|by eapply T8].
  - intros j p Hpr Hj Hjp. destruct (decide (j = i)) as [->|Hne]; [congruence|].
    apply (others_armed _ _ _ _ Ho Hne), Har0 in Hj. destruct (others_pay _ _ _ _ Ho Hne) as (E1 & -> & _). rewrite E1 in Hjp.
    destruct (pay_fields _ _ j (Hpay0 j)) as (E3 & -> & _). rewrite E3 in Hjp. by apply T9.
Qed.

Lemma tinv_detach s ra : tinv s → tinv (mkTS (Periodic_Detach ra (ts s)) (flight s) (promise s) (clock s)).
Proof.
  intros Ht. unfold Periodic_Detach. destruct (t_recs (ts s) !! ra) as [r|] eqn:Hr; [|by apply tinv_view].
  destruct (p_cancelled r && negb (p_inFlight r)) eqn:E.
  - apply andb_true_iff in E as [Hc Hf]. apply negb_true_iff in Hf. apply (tinv_delete _ _ r); [done..|].
    intros Hfl. apply (tv_flight _ Ht) in Hfl as (r' & Hr' & Hf'). congruence.
  - apply (tinv_record _ _ r); try done. exact (tv_runs _ Ht ra r Hr).
Qed.

Lemma tinv_step s s' : tinv s → tstep s s' → tinv s'.
Proof.
  intros Ht [now1 now2 delay tok ej ctx on h wake t' H1 H2 H3 H4 H5|now1 now2 delay tok ej ctx on wake t' H1 H2 H3 H4
    |h b t' H1 H2|now clk ejs fired t' H1 H2 H3 H4|now H1 H2|u|now1 now2 interval fn ctx lane first on ra t' H1 H2 H3 H4 H5 H6
    |ra|ra n c t' H1 H2|ra stop l1 l2 wake t' H1 H2|ra r H1|ra r H1 H2 H3|ra| |].
  - by eapply tinv_arm.
  - destruct (Arm_cases _ _ _ _ _ _ _ _ _ _ _ (tv_q _ Ht) H4 H3) as [[_ ->]|(i & d & Hh & _)]; [|done].
    destruct Ht as [T1 T2 [T3 T4] T5 T6 T7 T8 T9]. constructor; try done. cbn [ts clock]. split; [done|lia].
  - by eapply tinv_disarm.
  - by eapply tinv_fire.
  - by apply tinv_quiet.
  - apply (tinv_view (mkTS (PublishGateLocked (ts s)) (flight s) (promise s) (clock s))); try done. apply tinv_gate. by destruct s.
  - by eapply tinv_start.
  - unfold Periodic_Cancel. by apply tinv_gate, cancel_ok.
  - unfold RunPeriodic_begin in H2. apply (tv_flight _ Ht) in H1 as (r & Hr & Hf). rewrite Hr in H2. injection H2 as <- <- <-.
    apply (tinv_record _ _ r); try done. exact (tv_runs _ Ht ra r Hr).
  - by eapply tinv_finish.
  - apply (tinv_record _ _ r); try done. destruct (tv_runs _ Ht ra r H1) as [b Hb]. exists true.
    cbn [p_runs p_inFlight set_wn wg_n]. rewrite Hb. apply word_or. unfold WAITER_BIT. destruct (p_inFlight r); simpl; lia.
  - apply (tinv_delete _ _ r); [done..|]. intros Hfl. apply (tv_flight _ Ht) in Hfl as (r' & Hr' & Hf').
    rewrite H1 in Hr'. injection Hr' as <-. destruct (tv_runs _ Ht ra r H1) as [b Hb]. rewrite Hb, Hf', word_count in H3; [done|].
    unfold WAITER_BIT. simpl. lia.
  - by apply tinv_detach.
  - by apply (tinv_view s).
  - unfold TimerQueue_Stop. destruct (t_stopping (ts s)); by apply (tinv_view s).
Qed.

Lemma new_wheel_qinv : qinv new_wheel.
Proof.
  constructor.
  - exists (λ _ _, []). constructor.
    + intros l s Hv. by exists kNil.
    + intros l s Hv. by apply NoDup_nil_2.
    + intros l s i Hv. rewrite elem_of_nil. split; [done|]. by intros [[? ?] _].
    + by intros i [? ?].
    + intros l s Hv. unfold marked, occ_at. simpl. by rewrite Z.bits_0.
    + intros l i. change (occ_at new_wheel l i) with 0. lia.
    + intros i. split; [by intros [? ?]|]. simpl. lia.
    + simpl. unfold kNil. lia.
  - intros i. change (e_gen (ent new_wheel i)) with 0. lia.
  - by intros i [? ?].
  - exists []. split_and!; [done|by apply NoDup_nil_2| |done]. intros i. rewrite elem_of_nil. split; [done|]. by intros [[? ?] _].
Qed.

Lemma reachable_timers_ok s : reachable tinit tstep s → tinv s.
Proof.
  revert s. apply reachable_ind; [|intros s s'; apply tinv_step].
  intros s (now & ->). constructor; cbn [ts flight promise clock new_timers t_wheel t_recs t_tickNs t_epochNs].
  - apply new_wheel_qinv.
  - constructor; try done; by intros i [[? ?] _].
  - split; [done|lia].
  - done.
  - by apply NoDup_nil_2.
  - intros ra. rewrite elem_of_nil. split; [done|]. by intros (? & ? & _).
  - done.
  - done.
Qed.

(** ** What the queue promises *)

Definition armed_entries (w : wheel) : list Z := filter (λ i, 0 ≤ e_level (ent w i)) (seqZ 0 (w_size w)).

Lemma armed_count w : qinv w → w_armed w = Z.of_nat (length (armed_entries w)).
Proof.
  intros [[L Hl] Q2 Q3 (F & _ & Hnd & Hin & Ha)]. rewrite Ha.
  assert (HF : F ≡ₚ filter (λ i, ¬ (0 ≤ e_level (ent w i))) (seqZ 0 (w_size w))).
  { apply NoDup_Permutation; [done|apply NoDup_filter, NoDup_seqZ|]. intros i. rewrite Hin, list_elem_of_filter, elem_of_seqZ.
    rewrite (li_dom _ _ Hl). split.
    - intros [Hi Ho]. rewrite Q3 in Ho by by apply (li_dom _ _ Hl). apply bool_decide_eq_false in Ho. split; [done|lia].
    - intros [Hn Hi]. split; [lia|]. rewrite Q3 by (apply (li_dom _ _ Hl); lia). by apply bool_decide_eq_false. }
  apply Permutation_length in HF. rewrite HF. unfold armed_entries.
  pose proof (li_size _ _ Hl). pose proof (length_seqZ 0 (w_size w)) as Hs.
  assert (Hsum : ∀ l : list Z, Nat.add (length (filter (λ i, ¬ (0 ≤ e_level (ent w i))) l)) (length (filter (λ i, 0 ≤ e_level (ent w i)) l)) = length l).
  { clear. induction l as [|x l IH]; [done|]. rewrite !filter_cons. repeat case_decide; simpl; try lia; tauto. }
  specialize (Hsum (seqZ 0 (w_size w))). lia.
Qed.

(** C32: the timer wheel stays consistent.  Whatever sequence of arms, disarms, fires,
    periodic starts, cancellations and clock moves: the table's linked entries are exactly
    the armed timers, each in the list of one valid slot that its level and slot fields
    name; a slot is marked in the occupancy bitmap exactly when its list is not empty; an
    entry's generation is odd exactly while it is armed, so a handle kept past its timer
    fails; and [PendingCount] is the number of armed timers. *)
Theorem timer_wheel_wf s :
  reachable tinit tstep s →
  let w := t_wheel (ts s) in
  (∃ L, linv w L) ∧ (∀ i, exists_in w i → Z.odd (e_gen (ent w i)) = bool_decide (0 ≤ e_level (ent w i))) ∧
  PendingCount (ts s) = Z.of_nat (length (armed_entries w)).
Proof.
  intros Hr w. pose proof (tv_q _ (reachable_timers_ok s Hr)) as Hq. split_and!; [apply Hq|apply Hq|by apply armed_count].
Qed.

(** at most one instance of a periodic runs, and its record outlives it.  Whatever
    happens to the handle (cancelled, joined, destroyed, detached) while instances are being
    launched and finish: no record has two instances in flight, every instance in flight
    finds its record, and its group counts exactly that instance, so a join returns exactly
    when none is left. *)
Theorem periodic_single_instance s :
  reachable tinit tstep s →
  NoDup (flight s) ∧
  (∀ ra, ra ∈ flight s → ∃ r, t_recs (ts s) !! ra = Some r ∧ count_of (wg_n (p_runs r)) = 1) ∧
  (∀ ra r, t_recs (ts s) !! ra = Some r → ra ∉ flight s → count_of (wg_n (p_runs r)) = 0).
Proof.
  intros Hr. pose proof (reachable_timers_ok s Hr) as Ht.
  assert (Hc : ∀ ra r, t_recs (ts s) !! ra = Some r → count_of (wg_n (p_runs r)) = Z.b2z (p_inFlight r)).
  { intros ra r Hra. destruct (tv_runs _ Ht ra r Hra) as [b ->]. apply word_count. unfold WAITER_BIT. destruct (p_inFlight r); simpl; lia. }
  split_and!; [apply Ht|..].
  - intros ra (r & Hra & Hf)%(tv_flight _ Ht). exists r. split; [done|]. by rewrite (Hc ra r Hra), Hf.
  - intros ra r Hra Hn. rewrite (Hc ra r Hra). destruct (p_inFlight r) eqn:E; [|done]. destruct Hn.
    apply (tv_flight _ Ht). by exists r.
Qed.

(** The next event does not lie behind the clock. *)
Lemma next_at_level_ge w l x : (0 ≤ l) → next_at_level w l = Some x → w_tick w ≤ x.
Proof.
  intros Hl. unfold next_at_level. repeat case_match; try done; intros [= <-].
  - pose proof (slot_mask_range (NextOccupied (occ_at w l) (Z.land (Z.shiftr (w_tick w) (kSlotBits * l)) kSlotMask) -
      Z.land (Z.shiftr (w_tick w) (kSlotBits * l)) kSlotMask)) as Hm.
    assert (0 ≤ LevelGranularity l) by (unfold LevelGranularity, kSlotBits; apply Z.shiftl_nonneg; lia). nia.
  - match goal with |- _ ≤ _ + Z.land ?a kSlotMask * _ => pose proof (slot_mask_range a) as Hm end.
    assert (0 ≤ LevelGranularity l) by (unfold LevelGranularity, kSlotBits; apply Z.shiftl_nonneg; lia).
    assert (w_tick w ≤ Z.shiftl (Z.shiftr (w_tick w) (kSlotBits * l) + 1) (kSlotBits * l)); [|nia].
    unfold kSlotBits. rewrite Z.shiftl_mul_pow2, Z.shiftr_div_pow2 by lia.
    assert (0 < 2 ^ (8 * l)) by (apply Z.pow_pos_nonneg; lia).
    pose proof (Z.mul_succ_div_gt (w_tick w) (2 ^ (8 * l)) ltac:(lia)). nia.
Qed.

Lemma NextEventTick_ge w : 0 ≤ NextEventTick w → w_tick w ≤ NextEventTick w.
Proof.
  unfold NextEventTick. assert (Hgen : ∀ ls b, (∀ l, l ∈ ls → 0 ≤ l) → (0 ≤ b → w_tick w ≤ b) →
    0 ≤ fold_left (λ best l, better best (next_at_level w l)) ls b → w_tick w ≤ fold_left (λ best l, better best (next_at_level w l)) ls b).
  { induction ls as [|l ls IH]; intros b Hl Hb; [done|]. cbn [fold_left]. apply IH; [set_solver|]. unfold better.
    destruct (next_at_level w l) as [x|] eqn:E; [|done]. apply next_at_level_ge in E; [|set_solver]. by case_match. }
  apply Hgen; [|done]. intros l Hl%elem_of_seqZ. lia.
Qed.

(** a one-shot timer never fires early.  If a timer armed with a positive delay at
    time [t0] (so that [promise] records [t0] plus the delay) is taken out of the wheel by a
    fire that read the clock as [now], then [now] is at least [t0] plus the delay. *)
Theorem timer_never_early s now clk ejs fired t' i p :
  reachable tinit tstep s → clock s ≤ now → NextEventTick (t_wheel (ts s)) ≤ NowTick now (ts s) →
  0 ≤ NextEventTick (t_wheel (ts s)) →
  FireStepLocked clk (NextEventTick (t_wheel (ts s))) (ts s) = (ejs, fired, t') →
  promise s !! i = Some p → armed (t_wheel (ts s)) i → e_periodic (ent (t_wheel (ts s)) i) = 0 →
  ¬ armed (t_wheel t') i → p ≤ now.
Proof.
  intros Hr Hn Hnext H0 Hf Hp Ha Hper Hna. pose proof (NextEventTick_ge _ H0) as Htk. pose proof (reachable_timers_ok s Hr) as [T1 T2 [T3 T4] T5 T6 T7 T8 T9].
  destruct (fire_step_ok _ _ _ _ _ _ T1 T2 Hf) as (t1 & [F1 F2 F3 F4 F5] & _ & _ & _ & _ & E4).
  destruct (advance_qinv (NextEventTick (t_wheel (ts s))) _ T1) as (_ & Har0 & Hpay0 & Htick0 & _).
  cbn [set_wheel t_wheel] in F3, F4, F5. set (w0 := AdvanceTo _ _) in *.
  destruct (pay_fields _ _ i (Hpay0 i)) as (_ & E2 & _).
  assert (Hd : e_deadline (ent (t_wheel (ts s)) i) ≤ NowTick now (ts s)).
  { destruct (decide (w_tick w0 < e_deadline (ent w0 i))) as [Hlt|]; [|rewrite <- E2; lia]. destruct Hna.
    destruct (F4 i) as (H1 & _); [by apply Har0|done|]. by destruct E4 as [-> | ->]. }
  pose proof (NowTick_le now (ts s) ltac:(lia) ltac:(lia)) as [_ Hnow]. specialize (T9 i p Hp Ha Hper). rewrite T3 in *. lia.
Qed.

(** a periodic keeps to its grid.  Handling the grid point [p_due] at time [now] moves
    the next due time by whole intervals, to the first grid point after [now]; each point
    passed over is either the instance launched or added to the counts of skipped points,
    and an instance is launched exactly when none is in flight. *)
Theorem periodic_grid now r :
  0 < p_interval r → (0 ≤ p_totalSkipped r) →
  p_totalSkipped r + grid_passed now (p_due r) (p_interval r) + 1 < 2 ^ 64 →
  let f := fire_record now r in
  f.1 = negb (p_inFlight r) ∧ p_inFlight f.2 = true ∧
  p_due f.2 = p_due r + p_interval r * (Z.b2z f.1 + (p_totalSkipped f.2 - p_totalSkipped r)) ∧
  now < p_due f.2 ∧ (p_due r ≤ now → p_due f.2 ≤ now + p_interval r).
Proof.
  intros Hi Hs Hb. unfold fire_record. cbn [fst snd p_inFlight p_due p_totalSkipped].
  assert (Hp : (0 ≤ grid_passed now (p_due r) (p_interval r)) ∧
    (now < p_due r + (grid_passed now (p_due r) (p_interval r) + 1) * p_interval r) ∧
    (p_due r ≤ now → p_due r + grid_passed now (p_due r) (p_interval r) * p_interval r ≤ now)).
  { unfold grid_passed. destruct (0 <? now - p_due r) eqn:E; [apply Z.ltb_lt in E|apply Z.ltb_ge in E; lia].
    rewrite Z.quot_div_nonneg by lia. pose proof (Z.div_mod (now - p_due r) (p_interval r) ltac:(lia)).
    pose proof (Z.mod_pos_bound (now - p_due r) (p_interval r) Hi). split; [apply Z.div_pos; lia|]. nia. }
  destruct Hp as (Hp0 & Hp1 & Hp2). set (k := grid_passed now (p_due r) (p_interval r)) in *.
  split_and!; [done|done| |done|intros H; specialize (Hp2 H); lia].
  rewrite u64_small by (destruct (negb (p_inFlight r)); lia). destruct (p_inFlight r); simpl; lia.
Qed.
