(* ===== verification/TimerTime.v ===== *)
(** * Timers on time, and two ways to be late (src/Timer.cpp)

    Where an entry must stand in the wheel to be reached at its deadline, and when the
    operations keep it there.  Shown: as long as no arm moves the clock over a pending event
    and no empty fire pushes the clock onto a multiple of 256 ticks, the timer thread never
    sleeps past an armed deadline; and a concrete execution for each of the two exceptions
    in which an armed timer is left far behind the clock. *)

From S2P Require Import Prelude WaitGroups TimerWheel TimerQueue.

(** ** Standing where the clock will pass *)

Definition gran (l : Z) : Z := 256 ^ l.

Definition ontime (c d : Z) (p : Z * Z) : Prop :=
  (p.1 = 0 ∧ p.2 = (Z.max d c) `mod` 256 ∧ Z.max d c < c + 256) ∨
  ((1 ≤ p.1 < 4) ∧ ∃ q, (c / gran p.1 < q ≤ c / gran p.1 + 256) ∧ p.2 = q `mod` 256 ∧ q * gran p.1 ≤ d).

Lemma gran_pos l : 0 ≤ l → 0 < gran l.
Proof. intros Hl. unfold gran. apply Z.pow_pos_nonneg; lia. Qed.

Lemma shiftr_gran x l : 0 ≤ l → Z.shiftr x (kSlotBits * l) = x / gran l.
Proof.
  intros Hl. unfold kSlotBits, gran. rewrite Z.shiftr_div_pow2 by lia. by rewrite Z.pow_mul_r by lia.
Qed.

Lemma land_slot x : Z.land x kSlotMask = x `mod` 256.
Proof. change kSlotMask with (Z.ones 8). by rewrite Z.land_ones by lia. Qed.

Lemma level_gran l : 0 ≤ l → LevelGranularity l = gran l.
Proof. intros Hl. unfold LevelGranularity, kSlotBits, gran. rewrite Z.shiftl_1_l. by rewrite Z.pow_mul_r by lia. Qed.

Lemma gran_succ l : 0 ≤ l → gran (l + 1) = 256 * gran l.
Proof. intros Hl. unfold gran. rewrite Z.pow_add_r by lia. lia. Qed.

(** A deadline between one and 256 slots of level [l] ahead. *)
Lemma level_range c d l :
  0 ≤ l → (gran l ≤ d - c < gran (l + 1)) →
  (c / gran l < d / gran l ≤ c / gran l + 256) ∧ d / gran l * gran l ≤ d.
Proof.
  intros Hl Hd. pose proof (gran_pos l Hl) as Hg. rewrite gran_succ in Hd by done.
  pose proof (Z.div_mod c (gran l) ltac:(lia)). pose proof (Z.mod_pos_bound c (gran l) Hg).
  pose proof (Z.div_mod d (gran l) ltac:(lia)). pose proof (Z.mod_pos_bound d (gran l) Hg). nia.
Qed.

Lemma place_ontime c d : ontime c d (place_slot c d).
Proof.
  unfold place_slot. rewrite !level_gran by lia. change (LevelGranularity 1) with (gran 1).
  destruct (d - c <=? 0) eqn:E0; [apply Z.leb_le in E0|apply Z.leb_gt in E0].
  { left. cbn [fst snd]. rewrite Z.max_r by lia. split_and!; [done|apply land_slot|lia]. }
  destruct (d - c <? gran 1) eqn:E1; [apply Z.ltb_lt in E1|apply Z.ltb_ge in E1].
  { left. cbn [fst snd]. change (gran 1) with 256 in E1. rewrite Z.max_l by lia. split_and!; [done|apply land_slot|lia]. }
  right. destruct (d - c <? gran 2) eqn:E2; [apply Z.ltb_lt in E2|apply Z.ltb_ge in E2].
  { cbn [fst snd]. split; [lia|]. exists (d / gran 1). rewrite shiftr_gran, land_slot by lia.
    destruct (level_range c d 1) as [H1 H2]; [lia|done|]. done. }
  destruct (d - c <? gran 3) eqn:E3; [apply Z.ltb_lt in E3|apply Z.ltb_ge in E3].
  { cbn [fst snd]. split; [lia|]. exists (d / gran 2). rewrite shiftr_gran, land_slot by lia.
    destruct (level_range c d 2) as [H1 H2]; [lia|done|]. done. }
  destruct (d - c <? gran 4) eqn:E4; [apply Z.ltb_lt in E4|apply Z.ltb_ge in E4].
  { cbn [fst snd]. split; [lia|]. exists (d / gran 3). rewrite shiftr_gran, land_slot by lia.
    destruct (level_range c d 3) as [H1 H2]; [lia|done|]. done. }
  change (kLevels - 1) with 3. cbn [fst snd]. split; [lia|]. exists ((c + kMaxTicks - 1) / gran 3).
  rewrite shiftr_gran, land_slot by lia. destruct (level_range c (c + kMaxTicks - 1) 3) as [H1 H2]; [lia| |].
  - change (gran (3 + 1)) with 4294967296. change (gran 3) with 16777216. change kMaxTicks with 4294967296. lia.
  - split_and!; [lia|lia|done|]. change (gran 4) with kMaxTicks in E4. lia.
Qed.

(** The same place, from a later clock that has not reached it. *)
Lemma ontime_later c c' d p :
  ontime c d p → (0 ≤ c ≤ c') → (p.1 = 0 → c' ≤ Z.max d c) →
  (1 ≤ p.1 → ∀ q, (c / gran p.1 < q ≤ c / gran p.1 + 256) → p.2 = q `mod` 256 → c' / gran p.1 < q) → ontime c' d p.
Proof.
  intros [(H1 & H2 & H3)|(H1 & q & H2 & H3 & H4)] Hc H0 Hl.
  - left. specialize (H0 H1). replace (Z.max d c') with (Z.max d c) by lia. split_and!; [done|done|lia].
  - right. split; [done|]. exists q. pose proof (gran_pos p.1 ltac:(lia)).
    assert (c / gran p.1 ≤ c' / gran p.1) by (apply Z.div_le_mono; lia). specialize (Hl ltac:(lia) q H2 H3). split_and!; [lia|lia|done|done].
Qed.

(** Equal times at one level are equal at the coarser ones. *)
Lemma div_coarser c c' l l' : (0 ≤ l ≤ l') → c / gran l = c' / gran l → c / gran l' = c' / gran l'.
Proof.
  intros Hl E. replace (gran l') with (gran l * gran (l' - l)) by (unfold gran; rewrite <- Z.pow_add_r by lia; f_equal; lia).
  pose proof (gran_pos l ltac:(lia)). pose proof (gran_pos (l' - l) ltac:(lia)).
  rewrite <- !Z.div_div by lia. by rewrite E.
Qed.

Lemma visited_mem from to q : (from < q ≤ to) → q `mod` 256 ∈ visited from to.
Proof.
  intros Hq. unfold visited. destruct (kSlots <=? to - from).
  - apply elem_of_seqZ. unfold kSlots. pose proof (Z.mod_pos_bound q 256 ltac:(lia)). lia.
  - apply list_elem_of_fmap. exists (q - from). rewrite land_slot, elem_of_seqZ. split; [f_equal; lia|lia].
Qed.

Lemma advance_levels_ontime n l from0 w :
  wok w → (1 ≤ l) → l + Z.of_nat n = 4 → (0 ≤ from0 ≤ w_tick w) →
  ∀ j, exists_in w j →
    ontime (w_tick w) (e_deadline (ent w j)) (posn w j) ∨
    ontime from0 (e_deadline (ent w j)) (posn w j) ∧ l ≤ (posn w j).1 →
    ontime (w_tick w) (e_deadline (ent w j)) (posn (advance_levels n l from0 (w_tick w) w) j).
Proof.
  revert l w. induction n as [|n IH]; intros l w Hw Hl Hn Hf j Hj Hor; cbn [advance_levels].
  { destruct Hor as [?|[[(H1 & _)|(H1 & _)] H2]]; [done|lia|lia]. }
  rewrite !shiftr_gran by lia. destruct (_ =? _) eqn:E; [apply Z.eqb_eq in E|].
  - destruct Hor as [?|[H1 H2]]; [done|]. apply (ontime_later from0); [done|lia|intros ?; lia|].
    intros _ q Hq _. rewrite <- (div_coarser from0 (w_tick w) l (posn w j).1 ltac:(lia) E). lia.
  - set (P := λ i p, ontime (w_tick w) (e_deadline (ent w i)) p ∨ ontime from0 (e_deadline (ent w i)) p ∧ l + 1 ≤ p.1).
    destruct (visit_ok P l (visited (from0 / gran l) (w_tick w / gran l)) w) as (V1 & V2 & V3 & _).
    + done.
    + lia.
    + apply visited_range.
    + intros i _. left. apply place_ontime.
    + set (w1 := fold_left _ _ _) in *. specialize (IH (l + 1) w1 V1 ltac:(lia) ltac:(lia)).
      rewrite (mv_tick _ _ V2) in IH. specialize (IH Hf j (proj2 (mv_dom _ _ V2 j) Hj)).
      destruct (pay_gen _ _ j V2) as (_ & _ & Ed & _). rewrite Ed in IH. apply IH. apply (V3 j Hj).
      destruct Hor as [?|[H1 H2]]; [by left; left|]. destruct (decide (l < (posn w j).1)) as [Hlt|Hge]; [left; right; split; [done|lia]|].
      assert (Heq : (posn w j).1 = l) by lia. pose proof H1 as [(H3 & _)|(H3 & q & H4 & H5 & H6)]; [lia|]. rewrite Heq in *.
      destruct (decide (q ≤ w_tick w / gran l)) as [Hle|Hgt].
      * right. split; [done|]. rewrite H5. apply visited_mem. lia.
      * left. left. apply (ontime_later from0); [done|lia|intros ?; lia|]. rewrite Heq. intros _ q' Hq' Hs'. 
        assert (q' = q); [|lia]. rewrite H5 in Hs'. pose proof (Z.div_mod q 256 ltac:(lia)). pose proof (Z.div_mod q' 256 ltac:(lia)). lia.
Qed.

(** Everything armed stands where the clock will pass. *)
Definition punctual (w : wheel) : Prop :=
  ∀ j, armed w j → ontime (w_tick w) (e_deadline (ent w j)) (posn w j).

Lemma advance_punctual target w :
  wok w → punctual w → 0 ≤ w_tick w →
  (∀ j, armed w j → (posn w j).1 = 0 → target ≤ Z.max (e_deadline (ent w j)) (w_tick w)) →
  punctual (AdvanceTo target w).
Proof.
  intros Hw Hp H0 Hskip. destruct (AdvanceTo_ok target w Hw) as (A1 & A2 & A3). intros j [Hj Hl].
  apply (mv_dom _ _ A2) in Hj. change (exists_in (set_tick _ w) j) with (exists_in w j) in Hj.
  apply A3 in Hl; [|done]. pose proof (conj Hj Hl : armed w j) as Ha. specialize (Hp j Ha). specialize (Hskip j Ha).
  rewrite (mv_tick _ _ A2). destruct (pay_gen _ _ j A2) as (_ & _ & Ed & _). rewrite Ed.
  change (e_deadline (ent (set_tick _ w) j)) with (e_deadline (ent w j)). cbn [w_tick set_tick].
  unfold AdvanceTo. destruct (target <=? w_tick w) eqn:E; [apply Z.leb_le in E; by rewrite Z.max_r by lia|].
  apply Z.leb_gt in E. rewrite Z.max_l by lia. set (w0 := set_tick target w).
  assert (Hw0 : wok w0) by (by apply (wok_same w)).
  apply (advance_levels_ontime 3 1 (w_tick w) w0); try done; [simpl; lia|].
  change (posn w0 j) with (posn w j). change (e_deadline (ent w0 j)) with (e_deadline (ent w j)). change (w_tick w0) with target.
  destruct (decide (1 ≤ (posn w j).1)) as [|Hn]; [by right|left]. pose proof Hp as [(H1 & _)|(H1 & _)]; [|lia].
  apply (ontime_later (w_tick w)); [done|lia|by apply Hskip|lia].
Qed.

(** At its deadline an entry stands in the slot that is walked. *)
Lemma ontime_due c d p : 0 ≤ c → ontime c d p → d ≤ c → p = (0, Z.land c kSlotMask).
Proof.
  intros Hc [(H1 & H2 & _)|(H1 & q & H2 & _ & H4)] Hd.
  - rewrite Z.max_r in H2 by done. destruct p as [l s]. simpl in *. by rewrite land_slot, H1, H2.
  - exfalso. pose proof (gran_pos p.1 ltac:(lia)) as Hg. pose proof (Z.mul_succ_div_gt c (gran p.1) Hg). nia.
Qed.

(** ** The next event *)

Lemma marked_level w l s : marked (occ_at w l) s = true → (0 ≤ s < 256) → LevelEmpty w l = false.
Proof.
  intros Hm Hs. unfold LevelEmpty. apply not_true_iff_false. intros Hf. rewrite forallb_forall in Hf.
  unfold marked in Hm. assert (Hz : occ_at w l (Z.shiftr s 6) = 0).
  { apply Z.eqb_eq, Hf, list_elem_of_In, elem_of_seqZ. rewrite Z.shiftr_div_pow2 by lia. change kOccWords with 4. change (2 ^ 6) with 64.
    split; [apply Z.div_pos; lia|apply Z.div_lt_upper_bound; lia]. }
  by rewrite Hz, Z.bits_0 in Hm.
Qed.

(** The search from [from] finds a slot no further than a marked one. *)
Lemma next_occupied_le w L l from m :
  linv w L → (0 ≤ from < 256) → (0 ≤ m < 256) → marked (occ_at w l) ((from + m) `mod` 256) = true →
  let s := NextOccupied (occ_at w l) from in s ≠ kSlots ∧ Z.land (s - from) kSlotMask ≤ m.
Proof.
  intros Hl Hf Hm Hb. pose proof (NextOccupied_first (occ_at w l) from (li_occr _ _ Hl l) Hf) as Hn. cbv zeta.
  set (s := NextOccupied (occ_at w l) from) in *.
  destruct Hn as [[_ Hn]|(k & Hk & Hs & _ & Hn)]; [rewrite Hn in Hb by lia; done|].
  assert (Hkm : k ≤ m) by (destruct (decide (k ≤ m)); [done|]; rewrite Hn in Hb by lia; done).
  pose proof (Z.mod_pos_bound (from + k) 256 ltac:(lia)). split; [unfold kSlots; lia|].
  rewrite land_slot, Hs. rewrite Zminus_mod_idemp_l. replace (from + k - from) with k by lia. rewrite Z.mod_small; lia.
Qed.

Lemma next_at_level_le w j :
  wok w → 0 ≤ w_tick w → armed w j → ontime (w_tick w) (e_deadline (ent w j)) (posn w j) →
  ∃ x, next_at_level w (posn w j).1 = Some x ∧ x ≤ Z.max (e_deadline (ent w j)) (w_tick w).
Proof.
  intros [L Hl] H0 [Hj Hlev] Ho. set (l := (posn w j).1) in *. set (c := w_tick w) in *. set (d := e_deadline (ent w j)) in *.
  destruct (li_pos _ _ Hl j Hj) as [?|Hv]; [lia|].
  assert (Hm : marked (occ_at w l) (posn w j).2 = true).
  { rewrite (li_occ _ _ Hl) by done. apply negb_true_iff, bool_decide_eq_false. intros E.
    apply (not_elem_of_nil j). rewrite <- E. by apply (li_in _ _ Hl). }
  unfold next_at_level. rewrite (marked_level _ _ _ Hm) by apply Hv. assert (Hl0 : 0 ≤ l) by exact Hlev. rewrite shiftr_gran by done. fold c.
  rewrite !land_slot. pose proof (Z.mod_pos_bound (c / gran l) 256 ltac:(lia)) as Hcr.
  destruct Ho as [(H1 & H2 & H3)|(H1 & q & H2 & H3 & H4)]; fold l in H1.
  - rewrite H1 in *. change (0 =? 0) with true. cbv iota. change (gran 0) with 1 in *. rewrite Z.div_1_r in *.
    destruct (next_occupied_le w L 0 (c `mod` 256) (Z.max d c - c) Hl Hcr ltac:(lia)) as [N1 N2].
    { rewrite Z.add_mod_idemp_l by lia. replace (c + (Z.max d c - c)) with (Z.max d c) by lia. by rewrite <- H2. }
    apply Z.eqb_neq in N1 as ->. eexists. split; [done|]. change (LevelGranularity 0) with 1. rewrite land_slot in N2. lia.
  - assert ((l =? 0) = false) as -> by (apply Z.eqb_neq; lia). fold l in H2, H3, H4. pose proof (gran_pos l ltac:(lia)) as Hg.
    rewrite (Z.add_mod_idemp_l (c / gran l) 1) by lia. pose proof (Z.mod_pos_bound (c / gran l + 1) 256 ltac:(lia)) as Hfr.
    destruct (next_occupied_le w L l ((c / gran l + 1) `mod` 256) (q - c / gran l - 1) Hl Hfr ltac:(lia)) as [N1 N2].
    { rewrite Z.add_mod_idemp_l by lia. replace (c / gran l + 1 + (q - c / gran l - 1)) with q by lia. by rewrite <- H3. }
    apply Z.eqb_neq in N1 as ->. eexists. split; [done|]. rewrite level_gran by done. rewrite land_slot in N2.
    rewrite Z.shiftl_mul_pow2 by (unfold kSlotBits; lia).
    replace (2 ^ (kSlotBits * l)) with (gran l) by (unfold gran, kSlotBits; by rewrite Z.pow_mul_r by lia). nia.
Qed.

Lemma NextEventTick_le w l x :
  0 ≤ w_tick w → (0 ≤ l < 4) → next_at_level w l = Some x → (0 ≤ NextEventTick w ≤ x).
Proof.
  intros H0 Hl Hx. unfold NextEventTick.
  assert (Hgen : ∀ ls b, (∀ k, k ∈ ls → 0 ≤ k) → let r := fold_left (λ best l, better best (next_at_level w l)) ls b in
    (0 ≤ b → (0 ≤ r ≤ b)) ∧ (l ∈ ls → (0 ≤ r ≤ x))).
  { clear Hl. induction ls as [|k ls IH]; intros b Hk; [split; [cbn; lia|by intros ?%not_elem_of_nil]|]. cbn [fold_left].
    destruct (IH (better b (next_at_level w k)) ltac:(set_solver)) as [I1 I2]. cbv zeta in *. unfold better in *. split.
    - intros Hb. destruct (next_at_level w k) as [y|] eqn:E; [|by apply I1]. apply next_at_level_ge in E; [|set_solver].
      destruct (b <? 0) eqn:Eb; [apply Z.ltb_lt in Eb; lia|]. cbn [orb] in *. destruct (y <? b) eqn:Ey; [apply Z.ltb_lt in Ey|]; lia.
    - intros [<-|Hin]%elem_of_cons; [|by apply I2]. rewrite Hx in *. apply next_at_level_ge in Hx; [|set_solver].
      destruct ((b <? 0) || (x <? b)) eqn:E; [lia|]. apply orb_false_iff in E as [E1 E2].
      apply Z.ltb_ge in E1, E2. lia. }
  apply Hgen; [intros k Hk%elem_of_seqZ; lia|]. apply elem_of_seqZ. unfold kLevels. lia.
Qed.

Lemma next_event_punctual w j :
  wok w → 0 ≤ w_tick w → punctual w → armed w j →
  (0 ≤ NextEventTick w ≤ Z.max (e_deadline (ent w j)) (w_tick w)).
Proof.
  intros Hw H0 Hp Ha. destruct (next_at_level_le w j Hw H0 Ha (Hp j Ha)) as (x & Hx & Hle).
  destruct Ha as [Hj Hl]. destruct Hw as [L HL]. destruct (li_pos _ _ HL j Hj) as [?|[Hv _]]; [lia|].
  pose proof (NextEventTick_le w _ x H0 Hv Hx). lia.
Qed.

(** ** Keeping it so *)

Lemma punctual_others i w w' :
  punctual w → others i w w' → (armed w' i → ontime (w_tick w) (e_deadline (ent w' i)) (posn w' i)) → punctual w'.
Proof.
  intros Hp Ho Hi j Hj. rewrite (ot_tick _ _ _ Ho). destruct (decide (j = i)) as [->|Hne]; [by apply Hi|].
  destruct (others_pay _ _ _ _ Ho Hne) as (_ & -> & _). rewrite (ot_pos _ _ _ Ho j Hne). apply Hp.
  by apply (others_armed _ _ _ _ Ho Hne).
Qed.

Lemma arm_punctual w d tok ej ctx per :
  qinv w → w_size w < kNil → punctual w → punctual (arm_entry d tok ej ctx per w).2.
Proof.
  intros Hq Hs Hp. destruct (arm_ok w d tok ej ctx per Hq Hs) as (_ & Ho & _ & _ & Hpos & Hd & _).
  eapply punctual_others; [done|done|]. intros _. rewrite Hpos, Hd. apply place_ontime.
Qed.

Lemma drop_punctual w i : qinv w → armed w i → punctual w → punctual (drop_entry i w).
Proof.
  intros Hq [Hi Hl] Hp. destruct (drop_ok w i Hq Hi Hl) as (_ & Ho & Hl' & _).
  eapply punctual_others; [done|done|]. intros [_ ?]. lia.
Qed.

Lemma fire_periodic_punctual now i t :
  qinv (t_wheel t) → rinv (t_wheel t) (t_recs t) → armed (t_wheel t) i → e_periodic (ent (t_wheel t) i) ≠ 0 →
  punctual (t_wheel t) →
  punctual (t_wheel (FirePeriodicLocked now i t).2) ∧ armed (t_wheel (FirePeriodicLocked now i t).2) i ∧
  ∃ r, 0 < p_interval r ∧ e_deadline (ent (t_wheel (FirePeriodicLocked now i t).2) i) = TickFor (p_due (fire_record now r).2) t.
Proof.
  intros Hq Hr Ha Hp Hpu. destruct (ri_entry _ _ Hr i Ha Hp) as (r & Hrec & Hri). unfold FirePeriodicLocked. rewrite Hrec.
  cbv zeta. set (d := TickFor _ t). change (Place i d _) with (rearm i d (t_wheel t)).
  destruct (rearm_ok (t_wheel t) i d Hq Ha) as (_ & Ho & Ha' & Hpos & Hd & _). cbn [fst snd t_wheel set_wheel]. split_and!; [|done|].
  - eapply punctual_others; [done|exact Ho|]. intros _. rewrite Hpos, Hd. apply place_ontime.
  - exists r. split; [by apply (ri_live _ _ Hr _ _ Hrec)|done].
Qed.

(** After a fire the next grid point lies ahead of the clock. *)
Lemma fire_record_due now r : 0 < p_interval r → now < p_due (fire_record now r).2.
Proof.
  intros Hi. unfold fire_record. cbn [snd p_due]. unfold grid_passed.
  destruct (0 <? now - p_due r) eqn:E; [apply Z.ltb_lt in E|apply Z.ltb_ge in E; lia].
  rewrite Z.quot_div_nonneg by lia. pose proof (Z.mul_succ_div_gt (now - p_due r) (p_interval r) Hi). nia.
Qed.

(** The walk of the slot: the places stay right; and when it neither ejects nor launches,
    every entry it passed has its deadline ahead. *)
Lemma fire_loop_punctual fuel clk i R ejs fired t :
  qinv (t_wheel t) → rinv (t_wheel t) (t_recs t) → nchain (ent (t_wheel t)) i R → NoDup R →
  (∀ y, y ∈ R → armed (t_wheel t) y) → punctual (t_wheel t) →
  (∀ x ns, clk x < ns → w_tick (t_wheel t) < TickFor ns t) → (length R < fuel)%nat →
  let f := fire_loop fuel clk i ejs fired t in
  punctual (t_wheel f.2) ∧ (∃ e, f.1.1 = ejs ++ e) ∧ (∃ e, f.1.2 = fired ++ e) ∧
  (f.1.1 = [] → f.1.2 = [] → ∀ y, y ∈ R → w_tick (t_wheel t) < e_deadline (ent (t_wheel f.2) y)).
Proof.
  revert i R ejs fired t. induction fuel as [|fuel IH]; intros i R ejs fired t Hq Hr Hc Hnd HR Hpu Hclk Hf; [lia|]. cbn [fire_loop].
  assert (Hbase : R = [] ∨ ejs ≠ [] ∨ fired ≠ [] → punctual (t_wheel t) ∧ (∃ e, ejs = ejs ++ e) ∧ (∃ e, fired = fired ++ e) ∧
    (ejs = [] → fired = [] → ∀ y, y ∈ R → w_tick (t_wheel t) < e_deadline (ent (t_wheel t) y))).
  { intros Hb. split_and!; [done|exists []; by rewrite app_nil_r|exists []; by rewrite app_nil_r|].
    intros E1 E2 y Hy. destruct Hb as [->|[?|?]]; [by apply not_elem_of_nil in Hy|done|done]. }
  destruct R as [|x R]; [simpl in Hc; subst i; rewrite Z.eqb_refl; simpl; apply Hbase; by left|].
  destruct Hc as (-> & Hk & Hc). destruct (_ || _) eqn:Eb.
  { apply Hbase. right. apply orb_true_iff in Eb as [Eb|Eb]; [apply Z.eqb_eq in Eb; done|].
    destruct ejs; [|by left]. destruct fired; [|by right]. done. }
  clear Hbase Eb. assert (Hx : armed (t_wheel t) x) by (apply HR; set_solver).
  pose proof (prev_passed _ _ _ (qi_ok _ Hq) Hx Hc Hnd) as Hprev. apply NoDup_cons in Hnd as [HxR Hnd]. simpl in Hf.
  assert (Hstep : ∀ ejs' fired' t', fired_ok t t' → others x (t_wheel t) (t_wheel t') → punctual (t_wheel t') →
    (∀ j, j ≠ x → j ≠ e_prev (ent (t_wheel t) x) → e_next (ent (t_wheel t') j) = e_next (ent (t_wheel t) j)) →
    (∃ e, ejs' = ejs ++ e) → (∃ e, fired' = fired ++ e) →
    (ejs' = [] → fired' = [] → armed (t_wheel t') x ∧ w_tick (t_wheel t) < e_deadline (ent (t_wheel t') x)) →
    let f := fire_loop fuel clk (e_next (ent (t_wheel t) x)) ejs' fired' t' in
    punctual (t_wheel f.2) ∧ (∃ e, f.1.1 = ejs ++ e) ∧ (∃ e, f.1.2 = fired ++ e) ∧
    (f.1.1 = [] → f.1.2 = [] → ∀ y, y ∈ x :: R → w_tick (t_wheel t) < e_deadline (ent (t_wheel f.2) y))).
  { intros ejs' fired' t' Hok Ho Hpu' Hn [e1 He1] [e2 He2] Hlate f. pose proof Hok as [[F1 F1'] (F2 & F2' & _) [F3 F3'] _ _].
    assert (Hc' : nchain (ent (t_wheel t')) (e_next (ent (t_wheel t) x)) R).
    { eapply nchain_ext; [|exact Hc]. intros y Hy. apply Hn; [by intros ->|by intros ->]. }
    assert (HR' : ∀ y, y ∈ R → armed (t_wheel t') y).
    { intros y Hy. apply (others_armed _ _ _ _ Ho); [by intros ->|]. apply HR. set_solver. }
    assert (Hclk' : ∀ y ns, clk y < ns → w_tick (t_wheel t') < TickFor ns t').
    { intros y ns Hy. rewrite F3. unfold TickFor. rewrite F2, F2'. by apply (Hclk y). }
    destruct (IH _ R ejs' fired' t' F1 F1' Hc' Hnd HR' Hpu' Hclk' ltac:(lia)) as (I1 & [e3 I2] & [e4 I3] & I4). fold f in I1, I2, I3, I4.
    split_and!; [done|exists (e1 ++ e3); by rewrite I2, He1, app_assoc|exists (e2 ++ e4); by rewrite I3, He2, app_assoc|].
    intros Ef1 Ef2 y [->|Hy]%elem_of_cons; [|rewrite <- F3; by apply I4].
    destruct Hlate as [Ha Hlt]; [by rewrite Ef1 in I2; destruct ejs'|by rewrite Ef2 in I3; destruct fired'|].
    destruct (fire_loop_ok fuel clk (e_next (ent (t_wheel t) x)) R ejs' fired' t' F1 F1' Hc' Hnd HR') as ([_ _ _ L _] & _).
    fold f in L. destruct (L x Ha) as (_ & _ & Hpay); [by rewrite F3|]. destruct (pay_fields _ _ x Hpay) as (_ & -> & _). done. }
  destruct (e_deadline (ent (t_wheel t) x) <=? w_tick (t_wheel t)) eqn:Ed; [apply Z.leb_le in Ed|apply Z.leb_gt in Ed].
  - destruct (e_periodic (ent (t_wheel t) x) =? 0) eqn:Ep; [apply Z.eqb_eq in Ep|apply Z.eqb_neq in Ep]; cbn [negb andb].
    + apply Hstep.
      * by apply fire_drop_ok.
      * destruct (drop_ok _ x Hq) as (_ & Ho & _); [apply Hx|apply Hx|done].
      * by apply drop_punctual.
      * intros j Hj Hp. by apply drop_next.
      * by eexists.
      * exists []. by rewrite app_nil_r.
      * intros E _. by destruct ejs.
    + destruct (fire_periodic_ok (clk x) x t Hq Hr Hx Ep Ed) as (Hok & Ho & _ & Hn).
      destruct (fire_periodic_punctual (clk x) x t Hq Hr Hx Ep Hpu) as (Hp' & Ha' & r & Hri & Hd). apply Hstep; try done.
      * exists []. by rewrite app_nil_r.
      * destruct (FirePeriodicLocked _ _ _).1; [by eexists|]. exists []. by rewrite app_nil_r.
      * intros _ _. split; [done|]. rewrite Hd. apply (Hclk x). by apply fire_record_due.
  - cbn [andb]. apply Hstep; try done.
    + exists []. by rewrite app_nil_r.
    + exists []. by rewrite app_nil_r.
Qed.

(** One tick on, when nothing is due at this one and the next is no level boundary. *)
Lemma tick_punctual w :
  punctual w → 0 ≤ w_tick w → (w_tick w + 1) `mod` 256 ≠ 0 →
  (∀ j, armed w j → posn w j = (0, Z.land (w_tick w) kSlotMask) → w_tick w < e_deadline (ent w j)) →
  punctual (set_tick (w_tick w + 1) w).
Proof.
  intros Hp H0 Hb Hdue j Hj. change (armed (set_tick (w_tick w + 1) w) j) with (armed w j) in Hj.
  change (posn (set_tick (w_tick w + 1) w) j) with (posn w j). change (ent (set_tick (w_tick w + 1) w) j) with (ent w j).
  cbn [w_tick set_tick]. specialize (Hp j Hj). specialize (Hdue j Hj). apply (ontime_later (w_tick w)); [done|lia|..].
  - intros Hl. destruct (decide (w_tick w < e_deadline (ent w j))) as [|Hge]; [lia|]. exfalso.
    apply Hge, Hdue. by apply (ontime_due _ _ _ H0 Hp ltac:(lia)).
  - intros Hl q Hq _. assert (E : (w_tick w + 1) / gran 1 = w_tick w / gran 1).
    { change (gran 1) with 256. pose proof (Z.div_mod (w_tick w) 256 ltac:(lia)). pose proof (Z.mod_pos_bound (w_tick w) 256 ltac:(lia)).
      pose proof (Z.div_mod (w_tick w + 1) 256 ltac:(lia)). pose proof (Z.mod_pos_bound (w_tick w + 1) 256 ltac:(lia)). lia. }
    rewrite (div_coarser _ _ 1 (posn w j).1 ltac:(lia) E). lia.
Qed.

Lemma TickFor_gt now ns t :
  0 < t_tickNs t → t_epochNs t ≤ now → now < ns → NowTick now t < TickFor ns t.
Proof.
  intros Ht He Hn. pose proof (TickFor_ge ns t Ht). pose proof (NowTick_le now t Ht He). nia.
Qed.

Lemma fire_punctual s now clk ejs fired t' :
  tinv s → punctual (t_wheel (ts s)) → clock s ≤ now → (∀ i, now ≤ clk i) →
  (0 ≤ NextEventTick (t_wheel (ts s)) ≤ NowTick now (ts s)) →
  FireStepLocked clk (NextEventTick (t_wheel (ts s))) (ts s) = (ejs, fired, t') →
  w_tick (t_wheel t') ≤ NextEventTick (t_wheel (ts s)) ∨ w_tick (t_wheel t') `mod` 256 ≠ 0 →
  punctual (t_wheel t').
Proof.
  intros Ht Hp Hn Hclk Hnext Hf Hb. pose proof Ht as [T1 T2 [T3 T4] T5 _ _ _ _].
  set (next := NextEventTick (t_wheel (ts s))) in *. set (w := AdvanceTo next (t_wheel (ts s))) in *.
  destruct (advance_qinv next _ T1) as (Hq0 & Har0 & Hpay0 & Htk0 & Hsz0). fold w in Hq0, Har0, Hpay0, Htk0, Hsz0.
  pose proof (NextEventTick_ge (t_wheel (ts s)) ltac:(fold next; lia)) as Hge. fold next in Hge. rewrite Z.max_l in Htk0 by lia.
  assert (Hp0 : punctual w).
  { apply advance_punctual; [apply T1|done|lia|]. intros j Hj _.
    pose proof (next_event_punctual _ j (qi_ok _ T1) T5 Hp Hj). fold next in H. lia. }
  unfold FireStepLocked in Hf. cbv zeta in Hf. fold next w in Hf. set (t0 := set_wheel w (ts s)) in *.
  assert (Hr0 : rinv w (t_recs (ts s))) by (eapply rinv_wheel; [exact T2|done|]; intros i _; apply (pay_fields _ _ i (Hpay0 i))).
  destruct (qi_ok _ Hq0) as [L Hl]. set (slot := Z.land (w_tick w) kSlotMask) in *.
  assert (Hv : valid_ls 0 slot) by (split; [lia|apply slot_mask_range]). destruct (li_list _ _ Hl 0 slot Hv) as [q Hd].
  pose proof (dlseg_nchain _ _ _ _ _ Hd) as Hch.
  assert (HR : ∀ y, y ∈ L 0 slot → armed (t_wheel t0) y).
  { intros y Hy. apply (li_in _ _ Hl) in Hy as [Hy [= Hy2 _]]; [|done]. split; [exact Hy|]. change (t_wheel t0) with w. lia. }
  assert (Hcl : ∀ x ns, clk x < ns → w_tick (t_wheel t0) < TickFor ns t0).
  { intros x ns Hx. change (TickFor ns t0) with (TickFor ns (ts s)). change (w_tick (t_wheel t0)) with (w_tick w). rewrite Htk0.
    pose proof (TickFor_gt now ns (ts s) ltac:(lia) ltac:(lia) ltac:(specialize (Hclk x); lia)). lia. }
  pose proof (li_length _ _ _ _ Hl Hv) as Hlen.
  pose proof (fire_loop_punctual (Z.to_nat (w_size w) + 1) clk (head_at w 0 slot) (L 0 slot) [] [] t0 Hq0 Hr0 Hch
    (li_nodup _ _ Hl 0 slot Hv) HR Hp0 Hcl ltac:(lia)) as (P1 & _ & _ & P4).
  destruct (fire_loop_ok (Z.to_nat (w_size w) + 1) clk (head_at w 0 slot) (L 0 slot) [] [] t0 Hq0 Hr0 Hch
    (li_nodup _ _ Hl 0 slot Hv) HR) as ([_ _ [F3 _] F4 F5] & _).
  destruct (fire_loop (Z.to_nat (w_size w) + 1) clk (head_at w 0 slot) [] [] t0) as [[e f] t1]. cbn [fst snd] in *.
  change (t_wheel t0) with w in *. destruct e as [|x e]; [destruct f as [|y f]|]; injection Hf as <- <- <-; try exact P1.
  unfold PublishGateLocked in *. cbn [t_wheel set_gate set_wheel] in *. cbn [w_tick set_tick] in Hb.
  destruct Hb as [Hb|Hb]; [rewrite F3, Htk0 in Hb; lia|].
  apply tick_punctual; [done|rewrite F3; lia|done|]. intros j Hj Hpos. rewrite F3.
  destruct (F5 j Hj) as (Hj0 & _). destruct (decide (w_tick w < e_deadline (ent w j))) as [Hlt|Hle].
  - destruct (F4 j Hj0 Hlt) as (_ & _ & Hpay). by destruct (pay_fields _ _ j Hpay) as (_ & -> & _).
  - apply (P4 eq_refl eq_refl j), (li_in _ _ Hl 0 slot j Hv). split; [apply Hj0|].
    apply (ontime_due _ (e_deadline (ent w j))); [lia|by apply Hp0|lia].
Qed.

(** Executions in which no arm (one-shot or periodic) moves the clock past a pending event, and no fire that finds
    nothing to do pushes the clock onto a multiple of 256. *)
Inductive calm_step (s : tstate) : tstate → Prop :=
| cs_calm s' : tstep s s' →
    NextEventTick (t_wheel (ts s)) < 0 ∨ w_tick (t_wheel (ts s')) ≤ NextEventTick (t_wheel (ts s)) → calm_step s s'
| cs_fire now clk ejs fired t' : clock s ≤ now → (∀ i, now ≤ clk i) →
    (0 ≤ NextEventTick (t_wheel (ts s)) ≤ NowTick now (ts s)) →
    FireStepLocked clk (NextEventTick (t_wheel (ts s))) (ts s) = (ejs, fired, t') →
    w_tick (t_wheel t') `mod` 256 ≠ 0 → calm_step s (mkTS t' (flight s ++ fired) (promise s) now).

Lemma calm_tstep s s' : calm_step s s' → tstep s s'.
Proof. intros [s1 H _|now clk ejs fired t' H1 H2 H3 H4 H5]; [done|]. by eapply ts_fire. Qed.

Lemma calm_reachable s : reachable tinit calm_step s → reachable tinit tstep s.
Proof. revert s. apply reachable_ind; [apply reachable_init|]. intros s s' Hr Hst. eapply reachable_step; [done|by apply calm_tstep]. Qed.

Lemma calm_advance s target :
  tinv s → punctual (t_wheel (ts s)) →
  NextEventTick (t_wheel (ts s)) < 0 ∨ Z.max target (w_tick (t_wheel (ts s))) ≤ NextEventTick (t_wheel (ts s)) →
  punctual (AdvanceTo target (t_wheel (ts s))).
Proof.
  intros Ht Hp Hc. apply advance_punctual; [apply Ht|done|apply Ht|]. intros j Hj _.
  pose proof (next_event_punctual _ j (qi_ok _ (tv_q _ Ht)) (tv_tick _ Ht) Hp Hj). lia.
Qed.

Lemma cancel_punctual s ra :
  tinv s → punctual (t_wheel (ts s)) → punctual (t_wheel (CancelPeriodicLocked ra (ts s))).
Proof.
  intros Ht Hp. unfold CancelPeriodicLocked. destruct (t_recs (ts s) !! ra) as [r|] eqn:Hr; [|done].
  destruct (p_entry r =? kNil) eqn:E; [done|]. apply Z.eqb_neq in E.
  destruct (ri_rec _ _ (tv_r _ Ht) ra r Hr E) as [Ha _]. apply drop_punctual; [apply Ht|done|done].
Qed.

Lemma disarm_punctual s h b t' :
  tinv s → punctual (t_wheel (ts s)) → Disarm h (ts s) = (b, t') → punctual (t_wheel t').
Proof.
  intros Ht Hp Hd. destruct b.
  - destruct (Disarm_armed h (ts s) t' (tv_q _ Ht) Hd) as (Ha & Hw & _). rewrite Hw. apply drop_punctual; [apply Ht|done|done].
  - unfold Disarm in Hd. repeat case_match; simplify_eq; done.
Qed.

Lemma calm_punctual s s' : tinv s → punctual (t_wheel (ts s)) → calm_step s s' → punctual (t_wheel (ts s')).
Proof.
  intros Ht Hp [s1 Hst Hc|now clk ejs fired t' H1 H2 H3 H4 H5]; [|eapply fire_punctual; try done; by right].
  destruct Hst as [now1 now2 delay tok ej ctx on h wake t' H1 H2 H3 H4 H5|now1 now2 delay tok ej ctx on wake t' H1 H2 H3 H4
    |h b t' H1 H2|now clk ejs fired t' H1 H2 H3 H4|now H1 H2|u|now1 now2 interval fn ctx lane first on ra t' H1 H2 H3 H4 H5 H6
    |ra|ra n c t' H1 H2|ra stop l1 l2 wake t' H1 H2|ra r H1|ra r H1 H2 H3|ra| |]; cbn [ts] in *; try exact Hp.
  - destruct (Arm_cases _ _ _ _ _ _ _ _ _ _ _ (tv_q _ Ht) H3 H4) as [[? _]|(i & d & _ & _ & _ & _ & Ea & _)]; [done|].
    destruct (advance_qinv (NowTick now1 (ts s)) _ (tv_q _ Ht)) as (Hq & _ & _ & Htk & Hsz).
    destruct (arm_ok _ d tok ej ctx 0 Hq ltac:(by rewrite Hsz)) as (_ & Ho & _). rewrite <- Ea in Ho. cbn [fst snd] in Ho.
    replace (t_wheel t') with (arm_entry d tok ej ctx 0 (AdvanceTo (NowTick now1 (ts s)) (t_wheel (ts s)))).2 by by rewrite <- Ea.
    apply arm_punctual; [done|by rewrite Hsz|]. apply calm_advance; [done|done|].
    rewrite (ot_tick _ _ _ Ho), Htk in Hc. done.
  - destruct (Arm_cases _ _ _ _ _ _ _ _ _ _ _ (tv_q _ Ht) H4 H3) as [[_ ->]|(i & d & Hh & _)]; done.
  - by eapply disarm_punctual.
  - destruct Hc as [?|Hc]; [lia|]. eapply fire_punctual; try done. by left.
  - intros j Hj. change (armed (t_wheel (ts s)) j) in Hj.
    pose proof (next_event_punctual _ j (qi_ok _ (tv_q _ Ht)) (tv_tick _ Ht) Hp Hj). lia.
  - destruct (Start_cases _ _ _ _ _ _ _ _ _ _ _ H4 H6) as (iv & due & i & _ & _ & Ea & _).
    destruct (advance_qinv (NowTick now2 (ts s)) _ (tv_q _ Ht)) as (Hq & _ & _ & Htk & Hsz).
    destruct (arm_ok _ (TickFor due (ts s)) kNone 0 0 ra Hq ltac:(by rewrite Hsz)) as (_ & Ho & _). rewrite <- Ea in Ho. cbn [fst snd] in Ho.
    replace (t_wheel t') with (arm_entry (TickFor due (ts s)) kNone 0 0 ra (AdvanceTo (NowTick now2 (ts s)) (t_wheel (ts s)))).2 by by rewrite <- Ea.
    apply arm_punctual; [done|by rewrite Hsz|]. apply calm_advance; [done|done|].
    rewrite (ot_tick _ _ _ Ho), Htk in Hc. done.
  - by apply cancel_punctual.
  - unfold RunPeriodic_begin in H2. case_match; by injection H2 as <- <- <-.
  - unfold FinishPeriodic in H2.
    assert (Hp1 : punctual (t_wheel (if stop then CancelPeriodicLocked ra (ts s) else ts s))) by (destruct stop; [by apply cancel_punctual|done]).
    repeat case_match; injection H2 as <- <-; exact Hp1.
  - unfold Periodic_Detach. repeat case_match; exact Hp.
  - unfold TimerQueue_Stop. case_match; exact Hp.
Qed.

Lemma reachable_calm s : reachable tinit calm_step s → tinv s ∧ punctual (t_wheel (ts s)).
Proof.
  revert s. apply reachable_ind.
  - intros s Hi. split; [by apply reachable_timers_ok, reachable_init|]. destruct Hi as (now & ->). by intros j [[? ?] _].
  - intros s s' [Ht Hp] Hst. split; [by eapply tinv_step, calm_tstep|by eapply calm_punctual].
Qed.

(** *** The wheel's clock and the real one *)

Lemma NowTick_mono a b t : 0 < t_tickNs t → t_epochNs t ≤ a → a ≤ b → NowTick a t ≤ NowTick b t.
Proof. intros Ht Ha Hb. unfold NowTick. rewrite !Z.quot_div_nonneg by lia. apply Z.div_le_mono; lia. Qed.

(** An operation that leaves the wheel's tick and the configuration alone, or moves the tick
    to the present. *)
Lemma near_to now s t' :
  tinv s → clock s ≤ now → t_tickNs t' = t_tickNs (ts s) → t_epochNs t' = t_epochNs (ts s) →
  w_tick (t_wheel (ts s)) ≤ NowTick (clock s) (ts s) + 1 →
  w_tick (t_wheel t') ≤ Z.max (w_tick (t_wheel (ts s))) (NowTick now (ts s) + 1) → w_tick (t_wheel t') ≤ NowTick now t' + 1.
Proof.
  intros Ht Hn E1 E2 H0 H1. destruct (tv_conf _ Ht) as [C1 C2]. pose proof (NowTick_mono (clock s) now (ts s) ltac:(lia) ltac:(lia) Hn).
  unfold NowTick at 1. rewrite E1, E2. fold (NowTick now (ts s)). lia.
Qed.

Lemma cancel_tick s ra : tinv s → w_tick (t_wheel (CancelPeriodicLocked ra (ts s))) = w_tick (t_wheel (ts s)) ∧
  t_tickNs (CancelPeriodicLocked ra (ts s)) = t_tickNs (ts s) ∧ t_epochNs (CancelPeriodicLocked ra (ts s)) = t_epochNs (ts s).
Proof.
  intros Ht. unfold CancelPeriodicLocked. destruct (t_recs (ts s) !! ra) as [r|] eqn:Hr; [|done].
  destruct (p_entry r =? kNil) eqn:E; [done|]. apply Z.eqb_neq in E. destruct (ri_rec _ _ (tv_r _ Ht) ra r Hr E) as [[Ha1 Ha2] _].
  destruct (drop_ok _ _ (tv_q _ Ht) Ha1 Ha2) as (_ & Ho & _). split; [exact (ot_tick _ _ _ Ho)|done].
Qed.

Lemma fire_tick s clk next ejs fired t' :
  tinv s → (0 ≤ next) → w_tick (t_wheel (ts s)) ≤ next → FireStepLocked clk next (ts s) = (ejs, fired, t') →
  (w_tick (t_wheel t') ≤ next + 1) ∧ t_tickNs t' = t_tickNs (ts s) ∧ t_epochNs t' = t_epochNs (ts s).
Proof.
  intros Ht H0 Hge Hf. pose proof Ht as [T1 T2 [T3 T4] T5 _ _ _ _]. set (w := AdvanceTo next (t_wheel (ts s))) in *.
  destruct (advance_qinv next _ T1) as (Hq0 & Har0 & Hpay0 & Htk0 & Hsz0). fold w in Hq0, Har0, Hpay0, Htk0, Hsz0. rewrite Z.max_l in Htk0 by lia.
  unfold FireStepLocked in Hf. cbv zeta in Hf. fold w in Hf. set (t0 := set_wheel w (ts s)) in *.
  assert (Hr0 : rinv w (t_recs (ts s))) by (eapply rinv_wheel; [exact T2|done|]; intros i _; apply (pay_fields _ _ i (Hpay0 i))).
  destruct (qi_ok _ Hq0) as [L Hl]. set (slot := Z.land (w_tick w) kSlotMask) in *.
  assert (Hv : valid_ls 0 slot) by (split; [lia|apply slot_mask_range]). destruct (li_list _ _ Hl 0 slot Hv) as [q Hd].
  pose proof (dlseg_nchain _ _ _ _ _ Hd) as Hch.
  assert (HR : ∀ y, y ∈ L 0 slot → armed (t_wheel t0) y).
  { intros y Hy. apply (li_in _ _ Hl) in Hy as [Hy [= Hy2 _]]; [|done]. split; [exact Hy|]. change (t_wheel t0) with w. lia. }
  destruct (fire_loop_ok (Z.to_nat (w_size w) + 1) clk (head_at w 0 slot) (L 0 slot) [] [] t0 Hq0 Hr0 Hch
    (li_nodup _ _ Hl 0 slot Hv) HR) as ([_ (F1 & F2 & _) [F3 _] _ _] & _).
  destruct (fire_loop (Z.to_nat (w_size w) + 1) clk (head_at w 0 slot) [] [] t0) as [[e f] t1]. cbn [fst snd] in *.
  change (t_wheel t0) with w in *. destruct e as [|x e]; [destruct f as [|y f]|]; injection Hf as <- <- <-; cbn; split_and!; try done; lia.
Qed.

(** The wheel is never more than one tick ahead of the clock. *)
Lemma near_step s s' :
  tinv s → tstep s s' → w_tick (t_wheel (ts s)) ≤ NowTick (clock s) (ts s) + 1 → w_tick (t_wheel (ts s')) ≤ NowTick (clock s') (ts s') + 1.
Proof.
  intros Ht Hst Hn.
  destruct Hst as [now1 now2 delay tok ej ctx on h wake t' H1 H2 H3 H4 H5|now1 now2 delay tok ej ctx on wake t' H1 H2 H3 H4
    |h b t' H1 H2|now clk ejs fired t' H1 H2 H3 H4|now H1 H2|u|now1 now2 interval fn ctx lane first on ra t' H1 H2 H3 H4 H5 H6
    |ra|ra n c t' H1 H2|ra stop l1 l2 wake t' H1 H2|ra r H1|ra r H1 H2 H3|ra| |]; cbn [ts clock].
  - destruct (tv_conf _ Ht) as [C1 C2]. destruct (Arm_cases _ _ _ _ _ _ _ _ _ _ _ (tv_q _ Ht) H3 H4) as [[? _]|(i & d & _ & _ & _ & _ & Ea & _ & E1 & E2)]; [done|].
    destruct (advance_qinv (NowTick now1 (ts s)) _ (tv_q _ Ht)) as (Hq & _ & _ & Htk & Hsz).
    destruct (arm_ok _ d tok ej ctx 0 Hq ltac:(by rewrite Hsz)) as (_ & Ho & _). rewrite <- Ea in Ho. cbn [fst snd] in Ho.
    apply (near_to now2 s); [done|lia|done|done|done|]. rewrite (ot_tick _ _ _ Ho), Htk. pose proof (NowTick_mono now1 now2 (ts s) ltac:(lia) ltac:(lia) H2). lia.
  - destruct (Arm_cases _ _ _ _ _ _ _ _ _ _ _ (tv_q _ Ht) H4 H3) as [[_ ->]|(i & d & Hh & _)]; [|done]. apply (near_to now2 s); try done; lia.
  - destruct b.
    + destruct (Disarm_armed h (ts s) t' (tv_q _ Ht) H1) as ([Ha1 Ha2] & _ & ->). destruct (drop_ok _ _ (tv_q _ Ht) Ha1 Ha2) as (_ & Ho & _).
      apply (near_to (clock s) s); try done. pose proof (ot_tick _ _ _ Ho) as E. unfold PublishGateLocked. cbn [t_wheel set_gate set_wheel]. lia.
    + unfold Disarm in H1. repeat case_match; simplify_eq; done.
  - pose proof (NextEventTick_ge (t_wheel (ts s)) ltac:(lia)). destruct (fire_tick s clk (NextEventTick (t_wheel (ts s))) ejs fired t' Ht ltac:(lia) ltac:(lia) H4) as (F1 & F2 & F3).
    apply (near_to now s); [done|done|done|done|done|]. lia.
  - apply (near_to now s); try done. cbn. lia.
  - done.
  - destruct (Start_cases _ _ _ _ _ _ _ _ _ _ _ H4 H6) as (iv & due & i & _ & _ & Ea & _ & E1 & E2).
    destruct (advance_qinv (NowTick now2 (ts s)) _ (tv_q _ Ht)) as (Hq & _ & _ & Htk & Hsz).
    destruct (arm_ok _ (TickFor due (ts s)) kNone 0 0 ra Hq ltac:(by rewrite Hsz)) as (_ & Ho & _). rewrite <- Ea in Ho. cbn [fst snd] in Ho.
    apply (near_to now2 s); [done|lia|done|done|done|]. rewrite (ot_tick _ _ _ Ho), Htk. lia.
  - destruct (cancel_tick s ra Ht) as (E1 & E2 & E3). apply (near_to (clock s) s); try done. unfold Periodic_Cancel. cbn. lia.
  - unfold RunPeriodic_begin in H2. case_match; by injection H2 as <- <- <-.
  - destruct (cancel_tick s ra Ht) as (E1 & E2 & E3). unfold FinishPeriodic in H2.
    assert (Hq : w_tick (t_wheel t') = w_tick (t_wheel (ts s)) ∧ t_tickNs t' = t_tickNs (ts s) ∧ t_epochNs t' = t_epochNs (ts s)).
    { destruct stop; repeat case_match; injection H2 as <- <-; done. }
    destruct Hq as (Q1 & Q2 & Q3). apply (near_to (clock s) s); try done. lia.
  - done.
  - done.
  - unfold Periodic_Detach. repeat case_match; done.
  - done.
  - unfold TimerQueue_Stop. case_match; done.
Qed.

Lemma reachable_near s : reachable tinit tstep s → w_tick (t_wheel (ts s)) ≤ NowTick (clock s) (ts s) + 1.
Proof.
  revert s. apply reachable_strong_ind.
  - intros s (now & ->). cbn. unfold NowTick. cbn. rewrite Z.sub_diag. done.
  - intros s s' Hr Hn Hst. eapply near_step; [by apply reachable_timers_ok|done|done].
Qed.

(** C31: Armed timers are reached on time.  In every execution in which no arm moves the
    clock past a pending event and no empty fire pushes it onto a multiple of 256 ticks: for
    each armed timer the next event the clock sleeps toward (and publishes to the workers) is
    no later than the timer's deadline or the wheel's own tick, whichever is later, and the
    wheel's tick is at most one ahead of the clock (an empty fire takes it there): so the next
    event is never more than one tick past both the deadline and the present.  When an event
    at or after its deadline is handled, the timer stands in the very slot that fire walks. *)
Theorem timer_on_time s i :
  reachable tinit calm_step s → armed (t_wheel (ts s)) i →
  let w := t_wheel (ts s) in
  (0 ≤ NextEventTick w ≤ Z.max (e_deadline (ent w i)) (w_tick w)) ∧ (w_tick w ≤ NowTick (clock s) (ts s) + 1) ∧
  (e_deadline (ent w i) ≤ NextEventTick w →
     posn (AdvanceTo (NextEventTick w) w) i = (0, Z.land (w_tick (AdvanceTo (NextEventTick w) w)) kSlotMask)).
Proof.
  intros Hr Ha w. destruct (reachable_calm s Hr) as [Ht Hp]. pose proof (tv_tick _ Ht) as H0. fold w in Ha, Hp, H0.
  pose proof (next_event_punctual w i (qi_ok _ (tv_q _ Ht)) H0 Hp Ha) as Hn. split; [done|].
  split; [by apply reachable_near, calm_reachable|]. intros Hd.
  assert (Hp' : punctual (AdvanceTo (NextEventTick w) w)).
  { apply (calm_advance s); [done|done|]. right. fold w. pose proof (NextEventTick_ge w ltac:(lia)). lia. }
  destruct (advance_qinv (NextEventTick w) w (tv_q _ Ht)) as (_ & Har & Hpay & Htk & _).
  pose proof (NextEventTick_ge w ltac:(lia)). destruct (pay_fields _ _ i (Hpay i)) as (_ & Ed & _).
  apply (ontime_due _ (e_deadline (ent (AdvanceTo (NextEventTick w) w) i))); [lia| |lia].
  apply Hp'. by apply Har.
Qed.

(** ** Concrete executions *)

Inductive tact :=
| TArm (now delay tok : Z) | TDisarm (h : Z) | TFire (now : Z) | TStart (now interval first ra : Z) | TCancel (ra : Z).

Definition texec (a : tact) (s : tstate) : tstate :=
  match a with
  | TArm now delay tok =>
      let '(h, _, t') := Arm now now delay tok 0 0 true (ts s) in
      if (clock s <=? now) && (w_size (t_wheel (ts s)) <? kNil) && negb (h =? 0)
      then mkTS t' (flight s)
        (if 0 <? delay then <[Z.land h 0xFFFFFFFF := now + delay]> (promise s) else delete (Z.land h 0xFFFFFFFF) (promise s)) now
      else s
  | TDisarm h =>
      let '(b, t') := Disarm h (ts s) in
      if e_periodic (ent (t_wheel (ts s)) (Z.land h 0xFFFFFFFF)) =? 0 then mkTS t' (flight s) (promise s) (clock s) else s
  | TFire now =>
      let next := NextEventTick (t_wheel (ts s)) in
      let '(ejs, fired, t') := FireStepLocked (λ _, now) next (ts s) in
      if (clock s <=? now) && (0 <=? next) && (next <=? NowTick now (ts s)) then mkTS t' (flight s ++ fired) (promise s) now else s
  | TStart now interval first ra =>
      let '(r, t') := Periodic_Start now now interval 1 0 0 first true ra (ts s) in
      if (clock s <=? now) && (w_size (t_wheel (ts s)) <? kNil) && negb (ra =? 0) && (r =? ra) &&
         bool_decide (t_recs (ts s) !! ra = None)
      then mkTS t' (flight s) (promise s) now else s
  | TCancel ra => mkTS (Periodic_Cancel ra (ts s)) (flight s) (promise s) (clock s)
  end.

Definition texecs (l : list tact) (s : tstate) : tstate := fold_left (λ s a, texec a s) l s.

Lemma texec_arm s now delay tok :
  texec (TArm now delay tok) s = s ∨ tstep s (texec (TArm now delay tok) s).
Proof.
  cbn [texec]. destruct (Arm _ _ _ _ _ _ _ _) as [[h wake] t'] eqn:E. destruct (_ && _) eqn:Ec; [right|by left].
  apply andb_true_iff in Ec as [[Hc1 Hc2]%andb_true_iff Hc3]. apply Z.leb_le in Hc1. apply Z.ltb_lt in Hc2.
  apply negb_true_iff, Z.eqb_neq in Hc3. eapply ts_arm; [exact Hc1|lia|exact Hc2|exact E|exact Hc3].
Qed.

Lemma texec_rtc a s : rtc tstep s (texec a s).
Proof.
  destruct a as [now delay tok|h|now|now interval first ra|ra];
    [destruct (texec_arm s now delay tok) as [->|H]; [done|by apply rtc_once]|cbn [texec]..].
  - destruct (Disarm h (ts s)) as [b t'] eqn:E. destruct (_ =? 0) eqn:Ec; [|done]. apply Z.eqb_eq in Ec.
    apply rtc_once. by apply (ts_disarm s h b t').
  - destruct (FireStepLocked _ _ _) as [[ejs fired] t'] eqn:E. destruct (_ && _) eqn:Ec; [|done].
    apply andb_true_iff in Ec as [[Hc1 Hc2]%andb_true_iff Hc3]. apply Z.leb_le in Hc1, Hc2, Hc3.
    apply rtc_once, (ts_fire s now (λ _, now) ejs fired t'); [exact Hc1|intros _; lia|lia|exact E].
  - destruct (Periodic_Start _ _ _ _ _ _ _ _ _ _) as [r t'] eqn:E. destruct (_ && _) eqn:Ec; [|done].
    apply andb_true_iff in Ec as [[[[Hc1 Hc2]%andb_true_iff Hc3]%andb_true_iff Hc4]%andb_true_iff Hc5].
    apply Z.leb_le in Hc1. apply Z.ltb_lt in Hc2. apply negb_true_iff, Z.eqb_neq in Hc3. apply Z.eqb_eq in Hc4.
    apply bool_decide_eq_true in Hc5. subst r. apply rtc_once. eapply ts_pstart; [exact Hc1|lia|exact Hc2|exact Hc3|exact Hc5|exact E].
  - apply rtc_once. constructor.
Qed.

Lemma texecs_rtc l s : rtc tstep s (texecs l s).
Proof. revert s. induction l as [|a l IH]; intros s; [done|]. etrans; [apply texec_rtc|apply IH]. Qed.

Definition started : tstate := mkTS (new_timers 0) [] ∅ 0.

Lemma texecs_reachable l : reachable tinit tstep (texecs l started).
Proof. exists started. split; [by exists 0|apply texecs_rtc]. Qed.

(** [armed], evaluated. *)
Definition armedb (w : wheel) (i : Z) : bool := bool_decide (is_Some (w_entries w !! i)) && (0 <=? e_level (ent w i)).

Lemma armedb_armed w i : armedb w i = true → armed w i.
Proof. intros [H1 H2]%andb_true_iff. split; [by apply bool_decide_eq_true in H1|by apply Z.leb_le]. Qed.

(** arming a timer can strand another.  A timer is due at tick 5; before the timer
    thread gets to it, at tick 10, a second timer is armed, which moves the clock over tick
    5, and then disarmed.  The first timer is still armed, five ticks overdue, and the next
    event is tick 261: it is not fired for another 251 ticks. *)
Theorem timer_stranded_by_arm :
  let s := texecs [TArm 0 5000000 7; TArm 10000000 20000000 8; TDisarm (Z.lor (Z.shiftl 1 32) 1)] started in
  reachable tinit tstep s ∧ armed (t_wheel (ts s)) 0 ∧ e_deadline (ent (t_wheel (ts s)) 0) = 5 ∧
    NowTick (clock s) (ts s) = 10 ∧ NextEventTick (t_wheel (ts s)) = 261.
Proof.
  intros s. split_and!; [apply texecs_reachable|apply armedb_armed; vm_compute; reflexivity|vm_compute; reflexivity..].
Qed.

(** an empty fire can strand a timer at a level boundary.  A periodic whose instance
    is still running falls due at tick 255: the fire launches nothing, so the clock is pushed
    on to tick 256 without cascading the slot of level 1 that begins there.  A timer due at
    tick 300 stays behind in that slot; with the periodic cancelled the next event is tick
    65792, more than a minute after it was due. *)
Theorem timer_stranded_at_boundary :
  let s := texecs [TStart 0 255000000 0 1000; TFire 0; TArm 0 300000000 9; TFire 255000000; TCancel 1000] started in
  reachable tinit tstep s ∧ armed (t_wheel (ts s)) 1 ∧ e_deadline (ent (t_wheel (ts s)) 1) = 300 ∧
    w_tick (t_wheel (ts s)) = 256 ∧ NextEventTick (t_wheel (ts s)) = 65792.
Proof.
  intros s. split_and!; [apply texecs_reachable|apply armedb_armed; vm_compute; reflexivity|vm_compute; reflexivity..].
Qed.

(** ** Witnesses *)

(** One timer, armed for 5 ms at time 0. *)
Definition one_armed : tstate := texec (TArm 0 5000000 7) started.

Lemma one_armed_reachable : reachable tinit tstep one_armed.
Proof. exact (texecs_reachable [TArm 0 5000000 7]). Qed.

Lemma one_armed_calm : reachable tinit calm_step one_armed.
Proof.
  exists started. split; [by exists 0|]. apply rtc_once. destruct (texec_arm started 0 5000000 7) as [E|H].
  - exfalso. apply (f_equal (λ s, w_armed (t_wheel (ts s)))) in E. vm_compute in E. discriminate.
  - apply cs_calm; [exact H|]. left. vm_compute. reflexivity.
Qed.

Lemma one_armed_armed : armed (t_wheel (ts one_armed)) 0.
Proof. apply armedb_armed. vm_compute. reflexivity. Qed.

Lemma timer_on_time_witness : NextEventTick (t_wheel (ts one_armed)) = 5 ∧
  posn (AdvanceTo (NextEventTick (t_wheel (ts one_armed))) (t_wheel (ts one_armed))) 0 = (0, 5).
Proof.
  pose proof (timer_on_time one_armed 0 one_armed_calm one_armed_armed) as (H1 & _ & H2).
  split; [vm_compute; reflexivity|]. etransitivity; [apply H2; vm_compute; discriminate|vm_compute; reflexivity].
Defined.

Lemma timer_wheel_wf_witness : PendingCount (ts one_armed) = 1 ∧ armed_entries (t_wheel (ts one_armed)) = [0].
Proof.
  pose proof (timer_wheel_wf one_armed one_armed_reachable) as (_ & _ & H).
  assert (E : armed_entries (t_wheel (ts one_armed)) = [0]) by (vm_compute; reflexivity).
  split; [|exact E]. rewrite E in H. exact H.
Defined.

(** A periodic of 3 ms whose first instance has been launched. *)
Definition one_flying : tstate := texecs [TStart 0 3000000 0 1000; TFire 0] started.

Lemma periodic_single_instance_witness :
  flight one_flying = [1000] ∧ ∃ r, t_recs (ts one_flying) !! 1000 = Some r ∧ count_of (wg_n (p_runs r)) = 1.
Proof.
  pose proof (periodic_single_instance one_flying (texecs_reachable _)) as (_ & H & _).
  assert (E : flight one_flying = [1000]) by (vm_compute; reflexivity). split; [exact E|].
  apply H. rewrite E. apply list_elem_of_singleton. reflexivity.
Defined.

Lemma timer_never_early_witness : 5000000 ≤ 5000001.
Proof.
  set (f := FireStepLocked (λ _, 5000001) (NextEventTick (t_wheel (ts one_armed))) (ts one_armed)).
  apply (timer_never_early one_armed 5000001 (λ _, 5000001) f.1.1 f.1.2 f.2 0 5000000 one_armed_reachable).
  - vm_compute. discriminate.
  - vm_compute. discriminate.
  - vm_compute. discriminate.
  - unfold f. destruct (FireStepLocked _ _ _) as [[a b] c]. reflexivity.
  - vm_compute. reflexivity.
  - exact one_armed_armed.
  - vm_compute. reflexivity.
  - intros [_ H]. vm_compute in H. apply H. reflexivity.
Defined.

(** A record that is 10 ms late on a grid of 3 ms: three grid points are skipped. *)
Definition late_record : PeriodicRecord := mkP 3000000 0 1 0 0 0 (mkWG 0 0 0 0 [] ∅ ∅) kNil 0 false false false.

Lemma periodic_grid_witness : p_due (fire_record 10000000 late_record).2 = 12000000 ∧ 10000000 < p_due (fire_record 10000000 late_record).2.
Proof.
  split; [vm_compute; reflexivity|]. apply (periodic_grid 10000000 late_record); vm_compute; [reflexivity|discriminate|reflexivity].
Defined.
