(* ===== verification/SyncCore.v ===== *)
(** * What the blocking primitives share (include/WaitList.h, include/TaskScheduler.h)

    The queue a blocking primitive keeps its waiters in, as an interface with
    [WaitLists.WaitList] as its implementation; the test for a cancelled task; and the
    waiting room: the waiters that are queued or in the hands of a waker, with the lemmas
    for every way a waiter moves.  The semaphore, the mutex and the condition variable are
    built on these. *)

From S2P Require Import Prelude CancelTokens WaitLists.

(** ** The waiter queue as an interface *)

(** Following [f] from [h] visits [l] and ends at null. *)
Fixpoint walks (f : Z → Z) (h : Z) (l : list Z) : Prop :=
  match l with [] => h = 0 | x :: l' => h = x ∧ x ≠ 0 ∧ walks f (f x) l' end.

Class WaitQueue (Q : Type) := {
  wq_none : Q;
  wq_push : Z → Q → Q;
  wq_pop : Q → Z * Q;
  wq_all : Q → Z * Q;
  wq_some : (Z → bool) → Q → Z * Q;
  wq_link : Q → Z → Z;
  wq_is : Q → list Z → Prop;
  wq_is_none : wq_is wq_none [];
  wq_is_ok q l : wq_is q l → NoDup l ∧ 0 ∉ l;
  wq_is_det q l l' : wq_is q l → wq_is q l' → l = l';
  wq_push_ok q l n : wq_is q l → n ≠ 0 → n ∉ l →
    wq_is (wq_push n q) (l ++ [n]) ∧ (∀ x, x ∉ n :: l → wq_link (wq_push n q) x = wq_link q x);
  wq_pop_ok q l : wq_is q l →
    (wq_pop q).1 = default 0 (head l) ∧ wq_is (wq_pop q).2 (tail l) ∧
    (∀ x, x ∉ l → wq_link (wq_pop q).2 x = wq_link q x);
  wq_all_ok q l : wq_is q l →
    walks (wq_link (wq_all q).2) (wq_all q).1 l ∧ wq_is (wq_all q).2 [] ∧
    (∀ x, x ∉ l → wq_link (wq_all q).2 x = wq_link q x);
  wq_some_ok P q l : wq_is q l →
    walks (wq_link (wq_some P q).2) (wq_some P q).1 (filter (λ x, P x = true) l) ∧
    wq_is (wq_some P q).2 (filter (λ x, P x = false) l) ∧
    (∀ x, x ∉ l → wq_link (wq_some P q).2 x = wq_link q x) }.

Lemma walks_ext f g h l : (∀ x, x ∈ l → g x = f x) → walks f h l → walks g h l.
Proof.
  revert h. induction l as [|x l IH]; intros h Hx; [done|]. intros (-> & H0 & H). split_and!; [done|done|].
  rewrite Hx by set_solver. apply IH; [set_solver|done].
Qed.

Lemma walks_det f h l l' : walks f h l → walks f h l' → l = l'.
Proof. revert h l'. induction l as [|x l IH]; intros h [|y l']; simpl; naive_solver. Qed.

Lemma filter_split (P : Z → bool) l : filter (λ x, P x = false) l ++ filter (λ x, P x = true) l ≡ₚ l.
Proof.
  induction l as [|x l IH]; [done|]. rewrite !filter_cons. destruct (P x) eqn:E.
  - rewrite decide_False, decide_True by done. rewrite <- Permutation_middle. by rewrite IH.
  - rewrite decide_True, decide_False by done. simpl. by rewrite IH.
Qed.

Lemma walks_nil f h l : walks f h l → h = 0 ↔ l = [].
Proof. destruct l as [|x l]; simpl; naive_solver. Qed.

(** ** [WaitList] implements it *)

Lemma chain_walks m h l : chain m h l ↔ walks (next_of m) h l.
Proof.
  unfold chain. revert h. induction l as [|x l IH]; intros h; [done|]. simpl. by rewrite IH.
Qed.

(** Every node of a chain but the last has a link of its own in the heap. *)
Lemma lseg_dom m h l e : lseg m h l e → e ≠ 0 → ∀ y, y ∈ l → y ∈ dom m.
Proof.
  revert h. induction l as [|x l IH]; intros h Hl He y Hy; [by apply elem_of_nil in Hy|].
  destruct Hl as (-> & Hx & Hl). apply elem_of_cons in Hy as [->|Hy]; [|by eapply IH].
  apply elem_of_dom. destruct (m !! x) as [z|] eqn:E; [by eexists|]. exfalso.
  unfold next_of in Hl. rewrite E in Hl. simpl in Hl. destruct l as [|z l]; simpl in Hl; [congruence|].
  destruct Hl as (<- & ? & _). done.
Qed.

Lemma chain_length m h l : chain m h l → (length l ≤ S (size m))%nat.
Proof.
  intros Hc. pose proof (chain_NoDup _ _ _ Hc) as Hnd. destruct l as [|x l _] using rev_ind; [simpl; lia|].
  apply lseg_app in Hc as (k & H1 & (-> & H0 & _)). rewrite length_app. simpl.
  apply NoDup_app in Hnd as (Hnd & _ & _).
  assert (list_to_set l ⊆ dom m) as Hs.
  { intros y Hy. apply elem_of_list_to_set in Hy. by eapply lseg_dom. }
  apply subseteq_size in Hs. rewrite size_list_to_set in Hs by done. rewrite size_dom in Hs. lia.
Qed.

(** [TakeIf] writes only the links of the nodes it visits. *)
Lemma append_to_frame n out m out' m' x :
  append_to n out m = (out', m') → x ≠ out.2 → next_of m' x = next_of m x ∧ out'.2 = n.
Proof.
  unfold append_to. destruct (out.2 =? 0); intros [= <- <-] Hx; [done|].
  split; [|done]. by rewrite next_of_insert, decide_False.
Qed.

Lemma takeif_frame fuel P n tk kp m l tk' kp' m' x :
  chain m n l → takeif_loop fuel P n tk kp m = Some (tk', kp', m') →
  tk.2 ∉ l → kp.2 ∉ l → x ∉ l → x ≠ tk.2 → x ≠ kp.2 → next_of m' x = next_of m x.
Proof.
  revert n tk kp m l. induction fuel as [|fuel IH]; intros n tk kp m l Hc Hr Ht Hk Hx Hxt Hxk; simpl in Hr.
  { destruct (n =? 0); [by injection Hr as _ _ <-|done]. }
  destruct (n =? 0) eqn:En; [by injection Hr as _ _ <-|]. apply Z.eqb_neq in En.
  pose proof (chain_NoDup _ _ _ Hc) as Hnd. destruct l as [|y l]; [done|]. destruct Hc as (-> & _ & Hc).
  apply NoDup_cons in Hnd as [Hy Hnd]. apply not_elem_of_cons in Ht as [Hty Ht], Hk as [Hky Hk], Hx as [Hxy Hx].
  destruct (P y).
  - destruct (append_to y tk (<[y := 0]> m)) as [tk2 m2] eqn:E.
    assert (Hf : ∀ z, z ≠ y → z ≠ tk.2 → next_of m2 z = next_of m z).
    { intros z Hz1 Hz2. destruct (append_to_frame _ _ _ _ _ z E Hz2) as [-> _]. by rewrite next_of_insert, decide_False. }
    destruct (append_to_frame _ _ _ _ _ x E Hxt) as [_ E2].
    rewrite (IH (next_of m y) tk2 kp m2 l); [apply Hf; done| |exact Hr|by rewrite E2|done|done|by rewrite E2|done].
    eapply lseg_ext; [|exact Hc]. intros z Hz. apply Hf; intros ->; done.
  - destruct (append_to y kp (<[y := 0]> m)) as [kp2 m2] eqn:E.
    assert (Hf : ∀ z, z ≠ y → z ≠ kp.2 → next_of m2 z = next_of m z).
    { intros z Hz1 Hz2. destruct (append_to_frame _ _ _ _ _ z E Hz2) as [-> _]. by rewrite next_of_insert, decide_False. }
    destruct (append_to_frame _ _ _ _ _ x E Hxk) as [_ E2].
    rewrite (IH (next_of m y) tk kp2 m2 l); [apply Hf; done| |exact Hr|done|by rewrite E2|done|done|by rewrite E2].
    eapply lseg_ext; [|exact Hc]. intros z Hz. apply Hf; intros ->; done.
Qed.

Lemma waitlist_zero q l : waitlist q l → NoDup l ∧ 0 ∉ l.
Proof. intros Hq. split; [by eapply chain_NoDup, Hq|]. intros H0. by eapply wq_nonzero in Hq. Qed.

Definition take_some (P : Z → bool) (q : WaitList) : Z * WaitList :=
  default (0, q) (TakeIf (S (size (wl_next q))) P q).

Lemma take_some_ok P q l :
  waitlist q l →
  chain (wl_next (take_some P q).2) (take_some P q).1 (filter (λ x, P x = true) l) ∧
  waitlist (take_some P q).2 (filter (λ x, P x = false) l) ∧
  (∀ x, x ∉ l → x ≠ 0 → next_of (wl_next (take_some P q).2) x = next_of (wl_next q) x).
Proof.
  intros Hq. pose proof (waitlist_zero _ _ Hq) as [Hnd H0]. pose proof Hq as [Hc _].
  destruct (takeif_loop_spec (S (size (wl_next q))) P (wl_head q) (0, 0) (0, 0) (wl_next q) l [] [])
    as (tk & kp & m & Hr & [H1 _] & H2); [done|apply wq_nil|apply wq_nil|done|by eapply chain_length|].
  unfold take_some, TakeIf. rewrite Hr. simpl. split_and!; [done|done|]. intros x Hx Hx0.
  by eapply (takeif_frame _ _ _ _ _ _ l); [exact Hc|exact Hr|..].
Qed.

(** The link of a node; null has none. *)
Definition link_of (q : WaitList) (x : Z) : Z := if x =? 0 then 0 else next_of (wl_next q) x.

Lemma link_ext q q' x : (x ≠ 0 → next_of (wl_next q') x = next_of (wl_next q) x) → link_of q' x = link_of q x.
Proof. unfold link_of. destruct (x =? 0) eqn:E; [done|]. apply Z.eqb_neq in E. auto. Qed.

Lemma chain_links q h l : chain (wl_next q) h l → walks (link_of q) h l.
Proof.
  intros Hc. pose proof Hc as Hw%chain_walks. eapply walks_ext; [|exact Hw]. intros x Hx. unfold link_of.
  rewrite (proj2 (Z.eqb_neq x 0)); [done|]. apply (wq_nonzero (wl_next q) h (default 0 (last l)) l x); [by split|done].
Qed.

#[export, refine] Instance WaitList_queue : WaitQueue WaitList := {
  wq_none := mkWL ∅ 0 0;
  wq_push := PushBack;
  wq_pop := PopFront;
  wq_all := TakeAll;
  wq_some := take_some;
  wq_link := link_of;
  wq_is := waitlist }.
Proof.
  - apply wq_nil.
  - exact waitlist_zero.
  - intros q l l' [H _] [H' _]. by eapply chain_det.
  - intros q l n Hq Hn Hl. split; [by apply PushBack_spec|]. intros x [Hx Hxl]%not_elem_of_cons. apply link_ext. intros Hx0.
    unfold PushBack. destruct (wl_tail q =? 0) eqn:E; simpl; [by rewrite next_of_insert, decide_False|].
    apply Z.eqb_neq in E. rewrite !next_of_insert, !decide_False; [done|done|]. intros <-. apply Hxl.
    destruct Hq as [_ Ht]. destruct (last l) eqn:El; simpl in Ht; [|done]. subst. by apply last_Some_elem_of.
  - intros q l Hq. pose proof (PopFront_spec q l Hq) as Hp. destruct (PopFront q) as [n q'] eqn:E. destruct Hp as [-> Hp].
    split_and!; [done|done|]. intros x Hx. apply link_ext. intros Hx0. unfold PopFront in E.
    destruct (wl_head q =? 0) eqn:Eh; injection E as En <-; [done|]. simpl. rewrite next_of_insert, decide_False; [done|].
    rewrite En. intros <-. apply Z.eqb_neq in Eh. destruct l; [done|]. simpl in *. set_solver.
  - intros q l Hq. split_and!; [by apply chain_links, Hq|apply wq_nil|done].
  - intros P q l Hq. destruct (take_some_ok P q l Hq) as (H1 & H2 & H3).
    split_and!; [by apply chain_links|done|]. intros x Hx. apply link_ext. intros Hx0. by apply H3.
Defined.

(** ** Callers and cancellation

    A caller (fiber, coroutine or thread) is a number; the wait node in its frame has an
    address of its own.  [e_direct] are the callers whose task has [cancelledDirect] set,
    [e_token] the cancellation token of each caller's task. *)

Definition addr (i : nat) : Z := Z.of_nat i + 1.
Definition owner (n : Z) : nat := Z.to_nat (n - 1).

Lemma owner_addr i : owner (addr i) = i.
Proof. unfold owner, addr. lia. Qed.

Lemma addr_inj i j : addr i = addr j → i = j.
Proof. unfold addr. lia. Qed.

Lemma addr_pos i : addr i ≠ 0.
Proof. unfold addr. lia. Qed.

Inductive WaitResult := WOk | WCancelled.

#[export] Instance WaitResult_eq_dec : EqDecision WaitResult.
Proof. solve_decision. Defined.

Record env := mkEnv { e_tab : Cancel; e_direct : gset nat; e_token : gmap nat Z }.

Definition token_of (e : env) (i : nat) : Z := default kNoToken (e_token e !! i).

Definition IsTaskCancelled (e : env) (i : nat) : bool :=
  bool_decide (i ∈ e_direct e) || Cancelled (e_tab e) (token_of e i).

(** The predicate every [CancelWaiters] passes to [TakeIf]. *)
Definition cancel_match (e : env) (nodes : gmap Z WaitNode) (tok n : Z) : bool :=
  match nodes !! n with
  | Some w => negb (wn_result w =? 0) && (negb (Valid tok) || IsWithin (e_tab e) (wn_token w) tok)
  | None => false
  end.

(** Cancelling a scope only adds cancelled tasks and leaves the scopes' nesting alone. *)
Definition env_grows (e e' : env) : Prop :=
  e_token e' = e_token e ∧ e_direct e ⊆ e_direct e' ∧
  (∀ raw, Cancelled (e_tab e) raw = true → Cancelled (e_tab e') raw = true) ∧
  (∀ raw a, IsWithin (e_tab e') raw a = IsWithin (e_tab e) raw a).

Lemma grows_cancelled e e' i : env_grows e e' → IsTaskCancelled e i = true → IsTaskCancelled e' i = true.
Proof.
  intros (Et & Hd & Hc & _). unfold IsTaskCancelled, token_of. rewrite Et. intros [H|H]%orb_true_iff; apply orb_true_iff.
  - left. apply bool_decide_eq_true. apply bool_decide_eq_true in H. set_solver.
  - right. by apply Hc.
Qed.

(** The scope named by [tok] is live and cancelled. *)
Definition scope_cancelled (c : Cancel) (tok : Z) : Prop :=
  tok ≠ kNoToken ∧ token_index tok < kCancelSlots ∧
  GenOf (state (slot_of c (token_index tok))) = token_gen tok ∧ CancelledIn (state (slot_of c (token_index tok))) = true.

Lemma within_cancelled c tok raw : scope_cancelled c tok → IsWithin c raw tok = true → Cancelled c raw = true.
Proof.
  intros (H1 & H2 & H3 & H4) [_ Hw]%andb_true_iff. unfold Cancelled. revert raw Hw.
  generalize kMaxScopeDepth. intros d. induction d as [|d IH]; intros raw Hw; [done|]. cbn in *.
  destruct (raw =? kNoToken); [done|]. destruct (raw =? tok) eqn:E.
  - apply Z.eqb_eq in E. subst raw. apply Z.leb_gt in H2. by rewrite H2, H3, Z.eqb_refl, H4.
  - revert Hw. destruct (_ <=? _); [done|]. destruct (negb _); [done|]. destruct (CancelledIn (state (slot_of c (token_index raw)))); [done|]. apply IH.
Qed.

(** [CancelVia], the way a timer cancels before it ejects the waiters, gives both. *)
Lemma gen_or_bit st : GenOf (Z.lor st kCancelledBit) = GenOf st.
Proof. unfold GenOf, kCancelledBit. rewrite Z.shiftr_lor. change (Z.shiftr 1 32) with 0. by rewrite Z.lor_0_r. Qed.

Lemma cancelled_or_bit st : CancelledIn (Z.lor st kCancelledBit) = true.
Proof.
  unfold CancelledIn, kCancelledBit. apply negb_true_iff, Z.eqb_neq. intros E. apply (f_equal (λ x, Z.testbit x 0)) in E.
  rewrite Z.land_spec, Z.lor_spec in E. change (Z.testbit 1 0) with true in E. rewrite orb_true_r in E. done.
Qed.

Lemma slot_set c i s j : slot_of (set_slot i s c) j = if decide (i = j) then s else slot_of c j.
Proof.
  unfold slot_of, set_slot. cbn. destruct (decide (i = j)) as [->|Hn]; [by rewrite lookup_insert_eq|by rewrite lookup_insert_ne].
Qed.

Lemma CancelVia_cancelled tok c c' : CancelVia tok c = (true, c') → scope_cancelled c' tok.
Proof.
  unfold CancelVia. destruct (tok =? kNoToken) eqn:E1; [done|]. destruct (_ <=? _) eqn:E2; [done|].
  destruct (negb _) eqn:E3; [done|]. apply negb_false_iff, Z.eqb_eq in E3. apply Z.eqb_neq in E1. apply Z.leb_gt in E2.
  destruct (CancelledIn _) eqn:E4; intros [= <-]; [done|]. split_and!; [done|done|..].
  - rewrite slot_set, decide_True by done. cbn. by rewrite gen_or_bit.
  - rewrite slot_set, decide_True by done. apply cancelled_or_bit.
Qed.

Lemma CancelVia_slots tok c b c' i :
  CancelVia tok c = (b, c') →
  GenOf (state (slot_of c' i)) = GenOf (state (slot_of c i)) ∧ parent (slot_of c' i) = parent (slot_of c i) ∧
  (CancelledIn (state (slot_of c i)) = true → CancelledIn (state (slot_of c' i)) = true).
Proof.
  unfold CancelVia. destruct (tok =? kNoToken); [by intros [= _ <-]|]. destruct (_ <=? _); [by intros [= _ <-]|].
  destruct (negb _); [by intros [= _ <-]|]. destruct (CancelledIn _) eqn:E; [by intros [= _ <-]|]. intros [= _ <-].
  rewrite slot_set. destruct (decide (token_index tok = i)) as [<-|Hn]; [|done]. cbn. rewrite gen_or_bit.
  split_and!; [done|done|congruence].
Qed.

Lemma CancelVia_grows tok c b c' d t : CancelVia tok c = (b, c') → env_grows (mkEnv c d t) (mkEnv c' d t).
Proof.
  intros H. pose proof (λ i, CancelVia_slots tok c b c' i H) as Hs. split_and!; [done|done|..]; cbn [e_tab].
  - intros raw. unfold Cancelled. revert raw. generalize kMaxScopeDepth. intros n. induction n as [|n IH]; intros raw; cbn [cancelled_loop]; [done|].
    destruct (raw =? kNoToken); [done|]. destruct (_ <=? _); [done|]. destruct (Hs (token_index raw)) as (-> & -> & Hc).
    destruct (negb _); [done|]. destruct (CancelledIn (state (slot_of c _))); [by rewrite Hc|].
    destruct (CancelledIn _); [done|]. apply IH.
  - intros raw a. unfold IsWithin. f_equal. revert raw. generalize kMaxScopeDepth. intros n. induction n as [|n IH]; intros raw; cbn [within_loop]; [done|].
    destruct (raw =? kNoToken); [done|]. destruct (raw =? a); [done|]. destruct (_ <=? _); [done|].
    destruct (Hs (token_index raw)) as (-> & -> & _). destruct (negb _); [done|]. apply IH.
Qed.

(** At most one caller satisfies [P]. *)
Lemma num_two {A} (P : A → bool) (m : gmap nat A) i j p q :
  num P m ≤ 1 → m !! i = Some p → P p = true → m !! j = Some q → P q = true → i = j.
Proof.
  intros Hn Hi Hp Hj Hq. destruct (decide (i = j)) as [|Hne]; [done|]. exfalso.
  assert (Hj' : delete i m !! j = Some q) by (by rewrite lookup_delete_ne). pose proof (num_pos P _ j q Hj' Hq) as H.
  unfold num in *. rewrite (gather_delete _ m i p Hi), length_app, Hp in Hn. cbn in Hn. lia.
Qed.

(** ** Waking the oldest live waiter

    What [SchedulerSemaphore::Signal], [SchedulerMutex::Unlock] and
    [SchedulerConditionVariable::Notify_One] promise: who is resumed and told what, who
    stays queued, and whether no live waiter was found. *)
Fixpoint wake_spec (skip : Z → bool) (l : list Z) : list (Z * WaitResult) * list Z * bool :=
  match l with
  | [] => ([], [], true)
  | n :: l' => if skip n then let '(w, r, b) := wake_spec skip l' in ((n, WCancelled) :: w, r, b) else ([(n, WOk)], l', false)
  end.

(** ** The waiting room

    [parked] says which program counters belong to a caller that waits to be resumed,
    [hand] which nodes a waker has taken off the queue and not yet resumed, and [rest]
    where a waker that walks a detached chain stands.  Every parked caller's node is in
    one place: in the queue or in one hand. *)

Section room.
Context {Q P : Type} `{!WaitQueue Q} (parked : P → bool) (hand : P → list Z) (rest : P → option Z).

Record room (q : Q) (l : list Z) (pcs : gmap nat P) : Prop := {
  rm_q : wq_is q l;
  rm_nodup : NoDup (l ++ gather hand pcs);
  rm_in n : n ∈ l ++ gather hand pcs → ∃ i p, n = addr i ∧ pcs !! i = Some p ∧ parked p = true;
  rm_out i p : pcs !! i = Some p → parked p = true → addr i ∈ l ++ gather hand pcs;
  rm_rest i p v : pcs !! i = Some p → rest p = Some v → walks (wq_link q) v (hand p) }.

Lemma room_init pcs : (∀ i p, pcs !! i = Some p → parked p = false ∧ hand p = [] ∧ rest p = None) → room wq_none [] pcs.
Proof.
  intros H. assert (Hg : ∀ x, x ∉ gather hand pcs).
  { intros x (i & p & Hi & Hx)%elem_of_gather. destruct (H i p Hi) as (_ & Hh & _). rewrite Hh in Hx. set_solver. }
  assert (E : gather hand pcs = []) by (by destruct (gather hand pcs) as [|x g]; [|exfalso; apply (Hg x); set_solver]).
  constructor.
  - apply wq_is_none.
  - rewrite E. constructor.
  - rewrite E. set_solver.
  - intros i p Hi Hp. destruct (H i p Hi) as (? & _). congruence.
  - intros i p v Hi Hr. destruct (H i p Hi) as (_ & _ & ?). congruence.
Qed.

(** A step that neither parks nor moves a node. *)
Lemma room_quiet q l pcs i p p' :
  room q l pcs → pcs !! i = Some p → parked p' = parked p → hand p' = hand p → rest p' = rest p →
  room q l (<[i := p']> pcs).
Proof.
  intros [R1 R2 R3 R4 R5] Hi Hp Hh Hr. pose proof (gather_move hand pcs i p p' Hi Hh) as Hg. constructor.
  - done.
  - eapply NoDup_perm; [|exact R2]. by rewrite Hg.
  - intros n Hn. rewrite Hg in Hn. destruct (R3 n Hn) as (j & x & -> & Hj & Hx). exists j.
    destruct (decide (i = j)) as [->|Hne]; [exists p'|exists x].
    + rewrite lookup_insert_eq. split_and!; [done|done|]. congruence.
    + by rewrite lookup_insert_ne.
  - intros j x Hj Hx. rewrite Hg. apply lookup_insert_Some in Hj as [[-> ->]|[Hne Hj]]; [|by eapply R4].
    eapply R4; [done|congruence].
  - intros j x v Hj Hx. apply lookup_insert_Some in Hj as [[-> ->]|[Hne Hj]]; [|by eapply R5].
    rewrite Hh. eapply R5; [done|congruence].
Qed.

(** A waker moves nodes between the queue and its hand. *)
Lemma room_move q l pcs i p p' q' l' :
  room q l pcs → pcs !! i = Some p → parked p = false → parked p' = false → wq_is q' l' →
  l' ++ hand p' ≡ₚ l ++ hand p → (∀ x, x ∉ l → wq_link q' x = wq_link q x) →
  (∀ v, rest p' = Some v → walks (wq_link q') v (hand p')) → room q' l' (<[i := p']> pcs).
Proof.
  intros [R1 R2 R3 R4 R5] Hi Hp Hp' Hq Hperm Hlink Hrest.
  assert (Hg : l' ++ gather hand (<[i := p']> pcs) ≡ₚ l ++ gather hand pcs).
  { rewrite gather_insert, (gather_delete hand pcs i p Hi), !(assoc_L (++)). by rewrite Hperm. }
  constructor.
  - done.
  - by rewrite Hg.
  - intros n Hn. rewrite Hg in Hn. destruct (R3 n Hn) as (j & x & -> & Hj & Hx). exists j, x.
    rewrite lookup_insert_ne; [done|]. intros <-. congruence.
  - intros j x Hj Hx. rewrite Hg. apply lookup_insert_Some in Hj as [[-> ->]|[Hne Hj]]; [congruence|by eapply R4].
  - intros j x v Hj Hx. apply lookup_insert_Some in Hj as [[-> ->]|[Hne Hj]]; [by apply Hrest|].
    eapply walks_ext; [|by eapply R5]. intros y Hy. apply Hlink. intros Hl.
    apply NoDup_app in R2 as (_ & Hd & _). apply (Hd y Hl). apply elem_of_gather. by exists j, x.
Qed.

(** A caller puts its own node on the queue and parks. *)
Lemma room_push q l pcs i p p' :
  room q l pcs → pcs !! i = Some p → parked p = false → hand p = [] → parked p' = true → hand p' = [] → rest p' = None →
  room (wq_push (addr i) q) (l ++ [addr i]) (<[i := p']> pcs).
Proof.
  intros [R1 R2 R3 R4 R5] Hi Hp Hh Hp' Hh' Hr'.
  assert (Hg : gather hand (<[i := p']> pcs) ≡ₚ gather hand pcs) by (eapply gather_move; [done|congruence]).
  assert (Hno : addr i ∉ l ++ gather hand pcs).
  { intros Hin. destruct (R3 _ Hin) as (j & x & <-%addr_inj & Hj & Hx). congruence. }
  assert (Hall : (l ++ [addr i]) ++ gather hand (<[i := p']> pcs) ≡ₚ addr i :: l ++ gather hand pcs).
  { rewrite Hg. solve_Permutation. }
  destruct (wq_push_ok q l (addr i) R1 (addr_pos i) ltac:(set_solver)) as [Hq Hlink]. constructor.
  - done.
  - rewrite Hall. by constructor.
  - intros n Hn. rewrite Hall in Hn. apply elem_of_cons in Hn as [->|Hn].
    + exists i, p'. by rewrite lookup_insert_eq.
    + destruct (R3 n Hn) as (j & x & -> & Hj & Hx). exists j, x. rewrite lookup_insert_ne; [done|]. intros <-. congruence.
  - intros j x Hj Hx. rewrite Hall. apply lookup_insert_Some in Hj as [[-> ->]|[Hne Hj]]; [set_solver|].
    apply elem_of_cons. right. by eapply R4.
  - intros j x v Hj Hx. apply lookup_insert_Some in Hj as [[-> ->]|[Hne Hj]]; [congruence|].
    assert (Hin : ∀ y, y ∈ hand x → y ∈ gather hand pcs) by (intros y Hy; apply elem_of_gather; by exists j, x).
    eapply walks_ext; [|by eapply R5]. intros y Hy. apply Hlink. intros [->|Hl]%elem_of_cons.
    + apply Hno. set_solver.
    + apply NoDup_app in R2 as (_ & Hd & _). by apply (Hd y Hl), Hin.
Qed.

(** A waker resumes the first node it holds: its owner is no longer parked. *)
Lemma room_wake q l pcs i p p' j y y' vs :
  room q l pcs → pcs !! i = Some p → parked p = false → hand p = addr j :: vs → parked p' = false → hand p' = vs →
  (∀ v, rest p' = Some v → walks (wq_link q) v vs) →
  pcs !! j = Some y → parked y = true → hand y = [] → parked y' = false → hand y' = [] → rest y' = None →
  room q l (<[i := p']> (<[j := y']> pcs)).
Proof.
  intros [R1 R2 R3 R4 R5] Hi Hp Hh Hp' Hh' Hr' Hj Hy Hhy Hy' Hhy' Hry'.
  assert (Hne : i ≠ j) by congruence.
  assert (Hi' : <[j := y']> pcs !! i = Some p) by (by rewrite lookup_insert_ne).
  assert (Hall : l ++ gather hand pcs ≡ₚ addr j :: l ++ gather hand (<[i := p']> (<[j := y']> pcs))).
  { pose proof (gather_change hand _ i p p' Hi') as Hg. rewrite (gather_move hand pcs j y y' Hj) in Hg by congruence.
    rewrite Hh, Hh' in Hg. simpl in Hg. assert (Hg' : gather hand pcs ≡ₚ addr j :: gather hand (<[i := p']> (<[j := y']> pcs))).
    { apply (Permutation_app_inv_l vs). rewrite <- Hg. solve_Permutation. }
    rewrite Hg'. solve_Permutation. }
  rewrite Hall in R2. apply NoDup_cons in R2 as [Hj2 R2]. constructor.
  - done.
  - done.
  - intros n Hn. destruct (R3 n) as (k & x & -> & Hk & Hx); [rewrite Hall; set_solver|]. exists k, x.
    rewrite !lookup_insert_ne; [done| |]; [intros <-; done|intros <-; congruence].
  - intros k x Hk Hx. assert (k ≠ j ∧ k ≠ i ∧ pcs !! k = Some x) as (Hkj & Hki & Hk').
    { apply lookup_insert_Some in Hk as [[-> ->]|[Hni Hk]]; [congruence|].
      apply lookup_insert_Some in Hk as [[-> ->]|[Hnj Hk]]; [congruence|]. by split_and!. }
    pose proof (R4 k x Hk' Hx) as Hin. rewrite Hall in Hin. apply elem_of_cons in Hin as [->%addr_inj|Hin]; done.
  - intros k x v Hk Hx. apply lookup_insert_Some in Hk as [[-> ->]|[Hni Hk]].
    { rewrite Hh'. by apply Hr'. }
    apply lookup_insert_Some in Hk as [[-> ->]|[Hnj Hk]]; [congruence|by eapply R5].
Qed.

(** Where a node in a hand comes from: its owner is parked. *)
Lemma room_owner q l pcs i p n :
  room q l pcs → pcs !! i = Some p → n ∈ hand p → ∃ j y, n = addr j ∧ pcs !! j = Some y ∧ parked y = true.
Proof. intros R Hi Hn. apply (rm_in _ _ _ R). apply elem_of_app. right. apply elem_of_gather. by exists i, p. Qed.

(** With no node in a hand, whoever is parked is in the queue. *)
Lemma room_rest q l pcs i p :
  room q l pcs → (∀ j x, pcs !! j = Some x → hand x = []) → pcs !! i = Some p → parked p = true → addr i ∈ l.
Proof.
  intros R Hh Hi Hp. pose proof (rm_out _ _ _ R i p Hi Hp) as Hin.
  apply elem_of_app in Hin as [Hl|Hin]; [done|]. apply elem_of_gather in Hin as (j & x & Hj & Hx).
  rewrite (Hh j x Hj) in Hx. set_solver.
Qed.
End room.
