(* ===== verification/SchedSemaphore.v ===== *)
(** * SchedulerSemaphore (src/TaskScheduler.cpp, include/TaskScheduler.h)

    Permits and a FIFO of waiters under one spin lock.  The code between taking and
    clearing the spin lock is one function of the semaphore, since nothing else touches it;
    everything outside the lock (the cancellation tests, writing a waiter's result,
    resuming it) is a step of its own in the step relation, so that signals, waits and
    cancellations interleave freely.  The queue is any implementation of [WaitQueue]. *)

From S2P Require Import Prelude CancelTokens WaitLists SyncCore.

Section semaphore.
Context {Q : Type} `{!WaitQueue Q}.

Record SchedulerSemaphore := mkSem { permits : Z; maxPermits : Z; sem_waiters : Q }.

Definition SchedulerSemaphore_new (initialPermits maxPermits : Z) : SchedulerSemaphore :=
  mkSem initialPermits maxPermits wq_none.

(** ** The critical sections *)

Inductive entered := Acquired | Refused | Queued.

Definition take_permit (s : SchedulerSemaphore) : SchedulerSemaphore := mkSem (permits s - 1) (maxPermits s) (sem_waiters s).
Definition enqueue (n : Z) (s : SchedulerSemaphore) : SchedulerSemaphore :=
  mkSem (permits s) (maxPermits s) (wq_push n (sem_waiters s)).

Definition Try_Wait (s : SchedulerSemaphore) : bool * SchedulerSemaphore :=
  if 0 <? permits s then (true, take_permit s) else (false, s).

(** [n] is the caller's wait node, [canc] the answer of [IsTaskCancelled] under the lock. *)
Definition Wait (n : Z) (s : SchedulerSemaphore) : entered * SchedulerSemaphore :=
  if 0 <? permits s then (Acquired, take_permit s) else (Queued, enqueue n s).

Definition WaitCancellable (canc : bool) (n : Z) (s : SchedulerSemaphore) : entered * SchedulerSemaphore :=
  if 0 <? permits s then (Acquired, take_permit s)
  else if canc then (Refused, s)
  else (Queued, enqueue n s).

(** The return value, and what is stored through [result] when it is not null. *)
Definition WaitAsyncEnqueue (canc : bool) (n : Z) (s : SchedulerSemaphore) : bool * option WaitResult * SchedulerSemaphore :=
  if 0 <? permits s then (true, Some WOk, take_permit s)
  else if canc then (true, Some WCancelled, s)
  else (false, None, enqueue n s).

(** One turn of [Signal]'s loop, under the lock: the waiter popped, or null with the
    permit banked. *)
Definition Signal_pop (s : SchedulerSemaphore) : Z * SchedulerSemaphore :=
  let '(n, q) := wq_pop (sem_waiters s) in
  if n =? 0 then (0, mkSem (if permits s <? maxPermits s then permits s + 1 else permits s) (maxPermits s) q)
  else (n, mkSem (permits s) (maxPermits s) q).

(** [CancelWaiters] under the lock: the chain of victims. *)
Definition Semaphore_CancelWaiters (e : env) (nodes : gmap Z WaitNode) (tok : Z) (s : SchedulerSemaphore)
  : Z * SchedulerSemaphore :=
  let '(h, q) := wq_some (cancel_match e nodes tok) (sem_waiters s) in (h, mkSem (permits s) (maxPermits s) q).

(** ** [Signal] run alone

    [skip] says which waiters are cancellable and cancelled.  The result is the waiters
    resumed, in order, with what each is told. *)
Fixpoint Signal (fuel : nat) (skip : Z → bool) (s : SchedulerSemaphore) : option (list (Z * WaitResult) * SchedulerSemaphore) :=
  match fuel with
  | O => None
  | S fuel' =>
      let '(n, s1) := Signal_pop s in
      if n =? 0 then Some ([], s1)
      else if skip n then '(w, s2) ← Signal fuel' skip s1; Some ((n, WCancelled) :: w, s2)
      else Some ([(n, WOk)], s1)
  end.

(** ** Concurrent callers *)

Inductive wmode := MWait | MCancellable | MAsync | MAsyncCancellable.

(** Whether the wait has a result to report cancellation through. *)
Definition has_result (m : wmode) : bool := match m with MCancellable | MAsyncCancellable => true | _ => false end.

Definition sem_enter (m : wmode) (canc : bool) (n : Z) (s : SchedulerSemaphore) : entered * SchedulerSemaphore :=
  match m with
  | MWait => Wait n s
  | MCancellable => WaitCancellable canc n s
  | MAsync | MAsyncCancellable =>
      match WaitAsyncEnqueue canc n s with
      | (true, Some WCancelled, s') => (Refused, s')
      | (true, _, s') => (Acquired, s')
      | (false, _, s') => (Queued, s')
      end
  end.

Inductive spc :=
| SIdle
| SEnter (m : wmode)            (* past the test without the lock *)
| SParked                       (* its node is queued; it waits to be resumed *)
| SWoken (r : WaitResult)       (* resumed, its result reading [r]; has not returned *)
| SSignal                       (* in [Signal], before the lock *)
| SGot (n : Z)                  (* in [Signal], has popped [n] and dropped the lock *)
| SCancel (tok : Z)             (* in [CancelWaiters], before the lock *)
| SVictims (v : Z) (vs : list Z). (* walking the victims: [v] is the pointer, [vs] what it leads to *)

(** [s_acq] counts the waits that returned and were told [WOk], [s_sigs] the calls of [Signal],
    [s_drop] those that found the semaphore full, [s_free] the coroutines that were let
    through as cancelled with no result to say so; [s_fault] is set if anyone is resumed who
    does not wait. *)
Record sstate := mkSS {
  sm : SchedulerSemaphore; s_env : env; s_nodes : gmap Z WaitNode; s_res : gmap Z WaitResult; s_pcs : gmap nat spc;
  s_ret : gmap nat WaitResult; s_acq : Z; s_sigs : Z; s_drop : Z; s_free : Z; s_fault : bool }.

Definition s_move (i : nat) (p : spc) (s : sstate) : sstate :=
  mkSS (sm s) (s_env s) (s_nodes s) (s_res s) (<[i := p]> (s_pcs s)) (s_ret s) (s_acq s) (s_sigs s) (s_drop s) (s_free s) (s_fault s).
Definition s_set (x : SchedulerSemaphore) (s : sstate) : sstate :=
  mkSS x (s_env s) (s_nodes s) (s_res s) (s_pcs s) (s_ret s) (s_acq s) (s_sigs s) (s_drop s) (s_free s) (s_fault s).
Definition s_set_env (e : env) (s : sstate) : sstate :=
  mkSS (sm s) e (s_nodes s) (s_res s) (s_pcs s) (s_ret s) (s_acq s) (s_sigs s) (s_drop s) (s_free s) (s_fault s).
Definition s_return (i : nat) (r : WaitResult) (s : sstate) : sstate :=
  mkSS (sm s) (s_env s) (s_nodes s) (s_res s) (<[i := SIdle]> (s_pcs s)) (<[i := r]> (s_ret s))
    (s_acq s + match r with WOk => 1 | WCancelled => 0 end) (s_sigs s) (s_drop s) (s_free s) (s_fault s).
Definition s_count (g d f : Z) (s : sstate) : sstate :=
  mkSS (sm s) (s_env s) (s_nodes s) (s_res s) (s_pcs s) (s_ret s) (s_acq s) (s_sigs s + g) (s_drop s + d) (s_free s + f) (s_fault s).
Definition s_node (i : nat) (m : wmode) (s : sstate) : sstate :=
  mkSS (sm s) (s_env s)
    (<[addr i := mkWaitNode 0 (addr i) 0 (if has_result m then addr i else 0) (token_of (s_env s) i)]> (s_nodes s))
    (<[addr i := WOk]> (s_res s)) (s_pcs s) (s_ret s) (s_acq s) (s_sigs s) (s_drop s) (s_free s) (s_fault s).

Definition node_result (s : sstate) (n : Z) : bool := match s_nodes s !! n with Some w => negb (wn_result w =? 0) | None => false end.

(** [*result = r] when there is a result. *)
Definition s_tell (n : Z) (r : WaitResult) (s : sstate) : sstate :=
  mkSS (sm s) (s_env s) (s_nodes s) (if node_result s n then <[n := r]> (s_res s) else s_res s) (s_pcs s) (s_ret s)
    (s_acq s) (s_sigs s) (s_drop s) (s_free s) (s_fault s).

(** What the waiter with node [n] will return: its result, if it has one. *)
Definition told (s : sstate) (n : Z) : WaitResult := if node_result s n then default WOk (s_res s !! n) else WOk.

(** [Thread::Resume] or [WakeTask]. *)
Definition s_resume (n : Z) (s : sstate) : sstate :=
  match s_pcs s !! owner n with
  | Some SParked => s_move (owner n) (SWoken (told s n)) s
  | _ => mkSS (sm s) (s_env s) (s_nodes s) (s_res s) (s_pcs s) (s_ret s) (s_acq s) (s_sigs s) (s_drop s) (s_free s) true
  end.

(** What follows the critical section of a wait. *)
Definition after_enter (i : nat) (m : wmode) (o : entered) (s : sstate) : sstate :=
  match o with
  | Acquired => s_return i WOk s
  | Refused => if has_result m then s_return i WCancelled s else s_return i WOk (s_count 0 0 1 s)
  | Queued => s_move i SParked (s_node i m s)
  end.

(** What [Signal] does with the waiter it popped. *)
Definition skipped (s : sstate) (n : Z) : bool := node_result s n && IsTaskCancelled (s_env s) (owner n).
Definition after_pop (i : nat) (n : Z) (s : sstate) : sstate :=
  let s1 := s_resume n (s_tell n (if skipped s n then WCancelled else WOk) s) in
  if skipped s n then s_move i SSignal s1 else s_move i SIdle s1.

Inductive sem_step (i : nat) (s : sstate) : sstate → Prop :=
| sm_start m : s_pcs s !! i = Some SIdle → (has_result m = true → IsTaskCancelled (s_env s) i = false) →
    sem_step i s (s_move i (SEnter m) s)
| sm_start_cancelled m : s_pcs s !! i = Some SIdle → has_result m = true → IsTaskCancelled (s_env s) i = true →
    sem_step i s (s_return i WCancelled s)
| sm_enter m o x : s_pcs s !! i = Some (SEnter m) → sem_enter m (IsTaskCancelled (s_env s) i) (addr i) (sm s) = (o, x) →
    sem_step i s (after_enter i m o (s_set x s))
| sm_try x : s_pcs s !! i = Some SIdle → Try_Wait (sm s) = (true, x) → sem_step i s (s_return i WOk (s_set x s))
| sm_return r : s_pcs s !! i = Some (SWoken r) → sem_step i s (s_return i (told s (addr i)) s)
| sm_signal : s_pcs s !! i = Some SIdle → sem_step i s (s_move i SSignal (s_count 1 0 0 s))
| sm_bank x : s_pcs s !! i = Some SSignal → Signal_pop (sm s) = (0, x) →
    sem_step i s (s_move i SIdle (s_count 0 (if permits (sm s) <? maxPermits (sm s) then 0 else 1) 0 (s_set x s)))
| sm_pop n x : s_pcs s !! i = Some SSignal → Signal_pop (sm s) = (n, x) → n ≠ 0 → sem_step i s (s_move i (SGot n) (s_set x s))
| sm_wake n : s_pcs s !! i = Some (SGot n) → sem_step i s (after_pop i n s)
| sm_cancel tok : s_pcs s !! i = Some SIdle → sem_step i s (s_move i (SCancel tok) s)
| sm_take tok h x vs : s_pcs s !! i = Some (SCancel tok) → Semaphore_CancelWaiters (s_env s) (s_nodes s) tok (sm s) = (h, x) →
    walks (wq_link (sem_waiters x)) h vs → sem_step i s (s_move i (SVictims h vs) (s_set x s))
| sm_victim v vs : s_pcs s !! i = Some (SVictims v vs) → v ≠ 0 →
    sem_step i s (s_move i (SVictims (wq_link (sem_waiters (sm s)) v) (tail vs)) (s_resume v (s_tell v WCancelled s)))
| sm_cancelled vs : s_pcs s !! i = Some (SVictims 0 vs) → sem_step i s (s_move i SIdle s).

(** The cancellation table and the tasks' flags change under the callers' feet. *)
Inductive sstep (s : sstate) : sstate → Prop :=
| ss_caller i s' : sem_step i s s' → sstep s s'
| ss_env e : sstep s (s_set_env e s).

Definition sinit (p0 mx : Z) (s : sstate) : Prop :=
  ∃ e pcs, (∀ i p, pcs !! i = Some p → p = SIdle) ∧
    s = mkSS (SchedulerSemaphore_new p0 mx) e ∅ ∅ pcs ∅ 0 0 0 0 false.

(** ** The invariant *)

Definition s_parked (p : spc) : bool := match p with SParked => true | _ => false end.
Definition s_hand (p : spc) : list Z := match p with SGot n => [n] | SVictims _ vs => vs | _ => [] end.
Definition s_rest (p : spc) : option Z := match p with SVictims v _ => Some v | _ => None end.

Abbreviation sroom := (room s_parked s_hand s_rest).

(** Callers with a permit in hand: resumed with [WOk] and not yet back, or in [Signal] and
    not yet done with it. *)
Definition s_owed (p : spc) : bool := match p with SWoken WOk | SSignal | SGot _ => true | _ => false end.

(** A resumed caller's result stays as it was when it was resumed, and whoever a cancellation
    takes has a result. *)
Record side (s : sstate) : Prop := {
  sd_told i r : s_pcs s !! i = Some (SWoken r) → told s (addr i) = r;
  sd_vict i v vs x : s_pcs s !! i = Some (SVictims v vs) → x ∈ vs → node_result s x = true }.

(** A permit is free only while nobody is queued; permits, acquisitions and signals balance. *)
Record sinv (p0 mx : Z) (s : sstate) : Prop := {
  si_room : ∃ l, sroom (sem_waiters (sm s)) l (s_pcs s) ∧ (0 < permits (sm s) → l = []);
  si_sum : s_acq s + num s_owed (s_pcs s) + permits (sm s) + s_drop s = p0 + s_sigs s + s_free s;
  si_max : maxPermits (sm s) = mx;
  si_low : Z.min 0 p0 ≤ permits (sm s);
  si_high : permits (sm s) ≤ Z.max p0 mx;
  si_side : side s;
  si_fault : s_fault s = false }.

Lemma sinv_init p0 mx s : sinit p0 mx s → sinv p0 mx s.
Proof.
  intros (e & pcs & Hp & ->). constructor; cbn; [|rewrite num_none; [lia|by intros i p ->%Hp]|done|lia|lia| |done].
  - exists []. split; [|done]. apply room_init. intros i p Hi. by rewrite (Hp i p Hi).
  - constructor; cbn; [by intros i r ?%Hp|by intros i v vs x ?%Hp].
Qed.

Lemma side_move s s' i p' :
  side s → s_nodes s' = s_nodes s → s_res s' = s_res s → s_pcs s' = <[i := p']> (s_pcs s) →
  (∀ r, p' = SWoken r → told s (addr i) = r) → (∀ v vs x, p' = SVictims v vs → x ∈ vs → node_result s x = true) → side s'.
Proof.
  intros [S1 S2] En Er Ep H1 H2. unfold told, node_result in *. constructor; unfold told, node_result; rewrite En, ?Er, Ep.
  - intros j r [[<- ->]|[_ Hj]]%lookup_insert_Some; [by apply H1|by apply S1].
  - intros j v vs x [[<- ->]|[_ Hj]]%lookup_insert_Some; [by eapply H2|by eapply S2].
Qed.

(** Steps that leave the semaphore and the nodes alone. *)
Lemma sinv_quiet p0 mx s s' i p p' :
  sinv p0 mx s → s_pcs s !! i = Some p → s_pcs s' = <[i := p']> (s_pcs s) → sm s' = sm s → s_nodes s' = s_nodes s → s_res s' = s_res s →
  s_acq s' + Z.b2z (s_owed p') + s_drop s' - s_sigs s' - s_free s' = s_acq s + Z.b2z (s_owed p) + s_drop s - s_sigs s - s_free s →
  s_fault s' = s_fault s → (∀ r, p' ≠ SWoken r) → (∀ v vs, p' ≠ SVictims v vs) →
  s_parked p' = s_parked p → s_hand p' = s_hand p → s_rest p' = s_rest p → sinv p0 mx s'.
Proof.
  intros [(l & R & Hl) I2 I3 I4 I5 I6 I7] Hi Ep Em En Er Ec Ef H1 H2 H3 H4 H5.
  constructor; rewrite ?Em, ?Ep, ?(num_insert _ _ _ p) by done; [|lia|done|done|done| |congruence].
  - exists l. split; [by eapply room_quiet|done].
  - eapply (side_move s _ i p'); try done; [intros r Hr; by destruct (H1 r)|intros v vs x Hv; by destruct (H2 v vs)].
Qed.

(** The queue stays, a permit is taken, and the caller returns with it. *)
Lemma sinv_taken p0 mx s i p :
  sinv p0 mx s → s_pcs s !! i = Some p → s_owed p = false → s_parked p = false → s_hand p = [] → s_rest p = None → 0 < permits (sm s) →
  sinv p0 mx (s_return i WOk (s_set (take_permit (sm s)) s)).
Proof.
  intros [(l & R & Hl) I2 I3 I4 I5 I6 I7] Hi Ho H3 H4 H5 Hp.
  constructor; cbn; rewrite ?(num_insert _ _ _ p), ?Ho by done; cbn; [|lia|done|lia|lia| |done].
  - exists l. split; [by eapply room_quiet|]. intros _. by apply Hl.
  - by eapply (side_move s _ i SIdle).
Qed.

(** A waker resumes the owner [j] of a node it holds. *)
Lemma wake_ok s i p p' n vs l r :
  sroom (sem_waiters (sm s)) l (s_pcs s) → side s → s_pcs s !! i = Some p → s_parked p = false → s_hand p = n :: vs →
  s_parked p' = false → s_hand p' = vs → (∀ v, s_rest p' = Some v → walks (wq_link (sem_waiters (sm s))) v vs) →
  (r = WCancelled → node_result s n = true) → (∀ q, p' ≠ SWoken q) → (∀ v ws x, p' = SVictims v ws → x ∈ ws → node_result s x = true) →
  let s' := s_move i p' (s_resume n (s_tell n r s)) in
  sroom (sem_waiters (sm s)) l (s_pcs s') ∧ side s' ∧
  num s_owed (s_pcs s') = num s_owed (s_pcs s) + Z.b2z (s_owed (SWoken r)) + Z.b2z (s_owed p') - Z.b2z (s_owed p) ∧
  s_fault s' = s_fault s ∧ sm s' = sm s ∧ s_acq s' = s_acq s ∧ s_drop s' = s_drop s ∧ s_sigs s' = s_sigs s ∧ s_free s' = s_free s.
Proof.
  intros R [S1 S2] Hi Hp Hh Hp' Hh' Hr Hres Hn1 Hn2. destruct (room_owner _ _ _ _ _ _ i p n R Hi) as (j & y & -> & Hj & Hy); [rewrite Hh; set_solver|].
  destruct y; try done. assert (Hij : i ≠ j) by (intros ->; rewrite Hi in Hj; injection Hj as ->; done).
  assert (Et : told (s_tell (addr j) r s) (addr j) = r).
  { unfold told, node_result, s_tell. cbn. fold (node_result s (addr j)). destruct (node_result s (addr j)) eqn:E; [by rewrite lookup_insert_eq|].
    destruct r; [done|]. specialize (Hres eq_refl). congruence. }
  unfold s_resume. rewrite owner_addr. cbn [s_tell s_pcs]. rewrite Hj. cbv zeta. fold (s_tell (addr j) r s). rewrite Et. cbn. split_and!; try done.
  - eapply (room_wake _ _ _ _ _ _ i p p' j SParked (SWoken r) vs); try done.
  - assert (Hoth : ∀ k, k ≠ j → told (s_tell (addr j) r s) (addr k) = told s (addr k)).
    { intros k Hk. unfold told, s_tell. cbn. destruct (node_result s (addr j)); [|done].
      rewrite lookup_insert_ne; [done|]. by intros ?%addr_inj. }
    constructor; cbn.
    + intros k q [[<- ->]|[Hk Hq]]%lookup_insert_Some; [by destruct (Hn1 q)|]. apply lookup_insert_Some in Hq as [[<- [= <-]]|[Hk' Hq]]; [exact Et|].
      etrans; [exact (Hoth k (not_eq_sym Hk'))|by apply S1].
    + intros k v ws x [[<- ->]|[Hk Hq]]%lookup_insert_Some; [by eapply Hn2|]. apply lookup_insert_Some in Hq as [[<- [=]]|[Hk' Hq]]. by eapply S2.
  - rewrite (num_insert _ _ _ p) by (by rewrite lookup_insert_ne). rewrite (num_insert _ _ _ SParked) by done. cbn. lia.
Qed.

Lemma sinv_enter p0 mx s i m o x :
  sinv p0 mx s → s_pcs s !! i = Some (SEnter m) → sem_enter m (IsTaskCancelled (s_env s) i) (addr i) (sm s) = (o, x) →
  sinv p0 mx (after_enter i m o (s_set x s)).
Proof.
  intros H Hi He.
  assert (Hcase : (o = Acquired ∧ 0 < permits (sm s) ∧ x = take_permit (sm s)) ∨ (o = Refused ∧ x = sm s) ∨
    (o = Queued ∧ permits (sm s) ≤ 0 ∧ x = enqueue (addr i) (sm s))).
  { unfold sem_enter, Wait, WaitCancellable, WaitAsyncEnqueue in He. destruct (0 <? permits (sm s)) eqn:E.
    - apply Z.ltb_lt in E. left. destruct m; by injection He as <- <-.
    - apply Z.ltb_ge in E. right. destruct m, (IsTaskCancelled (s_env s) i); injection He as <- <-; auto. }
  destruct Hcase as [(-> & Hp & ->)|[(-> & ->)|(-> & Hp & ->)]]; cbn [after_enter].
  - by eapply sinv_taken.
  - destruct (has_result m); (eapply (sinv_quiet _ _ s _ i (SEnter m) SIdle); try done; cbn; lia).
  - destruct H as [(l & R & Hl) I2 I3 I4 I5 I6 I7]. constructor; cbn; rewrite ?(num_insert _ _ _ (SEnter m)) by done; cbn; try done; [|lia|].
    + exists (l ++ [addr i]). split; [|lia]. by eapply room_push.
    + destruct I6 as [S1 S2]. constructor; unfold told, node_result; cbn.
      * intros j r [[<- ?]|[Hj Hr]]%lookup_insert_Some; [done|]. rewrite !lookup_insert_ne by (by intros ?%addr_inj). by apply S1.
      * intros j v vs y [[<- ?]|[Hj Hr]]%lookup_insert_Some Hy; [done|]. rewrite lookup_insert_ne; [by eapply S2|].
        intros <-. destruct (room_owner _ _ _ _ _ _ j _ (addr i) R Hr) as (k & q & <-%addr_inj & Hk & Hq); [done|]. rewrite Hi in Hk. by injection Hk as <-.
Qed.

Lemma sinv_bank p0 mx s i x :
  sinv p0 mx s → s_pcs s !! i = Some SSignal → Signal_pop (sm s) = (0, x) →
  sinv p0 mx (s_move i SIdle (s_count 0 (if permits (sm s) <? maxPermits (sm s) then 0 else 1) 0 (s_set x s))).
Proof.
  intros [(l & R & Hl) I2 I3 I4 I5 I6 I7] Hi Hx. pose proof (rm_q _ _ _ _ _ _ R) as Hq.
  destruct (wq_pop_ok _ _ Hq) as (En & Hq' & Hlink). unfold Signal_pop in Hx.
  destruct (wq_pop (sem_waiters (sm s))) as [n q]. cbn in En, Hq', Hlink.
  assert (El : l = []).
  { destruct l as [|y l]; [done|]. cbn in En. subst n. exfalso. apply wq_is_ok in Hq as [_ H0].
    destruct (y =? 0) eqn:E; [apply Z.eqb_eq in E; subst; set_solver|]. apply Z.eqb_neq in E. by injection Hx. }
  subst l n. cbn in Hx, Hq'. injection Hx as <-.
  assert (Hroom : sroom q [] (<[i := SIdle]> (s_pcs s))) by (by eapply (room_move _ _ _ _ _ _ i SSignal)).
  assert (Hside : ∀ s', s_nodes s' = s_nodes s → s_res s' = s_res s → s_pcs s' = <[i := SIdle]> (s_pcs s) → side s') by (intros s' ? ? ?; by eapply (side_move s)).
  constructor; cbn; rewrite ?(num_insert _ _ _ SSignal) by done; cbn; destruct (permits (sm s) <? maxPermits (sm s)) eqn:E;
    (apply Z.ltb_lt in E || apply Z.ltb_ge in E); try lia; try done; try (by apply Hside); exists []; done.
Qed.

Lemma sinv_pop p0 mx s i n x :
  sinv p0 mx s → s_pcs s !! i = Some SSignal → Signal_pop (sm s) = (n, x) → n ≠ 0 → sinv p0 mx (s_move i (SGot n) (s_set x s)).
Proof.
  intros [(l & R & Hl) I2 I3 I4 I5 I6 I7] Hi Hx Hn. destruct (wq_pop_ok _ _ (rm_q _ _ _ _ _ _ R)) as (En & Hq' & Hlink).
  unfold Signal_pop in Hx. destruct (wq_pop (sem_waiters (sm s))) as [n' q]. cbn in En, Hq', Hlink.
  destruct (n' =? 0) eqn:E; injection Hx as <- <-; [done|]. destruct l as [|y l]; [done|]. cbn in En, Hq'. subst n'.
  constructor; cbn; rewrite ?(num_insert _ _ _ SSignal) by done; cbn; try done; [|lia|by eapply (side_move s _ i (SGot y))].
  exists l. split; [|intros H; by discriminate (Hl H)].
  eapply (room_move _ _ _ _ _ _ i SSignal); try done. cbn. solve_Permutation.
Qed.

Lemma sinv_wake p0 mx s i n : sinv p0 mx s → s_pcs s !! i = Some (SGot n) → sinv p0 mx (after_pop i n s).
Proof.
  intros [(l & R & Hl) I2 I3 I4 I5 I6 I7] Hi. unfold after_pop. set (r := if skipped s n then WCancelled else WOk).
  assert (Hr : r = WCancelled → node_result s n = true).
  { unfold r, skipped. by destruct (node_result s n). }
  assert (Hw : ∀ p', s_parked p' = false → s_hand p' = [] → s_rest p' = None → (∀ q, p' ≠ SWoken q) → (∀ v ws, p' ≠ SVictims v ws) → _) by
    (intros p' H1 H2 H3 H4 H5; refine (wake_ok s i (SGot n) p' n [] l r R I6 Hi eq_refl eq_refl H1 H2 _ Hr H4 _); [by rewrite H3|intros v ws ? Hv; by destruct (H5 v ws)]).
  unfold r in *. destruct (skipped s n).
  - destruct (Hw SSignal) as (W1 & W2 & W3 & W4 & W5 & W6 & W7 & W8 & W9); try done.
    constructor; rewrite ?W3, ?W4, ?W5, ?W6, ?W7, ?W8, ?W9; cbn [s_owed Z.b2z]; try done; [by exists l|lia].
  - destruct (Hw SIdle) as (W1 & W2 & W3 & W4 & W5 & W6 & W7 & W8 & W9); try done.
    constructor; rewrite ?W3, ?W4, ?W5, ?W6, ?W7, ?W8, ?W9; cbn [s_owed Z.b2z]; try done; [by exists l|lia].
Qed.

Lemma sinv_take p0 mx s i tok h x vs :
  sinv p0 mx s → s_pcs s !! i = Some (SCancel tok) → Semaphore_CancelWaiters (s_env s) (s_nodes s) tok (sm s) = (h, x) →
  walks (wq_link (sem_waiters x)) h vs → sinv p0 mx (s_move i (SVictims h vs) (s_set x s)).
Proof.
  intros [(l & R & Hl) I2 I3 I4 I5 I6 I7] Hi Hx Hw. set (P := cancel_match (s_env s) (s_nodes s) tok).
  destruct (wq_some_ok P _ _ (rm_q _ _ _ _ _ _ R)) as (Hw' & Hq' & Hlink). unfold Semaphore_CancelWaiters in Hx. fold P in Hx.
  destruct (wq_some P (sem_waiters (sm s))) as [h' q]. injection Hx as <- <-. cbn in Hw', Hq', Hlink, Hw.
  pose proof (walks_det _ _ _ _ Hw Hw') as ->.
  constructor; cbn; rewrite ?(num_insert _ _ _ (SCancel tok)) by done; cbn; try done; [|lia|].
  - exists (filter (λ y, P y = false) l). split; [|intros H; by rewrite (Hl H)].
    eapply (room_move _ _ _ _ _ _ i (SCancel tok)); try done; [|by intros v [= <-]]. cbn.
    rewrite app_nil_r. apply filter_split.
  - eapply (side_move s _ i); try done. intros v vs x [= <- <-] [Hx _]%list_elem_of_filter. unfold P, cancel_match, node_result in *.
    destruct (s_nodes s !! x); [|done]. by apply andb_true_iff in Hx as [? _].
Qed.

Lemma sinv_victim p0 mx s i v vs :
  sinv p0 mx s → s_pcs s !! i = Some (SVictims v vs) → v ≠ 0 →
  sinv p0 mx (s_move i (SVictims (wq_link (sem_waiters (sm s)) v) (tail vs)) (s_resume v (s_tell v WCancelled s))).
Proof.
  intros [(l & R & Hl) I2 I3 I4 I5 I6 I7] Hi Hv. pose proof (rm_rest _ _ _ _ _ _ R i _ v Hi eq_refl) as Hwk. cbn in Hwk.
  destruct vs as [|w vs]; [done|]. destruct Hwk as (<- & _ & Hwk).
  pose proof (sd_vict _ I6 i _ _ v Hi ltac:(set_solver)) as Hres.
  destruct (wake_ok s i (SVictims v (v :: vs)) (SVictims (wq_link (sem_waiters (sm s)) v) vs) v vs l WCancelled R I6 Hi)
    as (W1 & W2 & W3 & W4 & W5 & W6 & W7 & W8 & W9); try done; [by intros ? [= <-]| |].
  - intros v' ws x [= _ <-] Hx. apply (sd_vict _ I6 i _ _ x Hi). set_solver.
  - cbn [tail]. constructor; rewrite ?W3, ?W4, ?W5, ?W6, ?W7, ?W8, ?W9; cbn [s_owed Z.b2z]; try done; [by exists l|lia].
Qed.

Lemma sinv_step p0 mx s s' : sinv p0 mx s → sstep s s' → sinv p0 mx s'.
Proof.
  intros H [i s1 Hs|e]; [|by destruct H as [? ? ? ? ? [? ?] ?]].
  destruct Hs as [m Hi _|m Hi _ _|m o x Hi Hx|x Hi Hx|r Hi|Hi|x Hi Hx|n x Hi Hx Hn|n Hi|tok Hi|tok h x vs Hi Hx Hw|v vs Hi Hv|vs Hi].
  - by eapply (sinv_quiet _ _ s _ i SIdle (SEnter m)).
  - eapply (sinv_quiet _ _ s _ i SIdle SIdle); try done. cbn. lia.
  - by apply sinv_enter.
  - unfold Try_Wait in Hx. destruct (0 <? permits (sm s)) eqn:E; [|done]. apply Z.ltb_lt in E. injection Hx as <-. by eapply sinv_taken.
  - rewrite (sd_told _ (si_side _ _ _ H) i r Hi). eapply (sinv_quiet _ _ s _ i (SWoken r) SIdle); try done. destruct r; cbn; lia.
  - eapply (sinv_quiet _ _ s _ i SIdle SSignal); try done. cbn. lia.
  - by apply sinv_bank.
  - by apply sinv_pop.
  - by apply sinv_wake.
  - by eapply (sinv_quiet _ _ s _ i SIdle (SCancel tok)).
  - by eapply sinv_take.
  - by apply sinv_victim.
  - destruct H as [(l & R & Hl) I2 I3 I4 I5 I6 I7]. pose proof (rm_rest _ _ _ _ _ _ R i _ 0 Hi eq_refl) as Hwk.
    apply walks_nil in Hwk. cbn in Hwk. rewrite (proj1 Hwk eq_refl) in Hi.
    constructor; cbn; rewrite ?(num_insert _ _ _ (SVictims 0 [])) by done; cbn; try done; [|lia|by eapply (side_move s _ i SIdle)].
    exists l. split; [|done]. eapply (room_move _ _ _ _ _ _ i (SVictims 0 [])); try done. apply R.
Qed.

Lemma reachable_sinv p0 mx s : reachable (sinit p0 mx) sstep s → sinv p0 mx s.
Proof. apply reachable_ind; [apply sinv_init|intros ? ?; apply sinv_step]. Qed.

(** C26: The semaphore never lets more callers through than it has permits for, and no signal
    is lost.  In every interleaving of waits, signals and cancellations, with the
    cancellation table changing freely: the waits that returned [WOk], the permits in hand
    (callers resumed with [WOk] and not yet back, and calls of [Signal] in progress, each
    until it has given its permit to a waiter or to the semaphore), the free permits and the
    signals that found the semaphore full balance the initial permits, the calls of [Signal]
    and the coroutines let through as cancelled; a resumed caller is told what it returns;
    the permit count stays between 0 and the maximum; and nobody is resumed who is not
    waiting. *)
Theorem semaphore_balance p0 mx s :
  reachable (sinit p0 mx) sstep s →
  s_acq s + num s_owed (s_pcs s) + permits (sm s) + s_drop s = p0 + s_sigs s + s_free s ∧
  (∀ i r, s_pcs s !! i = Some (SWoken r) → told s (addr i) = r) ∧
  ((0 ≤ p0 ≤ mx) → (0 ≤ permits (sm s) ≤ mx)) ∧ s_fault s = false.
Proof. intros [_ H2 _ H4 H5 [H6 _] H7]%reachable_sinv. split_and!; [done|done|lia|done]. Qed.

(** No caller is in the middle of an operation. *)
Definition s_at_rest (s : sstate) : Prop := ∀ i p, s_pcs s !! i = Some p → p = SIdle ∨ p = SParked.

(** C27: A waiter never sleeps next to a free permit.  When no operation is in progress,
    every waiting caller is in the queue, where the next signal finds it, and if anyone
    waits there is no permit left. *)
Theorem semaphore_no_lost_wakeup p0 mx s :
  reachable (sinit p0 mx) sstep s → s_at_rest s →
  ∃ l, wq_is (sem_waiters (sm s)) l ∧ (∀ i, s_pcs s !! i = Some SParked ↔ addr i ∈ l) ∧
    ((∃ i, s_pcs s !! i = Some SParked) → permits (sm s) ≤ 0).
Proof.
  intros [(l & R & Hl) _ _ _ _ _ _]%reachable_sinv Hrest. exists l.
  assert (Hh : ∀ j x, s_pcs s !! j = Some x → s_hand x = []) by (intros j x Hj; by destruct (Hrest j x Hj) as [-> | ->]).
  assert (Hin : ∀ i, s_pcs s !! i = Some SParked → addr i ∈ l) by (intros i Hi; by eapply room_rest).
  split_and!; [apply R| |].
  - intros i. split; [apply Hin|]. intros Hi. destruct (rm_in _ _ _ _ _ _ R (addr i)) as (j & p & ->%addr_inj & Hj & Hp); [set_solver|].
    by destruct p.
  - intros (i & Hi). destruct (decide (0 < permits (sm s))) as [Hp|]; [|lia]. specialize (Hin i Hi). rewrite (Hl Hp) in Hin. set_solver.
Qed.

(** ** Cancellation *)

(** As [sstep], with scopes being cancelled as the only change to the table. *)
Inductive calm_sstep (s : sstate) : sstate → Prop :=
| cs_caller i s' : sem_step i s s' → calm_sstep s s'
| cs_cancel e : env_grows (s_env s) e → calm_sstep s (s_set_env e s).

Record swept (tok : Z) (s : sstate) : Prop := {
  sw_inv : ∃ p0 mx, sinv p0 mx s;
  sw_valid : Valid tok = true;
  sw_canc j : IsWithin (e_tab (s_env s)) (token_of (s_env s) j) tok = true → IsTaskCancelled (s_env s) j = true;
  sw_queue l n : wq_is (sem_waiters (sm s)) l → n ∈ l → cancel_match (s_env s) (s_nodes s) tok n = false }.

(** Steps that bring no new waiter. *)
Lemma swept_shrink tok s s' :
  swept tok s → (∃ p0 mx, sinv p0 mx s') → s_env s' = s_env s → s_nodes s' = s_nodes s →
  (∀ l', wq_is (sem_waiters (sm s')) l' → ∃ l, wq_is (sem_waiters (sm s)) l ∧ l' ⊆ l) → swept tok s'.
Proof.
  intros [W1 W2 W3 W4] Hi Ee En Hl. constructor; rewrite ?Ee, ?En; try done. intros l' n Hq Hn.
  destruct (Hl l' Hq) as (l & Hq' & Hsub). eapply W4; [done|by apply Hsub].
Qed.

Lemma swept_enqueue tok s i m x :
  swept tok s → s_pcs s !! i = Some (SEnter m) → sem_enter m (IsTaskCancelled (s_env s) i) (addr i) (sm s) = (Queued, x) →
  (∃ p0 mx, sinv p0 mx (after_enter i m Queued (s_set x s))) → swept tok (after_enter i m Queued (s_set x s)).
Proof.
  intros [W1 W2 W3 W4] Hi He Hinv. cbn [after_enter] in *. destruct W1 as (p0 & mx & [(l & R & _) _ _ _ _ _ _]).
  assert (Hno : addr i ∉ l).
  { intros Hl. destruct (rm_in _ _ _ _ _ _ R (addr i)) as (j & p & <-%addr_inj & Hj & Hp); [set_solver|].
    rewrite Hi in Hj. by injection Hj as <-. }
  assert (Hx : x = enqueue (addr i) (sm s) ∧ (has_result m = true → IsTaskCancelled (s_env s) i = false)).
  { unfold sem_enter, Wait, WaitCancellable, WaitAsyncEnqueue in He.
    destruct (0 <? _), m, (IsTaskCancelled (s_env s) i); try discriminate He; by injection He as <-. }
  destruct Hx as [-> Hc]. constructor; [done|done|exact W3|]. cbn. intros l' n Hq Hn.
  destruct (wq_push_ok _ _ _ (rm_q _ _ _ _ _ _ R) (addr_pos i) Hno) as [Hq' _]. pose proof (wq_is_det _ _ _ Hq Hq') as ->.
  unfold cancel_match. destruct (decide (n = addr i)) as [->|Hne].
  - rewrite lookup_insert_eq. cbn. rewrite W2. cbn. destruct (has_result m) eqn:Er; [|done].
    destruct (IsWithin _ _ _) eqn:Ew; [|by rewrite andb_false_r]. apply W3 in Ew. rewrite (Hc eq_refl) in Ew. done.
  - rewrite lookup_insert_ne by done. apply (W4 l n); [apply R|]. set_solver.
Qed.

Lemma resume_same n s : s_env (s_resume n s) = s_env s ∧ s_nodes (s_resume n s) = s_nodes s ∧ sm (s_resume n s) = sm s.
Proof. unfold s_resume. destruct (s_pcs s !! owner n) as [[]|]; done. Qed.

Lemma signal_shrink s l n x : wq_is (sem_waiters s) l → Signal_pop s = (n, x) → wq_is (sem_waiters x) (tail l).
Proof.
  intros (_ & Hq & _)%wq_pop_ok. unfold Signal_pop. destruct (wq_pop (sem_waiters s)) as [n' q]. destruct (n' =? 0); by intros [= <- <-].
Qed.

Lemma cancel_shrink e nodes tok s l h x :
  wq_is (sem_waiters s) l → Semaphore_CancelWaiters e nodes tok s = (h, x) →
  wq_is (sem_waiters x) (filter (λ n, cancel_match e nodes tok n = false) l).
Proof.
  intros Hq. destruct (wq_some_ok (cancel_match e nodes tok) _ _ Hq) as (_ & Hq' & _). unfold Semaphore_CancelWaiters.
  destruct (wq_some _ _) as [h' q]. by intros [= <- <-].
Qed.

Lemma swept_step tok s s' : swept tok s → calm_sstep s s' → swept tok s'.
Proof.
  intros W Hs. pose proof W as [(p0 & mx & I) W2 W3 W4].
  assert (Hinv : ∃ p0 mx, sinv p0 mx s').
  { exists p0, mx. destruct Hs as [i s1 Hs|e He]; (eapply sinv_step; [exact I|]); [by eapply ss_caller|apply ss_env]. }
  pose proof I as [(l0 & R & _) _ _ _ _ _ _]. pose proof (rm_q _ _ _ _ _ _ R) as Hq0.
  assert (Hsh : ∀ l1, l1 ⊆ l0 → wq_is (sem_waiters (sm s')) l1 → s_env s' = s_env s → s_nodes s' = s_nodes s → swept tok s').
  { intros l1 Hsub Hq1 E1 E2. eapply swept_shrink; [exact W|done|done|done|]. intros l' Hl'. exists l0. split; [done|].
    by rewrite (wq_is_det _ _ _ Hl' Hq1). }
  destruct Hs as [i s1 Hs|e He].
  2:{ constructor; [done|done|..]; cbn.
      - intros j Hj. eapply grows_cancelled; [exact He|]. apply W3. destruct He as (Et & _ & _ & Hw). unfold token_of in *. by rewrite Hw, Et in Hj.
      - intros l n Hq Hn. rewrite <- (W4 l n Hq Hn). unfold cancel_match. destruct He as (_ & _ & _ & Hw). by destruct (s_nodes s !! n); [rewrite Hw|]. }
  destruct Hs as [m Hi _|m Hi _ _|m o x Hi Hx|x Hi Hx|r Hi|Hi|x Hi Hx|n x Hi Hx Hn|n Hi|tok' Hi|tok' h x vs Hi Hx Hw|v vs Hi Hv|vs Hi].
  all: try (by apply (Hsh l0)).
  - destruct o; [|destruct (has_result m) eqn:Er|by apply swept_enqueue].
    all: assert (Ex : sem_waiters x = sem_waiters (sm s)) by
      (unfold sem_enter, Wait, WaitCancellable, WaitAsyncEnqueue in Hx;
       destruct (0 <? _), m, (IsTaskCancelled (s_env s) i); try discriminate Hx; by injection Hx as <-).
    all: apply (Hsh l0); cbn; rewrite ?Er; cbn; rewrite ?Ex; done.
  - apply (Hsh l0); try done. unfold Try_Wait in Hx. destruct (0 <? _); [|done]. by injection Hx as <-.
  - apply (Hsh (tail l0)); [by destruct l0; set_solver|by eapply signal_shrink|done|done].
  - apply (Hsh (tail l0)); [by destruct l0; set_solver|by eapply signal_shrink|done|done].
  - unfold after_pop in *. destruct (resume_same n (s_tell n (if skipped s n then WCancelled else WOk) s)) as (E1 & E2 & E3).
    destruct (skipped s n); apply (Hsh l0); cbn; rewrite ?E1, ?E2, ?E3; done.
  - apply (Hsh (filter (λ n, cancel_match (s_env s) (s_nodes s) tok' n = false) l0)); [|by eapply cancel_shrink|done|done].
    intros y Hy. by apply list_elem_of_filter in Hy as [_ Hy].
  - destruct (resume_same v (s_tell v WCancelled s)) as (E1 & E2 & E3). apply (Hsh l0); cbn; rewrite ?E1, ?E2, ?E3; done.
Qed.

(** Cancelling reaches every waiter.  Once the scope [tok] is cancelled (as a timer
    does through [CancelVia]) and [CancelWaiters(tok)] has taken its victims under the
    lock, no cancellable waiter of a task within [tok] is in the queue, then or at any
    later time: a wait that starts later sees the cancellation under the lock and does not
    queue.  The waits do not have to be ordered with the cancellation in any way. *)
Theorem semaphore_cancel_complete p0 mx s i tok c h x vs s' l n :
  reachable (sinit p0 mx) sstep s → CancelVia tok c = (true, e_tab (s_env s)) →
  s_pcs s !! i = Some (SCancel tok) → Semaphore_CancelWaiters (s_env s) (s_nodes s) tok (sm s) = (h, x) →
  walks (wq_link (sem_waiters x)) h vs → rtc calm_sstep (s_move i (SVictims h vs) (s_set x s)) s' →
  wq_is (sem_waiters (sm s')) l → n ∈ l → cancel_match (s_env s') (s_nodes s') tok n = false.
Proof.
  intros Hr Hc Hi Hx Hw Hrun Hl Hn. pose proof (reachable_sinv _ _ _ Hr) as I. pose proof I as [(l0 & R & _) _ _ _ _ _ _].
  pose proof (CancelVia_cancelled _ _ _ Hc) as Hsc.
  assert (W : swept tok (s_move i (SVictims h vs) (s_set x s))).
  { constructor.
    - exists p0, mx. by eapply sinv_take.
    - destruct Hsc as [Hv _]. unfold Valid. by apply negb_true_iff, Z.eqb_neq.
    - cbn. intros j Hj. unfold IsTaskCancelled. rewrite (within_cancelled _ _ _ Hsc Hj). apply orb_true_r.
    - cbn. intros l' y Hl' Hy. rewrite (wq_is_det _ _ _ Hl' (cancel_shrink _ _ _ _ _ _ _ (rm_q _ _ _ _ _ _ R) Hx)) in Hy.
      by apply list_elem_of_filter in Hy as [? _]. }
  clear -W Hrun Hl Hn. assert (W' : swept tok s') by (induction Hrun as [|? ? ? Hs _ IH]; [done|apply IH; [done|by eapply swept_step]]).
  by eapply sw_queue.
Qed.

(** ** [Signal] as the list of waiters sees it *)

Lemma Signal_S fuel skip s :
  Signal (S fuel) skip s =
    let '(n, s1) := Signal_pop s in
    if n =? 0 then Some ([], s1)
    else if skip n then '(w, s2) ← Signal fuel skip s1; Some ((n, WCancelled) :: w, s2)
    else Some ([(n, WOk)], s1).
Proof. done. Qed.

(** A signal goes to the oldest waiter that is not cancelled.  [Signal] run alone ends
    after at most one turn per waiter and one more; it resumes the cancelled waiters in
    front, telling each so, and then the first live one, which gets the permit; only when
    no live waiter is queued is the permit banked, up to the maximum. *)
Theorem semaphore_signal_refines skip s l :
  wq_is (sem_waiters s) l →
  ∃ s', Signal (S (length l)) skip s = Some ((wake_spec skip l).1.1, s') ∧ wq_is (sem_waiters s') (wake_spec skip l).1.2 ∧
    permits s' = (if (wake_spec skip l).2 && (permits s <? maxPermits s) then permits s + 1 else permits s).
Proof.
  revert s. induction l as [|n l IH]; intros s Hq; pose proof (wq_pop_ok _ _ Hq) as (En & Hq' & _);
    pose proof (wq_is_ok _ _ Hq) as [Hnd H0]; rewrite Signal_S; unfold Signal_pop; destruct (wq_pop _) as [n' q]; cbn in En, Hq'.
  - subst n'. cbn. eexists. split_and!; [done|done|]. cbn. by destruct (_ <? _).
  - subst n'. apply not_elem_of_cons in H0 as [Hn _]. assert (E0 : (n =? 0) = false) by (by apply Z.eqb_neq).
    rewrite E0. cbn [wake_spec length]. cbn beta iota. rewrite E0. destruct (skip n).
    + destruct (IH (mkSem (permits s) (maxPermits s) q) Hq') as (s' & E & H1 & H2). rewrite E. clear E.
      destruct (wake_spec skip l) as [[w r] b]. cbn in *. by exists s'.
    + by eexists.
Qed.
End semaphore.

(** ** Concrete runs, with [WaitList] as the queue *)

(** Slot 0 of the cancellation table is a cancelled scope; the task of caller 0 is in it. *)
Definition cancelled_scope : Cancel := mkCancel {[0 := mkSlot 1 kNoToken 0]} 1.
Definition cancelled_env : env := mkEnv cancelled_scope ∅ {[0%nat := 0]}.

Abbreviation sems := (sstate (Q := WaitList)).

Definition sem_start (p0 : Z) : sems :=
  mkSS (SchedulerSemaphore_new p0 100) cancelled_env ∅ ∅ {[0%nat := SIdle; 1%nat := SIdle]} ∅ 0 0 0 0 false.

Definition sem_overrun : sems :=
  s_return 0 WOk (s_count 0 0 1 (s_move 0 (SEnter MAsync) (sem_start 0))).

(** A cancelled coroutine walks through an empty semaphore.  The coroutine awaits a
    semaphore without a result; it has no permit to give, but [WaitAsyncEnqueue] finds the
    task cancelled and returns true, which its caller takes for an acquired permit: one
    acquisition, no permit, no signal. *)
Theorem semaphore_coroutine_overrun :
  reachable (sinit 0 100) sstep sem_overrun ∧ s_acq sem_overrun = 1 ∧ s_sigs sem_overrun = 0 ∧ s_ret sem_overrun !! 0%nat = Some WOk.
Proof.
  split_and!; [|done..]. exists (sem_start 0). split.
  { exists cancelled_env, {[0%nat := SIdle; 1%nat := SIdle]}. split; [|done]. intros i p Hi.
    apply lookup_insert_Some in Hi as [[_ <-]|[_ Hi]]; [done|]. by apply lookup_singleton_Some in Hi as [_ <-]. }
  eapply rtc_l; [apply (ss_caller _ 0), (sm_start _ _ MAsync); done|]. apply rtc_once.
  apply (ss_caller _ 0). by refine (sm_enter 0 (s_move 0 (SEnter MAsync) (sem_start 0)) MAsync Refused (sm (sem_start 0)) _ _).
Qed.

(** ** Witnesses *)

Lemma sem_start_init p0 : sinit p0 100 (sem_start p0).
Proof.
  exists cancelled_env, {[0%nat := SIdle; 1%nat := SIdle]}. split; [|done]. intros i p Hi.
  apply lookup_insert_Some in Hi as [[_ <-]|[_ Hi]]; [done|]. by apply lookup_singleton_Some in Hi as [_ <-].
Qed.

(** Caller 1 waits on an empty semaphore. *)
Definition sem_waiting : sems :=
  after_enter 1 MWait Queued (s_set (enqueue (addr 1) (sm (sem_start 0))) (s_move 1 (SEnter MWait) (sem_start 0))).

Lemma sem_waiting_reachable : reachable (sinit 0 100) sstep sem_waiting.
Proof.
  exists (sem_start 0). split; [apply sem_start_init|].
  eapply rtc_l; [apply (ss_caller _ 1), (sm_start _ _ MWait); done|]. apply rtc_once, (ss_caller _ 1).
  by refine (sm_enter 1 (s_move 1 (SEnter MWait) (sem_start 0)) MWait Queued _ _ _).
Qed.

Lemma semaphore_balance_witness : s_acq sem_waiting + permits (sm sem_waiting) = 0 ∧ s_fault sem_waiting = false.
Proof. pose proof (semaphore_balance 0 100 sem_waiting sem_waiting_reachable) as (H1 & _ & _ & H3). split; [vm_compute; reflexivity|exact H3]. Defined.

Lemma semaphore_no_lost_wakeup_witness : ∃ l, wq_is (sem_waiters (sm sem_waiting)) l ∧ addr 1 ∈ l ∧ permits (sm sem_waiting) ≤ 0.
Proof.
  destruct (semaphore_no_lost_wakeup 0 100 sem_waiting sem_waiting_reachable) as (l & H1 & H2 & H3).
  - assert (H : map_Forall (λ _ p, match p with SIdle | SParked => true | _ => false end = true) (s_pcs sem_waiting))
      by (apply (bool_decide_unpack _); vm_compute; exact I).
    intros i p Hi. specialize (H i p Hi). destruct p; [left|discriminate H|right|discriminate H..]; reflexivity.
  - exists l. split; [exact H1|]. split; [apply H2; vm_compute; reflexivity|]. apply H3. exists 1%nat. vm_compute. reflexivity.
Defined.

Lemma semaphore_signal_refines_witness :
  ∃ s', Signal 2 (λ _, false) (sm sem_waiting) = Some ([(2, WOk)], s') ∧ wq_is (sem_waiters s') [].
Proof.
  destruct (semaphore_signal_refines (λ _, false) (sm sem_waiting) [addr 1]) as (s' & H1 & H2 & _).
  - split; [|reflexivity]. cbn. split; [reflexivity|]. split; [discriminate|reflexivity].
  - exists s'. split; [exact H1|exact H2].
Defined.

(** Caller 1 waits, and caller 0 sweeps the queue for the cancelled scope. *)
Definition sem_sweeping : sems := s_move 0 (SCancel 0) sem_waiting.
Definition sem_swept : SchedulerSemaphore := (Semaphore_CancelWaiters cancelled_env (s_nodes sem_sweeping) 0 (sm sem_sweeping)).2.

Lemma semaphore_cancel_complete_witness :
  cancel_match cancelled_env (s_nodes sem_sweeping) 0 (addr 1) = false ∧ wq_is (sem_waiters sem_swept) [addr 1].
Proof.
  assert (Hq : wq_is (sem_waiters sem_swept) [addr 1]).
  { split; [|vm_compute; reflexivity]. split; [vm_compute; reflexivity|]. split; [discriminate|vm_compute; reflexivity]. }
  split; [|exact Hq].
  refine (semaphore_cancel_complete 0 100 sem_sweeping 0 0 cancelled_scope 0 sem_swept []
    (s_move 0 (SVictims 0 []) (s_set sem_swept sem_sweeping)) [addr 1] (addr 1) _ _ _ _ _ _ Hq _).
  - eapply reachable_step; [exact sem_waiting_reachable|]. apply (ss_caller _ 0), sm_cancel. vm_compute. reflexivity.
  - vm_compute. reflexivity.
  - vm_compute. reflexivity.
  - vm_compute. reflexivity.
  - reflexivity.
  - apply rtc_refl.
  - apply list_elem_of_singleton. reflexivity.
Defined.
