(* ===== verification/SchedMutex.v ===== *)
(** * SchedulerMutex (src/TaskScheduler.cpp, include/TaskScheduler.h)

    A flag and a FIFO of waiters under one spin lock; a lock that is waited for is handed
    from the unlocker to the oldest live waiter and is never free in between.  Threads that
    cannot suspend wait on a condition variable of the operating system instead, guarded by
    [bareMtx] and counted in [bareWaiters].  As for the semaphore, a critical section of the
    spin lock is one function and everything else a step of its own.  [lockHolder] is
    written but never read by the code and is left out. *)

From S2P Require Import Prelude CancelTokens WaitLists SyncCore.

Section mutex.
Context {Q : Type} `{!WaitQueue Q}.

Record SchedulerMutex := mkMutex { locked : bool; mx_waiters : Q }.

Definition SchedulerMutex_new : SchedulerMutex := mkMutex false wq_none.

(** ** The critical sections *)

Definition Try_Lock (m : SchedulerMutex) : bool * SchedulerMutex :=
  if locked m then (false, m) else (true, mkMutex true (mx_waiters m)).

(** The suspending path of [Lock] up to the clear of the spin lock: true when the lock was
    free, otherwise node [n] is queued. *)
Definition Lock_enter (n : Z) (m : SchedulerMutex) : bool * SchedulerMutex :=
  if negb (locked m) then (true, mkMutex true (mx_waiters m)) else (false, mkMutex (locked m) (wq_push n (mx_waiters m))).

(** [LockCancellable] takes the same decision; it does not look at the task again. *)
Definition LockCancellable_enter (n : Z) (m : SchedulerMutex) : bool * SchedulerMutex :=
  if negb (locked m) then (true, mkMutex true (mx_waiters m)) else (false, mkMutex (locked m) (wq_push n (mx_waiters m))).

(** [LockAsyncEnqueue], with or without a result: true when the coroutine has the lock. *)
Definition LockAsyncEnqueue (n : Z) (m : SchedulerMutex) : bool * SchedulerMutex :=
  if negb (locked m) then (true, mkMutex true (mx_waiters m)) else (false, mkMutex (locked m) (wq_push n (mx_waiters m))).

Inductive lmode := LPlain | LCancellable | LAsync | LAsyncCancellable.

Definition l_result (k : lmode) : bool := match k with LCancellable | LAsyncCancellable => true | _ => false end.

Definition lock_enter (k : lmode) (n : Z) (m : SchedulerMutex) : bool * SchedulerMutex :=
  match k with LPlain => Lock_enter n m | LCancellable => LockCancellable_enter n m | _ => LockAsyncEnqueue n m end.

Lemma lock_enter_cases k n m b x :
  lock_enter k n m = (b, x) →
  (b = true ∧ locked m = false ∧ x = mkMutex true (mx_waiters m)) ∨ (b = false ∧ locked m = true ∧ x = mkMutex true (wq_push n (mx_waiters m))).
Proof.
  destruct k; cbn; unfold Lock_enter, LockCancellable_enter, LockAsyncEnqueue; destruct (locked m) eqn:E; cbn; intros [= <- <-]; auto.
Qed.

(** One turn of [Unlock]'s loop: the waiter popped, or null with the lock released. *)
Definition Unlock_pop (m : SchedulerMutex) : Z * SchedulerMutex :=
  let '(n, q) := wq_pop (mx_waiters m) in (n, mkMutex (if n =? 0 then false else locked m) q).

Definition Mutex_CancelWaiters (e : env) (nodes : gmap Z WaitNode) (tok : Z) (m : SchedulerMutex) : Z * SchedulerMutex :=
  let '(h, q) := wq_some (cancel_match e nodes tok) (mx_waiters m) in (h, mkMutex (locked m) q).

(** [Unlock] run alone: the waiters resumed and what each is told; the last one told [WOk]
    has the lock. *)
Fixpoint Unlock (fuel : nat) (skip : Z → bool) (m : SchedulerMutex) : option (list (Z * WaitResult) * SchedulerMutex) :=
  match fuel with
  | O => None
  | S fuel' =>
      let '(n, m1) := Unlock_pop m in
      if n =? 0 then Some ([], m1)
      else if skip n then '(w, m2) ← Unlock fuel' skip m1; Some ((n, WCancelled) :: w, m2)
      else Some ([(n, WOk)], m1)
  end.

(** ** Concurrent callers *)

Inductive mpc :=
| MIdle
| MEnter (k : lmode)            (* about to take the spin lock *)
| MParked (r : bool)            (* its node is queued; [r]: the wait has a result *)
| MWoken (r g : bool)           (* resumed; [g]: the lock was handed to it *)
| MCrit                         (* has the lock *)
| MPop                          (* in [Unlock], before the spin lock *)
| MGot (n : Z)                  (* in [Unlock], has popped [n]; the lock is still taken *)
| MReleased                     (* has released the lock, about to read [bareWaiters] *)
| MNotify1                      (* about to take [bareMtx] *)
| MNotify2                      (* has [bareMtx] *)
| MNotify3                      (* has dropped it, about to notify *)
| MCancel (tok : Z)
| MVictims (v : Z) (vs : list Z)
| BAdd                          (* a bare thread, about to count itself in *)
| BLock                         (* about to take [bareMtx] *)
| BPred                         (* has [bareMtx], about to try the lock *)
| BFailed                       (* has [bareMtx], the try failed *)
| BSleep                        (* asleep on [bareCv] *)
| BHave                         (* has the lock and [bareMtx] *)
| BSub.                         (* has the lock, about to count itself out *)

(** [m_mtx]: whether [bareMtx] is taken. *)
Record mstate := mkMS {
  mx : SchedulerMutex; m_env : env; m_nodes : gmap Z WaitNode; m_res : gmap Z WaitResult; m_pcs : gmap nat mpc;
  m_ret : gmap nat WaitResult; bareWaiters : Z; m_mtx : bool; m_fault : bool }.

Definition m_move (i : nat) (p : mpc) (s : mstate) : mstate :=
  mkMS (mx s) (m_env s) (m_nodes s) (m_res s) (<[i := p]> (m_pcs s)) (m_ret s) (bareWaiters s) (m_mtx s) (m_fault s).
Definition m_set (x : SchedulerMutex) (s : mstate) : mstate :=
  mkMS x (m_env s) (m_nodes s) (m_res s) (m_pcs s) (m_ret s) (bareWaiters s) (m_mtx s) (m_fault s).
Definition m_set_env (e : env) (s : mstate) : mstate :=
  mkMS (mx s) e (m_nodes s) (m_res s) (m_pcs s) (m_ret s) (bareWaiters s) (m_mtx s) (m_fault s).
Definition m_return (i : nat) (r : WaitResult) (s : mstate) : mstate :=
  mkMS (mx s) (m_env s) (m_nodes s) (m_res s) (<[i := if decide (r = WOk) then MCrit else MIdle]> (m_pcs s))
    (<[i := r]> (m_ret s)) (bareWaiters s) (m_mtx s) (m_fault s).
Definition m_bare (d : Z) (s : mstate) : mstate :=
  mkMS (mx s) (m_env s) (m_nodes s) (m_res s) (m_pcs s) (m_ret s) (bareWaiters s + d) (m_mtx s) (m_fault s).
Definition m_set_mtx (b : bool) (s : mstate) : mstate :=
  mkMS (mx s) (m_env s) (m_nodes s) (m_res s) (m_pcs s) (m_ret s) (bareWaiters s) b (m_fault s).
Definition m_node (i : nat) (r : bool) (s : mstate) : mstate :=
  mkMS (mx s) (m_env s)
    (<[addr i := mkWaitNode 0 (addr i) 0 (if r then addr i else 0) (token_of (m_env s) i)]> (m_nodes s))
    (<[addr i := WOk]> (m_res s)) (m_pcs s) (m_ret s) (bareWaiters s) (m_mtx s) (m_fault s).

Definition m_has_result (s : mstate) (n : Z) : bool := match m_nodes s !! n with Some w => negb (wn_result w =? 0) | None => false end.

(** [*result = r] when there is a result. *)
Definition m_tell (n : Z) (r : WaitResult) (s : mstate) : mstate :=
  mkMS (mx s) (m_env s) (m_nodes s) (if m_has_result s n then <[n := r]> (m_res s) else m_res s) (m_pcs s) (m_ret s)
    (bareWaiters s) (m_mtx s) (m_fault s).

(** [Thread::Resume] or [WakeTask]; [g]: with the lock. *)
Definition m_resume (n : Z) (g : bool) (s : mstate) : mstate :=
  match m_pcs s !! owner n with
  | Some (MParked r) => m_move (owner n) (MWoken r g) s
  | _ => mkMS (mx s) (m_env s) (m_nodes s) (m_res s) (m_pcs s) (m_ret s) (bareWaiters s) (m_mtx s) true
  end.

Definition m_skipped (s : mstate) (n : Z) : bool := m_has_result s n && IsTaskCancelled (m_env s) (owner n).

(** What [Unlock] does with the waiter it popped. *)
Definition m_after_pop (i : nat) (n : Z) (s : mstate) : mstate :=
  if m_skipped s n then m_move i MPop (m_resume n false (m_tell n WCancelled s))
  else m_move i MIdle (m_resume n true (m_tell n WOk s)).

(** What the resumed caller reads: its result when it has one. *)
Definition m_told (s : mstate) (i : nat) (r : bool) : WaitResult := if r then default WOk (m_res s !! addr i) else WOk.

Inductive mutex_step (i : nat) (s : mstate) : mstate → Prop :=
| mt_start k : m_pcs s !! i = Some MIdle → (l_result k = true → IsTaskCancelled (m_env s) i = false) → mutex_step i s (m_move i (MEnter k) s)
| mt_start_cancelled : m_pcs s !! i = Some MIdle → IsTaskCancelled (m_env s) i = true → mutex_step i s (m_return i WCancelled s)
| mt_take k x : m_pcs s !! i = Some (MEnter k) → lock_enter k (addr i) (mx s) = (true, x) → mutex_step i s (m_return i WOk (m_set x s))
| mt_queue k x : m_pcs s !! i = Some (MEnter k) → lock_enter k (addr i) (mx s) = (false, x) →
    mutex_step i s (m_move i (MParked (l_result k)) (m_node i (l_result k) (m_set x s)))
| mt_woken r g : m_pcs s !! i = Some (MWoken r g) → mutex_step i s (m_return i (m_told s i r) s)
| mt_try x : m_pcs s !! i = Some MIdle → Try_Lock (mx s) = (true, x) → mutex_step i s (m_return i WOk (m_set x s))
| mt_unlock : m_pcs s !! i = Some MCrit → mutex_step i s (m_move i MPop s)
| mt_release x : m_pcs s !! i = Some MPop → Unlock_pop (mx s) = (0, x) → mutex_step i s (m_move i MReleased (m_set x s))
| mt_pop n x : m_pcs s !! i = Some MPop → Unlock_pop (mx s) = (n, x) → n ≠ 0 → mutex_step i s (m_move i (MGot n) (m_set x s))
| mt_wake n : m_pcs s !! i = Some (MGot n) → mutex_step i s (m_after_pop i n s)
| mt_nobare : m_pcs s !! i = Some MReleased → bareWaiters s = 0 → mutex_step i s (m_move i MIdle s)
| mt_bare : m_pcs s !! i = Some MReleased → bareWaiters s ≠ 0 → mutex_step i s (m_move i MNotify1 s)
| mt_notify1 : m_pcs s !! i = Some MNotify1 → m_mtx s = false → mutex_step i s (m_move i MNotify2 (m_set_mtx true s))
| mt_notify2 : m_pcs s !! i = Some MNotify2 → mutex_step i s (m_move i MNotify3 (m_set_mtx false s))
| mt_notify3 j : m_pcs s !! i = Some MNotify3 → m_pcs s !! j = Some BSleep → mutex_step i s (m_move i MIdle (m_move j BLock s))
| mt_notify_none : m_pcs s !! i = Some MNotify3 → (∀ j, m_pcs s !! j ≠ Some BSleep) → mutex_step i s (m_move i MIdle s)
| mt_cancel tok : m_pcs s !! i = Some MIdle → mutex_step i s (m_move i (MCancel tok) s)
| mt_sweep tok h x vs : m_pcs s !! i = Some (MCancel tok) → Mutex_CancelWaiters (m_env s) (m_nodes s) tok (mx s) = (h, x) →
    walks (wq_link (mx_waiters x)) h vs → mutex_step i s (m_move i (MVictims h vs) (m_set x s))
| mt_victim v vs : m_pcs s !! i = Some (MVictims v vs) → v ≠ 0 →
    mutex_step i s (m_move i (MVictims (wq_link (mx_waiters (mx s)) v) (tail vs)) (m_resume v false (m_tell v WCancelled s)))
| mt_cancelled vs : m_pcs s !! i = Some (MVictims 0 vs) → mutex_step i s (m_move i MIdle s)
| bt_start : m_pcs s !! i = Some MIdle → mutex_step i s (m_move i BAdd s)
| bt_add : m_pcs s !! i = Some BAdd → mutex_step i s (m_move i BLock (m_bare 1 s))
| bt_lock : m_pcs s !! i = Some BLock → m_mtx s = false → mutex_step i s (m_move i BPred (m_set_mtx true s))
| bt_fail x : m_pcs s !! i = Some BPred → Try_Lock (mx s) = (false, x) → mutex_step i s (m_move i BFailed (m_set x s))
| bt_sleep : m_pcs s !! i = Some BFailed → mutex_step i s (m_move i BSleep (m_set_mtx false s))
| bt_spurious : m_pcs s !! i = Some BSleep → mutex_step i s (m_move i BLock s)
| bt_have x : m_pcs s !! i = Some BPred → Try_Lock (mx s) = (true, x) → mutex_step i s (m_move i BHave (m_set x s))
| bt_leave : m_pcs s !! i = Some BHave → mutex_step i s (m_move i BSub (m_set_mtx false s))
| bt_sub : m_pcs s !! i = Some BSub → mutex_step i s (m_move i MCrit (m_bare (-1) s)).

Inductive mstep (s : mstate) : mstate → Prop :=
| ms_caller i s' : mutex_step i s s' → mstep s s'
| ms_env e : mstep s (m_set_env e s).

Definition minit (s : mstate) : Prop :=
  ∃ e pcs, (∀ i p, pcs !! i = Some p → p = MIdle) ∧ s = mkMS SchedulerMutex_new e ∅ ∅ pcs ∅ 0 false false.

(** ** The invariant *)

Definition m_parked (p : mpc) : bool := match p with MParked _ => true | _ => false end.
Definition m_hand (p : mpc) : list Z := match p with MGot n => [n] | MVictims _ vs => vs | _ => [] end.
Definition m_rest (p : mpc) : option Z := match p with MVictims v _ => Some v | _ => None end.

(** Who has the lock, [bareMtx]; who is counted in [bareWaiters]; who may still wake a
    sleeper. *)
Definition owns (p : mpc) : bool := match p with MCrit | MPop | MGot _ | BHave | BSub | MWoken _ true => true | _ => false end.
Definition has_mtx (p : mpc) : bool := match p with MNotify2 | BPred | BFailed | BHave => true | _ => false end.
Definition counted (p : mpc) : bool := match p with BLock | BPred | BFailed | BSleep | BHave | BSub => true | _ => false end.
Definition failed (p : mpc) : bool := match p with BFailed => true | _ => false end.
Definition asleep (p : mpc) : bool := match p with BSleep => true | _ => false end.
Definition before_mtx (p : mpc) : bool := match p with MReleased | MNotify1 => true | _ => false end.
Definition may_wake (p : mpc) : bool := match p with MReleased | MNotify1 | MNotify2 | MNotify3 | BLock | BPred => true | _ => false end.

Record mnums (lk mtx : bool) (bw : Z) (pcs : gmap nat mpc) : Prop := {
  mn_owner : num owns pcs = Z.b2z lk;
  mn_mtx : num has_mtx pcs = Z.b2z mtx;
  mn_count : num counted pcs = bw;
  mn_failed : lk = false → 0 < num failed pcs → 0 < num before_mtx pcs;
  mn_sleep : lk = false → 0 < num asleep pcs → 0 < num may_wake pcs }.

Lemma mnums_init pcs : (∀ i p, pcs !! i = Some p → p = MIdle) → mnums false false 0 pcs.
Proof.
  intros H. assert (Hn : ∀ P, P MIdle = false → num P pcs = 0) by (intros P HP; apply num_none; intros i p Hi; by rewrite (H i p Hi)).
  constructor; rewrite !Hn by done; [done|done|done|lia|lia].
Qed.

(** The facts about the counts that every step uses. *)
Lemma mnums_facts pcs :
  num failed pcs ≤ num has_mtx pcs ∧ num failed pcs + num asleep pcs ≤ num counted pcs ∧ num before_mtx pcs ≤ num may_wake pcs ∧
  0 ≤ num failed pcs ∧ 0 ≤ num asleep pcs ∧ 0 ≤ num before_mtx pcs ∧ 0 ≤ num owns pcs.
Proof.
  split_and!; [by apply num_le; intros []|apply num_add_le; intros []; cbn; try discriminate; by intros _|by apply num_le; intros []|apply num_nonneg..].
Qed.

(** A step of one caller. *)
Lemma mnums_step lk mtx bw pcs i p q lk' mtx' bw' :
  mnums lk mtx bw pcs → pcs !! i = Some p →
  Z.b2z lk' = Z.b2z lk - Z.b2z (owns p) + Z.b2z (owns q) →
  Z.b2z mtx' = Z.b2z mtx - Z.b2z (has_mtx p) + Z.b2z (has_mtx q) →
  bw' = bw - Z.b2z (counted p) + Z.b2z (counted q) →
  (lk' = false → 0 < num failed (<[i := q]> pcs) → 0 < num before_mtx (<[i := q]> pcs)) →
  (lk' = false → 0 < num asleep (<[i := q]> pcs) → 0 < num may_wake (<[i := q]> pcs)) →
  mnums lk' mtx' bw' (<[i := q]> pcs).
Proof. intros [N1 N2 N3 N4 N5] Hi E1 E2 E3 H4 H5. constructor; [rewrite (num_insert _ _ i p q Hi); lia..|done|done]. Qed.

(** Steps outside the bare threads' protocol. *)
Lemma mnums_quiet lk mtx bw pcs i p q :
  mnums lk mtx bw pcs → pcs !! i = Some p → owns q = owns p → has_mtx q = has_mtx p → counted q = counted p →
  failed q = failed p → asleep q = asleep p → before_mtx q = before_mtx p → may_wake q = may_wake p →
  mnums lk mtx bw (<[i := q]> pcs).
Proof.
  intros [N1 N2 N3 N4 N5] Hi E1 E2 E3 E4 E5 E6 E7.
  constructor; rewrite ?(num_insert _ _ i p q Hi), ?E1, ?E2, ?E3, ?E4, ?E5, ?E6, ?E7; try lia; intros Hlk.
  - specialize (N4 Hlk). lia.
  - specialize (N5 Hlk). lia.
Qed.

(** A waker hands over what it has to the waiter it resumes. *)
Lemma mnums_wake lk mtx bw pcs i p p' j r g :
  mnums lk mtx bw pcs → pcs !! i = Some p → pcs !! j = Some (MParked r) → i ≠ j →
  Z.b2z (owns p) = Z.b2z (owns p') + Z.b2z g → has_mtx p' = has_mtx p → counted p' = counted p →
  failed p' = failed p → asleep p' = asleep p → before_mtx p' = before_mtx p → may_wake p' = may_wake p →
  mnums lk mtx bw (<[i := p']> (<[j := MWoken r g]> pcs)).
Proof.
  intros [N1 N2 N3 N4 N5] Hi Hj Hne E1 E2 E3 E4 E5 E6 E7.
  assert (Hi' : <[j := MWoken r g]> pcs !! i = Some p) by (by rewrite lookup_insert_ne).
  constructor; rewrite ?(num_insert _ _ i p p' Hi'), ?(num_insert _ _ j _ _ Hj), ?E2, ?E3, ?E4, ?E5, ?E6, ?E7; cbn; try lia.
  - destruct g; cbn in *; lia.
  - intros Hlk. specialize (N4 Hlk). lia.
  - intros Hlk. specialize (N5 Hlk). lia.
Qed.

Abbreviation mroom := (room m_parked m_hand m_rest).

Record minv (s : mstate) : Prop := {
  mi_room : ∃ l, mroom (mx_waiters (mx s)) l (m_pcs s) ∧ (locked (mx s) = false → l = []);
  mi_nums : mnums (locked (mx s)) (m_mtx s) (bareWaiters s) (m_pcs s);
  mi_fault : m_fault s = false;
  mi_node i r : m_pcs s !! i = Some (MParked r) → m_has_result s (addr i) = r;
  mi_told i r g : m_pcs s !! i = Some (MWoken r g) → m_told s i r = if g then WOk else WCancelled;
  mi_vict i v vs n : m_pcs s !! i = Some (MVictims v vs) → n ∈ vs → m_has_result s n = true }.

Lemma minv_init s : minit s → minv s.
Proof.
  intros (e & pcs & Hp & ->). constructor; cbn; try done.
  - exists []. split; [|done]. apply room_init. intros i p Hi. by rewrite (Hp i p Hi).
  - by apply mnums_init.
  - intros i r Hi. by apply Hp in Hi.
  - intros i r g Hi. by apply Hp in Hi.
  - intros i v vs n Hi. by apply Hp in Hi.
Qed.

(** A step of caller [i] that moves no node and resumes nobody. *)
Lemma minv_plain s s' i p q :
  minv s → m_pcs s !! i = Some p → m_pcs s' = <[i := q]> (m_pcs s) → m_nodes s' = m_nodes s → m_res s' = m_res s →
  m_fault s' = m_fault s → mx_waiters (mx s') = mx_waiters (mx s) →
  m_parked p = false → m_hand p = [] → m_parked q = false → m_hand q = [] → m_rest q = None →
  (∀ r g, q ≠ MWoken r g) → (locked (mx s') = false → locked (mx s) = false) →
  mnums (locked (mx s')) (m_mtx s') (bareWaiters s') (<[i := q]> (m_pcs s)) → minv s'.
Proof.
  intros [(l & R & Hl) I2 I3 I4 I5 I6] Hi Ep En Er Ef Ew P1 P2 Q1 Q2 Q3 Qw Hlk HN.
  assert (Hh : ∀ n, m_has_result s' n = m_has_result s n) by (intros n; unfold m_has_result; by rewrite En).
  constructor; rewrite ?Ep, ?Ew.
  - exists l. split; [|auto]. eapply (room_move _ _ _ _ _ _ i p q); [exact R|done|done|done|apply R|by rewrite P2, Q2|done|by rewrite Q3].
  - done.
  - congruence.
  - intros j r Hj. rewrite Hh. apply lookup_insert_Some in Hj as [[-> ->]|[_ Hj]]; [done|by apply I4].
  - intros j r g Hj. apply lookup_insert_Some in Hj as [[-> ->]|[_ Hj]]; [by destruct (Qw r g)|]. unfold m_told. rewrite Er. by apply I5.
  - intros j v vs n Hj. rewrite Hh. apply lookup_insert_Some in Hj as [[-> ->]|[_ Hj]]; [done|by eapply I6].
Qed.

(** Resuming the first node in hand, with or without the lock. *)
Lemma minv_wake s i p p' n vs g :
  minv s → m_pcs s !! i = Some p → m_parked p = false → m_hand p = n :: vs → m_parked p' = false → m_hand p' = vs →
  (∀ v, m_rest p' = Some v → walks (wq_link (mx_waiters (mx s))) v vs) → (∀ r b, p' ≠ MWoken r b) →
  (g = false → m_has_result s n = true) → (∀ v vs' y, p' = MVictims v vs' → y ∈ vs' → m_has_result s y = true) →
  Z.b2z (owns p) = Z.b2z (owns p') + Z.b2z g → has_mtx p' = has_mtx p → counted p' = counted p →
  failed p' = failed p → asleep p' = asleep p → before_mtx p' = before_mtx p → may_wake p' = may_wake p →
  minv (m_move i p' (m_resume n g (m_tell n (if g then WOk else WCancelled) s))).
Proof.
  intros [(l & R & Hl) I2 I3 I4 I5 I6] Hi P1 P2 Q1 Q2 Q3 Qw Hg Hv E1 E2 E3 E4 E5 E6 E7.
  destruct (room_owner _ _ _ _ _ _ i p n R Hi) as (j & y & -> & Hj & Hy); [rewrite P2; set_solver|].
  destruct y as [| |r| | | | | | | | | | | | | | | | |]; try done. assert (Hne : i ≠ j) by congruence.
  unfold m_resume. rewrite owner_addr. cbn [m_tell m_pcs]. rewrite Hj.
  constructor; cbn -[num].
  - exists l. split; [|done]. eapply (room_wake _ _ _ _ _ _ i p p' j (MParked r) (MWoken r g)); done.
  - by eapply (mnums_wake _ _ _ _ i p).
  - done.
  - intros k r' Hk. apply lookup_insert_Some in Hk as [[-> ->]|[Hki Hk]]; [done|].
    apply lookup_insert_Some in Hk as [[-> ?]|[Hkj Hk]]; [done|]. by apply I4.
  - intros k r' b Hk. apply lookup_insert_Some in Hk as [[-> ->]|[Hki Hk]]; [by destruct (Qw r' b)|].
    apply lookup_insert_Some in Hk as [[<- [= <- <-]]|[Hkj Hk]].
    + unfold m_told. cbn. rewrite (I4 j r Hj). destruct r; [by rewrite lookup_insert_eq|].
      destruct g; [done|]. specialize (Hg eq_refl). by rewrite (I4 j false Hj) in Hg.
    + rewrite <- (I5 k r' b Hk). unfold m_told. cbn. destruct (m_has_result s (addr j)); [|done].
      rewrite lookup_insert_ne; [done|]. intros ->%addr_inj. done.
  - intros k v vs' m Hk Hm. apply lookup_insert_Some in Hk as [[-> ->]|[Hki Hk]]; [by eapply Hv|].
    apply lookup_insert_Some in Hk as [[-> ?]|[Hkj Hk]]; [done|]. by eapply I6.
Qed.

Lemma minv_queue s i k r x :
  minv s → m_pcs s !! i = Some (MEnter k) → lock_enter k (addr i) (mx s) = (false, x) →
  minv (m_move i (MParked r) (m_node i r (m_set x s))).
Proof.
  intros [(l & R & Hl) I2 I3 I4 I5 I6] Hi Hx. apply lock_enter_cases in Hx as [(? & _)|(_ & El & ->)]; [done|].
  assert (Hno : addr i ∉ l ++ gather m_hand (m_pcs s)).
  { intros Hin. destruct (rm_in _ _ _ _ _ _ R _ Hin) as (j & p & <-%addr_inj & Hj & Hp). rewrite Hi in Hj. by injection Hj as <-. }
  assert (Hh : ∀ n, n ≠ addr i → m_has_result (m_move i (MParked r) (m_node i r (m_set (mkMutex true (wq_push (addr i) (mx_waiters (mx s)))) s))) n = m_has_result s n).
  { intros n Hn. unfold m_has_result. cbn. by rewrite lookup_insert_ne. }
  constructor; cbn -[num].
  - exists (l ++ [addr i]). split; [|done]. by eapply room_push.
  - rewrite El in I2. by eapply mnums_quiet.
  - done.
  - intros j r' Hj. apply lookup_insert_Some in Hj as [[<- [= <-]]|[Hne Hj]].
    + unfold m_has_result. cbn. rewrite lookup_insert_eq. cbn. destruct r; [|done]. apply negb_true_iff, Z.eqb_neq, addr_pos.
    + rewrite Hh by (intros ->%addr_inj; done). by apply I4.
  - intros j r' g Hj. apply lookup_insert_Some in Hj as [[-> ?]|[Hne Hj]]; [done|]. rewrite <- (I5 j r' g Hj). unfold m_told. cbn.
    rewrite lookup_insert_ne; [done|]. intros ->%addr_inj. done.
  - intros j v vs n Hj Hn. apply lookup_insert_Some in Hj as [[-> ?]|[Hne Hj]]; [done|]. rewrite Hh; [by eapply I6|]. intros ->.
    apply Hno, elem_of_app. right. apply elem_of_gather. by exists j, (MVictims v vs).
Qed.

(** [Unlock] pops: the queue empty and the lock released, or a waiter in hand. *)
Lemma minv_pop s i n x :
  minv s → m_pcs s !! i = Some MPop → Unlock_pop (mx s) = (n, x) →
  minv (m_move i (if n =? 0 then MReleased else MGot n) (m_set x s)).
Proof.
  intros [(l & R & Hl) I2 I3 I4 I5 I6] Hi Hx. pose proof (rm_q _ _ _ _ _ _ R) as Hq.
  destruct (wq_pop_ok _ _ Hq) as (En & Hq' & Hlink). destruct (wq_is_ok _ _ Hq) as [_ H0]. unfold Unlock_pop in Hx.
  destruct (wq_pop (mx_waiters (mx s))) as [n' q]. injection Hx as <- <-. cbn in En, Hq', Hlink.
  assert (Hlk : locked (mx s) = true).
  { pose proof (mn_owner _ _ _ _ I2) as Ho. pose proof (num_pos owns _ i MPop Hi eq_refl). destruct (locked (mx s)); [done|cbn in Ho; lia]. }
  set (p' := if n' =? 0 then MReleased else MGot n').
  assert (Hp' : m_parked p' = false ∧ (∀ r g, p' ≠ MWoken r g) ∧ (∀ r, p' ≠ MParked r) ∧ (∀ v vs, p' ≠ MVictims v vs) ∧ m_rest p' = None)
    by (unfold p'; destruct (n' =? 0); done).
  destruct Hp' as (P1 & P2 & P3 & P4 & P5).
  constructor; cbn -[num].
  - exists (tail l). split.
    + eapply (room_move _ _ _ _ _ _ i MPop); [exact R|done|done|done|done| |done|by rewrite P5]. unfold p'. destruct l as [|y l]; cbn in *.
      * subst n'. done.
      * subst n'. apply not_elem_of_cons in H0 as [H0 _]. rewrite (proj2 (Z.eqb_neq y 0)) by done. cbn. solve_Permutation.
    + destruct (n' =? 0) eqn:E; [|by rewrite Hlk]. intros _. apply Z.eqb_eq in E. subst n'. destruct l as [|y l]; [done|].
      cbn in E. subst y. set_solver.
  - unfold p'. pose proof (mnums_facts (m_pcs s)) as F. rewrite Hlk in I2 |- *. destruct (n' =? 0).
    + eapply mnums_step; [exact I2|exact Hi|done|cbn; lia|cbn; lia|..]; intros _; rewrite !(num_insert _ _ i _ _ Hi); cbn; lia.
    + by eapply mnums_quiet.
  - done.
  - intros j r Hj. apply lookup_insert_Some in Hj as [[-> ?]|[_ Hj]]; [by destruct (P3 r)|by apply I4].
  - intros j r g Hj. apply lookup_insert_Some in Hj as [[-> ?]|[_ Hj]]; [by destruct (P2 r g)|by apply I5].
  - intros j v vs y Hj. apply lookup_insert_Some in Hj as [[-> ?]|[_ Hj]]; [by destruct (P4 v vs)|by eapply I6].
Qed.

Lemma minv_sweep s i tok h x vs :
  minv s → m_pcs s !! i = Some (MCancel tok) → Mutex_CancelWaiters (m_env s) (m_nodes s) tok (mx s) = (h, x) →
  walks (wq_link (mx_waiters x)) h vs → minv (m_move i (MVictims h vs) (m_set x s)).
Proof.
  intros [(l & R & Hl) I2 I3 I4 I5 I6] Hi Hx Hw. set (P := cancel_match (m_env s) (m_nodes s) tok).
  destruct (wq_some_ok P _ _ (rm_q _ _ _ _ _ _ R)) as (Hw' & Hq' & Hlink). unfold Mutex_CancelWaiters in Hx. fold P in Hx.
  destruct (wq_some P (mx_waiters (mx s))) as [h' q]. injection Hx as <- <-. cbn in Hw', Hq', Hlink, Hw.
  pose proof (walks_det _ _ _ _ Hw Hw') as ->.
  constructor; cbn -[num]; try done.
  - exists (filter (λ y, P y = false) l). split; [|intros H; by rewrite (Hl H)].
    eapply (room_move _ _ _ _ _ _ i (MCancel tok)); try done; [|by intros v [= <-]]. cbn. rewrite app_nil_r. apply filter_split.
  - by eapply mnums_quiet.
  - intros j r Hj. apply lookup_insert_Some in Hj as [[-> ?]|[_ Hj]]; [done|by apply I4].
  - intros j r g Hj. apply lookup_insert_Some in Hj as [[-> ?]|[_ Hj]]; [done|by apply I5].
  - intros j v vs y Hj Hy. apply lookup_insert_Some in Hj as [[-> [= -> <-]]|[_ Hj]]; [|by eapply I6].
    apply list_elem_of_filter in Hy as [Hy _]. unfold P, cancel_match in Hy. unfold m_has_result. cbn.
    destruct (m_nodes s !! y); [|done]. by apply andb_true_iff in Hy as [-> _].
Qed.

(** A plain step whose counts are a matter of arithmetic. *)
Ltac plain Hi :=
  eapply minv_plain; [eassumption|exact Hi|reflexivity|reflexivity|reflexivity|reflexivity|try reflexivity|
    reflexivity|reflexivity|try reflexivity|try reflexivity|try reflexivity|try done|try done|].
Ltac counts I2 Hi :=
  let F := fresh "F" in
  match type of I2 with mnums _ _ _ ?pcs => pose proof (mnums_facts pcs) as F end;
  let N := fresh "N" in pose proof I2 as N; destruct N as [?N1 ?N2 ?N3 ?N4 ?N5];
  eapply mnums_step; [exact I2|exact Hi|cbn; try lia..|intros Hlk; try specialize (N4 Hlk); try specialize (N5 Hlk)|
    intros Hlk; try specialize (N4 Hlk); try specialize (N5 Hlk)];
  rewrite ?(num_insert _ _ _ _ _ Hi); cbn; try lia.

Lemma mnums_mtx lk mtx bw pcs i p : mnums lk mtx bw pcs → pcs !! i = Some p → has_mtx p = true → mtx = true.
Proof. intros [_ N2 _ _ _] Hi Hp. pose proof (num_pos _ _ _ _ Hi Hp). destruct mtx; [done|cbn in N2; lia]. Qed.

Lemma minv_bare i s s' : minv s → mutex_step i s s' →
  match m_pcs s !! i with
  | Some (MReleased | MNotify1 | MNotify2 | BAdd | BLock | BFailed | BSleep | BHave | BSub) => True | _ => False end → minv s'.
Proof.
  intros H Hs Hc. pose proof (mi_nums _ H) as I2.
  destruct Hs as [r Hi _|Hi _|r x Hi Hx|r x Hi Hx|r g Hi|x Hi Hx|Hi|x Hi Hx|n x Hi Hx Hn|n Hi|Hi Hb|Hi Hb|Hi Hm|Hi|j Hi Hj|Hi Hj
    |tok Hi|tok h x vs Hi Hx Hw|v vs Hi Hv|vs Hi|Hi|Hi|Hi Hm|x Hi Hx|Hi|Hi|x Hi Hx|Hi|Hi].
  all: rewrite Hi in Hc; try done; clear Hc.
  all: plain Hi; cbn -[num].
  - counts I2 Hi.
  - counts I2 Hi.
  - counts I2 Hi. all: rewrite Hm in *; cbn in *; lia.
  - pose proof (mnums_mtx _ _ _ _ i _ I2 Hi eq_refl) as Hm. counts I2 Hi. by rewrite Hm.
  - counts I2 Hi.
  - counts I2 Hi. by rewrite Hm.
  - pose proof (mnums_mtx _ _ _ _ i _ I2 Hi eq_refl) as Hm. pose proof (num_pos failed _ _ _ Hi eq_refl). counts I2 Hi. by rewrite Hm.
  - counts I2 Hi.
  - pose proof (mnums_mtx _ _ _ _ i _ I2 Hi eq_refl) as Hm. counts I2 Hi. by rewrite Hm.
  - counts I2 Hi.
Qed.

(** The lock is free and taken: [mt_take], [mt_try] and [bt_have]. *)
Lemma minv_taken s i p q x w :
  minv s → m_pcs s !! i = Some p → locked (mx s) = false → mx_waiters x = mx_waiters (mx s) → locked x = true →
  owns p = false → owns q = true → has_mtx q = has_mtx p → counted q = counted p → failed p = false → asleep p = false →
  m_parked p = false → m_hand p = [] → m_parked q = false → m_hand q = [] → m_rest q = None →
  (∀ r g, q ≠ MWoken r g) →
  minv (mkMS x (m_env s) (m_nodes s) (m_res s) (<[i := q]> (m_pcs s)) w (bareWaiters s) (m_mtx s) (m_fault s)).
Proof.
  intros H Hi El Ew Ex E1 E2 E3 E4 E5 E6 P1 P2 Q1 Q2 Q3 Qw. pose proof (mi_nums _ H) as I2. rewrite El in I2.
  eapply minv_plain; try done. cbn -[num]. rewrite Ex.
  eapply mnums_step; [exact I2|exact Hi|rewrite E1, E2; done|rewrite E3; lia|rewrite E4; lia|done|done].
Qed.

Lemma minv_notify s i j : minv s → m_pcs s !! i = Some MNotify3 → m_pcs s !! j = Some BSleep → minv (m_move i MIdle (m_move j BLock s)).
Proof.
  intros H Hi Hj. pose proof (mi_nums _ H) as I2.
  assert (H1 : minv (m_move j BLock s)) by (plain Hj; cbn -[num]; counts I2 Hj).
  pose proof (mi_nums _ H1) as I2'. cbn -[num] in I2'.
  assert (Hi' : m_pcs (m_move j BLock s) !! i = Some MNotify3) by (cbn; rewrite lookup_insert_ne; [done|congruence]).
  plain Hi'. cbn -[num]. counts I2' Hi'. pose proof (num_pos may_wake (delete i (<[j := BLock]> (m_pcs s))) j BLock) as Hp.
  intros _. cut (0 < num may_wake (<[i := MIdle]> (<[j := BLock]> (m_pcs s)))).
  { rewrite (num_insert _ _ _ _ _ Hi'). cbn. lia. }
  apply (num_pos _ _ j BLock); [|done]. rewrite lookup_insert_ne by congruence. apply lookup_insert_eq.
Qed.

Lemma minv_step s s' : minv s → mstep s s' → minv s'.
Proof.
  intros H [i s1 Hs|e]; [|by destruct H]. pose proof (mi_nums _ H) as I2. pose proof (minv_bare i s s1 H Hs) as Hbare.
  destruct Hs as [r Hi _|Hi _|r x Hi Hx|r x Hi Hx|r g Hi|x Hi Hx|Hi|x Hi Hx|n x Hi Hx Hn|n Hi|Hi Hb|Hi Hb|Hi Hm|Hi|j Hi Hj|Hi Hj
    |tok Hi|tok h x vs Hi Hx Hw|v vs Hi Hv|vs Hi|Hi|Hi|Hi Hm|x Hi Hx|Hi|Hi|x Hi Hx|Hi|Hi].
  all: try (by apply Hbare; rewrite Hi).
  - plain Hi. by eapply mnums_quiet.
  - plain Hi. by eapply mnums_quiet.
  - apply lock_enter_cases in Hx as [(_ & El & ->)|(? & _)]; [|done]. by eapply (minv_taken s i).
  - by eapply minv_queue.
  - unfold m_return. rewrite (mi_told _ H i r g Hi). destruct g.
    + rewrite decide_True by done. plain Hi. by eapply mnums_quiet.
    + rewrite decide_False by done. plain Hi. by eapply mnums_quiet.
  - unfold Try_Lock in Hx. destruct (locked (mx s)) eqn:El; [done|]. injection Hx as <-. by eapply (minv_taken s i).
  - plain Hi. by eapply mnums_quiet.
  - eapply (minv_pop _ _ 0); done.
  - pose proof (minv_pop s i n x H Hi Hx) as Hp. by rewrite (proj2 (Z.eqb_neq n 0)) in Hp.
  - unfold m_after_pop. destruct (m_skipped s n) eqn:Es.
    + apply andb_true_iff in Es as [Es _]. by eapply (minv_wake s i (MGot n) MPop n [] false).
    + by eapply (minv_wake s i (MGot n) MIdle n [] true).
  - by apply minv_notify.
  - assert (Hz : num asleep (m_pcs s) = 0) by (apply num_none; intros j p Hj'; destruct p; try done; by destruct (Hj j)).
    plain Hi. cbn -[num]. counts I2 Hi.
  - plain Hi. by eapply mnums_quiet.
  - by eapply minv_sweep.
  - pose proof H as [(l & R & _) _ _ _ _ I6]. pose proof (rm_rest _ _ _ _ _ _ R i _ v Hi eq_refl) as Hwk. cbn in Hwk.
    destruct vs as [|w vs]; [done|]. destruct Hwk as (<- & _ & Hwk).
    eapply (minv_wake s i (MVictims v (v :: vs)) _ v vs false); try done; [by intros ? [= <-]|..].
    + intros _. eapply I6; [exact Hi|set_solver].
    + intros v' vs' y [= _ <-] Hy. eapply I6; [exact Hi|set_solver].
  - pose proof H as [(l & R & _) _ _ _ _ _]. pose proof (rm_rest _ _ _ _ _ _ R i _ 0 Hi eq_refl) as Hwk.
    apply walks_nil in Hwk. cbn in Hwk. rewrite (proj1 Hwk eq_refl) in Hi. plain Hi. by eapply mnums_quiet.
  - plain Hi. by eapply mnums_quiet.
  - unfold Try_Lock in Hx. destruct (locked (mx s)) eqn:El; [|done]. injection Hx as <-. plain Hi. cbn -[num]. counts I2 Hi; rewrite El in *; done.
  - unfold Try_Lock in Hx. destruct (locked (mx s)) eqn:El; [done|]. injection Hx as <-. by eapply (minv_taken s i).
Qed.

Lemma reachable_minv s : reachable minit mstep s → minv s.
Proof. apply reachable_ind; [apply minv_init|intros ? ?; apply minv_step]. Qed.

Lemma owner_unique s i j p q :
  minv s → m_pcs s !! i = Some p → owns p = true → m_pcs s !! j = Some q → owns q = true → i = j.
Proof.
  intros [_ [N1 _ _ _ _] _ _ _ _] Hi Hp Hj Hq. eapply (num_two owns); [|exact Hi|done|exact Hj|done]. destruct (locked (mx s)); cbn in N1; lia.
Qed.

(** C10: Mutual exclusion.  In every interleaving of [Lock], [LockCancellable], [Try_Lock],
    the coroutine locks, bare threads, [Unlock] and cancellation, at most one caller has
    the lock, counting the one it is being handed to; the flag says whether there is one;
    and nobody is resumed who is not waiting. *)
Theorem mutex_exclusion s i j :
  reachable minit mstep s → m_pcs s !! i = Some MCrit →
  locked (mx s) = true ∧ m_fault s = false ∧ (m_pcs s !! j = Some MCrit → i = j) ∧ (∀ r, m_pcs s !! j ≠ Some (MWoken r true)).
Proof.
  intros H%reachable_minv Hi. pose proof H as [_ [N1 _ _ _ _] H3 _ _ _]. pose proof (num_pos owns _ _ _ Hi eq_refl) as Hpos.
  split_and!; [destruct (locked (mx s)); [done|cbn in N1; lia]|done|intros Hj; by eapply owner_unique|].
  intros r Hj. assert (i = j) by (by eapply owner_unique). congruence.
Qed.

(** No caller is in the middle of an operation. *)
Definition m_at_rest (s : mstate) : Prop :=
  ∀ i p, m_pcs s !! i = Some p → match p with MIdle | MCrit | MParked _ | BSleep => True | _ => False end.

(** C11: No wake-up is lost.  When no operation is in progress and some caller waits -- a
    suspended one in the queue or a bare thread asleep on the condition variable -- the
    lock is held, so an [Unlock] is still to come; and the suspended callers are exactly
    the queue. *)
Theorem mutex_no_lost_wakeup s :
  reachable minit mstep s → m_at_rest s →
  (∃ l, wq_is (mx_waiters (mx s)) l ∧ ∀ i, (∃ r, m_pcs s !! i = Some (MParked r)) ↔ addr i ∈ l) ∧
  ((∃ i r, m_pcs s !! i = Some (MParked r)) ∨ (∃ i, m_pcs s !! i = Some BSleep) → ∃ j, m_pcs s !! j = Some MCrit).
Proof.
  intros [(l & R & Hl) [N1 _ _ _ N5] _ _ _ _]%reachable_minv Hrest.
  assert (Hh : ∀ j x, m_pcs s !! j = Some x → m_hand x = []) by (intros j x Hj; specialize (Hrest j x Hj); by destruct x).
  assert (Hin : ∀ i r, m_pcs s !! i = Some (MParked r) → addr i ∈ l) by (intros i r Hi; by eapply room_rest).
  split.
  { exists l. split; [apply R|]. intros i. split; [intros [r Hi]; by eapply Hin|]. intros Hi.
    destruct (rm_in _ _ _ _ _ _ R (addr i)) as (j & p & ->%addr_inj & Hj & Hp); [set_solver|]. destruct p; try done. by eexists. }
  intros Hw. assert (Hlk : locked (mx s) = true).
  { destruct (locked (mx s)) eqn:E; [done|]. exfalso. destruct Hw as [(i & r & Hi)|(i & Hi)].
    - pose proof (Hin i r Hi) as Hn. rewrite (Hl eq_refl) in Hn. set_solver.
    - specialize (N5 eq_refl (num_pos asleep _ _ _ Hi eq_refl)). rewrite num_none in N5; [lia|].
      intros j p Hj. specialize (Hrest j p Hj). by destruct p. }
  rewrite Hlk in N1. cbn in N1. unfold num in N1. destruct (gather _ (m_pcs s)) as [|u g] eqn:Eg; [done|].
  assert (Hu : u ∈ u :: g) by set_solver. rewrite <- Eg in Hu. apply elem_of_gather in Hu as (j & p & Hj & Hp). exists j.
  specialize (Hrest j p Hj). destruct p; cbn in Hp; try done; set_solver.
Qed.

Lemma Unlock_S fuel skip m :
  Unlock (S fuel) skip m =
    let '(n, m1) := Unlock_pop m in
    if n =? 0 then Some ([], m1)
    else if skip n then '(w, m2) ← Unlock fuel skip m1; Some ((n, WCancelled) :: w, m2)
    else Some ([(n, WOk)], m1).
Proof. done. Qed.

(** C34: The lock goes to the oldest live waiter.  [Unlock] run alone ends after at most one
    turn per waiter and one more; it resumes the cancelled waiters in front, telling each
    so, and hands the lock to the first live one; only when there is none is the lock
    released. *)
Theorem mutex_unlock_refines skip m l :
  locked m = true → wq_is (mx_waiters m) l →
  ∃ m', Unlock (S (length l)) skip m = Some ((wake_spec skip l).1.1, m') ∧ wq_is (mx_waiters m') (wake_spec skip l).1.2 ∧
    locked m' = negb (wake_spec skip l).2.
Proof.
  revert m. induction l as [|n l IH]; intros m Hk Hq; pose proof (wq_pop_ok _ _ Hq) as (En & Hq' & _);
    pose proof (wq_is_ok _ _ Hq) as [Hnd H0]; rewrite Unlock_S; unfold Unlock_pop; destruct (wq_pop _) as [n' q]; cbn in En, Hq'; subst n'.
  - by eexists.
  - apply not_elem_of_cons in H0 as [Hn _]. assert (E0 : (n =? 0) = false) by (by apply Z.eqb_neq).
    cbn [wake_spec length]. cbn beta iota. rewrite E0. destruct (skip n); [|by eexists].
    destruct (IH (mkMutex (locked m) q) Hk Hq') as (m' & E & H1 & H2). rewrite E. clear E IH.
    destruct (wake_spec skip l) as [[w r] b]. cbn in *. by exists m'.
Qed.
End mutex.

(** ** Concrete runs, with [WaitList] as the queue *)

(** Slot 0 of the cancellation table is a live scope; the task of caller 1 is in it. *)
Definition scope_env (st : Z) : env := mkEnv (mkCancel {[0 := mkSlot st kNoToken 0]} 1) ∅ {[1%nat := 0]}.

Abbreviation mutexes := (mstate (Q := WaitList)).

Definition mutex_start : mutexes :=
  mkMS SchedulerMutex_new (scope_env 0) ∅ ∅ {[0%nat := MIdle; 1%nat := MIdle; 2%nat := MIdle]} ∅ 0 false false.

Lemma mutex_start_init : minit mutex_start.
Proof.
  exists (scope_env 0), {[0%nat := MIdle; 1%nat := MIdle; 2%nat := MIdle]}. split; [|done]. intros i p Hi.
  apply lookup_insert_Some in Hi as [[_ <-]|[_ Hi]]; [done|]. apply lookup_insert_Some in Hi as [[_ <-]|[_ Hi]]; [done|].
  by apply lookup_singleton_Some in Hi as [_ <-].
Qed.

(** Caller 0 takes the lock; caller 1 finds itself not cancelled and is about to queue. *)
Definition mutex_held : mutexes := m_return 0 WOk (m_set (mkMutex true (mkWL ∅ 0 0)) mutex_start).
Definition mutex_entering : mutexes := m_move 1 (MEnter LCancellable) mutex_held.

(** The scope is cancelled and caller 2 sweeps the queue, which is still empty. *)
Definition mutex_swept : mutexes :=
  m_move 2 MIdle (m_move 2 (MVictims 0 []) (m_move 2 (MCancel 0) (m_set_env (scope_env 1) mutex_entering))).

(** Caller 1 queues. *)
Definition mutex_missed : mutexes :=
  m_move 1 (MParked true) (m_node 1 true (m_set (mkMutex true (wq_push (addr 1) (mkWL ∅ 0 0))) mutex_swept)).

Lemma mutex_held_reachable : reachable minit mstep mutex_held.
Proof.
  eapply reachable_step; [apply reachable_init, mutex_start_init|].
  apply (ms_caller _ 0). by refine (mt_try 0 mutex_start (mkMutex true (mkWL ∅ 0 0)) _ _).
Qed.

Lemma mutex_missed_reachable : reachable minit mstep mutex_missed.
Proof.
  eapply reachable_step.
  2:{ apply (ms_caller _ 1). by refine (mt_queue 1 mutex_swept LCancellable _ _ _). }
  eapply reachable_step.
  2:{ apply (ms_caller _ 2). by refine (mt_cancelled 2 (m_move 2 (MVictims 0 []) (m_move 2 (MCancel 0) (m_set_env (scope_env 1) mutex_entering))) [] _). }
  eapply reachable_step.
  2:{ apply (ms_caller _ 2). refine (mt_sweep 2 (m_move 2 (MCancel 0) (m_set_env (scope_env 1) mutex_entering)) 0 0 _ [] _ _ _); vm_compute; reflexivity. }
  eapply reachable_step.
  2:{ apply (ms_caller _ 2). by refine (mt_cancel 2 (m_set_env (scope_env 1) mutex_entering) 0 _). }
  eapply reachable_step; [|apply (ms_env mutex_entering (scope_env 1))].
  eapply reachable_step; [exact mutex_held_reachable|].
  apply (ms_caller _ 1). refine (mt_start 1 mutex_held LCancellable _ _); [done|]. intros _. vm_compute. reflexivity.
Qed.

(** A cancellation can miss a waiter of the mutex.  [LockCancellable] tests for
    cancellation before it takes the spin lock and not again under it: if the scope is
    cancelled and its waiters are swept in between, the caller queues all the same and
    stays asleep, cancelled, until the holder unlocks.  The semaphore and the condition
    variable test again under their lock. *)
Theorem mutex_cancel_missed :
  reachable minit mstep mutex_missed ∧ m_at_rest mutex_missed ∧ m_pcs mutex_missed !! 1%nat = Some (MParked true) ∧
  IsTaskCancelled (m_env mutex_missed) 1 = true.
Proof.
  split_and!; [exact mutex_missed_reachable| |vm_compute; reflexivity..].
  assert (H : map_Forall (λ _ p, match p with MIdle | MCrit | MParked _ | BSleep => true | _ => false end = true) (m_pcs mutex_missed))
    by (apply (bool_decide_unpack _); vm_compute; exact I).
  intros i p Hi. specialize (H i p Hi). by destruct p.
Qed.

(** ** Witnesses *)

Lemma mutex_exclusion_witness : locked (mx mutex_held) = true ∧ m_fault mutex_held = false.
Proof.
  destruct (mutex_exclusion mutex_held 0 0 mutex_held_reachable) as (H1 & H2 & _); [vm_compute; reflexivity|].
  split; [exact H1|exact H2].
Defined.

Lemma mutex_no_lost_wakeup_witness : ∃ j, m_pcs mutex_missed !! j = Some MCrit.
Proof.
  destruct (mutex_no_lost_wakeup mutex_missed mutex_missed_reachable) as [_ H].
  - assert (H : map_Forall (λ _ p, match p with MIdle | MCrit | MParked _ | BSleep => true | _ => false end = true) (m_pcs mutex_missed))
      by (apply (bool_decide_unpack _); vm_compute; exact I).
    intros i p Hi. specialize (H i p Hi). destruct p; try discriminate H; exact I.
  - apply H. left. exists 1%nat, true. vm_compute. reflexivity.
Defined.

Lemma mutex_unlock_refines_witness : ∃ m', Unlock 2 (λ _, false) (mx mutex_missed) = Some ([(2, WOk)], m') ∧ locked m' = true.
Proof.
  destruct (mutex_unlock_refines (λ _, false) (mx mutex_missed) [addr 1]) as (m' & H1 & _ & H3).
  - vm_compute. reflexivity.
  - split; [|vm_compute; reflexivity]. split; [vm_compute; reflexivity|]. split; [discriminate|vm_compute; reflexivity].
  - exists m'. split; [exact H1|exact H3].
Defined.
