(* ===== verification/SchedCondVar.v ===== *)
(** * SchedulerConditionVariable (src/TaskScheduler.cpp, include/TaskScheduler.h)

    A FIFO of waiters under the condition variable's own spin lock, working on top of the
    mutex of [SchedMutex]: the state here contains that of the mutex, and releasing and
    retaking it inside a wait are runs of the mutex's own steps, interleaved with everyone
    else's.  A waiter's node is queued, and the suspension announced, before the mutex is
    released; it may be resumed while it is still releasing it. *)

From S2P Require Import Prelude CancelTokens WaitLists SyncCore SchedMutex.

Section condvar.
Context {Q : Type} `{!WaitQueue Q}.

(** ** [Notify_One] run alone

    [skip] says which waiters are cancellable and cancelled. *)
Fixpoint Notify_One (fuel : nat) (skip : Z → bool) (q : Q) : option (list (Z * WaitResult) * Q) :=
  match fuel with
  | O => None
  | S fuel' =>
      let '(n, q1) := wq_pop q in
      if n =? 0 then Some ([], q1)
      else if skip n then '(w, q2) ← Notify_One fuel' skip q1; Some ((n, WCancelled) :: w, q2)
      else Some ([(n, WOk)], q1)
  end.

(** ** Concurrent callers *)

Inductive cvpc :=
| CIdle                         (* outside; its mutex program counter says what it does *)
| CEnter (r : bool)             (* about to take the queue's lock; [r]: the wait has a result *)
| CUnlocking (r g : bool)       (* queued, in [mutex.Unlock()]; [g]: has been resumed *)
| CParked (r g : bool)          (* suspended; [g]: has been resumed *)
| CRelock (r : bool)            (* in [mutex.Lock(pin)] *)
| CNotify                       (* in [Notify_One], before the lock *)
| CGot (n : Z)                  (* in [Notify_One], has popped [n] *)
| CAll                          (* in [Notify_All], before the lock *)
| CCancel (tok : Z)
| CWalk (c : bool) (v : Z) (vs : list Z). (* walking a detached chain; [c]: to cancel it *)

Record cvstate := mkCV {
  cm : mstate (Q := Q); cv : Q; c_nodes : gmap Z WaitNode; c_res : gmap Z WaitResult; c_pcs : gmap nat cvpc;
  c_ret : gmap nat WaitResult; c_fault : bool }.

Definition c_move (i : nat) (p : cvpc) (s : cvstate) : cvstate :=
  mkCV (cm s) (cv s) (c_nodes s) (c_res s) (<[i := p]> (c_pcs s)) (c_ret s) (c_fault s).
Definition c_set (q : Q) (s : cvstate) : cvstate := mkCV (cm s) q (c_nodes s) (c_res s) (c_pcs s) (c_ret s) (c_fault s).
Definition c_mutex (m : mstate) (s : cvstate) : cvstate := mkCV m (cv s) (c_nodes s) (c_res s) (c_pcs s) (c_ret s) (c_fault s).
Definition c_return (i : nat) (r : WaitResult) (s : cvstate) : cvstate :=
  mkCV (cm s) (cv s) (c_nodes s) (c_res s) (<[i := CIdle]> (c_pcs s)) (<[i := r]> (c_ret s)) (c_fault s).
Definition c_node (i : nat) (r : bool) (s : cvstate) : cvstate :=
  mkCV (cm s) (cv s) (<[addr i := mkWaitNode 0 (addr i) 0 (if r then addr i else 0) (token_of (m_env (cm s)) i)]> (c_nodes s))
    (<[addr i := WOk]> (c_res s)) (c_pcs s) (c_ret s) (c_fault s).

Definition c_has_result (s : cvstate) (n : Z) : bool := match c_nodes s !! n with Some w => negb (wn_result w =? 0) | None => false end.
Definition c_tell (n : Z) (r : WaitResult) (s : cvstate) : cvstate :=
  mkCV (cm s) (cv s) (c_nodes s) (if c_has_result s n then <[n := r]> (c_res s) else c_res s) (c_pcs s) (c_ret s) (c_fault s).

(** [Thread::Resume] or [WakeTask]. *)
Definition c_resume (n : Z) (s : cvstate) : cvstate :=
  match c_pcs s !! owner n with
  | Some (CUnlocking r false) => c_move (owner n) (CUnlocking r true) s
  | Some (CParked r false) => c_move (owner n) (CParked r true) s
  | _ => mkCV (cm s) (cv s) (c_nodes s) (c_res s) (c_pcs s) (c_ret s) true
  end.

Definition c_cancelled (s : cvstate) (i : nat) : bool := IsTaskCancelled (m_env (cm s)) i.
Definition c_skipped (s : cvstate) (n : Z) : bool := c_has_result s n && c_cancelled s (owner n).

(** What a notification writes: a cancelled task is told so. *)
Definition c_wake (n : Z) (s : cvstate) : cvstate :=
  c_resume n (c_tell n (if c_cancelled s (owner n) then WCancelled else WOk) s).

(** The steps of the mutex a caller may take where it stands in the condition variable. *)
Definition may_mutex (p : cvpc) (m : option mpc) : bool :=
  match p, m with
  | CIdle, _ => true
  | CUnlocking _ _, Some MIdle => false
  | CUnlocking _ _, _ => true
  | CRelock _, Some (MIdle | MCrit) => false
  | CRelock _, _ => true
  | _, _ => false
  end.

Inductive condvar_step (i : nat) (s : cvstate) : cvstate → Prop :=
| cv_start r : c_pcs s !! i = Some CIdle → m_pcs (cm s) !! i = Some MCrit → (r = true → c_cancelled s i = false) →
    condvar_step i s (c_move i (CEnter r) s)
| cv_start_cancelled : c_pcs s !! i = Some CIdle → m_pcs (cm s) !! i = Some MCrit → c_cancelled s i = true →
    condvar_step i s (c_return i WCancelled s)
| cv_refuse : c_pcs s !! i = Some (CEnter true) → c_cancelled s i = true → condvar_step i s (c_return i WCancelled s)
| cv_queue r : c_pcs s !! i = Some (CEnter r) → (r = true → c_cancelled s i = false) →
    condvar_step i s (c_move i (CUnlocking r false) (c_node i r (c_set (wq_push (addr i) (cv s)) s)))
| cv_suspend r g : c_pcs s !! i = Some (CUnlocking r g) → m_pcs (cm s) !! i = Some MIdle → condvar_step i s (c_move i (CParked r g) s)
| cv_resume r : c_pcs s !! i = Some (CParked r true) → m_pcs (cm s) !! i = Some MIdle →
    condvar_step i s (c_move i (CRelock r) (c_mutex (m_move i (MEnter LPlain) (cm s)) s))
| cv_return r : c_pcs s !! i = Some (CRelock r) → m_pcs (cm s) !! i = Some MCrit →
    condvar_step i s (c_return i (if r then default WOk (c_res s !! addr i) else WOk) s)
| cv_notify : c_pcs s !! i = Some CIdle → condvar_step i s (c_move i CNotify s)
| cv_none q : c_pcs s !! i = Some CNotify → wq_pop (cv s) = (0, q) → condvar_step i s (c_move i CIdle (c_set q s))
| cv_pop n q : c_pcs s !! i = Some CNotify → wq_pop (cv s) = (n, q) → n ≠ 0 → condvar_step i s (c_move i (CGot n) (c_set q s))
| cv_wake n : c_pcs s !! i = Some (CGot n) → condvar_step i s (c_move i (if c_skipped s n then CNotify else CIdle) (c_wake n s))
| cv_all : c_pcs s !! i = Some CIdle → condvar_step i s (c_move i CAll s)
| cv_take_all h q vs : c_pcs s !! i = Some CAll → wq_all (cv s) = (h, q) → walks (wq_link q) h vs →
    condvar_step i s (c_move i (CWalk false h vs) (c_set q s))
| cv_cancel tok : c_pcs s !! i = Some CIdle → condvar_step i s (c_move i (CCancel tok) s)
| cv_sweep tok h q vs : c_pcs s !! i = Some (CCancel tok) →
    wq_some (cancel_match (m_env (cm s)) (c_nodes s) tok) (cv s) = (h, q) → walks (wq_link q) h vs →
    condvar_step i s (c_move i (CWalk true h vs) (c_set q s))
| cv_walk c v vs : c_pcs s !! i = Some (CWalk c v vs) → v ≠ 0 →
    condvar_step i s (c_move i (CWalk c (wq_link (cv s) v) (tail vs)) (if c then c_resume v (c_tell v WCancelled s) else c_wake v s))
| cv_walked c vs : c_pcs s !! i = Some (CWalk c 0 vs) → condvar_step i s (c_move i CIdle s)
| cv_mutex p m : c_pcs s !! i = Some p → may_mutex p (m_pcs (cm s) !! i) = true → mutex_step i (cm s) m → condvar_step i s (c_mutex m s).

Inductive cvstep (s : cvstate) : cvstate → Prop :=
| cvs_caller i s' : condvar_step i s s' → cvstep s s'
| cvs_env e : cvstep s (c_mutex (m_set_env e (cm s)) s).

Definition cvinit (s : cvstate) : Prop :=
  ∃ m pcs, minit m ∧ (∀ i p, pcs !! i = Some p → p = CIdle) ∧ s = mkCV m wq_none ∅ ∅ pcs ∅ false.

(** ** The mutex inside *)

(** Whatever the condition variable does, the mutex only takes steps of its own. *)
Lemma cv_mutex_step s s' : cvstep s s' → cm s' = cm s ∨ mstep (cm s) (cm s').
Proof.
  assert (Hr : ∀ n x, cm (c_resume n x) = cm x).
  { intros n x. unfold c_resume. destruct (c_pcs x !! owner n) as [[]|]; try done; by destruct g. }
  intros [i s1 Hs|e]; [|right; apply ms_env].
  destruct Hs as [| | | | |r Hi Hm| | | | |n Hi| | | | |c v vs Hi Hv| |p m Hi Hp Hm]; cbn; try (by left).
  - right. apply (ms_caller _ i). by apply mt_start.
  - left. unfold c_wake. by rewrite Hr.
  - left. destruct c; unfold c_wake; by rewrite Hr.
  - right. by apply (ms_caller _ i).
Qed.

Lemma cv_mutex_reachable s : reachable cvinit cvstep s → reachable minit mstep (cm s).
Proof.
  revert s. apply reachable_ind.
  - intros s (m & pcs & Hm & _ & ->). by apply reachable_init.
  - intros s s' Hr [->|Hs]%cv_mutex_step; [done|by eapply reachable_step].
Qed.

(** ** The waiting room *)

Definition c_parked (p : cvpc) : bool := match p with CUnlocking _ false | CParked _ false => true | _ => false end.
Definition c_hand (p : cvpc) : list Z := match p with CGot n => [n] | CWalk _ _ vs => vs | _ => [] end.
Definition c_rest (p : cvpc) : option Z := match p with CWalk _ v _ => Some v | _ => None end.

Abbreviation croom := (room c_parked c_hand c_rest).

(** [ci_held]: whoever is about to queue still has the mutex. *)
Record cinv (s : cvstate) : Prop := {
  ci_room : ∃ l, croom (cv s) l (c_pcs s);
  ci_held i r : c_pcs s !! i = Some (CEnter r) → m_pcs (cm s) !! i = Some MCrit;
  ci_fault : c_fault s = false }.

(** A step of another caller leaves the program counter of a holder alone. *)
Lemma mutex_step_other i j m m' : mutex_step i m m' → i ≠ j → m_pcs m !! j = Some MCrit → m_pcs m' !! j = Some MCrit.
Proof.
  intros Hs Hne Hj.
  assert (Hr : ∀ n g (x : mstate (Q := Q)), m_pcs x !! j = Some MCrit → m_pcs (m_resume n g x) !! j = Some MCrit).
  { intros n g x Hx. unfold m_resume. destruct (m_pcs x !! owner n) as [[]|] eqn:E; try done. cbn.
    rewrite lookup_insert_ne; [done|]. intros <-. congruence. }
  destruct Hs as [| | | | | | | | |n Hi| | | | |k Hi Hk| | | |v vs Hi Hv| | | | | | | | | |];
    try (cbn; by rewrite lookup_insert_ne).
  - unfold m_after_pop. destruct (m_skipped m n); cbn; rewrite lookup_insert_ne by done; by apply Hr.
  - cbn. rewrite !lookup_insert_ne; [done| |done]. intros <-. congruence.
  - cbn. rewrite lookup_insert_ne by done. by apply Hr.
Qed.

Lemma cinv_plain s s' i p q :
  cinv s → c_pcs s !! i = Some p → c_pcs s' = <[i := q]> (c_pcs s) → cv s' = cv s → c_fault s' = c_fault s →
  c_parked q = c_parked p → c_hand q = c_hand p → c_rest q = c_rest p →
  (∀ j r, <[i := q]> (c_pcs s) !! j = Some (CEnter r) → m_pcs (cm s') !! j = Some MCrit) → cinv s'.
Proof.
  intros [(l & R) C2 C3] Hi Ep Eq Ef E1 E2 E3 Hh. constructor; rewrite ?Ep, ?Eq; [|done|congruence]. exists l. by eapply room_quiet.
Qed.

Lemma cinv_wake s i p p' n vs r :
  cinv s → c_pcs s !! i = Some p → c_parked p = false → c_hand p = n :: vs → c_parked p' = false → c_hand p' = vs →
  (∀ v, c_rest p' = Some v → walks (wq_link (cv s)) v vs) → (∀ b, p' ≠ CEnter b) → cinv (c_move i p' (c_resume n (c_tell n r s))).
Proof.
  intros [(l & R) C2 C3] Hi P1 P2 Q1 Q2 Q3 Qe.
  destruct (room_owner _ _ _ _ _ _ i p n R Hi) as (j & y & -> & Hj & Hy); [rewrite P2; set_solver|].
  assert (Hne : i ≠ j) by congruence.
  assert (Hx : ∃ y', c_resume (addr j) (c_tell (addr j) r s) = c_move j y' (c_tell (addr j) r s) ∧ c_parked y' = false ∧
    c_hand y' = [] ∧ c_rest y' = None ∧ ∀ b, y' ≠ CEnter b).
  { unfold c_resume. rewrite owner_addr. cbn [c_tell c_pcs]. rewrite Hj.
    destruct y as [| |b []|b []| | | | | |]; try done; eexists; split_and!; done. }
  destruct Hx as (y' & -> & Y1 & Y2 & Y3 & Y4). constructor; cbn; [|intros k b Hk|done].
  - exists l. eapply (room_wake _ _ _ _ _ _ i p p' j y y'); try done. by destruct y as [| |? []|? []| | | | | |].
  - apply lookup_insert_Some in Hk as [[_ ?]|[_ Hk]]; [by destruct (Qe b)|].
    apply lookup_insert_Some in Hk as [[_ ?]|[_ Hk]]; [by destruct (Y4 b)|]. by eapply C2.
Qed.

(** Nodes move between the queue and a hand. *)
Lemma cinv_moved s i p p' q l l' :
  cinv s → croom (cv s) l (c_pcs s) → c_pcs s !! i = Some p → c_parked p = false → c_parked p' = false → wq_is q l' →
  l' ++ c_hand p' ≡ₚ l ++ c_hand p → (∀ x, x ∉ l → wq_link q x = wq_link (cv s) x) →
  (∀ v, c_rest p' = Some v → walks (wq_link q) v (c_hand p')) → (∀ b, p' ≠ CEnter b) → cinv (c_move i p' (c_set q s)).
Proof.
  intros [_ C2 C3] R Hi P1 P2 Hq Hp Hlink Hw Qe. constructor; cbn; [|intros k b Hk|done].
  - exists l'. by eapply room_move.
  - apply lookup_insert_Some in Hk as [[_ ?]|[_ Hk]]; [by destruct (Qe b)|]. by eapply C2.
Qed.

Lemma cinv_step s s' : cinv s → cvstep s s' → cinv s'.
Proof.
  intros H [i s1 Hs|e]; [|by destruct H]. pose proof H as [(l & R) C2 C3].
  assert (Hq : ∀ q x, (∀ b, q ≠ CEnter b) → m_pcs (cm x) = m_pcs (cm s) → ∀ j r, <[i := q]> (c_pcs s) !! j = Some (CEnter r) → m_pcs (cm x) !! j = Some MCrit).
  { intros q x Qe -> j r Hj. apply lookup_insert_Some in Hj as [[_ ?]|[_ Hj]]; [by destruct (Qe r)|by eapply C2]. }
  destruct Hs as [r Hi Hm _|Hi Hm _|Hi _|r Hi _|r g Hi Hm|r Hi Hm|r Hi Hm|Hi|q Hi Hx|n q Hi Hx Hn|n Hi|Hi|h q vs Hi Hx Hw|tok Hi
    |tok h q vs Hi Hx Hw|c v vs Hi Hv|c vs Hi|p m Hi Hp Hm].
  all: try (by eapply cinv_plain; [exact H|exact Hi|reflexivity..|apply Hq]).
  - eapply cinv_plain; [exact H|exact Hi|reflexivity..|]. intros j b Hj. apply lookup_insert_Some in Hj as [[<- _]|[_ Hj]]; [done|by eapply C2].
  - constructor; cbn; [|intros j b Hj|done].
    + exists (l ++ [addr i]). by eapply room_push.
    + apply lookup_insert_Some in Hj as [[_ ?]|[_ Hj]]; [done|by eapply C2].
  - eapply cinv_plain; [exact H|exact Hi|reflexivity..|]. intros j b Hj. cbn. apply lookup_insert_Some in Hj as [[_ ?]|[Hne Hj]]; [done|].
    rewrite lookup_insert_ne by done. by eapply C2.
  - destruct (wq_pop_ok _ _ (rm_q _ _ _ _ _ _ R)) as (En & Hq' & Hlink). rewrite Hx in *. cbn in *.
    pose proof (wq_is_ok _ _ (rm_q _ _ _ _ _ _ R)) as [_ H0]. destruct l as [|y l]; [|cbn in En; subst; set_solver].
    by eapply (cinv_moved s i CNotify CIdle q [] []).
  - destruct (wq_pop_ok _ _ (rm_q _ _ _ _ _ _ R)) as (En & Hq' & Hlink). rewrite Hx in *. cbn in *.
    destruct l as [|y l]; [done|]. cbn in *. subst n. eapply (cinv_moved s i CNotify (CGot y) q (y :: l) l); try done. cbn. solve_Permutation.
  - unfold c_wake. eapply (cinv_wake s i (CGot n) _ n []); try done; by destruct (c_skipped s n).
  - destruct (wq_all_ok _ _ (rm_q _ _ _ _ _ _ R)) as (Hw' & Hq' & Hlink). rewrite Hx in *. cbn in *.
    pose proof (walks_det _ _ _ _ Hw Hw') as ->. eapply (cinv_moved s i CAll (CWalk false h l) q l []); try done; [cbn; by rewrite app_nil_r|by intros v [= <-]].
  - destruct (wq_some_ok (cancel_match (m_env (cm s)) (c_nodes s) tok) _ _ (rm_q _ _ _ _ _ _ R)) as (Hw' & Hq' & Hlink). rewrite Hx in *. cbn in *.
    pose proof (walks_det _ _ _ _ Hw Hw') as ->. eapply (cinv_moved s i (CCancel tok) (CWalk true h _) q l); try done; [|by intros v [= <-]].
    cbn. rewrite app_nil_r. apply filter_split.
  - pose proof (rm_rest _ _ _ _ _ _ R i _ v Hi eq_refl) as Hwk. cbn in Hwk. destruct vs as [|w vs]; [done|]. destruct Hwk as (<- & _ & Hwk).
    destruct c; [|unfold c_wake]; eapply (cinv_wake s i (CWalk _ v (v :: vs)) _ v vs); try done; by intros ? [= <-].
  - pose proof (rm_rest _ _ _ _ _ _ R i _ 0 Hi eq_refl) as Hwk. apply walks_nil in Hwk. cbn in Hwk. rewrite (proj1 Hwk eq_refl) in Hi.
    eapply (cinv_moved s i (CWalk c 0 []) CIdle (cv s) l l); try done. apply R.
  - constructor; cbn; [by exists l|intros j r Hj|done]. destruct (decide (i = j)) as [<-|Hne].
    + rewrite Hi in Hj. by injection Hj as ->.
    + eapply mutex_step_other; [done|done|by eapply C2].
Qed.

Lemma reachable_cv_ok s : reachable cvinit cvstep s → cinv s.
Proof.
  apply reachable_ind; [|intros ? ?; apply cinv_step]. intros s1 (m & pcs & _ & Hp & ->). constructor; cbn.
  - exists []. apply room_init. intros i p Hi. by rewrite (Hp i p Hi).
  - intros i r Hi. by apply Hp in Hi.
  - done.
Qed.

(** ** What the condition variable promises *)

Definition waiting (p : cvpc) : bool := match p with CEnter _ | CUnlocking _ _ | CParked _ _ | CRelock _ => true | _ => false end.

(** Every return from a wait holds the mutex, and alone.  Whether a caller is notified,
    cancelled while it waits, or refused because it was cancelled before it could queue,
    when its wait returns it has the mutex and nobody else does. *)
Theorem condvar_returns_locked s s' i p :
  reachable cvinit cvstep s → cvstep s s' → c_pcs s !! i = Some p → waiting p = true → c_pcs s' !! i = Some CIdle →
  m_pcs (cm s') !! i = Some MCrit ∧ ∀ j, m_pcs (cm s') !! j = Some MCrit → j = i.
Proof.
  intros Hr Hst Hi Hp Hi'. pose proof (reachable_cv_ok _ Hr) as [_ C2 _].
  pose proof (reachable_minv _ (cv_mutex_reachable _ (reachable_step _ _ _ _ Hr Hst))) as Hm'.
  cut (m_pcs (cm s') !! i = Some MCrit); [intros Hc; split; [done|]; intros j Hj; by eapply owner_unique|].
  assert (Hre : ∀ n x, c_pcs (c_resume n x) !! i = Some CIdle → c_pcs x !! i = Some CIdle).
  { intros n x. unfold c_resume. destruct (c_pcs x !! owner n) as [[| |? []|? []| | | | | |]|] eqn:E; try done; cbn;
      (intros [[_ ?]|[_ ?]]%lookup_insert_Some; done). }
  destruct Hst as [k s1 Hs|e]; [|cbn in Hi'; rewrite Hi in Hi'; by injection Hi' as ->].
  destruct (decide (k = i)) as [->|Hne].
  - destruct Hs as [| | | | | | |Hk|q Hk Hx|n q Hk Hx Hn|n Hk|Hk|h q vs Hk Hx Hw|tok Hk|tok h q vs Hk Hx Hw|c v vs Hk Hv|c vs Hk|p' m Hk Hp' Hm];
      try (rewrite Hi in Hk; injection Hk as ->; done); cbn in *; rewrite ?lookup_insert_eq in Hi'; try done; try congruence; try (rewrite Hi in Hi'; by injection Hi' as ->).
    by eapply C2.
  - exfalso. destruct Hs as [| | | | | | | | | |n Hk| | | | |c v vs Hk Hv| |]; cbn in Hi'; rewrite ?lookup_insert_ne in Hi' by done;
      try (rewrite Hi in Hi'; injection Hi' as ->; done).
    + apply Hre in Hi'. cbn in Hi'. rewrite Hi in Hi'. by injection Hi' as ->.
    + destruct c; apply Hre in Hi'; cbn in Hi'; rewrite Hi in Hi'; by injection Hi' as ->.
Qed.

(** C28: No notification is lost.  From before it gives up the mutex until it is resumed, a
    waiter's node is in the queue, where a notifier finds it, or already in the hands of
    one that will resume it; nobody is resumed twice; and when no notifier or canceller is
    at work it is in the queue. *)
Theorem condvar_no_lost_notify s i p :
  reachable cvinit cvstep s → c_pcs s !! i = Some p → c_parked p = true →
  c_fault s = false ∧ ∃ l, wq_is (cv s) l ∧
    (addr i ∈ l ∨ ∃ j q, c_pcs s !! j = Some q ∧ addr i ∈ c_hand q) ∧
    ((∀ j q, c_pcs s !! j = Some q → c_hand q = []) → addr i ∈ l).
Proof.
  intros [(l & R) _ C3]%reachable_cv_ok Hi Hp. split; [done|]. exists l. split_and!; [apply R| |].
  - pose proof (rm_out _ _ _ _ _ _ R i p Hi Hp) as Hin. apply elem_of_app in Hin as [?|Hin]; [by left|right].
    apply elem_of_gather in Hin as (j & q & Hj & Hq). by exists j, q.
  - intros Hh. by eapply room_rest.
Qed.

Lemma Notify_One_S fuel skip q :
  Notify_One (S fuel) skip q =
    let '(n, q1) := wq_pop q in
    if n =? 0 then Some ([], q1)
    else if skip n then '(w, q2) ← Notify_One fuel skip q1; Some ((n, WCancelled) :: w, q2)
    else Some ([(n, WOk)], q1).
Proof. done. Qed.

(** [Notify_One] run alone ends after at most one turn per waiter and one more; it
    resumes the cancelled waiters in front, telling each so, and then the oldest live one. *)
Theorem condvar_notify_refines skip q l :
  wq_is q l →
  ∃ q', Notify_One (S (length l)) skip q = Some ((wake_spec skip l).1.1, q') ∧ wq_is q' (wake_spec skip l).1.2.
Proof.
  revert q. induction l as [|n l IH]; intros q Hq; pose proof (wq_pop_ok _ _ Hq) as (En & Hq' & _);
    pose proof (wq_is_ok _ _ Hq) as [Hnd H0]; rewrite Notify_One_S; destruct (wq_pop _) as [n' q1]; cbn in En, Hq'; subst n'.
  - by eexists.
  - apply not_elem_of_cons in H0 as [Hn _]. assert (E0 : (n =? 0) = false) by (by apply Z.eqb_neq).
    cbn [wake_spec length]. rewrite E0. destruct (skip n); [|by eexists].
    destruct (IH q1 Hq') as (q' & E & H1). rewrite E. clear E IH. destruct (wake_spec skip l) as [[w r] b]. cbn in *. by exists q'.
Qed.
End condvar.

(** ** Witnesses, with [WaitList] as the queue *)

Abbreviation condvars := (cvstate (Q := WaitList)).

(** Caller 0 has the mutex; caller 1 is idle. *)
Definition cv_begin : condvars := mkCV mutex_start wq_none ∅ ∅ {[0%nat := CIdle; 1%nat := CIdle]} ∅ false.
Definition cv_held : condvars := c_mutex mutex_held cv_begin.

Lemma cv_held_reachable : reachable cvinit cvstep cv_held.
Proof.
  eapply reachable_step.
  - apply reachable_init. exists mutex_start, {[0%nat := CIdle; 1%nat := CIdle]}. split_and!; [apply mutex_start_init| |done]. intros i p Hi.
    apply lookup_insert_Some in Hi as [[_ <-]|[_ Hi]]; [done|]. by apply lookup_singleton_Some in Hi as [_ <-].
  - apply (cvs_caller _ 0). refine (cv_mutex 0 cv_begin CIdle mutex_held _ _ _); [done|done|].
    by refine (mt_try 0 mutex_start (mkMutex true (mkWL ∅ 0 0)) _ _).
Qed.

(** Caller 0 waits: its node is queued and it is about to release the mutex. *)
Definition cv_entering : condvars := c_move 0 (CEnter true) cv_held.
Definition cv_queued : condvars := c_move 0 (CUnlocking true false) (c_node 0 true (c_set (wq_push (addr 0) wq_none) cv_entering)).

Lemma cv_entering_reachable : reachable cvinit cvstep cv_entering.
Proof.
  eapply reachable_step; [exact cv_held_reachable|]. apply (cvs_caller _ 0). by refine (cv_start 0 cv_held true _ _ _).
Qed.

Lemma cv_queued_reachable : reachable cvinit cvstep cv_queued.
Proof.
  eapply reachable_step; [exact cv_entering_reachable|]. apply (cvs_caller _ 0). by refine (cv_queue 0 cv_entering true _ _).
Qed.

Lemma condvar_no_lost_notify_witness : ∃ l, wq_is (cv cv_queued) l ∧ addr 0 ∈ l.
Proof.
  destruct (condvar_no_lost_notify cv_queued 0 (CUnlocking true false) cv_queued_reachable) as (_ & l & H1 & _ & H3).
  - vm_compute. reflexivity.
  - reflexivity.
  - exists l. split; [exact H1|]. apply H3.
    assert (H : map_Forall (λ _ p, match p with CIdle | CUnlocking _ _ => true | _ => false end = true) (c_pcs cv_queued))
      by (apply (bool_decide_unpack _); vm_compute; exact I).
    intros j q Hj. specialize (H j q Hj). destruct q; try discriminate H; reflexivity.
Defined.

(** Caller 0 is cancelled before it can queue. *)
Definition cv_cancelled0 : condvars := c_mutex (m_set_env (mkEnv cancel_init {[0%nat]} ∅) (cm cv_entering)) cv_entering.

Lemma condvar_returns_locked_witness : m_pcs (cm (c_return 0 WCancelled cv_cancelled0)) !! 0%nat = Some MCrit.
Proof.
  apply (condvar_returns_locked cv_cancelled0 (c_return 0 WCancelled cv_cancelled0) 0 (CEnter true)).
  - eapply reachable_step; [exact cv_entering_reachable|apply cvs_env].
  - apply (cvs_caller _ 0). refine (cv_refuse 0 cv_cancelled0 _ _); vm_compute; reflexivity.
  - vm_compute. reflexivity.
  - reflexivity.
  - vm_compute. reflexivity.
Defined.

Lemma condvar_notify_refines_witness : ∃ q', Notify_One 2 (λ _, false) (cv cv_queued) = Some ([(1, WOk)], q') ∧ wq_is q' [].
Proof.
  destruct (condvar_notify_refines (λ _, false) (cv cv_queued) [addr 0]) as (q' & H1 & H2).
  - split; [|vm_compute; reflexivity]. split; [vm_compute; reflexivity|]. split; [discriminate|vm_compute; reflexivity].
  - exists q'. split; [exact H1|exact H2].
Defined.
