(* ===== verification/Placement.v ===== *)
(** * Where a task goes (src/TaskScheduler.cpp, include/TaskScheduler.h)

    The placement functions of the scheduler: a fresh push, a push to a worker or to a core
    class, the resume of a suspended task, a yield, a requeue, a wake and a batch.  A queue
    is the list of tasks in it; the atomic counters are fields.  What the functions do to
    the queues, who is marked and notified, and what they return is written as the code
    does it; the idle stack is the list of its nodes, each with whether it is armed and its
    worker parked. *)

From S2P Require Import Prelude TaskTypes.

(** ** The pool as the placement functions see it *)

Definition kAnyWorker : Z := 2 ^ 64 - 1.
Definition kFatDeque : Z := 32.

(** Queues by name. *)
Definition Hi (w : Z) : Z * Z := (0, w).      (* [hiPriInboxes[w]] *)
Definition Lo (w : Z) : Z * Z := (1, w).      (* [normalInboxes[w]] *)
Definition Dq (w : Z) : Z * Z := (2, w).      (* [deques[w]] *)
Definition Inj : Z * Z := (3, 0).             (* [injector] *)
Definition MainQ : Z * Z := (4, 0).           (* [mainQ] *)

(** [pl_n] workers, the last [pl_hot] of them reserved; [pl_injOk] whether the shared queue
    accepts (it can run out of memory); [pl_notified] every worker that
    [NotifyWorker] was called on, newest first. *)
Record pool := mkPool {
  pl_n : Z; pl_hot : Z; pl_main : MainMode; pl_active : bool; pl_injector : bool; pl_injOk : bool;
  nextWorker : Z; nextHotWorker : Z; ioSteer : Z; nextClassWorker : Z * Z;
  pl_away : gset Z; pl_linked : gset Z; pl_pcore : gset Z; pl_sibling : gmap Z Z;
  pl_searching : Z; pl_idle : list (Z * bool);
  pl_q : gmap (Z * Z) (list Z); pl_notified : list Z; pl_injectorCount : Z }.

Definition queue (p : pool) (k : Z * Z) : list Z := default [] (pl_q p !! k).

Definition with_q (m : gmap (Z * Z) (list Z)) (p : pool) : pool :=
  mkPool (pl_n p) (pl_hot p) (pl_main p) (pl_active p) (pl_injector p) (pl_injOk p) (nextWorker p) (nextHotWorker p) (ioSteer p)
    (nextClassWorker p) (pl_away p) (pl_linked p) (pl_pcore p) (pl_sibling p) (pl_searching p) (pl_idle p) m (pl_notified p)
    (pl_injectorCount p).
Definition with_count (c : Z) (p : pool) : pool :=
  mkPool (pl_n p) (pl_hot p) (pl_main p) (pl_active p) (pl_injector p) (pl_injOk p) (nextWorker p) (nextHotWorker p) (ioSteer p)
    (nextClassWorker p) (pl_away p) (pl_linked p) (pl_pcore p) (pl_sibling p) (pl_searching p) (pl_idle p) (pl_q p) (pl_notified p) c.
Definition notify (w : Z) (p : pool) : pool :=
  mkPool (pl_n p) (pl_hot p) (pl_main p) (pl_active p) (pl_injector p) (pl_injOk p) (nextWorker p) (nextHotWorker p) (ioSteer p)
    (nextClassWorker p) (pl_away p) (pl_linked p) (pl_pcore p) (pl_sibling p) (pl_searching p) (pl_idle p) (pl_q p)
    (w :: pl_notified p) (pl_injectorCount p).
Definition with_next (nw nh io : Z) (nc : Z * Z) (p : pool) : pool :=
  mkPool (pl_n p) (pl_hot p) (pl_main p) (pl_active p) (pl_injector p) (pl_injOk p) nw nh io nc (pl_away p) (pl_linked p)
    (pl_pcore p) (pl_sibling p) (pl_searching p) (pl_idle p) (pl_q p) (pl_notified p) (pl_injectorCount p).
Definition with_idle (l : list (Z * bool)) (lk : gset Z) (p : pool) : pool :=
  mkPool (pl_n p) (pl_hot p) (pl_main p) (pl_active p) (pl_injector p) (pl_injOk p) (nextWorker p) (nextHotWorker p) (ioSteer p)
    (nextClassWorker p) (pl_away p) lk (pl_pcore p) (pl_sibling p) (pl_searching p) l (pl_q p) (pl_notified p) (pl_injectorCount p).

Definition enq (k : Z * Z) (t : Z) (p : pool) : pool := with_q (<[k := queue p k ++ [t]]> (pl_q p)) p.

(** What placement reads off a task, and the calling thread: its slot and whether it is
    main ([None] off the pool). *)
Record ptask := mkPT { pt : Z; pt_lane : Lane; pt_pin : Z; pt_started : bool }.
Definition caller : Type := option (Z * bool).

Definition ReservedBase (p : pool) : Z := if pl_hot p <=? pl_n p then pl_n p - pl_hot p else 0.
Definition IsReservedIndex (p : pool) (q : Z) : bool := ReservedBase p <=? q.
Definition HiPriLaneActive (p : pool) : bool := negb (pl_hot p =? 0).
Definition ClampHotWorkersToPool (n k : Z) : Z := if n =? 0 then 0 else if n <=? k then n - 1 else k.

(** [PopIdleWorker]: nodes are popped until one is armed and its worker parked. *)
Fixpoint pop_idle (l : list (Z * bool)) (lk : gset Z) : option Z * list (Z * bool) * gset Z :=
  match l with
  | [] => (None, [], lk)
  | (q, live) :: r => if live then (Some q, r, lk ∖ {[q]}) else pop_idle r (lk ∖ {[q]})
  end.
Definition PopIdleWorker (p : pool) : option Z * pool :=
  let '(o, l, lk) := pop_idle (pl_idle p) (pl_linked p) in (o, with_idle l lk p).

(** The round-robin search for a worker that is neither idle nor away. *)
Fixpoint find_target (fuel : nat) (start i computeN : Z) (p : pool) : option Z :=
  match fuel with
  | O => None
  | S f =>
      let q := (start ⊕ i) `mod` computeN in
      if negb (bool_decide (q ∈ pl_linked p)) && negb (bool_decide (q ∈ pl_away p)) then Some q
      else find_target f start (i + 1) computeN p
  end.

(** [nextWorker] is an [std::atomic<int>]: its increment wraps, and a negative value is
    sign-extended by the conversion to [size_t]. *)
Definition int_add (a b : Z) : Z := (a + b + 2 ^ 31) `mod` 2 ^ 32 - 2 ^ 31.

Definition PickNextWorker (ln : Lane) (p : pool) : Z * pool :=
  if pl_n p =? 0 then (0, p)
  else
    let hotN := pl_hot p in
    let laneBase := if hotN <? pl_n p then pl_n p - hotN else 0 in
    if IsLowLatency ln && negb (hotN =? 0) then
      (laneBase + nextHotWorker p `mod` hotN, with_next (nextWorker p) (nextHotWorker p ⊕ 1) (ioSteer p) (nextClassWorker p) p)
    else
      let computeN := if hotN <? pl_n p then pl_n p - hotN else pl_n p in
      if computeN =? 0 then (0, p)
      else
        let start := u64 (nextWorker p) in
        let p := with_next (int_add (nextWorker p) 1) (nextHotWorker p) (ioSteer p) (nextClassWorker p) p in
        let '(o, p) := if pl_searching p =? 0 then PopIdleWorker p else (None, p) in
        match o with
        | Some q => if q <? computeN then (q, p) else
            (default (start `mod` computeN) (find_target (Z.to_nat computeN) start 0 computeN p), p)
        | None => (default (start `mod` computeN) (find_target (Z.to_nat computeN) start 0 computeN p), p)
        end.

Definition u8 (x : Z) : Z := x `mod` 256.

(** [PushInjector] of the tasks [ts]. *)
Definition PushInjector (ts : list Z) (p : pool) : bool * pool :=
  if match ts with [] => true | _ => false end then (false, p)
  else if negb (pl_active p) then (false, p)
  else if negb (pl_injOk p) then (false, p)
  else (true, with_count (pl_injectorCount p + Z.of_nat (length ts)) (with_q (<[Inj := queue p Inj ++ ts]> (pl_q p)) p)).

(** The test before latency work goes to the injector. *)
Definition to_injector (t : ptask) (p : pool) : bool := IsLowLatency (pt_lane t) && HiPriLaneActive p && pl_injector p.

Definition MaybeBuddyWake (k : Z) (p : pool) : pool :=
  match pl_sibling p !! k with
  | Some s =>
      if (s <? 0) || (s =? k) then p
      else if pl_n p <=? s then p
      else if Z.of_nat (length (queue p (Dq k))) <=? kFatDeque then p
      else if negb (bool_decide (s ∈ pl_linked p)) then p
      else notify s p
  | None => p
  end.

(** [PushTo(worker, task)]. *)
Definition PushTo (w : Z) (t : ptask) (p : pool) : bool * pool :=
  if (w =? kAnyWorker) || (pl_n p <=? w) then (false, p)
  else (true, notify w (enq (Hi w) (pt t) p)).

Definition PushMainQueue (t : ptask) (p : pool) : pool :=
  match pl_main p with
  | InPool => (PushTo 0 t p).2
  | _ => enq MainQ (pt t) p
  end.

(** [PushTarget(task, worker)]. *)
Definition PushTarget (self : caller) (t : ptask) (w : Z) (p : pool) : bool * pool :=
  if negb (w =? kAnyWorker) && (w <? pl_n p) then
    let hi := IsLowLatency (pt_lane t) && HiPriLaneActive p in
    (true, notify w (enq (if hi then Hi w else Lo w) (pt t) p))
  else
    let '(ok, p1) := if to_injector t p then PushInjector [pt t] p else (false, p) in
    if ok then (true, p1)
    else
      let '(c, p1) := PickNextWorker Normal p in
      let chosen := u8 c in
      if (chosen =? 0) && match pl_main p1, self with InPool, Some (_, true) => true | _, _ => false end
      then (true, enq (Dq 0) (pt t) p1)
      else (true, MaybeBuddyWake chosen (notify chosen (enq (Lo chosen) (pt t) p1))).

Definition Push (self : caller) (t : ptask) (p : pool) : bool * pool :=
  match self with
  | Some (q, false) =>
      if (0 <=? q) && negb (to_injector t p) then (true, enq (Dq q) (pt t) p) else PushTarget self t kAnyWorker p
  | _ => PushTarget self t kAnyWorker p
  end.

Inductive RequeueResult := RFailed | RPinned | RStealable.

Definition Requeue (self : caller) (t : ptask) (p : pool) : RequeueResult * pool :=
  if pt_pin t =? kMain then (RPinned, PushMainQueue t p)
  else
    let '(ok, p1) := if pt_pin t =? kNoPin then (false, p) else PushTo (pt_pin t) t p in
    if ok then (RPinned, p1)
    else if pt_started t then (RStealable, (PushTarget self t kAnyWorker p).2)
    else
      let '(ok, p1) := if to_injector t p then PushInjector [pt t] p else (false, p) in
      if ok then (RStealable, p1)
      else
        let '(c, p1) := PickNextWorker Normal p in
        let chosen := u8 c in
        (RPinned, notify chosen (enq (Lo chosen) (pt t) p1)).

(** [ComputeSelf]: the caller's slot if it is a full-time compute worker. *)
Definition ComputeSelf (self : caller) (p : pool) : option Z :=
  match self with
  | Some (q, false) => if (q <? 0) || (pl_n p <=? q) then None else if IsReservedIndex p q then None else Some q
  | _ => None
  end.

Definition ResumeFiber (self : caller) (t : ptask) (p : pool) : pool :=
  if pt_pin t =? kMain then PushMainQueue t p
  else if negb (pt_pin t =? kNoPin) then (PushTo (pt_pin t) t p).2
  else match ComputeSelf self p with
       | Some q => enq (Dq q) (pt t) p
       | None => (Requeue self t p).2
       end.

Definition YieldFiber (self : caller) (t : ptask) (p : pool) : bool * pool :=
  match self with
  | Some (q, isMain) =>
      if q <? 0 then (false, ResumeFiber self t p)
      else if pt_pin t =? kMain then (isMain, PushMainQueue t p)
      else if pt_pin t =? q then (true, enq (Hi q) (pt t) p)        (* [MarkQueuedWork] of itself *)
      else if negb (pt_pin t =? kNoPin) then (false, (PushTo (pt_pin t) t p).2)
      else if IsNormalLane (pt_lane t) && bool_decide (ComputeSelf self p = Some q) then (true, enq (Dq q) (pt t) p)
      else (false, (Requeue self t p).2)
  | None => (false, ResumeFiber self t p)
  end.

Definition WakeTask (self : caller) (t : ptask) (p : pool) : bool * pool :=
  if pt_started t then (true, ResumeFiber self t p) else Push self t p.

(** [PushIO]. *)
Definition PushIO (t : ptask) (p : pool) : bool * pool :=
  if negb (IsLowLatency (pt_lane t)) then (false, p)
  else if pl_hot p =? 0 then (false, p)
  else
    let start := ioSteer p `mod` pl_hot p in
    let p := with_next (nextWorker p) (nextHotWorker p) (ioSteer p ⊕ 1) (nextClassWorker p) p in
    PushTo (ReservedBase p + start) t p.

(** *** A push to a core class *)

(** [candidate]: main is slot 0 when it is in the pool. *)
Definition is_main (p : pool) (q : Z) : bool := match pl_main p with InPool => q =? 0 | _ => false end.
Definition candidate (p : pool) (pref : CorePref) (q : Z) : bool :=
  negb (is_main p q) &&
  match pref with PrefAny => true | PrefP => bool_decide (q ∈ pl_pcore p) | PrefE => negb (bool_decide (q ∈ pl_pcore p)) end.
Definition members (p : pool) (pref : CorePref) : list Z := filter (λ q, candidate p pref q = true) (seqZ 0 (ReservedBase p)).

(** The class really used: P when there is no E core, any when there is no P core either. *)
Definition resolve_pref (p : pool) (pref : CorePref) : CorePref :=
  let pref := match pref, members p pref with PrefE, [] => PrefP | _, _ => pref end in
  match members p pref with [] => PrefAny | _ => pref end.

Definition present (p : pool) (q : Z) : Prop := q ∉ pl_away p.

(** The [k]-th member, then the next that is not away, from the front again if need be. *)
Definition pick_member (p : pool) (ms : list Z) (k : nat) : option Z :=
  match filter (present p) (drop k ms) with
  | q :: _ => Some q
  | [] => match filter (present p) ms with q :: _ => Some q | [] => ms !! k end
  end.

Definition PushTo_class (t : ptask) (pref : CorePref) (hiPri : bool) (p : pool) : bool * pool :=
  if pl_n p =? 0 then (false, p)
  else if ReservedBase p =? 0 then (false, p)
  else
    let pref := resolve_pref p pref in
    let ms := members p pref in
    let m := Z.of_nat (length ms) in
    if m =? 0 then (false, p)
    else
      let '(c0, c1) := nextClassWorker p in
      let cur := match pref with PrefE => c1 | _ => c0 end in
      let p1 := with_next (nextWorker p) (nextHotWorker p) (ioSteer p)
                  (match pref with PrefE => (c0, c1 ⊕ 1) | _ => (c0 ⊕ 1, c1) end) p in
      match pick_member p1 ms (Z.to_nat (cur `mod` m)) with
      | None => (false, p1)
      | Some q => if hiPri then PushTo q t p1 else (true, notify q (enq (Lo q) (pt t) p1))
      end.

(** *** A batch *)

(** [submitRun]: one linked run for one worker's normal inbox. *)
Definition submitRun (run : list Z) (w : Z) (p : pool) : pool := notify w (with_q (<[Lo w := queue p (Lo w) ++ run]> (pl_q p)) p).

(** The loop over the segments; [ts] are the tasks not yet submitted. *)
Fixpoint batch_loop (n : nat) (s per rem : Z) (ts : list Z) (p : pool) : list (Z * list Z) * pool :=
  match n with
  | O => ([], p)
  | S n' =>
      let len := Z.to_nat (per + (if s <? rem then 1 else 0)) in
      if Nat.eqb len 0 then batch_loop n' (s + 1) per rem ts p
      else
        let '(c, p1) := PickNextWorker Normal p in
        let '(rs, p2) := batch_loop n' (s + 1) per rem (drop len ts) (submitRun (take len ts) c p1) in
        ((c, take len ts) :: rs, p2)
  end.

(** [PushBatch(tasks, count, worker, minPerSegment)]: the runs submitted; [None] when the
    code divides by zero. *)
Definition PushBatch (ts : list Z) (w minPer : Z) (p : pool) : option (list (Z * list Z) * pool) :=
  let count := Z.of_nat (length ts) in
  if count =? 0 then Some ([], p)
  else if negb (w =? kAnyWorker) then
    let '(c, p1) := if IsReservedIndex p w then PickNextWorker Normal p else (w, p) in
    Some ([(c, ts)], submitRun ts c p1)
  else
    let minPer := if minPer =? 0 then 1 else minPer in
    let nw := pl_n p in
    let reach := if pl_hot p <? nw then nw - pl_hot p else nw in
    let segments := if nw =? 0 then 1 else count / minPer in
    let segments := if segments <? 1 then 1 else segments in
    let segments := if reach <? segments then reach else segments in
    if segments =? 0 then None
    else Some (batch_loop (Z.to_nat segments) 0 (count / segments) (count `mod` segments) ts p).

(** [PushBatch(tasks, count, spread)]; [wide] for [BatchSpread::Wide]. *)
Definition PushBatch_spread (ts : list Z) (wide : bool) (p : pool) : option (list (Z * list Z) * pool) :=
  if (Z.of_nat (length ts) =? 0) || (pl_n p =? 0) then Some ([], p)
  else if wide then PushBatch ts kAnyWorker 64 p
  else let '(c, p1) := PickNextWorker Normal p in PushBatch ts c 0 p1.

(** ** Where tasks may go *)

(** A pool as [StartPool] leaves it: some workers, fewer of them reserved, at most 256 of
    them, and only compute workers on the idle stack. *)
Record pool_ok (p : pool) : Prop := {
  po_n : 0 < pl_n p;
  po_small : pl_n p ≤ 256;
  po_hot : 0 ≤ pl_hot p < pl_n p;
  po_main : pl_main p ≠ DefaultMain;
  po_steer : 0 ≤ ioSteer p;
  po_idle q b : (q, b) ∈ pl_idle p → 0 ≤ q < ReservedBase p }.

Definition pin_ok (t : ptask) (p : pool) : Prop :=
  pt_pin t = kNoPin ∨ pt_pin t = kMain ∨ (0 ≤ pt_pin t < pl_n p).

Definition caller_ok (self : caller) (p : pool) : Prop :=
  match self with None => True | Some (q, m) => (q < pl_n p) ∧ (m = true → q = 0 ∧ pl_main p = InPool) end.

(** How a task comes to be placed: pushed fresh, resumed after a suspension, yielded by its
    own body, or given back to the pool to be spread over it. *)
Inductive placing := Fresh | Resumed | YieldedBy | Spread.

(** Latency work: with reserved workers and the shared queue enabled it is for that queue,
    which takes it while the pool is active and has memory. *)
Definition latency_work (t : ptask) (p : pool) : Prop := IsLowLatency (pt_lane t) = true ∧ pl_hot p ≠ 0 ∧ pl_injector p = true.
Definition injected (t : ptask) (p : pool) : Prop := latency_work t p ∧ pl_active p = true ∧ pl_injOk p = true.

(** The calling thread is the full-time compute worker [q]. *)
Definition computing (self : caller) (p : pool) (q : Z) : Prop := self = Some (q, false) ∧ 0 ≤ q < ReservedBase p.

(** The unpinned tasks a worker keeps on its own deque [q]: a fresh one unless it is latency
    work, a resumed one of any lane, a yielded one of the normal lane; resumed and yielded
    ones only on a compute worker. *)
Definition keeps (how : placing) (self : caller) (t : ptask) (p : pool) (q : Z) : Prop :=
  match how with
  | Fresh => self = Some (q, false) ∧ (0 ≤ q < pl_n p) ∧ ¬ latency_work t p
  | Resumed => computing self p q
  | YieldedBy => computing self p q ∧ IsNormalLane (pt_lane t) = true
  | Spread => False
  end.

(** The queue a task is put on, by its pin, its lane and how it comes.  A task nobody keeps
    goes to the shared queue if it is latency work and that queue takes it, and otherwise to
    the inbox of a compute worker, or to main's deque when main itself is picked. *)
Inductive place_ok (how : placing) (self : caller) (t : ptask) (p : pool) : Z * Z → Prop :=
| pk_pinned : pt_pin t ≠ kNoPin → pt_pin t ≠ kMain → place_ok how self t p (Hi (pt_pin t))
| pk_main_in : pt_pin t = kMain → pl_main p = InPool → place_ok how self t p (Hi 0)
| pk_main_out : pt_pin t = kMain → pl_main p = OutOfPool → place_ok how self t p MainQ
| pk_own q : pt_pin t = kNoPin → keeps how self t p q → place_ok how self t p (Dq q)
| pk_injector : pt_pin t = kNoPin → (∀ q, ¬ keeps how self t p q) → injected t p → place_ok how self t p Inj
| pk_compute w : pt_pin t = kNoPin → (∀ q, ¬ keeps how self t p q) → ¬ injected t p → 0 ≤ w < ReservedBase p → place_ok how self t p (Lo w)
| pk_main_self : pt_pin t = kNoPin → (∀ q, ¬ keeps how self t p q) → ¬ injected t p → self = Some (0, true) → pl_main p = InPool →
    place_ok how self t p (Dq 0).

(** The task went on exactly one queue, once, at its end, and the worker whose inbox that
    is was marked and notified. *)
Definition placed_on (k : Z * Z) (self : caller) (t : ptask) (p p' : pool) : Prop :=
  pl_q p' = <[k := queue p k ++ [pt t]]> (pl_q p) ∧
  (∀ w, k = Hi w ∨ k = Lo w → w ∈ pl_notified p' ∨ ∃ m, self = Some (w, m)).

Definition placed (how : placing) (self : caller) (t : ptask) (p p' : pool) : Prop :=
  ∃ k, place_ok how self t p k ∧ placed_on k self t p p'.

(** ** The pick of a worker *)

Lemma base_eq p : pool_ok p → ReservedBase p = pl_n p - pl_hot p ∧ 0 < ReservedBase p ≤ 256.
Proof. intros [H1 H2 H3 _ _ _]. unfold ReservedBase. rewrite (proj2 (Z.leb_le _ _)) by lia. lia. Qed.

Lemma pop_idle_in l lk q r lk' : pop_idle l lk = (Some q, r, lk') → ∃ b, (q, b) ∈ l.
Proof.
  revert lk. induction l as [|[q0 b] l IH]; intros lk; cbn; [done|]. destruct b.
  - intros [= <- _ _]. exists true. set_solver.
  - intros H. apply IH in H as [b Hb]. exists b. set_solver.
Qed.

Lemma pop_idle_sub l lk o r lk' x : pop_idle l lk = (o, r, lk') → x ∈ r → x ∈ l.
Proof.
  revert lk. induction l as [|[q0 b] l IH]; intros lk; cbn; [by intros [= _ <- _]|]. destruct b.
  - intros [= _ <- _] Hx. set_solver.
  - intros H Hx. apply elem_of_cons. right. by eapply IH.
Qed.

Lemma find_target_range f start i n p q : 0 < n → find_target f start i n p = Some q → 0 ≤ q < n.
Proof.
  intros Hn. revert i. induction f as [|f IH]; intros i; cbn; [done|]. destruct (_ && _).
  - intros [= <-]. apply Z.mod_pos_bound. lia.
  - apply IH.
Qed.

(** Ordinary work is picked a compute worker, and picking moves no task. *)
Lemma pick_ok p c p' :
  pool_ok p → PickNextWorker Normal p = (c, p') →
  (0 ≤ c < ReservedBase p) ∧ pl_q p' = pl_q p ∧ pl_notified p' = pl_notified p ∧ pl_main p' = pl_main p ∧ pl_n p' = pl_n p ∧ pl_hot p' = pl_hot p.
Proof.
  intros Hok. pose proof Hok as [H1 H2 H3 H4 H6 H7]. destruct (base_eq p Hok) as [Eb Hb]. unfold PickNextWorker. change (IsLowLatency Normal) with false.
  rewrite (proj2 (Z.eqb_neq (pl_n p) 0)) by lia. rewrite (proj2 (Z.ltb_lt (pl_hot p) (pl_n p))) by lia. cbn [andb].
  rewrite (proj2 (Z.eqb_neq (pl_n p - pl_hot p) 0)) by lia. rewrite <- Eb.
  set (p1 := with_next _ _ _ _ p).
  assert (Hd : ∀ p2, 0 ≤ default (u64 (nextWorker p) `mod` ReservedBase p) (find_target (Z.to_nat (ReservedBase p)) (u64 (nextWorker p)) 0 (ReservedBase p) p2) < ReservedBase p).
  { intros p2. destruct (find_target _ _ _ _ _) as [q|] eqn:E; cbn; [by eapply find_target_range; [|exact E]; lia|]. apply Z.mod_pos_bound. lia. }
  destruct (pl_searching p1 =? 0).
  - unfold PopIdleWorker. destruct (pop_idle (pl_idle p1) (pl_linked p1)) as [[o l] lk] eqn:E. destruct o as [q|].
    + apply pop_idle_in in E as [b Hq]. apply H7 in Hq. rewrite (proj2 (Z.ltb_lt q (ReservedBase p))) by lia. intros [= <- <-]. cbn. done.
    + intros [= <- <-]. split; [apply Hd|done].
  - intros [= <- <-]. split; [apply Hd|done].
Qed.

(** ** Every placement *)

Lemma u8_small x : 0 ≤ x < 256 → u8 x = x.
Proof. apply Z.mod_small. Qed.

Lemma buddy_same k p :
  pl_q (MaybeBuddyWake k p) = pl_q p ∧ ∀ w, w ∈ pl_notified p → w ∈ pl_notified (MaybeBuddyWake k p).
Proof.
  unfold MaybeBuddyWake. destruct (pl_sibling p !! k) as [s|]; [|done].
  repeat (destruct (_ : bool); [done|]). cbn. split; [done|]. set_solver.
Qed.

Lemma latency_spec t p : to_injector t p = true ↔ latency_work t p.
Proof.
  unfold to_injector, latency_work, HiPriLaneActive. rewrite !andb_true_iff, negb_true_iff, Z.eqb_neq. tauto.
Qed.

(** The attempt at the shared queue succeeds exactly when the task is for it. *)
Lemma inject_spec t p :
  match (if to_injector t p then PushInjector [pt t] p else (false, p)) with
  | (true, p') => injected t p ∧ pl_q p' = <[Inj := queue p Inj ++ [pt t]]> (pl_q p)
  | (false, p') => ¬ injected t p ∧ p' = p
  end.
Proof.
  unfold injected. pose proof (latency_spec t p) as Hl. destruct (to_injector t p); [|by split; [intros [?%Hl _]|]].
  assert (latency_work t p) by (by apply Hl). unfold PushInjector.
  destruct (pl_active p); cbn; [|by split; [intros (_ & [=] & _)|]]. destruct (pl_injOk p); cbn; [done|]. by split; [intros (_ & _ & [=])|].
Qed.

Lemma injected_placed how self t p p' :
  pt_pin t = kNoPin → (∀ q, ¬ keeps how self t p q) → injected t p → pl_q p' = <[Inj := queue p Inj ++ [pt t]]> (pl_q p) → placed how self t p p'.
Proof. intros Hp Hk Hi E. exists Inj. split; [by apply pk_injector|]. split; [done|]. by intros w [[=]|[=]]. Qed.

(** An unpinned task sent to whichever compute worker is picked. *)
Lemma placed_lo how self t p c p1 p' :
  pool_ok p → pt_pin t = kNoPin → (∀ q, ¬ keeps how self t p q) → ¬ injected t p → PickNextWorker Normal p = (c, p1) →
  pl_q p' = pl_q (enq (Lo (u8 c)) (pt t) p1) → u8 c ∈ pl_notified p' → placed how self t p p'.
Proof.
  intros Hok Hpin Hk Hi Hc Eq Hn. destruct (pick_ok p c p1 Hok Hc) as (Hr & Eq1 & _). destruct (base_eq p Hok) as [_ Hb].
  rewrite u8_small in * by lia. exists (Lo c). split; [by apply pk_compute|]. split.
  - rewrite Eq. unfold enq, queue. cbn. by rewrite Eq1.
  - intros w [[=]|[= <-]]. by left.
Qed.

Lemma placed_own how self t p q : pt_pin t = kNoPin → keeps how self t p q → placed how self t p (enq (Dq q) (pt t) p).
Proof. intros Hp Hk. exists (Dq q). split; [by apply pk_own|]. split; [done|]. by intros w [[=]|[=]]. Qed.

Lemma compute_self self p : pool_ok p → match ComputeSelf self p with Some q => computing self p q | None => ∀ q, ¬ computing self p q end.
Proof.
  intros Hok. destruct (base_eq p Hok) as [Eb _]. pose proof (po_hot _ Hok). unfold ComputeSelf, computing, IsReservedIndex.
  destruct self as [[q [|]]|]; [by intros ? [[=] _]| |by intros ? [[=] _]].
  destruct ((q <? 0) || (pl_n p <=? q)) eqn:E; [intros q' [[= <-] Hq]; apply orb_true_iff in E as [E%Z.ltb_lt|E%Z.leb_le]; lia|].
  apply orb_false_iff in E as [E1%Z.ltb_ge E2%Z.leb_gt]. destruct (ReservedBase p <=? q) eqn:E; [apply Z.leb_le in E|apply Z.leb_gt in E].
  - intros q' [[= <-] Hq]. lia.
  - done.
Qed.

(** A task with a pin goes to the inbox of the worker, or the queue, that the pin names. *)
Lemma placed_pin how self t p : pool_ok p → pin_ok t p → pt_pin t ≠ kNoPin → pt_pin t ≠ kMain →
  placed how self t p (PushTo (pt_pin t) t p).2 ∧ (PushTo (pt_pin t) t p).1 = true.
Proof.
  intros Hok [?|[?|Hp]] H1 H2; try done. pose proof (po_small _ Hok). unfold PushTo.
  rewrite (proj2 (Z.eqb_neq (pt_pin t) kAnyWorker)) by (unfold kAnyWorker; lia). rewrite (proj2 (Z.leb_gt (pl_n p) (pt_pin t))) by lia. cbn.
  split; [|done]. exists (Hi (pt_pin t)). split; [by apply pk_pinned|]. split; [done|]. intros w [[= <-]|[=]]. left. cbn. set_solver.
Qed.

Lemma placed_main how self t p : pool_ok p → pt_pin t = kMain → placed how self t p (PushMainQueue t p).
Proof.
  intros Hok Hp. pose proof (po_n _ Hok). unfold PushMainQueue. destruct (pl_main p) eqn:Em.
  - exists MainQ. split; [by apply pk_main_out|]. split; [done|]. by intros w [[=]|[=]].
  - unfold PushTo. rewrite (proj2 (Z.leb_gt (pl_n p) 0)) by lia. cbn. exists (Hi 0). split; [by apply pk_main_in|]. split; [done|].
    intros w [[= <-]|[=]]. left. cbn. set_solver.
  - by destruct (po_main _ Hok).
Qed.

Lemma placed_target how self t p :
  pool_ok p → caller_ok self p → pt_pin t = kNoPin → (∀ q, ¬ keeps how self t p q) →
  placed how self t p (PushTarget self t kAnyWorker p).2 ∧ (PushTarget self t kAnyWorker p).1 = true.
Proof.
  intros Hok Hs Hp Hk. unfold PushTarget. rewrite Z.eqb_refl. cbn [negb andb].
  pose proof (inject_spec t p) as E. destruct (if to_injector t p then _ else _) as [ok p1]. destruct ok.
  { split; [|done]. destruct E as [Hi Eq]. by eapply injected_placed. }
  destruct E as [Hi ->]. destruct (PickNextWorker Normal p) as [c p1] eqn:Ec. destruct (pick_ok p c p1 Hok Ec) as (Hr & Eq & En & Em & _).
  destruct ((u8 c =? 0) && _) eqn:E0; split; [|done| |done].
  - apply andb_true_iff in E0 as [_ E0]. rewrite Em in E0. destruct (pl_main p) eqn:Emn; [done| |done]. destruct self as [[q [|]]|]; [|done|done].
    destruct Hs as [Hq Hm]. destruct (Hm eq_refl) as [-> _].
    exists (Dq 0). split; [by apply pk_main_self|]. split; [|by intros w [[=]|[=]]]. unfold enq, queue. cbn. by rewrite Eq.
  - destruct (buddy_same (u8 c) (notify (u8 c) (enq (Lo (u8 c)) (pt t) p1))) as [B1 B2].
    eapply (placed_lo how self t p c p1); [done|done|done|done|done|exact B1|]. apply B2. cbn. set_solver.
Qed.

Lemma placed_requeue how self t p :
  pool_ok p → caller_ok self p → pin_ok t p → (pt_pin t = kNoPin → ∀ q, ¬ keeps how self t p q) → placed how self t p (Requeue self t p).2.
Proof.
  intros Hok Hs Hp Hk. unfold Requeue. destruct (pt_pin t =? kMain) eqn:E1; [apply Z.eqb_eq in E1; by apply placed_main|].
  apply Z.eqb_neq in E1. destruct (pt_pin t =? kNoPin) eqn:E2.
  - apply Z.eqb_eq in E2. specialize (Hk E2). destruct (pt_started t); [by apply placed_target|].
    pose proof (inject_spec t p) as E. destruct (if to_injector t p then _ else _) as [ok p1]. destruct ok; destruct E as [Hi E].
    { by eapply injected_placed. }
    subst p1. destruct (PickNextWorker Normal p) as [c p1] eqn:Ec. eapply (placed_lo how self t p c p1); [done|done|done|done|done|done|]. cbn. set_solver.
  - apply Z.eqb_neq in E2. destruct (placed_pin how self t p Hok Hp E2 E1) as [H1 H2]. destruct (PushTo (pt_pin t) t p) as [ok p1]. cbn in *. by subst ok.
Qed.

Lemma placed_resume self t p :
  pool_ok p → caller_ok self p → pin_ok t p → placed Resumed self t p (ResumeFiber self t p).
Proof.
  intros Hok Hs Hp. unfold ResumeFiber. destruct (pt_pin t =? kMain) eqn:E1; [apply Z.eqb_eq in E1; by apply placed_main|].
  apply Z.eqb_neq in E1. destruct (pt_pin t =? kNoPin) eqn:E2; cbn [negb].
  - apply Z.eqb_eq in E2. pose proof (compute_self self p Hok) as Hc. destruct (ComputeSelf self p) as [q|]; [by apply placed_own|by apply placed_requeue].
  - apply Z.eqb_neq in E2. by apply placed_pin.
Qed.

(** Off the pool a yield is a resume, and there nobody keeps the task. *)
Lemma placed_yield_off self t p :
  pool_ok p → caller_ok self p → pin_ok t p → (∀ q m, self = Some (q, m) → q < 0) → placed YieldedBy self t p (ResumeFiber self t p).
Proof.
  intros Hok Hs Hp Hoff. unfold ResumeFiber. destruct (pt_pin t =? kMain) eqn:E1; [apply Z.eqb_eq in E1; by apply placed_main|].
  apply Z.eqb_neq in E1. destruct (pt_pin t =? kNoPin) eqn:E2; cbn [negb]; [|apply Z.eqb_neq in E2; by apply placed_pin].
  pose proof (compute_self self p Hok) as Hc. destruct (ComputeSelf self p) as [q|].
  - destruct Hc as [Hq ?]. apply Hoff in Hq. lia.
  - apply placed_requeue; try done. intros _ q [Hq _]. by apply (Hc q).
Qed.

Lemma placed_yield self t p :
  pool_ok p → caller_ok self p → pin_ok t p → placed YieldedBy self t p (YieldFiber self t p).2.
Proof.
  intros Hok Hs Hp. unfold YieldFiber. destruct self as [[q m]|]; [|by apply placed_yield_off].
  destruct (q <? 0) eqn:Eq. { apply Z.ltb_lt in Eq. apply placed_yield_off; try done. by intros ? ? [= <- <-]. }
  apply Z.ltb_ge in Eq. destruct (pt_pin t =? kMain) eqn:E1; [apply Z.eqb_eq in E1; by apply placed_main|]. apply Z.eqb_neq in E1.
  destruct (pt_pin t =? q) eqn:E2.
  { apply Z.eqb_eq in E2. pose proof (po_small _ Hok). destruct Hs as [Hq _]. exists (Hi (pt_pin t)). split.
    - apply pk_pinned; [unfold kNoPin, kNone; lia|done].
    - rewrite E2. split; [done|]. intros w [[= <-]|[=]]. right. by exists m. }
  destruct (pt_pin t =? kNoPin) eqn:E3; cbn [negb]; [|apply Z.eqb_neq in E3; by apply placed_pin].
  apply Z.eqb_eq in E3. pose proof (compute_self (Some (q, m)) p Hok) as Hc. destruct (IsNormalLane (pt_lane t)) eqn:El; cbn [andb].
  - case_bool_decide as Ec.
    + rewrite Ec in Hc. by apply placed_own.
    + apply placed_requeue; try done. intros _ q' [[[= <- ->] Hq'] _]. destruct (ComputeSelf _ p) as [q''|] eqn:E.
      * destruct Hc as [[= ->] _]. done.
      * by apply (Hc q).
  - apply placed_requeue; try done. intros _ q' [_ Hn]. congruence.
Qed.

Lemma placed_push self t p : pool_ok p → caller_ok self p → pt_pin t = kNoPin → placed Fresh self t p (Push self t p).2.
Proof.
  intros Hok Hs E. unfold Push. destruct self as [[q [|]]|]; [apply placed_target; by try intros ? [[=] _]| |apply placed_target; by try intros ? [[=] _]].
  destruct Hs as [Hq Hs]. destruct (0 <=? q) eqn:Eq; [apply Z.leb_le in Eq|apply Z.leb_gt in Eq]; cbn [andb].
  - destruct (to_injector t p) eqn:Ei; cbn [negb].
    + apply latency_spec in Ei. apply placed_target; try done. by intros q' (_ & _ & []).
    + apply placed_own; [done|]. split_and!; [done|lia|lia|]. intros Hl%latency_spec. congruence.
  - apply placed_target; try done. intros q' ([= <-] & ? & _). lia.
Qed.

Lemma push_accepts self t p : (Push self t p).1 = true.
Proof.
  assert (H : (PushTarget self t kAnyWorker p).1 = true).
  { unfold PushTarget. cbn [negb andb]. destruct (if to_injector t p then _ else _) as [[] p1]; [done|]. destruct (PickNextWorker Normal p) as [c p2]. destruct ((u8 c =? 0) && _); done. }
  unfold Push. destruct self as [[q [|]]|]; [done| |done]. by destruct ((0 <=? q) && _).
Qed.


(** ** Batches *)

Lemma pick_pool_ok p c p' : pool_ok p → PickNextWorker Normal p = (c, p') → pool_ok p' ∧ ReservedBase p' = ReservedBase p.
Proof.
  intros Hok Hc. destruct (pick_ok p c p' Hok Hc) as (_ & _ & _ & Em & En & Eh).
  assert (Eb : ReservedBase p' = ReservedBase p) by (unfold ReservedBase; by rewrite En, Eh).
  destruct Hok as [H1 H2 H3 H4 H6 H7].
  assert (Hx : 0 ≤ ioSteer p' ∧ ∀ q b, (q, b) ∈ pl_idle p' → (q, b) ∈ pl_idle p).
  { revert Hc. unfold PickNextWorker. change (IsLowLatency Normal) with false. cbn [andb].
    destruct (pl_n p =? 0); [intros [= _ <-]; by split_and!|]. destruct (_ =? 0); [intros [= _ <-]; by split_and!|].
    unfold PopIdleWorker. destruct (pl_searching _ =? 0).
    - destruct (pop_idle _ _) as [[o l] lk] eqn:E. cbn in E.
      assert (Hl : ∀ x, x ∈ l → x ∈ pl_idle p) by (intros x; by eapply pop_idle_sub).
      destruct o as [q|]; [destruct (q <? _)|]; intros [= _ <-]; cbn; (split_and!; [lia|intros; by apply Hl]).
    - intros [= _ <-]. cbn. split_and!; [lia|done]. }
  destruct Hx as (X2 & X3). split; [|done]. constructor; rewrite ?En, ?Eh, ?Em, ?Eb; try done. intros q b Hq. eapply H7. by apply X3.
Qed.

(** What the runs [rs] bring to worker [w]. *)
Definition runs_to (rs : list (Z * list Z)) (w : Z) : list Z := mjoin ((filter (λ r, r.1 = w) rs).*2).

(** The tasks are cut into the runs in order, every run goes to a compute worker's inbox
    and is announced there, and nothing else is queued. *)
Record batch_ok (ts : list Z) (p : pool) (rs : list (Z * list Z)) (p' : pool) : Prop := {
  bo_all : mjoin rs.*2 = ts;
  bo_run w r : (w, r) ∈ rs → r ≠ [] ∧ (0 ≤ w < ReservedBase p) ∧ w ∈ pl_notified p';
  bo_lo w : queue p' (Lo w) = queue p (Lo w) ++ runs_to rs w;
  bo_other k : (∀ w, k ≠ Lo w) → queue p' k = queue p k;
  bo_told w : w ∈ pl_notified p → w ∈ pl_notified p' }.

Lemma submit_queue r w p k : queue (submitRun r w p) k = if decide (k = Lo w) then queue p k ++ r else queue p k.
Proof.
  unfold queue, submitRun. cbn. destruct (decide (k = Lo w)) as [->|Hk]; [by rewrite lookup_insert_eq|by rewrite lookup_insert_ne].
Qed.

Lemma batch_cons ts1 ts2 p c p1 rs p' :
  pool_ok p → PickNextWorker Normal p = (c, p1) → ts1 ≠ [] → batch_ok ts2 (submitRun ts1 c p1) rs p' → batch_ok (ts1 ++ ts2) p ((c, ts1) :: rs) p'.
Proof.
  intros Hok Hc Hne [B1 B2 B3 B4 B5]. destruct (pick_ok p c p1 Hok Hc) as (Hr & Eq & En & _). destruct (pick_pool_ok p c p1 Hok Hc) as [_ Eb].
  assert (Hq : ∀ k, queue p1 k = queue p k) by (intros k; unfold queue; by rewrite Eq).
  constructor.
  - change (mjoin ((c, ts1) :: rs).*2) with (ts1 ++ mjoin rs.*2). by rewrite B1.
  - intros w r [[= -> ->]|Hin]%elem_of_cons.
    + split_and!; [done|lia|lia|]. apply B5. cbn. set_solver.
    + destruct (B2 w r Hin) as (H1 & H2 & H3). change (ReservedBase (submitRun ts1 c p1)) with (ReservedBase p1) in H2. rewrite Eb in H2. done.
  - intros w. rewrite B3, submit_queue, Hq. unfold runs_to. destruct (decide (c = w)) as [->|Hn].
    + rewrite decide_True by done. rewrite filter_cons_True by done. cbn. by rewrite <- (assoc_L (++)).
    + rewrite decide_False by (by intros [= ->]). by rewrite filter_cons_False.
  - intros k Hk. rewrite B4 by done. rewrite submit_queue, decide_False by done. apply Hq.
  - intros w Hw. apply B5. cbn. rewrite En. set_solver.
Qed.

Lemma batch_loop_ok n s per rem ts p :
  pool_ok p → 0 ≤ per → Z.of_nat (length ts) = Z.of_nat n * per + Z.max 0 (Z.min (Z.of_nat n) (rem - s)) →
  let '(rs, p') := batch_loop n s per rem ts p in batch_ok ts p rs p'.
Proof.
  revert s ts p. induction n as [|n IH]; intros s ts p Hok Hper Hlen; cbn [batch_loop].
  { destruct ts; [|cbn in Hlen; lia]. constructor; try done; [by intros ? ? ?%elem_of_nil|intros w; by rewrite app_nil_r]. }
  set (len := Z.to_nat (per + (if s <? rem then 1 else 0))).
  assert (Hl : Z.of_nat len = per + Z.b2z (s <? rem) ∧ (len ≤ length ts)%nat ∧
    Z.of_nat (length (drop len ts)) = Z.of_nat n * per + Z.max 0 (Z.min (Z.of_nat n) (rem - (s + 1)))).
  { unfold len. rewrite length_drop. destruct (s <? rem) eqn:E; [apply Z.ltb_lt in E|apply Z.ltb_ge in E]; cbn [Z.b2z]; nia. }
  destruct Hl as (_ & H2 & H3). destruct (Nat.eqb len 0) eqn:E0.
  - apply Nat.eqb_eq in E0. rewrite E0, drop_0 in H3. by apply IH.
  - apply Nat.eqb_neq in E0. destruct (PickNextWorker Normal p) as [c p1] eqn:Ec. destruct (pick_pool_ok p c p1 Hok Ec) as [Hok1 _].
    assert (Hok2 : pool_ok (submitRun (take len ts) c p1)) by (by destruct Hok1).
    specialize (IH (s + 1) (drop len ts) _ Hok2 Hper H3). destruct (batch_loop n _ _ _ _ _) as [rs p2].
    rewrite <- (take_drop len ts) at 1. eapply batch_cons; [done|done| |done].
    intros Ht. apply (f_equal length) in Ht. rewrite length_take in Ht. cbn in Ht. lia.
Qed.

(** A batch is delivered whole and in order.  However it is spread, the batch is cut
    into consecutive non-empty runs that together are the batch; each run goes to the
    normal inbox of a compute worker, never of a reserved one even when the batch names
    it, and that worker is notified; no other queue changes. *)
Theorem push_batch_whole ts w minPer p :
  pool_ok p → 0 ≤ minPer → w = kAnyWorker ∨ (0 ≤ w < pl_n p) → ts ≠ [] →
  ∃ rs p', PushBatch ts w minPer p = Some (rs, p') ∧ batch_ok ts p rs p'.
Proof.
  intros Hok Hmin Hw Hts. unfold PushBatch. pose proof Hok as [N1 N2 N3 _ _ _]. destruct (base_eq p Hok) as [Eb Hb].
  assert (Hc : 0 < Z.of_nat (length ts)) by (destruct ts; [done|cbn; lia]).
  rewrite (proj2 (Z.eqb_neq _ 0)) by lia.
  assert (Hone : ∀ c p1, PickNextWorker Normal p = (c, p1) ∨ (0 ≤ c < ReservedBase p ∧ p1 = p) → batch_ok ts p [(c, ts)] (submitRun ts c p1)).
  { intros c p1 Hcase. assert (Hx : (0 ≤ c < ReservedBase p) ∧ pl_q p1 = pl_q p ∧ pl_notified p1 = pl_notified p).
    { destruct Hcase as [Hp|[Hr ->]]; [|done]. by destruct (pick_ok p c p1 Hok Hp) as (? & ? & ? & _). }
    destruct Hx as (Hr & Eq & En). assert (Hq : ∀ k, queue p1 k = queue p k) by (intros k; unfold queue; by rewrite Eq). constructor.
    - apply app_nil_r.
    - intros w' r Hin. apply list_elem_of_singleton in Hin as [= -> ->]. split_and!; [done|lia|lia|]. cbn. set_solver.
    - intros w'. rewrite submit_queue, Hq. unfold runs_to. destruct (decide (c = w')) as [->|Hn].
      + rewrite decide_True by done. rewrite filter_cons_True by done. cbn. by rewrite app_nil_r.
      + rewrite decide_False by (by intros [= ->]). rewrite filter_cons_False by done. cbn. by rewrite app_nil_r.
    - intros k Hk. rewrite submit_queue, decide_False by done. apply Hq.
    - intros w' Hw'. cbn. rewrite En. set_solver. }
  destruct (w =? kAnyWorker) eqn:Ew; cbn [negb].
  - rewrite (proj2 (Z.eqb_neq (pl_n p) 0)) by lia. rewrite (proj2 (Z.ltb_lt (pl_hot p) (pl_n p))) by lia. rewrite <- Eb.
    set (mp := if minPer =? 0 then 1 else minPer). set (s1 := if _ <? 1 then 1 else _). set (seg := if ReservedBase p <? s1 then ReservedBase p else s1).
    assert (Hseg : 0 < seg).
    { assert (0 < s1) by (unfold s1; destruct (_ <? 1) eqn:E1; [lia|apply Z.ltb_ge in E1; lia]). unfold seg. destruct (ReservedBase p <? s1); lia. }
    rewrite (proj2 (Z.eqb_neq seg 0)) by lia.
    pose proof (batch_loop_ok (Z.to_nat seg) 0 (Z.of_nat (length ts) / seg) (Z.of_nat (length ts) `mod` seg) ts p Hok) as HB.
    destruct (batch_loop _ _ _ _ _ _) as [rs p']. exists rs, p'. split; [done|]. apply HB.
    + apply Z.div_pos; lia.
    + pose proof (Z.div_mod (Z.of_nat (length ts)) seg ltac:(lia)). pose proof (Z.mod_pos_bound (Z.of_nat (length ts)) seg Hseg). rewrite Z2Nat.id by lia. lia.
  - apply Z.eqb_neq in Ew. destruct Hw as [?|Hw]; [done|]. unfold IsReservedIndex. destruct (ReservedBase p <=? w) eqn:Er.
    + destruct (PickNextWorker Normal p) as [c p1] eqn:Ec. eexists _, _. split; [done|]. apply Hone. by left.
    + apply Z.leb_gt in Er. eexists _, _. split; [done|]. apply Hone. right. split; [lia|done].
Qed.

(** ** A push to a core class *)

(** Whoever is picked is a member, and one that is not away when there is one. *)
Lemma pick_member_ok p ms k q :
  pick_member p ms k = Some q → q ∈ ms ∧ ((∃ x, x ∈ ms ∧ present p x) → present p q).
Proof.
  unfold pick_member. destruct (filter (present p) (drop k ms)) as [|x l] eqn:E.
  - destruct (filter (present p) ms) as [|x l] eqn:E2.
    + intros H. split; [by eapply list_elem_of_lookup_2|]. intros (y & Hy & Hp). exfalso.
      assert (Hin : y ∈ filter (present p) ms) by (by apply list_elem_of_filter). rewrite E2 in Hin. by apply elem_of_nil in Hin.
    + intros [= <-]. assert (Hin : x ∈ filter (present p) ms) by (rewrite E2; set_solver). by apply list_elem_of_filter in Hin as [? ?].
  - intros [= <-]. assert (Hin : x ∈ filter (present p) (drop k ms)) by (rewrite E; set_solver).
    apply list_elem_of_filter in Hin as [Hp Hin]. split; [|done]. rewrite <- (take_drop k ms). set_solver.
Qed.

(** A push to a core class reaches a thread that is there.  The task goes once to the
    inbox asked for of a compute worker that is not main, of the class asked for whenever
    the pool has one; that worker is not away as long as some worker of the class is not;
    it is notified.  The push fails, placing nothing, only if there is no worker but main
    and the reserved ones. *)
Theorem push_to_class_present t pref hiPri p :
  pool_ok p →
  match PushTo_class t pref hiPri p with
  | (false, p') => pl_q p' = pl_q p ∧ members p PrefAny = []
  | (true, p') => ∃ q, (0 ≤ q < ReservedBase p) ∧ is_main p q = false ∧ q ∈ members p (resolve_pref p pref) ∧
      (members p pref ≠ [] → q ∈ members p pref) ∧
      ((∃ x, x ∈ members p (resolve_pref p pref) ∧ x ∉ pl_away p) → q ∉ pl_away p) ∧
      pl_q p' = <[(if hiPri then Hi q else Lo q) := queue p (if hiPri then Hi q else Lo q) ++ [pt t]]> (pl_q p) ∧ q ∈ pl_notified p'
  end.
Proof.
  intros Hok. pose proof Hok as [N1 N2 N3 _ _ _]. destruct (base_eq p Hok) as [Eb Hb]. unfold PushTo_class.
  rewrite (proj2 (Z.eqb_neq (pl_n p) 0)), (proj2 (Z.eqb_neq (ReservedBase p) 0)) by lia.
  assert (Hres : members p pref ≠ [] → resolve_pref p pref = pref).
  { intros Hne. unfold resolve_pref. destruct pref; cbn; destruct (members p _) eqn:E; cbn; rewrite ?E; done. }
  assert (Hany : members p (resolve_pref p pref) = [] → members p PrefAny = []).
  { unfold resolve_pref. destruct pref; cbn.
    - destruct (members p PrefP) eqn:E; [done|by rewrite E].
    - destruct (members p PrefE) eqn:E; cbn; [destruct (members p PrefP) eqn:E2; [done|by rewrite E2]|by rewrite !E].
    - destruct (members p PrefAny) eqn:E; by rewrite ?E. }
  set (ms := members p (resolve_pref p pref)) in *. destruct (Z.of_nat (length ms) =? 0) eqn:Em.
  { apply Z.eqb_eq in Em. split; [done|]. apply Hany. destruct ms; [done|cbn in Em; lia]. }
  apply Z.eqb_neq in Em. destruct (nextClassWorker p) as [c0 c1].
  set (cur := match resolve_pref p pref with PrefE => c1 | _ => c0 end). set (p1 := with_next _ _ _ _ p).
  destruct (pick_member p1 ms (Z.to_nat (cur `mod` Z.of_nat (length ms)))) as [q|] eqn:Ep.
  - destruct (pick_member_ok _ _ _ _ Ep) as [Hq Ha]. pose proof Hq as Hm. apply list_elem_of_filter in Hm as [Hc Hr].
    apply elem_of_seqZ in Hr. apply andb_true_iff in Hc as [Hc _]. apply negb_true_iff in Hc.
    assert (Hgoal : ∀ p', pl_q p' = <[(if hiPri then Hi q else Lo q) := queue p (if hiPri then Hi q else Lo q) ++ [pt t]]> (pl_q p) → q ∈ pl_notified p' →
      ∃ q', (0 ≤ q' < ReservedBase p) ∧ is_main p q' = false ∧ q' ∈ ms ∧ (members p pref ≠ [] → q' ∈ members p pref) ∧
        ((∃ x, x ∈ ms ∧ x ∉ pl_away p) → q' ∉ pl_away p) ∧
        pl_q p' = <[(if hiPri then Hi q' else Lo q') := queue p (if hiPri then Hi q' else Lo q') ++ [pt t]]> (pl_q p) ∧ q' ∈ pl_notified p').
    { intros p' E1 E2. exists q. split_and!; [lia|lia|done|done| |exact Ha|done|done]. intros Hne. unfold ms in Hq. by rewrite (Hres Hne) in Hq. }
    destruct hiPri.
    + unfold PushTo. rewrite (proj2 (Z.eqb_neq q kAnyWorker)) by (unfold kAnyWorker; lia).
      rewrite (proj2 (Z.leb_gt (pl_n p1) q)) by (cbn; lia). cbn [orb]. apply Hgoal; [done|]. cbn. set_solver.
    + apply Hgoal; [done|]. cbn. set_solver.
  - exfalso. unfold pick_member in Ep. destruct (filter _ (drop _ _)); [|done]. destruct (filter _ ms); [|done].
    apply lookup_ge_None in Ep. pose proof (Z.mod_pos_bound cur (Z.of_nat (length ms)) ltac:(lia)). lia.
Qed.

(** ** Where the code goes wrong *)

(** The batch push guards against an empty pool and then divides by its size. *)
Theorem push_batch_empty_pool ts minPer p :
  pl_n p = 0 → 0 ≤ pl_hot p → ts ≠ [] → PushBatch ts kAnyWorker minPer p = None.
Proof.
  intros Hn Hh Hts. unfold PushBatch. rewrite Z.eqb_refl. cbn [negb]. rewrite Hn. cbn.
  rewrite (proj2 (Z.eqb_neq _ 0)) by (destruct ts; [done|cbn; lia]). rewrite (proj2 (Z.ltb_ge (pl_hot p) 0)) by lia. done.
Qed.

(** ** Concrete pools *)

Definition idle_pool (n : Z) (idle : list (Z * bool)) : pool :=
  mkPool n 0 OutOfPool true true true 0 0 0 (0, 0) ∅ ∅ ∅ ∅ 0 idle ∅ [] 0.

(** With more than 256 workers the chosen index is cut to eight bits: the idle worker 299
    is taken off the idle stack and worker 43 is given the task and the notification. *)
Theorem push_index_truncated :
  let p' := (PushTarget None (mkPT 7 Normal kNoPin false) kAnyWorker (idle_pool 300 [(299, true)])).2 in
  pl_idle p' = [] ∧ pl_notified p' = [43] ∧ queue p' (Lo 43) = [7].
Proof. vm_compute. done. Qed.

(** ** Witnesses *)

Lemma idle_pool_ok : pool_ok (idle_pool 4 [(2, true)]).
Proof.
  constructor; cbn; try lia; try done. intros q b Hq. apply list_elem_of_singleton in Hq as [= -> ->]. unfold ReservedBase. cbn. lia.
Qed.


Lemma push_batch_whole_witness :
  ∃ rs p', PushBatch [1; 2; 3; 4; 5] kAnyWorker 2 (idle_pool 4 [(2, true)]) = Some (rs, p') ∧ mjoin rs.*2 = [1; 2; 3; 4; 5].
Proof.
  destruct (push_batch_whole [1; 2; 3; 4; 5] kAnyWorker 2 (idle_pool 4 [(2, true)]) idle_pool_ok) as (rs & p' & H1 & H2).
  - discriminate.
  - left. reflexivity.
  - discriminate.
  - exists rs, p'. split; [exact H1|apply H2].
Defined.

Lemma push_to_class_present_witness :
  (PushTo_class (mkPT 7 Normal kNoPin false) PrefE true (idle_pool 4 [(2, true)])).1 = true ∧ members (idle_pool 4 [(2, true)]) PrefE = [0; 1; 2; 3].
Proof.
  pose proof (push_to_class_present (mkPT 7 Normal kNoPin false) PrefE true (idle_pool 4 [(2, true)]) idle_pool_ok) as H.
  assert (E : members (idle_pool 4 [(2, true)]) PrefE = [0; 1; 2; 3]) by (vm_compute; reflexivity). split; [|exact E].
  destruct (PushTo_class _ _ _ _) as [[|] p']; [reflexivity|]. destruct H as [_ H]. vm_compute in H. discriminate H.
Defined.
