(* ===== verification/HuntPark.v ===== *)
(** * Parking, waking and the hunt (src/TaskScheduler.cpp, src/Thread.cpp)

    How a compute worker with nothing to do goes to sleep and how it is woken: the
    [searching] counter with [EnterHunt], [LeaveHunt] and [TryLeaveHuntForPark], the stack
    of idle workers ([RegisterIdleWorker], [UnregisterIdleWorker], [PopIdleWorker]), the
    park path at the end of [Thread::Worker] and the delivery of a push (inbox, flag,
    [Thread::Wake]).

    One step is one atomic operation of one thread, in any interleaving, sequentially
    consistent.  A thread is a compute worker (its identifier is its queue index, below
    [n]) or any other thread that pushes.  Tasks are counted, not named: what matters here
    is where there is work.  The futex is its contract: a worker in [WSleep] stays there
    while its [workerState] is [WS_PARKED] and goes on once it is not.  Stopping the pool
    and main's own wait word are not part of this file. *)

From stdpp Require Import functions.
From S2P Require Import Prelude.

(** ** The shared state *)

Inductive WorkerState := WS_EMPTY | WS_NOTIFIED | WS_PARKED.

#[export] Instance WorkerState_eq : EqDecision WorkerState.
Proof. solve_decision. Defined.

(** [top] is [idleTop_], its version (high 32 bits) and its index plus one (low 32 bits);
    [nxt] the [next] fields of the nodes, by index plus one.  [ops] is a ghost: how many
    times the stack was changed. *)
Record hunt := mkHunt {
  searching : Z; top : Z * Z; nxt : gmap Z Z; idleCount : Z; ops : Z;
  armed : nat → bool; idleLinked : nat → bool; workerState : nat → WorkerState;
  hasQueuedWork : nat → bool; hiInbox : nat → Z; loInbox : nat → Z; deque : nat → Z; injector : Z }.

Definition with_searching (x : Z) (s : hunt) : hunt :=
  mkHunt x (top s) (nxt s) (idleCount s) (ops s) (armed s) (idleLinked s) (workerState s)
    (hasQueuedWork s) (hiInbox s) (loInbox s) (deque s) (injector s).
Definition with_top (x : Z * Z) (s : hunt) : hunt :=
  mkHunt (searching s) x (nxt s) (idleCount s) (ops s + 1) (armed s) (idleLinked s) (workerState s)
    (hasQueuedWork s) (hiInbox s) (loInbox s) (deque s) (injector s).
Definition with_nxt (x : gmap Z Z) (s : hunt) : hunt :=
  mkHunt (searching s) (top s) x (idleCount s) (ops s) (armed s) (idleLinked s) (workerState s)
    (hasQueuedWork s) (hiInbox s) (loInbox s) (deque s) (injector s).
Definition with_idleCount (x : Z) (s : hunt) : hunt :=
  mkHunt (searching s) (top s) (nxt s) x (ops s) (armed s) (idleLinked s) (workerState s)
    (hasQueuedWork s) (hiInbox s) (loInbox s) (deque s) (injector s).
Definition with_armed (q : nat) (b : bool) (s : hunt) : hunt :=
  mkHunt (searching s) (top s) (nxt s) (idleCount s) (ops s) (<[q := b]> (armed s)) (idleLinked s) (workerState s)
    (hasQueuedWork s) (hiInbox s) (loInbox s) (deque s) (injector s).
Definition with_linked (q : nat) (b : bool) (s : hunt) : hunt :=
  mkHunt (searching s) (top s) (nxt s) (idleCount s) (ops s) (armed s) (<[q := b]> (idleLinked s)) (workerState s)
    (hasQueuedWork s) (hiInbox s) (loInbox s) (deque s) (injector s).
Definition with_state (q : nat) (x : WorkerState) (s : hunt) : hunt :=
  mkHunt (searching s) (top s) (nxt s) (idleCount s) (ops s) (armed s) (idleLinked s) (<[q := x]> (workerState s))
    (hasQueuedWork s) (hiInbox s) (loInbox s) (deque s) (injector s).
Definition with_flag (q : nat) (b : bool) (s : hunt) : hunt :=
  mkHunt (searching s) (top s) (nxt s) (idleCount s) (ops s) (armed s) (idleLinked s) (workerState s)
    (<[q := b]> (hasQueuedWork s)) (hiInbox s) (loInbox s) (deque s) (injector s).
Definition with_inbox (hi : bool) (q : nat) (d : Z) (s : hunt) : hunt :=
  mkHunt (searching s) (top s) (nxt s) (idleCount s) (ops s) (armed s) (idleLinked s) (workerState s) (hasQueuedWork s)
    (if hi then <[q := hiInbox s q + d]> (hiInbox s) else hiInbox s)
    (if hi then loInbox s else <[q := loInbox s q + d]> (loInbox s)) (deque s) (injector s).
Definition with_deque (q : nat) (d : Z) (s : hunt) : hunt :=
  mkHunt (searching s) (top s) (nxt s) (idleCount s) (ops s) (armed s) (idleLinked s) (workerState s)
    (hasQueuedWork s) (hiInbox s) (loInbox s) (<[q := deque s q + d]> (deque s)) (injector s).
Definition with_injector (d : Z) (s : hunt) : hunt :=
  mkHunt (searching s) (top s) (nxt s) (idleCount s) (ops s) (armed s) (idleLinked s) (workerState s)
    (hasQueuedWork s) (hiInbox s) (loInbox s) (deque s) (injector s + d).

(** ** The operations on it *)

(** Node [q]'s index plus one, and back. *)
Definition idx1 (q : nat) : Z := Z.of_nat q + 1.
Definition node (x : Z) : nat := Z.to_nat (x - 1).
#[global] Arguments node : simpl never.
#[global] Arguments idx1 : simpl never.

Definition EnterHunt (s : hunt) : hunt := with_searching (u32 (searching s + 1)) s.

(** The [fetch_sub] of [LeaveHunt]; its other half is the pop below. *)
Definition LeaveHunt_sub (s : hunt) : hunt := with_searching (u32 (searching s - 1)) s.

Definition TryLeaveHuntForPark (s : hunt) : option hunt :=
  if searching s <=? 1 then None else Some (with_searching (searching s - 1) s).

Definition UnregisterIdleWorker (q : nat) (s : hunt) : hunt :=
  if armed s q then with_idleCount (u32 (idleCount s - 1)) (with_armed q false s) else s.

(** [Thread::Wake] of a pool worker. *)
Definition Wake (q : nat) (s : hunt) : hunt := with_state q WS_NOTIFIED s.

(** [compare_exchange_strong] on [workerState]. *)
Definition cas_state (q : nat) (e x : WorkerState) (s : hunt) : hunt :=
  if decide (workerState s q = e) then with_state q x s else s.

(** The checks on the way to idle, and those after [WS_PARKED] was published, in the order
    of the code; [true] means stay up. *)
Definition pre_check (k : nat) (q : nat) (s : hunt) : bool :=
  match k with
  | 0%nat | 1%nat => hasQueuedWork s q
  | 2%nat => negb (hiInbox s q =? 0)
  | 3%nat => negb (loInbox s q =? 0)
  | 4%nat => negb (injector s =? 0)
  | _ => negb (deque s q =? 0)
  end.
Definition park_check (k : nat) (q : nat) (s : hunt) : bool :=
  match k with
  | 0%nat => negb (deque s q =? 0)
  | 1%nat => hasQueuedWork s q
  | 2%nat => negb (hiInbox s q =? 0)
  | 3%nat => negb (loInbox s q =? 0)
  | 4%nat => negb (injector s =? 0)
  | _ => searching s =? 0
  end.

(** Where a hunter finds a task: its own inboxes, the injector, a deque (its own or a
    victim's).  [SDrain k] is [drainOwnInbox]: of the [k + 1] tasks taken from its inbox, all
    but the last go on its own deque. *)
Inductive source := SHi | SLo | SDrain (k : nat) | SInjector | SDeque (v : nat).
Definition BATCH_SIZE : nat := 64.
Definition take_task (x : source) (q : nat) (s : hunt) : option hunt :=
  match x with
  | SHi => if hiInbox s q =? 0 then None else Some (with_inbox true q (-1) s)
  | SLo => if loInbox s q =? 0 then None else Some (with_inbox false q (-1) s)
  | SDrain k =>
      if (loInbox s q <=? Z.of_nat k) || Nat.leb BATCH_SIZE k then None
      else Some (with_deque q (Z.of_nat k) (with_inbox false q (- (Z.of_nat k + 1)) s))
  | SInjector => if injector s =? 0 then None else Some (with_injector (-1) s)
  | SDeque v => if deque s v =? 0 then None else Some (with_deque v (-1) s)
  end.

(** ** The program counters *)

(** [PopIdleWorker], from its load of the top. *)
Inductive popper :=
| PTop | PNext (h : Z * Z) | PCas (h : Z * Z) (nx : Z) | PGot (q : nat) | PCleared (q : nat) | PArmed (q : nat).

Inductive pc :=
(* a worker: running a task body; about to enter the hunt; hunting; with a task in hand *)
| WRun | WEnter | WHunt | WTook
(* handing off after the last hunter left: popping, about to notify *)
| WLeave (p : popper) | WTell (q : nat)
(* on the way to idle, leaving the hunt, publishing [WS_PARKED] *)
| WPre (k : nat) | WTry | WPark0 | WPark1 | WPark2
(* [RegisterIdleWorker] *)
| WReg0 | WReg1 | WReg2 | WReg3 | WReg4 (h : Z * Z) | WReg5 (h : Z * Z)
(* the recheck, backing out, asleep, waking up *)
| WChk (k : nat) | WAb0 | WAb1 | WAb2 | WSleep | WWake1 | WWake2
(* a pusher: [PickNextWorker], then the inbox, the flag and the notification *)
| XIdle | XPick (hi : bool) | XPop (hi : bool) (p : popper) | XPush (hi : bool) (q : nat) | XMark (q : nat) | XTell (q : nat).

(** What a thread does where it has a choice: [Fail] a weak compare-exchange that fails
    for no reason, [Choose] the round robin's or the caller's target. *)
Inductive act := Go | Fail | Take (x : source) | Spawn | Inject | Place (hi : bool) | Choose (hi : bool) (q : nat) | Poke (q : nat).

(** ** The steps of a thread *)

Section steps.
Context (n : nat).

(** One operation of [PopIdleWorker]: where it goes on, or the worker it returns. *)
Definition pop_step (a : act) (p : popper) (s : hunt) : option (hunt * (popper + option nat)) :=
  match p, a with
  | PTop, Go =>
      let h := top s in
      if h.2 =? 0 then Some (s, inr None)
      else if Nat.leb n (node h.2) then Some (s, inr None) else Some (s, inl (PNext h))
  | PNext h, Go => Some (s, inl (PCas h (next_of (nxt s) h.2)))
  | PCas h nx, Go =>
      if decide (top s = h) then Some (with_top (u32 (h.1 + 1), nx) s, inl (PGot (node h.2))) else Some (s, inl PTop)
  | PCas h nx, Fail => Some (s, inl PTop)
  | PGot q, Go => Some (with_linked q false s, inl (PCleared q))
  | PCleared q, Go => if armed s q then Some (with_armed q false s, inl (PArmed q)) else Some (s, inl PTop)
  | PArmed q, Go =>
      let s1 := with_idleCount (u32 (idleCount s - 1)) s in
      if decide (workerState s q = WS_PARKED) then Some (s1, inr (Some q)) else Some (s1, inl PTop)
  | _, _ => None
  end.

(** One operation of [RegisterIdleWorker] by worker [i]; at its end the recheck begins. *)
Definition reg_step (a : act) (i : nat) (p : pc) (s : hunt) : option (hunt * pc) :=
  match p, a with
  | WReg0, Go => Some (with_armed i true s, WReg1)
  | WReg1, Go => Some (s, if idleLinked s i then WChk 0 else WReg2)
  | WReg2, Go => Some (with_linked i true s, WReg3)
  | WReg3, Go => Some (s, WReg4 (top s))
  | WReg4 h, Go => Some (with_nxt (<[idx1 i := h.2]> (nxt s)) s, WReg5 h)
  | WReg5 h, Go =>
      if decide (top s = h) then Some (with_idleCount (u32 (idleCount s + 1)) (with_top (u32 (h.1 + 1), idx1 i) s), WChk 0)
      else Some (s, WReg4 (top s))
  | WReg5 h, Fail => Some (s, WReg4 (top s))
  | _, _ => None
  end.

(** The park path of [Thread::Worker]. *)
Definition park_step (a : act) (i : nat) (p : pc) (s : hunt) : option (hunt * pc) :=
  match p, a with
  | WPre k, Go =>
      if pre_check k i s then Some (if Nat.eqb k 0 then with_flag i false s else s, WHunt)
      else Some (s, if Nat.leb 5 k then WTry else WPre (S k))
  | WTry, Go => match TryLeaveHuntForPark s with Some s' => Some (s', WPark0) | None => Some (s, WHunt) end
  | WPark0, Go =>
      if decide (workerState s i = WS_NOTIFIED) then Some (with_state i WS_EMPTY s, WEnter) else Some (s, WPark1)
  | WPark1, Go =>
      match workerState s i with
      | WS_EMPTY => Some (with_state i WS_PARKED s, WReg0)
      | WS_NOTIFIED => Some (s, WPark2)
      | WS_PARKED => Some (s, WEnter)
      end
  | WPark2, Go => Some (cas_state i WS_NOTIFIED WS_EMPTY s, WEnter)
  | WChk k, Go => Some (s, if park_check k i s then WAb0 else if Nat.leb 5 k then WSleep else WChk (S k))
  | WAb0, Go => Some (UnregisterIdleWorker i s, WAb1)
  | WAb1, Go =>
      if decide (workerState s i = WS_PARKED) then Some (with_state i WS_EMPTY s, WEnter) else Some (s, WAb2)
  | WAb2, Go => Some (cas_state i WS_NOTIFIED WS_EMPTY s, WEnter)
  | WSleep, Go => if decide (workerState s i = WS_PARKED) then None else Some (s, WWake1)
  | WWake1, Go => Some (cas_state i WS_NOTIFIED WS_EMPTY s, WWake2)
  | WWake2, Go => Some (UnregisterIdleWorker i s, WEnter)
  | _, _ => reg_step a i p s
  end.

(** The rest of [Thread::Worker]: entering the hunt, finding work, leaving it to run the
    body with the hand-off of [LeaveHunt]; a body may push onto its own deque, which
    notifies nobody. *)
Definition hunter_step (a : act) (i : nat) (p : pc) (s : hunt) : option (hunt * pc) :=
  match p, a with
  | WRun, Spawn => Some (with_deque i 1 s, WRun)
  | WRun, Go => Some (s, WEnter)
  | WEnter, Go => Some (EnterHunt s, WHunt)
  | WHunt, Take x => match take_task x i s with Some s' => Some (s', WTook) | None => None end
  | WHunt, Go => Some (s, WPre 0)
  | WTook, Go => Some (LeaveHunt_sub s, if searching s =? 1 then WLeave PTop else WRun)
  | WLeave p, _ =>
      match pop_step a p s with
      | Some (s', inl p') => Some (s', WLeave p')
      | Some (s', inr (Some q)) => Some (s', WTell q)
      | Some (s', inr None) => Some (s', WRun)
      | None => None
      end
  | WTell q, Go => Some (Wake q s, WRun)
  | _, _ => park_step a i p s
  end.

(** A push from anywhere: to a worker the caller names or the round robin takes, to the
    idle worker popped when nobody hunts, to the injector; or a bare notification. *)
Definition push_step (a : act) (p : pc) (s : hunt) : option (hunt * pc) :=
  match p, a with
  | XIdle, Inject => Some (with_injector 1 s, XIdle)
  | XIdle, Place hi => Some (s, XPick hi)
  | XIdle, Choose hi q => if Nat.ltb q n then Some (s, XPush hi q) else None
  | XIdle, Poke q => if Nat.ltb q n then Some (s, XTell q) else None
  | XPick hi, Go => if searching s =? 0 then Some (s, XPop hi PTop) else None
  | XPick hi, Choose _ q => if (searching s =? 0) || negb (Nat.ltb q n) then None else Some (s, XPush hi q)
  | XPop hi PTop, Choose _ q =>
      match pop_step Go PTop s with
      | Some (_, inr None) => if Nat.ltb q n then Some (s, XPush hi q) else None
      | _ => None
      end
  | XPop hi p, _ =>
      match pop_step a p s with
      | Some (s', inl p') => Some (s', XPop hi p')
      | Some (s', inr (Some q)) => Some (s', XPush hi q)
      | _ => None
      end
  | XPush hi q, Go => Some (with_inbox hi q 1 s, XMark q)
  | XMark q, Go => Some (with_flag q true s, XTell q)
  | XTell q, Go => Some (Wake q s, XIdle)
  | _, _ => None
  end.

Definition hthread_step (a : act) (i : nat) (p : pc) (s : hunt) : option (hunt * pc) :=
  if Nat.ltb i n then hunter_step a i p s else push_step a p s.

(** ** The whole system *)

Record hstate := mkHS { sh : hunt; th : gmap nat pc }.

Inductive hunt_step : hstate → hstate → Prop :=
| Step s t a i p s' p' : t !! i = Some p → hthread_step a i p s = Some (s', p') → hunt_step (mkHS s t) (mkHS s' (<[i := p']> t)).

(** A started pool: every worker about to enter the hunt, nothing queued. *)
Definition fresh : hunt :=
  mkHunt 0 (0, 0) ∅ 0 0 (λ _, false) (λ _, false) (λ _, WS_EMPTY) (λ _, false) (λ _, 0) (λ _, 0) (λ _, 0) 0.
Definition hinit (x : hstate) : Prop :=
  sh x = fresh ∧ (Z.of_nat (size (th x)) < 2 ^ 32) ∧ (∀ i, (i < n)%nat → th x !! i = Some WEnter) ∧
  (∀ i p, (n ≤ i)%nat → th x !! i = Some p → p = XIdle).
End steps.

(** ** What a thread is about to do *)

Definition popping (p : pc) : option popper := match p with WLeave p | XPop _ p => Some p | _ => None end.

(** Counted in [searching]. *)
Definition hunting (p : pc) : bool := match p with WHunt | WTook | WPre _ | WTry => true | _ => false end.

(** Popped node [q] and has not cleared its [idleLinked]; is going to take its arm; has
    taken it; is going to notify [q]. *)
Definition got (q : nat) (p : pc) : bool := match popping p with Some (PGot q') => Nat.eqb q' q | _ => false end.
Definition will_take (q : nat) (p : pc) : bool := got q p || match popping p with Some (PCleared q') => Nat.eqb q' q | _ => false end.
Definition tells (q : nat) (p : pc) : bool :=
  match p with WTell q' | XPush _ q' | XMark q' | XTell q' => Nat.eqb q' q | _ => false end.
Definition taken (q : nat) (p : pc) : bool := tells q p || match popping p with Some (PArmed q') => Nat.eqb q' q | _ => false end.

(** Has marked itself linked and not yet pushed itself. *)
Definition linking (p : pc) : bool := match p with WReg3 | WReg4 _ | WReg5 _ => true | _ => false end.

(** Has armed its node; has registered; may have [WS_PARKED] in its word. *)
Definition registered (p : pc) : bool := match p with WChk _ | WSleep => true | _ => false end.
Definition arming (p : pc) : bool := match p with WReg1 | WReg2 => true | _ => linking p || registered p end.
Definition parked (p : pc) : bool := match p with WReg0 | WAb0 | WAb1 => true | _ => arming p end.

(** Will enter the hunt whatever the others do. *)
Definition heading (w : WorkerState) (p : pc) : bool :=
  match p with
  | WEnter | WPark2 | WAb0 | WAb1 | WAb2 | WWake1 | WWake2 => true
  | WPark0 | WPark1 => bool_decide (w = WS_NOTIFIED)
  | WReg0 => bool_decide (w ≠ WS_PARKED)
  | _ => arming p && bool_decide (w ≠ WS_PARKED)
  end.

(** The top it loaded. *)
Definition loaded (p : pc) : option (Z * Z) :=
  match p with
  | WReg4 h | WReg5 h => Some h
  | _ => match popping p with Some (PNext h) | Some (PCas h _) => Some h | _ => None end
  end.

(** Some thread satisfies [P]. *)
Definition some_thread (P : nat → pc → Prop) (t : gmap nat pc) : Prop := ∃ j p, t !! j = Some p ∧ P j p.

(** Whoever makes sure that a worker will hunt: a thread in [PopIdleWorker], one about to
    notify a parked worker, a worker on its way to the hunt. *)
Definition rescuer (s : hunt) (j : nat) (p : pc) : Prop :=
  popping p ≠ None ∨ (∃ q, tells q p = true ∧ workerState s q = WS_PARKED) ∨ heading (workerState s j) p = true.

Lemma some_stays P P' t i p p' :
  t !! i = Some p → some_thread P t → (P i p → P' i p') → (∀ j pj, j ≠ i → P j pj → P' j pj) → some_thread P' (<[i := p']> t).
Proof.
  intros Hi (j & pj & Hj & HP) H1 H2. destruct (decide (j = i)) as [->|Hn].
  - simplify_eq. exists i, p'. split; [by rewrite lookup_insert_eq|by apply H1].
  - exists j, pj. split; [by rewrite lookup_insert_ne|by apply H2].
Qed.

Lemma some_here (P : nat → pc → Prop) t i p' : P i p' → some_thread P (<[i := p']> t).
Proof. intros HP. exists i, p'. split; [by rewrite lookup_insert_eq|done]. Qed.

(** The cases of a step [H] of a thread. *)
Ltac step_cases H :=
  unfold hunter_step, park_step, reg_step, push_step, take_task, TryLeaveHuntForPark, UnregisterIdleWorker, cas_state in H;
  repeat (case_match; try discriminate); simplify_eq; cbn [fst snd] in *.
Ltac all_cases H :=
  let E := fresh "Ei" in
  unfold hthread_step in H; match type of H with context [Nat.ltb ?i ?n] => destruct (Nat.ltb_spec i n) as [E|E] end;
  match type of H with hunter_step _ ?a _ ?p _ = _ => destruct p, a | push_step _ ?a ?p _ = _ => destruct p, a end;
  cbn -[pop_step take_task TryLeaveHuntForPark UnregisterIdleWorker cas_state pre_check park_check Nat.leb Z.eqb] in H; try discriminate H;
  try match type of H with context [pop_step _ ?a ?p _] => destruct p; try discriminate H; cbn -[Nat.leb Z.eqb u32] in H; try discriminate H end;
  unfold take_task, TryLeaveHuntForPark, UnregisterIdleWorker, cas_state in *;
  repeat (case_match; try discriminate H); simplify_eq.

(** A goal about one of those cases. *)
Ltac eff :=
  unfold with_inbox, taken, will_take, got, tells in *; cbn in *; unfold insert, fn_insert in *;
  repeat (case_decide; simplify_eq); rewrite ?Nat.eqb_eq, ?orb_false_r, ?Nat.eqb_refl, ?Z.eqb_eq, ?Z.eqb_neq, ?Z.leb_gt in *; subst;
  try (by left); try (by right; left); try (by right; right); try done; try lia; try naive_solver; try (intros; rewrite ?Nat.eqb_eq in *; simplify_eq; rewrite ?Nat.eqb_refl; try done; naive_solver congruence).

(** ** The idle stack

    [l] is the stack, as indices plus one, top first.  A node is linked exactly once: it is
    on the stack, or its worker is about to push it, or a thread that popped it has yet to
    say so. *)

Section stack.
Context (n : nat).

Definition linking_at (t : gmap nat pc) (q : nat) : bool := match t !! q with Some p => linking p | None => false end.

Lemma linking_insert t i p' q : linking_at (<[i := p']> t) q = if decide (i = q) then linking p' else linking_at t q.
Proof. unfold linking_at. rewrite lookup_insert. by destruct (decide (i = q)). Qed.

Lemma linking_same t i p p' q : t !! i = Some p → linking p' = linking p → linking_at (<[i := p']> t) q = linking_at t q.
Proof.
  intros Hi E. rewrite linking_insert. destruct (decide (i = q)) as [<-|]; [|done]. unfold linking_at. by rewrite Hi, E.
Qed.

Record sinv (l : list Z) (s : hunt) (t : gmap nat pc) : Prop := {
  si_ver : (top s).1 = ops s;
  si_chain : chain (nxt s) (top s).2 l;
  si_nodes x : x ∈ l → 1 ≤ x ≤ Z.of_nat n;
  si_link q : Z.b2z (idleLinked s q) = Z.b2z (bool_decide (idx1 q ∈ l)) + num (got q) t
      + Z.b2z (linking_at t q);
  si_reg2 q : t !! q = Some WReg2 → idleLinked s q = false;
  si_heads j p h : t !! j = Some p → loaded p = Some h → (h.1 ≤ ops s) ∧ (h.1 = ops s → h = top s);
  si_pop j p : t !! j = Some p →
    match popping p with
    | Some (PNext h) => 1 ≤ h.2 ≤ Z.of_nat n
    | Some (PCas h nx) => (1 ≤ h.2 ≤ Z.of_nat n) ∧ (h = top s → nx = next_of (nxt s) h.2)
    | _ => True
    end;
  si_self q h : t !! q = Some (WReg5 h) → next_of (nxt s) (idx1 q) = h.2 }.

(** A step that leaves the stack alone. *)
Lemma sinv_frame l s s' t i p p' :
  t !! i = Some p → sinv l s t →
  top s' = top s → nxt s' = nxt s → idleLinked s' = idleLinked s → ops s' = ops s →
  linking p' = linking p → (∀ q, got q p' = got q p) → loaded p' = None → p' ≠ WReg2 → sinv l s' (<[i := p']> t).
Proof.
  intros Hi [A1 A2 A3 A4 A5 A6 A7 A8] E1 E2 E3 E4 F1 F2 F3 F4.
  constructor; rewrite ?E1, ?E2, ?E3, ?E4; try done.
  - intros q. rewrite A4, (num_insert _ _ _ p) by done. rewrite F2, (linking_same t i p) by done. lia.
  - intros q [[-> ->]|[Hn Hq]]%lookup_insert_Some; [done|by apply A5].
  - intros j pj h [[-> <-]|[Hn Hj]]%lookup_insert_Some Hh; [congruence|by eapply A6].
  - intros j pj [[<- <-]|[Hn Hj]]%lookup_insert_Some.
    + destruct p' as [| | | |pp| | | | | | | | | | | | | | | | | | | | | |? pp| | |]; try done; by destruct pp.
    + by apply (A7 j).
  - intros q h [[-> ->]|[Hn Hq]]%lookup_insert_Some; [done|by apply A8].
Qed.

(** A thread that goes on with a top it has just loaded or holds. *)
Lemma sinv_hold l s t i p p' h :
  t !! i = Some p → sinv l s t → linking p' = linking p → (∀ q, got q p' = got q p) →
  loaded p' = Some h → h = top s ∨ loaded p = Some h →
  match popping p' with
  | Some (PNext h) => 1 ≤ h.2 ≤ Z.of_nat n
  | Some (PCas h nx) => (1 ≤ h.2 ≤ Z.of_nat n) ∧ (h = top s → nx = next_of (nxt s) h.2)
  | _ => True
  end →
  (∀ h, p' = WReg5 h → next_of (nxt s) (idx1 i) = h.2) →
  sinv l s (<[i := p']> t).
Proof.
  intros Hi [A1 A2 A3 A4 A5 A6 A7 A8] F1 F2 F3 F4 F5 F6. constructor; try done.
  - intros q. rewrite A4, (num_insert _ _ _ p) by done. rewrite F2, (linking_same t i p) by done. lia.
  - intros q [[-> ->]|[Hn Hq]]%lookup_insert_Some; [done|by apply A5].
  - intros j pj h' [[-> <-]|[Hn Hj]]%lookup_insert_Some Hh; [|by eapply A6].
    simplify_eq. destruct F4 as [->|F4]; [split; [lia|done]|by eapply A6].
  - intros j pj [[<- <-]|[Hn Hj]]%lookup_insert_Some; [done|by apply (A7 j)].
  - intros q h' [[-> ->]|[Hn Hq]]%lookup_insert_Some; [by apply F6|by apply A8].
Qed.

Lemma idx1_inj q q' : idx1 q = idx1 q' → q = q'.
Proof. unfold idx1. lia. Qed.

Lemma idx1_node x : 1 ≤ x → idx1 (node x) = x.
Proof. unfold idx1, node. lia. Qed.

Lemma got_other i t (p : pc) q : t !! i = Some p → got q p = true → 0 < num (got q) t.
Proof. apply num_pos. Qed.

(** The pop: the compare-exchange of [PopIdleWorker] succeeds. *)
Lemma sinv_pop_cas l s t i p p' h nx :
  t !! i = Some p → popping p = Some (PCas h nx) → popping p' = Some (PGot (node h.2)) → top s = h → ops s + 1 < 2 ^ 32 →
  0 ≤ ops s → sinv l s t → ∃ l', l = h.2 :: l' ∧ sinv l' (with_top (u32 (h.1 + 1), nx) s) (<[i := p']> t).
Proof.
  intros Hi Hp Hp' Ht Hb H0 [A1 A2 A3 A4 A5 A6 A7 A8].
  pose proof (A7 i p Hi) as Hx. rewrite Hp in Hx. destruct Hx as [Hr Hnx]. specialize (Hnx (eq_sym Ht)).
  rewrite Ht in A2. destruct l as [|x l']; [unfold chain in A2; cbn in A2; lia|]. pose proof (chain_NoDup _ _ _ A2) as [Hnd _]%NoDup_cons.
  destruct A2 as (<- & _ & A2). exists l'. split; [done|]. rewrite Ht in A1.
  assert (Hlk : linking p = false ∧ linking p' = false) by (by destruct p, p'). destruct Hlk as [L1 L2].
  assert (Hl' : loaded p' = None) by (destruct p'; cbn in *; by simplify_eq).
  constructor; cbn.
  - rewrite u32_small; lia.
  - by rewrite Hnx.
  - intros y Hy. apply A3. set_solver.
  - intros q. specialize (A4 q). rewrite (num_insert _ _ _ p) by done.
    assert (Hg : got q p = false) by (unfold got; by rewrite Hp). rewrite Hg.
    rewrite (linking_same t i p), A4 by congruence. unfold got at 3. rewrite Hp'. destruct (decide (q = node h.2)) as [->|Hn].
    + rewrite Nat.eqb_refl, idx1_node by lia. rewrite bool_decide_eq_true_2 by set_solver. rewrite bool_decide_eq_false_2 by done. cbn. lia.
    + rewrite (proj2 (Nat.eqb_neq _ _)) by done. cbn.
      assert (He : idx1 q ∈ h.2 :: l' ↔ idx1 q ∈ l').
      { rewrite elem_of_cons. split; [|by right]. intros [E|?]; [|done]. exfalso. apply Hn. apply idx1_inj. by rewrite idx1_node by lia. }
      rewrite (bool_decide_ext _ _ He). lia.
  - intros q [[-> ->]|[Hn Hq]]%lookup_insert_Some; [done|by apply A5].
  - intros j pj h' [[-> <-]|[Hn Hj]]%lookup_insert_Some Hh; [congruence|]. destruct (A6 j pj h' Hj Hh). lia.
  - intros j pj [[<- <-]|[Hn Hj]]%lookup_insert_Some; [by rewrite Hp'|]. pose proof (A7 j pj Hj) as Hx.
    destruct (popping pj) as [[| |h' nx'| | |]|] eqn:Epj; try done. split; [by destruct Hx|].
    intros Eh. exfalso. destruct (A6 j pj h' Hj) as [Hle _]; [by destruct pj; cbn in *; simplify_eq|]. rewrite Eh in Hle. cbn in Hle. rewrite u32_small in Hle; lia.
  - intros q h' [[-> ->]|[Hn Hq]]%lookup_insert_Some; [done|by apply A8].
Qed.

(** A popper clears [idleLinked] of the node it popped. *)
Lemma sinv_clear l s t i p p' q :
  t !! i = Some p → popping p = Some (PGot q) → popping p' = Some (PCleared q) → sinv l s t →
  sinv l (with_linked q false s) (<[i := p']> t).
Proof.
  intros Hi Hp Hp' [A1 A2 A3 A4 A5 A6 A7 A8].
  assert (Hlk : linking p = false ∧ linking p' = false) by (by destruct p, p'). destruct Hlk as [L1 L2].
  assert (Hl' : loaded p' = None) by (destruct p'; cbn in *; by simplify_eq).
  constructor; cbn; try done.
  - intros q'. specialize (A4 q'). rewrite (num_insert _ _ _ p) by done.
    rewrite (linking_same t i p) by congruence. assert (Hg : got q' p = Nat.eqb q q' ∧ got q' p' = false) by (unfold got; by rewrite Hp, Hp'). destruct Hg as [G1 G2].
    rewrite G1, G2. destruct (decide (q = q')) as [<-|Hn].
    + rewrite fn_lookup_insert, Nat.eqb_refl in *. pose proof (num_pos (got q) t i p Hi G1). cbn [Z.b2z] in *.
      destruct (idleLinked s q), (bool_decide _), (linking_at t q); cbn [Z.b2z] in *; lia.
    + rewrite fn_lookup_insert_ne by done. rewrite (proj2 (Nat.eqb_neq _ _)) by done. cbn [Z.b2z]. lia.
  - intros q' [[-> ->]|[Hn Hq]]%lookup_insert_Some; [done|]. specialize (A5 _ Hq).
    destruct (decide (q = q')) as [<-|]; [by rewrite fn_lookup_insert|by rewrite fn_lookup_insert_ne].
  - intros j pj h' [[-> <-]|[Hn Hj]]%lookup_insert_Some Hh; [congruence|by eapply A6].
  - intros j pj [[<- <-]|[Hn Hj]]%lookup_insert_Some; [by rewrite Hp'|by apply (A7 j)].
  - intros q' h' [[-> ->]|[Hn Hq]]%lookup_insert_Some; [done|by apply A8].
Qed.

(** *** [RegisterIdleWorker] *)

Lemma got_reg q p : popping p = None → got q p = false.
Proof. unfold got. by intros ->. Qed.

Lemma sinv_reg1 l s t i : t !! i = Some WReg1 → idleLinked s i = false → sinv l s t → sinv l s (<[i := WReg2]> t).
Proof.
  intros Hi Hf [A1 A2 A3 A4 A5 A6 A7 A8]. constructor; try done.
  - intros q. by rewrite A4, (num_insert _ _ _ WReg1), (linking_same t i WReg1), !got_reg, Z.add_0_r, Z.sub_0_r by done.
  - intros q [[-> _]|[Hn Hq]]%lookup_insert_Some; [done|by apply A5].
  - intros j pj h [[-> <-]|[Hn Hj]]%lookup_insert_Some Hh; [done|by eapply A6].
  - intros j pj [[<- <-]|[Hn Hj]]%lookup_insert_Some; [done|by apply (A7 j)].
  - intros q h [[-> [=]]|[Hn Hq]]%lookup_insert_Some. by apply A8.
Qed.

Lemma sinv_reg2 l s t i : t !! i = Some WReg2 → sinv l s t → sinv l (with_linked i true s) (<[i := WReg3]> t).
Proof.
  intros Hi [A1 A2 A3 A4 A5 A6 A7 A8]. pose proof (A5 i Hi) as Hf. constructor; cbn; try done.
  - intros q. specialize (A4 q). rewrite (num_insert _ _ _ WReg2), !got_reg, linking_insert by done. cbn [Z.b2z]. rewrite Z.add_0_r, Z.sub_0_r.
    destruct (decide (i = q)) as [<-|Hn]; [|by rewrite fn_lookup_insert_ne]. rewrite fn_lookup_insert.
    unfold linking_at in A4. rewrite Hf, Hi in A4. cbn [Z.b2z linking] in *. lia.
  - intros q [[-> [=]]|[Hn Hq]]%lookup_insert_Some. rewrite fn_lookup_insert_ne by done. by apply A5.
  - intros j pj h [[-> <-]|[Hn Hj]]%lookup_insert_Some Hh; [done|by eapply A6].
  - intros j pj [[<- <-]|[Hn Hj]]%lookup_insert_Some; [done|by apply (A7 j)].
  - intros q h [[-> [=]]|[Hn Hq]]%lookup_insert_Some. by apply A8.
Qed.

(** A worker about to push itself is not on the stack, and nobody holds it. *)
Lemma linking_alone l s t i p : t !! i = Some p → linking p = true → sinv l s t → (idx1 i ∉ l) ∧ num (got i) t = 0.
Proof.
  intros Hi Hl [_ _ _ A4 _ _ _ _]. specialize (A4 i). pose proof (num_nonneg (got i) t). unfold linking_at in A4. rewrite Hi, Hl in A4.
  cbn [Z.b2z] in A4. destruct (bool_decide (idx1 i ∈ l)) eqn:E; cbn [Z.b2z] in A4; destruct (idleLinked s i); cbn [Z.b2z] in A4; try lia.
  apply bool_decide_eq_false_1 in E. split; [done|lia].
Qed.

Lemma top_in l s t : sinv l s t → (top s).2 = 0 ∨ (top s).2 ∈ l.
Proof.
  intros A. pose proof (si_chain _ _ _ A) as Hc. destruct l as [|x l]; [left; done|]. destruct Hc as (-> & _ & _). right. set_solver.
Qed.

Lemma sinv_reg4 l s t i h :
  t !! i = Some (WReg4 h) → sinv l s t → sinv l (with_nxt (<[idx1 i := h.2]> (nxt s)) s) (<[i := WReg5 h]> t).
Proof.
  intros Hi A. destruct (linking_alone l s t i _ Hi eq_refl A) as [Hno _]. destruct (top_in l s t A) as [Ht|Ht]; destruct A as [A1 A2 A3 A4 A5 A6 A7 A8].
  1,2: constructor; cbn; try done.
  1,7: by apply lseg_insert.
  1,6: intros q; by rewrite A4, (num_insert _ _ _ (WReg4 h)), (linking_same t i (WReg4 h)), !got_reg, Z.add_0_r, Z.sub_0_r by done.
  1,5: intros q [[-> [=]]|[Hn Hq]]%lookup_insert_Some; by apply A5.
  1,4: intros j pj h' [[-> <-]|[Hn Hj]]%lookup_insert_Some Hh; [by eapply (A6 j)|by eapply A6].
  1,3: intros j pj [[<- <-]|[Hn Hj]]%lookup_insert_Some; [done|]; pose proof (A7 j pj Hj) as Hx;
    destruct (popping pj) as [[| |h' nx'| | |]|]; try done; destruct Hx as [Hx1 Hx2]; (split; [done|]); intros E; rewrite (Hx2 E), next_of_insert, decide_False; [done|].
  1: rewrite E, Ht in Hx1; lia.
  1: intros E'; apply Hno; rewrite E'; by rewrite E.
  all: intros q h' [[-> [= ->]]|[Hn Hq]]%lookup_insert_Some; [by rewrite next_of_eq|]; rewrite next_of_insert, decide_False; [by apply A8|]; by intros ?%idx1_inj.
Qed.

(** The push: the compare-exchange of [RegisterIdleWorker] succeeds. *)
Lemma sinv_reg5 l s t i h k :
  t !! i = Some (WReg5 h) → (i < n)%nat → top s = h → ops s + 1 < 2 ^ 32 → 0 ≤ ops s → sinv l s t →
  sinv (idx1 i :: l) (with_idleCount k (with_top (u32 (h.1 + 1), idx1 i) s)) (<[i := WChk 0]> t).
Proof.
  intros Hi Hlt Ht Hb H0 A. destruct (linking_alone l s t i _ Hi eq_refl A) as [Hno _]. destruct A as [A1 A2 A3 A4 A5 A6 A7 A8].
  rewrite Ht in A1, A2. constructor; cbn.
  - rewrite u32_small; lia.
  - unfold chain. cbn. split_and!; [done|unfold idx1; lia|]. by rewrite (A8 i h Hi).
  - intros x [->|Hx]%elem_of_cons; [unfold idx1; lia|by apply A3].
  - intros q. specialize (A4 q). rewrite A4, (num_insert _ _ _ (WReg5 h)), !got_reg, linking_insert by done. cbn [Z.b2z linking].
    destruct (decide (i = q)) as [<-|Hn].
    + unfold linking_at. rewrite Hi. rewrite bool_decide_eq_false_2, bool_decide_eq_true_2 by set_solver. cbn [Z.b2z linking]. lia.
    + assert (He : idx1 q ∈ idx1 i :: l ↔ idx1 q ∈ l).
      { rewrite elem_of_cons. split; [|by right]. intros [E%idx1_inj|?]; done. }
      rewrite (bool_decide_ext _ _ He). lia.
  - intros q [[-> [=]]|[Hn Hq]]%lookup_insert_Some. by apply A5.
  - intros j pj h' [[-> <-]|[Hn Hj]]%lookup_insert_Some Hh; [done|]. destruct (A6 j pj h' Hj Hh). lia.
  - intros j pj [[<- <-]|[Hn Hj]]%lookup_insert_Some; [done|]. pose proof (A7 j pj Hj) as Hx.
    destruct (popping pj) as [[| |h' nx'| | |]|] eqn:Epj; try done. split; [by destruct Hx|].
    intros Eh. exfalso. destruct (A6 j pj h' Hj) as [Hle _]; [by destruct pj; cbn in *; simplify_eq|]. rewrite Eh in Hle. cbn in Hle. rewrite u32_small in Hle; lia.
  - intros q h' [[-> [=]]|[Hn Hq]]%lookup_insert_Some. by apply A8.
Qed.

(** What a step does to the stack: whoever leaves it is held by the thread that popped it,
    and a worker that pushed itself is on it. *)
Definition moved (l l' : list Z) (i : nat) (p p' : pc) : Prop :=
  (∀ q, idx1 q ∈ l → idx1 q ∈ l' ∨ got q p' = true) ∧ (linking p = true → registered p' = true → idx1 i ∈ l').

Lemma moved_same l i p p' : linking p = false ∨ registered p' = false → moved l l i p p'.
Proof. intros H. split; [by left|]. intros H1 H2. destruct H; congruence. Qed.

(** One operation of [PopIdleWorker], whoever runs it. *)
Lemma sinv_pop_step l s t a i p pp s' pp' p' :
  t !! i = Some p → popping p = Some pp → pop_step n a pp s = Some (s', inl pp') → popping p' = Some pp' → 0 ≤ ops s → ops s' < 2 ^ 32 →
  sinv l s t → ∃ l', sinv l' s' (<[i := p']> t) ∧ moved l l' i p p'.
Proof.
  intros Hi Hp Hs Hp' H0 Hb A. assert (L1 : linking p = false ∧ linking p' = false ∧ p' ≠ WReg2 ∧ registered p' = false) by (by destruct p, p').
  destruct L1 as (L1 & L2 & L3 & L4).
  assert (Hld : loaded p = match pp with PNext h | PCas h _ => Some h | _ => None end) by (destruct p; cbn in Hp; simplify_eq; by destruct pp).
  assert (Hld' : loaded p' = match pp' with PNext h | PCas h _ => Some h | _ => None end) by (destruct p'; cbn in Hp'; simplify_eq; by destruct pp').
  assert (Hg : ∀ q, got q p = match pp with PGot q' => Nat.eqb q' q | _ => false end) by (intros q; unfold got; rewrite Hp; done).
  assert (Hg' : ∀ q, got q p' = match pp' with PGot q' => Nat.eqb q' q | _ => false end) by (intros q; unfold got; rewrite Hp'; done).
  assert (Hq : pp' = PTop ∨ (∃ q, pp' = PArmed q) → top s' = top s → nxt s' = nxt s → idleLinked s' = idleLinked s → ops s' = ops s →
    (∀ q, pp ≠ PGot q) → ∃ l', sinv l' s' (<[i := p']> t) ∧ moved l l' i p p').
  { intros Hpp E1 E2 E3 E4 Hne. exists l. split; [|by apply moved_same; left]. eapply sinv_frame; try done; [by rewrite L1| |].
    - intros q. rewrite Hg, Hg'. destruct pp; try done; [| | |by destruct (Hne q0)|..]; by destruct Hpp as [->|[? ->]].
    - rewrite Hld'. by destruct Hpp as [->|[? ->]]. }
  destruct pp, a; cbn in Hs; try discriminate.
  - destruct ((top s).2 =? 0) eqn:E0; [done|]. destruct (Nat.leb n _) eqn:E1; [done|]. simplify_eq. exists l. split; [|by apply moved_same; left].
    eapply sinv_hold; try done; [by rewrite L1|by intros q; rewrite Hg, Hg'|by left| |by intros h ->].
    rewrite Hp'. apply Z.eqb_neq in E0. destruct (top_in l _ t A) as [?|Hin]; [done|by apply (si_nodes _ _ _ A)].
  - simplify_eq. exists l. split; [|by apply moved_same; left].
    eapply sinv_hold; try done; [by rewrite L1|by intros q; rewrite Hg, Hg'|by right| |by intros h' ->].
    rewrite Hp'. pose proof (si_pop _ _ _ A i p Hi) as Hx. rewrite Hp in Hx. split; [done|]. by intros ->.
  - destruct (decide (top s = h)) as [Et|]; simplify_eq; [|by apply Hq; [left|..]].
    destruct (sinv_pop_cas l s t i p p' (top s) nx) as (l' & -> & A'); try done. exists l'. split; [done|]. split; [|congruence].
    intros q [E|Hin]%elem_of_cons; [right|by left]. rewrite Hg', <- E. apply Nat.eqb_eq. unfold node, idx1. lia.
  - simplify_eq. by apply Hq; [left|..].
  - simplify_eq. exists l. split; [by eapply sinv_clear|by apply moved_same; left].
  - destruct (armed s q); simplify_eq; apply Hq; eauto; done.
  - destruct (decide _); simplify_eq. by apply Hq; [left|..].
Qed.

(** [PopIdleWorker] returns nobody only from an empty stack, and a worker only after it
    has taken its arm and seen it parked. *)
Lemma pop_none l s t a pp s' : sinv l s t → pop_step n a pp s = Some (s', inr None) → pp = PTop ∧ s' = s ∧ l = [].
Proof.
  intros A. destruct pp, a; cbn; try done; [|by destruct (decide _)|by destruct (armed s q)|by destruct (decide _)].
  destruct (Z.eqb_spec (top s).2 0) as [E|E].
  - intros [= <-]. split_and!; try done. destruct l as [|x l]; [done|]. destruct (si_chain _ _ _ A) as (Ex & Hx & _). congruence.
  - destruct (top_in l s t A) as [?|Hin]; [done|]. apply (si_nodes _ _ _ A) in Hin.
    rewrite (proj2 (Nat.leb_gt n (node (top s).2))) by (unfold node; lia). done.
Qed.

Lemma pop_some a pp s s' q :
  pop_step n a pp s = Some (s', inr (Some q)) →
  pp = PArmed q ∧ s' = with_idleCount (u32 (idleCount s - 1)) s ∧ workerState s q = WS_PARKED.
Proof.
  destruct pp, a; cbn; try done.
  - by destruct (_ =? 0); [|destruct (Nat.leb _ _)].
  - by destruct (decide _).
  - by destruct (armed s q0).
  - destruct (decide _) as [E|]; [|done]. by intros [= <- <-].
Qed.

Lemma stack_step l s t a i p s' p' :
  t !! i = Some p → hthread_step n a i p s = Some (s', p') → 0 ≤ ops s → ops s' < 2 ^ 32 → sinv l s t →
  ∃ l', sinv l' s' (<[i := p']> t) ∧ moved l l' i p p'.
Proof.
  intros Hi Hs H0 Hb A. unfold hthread_step in Hs. destruct (Nat.ltb_spec i n) as [Hlt|Hge].
  - destruct (popping p) as [pp|] eqn:Ep.
    + destruct p; cbn in Ep; simplify_eq; try discriminate Hs. cbn in Hs. destruct (pop_step n a pp s) as [[s1 [pp'|[q|]]]|] eqn:E; simplify_eq.
      * by eapply sinv_pop_step.
      * apply pop_some in E as (-> & -> & _). exists l. split; [by eapply sinv_frame|by apply moved_same; left].
      * apply (pop_none l s t) in E as (-> & -> & _); [|done]. exists l. split; [by eapply sinv_frame|by apply moved_same; left].
    + assert (Hq : linking p' = linking p → loaded p' = None → popping p' = None ∨ p' = WLeave PTop → p' ≠ WReg2 →
        top s' = top s → nxt s' = nxt s → idleLinked s' = idleLinked s → ops s' = ops s → linking p = false ∨ registered p' = false →
        ∃ l', sinv l' s' (<[i := p']> t) ∧ moved l l' i p p').
      { intros. exists l. split; [|by apply moved_same]. eapply sinv_frame; try done. intros q. rewrite (got_reg q p) by done.
        destruct H2 as [?| ->]; [by apply got_reg|done]. }
      destruct p; try discriminate Ep; try (step_cases Hs; apply Hq; (done || (by left) || (by right)); fail).
      all: step_cases Hs; try (apply Hq; (done || (by left) || (by right))).
      * exists l. split; [by apply sinv_reg1|by apply moved_same; left].
      * exists l. split; [by apply sinv_reg2|by apply moved_same; left].
      * exists l. split; [|by apply moved_same; right]. eapply sinv_hold; try done. by left.
      * exists l. split; [by apply sinv_reg4|by apply moved_same; right].
      * cbn in Hb. eexists. split; [by apply sinv_reg5|]. split; [|set_solver]. intros q Hq'. left. set_solver.
      * exists l. split; [|by apply moved_same; right]. eapply sinv_hold; try done. by left.
      * exists l. split; [|by apply moved_same; right]. eapply sinv_hold; try done. by left.
  - destruct (popping p) as [pp|] eqn:Ep.
    + destruct p; cbn in Ep; simplify_eq; try discriminate Hs.
      assert (Hd : (∃ pp', pop_step n a pp s = Some (s', inl pp') ∧ p' = XPop hi pp') ∨
        ((pp = PTop ∨ ∃ q, pp = PArmed q) ∧ top s' = top s ∧ nxt s' = nxt s ∧ idleLinked s' = idleLinked s ∧ ops s' = ops s ∧ ∃ q, p' = XPush hi q)).
      { destruct pp, a; cbn in Hs; repeat (case_match; try discriminate); simplify_eq; cbn; try (by right; split_and!; eauto); left; eexists; (split; [|done]); cbn.
        all: repeat case_match; simplify_eq; done. }
      destruct Hd as [(pp' & E & ->)|(Hp & E1 & E2 & E3 & E4 & q & ->)]; [by eapply sinv_pop_step|].
      exists l. split; [|by apply moved_same; left]. eapply sinv_frame; try done. intros q'. unfold got. cbn. by destruct Hp as [->|[? ->]].
    + exists l. split; [|by apply moved_same; left; destruct p].
      destruct p; try discriminate Ep; step_cases Hs; eapply sinv_frame; done.
Qed.
End stack.

(** ** What a step does to the other words *)

Section effects.
Context (n : nat).

(** A [workerState] is changed by a notification, or by its own worker. *)
Lemma state_step a i p s s' p' q :
  hthread_step n a i p s = Some (s', p') →
  workerState s' q = workerState s q ∨
  (tells q p = true ∧ workerState s' q = WS_NOTIFIED ∧ (p' = WRun ∨ p' = XIdle)) ∨
  (q = i ∧ ((workerState s' i = WS_PARKED ∧ p = WPark1 ∧ p' = WReg0) ∨ (workerState s' i = WS_EMPTY ∧ heading WS_EMPTY p' = true ∧ parked p' = false))).
Proof. intros H. all_cases H; eff. Qed.

(** An arm is set by the worker that registers, and taken by a popper or withdrawn by it. *)
Lemma armed_step a i p s s' p' q :
  hthread_step n a i p s = Some (s', p') →
  armed s' q = armed s q ∨ (armed s' q = false ∧ (taken q p' = true ∨ (q = i ∧ arming p' = false))) ∨
  (q = i ∧ armed s' i = true ∧ p = WReg0 ∧ p' = WReg1).
Proof. intros H. all_cases H; eff. Qed.

Lemma search_step a i p s s' p' :
  hthread_step n a i p s = Some (s', p') →
  (searching s' = searching s ∧ hunting p' = hunting p) ∨
  (p = WEnter ∧ p' = WHunt ∧ searching s' = u32 (searching s + 1)) ∨
  (p = WTook ∧ hunting p' = false ∧ searching s' = u32 (searching s - 1) ∧ (searching s = 1 → popping p' = Some PTop)) ∨
  (p = WTry ∧ p' = WPark0 ∧ 1 < searching s ∧ searching s' = searching s - 1).
Proof. intros H. all_cases H; eff. Qed.

Lemma ops_step a i p s s' p' : hthread_step n a i p s = Some (s', p') → ops s ≤ ops s'.
Proof. intros H. all_cases H; cbn; lia. Qed.

(** A worker whose word says it is parked stays on the park path. *)
Lemma parked_step a i p s s' p' :
  hthread_step n a i p s = Some (s', p') → (workerState s i = WS_PARKED → parked p = true) → workerState s' i = WS_PARKED → parked p' = true.
Proof. intros H. all_cases H; eff. Qed.

Lemma arming_step a i p s s' p' :
  hthread_step n a i p s = Some (s', p') → arming p' = true →
  (p = WReg0 ∧ armed s' i = true) ∨ (arming p = true ∧ armed s' i = armed s i ∧ workerState s' i = workerState s i).
Proof. intros H. all_cases H; eff. Qed.

Lemma taken_step a i p s s' p' q :
  hthread_step n a i p s = Some (s', p') → taken q p = true → workerState s' q = WS_PARKED → taken q p' = true.
Proof. intros H. all_cases H; eff. Qed.

Lemma registered_step a i p s s' p' :
  hthread_step n a i p s = Some (s', p') → registered p' = true →
  (p = WReg1 ∧ idleLinked s i = true) ∨ linking p = true ∨ registered p = true.
Proof. intros H. all_cases H; eff. Qed.

Lemma will_step a i p s s' p' q :
  hthread_step n a i p s = Some (s', p') → will_take q p = true → armed s' q = true → will_take q p' = true.
Proof. intros H. all_cases H; eff. Qed.

(** A worker goes to sleep only after it has seen someone hunting. *)
Lemma park_check_last k i s : Nat.leb 5 k = true → park_check k i s = (searching s =? 0).
Proof. by do 5 (destruct k as [|k]; [done|]). Qed.

Lemma sleep_step a i p s p' s' : hthread_step n a i p s = Some (s', p') → p' = WSleep → searching s' ≠ 0.
Proof.
  intros H ->. all_cases H.
  all: match goal with H : park_check _ _ _ = false |- _ => rewrite park_check_last in H by done; by apply Z.eqb_neq end.
Qed.

Lemma heading_step a i p s s' p' :
  hthread_step n a i p s = Some (s', p') → heading (workerState s i) p = true → p = WEnter ∨ heading (workerState s' i) p' = true.
Proof. intros H. all_cases H; eff. Qed.

Lemma tells_step a i p s s' p' q :
  hthread_step n a i p s = Some (s', p') → tells q p = true → tells q p' = true ∨ workerState s' q = WS_NOTIFIED.
Proof. intros H. all_cases H; eff. Qed.

Lemma popping_step a i p s s' p' :
  hthread_step n a i p s = Some (s', p') → popping p ≠ None →
  popping p' ≠ None ∨ (∃ q, tells q p' = true ∧ workerState s' q = WS_PARKED) ∨ (popping p = Some PTop ∧ ∃ a', pop_step n a' PTop s = Some (s', inr None)).
Proof.
  intros H Hp. unfold hthread_step in H. destruct (Nat.ltb i n).
  - destruct p; try done; try (by destruct a). cbn in H. destruct (pop_step n a p s) as [[s1 [pp'|[q|]]]|] eqn:E; simplify_eq.
    + by left.
    + right. left. exists q. cbn. rewrite Nat.eqb_refl. split; [done|]. by apply pop_some in E as (_ & -> & ?).
    + right. right. assert (p = PTop) as -> by (destruct p, a; cbn in E; repeat case_match; by simplify_eq). split; [done|by exists a].
  - destruct p; try done; try (by destruct a). cbn in H.
    assert (Hd : (∃ pp', p' = XPop hi pp') ∨ (∃ q, pop_step n a p s = Some (s', inr (Some q)) ∧ p' = XPush hi q) ∨ (p = PTop ∧ pop_step n Go PTop s = Some (s', inr None))).
    { destruct p, a; cbn in H |- *; repeat (case_match; try discriminate); simplify_eq; eauto 6. }
    destruct Hd as [[pp' ->]|[(q & E & ->)|[-> E]]]; [by left| |right; right; split; [done|by exists Go]].
    right. left. exists q. cbn. rewrite Nat.eqb_refl. split; [done|]. by apply pop_some in E as (_ & -> & ?).
Qed.
End effects.
