(* ===== verification/HuntSleep.v ===== *)
(** * Nobody sleeps while work waits

    The theorems about the protocol of HuntPark: the idle stack stays a stack, the
    [searching] counter counts the hunters, a worker that sleeps has nothing queued for
    it, and no worker is left asleep when nobody hunts. *)

From stdpp Require Import functions.
From S2P Require Import Prelude HuntPark.

(** ** Nobody is left asleep when nobody hunts *)

Record hinv (n : nat) (l : list Z) (s : hunt) (t : gmap nat pc) : Prop := {
  hv_stack : sinv n l s t;
  hv_ops : 0 ≤ ops s;
  hv_small : Z.of_nat (size t) < 2 ^ 32;
  hv_search : searching s = num hunting t;
  hv_park q : workerState s q = WS_PARKED → ∃ p, t !! q = Some p ∧ parked p = true;
  hv_arm q p : t !! q = Some p → arming p = true → workerState s q = WS_PARKED →
    armed s q = true ∨ some_thread (λ _ p', taken q p' = true) t;
  hv_on q p : t !! q = Some p → registered p = true → armed s q = true →
    idx1 q ∈ l ∨ some_thread (λ _ p', will_take q p' = true) t;
  hv_rescue q : searching s = 0 → t !! q = Some WSleep → workerState s q = WS_PARKED → some_thread (rescuer s) t }.

Lemma heading_notified w p : heading w p = true → heading WS_NOTIFIED p = true.
Proof. destruct w, p; cbn; done. Qed.

Lemma parked_heading w p : parked p = true → w ≠ WS_PARKED → heading w p = true.
Proof. destruct w, p; cbn; done. Qed.

Lemma parked_quiet q p : parked p = true → tells q p = false ∧ popping p = None.
Proof. by destruct p. Qed.

Section sleep.
Context (n : nat).

Lemma search_keeps l s t a i p s' p' :
  t !! i = Some p → hthread_step n a i p s = Some (s', p') → hinv n l s t → searching s' = num hunting (<[i := p']> t).
Proof.
  intros Hi Hs I. rewrite (num_insert _ _ _ p) by done. rewrite <- (hv_search _ _ _ _ I). pose proof (num_nonneg hunting t) as H0.
  pose proof (num_le_size hunting (<[i := p']> t)) as H1. rewrite (num_insert _ _ _ p), map_size_insert_Some in H1 by (done || by eexists).
  pose proof (hv_small _ _ _ _ I) as H2. rewrite <- (hv_search _ _ _ _ I) in H0, H1.
  destruct (search_step n _ _ _ _ _ _ Hs) as [[-> ->]|[(-> & -> & ->)|[(-> & E & -> & _)|(-> & -> & H3 & ->)]]].
  - lia.
  - cbn in *. rewrite u32_small; lia.
  - rewrite E in *. cbn in *. pose proof (num_pos hunting t i WTook Hi eq_refl). rewrite <- (hv_search _ _ _ _ I) in H. rewrite u32_small; lia.
  - cbn. lia.
Qed.

Lemma park_keeps l s t a i p s' p' q :
  t !! i = Some p → hthread_step n a i p s = Some (s', p') → hinv n l s t → workerState s' q = WS_PARKED →
  ∃ pq, <[i := p']> t !! q = Some pq ∧ parked pq = true.
Proof.
  intros Hi Hs I Hq. destruct (decide (q = i)) as [->|Hn].
  - exists p'. rewrite lookup_insert_eq. split; [done|]. eapply parked_step; [done| |done]. intros E.
    destruct (hv_park _ _ _ _ I i E) as (p0 & ? & ?). by simplify_eq.
  - rewrite lookup_insert_ne by done. apply (hv_park _ _ _ _ I). destruct (state_step n _ _ _ _ _ _ q Hs) as [<-|[(_ & E & _)|[? _]]]; congruence.
Qed.

(** Only its own worker parks it. *)
Lemma parked_before a i p s s' p' q :
  hthread_step n a i p s = Some (s', p') → q ≠ i → workerState s' q = WS_PARKED → workerState s q = WS_PARKED.
Proof. intros Hs Hn Hq. destruct (state_step n _ _ _ _ _ _ q Hs) as [<-|[(_ & E & _)|[? _]]]; congruence. Qed.

Lemma arming_quiet q p : arming p = true → taken q p = false ∧ will_take q p = false.
Proof. by destruct p. Qed.

Lemma arm_keeps l s t a i p s' p' q pq :
  t !! i = Some p → hthread_step n a i p s = Some (s', p') → hinv n l s t → <[i := p']> t !! q = Some pq → arming pq = true → workerState s' q = WS_PARKED →
  armed s' q = true ∨ some_thread (λ _ p', taken q p' = true) (<[i := p']> t).
Proof.
  intros Hi Hs I Hq Ha Hw. apply lookup_insert_Some in Hq as [[<- <-]|[Hn Hq]].
  - destruct (arming_step n _ _ _ _ _ _ Hs Ha) as [[_ ?]|(Ha0 & -> & E)]; [by left|]. rewrite E in Hw.
    destruct (hv_arm _ _ _ _ I i p Hi Ha0 Hw) as [?|Ht]; [by left|]. right. eapply some_stays; [done|exact Ht| |done].
    cbn. intros Ht0. destruct (arming_quiet i p Ha0). congruence.
  - pose proof (parked_before _ _ _ _ _ _ q Hs (not_eq_sym Hn) Hw) as Hw0. destruct (hv_arm _ _ _ _ I q pq Hq Ha Hw0) as [He|Ht].
    + destruct (armed_step n _ _ _ _ _ _ q Hs) as [->|[(_ & [?|[? _]])|[? _]]]; [by left| |congruence|congruence]. right. by apply some_here.
    + right. eapply some_stays; [done|exact Ht| |done]. cbn. intros Ht0. by eapply taken_step.
Qed.

(** A linked node that its worker is not pushing is on the stack or just popped. *)
Lemma linked_where l s t q p :
  sinv n l s t → t !! q = Some p → linking p = false → idleLinked s q = true → idx1 q ∈ l ∨ some_thread (λ _ p', got q p' = true) t.
Proof.
  intros A Hq Hl Hk. pose proof (si_link _ _ _ _ A q) as H. rewrite Hk in H. unfold linking_at in H. rewrite Hq, Hl in H. cbn [Z.b2z] in H.
  destruct (bool_decide (idx1 q ∈ l)) eqn:E; [left; by apply bool_decide_eq_true_1 in E|]. right. cbn [Z.b2z] in H.
  apply num_some. lia.
Qed.

Lemma on_keeps l l' s t a i p s' p' q pq :
  t !! i = Some p → hthread_step n a i p s = Some (s', p') → hinv n l s t → moved l l' i p p' →
  <[i := p']> t !! q = Some pq → registered pq = true → armed s' q = true →
  idx1 q ∈ l' ∨ some_thread (λ _ p', will_take q p' = true) (<[i := p']> t).
Proof.
  intros Hi Hs I [M1 M2] Hq Hr He.
  assert (Hl : idx1 q ∈ l → idx1 q ∈ l' ∨ some_thread (λ _ p', will_take q p' = true) (<[i := p']> t)).
  { intros Hin. destruct (M1 q Hin) as [?|Hg]; [by left|]. right. apply some_here. unfold will_take. by rewrite Hg. }
  assert (Ht : some_thread (λ _ p', will_take q p' = true) t → idx1 q ∈ l' ∨ some_thread (λ _ p', will_take q p' = true) (<[i := p']> t)).
  { intros Ht. right. eapply some_stays; [done|exact Ht| |done]. cbn. intros Ht0. by eapply will_step. }
  apply lookup_insert_Some in Hq as [[<- <-]|[Hn Hq]].
  - destruct (registered_step n _ _ _ _ _ _ Hs Hr) as [[-> Hk]|[Hk|Hk]]; [|left; by apply M2|].
    + destruct (linked_where l s t i WReg1 (hv_stack _ _ _ _ I) Hi eq_refl Hk) as [?|(j & pj & Hj & Hg)]; [by apply Hl|].
      apply Ht. exists j, pj. split; [done|]. unfold will_take. by rewrite Hg.
    + assert (Ha : arming p' = true) by (by destruct p'). destruct (arming_step n _ _ _ _ _ _ Hs Ha) as [[-> _]|(_ & E & _)]; [done|].
      rewrite E in He. destruct (hv_on _ _ _ _ I i p Hi Hk He); eauto.
  - assert (He0 : armed s q = true) by (destruct (armed_step n _ _ _ _ _ _ q Hs) as [<-|[(? & _)|[? _]]]; congruence).
    destruct (hv_on _ _ _ _ I q pq Hq Hr He0); eauto.
Qed.

(** Whoever was about to rescue the sleeper still is, or someone took over. *)
Lemma told_heading l s t a i p s' p' q :
  t !! i = Some p → hthread_step n a i p s = Some (s', p') → hinv n l s t → workerState s q = WS_PARKED → workerState s' q ≠ WS_PARKED →
  some_thread (rescuer s') (<[i := p']> t).
Proof.
  intros Hi Hs I Hq Hq'. destruct (hv_park _ _ _ _ I q Hq) as (pq & Hpq & Hpk). destruct (decide (q = i)) as [->|Hn].
  - simplify_eq. destruct (state_step n _ _ _ _ _ _ i Hs) as [E|[(E & _)|[_ [(E & _)|(E & Hh & _)]]]]; [congruence| |congruence|].
    + destruct (parked_quiet i p Hpk). congruence.
    + apply some_here. right. right. by rewrite E.
  - exists q, pq. split; [by rewrite lookup_insert_ne|]. right. right. by apply parked_heading.
Qed.

Lemma rescue_other l s t a i p s' p' j pj :
  t !! i = Some p → hthread_step n a i p s = Some (s', p') → hinv n l s t → t !! j = Some pj → j ≠ i → rescuer s j pj →
  some_thread (rescuer s') (<[i := p']> t).
Proof.
  intros Hi Hs I Hj Hn [Hr|[(q & Hr & Hq)|Hr]].
  - exists j, pj. split; [by rewrite lookup_insert_ne|by left].
  - destruct (decide (workerState s' q = WS_PARKED)) as [Hq'|Hq']; [|by eapply told_heading].
    exists j, pj. split; [by rewrite lookup_insert_ne|]. right. left. by exists q.
  - exists j, pj. split; [by rewrite lookup_insert_ne|]. right. right.
    destruct (state_step n _ _ _ _ _ _ j Hs) as [->|[(_ & -> & _)|[? _]]]; [done|by eapply heading_notified|done].
Qed.

Lemma rescue_self l s t a i p s' p' q :
  t !! i = Some p → hthread_step n a i p s = Some (s', p') → hinv n l s t → searching s' = 0 →
  t !! q = Some WSleep → q ≠ i → workerState s q = WS_PARKED → rescuer s i p → some_thread (rescuer s') (<[i := p']> t).
Proof.
  intros Hi Hs I H0 Hq Hn Hw [Hr|[(q' & Hr & Hq')|Hr]].
  - destruct (popping_step n _ _ _ _ _ _ Hs Hr) as [?|[(q' & ? & ?)|(Hp & a' & E)]].
    + apply some_here. by left.
    + apply some_here. right. left. by exists q'.
    + apply (pop_none n l s t) in E as (_ & -> & ->); [|apply (hv_stack _ _ _ _ I)].
      assert (Hnot : taken q p = false ∧ will_take q p = false).
      { unfold taken, will_take, got. rewrite Hp. destruct p; try done. }
      destruct (hv_arm _ _ _ _ I q _ Hq eq_refl Hw) as [He|(j & pj & Hj & Ht)].
      * destruct (hv_on _ _ _ _ I q _ Hq eq_refl He) as [?%elem_of_nil|(j & pj & Hj & Ht)]; [done|].
        assert (j ≠ i) by (intros ->; simplify_eq; destruct Hnot; congruence). exists j, pj. split; [by rewrite lookup_insert_ne|].
        left. intros E. unfold will_take, got in Ht. by rewrite E in Ht.
      * assert (j ≠ i) by (intros ->; simplify_eq; destruct Hnot; congruence). exists j, pj. split; [by rewrite lookup_insert_ne|].
        unfold taken in Ht. destruct (tells q pj) eqn:E; [right; left; by exists q|]. left. intros E'. by rewrite E' in Ht.
  - destruct (decide (workerState s' q' = WS_PARKED)) as [E|E]; [|by eapply told_heading].
    destruct (tells_step n _ _ _ _ _ _ q' Hs Hr) as [?|?]; [|congruence]. apply some_here. right. left. by exists q'.
  - destruct (heading_step n _ _ _ _ _ _ Hs Hr) as [->|?]; [|apply some_here; by right; right].
    exfalso. pose proof (search_keeps l s t a i _ s' p' Hi Hs I) as E. rewrite H0 in E.
    destruct (search_step n _ _ _ _ _ _ Hs) as [[_ Eh]|[(_ & -> & _)|[([=] & _)|([=] & _)]]].
    + unfold hthread_step, hunter_step, push_step in Hs. repeat case_match; by simplify_eq.
    + pose proof (num_pos hunting (<[i := WHunt]> t) i WHunt). rewrite lookup_insert_eq in H. specialize (H eq_refl eq_refl). lia.
Qed.

Lemma rescue_keeps l s t a i p s' p' q :
  t !! i = Some p → hthread_step n a i p s = Some (s', p') → hinv n l s t →
  searching s' = 0 → <[i := p']> t !! q = Some WSleep → workerState s' q = WS_PARKED → some_thread (rescuer s') (<[i := p']> t).
Proof.
  intros Hi Hs I H0 Hq Hw. apply lookup_insert_Some in Hq as [[<- ->]|[Hn Hq]]; [by apply (sleep_step n) in Hs|].
  pose proof (parked_before _ _ _ _ _ _ q Hs (not_eq_sym Hn) Hw) as Hw0. destruct (decide (searching s = 0)) as [E0|E0].
  - destruct (hv_rescue _ _ _ _ I q E0 Hq Hw0) as (j & pj & Hj & Hr). destruct (decide (j = i)) as [->|Hji]; [|by eapply rescue_other].
    simplify_eq. by eapply rescue_self.
  - destruct (search_step n _ _ _ _ _ _ Hs) as [[E _]|[(-> & -> & _)|[(-> & _ & E & Hp)|(_ & _ & E1 & E2)]]]; [congruence| | |lia].
    + pose proof (search_keeps l s t a i _ s' _ Hi Hs I) as E. pose proof (num_pos hunting (<[i := WHunt]> t) i WHunt) as H.
      rewrite lookup_insert_eq in H. specialize (H eq_refl eq_refl). lia.
    + assert (searching s = 1).
      { pose proof (num_le_size hunting t). pose proof (hv_small _ _ _ _ I). pose proof (num_nonneg hunting t). rewrite <- (hv_search _ _ _ _ I) in *.
        rewrite E, u32_small in H0; lia. }
      apply some_here. left. by rewrite Hp.
Qed.

Lemma hunt_inv_step l s t a i p s' p' :
  t !! i = Some p → hthread_step n a i p s = Some (s', p') → ops s' < 2 ^ 32 → hinv n l s t → ∃ l', hinv n l' s' (<[i := p']> t).
Proof.
  intros Hi Hs Hb I. destruct (stack_step n l s t a i p s' p' Hi Hs (hv_ops _ _ _ _ I) Hb (hv_stack _ _ _ _ I)) as (l' & A & M). exists l'. constructor.
  - done.
  - pose proof (ops_step n _ _ _ _ _ _ Hs). pose proof (hv_ops _ _ _ _ I). lia.
  - rewrite map_size_insert_Some by (by eexists). apply (hv_small _ _ _ _ I).
  - by eapply search_keeps.
  - intros q. by eapply park_keeps.
  - intros q pq. by eapply arm_keeps.
  - intros q pq. by eapply on_keeps.
  - intros q. by eapply rescue_keeps.
Qed.

Lemma hinv_init x : hinit n x → hinv n [] (sh x) (th x).
Proof.
  intros (E & Hsz & Hw & Hx). rewrite E.
  assert (Hp : ∀ i p, th x !! i = Some p → p = WEnter ∨ p = XIdle).
  { intros i p Hi. destruct (decide (i < n)%nat) as [Hlt|Hge]; [left|right; eapply Hx; [|done]; lia]. rewrite (Hw i Hlt) in Hi. congruence. }
  assert (Hnum : ∀ P, P WEnter = false → P XIdle = false → num P (th x) = 0).
  { intros P H1 H2. apply num_none. intros i p Hi. destruct (Hp i p Hi) as [->| ->]; done. }
  constructor; cbn; try done.
  - constructor; cbn; try done.
    + intros y Hy. by apply elem_of_nil in Hy.
    + intros q. rewrite Hnum by done. unfold linking_at. destruct (th x !! q) as [p|] eqn:Eq; [|done]. by destruct (Hp q p Eq) as [->| ->].
    + intros j p h Hj Hl. by destruct (Hp j p Hj) as [->| ->].
    + intros j p Hj. by destruct (Hp j p Hj) as [->| ->].
    + intros q h Hq. by destruct (Hp q _ Hq).
  - by rewrite Hnum.
Qed.

Lemma reachable_hinv x : reachable (hinit n) (hunt_step n) x → ops (sh x) < 2 ^ 32 → ∃ l, hinv n l (sh x) (th x).
Proof.
  revert x. apply (reachable_ind_bounded _ _ (λ x, ops (sh x)) _ (λ x, ∃ l, hinv n l (sh x) (th x))).
  - intros ? ? [s t a i p s' p' Hi Hs]. cbn. by eapply ops_step.
  - intros x0 Hx. exists []. by apply hinv_init.
  - intros x0 x1 Hb [l I] Hst. destruct Hst as [s t a i p s' p' Hi Hs]. cbn in *. by eapply hunt_inv_step.
Qed.
End sleep.

(** ** A sleeping worker has nothing queued for it *)

(** Has passed check [k] of the recheck. *)
Definition passed (k : nat) (p : pc) : bool := match p with WChk k' => Nat.ltb k k' | WSleep => true | _ => false end.

(** Has put a task in [q]'s inbox and is going to notify it. *)
Definition delivers (q : nat) (p : pc) : bool := match p with XMark q' | XTell q' => Nat.eqb q' q | _ => false end.

Section mail.
Context (n : nat).

Lemma passed_step a i p s s' p' k :
  hthread_step n a i p s = Some (s', p') → passed k p' = true → (k ≤ 3)%nat →
  s' = s ∧ (passed k p = true ∨ (p = WChk k ∧ park_check k i s = false)).
Proof.
  intros H. all_cases H; try done; unfold passed; intros Hp Hk; (split; [done|]).
  - left. apply Nat.ltb_lt. match goal with H : (5 <=? _)%nat = true |- _ => apply Nat.leb_le in H end. lia.
  - match goal with Hc : park_check ?k0 _ _ = false |- _ => destruct (decide (k = k0)) as [->|]; [by right|left] end.
    apply Nat.ltb_lt in Hp. apply Nat.ltb_lt. lia.
Qed.

(** A queue of [q] grows, or its flag is raised, only at the hands of a thread that then
    delivers; a deque only under its own worker's body. *)
Lemma flag_step a i p s s' p' q :
  hthread_step n a i p s = Some (s', p') → hasQueuedWork s' q = true → hasQueuedWork s q = true ∨ delivers q p' = true.
Proof. intros H. unfold delivers. all_cases H; eff. Qed.

Lemma hi_step a i p s s' p' q :
  hthread_step n a i p s = Some (s', p') → hiInbox s q = 0 → hiInbox s' q = 0 ∨ delivers q p' = true.
Proof. intros H. unfold delivers. all_cases H; eff. all: destruct hi; eff. Qed.

Lemma lo_step a i p s s' p' q :
  hthread_step n a i p s = Some (s', p') → loInbox s q = 0 → loInbox s' q = 0 ∨ delivers q p' = true.
Proof. intros H. unfold delivers. all_cases H; eff. all: destruct hi; eff. Qed.

Lemma deque_step a i p s s' p' q :
  hthread_step n a i p s = Some (s', p') → deque s q = 0 → deque s' q = 0 ∨ (q = i ∧ passed 0 p' = false).
Proof. intros H. all_cases H; eff. Qed.

Lemma delivers_step a i p s s' p' q :
  hthread_step n a i p s = Some (s', p') → delivers q p = true → workerState s' q = WS_PARKED → delivers q p' = true.
Proof. intros H. unfold delivers. all_cases H; eff. Qed.

Record minv (s : hunt) (t : gmap nat pc) : Prop := {
  mv_deque q p : t !! q = Some p → passed 0 p = true → deque s q = 0;
  mv_flag q p : t !! q = Some p → passed 1 p = true → workerState s q = WS_PARKED →
    hasQueuedWork s q = false ∨ some_thread (λ _ p', delivers q p' = true) t;
  mv_hi q p : t !! q = Some p → passed 2 p = true → workerState s q = WS_PARKED →
    hiInbox s q = 0 ∨ some_thread (λ _ p', delivers q p' = true) t;
  mv_lo q p : t !! q = Some p → passed 3 p = true → workerState s q = WS_PARKED →
    loInbox s q = 0 ∨ some_thread (λ _ p', delivers q p' = true) t }.

(** The common shape of the last three. *)
Lemma mail_keeps s t a i p s' p' k (P : hunt → nat → Prop) q pq :
  t !! i = Some p → hthread_step n a i p s = Some (s', p') → (k ≤ 3)%nat →
  (park_check k i s = false → P s i) →
  (∀ q, P s q → P s' q ∨ delivers q p' = true) →
  (∀ q p, t !! q = Some p → passed k p = true → workerState s q = WS_PARKED → P s q ∨ some_thread (λ _ p', delivers q p' = true) t) →
  <[i := p']> t !! q = Some pq → passed k pq = true → workerState s' q = WS_PARKED →
  P s' q ∨ some_thread (λ _ p', delivers q p' = true) (<[i := p']> t).
Proof.
  intros Hi Hs Hk Hc HP I Hq Hpk Hw.
  assert (Hd : some_thread (λ _ p', delivers q p' = true) t → P s' q ∨ some_thread (λ _ p', delivers q p' = true) (<[i := p']> t)).
  { intros Hd. right. eapply some_stays; [done|exact Hd| |done]. cbn. intros Hd0. by eapply delivers_step. }
  apply lookup_insert_Some in Hq as [[<- <-]|[Hn Hq]].
  - destruct (passed_step _ _ _ _ _ _ k Hs Hpk Hk) as [-> [Hp|[-> Hch]]]; [|left; by apply Hc].
    destruct (I i p Hi Hp Hw) as [?|?]; [by left|by apply Hd].
  - pose proof (parked_before n _ _ _ _ _ _ q Hs (not_eq_sym Hn) Hw) as Hw0.
    destruct (I q pq Hq Hpk Hw0) as [H|H]; [|by apply Hd]. destruct (HP q H) as [?|?]; [by left|right; by apply some_here].
Qed.

Lemma mail_inv_step s t a i p s' p' : t !! i = Some p → hthread_step n a i p s = Some (s', p') → minv s t → minv s' (<[i := p']> t).
Proof.
  intros Hi Hs [M0 M1 M2 M3]. constructor.
  - intros q pq [[<- <-]|[Hn Hq]]%lookup_insert_Some Hpk.
    + destruct (passed_step _ _ _ _ _ _ 0 Hs Hpk ltac:(lia)) as [-> [Hp|[-> Hch]]]; [by eapply M0|]. cbn in Hch. apply negb_false_iff in Hch. by apply Z.eqb_eq.
    + destruct (deque_step _ _ _ _ _ _ q Hs (M0 q pq Hq Hpk)) as [?|[? _]]; congruence.
  - intros q pq. eapply (mail_keeps s t a i p s' p' 1 (λ s q, hasQueuedWork s q = false)); try done; [lia|]. intros q' E.
    destruct (hasQueuedWork s' q') eqn:E'; [right|by left]. destruct (flag_step _ _ _ _ _ _ q' Hs E'); congruence.
  - intros q pq. eapply (mail_keeps s t a i p s' p' 2 (λ s q, hiInbox s q = 0)); try done; [lia| |intros q'; by eapply hi_step].
    cbn. intros Hch%negb_false_iff. by apply Z.eqb_eq.
  - intros q pq. eapply (mail_keeps s t a i p s' p' 3 (λ s q, loInbox s q = 0)); try done; [|intros q'; by eapply lo_step].
    cbn. intros Hch%negb_false_iff. by apply Z.eqb_eq.
Qed.

Lemma reachable_mail x : reachable (hinit n) (hunt_step n) x → minv (sh x) (th x).
Proof.
  revert x. apply (reachable_ind _ _ (λ x, minv (sh x) (th x))).
  - intros x (E & _ & Hw & Hx). assert (Hp : ∀ i p, th x !! i = Some p → p = WEnter ∨ p = XIdle).
    { intros i p Hi. destruct (decide (i < n)%nat) as [Hlt|Hge]; [left|right; eapply Hx; [|done]; lia]. rewrite (Hw i Hlt) in Hi. congruence. }
    rewrite E. constructor; cbn; try done; by left.
  - intros x0 x1 I Hst. destruct Hst as [s t a i p s' p' Hi Hs]. cbn in *. by eapply mail_inv_step.
Qed.
End mail.

(** ** The theorems *)

Definition asleep (x : hstate) (q : nat) : Prop := th x !! q = Some WSleep ∧ workerState (sh x) q = WS_PARKED.

(** Every thread runs a body, hunts, sleeps or has nothing to push: nobody is inside one of
    the operations. *)
Definition settled (x : hstate) : Prop :=
  ∀ j p, th x !! j = Some p → hunting p = true ∨ p = WRun ∨ p = XIdle ∨ asleep x j.

(** C5: Nobody is left asleep with no one looking for work.  In every interleaving, while a
    worker sleeps some worker hunts, or some thread is about to bring one to the hunt (it
    is inside [PopIdleWorker], or is going to notify a parked worker, or is itself a worker
    on its way in).  So once the operations under way have finished, work that was pushed
    on a deque without waking anyone has a hunter to find it. *)
Theorem hunt_never_abandoned n x q :
  reachable (hinit n) (hunt_step n) x → ops (sh x) < 2 ^ 32 → asleep x q →
  some_thread (λ j p, hunting p = true ∨ rescuer (sh x) j p) (th x) ∧
  (settled x → some_thread (λ _ p, hunting p = true) (th x) ∧ 0 < searching (sh x)).
Proof.
  intros Hr Hb [Hq Hw]. destruct (reachable_hinv n x Hr Hb) as [l I].
  assert (H1 : some_thread (λ j p, hunting p = true ∨ rescuer (sh x) j p) (th x)).
  { destruct (decide (searching (sh x) = 0)) as [E|E].
    - destruct (hv_rescue _ _ _ _ I q E Hq Hw) as (j & p & Hj & H). exists j, p. split; [done|by right].
    - rewrite (hv_search _ _ _ _ I) in E. apply num_some in E as (j & p & Hj & H). exists j, p. split; [done|by left]. }
  split; [done|]. intros Hset. destruct H1 as (j & p & Hj & [Hh|Hres]).
  - split; [by exists j, p|]. rewrite (hv_search _ _ _ _ I). by eapply num_pos.
  - exfalso. destruct (Hset j p Hj) as [H|[->|[->|[Hs Hsw]]]].
    + destruct p; try done; by destruct Hres as [?|[(? & ? & _)|?]].
    + by destruct Hres as [?|[(? & ? & _)|?]].
    + by destruct Hres as [?|[(? & ? & _)|?]].
    + simplify_eq. unfold rescuer in Hres. rewrite Hsw in Hres. by destruct Hres as [?|[(? & ? & _)|?]].
Qed.

(** C6: A worker that sleeps has nothing queued for it.  Its own deque is empty; and unless
    some thread has just put a task in its inbox and is about to wake it, both its inboxes
    are empty and its push flag is clear. *)
Theorem sleeper_has_no_work n x q :
  reachable (hinit n) (hunt_step n) x → asleep x q →
  deque (sh x) q = 0 ∧
  ((∀ j p, th x !! j = Some p → delivers q p = false) → hasQueuedWork (sh x) q = false ∧ hiInbox (sh x) q = 0 ∧ loInbox (sh x) q = 0).
Proof.
  intros Hr [Hq Hw]. destruct (reachable_mail n x Hr) as [M0 M1 M2 M3]. split; [by eapply M0|]. intros Hno.
  assert (Hd : ¬ some_thread (λ _ p', delivers q p' = true) (th x)) by (intros (j & p & Hj & H); specialize (Hno j p Hj); congruence).
  destruct (M1 q _ Hq eq_refl Hw), (M2 q _ Hq eq_refl Hw), (M3 q _ Hq eq_refl Hw); done.
Qed.

(** Worker [q] is linked through the stack and in no other way. *)
Definition on_stack_once (x : hstate) (q : nat) : Prop :=
  idleLinked (sh x) q = true ∧ linking_at (th x) q = false ∧ ∀ j p, th x !! j = Some p → got q p = false.

(** The idle stack never loops and the hunters are counted.  Although a woken worker
    leaves its node behind and may register again before or after it is popped, following
    the links from the top visits distinct workers and ends; a worker is on the stack only
    while [idleLinked] says so, never while it is about to push itself or a popper has
    still to clear the mark; and [searching] is the number of workers in the hunt. *)
Theorem idle_stack_sound n x :
  reachable (hinit n) (hunt_step n) x → ops (sh x) < 2 ^ 32 →
  searching (sh x) = num hunting (th x) ∧
  ∃ l, chain (nxt (sh x)) (top (sh x)).2 l ∧ NoDup l ∧
    (∀ y, y ∈ l → ∃ q, y = idx1 q ∧ (q < n)%nat ∧ on_stack_once x q).
Proof.
  intros Hr Hb. destruct (reachable_hinv n x Hr Hb) as [l I]. split; [apply (hv_search _ _ _ _ I)|]. exists l.
  destruct (hv_stack _ _ _ _ I) as [_ Hc Hn Hl _ _ _ _]. split_and!; [done|by eapply chain_NoDup|]. intros y Hy.
  pose proof (Hn y Hy) as Hy1. exists (node y). pose proof (idx1_node y ltac:(lia)) as E. split; [done|].
  split; [unfold node; lia|]. specialize (Hl (node y)). rewrite E, bool_decide_eq_true_2 in Hl by done. pose proof (num_nonneg (got (node y)) (th x)) as H0.
  unfold on_stack_once. destruct (idleLinked (sh x) (node y)), (linking_at (th x) (node y)); cbn [Z.b2z] in Hl; try lia. split_and!; [done|done|].
  intros j p Hj. eapply num_zero; [|done]. lia.
Qed.

(** ** Concrete runs *)

Fixpoint run (n : nat) (l : list (act * nat)) (x : hstate) : option hstate :=
  match l with
  | [] => Some x
  | (a, i) :: r =>
      match th x !! i with
      | Some p => match hthread_step n a i p (sh x) with Some (s', p') => run n r (mkHS s' (<[i := p']> (th x))) | None => None end
      | None => None
      end
  end.

Lemma hunt_run_rtc n l x y : run n l x = Some y → rtc (hunt_step n) x y.
Proof.
  revert x. induction l as [|[a i] l IH]; intros x; cbn; [by intros [= ->]|]. destruct (th x !! i) as [p|] eqn:Ei; [|done].
  destruct (hthread_step n a i p (sh x)) as [[s' p']|] eqn:Et; [|done]. intros H. eapply rtc_l; [|by apply IH]. destruct x. by eapply Step.
Qed.

(** Two workers and a thread that pushes. *)
Definition two : hstate := mkHS fresh {[0%nat := WEnter; 1%nat := WEnter; 2%nat := XIdle]}.

Lemma two_init : hinit 2 two.
Proof.
  split; [done|]. split; [vm_compute; done|]. split.
  - intros i Hi. destruct i as [|[|i]]; [done|done|lia].
  - intros i p Hi. destruct i as [|[|[|i]]]; [lia|lia|by intros [= <-]|]. cbn. by rewrite !lookup_insert_ne, lookup_singleton_ne by lia.
Qed.

Lemma run_reachable n l x y : hinit n x → run n l x = Some y → reachable (hinit n) (hunt_step n) y.
Proof. intros Hi Hr. exists x. split; [done|by eapply hunt_run_rtc]. Qed.

(** [k] operations of worker 0. *)
Definition w0 (k : nat) : list (act * nat) := repeat (Go, 0%nat) k.
Definition both_hunt : list (act * nat) := [(Go, 0%nat); (Go, 1%nat)].

(** Worker 0 goes all the way to sleep. *)
Definition to_sleep : list (act * nat) := both_hunt ++ w0 22.

Lemma to_sleep_runs :
  match run 2 to_sleep two with Some x => asleep x 0 ∧ ops (sh x) < 2 ^ 32 ∧ hunting <$> th x !! 1%nat = Some true | None => False end.
Proof. vm_compute. done. Qed.

(** A push to worker 0 just after it registered makes it back out; it runs the task, parks
    again -- its node is still linked, so it is not counted again -- and a second push
    makes it back out again. *)
Definition push_to_0 : list (act * nat) := [(Choose false 0, 2%nat); (Go, 2%nat); (Go, 2%nat)].
Definition back_out_twice : list (act * nat) :=
  both_hunt ++ w0 16 ++ push_to_0 ++ w0 5 ++ [(Go, 2%nat); (Take SLo, 0%nat)] ++ w0 5 ++ w0 10 ++ w0 12 ++ push_to_0 ++ w0 4.

(** The count of idle workers then wraps below zero: registering a node that is still
    linked does not add to it, withdrawing its arm subtracts. *)
Theorem idle_count_underflow :
  match run 2 back_out_twice two with Some x => idleCount (sh x) | None => 0 end = 2 ^ 32 - 1.
Proof. vm_compute. done. Qed.

(** ** Witnesses *)

Lemma hunt_never_abandoned_witness :
  ∃ x, run 2 to_sleep two = Some x ∧ asleep x 0 ∧ some_thread (λ j p, hunting p = true ∨ rescuer (sh x) j p) (th x).
Proof.
  pose proof to_sleep_runs as H. destruct (run 2 to_sleep two) as [x|] eqn:E; [|destruct H]. destruct H as (Hs & Hb & _).
  exists x. split; [reflexivity|]. split; [exact Hs|].
  apply (hunt_never_abandoned 2 x 0 (run_reachable 2 to_sleep two x two_init E) Hb Hs).
Defined.

Lemma sleeper_has_no_work_witness : ∃ x, run 2 to_sleep two = Some x ∧ asleep x 0 ∧ deque (sh x) 0%nat = 0.
Proof.
  pose proof to_sleep_runs as H. destruct (run 2 to_sleep two) as [x|] eqn:E; [|destruct H]. destruct H as (Hs & _ & _).
  exists x. split; [reflexivity|]. split; [exact Hs|].
  apply (sleeper_has_no_work 2 x 0 (run_reachable 2 to_sleep two x two_init E) Hs).
Defined.

Lemma idle_stack_sound_witness : ∃ x, run 2 to_sleep two = Some x ∧ searching (sh x) = num hunting (th x).
Proof.
  pose proof to_sleep_runs as H. destruct (run 2 to_sleep two) as [x|] eqn:E; [|destruct H]. destruct H as (_ & Hb & _).
  exists x. split; [reflexivity|]. apply (idle_stack_sound 2 x (run_reachable 2 to_sleep two x two_init E) Hb).
Defined.
