(* ===== verification/ParallelFor.v ===== *)
(** * Parallel loops (src/TaskScheduler.cpp: ParallelFor and what it runs)

    A parallel loop cuts a range of indices into calls of the body.  This file models how
    [ParallelFor] decides (the serial cases, the probe that measures the body, the
    remembered cost, the grain and the mode), the shared cursor of [RunCursorRange], and
    the lazily split ranges of [RunLazyRange] and [RunLazyPiece], the last two as step
    relations in which the lanes and pieces run in any interleaving.

    The body is the log of the calls made to it.  [hits i l] is how many of the calls [l]
    cover index [i]: "every index exactly once" is [hits i l = 1] inside the range and [0]
    outside it. *)

From S2P Require Import Prelude.

Definition call : Type := Z * Z.

(** [int] arithmetic, wrapped where [std::atomic<int>] wraps. *)
Definition i32 (x : Z) : Z := (x + 2 ^ 31) `mod` 2 ^ 32 - 2 ^ 31.

Lemma i32_small x : - 2 ^ 31 ≤ x < 2 ^ 31 → i32 x = x.
Proof. intros H. unfold i32. rewrite Z.mod_small; lia. Qed.

(** ** Counting *)

Definition within (i lo hi : Z) : bool := (lo <=? i) && (i <? hi).
Fixpoint hits (i : Z) (l : list call) : Z :=
  match l with [] => 0 | c :: l' => Z.b2z (within i c.1 c.2) + hits i l' end.

Lemma hits_app i l l' : hits i (l ++ l') = hits i l + hits i l'.
Proof. induction l as [|c l IH]; cbn; [done|lia]. Qed.

Lemma hits_nonneg i l : 0 ≤ hits i l.
Proof. induction l as [|c l IH]; cbn; [done|]. destruct (within i c.1 c.2); cbn; lia. Qed.

(** A range cut at [m]. *)
Lemma within_split i lo m hi : lo ≤ m ≤ hi → Z.b2z (within i lo hi) = Z.b2z (within i lo m) + Z.b2z (within i m hi).
Proof.
  intros H. unfold within.
  destruct (Z.leb_spec lo i), (Z.ltb_spec i hi), (Z.ltb_spec i m), (Z.leb_spec m i); cbn; lia.
Qed.

Lemma within_empty i lo hi : hi ≤ lo → within i lo hi = false.
Proof. intros H. unfold within. destruct (Z.leb_spec lo i), (Z.ltb_spec i hi); cbn; [lia|done..]. Qed.

(** The calls cover [lo, hi) exactly. *)
Definition exactly (l : list call) (lo hi : Z) : Prop := ∀ i, hits i l = Z.b2z (within i lo hi).

(** ** The decision *)

Definition kMinGrain : Z := 16.
Definition kProbeFloorNs : Z := 500.
Definition kReprobeInterval : Z := 64.
Definition kLazyPieceNs : Z := 500.
Definition kBodyCostSlots : Z := 64.

Inductive PforMode := Cursor | LazyPCore | Auto.

(** A slot of the table of remembered costs. *)
Record BodyCost := mkCost { bc_key : Z; nsPerMega : Z; uses : Z }.

(** [FindBodySlot]: the slot of [key], claimed if it is free, within eight probes. *)
Fixpoint probe_slots (n : nat) (i : Z) (key : Z) (t : gmap Z BodyCost) : option Z * gmap Z BodyCost :=
  match n with
  | O => (None, t)
  | S n' =>
      let e := (key `mod` kBodyCostSlots + i) `mod` kBodyCostSlots in
      match t !! e with
      | Some c => if bc_key c =? key then (Some e, t) else probe_slots n' (i + 1) key t
      | None => (Some e, <[e := mkCost key 0 0]> t)
      end
  end.
Definition FindBodySlot (key : Z) (t : gmap Z BodyCost) : option Z * gmap Z BodyCost :=
  let key := if key =? 0 then 1 else key in probe_slots 8 0 key t.

(** What the decision reads: the settings, the size of the pool, the clock (its [k]-th
    reading) and the square root, a [double] in the code, of work over wake-up cost cut to
    [size_t]. *)
Record env := mkEnv {
  e_serial : bool; e_active : bool; e_workers : Z; e_measured : bool; e_remembered : bool;
  e_wakeNs : Z; e_leaves : Z; e_minIters : Z; e_clock : nat → Z; e_sqrt : Z → Z → Z }.

(** What is left to run once the decision is made. *)
Inductive plan := PNothing | PSerial (lo hi : Z) | PLazy (lo hi grain width : Z) | PCursor (lo hi grain : Z).

(** The probe loop: the calls made, and how many indices, nanoseconds and indices per
    sample it ends with.  [k] counts clock readings. *)
Fixpoint probe (fuel : nat) (e : env) (begin probeCap : Z) (k : nat) (probed chunk probeNs probeLen : Z) : option (list call * Z * Z * Z) :=
  if negb (probed <? probeCap) then Some ([], probed, probeNs, probeLen)
  else
    match fuel with
    | O => None
    | S f =>
        let take := if probeCap - probed <? chunk then probeCap - probed else chunk in
        let c := (begin + probed, begin + probed + take) in
        let p0 := e_clock e k in
        let p1 := e_clock e (S k) in
        let probed := probed + take in
        let d := if p0 <? p1 then p1 - p0 else 1 in
        let want := take * kProbeFloorNs / d in
        let want := if want <? take * 2 then take * 2 else want in
        let want := if probeCap <? want then probeCap else want in
        let '(probeNs, probeLen) := if (p0 <? p1) && (probeLen <=? take) then (p1 - p0, take) else (probeNs, probeLen) in
        if kProbeFloorNs <=? probeNs then Some ([c], probed, probeNs, probeLen)
        else
          match probe f e begin probeCap (S k) probed want probeNs probeLen with
          | Some (cs, a, b, d) => Some (c :: cs, a, b, d)
          | None => None
          end
    end.

(** The tail common to every way of fixing the width: grain and mode. *)
Definition choose (e : env) (mode : PforMode) (begin end_ grain fanWidth nsPerMegaIdx : Z) : plan :=
  let maxLeaves := fanWidth * e_leaves e in
  let floorGrain := (end_ - begin + maxLeaves - 1) / maxLeaves in
  let grain := Z.max (Z.max grain floorGrain) kMinGrain in
  let mode :=
    match mode with
    | Auto =>
        let pieceNs := if 0 <? nsPerMegaIdx then nsPerMegaIdx * grain / 1000000 else -1 in
        if (0 <=? pieceNs) && (pieceNs <? kLazyPieceNs) then LazyPCore else Cursor
    | m => m
    end in
  match mode with
  | LazyPCore => PLazy begin end_ grain fanWidth
  | _ => PCursor begin end_ grain
  end.

(** Width from an estimate of the whole work in nanoseconds. *)
Definition width_of (e : env) (W : Z) : Z :=
  let k := e_sqrt e W (if 0 <? e_wakeNs e then e_wakeNs e else 1) in
  if e_workers e <? k then e_workers e else k.

(** The measured branch after a probe. *)
Definition measured (e : env) (mode : PforMode) (begin end_ grain : Z) (slot : option Z) (t : gmap Z BodyCost)
    : option (list call * plan * gmap Z BodyCost) :=
  let len := end_ - begin in
  let probeCap := if len / 32 <? 1 then 1 else len / 32 in
  match probe (Z.to_nat probeCap) e begin probeCap 0 0 1 0 0 with
  | None => None
  | Some (cs, probed, probeNs, probeLen) =>
      let probeLen := if probeLen <=? 0 then (if 0 <? probed then probed else 1) else probeLen in
      let begin := begin + probed in
      if end_ <=? begin then Some (cs, PNothing, t)
      else if probeNs <? kProbeFloorNs then Some (cs, PSerial begin end_, t)
      else
        let W := probeNs * len / probeLen in
        let sample := probeNs * 1000000 / probeLen in
        let t := match slot with
                 | Some s => match t !! s with
                             | Some c => <[s := mkCost (bc_key c) (if 0 <? nsPerMega c then (nsPerMega c * 3 + sample) / 4 else sample) (uses c)]> t
                             | None => t
                             end
                 | None => t
                 end in
        let k := width_of e W in
        if k <? 2 then Some (cs, PSerial begin end_, t)
        else Some (cs, choose e mode begin end_ grain k sample, t)
  end.

(** [ParallelFor]: the calls made on the way, what is left to run, the cost table.  [key]
    is the body's type hash.  [None] would be a probe loop that does not end. *)
Definition ParallelFor (e : env) (mode : PforMode) (key begin end_ grain : Z) (t : gmap Z BodyCost)
    : option (list call * plan * gmap Z BodyCost) :=
  if i32 (end_ - begin) <=? 0 then Some ([], PNothing, t)
  else
    let grain := Z.max 1 grain in
    if e_serial e || negb (e_active e) || (e_workers e =? 0) then Some ([], PSerial begin end_, t)
    else if e_measured e then
      let '(slot, t) := if e_remembered e then FindBodySlot key t else (None, t) in
      match slot with
      | Some s =>
          match t !! s with
          | Some c =>
              let t := <[s := mkCost (bc_key c) (nsPerMega c) (u32 (uses c + 1))]> t in
              if (0 <? nsPerMega c) && negb (uses c `mod` kReprobeInterval =? 0) then
                let k := width_of e (nsPerMega c * (end_ - begin) / 1000000) in
                if k <? 2 then Some ([], PSerial begin end_, t)
                else Some ([], choose e mode begin end_ grain k (nsPerMega c), t)
              else measured e mode begin end_ grain slot t
          | None => measured e mode begin end_ grain slot t
          end
      | None => measured e mode begin end_ grain slot t
      end
    else if end_ - begin <? i32 (e_workers e * e_minIters e) then Some ([], PSerial begin end_, t)
    else Some ([], choose e mode begin end_ grain (e_workers e) 0, t).

(** *** Nothing is lost in the decision *)

Definition plan_range (p : plan) : list call :=
  match p with PNothing => [] | PSerial lo hi | PLazy lo hi _ _ | PCursor lo hi _ => [(lo, hi)] end.

(** What the routines that run a plan rely on. *)
Definition plan_ok (e : env) (p : plan) : Prop :=
  match p with
  | PLazy lo hi g w => (lo < hi) ∧ (kMinGrain ≤ g) ∧ (1 ≤ w ≤ e_workers e)
  | PCursor lo hi g => (lo < hi) ∧ (kMinGrain ≤ g)
  | _ => True
  end.

Lemma probe_ok fuel e begin cap k probed chunk ns len :
  0 ≤ probed ≤ cap → 1 ≤ chunk → cap - probed ≤ Z.of_nat fuel →
  ∃ cs p' ns' len', probe fuel e begin cap k probed chunk ns len = Some (cs, p', ns', len') ∧ (probed ≤ p' ≤ cap) ∧
    ∀ i, hits i cs = Z.b2z (within i (begin + probed) (begin + p')).
Proof.
  revert k probed chunk ns len. induction fuel as [|f IH]; intros k probed chunk ns len H1 H2 H3; cbn [probe].
  all: destruct (Z.ltb_spec probed cap) as [Hlt|Hge]; cbn [negb].
  1: lia.
  1,3: eexists _, _, _, _; split_and!; [done|lia|lia|]; intros i; by rewrite within_empty by lia.
  set (tk := if cap - probed <? chunk then cap - probed else chunk).
  assert (Ht : 1 ≤ tk ≤ cap - probed) by (unfold tk; destruct (Z.ltb_spec (cap - probed) chunk); lia).
  set (d := if e_clock e k <? e_clock e (S k) then _ else 1). set (w1 := if _ <? tk * 2 then _ else _). set (w := if cap <? w1 then cap else w1).
  assert (Hw : 1 ≤ w).
  { assert (1 ≤ w1) by (unfold w1; destruct (Z.ltb_spec (tk * kProbeFloorNs / d) (tk * 2)); lia). unfold w. destruct (Z.ltb_spec cap w1); lia. }
  destruct (if (e_clock e k <? e_clock e (S k)) && (len <=? tk) then _ else _) as [ns1 len1].
  destruct (kProbeFloorNs <=? ns1).
  - eexists _, _, _, _. split_and!; [done|lia|lia|]. intros i. cbn. rewrite Z.add_0_r, Z.add_assoc. done.
  - destruct (IH (S k) (probed + tk) w ns1 len1) as (cs & p' & n' & l' & -> & Hp & Hc); [lia|done|lia|].
    eexists _, _, _, _. split_and!; [done|lia|lia|]. intros i. cbn. rewrite Hc.
    rewrite (within_split i (begin + probed) (begin + probed + tk) (begin + p')) by lia. by rewrite Z.add_assoc.
Qed.

Lemma exactly_range lo hi : exactly [(lo, hi)] lo hi.
Proof. intros i. cbn. lia. Qed.

Lemma choose_range e mode b en g k ns : plan_range (choose e mode b en g k ns) = [(b, en)].
Proof. unfold choose. destruct mode; cbn; try done. by destruct (_ && _). Qed.

Lemma choose_ok e mode b en g k ns : b < en → 1 ≤ k ≤ e_workers e → plan_ok e (choose e mode b en g k ns).
Proof.
  intros H1 H2. unfold choose. destruct mode; cbn; [| |destruct (_ && _); cbn]; repeat split; lia.
Qed.

Lemma width_le e W : width_of e W ≤ e_workers e.
Proof. unfold width_of. destruct (Z.ltb_spec (e_workers e) (e_sqrt e W (if 0 <? e_wakeNs e then e_wakeNs e else 1))); lia. Qed.

Definition decided (e : env) (b en : Z) (r : option (list call * plan * gmap Z BodyCost)) : Prop :=
  ∃ cs p t, r = Some (cs, p, t) ∧ exactly (cs ++ plan_range p) b en ∧ plan_ok e p.

Lemma decided_now e b en p t : plan_range p = [(b, en)] → plan_ok e p → decided e b en (Some ([], p, t)).
Proof. intros H1 H2. exists [], p, t. rewrite H1. split_and!; [done|apply exactly_range|done]. Qed.

Lemma measured_ok e mode b en g slot t : b < en → decided e b en (measured e mode b en g slot t).
Proof.
  intros H. unfold measured. set (cap := if _ <? 1 then 1 else _).
  assert (Hcap : 1 ≤ cap ≤ en - b).
  { unfold cap. destruct (Z.ltb_spec ((en - b) / 32) 1); [lia|]. pose proof (Z.div_le_upper_bound (en - b) 32 (en - b) ltac:(lia) ltac:(lia)). lia. }
  destruct (probe_ok (Z.to_nat cap) e b cap 0 0 1 0 0) as (cs & p' & ns & len & -> & Hp & Hc); [lia|lia|lia|]. rewrite Z.add_0_r in Hc.
  assert (Hrest : ∀ p t', plan_range p = [(b + p', en)] → plan_ok e p → decided e b en (Some (cs, p, t'))).
  { intros p t' Hr Ho. exists cs, p, t'. split_and!; [done| |done]. intros i. rewrite Hr, hits_app, Hc. cbn.
    rewrite (within_split i b (b + p') en) by lia. lia. }
  destruct (Z.leb_spec en (b + p')).
  - exists cs, PNothing, t. split_and!; [done| |done]. intros i. rewrite app_nil_r, Hc. do 2 f_equal. lia.
  - destruct (_ <? kProbeFloorNs); [by apply Hrest|]. destruct (Z.ltb_spec (width_of e (ns * (en - b) / (if len <=? 0 then if 0 <? p' then p' else 1 else len))) 2); [by apply Hrest|].
    apply Hrest; [apply choose_range|]. apply choose_ok; [lia|]. pose proof (width_le e (ns * (en - b) / (if len <=? 0 then if 0 <? p' then p' else 1 else len))). lia.
Qed.

(** Deciding how to run a parallel loop loses no index.  Whatever the clock shows and
    whatever cost was remembered, [ParallelFor] comes to a decision, and the calls it made
    while measuring together with the range it goes on to run cover every index of the
    loop exactly once; the grain it passes on is at least the minimum and the width is
    between one and the number of workers. *)
Theorem parallel_for_decides e mode key b en g t :
  0 ≤ e_workers e → en - b < 2 ^ 31 → - 2 ^ 31 ≤ en - b → decided e b en (ParallelFor e mode key b en g t).
Proof.
  intros Hw Hov Hov'. unfold ParallelFor. rewrite i32_small by lia. destruct (Z.leb_spec (en - b) 0).
  { exists [], PNothing, t. split_and!; [done| |done]. intros i. cbn. by rewrite within_empty by lia. }
  destruct (_ || (e_workers e =? 0)) eqn:E0; [by apply decided_now|]. apply orb_false_iff in E0 as [_ E0]. apply Z.eqb_neq in E0.
  destruct (e_measured e).
  - destruct (if e_remembered e then _ else _) as [slot t1]. destruct slot as [s|]; [|apply measured_ok; lia].
    destruct (t1 !! s) as [c|]; [|apply measured_ok; lia]. destruct (_ && _); [|apply measured_ok; lia].
    destruct (Z.ltb_spec (width_of e (nsPerMega c * (en - b) / 1000000)) 2); [by apply decided_now|].
    pose proof (width_le e (nsPerMega c * (en - b) / 1000000)). apply decided_now; [apply choose_range|apply choose_ok; lia].
  - destruct (_ <? _); [by apply decided_now|]. apply decided_now; [apply choose_range|apply choose_ok; lia].
Qed.

(** ** The shared cursor: [RunCursorRange] *)

(** Grain and number of lanes, for [W] compute workers. *)
Definition cursor_plan (W start end_ grain : Z) : Z * Z :=
  let total := end_ - start in
  let blocks := W * 4 in
  let balanced := (total + blocks - 1) / blocks in
  let balanced := if balanced <? 1 then 1 else balanced in
  let balanced := if 128 <? balanced then 128 else balanced in
  let grain := Z.max grain balanced in
  let sliceCount := (total + grain - 1) / grain in
  (grain, Z.min W (Z.max 1 sliceCount)).

Lemma cursor_plan_ok W start end_ g : 1 ≤ W → start < end_ →
  let '(g', lanes) := cursor_plan W start end_ g in (1 ≤ g') ∧ (g ≤ g') ∧ (1 ≤ lanes ≤ W).
Proof.
  intros HW H. unfold cursor_plan. set (b := if _ <? 1 then 1 else _). set (b' := if 128 <? b then 128 else b).
  assert (Hb : 1 ≤ b) by (unfold b; destruct (Z.ltb_spec ((end_ - start + W * 4 - 1) / (W * 4)) 1); lia).
  assert (Hb' : 1 ≤ b') by (unfold b'; destruct (Z.ltb_spec 128 b); lia). lia.
Qed.

(** A lane: about to advance the cursor, with a slice to run, about to report to the
    group, out.  The caller runs a lane too, then waits for the group. *)
Inductive lpc := LFetch | LCall (lo hi : Z) | LFin | LOut | LWait | LRet.

Record cur_state := mkC { cursor : Z; cwg : Z; clog : list call; lanes : gmap nat lpc }.

Section cursor.
Context (start end_ grain : Z).

(** [cur->fetch_add(grain)] and the test after it; the caller is thread 0. *)
Definition fetch (i : nat) (c : Z) : lpc :=
  if end_ <=? c then (if Nat.eqb i 0 then LWait else LFin)
  else LCall c (if end_ <? c + grain then end_ else c + grain).

Inductive cur_step (s : cur_state) : cur_state → Prop :=
| CFetch i : lanes s !! i = Some LFetch →
    cur_step s (mkC (i32 (cursor s + grain)) (cwg s) (clog s) (<[i := fetch i (cursor s)]> (lanes s)))
| CCall i lo hi : lanes s !! i = Some (LCall lo hi) →
    cur_step s (mkC (cursor s) (cwg s) ((lo, hi) :: clog s) (<[i := LFetch]> (lanes s)))
| CDone i : lanes s !! i = Some LFin →
    cur_step s (mkC (cursor s) (cwg s - 1) (clog s) (<[i := LOut]> (lanes s)))
| CReturn i : lanes s !! i = Some LWait → cwg s = 0 →
    cur_step s (mkC (cursor s) (cwg s) (clog s) (<[i := LRet]> (lanes s))).

(** The caller and [m] lanes, all about to fetch.  (A lane that could not be created or
    pushed was subtracted from the group at once.) *)
Definition cur_init (m : nat) (s : cur_state) : Prop :=
  cursor s = start ∧ cwg s = Z.of_nat m ∧ clog s = [] ∧ size (lanes s) = S m ∧
  (∀ i p, lanes s !! i = Some p → p = LFetch) ∧ is_Some (lanes s !! 0%nat).

(** Slices taken and not yet run; lanes not yet out; threads past their last fetch. *)
Definition has_slice (i : Z) (p : lpc) : bool := match p with LCall lo hi => within i lo hi | _ => false end.
Definition past (p : lpc) : bool := match p with LFin | LOut | LWait | LRet => true | _ => false end.

Record cur_inv (m : nat) (s : cur_state) : Prop := {
  ci_size : size (lanes s) = S m;
  ci_low : start ≤ cursor s;
  ci_high : cursor s < end_ + grain * (1 + num past (lanes s));
  ci_past : 0 < num past (lanes s) → end_ ≤ cursor s;
  ci_cover i : hits i (clog s) + num (has_slice i) (lanes s) + Z.b2z (within i (Z.min (cursor s) end_) end_) = Z.b2z (within i start end_);
  ci_wg : cwg s = num (λ p, match p with LFetch | LCall _ _ | LFin => true | _ => false end) (delete 0%nat (lanes s));
  ci_caller i p : lanes s !! i = Some p → match p with LFin | LOut => i ≠ 0%nat | LWait | LRet => i = 0%nat | _ => True end;
  ci_zero : is_Some (lanes s !! 0%nat);
  ci_ret : lanes s !! 0%nat = Some LRet → cwg s = 0 }.
End cursor.

Section cursor_proofs.
Context (start end_ grain : Z) (m : nat).
Hypothesis Hgrain : 1 ≤ grain.
Hypothesis Hrange : - 2 ^ 31 ≤ start ≤ end_.
Hypothesis Hroom : end_ + grain * (Z.of_nat m + 2) ≤ 2 ^ 31.

Abbreviation inv := (cur_inv start end_ grain m).

(** Lanes the group still counts. *)
Abbreviation counted := (λ p, match p with LFetch | LCall _ _ | LFin => true | _ => false end).

Lemma counted_step (t : gmap nat lpc) i p p' :
  t !! i = Some p → i = 0%nat ∨ counted p' = counted p →
  num counted (delete 0%nat (<[i := p']> t)) = num counted (delete 0%nat t).
Proof.
  intros Hi H. destruct (decide (i = 0%nat)) as [->|Hn]; [by rewrite delete_insert_eq|]. destruct H as [?|H]; [done|].
  rewrite delete_insert_ne by done. rewrite (num_insert _ _ _ p) by (by rewrite lookup_delete_ne). rewrite H. lia.
Qed.

Lemma fetch_keeps s i : lanes s !! i = Some LFetch → inv s →
  inv (mkC (i32 (cursor s + grain)) (cwg s) (clog s) (<[i := fetch end_ grain i (cursor s)]> (lanes s))).
Proof.
  intros Hi [A1 A2 A3 A4 A5 A6 A7 A8 A9].
  pose proof (num_below past _ i LFetch Hi eq_refl) as Hb. pose proof (num_nonneg past (lanes s)) as Hn. rewrite A1 in Hb.
  assert (Hov : cursor s + grain < 2 ^ 31) by nia. rewrite i32_small by lia.
  assert (Hf : past (fetch end_ grain i (cursor s)) = (end_ <=? cursor s)) by (unfold fetch; destruct (_ <=? _), (Nat.eqb i 0); done).
  constructor; cbn [cursor cwg clog lanes].
  - rewrite map_size_insert_Some by (by eexists). done.
  - lia.
  - rewrite (num_insert _ _ _ LFetch), Hf by done. destruct (Z.leb_spec end_ (cursor s)); cbn [Z.b2z past]; nia.
  - rewrite (num_insert _ _ _ LFetch), Hf by done. destruct (Z.leb_spec end_ (cursor s)); cbn [Z.b2z past]; [lia|].
    intros Hp. assert (0 < num past (lanes s)) by lia. specialize (A4 ltac:(done)). lia.
  - intros j. specialize (A5 j). rewrite (num_insert _ _ _ LFetch) by done. rewrite <- A5. unfold fetch.
    destruct (Z.leb_spec end_ (cursor s)) as [Hge|Hlt].
    + destruct (Nat.eqb i 0); cbn [has_slice Z.b2z]; rewrite !(within_empty j _ end_) by lia; lia.
    + cbn [has_slice Z.b2z]. rewrite (Z.min_l (cursor s)) by lia. destruct (Z.ltb_spec end_ (cursor s + grain)).
      * rewrite (Z.min_r (cursor s + grain)), (within_empty j end_ end_) by lia. cbn [Z.b2z]. lia.
      * rewrite (Z.min_l (cursor s + grain)), (within_split j (cursor s) (cursor s + grain) end_) by lia. lia.
  - rewrite A6. symmetry. apply (counted_step _ _ LFetch); [done|]. unfold fetch. destruct (_ <=? _); [|by right].
    destruct i; [by left|by right].
  - intros j p [[<- <-]|[Hj Hp]]%lookup_insert_Some; [|by apply A7]. unfold fetch. destruct (_ <=? _); [|done].
    destruct (Nat.eqb_spec i 0); done.
  - destruct (decide (i = 0%nat)) as [->|]; [rewrite lookup_insert_eq; by eexists|by rewrite lookup_insert_ne].
  - intros [[-> E]|[Hj Hp]]%lookup_insert_Some; [|by apply A9]. unfold fetch in E. cbn in E. destruct (_ <=? _); done.
Qed.

Lemma call_keeps s i lo hi : lanes s !! i = Some (LCall lo hi) → inv s → inv (mkC (cursor s) (cwg s) ((lo, hi) :: clog s) (<[i := LFetch]> (lanes s))).
Proof.
  intros Hi [A1 A2 A3 A4 A5 A6 A7 A8 A9].
  assert (Hp : num past (<[i := LFetch]> (lanes s)) = num past (lanes s)) by (rewrite (num_insert _ _ _ (LCall lo hi)) by done; cbn; lia).
  constructor; cbn [cursor cwg clog lanes]; rewrite ?Hp; try done.
  - rewrite map_size_insert_Some by (by eexists). done.
  - intros j. rewrite <- (A5 j), (num_insert _ _ _ (LCall lo hi)) by done. cbn [hits has_slice fst snd Z.b2z]. lia.
  - rewrite A6. symmetry. apply (counted_step _ _ (LCall lo hi)); [done|by right].
  - intros j p [[<- <-]|[Hj Hq]]%lookup_insert_Some; [done|by apply A7].
  - destruct (decide (i = 0%nat)) as [->|]; [rewrite lookup_insert_eq; by eexists|by rewrite lookup_insert_ne].
  - by intros [[_ [=]]|[Hj Hq]]%lookup_insert_Some; apply A9.
Qed.

(** A thread past its last fetch goes on. *)
Lemma past_keeps s i p p' w :
  lanes s !! i = Some p → past p = true → past p' = true → has_slice 0 p' = false →
  (match p' with LFin | LOut => i ≠ 0%nat | LWait | LRet => i = 0%nat | _ => True end) →
  w = num counted (delete 0%nat (<[i := p']> (lanes s))) → (p' = LRet → w = 0) → (i ≠ 0%nat → cwg s = 0 → w = 0) →
  inv s → inv (mkC (cursor s) w (clog s) (<[i := p']> (lanes s))).
Proof.
  intros Hi P1 P2 _ P3 Hw H1 H2 [A1 A2 A3 A4 A5 A6 A7 A8 A9].
  assert (Hp : num past (<[i := p']> (lanes s)) = num past (lanes s)) by (rewrite (num_insert _ _ _ p), P1, P2 by done; lia).
  constructor; cbn [cursor cwg clog lanes]; rewrite ?Hp; try done.
  - rewrite map_size_insert_Some by (by eexists). done.
  - intros j. rewrite <- (A5 j), (num_insert _ _ _ p) by done. destruct p, p'; cbn [has_slice Z.b2z] in *; try done; lia.
  - intros j q [[<- <-]|[Hj Hq]]%lookup_insert_Some; [done|by apply A7].
  - destruct (decide (i = 0%nat)) as [->|]; [rewrite lookup_insert_eq; by eexists|by rewrite lookup_insert_ne].
  - intros [[-> ->]|[Hj Hq]]%lookup_insert_Some; [by apply H1|]. apply H2; [congruence|by apply A9].
Qed.

Lemma cur_inv_step s s' : inv s → cur_step end_ grain s s' → inv s'.
Proof.
  intros A Hs. destruct Hs as [i Hi|i lo hi Hi|i Hi|i Hi Hw]; [by apply fetch_keeps|by apply call_keeps| |].
  - pose proof (ci_caller _ _ _ _ _ A i _ Hi) as Hn. cbn in Hn.
    assert (E : num counted (delete 0%nat (<[i := LOut]> (lanes s))) = cwg s - 1).
    { rewrite delete_insert_ne by done. rewrite (num_insert _ _ _ LFin) by (by rewrite lookup_delete_ne). rewrite (ci_wg _ _ _ _ _ A). cbn. lia. }
    apply (past_keeps s i LFin LOut); try done. intros _ H0. exfalso.
    pose proof (num_nonneg counted (delete 0%nat (<[i := LOut]> (lanes s)))). lia.
  - pose proof (ci_caller _ _ _ _ _ A i _ Hi) as Hn. cbn in Hn. subst i.
    apply (past_keeps s 0 LWait LRet); try done. by rewrite delete_insert_eq, (ci_wg _ _ _ _ _ A).
Qed.

Lemma cur_inv_init s : cur_init start m s → inv s.
Proof.
  intros (E1 & E2 & E3 & E4 & E5 & E6).
  assert (Hnum : ∀ P, P LFetch = false → num P (lanes s) = 0) by (intros P H; apply num_none; intros i p Hp; by rewrite (E5 i p Hp)).
  constructor; rewrite ?E1, ?E3, ?Hnum by done; try done; try lia.
  - intros i. rewrite Hnum by done. cbn. by rewrite Z.min_l by lia.
  - rewrite E2. destruct E6 as [p Hp]. assert (Hall : ∀ k : gmap nat lpc, (∀ i p, k !! i = Some p → p = LFetch) → num counted k = Z.of_nat (size k)).
    { intros k Hk. unfold num, gather. rewrite <- length_map_to_list, <- (length_fmap snd).
      assert (H : ∀ p, p ∈ (map_to_list k).*2 → p = LFetch).
      { intros q ([i q'] & -> & Hq)%list_elem_of_fmap. apply elem_of_map_to_list in Hq. by eapply Hk. }
      induction (map_to_list k).*2 as [|q r IH]; [done|]. rewrite fmap_cons. simpl mjoin. rewrite length_app, (H q) by set_solver.
      specialize (IH ltac:(set_solver)). simpl length in *. lia. }
    rewrite Hall by (intros i q [_ Hq]%lookup_delete_Some; by eapply E5). rewrite map_size_delete_Some by (by eexists). lia.
  - intros i p Hp. by rewrite (E5 i p Hp).
  - intros H. by apply E5 in H.
Qed.

Lemma reachable_cur s : reachable (cur_init start m) (cur_step end_ grain) s → inv s.
Proof. apply reachable_ind; [apply cur_inv_init|apply cur_inv_step]. Qed.

(** The lanes the group no longer counts are out. *)
Lemma out_when_zero s i p : inv s → cwg s = 0 → i ≠ 0%nat → lanes s !! i = Some p → p = LOut.
Proof.
  intros A H0 Hn Hi. rewrite (ci_wg _ _ _ _ _ A) in H0.
  pose proof (num_zero _ _ i p H0 ltac:(by rewrite lookup_delete_ne)) as Hz. pose proof (ci_caller _ _ _ _ _ A i p Hi) as Hc. by destruct p.
Qed.

Lemma returned_exactly s : inv s → lanes s !! 0%nat = Some LRet → exactly (clog s) start end_.
Proof.
  intros A Hr i. pose proof (ci_ret _ _ _ _ _ A Hr) as H0. rewrite <- (ci_cover _ _ _ _ _ A i).
  rewrite (num_none (has_slice i)).
  - assert (Hp : 0 < num past (lanes s)) by (by eapply num_pos). apply (ci_past _ _ _ _ _ A) in Hp.
    rewrite (within_empty i (Z.min (cursor s) end_)) by lia. cbn [Z.b2z]. lia.
  - intros j p Hj. destruct (decide (j = 0%nat)) as [->|Hn]; [by simplify_eq|]. by rewrite (out_when_zero s j p A H0 Hn Hj).
Qed.

(** *** It ends *)

Definition weight (p : lpc) : nat := match p with LFetch => 3 | LCall _ _ => 4 | LFin | LWait => 1 | LOut | LRet => 0 end.
Definition work_left (s : cur_state) : Z :=
  5 * Z.max 0 (end_ - cursor s) + Z.of_nat (length (gather (λ p, replicate (weight p) tt) (lanes s))).

Lemma weight_step (t : gmap nat lpc) i p p' :
  t !! i = Some p → Z.of_nat (length (gather (λ p, replicate (weight p) tt) (<[i := p']> t))) =
    Z.of_nat (length (gather (λ p, replicate (weight p) tt) t)) - Z.of_nat (weight p) + Z.of_nat (weight p').
Proof.
  intros Hi. pose proof (gather_change (λ p, replicate (weight p) tt) t i p p' Hi) as H. apply Permutation_length in H.
  rewrite !length_app, !length_replicate in H. lia.
Qed.

Lemma work_decreases s s' : inv s → cur_step end_ grain s s' → work_left s' < work_left s.
Proof.
  intros A Hs. destruct Hs as [i Hi|i lo hi Hi|i Hi|i Hi Hw]; unfold work_left; cbn [cursor lanes]; erewrite weight_step by done.
  2,3,4: cbn [weight]; lia.
  pose proof (num_below past _ i LFetch Hi eq_refl) as Hb. pose proof (num_nonneg past (lanes s)) as Hn.
  rewrite (ci_size _ _ _ _ _ A) in Hb. pose proof (ci_high _ _ _ _ _ A) as Hh. pose proof (ci_low _ _ _ _ _ A) as Hl.
  rewrite i32_small by nia. unfold fetch. destruct (Z.leb_spec end_ (cursor s)); [destruct (Nat.eqb i 0)|]; cbn [weight]; lia.
Qed.

Lemma goes_on s : inv s → lanes s !! 0%nat = Some LRet ∨ ∃ s', cur_step end_ grain s s'.
Proof.
  intros A. destruct (ci_zero _ _ _ _ _ A) as [p0 H0]. pose proof (ci_caller _ _ _ _ _ A 0%nat p0 H0) as Hc.
  destruct p0 as [|lo hi| | | |]; try done; [right; eexists; by eapply CFetch|right; eexists; by eapply CCall| |by left].
  right. destruct (decide (cwg s = 0)) as [Ez|Ez]; [eexists; by eapply CReturn|].
  rewrite (ci_wg _ _ _ _ _ A) in Ez. apply num_some in Ez as (i & p & [_ Hi]%lookup_delete_Some & Hp).
  destruct p as [|lo hi| | | |]; try done; eexists; [by eapply CFetch|by eapply CCall|by eapply CDone].
Qed.
End cursor_proofs.

(** C19: The shared cursor hands every index out exactly once.  However the caller and its
    lanes interleave, and however many of the lanes could be created, no index is given to
    the body twice or from outside the range, and when [RunCursorRange] returns every
    index of the range has been run.  This is for a range that leaves room below the largest
    [int]: the cursor is an [int] that the caller and each of the [m] lanes advance once past
    the end, so [end + grain * (m + 2)] must not exceed 2^31; [cursor_wraps] below shows what
    happens otherwise. *)
Theorem cursor_exactly_once start end_ grain m s :
  1 ≤ grain → - 2 ^ 31 ≤ start ≤ end_ → end_ + grain * (Z.of_nat m + 2) ≤ 2 ^ 31 →
  reachable (cur_init start m) (cur_step end_ grain) s →
  (∀ i, hits i (clog s) ≤ Z.b2z (within i start end_)) ∧ (lanes s !! 0%nat = Some LRet → exactly (clog s) start end_).
Proof.
  intros H1 H2 H3 Hr. pose proof (reachable_cur _ _ _ _ H1 H2 H3 s Hr) as A. split; [|by eapply returned_exactly].
  intros i. rewrite <- (ci_cover _ _ _ _ _ A i). pose proof (num_nonneg (has_slice i) (lanes s)).
  destruct (within i (Z.min (cursor s) end_) end_); cbn [Z.b2z]; lia.
Qed.

(** C36: A cursor loop ends, if its range leaves room below the largest [int] for the caller
    and each of the [m] lanes to step once past the end ([end + grain * (m + 2)] is at most
    2^31).  Every state it can reach has a next step unless the caller has returned, and every
    step takes at least one from a count that cannot fall below zero. *)
Theorem cursor_loop_ends start end_ grain m s :
  1 ≤ grain → - 2 ^ 31 ≤ start ≤ end_ → end_ + grain * (Z.of_nat m + 2) ≤ 2 ^ 31 →
  reachable (cur_init start m) (cur_step end_ grain) s →
  (lanes s !! 0%nat = Some LRet ∨ ∃ s', cur_step end_ grain s s') ∧
  (∀ s', cur_step end_ grain s s' → 0 ≤ work_left end_ s' < work_left end_ s).
Proof.
  intros H1 H2 H3 Hr. pose proof (reachable_cur _ _ _ _ H1 H2 H3 s Hr) as A. split; [by eapply goes_on|].
  intros s' Hs. split; [unfold work_left; lia|by eapply work_decreases].
Qed.

(** Close to the largest [int] the cursor wraps: once the caller has stepped past the end,
    the next lane to fetch gets a negative index and runs the body there. *)
Theorem cursor_wraps :
  ∃ s, reachable (cur_init (2 ^ 31 - 65) 1) (cur_step (2 ^ 31 - 1) 32) s ∧ hits (- 2 ^ 31 + 31) (clog s) = 1.
Proof.
  eexists. split.
  - exists (mkC (2 ^ 31 - 65) 1 [] {[0%nat := LFetch; 1%nat := LFetch]}). split.
    { split_and!; try done. intros i p. cbn [lanes]. intros [[_ <-]|[_ [_ <-]%lookup_singleton_Some]]%lookup_insert_Some; done. }
    eapply rtc_l; [eapply (CFetch _ _ _ 0); reflexivity|]. cbn [fetch cursor cwg clog lanes].
    eapply rtc_l; [eapply (CCall _ _ _ 0); vm_compute; reflexivity|].
    eapply rtc_l; [eapply (CFetch _ _ _ 0); vm_compute; reflexivity|].
    eapply rtc_l; [eapply (CCall _ _ _ 0); vm_compute; reflexivity|].
    eapply rtc_l; [eapply (CFetch _ _ _ 0); vm_compute; reflexivity|].
    eapply rtc_l; [eapply (CFetch _ _ _ 1); vm_compute; reflexivity|].
    eapply rtc_l; [eapply (CCall _ _ _ 1); vm_compute; reflexivity|]. apply rtc_refl.
  - vm_compute. reflexivity.
Qed.

(** ** Lazily split ranges: [RunLazyRange] and [RunLazyPiece] *)

Definition kMaxSeeds : Z := 64.

(** The compute workers seeded with a range of their own: the idle ones, then the busy
    ones, at most [width - 1] and 64 of them.  [elig] says who may be seeded (a P-core, not
    main, not the caller, not away) and [busy] who runs something. *)
Fixpoint pick_seeds (qs : list Z) (elig busy : Z → bool) (maxOthers : Z) (idle bsy : list Z) : list Z * list Z :=
  match qs with
  | [] => (idle, bsy)
  | q :: r =>
      if Z.of_nat (length idle + length bsy) <? maxOthers then
        if negb (elig q) then pick_seeds r elig busy maxOthers idle bsy
        else if busy q then pick_seeds r elig busy maxOthers idle (bsy ++ [q])
        else pick_seeds r elig busy maxOthers (idle ++ [q]) bsy
      else (idle, bsy)
  end.
Definition seeds (computeN width : Z) (elig busy : Z → bool) : list Z * list Z :=
  pick_seeds (seqZ 0 computeN) elig busy (Z.min kMaxSeeds (if 0 <? width then width - 1 else 0)) [] [].

(** How many parts the range is cut into. *)
Definition parts_of (start end_ grain others : Z) : Z :=
  let n := end_ - start in
  let parts := 1 + others in
  let maxParts := n / grain in
  if maxParts <? parts then (if 1 <? maxParts then maxParts else 1) else parts.

Definition bound (start end_ parts i : Z) : Z := start + (end_ - start) * i / parts.

(** Where the task with part [i >= 1] goes: an idle worker's inbox, the caller's own deque
    (where any thief can take it), or a busy worker's inbox. *)
Inductive target := ToInbox (q : Z) | ToOwnDeque.
Definition seed_target (idle bsy : list Z) (ownDeque : bool) (i : Z) : option target :=
  let k := Z.to_nat (i - 1) in
  if Nat.ltb k (length idle) then ToInbox <$> (idle !! k)
  else if ownDeque then Some ToOwnDeque
  else ToInbox <$> (bsy !! (k - length idle)%nat).

(** A piece: counted but not yet queued by whoever made it, queued, running, about to
    report, out.  The caller first deals the parts ([ZSeed i], [ZPut i] between counting
    and pushing), then runs the first and waits. *)
Inductive zpc :=
| ZSeed (i : Z) | ZPut (i : Z) | ZQueued (lo hi : Z) | ZRun (lo hi : Z) | ZSplit (lo mid hi : Z) | ZFin | ZOut | ZWait | ZRet.

Record zstate := mkZ { zwg : Z; zlog : list call; pieces : gmap nat zpc }.

Section lazy.
Context (start end_ grain parts : Z).
Abbreviation bnd := (bound start end_ parts).

(** The caller is piece 0; a new piece takes a number not in use.  Whether a piece may
    split depends on its thread's deque being empty and on the allocator, so either branch
    may be taken whenever the size allows it. *)
Inductive zstep (s : zstate) : zstate → Prop :=
| ZSeedFail i : pieces s !! 0%nat = Some (ZSeed i) → i < parts →
    zstep s (mkZ (zwg s) ((bnd i, bnd (i + 1)) :: zlog s) (<[0%nat := ZSeed (i + 1)]> (pieces s)))
| ZSeedCount i : pieces s !! 0%nat = Some (ZSeed i) → i < parts →
    zstep s (mkZ (zwg s + 1) (zlog s) (<[0%nat := ZPut i]> (pieces s)))
| ZSeedPush i j : pieces s !! 0%nat = Some (ZPut i) → pieces s !! j = None →
    zstep s (mkZ (zwg s) (zlog s) (<[j := ZQueued (bnd i) (bnd (i + 1))]> (<[0%nat := ZSeed (i + 1)]> (pieces s))))
| ZSeeded i : pieces s !! 0%nat = Some (ZSeed i) → parts ≤ i →
    zstep s (mkZ (zwg s) (zlog s) (<[0%nat := ZRun start (bnd 1)]> (pieces s)))
| ZStart k lo hi : pieces s !! k = Some (ZQueued lo hi) →
    zstep s (mkZ (zwg s) (zlog s) (<[k := ZRun lo hi]> (pieces s)))
| ZCount k lo hi : pieces s !! k = Some (ZRun lo hi) → grain < hi - lo → i32 (2 * grain) ≤ hi - lo →
    zstep s (mkZ (zwg s + 1) (zlog s) (<[k := ZSplit lo (lo + (hi - lo) / 2) hi]> (pieces s)))
| ZPush k lo mid hi j : pieces s !! k = Some (ZSplit lo mid hi) → pieces s !! j = None →
    zstep s (mkZ (zwg s) (zlog s) (<[j := ZQueued mid hi]> (<[k := ZRun lo mid]> (pieces s))))
| ZGrain k lo hi : pieces s !! k = Some (ZRun lo hi) → grain < hi - lo →
    zstep s (mkZ (zwg s) ((lo, lo + grain) :: zlog s) (<[k := ZRun (lo + grain) hi]> (pieces s)))
| ZLast k lo hi : pieces s !! k = Some (ZRun lo hi) → hi - lo ≤ grain →
    zstep s (mkZ (zwg s) (if lo <? hi then (lo, hi) :: zlog s else zlog s) (<[k := ZFin]> (pieces s)))
| ZDone k : pieces s !! k = Some ZFin →
    zstep s (mkZ (zwg s - 1) (zlog s) (<[k := if Nat.eqb k 0 then ZWait else ZOut]> (pieces s)))
| ZReturn : pieces s !! 0%nat = Some ZWait → zwg s = 0 →
    zstep s (mkZ (zwg s) (zlog s) (<[0%nat := ZRet]> (pieces s))).

Definition zinit (s : zstate) : Prop := s = mkZ 1 [] {[0%nat := ZSeed 1]}.

(** What a thread still has to run, and what the group counts for it (a piece counted and
    not yet pushed counts twice). *)
Definition owes (i : Z) (p : zpc) : bool :=
  match p with
  | ZSeed k | ZPut k => within i start (bnd 1) || within i (bnd k) end_
  | ZQueued lo hi | ZRun lo hi | ZSplit lo _ hi => within i lo hi
  | _ => false
  end.
Definition in_group (p : zpc) : bool := match p with ZOut | ZWait | ZRet => false | _ => true end.
Definition in_hand (p : zpc) : bool := match p with ZPut _ | ZSplit _ _ _ => true | _ => false end.

Record zinv (s : zstate) : Prop := {
  zi_cover i : hits i (zlog s) + num (owes i) (pieces s) = Z.b2z (within i start end_);
  zi_wg : zwg s = num in_group (pieces s) + num in_hand (pieces s);
  zi_seed k p : pieces s !! k = Some p →
    match p with
    | ZSeed i => k = 0%nat ∧ 1 ≤ i ≤ parts
    | ZPut i => k = 0%nat ∧ 1 ≤ i < parts
    | ZSplit lo mid hi => lo ≤ mid ≤ hi
    | ZWait | ZRet => k = 0%nat
    | ZOut => k ≠ 0%nat
    | _ => True
    end;
  zi_zero : is_Some (pieces s !! 0%nat);
  zi_ret : pieces s !! 0%nat = Some ZRet → zwg s = 0 }.
End lazy.

(** *** The bounds of the parts *)

Lemma bound_zero start end_ parts : bound start end_ parts 0 = start.
Proof. unfold bound. rewrite Z.mul_0_r, Zdiv_0_l. lia. Qed.

Lemma bound_last start end_ parts : 1 ≤ parts → bound start end_ parts parts = end_.
Proof. intros H. unfold bound. rewrite Z.div_mul by lia. lia. Qed.

Lemma bound_mono start end_ parts i j : start ≤ end_ → 1 ≤ parts → i ≤ j → bound start end_ parts i ≤ bound start end_ parts j.
Proof. intros H1 H2 H3. unfold bound. pose proof (Z.div_le_mono ((end_ - start) * i) ((end_ - start) * j) parts). nia. Qed.

Lemma parts_pos start end_ grain others : 1 ≤ grain → 0 ≤ others → 1 ≤ parts_of start end_ grain others ≤ 1 + others.
Proof.
  intros H1 H2. unfold parts_of. destruct (Z.ltb_spec ((end_ - start) / grain) (1 + others)); [|lia].
  destruct (Z.ltb_spec 1 ((end_ - start) / grain)); lia.
Qed.

Section lazy_proofs.
Context (start end_ grain parts : Z).
Hypothesis Hgrain : 1 ≤ grain.
Hypothesis Hrange : start ≤ end_.
Hypothesis Hparts : 1 ≤ parts.
Abbreviation bnd := (bound start end_ parts).
Abbreviation zinv := (zinv start end_ parts).
Abbreviation owes := (owes start end_ parts).

Definition z_ok (k : nat) (p : zpc) : Prop :=
  match p with
  | ZSeed i => k = 0%nat ∧ 1 ≤ i ≤ parts
  | ZPut i => k = 0%nat ∧ 1 ≤ i < parts
  | ZSplit lo mid hi => lo ≤ mid ≤ hi
  | ZWait | ZRet => k = 0%nat
  | ZOut => k ≠ 0%nat
  | _ => True
  end.
Definition z_count (p : zpc) : Z := Z.b2z (in_group p) + Z.b2z (in_hand p).

(** A step of piece [k] from [p] to [p'] that may start a piece [q] numbered [j]. *)
Definition with_new (o : option (nat * zpc)) (m : gmap nat zpc) : gmap nat zpc := match o with Some (j, q) => <[j := q]> m | None => m end.
Definition of_new (f : zpc → Z) (o : option (nat * zpc)) : Z := match o with Some (_, q) => f q | None => 0 end.

Lemma zinv_move s k p p' o w l :
  pieces s !! k = Some p → (∀ j q, o = Some (j, q) → pieces s !! j = None ∧ z_ok j q) →
  (∀ i, hits i l = hits i (zlog s) + Z.b2z (owes i p) - Z.b2z (owes i p') - of_new (λ q, Z.b2z (owes i q)) o) →
  w = zwg s - z_count p + z_count p' + of_new z_count o → z_ok k p' →
  (k = 0%nat ∨ in_group p = true) → (p' = ZRet → w = 0) →
  zinv s → zinv (mkZ w l (with_new o (<[k := p']> (pieces s)))).
Proof.
  intros Hk Ho Hl Hw Hp Hg Hr [A1 A2 A3 A4 A5].
  assert (Hnum : ∀ P, num P (with_new o (<[k := p']> (pieces s))) = num P (pieces s) - Z.b2z (P p) + Z.b2z (P p') + of_new (λ q, Z.b2z (P q)) o).
  { intros P. destruct o as [[j q]|]; cbn [with_new of_new]; [|rewrite (num_insert _ _ _ p) by done; lia].
    destruct (Ho j q eq_refl) as [Hj _]. rewrite num_insert_new, (num_insert _ _ _ p); [done|done|].
    rewrite lookup_insert_ne; [done|]. intros ->. congruence. }
  assert (Hlook : ∀ x r, with_new o (<[k := p']> (pieces s)) !! x = Some r → (x = k ∧ r = p') ∨ (x ≠ k ∧ pieces s !! x = Some r) ∨ o = Some (x, r)).
  { intros x r. destruct o as [[j q]|]; cbn [with_new].
    - intros [[<- <-]|[Hj Hx]]%lookup_insert_Some; [by right; right|]. apply lookup_insert_Some in Hx as [[<- <-]|[Hn Hx]]; [by left|right; left; split; congruence].
    - intros [[<- <-]|[Hn Hx]]%lookup_insert_Some; [by left|right; left; split; congruence]. }
  constructor; cbn [zwg zlog pieces].
  - intros i. rewrite Hnum, <- (A1 i), Hl. lia.
  - rewrite !Hnum, Hw, A2. unfold z_count. destruct o as [[j q]|]; cbn [of_new]; lia.
  - intros x r Hx. destruct (Hlook x r Hx) as [[-> ->]|[[_ Hx']|Hx']]; [exact Hp|by apply A3|exact (proj2 (Ho x r Hx'))].
  - destruct (decide (k = 0%nat)) as [->|Hn].
    + destruct o as [[j q]|]; cbn [with_new]; [|rewrite lookup_insert_eq; by eexists].
      destruct (decide (j = 0%nat)) as [->|]; [rewrite lookup_insert_eq; by eexists|rewrite lookup_insert_ne by done; rewrite lookup_insert_eq; by eexists].
    + destruct o as [[j q]|]; cbn [with_new]; [|by rewrite lookup_insert_ne].
      destruct (decide (j = 0%nat)) as [->|]; [rewrite lookup_insert_eq; by eexists|by rewrite !lookup_insert_ne].
  - intros H0. destruct (Hlook 0%nat ZRet H0) as [[<- <-]|[[Hn H0']|Hx]]; [by apply Hr| |].
    + exfalso. destruct Hg as [->|Hg]; [done|]. specialize (A5 H0'). pose proof (num_pos in_group (pieces s) k p Hk Hg). pose proof (num_nonneg in_hand (pieces s)). lia.
    + destruct (Ho _ _ Hx) as [Hj _]. destruct A4 as [x Hx']. congruence.
Qed.

(** The calls and ranges of a part. *)
Lemma seed_owes i k : 1 ≤ k ≤ parts → Z.b2z (owes i (ZSeed k)) = Z.b2z (within i start (bnd 1)) + Z.b2z (within i (bnd k) end_).
Proof.
  intros H. cbn [ParallelFor.owes]. assert (bnd 1 ≤ bnd k) by (apply bound_mono; lia).
  unfold within. destruct (Z.leb_spec start i), (Z.ltb_spec i (bnd 1)), (Z.leb_spec (bnd k) i), (Z.ltb_spec i end_); cbn; lia.
Qed.

Lemma seed_next i k : 1 ≤ k < parts → Z.b2z (owes i (ZSeed k)) = Z.b2z (within i (bnd k) (bnd (k + 1))) + Z.b2z (owes i (ZSeed (k + 1))).
Proof.
  intros H. rewrite !seed_owes by lia. assert (bnd k ≤ bnd (k + 1)) by (apply bound_mono; lia).
  assert (bnd (k + 1) ≤ bnd parts) by (apply bound_mono; lia). rewrite bound_last in * by lia.
  rewrite (within_split i (bnd k) (bnd (k + 1)) end_) by lia. lia.
Qed.

Ltac zc := unfold z_count, z_ok; cbn; lia.

Lemma zinv_step s s' : zinv s → zstep start end_ grain parts s s' → zinv s'.
Proof.
  intros A Hs. destruct Hs as [i Hi Hlt|i Hi Hlt|i j Hi Hj|i Hi Hge|k lo hi Hk|k lo hi Hk Hg H2|k lo mid hi j Hk Hj|k lo hi Hk Hg|k lo hi Hk Hg|k Hk|Hk Hw].
  - pose proof (zi_seed _ _ _ _ A _ _ Hi) as [_ Hr]. eapply (zinv_move s 0 (ZSeed i) (ZSeed (i + 1)) None); try done; [|zc|zc|by left].
    intros x. cbn [hits fst snd of_new]. rewrite (seed_next x i) by lia. lia.
  - pose proof (zi_seed _ _ _ _ A _ _ Hi) as [_ Hr]. eapply (zinv_move s 0 (ZSeed i) (ZPut i) None); try done; [|zc|zc|by left].
    intros x. cbn [of_new]. change (owes x (ZPut i)) with (owes x (ZSeed i)). lia.
  - pose proof (zi_seed _ _ _ _ A _ _ Hi) as [_ Hr]. apply (zinv_move s 0 (ZPut i) (ZSeed (i + 1)) (Some (j, ZQueued (bnd i) (bnd (i + 1))))); try done; [| |zc|zc|by left].
    + intros j' q [= <- <-]. done.
    + intros x. cbn [of_new]. change (owes x (ZPut i)) with (owes x (ZSeed i)). rewrite (seed_next x i) by lia. cbn [ParallelFor.owes]. lia.
  - pose proof (zi_seed _ _ _ _ A _ _ Hi) as [_ Hr]. assert (i = parts) as -> by lia.
    eapply (zinv_move s 0 (ZSeed parts) (ZRun start (bnd 1)) None); try done; [|zc|by left].
    intros x. rewrite seed_owes, bound_last by lia. rewrite (within_empty x end_) by lia. cbn [ParallelFor.owes of_new Z.b2z]. lia.
  - eapply (zinv_move s k (ZQueued lo hi) (ZRun lo hi) None); try done; [|zc|by right]. intros x. cbn [of_new ParallelFor.owes]. lia.
  - eapply (zinv_move s k (ZRun lo hi) (ZSplit lo (lo + (hi - lo) / 2) hi) None); try done; [|zc| |by right].
    + intros x. cbn [of_new ParallelFor.owes]. lia.
    + cbn. pose proof (Z.div_le_upper_bound (hi - lo) 2 (hi - lo)). pose proof (Z.div_pos (hi - lo) 2). lia.
  - pose proof (zi_seed _ _ _ _ A _ _ Hk) as Hm. cbn in Hm. apply (zinv_move s k (ZSplit lo mid hi) (ZRun lo mid) (Some (j, ZQueued mid hi))); try done; [| |zc|by right].
    + intros j' q [= <- <-]. done.
    + intros x. cbn [of_new ParallelFor.owes]. rewrite (within_split x lo mid hi) by lia. lia.
  - eapply (zinv_move s k (ZRun lo hi) (ZRun (lo + grain) hi) None); try done; [|zc|by right].
    intros x. cbn [of_new ParallelFor.owes hits fst snd]. rewrite (within_split x lo (lo + grain) hi) by lia. lia.
  - eapply (zinv_move s k (ZRun lo hi) ZFin None); try done; [|zc|by right]. intros x. cbn [of_new ParallelFor.owes Z.b2z].
    destruct (Z.ltb_spec lo hi); cbn [hits fst snd]; [lia|]. rewrite within_empty by lia. cbn. lia.
  - destruct (Nat.eqb_spec k 0) as [->|Hn].
    + eapply (zinv_move s 0 ZFin ZWait None); try done; [|zc|by left]. intros x. cbn. lia.
    + eapply (zinv_move s k ZFin ZOut None); try done; [|zc|by right]. intros x. cbn. lia.
  - eapply (zinv_move s 0 ZWait ZRet None); try done; [|zc|by left]. intros x. cbn. lia.
Qed.

Lemma reachable_zinv s : reachable zinit (zstep start end_ grain parts) s → zinv s.
Proof.
  apply reachable_ind; [|apply zinv_step]. intros ? ->. constructor; cbn [zwg zlog pieces].
  - intros i. rewrite <- insert_empty, num_insert_new by done. cbn [hits]. rewrite (seed_owes i 1) by lia.
    assert (bnd 1 ≤ bnd parts) by (apply bound_mono; lia). assert (bnd 0 ≤ bnd 1) by (apply bound_mono; lia).
    rewrite bound_last in * by lia. rewrite bound_zero in *. rewrite (within_split i start (bnd 1) end_) by lia. change (num (owes i) ∅) with 0. lia.
  - rewrite <- insert_empty, !num_insert_new by done. done.
  - intros k p [<- <-]%lookup_singleton_Some. lia.
  - by eexists.
  - by intros [_ [=]]%lookup_singleton_Some.
Qed.
End lazy_proofs.

(** C20: A lazily split range is run exactly once.  While the caller deals out the parts, and
    while pieces give their upper halves away, in any interleaving and whichever tasks
    could not be created, no index is run twice; and when [RunLazyRange] returns every
    index of the range has been run.  The group never reaches zero while a piece is queued
    or running, because each is counted before it is pushed. *)
Theorem lazy_exactly_once start end_ grain parts s :
  1 ≤ grain → start ≤ end_ → 1 ≤ parts → reachable zinit (zstep start end_ grain parts) s →
  (∀ i, hits i (zlog s) ≤ Z.b2z (within i start end_)) ∧
  (zwg s = 0 → ∀ k p, pieces s !! k = Some p → p = ZOut ∨ p = ZWait ∨ p = ZRet) ∧
  (pieces s !! 0%nat = Some ZRet → exactly (zlog s) start end_).
Proof.
  intros H1 H2 H3 Hr. pose proof (reachable_zinv _ _ _ _ H1 H2 H3 s Hr) as A.
  assert (Hz : zwg s = 0 → ∀ k p, pieces s !! k = Some p → p = ZOut ∨ p = ZWait ∨ p = ZRet).
  { intros H0 k p Hk. rewrite (zi_wg _ _ _ _ A) in H0. pose proof (num_nonneg in_group (pieces s)). pose proof (num_nonneg in_hand (pieces s)).
    pose proof (num_zero in_group (pieces s) k p ltac:(lia) Hk). destruct p; auto; done. }
  split_and!; [|done|].
  - intros i. rewrite <- (zi_cover _ _ _ _ A i). pose proof (num_nonneg (owes start end_ parts i) (pieces s)). lia.
  - intros Hret i. rewrite <- (zi_cover _ _ _ _ A i). rewrite (num_none (owes start end_ parts i)); [lia|].
    intros k p Hk. by destruct (Hz (zi_ret _ _ _ _ A Hret) k p Hk) as [->|[->| ->]].
Qed.

(** *** Where the parts go *)

Lemma pick_seeds_ok qs elig busy mx idle bsy i' b' :
  pick_seeds qs elig busy mx idle bsy = (i', b') →
  (∀ q, q ∈ i' ++ b' → q ∈ idle ++ bsy ∨ (q ∈ qs ∧ elig q = true)) ∧
  Z.of_nat (length i' + length b') ≤ Z.max mx (Z.of_nat (length idle + length bsy)).
Proof.
  revert idle bsy. induction qs as [|q qs IH]; intros idle bsy; cbn [pick_seeds]; [intros [= <- <-]; split; [by left|lia]|].
  destruct (Z.ltb_spec (Z.of_nat (length idle + length bsy)) mx) as [Hlt|Hge]; [|intros [= <- <-]; split; [by left|lia]].
  destruct (elig q) eqn:Ee; cbn [negb]; [destruct (busy q)|]; intros H; apply IH in H as [H1 H2]; rewrite ?length_app in H2; cbn [length] in H2; (split; [|lia]);
    intros x Hx; destruct (H1 x Hx) as [H|[H E]]; set_solver.
Qed.

(** Every part but the caller's has somewhere to go: the arrays of seeds are not read past
    their ends, and an inbox is that of a compute worker that may be seeded. *)
Theorem lazy_parts_placed computeN width elig busy start end_ grain own i :
  1 ≤ grain →
  let '(idle, bsy) := seeds computeN width elig busy in
  1 ≤ i < parts_of start end_ grain (Z.of_nat (length idle + length bsy)) →
  (Z.of_nat (length idle + length bsy) ≤ kMaxSeeds) ∧
  ∃ tg, seed_target idle bsy own i = Some tg ∧ match tg with ToInbox q => (0 ≤ q < computeN) ∧ elig q = true | ToOwnDeque => own = true end.
Proof.
  intros Hg. destruct (seeds computeN width elig busy) as [idle bsy] eqn:E. intros Hi. unfold seeds in E. apply pick_seeds_ok in E as [E1 E2].
  pose proof (parts_pos start end_ grain (Z.of_nat (length idle + length bsy)) Hg ltac:(lia)) as Hp.
  assert (Hin : ∀ q, q ∈ idle ++ bsy → (0 ≤ q < computeN) ∧ elig q = true).
  { intros q Hq. destruct (E1 q Hq) as [[]%elem_of_nil|[Hs He]]. apply elem_of_seqZ in Hs. split; [lia|done]. }
  split; [unfold kMaxSeeds in *; cbn in E2; destruct (0 <? width); lia|]. unfold seed_target. destruct (Nat.ltb_spec (Z.to_nat (i - 1)) (length idle)) as [Hk|Hk].
  - destruct (lookup_lt_is_Some_2 idle _ Hk) as [q Hq]. rewrite Hq. eexists. split; [done|]. apply Hin. apply elem_of_app. left. by eapply list_elem_of_lookup_2.
  - destruct own; [by eexists|]. destruct (lookup_lt_is_Some_2 bsy (Z.to_nat (i - 1) - length idle)) as [q Hq]; [lia|]. rewrite Hq. eexists. split; [done|].
    apply Hin. apply elem_of_app. right. by eapply list_elem_of_lookup_2.
Qed.

(** A loop over more indices than an [int] can count is taken for an empty one. *)
Theorem parallel_for_too_wide e mode key g t :
  ParallelFor e mode key (- 2 ^ 31) (2 ^ 31 - 1) g t = Some ([], PNothing, t).
Proof. done. Qed.

(** ** Witnesses *)

Definition four : env := mkEnv false true 4 true true 2000 8 64 (λ k, 700 * Z.of_nat k) (λ W c, Z.sqrt (W / c)).

Lemma parallel_for_decides_witness : decided four 0 100000 (ParallelFor four Auto 7 0 100000 1 ∅).
Proof. apply (parallel_for_decides four Auto 7 0 100000 1 ∅); [discriminate|reflexivity|discriminate]. Defined.

(** A caller alone: two slices, one fetch past the end, the return. *)
Definition alone : cur_state := mkC 0 0 [] {[0%nat := LFetch]}.
Lemma alone_init : cur_init 0 0 alone.
Proof. split_and!; try done. intros i p. cbn [lanes alone]. intros [_ <-]%lookup_singleton_Some. done. Qed.

Lemma alone_runs : reachable (cur_init 0 0) (cur_step 20 16) (mkC 48 0 [(16, 20); (0, 16)] {[0%nat := LRet]}).
Proof.
  exists alone. split; [apply alone_init|].
  eapply rtc_l; [eapply (CFetch _ _ _ 0); vm_compute; reflexivity|].
  eapply rtc_l; [eapply (CCall _ _ _ 0); vm_compute; reflexivity|].
  eapply rtc_l; [eapply (CFetch _ _ _ 0); vm_compute; reflexivity|].
  eapply rtc_l; [eapply (CCall _ _ _ 0); vm_compute; reflexivity|].
  eapply rtc_l; [eapply (CFetch _ _ _ 0); vm_compute; reflexivity|].
  eapply rtc_l; [eapply (CReturn _ _ _ 0); vm_compute; reflexivity|].
  vm_compute. apply rtc_refl.
Qed.

Lemma cursor_exactly_once_witness : exactly [(16, 20); (0, 16)] 0 20.
Proof.
  apply (cursor_exactly_once 0 20 16 0 (mkC 48 0 [(16, 20); (0, 16)] {[0%nat := LRet]})); [discriminate|split; discriminate|discriminate|apply alone_runs|reflexivity].
Defined.

Lemma cursor_loop_ends_witness : ∃ s', cur_step 20 16 alone s'.
Proof.
  destruct (cursor_loop_ends 0 20 16 0 alone) as [[H|H] _]; [discriminate|split; discriminate|discriminate|apply reachable_init; apply alone_init|discriminate H|exact H].
Defined.

Lemma lazy_runs : reachable zinit (zstep 0 40 16 1) (mkZ 0 [(32, 40); (16, 32); (0, 16)] {[0%nat := ZRet]}).
Proof.
  eexists. split; [reflexivity|].
  eapply rtc_l; [eapply (ZSeeded _ _ _ _ _ 1); [reflexivity|reflexivity]|].
  eapply rtc_l; [eapply (ZGrain _ _ _ _ _ 0); vm_compute; reflexivity|].
  eapply rtc_l; [eapply (ZGrain _ _ _ _ _ 0); vm_compute; reflexivity|].
  eapply rtc_l; [eapply (ZLast _ _ _ _ _ 0); [vm_compute; reflexivity|vm_compute; discriminate]|].
  eapply rtc_l; [eapply (ZDone _ _ _ _ _ 0); vm_compute; reflexivity|].
  eapply rtc_l; [eapply ZReturn; vm_compute; reflexivity|].
  vm_compute. apply rtc_refl.
Qed.

Lemma lazy_exactly_once_witness : exactly [(32, 40); (16, 32); (0, 16)] 0 40.
Proof.
  apply (lazy_exactly_once 0 40 16 1 (mkZ 0 [(32, 40); (16, 32); (0, 16)] {[0%nat := ZRet]})); [discriminate|discriminate|discriminate|apply lazy_runs|reflexivity].
Defined.
