(* ===== verification/Futures.v ===== *)
(** * Promises and futures (include/Future.h)

    The shared state of a promise and its futures: the value or the broken mark, the
    intrusive stack of waiters, the reference count.  The functions that run under the
    state's mutex are single steps; the waiters they take are woken afterwards, one by one,
    by the thread that took them.  A waiter lives in the frame of the task that waits, so
    its memory may be gone or reused as soon as that task is woken. *)

From S2P Require Import Prelude CancelTokens.

Inductive FutureStatus := FReady | FCancelled | FBroken.

(** [FutureStateBase] and the storage of [FutureState]; the fields of the waiters are maps
    from their addresses. *)
Record FutureState := mkFut {
  waiters_ : Z; w_next : gmap Z Z; w_token : gmap Z Z; w_status : gmap Z FutureStatus;
  ready_ : bool; broken_ : bool; storage_ : option Z; refs_ : Z }.

Definition with_waiters (h : Z) (f : FutureState) : FutureState :=
  mkFut h (w_next f) (w_token f) (w_status f) (ready_ f) (broken_ f) (storage_ f) (refs_ f).
Definition with_next (m : gmap Z Z) (f : FutureState) : FutureState :=
  mkFut (waiters_ f) m (w_token f) (w_status f) (ready_ f) (broken_ f) (storage_ f) (refs_ f).
Definition with_status (m : gmap Z FutureStatus) (f : FutureState) : FutureState :=
  mkFut (waiters_ f) (w_next f) (w_token f) m (ready_ f) (broken_ f) (storage_ f) (refs_ f).
Definition with_token (m : gmap Z Z) (f : FutureState) : FutureState :=
  mkFut (waiters_ f) (w_next f) m (w_status f) (ready_ f) (broken_ f) (storage_ f) (refs_ f).
Definition with_outcome (r b : bool) (v : option Z) (f : FutureState) : FutureState :=
  mkFut (waiters_ f) (w_next f) (w_token f) (w_status f) r b v (refs_ f).
Definition with_refs (n : Z) (f : FutureState) : FutureState :=
  mkFut (waiters_ f) (w_next f) (w_token f) (w_status f) (ready_ f) (broken_ f) (storage_ f) n.

(** A new state: the promise's reference. *)
Definition new_state : FutureState := mkFut 0 ∅ ∅ ∅ false false None 1.

Definition Retain (f : FutureState) : FutureState := with_refs (refs_ f + 1) f.
Definition Release (f : FutureState) : bool * FutureState := (refs_ f =? 1, with_refs (refs_ f - 1) f).

(** [ReadyOrQueue]: [true] when there is nothing to wait for. *)
Definition ReadyOrQueue (c : Cancel) (w token : Z) (f : FutureState) : bool * FutureState :=
  if ready_ f then (true, with_status (<[w := FReady]> (w_status f)) f)
  else if broken_ f then (true, with_status (<[w := FBroken]> (w_status f)) f)
  else if Valid token && Cancelled c token then (true, with_status (<[w := FCancelled]> (w_status f)) f)
  else
    let f := with_token (<[w := token]> (w_token f)) (with_status (<[w := FReady]> (w_status f)) f) in
    (false, with_waiters w (with_next (<[w := waiters_ f]> (w_next f)) f)).

(** [*link = x], where [link] is [&waiters_] ([prev] null) or [&prev->next]. *)
Definition set_link (prev x : Z) (f : FutureState) : FutureState :=
  if prev =? 0 then with_waiters x f else with_next (<[prev := x]> (w_next f)) f.

(** Unlinking the node after [link] and pushing it onto [taken]. *)
Definition cut (prev cur nx taken : Z) (f : FutureState) : FutureState :=
  let f := set_link prev nx f in
  let f := with_status (<[cur := FCancelled]> (w_status f)) f in
  with_next (<[cur := taken]> (w_next f)) f.

(** The loop of [CancelWaiters] at [*link = cur]: the waiters that match are unlinked,
    marked and pushed onto [taken]. *)
Fixpoint fut_unlink (fuel : nat) (P : Z → bool) (prev cur taken : Z) (f : FutureState) : option (Z * FutureState) :=
  if cur =? 0 then Some (taken, f)
  else
    match fuel with
    | O => None
    | S n =>
        let nx := next_of (w_next f) cur in
        if P cur then fut_unlink n P prev nx cur (cut prev cur nx taken f)
        else fut_unlink n P cur nx taken f
    end.

Definition cancel_test (c : Cancel) (token : Z) (f : FutureState) (w : Z) : bool :=
  negb (Valid token) || IsWithin c (default kNoToken (w_token f !! w)) token.

Definition CancelFutureWaiters (fuel : nat) (c : Cancel) (token : Z) (f : FutureState) : option (Z * FutureState) :=
  fut_unlink fuel (cancel_test c token f) 0 (waiters_ f) 0 f.

(** [Publish]: the loop that marks the waiters, and the whole. *)
Fixpoint mark_all (fuel : nat) (w : Z) (x : FutureStatus) (next : gmap Z Z) (st : gmap Z FutureStatus) : option (gmap Z FutureStatus) :=
  if w =? 0 then Some st
  else match fuel with O => None | S n => mark_all n (next_of next w) x next (<[w := x]> st) end.

Definition Publish (fuel : nat) (broken : bool) (f : FutureState) : option (Z * FutureState) :=
  if ready_ f || broken_ f then Some (0, f)
  else
    match mark_all fuel (waiters_ f) (if broken then FBroken else FReady) (w_next f) (w_status f) with
    | None => None
    | Some st =>
        Some (waiters_ f, with_waiters 0 (with_status st (with_outcome (negb broken) broken (storage_ f) f)))
    end.

(** ** The loops on the list of waiters *)

Lemma set_link_next prev x f y : y ≠ prev ∨ prev = 0 → next_of (w_next (set_link prev x f)) y = next_of (w_next f) y.
Proof.
  intros Hy. unfold set_link. destruct (Z.eqb_spec prev 0); [done|]. cbn. rewrite next_of_insert, decide_False; [done|]. destruct Hy; congruence.
Qed.

Lemma lseg_nonzero m h l e x : lseg m h l e → x ∈ l → x ≠ 0.
Proof.
  revert h. induction l as [|y l IH]; intros h; [by intros _ ?%elem_of_nil|]. intros (-> & Hy & Hl) [->|Hx]%elem_of_cons; [done|by eapply IH].
Qed.

Lemma set_link_fields prev x f :
  w_status (set_link prev x f) = w_status f ∧ w_token (set_link prev x f) = w_token f ∧ ready_ (set_link prev x f) = ready_ f ∧
  broken_ (set_link prev x f) = broken_ f ∧ storage_ (set_link prev x f) = storage_ f ∧ refs_ (set_link prev x f) = refs_ f.
Proof. unfold set_link. by destruct (prev =? 0). Qed.

(** [link] stands between the kept prefix [k] and the rest. *)
Definition link_at (f : FutureState) (k : list Z) (prev cur : Z) : Prop :=
  match last k with None => prev = 0 ∧ waiters_ f = cur | Some x => prev = x ∧ next_of (w_next f) x = cur end ∧ lseg (w_next f) (waiters_ f) k cur.

Lemma lseg_last m h k x e : lseg m h (k ++ [x]) e ↔ lseg m h k x ∧ x ≠ 0 ∧ next_of m x = e.
Proof.
  rewrite lseg_app. cbn. split.
  - intros (y & H1 & -> & H2 & H3). done.
  - intros (H1 & H2 & H3). exists x. done.
Qed.

Lemma cut_next prev cur nx taken f y : y ≠ prev ∨ prev = 0 → y ≠ cur → next_of (w_next (cut prev cur nx taken f)) y = next_of (w_next f) y.
Proof. intros H1 H2. unfold cut. cbn. by rewrite next_of_insert, decide_False, set_link_next by done. Qed.

Lemma cut_link prev cur nx taken f k :
  link_at f k prev cur → cur ∉ k → NoDup k → link_at (cut prev cur nx taken f) k prev nx.
Proof.
  intros [H1 H2] Hc Hnd. unfold link_at. destruct k as [|y k _] using rev_ind.
  - destruct H1 as [-> H1]. by split.
  - rewrite last_snoc in *. destruct H1 as [-> H1]. apply lseg_last in H2 as (H2 & Hy & _).
    apply NoDup_app in Hnd as (_ & Hnd & _). apply not_elem_of_app in Hc as [Hc Hcy].
    assert (Hw : waiters_ (cut y cur nx taken f) = waiters_ f) by (unfold cut, set_link; cbn; by rewrite (proj2 (Z.eqb_neq y 0))).
    assert (Hn : next_of (w_next (cut y cur nx taken f)) y = nx).
    { unfold cut. cbn. rewrite next_of_insert, decide_False by set_solver. unfold set_link. rewrite (proj2 (Z.eqb_neq y 0)) by done. cbn. by rewrite next_of_eq. }
    split; [done|]. apply lseg_last. split_and!; [|done|done]. rewrite Hw. eapply lseg_ext; [|exact H2].
    intros z Hz. apply cut_next; [left|set_solver]. intros ->. apply (Hnd y Hz). set_solver.
Qed.

(** [link] is in the kept prefix, away from the rest and from what was taken. *)
Lemma link_apart f k prev x r tk :
  link_at f k prev x → NoDup (k ++ (x :: r) ++ tk) →
  (prev = 0 ∨ prev ∈ k) ∧ (x ∉ k) ∧ (x ∉ r) ∧ (x ∉ tk) ∧ NoDup k ∧ (∀ z, z ∈ r ++ tk → z ≠ prev ∨ prev = 0).
Proof.
  intros [Hl _] Hnd. apply NoDup_app in Hnd as (Hk & Hd & Hnd). cbn in Hnd. apply NoDup_cons in Hnd as [Hnx Hnd].
  assert (Hp : prev = 0 ∨ prev ∈ k).
  { destruct (last k) as [y|] eqn:Ey; [|by left; destruct Hl]. destruct Hl as [-> _]. right. apply last_Some in Ey as [k' ->]. set_solver. }
  split_and!; try done.
  - intros Hx. apply (Hd x Hx). set_solver.
  - set_solver.
  - set_solver.
  - intros z Hz. destruct Hp as [->|Hp]; [by right|left]. intros ->. apply (Hd prev Hp). set_solver.
Qed.

Lemma fut_unlink_ok fuel P prev cur taken f k r tk :
  link_at f k prev cur → chain (w_next f) cur r → chain (w_next f) taken tk → NoDup (k ++ r ++ tk) → (length r ≤ fuel)%nat →
  ∃ tk' f', fut_unlink fuel P prev cur taken f = Some (tk', f') ∧
    chain (w_next f') (waiters_ f') (k ++ filter (λ x, P x = false) r) ∧
    chain (w_next f') tk' (reverse (filter (λ x, P x = true) r) ++ tk) ∧
    (∀ x, x ∉ k ++ r → next_of (w_next f') x = next_of (w_next f) x) ∧
    w_status f' = foldr (λ x m, <[x := FCancelled]> m) (w_status f) (reverse (filter (λ x, P x = true) r)) ∧
    w_token f' = w_token f ∧ ready_ f' = ready_ f ∧ broken_ f' = broken_ f ∧ storage_ f' = storage_ f ∧ refs_ f' = refs_ f.
Proof.
  revert prev cur taken f k r tk. induction fuel as [|n IH]; intros prev cur taken f k r tk Hl Hr Ht Hnd Hf; cbn [fut_unlink].
  all: destruct r as [|x r]; [cbn in Hr; subst cur; rewrite Z.eqb_refl; exists taken, f; cbn; rewrite app_nil_r; by destruct Hl|].
  { cbn in Hf. lia. }
  destruct Hr as (-> & Hx & Hr). rewrite (proj2 (Z.eqb_neq x 0)) by done. rewrite !filter_cons. destruct (P x) eqn:EP.
  - rewrite decide_False, decide_True by done. rewrite reverse_cons. set (nx := next_of (w_next f) x) in *.
    destruct (link_apart f k prev x r tk Hl Hnd) as (D1 & D2 & D3 & D4 & D5 & D6).
    destruct (IH prev nx x (cut prev x nx taken f) k r (x :: tk)) as (tk' & f' & -> & C1 & C2 & C3 & C4 & C5).
    + by apply cut_link.
    + eapply lseg_ext; [|exact Hr]. intros z Hz. apply cut_next; [apply D6; set_solver|]. by intros ->.
    + split_and!; [done|done|]. unfold cut at 2. cbn. rewrite next_of_eq. eapply lseg_ext; [|exact Ht].
      intros z Hz. apply cut_next; [apply D6; set_solver|]. by intros ->.
    + eapply NoDup_perm; [|exact Hnd]. solve_Permutation.
    + cbn in Hf. lia.
    + exists tk', f'. destruct (set_link_fields prev nx f) as (E1 & E2 & E3 & E4 & E5 & E6). split_and!; [done|done| |..].
      * by rewrite <- (assoc_L (++)).
      * intros z Hz. rewrite C3 by set_solver. apply cut_next; [|set_solver]. destruct D1 as [?|D1]; [by right|left; set_solver].
      * rewrite C4, foldr_app. cbn. by rewrite E1.
      * destruct C5 as (-> & _). done.
      * destruct C5 as (_ & -> & _). done.
      * destruct C5 as (_ & _ & -> & _). done.
      * destruct C5 as (_ & _ & _ & -> & _). done.
      * destruct C5 as (_ & _ & _ & _ & ->). done.
  - rewrite decide_True, decide_False by done.
    destruct (IH x (next_of (w_next f) x) taken f (k ++ [x]) r tk) as (tk' & f' & -> & C1 & C2 & C3 & C4).
    + split; [rewrite last_snoc; done|]. apply lseg_last. by destruct Hl.
    + done.
    + done.
    + by rewrite <- (assoc_L (++)).
    + cbn in Hf. lia.
    + rewrite <- (assoc_L (++)) in C1. exists tk', f'. split_and!; try done; try apply C4. intros z Hz. apply C3. set_solver.
Qed.

Lemma mark_all_ok fuel w x next st l :
  chain next w l → (length l ≤ fuel)%nat →
  ∃ st', mark_all fuel w x next st = Some st' ∧ ∀ y, st' !! y = if decide (y ∈ l) then Some x else st !! y.
Proof.
  revert w st l. induction fuel as [|n IH]; intros w st l Hc Hf; cbn [mark_all].
  all: destruct l as [|z l]; [cbn in Hc; subst w; rewrite Z.eqb_refl; by eexists|].
  { cbn in Hf. lia. }
  destruct Hc as (-> & Hz & Hc). rewrite (proj2 (Z.eqb_neq z 0)) by done. cbn in Hf.
  destruct (IH (next_of next z) (<[z := x]> st) l Hc ltac:(lia)) as (st' & -> & H). exists st'. split; [done|]. intros y. rewrite H.
  destruct (decide (y ∈ l)); [rewrite decide_True by set_solver; done|]. destruct (decide (y = z)) as [->|Hn].
  - rewrite decide_True by set_solver. by rewrite lookup_insert_eq.
  - rewrite decide_False by set_solver. by rewrite lookup_insert_ne.
Qed.

Lemma foldr_insert (v : FutureStatus) (st : gmap Z FutureStatus) (l : list Z) y :
  foldr (λ x m, <[x := v]> m) st l !! y = if decide (y ∈ l) then Some v else st !! y.
Proof.
  induction l as [|x l IH]; [done|]. cbn. destruct (decide (y = x)) as [->|Hn].
  - rewrite lookup_insert_eq, decide_True by set_solver. done.
  - rewrite lookup_insert_ne by done. rewrite IH. destruct (decide (y ∈ l)); [rewrite decide_True by set_solver|rewrite decide_False by set_solver]; done.
Qed.

(** ** Promise, futures and waiters together *)

(** A thread: outside, constructing the value, waking what it took (a list headed by [p];
    [b] when it is the promise that breaks), about to drop the promise's reference.  The
    list is a ghost: the code has only [p] and the links. *)
Inductive upc := FIdle | FSet (v : Z) | FWake (p : Z) (l : list Z) (b : bool) | FRel.

(** [wl], [queued] and [woken] are ghosts: the waiters linked, every waiter ever queued,
    every waiter woken with the status it found.  [fut] counts the live [Future] handles,
    [prom] says whether the promise still is one.  The promise belongs to thread 0. *)
Record fsys := mkFS {
  fs : FutureState; wl : list Z; fut : Z; prom : bool; deleted : bool;
  queued : list Z; woken : list (Z * FutureStatus); fth : gmap nat upc }.

Definition held (p : upc) : list Z := match p with FWake _ l _ => l | _ => [] end.

Inductive fut_step (s : fsys) : fsys → Prop :=
| UQueue i c w tok f' : fth s !! i = Some FIdle → 0 < fut s → w ≠ 0 → w ∉ wl s → w ∉ gather held (fth s) →
    ReadyOrQueue c w tok (fs s) = (false, f') →
    fut_step s (mkFS f' (w :: wl s) (fut s) (prom s) (deleted s) (w :: queued s) (woken s) (fth s))
| UNoWait i c w tok f' : fth s !! i = Some FIdle → 0 < fut s → w ∉ wl s → w ∉ gather held (fth s) →
    ReadyOrQueue c w tok (fs s) = (true, f') →
    fut_step s (mkFS f' (wl s) (fut s) (prom s) (deleted s) (queued s) (woken s) (fth s))
| UCancel i c tok n p f' : fth s !! i = Some FIdle → 0 < fut s → CancelFutureWaiters n c tok (fs s) = Some (p, f') →
    fut_step s (mkFS f' (filter (λ x, cancel_test c tok (fs s) x = false) (wl s)) (fut s) (prom s) (deleted s) (queued s) (woken s)
      (<[i := FWake p (reverse (filter (λ x, cancel_test c tok (fs s) x = true) (wl s))) false]> (fth s)))
| USet v : fth s !! 0%nat = Some FIdle → prom s = true → ready_ (fs s) || broken_ (fs s) = false →
    fut_step s (mkFS (fs s) (wl s) (fut s) (prom s) (deleted s) (queued s) (woken s) (<[0%nat := FSet v]> (fth s)))
| UPublish v n p f' : fth s !! 0%nat = Some (FSet v) →
    Publish n false (with_outcome (ready_ (fs s)) (broken_ (fs s)) (Some v) (fs s)) = Some (p, f') →
    fut_step s (mkFS f' [] (fut s) (prom s) (deleted s) (queued s) (woken s) (<[0%nat := FWake p (wl s) false]> (fth s)))
| UBreak n p f' : fth s !! 0%nat = Some FIdle → prom s = true → Publish n true (fs s) = Some (p, f') →
    fut_step s (mkFS f' [] (fut s) (prom s) (deleted s) (queued s) (woken s) (<[0%nat := FWake p (wl s) true]> (fth s)))
| UWake i p l b : fth s !! i = Some (FWake p l b) → p ≠ 0 →
    fut_step s (mkFS (fs s) (wl s) (fut s) (prom s) (deleted s) (queued s) ((p, default FReady (w_status (fs s) !! p)) :: woken s)
      (<[i := FWake (next_of (w_next (fs s)) p) (tail l) b]> (fth s)))
| UWoken i l b : fth s !! i = Some (FWake 0 l b) →
    fut_step s (mkFS (fs s) (wl s) (fut s) (prom s) (deleted s) (queued s) (woken s) (<[i := if b then FRel else FIdle]> (fth s)))
| URelease : fth s !! 0%nat = Some FRel →
    fut_step s (mkFS (Release (fs s)).2 (wl s) (fut s) false (deleted s || (Release (fs s)).1) (queued s) (woken s) (<[0%nat := FIdle]> (fth s)))
| UGet : fth s !! 0%nat = Some FIdle → prom s = true →
    fut_step s (mkFS (Retain (fs s)) (wl s) (fut s + 1) (prom s) (deleted s) (queued s) (woken s) (fth s))
| UCopy : 0 < fut s →
    fut_step s (mkFS (Retain (fs s)) (wl s) (fut s + 1) (prom s) (deleted s) (queued s) (woken s) (fth s))
| UDrop : 0 < fut s →
    fut_step s (mkFS (Release (fs s)).2 (wl s) (fut s - 1) (prom s) (deleted s || (Release (fs s)).1) (queued s) (woken s) (fth s))
| UReuse w x : w ∉ wl s → w ∉ gather held (fth s) →
    fut_step s (mkFS (with_next (<[w := x]> (w_next (fs s))) (fs s)) (wl s) (fut s) (prom s) (deleted s) (queued s) (woken s) (fth s)).

Definition fut_init (s : fsys) : Prop :=
  s = mkFS new_state [] 0 true false [] [] (fth s) ∧ (∀ i p, fth s !! i = Some p → p = FIdle) ∧ is_Some (fth s !! 0%nat).

(** What a status found by a woken waiter says. *)
Definition truthful (f : FutureState) (x : FutureStatus) : Prop :=
  match x with FReady => ready_ f = true ∧ is_Some (storage_ f) | FBroken => broken_ f = true | FCancelled => True end.

(** Where a thread may be. *)
Definition upc_ok (s : fsys) (i : nat) (p : upc) : Prop :=
  match p with
  | FIdle => True
  | FSet _ => i = 0%nat ∧ prom s = true ∧ ready_ (fs s) || broken_ (fs s) = false
  | FRel => i = 0%nat ∧ prom s = true
  | FWake p l b => chain (w_next (fs s)) p l ∧ (b = true → i = 0%nat ∧ prom s = true) ∧
      ∀ x, x ∈ l → ∃ st, w_status (fs s) !! x = Some st ∧ truthful (fs s) st
  end.

Record fut_inv (s : fsys) : Prop := {
  fi_wl : chain (w_next (fs s)) (waiters_ (fs s)) (wl s);
  fi_nodup : NoDup (wl s ++ gather held (fth s));
  fi_once : queued s ≡ₚ (woken s).*1 ++ wl s ++ gather held (fth s);
  fi_settled : ready_ (fs s) || broken_ (fs s) = true → wl s = [];
  fi_value : ready_ (fs s) = true → is_Some (storage_ (fs s));
  fi_pc i p : fth s !! i = Some p → upc_ok s i p;
  fi_woken w st : (w, st) ∈ woken s → truthful (fs s) st;
  fi_refs : refs_ (fs s) = Z.b2z (prom s) + fut s ∧ 0 ≤ fut s;
  fi_deleted : deleted s = true ↔ refs_ (fs s) = 0 }.

(** ** Every step keeps the books *)

Lemma held_in (t : gmap nat upc) i p x : t !! i = Some p → x ∈ held p → x ∈ gather held t.
Proof. intros Hi Hx. apply elem_of_gather. by exists i, p. Qed.

(** A thread's own facts survive a change elsewhere: its links and statuses are kept, the
    outcome only grows, the promise stays. *)
Lemma pc_frame s s' i p :
  upc_ok s i p →
  (∀ x, x ∈ held p → next_of (w_next (fs s')) x = next_of (w_next (fs s)) x) →
  (∀ x, x ∈ held p → w_status (fs s') !! x = w_status (fs s) !! x) →
  (∀ st, truthful (fs s) st → truthful (fs s') st) →
  (i = 0%nat → prom s = true → prom s' = true) →
  (∀ v, p = FSet v → ready_ (fs s') || broken_ (fs s') = false) → upc_ok s' i p.
Proof.
  intros H Hn Hst Ht Hp Hset. destruct p as [|v|p l b|]; [done| | |].
  - destruct H as (-> & H1 & _). split_and!; [done|by apply Hp|by eapply Hset].
  - destruct H as (H1 & H2 & H3). split_and!.
    + eapply lseg_ext; [|exact H1]. intros z Hz. by apply Hn.
    + intros Hb. destruct (H2 Hb) as [-> ?]. split; [done|by apply Hp].
    + intros x Hx. destruct (H3 x Hx) as (st & E & Hst'). exists st. rewrite Hst by done. eauto.
  - destruct H as [-> H]. split; [done|by apply Hp].
Qed.

(** Only the queue and the links or statuses of nodes nobody holds change. *)
Lemma inv_links s f' wl' q' :
  fut_inv s → chain (w_next f') (waiters_ f') wl' →
  (∀ x, x ∈ gather held (fth s) → next_of (w_next f') x = next_of (w_next (fs s)) x ∧ w_status f' !! x = w_status (fs s) !! x) →
  ready_ f' = ready_ (fs s) → broken_ f' = broken_ (fs s) → storage_ f' = storage_ (fs s) → refs_ f' = refs_ (fs s) →
  NoDup (wl' ++ gather held (fth s)) → q' ≡ₚ (woken s).*1 ++ wl' ++ gather held (fth s) → (ready_ (fs s) || broken_ (fs s) = true → wl' = []) →
  fut_inv (mkFS f' wl' (fut s) (prom s) (deleted s) q' (woken s) (fth s)).
Proof.
  intros [A1 A2 A3 A4 A5 A6 A7 A8 A9] Hc Hx E1 E2 E3 E4 Hnd Hq Hs. constructor; cbn; rewrite ?E1, ?E2, ?E3, ?E4; try done.
  - intros i p Hi. eapply pc_frame; [by apply A6|..]; cbn.
    + intros x Hxp. apply Hx. by eapply held_in.
    + intros x Hxp. apply Hx. by eapply held_in.
    + intros st. unfold truthful. by rewrite E1, E2, E3.
    + done.
    + intros v ->. rewrite E1, E2. apply (A6 i _ Hi).
  - intros w st Hw. specialize (A7 w st Hw). unfold truthful in *. by rewrite E1, E2, E3.
Qed.

Lemma queue_keeps s c w tok f' :
  fut_inv s → w ≠ 0 → w ∉ wl s → w ∉ gather held (fth s) → ReadyOrQueue c w tok (fs s) = (false, f') →
  fut_inv (mkFS f' (w :: wl s) (fut s) (prom s) (deleted s) (w :: queued s) (woken s) (fth s)).
Proof.
  intros A Hw0 Hw Hg. unfold ReadyOrQueue. destruct (ready_ (fs s)) eqn:Er; [done|]. destruct (broken_ (fs s)) eqn:Eb; [done|].
  destruct (_ && _); [done|]. intros [= <-]. destruct A as [A1 A2 A3 A4 A5 A6 A7 A8 A9] eqn:EA. apply inv_links; try done; cbn.
  - split_and!; [done|done|]. cbn. rewrite next_of_eq. by apply lseg_insert.
  - intros x Hx. assert (x ≠ w) by (intros ->; done). rewrite next_of_insert, decide_False, lookup_insert_ne by done. done.
  - apply NoDup_cons. split; [set_solver|done].
  - rewrite A3. solve_Permutation.
  - by rewrite Er, Eb.
Qed.

Lemma nowait_keeps s c w tok f' :
  fut_inv s → w ∉ gather held (fth s) → ReadyOrQueue c w tok (fs s) = (true, f') →
  fut_inv (mkFS f' (wl s) (fut s) (prom s) (deleted s) (queued s) (woken s) (fth s)).
Proof.
  intros A Hg H. assert (Hst : ∃ x, f' = with_status (<[w := x]> (w_status (fs s))) (fs s)).
  { unfold ReadyOrQueue in H. destruct (ready_ (fs s)); [by injection H as <-; eexists|]. destruct (broken_ (fs s)); [by injection H as <-; eexists|].
    destruct (_ && _); [by injection H as <-; eexists|done]. }
  destruct Hst as [x ->]. destruct A as [A1 A2 A3 A4 A5 A6 A7 A8 A9] eqn:EA. apply inv_links; try done; cbn.
  intros y Hy. assert (y ≠ w) by (intros ->; done). by rewrite lookup_insert_ne.
Qed.

Lemma reuse_keeps s w x :
  fut_inv s → w ∉ wl s → w ∉ gather held (fth s) →
  fut_inv (mkFS (with_next (<[w := x]> (w_next (fs s))) (fs s)) (wl s) (fut s) (prom s) (deleted s) (queued s) (woken s) (fth s)).
Proof.
  intros A Hw Hg. destruct A as [A1 A2 A3 A4 A5 A6 A7 A8 A9] eqn:EA. apply inv_links; try done; cbn.
  - by apply lseg_insert.
  - intros y Hy. assert (y ≠ w) by (intros ->; done). by rewrite next_of_insert, decide_False.
Qed.

(** A thread takes waiters [l] off the queue. *)
Lemma take_keeps s i p0 f' wl' p l b :
  fut_inv s → fth s !! i = Some p0 → held p0 = [] →
  chain (w_next f') (waiters_ f') wl' → chain (w_next f') p l →
  (∀ x, x ∈ gather held (fth s) → next_of (w_next f') x = next_of (w_next (fs s)) x ∧ w_status f' !! x = w_status (fs s) !! x) →
  wl s ≡ₚ l ++ wl' → (∀ x, x ∈ l → ∃ st, w_status f' !! x = Some st ∧ truthful f' st) →
  (∀ st, truthful (fs s) st → truthful f' st) → refs_ f' = refs_ (fs s) →
  (ready_ f' || broken_ f' = true → wl' = []) → (ready_ f' = true → is_Some (storage_ f')) →
  (b = true → i = 0%nat ∧ prom s = true) → (∀ j v, j ≠ i → fth s !! j = Some (FSet v) → ready_ f' || broken_ f' = false) →
  fut_inv (mkFS f' wl' (fut s) (prom s) (deleted s) (queued s) (woken s) (<[i := FWake p l b]> (fth s))).
Proof.
  intros [A1 A2 A3 A4 A5 A6 A7 A8 A9] Hi Hp0 Hc Hl Hx Hwl Hst Ht Hr Hs Hv Hb Hset.
  assert (Hg : gather held (<[i := FWake p l b]> (fth s)) ≡ₚ l ++ gather held (fth s)).
  { pose proof (gather_change held (fth s) i p0 (FWake p l b) Hi) as H. rewrite Hp0 in H. exact H. }
  assert (Hall : wl' ++ gather held (<[i := FWake p l b]> (fth s)) ≡ₚ wl s ++ gather held (fth s)) by (rewrite Hg, Hwl; solve_Permutation).
  constructor; cbn; rewrite ?Hr; try done.
  - eapply NoDup_perm; [|exact A2]. by symmetry.
  - rewrite A3. by apply Permutation_app_head.
  - intros j q [[<- <-]|[Hn Hj]]%lookup_insert_Some; [done|]. eapply pc_frame; [by apply A6|..]; cbn.
    + intros x Hxq. apply Hx. by eapply held_in.
    + intros x Hxq. apply Hx. by eapply held_in.
    + done.
    + done.
    + intros v ->. by eapply Hset.
  - intros w st Hw. apply Ht. by eapply A7.
Qed.

(** More fuel changes nothing. *)
Lemma fut_unlink_more n m P prev cur taken f r : fut_unlink n P prev cur taken f = Some r → fut_unlink (n + m) P prev cur taken f = Some r.
Proof.
  revert prev cur taken f. induction n as [|n IH]; intros prev cur taken f; cbn [fut_unlink Nat.add].
  - destruct (cur =? 0) eqn:E; [|done]. destruct m; cbn; by rewrite E.
  - destruct (cur =? 0); [done|]. destruct (P cur); apply IH.
Qed.

Lemma mark_all_more n m w x next st r : mark_all n w x next st = Some r → mark_all (n + m) w x next st = Some r.
Proof.
  revert w st. induction n as [|n IH]; intros w st; cbn [mark_all Nat.add].
  - destruct (w =? 0) eqn:E; [|done]. destruct m; cbn; by rewrite E.
  - destruct (w =? 0); [done|]. apply IH.
Qed.

Lemma filter_parts (P : Z → bool) l : l ≡ₚ reverse (filter (λ x, P x = true) l) ++ filter (λ x, P x = false) l.
Proof.
  induction l as [|x l IH]; [done|]. rewrite !filter_cons. destruct (P x).
  - rewrite decide_True, decide_False, reverse_cons by done. rewrite <- (assoc_L (++)). cbn. rewrite IH at 1. solve_Permutation.
  - rewrite decide_False, decide_True by done. rewrite IH at 1. solve_Permutation.
Qed.

Lemma cancel_keeps s i c tok n p f' :
  fut_inv s → fth s !! i = Some FIdle → CancelFutureWaiters n c tok (fs s) = Some (p, f') →
  fut_inv (mkFS f' (filter (λ x, cancel_test c tok (fs s) x = false) (wl s)) (fut s) (prom s) (deleted s) (queued s) (woken s)
    (<[i := FWake p (reverse (filter (λ x, cancel_test c tok (fs s) x = true) (wl s))) false]> (fth s))).
Proof.
  intros A Hi Hc. pose proof A as [A1 A2 A3 A4 A5 A6 A7 A8 A9]. apply (fut_unlink_more _ (length (wl s))) in Hc.
  pose proof (NoDup_app (wl s) (gather held (fth s))) as Hsp. apply Hsp in A2 as (Hnd & Hd & _). clear Hsp.
  destruct (fut_unlink_ok (n + length (wl s)) (cancel_test c tok (fs s)) 0 (waiters_ (fs s)) 0 (fs s) [] (wl s) [])
    as (tk' & f2 & E & C1 & C2 & C3 & C4 & C5 & C6 & C7 & C8 & C9); [done|done|done|by rewrite app_nil_r|lia|].
  rewrite E in Hc. injection Hc as <- <-. rewrite app_nil_r in C2. cbn [app] in C1.
  assert (Htr : ∀ st, truthful (fs s) st → truthful f2 st) by (intros st; unfold truthful; by rewrite C6, C7, C8).
  apply (take_keeps s i FIdle); try done; rewrite ?C6, ?C7, ?C8; try done.
  - intros x Hx. assert (Hnx : x ∉ wl s) by (intros Hw; by apply (Hd x Hw)). split; [by apply C3|].
    rewrite C4, foldr_insert, decide_False; [done|]. rewrite elem_of_reverse, list_elem_of_filter. by intros [_ ?].
  - apply filter_parts.
  - intros x Hx. exists FCancelled. split; [|done]. by rewrite C4, foldr_insert, decide_True.
  - intros Hs. by rewrite (A4 Hs).
  - intros j v _ Hj. apply (A6 j _ Hj).
Qed.

(** Publishing an outcome; [f] is the state with the value already in its storage. *)
Lemma publish_keeps s p0 n b (bk : bool) f p f' :
  fut_inv s → fth s !! 0%nat = Some p0 → held p0 = [] → prom s = true →
  f = with_outcome (ready_ (fs s)) (broken_ (fs s)) (storage_ f) (fs s) → (storage_ f = storage_ (fs s) ∨ ready_ (fs s) || broken_ (fs s) = false) →
  (bk = false → is_Some (storage_ f)) → Publish n bk f = Some (p, f') →
  fut_inv (mkFS f' [] (fut s) (prom s) (deleted s) (queued s) (woken s) (<[0%nat := FWake p (wl s) b]> (fth s))).
Proof.
  intros A Hi Hp0 Hpr Ef Hsto Hval Hpub. pose proof A as [A1 A2 A3 A4 A5 A6 A7 A8 A9]. rewrite Ef in Hpub. unfold Publish in Hpub. cbn in Hpub.
  assert (Hset : ∀ j v, j ≠ 0%nat → fth s !! j ≠ Some (FSet v)) by (intros j v Hn Hj; by destruct (A6 j _ Hj)).
  destruct (ready_ (fs s) || broken_ (fs s)) eqn:Es.
  - injection Hpub as <- <-. destruct Hsto as [Hsto|?]; [|done]. rewrite (A4 eq_refl) in *.
    apply (take_keeps s 0 p0); try done; cbn; rewrite ?Hsto; try done.
    + rewrite (A4 eq_refl). done.
    + intros x Hx. by apply elem_of_nil in Hx.
    + intros j v Hn Hj. by destruct (Hset j v Hn).
  - destruct (mark_all n (waiters_ (fs s)) _ _ _) as [st|] eqn:Em; [|done]. injection Hpub as <- <-.
    apply (mark_all_more _ (length (wl s))) in Em.
    destruct (mark_all_ok (n + length (wl s)) (waiters_ (fs s)) (if bk then FBroken else FReady) (w_next (fs s)) (w_status (fs s)) (wl s) A1 ltac:(lia)) as (st' & E & Hst).
    rewrite E in Em. injection Em as <-. apply NoDup_app in A2 as (_ & Hd & _). apply orb_false_iff in Es as [Er Eb].
    apply (take_keeps s 0 p0); try done; cbn.
    + intros x Hx. split; [done|]. rewrite Hst, decide_False; [done|]. intros Hw. by apply (Hd x Hw).
    + by rewrite app_nil_r.
    + intros x Hx. rewrite Hst, decide_True by done. eexists. split; [done|]. destruct bk; cbn; [done|]. split; [done|by apply Hval].
    + intros x. unfold truthful. cbn. rewrite Er, Eb. destruct x; [by intros [? _]|done|done].
    + intros Hb. apply Hval. by destruct bk.
    + intros j v Hn Hj. by destruct (Hset j v Hn).
Qed.

(** One waiter is woken: its link was read first. *)
Lemma wake_keeps s i p l b :
  fut_inv s → fth s !! i = Some (FWake p l b) → p ≠ 0 →
  fut_inv (mkFS (fs s) (wl s) (fut s) (prom s) (deleted s) (queued s) ((p, default FReady (w_status (fs s) !! p)) :: woken s)
      (<[i := FWake (next_of (w_next (fs s)) p) (tail l) b]> (fth s))).
Proof.
  intros [A1 A2 A3 A4 A5 A6 A7 A8 A9] Hi Hp. pose proof (A6 i _ Hi) as (Hc & Hb & Hst). destruct l as [|x l]; [done|]. destruct Hc as (-> & _ & Hc).
  pose proof (gather_change held (fth s) i _ (FWake (next_of (w_next (fs s)) x) l b) Hi) as Hg. cbn [held app] in Hg.
  assert (Hall : x :: (wl s ++ gather held (<[i := FWake (next_of (w_next (fs s)) x) l b]> (fth s))) ≡ₚ wl s ++ gather held (fth s)).
  { set (G := gather held (<[i := _]> (fth s))) in *. assert (HG : x :: G ≡ₚ gather held (fth s)).
    { apply (Permutation_app_inv_l l). rewrite <- Hg. apply Permutation_sym, Permutation_middle. }
    rewrite <- HG. apply Permutation_middle. }
  constructor; cbn [fs wl fut prom deleted queued woken fth tail]; try done.
  - assert (Hn2 : NoDup (x :: (wl s ++ gather held (<[i := FWake (next_of (w_next (fs s)) x) l b]> (fth s))))) by (eapply NoDup_perm; [by symmetry|exact A2]).
    by apply NoDup_cons in Hn2 as [_ ?].
  - rewrite A3. cbn [fst fmap list_fmap]. rewrite <- Hall. solve_Permutation.
  - intros j q [[<- <-]|[Hn Hj]]%lookup_insert_Some; [|by apply A6]. split_and!; [done|done|]. intros y Hy. apply Hst. set_solver.
  - intros w st [[= -> ->]|Hw]%elem_of_cons; [|by eapply A7]. destruct (Hst x ltac:(set_solver)) as (st' & -> & ?). done.
Qed.

(** A thread moves on holding what it held. *)
Lemma move_keeps s i p p' : fut_inv s → fth s !! i = Some p → held p' = held p → upc_ok s i p' →
  fut_inv (mkFS (fs s) (wl s) (fut s) (prom s) (deleted s) (queued s) (woken s) (<[i := p']> (fth s))).
Proof.
  intros [A1 A2 A3 A4 A5 A6 A7 A8 A9] Hi Hh Hok. pose proof (gather_move held (fth s) i p p' Hi Hh) as Hg.
  constructor; cbn; try done.
  - eapply NoDup_perm; [|exact A2]. by rewrite Hg.
  - by rewrite A3, Hg.
  - intros j q [[<- <-]|[Hn Hj]]%lookup_insert_Some; [by destruct p'|]. by apply (A6 j).
Qed.

(** A handle comes or goes. *)
Lemma refs_keeps s n pr ft d :
  fut_inv s → n = Z.b2z pr + ft → 0 ≤ ft → (d = true ↔ n = 0) → prom s = pr ∨ fth s !! 0%nat = Some FIdle →
  fut_inv (mkFS (with_refs n (fs s)) (wl s) ft pr d (queued s) (woken s) (fth s)).
Proof.
  intros [A1 A2 A3 A4 A5 A6 A7 A8 A9] Hn Hft Hd Hpc. constructor; cbn; try done.
  intros i p Hi. pose proof (A6 i p Hi) as Hok. destruct Hpc as [<-|E]; [by destruct p|]. destruct p as [|v|q l b|]; [done| | |].
  - destruct Hok as (-> & _). congruence.
  - destruct Hok as (H1 & H2 & H3). split_and!; [done| |done]. intros ->. destruct (H2 eq_refl) as [-> _]. congruence.
  - destruct Hok as [-> _]. congruence.
Qed.

Lemma fut_inv_step s s' : fut_inv s → fut_step s s' → fut_inv s'.
Proof.
  intros A Hs. pose proof (fi_refs _ A) as [R1 R2]. pose proof (fi_deleted _ A) as R3.
  destruct Hs as [i c w tok f' Hi Hf Hw0 Hw Hg Hr|i c w tok f' Hi Hf Hw Hg Hr|i c tok n p f' Hi Hf Hc|v Hi Hp Hs|v n p f' Hi Hp|n p f' Hi Hpr Hp
    |i p l b Hi Hp|i l b Hi|Hi|Hi Hp|Hf|Hf|w x Hw Hg].
  - by eapply queue_keeps.
  - by eapply nowait_keeps.
  - by eapply cancel_keeps.
  - by apply (move_keeps s 0 FIdle).
  - destruct (fi_pc _ A _ _ Hi) as (_ & Hpr & Hns).
    eapply (publish_keeps s (FSet v) n false false (with_outcome (ready_ (fs s)) (broken_ (fs s)) (Some v) (fs s))); try done. by right.
  - eapply (publish_keeps s FIdle n true true (fs s)); try done; [by destruct (fs s)|by left].
  - by apply wake_keeps.
  - destruct (fi_pc _ A _ _ Hi) as (Hc & Hb & _). destruct l as [|x l]; [|by destruct Hc as (<- & ? & _)].
    apply (move_keeps s i (FWake 0 [] b)); try done; [by destruct b|]. destruct b; [by apply Hb|done].
  - destruct (fi_pc _ A _ _ Hi) as [_ Hpr]. rewrite Hpr in R1. cbn in R1. unfold Release. cbn.
    pose proof (move_keeps s 0 FRel FIdle A Hi eq_refl I) as A'.
    apply (refs_keeps _ (refs_ (fs s) - 1) false (fut s) (deleted s || (refs_ (fs s) =? 1)) A'); cbn; try done; try lia.
    + rewrite orb_true_iff, R3, Z.eqb_eq. lia.
    + right. by rewrite lookup_insert_eq.
  - apply (refs_keeps s (refs_ (fs s) + 1) (prom s) (fut s + 1) (deleted s)); try done; try lia; [|by left].
    rewrite R3. rewrite Hp in *. cbn in R1. lia.
  - apply (refs_keeps s (refs_ (fs s) + 1) (prom s) (fut s + 1) (deleted s)); try done; try lia; [|by left].
    rewrite R3. destruct (prom s); cbn in *; lia.
  - unfold Release. cbn. apply (refs_keeps s (refs_ (fs s) - 1) (prom s) (fut s - 1) (deleted s || (refs_ (fs s) =? 1))); try done; try lia; [|by left].
    rewrite orb_true_iff, R3, Z.eqb_eq. destruct (prom s); cbn in *; lia.
  - by apply reuse_keeps.
Qed.

Lemma held_none (t : gmap nat upc) : (∀ i p, t !! i = Some p → p = FIdle) → gather held t = [].
Proof.
  intros Hp. apply gather_none. intros i p Hi. by rewrite (Hp i p Hi).
Qed.

Lemma fut_inv_init s : fut_init s → fut_inv s.
Proof.
  intros (E & Hp & _). pose proof (held_none _ Hp) as Hg.
  rewrite E. constructor; cbn; rewrite ?Hg; try done.
  - constructor.
  - intros i p Hi. by rewrite (Hp i p Hi).
  - intros w st Hw. by apply elem_of_nil in Hw.
Qed.

Lemma reachable_fut s : reachable fut_init fut_step s → fut_inv s.
Proof. apply reachable_ind; [apply fut_inv_init|apply fut_inv_step]. Qed.

(** C29: A future wakes every waiter exactly once, and tells it the truth.  In every
    interleaving of waits, cancellations, the promise being set or broken and handles coming
    and going, the waiters queued are those woken, those still linked and those in the
    hands of a thread about to wake them, each once; once the outcome is out nobody is
    linked any more, so none is left waiting; a waiter woken as ready finds the value, one
    woken as broken a broken promise.  The shared state is deleted exactly when the last
    handle has gone. *)
Theorem future_wakes_once s :
  reachable fut_init fut_step s →
  (queued s ≡ₚ (woken s).*1 ++ wl s ++ gather held (fth s)) ∧
  (ready_ (fs s) || broken_ (fs s) = true → wl s = []) ∧
  (ready_ (fs s) || broken_ (fs s) = true → (∀ i p, fth s !! i = Some p → p = FIdle) → queued s ≡ₚ (woken s).*1) ∧
  (∀ w st, (w, st) ∈ woken s → truthful (fs s) st) ∧
  (deleted s = true ↔ prom s = false ∧ fut s = 0).
Proof.
  intros Hr. pose proof (reachable_fut s Hr) as [A1 A2 A3 A4 A5 A6 A7 [R1 R2] A9]. split_and!; try done.
  - intros Hs Hp. rewrite A3, (A4 Hs). rewrite (held_none _ Hp). cbn. by rewrite app_nil_r.
  - rewrite A9, R1. destruct (prom s); cbn; lia.
Qed.

(** The loops end: with a step for every waiter linked, a cancellation and a publication
    return. *)
Theorem future_ops_return s c tok bk n :
  reachable fut_init fut_step s → (length (wl s) ≤ n)%nat →
  is_Some (CancelFutureWaiters n c tok (fs s)) ∧ is_Some (Publish n bk (fs s)).
Proof.
  intros Hr Hn. pose proof (reachable_fut s Hr) as [A1 A2 _ _ _ _ _ _ _]. apply NoDup_app in A2 as (Hnd & _ & _). split.
  - unfold CancelFutureWaiters.
    destruct (fut_unlink_ok n (cancel_test c tok (fs s)) 0 (waiters_ (fs s)) 0 (fs s) [] (wl s) []) as (tk' & f2 & E & _); [done|done|done|by rewrite app_nil_r|lia|].
    rewrite E. by eexists.
  - unfold Publish. destruct (ready_ (fs s) || broken_ (fs s)); [by eexists|].
    destruct (mark_all_ok n (waiters_ (fs s)) (if bk then FBroken else FReady) (w_next (fs s)) (w_status (fs s)) (wl s) A1 Hn) as (st' & -> & _). by eexists.
Qed.

(** ** A concrete run: a waiter queues, the promise is set, the waiter is woken *)

Definition start_fut : fsys := mkFS new_state [] 0 true false [] [] {[0%nat := FIdle; 1%nat := FIdle]}.

Lemma start_fut_init : fut_init start_fut.
Proof.
  split_and!; [done| |by eexists]. intros i p. cbn [fth start_fut]. intros [[_ <-]|[_ [_ <-]%lookup_singleton_Some]]%lookup_insert_Some; done.
Qed.

Definition after_set : fsys :=
  mkFS (mkFut 0 {[5 := 0]} {[5 := kNoToken]} {[5 := FReady]} true false (Some 42) 2) [] 1 true false [5] [(5, FReady)] {[0%nat := FWake 0 [] false; 1%nat := FIdle]}.

Lemma after_set_reachable : reachable fut_init fut_step after_set.
Proof.
  exists start_fut. split; [apply start_fut_init|].
  eapply rtc_l; [apply UGet; reflexivity|]; eval_state.
  eapply rtc_l; [eapply (UQueue _ 1 cancel_init 5 kNoToken); [reflexivity|reflexivity|discriminate|apply not_elem_of_nil|apply not_elem_of_nil|vm_compute; reflexivity]|]; eval_state.
  eapply rtc_l; [apply (USet _ 42); reflexivity|]; eval_state.
  eapply rtc_l; [eapply (UPublish _ 42 1); vm_compute; reflexivity|]; eval_state.
  eapply rtc_l; [eapply (UWake _ 0); [vm_compute; reflexivity|discriminate]|]; eval_state.
  vm_compute. apply rtc_refl.
Qed.

Lemma future_wakes_once_witness : truthful (fs after_set) FReady ∧ wl after_set = [].
Proof.
  destruct (future_wakes_once after_set after_set_reachable) as (_ & H2 & _ & H4 & _).
  split; [apply (H4 5); vm_compute; left|apply H2; reflexivity].
Defined.
