(* ===== verification/TaskLocals.v ===== *)
(** * Task-local slots and debts (src/TaskLocal.cpp, src/TaskScheduler.cpp)

    The slots a task may keep values in, with the deleters run at its death, and the debts
    a task leaves to be released after it: handed to a global stack that one pool task at a
    time drains.  The hand-over and the draining are a step relation, one atomic operation
    per step; the compare-exchange loop that pushes a list onto the stack is the step at
    which it succeeds. *)

From S2P Require Import Prelude TaskTypes.

(** ** Slots *)

Definition kNoTaskLocalSlot : Z := 0xFFFF.

(** [AllocTaskLocalSlot], on the counter [g_nextTaskLocalSlot]. *)
Definition AllocTaskLocalSlot (next : Z) : Z * Z :=
  (if kLocalSlots <=? next then kNoTaskLocalSlot else next, u16 (next + 1)).

(** What [k] calls in a row return. *)
Fixpoint alloc_many (k : nat) (next : Z) : list Z :=
  match k with O => [] | S k' => let '(s, n) := AllocTaskLocalSlot next in s :: alloc_many k' n end.

(** The locals of a record: no block until something is set. *)
Definition locals : Type := option (gmap Z Z).

Definition TaskLocalGet (l : locals) (slot : Z) : Z :=
  if kLocalSlots <=? slot then 0 else match l with Some b => default 0 (b !! slot) | None => 0 end.

Definition CurrentLocals (l : locals) : gmap Z Z := default ∅ l.
Definition TaskLocalSet (l : locals) (slot p : Z) : locals :=
  if kLocalSlots <=? slot then l else Some (<[slot := p]> (CurrentLocals l)).

(** The deleters, by slot; the mask is the set of slots that have one. *)
Record deleters := mkDel { g_slotDeleter : gmap Z Z; g_slotDeleterMask : Z }.

Definition SetTaskLocalDeleter (slot fn : Z) (d : deleters) : deleters :=
  if kLocalSlots <=? slot then d
  else mkDel (<[slot := fn]> (g_slotDeleter d))
         (if fn =? 0 then Z.land (g_slotDeleterMask d) (u32 (Z.lnot (Z.shiftl 1 slot))) else Z.lor (g_slotDeleterMask d) (Z.shiftl 1 slot)).

(** [ReleaseFiberSlots]: the slots left and the calls made, as (deleter, value). *)
Fixpoint release_slots (n : nat) (i : Z) (d : deleters) (b : gmap Z Z) : gmap Z Z * list (Z * Z) :=
  match n with
  | O => (b, [])
  | S n' =>
      let p := default 0 (b !! i) in
      let fn := default 0 (g_slotDeleter d !! i) in
      if negb (Z.testbit (g_slotDeleterMask d) i) || (p =? 0) || (fn =? 0) then release_slots n' (i + 1) d b
      else let '(b', l) := release_slots n' (i + 1) d (<[i := 0]> b) in (b', (fn, p) :: l)
  end.
Definition ReleaseFiberSlots (l : locals) (d : deleters) : locals * list (Z * Z) :=
  match l with
  | None => (None, [])
  | Some b => if g_slotDeleterMask d =? 0 then (l, []) else let '(b', cs) := release_slots (Z.to_nat kLocalSlots) 0 d b in (Some b', cs)
  end.

(** *** Their properties *)

(** A slot reads back what was set and the others are untouched. *)
Theorem local_roundtrip l s p s' :
  0 ≤ s < kLocalSlots → TaskLocalGet (TaskLocalSet l s p) s' = if decide (s' = s) then p else TaskLocalGet l s'.
Proof.
  intros Hs. unfold TaskLocalSet. rewrite (proj2 (Z.leb_gt kLocalSlots s)) by lia. unfold TaskLocalGet, CurrentLocals.
  destruct (decide (s' = s)) as [->|Hn].
  - rewrite (proj2 (Z.leb_gt kLocalSlots s)) by lia. by rewrite lookup_insert_eq.
  - destruct (kLocalSlots <=? s'); [done|]. rewrite lookup_insert_ne by done. destruct l; cbn; [done|by rewrite lookup_empty].
Qed.

(** The first eight calls hand out the eight slots; the next ones none; but the counter has
    sixteen bits, so after 65536 calls the slots are handed out a second time. *)
Theorem local_slots_wrap :
  take 8 (alloc_many 20 0) = [0; 1; 2; 3; 4; 5; 6; 7] ∧ alloc_many 20 0 !! 8%nat = Some kNoTaskLocalSlot ∧
  ∃ n, n = u16 (65535 + 1) ∧ AllocTaskLocalSlot 65535 = (kNoTaskLocalSlot, n) ∧ (AllocTaskLocalSlot n).1 = 0.
Proof. split_and!; [done|done|]. by exists 0. Qed.

(** ** Debts *)

(** A thread: outside; calling [QueueDebtRelease] (about to take the flag; having taken it,
    about to create and push the task); the pool task (about to take the stack; releasing
    what it took; about to clear the flag; about to look again). *)
Inductive dpc := DIdle | DQueue | DSubmit | DTake | DRun (l : list Z) | DClear | DCheck.

(** [handed], [released] and [refused] are ghosts: every debt handed over, every debt
    released (latest first), whether a submission was ever refused. *)
Record debts := mkD {
  g_pendingDebts : list Z; g_reclaimQueued : bool; handed : list Z; released : list Z; refused : bool; dth : gmap nat dpc }.

Inductive debt_step (s : debts) : debts → Prop :=
| DHandOff i l : dth s !! i = Some DIdle → l ≠ [] →
    debt_step s (mkD (l ++ g_pendingDebts s) (g_reclaimQueued s) (l ++ handed s) (released s) (refused s) (<[i := DQueue]> (dth s)))
| DBusy i : dth s !! i = Some DQueue → g_reclaimQueued s = true →
    debt_step s (mkD (g_pendingDebts s) true (handed s) (released s) (refused s) (<[i := DIdle]> (dth s)))
| DFlag i : dth s !! i = Some DQueue → g_reclaimQueued s = false →
    debt_step s (mkD (g_pendingDebts s) true (handed s) (released s) (refused s) (<[i := DSubmit]> (dth s)))
| DPushed i j : dth s !! i = Some DSubmit → dth s !! j = None →
    debt_step s (mkD (g_pendingDebts s) (g_reclaimQueued s) (handed s) (released s) (refused s) (<[j := DTake]> (<[i := DIdle]> (dth s))))
| DRefused i : dth s !! i = Some DSubmit →
    debt_step s (mkD (g_pendingDebts s) false (handed s) (released s) true (<[i := DIdle]> (dth s)))
| DTook i : dth s !! i = Some DTake →
    debt_step s (mkD [] (g_reclaimQueued s) (handed s) (released s) (refused s) (<[i := DRun (g_pendingDebts s)]> (dth s)))
| DOne i d l : dth s !! i = Some (DRun (d :: l)) →
    debt_step s (mkD (g_pendingDebts s) (g_reclaimQueued s) (handed s) (d :: released s) (refused s) (<[i := DRun l]> (dth s)))
| DAll i : dth s !! i = Some (DRun []) →
    debt_step s (mkD (g_pendingDebts s) (g_reclaimQueued s) (handed s) (released s) (refused s) (<[i := DClear]> (dth s)))
| DCleared i : dth s !! i = Some DClear →
    debt_step s (mkD (g_pendingDebts s) false (handed s) (released s) (refused s) (<[i := DCheck]> (dth s)))
| DChecked i : dth s !! i = Some DCheck →
    debt_step s (mkD (g_pendingDebts s) (g_reclaimQueued s) (handed s) (released s) (refused s)
      (<[i := if bool_decide (g_pendingDebts s = []) then DIdle else DQueue]> (dth s))).

Definition debt_init (s : debts) : Prop :=
  s = mkD [] false [] [] false (dth s) ∧ ∀ i p, dth s !! i = Some p → p = DIdle.

Definition releasing (p : dpc) : list Z := match p with DRun l => l | _ => [] end.
Definition owns_flag (p : dpc) : bool := match p with DSubmit | DTake | DRun _ | DClear => true | _ => false end.
Definition active (p : dpc) : bool := match p with DIdle => false | _ => true end.

Record debt_inv (s : debts) : Prop := {
  db_once : handed s ≡ₚ released s ++ g_pendingDebts s ++ gather releasing (dth s);
  db_flag : Z.b2z (g_reclaimQueued s) = num owns_flag (dth s);
  db_seen : g_pendingDebts s ≠ [] → refused s = true ∨ num active (dth s) ≠ 0 }.

(** The pool task is created. *)
Lemma debt_spawn s i j : debt_inv s → dth s !! i = Some DSubmit → dth s !! j = None →
  debt_inv (mkD (g_pendingDebts s) (g_reclaimQueued s) (handed s) (released s) (refused s) (<[j := DTake]> (<[i := DIdle]> (dth s)))).
Proof.
  intros [A1 A2 A3] Hi Hj. assert (Hn : <[i := DIdle]> (dth s) !! j = None) by (rewrite lookup_insert_ne; [done|congruence]).
  constructor; cbn.
  - rewrite A1. apply Permutation_app_head, Permutation_app_head. rewrite gather_insert, delete_id by done. cbn.
    symmetry. by apply (gather_move _ _ _ DSubmit).
  - rewrite A2, num_insert_new, (num_insert _ _ _ DSubmit) by done. cbn. lia.
  - intros _. right. rewrite num_insert_new by done. pose proof (num_nonneg active (<[i := DIdle]> (dth s))). cbn. lia.
Qed.

(** Any other step: thread [i] goes from [p] to [p'], the stack to [pd], the flag to [q]. *)
Lemma debt_move s i p p' pd q h r f :
  debt_inv s → dth s !! i = Some p →
  h ++ releasing p ++ released s ++ g_pendingDebts s ≡ₚ handed s ++ releasing p' ++ r ++ pd →
  Z.b2z q = Z.b2z (g_reclaimQueued s) - Z.b2z (owns_flag p) + Z.b2z (owns_flag p') →
  (pd ≠ [] → f = true ∨ active p' = true ∨ 0 < num owns_flag (<[i := p']> (dth s))) →
  debt_inv (mkD pd q h r f (<[i := p']> (dth s))).
Proof.
  intros [A1 A2 A3] Hi Hh Hq Hp. constructor; cbn.
  - apply (Permutation_app_inv_r (releasing p ++ released s ++ g_pendingDebts s)). rewrite Hh, A1.
    pose proof (gather_change releasing (dth s) i p p' Hi) as Hg. set (G := gather releasing (<[i := p']> (dth s))) in *.
    transitivity ((r ++ pd ++ released s ++ g_pendingDebts s) ++ (releasing p ++ G)); [rewrite Hg|]; solve_Permutation.
  - rewrite Hq, A2, (num_insert _ _ _ p) by done. lia.
  - intros Hne. destruct (Hp Hne) as [?|[Ha|Ho]]; [by left|right|right].
    + pose proof (num_pos active (<[i := p']> (dth s)) i p'). rewrite lookup_insert_eq in H. specialize (H eq_refl Ha). lia.
    + assert (num owns_flag (<[i := p']> (dth s)) ≤ num active (<[i := p']> (dth s))); [|lia]. apply num_le. by intros [].
Qed.

Lemma debt_inv_step s s' : debt_inv s → debt_step s s' → debt_inv s'.
Proof.
  intros A Hs. pose proof A as [A1 A2 A3]. destruct Hs as [i l Hi Hl|i Hi Hf|i Hi Hf|i j Hi Hj|i Hi|i Hi|i d l Hi|i Hi|i Hi|i Hi].
  - apply (debt_move s i DIdle DQueue); try done; [cbn; solve_Permutation|cbn; lia|]. intros _. by right; left.
  - apply (debt_move s i DQueue DIdle); try done; [rewrite Hf; cbn; lia|]. intros _. right. right. rewrite (num_insert _ _ _ DQueue), <- A2, Hf by done. cbn. lia.
  - apply (debt_move s i DQueue DSubmit); try done; [rewrite Hf; cbn; lia|]. intros _. by right; left.
  - by apply debt_spawn.
  - assert (Hq : g_reclaimQueued s = true).
    { pose proof (num_pos owns_flag (dth s) i DSubmit Hi eq_refl). rewrite <- A2 in H. by destruct (g_reclaimQueued s). }
    apply (debt_move s i DSubmit DIdle); try done; [rewrite Hq; cbn; lia|]. intros _. by left.
  - apply (debt_move s i DTake (DRun (g_pendingDebts s))); try done; [cbn; solve_Permutation|cbn; lia].
  - apply (debt_move s i (DRun (d :: l)) (DRun l)); try done; [cbn; solve_Permutation|cbn; lia|]. intros _. by right; left.
  - apply (debt_move s i (DRun []) DClear); try done; [cbn; lia|]. intros _. by right; left.
  - assert (Hq : g_reclaimQueued s = true).
    { pose proof (num_pos owns_flag (dth s) i DClear Hi eq_refl). rewrite <- A2 in H. by destruct (g_reclaimQueued s). }
    apply (debt_move s i DClear DCheck); try done; [rewrite Hq; cbn; lia|]. intros _. by right; left.
  - destruct (bool_decide (g_pendingDebts s = [])) eqn:Eb; [apply (debt_move s i DCheck DIdle)|apply (debt_move s i DCheck DQueue)]; try done; try (cbn; lia).
    intros Hne. by apply bool_decide_eq_true_1 in Eb.
Qed.

Lemma reachable_debt s : reachable debt_init debt_step s → debt_inv s.
Proof.
  apply reachable_ind; [|apply debt_inv_step]. intros s0 [E Hp]. rewrite E.
  assert (Hn : ∀ P, P DIdle = false → num P (dth s0) = 0) by (intros P HP; apply num_none; intros i p Hi; by rewrite (Hp i p Hi)).
  constructor; cbn; [|by rewrite Hn|done]. rewrite gather_none; [done|]. intros i p Hi. by rewrite (Hp i p Hi).
Qed.

(** A debt left by a task is released exactly once.  However deaths and release tasks
    interleave, every debt handed over has been released, waits on the stack or is in the
    hands of the task releasing it, once; at most one thread at a time holds the release
    flag; and when every thread is done, nothing is left on the stack unless a submission
    was refused. *)
Theorem debts_released_once s :
  reachable debt_init debt_step s →
  (handed s ≡ₚ released s ++ g_pendingDebts s ++ gather releasing (dth s)) ∧ (num owns_flag (dth s) ≤ 1) ∧
  ((∀ i p, dth s !! i = Some p → p = DIdle) → refused s = false → g_pendingDebts s = [] ∧ handed s ≡ₚ released s).
Proof.
  intros Hr. pose proof (reachable_debt s Hr) as [A1 A2 A3]. split_and!; [done|rewrite <- A2; by destruct (g_reclaimQueued s)|].
  intros Hp Hf. assert (Hpd : g_pendingDebts s = []).
  { destruct (g_pendingDebts s) as [|d l]; [done|]. destruct (A3 ltac:(done)) as [?|Ha]; [congruence|]. exfalso. apply Ha. apply num_none.
    intros i p Hi. by rewrite (Hp i p Hi). }
  split; [done|]. rewrite A1, Hpd, gather_none; [by rewrite app_nil_r|]. intros i p Hi. by rewrite (Hp i p Hi).
Qed.

(** ** A run: one debt handed over and released *)

Definition debt0 : debts := mkD [] false [] [] false {[0%nat := DIdle]}.
Definition debt1 : debts := mkD [] false [7] [7] false {[0%nat := DIdle; 1%nat := DIdle]}.

Lemma debt1_reachable : reachable debt_init debt_step debt1.
Proof.
  exists debt0. split; [split; [done|]; intros i p; cbn [dth debt0]; intros [_ <-]%lookup_singleton_Some; done|].
  eapply rtc_l; [eapply (DHandOff _ 0 [7]); [reflexivity|discriminate]|]; eval_state.
  eapply rtc_l; [eapply (DFlag _ 0); vm_compute; reflexivity|]; eval_state.
  eapply rtc_l; [eapply (DPushed _ 0 1); vm_compute; reflexivity|]; eval_state.
  eapply rtc_l; [eapply (DTook _ 1); vm_compute; reflexivity|]; eval_state.
  eapply rtc_l; [eapply (DOne _ 1 7 []); vm_compute; reflexivity|]; eval_state.
  eapply rtc_l; [eapply (DAll _ 1); vm_compute; reflexivity|]; eval_state.
  eapply rtc_l; [eapply (DCleared _ 1); vm_compute; reflexivity|]; eval_state.
  eapply rtc_l; [eapply (DChecked _ 1); vm_compute; reflexivity|]; eval_state.
  vm_compute. apply rtc_refl.
Qed.

Lemma debts_released_once_witness : num owns_flag (dth debt1) ≤ 1.
Proof. apply (debts_released_once debt1 debt1_reachable). Defined.
