(* ===== verification/FiberPool.v ===== *)
(** * The pool of fibers (include/FiberStackArena.h, src/GlobalFiberPool.cpp,
      include/ThreadLocalCache.h)

    Stacks are carved out of reserved arenas, fibers come in blocks of two classes, and
    every worker keeps a small cache in front of the shared pool.  What the operating system
    grants (a reservation, a commit) is an argument.  The shared queue of free fibers of a
    class is a list; how many fibers a bulk dequeue yields is an argument too, since the
    queue may yield fewer than it holds. *)

From S2P Require Import Prelude TaskTypes.

(** ** Stacks *)

Definition kStandardUsable : Z := 60 * 1024.
Definition kDeepUsable : Z := 508 * 1024.
Definition kMaxBlockBytes : Z := 64 * 1024 * 1024.

Definition kMinBlock (c : StackClass) : Z := match c with Standard => 64 | Deep => 8 end.
Definition UsableFor (c : StackClass) : Z := match c with Deep => kDeepUsable | Standard => kStandardUsable end.

(** An arena: its base and size, and how much of it was handed out. *)
Record Arena := mkArena { a_base : Z; a_total : Z; a_offset : Z }.

Section pool.
Context (pageSize : Z).

Definition RegionFor (c : StackClass) : Z := UsableFor c + pageSize.

(** Rounded up to whole pages. *)
Definition round_pages (x : Z) : Z := Z.land (x + pageSize - 1) (Z.lnot (pageSize - 1)).

(** [AllocateStack]; [commit] is whether the pages above the guard page could be committed. *)
Definition AllocateStack (raw : Z) (commit : bool) (a : Arena) : option Z * Arena :=
  let sz := round_pages raw in
  if sz <=? pageSize then (None, a)
  else
    let cur := a_offset a in
    let a' := mkArena (a_base a) (a_total a) (cur + sz) in
    if (a_total a <? cur) || (a_total a - cur <? sz) then (None, a')
    else if commit then (Some (a_base a + cur), a') else (None, a').

(** ** The shared pool *)

Record Fiber := mkFiber { poolIndex : Z; stackClass : StackClass; stackBase : Z; stackSize : Z }.

(** [made] is every fiber of every block (blocks are never freed while the pool lives). *)
Record Pool := mkPool {
  avail : StackClass → list Fiber; made : list Fiber; committedBytes : Z; classCount : StackClass → Z; size_ : Z;
  memoryLimit : Z; blockSize : StackClass → Z; nextIndex : Z }.

Definition upd {A} (c : StackClass) (x : A) (f : StackClass → A) : StackClass → A := λ d, if decide (d = c) then x else f d.

(** The loop of [AddBlock] that carves stacks until one is refused. *)
Fixpoint make_fibers (n : nat) (commit : nat → bool) (i : nat) (c : StackClass) (idx : Z) (a : Arena) : list Fiber :=
  match n with
  | O => []
  | S n' =>
      match AllocateStack (RegionFor c) (commit i) a with
      | (Some base, a') => mkFiber idx c base (RegionFor c) :: make_fibers n' commit (S i) c (idx + 1) a'
      | (None, _) => []
      end
  end.

(** [AddBlock]; [base] is the address of the reservation, if it and the other allocations
    succeeded. *)
Definition AddBlock (c : StackClass) (count : Z) (base : option Z) (commit : nat → bool) (p : Pool) : bool * Pool :=
  match base with
  | None => (false, p)
  | Some b =>
      let fs := make_fibers (Z.to_nat count) commit 0 c (nextIndex p) (mkArena b (count * RegionFor c) 0) in
      let m := Z.of_nat (length fs) in
      if m =? 0 then (false, p)
      else (true, mkPool (upd c (avail p c ++ fs) (avail p)) (fs ++ made p) (committedBytes p + m * RegionFor c)
                    (upd c (classCount p c + m) (classCount p)) (size_ p + m) (memoryLimit p) (blockSize p) (nextIndex p + m))
  end.

(** How many fibers [Grow] asks for: a block, less when the memory limit is near. *)
Definition grow_count (c : StackClass) (p : Pool) : Z :=
  let n := blockSize p c in
  if memoryLimit p =? 0 then n
  else
    let used := committedBytes p in
    let room := if used <? memoryLimit p then (memoryLimit p - used) / RegionFor c else 0 in
    Z.min n room.

(** [Grow]; [seen] is what [size_approx] answered. *)
Definition Grow (c : StackClass) (seen : Z) (base : option Z) (commit : nat → bool) (p : Pool) : bool * Pool :=
  if negb (seen =? 0) then (true, p)
  else
    let n := grow_count c p in
    if n =? 0 then (false, p) else AddBlock c n base commit p.

(** A bulk dequeue of at most [mx], which yields at most [k]. *)
Definition dequeue (c : StackClass) (mx k : nat) (p : Pool) : list Fiber * Pool :=
  let n := Nat.min mx k in
  (take n (avail p c), mkPool (upd c (drop n (avail p c)) (avail p)) (made p) (committedBytes p) (classCount p) (size_ p)
                         (memoryLimit p) (blockSize p) (nextIndex p)).

Definition StealInto (c : StackClass) (mx k1 k2 : nat) (seen : Z) (base : option Z) (commit : nat → bool) (p : Pool) : list Fiber * Pool :=
  if Nat.eqb mx 0 then ([], p)
  else
    let '(l, p) := dequeue c mx k1 p in
    match l with
    | [] => dequeue c mx k2 (Grow c seen base commit p).2
    | _ => (l, p)
    end.

Definition enqueue (c : StackClass) (l : list Fiber) (p : Pool) : Pool :=
  mkPool (upd c (avail p c ++ l) (avail p)) (made p) (committedBytes p) (classCount p) (size_ p) (memoryLimit p) (blockSize p) (nextIndex p).

(** The loop of [ReturnBatch]: the fibers are grouped by class, a full group of 64 is
    enqueued at once, the rest at the end. *)
Fixpoint return_loop (l : list Fiber) (g : StackClass → list Fiber) (p : Pool) : (StackClass → list Fiber) * Pool :=
  match l with
  | [] => (g, p)
  | f :: r =>
      let c := stackClass f in
      let g := upd c (g c ++ [f]) g in
      if Nat.eqb (length (g c)) 64 then return_loop r (upd c [] g) (enqueue c (g c) p) else return_loop r g p
  end.
Definition enqueue_rest (c : StackClass) (l : list Fiber) (p : Pool) : Pool := match l with [] => p | _ => enqueue c l p end.
Definition ReturnBatch (l : list Fiber) (p : Pool) : Pool :=
  let '(g, p) := return_loop l (λ _, []) p in
  enqueue_rest Deep (g Deep) (enqueue_rest Standard (g Standard) p).

(** The constructor: block sizes clamped, the initial fibers made. *)
Definition block_size (c : StackClass) (count : Z) : Z :=
  let maxBlock := Z.max (kMinBlock c) (kMaxBlockBytes / RegionFor c) in
  Z.min (Z.max count (kMinBlock c)) maxBlock.

Definition empty_pool (limit : Z) (n : StackClass → Z) : Pool :=
  mkPool (λ _, []) [] 0 (λ _, 0) 0 limit (λ c, block_size c (n c)) 0.

(** The initial fibers of a class; refused means the constructor throws. *)
Definition add_initial (c : StackClass) (count : Z) (base : option Z) (commit : nat → bool) (p : Pool) : option Pool :=
  if count =? 0 then Some p
  else match AddBlock c count base commit p with (true, p') => Some p' | (false, _) => None end.

Definition Create (n : StackClass → Z) (limit : Z) (base : StackClass → option Z) (commit : nat → bool) : option Pool :=
  p ← add_initial Standard (n Standard) (base Standard) commit (empty_pool limit n);
  add_initial Deep (n Deep) (base Deep) commit p.

(** ** A worker's cache *)

Record Cache := mkCache { localFibers : list Fiber; activeCapacity : nat; cls : StackClass }.

Definition Initialize (maxCapacity cap : nat) (c : StackClass) : Cache :=
  let a := if Nat.leb cap maxCapacity then cap else maxCapacity in mkCache [] (if Nat.ltb a 2 then 2 else a)%nat c.

(** [Push]: a full cache gives its upper half back. *)
Definition Push (f : Fiber) (c : Cache) (p : Pool) : Cache * Pool :=
  let n := length (localFibers c) in
  if Nat.leb (activeCapacity c) n then
    let half := (activeCapacity c / 2)%nat in
    (mkCache (take (n - half) (localFibers c) ++ [f]) (activeCapacity c) (cls c), ReturnBatch (drop (n - half) (localFibers c)) p)
  else (mkCache (localFibers c ++ [f]) (activeCapacity c) (cls c), p).

(** [Pop]: an empty cache takes a batch from the pool. *)
Definition Pop (c : Cache) (k1 k2 : nat) (seen : Z) (base : option Z) (commit : nat → bool) (p : Pool) : option Fiber * Cache * Pool :=
  let '(l, p) := match localFibers c with [] => StealInto (cls c) (activeCapacity c) k1 k2 seen base commit p | l => (l, p) end in
  match last l with
  | None => (None, mkCache l (activeCapacity c) (cls c), p)
  | Some f => (Some f, mkCache (take (length l - 1) l) (activeCapacity c) (cls c), p)
  end.

(** ** What holds of a pool *)

Definition apart (f g : Fiber) : Prop := stackBase f + stackSize f ≤ stackBase g ∨ stackBase g + stackSize g ≤ stackBase f.

(** Fibers are numbered apart and their stacks are apart; the counters say what was made. *)
Record pool_inv (p : Pool) : Prop := {
  pi_index f : f ∈ made p → 0 ≤ poolIndex f < nextIndex p;
  pi_nodup : NoDup (poolIndex <$> made p);
  pi_apart i j f g : made p !! i = Some f → made p !! j = Some g → i ≠ j → apart f g;
  pi_size : size_ p = Z.of_nat (length (made p));
  pi_class c : classCount p c = Z.of_nat (length (filter (λ f, stackClass f = c) (made p)));
  pi_bytes : committedBytes p = foldr (λ f z, stackSize f + z) 0 (made p);
  pi_region f : f ∈ made p → stackSize f = RegionFor (stackClass f);
  pi_block c : 0 ≤ blockSize p c;
  pi_next : 0 ≤ nextIndex p;
  pi_avail c f : f ∈ avail p c → stackClass f = c ∧ f ∈ made p }.

Definition free (p : Pool) : list Fiber := avail p Standard ++ avail p Deep.
End pool.

Section pool_proofs.
Context (k : Z).
Hypothesis Hk : 0 ≤ k.
Abbreviation ps := (2 ^ k).
Abbreviation region := (RegionFor ps).

Lemma ps_pos : 0 < ps.
Proof. apply Z.pow_pos_nonneg; lia. Qed.

Lemma region_pos c : ps < region c.
Proof. pose proof ps_pos. unfold RegionFor, UsableFor, kDeepUsable, kStandardUsable. destruct c; lia. Qed.

Lemma round_pages_eq x : round_pages ps x = (x + ps - 1) / ps * ps.
Proof.
  unfold round_pages. assert (ps - 1 = Z.ones k) as -> by (rewrite Z.ones_equiv; lia).
  rewrite <- Z.ldiff_land, Z.ldiff_ones_r by lia. by rewrite Z.shiftl_mul_pow2, Z.shiftr_div_pow2 by lia.
Qed.

Lemma round_pages_ge x : x ≤ round_pages ps x.
Proof. rewrite round_pages_eq. pose proof ps_pos. pose proof (Z.mod_pos_bound (x + ps - 1) ps ps_pos). pose proof (Z.div_mod (x + ps - 1) ps). lia. Qed.

(** Where the stacks of a block lie. *)
Lemma make_fibers_at n commit i c idx a j f :
  make_fibers ps n commit i c idx a !! j = Some f →
  f = mkFiber (idx + Z.of_nat j) c (a_base a + a_offset a + Z.of_nat j * round_pages ps (region c)) (region c) ∧
  (a_offset a + Z.of_nat j * round_pages ps (region c) + round_pages ps (region c) ≤ a_total a) ∧ (j < n)%nat.
Proof.
  revert i idx a j. induction n as [|n IH]; intros i idx a j; cbn [make_fibers]; [done|].
  unfold AllocateStack. destruct (_ <=? ps); [done|]. destruct ((a_total a <? a_offset a) || _) eqn:E; [done|]. destruct (commit i); [|done].
  apply orb_false_iff in E as [E1%Z.ltb_ge E2%Z.ltb_ge]. destruct j as [|j]; cbn [lookup list_lookup].
  - intros [= <-]. split_and!; [f_equal; lia|lia|lia].
  - intros H. apply IH in H as (-> & H2 & H3). cbn in *. split_and!; [f_equal; lia|lia|lia].
Qed.

Lemma make_fibers_length n commit i c idx a : (length (make_fibers ps n commit i c idx a) ≤ n)%nat.
Proof.
  destruct (make_fibers ps n commit i c idx a) as [|f l] eqn:E; [cbn; lia|]. rewrite <- E.
  destruct (lookup_lt_is_Some_2 (make_fibers ps n commit i c idx a) (length (make_fibers ps n commit i c idx a) - 1)) as [g Hg]; [rewrite E; cbn; lia|].
  apply make_fibers_at in Hg as (_ & _ & H). lia.
Qed.

(** The reservation of a new block overlaps no stack made so far. *)
Definition fresh_at (b len : Z) (p : Pool) : Prop := ∀ f, f ∈ made p → stackBase f + stackSize f ≤ b ∨ b + len ≤ stackBase f.

Lemma bytes_app l l' : foldr (λ f z, stackSize f + z) 0 (l ++ l') = foldr (λ f z, stackSize f + z) 0 l + foldr (λ f z, stackSize f + z) 0 l'.
Proof. induction l as [|f l IH]; cbn; [done|lia]. Qed.

Lemma bytes_const l s : (∀ f, f ∈ l → stackSize f = s) → foldr (λ f z, stackSize f + z) 0 l = Z.of_nat (length l) * s.
Proof. induction l as [|f l IH]; intros H; cbn [foldr length]; [done|]. rewrite (H f), IH by set_solver. lia. Qed.

Lemma filter_const (l : list Fiber) (c d : StackClass) : (∀ f, f ∈ l → stackClass f = c) →
  length (filter (λ f, stackClass f = d) l) = if decide (d = c) then length l else 0%nat.
Proof.
  intros H. induction l as [|f l IH]; [by destruct (decide _)|]. rewrite filter_cons, (H f) by set_solver. specialize (IH ltac:(set_solver)).
  destruct (decide (c = d)) as [->|Hn]; [rewrite decide_True in * by done; cbn; lia|]. rewrite decide_False in IH |- * by congruence. done.
Qed.

Lemma upd_eq {A} c (x : A) f : upd c x f c = x.
Proof. unfold upd. by rewrite decide_True. Qed.

Lemma upd_ne {A} c d (x : A) f : d ≠ c → upd c x f d = f d.
Proof. intros H. unfold upd. by rewrite decide_False. Qed.

(** What adding fibers at the front of a class queue does to the free ones. *)
Lemma free_upd c l p q : avail q = upd c l (avail p) → free q ++ avail p c ≡ₚ l ++ free p.
Proof. intros E. unfold free. rewrite E. destruct c; unfold upd; cbn; solve_Permutation. Qed.

Definition all_apart (l : list Fiber) : Prop := ∀ i j f g, l !! i = Some f → l !! j = Some g → i ≠ j → apart f g.

Lemma apart_app l l' : all_apart l → all_apart l' → (∀ f g, f ∈ l → g ∈ l' → apart f g) → all_apart (l ++ l').
Proof.
  intros A B C i j f g Hi Hj Hij. apply lookup_app_Some in Hi as [Hi|[Li Hi]], Hj as [Hj|[Lj Hj]].
  - by eapply A.
  - apply C; by eapply list_elem_of_lookup_2.
  - assert (apart g f) as []; [apply C; by eapply list_elem_of_lookup_2|by right|by left].
  - eapply B; [done..|lia].
Qed.

Lemma add_block_ok c count b commit p :
  pool_inv ps p → 0 ≤ count → fresh_at b (count * region c) p →
  let '(ok, p') := AddBlock ps c count (Some b) commit p in
  ∃ fs, pool_inv ps p' ∧ made p' = fs ++ made p ∧ (free p' ≡ₚ fs ++ free p) ∧
    (committedBytes p' ≤ committedBytes p + count * region c) ∧ (ok = false → p' = p) ∧ memoryLimit p' = memoryLimit p.
Proof.
  intros A Hc Hfr. unfold AddBlock. set (a := mkArena b _ 0). set (fs := make_fibers _ _ _ _ _ _ _). pose proof (region_pos c) as Hreg. pose proof ps_pos as Hps.
  destruct (Z.eqb_spec (Z.of_nat (length fs)) 0) as [E0|E0]; [exists []; split_and!; try done; nia|].
  pose proof A as [A1 A2 A3 A4 A5 A6 A7 A9 A10 A8].
  assert (Hat : ∀ j f, fs !! j = Some f → f = mkFiber (nextIndex p + Z.of_nat j) c (b + Z.of_nat j * round_pages ps (region c)) (region c) ∧
    (Z.of_nat j * round_pages ps (region c) + round_pages ps (region c) ≤ count * region c) ∧ (Z.of_nat j < count)).
  { intros j f Hj. apply make_fibers_at in Hj as (-> & H2 & H3). cbn in *. split_and!; [f_equal; lia|lia|lia]. }
  assert (Hin : ∀ f, f ∈ fs → stackClass f = c ∧ stackSize f = region c ∧ (nextIndex p ≤ poolIndex f < nextIndex p + Z.of_nat (length fs)) ∧
    (b ≤ stackBase f) ∧ (stackBase f + stackSize f ≤ b + count * region c)).
  { intros f (j & Hj)%list_elem_of_lookup. pose proof (lookup_lt_Some _ _ _ Hj). destruct (Hat j f Hj) as (-> & H2 & H3). cbn.
    pose proof (round_pages_ge (region c)). split_and!; try done; try lia. nia. }
  assert (Hlen : Z.of_nat (length fs) ≤ count) by (pose proof (make_fibers_length (Z.to_nat count) commit 0 c (nextIndex p) a); unfold fs; lia).
  exists fs. split_and!; cbn [made committedBytes nextIndex memoryLimit]; try done; try lia.
  { constructor; cbn.
    - intros f [Hf|Hf]%elem_of_app; [destruct (Hin f Hf) as (_ & _ & ? & _); lia|]. specialize (A1 f Hf). lia.
    - rewrite fmap_app. apply NoDup_app. split_and!; [|intros x (f & -> & Hf)%list_elem_of_fmap (g & E & Hg)%list_elem_of_fmap|done].
      + apply NoDup_fmap_2_strong; [|].
        * intros f g (i & Hi)%list_elem_of_lookup (j & Hj)%list_elem_of_lookup E. destruct (Hat i f Hi) as (-> & _). destruct (Hat j g Hj) as (-> & _). cbn in E. f_equal; lia || (assert (i = j) as -> by lia; done).
        * apply NoDup_alt. intros i j f Hi Hj. destruct (Hat i f Hi) as (-> & _). destruct (Hat j _ Hj) as (E & _). injection E as E. lia.
      + destruct (Hin f Hf) as (_ & _ & ? & _). specialize (A1 g Hg). lia.
    - apply apart_app; [|exact A3|].
      + intros i j f g Hi Hj Hij. destruct (Hat i f Hi) as (-> & _). destruct (Hat j g Hj) as (-> & _). unfold apart. cbn.
        pose proof (round_pages_ge (region c)). destruct (decide (i < j)%nat); [left|right]; nia.
      + intros f g Hf Hg. destruct (Hin f Hf) as (_ & _ & _ & ? & ?). unfold apart. destruct (Hfr g Hg); lia.
    - rewrite A4, length_app. lia.
    - intros d. rewrite filter_app, length_app, (filter_const fs c d) by (intros f Hf; by apply Hin). unfold upd. destruct (decide (d = c)) as [->|]; rewrite A5; lia.
    - rewrite bytes_app, (bytes_const fs (region c)), A6 by (intros f Hf; by apply Hin). lia.
    - intros f [Hf|Hf]%elem_of_app; [destruct (Hin f Hf) as (-> & -> & _); done|by apply A7].
    - exact A9.
    - lia.
    - intros d f Hf. unfold upd in Hf. destruct (decide (d = c)) as [->|]; [|destruct (A8 d f Hf); set_solver].
      apply elem_of_app in Hf as [Hf|Hf]; [destruct (A8 c f Hf); set_solver|]. split; [by apply Hin|set_solver]. }
  { pose proof (free_upd c (avail p c ++ fs) p (mkPool (upd c (avail p c ++ fs) (avail p)) (fs ++ made p) (committedBytes p + Z.of_nat (length fs) * region c)
      (upd c (classCount p c + Z.of_nat (length fs)) (classCount p)) (size_ p + Z.of_nat (length fs)) (memoryLimit p) (blockSize p) (nextIndex p + Z.of_nat (length fs))) eq_refl) as Hp.
    apply (Permutation_app_inv_r (avail p c)). rewrite Hp. solve_Permutation. }
  { nia. }
Qed.

(** What an operation of the pool did: fibers [fs] were made, and [got] taken from the free ones. *)
Record pool_did (p p' : Pool) (fs got : list Fiber) : Prop := {
  pd_inv : pool_inv ps p';
  pd_made : made p' = fs ++ made p;
  pd_free : got ++ free p' ≡ₚ fs ++ free p;
  pd_limit : memoryLimit p' = memoryLimit p;
  pd_room : memoryLimit p ≠ 0 → committedBytes p' ≤ Z.max (committedBytes p) (memoryLimit p) }.

(** What the reservation promises a growing pool. *)
Definition grow_fresh (c : StackClass) (base : option Z) (p : Pool) : Prop :=
  ∀ b, base = Some b → fresh_at b (grow_count ps c p * region c) p.

Lemma grow_ok c seen base commit p : pool_inv ps p → grow_fresh c base p →
  ∃ fs, pool_did p (Grow ps c seen base commit p).2 fs [].
Proof.
  intros A Hfr. unfold Grow. assert (Hid : ∃ fs, pool_did p p fs []) by (exists []; constructor; try done; lia).
  destruct (negb (seen =? 0)); [done|]. destruct (Z.eqb_spec (grow_count ps c p) 0) as [|Hn]; [done|].
  destruct base as [b|]; [|done]. pose proof (region_pos c) as Hreg. pose proof ps_pos as Hps. pose proof (pi_block _ _ A c) as Hb.
  assert (0 ≤ grow_count ps c p ∧ (memoryLimit p ≠ 0 → grow_count ps c p ≠ 0 → committedBytes p + grow_count ps c p * region c ≤ memoryLimit p)) as [H0 Hlim].
  { unfold grow_count. destruct (Z.eqb_spec (memoryLimit p) 0); [done|]. destruct (Z.ltb_spec (committedBytes p) (memoryLimit p)); [|lia].
    pose proof (Z.mul_div_le (memoryLimit p - committedBytes p) (region c)). pose proof (Z.div_pos (memoryLimit p - committedBytes p) (region c)). split; nia. }
  pose proof (add_block_ok c (grow_count ps c p) b commit p A H0 (Hfr b eq_refl)) as H.
  destruct (AddBlock _ _ _ _ _ _) as [ok p']. destruct H as (fs & H1 & H2 & H3 & H4 & H5 & H6). exists fs. constructor; try done. intros Hl. specialize (Hlim Hl Hn). cbn [snd]. lia.
Qed.

Lemma avail_upd_inv c l p : pool_inv ps p → (∀ f, f ∈ l → stackClass f = c ∧ f ∈ made p) →
  pool_inv ps (mkPool (upd c l (avail p)) (made p) (committedBytes p) (classCount p) (size_ p) (memoryLimit p) (blockSize p) (nextIndex p)).
Proof. intros [] H. constructor; cbn; try done. intros d f. unfold upd. destruct (decide (d = c)) as [->|]; [apply H|apply pi_avail0]. Qed.

Lemma dequeue_ok c mx m p : pool_inv ps p → pool_did p (dequeue c mx m p).2 [] (dequeue c mx m p).1 ∧ (length (dequeue c mx m p).1 ≤ mx)%nat ∧
  Forall (λ f, stackClass f = c) (dequeue c mx m p).1.
Proof.
  intros A. unfold dequeue. cbn -[free]. set (n := Nat.min mx m). split_and!; [|rewrite length_take; lia|].
  2:{ apply Forall_take, Forall_forall. intros f Hf. by apply (pi_avail _ _ A). }
  constructor; try done.
  - apply avail_upd_inv; [done|]. intros f Hf. apply (pi_avail _ _ A). by eapply subseteq_drop.
  - assert (Hp : ∀ l l' : list Fiber, take n l ++ (drop n l ++ l') ≡ₚ l ++ l') by (intros l l'; by rewrite app_assoc, take_drop).
    cbn [app]. destruct c; unfold free, upd; cbn; [apply Hp|].
    etrans; [|apply Permutation_app_comm]. etrans; [|apply (Hp (avail p Deep))]. solve_Permutation.
  - cbn. lia.
Qed.

Lemma pool_did_trans p q r fs gs got : pool_did p q fs [] → pool_did q r gs got → pool_did p r (gs ++ fs) got.
Proof.
  intros [A1 A2 A3 A4 A5] [B1 B2 B3 B4 B5]. constructor; try done; try congruence.
  - rewrite B2, A2. by rewrite app_assoc.
  - rewrite B3. cbn in A3. rewrite A3. by rewrite app_assoc.
  - intros H. specialize (A5 H). rewrite A4 in B5. specialize (B5 H). lia.
Qed.

Lemma dequeue_grow_count c d mx m p : grow_count ps d (dequeue c mx m p).2 = grow_count ps d p.
Proof. done. Qed.

Lemma steal_ok c mx k1 k2 seen base commit p : pool_inv ps p → grow_fresh c base p →
  let '(l, p') := StealInto ps c mx k1 k2 seen base commit p in (∃ fs, pool_did p p' fs l) ∧ (length l ≤ mx)%nat ∧ Forall (λ f, stackClass f = c) l.
Proof.
  intros A Hfr. unfold StealInto. destruct (Nat.eqb mx 0); [split_and!; [exists []; constructor; try done; lia|cbn; lia|done]|].
  destruct (dequeue_ok c mx k1 p A) as (D1 & D2 & D3). destruct (dequeue c mx k1 p) as [l p1] eqn:E. cbn [fst snd] in *. destruct l as [|f l]; [|by eauto].
  assert (p1 = (dequeue c mx k1 p).2) as Ep1 by (by rewrite E). destruct (grow_ok c seen base commit p1 (pd_inv _ _ _ _ D1)) as [fs G]; [by rewrite Ep1|].
  destruct (dequeue_ok c mx k2 (Grow ps c seen base commit p1).2 (pd_inv _ _ _ _ G)) as (F1 & F2 & F3).
  destruct (dequeue c mx k2 (Grow ps c seen base commit p1).2) as [l p'] eqn:E2. cbn [fst snd] in *. split; [|by split]. eexists.
  eapply pool_did_trans; [eapply pool_did_trans; [exact D1|exact G]|exact F1].
Qed.

(** Giving fibers back changes only the queues. *)
Record returned (p p' : Pool) (l : list Fiber) : Prop := {
  rt_inv : pool_inv ps p';
  rt_made : made p' = made p;
  rt_free : free p' ≡ₚ l ++ free p;
  rt_limit : memoryLimit p' = memoryLimit p;
  rt_bytes : committedBytes p' = committedBytes p }.

Lemma enqueue_ok c l p : pool_inv ps p → (∀ f, f ∈ l → stackClass f = c ∧ f ∈ made p) → returned p (enqueue c l p) l.
Proof.
  intros A H. constructor; try done.
  - apply avail_upd_inv; [done|]. intros f [Hf|Hf]%elem_of_app; [by apply (pi_avail _ _ A)|by apply H].
  - unfold enqueue, free, upd. destruct c; cbn; solve_Permutation.
Qed.

Lemma returned_trans p q r l l' : returned p q l → returned q r l' → returned p r (l' ++ l).
Proof. intros [A1 A2 A3 A4 A5] [B1 B2 B3 B4 B5]. constructor; try done; try congruence. rewrite B3, A3. by rewrite app_assoc. Qed.

Lemma returned_perm p q l l' : l ≡ₚ l' → returned p q l → returned p q l'.
Proof. intros H [A1 A2 A3 A4 A5]. constructor; try done. by rewrite <- H. Qed.

Lemma returned_nil p : pool_inv ps p → returned p p [].
Proof. by constructor. Qed.

(** The fibers of the groups being filled. *)
Definition grouped (g : StackClass → list Fiber) : list Fiber := g Standard ++ g Deep.
Definition groups_ok (g : StackClass → list Fiber) (p : Pool) : Prop := ∀ c, (length (g c) < 64)%nat ∧ ∀ f, f ∈ g c → stackClass f = c ∧ f ∈ made p.

Lemma grouped_upd c l g : grouped (upd c l g) ++ g c ≡ₚ l ++ grouped g.
Proof. unfold grouped, upd. destruct c; cbn; solve_Permutation. Qed.

Lemma return_loop_ok l g p : pool_inv ps p → groups_ok g p → (∀ f, f ∈ l → f ∈ made p) →
  let '(g', p') := return_loop l g p in ∃ r, returned p p' r ∧ groups_ok g' p' ∧ r ++ grouped g' ≡ₚ l ++ grouped g.
Proof.
  revert g p. induction l as [|f l IH]; intros g p A G H; cbn [return_loop]; [exists []; split_and!; [by apply returned_nil|done..]|].
  set (c := stackClass f). set (g1 := upd c (g c ++ [f]) g).
  assert (Hg1 : g1 c = g c ++ [f]) by apply upd_eq.
  assert (HG1 : ∀ x, x ∈ g1 c → stackClass x = c ∧ x ∈ made p) by (intros x; rewrite Hg1; intros [Hx|Hx]%elem_of_app; [by apply G|set_solver]).
  assert (HP : grouped g1 ≡ₚ f :: grouped g) by (apply (Permutation_app_inv_r (g c)); unfold g1; rewrite grouped_upd; solve_Permutation).
  destruct (Nat.eqb_spec (length (g1 c)) 64) as [E|E].
  - specialize (IH (upd c [] g1) (enqueue c (g1 c) p) ltac:(by apply enqueue_ok)).
    destruct (return_loop l _ _) as [g' p']. destruct IH as (r & R1 & R2 & R3).
    { intros d. unfold upd. destruct (decide (d = c)); [split; [cbn; lia|set_solver]|]. unfold g1. rewrite upd_ne by done. apply G. }
    { intros x Hx. apply H. set_solver. }
    exists (r ++ g1 c). split_and!; [eapply returned_trans; [by apply enqueue_ok|done]|done|].
    rewrite <- app_assoc, (Permutation_app_comm (g1 c)), app_assoc, R3, <- app_assoc, grouped_upd, HP. cbn. solve_Permutation.
  - specialize (IH g1 p A). destruct (return_loop l g1 p) as [g' p']. destruct IH as (r & R1 & R2 & R3).
    { intros d. destruct (decide (d = c)) as [->|Hd]; [|unfold g1; rewrite upd_ne by done; apply G]. split; [|exact HG1].
      rewrite Hg1, length_app in E |- *. destruct (G c) as [? _]. cbn in *. lia. }
    { intros x Hx. apply H. set_solver. }
    exists r. split_and!; [done..|]. rewrite R3, HP. cbn. solve_Permutation.
Qed.

Lemma enqueue_rest_ok c x p : pool_inv ps p → (∀ f, f ∈ x → stackClass f = c ∧ f ∈ made p) →
  returned p (enqueue_rest c x p) x.
Proof. intros A H. destruct x; [by apply returned_nil|by apply enqueue_ok]. Qed.

Lemma return_batch_ok l p : pool_inv ps p → (∀ f, f ∈ l → f ∈ made p) → returned p (ReturnBatch l p) l.
Proof.
  intros A H. unfold ReturnBatch. pose proof (return_loop_ok l (λ _, []) p A ltac:(intros c; split; [cbn; lia|set_solver]) H) as L.
  destruct (return_loop _ _ _) as [g q]. destruct L as (r & R1 & R2 & R3).
  pose proof (enqueue_rest_ok Standard (g Standard) q (rt_inv _ _ _ R1) ltac:(apply R2)) as E1.
  pose proof (enqueue_rest_ok Deep (g Deep) _ (rt_inv _ _ _ E1) ltac:(intros f Hf; rewrite (rt_made _ _ _ E1); by apply R2)) as E2.
  eapply returned_perm; [|exact (returned_trans _ _ _ _ _ R1 (returned_trans _ _ _ _ _ E1 E2))].
  cbn in R3. rewrite app_nil_r in R3. rewrite <- R3. unfold grouped. solve_Permutation.
Qed.

Lemma create_inv limit n : (∀ c, 0 ≤ n c) → pool_inv ps (empty_pool ps limit n).
Proof.
  intros Hn. constructor; cbn; try done; try set_solver; try lia; [apply NoDup_nil_2|]. intros c. unfold block_size.
  assert (0 ≤ kMinBlock c) by (destruct c; done). pose proof (Hn c). lia.
Qed.

(** The reservations of the constructor overlap nothing made before. *)
Definition create_fresh (n : StackClass → Z) (base : StackClass → option Z) : Prop :=
  ∀ b b', base Standard = Some b → base Deep = Some b' → b + n Standard * region Standard ≤ b' ∨ b' + n Deep * region Deep ≤ b.

Lemma add_initial_ok c count base commit p p' : pool_inv ps p → 0 ≤ count → made p ≡ₚ free p →
  (∀ b, base = Some b → fresh_at b (count * region c) p) → add_initial ps c count base commit p = Some p' →
  pool_inv ps p' ∧ made p' ≡ₚ free p' ∧ memoryLimit p' = memoryLimit p.
Proof.
  intros A Hc Hf Hfr. unfold add_initial. destruct (count =? 0); [by intros [= <-]|]. destruct base as [b|]; [|done].
  pose proof (add_block_ok c count b commit p A Hc (Hfr b eq_refl)) as H. destruct (AddBlock _ _ _ _ _ _) as [[] q]; intros [= <-].
  destruct H as (fs & H1 & H2 & H3 & _ & _ & H6). split_and!; [done| |done]. by rewrite H2, H3, Hf.
Qed.

(** A block's stacks lie inside its reservation. *)
Lemma add_block_inside c count b commit p f : 0 ≤ count → f ∈ made (AddBlock ps c count (Some b) commit p).2 →
  f ∈ made p ∨ b ≤ stackBase f ∧ stackBase f + stackSize f ≤ b + count * region c.
Proof.
  intros Hc. unfold AddBlock. set (fs := make_fibers _ _ _ _ _ _ _). destruct (_ =? 0); cbn; [auto|]. intros [Hf|Hf]%elem_of_app; [right|by left].
  apply list_elem_of_lookup in Hf as [j Hj]. apply make_fibers_at in Hj as (-> & H2 & H3). cbn in *. pose proof (round_pages_ge (region c)). pose proof (region_pos c). pose proof ps_pos. nia.
Qed.

Lemma create_ok n limit base commit p : (∀ c, 0 ≤ n c) → create_fresh n base → Create ps n limit base commit = Some p →
  pool_inv ps p ∧ made p ≡ₚ free p ∧ memoryLimit p = limit.
Proof.
  intros Hn Hfr. unfold Create. destruct (add_initial _ Standard _ _ _ _) as [q|] eqn:E; cbn [mbind option_bind]; [|done].
  pose proof (add_initial_ok Standard _ _ _ _ _ (create_inv limit n Hn) (Hn Standard) ltac:(done) ltac:(intros b _ f Hf; by apply elem_of_nil in Hf) E) as (A1 & A2 & A3).
  intros E2. pose proof (λ H, add_initial_ok Deep _ _ _ _ _ A1 (Hn Deep) A2 H E2) as B. destruct B as (? & ? & Hl); [|by rewrite Hl, A3].
  intros b' Hb' f Hf. unfold add_initial in E. destruct (_ =? 0); [injection E as <-; by apply elem_of_nil in Hf|]. destruct (base Standard) as [b|] eqn:Eb; [|done].
  pose proof (add_block_inside Standard (n Standard) b commit (empty_pool ps limit n) f (Hn Standard)) as I. destruct (AddBlock _ _ _ _ _ _) as [[] r]; [injection E as <-|done].
  destruct (I Hf) as [I'|I']; [by apply elem_of_nil in I'|]. specialize (Hfr b b' Eb Hb'). pose proof (region_pos Standard). pose proof (region_pos Deep). lia.
Qed.

(** ** The pool with its caches *)

Record Sys := mkSys { pool : Pool; caches : list Cache; out : list Fiber }.

Definition held (s : Sys) : list Fiber := free (pool s) ++ (caches s ≫= localFibers) ++ out s.

(** A worker takes a fiber for a task ([AcquireFiber], from the cache of the task's class), or
    gives back a fiber that no task needs any more ([ReleaseFiber]: into the cache of the
    fiber's class, or straight into the pool by main's helper). *)
Inductive sys_step : Sys → Sys → Prop :=
| st_pop s i c k1 k2 seen base commit r c' p' : caches s !! i = Some c → grow_fresh (cls c) base (pool s) →
    Pop ps c k1 k2 seen base commit (pool s) = (r, c', p') →
    sys_step s (mkSys p' (<[i:=c']> (caches s)) (option_list r ++ out s))
| st_return s f o1 o2 : out s = o1 ++ f :: o2 → sys_step s (mkSys (ReturnBatch [f] (pool s)) (caches s) (o1 ++ o2))
| st_push s i c f o1 o2 c' p' : caches s !! i = Some c → cls c = stackClass f → out s = o1 ++ f :: o2 → Push f c (pool s) = (c', p') →
    sys_step s (mkSys p' (<[i:=c']> (caches s)) (o1 ++ o2)).

Definition cache_ok (maxCapacity : nat) (c : Cache) : Prop := (length (localFibers c) ≤ activeCapacity c ≤ maxCapacity ∧ 2 ≤ activeCapacity c)%nat ∧ Forall (λ f, stackClass f = cls c) (localFibers c).

Record sys_inv (maxCapacity : nat) (bytes limit : Z) (s : Sys) : Prop := {
  si_pool : pool_inv ps (pool s);
  si_held : held s ≡ₚ made (pool s);
  si_cache c : c ∈ caches s → cache_ok maxCapacity c;
  si_limit : memoryLimit (pool s) = limit;
  si_bytes : limit ≠ 0 → committedBytes (pool s) ≤ Z.max bytes limit }.

Lemma caches_insert (l : list Cache) i c c' : l !! i = Some c →
  (<[i:=c']> l ≫= localFibers) ++ localFibers c ≡ₚ localFibers c' ++ (l ≫= localFibers).
Proof.
  intros H. rewrite <- (take_drop_middle l i c H) at 2. rewrite insert_take_drop by (by eapply lookup_lt_Some).
  rewrite !bind_app, !bind_cons. solve_Permutation.
Qed.

Lemma push_ok m f c p : pool_inv ps p → cache_ok m c → cls c = stackClass f → (∀ x, x ∈ localFibers c → x ∈ made p) →
  let '(c', p') := Push f c p in
  ∃ l, returned p p' l ∧ cache_ok m c' ∧ l ++ localFibers c' ≡ₚ f :: localFibers c.
Proof.
  intros A ([Hc1 Hc2] & Hc3) Hcl H. unfold Push. destruct (Nat.leb_spec (activeCapacity c) (length (localFibers c))) as [Hl|Hl].
  - set (d := (length (localFibers c) - activeCapacity c / 2)%nat). exists (drop d (localFibers c)). split_and!.
    + apply return_batch_ok; [done|]. intros x Hx. apply H. by eapply subseteq_drop.
    + split; cbn; [|apply Forall_app; split; [by apply Forall_take|by constructor]].
      rewrite length_app, length_take. cbn. pose proof (Nat.div_lt (activeCapacity c) 2). pose proof (Nat.div_le_lower_bound (activeCapacity c) 2 1). lia.
    + cbn. rewrite <- (take_drop d (localFibers c)) at 3. solve_Permutation.
  - exists []. split_and!; [by apply returned_nil| |cbn; solve_Permutation].
    split; cbn; [rewrite length_app; cbn; lia|]. apply Forall_app. split; [done|by constructor].
Qed.

Lemma pop_ok m c k1 k2 seen base commit p : pool_inv ps p → cache_ok m c → grow_fresh (cls c) base p →
  let '(r, c', p') := Pop ps c k1 k2 seen base commit p in
  ∃ fs got, pool_did p p' fs got ∧ cache_ok m c' ∧ option_list r ++ localFibers c' ≡ₚ got ++ localFibers c.
Proof.
  intros A ([Hc1 Hc2] & Hc3) Hfr. unfold Pop.
  assert (HS : let '(l, p') := match localFibers c with [] => StealInto ps (cls c) (activeCapacity c) k1 k2 seen base commit p | l => (l, p) end in
    ∃ fs got, pool_did p p' fs got ∧ (length l ≤ activeCapacity c)%nat ∧ l ≡ₚ got ++ localFibers c ∧ Forall (λ f, stackClass f = cls c) l).
  { destruct (localFibers c) as [|f l] eqn:E.
    - pose proof (steal_ok (cls c) (activeCapacity c) k1 k2 seen base commit p A Hfr) as S. destruct (StealInto _ _ _ _ _ _ _ _ _) as [l p'].
      destruct S as ([fs S1] & S2 & S3). exists fs, l. split_and!; [done..| |done]. by rewrite app_nil_r.
    - exists [], []. split_and!; [constructor; try done; lia|lia|done|done]. }
  destruct (match localFibers c with [] => _ | _ => _ end) as [l p']. destruct HS as (fs & got & D & Hl & Hp & Hcl).
  destruct l as [|f l _] using rev_ind; [exists fs, got; split_and!; [done| |done]; split; cbn; [lia|done]|]. rewrite last_snoc.
  exists fs, got. split_and!; [done| |].
  - split; cbn; [rewrite length_take, length_app in *; cbn in *; lia|by apply Forall_take].
  - cbn. rewrite length_app, Nat.add_sub, take_app_length by done. rewrite <- Hp. solve_Permutation.
Qed.

Lemma held_made m z lim s c i x : sys_inv m z lim s → caches s !! i = Some c → x ∈ localFibers c → x ∈ made (pool s).
Proof.
  intros I Hc Hx. rewrite <- (si_held _ _ _ _ I). unfold held. rewrite !elem_of_app, list_elem_of_bind. right. left. exists c. split; [done|].
  by eapply list_elem_of_lookup_2.
Qed.

Lemma cache_ok_insert m (l : list Cache) (i : nat) c' : (∀ c, c ∈ l → cache_ok m c) → cache_ok m c' → ∀ c, c ∈ <[i:=c']> l → cache_ok m c.
Proof.
  intros H H' c (j & Hj)%list_elem_of_lookup. destruct (decide (i = j)) as [->|].
  - destruct (decide (j < length l)%nat); [rewrite list_lookup_insert_eq in Hj by done; by injection Hj as <-|].
    rewrite list_insert_ge in Hj by lia. apply H. by eapply list_elem_of_lookup_2.
  - rewrite list_lookup_insert_ne in Hj by done. apply H. by eapply list_elem_of_lookup_2.
Qed.

Lemma sys_step_inv m z lim s s' : (m ≥ 2)%nat → sys_inv m z lim s → sys_step s s' → sys_inv m z lim s'.
Proof.
  intros Hm I St. pose proof I as [I1 I2 I3 Il I4].
  destruct St as [s i c k1 k2 seen base commit r c' p' Hc Hfr E|s f o1 o2 Ho|s i c f o1 o2 c' p' Hc Hcl Ho E].
  - pose proof (pop_ok m c k1 k2 seen base commit (pool s) I1 (I3 c ltac:(by eapply list_elem_of_lookup_2)) Hfr) as P.
    rewrite E in P. destruct P as (fs & got & D & C & HP). destruct D as [D1 D2 D3 D4 D5]. constructor; cbn; try done.
    + pose proof (caches_insert (caches s) i c c' Hc) as Hi. rewrite D2, <- I2. unfold held. cbn.
      apply (Permutation_app_inv_r (localFibers c)), (Permutation_app_inv_l got).
      transitivity ((got ++ free p') ++ ((<[i:=c']> (caches s) ≫= localFibers) ++ localFibers c) ++ option_list r ++ out s); [solve_Permutation|].
      rewrite D3, Hi. transitivity (fs ++ free (pool s) ++ (option_list r ++ localFibers c') ++ (caches s ≫= localFibers) ++ out s); [solve_Permutation|].
      rewrite HP. solve_Permutation.
    + apply cache_ok_insert; [apply I3|done].
    + by rewrite D4.
    + rewrite Il in D5. intros H. specialize (I4 H). specialize (D5 H). lia.
  - destruct (return_batch_ok [f] (pool s) I1) as [D1 D2 D3 D4 D5].
    { intros x ->%list_elem_of_singleton. rewrite <- I2. unfold held. rewrite Ho, !elem_of_app, elem_of_cons. tauto. }
    constructor; cbn [pool caches out]; [done| |done|by rewrite D4|by rewrite D5]. rewrite D2, <- I2. unfold held. cbn [pool caches out]. rewrite D3, Ho. solve_Permutation.
  - pose proof (push_ok m f c (pool s) I1 (I3 c ltac:(by eapply list_elem_of_lookup_2)) Hcl ltac:(intros x; by eapply held_made)) as P.
    rewrite E in P. destruct P as (l & D & C & HP). destruct D as [D1 D2 D3 D4 D5]. constructor; cbn; try done.
    + pose proof (caches_insert (caches s) i c c' Hc) as Hi. rewrite D2, <- I2. unfold held. cbn. rewrite D3, Ho.
      apply (Permutation_app_inv_r (localFibers c)).
      transitivity (l ++ free (pool s) ++ ((<[i:=c']> (caches s) ≫= localFibers) ++ localFibers c) ++ o1 ++ o2); [solve_Permutation|].
      rewrite Hi. transitivity ((l ++ localFibers c') ++ free (pool s) ++ (caches s ≫= localFibers) ++ o1 ++ o2); [solve_Permutation|].
      rewrite HP. solve_Permutation.
    + apply cache_ok_insert; [apply I3|done].
    + by rewrite D4.
    + by rewrite D5.
Qed.

(** A pool just made, with the workers' caches empty. *)
Definition sys_init (m : nat) (p : Pool) (caps : list (nat * StackClass)) : Sys :=
  mkSys p ((λ x, Initialize m x.1 x.2) <$> caps) [].

Lemma sys_init_inv m p caps : (m ≥ 2)%nat → pool_inv ps p → made p ≡ₚ free p → sys_inv m (committedBytes p) (memoryLimit p) (sys_init m p caps).
Proof.
  intros Hm A Hf. constructor; cbn; try done; [| |lia].
  - unfold held. cbn. rewrite app_nil_r, Hf. assert (((λ x, Initialize m x.1 x.2) <$> caps) ≫= localFibers = []) as ->; [|by rewrite app_nil_r].
    induction caps as [|x caps IH]; [done|]. by rewrite fmap_cons, bind_cons, IH.
  - intros c (x & -> & _)%list_elem_of_fmap. unfold cache_ok, Initialize. set (a := if Nat.leb x.1 m then x.1 else m).
    assert (a ≤ m)%nat by (unfold a; destruct (Nat.leb_spec x.1 m); lia). split; cbn [localFibers activeCapacity length]; [|by constructor]. destruct (Nat.ltb_spec a 2); lia.
Qed.
End pool_proofs.

(** C21: a fiber is never lost and never given out twice.  However the workers take fibers
    from their caches and give them back, with caches refilled from the shared pool, full
    caches returning half, and the pool growing when a class runs dry: the fibers free in the
    pool, those in the caches and those out with tasks are together exactly the fibers ever
    made, each once; the stacks of two fibers never overlap; no cache holds more than its
    capacity (so no array is overrun) nor a fiber of another stack class; the counters agree with what was made; and growing
    never takes the stack memory past the limit (or past what was made at the start). *)
Theorem fiber_pool_conserves k n limit base commit p m caps s :
  0 ≤ k → (2 ≤ m)%nat → (∀ c, 0 ≤ n c) → create_fresh k n base → Create (2 ^ k) n limit base commit = Some p →
  rtc (sys_step k) (sys_init m p caps) s →
  NoDup (held s) ∧ held s ≡ₚ made (pool s) ∧
  (∀ i j f g, made (pool s) !! i = Some f → made (pool s) !! j = Some g → i ≠ j → apart f g) ∧
  (∀ c, c ∈ caches s → (length (localFibers c) ≤ activeCapacity c ≤ m)%nat ∧ Forall (λ f, stackClass f = cls c) (localFibers c)) ∧
  size_ (pool s) = Z.of_nat (length (made (pool s))) ∧
  (limit ≠ 0 → committedBytes (pool s) ≤ Z.max (committedBytes p) limit).
Proof.
  intros Hk Hm Hn Hfr Hp Hs. destruct (create_ok k Hk n limit base commit p Hn Hfr Hp) as (A1 & A2 & A3).
  pose proof (sys_init_inv k Hk m p caps Hm A1 A2) as I0.
  rewrite A3 in I0. assert (sys_inv k m (committedBytes p) limit s) as [I1 I2 I3 Il I4].
  { clear Hp. induction Hs as [|x y z Hxy _ IH]; [done|]. apply IH. by eapply (sys_step_inv k Hk). }
  split_and!.
  - rewrite I2. by eapply NoDup_fmap_1, pi_nodup.
  - done.
  - apply (pi_apart _ _ I1).
  - intros c Hc. destruct (I3 c Hc) as ([? _] & ?). done.
  - apply (pi_size _ _ I1).
  - done.
Qed.

(** A pool made empty, with room for ten stacks: the first fiber taken makes it grow by ten,
    one of them comes back. *)
Definition demo_commit : nat → bool := λ _, true.
Definition demo_pool : Pool := empty_pool (2 ^ 12) 655360 (λ _, 0).
Definition demo_pop := Pop (2 ^ 12) (Initialize 256 4 Standard) 8 8 0 (Some 65536) demo_commit demo_pool.
Definition demo_push := Push (mkFiber 3 Standard 262144 65536) demo_pop.1.2 demo_pop.2.
Definition demo_state : Sys := mkSys demo_push.2 [demo_push.1] [].

Lemma triple_eq {A B C} (x : A * B * C) r : x.1.1 = r → x = (r, x.1.2, x.2).
Proof. destruct x as [[a b] c]. by intros <-. Qed.

Lemma demo_reached : rtc (sys_step 12) (sys_init 256 demo_pool [(4%nat, Standard)]) demo_state.
Proof.
  eapply rtc_l.
  - eapply (st_pop 12 _ 0 _ 8 8 0 (Some 65536) demo_commit (Some (mkFiber 3 Standard 262144 65536)) demo_pop.1.2 demo_pop.2); [reflexivity| |].
    + intros b _ f Hf. by apply elem_of_nil in Hf.
    + apply (triple_eq demo_pop). vm_compute. reflexivity.
  - eapply rtc_l; [|apply rtc_refl].
    exact (st_push 12 (mkSys demo_pop.2 [demo_pop.1.2] [mkFiber 3 Standard 262144 65536]) 0 demo_pop.1.2 (mkFiber 3 Standard 262144 65536)
             [] [] demo_push.1 demo_push.2 eq_refl eq_refl eq_refl (surjective_pairing demo_push)).
Qed.

Lemma fiber_pool_conserves_witness :
  NoDup (held demo_state) ∧ length (made (pool demo_state)) = 10%nat ∧ length (held demo_state) = 10%nat ∧ committedBytes (pool demo_state) = 655360.
Proof.
  split; [|vm_compute; done].
  apply (fiber_pool_conserves 12 (λ _, 0) 655360 (λ _, None) demo_commit demo_pool 256 [(4%nat, Standard)] demo_state).
  - lia.
  - lia.
  - intros _. lia.
  - intros b b' H. discriminate H.
  - reflexivity.
  - exact demo_reached.
Defined.

(** With pages of 4096 bytes or less every stack region is a whole number of pages and a
    block gets all the fibers asked for; with 16384-byte pages a region of 76 KB is rounded
    to 80 KB while the arena is sized for 76 KB each, so a block of 64 yields 60 fibers and a
    pool asked for a single fiber cannot be made at all. *)
Lemma large_pages_short :
  length (make_fibers (2 ^ 12) 64 demo_commit 0 Standard 0 (mkArena 0 (64 * RegionFor (2 ^ 12) Standard) 0)) = 64%nat ∧
  length (make_fibers (2 ^ 14) 64 demo_commit 0 Standard 0 (mkArena 0 (64 * RegionFor (2 ^ 14) Standard) 0)) = 60%nat ∧
  Create (2 ^ 14) (λ c, match c with Standard => 1 | Deep => 0 end) 0 (λ _, Some 65536) demo_commit = None.
Proof. vm_compute. done. Qed.
