(* ===== verification/IoBuffers.v ===== *)
(** * Buffer vectors of a request and the submission rings
      (src/posix/IoReactor.cpp, src/posix/IoUring.cpp, include/IoReactor.h)

    A request carries an array of [kMaxVectors] vectors of which the first [bufCount] are in
    use; after a short write the sent bytes are dropped from the front and the rest is sent
    again.  The rings shared with the kernel are indexed by wrapping 32-bit counters.  What
    the kernel does is an argument: how many submissions an enter took, what it completed. *)

From S2P Require Import Prelude.
Local Open Scope sched_scope.

(** ** Vectors *)

Definition kMaxVectors : nat := 8.

(** An [iovec] (an [IoBuffer] has the same two fields): base and length. *)
Record iovec := mkIov { iov_base : Z; iov_len : Z }.
Definition no_iov : iovec := mkIov 0 0.

Definition at_ (v : list iovec) (i : nat) : iovec := default no_iov (v !! i).

(** [for (i = 0; i < count; ++i) v[i] = bufs[i]], [count - i] rounds left. *)
Fixpoint fill_loop (k : nat) (i : nat) (bufs : list iovec) (v : list iovec) : list iovec :=
  match k with O => v | S k' => fill_loop k' (S i) bufs (<[i := at_ bufs i]> v) end.

Definition FillBufs (bufs : list iovec) (count : nat) (v : list iovec) : option (list iovec) :=
  if Nat.eqb count 0 || Nat.ltb kMaxVectors count then None else Some (fill_loop count 0 bufs v).

(** The loop of [AdvanceBufs] from index [i] of [n], [k] rounds left: where it stopped, and
    the array. *)
Fixpoint advance_loop (k : nat) (i n : nat) (consumed : Z) (v : list iovec) : nat * list iovec :=
  match k with
  | O => (i, v)
  | S k' =>
      if Nat.ltb i n && (0 <? consumed) then
        let b := at_ v i in
        if iov_len b <=? consumed then advance_loop k' (S i) n (u32 (consumed - u32 (iov_len b))) v
        else (i, <[i := mkIov (iov_base b + consumed) (iov_len b - consumed)]> v)
      else (i, v)
  end.

(** [for (k = 0; k < left; ++k) v[k] = v[i + k]]. *)
Fixpoint shift_loop (m : nat) (k i : nat) (v : list iovec) : list iovec :=
  match m with O => v | S m' => shift_loop m' (S k) i (<[k := at_ v (i + k)]> v) end.

(** [AdvanceBufs]: the new count, and the array. *)
Definition AdvanceBufs (n : nat) (consumed : Z) (v : list iovec) : nat * list iovec :=
  let '(i, v) := advance_loop n 0 n consumed v in
  if Nat.eqb i 0 then (n, v) else ((n - i)%nat, shift_loop (n - i) 0 i v).

Fixpoint total (l : list iovec) : Z := match l with [] => 0 | b :: r => iov_len b + total r end.
Definition BufsRemaining (n : nat) (v : list iovec) : Z := u64 (total (take n v)).

(** ** The rings *)

(** [Submit] stores the tail before it enters the kernel; [took] is what the kernel did,
    an error or a number of submissions. *)
Record Ring (E : Type) := mkRing { sq : Z → E; sqHead : Z; sqTail : Z; cq : Z → E; cqHead : Z; cqTail : Z; entries : Z; sqMask : Z; cqMask : Z }.
Arguments mkRing {E}. Arguments sq {E}. Arguments sqHead {E}. Arguments sqTail {E}. Arguments cq {E}. Arguments cqHead {E}.
Arguments cqTail {E}. Arguments entries {E}. Arguments sqMask {E}. Arguments cqMask {E}.

Section ring.
Context {E : Type}.

(** [GetSqe]: the slot to fill, if there is room. *)
Definition GetSqe (r : Ring E) : option Z :=
  if entries r <=? u32 (sqTail r - sqHead r) then None else Some (Z.land (sqTail r) (sqMask r)).

Definition put_sqe (i : Z) (e : E) (r : Ring E) : Ring E :=
  mkRing (λ k, if k =? i then e else sq r k) (sqHead r) (sqTail r) (cq r) (cqHead r) (cqTail r) (entries r) (sqMask r) (cqMask r).

(** The kernel's part of an enter that submits at most [n]: it takes entries from the head. *)
Fixpoint kernel_take (n : nat) (r : Ring E) : list E * Ring E :=
  match n with
  | O => ([], r)
  | S n' =>
      if sqHead r =? sqTail r then ([], r)
      else
        let e := sq r (Z.land (sqHead r) (sqMask r)) in
        let '(l, r') := kernel_take n' (mkRing (sq r) (u32 (sqHead r + 1)) (sqTail r) (cq r) (cqHead r) (cqTail r) (entries r) (sqMask r) (cqMask r)) in
        (e :: l, r')
  end.

(** [Submit]: [None] for the kernel when the enter fails. *)
Definition Submit (fails : bool) (r : Ring E) : option (list E) * Ring E :=
  let r := mkRing (sq r) (sqHead r) (u32 (sqTail r + 1)) (cq r) (cqHead r) (cqTail r) (entries r) (sqMask r) (cqMask r) in
  if fails then (None, r) else let '(l, r) := kernel_take 1 r in (Some l, r).

(** [Reap]: at most [mx] completions, oldest first. *)
Definition Reap (mx : Z) (r : Ring E) : list E * Ring E :=
  let n := u32 (cqTail r - cqHead r) in
  let n := if mx <? n then mx else n in
  let out := (λ i, cq r (Z.land (u32 (cqHead r + i)) (cqMask r))) <$> seqZ 0 n in
  (out, if n =? 0 then r else mkRing (sq r) (sqHead r) (sqTail r) (cq r) (u32 (cqHead r + n)) (cqTail r) (entries r) (sqMask r) (cqMask r)).

(** The kernel posts a completion. *)
Definition kernel_post (e : E) (r : Ring E) : Ring E :=
  mkRing (sq r) (sqHead r) (sqTail r) (λ k, if k =? Z.land (cqTail r) (cqMask r) then e else cq r k) (cqHead r) (u32 (cqTail r + 1)) (entries r) (sqMask r) (cqMask r).
End ring.

(** ** Vectors, as the bytes they name *)

Definition bytes (l : list iovec) : list Z := l ≫= λ b, seqZ (iov_base b) (iov_len b).
Definition lens_ok (l : list iovec) : Prop := ∀ b, b ∈ l → 0 ≤ iov_len b < 2 ^ 32.

Lemma lens_ok_insert l i b : lens_ok l → 0 ≤ iov_len b < 2 ^ 32 → lens_ok (<[i := b]> l).
Proof.
  intros H Hb x (j & Hj)%list_elem_of_lookup. apply list_lookup_insert_Some in Hj as [(-> & -> & _)|[_ Hj]]; [done|].
  apply H. by eapply list_elem_of_lookup_2.
Qed.

Lemma total_nonneg l : lens_ok l → 0 ≤ total l.
Proof. induction l as [|b l IH]; intros H; cbn; [done|]. pose proof (H b ltac:(set_solver)). specialize (IH ltac:(intros x Hx; apply H; set_solver)). lia. Qed.

Lemma bytes_length l : lens_ok l → Z.of_nat (length (bytes l)) = total l.
Proof.
  unfold bytes. induction l as [|b l IH]; intros H; [done|]. rewrite bind_cons, length_app, length_seqZ. cbn [total].
  pose proof (H b ltac:(set_solver)). specialize (IH ltac:(intros x Hx; apply H; set_solver)). lia.
Qed.

Lemma bytes_cons b l : bytes (b :: l) = seqZ (iov_base b) (iov_len b) ++ bytes l.
Proof. done. Qed.

Lemma at_lookup v i : (i < length v)%nat → v !! i = Some (at_ v i).
Proof. intros H. unfold at_. by destruct (lookup_lt_is_Some_2 v i H) as [b ->]. Qed.

Lemma drop_take_S {A} (v : list A) i n b : v !! i = Some b → (i < n)%nat → drop i (take n v) = b :: drop (S i) (take n v).
Proof. intros H Hn. apply drop_S. by rewrite lookup_take_lt. Qed.

Lemma lens_ok_part v i n : lens_ok v → lens_ok (drop i (take n v)).
Proof. intros H b Hb. apply H. by eapply subseteq_take, subseteq_drop. Qed.

(** The loop drops [consumed] bytes from the front of what is left. *)
Lemma advance_loop_ok k i n c v j v' :
  advance_loop k i n c v = (j, v') → (n ≤ length v)%nat → k = (n - i)%nat → lens_ok v → 0 ≤ c < 2 ^ 32 → c ≤ total (drop i (take n v)) →
  (i ≤ j)%nat ∧ (j ≤ Nat.max i n)%nat ∧ length v' = length v ∧ lens_ok v' ∧ bytes (drop j (take n v')) = drop (Z.to_nat c) (bytes (drop i (take n v))).
Proof.
  revert i c v. induction k as [|k IH]; intros i c v Hl Hn Hk Hv Hc Ht; cbn [advance_loop] in Hl.
  { injection Hl as <- <-. rewrite drop_ge in * by (rewrite length_take; lia). cbn in *. split_and!; try done; try lia. assert (c = 0) as -> by lia. done. }
  assert (Hi : (i < n)%nat) by lia. rewrite (proj2 (Nat.ltb_lt i n) Hi) in Hl. cbn [andb] in Hl.
  assert (Hb : v !! i = Some (at_ v i)) by (apply at_lookup; lia). pose proof (Hv (at_ v i) ltac:(by eapply list_elem_of_lookup_2)) as Hlen.
  destruct (Z.ltb_spec 0 c) as [H0|H0]; [|injection Hl as <- <-; assert (c = 0) as -> by lia; split_and!; try done; lia].
  set (b := at_ v i) in *. rewrite (drop_take_S v i n b Hb Hi) in Ht |- *. cbn [total] in Ht. rewrite bytes_cons.
  destruct (Z.leb_spec (iov_len b) c) as [Hle|Hgt].
  - apply IH in Hl; try done; try lia.
    + rewrite (u32_small (iov_len b)), u32_small in Hl by lia. destruct Hl as (A1 & A2 & A3 & A4 & A5). split_and!; try done; try lia. rewrite A5.
      rewrite drop_app_ge by (rewrite length_seqZ; lia). rewrite length_seqZ. f_equal. lia.
    + rewrite (u32_small (iov_len b)), u32_small by lia. lia.
    + rewrite (u32_small (iov_len b)), u32_small by lia. lia.
  - injection Hl as <- <-. split_and!; try lia; [by rewrite length_insert|apply lens_ok_insert; [done|cbn; lia]|].
    rewrite (drop_take_S _ i n (mkIov (iov_base b + c) (iov_len b - c))) by (try rewrite list_lookup_insert_eq; try done; lia).
    rewrite bytes_cons. cbn [iov_base iov_len]. 
    assert (seqZ (iov_base b) (iov_len b) = seqZ (iov_base b) c ++ seqZ (iov_base b + c) (iov_len b - c)) as -> by (rewrite <- seqZ_app by lia; f_equal; lia).
    rewrite <- app_assoc, drop_app_ge by (rewrite length_seqZ; lia). rewrite length_seqZ, Nat.sub_diag. cbn. f_equal.
    rewrite take_insert_lt by lia. rewrite drop_insert_lt by lia. done.
Qed.

Lemma shift_loop_lookup m k i v x : (0 < i)%nat → (i + k + m ≤ length v)%nat →
  shift_loop m k i v !! x = if decide (k ≤ x < k + m)%nat then v !! (i + x)%nat else v !! x.
Proof.
  revert k v. induction m as [|m IH]; intros k v Hi Hl; cbn [shift_loop]; [by rewrite decide_False by lia|].
  rewrite IH by (rewrite ?length_insert; lia). destruct (decide (S k ≤ x < S k + m)%nat) as [H|H].
  - rewrite decide_True by lia. apply list_lookup_insert_ne. lia.
  - destruct (decide (x = k)) as [->|Hx].
    + rewrite decide_True, list_lookup_insert_eq by lia. symmetry. apply at_lookup. lia.
    + rewrite decide_False by lia. by apply list_lookup_insert_ne.
Qed.

Lemma shift_loop_length m k i v : length (shift_loop m k i v) = length v.
Proof. revert k v. induction m as [|m IH]; intros k v; cbn; [done|]. by rewrite IH, length_insert. Qed.

Lemma shift_loop_take m i v : (0 < i)%nat → (i + m ≤ length v)%nat → take m (shift_loop m 0 i v) = drop i (take (i + m) v).
Proof.
  intros Hi Hl. rewrite <- take_drop_commute. apply list_eq. intros x. destruct (decide (x < m)%nat) as [Hx|Hx].
  - rewrite !lookup_take_lt, lookup_drop, shift_loop_lookup by lia. by rewrite decide_True by lia.
  - by rewrite !lookup_take_ge by lia.
Qed.

Lemma shift_loop_lens m k i v : lens_ok v → (i + k + m ≤ length v)%nat → lens_ok (shift_loop m k i v).
Proof.
  revert k v. induction m as [|m IH]; intros k v Hv Hl; cbn; [done|]. apply IH; [|rewrite length_insert; lia].
  apply lens_ok_insert; [done|]. apply Hv. eapply list_elem_of_lookup_2, at_lookup. lia.
Qed.

(** [AdvanceBufs] on the bytes named, the counts and the lengths. *)
Lemma advance_bufs_ok n consumed v :
  (n ≤ length v)%nat → lens_ok v → 0 ≤ consumed < 2 ^ 32 → consumed ≤ total (take n v) → total (take n v) < 2 ^ 64 →
  let '(n', v') := AdvanceBufs n consumed v in
  (n' ≤ n)%nat ∧ length v' = length v ∧ bytes (take n' v') = drop (Z.to_nat consumed) (bytes (take n v)) ∧
  lens_ok v' ∧ total (take n' v') = total (take n v) - consumed ∧ BufsRemaining n' v' = BufsRemaining n v - consumed.
Proof.
  intros Hn Hv Hc Ht H64. unfold AdvanceBufs. destruct (advance_loop n 0 n consumed v) as [j v1] eqn:E.
  pose proof (advance_loop_ok _ _ _ _ _ _ _ E Hn ltac:(lia) Hv Hc ltac:(by rewrite drop_0)) as (A1 & A2 & A3 & A4 & A5). rewrite drop_0 in A5.
  assert (HR : ∀ n' v', lens_ok (take n' v') → bytes (take n' v') = drop (Z.to_nat consumed) (bytes (take n v)) →
    total (take n' v') = total (take n v) - consumed ∧ BufsRemaining n' v' = BufsRemaining n v - consumed).
  { intros n' v' Hl Hb. unfold BufsRemaining. pose proof (bytes_length _ Hl) as L1. pose proof (bytes_length (take n v) (λ b Hb, Hv b (subseteq_take _ _ _ Hb))) as L2.
    rewrite Hb, length_drop in L1. assert (total (take n' v') = total (take n v) - consumed) as -> by lia. rewrite !u64_small by lia. done. }
  destruct (Nat.eqb_spec j 0) as [->|Hj].
  - rewrite drop_0 in A5. destruct (HR n v1) as [R1 R2]; [intros b Hb; apply A4; by eapply subseteq_take|done|]. split_and!; done || lia.
  - assert (Et : take (n - j) (shift_loop (n - j) 0 j v1) = drop j (take n v1)) by (rewrite shift_loop_take by lia; do 2 f_equal; lia).
    destruct (HR (n - j)%nat (shift_loop (n - j) 0 j v1)) as [R1 R2]; [rewrite Et; by apply lens_ok_part|by rewrite Et|].
    split_and!; [lia|by rewrite shift_loop_length|by rewrite Et| |done..]. apply shift_loop_lens; [done|lia].
Qed.

(** after a short write of [consumed] bytes the request's vectors name exactly the
    bytes not yet sent, in order: [AdvanceBufs] leaves the bytes the vectors named before
    without the first [consumed], whatever mixture of whole, partly sent and empty vectors
    that takes, stays within the array, and the bytes remaining go down by what was sent. *)
Theorem advance_bufs_exact n consumed v :
  (n ≤ length v)%nat → lens_ok v → 0 ≤ consumed < 2 ^ 32 → consumed ≤ total (take n v) → total (take n v) < 2 ^ 64 →
  let '(n', v') := AdvanceBufs n consumed v in
  (n' ≤ n)%nat ∧ length v' = length v ∧
  bytes (take n' v') = drop (Z.to_nat consumed) (bytes (take n v)) ∧
  BufsRemaining n' v' = BufsRemaining n v - consumed.
Proof.
  intros Hn Hv Hc Ht H64. pose proof (advance_bufs_ok n consumed v Hn Hv Hc Ht H64) as H.
  destruct (AdvanceBufs n consumed v) as [n' v']. destruct H as (H1 & H2 & H3 & _ & _ & H6). done.
Qed.

Lemma advance_bufs_exact_witness :
  bytes (take 2 [mkIov 20 1; mkIov 30 2; mkIov 30 2]) = [20; 30; 31] ∧
  let '(n', v') := AdvanceBufs 3 4 [mkIov 10 3; mkIov 19 2; mkIov 30 2] in
  bytes (take n' v') = drop 4 (bytes [mkIov 10 3; mkIov 19 2; mkIov 30 2]).
Proof.
  split; [reflexivity|].
  apply (advance_bufs_exact 3 4 [mkIov 10 3; mkIov 19 2; mkIov 30 2]).
  - cbn. lia.
  - intros b Hb. repeat (apply elem_of_cons in Hb as [->|Hb]; [cbn; lia|]). by apply elem_of_nil in Hb.
  - lia.
  - cbn. lia.
  - cbn. lia.
Defined.

(** ** The completion ring, as a queue *)

Section ring_proofs.
Context {E : Type} (k : Z).
Hypothesis Hk : 0 ≤ k < 32.

Lemma pow_range : 0 < 2 ^ k < 2 ^ 32.
Proof. split; [apply Z.pow_pos_nonneg; lia|apply Z.pow_lt_mono_r; lia]. Qed.

Lemma land_u32 x : Z.land (u32 x) (2 ^ k - 1) = x `mod` 2 ^ k.
Proof.
  rewrite land_mask by lia. unfold u32. apply Z.mod_mod_divide.
  exists (2 ^ (32 - k)). rewrite <- Z.pow_add_r by lia. f_equal. lia.
Qed.

(** The ring holds the completions [l], oldest first. *)
Record cq_holds (r : Ring E) (l : list E) : Prop := {
  ch_mask : cqMask r = 2 ^ k - 1;
  ch_tail : cqTail r = u32 (cqHead r + Z.of_nat (length l));
  ch_head : u32 (cqHead r) = cqHead r;
  ch_room : Z.of_nat (length l) ≤ 2 ^ k;
  ch_at i x : l !! i = Some x → cq r ((cqHead r + Z.of_nat i) `mod` 2 ^ k) = x }.

Lemma mod_ne a i j : 0 ≤ i < 2 ^ k → 0 ≤ j < 2 ^ k → i ≠ j → (a + i) `mod` 2 ^ k ≠ (a + j) `mod` 2 ^ k.
Proof.
  intros Hi Hj Hn H. pose proof pow_range. apply Hn. apply (f_equal (λ x, (x - a) `mod` 2 ^ k)) in H. rewrite !Zminus_mod_idemp_l in H.
  replace (a + i - a) with i in H by lia. replace (a + j - a) with j in H by lia. by rewrite !Z.mod_small in H.
Qed.

(** the completion ring is a queue, across the wrap of its 32-bit counters.  A completion
    the kernel posts goes to the end when there is room; [Reap] returns the oldest
    completions, in order, at most as many as asked for, and leaves exactly the others. *)
Theorem reap_refines_queue r l mx :
  cq_holds r l → 0 ≤ mx →
  (Reap mx r).1 = take (Z.to_nat mx) l ∧ cq_holds (Reap mx r).2 (drop (Z.to_nat mx) l) ∧
  (∀ e, Z.of_nat (length l) < 2 ^ k → cq_holds (kernel_post e r) (l ++ [e])).
Proof.
  intros [A1 A2 A3 A4 A5] Hm. pose proof pow_range as Hp. assert (Hn : u32 (cqTail r - cqHead r) = Z.of_nat (length l)).
  { rewrite A2. unfold u32. rewrite Zminus_mod_idemp_l. rewrite Z.mod_small by lia. lia. }
  unfold Reap. rewrite Hn. set (n := if mx <? Z.of_nat (length l) then mx else Z.of_nat (length l)).
  assert (Hn' : 0 ≤ n ∧ n ≤ Z.of_nat (length l) ∧ Z.to_nat n = Nat.min (Z.to_nat mx) (length l)) by (unfold n; destruct (Z.ltb_spec mx (Z.of_nat (length l))); lia).
  split_and!.
  - apply list_eq. intros i. cbn [fst]. rewrite list_lookup_fmap. destruct (decide (Z.of_nat i < n)) as [Hi|Hi].
    + rewrite lookup_seqZ_lt, lookup_take_lt by lia. cbn. destruct (lookup_lt_is_Some_2 l i) as [x Hx]; [lia|]. rewrite Hx, A1, land_u32. f_equal. by apply A5.
    + rewrite lookup_seqZ_ge by lia. cbn. symmetry. apply lookup_ge_None. rewrite length_take. lia.
  - cbn [snd]. assert (Ed : drop (Z.to_nat mx) l = drop (Z.to_nat n) l).
    { destruct (decide (Z.to_nat mx ≤ length l)%nat); [f_equal; lia|]. rewrite !drop_ge by lia. done. }
    rewrite Ed. destruct (Z.eqb_spec n 0) as [E0|E0]; [rewrite E0; by constructor|].
    constructor; cbn; [done| | | |].
    + rewrite A2, length_drop. unfold u32. rewrite Z.add_mod_idemp_l by lia. f_equal. lia.
    + unfold u32. by rewrite Z.mod_mod by lia.
    + rewrite length_drop. lia.
    + intros i x Hx. rewrite lookup_drop in Hx. apply A5 in Hx. rewrite <- Hx. f_equal. rewrite <- land_u32, <- (land_u32 (_ + Z.of_nat (_ + _))).
      f_equal. unfold u32. rewrite Z.add_mod_idemp_l by lia. f_equal. lia.
  - intros e Hr. constructor; cbn; [done| |done| |].
    + rewrite A2, length_app. unfold u32. rewrite Z.add_mod_idemp_l by lia. f_equal. cbn. lia.
    + rewrite length_app. cbn. lia.
    + intros i x Hx. rewrite A1, A2, land_u32. apply lookup_app_Some in Hx as [Hx|[Hi Hx]].
      * pose proof (lookup_lt_Some _ _ _ Hx). rewrite (proj2 (Z.eqb_neq _ _)); [by apply A5|]. apply mod_ne; lia.
      * apply list_lookup_singleton_Some in Hx as [Hx <-]. assert (i = length l) as -> by lia. by rewrite Z.eqb_refl.
Qed.
End ring_proofs.

(** A ring of four whose counters are about to wrap. *)
Definition ring_near_wrap : Ring Z := mkRing (λ _, 0) 0 0 (λ i, 100 + i) (2 ^ 32 - 2) 1 4 3 3.

Lemma reap_refines_queue_witness : (Reap 2 ring_near_wrap).1 = take 2 [102; 103; 100] ∧ Z.to_nat 2 = 2%nat.
Proof.
  split; [|reflexivity]. apply (reap_refines_queue 2 ltac:(lia) ring_near_wrap [102; 103; 100] 2).
  - constructor; cbn; [done|done|done|lia|]. intros i x Hx. destruct i as [|[|[|i]]]; cbn in Hx; [injection Hx as <-; done..|discriminate Hx].
  - lia.
Defined.

(** ** The submission ring *)

(** With nothing left over, [Submit] gives the kernel the entry that was just filled in. *)
Lemma submit_own {E} (e : E) (r : Ring E) :
  sqHead r = sqTail r → u32 (sqTail r) = sqTail r → 0 < entries r →
  ∃ i, GetSqe r = Some i ∧ (Submit false (put_sqe i e r)).1 = Some [e] ∧
       sqHead (Submit false (put_sqe i e r)).2 = sqTail (Submit false (put_sqe i e r)).2.
Proof.
  intros H1 H2 H3. exists (Z.land (sqTail r) (sqMask r)). unfold GetSqe, Submit. rewrite H1, Z.sub_diag.
  rewrite (proj2 (Z.leb_gt _ _)) by (unfold u32; rewrite Z.mod_0_l; lia). split; [done|]. cbn. rewrite H1.
  assert (sqTail r <> u32 (sqTail r + 1)) as Hn.
  { rewrite <- H2 at 1. unfold u32. intros H. apply (f_equal (λ x, (x - sqTail r) `mod` 2 ^ 32)) in H. rewrite !Zminus_mod_idemp_l in H.
    replace (sqTail r - sqTail r) with 0 in H by lia. replace (sqTail r + 1 - sqTail r) with 1 in H by lia. by vm_compute in H. }
  rewrite (proj2 (Z.eqb_neq _ _) Hn). cbn. by rewrite Z.eqb_refl.
Qed.

(** An enter that fails leaves its entry in the ring, the tail already moved, while the
    caller reports the request failed and forgets it.  The next submission then makes the
    kernel start the forgotten request, and leaves its own for the one after. *)
Lemma submit_failed_stale {E} (a b : E) (r : Ring E) :
  sqHead r = 0 → sqTail r = 0 → sqMask r = 3 → entries r = 4 →
  GetSqe r = Some 0 ∧
  let r1 := (Submit true (put_sqe 0 a r)).2 in
  GetSqe r1 = Some 1 ∧ (Submit false (put_sqe 1 b r1)).1 = Some [a] ∧ sqHead (Submit false (put_sqe 1 b r1)).2 ≠ sqTail (Submit false (put_sqe 1 b r1)).2.
Proof. destruct r. cbn. intros -> -> -> ->. by vm_compute. Qed.
