(* ===== verification/IoRequests.v ===== *)
(** * Requests in flight (src/posix/IoReactor.cpp, include/IoReactor.h)

    A request that goes to the kernel is linked into one of sixteen shards, so that a
    cancellation can find it, submitted, and unlinked again when its completion is reaped;
    a send that went out only in part is submitted again with what is left.  Every request
    is an agent whose steps are the critical sections of [SubmitOp] and [Complete], run by
    whatever thread submits or completes it; all requests interleave.  What the kernel
    answers, and whether the token is cancelled or the reactor stopping at a given moment,
    is left open.  [ring_step] puts the submission ring under the requests: which entries have
    been published and which the kernel has taken up, with an enter that may fail after its
    entry was published. *)

From S2P Require Import Prelude WaitLists SyncCore IoBuffers.
Local Open Scope sched_scope.

(** ** The shards *)

Definition kShards : Z := 16.
Record Reg := mkReg { shardHead : Z → Z; lnext : gmap Z Z; lprev : gmap Z Z; g_ioOutstanding : Z }.

Definition ShardFor (a : Z) : Z := Z.land (Z.shiftr (u64 (Z.shiftr a 4 * 0x9E3779B97F4A7C15)) 60) (kShards - 1).

Definition set_head (k h : Z) (f : Z → Z) : Z → Z := λ j, if j =? k then h else f j.

Definition Link (a : Z) (g : Reg) : Reg :=
  let k := ShardFor a in
  let h := shardHead g k in
  let pv := <[a := 0]> (lprev g) in
  mkReg (set_head k a (shardHead g)) (<[a := h]> (lnext g)) (if h =? 0 then pv else <[h := a]> pv) (g_ioOutstanding g ⊕ 1).

Definition UnlinkLocked (a : Z) (g : Reg) : Reg :=
  let k := ShardFor a in
  let p := next_of (lprev g) a in
  let n := next_of (lnext g) a in
  let nx := if p =? 0 then lnext g else <[p := n]> (lnext g) in
  let hd := if p =? 0 then (if shardHead g k =? a then set_head k n (shardHead g) else shardHead g) else shardHead g in
  let pv := if n =? 0 then lprev g else <[n := p]> (lprev g) in
  mkReg hd (<[a := 0]> nx) (<[a := 0]> pv) (g_ioOutstanding g ⊖ 1).

(** [RequestCancel] on one shard: at most 64 requests within the token are collected. *)
Fixpoint collect (fuel room : nat) (within : Z → bool) (r : Z) (nx : gmap Z Z) : list Z :=
  match fuel with
  | O => []
  | S fuel' =>
      if (r =? 0) || Nat.eqb room 0 then []
      else if within r then r :: collect fuel' (pred room) within (next_of nx r) nx
      else collect fuel' room within (next_of nx r) nx
  end.

(** ** Requests *)

Inductive IoStatus := Pending | Completed | IoCancelled | Failed.
Record IoResult := mkIoResult { io_status : IoStatus; io_bytes : Z; io_error : Z }.
Inductive IoKind := Generic | Accept | Connect | Send | Recv.

(** [sent] and [orig] are not fields of the program: the bytes the kernel took so far, and
    all the bytes of the request; likewise [twice] below counts the requests unlinked twice. *)
Record IoRequest := mkReq {
  io_kind : IoKind; bufCount : nat; iov : list iovec; xferred : Z; aux : Z; io_out : bool; sent : list Z; orig : list Z }.

Definition ECANCELED : Z := 125.
Definition ENOSYS : Z := 38.
Definition ESHUTDOWN : Z := 108.
Definition EAGAIN : Z := 11.

(** The first part of [Complete]: what the kernel's number means.  An accepted socket goes
    to [aux]. *)
Definition result_of (k : IoKind) (res : Z) : IoResult :=
  if 0 <=? res then mkIoResult Completed (match k with Accept => 0 | _ => u32 res end) 0
  else if res =? - ECANCELED then mkIoResult IoCancelled 0 ECANCELED
  else mkIoResult Failed 0 (u32 (- res)).

Definition note_aux (res : Z) (q : IoRequest) : IoRequest :=
  match io_kind q with
  | Accept => if 0 <=? res then mkReq (io_kind q) (bufCount q) (iov q) (xferred q) res (io_out q) (sent q) (orig q) else q
  | _ => q
  end.

(** Was only part of a send taken? *)
Definition partial (q : IoRequest) (res : Z) : bool :=
  match io_kind q with
  | Send => Nat.ltb 0 (bufCount q) && (0 <? res) && (res <? BufsRemaining (bufCount q) (iov q))
  | _ => false
  end.

Definition took (q : IoRequest) (res : Z) : list Z := take (Z.to_nat res) (bytes (take (bufCount q) (iov q))).

(** What is left of a send that went out in part. *)
Definition advance_req (res : Z) (q : IoRequest) : IoRequest :=
  let '(n, v) := AdvanceBufs (bufCount q) res (iov q) in
  mkReq (io_kind q) n v (u32 (xferred q + res)) (aux q) (io_out q) (sent q ++ took q res) (orig q).

Definition final_result (q : IoRequest) (r : IoResult) : IoResult :=
  match io_status r, io_kind q with
  | Completed, Send => mkIoResult Completed (u32 (io_bytes r + xferred q)) (io_error r)
  | _, _ => r
  end.

(** ** One request among all *)

(** [re]: the submission is the one inside [Complete]; then [r] is what the part already
    sent amounts to. *)
Inductive rphase :=
| RIdle
| RCheck (re : option IoResult)                 (* at the top of [SubmitOp] *)
| RLink (re : option IoResult)                  (* about to link *)
| RRing (re : option IoResult)                  (* linked, about to submit to the ring *)
| RUndo (re : option IoResult) (e : IoResult)   (* refused by the ring: about to unlink *)
| RBack (re : option IoResult) (e : IoResult)   (* back from [SubmitOp], refused *)
| RFlight                                       (* with the kernel *)
| RCqe (res : Z)                                (* its completion was reaped *)
| RPart (res : Z)                               (* a short send: about to unlink *)
| RFin (l : bool) (r : IoResult)                (* about to unlink and publish; [l]: still linked *)
| RHook                                         (* published; the hook and the wake are left *)
| RWoken
| RReturned.                                    (* refused on the way in: the caller goes on *)

Record iostate := mkIO { reg : Reg; rq : gmap nat IoRequest; ph : gmap nat rphase; outs : gmap nat IoResult; wakes : list nat; rets : list nat; twice : Z }.

Definition r_move (i : nat) (p : rphase) (s : iostate) : iostate := mkIO (reg s) (rq s) (<[i := p]> (ph s)) (outs s) (wakes s) (rets s) (twice s).
Definition r_reg (g : Reg) (s : iostate) : iostate := mkIO g (rq s) (ph s) (outs s) (wakes s) (rets s) (twice s).
Definition r_req (i : nat) (q : IoRequest) (s : iostate) : iostate := mkIO (reg s) (<[i := q]> (rq s)) (ph s) (outs s) (wakes s) (rets s) (twice s).
Definition r_out (i : nat) (q : IoRequest) (r : IoResult) (s : iostate) : iostate :=
  mkIO (reg s) (rq s) (ph s) (if io_out q then <[i := r]> (outs s) else outs s) (wakes s) (rets s) (twice s).
Definition r_twice (d : Z) (s : iostate) : iostate := mkIO (reg s) (rq s) (ph s) (outs s) (wakes s) (rets s) (twice s + d).

(** The refusals of [SubmitOp] before it links. *)
Inductive refusal : IoResult → Prop :=
| ref_cancelled : refusal (mkIoResult IoCancelled 0 0)
| ref_no_ring : refusal (mkIoResult Failed 0 ENOSYS)
| ref_stopping : refusal (mkIoResult Failed 0 ESHUTDOWN).

(** What the kernel may answer to a send: no more than it was given. *)
Definition may_answer (q : IoRequest) (res : Z) : Prop :=
  - 2 ^ 31 ≤ res < 2 ^ 31 ∧ (io_kind q = Send → (0 < bufCount q)%nat → res ≤ total (take (bufCount q) (iov q))).

(** [SubmitOp]. *)
Inductive submit_step (i : nat) (s : iostate) : iostate → Prop :=
| i_start q : ph s !! i = Some RIdle → rq s !! i = Some q → submit_step i s (r_move i (RCheck None) s)
| i_refuse q re e : ph s !! i = Some (RCheck re) → rq s !! i = Some q → refusal e →
    submit_step i s (r_move i (RBack re e) (r_out i q e s))
| i_pass re : ph s !! i = Some (RCheck re) → submit_step i s (r_move i (RLink re) s)
| i_link re : ph s !! i = Some (RLink re) → submit_step i s (r_move i (RRing re) (r_reg (Link (addr i) (reg s)) s))
| i_submit re : ph s !! i = Some (RRing re) → submit_step i s (r_move i RFlight s)
| i_ring_refuse re e : ph s !! i = Some (RRing re) → io_status e = Failed → io_bytes e = 0 → submit_step i s (r_move i (RUndo re e) s)
| i_undo q re e : ph s !! i = Some (RUndo re e) → rq s !! i = Some q →
    submit_step i s (r_move i (RBack re e) (r_out i q e (r_reg (UnlinkLocked (addr i) (reg s)) s)))
| i_return e : ph s !! i = Some (RBack None e) →
    submit_step i s (mkIO (reg s) (rq s) (<[i := RReturned]> (ph s)) (outs s) (wakes s) (i :: rets s) (twice s)).

(** [Complete]. *)
Inductive complete_step (i : nat) (s : iostate) : iostate → Prop :=
| i_back q r e : ph s !! i = Some (RBack (Some r) e) → rq s !! i = Some q →
    complete_step i s (mkIO (reg s) (rq s) (<[i := RFin false (if io_out q then default r (outs s !! i) else r)]> (ph s)) (outs s) (wakes s) (rets s) (twice s))
| i_cqe q res : ph s !! i = Some RFlight → rq s !! i = Some q → may_answer q res →
    complete_step i s (r_move i (RCqe res) (r_req i (note_aux res q) s))
| i_short q res : ph s !! i = Some (RCqe res) → rq s !! i = Some q → partial q res = true →
    complete_step i s (r_move i (RPart res) s)
| i_whole q res : ph s !! i = Some (RCqe res) → rq s !! i = Some q → partial q res = false →
    complete_step i s (r_move i (RFin true (result_of (io_kind q) res))
      (r_req i (mkReq (io_kind q) (bufCount q) (iov q) (xferred q) (aux q) (io_out q) (sent q ++ took q res) (orig q)) s))
| i_part q res : ph s !! i = Some (RPart res) → rq s !! i = Some q →
    complete_step i s (r_move i (RCheck (Some (result_of (io_kind q) res))) (r_req i (advance_req res q) (r_reg (UnlinkLocked (addr i) (reg s)) s)))
| i_publish q l r : ph s !! i = Some (RFin l r) → rq s !! i = Some q →
    complete_step i s (r_twice (if l then 0 else 1) (r_move i RHook (r_out i q (final_result q r) (r_reg (UnlinkLocked (addr i) (reg s)) s))))
| i_wake : ph s !! i = Some RHook →
    complete_step i s (mkIO (reg s) (rq s) (<[i := RWoken]> (ph s)) (outs s) (i :: wakes s) (rets s) (twice s)).

Definition io_step (i : nat) (s s' : iostate) : Prop := submit_step i s s' ∨ complete_step i s s'.
Definition io_next (s s' : iostate) : Prop := ∃ i, io_step i s s'.

(** ** The ring under the requests *)

(** [pub]: the requests whose entries are in the submission ring, published and not taken up;
    [kern]: those the kernel has taken up and not completed. *)
Record rings := mkRings { io : iostate; pub : list nat; kern : list nat }.

(** The ring is not concerned. *)
Definition off_ring (p : rphase) : bool := match p with RRing _ | RFlight => false | _ => true end.

(** [uring::Submit] publishes the entry and then enters the kernel, which takes up the oldest
    entry of the ring.  If the enter fails, which it does only when [fails], the request is
    reported refused and its entry stays. *)
Inductive ring_step (fails : bool) (s : rings) : rings → Prop :=
| k_off i p s' : ph (io s) !! i = Some p → off_ring p = true → io_step i (io s) s' → ring_step fails s (mkRings s' (pub s) (kern s))
| k_full i re : ph (io s) !! i = Some (RRing re) →          (* no free entry *)
    ring_step fails s (mkRings (r_move i (RUndo re (mkIoResult Failed 0 EAGAIN)) (io s)) (pub s) (kern s))
| k_enter i re x l : ph (io s) !! i = Some (RRing re) → pub s ++ [i] = x :: l →
    ring_step fails s (mkRings (r_move i RFlight (io s)) l (x :: kern s))
| k_failed i re e : fails = true → ph (io s) !! i = Some (RRing re) → io_status e = Failed → io_bytes e = 0 →
    ring_step fails s (mkRings (r_move i (RUndo re e) (io s)) (pub s ++ [i]) (kern s))
| k_done i p q res k1 k2 : kern s = k1 ++ i :: k2 → ph (io s) !! i = Some p → p = RFlight ∨ p = RReturned →
    rq (io s) !! i = Some q → may_answer q res →
    ring_step fails s (mkRings (r_move i (RCqe res) (r_req i (note_aux res q) (io s))) (pub s) (k1 ++ k2)).

(** ** The shards hold what is linked *)

Record reg_ok (g : Reg) (P : Z → Prop) : Prop := {
  ro_list k : ∃ l, chain (lnext g) (shardHead g k) l ∧ dl (lprev g) 0 l ∧ ∀ x, x ∈ l ↔ P x ∧ ShardFor x = k;
  ro_free x : ¬ P x → next_of (lnext g) x = 0 ∧ next_of (lprev g) x = 0;
  ro_zero : ¬ P 0 }.

Lemma reg_ok_iff g P P' : (∀ x, P x ↔ P' x) → reg_ok g P → reg_ok g P'.
Proof.
  intros H [A B C]. constructor; [|intros x; rewrite <- H; apply B|by rewrite <- H].
  intros k. destruct (A k) as (l & H1 & H2 & H3). exists l. split_and!; [done..|]. intros x. by rewrite H3, H.
Qed.

Lemma reg_link_ok g P a : reg_ok g P → a ≠ 0 → ¬ P a → reg_ok (Link a g) (λ x, x = a ∨ P x).
Proof.
  intros [A B C] Ha0 Ha. constructor; [| |naive_solver].
  - intros k. destruct (A k) as (l & H1 & H2 & H3). destruct (A (ShardFor a)) as (l0 & K1 & K2 & K3).
    assert (Hal : a ∉ l) by (rewrite H3; naive_solver). unfold Link. cbn. unfold set_head.
    assert (Hh : ∀ x, x ∈ l → k ≠ ShardFor a → x ≠ shardHead g (ShardFor a)).
    { intros x Hx Hk ->. destruct l0 as [|y l0]; [cbn in K1; rewrite K1 in Hx; by apply H3 in Hx as [? _]|]. destruct K1 as (E & _). rewrite E in Hx.
      apply H3 in Hx as [_ Hx]. apply Hk. rewrite <- Hx. apply K3. set_solver. }
    destruct (Z.eqb_spec k (ShardFor a)) as [->|Hk].
    + exists (a :: l). split_and!.
      * split_and!; [done..|]. rewrite next_of_eq. by apply lseg_insert.
      * assert (shardHead g (ShardFor a) = 0 ↔ l = []) as Hn by (by eapply chain_nil_iff).
        destruct (Z.eqb_spec (shardHead g (ShardFor a)) 0) as [E|E].
        -- rewrite (proj1 Hn E) in *. split; [apply next_of_eq|done].
        -- destruct l as [|y l]; [naive_solver|]. destruct H1 as (E1 & Hy & H1). rewrite E1 in *. destruct H2 as [H2 H2'].
           assert (y ∉ l) by (intros Hy'; pose proof (chain_NoDup (lnext g) y (y :: l) ltac:(by split_and!)) as [? _]%NoDup_cons; done).
           split; [rewrite next_of_insert, decide_False by set_solver; apply next_of_eq|]. split; [apply next_of_eq|].
           eapply dl_ext; [|exact H2']. intros x Hx. rewrite !next_of_insert, !decide_False by set_solver. done.
      * intros x. rewrite elem_of_cons, H3. naive_solver.
    + exists l. split_and!.
      * by apply lseg_insert.
      * assert (Hd : dl (<[a := 0]> (lprev g)) 0 l) by (eapply dl_ext; [|exact H2]; intros x Hx; rewrite next_of_insert, decide_False by set_solver; done).
        destruct (_ =? 0); [done|]. eapply dl_ext; [|exact Hd]. intros x Hx. rewrite next_of_insert, decide_False; [done|]. intros E. by eapply Hh.
      * intros x. rewrite H3. naive_solver.
  - intros x Hx. assert (x ≠ a) by naive_solver. unfold Link. cbn. rewrite next_of_insert, decide_False by done. destruct (B x) as [-> E]; [naive_solver|]. split; [done|].
    destruct (Z.eqb_spec (shardHead g (ShardFor a)) 0) as [E0|E0]; [by rewrite next_of_insert, decide_False by done|].
    rewrite next_of_insert, decide_False; [by rewrite next_of_insert, decide_False by done|].
    intros Ex. apply Hx. right. destruct (A (ShardFor a)) as (l0 & K1 & K2 & K3). destruct l0 as [|y l0]; [cbn in K1; congruence|].
    destruct K1 as (E' & _). assert (x = y) as -> by congruence. apply K3. set_solver.
Qed.

(** A node dropped from a list with back links. *)
Lemma unlink_list nx pv h K x l :
  chain nx h (K ++ x :: l) → dl pv 0 (K ++ x :: l) →
  let p := next_of pv x in let n := next_of nx x in
  p = default 0 (last K) ∧ n = default 0 (head l) ∧ (p = 0 ↔ K = []) ∧ (h = x ↔ K = []) ∧
  chain (<[x := 0]> (if p =? 0 then nx else <[p := n]> nx)) (if p =? 0 then n else h) (K ++ l) ∧
  dl (<[x := 0]> (if n =? 0 then pv else <[n := p]> pv)) 0 (K ++ l).
Proof.
  intros Hc Hd. pose proof (chain_NoDup _ _ _ Hc) as Hnd. pose proof (wq_drop nx h (default 0 (last (K ++ x :: l))) K x l ltac:(by split)) as [[Hw _] Hl].
  pose proof Hd as [_ [Hp _]]%dl_app. assert (Hnz : ∀ y, y ∈ K ++ x :: l → y ≠ 0) by (intros y; apply (wq_nonzero nx h _ (K ++ x :: l) y ltac:(by split))).
  assert (Hn : next_of nx x = default 0 (head l)) by (destruct l; [done|]; by destruct Hl as (-> & _)).
  pose proof (dl_drop pv 0 K x l Hnd Hd ltac:(intros y Hy; apply Hnz; destruct l; [done|]; injection Hy as ->; set_solver)) as Hdd. cbv zeta in Hdd |- *. rewrite <- Hn in Hdd.
  apply NoDup_app in Hnd as (HndK & Hdis & [Hxl _]%NoDup_cons). assert (HxK : x ∉ K ++ l) by (intros [Hk|Hk]%elem_of_app; [apply (Hdis x Hk); set_solver|done]).
  rewrite Hp in *. split_and!; [done|done| | | |].
  - destruct (last K) as [z|] eqn:E; cbn; [|by apply last_None in E]. apply last_Some_elem_of in E as Ez. split; [intros ->; by destruct (Hnz 0 ltac:(set_solver))|intros ->; done].
  - destruct K as [|z K]; cbn in Hc; destruct Hc as (-> & _); [done|]. split; [intros ->; set_solver|done].
  - apply lseg_insert; [done|exact Hw].
  - eapply dl_ext; [|exact Hdd]. intros y Hy. rewrite next_of_insert, decide_False by set_solver. done.
Qed.

Lemma reg_unlink_ok g P a : reg_ok g P → P a → reg_ok (UnlinkLocked a g) (λ x, P x ∧ x ≠ a).
Proof.
  intros [A B C] Ha. destruct (A (ShardFor a)) as (l0 & K1 & K2 & K3). assert (Hin : a ∈ l0) by (by apply K3).
  apply list_elem_of_split in Hin as (l1 & l2 & ->). pose proof (chain_NoDup _ _ _ K1) as Hnd.
  destruct (unlink_list _ _ _ _ _ _ K1 K2) as (Hp & Hn & Hp0 & Hh & U1 & U2). cbv zeta in *.
  set (p := next_of (lprev g) a) in *. set (n := next_of (lnext g) a) in *.
  assert (Hpin : p ≠ 0 → P p ∧ ShardFor p = ShardFor a).
  { intros H. apply K3. rewrite Hp. destruct (last l1) as [z|] eqn:E; [|rewrite Hp in H; done]. apply last_Some_elem_of in E. cbn. set_solver. }
  assert (Hnin : n ≠ 0 → P n ∧ ShardFor n = ShardFor a).
  { intros H. apply K3. rewrite Hn. destruct l2 as [|z l2]; [rewrite Hn in H; done|]. cbn. set_solver. }
  assert (Hhd : (if p =? 0 then (if shardHead g (ShardFor a) =? a then set_head (ShardFor a) n (shardHead g) else shardHead g) else shardHead g)
    = if p =? 0 then set_head (ShardFor a) n (shardHead g) else shardHead g).
  { destruct (Z.eqb_spec p 0) as [E|]; [|done]. by rewrite (proj2 Hh (proj1 Hp0 E)), Z.eqb_refl. }
  constructor; [| |naive_solver].
  - intros k. unfold UnlinkLocked. cbn. fold p n. rewrite Hhd. destruct (decide (k = ShardFor a)) as [->|Hk].
    + exists (l1 ++ l2). split_and!; [|done|].
      * replace ((if p =? 0 then set_head (ShardFor a) n (shardHead g) else shardHead g) (ShardFor a)) with (if p =? 0 then n else shardHead g (ShardFor a)); [done|].
        destruct (p =? 0); [unfold set_head; by rewrite Z.eqb_refl|done].
      * apply NoDup_app in Hnd as (_ & Hdis & [Hal _]%NoDup_cons). intros x. split.
        -- intros Hx. assert (x ∈ l1 ++ a :: l2) as [HP Hs]%K3 by set_solver. split_and!; [done| |done]. intros ->.
           apply elem_of_app in Hx as [Hx|Hx]; [apply (Hdis a Hx); set_solver|done].
        -- intros [[HP Hxa] Hs]. assert (x ∈ l1 ++ a :: l2) by (by apply K3). set_solver.
    + destruct (A k) as (l & H1 & H2 & H3). exists l. split_and!.
      * replace ((if p =? 0 then set_head (ShardFor a) n (shardHead g) else shardHead g) k) with (shardHead g k).
        2:{ destruct (p =? 0); [unfold set_head; by rewrite (proj2 (Z.eqb_neq _ _) Hk)|done]. }
        apply lseg_insert; [rewrite H3; naive_solver|]. destruct (Z.eqb_spec p 0); [done|]. apply lseg_insert; [rewrite H3; naive_solver|done].
      * eapply dl_ext; [|exact H2]. intros x Hx. apply H3 in Hx as [_ Hx]. rewrite next_of_insert, decide_False by naive_solver.
        destruct (Z.eqb_spec n 0); [done|]. rewrite next_of_insert, decide_False by naive_solver. done.
      * intros x. rewrite H3. naive_solver.
  - intros x Hx. unfold UnlinkLocked. cbn. fold p n. rewrite !next_of_insert. destruct (decide (x = a)) as [->|Hxa]; [by rewrite !decide_True|].
    rewrite !decide_False by done. destruct (B x) as [E1 E2]; [naive_solver|]. split.
    + destruct (Z.eqb_spec p 0); [done|]. rewrite next_of_insert, decide_False by naive_solver. done.
    + destruct (Z.eqb_spec n 0); [done|]. rewrite next_of_insert, decide_False by naive_solver. done.
Qed.

(** Unlinking what is not linked changes only the counter. *)
Lemma unlink_again g P a : reg_ok g P → ¬ P a → a ≠ 0 → reg_ok (UnlinkLocked a g) P.
Proof.
  intros [A B C] Ha Ha0. destruct (B a Ha) as [E1 E2]. unfold UnlinkLocked. rewrite E1, E2. cbn.
  assert (Hh : shardHead g (ShardFor a) ≠ a).
  { intros H. destruct (A (ShardFor a)) as (l & H1 & _ & H3). rewrite H in H1. destruct l as [|y l]; [done|]. destruct H1 as (-> & _). apply Ha, H3. set_solver. }
  rewrite (proj2 (Z.eqb_neq _ _) Hh). constructor; cbn; [| |done].
  - intros k. destruct (A k) as (l & H1 & H2 & H3). exists l. assert (a ∉ l) by (rewrite H3; naive_solver). split_and!; [by apply lseg_insert| |done].
    eapply dl_ext; [|exact H2]. intros x Hx. rewrite next_of_insert, decide_False by set_solver. done.
  - intros x Hx. rewrite !next_of_insert. destruct (decide (x = a)) as [->|]; [by rewrite !decide_True|]. rewrite !decide_False by done. by apply B.
Qed.

(** ** What holds of all requests *)

Definition linked (p : rphase) : bool :=
  match p with RRing _ | RUndo _ _ | RFlight | RCqe _ | RPart _ | RFin true _ => true | _ => false end.
Definition at_linked (s : iostate) (x : Z) : Prop := ∃ i p, x = addr i ∧ ph s !! i = Some p ∧ linked p = true.

(** A send with bytes left to go. *)
Record live (q : IoRequest) : Prop := {
  lv_some : (0 < bufCount q)%nat;
  lv_room : (bufCount q ≤ length (iov q))%nat;
  lv_lens : lens_ok (iov q);
  lv_total : total (take (bufCount q) (iov q)) < 2 ^ 64;
  lv_bytes : sent q ++ bytes (take (bufCount q) (iov q)) = orig q;
  lv_xfer : xferred q = u32 (Z.of_nat (length (sent q))) }.

Definition answer_ok (q : IoRequest) (res : Z) : Prop := - 2 ^ 31 ≤ res < 2 ^ 31 ∧ res ≤ total (take (bufCount q) (iov q)).

(** A send in phase [p] whose result, if any was written, is [o]. *)
Definition send_inv (q : IoRequest) (p : rphase) (o : option IoResult) : Prop :=
  match p with
  | RCqe res => live q ∧ answer_ok q res
  | RPart res => live q ∧ answer_ok q res ∧ partial q res = true
  | RBack _ e => live q ∧ io_status e ≠ Completed ∧ (io_out q = true → o = Some e)
  | RUndo _ e => live q ∧ io_status e ≠ Completed
  | RFin true r => sent q `prefix_of` orig q ∧ (io_status r = Completed → u32 (io_bytes r + xferred q) = u32 (Z.of_nat (length (sent q))))
  | RFin false r => sent q `prefix_of` orig q ∧ (io_out q = true → io_status r ≠ Completed)
  | RHook | RWoken =>
      sent q `prefix_of` orig q ∧
      (io_out q = true → ∃ r, o = Some r ∧ (io_status r = Completed → io_bytes r = u32 (Z.of_nat (length (sent q)))))
  | RReturned => sent q `prefix_of` orig q
  | _ => live q
  end.

Record io_inv (s : iostate) : Prop := {
  iv_reg : reg_ok (reg s) (at_linked s);
  iv_count : g_ioOutstanding (reg s) = u64 (num linked (ph s) - twice s);
  iv_wakes : NoDup (wakes s);
  iv_woken i : i ∈ wakes s ↔ ph s !! i = Some RWoken;
  iv_rets : NoDup (rets s);
  iv_returned i : i ∈ rets s ↔ ph s !! i = Some RReturned;
  iv_send i q p : rq s !! i = Some q → ph s !! i = Some p → io_kind q = Send → send_inv q p (outs s !! i) }.

Lemma live_prefix q : live q → sent q `prefix_of` orig q.
Proof. intros H. exists (bytes (take (bufCount q) (iov q))). symmetry. apply H. Qed.

Lemma note_aux_send res q : io_kind q = Send → note_aux res q = q.
Proof. unfold note_aux. by intros ->. Qed.

Lemma note_aux_kind res q : io_kind (note_aux res q) = io_kind q.
Proof. unfold note_aux. repeat case_match; done. Qed.

Lemma took_length q res : live q → answer_ok q res → 0 ≤ res → Z.of_nat (length (took q res)) = res.
Proof.
  intros A [B1 B2] H. unfold took. rewrite length_take. pose proof (bytes_length (take (bufCount q) (iov q))
    ltac:(intros b Hb; apply (lv_lens _ A); by eapply subseteq_take)). lia.
Qed.

Lemma live_split q res : live q → ∃ rest, sent q ++ took q res ++ rest = orig q.
Proof. intros A. exists (drop (Z.to_nat res) (bytes (take (bufCount q) (iov q)))). unfold took. rewrite take_drop. apply A. Qed.

Lemma partial_bounds q res : partial q res = true → 0 < res ∧ res < u64 (total (take (bufCount q) (iov q))).
Proof. unfold partial, BufsRemaining. destruct (io_kind q); try done. intros [[_ H1]%andb_true_iff H2]%andb_true_iff. lia. Qed.

Lemma total_range q : live q → 0 ≤ total (take (bufCount q) (iov q)) < 2 ^ 64.
Proof. intros A. split; [|apply A]. apply total_nonneg. intros b Hb. apply (lv_lens _ A). by eapply subseteq_take. Qed.

(** A short send leaves the rest to be sent. *)
Lemma advance_live q res : live q → answer_ok q res → partial q res = true → live (advance_req res q).
Proof.
  intros A B Hp. pose proof (total_range q A) as Ht. pose proof (partial_bounds q res Hp) as [P1 P2]. rewrite u64_small in P2 by lia.
  pose proof (advance_bufs_ok (bufCount q) res (iov q) (lv_room _ A) (lv_lens _ A) ltac:(destruct B; lia) ltac:(lia) ltac:(lia)) as H.
  unfold advance_req. destruct (AdvanceBufs _ _ _) as [n v]. destruct H as (H1 & H2 & H3 & H4 & H5 & H6).
  constructor; cbn [bufCount iov sent orig xferred].
  - destruct n; [rewrite take_0 in H5; cbn [total] in H5; lia|lia].
  - pose proof (lv_room _ A). lia.
  - done.
  - lia.
  - rewrite H3, <- app_assoc. unfold took. rewrite take_drop. apply A.
  - rewrite (lv_xfer _ A), length_app. unfold u32. rewrite Z.add_mod_idemp_l by lia. f_equal.
    pose proof (took_length q res A B ltac:(lia)). lia.
Qed.

(** ** One step *)

(** What a step of the request at [a] does to the shards; the last index counts a second
    unlinking. *)
Inductive reg_move (a : Z) (g : Reg) : bool → bool → Reg → Z → Prop :=
| rm_same l : reg_move a g l l g 0
| rm_link : reg_move a g false true (Link a g) 0
| rm_unlink : reg_move a g true false (UnlinkLocked a g) 0
| rm_again : reg_move a g false false (UnlinkLocked a g) 1.

Lemma at_linked_move s s' i p p' x :
  ph s !! i = Some p → ph s' = <[i := p']> (ph s) →
  at_linked s' x ↔ (x = addr i ∧ linked p' = true) ∨ (x ≠ addr i ∧ at_linked s x).
Proof.
  intros Hp Hs. unfold at_linked. rewrite Hs. split.
  - intros (j & q & -> & Hj & Hq). apply lookup_insert_Some in Hj as [[<- <-]|[Hn Hj]]; [by left|]. right. split; [|naive_solver]. by intros ?%addr_inj.
  - intros [[-> H]|(Hx & j & q & -> & Hj & Hq)]; [exists i, p'; by rewrite lookup_insert_eq|].
    exists j, q. rewrite lookup_insert_ne by congruence. done.
Qed.

Lemma at_linked_self s i p : ph s !! i = Some p → at_linked s (addr i) ↔ linked p = true.
Proof. intros Hp. split; [|by exists i, p]. intros (j & q & <-%addr_inj & Hj & Hq). congruence. Qed.

Lemma reg_move_ok s s' i p p' d :
  io_inv s → ph s !! i = Some p → ph s' = <[i := p']> (ph s) → twice s' = twice s + d → reg_move (addr i) (reg s) (linked p) (linked p') (reg s') d →
  reg_ok (reg s') (at_linked s') ∧ g_ioOutstanding (reg s') = u64 (num linked (ph s') - twice s').
Proof.
  intros I Hp Hs Ht Hm. pose proof (at_linked_self s i p Hp) as Hself. pose proof (λ x, at_linked_move s s' i p p' x Hp Hs) as Hmv.
  pose proof (iv_reg _ I) as Hr. pose proof (iv_count _ I) as Hc. rewrite Hs, Ht, (num_insert _ _ _ p) by done.
  remember (linked p) as l eqn:El. remember (linked p') as l' eqn:El'. remember (reg s') as g' eqn:Eg. destruct Hm.
  - split; [|rewrite Hc; f_equal; lia]. eapply reg_ok_iff; [|exact Hr]. intros x. rewrite Hmv. destruct (decide (x = addr i)) as [->|]; naive_solver.
  - split; [|cbn; rewrite Hc; unfold u64; rewrite Z.add_mod_idemp_l by lia; f_equal; lia].
    eapply reg_ok_iff; [|apply reg_link_ok; [exact Hr|apply addr_pos|naive_solver]]. intros x. rewrite Hmv. destruct (decide (x = addr i)) as [->|]; naive_solver.
  - split; [|cbn; rewrite Hc; unfold u64; rewrite Zminus_mod_idemp_l; f_equal; lia].
    eapply reg_ok_iff; [|apply reg_unlink_ok; [exact Hr|naive_solver]]. intros x. rewrite Hmv. destruct (decide (x = addr i)) as [->|]; naive_solver.
  - split; [|cbn; rewrite Hc; unfold u64; rewrite Zminus_mod_idemp_l; f_equal; lia].
    eapply reg_ok_iff; [|apply unlink_again; [exact Hr|naive_solver|apply addr_pos]]. intros x. rewrite Hmv. destruct (decide (x = addr i)) as [->|]; naive_solver.
Qed.

(** A log of the requests that reached a phase. *)
Lemma log_same (l : list nat) (m : gmap nat rphase) i p p' r : m !! i = Some p → p ≠ r → p' ≠ r →
  (∀ j, j ∈ l ↔ m !! j = Some r) → ∀ j, j ∈ l ↔ <[i := p']> m !! j = Some r.
Proof. intros Hp H1 H2 H j. rewrite H. destruct (decide (j = i)) as [->|]; [rewrite lookup_insert_eq, Hp; naive_solver|by rewrite lookup_insert_ne]. Qed.

Lemma log_add (l : list nat) (m : gmap nat rphase) i p r : m !! i = Some p → p ≠ r → NoDup l →
  (∀ j, j ∈ l ↔ m !! j = Some r) → NoDup (i :: l) ∧ ∀ j, j ∈ i :: l ↔ <[i := r]> m !! j = Some r.
Proof.
  intros Hp H1 Hn H. split; [constructor; [|done]; rewrite H; naive_solver|]. intros j. rewrite elem_of_cons, H.
  destruct (decide (j = i)) as [->|]; [rewrite lookup_insert_eq; naive_solver|rewrite lookup_insert_ne by done; naive_solver].
Qed.

(** A step that wakes nobody and returns to nobody. *)
Lemma io_inv_move s s' i p p' d :
  io_inv s → ph s !! i = Some p → ph s' = <[i := p']> (ph s) → twice s' = twice s + d → reg_move (addr i) (reg s) (linked p) (linked p') (reg s') d →
  wakes s' = wakes s → rets s' = rets s → p ≠ RWoken → p' ≠ RWoken → p ≠ RReturned → p' ≠ RReturned →
  (∀ j, j ≠ i → rq s' !! j = rq s !! j ∧ outs s' !! j = outs s !! j) →
  (∀ q, rq s' !! i = Some q → io_kind q = Send → send_inv q p' (outs s' !! i)) → io_inv s'.
Proof.
  intros I Hp Hs Ht Hm Hw Hr N1 N2 N3 N4 Ho Hq. destruct (reg_move_ok s s' i p p' d I Hp Hs Ht Hm) as [R1 R2].
  constructor; [done|done|rewrite Hw; apply I| |rewrite Hr; apply I| |].
  - rewrite Hw, Hs. eapply log_same; [done..|apply I].
  - rewrite Hr, Hs. eapply log_same; [done..|apply I].
  - intros j q p1 Hj Hp1 Hk. rewrite Hs in Hp1. apply lookup_insert_Some in Hp1 as [[<- <-]|[Hn Hp1]]; [by apply Hq|].
    destruct (Ho j ltac:(done)) as [E1 E2]. rewrite E1 in Hj. rewrite E2. by apply (iv_send _ I j q p1).
Qed.

Lemma r_out_ne i j q r s : j ≠ i → outs (r_out i q r s) !! j = outs s !! j.
Proof. intros H. unfold r_out. cbn. destruct (io_out q); [|done]. by rewrite lookup_insert_ne. Qed.

Lemma r_out_eq i q r s : io_out q = true → outs (r_out i q r s) !! i = Some r.
Proof. intros H. unfold r_out. cbn. rewrite H. apply lookup_insert_eq. Qed.

Lemma refusal_status e : refusal e → io_status e ≠ Completed.
Proof. by destruct 1. Qed.

(** Steps that move on without writing the request. *)
Ltac io_quiet I Hp :=
  eapply (io_inv_move _ _ _ _ _ 0 I Hp); [reflexivity|cbn; lia|first [apply rm_same|apply rm_link|apply rm_unlink]|done..|by cbn|].

Lemma whole_send q res : live q → answer_ok q res → partial q res = false → io_kind q = Send →
  io_status (result_of Send res) = Completed →
  u32 (io_bytes (result_of Send res) + xferred q) = u32 (Z.of_nat (length (sent q ++ took q res))).
Proof.
  intros A B _ Hk. unfold result_of. destruct (Z.leb_spec 0 res) as [H|H]; [|by destruct (_ =? _)]. intros _. cbn.
  rewrite (lv_xfer _ A), length_app, Nat2Z.inj_add, (took_length q res A B H). unfold u32. rewrite <- Zplus_mod. f_equal. lia.
Qed.

Lemma io_step_inv s i s' : io_inv s → io_step i s s' → io_inv s'.
Proof.
  intros I Hs. destruct Hs as [[q Hp Hq|q re e Hp Hq He|re Hp|re Hp|re Hp|re e Hp He _|q re e Hp Hq|e Hp]|[q r e Hp Hq|q res Hp Hq Hm|q res Hp Hq Hpt|q res Hp Hq Hpt|q res Hp Hq|q l r Hp Hq|Hp]].
  - io_quiet I Hp. intros q' Hq' Hk. exact (iv_send _ I i q' _ Hq' Hp Hk).
  - eapply (io_inv_move _ _ _ _ _ 0 I Hp); [reflexivity|cbn; lia|apply rm_same|done..|intros j Hj; split; [done|by apply r_out_ne]|].
    intros q' Hq' Hk. cbn in Hq'. assert (q' = q) as -> by congruence. pose proof (iv_send _ I i q _ Hq Hp Hk) as L.
    split_and!; [exact L|by apply refusal_status|by apply r_out_eq].
  - io_quiet I Hp. intros q' Hq' Hk. exact (iv_send _ I i q' _ Hq' Hp Hk).
  - io_quiet I Hp. intros q' Hq' Hk. exact (iv_send _ I i q' _ Hq' Hp Hk).
  - io_quiet I Hp. intros q' Hq' Hk. exact (iv_send _ I i q' _ Hq' Hp Hk).
  - io_quiet I Hp. intros q' Hq' Hk. split; [exact (iv_send _ I i q' _ Hq' Hp Hk)|by rewrite He].
  - eapply (io_inv_move _ _ _ _ _ 0 I Hp); [reflexivity|cbn; lia|apply rm_unlink|done..|intros j Hj; split; [done|exact (r_out_ne i j q _ (r_reg _ s) Hj)]|].
    intros q' Hq' Hk. cbn in Hq'. assert (q' = q) as -> by congruence. destruct (iv_send _ I i q _ Hq Hp Hk) as [L1 L2].
    split_and!; [done|done|by apply r_out_eq].
  - destruct (reg_move_ok s (mkIO (reg s) (rq s) (<[i := RReturned]> (ph s)) (outs s) (wakes s) (i :: rets s) (twice s)) i _ RReturned 0 I Hp eq_refl ltac:(cbn; lia) (rm_same _ _ _)) as [R1 R2].
    destruct (log_add (rets s) (ph s) i _ RReturned Hp ltac:(done) (iv_rets _ I) (iv_returned _ I)) as [L1 L2].
    constructor; cbn; [done|done|apply I| |done|done|].
    + eapply log_same; [exact Hp|done|done|apply I].
    + intros j q p1 Hj Hp1 Hk. apply lookup_insert_Some in Hp1 as [[<- <-]|[Hn Hp1]]; [|by apply (iv_send _ I j q p1)].
      apply live_prefix. by destruct (iv_send _ I i q _ Hj Hp Hk).
  - eapply (io_inv_move _ _ _ _ _ 0 I Hp); [reflexivity|cbn; lia|apply rm_same|done..|].
    intros q' Hq' Hk. cbn in Hq'. assert (q' = q) as -> by congruence. destruct (iv_send _ I i q _ Hq Hp Hk) as (L1 & L2 & L3). cbn.
    split; [by apply live_prefix|]. intros Ho. rewrite Ho, (L3 Ho). done.
  - eapply (io_inv_move _ _ _ _ _ 0 I Hp); [reflexivity|cbn; lia|apply rm_same|done..|intros j Hj; cbn; by rewrite lookup_insert_ne|].
    cbn. intros q'. rewrite lookup_insert_eq. intros [= <-] Hk. rewrite note_aux_kind in Hk. rewrite note_aux_send by done.
    pose proof (iv_send _ I i q _ Hq Hp Hk) as L. cbn in L. destruct Hm as [Hm1 Hm2]. split; [done|]. split; [done|]. by apply Hm2, L.
  - io_quiet I Hp. intros q' Hq' Hk. cbn in Hq'. assert (q' = q) as -> by congruence. destruct (iv_send _ I i q _ Hq Hp Hk). done.
  - eapply (io_inv_move _ _ _ _ _ 0 I Hp); [reflexivity|cbn; lia|apply rm_same|done..|intros j Hj; cbn; by rewrite lookup_insert_ne|].
    cbn. intros q'. rewrite lookup_insert_eq. intros [= <-] Hk. cbn in Hk. destruct (iv_send _ I i q _ Hq Hp Hk) as [L1 L2]. cbn.
    rewrite Hk. split; [|by apply whole_send]. destruct (live_split q res L1) as [rest <-]. exists rest. by rewrite app_assoc.
  - eapply (io_inv_move _ _ _ _ _ 0 I Hp); [reflexivity|cbn; lia|apply rm_unlink|done..|intros j Hj; cbn; by rewrite lookup_insert_ne|].
    cbn. intros q'. rewrite lookup_insert_eq. intros [= <-] Hk. unfold advance_req in Hk. assert (io_kind q = Send) as Hk' by (destruct (AdvanceBufs _ _ _); exact Hk).
    destruct (iv_send _ I i q _ Hq Hp Hk') as (L1 & L2 & L3). by apply advance_live.
  - destruct l; (eapply (io_inv_move _ _ _ _ _ _ I Hp); [reflexivity|reflexivity|first [apply rm_unlink|apply rm_again]|done..|intros j Hj; split; [done|exact (r_out_ne i j q _ (r_reg _ s) Hj)]|]);
      intros q' Hq' Hk; cbn in Hq'; assert (q' = q) as -> by congruence; destruct (iv_send _ I i q _ Hq Hp Hk) as [L1 L2]; (split; [done|]); intros Ho;
      (exists (final_result q r); split; [by apply r_out_eq|]); unfold final_result; rewrite Hk.
    + destruct (io_status r) eqn:E; cbn; intros Hc; try congruence. by apply L2.
    + destruct (io_status r) eqn:E; cbn; intros Hc; try congruence. by destruct (L2 Ho).
  - destruct (reg_move_ok s (mkIO (reg s) (rq s) (<[i := RWoken]> (ph s)) (outs s) (i :: wakes s) (rets s) (twice s)) i _ RWoken 0 I Hp eq_refl ltac:(cbn; lia) (rm_same _ _ _)) as [R1 R2].
    destruct (log_add (wakes s) (ph s) i _ RWoken Hp ltac:(done) (iv_wakes _ I) (iv_woken _ I)) as [L1 L2].
    constructor; cbn; [done|done|done|done|apply I| |].
    + eapply log_same; [exact Hp|done|done|apply I].
    + intros j q p1 Hj Hp1 Hk. apply lookup_insert_Some in Hp1 as [[<- <-]|[Hn Hp1]]; [|by apply (iv_send _ I j q p1)].
      exact (iv_send _ I i q _ Hj Hp Hk).
Qed.

(** ** Reachable states *)

Definition empty_reg : Reg := mkReg (λ _, 0) ∅ ∅ 0.
Definition fresh_req (q : IoRequest) : Prop := io_kind q = Send → live q ∧ sent q = [].

Definition io_init (s : iostate) : Prop :=
  reg s = empty_reg ∧ (∀ i p, ph s !! i = Some p → p = RIdle) ∧ (∀ i q, rq s !! i = Some q → fresh_req q) ∧
  wakes s = [] ∧ rets s = [] ∧ twice s = 0.

Lemma io_init_inv s : io_init s → io_inv s.
Proof.
  intros (Hr & Hp & Hq & Hw & Ht & H2). assert (Hno : ∀ x, ¬ at_linked s x) by (intros x (i & p & _ & ->%Hp & H); done).
  constructor; rewrite ?Hw, ?Ht, ?H2, ?Hr; [| | | | | |].
  - constructor; [|done|apply Hno]. intros k. exists []. split_and!; [done..|]. intros x. split; [by intros ?%elem_of_nil|]. intros [H _]. by destruct (Hno x).
  - cbn. rewrite num_none; [done|]. by intros i p ->%Hp.
  - constructor.
  - intros i. split; [by intros ?%elem_of_nil|]. by intros ?%Hp.
  - constructor.
  - intros i. split; [by intros ?%elem_of_nil|]. by intros ?%Hp.
  - intros i q p Hi ->%Hp Hk. by apply (Hq i q Hi).
Qed.

Lemma io_reach_inv s : reachable io_init io_next s → io_inv s.
Proof. apply reachable_ind; [apply io_init_inv|]. intros x y I [i Hs]. by eapply io_step_inv. Qed.

(** No request is between operations or with the kernel. *)
Definition io_at_rest (s : iostate) : Prop := ∀ i p, ph s !! i = Some p → p = RIdle ∨ p = RWoken ∨ p = RReturned.

Definition ring_init (s : rings) : Prop := io_init (io s) ∧ pub s = [] ∧ kern s = [].

(** While no enter fails: the ring is empty between submissions and the kernel has exactly the
    requests in flight. *)
Record ring_inv (s : rings) : Prop := {
  ri_io : reachable io_init io_next (io s);
  ri_pub : pub s = [];
  ri_once : NoDup (kern s);
  ri_kern i : i ∈ kern s ↔ ph (io s) !! i = Some RFlight }.

(** A step off the ring takes up nothing and completes nothing. *)
Lemma off_ring_flight i s s' p j :
  ph s !! i = Some p → off_ring p = true → io_step i s s' → ph s' !! j = Some RFlight ↔ ph s !! j = Some RFlight.
Proof.
  intros Hp Hoff Hs.
  assert (∃ p', ph s' = <[i := p']> (ph s) ∧ p' ≠ RFlight) as (p' & -> & Hn).
  { destruct Hs as [[]|[]]; eexists; (split; [reflexivity|]); try done. assert (RRing re = p) as <- by congruence. done. }
  destruct (decide (j = i)) as [->|Hj]; [|by rewrite lookup_insert_ne].
  rewrite lookup_insert_eq, Hp. split; [congruence|]. intros [= ->]. done.
Qed.

Lemma ring_step_inv s s' : ring_inv s → ring_step false s s' → ring_inv s'.
Proof.
  intros [R Q N K] Hs. destruct Hs as [i p s1 Hp Hoff Hst|i re Hp|i re x l Hp Hx|i re e Hf Hp He Hb|i p q res k1 k2 Hk Hp Hor Hq Hm]; [| | |done|].
  - constructor; cbn [io pub kern]; [eapply reachable_step; [exact R|by exists i]|done|done|]. intros j. rewrite K. symmetry. by eapply off_ring_flight.
  - constructor; cbn [io pub kern]; [eapply reachable_step; [exact R|exists i; left; by eapply i_ring_refuse]|done|done|].
    intros j. rewrite K. cbn. destruct (decide (j = i)) as [->|]; [rewrite lookup_insert_eq, Hp; naive_solver|by rewrite lookup_insert_ne].
  - rewrite Q in Hx. injection Hx as <- <-. constructor; cbn [io pub kern]; [eapply reachable_step; [exact R|exists i; left; by eapply i_submit]|done| |].
    + constructor; [|done]. rewrite K. congruence.
    + intros j. rewrite elem_of_cons, K. cbn. destruct (decide (j = i)) as [->|]; [rewrite lookup_insert_eq; naive_solver|rewrite lookup_insert_ne by done; naive_solver].
  - assert (Hfl : ph (io s) !! i = Some RFlight) by (apply K; rewrite Hk; set_solver). rewrite Hk in N. apply NoDup_app in N as (N1 & N2 & [N3 N4]%NoDup_cons).
    constructor; cbn [io pub kern]; [eapply reachable_step; [exact R|exists i; right; by eapply i_cqe]|done| |].
    + apply NoDup_app. split_and!; [done| |done]. intros j Hj Hj'. apply (N2 j Hj). set_solver.
    + intros j. cbn. destruct (decide (j = i)) as [->|Hj].
      * rewrite lookup_insert_eq. split; [|done]. intros [Hi|Hi]%elem_of_app; [|done]. destruct (N2 i Hi). set_solver.
      * rewrite lookup_insert_ne by done. rewrite <- K, Hk. set_solver.
Qed.

Lemma reachable_ring s : reachable ring_init (ring_step false) s → ring_inv s.
Proof.
  revert s. apply reachable_ind; [|intros s s'; apply ring_step_inv]. intros s (Hi & Hp & Hk).
  constructor; [by apply reachable_init|done|rewrite Hk; constructor|]. intros i. rewrite Hk. split; [by intros ?%elem_of_nil|].
  destruct Hi as (_ & H & _). by intros ?%H.
Qed.

(** C22: Every request ends exactly once, as long as no enter fails after its entry was
    published.  However requests interleave, whatever the kernel answers and the cancellation
    tokens do, and however often the submission ring is full: no request is woken twice, or
    both refused to its caller and woken; the kernel has taken up exactly the requests in
    flight, each once; the shards that a cancellation walks are proper doubly linked lists of
    exactly the requests submitted and not yet published; the count of outstanding requests
    is their number less the requests unlinked twice; and when nothing is in flight, every
    request that was started was refused to its caller or woke its task.  What a failing enter
    does is [io_refused_completes]. *)
Theorem io_requests_once r : reachable ring_init (ring_step false) r → let s := io r in
  NoDup (wakes s ++ rets s) ∧
  (NoDup (kern r) ∧ ∀ i, i ∈ kern r ↔ ph s !! i = Some RFlight) ∧
  (∀ k, ∃ l, chain (lnext (reg s)) (shardHead (reg s) k) l ∧ dl (lprev (reg s)) 0 l ∧ ∀ x, x ∈ l ↔ at_linked s x ∧ ShardFor x = k) ∧
  g_ioOutstanding (reg s) = u64 (num linked (ph s) - twice s) ∧
  (io_at_rest s → ∀ i p, ph s !! i = Some p → p ≠ RIdle → i ∈ wakes s ++ rets s).
Proof.
  intros [I%io_reach_inv _ Hn Hk]%reachable_ring. cbv zeta. split_and!; [|done|done|exact (ro_list _ _ (iv_reg _ I))|exact (iv_count _ I)|].
  - apply NoDup_app. split_and!; [exact (iv_wakes _ I)| |exact (iv_rets _ I)]. intros i Hi Hj. apply (iv_woken _ I) in Hi. apply (iv_returned _ I) in Hj. congruence.
  - intros Hr i p Hp Hn'. rewrite elem_of_app, (iv_woken _ I), (iv_returned _ I). destruct (Hr i p Hp) as [->|[->| ->]]; [done|auto..].
Qed.


(** ** Cancellation walks *)

Lemma collect_ok fuel room within r nx l : chain nx r l → (length l < fuel)%nat →
  collect fuel room within r nx = take room (filter (λ x, within x = true) l).
Proof.
  revert fuel room r. induction l as [|x l IH]; intros fuel room r Hc Hf; (destruct fuel as [|fuel]; [cbn in Hf; lia|]); cbn [collect].
  - cbn in Hc. rewrite Hc. cbn. by rewrite take_nil.
  - destruct Hc as (-> & Hx & Hc). rewrite (proj2 (Z.eqb_neq _ _) Hx). cbn [orb length] in *. destruct (Nat.eqb_spec room 0) as [->|Hr]; [done|].
    rewrite filter_cons. destruct (within x) eqn:E; [rewrite decide_True by done|rewrite decide_False by done; apply IH; [done|lia]].
    destruct room as [|room]; [done|]. cbn. f_equal. apply IH; [done|lia].
Qed.

(** A walk asks for at most 64 requests of a shard to be cancelled: with more in flight the
    rest stay, although stopping the reactor counts on every one being cancelled. *)
Lemma cancel_walk_short within r nx l : chain nx r l → (∀ x, within x = true) → (64 < length l)%nat →
  ∃ x, x ∈ l ∧ x ∉ collect (S (length l)) 64 within r nx.
Proof.
  intros Hc Hw Hl. rewrite (collect_ok _ _ _ _ _ l) by (done || lia). pose proof (chain_NoDup _ _ _ Hc) as Hn.
  assert (filter (λ x, within x = true) l = l) as -> by (clear -Hw; induction l as [|x l IH]; [done|]; rewrite filter_cons, decide_True, IH by done; done).
  destruct (lookup_lt_is_Some_2 l 64 Hl) as [x Hx]. exists x. split; [by eapply list_elem_of_lookup_2|]. intros (j & Hj)%list_elem_of_lookup.
  apply lookup_take_Some in Hj as [Hj Hlt]. pose proof (NoDup_lookup _ _ _ _ Hn Hx Hj). lia.
Qed.

(** ** Runs *)

(** A send of three bytes, of which the kernel takes two and then the last. *)
Definition short_send : IoRequest := mkReq Send 1 [mkIov 100 3] 0 0 true [] [100; 101; 102].
Definition io_start : iostate := mkIO empty_reg {[0%nat := short_send]} {[0%nat := RIdle]} ∅ [] [] 0.

Lemma short_send_live : live short_send.
Proof.
  constructor; cbn; [lia|lia| |lia|done|done]. intros b ->%list_elem_of_singleton. cbn. lia.
Qed.

Lemma io_start_init : io_init io_start.
Proof.
  split_and!; try done.
  - intros i p H. change (({[0%nat := RIdle]} : gmap nat rphase) !! i = Some p) in H. apply lookup_singleton_Some in H as [_ <-]. done.
  - intros i q H _. change (({[0%nat := short_send]} : gmap nat IoRequest) !! i = Some q) in H. apply lookup_singleton_Some in H as [_ <-]. split; [apply short_send_live|done].
Qed.

Definition rest_send : IoRequest := mkReq Send 1 [mkIov 102 1] 2 0 true [100; 101] [100; 101; 102].
Definition sent_send : IoRequest := mkReq Send 1 [mkIov 102 1] 2 0 true [100; 101; 102] [100; 101; 102].
Definition part_result : IoResult := mkIoResult Completed 2 0.
Definition linked_reg : Reg := Link (addr 0) empty_reg.

Definition io_at (g : Reg) (q : IoRequest) (p : rphase) (o : gmap nat IoResult) (w : list nat) (t : Z) : iostate := mkIO g {[0%nat := q]} {[0%nat := p]} o w [] t.

(** The first part goes out and the request is unlinked to be sent again. *)
Lemma short_run : rtc io_next io_start (io_at (UnlinkLocked (addr 0) linked_reg) rest_send (RCheck (Some part_result)) ∅ [] 0).
Proof.
  eapply rtc_l; [exists 0%nat; left; by eapply i_start|]. eapply rtc_l; [exists 0%nat; left; by eapply i_pass|]. eapply rtc_l; [exists 0%nat; left; by eapply i_link|].
  eapply rtc_l; [exists 0%nat; left; by eapply i_submit|].
  eapply rtc_l; [exists 0%nat; right; eapply (i_cqe _ _ short_send 2); [done|done|]; split; [lia|]; intros _ _; cbn; lia|].
  eapply rtc_l; [exists 0%nat; right; by eapply i_short|]. eapply rtc_l; [exists 0%nat; right; by eapply i_part|]. apply rtc_refl.
Qed.

Definition sent_all : iostate :=
  mkIO (UnlinkLocked (addr 0) (Link (addr 0) (UnlinkLocked (addr 0) linked_reg))) {[0%nat := sent_send]} {[0%nat := RWoken]} {[0%nat := mkIoResult Completed 3 0]} [0%nat] [] 0.

Lemma sent_all_reached : rtc io_next io_start sent_all.
Proof.
  etrans; [apply short_run|]. eapply rtc_l; [exists 0%nat; left; by eapply i_pass|]. eapply rtc_l; [exists 0%nat; left; by eapply i_link|].
  eapply rtc_l; [exists 0%nat; left; by eapply i_submit|].
  eapply rtc_l; [exists 0%nat; right; eapply (i_cqe _ _ rest_send 1); [done|done|]; split; [lia|]; intros _ _; cbn; lia|].
  eapply rtc_l; [exists 0%nat; right; by eapply i_whole|]. eapply rtc_l; [exists 0%nat; right; by eapply i_publish|].
  eapply rtc_l; [exists 0%nat; right; by eapply i_wake|]. apply rtc_refl.
Qed.

(** One step of a run, and one of request [i] off the ring. *)
Ltac ring_go tac :=
  eapply rtc_l; [tac|]; unfold r_move, r_reg, r_req, r_out, r_twice; cbn [reg rq ph outs wakes rets twice io pub kern app io_out short_send rest_send note_aux io_kind].
Ltac ring_off i tac := ring_go ltac:(eapply (k_off _ _ i); [reflexivity|reflexivity|tac]).

(** The same send with the ring under it. *)
Lemma ring_sent_all : rtc (ring_step false) (mkRings io_start [] []) (mkRings sent_all [] []).
Proof.
  ring_off 0%nat ltac:(left; eapply i_start; reflexivity). ring_off 0%nat ltac:(left; eapply i_pass; reflexivity).
  ring_off 0%nat ltac:(left; eapply i_link; reflexivity). ring_go ltac:(eapply (k_enter _ _ 0%nat); reflexivity).
  ring_go ltac:(eapply (k_done _ _ 0%nat RFlight short_send 2 []); [done|done|by left|done|split; [lia|]; intros _ _; cbn; lia]).
  ring_off 0%nat ltac:(right; eapply i_short; reflexivity). ring_off 0%nat ltac:(right; eapply i_part; reflexivity).
  ring_off 0%nat ltac:(left; eapply i_pass; reflexivity). ring_off 0%nat ltac:(left; eapply i_link; reflexivity).
  ring_go ltac:(eapply (k_enter _ _ 0%nat); reflexivity).
  ring_go ltac:(eapply (k_done _ _ 0%nat RFlight rest_send 1 []); [done|done|by left|done|split; [lia|]; intros _ _; cbn; lia]).
  ring_off 0%nat ltac:(right; eapply i_whole; reflexivity). ring_off 0%nat ltac:(right; eapply i_publish; reflexivity).
  ring_off 0%nat ltac:(right; eapply i_wake; reflexivity). apply rtc_refl.
Qed.

Lemma io_requests_once_witness :
  NoDup (wakes sent_all ++ rets sent_all) ∧ g_ioOutstanding (reg sent_all) = 0 ∧ wakes sent_all = [0%nat].
Proof.
  split_and!; [|reflexivity|reflexivity].
  apply (io_requests_once (mkRings sent_all [] [])). exists (mkRings io_start [] []).
  split; [split_and!; [exact io_start_init|reflexivity|reflexivity]|exact ring_sent_all].
Defined.


Definition stopped_result : IoResult := mkIoResult Failed 0 ESHUTDOWN.
Definition sent_part : iostate :=
  mkIO (UnlinkLocked (addr 0) (UnlinkLocked (addr 0) linked_reg)) {[0%nat := rest_send]} {[0%nat := RWoken]} {[0%nat := stopped_result]} [0%nat] [] 1.

(** a send that goes out in part while the reactor stops is unlinked twice.  The second
    submission is refused before it links the request again, [Complete] falls through to its
    own unlinking all the same, and the count of outstanding requests wraps to [SIZE_MAX]
    with nothing in flight. *)
Theorem io_unlinked_twice :
  reachable io_init io_next sent_part ∧ io_at_rest sent_part ∧ g_ioOutstanding (reg sent_part) = SIZE_MAX.
Proof.
  split_and!; [|intros i p H; change (({[0%nat := RWoken]} : gmap nat rphase) !! i = Some p) in H; apply lookup_singleton_Some in H as [_ <-]; auto|reflexivity].
  exists io_start. split; [exact io_start_init|]. etrans; [apply short_run|].
  eapply rtc_l; [exists 0%nat; left; by eapply i_refuse, ref_stopping|]. eapply rtc_l; [exists 0%nat; right; by eapply i_back|].
  eapply rtc_l; [exists 0%nat; right; by eapply i_publish|]. eapply rtc_l; [exists 0%nat; right; by eapply i_wake|]. apply rtc_refl.
Qed.

(** ** An enter that fails *)

Definition two_start : iostate := mkIO empty_reg {[0%nat := short_send; 1%nat := short_send]} {[0%nat := RIdle; 1%nat := RIdle]} ∅ [] [] 0.

Lemma two_start_init : io_init two_start.
Proof.
  split_and!; try done.
  - intros i p H. unfold two_start in H. cbn [ph] in H. apply lookup_insert_Some in H as [[_ <-]|[_ H]]; [done|]. by apply lookup_singleton_Some in H as [_ <-].
  - intros i q H _. assert (q = short_send) as ->; [|split; [apply short_send_live|done]].
    unfold two_start in H. cbn [rq] in H. apply lookup_insert_Some in H as [[_ <-]|[_ H]]; [done|]. by apply lookup_singleton_Some in H as [_ <-].
Qed.

(** Request 0's enter fails: its caller is told so and goes on.  The next submission makes the
    kernel take up request 0 and leaves request 1 in the ring; request 0 then completes and
    wakes the task that was told it had failed, while request 1, its caller waiting, is not
    with the kernel at all. *)
Theorem io_refused_completes :
  ∃ r, reachable ring_init (ring_step true) r ∧ 0%nat ∈ rets (io r) ∧ 0%nat ∈ wakes (io r) ∧
    ph (io r) !! 1%nat = Some RFlight ∧ kern r = [] ∧ pub r = [1%nat].
Proof.
  eexists. split.
  - exists (mkRings two_start [] []). split; [split_and!; [exact two_start_init|done|done]|].
    ring_off 0%nat ltac:(left; eapply i_start; reflexivity). ring_off 0%nat ltac:(left; eapply i_pass; reflexivity).
    ring_off 0%nat ltac:(left; eapply i_link; reflexivity).
    ring_go ltac:(eapply (k_failed _ _ 0%nat None (mkIoResult Failed 0 EAGAIN)); reflexivity).
    ring_off 0%nat ltac:(left; eapply i_undo; reflexivity). ring_off 0%nat ltac:(left; eapply i_return; reflexivity).
    ring_off 1%nat ltac:(left; eapply i_start; reflexivity). ring_off 1%nat ltac:(left; eapply i_pass; reflexivity).
    ring_off 1%nat ltac:(left; eapply i_link; reflexivity). ring_go ltac:(eapply (k_enter _ _ 1%nat); reflexivity).
    ring_go ltac:(eapply (k_done _ _ 0%nat RReturned short_send 3 []); [reflexivity|reflexivity|by right|reflexivity|split; [lia|]; intros _ _; cbn; lia]).
    ring_off 0%nat ltac:(right; eapply i_whole; reflexivity). ring_off 0%nat ltac:(right; eapply i_publish; reflexivity).
    ring_off 0%nat ltac:(right; eapply i_wake; reflexivity). apply rtc_refl.
  - cbn. split_and!; [set_solver|set_solver|done|done|done].
Qed.
