(* ===== verification/IoStreams.v ===== *)
(** * Streams (src/IoShared.cpp, include/IoReactor.h)

    An [IoStream] keeps one chain of requests per direction, so that the reactor has at most
    one send and one receive of a stream at a time.  The two chains are the same code on
    separate state under one spin lock; the model is one chain.  The chain's queue is the
    waiter queue of [SyncCore]; whether the reactor takes a request or ends it at once is
    left open.  Any number of threads submit and complete. *)

From S2P Require Import Prelude CancelTokens WaitLists SyncCore IoBuffers IoRequests.
Local Open Scope sched_scope.

Definition kErrMsgSize : Z := 90.

(** The checks of [SubmitChained] before it takes the lock. *)
Definition chained_check (bufs : list iovec) (count : nat) (v : list iovec) (c : Cancel) (token : Z) : option IoResult :=
  match FillBufs bufs count v with
  | None => Some (mkIoResult Failed 0 kErrMsgSize)
  | Some _ => if Cancelled c token then Some (mkIoResult IoCancelled 0 0) else None
  end.

Section stream.
Context {Q : Type} `{!WaitQueue Q}.

Record Chain := mkChain { ch_q : Q; busy : bool; queued : Z }.
Definition Chain_new : Chain := mkChain wq_none false 0.

(** The locked part of [SubmitChained]: true when the caller is to submit [r] itself. *)
Definition chain_enter (r : Z) (c : Chain) : bool * Chain :=
  if busy c then (false, mkChain (wq_push r (ch_q c)) true (queued c ⊕ 1)) else (true, mkChain (ch_q c) true (queued c)).

(** The locked part of [Advance]: the next request to submit, if any. *)
Definition chain_advance (c : Chain) : Z * Chain :=
  let '(n, q) := wq_pop (ch_q c) in
  if n =? 0 then (0, mkChain q false (queued c)) else (n, mkChain q (busy c) (queued c ⊖ 1)).

(** ** Threads *)

(** What a thread does when it is done advancing the chain: return true for its own request,
    or wake the task of the request that completed. *)
Inductive after := Ret (r : Z) | Wake (r : Z).
Definition of_after (e : after) : Z := match e with Ret r | Wake r => r end.

Inductive spc :=
| StIdle
| StFirst (r : Z)             (* in [SubmitOne] with its own request *)
| StAdvance (e : after)       (* about to take the lock in [Advance] *)
| StNext (n : Z) (e : after)  (* in [SubmitOne], called from [Advance] *)
| StEnd (e : after).

Record stream := mkStream {
  chain_ : Chain; flight : list Z; spcs : gmap nat spc; entered : list Z; handed : list Z; returned_ : list Z; woke : list Z; dropped : list Z }.

Definition st_move (i : nat) (p : spc) (s : stream) : stream :=
  mkStream (chain_ s) (flight s) (<[i := p]> (spcs s)) (entered s) (handed s) (returned_ s) (woke s) (dropped s).
Definition st_chain (c : Chain) (s : stream) : stream := mkStream c (flight s) (spcs s) (entered s) (handed s) (returned_ s) (woke s) (dropped s).
Definition st_enter (r : Z) (s : stream) : stream := mkStream (chain_ s) (flight s) (spcs s) (entered s ++ [r]) (handed s) (returned_ s) (woke s) (dropped s).
Definition st_fly (r : Z) (s : stream) : stream := mkStream (chain_ s) (r :: flight s) (spcs s) (entered s) (handed s ++ [r]) (returned_ s) (woke s) (dropped s).
Definition st_hand (r : Z) (s : stream) : stream := mkStream (chain_ s) (flight s) (spcs s) (entered s) (handed s ++ [r]) (returned_ s) (woke s) (dropped s).
Definition st_drop (r : Z) (s : stream) : stream := mkStream (chain_ s) (flight s) (spcs s) (entered s) (handed s) (returned_ s) (woke s) (r :: dropped s).
Definition st_land (l : list Z) (s : stream) : stream := mkStream (chain_ s) l (spcs s) (entered s) (handed s) (returned_ s) (woke s) (dropped s).
Definition st_after (e : after) (s : stream) : stream :=
  match e with
  | Ret r => mkStream (chain_ s) (flight s) (spcs s) (entered s) (handed s) (r :: returned_ s) (woke s) (dropped s)
  | Wake r => mkStream (chain_ s) (flight s) (spcs s) (entered s) (handed s) (returned_ s) (r :: woke s) (dropped s)
  end.

(** Every submission is its own [r]. *)
Inductive stream_step (i : nat) (s : stream) : stream → Prop :=
| t_queue r c : spcs s !! i = Some StIdle → r ≠ 0 → r ∉ entered s → chain_enter r (chain_ s) = (false, c) →
    stream_step i s (st_enter r (st_chain c s))
| t_first r c : spcs s !! i = Some StIdle → r ≠ 0 → r ∉ entered s → chain_enter r (chain_ s) = (true, c) →
    stream_step i s (st_move i (StFirst r) (st_enter r (st_chain c s)))
| t_accepted r : spcs s !! i = Some (StFirst r) → stream_step i s (st_move i StIdle (st_fly r s))
| t_immediate r : spcs s !! i = Some (StFirst r) → stream_step i s (st_move i (StAdvance (Ret r)) (st_hand r s))
| t_complete r l1 l2 : spcs s !! i = Some StIdle → flight s = l1 ++ r :: l2 →
    stream_step i s (st_move i (StAdvance (Wake r)) (st_land (l1 ++ l2) s))
| t_none e c : spcs s !! i = Some (StAdvance e) → chain_advance (chain_ s) = (0, c) → stream_step i s (st_move i (StEnd e) (st_chain c s))
| t_next e n c : spcs s !! i = Some (StAdvance e) → chain_advance (chain_ s) = (n, c) → n ≠ 0 →
    stream_step i s (st_move i (StNext n e) (st_chain c s))
| t_next_accepted n e : spcs s !! i = Some (StNext n e) → stream_step i s (st_move i (StEnd e) (st_fly n s))
| t_next_immediate n e : spcs s !! i = Some (StNext n e) → stream_step i s (st_move i (StAdvance e) (st_drop n (st_hand n s)))
| t_end e : spcs s !! i = Some (StEnd e) → stream_step i s (st_move i StIdle (st_after e s)).

Definition stream_next (s s' : stream) : Prop := ∃ i, stream_step i s s'.
Definition stream_init (s : stream) : Prop :=
  s = mkStream Chain_new [] (spcs s) [] [] [] [] [] ∧ ∀ i p, spcs s !! i = Some p → p = StIdle.

(** ** What holds *)

Definition pend (p : spc) : list Z := match p with StFirst r | StNext r _ => [r] | _ => [] end.
Definition ending (p : spc) : list Z := match p with StAdvance e | StNext _ e | StEnd e => [of_after e] | _ => [] end.
Definition driving (p : spc) : bool := match p with StFirst _ | StNext _ _ | StAdvance _ => true | _ => false end.

Record stream_inv (s : stream) (l : list Z) : Prop := {
  si_queue : wq_is (ch_q (chain_ s)) l;
  si_busy : Z.b2z (busy (chain_ s)) = Z.of_nat (length (flight s)) + num driving (spcs s);
  si_empty : busy (chain_ s) = false → l = [];
  si_queued : queued (chain_ s) = u64 (Z.of_nat (length l));
  si_order : entered s = handed s ++ gather pend (spcs s) ++ l;
  si_nodup : NoDup (entered s);
  si_fates : handed s ≡ₚ flight s ++ returned_ s ++ woke s ++ dropped s ++ gather ending (spcs s) }.

(** The one driving thread is the only one with a request in hand. *)
Lemma gather_solo (m : gmap nat spc) i p : m !! i = Some p → num driving m ≤ Z.b2z (driving p) → gather pend m = pend p.
Proof.
  intros Hp Hn. assert (H0 : gather pend (delete i m) = []).
  { apply gather_none. intros j q Hq. apply lookup_delete_Some in Hq as [Hne Hq]. destruct (driving q) eqn:E; [|by destruct q].
    pose proof (num_insert driving m i p StIdle Hp) as H. cbn in H. pose proof (num_pos driving (<[i := StIdle]> m) j q ltac:(by rewrite lookup_insert_ne) E). lia. }
  pose proof (gather_delete pend m i p Hp) as H. rewrite H0, app_nil_r in H. destruct p; cbn in H |- *;
    first [by apply Permutation_nil_r in H|by apply Permutation_singleton_r in H].
Qed.

Lemma gather_quiet (m : gmap nat spc) : num driving m = 0 → gather pend m = [].
Proof. intros H. apply gather_none. intros i p Hp. pose proof (num_zero driving m i p H Hp). by destruct p. Qed.

(** The locked parts. *)
Lemma enter_ok r (c : Chain) l : wq_is (ch_q c) l → r ≠ 0 → r ∉ l → (busy c = false → l = []) → queued c = u64 (Z.of_nat (length l)) →
  let '(b, c') := chain_enter r c in
  b = negb (busy c) ∧ busy c' = true ∧ let l' := if b then l else l ++ [r] in wq_is (ch_q c') l' ∧ queued c' = u64 (Z.of_nat (length l')).
Proof.
  intros Hq Hr Hl He Hn. unfold chain_enter. destruct (busy c); cbn; [|done]. split_and!; [done|done|by apply wq_push_ok|].
  rewrite Hn, length_app. unfold u64. rewrite Z.add_mod_idemp_l by lia. f_equal. cbn. lia.
Qed.

Lemma advance_chain_ok (c : Chain) l : wq_is (ch_q c) l → queued c = u64 (Z.of_nat (length l)) →
  let '(n, c') := chain_advance c in
  n = default 0 (head l) ∧ (n = 0 → l = []) ∧ busy c' = (if n =? 0 then false else busy c) ∧ wq_is (ch_q c') (tail l) ∧ queued c' = u64 (Z.of_nat (length (tail l))).
Proof.
  intros Hq Hn. unfold chain_advance. destruct (wq_pop_ok _ _ Hq) as (H1 & H2 & _). destruct (wq_is_ok _ _ Hq) as [_ H0].
  destruct (wq_pop (ch_q c)) as [n q]. cbn [fst snd] in *. subst n. destruct l as [|x l]; [done|]. cbn [head tail from_option id] in *.
  assert (x ≠ 0) as Hx by set_solver. rewrite (proj2 (Z.eqb_neq _ _) Hx). cbn. rewrite ?(proj2 (Z.eqb_neq _ _) Hx). split_and!; [done|by intros ?|done|done|].
  rewrite Hn. unfold u64. rewrite Zminus_mod_idemp_l. f_equal. cbn. lia.
Qed.

(** A driving thread has the chain to itself. *)
Lemma driving_alone s l i p : stream_inv s l → spcs s !! i = Some p → driving p = true →
  busy (chain_ s) = true ∧ flight s = [] ∧ num driving (spcs s) = 1 ∧ entered s = handed s ++ pend p ++ l.
Proof.
  intros I Hp Hd. pose proof (num_pos driving (spcs s) i p Hp Hd) as Hn. pose proof (si_busy _ _ I) as Hb. destruct (busy (chain_ s)) eqn:E; cbn in Hb; [|lia].
  assert (flight s = []) as Hf by (destruct (flight s); [done|cbn in Hb; lia]). rewrite Hf in Hb. cbn in Hb. split_and!; [done|done|lia|].
  rewrite (si_order _ _ I). f_equal. f_equal. apply (gather_solo _ i); [done|]. rewrite Hd. cbn. lia.
Qed.

(** The pending request after thread [i], alone in driving the chain, moves to [p']. *)
Lemma gather_after (m : gmap nat spc) i p p' : m !! i = Some p → num driving m ≤ Z.b2z (driving p) → gather pend (<[i := p']> m) = pend p'.
Proof. intros Hp Hn. apply (gather_solo _ i); [apply lookup_insert_eq|]. rewrite (num_insert _ _ _ p) by done. lia. Qed.

Lemma ending_same (m : gmap nat spc) i p p' : m !! i = Some p → ending p' = ending p → gather ending (<[i := p']> m) ≡ₚ gather ending m.
Proof. intros Hp He. by apply (gather_move ending m i p). Qed.

Lemma pend_still (m : gmap nat spc) i p p' : m !! i = Some p → driving p = false → driving p' = false → num driving m ≤ 1 →
  gather pend (<[i := p']> m) = gather pend m.
Proof.
  intros Hp Hd Hd' Hn. pose proof (num_insert driving m i p p' Hp) as Hi. rewrite Hd, Hd' in Hi. cbn in Hi. pose proof (num_nonneg driving m).
  destruct (decide (num driving m = 0)) as [E|E]; [by rewrite !gather_quiet by lia|]. destruct (num_some driving m E) as (j & q & Hj & Hq).
  assert (j ≠ i) by congruence. rewrite (gather_solo m j q), (gather_solo _ j q); [done| | |done|]; rewrite ?lookup_insert_ne, ?Hq by done; cbn; done || lia.
Qed.

Lemma stream_step_inv s l i s' : stream_inv s l → stream_step i s s' → ∃ l', stream_inv s' l'.
Proof.
  intros I Hs. pose proof I as [A1 A2 A3 A4 A5 A6 A7].
  destruct Hs as [r c Hp Hr He Hc|r c Hp Hr He Hc|r Hp|r Hp|r l1 l2 Hp Hf|e c Hp Hc|e n c Hp Hc Hn|n e Hp|n e Hp|e Hp].
  - assert (Hrl : r ∉ l) by (rewrite A5 in He; set_solver). pose proof (enter_ok r (chain_ s) l A1 Hr Hrl A3 A4) as H. rewrite Hc in H. destruct H as (H1 & H2 & H3 & H4).
    exists (l ++ [r]). destruct (busy (chain_ s)); [|done]. constructor; cbn; try done; [by rewrite H2|by rewrite H2|by rewrite A5, <- !app_assoc|].
    apply NoDup_app. split_and!; [done|intros x Hx ->%list_elem_of_singleton; done|apply NoDup_singleton].
  - assert (Hrl : r ∉ l) by (rewrite A5 in He; set_solver). pose proof (enter_ok r (chain_ s) l A1 Hr Hrl A3 A4) as H. rewrite Hc in H. destruct H as (H1 & H2 & H3 & H4).
    destruct (busy (chain_ s)) eqn:Eb; [done|]. rewrite (A3 eq_refl) in *. cbn in A2. pose proof (num_nonneg driving (spcs s)).
    assert (flight s = []) as Hfl by (destruct (flight s); [done|cbn in A2; lia]). exists []. rewrite Hfl in *. cbn in A2.
    constructor; cbn; try done.
    + rewrite H2, Hfl, (num_insert _ _ _ StIdle) by done. cbn. lia.
    + rewrite (gather_after _ i StIdle) by (done || (cbn; lia)). rewrite A5, gather_quiet by lia. cbn. by rewrite !app_nil_r.
    + apply NoDup_app. split_and!; [done|intros x Hx ->%list_elem_of_singleton; done|apply NoDup_singleton].
    + rewrite Hfl, (ending_same _ i StIdle) by done. done.
  - destruct (driving_alone s l i _ I Hp eq_refl) as (B1 & B2 & B3 & B4). exists l. constructor; cbn; try done.
    + rewrite B1, B2, (num_insert _ _ _ (StFirst r)) by done. cbn. lia.
    + rewrite (gather_after _ i (StFirst r)) by (done || (cbn; lia)). rewrite B4. cbn. by rewrite <- app_assoc.
    + rewrite A7, (ending_same _ i (StFirst r)) by done. solve_Permutation.
  - destruct (driving_alone s l i _ I Hp eq_refl) as (B1 & B2 & B3 & B4). exists l. constructor; cbn; try done.
    + rewrite A2, (num_insert _ _ _ (StFirst r)) by done. cbn. lia.
    + rewrite (gather_after _ i (StFirst r)) by (done || (cbn; lia)). rewrite B4. cbn. by rewrite <- app_assoc.
    + rewrite A7, gather_insert, (gather_delete ending (spcs s) i _ Hp). cbn. solve_Permutation.
  - rewrite Hf in A2. rewrite length_app in A2. cbn in A2. pose proof (num_nonneg driving (spcs s)).
    destruct (busy (chain_ s)) eqn:Eb; cbn in A2; [|lia]. assert (l1 = [] ∧ l2 = []) as [-> ->] by (destruct l1, l2; cbn in A2; done || lia). cbn in A2.
    exists l. constructor; cbn; try done.
    + rewrite Eb, (num_insert _ _ _ StIdle) by done. cbn. lia.
    + by rewrite Eb.
    + rewrite (gather_after _ i StIdle) by (done || (cbn; lia)). rewrite A5, gather_quiet by lia. done.
    + rewrite A7, Hf, gather_insert, (gather_delete ending (spcs s) i _ Hp). cbn. solve_Permutation.
  - destruct (driving_alone s l i _ I Hp eq_refl) as (B1 & B2 & B3 & B4). pose proof (advance_chain_ok (chain_ s) l A1 A4) as H. rewrite Hc in H.
    destruct H as (H1 & H2 & H3 & H4 & H5). rewrite (H2 eq_refl) in *. cbn in H3, H4, H5. exists []. constructor; cbn; try done.
    + rewrite H3, B2, (num_insert _ _ _ (StAdvance e)) by done. cbn. lia.
    + rewrite (gather_after _ i (StAdvance e)) by (done || (cbn; lia)). by rewrite B4.
    + rewrite A7, (ending_same _ i (StAdvance e)) by done. done.
  - destruct (driving_alone s l i _ I Hp eq_refl) as (B1 & B2 & B3 & B4). pose proof (advance_chain_ok (chain_ s) l A1 A4) as H. rewrite Hc in H.
    destruct H as (H1 & H2 & H3 & H4 & H5). destruct l as [|x l]; [done|]. cbn in H1, H4, H5. subst x. rewrite (proj2 (Z.eqb_neq _ _) Hn) in H3. exists l. constructor; cbn; try done.
    + rewrite H3, A2, (num_insert _ _ _ (StAdvance e)) by done. cbn. lia.
    + by rewrite H3, B1.
    + rewrite (gather_after _ i (StAdvance e)) by (done || (cbn; lia)). by rewrite B4.
    + rewrite A7, (ending_same _ i (StAdvance e)) by done. done.
  - destruct (driving_alone s l i _ I Hp eq_refl) as (B1 & B2 & B3 & B4). exists l. constructor; cbn; try done.
    + rewrite B1, B2, (num_insert _ _ _ (StNext n e)) by done. cbn. lia.
    + rewrite (gather_after _ i (StNext n e)) by (done || (cbn; lia)). rewrite B4. cbn. by rewrite <- app_assoc.
    + rewrite A7, (ending_same _ i (StNext n e)) by done. solve_Permutation.
  - destruct (driving_alone s l i _ I Hp eq_refl) as (B1 & B2 & B3 & B4). exists l. constructor; cbn; try done.
    + rewrite A2, (num_insert _ _ _ (StNext n e)) by done. cbn. lia.
    + rewrite (gather_after _ i (StNext n e)) by (done || (cbn; lia)). rewrite B4. cbn. by rewrite <- app_assoc.
    + rewrite A7, (ending_same _ i (StNext n e)) by done. solve_Permutation.
  - exists l. assert (Hle : num driving (spcs s) ≤ 1) by (destruct (busy (chain_ s)); cbn in A2; lia).
    pose proof (pend_still (spcs s) i (StEnd e) StIdle Hp eq_refl eq_refl Hle) as Hpn. pose proof (num_insert driving (spcs s) i (StEnd e) StIdle Hp) as Hd. cbn in Hd.
    pose proof (gather_delete ending (spcs s) i _ Hp) as Hg. cbn in Hg. destruct e as [r|r]; constructor; cbn; try done; try (rewrite Hpn; done); try lia;
      rewrite A7, Hg, gather_insert; cbn; solve_Permutation.
Qed.

Lemma stream_init_inv s : stream_init s → stream_inv s [].
Proof.
  destruct s as [c f m en ha re wo dr]. intros [[= -> -> -> -> -> -> ->] Hi]. cbn [spcs] in Hi.
  assert (Hn : num driving m = 0) by (apply num_none; by intros i p ->%Hi).
  assert (He : gather ending m = []) by (apply gather_none; by intros i p ->%Hi).
  constructor; cbn -[num gather]; try done; [apply wq_is_none|by rewrite gather_quiet|constructor|by rewrite He].
Qed.

Lemma stream_reach_inv s : reachable stream_init stream_next s → ∃ l, stream_inv s l.
Proof.
  apply (reachable_ind _ _ (λ s, ∃ l, stream_inv s l)); [intros x Hx; exists []; by apply stream_init_inv|].
  intros x y [l I] [i Hs]. by eapply stream_step_inv.
Qed.

Definition stream_at_rest (s : stream) : Prop := flight s = [] ∧ ∀ i p, spcs s !! i = Some p → p = StIdle.

(** C23: a stream gives the reactor its requests of one direction one at a time and in
    order.  In every interleaving of submitters and completions at most one request is with
    the reactor or being submitted; the requests are handed to it in the order they took the
    stream's lock; every one handed over is in flight, was refused on the way in and returned
    to its caller, has woken its task, was refused when its turn came, or is with a thread
    about to do one of these, each exactly once; and a stream with nothing in flight and no
    thread at work has an empty queue and takes the next request at once. *)
Theorem stream_one_at_a_time s : reachable stream_init stream_next s →
  (Z.of_nat (length (flight s)) + num driving (spcs s) ≤ 1) ∧
  (∃ l, wq_is (ch_q (chain_ s)) l ∧ entered s = handed s ++ gather pend (spcs s) ++ l ∧ queued (chain_ s) = u64 (Z.of_nat (length l))) ∧
  NoDup (entered s) ∧
  handed s ≡ₚ flight s ++ returned_ s ++ woke s ++ dropped s ++ gather ending (spcs s) ∧
  (stream_at_rest s → busy (chain_ s) = false ∧ wq_is (ch_q (chain_ s)) [] ∧ entered s ≡ₚ returned_ s ++ woke s ++ dropped s).
Proof.
  intros [l I]%stream_reach_inv. pose proof I as [A1 A2 A3 A4 A5 A6 A7]. split_and!; [destruct (busy (chain_ s)); cbn in A2; lia|by exists l|done|done|].
  intros [Hf Hi]. assert (Hn : num driving (spcs s) = 0) by (apply num_none; by intros i p ->%Hi).
  assert (He : gather ending (spcs s) = []) by (apply gather_none; by intros i p ->%Hi). rewrite Hf in *. cbn in A2.
  destruct (busy (chain_ s)); [cbn in A2; lia|]. rewrite (A3 eq_refl) in *. split_and!; [done|done|]. rewrite A5, gather_quiet, A7, He by done. cbn. by rewrite !app_nil_r.
Qed.
End stream.

(** ** Runs *)

Definition stream_start : stream (Q := WaitList) := mkStream Chain_new [] {[0%nat := StIdle; 1%nat := StIdle]} [] [] [] [] [].

Lemma stream_start_init : stream_init stream_start.
Proof.
  split; [done|]. intros i p H. change ((<[0%nat := StIdle]> {[1%nat := StIdle]} : gmap nat spc) !! i = Some p) in H.
  apply lookup_insert_Some in H as [[_ <-]|[_ H]]; [done|]. by apply lookup_singleton_Some in H as [_ <-].
Qed.

(** One request in flight, a second queued behind it. *)
Definition two_sends : stream (Q := WaitList) :=
  mkStream (chain_enter 32 (chain_enter 16 (Chain_new (Q := WaitList))).2).2 [16] {[0%nat := StIdle; 1%nat := StIdle]} [16; 32] [16] [] [] [].

Lemma two_sends_reached : rtc stream_next stream_start two_sends.
Proof.
  eapply rtc_l; [exists 0%nat; eapply (t_first _ _ 16); [done|done|by apply not_elem_of_nil|reflexivity]|].
  eapply rtc_l; [exists 0%nat; by eapply t_accepted|].
  eapply rtc_l; [exists 1%nat; eapply (t_queue _ _ 32); [done|done|set_solver|reflexivity]|]. apply rtc_refl.
Qed.

Lemma stream_one_at_a_time_witness :
  NoDup (entered two_sends) ∧ handed two_sends ≡ₚ flight two_sends ++ returned_ two_sends ++ woke two_sends ++ dropped two_sends ++ gather ending (spcs two_sends) ∧
  queued (chain_ two_sends) = 1.
Proof.
  assert (R : reachable stream_init stream_next two_sends) by (exists stream_start; split; [exact stream_start_init|exact two_sends_reached]).
  split_and!; [apply (stream_one_at_a_time two_sends R)|apply (stream_one_at_a_time two_sends R)|reflexivity].
Defined.

Definition lost_send : stream (Q := WaitList) :=
  mkStream (chain_advance (chain_advance (chain_ two_sends)).2).2 [] {[0%nat := StIdle; 1%nat := StIdle]} [16; 32] [16; 32] [] [16] [32].

(** a queued send can be forgotten.  Its caller was told to wait; when its turn comes the
    reactor refuses it (its token was cancelled meanwhile, or the reactor is stopping), and
    [SubmitOne], called from [Advance], goes on to the next request without resuming it: the
    stream comes to rest with the request neither returned to its caller nor woken. *)
Theorem stream_forgets_refused :
  reachable stream_init stream_next lost_send ∧ stream_at_rest lost_send ∧
  32 ∈ entered lost_send ∧ 32 ∉ returned_ lost_send ++ woke lost_send ++ flight lost_send.
Proof.
  split_and!; [|split; [done|]|by apply elem_of_list_further, elem_of_list_here || set_solver|set_solver].
  - exists stream_start. split; [exact stream_start_init|]. etrans; [apply two_sends_reached|].
    eapply rtc_l; [exists 0%nat; eapply (t_complete _ _ 16 [] []); done|].
    eapply rtc_l; [exists 0%nat; eapply t_next; [done|reflexivity|done]|].
    eapply rtc_l; [exists 0%nat; by eapply t_next_immediate|].
    eapply rtc_l; [exists 0%nat; eapply t_none; [done|reflexivity]|].
    eapply rtc_l; [exists 0%nat; by eapply t_end|]. apply rtc_refl.
  - intros i p H. apply (proj2 stream_start_init i p H).
Qed.
