(* ===== verification/IoAccept.v ===== *)
(** * The acceptor (src/IoShared.cpp, src/posix/IoReactor.cpp, include/IoReactor.h)

    An [IoAcceptor] keeps a number of accept requests posted; every connection that comes in
    goes to the oldest waiting task, or to the ready list when nobody waits.  The slots, the
    callers, the cancelling threads and the thread that stops the acceptor interleave; a
    section under the acceptor's mutex is one step.  Whether a socket can be made, whether an
    accept is refused, when and how it completes, and which tokens are cancelled is left open.
    [posix] is whether the reactor's [SubmitAccept] closes the socket it is given, as the one
    of src/posix/IoReactor.cpp does. *)

From S2P Require Import Prelude WaitLists SyncCore.
Local Open Scope sched_scope.

Section acceptor.
Context {Q : Type} `{!WaitQueue Q} (posix : bool).

(** The loop of [OnComplete] that looks for a waiter: cancelled ones are put aside, the last
    one put aside first. *)
Fixpoint pick (fuel : nat) (cancelled : Z → bool) (skipped : list Z) (q : Q) : option (Z * list Z * Q) :=
  match fuel with
  | O => None
  | S fuel' =>
      let '(w, q1) := wq_pop q in
      if w =? 0 then Some (0, skipped, q1)
      else if cancelled w then pick fuel' cancelled (w :: skipped) q1
      else Some (w, skipped, q1)
  end.

Inductive slot_pc :=
| PIdle                            (* nothing posted *)
| PMade (s : Z)                    (* socket made, not counted yet *)
| PCounted (s : Z)                 (* in [SubmitAccept] *)
| PRefused (s : Z)                 (* refused, still counted *)
| PFlight (s : Z)
| PDone (s : Z) (ok : bool)        (* in [OnComplete], before the lock *)
| PClose (s : Z)                   (* about to close the socket *)
| PGive (s w : Z) (sk : list Z)    (* about to give it to waiter [w] *)
| PSkip (sk : list Z).             (* waking cancelled waiters *)

Inductive acc_pc :=
| AIdle
| AStop                            (* stopping set, about to cancel the waiters *)
| AWalk (st : bool) (vs : list Z)  (* waking the waiters taken; [st]: inside [Stop] *)
| AWait                            (* in [Stop], waiting for the accepts in flight *)
| AClose (vs : list Z).            (* closing what was ready *)

Record acceptor := mkAcc {
  ready : list Z; waiters : Q; outstanding : Z; stopping : bool; slots : gmap nat slot_pc; agents : gmap nat acc_pc;
  made : list Z; closed : list Z; given : list Z; asked : list Z; woken : list (Z * Z); swept : bool; drained : bool }.

Definition a_slot (i : nat) (p : slot_pc) (s : acceptor) : acceptor :=
  mkAcc (ready s) (waiters s) (outstanding s) (stopping s) (<[i := p]> (slots s)) (agents s) (made s) (closed s) (given s) (asked s) (woken s) (swept s) (drained s).
Definition a_agent (i : nat) (p : acc_pc) (s : acceptor) : acceptor :=
  mkAcc (ready s) (waiters s) (outstanding s) (stopping s) (slots s) (<[i := p]> (agents s)) (made s) (closed s) (given s) (asked s) (woken s) (swept s) (drained s).
Definition a_made (x : Z) (s : acceptor) : acceptor :=
  mkAcc (ready s) (waiters s) (outstanding s) (stopping s) (slots s) (agents s) (x :: made s) (closed s) (given s) (asked s) (woken s) (swept s) (drained s).
Definition a_close (x : Z) (s : acceptor) : acceptor :=
  mkAcc (ready s) (waiters s) (outstanding s) (stopping s) (slots s) (agents s) (made s) (x :: closed s) (given s) (asked s) (woken s) (swept s) (drained s).
Definition a_count (d : Z) (s : acceptor) : acceptor :=
  mkAcc (ready s) (waiters s) (outstanding s ⊕ d) (stopping s) (slots s) (agents s) (made s) (closed s) (given s) (asked s) (woken s) (swept s) (drained s).
Definition a_give (x : Z) (s : acceptor) : acceptor :=
  mkAcc (ready s) (waiters s) (outstanding s) (stopping s) (slots s) (agents s) (made s) (closed s) (x :: given s) (asked s) (woken s) (swept s) (drained s).
Definition a_wake (w v : Z) (s : acceptor) : acceptor :=
  mkAcc (ready s) (waiters s) (outstanding s) (stopping s) (slots s) (agents s) (made s) (closed s) (given s) (asked s) ((w, v) :: woken s) (swept s) (drained s).
Definition a_lists (r : list Z) (q : Q) (s : acceptor) : acceptor :=
  mkAcc r q (outstanding s) (stopping s) (slots s) (agents s) (made s) (closed s) (given s) (asked s) (woken s) (swept s) (drained s).
Definition a_ask (w : Z) (s : acceptor) : acceptor :=
  mkAcc (ready s) (waiters s) (outstanding s) (stopping s) (slots s) (agents s) (made s) (closed s) (given s) (w :: asked s) (woken s) (swept s) (drained s).
Definition a_flags (st sw dr : bool) (s : acceptor) : acceptor :=
  mkAcc (ready s) (waiters s) (outstanding s) st (slots s) (agents s) (made s) (closed s) (given s) (asked s) (woken s) sw dr.

(** [Post] and [OnComplete] of slot [i]. *)
Inductive slot_step (i : nat) (s : acceptor) : acceptor → Prop :=
| p_make x : slots s !! i = Some PIdle → x ≠ 0 → x ∉ made s → slot_step i s (a_slot i (PMade x) (a_made x s))
| p_unregistered x : slots s !! i = Some (PMade x) → slot_step i s (a_slot i PIdle (a_close x s))
| p_count x : slots s !! i = Some (PMade x) → slot_step i s (a_slot i (PCounted x) (a_count 1 s))
| p_refused x : slots s !! i = Some (PCounted x) → slot_step i s (a_slot i (PRefused x) (if posix then a_close x s else s))
| p_uncount x : slots s !! i = Some (PRefused x) → slot_step i s (a_slot i (PClose x) (a_count (-1) s))
| p_flight x : slots s !! i = Some (PCounted x) → slot_step i s (a_slot i (PFlight x) (if posix then a_close x s else s))
| p_done x ok : slots s !! i = Some (PFlight x) → slot_step i s (a_slot i (PDone x ok) s)
| p_fail x ok : slots s !! i = Some (PDone x ok) → ok && negb (stopping s) = false → slot_step i s (a_slot i (PClose x) (a_count (-1) s))
| p_ready x c fuel sk q : slots s !! i = Some (PDone x true) → stopping s = false → pick fuel c [] (waiters s) = Some (0, sk, q) →
    slot_step i s (a_slot i (PSkip sk) (a_lists (ready s ++ [x]) q (a_count (-1) s)))
| p_pick x c fuel w sk q : slots s !! i = Some (PDone x true) → stopping s = false → pick fuel c [] (waiters s) = Some (w, sk, q) → w ≠ 0 →
    slot_step i s (a_slot i (PGive x w sk) (a_lists (ready s) q (a_count (-1) s)))
| p_close x : slots s !! i = Some (PClose x) → slot_step i s (a_slot i PIdle (a_close x s))
| p_give x w sk : slots s !! i = Some (PGive x w sk) → slot_step i s (a_slot i (PSkip sk) (a_wake w x (a_give x s)))
| p_skip w sk : slots s !! i = Some (PSkip (w :: sk)) → slot_step i s (a_slot i (PSkip sk) (a_wake w 0 s))
| p_again : slots s !! i = Some (PSkip []) → slot_step i s (a_slot i PIdle s).

(** [TryTake], [TakeOrQueue], [CancelWaiters] and [Stop]. *)
Inductive agent_step (i : nat) (s : acceptor) : acceptor → Prop :=
| n_take r x : agents s !! i = Some AIdle → ready s = r ++ [x] → agent_step i s (a_give x (a_lists r (waiters s) s))
| n_queue w : agents s !! i = Some AIdle → w ≠ 0 → w ∉ asked s → ready s = [] → stopping s = false →
    agent_step i s (a_ask w (a_lists [] (wq_push w (waiters s)) s))
| n_cancel P h q vs : agents s !! i = Some AIdle → wq_some P (waiters s) = (h, q) → walks (wq_link q) h vs →
    agent_step i s (a_agent i (AWalk false vs) (a_lists (ready s) q s))
| n_walk st w vs : agents s !! i = Some (AWalk st (w :: vs)) → agent_step i s (a_agent i (AWalk st vs) (a_wake w 0 s))
| n_walked (st : bool) : agents s !! i = Some (AWalk st []) → agent_step i s (a_agent i (if st then AWait else AIdle) s)
| n_stop : agents s !! i = Some AIdle → stopping s = false → agent_step i s (a_agent i AStop (a_flags true (swept s) (drained s) s))
| n_sweep h q vs : agents s !! i = Some AStop → wq_some (λ _, true) (waiters s) = (h, q) → walks (wq_link q) h vs →
    agent_step i s (a_agent i (AWalk true vs) (a_flags (stopping s) true (drained s) (a_lists (ready s) q s)))
| n_swap : agents s !! i = Some AWait → agent_step i s (a_agent i (AClose (ready s)) (a_flags (stopping s) (swept s) true (a_lists [] (waiters s) s)))
| n_close x vs : agents s !! i = Some (AClose (x :: vs)) → agent_step i s (a_agent i (AClose vs) (a_close x s))
| n_closed : agents s !! i = Some (AClose []) → agent_step i s (a_agent i AIdle s).

Definition acc_next (s s' : acceptor) : Prop := ∃ i, slot_step i s s' ∨ agent_step i s s'.

Definition acc_init (s : acceptor) : Prop :=
  s = mkAcc [] wq_none 0 false (slots s) (agents s) [] [] [] [] [] false false ∧
  (∀ i p, slots s !! i = Some p → p = PIdle) ∧ (∀ i p, agents s !! i = Some p → p = AIdle).

(** ** What holds *)

Definition slot_socks (p : slot_pc) : list Z :=
  match p with PMade x | PCounted x | PRefused x | PFlight x | PDone x _ | PClose x | PGive x _ _ => [x] | _ => [] end.
Definition slot_waits (p : slot_pc) : list Z := match p with PGive _ w sk => w :: sk | PSkip sk => sk | _ => [] end.
Definition agent_socks (p : acc_pc) : list Z := match p with AClose vs => vs | _ => [] end.
Definition agent_waits (p : acc_pc) : list Z := match p with AWalk _ vs => vs | _ => [] end.
Definition counted (p : slot_pc) : bool := match p with PCounted _ | PRefused _ | PFlight _ | PDone _ _ => true | _ => false end.
Definition past_sweep (p : acc_pc) : bool := match p with AWalk true _ | AWait | AClose _ => true | _ => false end.

Record acc_inv (s : acceptor) (l : list Z) : Prop := {
  ai_queue : wq_is (waiters s) l;
  ai_meet : ready s = [] ∨ l = [];
  ai_count : outstanding s = u64 (num counted (slots s));
  ai_socks : made s ≡ₚ closed s ++ ready s ++ given s ++ gather slot_socks (slots s) ++ gather agent_socks (agents s);
  ai_made : NoDup (made s);
  ai_waits : asked s ≡ₚ l ++ gather slot_waits (slots s) ++ gather agent_waits (agents s) ++ (woken s).*1;
  ai_asked : NoDup (asked s) ∧ 0 ∉ asked s;
  ai_past i p : agents s !! i = Some p → past_sweep p = true → swept s = true;
  ai_stop i : agents s !! i = Some AStop → stopping s = true;
  ai_swept : swept s = true → stopping s = true ∧ l = [];
  ai_drained : drained s = true → swept s = true ∧ ready s = [] }.

Lemma waiter_pick_ok fuel c sk q l w sk' q' : wq_is q l → pick fuel c sk q = Some (w, sk', q') →
  ∃ l', wq_is q' l' ∧ (w = 0 → l' = [] ∧ sk' ≡ₚ sk ++ l) ∧ (w ≠ 0 → l ≠ [] ∧ w :: sk' ++ l' ≡ₚ sk ++ l).
Proof.
  revert sk q l. induction fuel as [|fuel IH]; intros sk q l Hq; [done|]. cbn [pick]. destruct (wq_pop_ok _ _ Hq) as (H1 & H2 & _). destruct (wq_is_ok _ _ Hq) as [_ H0].
  destruct (wq_pop q) as [x q1]. cbn [fst snd] in *. destruct l as [|y l]; cbn in H1; subst x; cbn [tail] in H2.
  - cbn. intros [= <- <- <-]. exists []. split_and!; [done| |done]. by rewrite app_nil_r.
  - assert (y ≠ 0) as Hy by set_solver. rewrite (proj2 (Z.eqb_neq _ _) Hy). destruct (c y).
    + intros Hp. apply (IH _ _ l H2) in Hp as (l' & B1 & B2 & B3). exists l'. split_and!; [done| |].
      * intros Hw. destruct (B2 Hw) as [-> B]. split; [done|]. rewrite B. cbn. solve_Permutation.
      * intros Hw. destruct (B3 Hw) as [_ B]. split; [done|]. rewrite B. cbn. solve_Permutation.
    + intros [= <- <- <-]. exists l. split_and!; [done|done|]. intros _. split; [done|]. solve_Permutation.
Qed.

(** The loop ends within the length of the queue. *)
Lemma pick_returns fuel c sk q l : wq_is q l → (length l < fuel)%nat → is_Some (pick fuel c sk q).
Proof.
  revert sk q l. induction fuel as [|fuel IH]; intros sk q l Hq Hf; [lia|]. cbn [pick]. destruct (wq_pop_ok _ _ Hq) as (H1 & H2 & _).
  destruct (wq_pop q) as [x q1]. cbn [fst snd] in *. destruct (Z.eqb_spec x 0); [by eexists|]. destruct (c x); [|by eexists].
  destruct l as [|y l]; [by cbn in H1|]. eapply IH; [exact H2|cbn in *; lia].
Qed.

(** What moving one slot or one agent does to what they hold. *)
Lemma slots_hold {A} (f : slot_pc → list A) (m : gmap nat slot_pc) i p p' : m !! i = Some p → ∃ r, gather f m ≡ₚ f p ++ r ∧ gather f (<[i := p']> m) ≡ₚ f p' ++ r.
Proof. intros Hp. exists (gather f (delete i m)). split; [by apply gather_delete|apply gather_insert]. Qed.
Lemma agents_hold {A} (f : acc_pc → list A) (m : gmap nat acc_pc) i p p' : m !! i = Some p → ∃ r, gather f m ≡ₚ f p ++ r ∧ gather f (<[i := p']> m) ≡ₚ f p' ++ r.
Proof. intros Hp. exists (gather f (delete i m)). split; [by apply gather_delete|apply gather_insert]. Qed.

Lemma u64_shift a b d : a = u64 b → a ⊕ d = u64 (b + d).
Proof. intros ->. unfold u64. by rewrite Z.add_mod_idemp_l by lia. Qed.

Hypothesis Hposix : posix = false.

Ltac slot_case A4 A6 Hp p' :=
  let r1 := fresh "r" in let r2 := fresh "r" in let E1 := fresh "E" in let E2 := fresh "E" in let F1 := fresh "F" in let F2 := fresh "F" in
  destruct (slots_hold slot_socks _ _ _ p' Hp) as (r1 & E1 & E2); destruct (slots_hold slot_waits _ _ _ p' Hp) as (r2 & F1 & F2);
  rewrite E1 in A4; rewrite F1 in A6; cbn in A4, A6;
  constructor; cbn -[num gather]; try done;
  try (rewrite E2, A4; cbn; solve_Permutation); try (rewrite F2, A6; cbn; solve_Permutation).

Lemma slot_step_inv s l i s' : acc_inv s l → slot_step i s s' → ∃ l', acc_inv s' l'.
Proof.
  intros I Hs. pose proof I as [A1 A2 A3 A4 A5 A6 A7 A8 A9 A10 A11].
  assert (Hc : ∀ p p' d, slots s !! i = Some p → d = Z.b2z (counted p') - Z.b2z (counted p) → outstanding s ⊕ d = u64 (num counted (<[i := p']> (slots s)))).
  { intros p p' d Hp ->. rewrite (u64_shift _ _ _ A3), (num_insert _ _ _ p) by done. f_equal. lia. }
  assert (Hk : ∀ p p', slots s !! i = Some p → counted p' = counted p → outstanding s = u64 (num counted (<[i := p']> (slots s)))).
  { intros p p' Hp E. rewrite A3, (num_insert _ _ _ p), E by done. f_equal. lia. }
  destruct Hs as [x Hp H0 Hx|x Hp|x Hp|x Hp|x Hp|x Hp|x ok Hp|x ok Hp Hf|x c fuel sk q Hp Hst Hpk|x c fuel w sk q Hp Hst Hpk Hw|x Hp|x w sk Hp|w sk Hp|Hp].
  - exists l. slot_case A4 A6 Hp (PMade x); [by eapply Hk|by constructor].
  - exists l. slot_case A4 A6 Hp PIdle. by eapply Hk.
  - exists l. slot_case A4 A6 Hp (PCounted x). by eapply Hc.
  - rewrite Hposix. exists l. slot_case A4 A6 Hp (PRefused x). by eapply Hk.
  - exists l. slot_case A4 A6 Hp (PClose x). by eapply Hc.
  - rewrite Hposix. exists l. slot_case A4 A6 Hp (PFlight x). by eapply Hk.
  - exists l. slot_case A4 A6 Hp (PDone x ok). by eapply Hk.
  - exists l. slot_case A4 A6 Hp (PClose x). by eapply Hc.
  - destruct (waiter_pick_ok _ _ _ _ _ _ _ _ A1 Hpk) as (l' & B1 & B2 & _). destruct (B2 eq_refl) as [-> B3]. cbn in B3. exists [].
    slot_case A4 A6 Hp (PSkip sk).
    + by right.
    + by eapply Hc.
    + rewrite F0, A6. cbn [slot_waits app]. rewrite B3. solve_Permutation.
    + intros H. split; [by apply A10|done].
    + intros H. destruct (A11 H) as [H1 _]. destruct (A10 H1). congruence.
  - destruct (waiter_pick_ok _ _ _ _ _ _ _ _ A1 Hpk) as (l' & B1 & _ & B2). destruct (B2 Hw) as [Hl B3]. cbn in B3. exists l'.
    slot_case A4 A6 Hp (PGive x w sk).
    + destruct A2; [by left|done].
    + by eapply Hc.
    + rewrite F0, A6, <- B3. cbn [slot_waits app]. solve_Permutation.
    + intros H. destruct (A10 H) as [H1 _]. congruence.
  - exists l. slot_case A4 A6 Hp PIdle. by eapply Hk.
  - exists l. slot_case A4 A6 Hp (PSkip sk). by eapply Hk.
  - exists l. slot_case A4 A6 Hp (PSkip sk). by eapply Hk.
  - exists l. slot_case A4 A6 Hp PIdle. by eapply Hk.
Qed.

(** Taking some of the waiters. *)
Lemma take_ok P q l h q' vs : wq_is q l → wq_some P q = (h, q') → walks (wq_link q') h vs →
  wq_is q' (filter (λ x, P x = false) l) ∧ filter (λ x, P x = false) l ++ vs ≡ₚ l.
Proof.
  intros Hq E Hv. destruct (wq_some_ok P _ _ Hq) as (H1 & H2 & _). rewrite E in H1, H2. cbn [fst snd] in *.
  rewrite (walks_det _ _ _ _ Hv H1). split; [done|apply filter_split].
Qed.

Lemma agents_past (m : gmap nat acc_pc) i p p' (b b' : bool) : m !! i = Some p → (past_sweep p' = true → b' = true) → (b = true → b' = true) →
  (∀ j q, m !! j = Some q → past_sweep q = true → b = true) → ∀ j q, <[i := p']> m !! j = Some q → past_sweep q = true → b' = true.
Proof. intros Hp H1 H2 H j q [[<- <-]|[_ Hj]]%lookup_insert_Some Hq; [by apply H1|]. by eapply H2, H. Qed.

Lemma agents_stop (m : gmap nat acc_pc) i p' (b b' : bool) : (p' = AStop → b' = true) → (b = true → b' = true) →
  (∀ j, m !! j = Some AStop → b = true) → ∀ j, <[i := p']> m !! j = Some AStop → b' = true.
Proof. intros H1 H2 H j [[<- ->]|[_ Hj]]%lookup_insert_Some; [by apply H1|]. by eapply H2, H. Qed.

Ltac agent_case A4 A6 Hp p' :=
  let r1 := fresh "r" in let r2 := fresh "r" in let E1 := fresh "E" in let E2 := fresh "E" in let F1 := fresh "F" in let F2 := fresh "F" in
  destruct (agents_hold agent_socks _ _ _ p' Hp) as (r1 & E1 & E2); destruct (agents_hold agent_waits _ _ _ p' Hp) as (r2 & F1 & F2);
  rewrite E1 in A4; rewrite F1 in A6; cbn in A4, A6;
  constructor; cbn -[num gather]; try done;
  try (rewrite E2, A4; cbn; solve_Permutation); try (rewrite F2, A6; cbn; solve_Permutation).

Lemma agent_step_inv s l i s' : acc_inv s l → agent_step i s s' → ∃ l', acc_inv s' l'.
Proof.
  intros I Hs. pose proof I as [A1 A2 A3 A4 A5 A6 A7 A8 A9 A10 A11].
  destruct Hs as [r x Hp Hr|w Hp Hw Ha Hr Hst|P h q vs Hp E Hv|st w vs Hp|st Hp|Hp Hst|h q vs Hp E Hv|Hp|x vs Hp|Hp].
  - exists l. rewrite Hr in *. destruct A2 as [A2|A2]; [by destruct r|]. constructor; cbn -[num gather]; try done; [by right|rewrite A4; solve_Permutation|].
    intros H. destruct (A11 H) as [_ ?]. by destruct r.
  - assert (Hwl : w ∉ l) by (rewrite A6 in Ha; set_solver). exists (l ++ [w]). constructor; cbn -[num gather]; try done.
    + by apply wq_push_ok.
    + by left.
    + by rewrite Hr in A4.
    + rewrite A6. solve_Permutation.
    + destruct A7 as [A7 A7']. split; [by constructor|]. set_solver.
    + intros H. destruct (A10 H). congruence.
    + intros H. split; [by apply A11|done].
  - destruct (take_ok _ _ _ _ _ _ A1 E Hv) as [B1 B2].
    assert (Hnil : l = [] → filter (λ x, P x = false) l = []) by (by intros ->). generalize dependent (filter (λ x, P x = false) l). intros fl B1 B2 Hnil. exists fl. agent_case A4 A6 Hp (AWalk false vs).
    + destruct A2 as [?|?]; [by left|right; by apply Hnil].
    + rewrite F0, A6, <- B2. cbn [agent_waits app]. solve_Permutation.
    + by eapply agents_past; [..|exact A8].
    + by eapply agents_stop; [..|exact A9].
    + intros H. destruct (A10 H) as [? ?]. split; [done|by apply Hnil].
  - exists l. agent_case A4 A6 Hp (AWalk st vs).
    + eapply agents_past; [exact Hp| |by intros H; exact H|exact A8]. intros H. by eapply A8.
    + by eapply agents_stop; [..|exact A9].
  - exists l. destruct st.
    + agent_case A4 A6 Hp AWait; [|by eapply agents_stop; [..|exact A9]]. eapply agents_past; [exact Hp| |by intros H; exact H|exact A8]. intros H. by eapply A8.
    + agent_case A4 A6 Hp AIdle; [by eapply agents_past; [..|exact A8]|by eapply agents_stop; [..|exact A9]].
  - exists l. agent_case A4 A6 Hp AStop.
    + by eapply agents_past; [..|exact A8].
    + intros H. split; [done|by apply A10].
  - destruct (take_ok _ _ _ _ _ _ A1 E Hv) as [B1 B2]. assert (filter (λ x : Z, true = false) l = []) as El by (clear; induction l as [|y l IH]; [done|by rewrite filter_cons_False]).
    rewrite El in *. exists []. agent_case A4 A6 Hp (AWalk true vs).
    + by right.
    + rewrite F0, A6, <- B2. cbn [agent_waits app]. solve_Permutation.
    + by eapply agents_stop; [..|exact A9].
    + intros _. split; [by eapply A9|done].
    + intros H. split; [done|by apply A11].
  - pose proof (A8 i _ Hp eq_refl) as Hsw. destruct (A10 Hsw) as [_ ->]. exists []. agent_case A4 A6 Hp (AClose (ready s)).
    + by left.
    + by eapply agents_stop; [..|exact A9].
  - exists l. agent_case A4 A6 Hp (AClose vs).
    + eapply agents_past; [exact Hp| |by intros H; exact H|exact A8]. intros H. by eapply A8.
    + by eapply agents_stop; [..|exact A9].
  - exists l. agent_case A4 A6 Hp AIdle; [by eapply agents_past; [..|exact A8]|by eapply agents_stop; [..|exact A9]].
Qed.

Lemma acc_init_inv s : acc_init s → acc_inv s [].
Proof.
  destruct s as [r q o st sl ag ma cl gi ak wo sw dr]. intros ([= -> -> -> -> -> -> -> -> -> -> ->] & Hs & Ha). cbn [slots agents] in Hs, Ha.
  assert (Hg : ∀ f : slot_pc → list Z, f PIdle = [] → gather f sl = []) by (intros f Hf; apply gather_none; intros i p ->%Hs; done).
  assert (Hh : ∀ f : acc_pc → list Z, f AIdle = [] → gather f ag = []) by (intros f Hf; apply gather_none; intros i p ->%Ha; done).
  constructor; cbn -[num gather]; try done.
  - apply wq_is_none.
  - by left.
  - by rewrite num_none by (by intros i p ->%Hs).
  - by rewrite (Hg slot_socks), (Hh agent_socks).
  - constructor.
  - by rewrite (Hg slot_waits), (Hh agent_waits).
  - split; [constructor|set_solver].
  - by intros i p ->%Ha.
  - by intros i ?%Ha.
Qed.

Lemma acc_reach_inv s : reachable acc_init acc_next s → ∃ l, acc_inv s l.
Proof.
  apply (reachable_ind _ _ (λ s, ∃ l, acc_inv s l)); [intros x Hx; exists []; by apply acc_init_inv|].
  intros x y [l I] [i [Hs|Hs]]; [by eapply slot_step_inv|by eapply agent_step_inv].
Qed.
End acceptor.

(** C24: the acceptor loses no connection and no waiter, on a reactor that leaves the socket
    it is given open.  In every interleaving each socket made is closed, ready, given to a
    caller or with one of the threads, in exactly one of these; nobody waits while a
    connection is ready; every waiter queued is still queued, in the hands of a thread about
    to wake it, or was woken, exactly once; the count of accepts in flight is right; after
    [Stop] has cancelled the waiters nobody waits any more, and after it has closed the ready
    sockets none is ready. *)
Theorem acceptor_conserves {Q} `{!WaitQueue Q} (s : acceptor (Q := Q)) : reachable acc_init (acc_next false) s →
  NoDup (closed s ++ ready s ++ given s ++ gather slot_socks (slots s) ++ gather agent_socks (agents s)) ∧
  made s ≡ₚ closed s ++ ready s ++ given s ++ gather slot_socks (slots s) ++ gather agent_socks (agents s) ∧
  outstanding s = u64 (num counted (slots s)) ∧
  (drained s = true → ready s = []) ∧
  ∃ l, wq_is (waiters s) l ∧ (ready s = [] ∨ l = []) ∧ (swept s = true → l = []) ∧
    NoDup (l ++ gather slot_waits (slots s) ++ gather agent_waits (agents s) ++ (woken s).*1) ∧
    asked s ≡ₚ l ++ gather slot_waits (slots s) ++ gather agent_waits (agents s) ++ (woken s).*1.
Proof.
  intros [l I]%acc_reach_inv; [|done]. pose proof I as [A1 A2 A3 A4 A5 A6 [A7 _] A8 A9 A10 A11].
  split_and!; [by rewrite <- A4|done|done|intros H; by apply A11|]. exists l. split_and!; [done|done|intros H; by apply A10|by rewrite <- A6|done].
Qed.

(** ** Runs *)

Definition acc_start : acceptor (Q := WaitList) := mkAcc [] wq_none 0 false {[0%nat := PIdle]} {[0%nat := AIdle]} [] [] [] [] [] false false.

Lemma acc_start_init : acc_init acc_start.
Proof.
  split_and!; [done| |]; intros i p H.
  - change (({[0%nat := PIdle]} : gmap nat slot_pc) !! i = Some p) in H. by apply lookup_singleton_Some in H as [_ <-].
  - change (({[0%nat := AIdle]} : gmap nat acc_pc) !! i = Some p) in H. by apply lookup_singleton_Some in H as [_ <-].
Qed.

(** A task waits, a connection comes in on socket 7 and is given to it. *)
Definition acc_served (cl : list Z) : acceptor (Q := WaitList) :=
  mkAcc [] (wq_pop (wq_push 16 (wq_none (Q := WaitList)))).2 0 false {[0%nat := PSkip []]} {[0%nat := AIdle]} [7] cl [7] [16] [(16, 7)] false false.

Lemma acc_served_reached (b : bool) : rtc (acc_next b) acc_start (acc_served (if b then [7] else [])).
Proof.
  eapply rtc_l; [exists 0%nat; right; eapply (n_queue _ _ 16); [done|done|set_solver|done|done]|].
  eapply rtc_l; [exists 0%nat; left; eapply (p_make _ _ _ 7); [done|done|set_solver]|].
  eapply rtc_l; [exists 0%nat; left; by eapply p_count|]. eapply rtc_l; [exists 0%nat; left; by eapply p_flight|].
  eapply rtc_l; [exists 0%nat; left; eapply (p_done _ _ _ 7 true); by destruct b|].
  eapply rtc_l; [exists 0%nat; left; eapply (p_pick _ _ _ 7 (λ _, false) 2 16); [by destruct b|by destruct b|by destruct b|done]|].
  eapply rtc_l; [exists 0%nat; left; eapply (p_give _ _ _ 7); by destruct b|]. destruct b; apply rtc_refl.
Qed.

Lemma acceptor_conserves_witness :
  NoDup (closed (acc_served []) ++ ready (acc_served []) ++ given (acc_served []) ++ gather slot_socks (slots (acc_served [])) ++ gather agent_socks (agents (acc_served []))) ∧
  woken (acc_served []) = [(16, 7)].
Proof.
  split; [|reflexivity].
  apply (acceptor_conserves (acc_served [])). exists acc_start. split; [exact acc_start_init|exact (acc_served_reached false)].
Defined.

(** on Linux the acceptor hands out sockets that are closed.  [SubmitAccept] there closes
    the socket the acceptor made, and the connection the kernel accepts goes to the request's
    [aux], which the acceptor never reads: a waiting task is given the closed number. *)
Theorem acceptor_posix_closed :
  reachable acc_init (acc_next true) (acc_served [7]) ∧ (16, 7) ∈ woken (acc_served [7]) ∧ 7 ∈ closed (acc_served [7]).
Proof. split_and!; [|set_solver|set_solver]. exists acc_start. split; [exact acc_start_init|exact (acc_served_reached true)]. Qed.
