(* ===== verification/WorkerFind.v ===== *)
(** * Where a worker looks for its next task (src/Thread.cpp, [Thread::Worker];
      src/TaskScheduler.cpp, [BuildL3Groups] and the work flags of [StartPool])

    One pass of the find loop of a worker, as a function of the queues and of the cursors the
    worker keeps: its reserved turn at the injector, the fairness tick, its high priority
    inbox, the injector, its deque, its inbox, and the steal scan with its four steps.  What
    other threads do in the meantime shows only in what is left open: which work flags read
    as set and which steals come through.  Queues are lists, oldest first; an owner pops its
    deque at the end and a thief steals from the front. *)

From S2P Require Import Prelude Placement.

(** ** L3 groups *)

(** Groups by last-level cache mask, 0 meaning no mask is known: [seen] are the masks so far. *)
Fixpoint index_of (m : Z) (seen : list Z) : nat := match seen with [] => 0%nat | x :: r => if x =? m then 0%nat else S (index_of m r) end.
Fixpoint mask_groups (masks : list Z) (seen : list Z) : list nat :=
  match masks with
  | [] => []
  | m :: r =>
      if m =? 0 then 0%nat :: mask_groups r seen
      else let g := index_of m seen in g :: mask_groups r (if Nat.eqb g (length seen) then seen ++ [m] else seen)
  end.

Definition worker_groups (masks : list Z) (forced : nat) : list nat :=
  let nw := length masks in
  if Nat.leb 2 forced && Nat.leb forced nw then (λ q, (q * forced / nw)%nat) <$> seq 0 nw else mask_groups masks [].

(** [l3GroupOf] for [n] deques: the ones after the workers' join worker 0's group. *)
Definition l3GroupOf (masks : list Z) (forced n : nat) : list nat :=
  let g := worker_groups masks forced in take n (g ++ replicate (n - length g) (default 0%nat (head g))).

Definition l3Groups (gs : list nat) : nat := foldr Nat.max 1%nat (S <$> gs).
Definition l3Members (gs : list nat) (g : nat) : list nat := filter (λ d, gs !! d = Some g) (seq 0 (length gs)).
Definition l3Others (gs : list nat) (g : nat) : list nat := filter (λ d, gs !! d ≠ Some g) (seq 0 (length gs)).

(** The flag bytes: group by group, each on cache lines of its own when there are several. *)
Definition kLine : nat := 64.
Definition group_span (gs : list nat) (g : nat) : nat :=
  let m := length (l3Members gs g) in if Nat.eqb (l3Groups gs) 1 then m else ((m + kLine - 1) / kLine * kLine)%nat.
Definition group_base (gs : list nat) (g : nat) : nat := sum_list (group_span gs <$> seq 0 g).
Definition flagSlot (gs : list nat) (d : nat) : nat :=
  let g := default 0%nat (gs !! d) in (group_base gs g + length (l3Members (take d gs) g))%nat.

(** ** The find pass *)

Definition BATCH_SIZE : nat := 64.
Definition kFairTickEvery : Z := 61.

Record Cfg := mkCfg { nq : nat; qIndex : nat; isReserved : bool; seekOnMiss : bool; stickyCap : Z; sibling : option nat; groups : list nat }.

(** What a pass reads of the rest of the pool: which flags are set, which steals come
    through, whether pinning is forced and the I/O lane quiet. *)
Record View := mkView { flag : nat → bool; comes : nat → bool; pinForced : bool; ioQuiet : bool }.

Record W := mkW {
  hi : list Z; lo : list Z; inj : list Z; deqs : list (list Z); task : option Z;
  yielded : bool; fairPass : Z; stealVictim : nat; stickyLeft : Z; l3Local : nat; l3Remote : nat; scanRot : Z; stolenOnK : bool }.

Definition with_queues (h l j : list Z) (d : list (list Z)) (t : option Z) (w : W) : W :=
  mkW h l j d t (yielded w) (fairPass w) (stealVictim w) (stickyLeft w) (l3Local w) (l3Remote w) (scanRot w) (stolenOnK w).
Definition with_yielded (b : bool) (w : W) : W :=
  mkW (hi w) (lo w) (inj w) (deqs w) (task w) b (fairPass w) (stealVictim w) (stickyLeft w) (l3Local w) (l3Remote w) (scanRot w) (stolenOnK w).
Definition with_fair (n : Z) (w : W) : W :=
  mkW (hi w) (lo w) (inj w) (deqs w) (task w) (yielded w) n (stealVictim w) (stickyLeft w) (l3Local w) (l3Remote w) (scanRot w) (stolenOnK w).
Definition with_victim (v l : nat) (w : W) : W :=
  mkW (hi w) (lo w) (inj w) (deqs w) (task w) (yielded w) (fairPass w) v (stickyLeft w) l (l3Remote w) (scanRot w) (stolenOnK w).
Definition with_sticky (n : Z) (w : W) : W :=
  mkW (hi w) (lo w) (inj w) (deqs w) (task w) (yielded w) (fairPass w) (stealVictim w) n (l3Local w) (l3Remote w) (scanRot w) (stolenOnK w).
Definition with_rot (r : Z) (w : W) : W :=
  mkW (hi w) (lo w) (inj w) (deqs w) (task w) (yielded w) (fairPass w) (stealVictim w) (stickyLeft w) (l3Local w) (l3Remote w) r (stolenOnK w).
Definition with_remote (n : nat) (w : W) : W :=
  mkW (hi w) (lo w) (inj w) (deqs w) (task w) (yielded w) (fairPass w) (stealVictim w) (stickyLeft w) (l3Local w) n (scanRot w) (stolenOnK w).
Definition with_stolen (b : bool) (w : W) : W :=
  mkW (hi w) (lo w) (inj w) (deqs w) (task w) (yielded w) (fairPass w) (stealVictim w) (stickyLeft w) (l3Local w) (l3Remote w) (scanRot w) b.

Definition none (w : W) : bool := match task w with None => true | _ => false end.
Definition own (c : Cfg) (w : W) : list Z := default [] (deqs w !! qIndex c).

(** Taking the oldest task of the injector, of the high priority inbox. *)
Definition take_inj (w : W) : W := match inj w with t :: r => with_queues (hi w) (lo w) r (deqs w) (Some t) w | [] => w end.
Definition take_hi (w : W) : W := match hi w with t :: r => with_queues r (lo w) (inj w) (deqs w) (Some t) w | [] => w end.
Definition take_lo (w : W) : W := match lo w with t :: r => with_queues (hi w) r (inj w) (deqs w) (Some t) w | [] => w end.

(** [pop_bottom] of the worker's own deque. *)
Definition pop_own (c : Cfg) (w : W) : W :=
  match last (own c w) with
  | Some t => with_queues (hi w) (lo w) (inj w) (<[qIndex c := take (length (own c w) - 1) (own c w)]> (deqs w)) (Some t) w
  | None => w
  end.

(** [drainOwnInbox]: up to 64 tasks, all but the last onto the deque. *)
Definition drainOwnInbox (c : Cfg) (w : W) : W :=
  if negb (none w) || isReserved c then w
  else
    let batch := take BATCH_SIZE (lo w) in
    match last batch with
    | None => w
    | Some t => with_queues (hi w) (drop BATCH_SIZE (lo w)) (inj w) (<[qIndex c := own c w ++ take (length batch - 1) batch]> (deqs w)) (Some t) w
    end.

(** [tryStealFrom]: whether it hit. *)
Definition tryStealFrom (c : Cfg) (v : View) (target : nat) (w : W) : bool * W :=
  if negb (flag v target) then (false, w)
  else if isReserved c && (pinForced v || negb (ioQuiet v)) then (false, w)
  else
    match deqs w !! target with
    | Some (t :: r) =>
        if comes v target then
          (true, (if isReserved c then with_stolen true else id) (with_queues (hi w) (lo w) (inj w) (<[target := r]> (deqs w)) (Some t) w))
        else (false, w)
    | _ => (false, w)
    end.

Definition grouped (c : Cfg) : bool := Nat.ltb 1 (l3Groups (groups c)).
Definition myG (c : Cfg) : nat := default 0%nat (groups c !! qIndex c).

(** The rotation inside the own group: at most once around, past itself. *)
Fixpoint next_local (k : nat) (mine : list nat) (q l : nat) : nat :=
  match k with
  | O => l
  | S k' => let l := ((l + 1) mod length mine)%nat in if decide (mine !! l = Some q) then next_local k' mine q l else l
  end.

(** Step 1: the cursor. *)
Definition pick_victim (c : Cfg) (w : W) : W :=
  if 0 <? stickyLeft w then w
  else if grouped c then
    let mine := l3Members (groups c) (myG c) in
    let l := next_local (length mine) mine (qIndex c) (l3Local w) in
    with_victim (default 0%nat (mine !! l)) l w
  else
    let v := ((stealVictim w + 1) mod nq c)%nat in
    with_victim (if Nat.eqb v (qIndex c) then ((v + 1) mod nq c)%nat else v) (l3Local w) w.

Definition steal_cursor (c : Cfg) (v : View) (w : W) : bool * W :=
  let sticking := 0 <? stickyLeft w in
  let w := pick_victim c w in
  let '(hit, w) := if Nat.eqb (stealVictim w) (qIndex c) then (false, w) else tryStealFrom c v (stealVictim w) w in
  if hit && negb (isReserved c) then (true, with_sticky (if sticking then stickyLeft w - 1 else stickyCap c - 1) w) else (hit, with_sticky 0 w).

(** Step 2: the seek over the flag mask. *)
Definition seek_ok (c : Cfg) (v : View) (w : W) (d : nat) : bool :=
  negb (Nat.eqb d (qIndex c)) && negb (Nat.eqb d (stealVictim w)) && (negb (grouped c) || bool_decide (groups c !! d = Some (myG c))) && flag v d.
Definition seek_mask (c : Cfg) (v : View) (w : W) : Z :=
  foldr (λ d m, if seek_ok c v w d then Z.lor m (Z.shiftl 1 (Z.of_nat d)) else m) 0 (seq 0 (nq c)).
Definition rotate (mask r : Z) : Z := if r =? 0 then mask else Z.lor (Z.shiftr mask r) (u64 (Z.shiftl mask (64 - r))).
Fixpoint first_bit (fuel : nat) (m b : Z) : option Z :=
  match fuel with O => None | S f => if Z.testbit m b then Some b else first_bit f m (b + 1) end.

Definition steal_seek (c : Cfg) (v : View) (w : W) : bool * W :=
  if negb (isReserved c) && Nat.leb (nq c) 64 && seekOnMiss c then
    let mask := seek_mask c v w in
    if mask =? 0 then (false, w)
    else
      let r := Z.land (u32 (scanRot w + 1 + Z.of_nat (qIndex c))) 63 in
      let w := with_rot r w in
      match first_bit 64 (rotate mask r) 0 with
      | Some b => tryStealFrom c v (Z.to_nat (Z.land (b + r) 63)) w
      | None => (false, w)
      end
  else (false, w).

(** Step 3: the sibling, if its deque is fat. *)
Definition steal_sibling (c : Cfg) (v : View) (w : W) : bool * W :=
  if isReserved c then (false, w)
  else
    match sibling c with
    | Some s =>
        if negb (Nat.eqb s (stealVictim w)) && negb (Nat.eqb s (qIndex c)) && Nat.ltb s (nq c) && (kFatDeque <? Z.of_nat (length (default [] (deqs w !! s))))
        then tryStealFrom c v s w else (false, w)
    | None => (false, w)
    end.

(** Step 4: another group, when the own one shows no work. *)
Definition steal_remote (c : Cfg) (v : View) (w : W) : bool * W :=
  if grouped c then
    if existsb (λ d, negb (Nat.eqb d (qIndex c)) && flag v d) (l3Members (groups c) (myG c)) then (false, w)
    else
      let others := l3Others (groups c) (myG c) in
      let r := ((l3Remote w + 1) mod length others)%nat in
      let w := with_remote r w in
      tryStealFrom c v (default 0%nat (others !! r)) w
  else (false, w).

Definition orElse (f : W → bool * W) (x : bool * W) : bool * W := if x.1 then x else f x.2.

Definition steal_scan (c : Cfg) (v : View) (w : W) : W :=
  if Nat.leb (nq c) 1 then w
  else (orElse (steal_remote c v) (orElse (steal_sibling c v) (orElse (steal_seek c v) (steal_cursor c v w)))).2.

(** What is done only while no task is in hand. *)
Definition unless (f : W → W) (w : W) : W := if none w then f w else w.

Definition fair_tick (c : Cfg) (w : W) : W :=
  if isReserved c then w
  else
    let n := u32 (fairPass w + 1) in
    let w := with_fair n w in
    if n mod kFairTickEvery =? 0 then drainOwnInbox c w else w.

(** After a yield the inbox is looked at before the yielder. *)
Definition after_yield (c : Cfg) (w : W) : W :=
  if yielded w then
    let w := with_yielded false w in
    unless (pop_own c) (if isReserved c then w else take_lo w)
  else w.

Definition find_pass (c : Cfg) (v : View) (w : W) : W :=
  let w := if isReserved c then unless take_inj w else w in
  let w := fair_tick c w in
  let w := unless take_hi w in
  let w := if isReserved c then w else unless take_inj w in
  let w := unless (after_yield c) w in
  let w := unless (pop_own c) w in
  let w := drainOwnInbox c w in
  let w := unless (steal_scan c v) w in
  drainOwnInbox c w.

(** ** No task is lost *)

Definition tasks (w : W) : list Z := option_list (task w) ++ hi w ++ lo w ++ inj w ++ mjoin (deqs w).

(** A step keeps the tasks, the number of deques, and a task in hand. *)
Record keeps (w w' : W) : Prop := {
  kp_tasks : tasks w' ≡ₚ tasks w;
  kp_deqs : length (deqs w') = length (deqs w) }.

Lemma keeps_refl w : keeps w w.
Proof. done. Qed.

Lemma keeps_trans w w1 w2 : keeps w w1 → keeps w1 w2 → keeps w w2.
Proof. intros [A1 A2] [B1 B2]. split; [by rewrite B1|by rewrite B2]. Qed.

Lemma mjoin_insert (d : list (list Z)) i l l' : d !! i = Some l → mjoin (<[i := l']> d) ++ l ≡ₚ l' ++ mjoin d.
Proof.
  intros H. rewrite <- (take_drop_middle d i l H) at 2. rewrite insert_take_drop by (by eapply lookup_lt_Some).
  rewrite !join_app. cbn [mjoin list_join]. solve_Permutation.
Qed.

Lemma none_task w : none w = true → task w = None.
Proof. unfold none. by destruct (task w). Qed.

Lemma unless_keeps f w : (none w = true → keeps w (f w)) → keeps w (unless f w).
Proof. unfold unless. destruct (none w); [auto|intros _; apply keeps_refl]. Qed.

Lemma take_inj_keeps w : none w = true → keeps w (take_inj w).
Proof. intros H%none_task. unfold take_inj. destruct (inj w) as [|t r] eqn:E; [done|]. split; [|done]. unfold tasks. rewrite H, E. cbn. solve_Permutation. Qed.

Lemma take_hi_keeps w : none w = true → keeps w (take_hi w).
Proof. intros H%none_task. unfold take_hi. destruct (hi w) as [|t r] eqn:E; [done|]. split; [|done]. unfold tasks. rewrite H, E. cbn. solve_Permutation. Qed.

Lemma take_lo_keeps w : none w = true → keeps w (take_lo w).
Proof. intros H%none_task. unfold take_lo. destruct (lo w) as [|t r] eqn:E; [done|]. split; [|done]. unfold tasks. rewrite H, E. cbn. solve_Permutation. Qed.

Lemma last_take {A} (l : list A) t : last l = Some t → l = take (length l - 1) l ++ [t].
Proof. intros [l' ->]%last_Some. rewrite length_app, Nat.add_sub, take_app_length. done. Qed.

Lemma pop_own_keeps c w : none w = true → (qIndex c < length (deqs w))%nat → keeps w (pop_own c w).
Proof.
  intros H%none_task Hq. unfold pop_own. destruct (last (own c w)) as [t|] eqn:E; [|done]. split; [|cbn; by rewrite length_insert].
  destruct (lookup_lt_is_Some_2 (deqs w) (qIndex c) Hq) as [l Hl]. unfold own in *. rewrite Hl in *. cbn [default from_option id] in *. unfold tasks. cbn [task hi lo inj deqs with_queues option_list].
  rewrite H. pose proof (mjoin_insert (deqs w) (qIndex c) l (take (length l - 1) l) Hl) as Hm.
  rewrite (last_take l t E) in Hm at 3. apply (Permutation_app_inv_l (take (length l - 1) l)). cbn [option_list app].
  transitivity (hi w ++ lo w ++ inj w ++ (mjoin (<[qIndex c := take (length l - 1) l]> (deqs w)) ++ take (length l - 1) l ++ [t])); [solve_Permutation|].
  rewrite Hm. solve_Permutation.
Qed.

Lemma drain_keeps c w : (qIndex c < length (deqs w))%nat → keeps w (drainOwnInbox c w).
Proof.
  intros Hq. unfold drainOwnInbox. destruct (none w) eqn:H; [|done]. apply none_task in H. destruct (isReserved c); [done|]. cbn [negb orb].
  destruct (last (take BATCH_SIZE (lo w))) as [t|] eqn:E; [|done]. split; [|cbn; by rewrite length_insert].
  destruct (lookup_lt_is_Some_2 (deqs w) (qIndex c) Hq) as [l Hl]. unfold own. rewrite Hl. cbn [default from_option id]. unfold tasks. cbn [task hi lo inj deqs with_queues option_list].
  rewrite H. set (b := take BATCH_SIZE (lo w)) in *. pose proof (mjoin_insert (deqs w) (qIndex c) l (l ++ take (length b - 1) b) Hl) as Hm.
  assert (El : lo w = (take (length b - 1) b ++ [t]) ++ drop BATCH_SIZE (lo w)) by (rewrite <- (last_take b t E); symmetry; apply take_drop).
  set (dr := drop BATCH_SIZE (lo w)) in *. clearbody dr. clearbody b. rewrite El. apply (Permutation_app_inv_r l). cbn [option_list app].
  transitivity (t :: hi w ++ dr ++ inj w ++ (mjoin (<[qIndex c := l ++ take (length b - 1) b]> (deqs w)) ++ l)); [solve_Permutation|].
  rewrite Hm. solve_Permutation.
Qed.

Lemma try_steal_keeps c v d w : none w = true → keeps w (tryStealFrom c v d w).2.
Proof.
  intros H%none_task. unfold tryStealFrom. destruct (negb (flag v d)); [done|]. destruct (isReserved c && _); [done|].
  destruct (deqs w !! d) as [[|t r]|] eqn:E; [done| |done]. destruct (comes v d); [|done]. cbn [snd].
  assert (keeps w (with_queues (hi w) (lo w) (inj w) (<[d := r]> (deqs w)) (Some t) w)) as [K1 K2]; [|by destruct (isReserved c); split].
  split; [|cbn; by rewrite length_insert]. unfold tasks. cbn [task hi lo inj deqs with_queues option_list]. rewrite H.
  pose proof (mjoin_insert (deqs w) d (t :: r) r E) as Hm. apply (Permutation_app_inv_r r). cbn [option_list app].
  transitivity (hi w ++ lo w ++ inj w ++ (mjoin (<[d := r]> (deqs w)) ++ t :: r)); [solve_Permutation|]. rewrite Hm. solve_Permutation.
Qed.

(** Nothing moved. *)
Record still (w w' : W) : Prop := {
  sl_task : task w' = task w; sl_hi : hi w' = hi w; sl_lo : lo w' = lo w; sl_inj : inj w' = inj w; sl_deqs : deqs w' = deqs w }.

Lemma still_refl w : still w w.
Proof. done. Qed.

Lemma still_trans w w1 w2 : still w w1 → still w1 w2 → still w w2.
Proof. intros [] []. split; congruence. Qed.

Lemma still_keeps w w' : still w w' → keeps w w'.
Proof. intros [E1 E2 E3 E4 E5]. split; [unfold tasks; by rewrite E1, E2, E3, E4, E5|by rewrite E5]. Qed.

Lemma still_none w w' : still w w' → none w' = none w.
Proof. intros [E _ _ _ _]. unfold none. by rewrite E. Qed.

(** A step of the steal scan: it took a task, or it moved nothing. *)
Record scanned (w : W) (x : bool * W) : Prop := {
  sc_keeps : keeps w x.2;
  sc_miss : x.1 = false → still w x.2;
  sc_hit : x.1 = true → none x.2 = false }.

Lemma scanned_miss w w' : still w w' → scanned w (false, w').
Proof. intros H. split; [by apply still_keeps|done|done]. Qed.

Lemma try_steal_scanned c v d w : none w = true → scanned w (tryStealFrom c v d w).
Proof.
  intros H. split; [by apply try_steal_keeps| |]; unfold tryStealFrom; destruct (negb (flag v d)); try done; destruct (isReserved c && _); try done;
    destruct (deqs w !! d) as [[|t r]|]; try done; destruct (comes v d); try done. by destruct (isReserved c).
Qed.

Lemma scanned_still w w1 x : still w w1 → scanned w1 x → scanned w x.
Proof.
  intros S [A B C]. split; [by eapply keeps_trans; [apply still_keeps|]|intros H; eapply still_trans; [done|by apply B]|done].
Qed.

Lemma orElse_scanned w x f : scanned w x → (∀ w1, still w w1 → scanned w1 (f w1)) → scanned w (orElse f x).
Proof.
  intros [A B C] H. unfold orElse. destruct (x.1) eqn:E; [split; [done|by rewrite E|intros _; by apply C]|]. eapply scanned_still; [by apply B|]. by apply H, B.
Qed.

Lemma pick_victim_still c w : still w (pick_victim c w).
Proof. unfold pick_victim. repeat case_match; done. Qed.

Lemma cursor_scanned c v w : none w = true → scanned w (steal_cursor c v w).
Proof.
  intros H. unfold steal_cursor. pose proof (pick_victim_still c w) as S. set (w1 := pick_victim c w) in *.
  assert (none w1 = true) as H1 by (by rewrite (still_none _ _ S)).
  assert (scanned w1 (if Nat.eqb (stealVictim w1) (qIndex c) then (false, w1) else tryStealFrom c v (stealVictim w1) w1)) as Sc
    by (destruct (Nat.eqb _ _); [by apply scanned_miss|by apply try_steal_scanned]).
  destruct (if Nat.eqb _ _ then _ else _) as [hit w2]. destruct Sc as [A B C]. cbn [fst snd] in *. eapply scanned_still; [exact S|].
  destruct hit; cbn; [destruct (isReserved c); split; try done; try (intros; by apply C); destruct A; by split|].
  split; [apply still_keeps|intros _|done]; destruct (B eq_refl); by split.
Qed.

Lemma seek_scanned c v w : none w = true → scanned w (steal_seek c v w).
Proof.
  intros H. unfold steal_seek. destruct (_ && _ && _); [|by apply scanned_miss]. destruct (_ =? 0); [by apply scanned_miss|].
  destruct (first_bit _ _ _); [|by apply scanned_miss]. eapply scanned_still; [|by apply try_steal_scanned]. done.
Qed.

Lemma sibling_scanned c v w : none w = true → scanned w (steal_sibling c v w).
Proof.
  intros H. unfold steal_sibling. destruct (isReserved c); [by apply scanned_miss|]. destruct (sibling c); [|by apply scanned_miss].
  destruct (_ && _ && _ && _); [by apply try_steal_scanned|by apply scanned_miss].
Qed.

Lemma remote_scanned c v w : none w = true → scanned w (steal_remote c v w).
Proof.
  intros H. unfold steal_remote. destruct (grouped c); [|by apply scanned_miss]. destruct (existsb _ _); [by apply scanned_miss|].
  eapply scanned_still; [|by apply try_steal_scanned]. done.
Qed.

Lemma scan_scanned c v w : none w = true →
  scanned w (orElse (steal_remote c v) (orElse (steal_sibling c v) (orElse (steal_seek c v) (steal_cursor c v w)))).
Proof.
  intros H. apply orElse_scanned; [apply orElse_scanned; [apply orElse_scanned; [by apply cursor_scanned|]|]|]; intros w1 S.
  - apply seek_scanned. by rewrite (still_none _ _ S).
  - apply sibling_scanned. by rewrite (still_none _ _ S).
  - apply remote_scanned. by rewrite (still_none _ _ S).
Qed.

Lemma steal_scan_keeps c v w : none w = true → keeps w (steal_scan c v w).
Proof. intros H. unfold steal_scan. destruct (Nat.leb _ _); [done|]. by apply scan_scanned. Qed.

Lemma after_yield_keeps c w : none w = true → (qIndex c < length (deqs w))%nat → keeps w (after_yield c w).
Proof.
  intros H Hq. unfold after_yield. destruct (yielded w); [|done]. set (w1 := with_yielded false w).
  assert (K : keeps w1 (if isReserved c then w1 else take_lo w1)) by (destruct (isReserved c); [done|by apply take_lo_keeps]).
  eapply keeps_trans; [|apply unless_keeps; intros Hn; apply pop_own_keeps; [done|]].
  - destruct K; by split.
  - rewrite (kp_deqs _ _ K). done.
Qed.

Lemma fair_tick_keeps c w : (qIndex c < length (deqs w))%nat → keeps w (fair_tick c w).
Proof.
  intros Hq. unfold fair_tick. destruct (isReserved c); [done|]. destruct (_ =? 0); [|done].
  pose proof (drain_keeps c (with_fair (u32 (fairPass w + 1)) w) Hq) as [K1 K2]. by split.
Qed.

Lemma find_keeps c v w : (qIndex c < length (deqs w))%nat → keeps w (find_pass c v w).
Proof.
  intros Hq. unfold find_pass.
  assert (Hk : ∀ w1 f, keeps w w1 → (∀ w2, (qIndex c < length (deqs w2))%nat → keeps w2 (f w2)) → keeps w (f w1)).
  { intros w1 f K F. eapply keeps_trans; [exact K|]. apply F. by rewrite (kp_deqs _ _ K). }
  apply (Hk _ (drainOwnInbox c)); [|intros; by apply drain_keeps].
  apply (Hk _ (unless (steal_scan c v))); [|intros; apply unless_keeps; by apply steal_scan_keeps].
  apply (Hk _ (drainOwnInbox c)); [|intros; by apply drain_keeps].
  apply (Hk _ (unless (pop_own c))); [|intros; apply unless_keeps; intros; by apply pop_own_keeps].
  apply (Hk _ (unless (after_yield c))); [|intros; apply unless_keeps; intros; by apply after_yield_keeps].
  apply (Hk _ (λ w, if isReserved c then w else unless take_inj w)); [|intros; destruct (isReserved c); [done|apply unless_keeps, take_inj_keeps]].
  apply (Hk _ (unless take_hi)); [|intros; apply unless_keeps, take_hi_keeps].
  apply (Hk _ (fair_tick c)); [|intros; by apply fair_tick_keeps].
  destruct (isReserved c); [apply unless_keeps, take_inj_keeps|done].
Qed.

(** ** The seek picks a flagged deque *)

Lemma testbit_rotate mask r b : 0 ≤ r < 64 → 0 ≤ b < 64 → (∀ k, 64 ≤ k → Z.testbit mask k = false) →
  Z.testbit (rotate mask r) b = Z.testbit mask ((b + r) mod 64).
Proof.
  intros Hr Hb Hm. unfold rotate. destruct (Z.eqb_spec r 0) as [->|Hr0]; [by rewrite Z.add_0_r, Z.mod_small|].
  rewrite Z.lor_spec, Z.shiftr_spec by lia. unfold u64. rewrite Z.mod_pow2_bits_low, Z.shiftl_spec by lia.
  destruct (decide (b + r < 64)) as [H|H].
  - rewrite Z.mod_small by lia. rewrite (Z.testbit_neg_r mask (b - (64 - r))) by lia. apply orb_false_r.
  - rewrite (Hm (b + r)) by lia. cbn [orb]. f_equal. apply (Z.mod_unique _ _ 1); lia.
Qed.

Lemma first_bit_found fuel m b k : b ≤ k < b + Z.of_nat fuel → Z.testbit m k = true →
  ∃ x, first_bit fuel m b = Some x ∧ b ≤ x < b + Z.of_nat fuel ∧ Z.testbit m x = true.
Proof.
  revert b. induction fuel as [|fuel IH]; intros b Hk Ht; [lia|]. cbn [first_bit]. destruct (Z.testbit m b) eqn:E; [exists b; split_and!; done || lia|].
  assert (b ≠ k) by congruence. destruct (IH (b + 1)) as (x & -> & H1 & H2); [lia|done|]. exists x. split_and!; done || lia.
Qed.

Lemma mask_bits (P : nat → bool) l k :
  Z.testbit (foldr (λ d m, if P d then Z.lor m (Z.shiftl 1 (Z.of_nat d)) else m) 0 l) k = true ↔ ∃ d, d ∈ l ∧ P d = true ∧ k = Z.of_nat d.
Proof.
  induction l as [|d l IH]; cbn [foldr]; [rewrite Z.testbit_0_l; split; [done|]; by intros (? & ?%elem_of_nil & _)|].
  setoid_rewrite elem_of_cons. destruct (P d) eqn:E.
  - rewrite Z.lor_spec, orb_true_iff, IH, Z.shiftl_1_l. destruct (decide (k = Z.of_nat d)) as [->|Hk].
    + rewrite Z.pow2_bits_true by lia. split; [intros _; exists d; auto|auto].
    + rewrite Z.pow2_bits_false by lia. split; [intros [(x & Hx & HP & ->)|?]; [exists x; auto|done]|].
      intros (x & [->|Hx] & HP & ->); [done|left; exists x; auto].
  - rewrite IH. split; [intros (x & Hx & HP & ->); exists x; auto|]. intros (x & [->|Hx] & HP & ->); [congruence|exists x; auto].
Qed.

Lemma seek_mask_bits c v w k : (Z.testbit (seek_mask c v w) k = true) ↔ ∃ d, (d < nq c)%nat ∧ seek_ok c v w d = true ∧ k = Z.of_nat d.
Proof. unfold seek_mask. rewrite mask_bits. split; intros (d & Hd & ? & ?); exists d; rewrite elem_of_seq in *; split_and!; done || lia. Qed.

(** The seek tries a deque it may steal from, whenever there is one. *)
Lemma seek_tries c v w : isReserved c = false → (nq c ≤ 64)%nat → seekOnMiss c = true →
  (∃ d, (d < nq c)%nat ∧ seek_ok c v w d = true) → ∃ d r, (d < nq c)%nat ∧ seek_ok c v w d = true ∧ steal_seek c v w = tryStealFrom c v d (with_rot r w).
Proof.
  intros Hr Hn Hs (d & Hd & Hok). unfold steal_seek. rewrite Hr, Hs, (proj2 (Nat.leb_le _ _) Hn). cbn [negb andb].
  assert (Hbit : Z.testbit (seek_mask c v w) (Z.of_nat d) = true) by (apply seek_mask_bits; by exists d).
  assert (Hhi : ∀ k, 64 ≤ k → Z.testbit (seek_mask c v w) k = false).
  { intros k Hk. apply not_true_is_false. intros (x & Hx & _ & ->)%seek_mask_bits. lia. }
  destruct (Z.eqb_spec (seek_mask c v w) 0) as [E|E]; [rewrite E, Z.testbit_0_l in Hbit; done|].
  set (r := Z.land _ 63). assert (Hr0 : 0 ≤ r < 64) by (unfold r; change 63 with (2 ^ 6 - 1); rewrite land_mask by lia; apply Z.mod_pos_bound; lia).
  destruct (first_bit_found 64 (rotate (seek_mask c v w) r) 0 ((Z.of_nat d - r) mod 64)) as (b & -> & Hb & Ht).
  { pose proof (Z.mod_pos_bound (Z.of_nat d - r) 64). lia. }
  { rewrite testbit_rotate; [|done|apply Z.mod_pos_bound; lia|done]. rewrite Z.add_mod_idemp_l by lia. replace (Z.of_nat d - r + r) with (Z.of_nat d) by lia.
    rewrite Z.mod_small by lia. done. }
  rewrite testbit_rotate in Ht by (done || lia). apply seek_mask_bits in Ht as (x & Hx & Hxok & Ex).
  exists x, r. split_and!; [done|done|]. f_equal. change 63 with (2 ^ 6 - 1). rewrite land_mask by lia. change (2 ^ 6) with 64. rewrite Ex. lia.
Qed.

(** ** A hunter finds what there is *)

(** A pool where nobody else moves: flags say what the deques hold, steals come through. *)
Definition has_work (w : W) (d : nat) : bool := match deqs w !! d with Some (_ :: _) => true | _ => false end.
Definition quiet_view (w : W) : View := mkView (has_work w) (λ _, true) false true.

Lemma still_work w w' d : still w w' → has_work w' d = has_work w d.
Proof. intros S. unfold has_work. by rewrite (sl_deqs _ _ S). Qed.

Lemma try_quiet c v d w : isReserved c = false → flag v d = has_work w d → comes v d = true →
  if has_work w d then (tryStealFrom c v d w).1 = true else tryStealFrom c v d w = (false, w).
Proof.
  intros Hr Hf Hc. unfold tryStealFrom. rewrite Hf, Hr, Hc. unfold has_work. destruct (deqs w !! d) as [[|t l]|]; done.
Qed.

Record hunter (c : Cfg) : Prop := {
  hu_compute : isReserved c = false;
  hu_seek : seekOnMiss c = true;
  hu_few : (nq c ≤ 64)%nat;
  hu_own : (qIndex c < nq c)%nat;
  hu_two : (1 < nq c)%nat;
  hu_groups : length (groups c) = nq c }.

Lemma cursor_miss c v w : hunter c → flag v = has_work w → (∀ d, comes v d = true) → none w = true → (steal_cursor c v w).1 = false →
  let w1 := (steal_cursor c v w).2 in still w w1 ∧ l3Remote w1 = l3Remote w ∧ (stealVictim w1 ≠ qIndex c → has_work w (stealVictim w1) = false).
Proof.
  intros H Hf Hc Hn. unfold steal_cursor. pose proof (pick_victim_still c w) as S.
  assert (HR : l3Remote (pick_victim c w) = l3Remote w) by (unfold pick_victim; repeat case_match; done). set (w1 := pick_victim c w) in *.
  destruct (Nat.eqb_spec (stealVictim w1) (qIndex c)) as [E|E].
  - cbn. intros _. split_and!; [by destruct S|done|done].
  - pose proof (try_quiet c v (stealVictim w1) w1 (hu_compute _ H) ltac:(by rewrite Hf, (still_work _ _ _ S)) (Hc _)) as T. rewrite (still_work _ _ _ S) in T.
    destruct (has_work w (stealVictim w1)) eqn:Ew.
    + destruct (tryStealFrom _ _ _ _) as [hit w2]. cbn in T. subst hit. rewrite (hu_compute _ H). cbn. done.
    + rewrite T. cbn. intros _. split_and!; [by destruct S|done|done].
Qed.

(** The own group, or everything when there is one group. *)
Definition near (c : Cfg) (d : nat) : Prop := grouped c = false ∨ groups c !! d = Some (myG c).

Lemma seek_miss c v w : hunter c → flag v = has_work w → (∀ d, comes v d = true) → (steal_seek c v w).1 = false →
  steal_seek c v w = (false, w) ∧ ∀ d, (d < nq c)%nat → d ≠ qIndex c → d ≠ stealVictim w → near c d → has_work w d = false.
Proof.
  intros H Hf Hc Hm. destruct (decide (seek_mask c v w = 0)) as [E|E].
  - split; [unfold steal_seek; rewrite E; by destruct (_ && _ && _)|]. intros d Hd Hq Hv Hn. apply not_true_is_false. intros Hw.
    assert (Z.testbit (seek_mask c v w) (Z.of_nat d) = true) as Hb; [|by rewrite E, Z.testbit_0_l in Hb]. apply seek_mask_bits. exists d. split_and!; [done| |done].
    unfold seek_ok. assert (negb (grouped c) || bool_decide (groups c !! d = Some (myG c)) = true) as ->
      by (destruct Hn as [->|Hn]; [done|]; rewrite bool_decide_true by done; apply orb_true_r).
    by rewrite (proj2 (Nat.eqb_neq _ _) Hq), (proj2 (Nat.eqb_neq _ _) Hv), Hf, Hw.
  - exfalso. assert (∃ d, (d < nq c)%nat ∧ seek_ok c v w d = true) as Hex.
    { destruct (existsb (seek_ok c v w) (seq 0 (nq c))) eqn:Eb.
      - apply existsb_exists in Eb as (d & Hd & Hok). apply list_elem_of_In, elem_of_seq in Hd. exists d. split; [lia|done].
      - destruct E. apply Z.bits_inj_0. intros k. apply not_true_is_false. intros (d & H1 & H2 & _)%seek_mask_bits.
        assert (existsb (seek_ok c v w) (seq 0 (nq c)) = true); [|congruence]. apply existsb_exists. exists d. split; [apply list_elem_of_In, elem_of_seq; lia|done]. }
    destruct (seek_tries c v w (hu_compute _ H) (hu_few _ H) (hu_seek _ H) Hex) as (d & r & Hd & Hok & Es). rewrite Es in Hm.
    assert (has_work w d = true) as Hw by (unfold seek_ok in Hok; rewrite Hf in Hok; by apply andb_true_iff in Hok as [_ ?]).
    pose proof (try_quiet c v d (with_rot r w) (hu_compute _ H) ltac:(by rewrite Hf) (Hc d)) as T. change (has_work (with_rot r w) d) with (has_work w d) in T. rewrite Hw in T. congruence.
Qed.

Lemma sibling_miss c v w : hunter c → flag v = has_work w → (∀ d, comes v d = true) → (steal_sibling c v w).1 = false → steal_sibling c v w = (false, w).
Proof.
  intros H Hf Hc. unfold steal_sibling. destruct (isReserved c); [done|]. destruct (sibling c) as [d|]; [|done]. destruct (_ && _ && _ && _); [|done].
  pose proof (try_quiet c v d w (hu_compute _ H) ltac:(by rewrite Hf) (Hc d)) as T. destruct (has_work w d); [congruence|done].
Qed.

Lemma remote_miss c v w : hunter c → flag v = has_work w → (∀ d, comes v d = true) → (steal_remote c v w).1 = false → grouped c = true →
  (∀ d, (d < nq c)%nat → d ≠ qIndex c → near c d → has_work w d = false) →
  let o := l3Others (groups c) (myG c) in
  let r := ((l3Remote w + 1) mod length o)%nat in
  l3Remote (steal_remote c v w).2 = r ∧ ∀ d, o !! r = Some d → has_work w d = false.
Proof.
  intros H Hf Hc. unfold steal_remote. intros Hm Hg Hnear. rewrite Hg in *. cbv zeta.
  assert (existsb (λ d, negb (Nat.eqb d (qIndex c)) && flag v d) (l3Members (groups c) (myG c)) = false) as E.
  { apply not_true_is_false. intros (d & Hd & [H1 H2]%andb_true_iff)%existsb_exists. apply list_elem_of_In in Hd. unfold l3Members in Hd. apply list_elem_of_filter in Hd as [Hd1 Hd2%elem_of_seq].
    rewrite Hf, Hnear in H2; [done|rewrite <- (hu_groups _ H); lia|intros ->; by rewrite Nat.eqb_refl in H1|by right]. }
  rewrite E in *. set (o := l3Others _ _) in *. set (r := ((l3Remote w + 1) mod length o)%nat) in *.
  pose proof (try_quiet c v (default 0%nat (o !! r)) (with_remote r w) (hu_compute _ H) ltac:(by rewrite Hf) (Hc _)) as T.
  change (has_work (with_remote r w) (default 0%nat (o !! r))) with (has_work w (default 0%nat (o !! r))) in T.
  destruct (has_work w (default 0%nat (o !! r))) eqn:Ew; [congruence|]. rewrite T. split; [done|]. intros d Hd. by rewrite Hd in Ew.
Qed.

(** A scan that finds nothing. *)
Lemma scan_miss c v w : hunter c → flag v = has_work w → (∀ d, comes v d = true) → none w = true → none (steal_scan c v w) = true → (1 < nq c)%nat →
  still w (steal_scan c v w) ∧ (∀ d, (d < nq c)%nat → d ≠ qIndex c → near c d → has_work w d = false) ∧
  (grouped c = true → let o := l3Others (groups c) (myG c) in let r := ((l3Remote w + 1) mod length o)%nat in
    l3Remote (steal_scan c v w) = r ∧ ∀ d, o !! r = Some d → has_work w d = false).
Proof.
  intros H Hf Hc Hn. unfold steal_scan. intros Hno H1. rewrite (proj2 (Nat.leb_gt _ _) H1) in *.
  pose proof (scan_scanned c v w Hn) as Sc. set (x4 := orElse (steal_remote c v) _) in *.
  assert (E4 : x4.1 = false) by (destruct (x4.1) eqn:E; [|done]; pose proof (sc_hit _ _ Sc E); congruence).
  split; [by apply Sc|]. unfold x4 in E4 |- *. clear Sc Hno x4. unfold orElse at 1 in E4. unfold orElse at 1.
  set (x3 := orElse (steal_sibling c v) _) in *. destruct (x3.1) eqn:E3; [congruence|].
  unfold x3 in E3, E4 |- *. clear x3. unfold orElse in E3, E4 |- *. set (x1 := steal_cursor c v w) in *. destruct (x1.1) eqn:E1; [cbn in E3; rewrite E1 in E3; cbn in E3; congruence|].
  destruct ((steal_seek c v x1.2).1) eqn:E2; [cbn -[steal_seek] in E3; congruence|].
  destruct (cursor_miss c v w H Hf Hc Hn E1) as (S1 & R1 & V1). fold x1 in S1, R1, V1. assert (Hf1 : flag v = has_work x1.2) by (rewrite Hf; unfold has_work; by rewrite (sl_deqs _ _ S1)).
  destruct (seek_miss c v x1.2 H Hf1 Hc E2) as [Ee2 N2]. rewrite Ee2 in *. cbn [fst snd] in *. rewrite (sibling_miss c v x1.2 H Hf1 Hc E3) in *. cbn [fst snd] in *.
  assert (HN : ∀ d, (d < nq c)%nat → d ≠ qIndex c → near c d → has_work w d = false).
  { intros d Hd Hq Hnr. destruct (decide (d = stealVictim x1.2)) as [->|Hv]; [by apply V1|]. rewrite <- (still_work _ _ d S1). by apply N2. }
  split; [done|]. intros Hg. destruct (remote_miss c v x1.2 H Hf1 Hc E4 Hg) as [R4 N4].
  { intros d Hd Hq Hnr. rewrite (still_work _ _ d S1). by apply HN. }
  rewrite R1 in *. split; [done|]. intros d Hd. rewrite <- (still_work _ _ d S1). by apply N4.
Qed.

Lemma unless_none f w : none (unless f w) = true → unless f w = f w ∧ none w = true ∧ none (f w) = true.
Proof. unfold unless. destruct (none w) eqn:E; [done|congruence]. Qed.

Lemma take_hi_none w : none w = true → none (take_hi w) = true → hi w = [] ∧ take_hi w = w.
Proof. unfold take_hi. by destruct (hi w). Qed.

Lemma take_inj_none w : none w = true → none (take_inj w) = true → inj w = [] ∧ take_inj w = w.
Proof. unfold take_inj. by destruct (inj w). Qed.

Lemma take_lo_none w : none w = true → none (take_lo w) = true → take_lo w = w.
Proof. unfold take_lo. by destruct (lo w). Qed.

Lemma pop_own_none c w : none w = true → none (pop_own c w) = true → own c w = [] ∧ pop_own c w = w.
Proof. unfold pop_own. destruct (last (own c w)) eqn:E; [done|]. by apply last_None in E. Qed.

Lemma drain_none c w : isReserved c = false → none (drainOwnInbox c w) = true → none w = true ∧ lo w = [] ∧ drainOwnInbox c w = w.
Proof.
  intros Hr. unfold drainOwnInbox. destruct (none w) eqn:E; [|by cbn; rewrite E]. rewrite Hr. cbn [negb orb].
  destruct (last (take BATCH_SIZE (lo w))) eqn:El; [done|]. apply last_None in El. intros _. split_and!; [done| |done]. by destruct (lo w).
Qed.

(** Cursor fields but not queues. *)
Record aside (w w' : W) : Prop := { as_still : still w w'; as_remote : l3Remote w' = l3Remote w }.

Lemma aside_trans w w1 w2 : aside w w1 → aside w1 w2 → aside w w2.
Proof. intros [A1 A2] [B1 B2]. split; [by eapply still_trans|congruence]. Qed.

Lemma fair_tick_none c w : isReserved c = false → none (fair_tick c w) = true → aside w (fair_tick c w) ∧ none w = true.
Proof.
  intros Hr. unfold fair_tick. rewrite Hr. destruct (_ =? 0); [|done]. intros H. destruct (drain_none c _ Hr H) as (H1 & H2 & ->). done.
Qed.

Lemma after_yield_none c w : isReserved c = false → none w = true → none (after_yield c w) = true → aside w (after_yield c w).
Proof.
  intros Hr Hn. unfold after_yield. rewrite Hr. destruct (yielded w); [|done]. intros H. apply unless_none in H as (-> & H1 & H2).
  destruct (pop_own_none c _ H1 H2) as [_ ->]. by rewrite (take_lo_none (with_yielded false w) Hn H1).
Qed.

(** A pass that finds nothing. *)
Lemma pass_miss c v w : hunter c → flag v = has_work w → (∀ d, comes v d = true) → none (find_pass c v w) = true →
  still w (find_pass c v w) ∧ (hi w = [] ∧ lo w = [] ∧ inj w = [] ∧ own c w = []) ∧
  (∀ d, (d < nq c)%nat → d ≠ qIndex c → near c d → has_work w d = false) ∧
  (grouped c = true → let o := l3Others (groups c) (myG c) in let r := ((l3Remote w + 1) mod length o)%nat in
    l3Remote (find_pass c v w) = r ∧ ∀ d, o !! r = Some d → has_work w d = false).
Proof.
  intros H Hf Hc. pose proof (hu_compute _ H) as Hr. unfold find_pass. rewrite Hr.
  set (w1 := fair_tick c w). set (w2 := unless take_hi w1). set (w3 := unless take_inj w2). set (w4 := unless (after_yield c) w3).
  set (w5 := unless (pop_own c) w4). set (w6 := drainOwnInbox c w5). set (w7 := unless (steal_scan c v) w6).
  intros (N7 & _ & ->)%drain_none; [|done]. unfold w7 in N7 |- *. apply unless_none in N7 as (-> & N6 & N7). clear w7.
  unfold w6 in N6. apply drain_none in N6 as (N5 & L5 & E6); [|done]. fold w6 in E6. rewrite E6 in *. clear E6 w6.
  unfold w5 in N5. apply unless_none in N5 as (E5 & N4 & N5). fold w5 in E5. destruct (pop_own_none c w4 N4 N5) as [O4 E5']. rewrite E5' in E5. rewrite E5 in *. clear E5' E5 w5.
  unfold w4 in N4. apply unless_none in N4 as (E4 & N3 & N4). fold w4 in E4. pose proof (after_yield_none c w3 Hr N3 N4) as A4. rewrite <- E4 in A4.
  unfold w3 in N3. apply unless_none in N3 as (E3 & N2 & N3). destruct (take_inj_none w2 N2 N3) as [I2 E3']. fold w3 in E3. rewrite E3' in E3. rewrite E3 in *.
  unfold w2 in N2. apply unless_none in N2 as (E2 & N1 & N2). destruct (take_hi_none w1 N1 N2) as [H1 E2']. fold w2 in E2. rewrite E2' in E2. rewrite E2 in *.
  destruct (fair_tick_none c w Hr N1) as [A1 N0]. fold w1 in A1. pose proof (aside_trans _ _ _ A1 A4) as A. destruct A as [S R].
  assert (Hn4 : none w4 = true) by (rewrite (still_none _ _ S); done).
  assert (Hf4 : flag v = has_work w4) by (rewrite Hf; unfold has_work; by rewrite (sl_deqs _ _ S)).
  destruct (scan_miss c v w4 H Hf4 Hc Hn4 N7 (hu_two _ H)) as (S7 & N & G). split_and!.
  - by eapply still_trans.
  - rewrite <- (sl_hi _ _ (as_still _ _ A1)). done.
  - rewrite <- (sl_lo _ _ S). done.
  - rewrite <- (sl_inj _ _ (as_still _ _ A1)). done.
  - unfold own in *. by rewrite <- (sl_deqs _ _ S).
  - intros d Hd Hq Hnr. rewrite <- (still_work _ _ d S). by apply N.
  - intros Hg. destruct (G Hg) as [G1 G2]. rewrite R in *. split; [done|]. intros d Hd. rewrite <- (still_work _ _ d S). by apply G2.
Qed.

(** Passes until a task is found, at most [k]. *)
Fixpoint passes (k : nat) (c : Cfg) (w : W) : W :=
  match k with O => w | S k' => unless (passes k' c) (find_pass c (quiet_view w) w) end.

Lemma passes_miss k c w : hunter c → none (passes k c w) = true →
  (∀ j, (0 < j ≤ k)%nat → grouped c = true → ∀ d, l3Others (groups c) (myG c) !! ((l3Remote w + j) mod length (l3Others (groups c) (myG c)))%nat = Some d → has_work w d = false) ∧
  ((0 < k)%nat → (hi w = [] ∧ lo w = [] ∧ inj w = [] ∧ own c w = []) ∧ ∀ d, (d < nq c)%nat → d ≠ qIndex c → near c d → has_work w d = false).
Proof.
  intros H. revert w. induction k as [|k IH]; intros w Hn; [split; [lia|lia]|]. cbn [passes] in Hn. apply unless_none in Hn as (_ & N1 & N2).
  destruct (pass_miss c (quiet_view w) w H eq_refl (λ _, eq_refl) N1) as (S & Q & N & G). destruct (IH _ N2) as [IH1 _]. split; [|done].
  intros j Hj Hg d. destruct (G Hg) as [G1 G2]. cbv zeta in *. destruct (decide (j = 1)%nat) as [->|Hj1]; [apply G2|].
  rewrite <- (still_work _ _ d S). intros Hd. apply (IH1 (j - 1)%nat ltac:(lia) Hg). rewrite G1. rewrite <- Hd. f_equal.
  rewrite Nat.Div0.add_mod_idemp_l. f_equal. lia.
Qed.

Lemma mod_hits n a i : (i < n)%nat → ∃ j, (0 < j ≤ n)%nat ∧ ((a + j) mod n)%nat = i.
Proof.
  intros Hi. pose proof (Nat.mod_upper_bound a n ltac:(lia)) as Ha. pose proof (Nat.div_mod_eq a n) as Hd.
  exists (if decide (i ≤ a mod n)%nat then n + i - a mod n else i - a mod n)%nat. destruct (decide (i ≤ a mod n)%nat) as [H|H]; split; try lia.
  - symmetry. apply (Nat.mod_unique _ _ (a / n + 1)); [lia|]. lia.
  - symmetry. apply (Nat.mod_unique _ _ (a / n)); [lia|]. lia.
Qed.

Lemma no_work_nil (w : W) : (∀ d, (d < length (deqs w))%nat → has_work w d = false) → mjoin (deqs w) = [].
Proof.
  unfold has_work. generalize (deqs w). intros l. induction l as [|x l IH]; intros H; [done|]. cbn. pose proof (H 0%nat ltac:(cbn; lia)) as H0. cbn in H0.
  destruct x; [|done]. cbn. apply IH. intros d Hd. apply (H (S d)). cbn. lia.
Qed.

(** C8: a find pass neither loses a task nor takes one twice.  The task in hand, the two
    inboxes, the injector and all deques hold together the same tasks after a pass as before
    it, whatever kind of worker runs it, whichever flags it sees and whichever of its steals
    come through; and a pass that comes in with a task in hand leaves with that task, so none
    is overwritten on the way. *)
Theorem find_pass_conserves c v w : (qIndex c < length (deqs w))%nat →
  tasks (find_pass c v w) ≡ₚ tasks w ∧ ∀ t, task w = Some t → task (find_pass c v w) = Some t.
Proof.
  intros Hq. split; [by apply find_keeps|]. intros t Ht.
  assert (Hu : ∀ f w', task w' = Some t → task (unless f w') = Some t) by (intros f w' H; unfold unless, none; by rewrite H).
  assert (Hd : ∀ w', task w' = Some t → task (drainOwnInbox c w') = Some t) by (intros w' H; unfold drainOwnInbox, none; by rewrite H).
  unfold find_pass. apply Hd, Hu, Hd, Hu, Hu.
  assert (Hf : ∀ w', task w' = Some t → task (fair_tick c w') = Some t).
  { intros w' H. unfold fair_tick. destruct (isReserved c); [done|]. destruct (_ =? 0); [by apply Hd|done]. }
  destruct (isReserved c); [by apply Hu, Hf, Hu|by apply Hu, Hu, Hf].
Qed.

(** C9: a hunter finds work if there is any.  In a pool where nobody else moves, a compute
    worker whose seek is on has a task in hand after at most as many passes as there are
    deques outside its L3 group (one pass when there is one group), as long as its inboxes,
    the injector or any deque holds one: the seek reaches every deque of its own group in a
    single pass and the remote cursor goes round all the others. *)
Theorem hunter_finds c w : hunter c → length (deqs w) = nq c → tasks w ≠ [] →
  none (passes (Nat.max 1 (length (l3Others (groups c) (myG c)))) c w) = false.
Proof.
  intros H Hl Ht. set (o := l3Others (groups c) (myG c)). apply not_true_is_false. intros Hn. apply Ht.
  destruct (passes_miss _ c w H Hn) as [P1 P2]. destruct (P2 ltac:(lia)) as [(Q1 & Q2 & Q3 & Q4) N]. clear P2. fold o in P1.
  assert (task w = None) as E0.
  { destruct (Nat.max 1 (length o)) as [|k] eqn:Ek; [lia|]. cbn [passes] in Hn. apply unless_none in Hn as (_ & N1 & _).
    pose proof (pass_miss c (quiet_view w) w H eq_refl (λ _, eq_refl) N1) as (S & _). rewrite <- (sl_task _ _ S). by apply none_task. }
  unfold tasks. rewrite E0, Q1, Q2, Q3, no_work_nil; [done|]. rewrite Hl. intros d Hd. destruct (decide (d = qIndex c)) as [->|Hq].
  { unfold own in Q4. unfold has_work. destruct (deqs w !! qIndex c) as [[|]|]; done. }
  destruct (grouped c) eqn:Hg; [|by apply N; [done|done|left]]. destruct (decide (groups c !! d = Some (myG c))) as [Hd'|Hd']; [by apply N; [done|done|right]|].
  assert (d ∈ o) as (i & Hi)%list_elem_of_lookup.
  { unfold o, l3Others. apply list_elem_of_filter. split; [done|]. rewrite (hu_groups _ H). apply elem_of_seq. lia. }
  destruct (mod_hits (length o) (l3Remote w) i (lookup_lt_Some _ _ _ Hi)) as (j & Hj & Ej). apply (P1 j ltac:(lia) eq_refl d). by rewrite Ej.
Qed.

(** The fairness tick: on every 61st pass a compute worker takes from its inbox before it
    looks at its own deque, however full that is. *)
Lemma tick_takes_inbox c v w : isReserved c = false → none w = true → lo w ≠ [] → u32 (fairPass w + 1) mod kFairTickEvery = 0 →
  task (find_pass c v w) = last (take BATCH_SIZE (lo w)).
Proof.
  intros Hr Hn Hl Hk. assert (H : ∀ t, task (fair_tick c w) = Some t → task (find_pass c v w) = Some t).
  { intros t Ht. assert (Hu : ∀ f w', task w' = Some t → task (unless f w') = Some t) by (intros f w' H; unfold unless, none; by rewrite H).
    assert (Hd : ∀ w', task w' = Some t → task (drainOwnInbox c w') = Some t) by (intros w' H; unfold drainOwnInbox, none; by rewrite H).
    unfold find_pass. rewrite Hr. apply Hd, Hu, Hd, Hu, Hu, Hu, Hu, Ht. }
  assert (Hb : take BATCH_SIZE (lo w) ≠ []) by (by destruct (lo w)). destruct (last (take BATCH_SIZE (lo w))) as [t|] eqn:E; [|by apply last_None in E].
  apply H. unfold fair_tick. rewrite Hr, Hk. cbn [Z.eqb]. unfold drainOwnInbox. change (none (with_fair (u32 (fairPass w + 1)) w)) with (none w).
  rewrite Hn, Hr. cbn [negb orb]. change (lo (with_fair (u32 (fairPass w + 1)) w)) with (lo w). by rewrite E.
Qed.

(** ** The groups and their flags *)

Definition count (g : nat) (gs : list nat) : nat := length (filter (λ x, x = g) gs).

Lemma members_count gs g : length (l3Members gs g) = count g gs.
Proof.
  unfold l3Members, count. induction gs as [|x gs IH] using rev_ind; [done|]. rewrite length_app, seq_app, !filter_app, !length_app. cbn [length].
  f_equal.
  - rewrite <- IH. f_equal.
    assert (∀ l : list nat, (∀ d, d ∈ l → (d < length gs)%nat) → filter (λ d, (gs ++ [x]) !! d = Some g) l = filter (λ d, gs !! d = Some g) l) as Hf.
    { induction l as [|d l IHl]; intros Hl; [done|]. rewrite !filter_cons, IHl by set_solver. rewrite lookup_app_l by (apply Hl; set_solver). done. }
    apply Hf. intros d Hd%elem_of_seq. lia.
  - change (seq (0 + length gs) 1) with [length gs]. rewrite !filter_cons, !filter_nil.
    assert ((gs ++ [x]) !! length gs = Some x) as E by (rewrite lookup_app_r, Nat.sub_diag by lia; done).
    destruct (decide ((gs ++ [x]) !! length gs = Some g)), (decide (x = g)); try congruence; done.
Qed.

Lemma count_split gs d g : gs !! d = Some g → count g gs = (count g (take d gs) + S (count g (drop (S d) gs)))%nat.
Proof. intros H. rewrite <- (take_drop_middle gs d g H) at 1. unfold count. rewrite filter_app, filter_cons, decide_True, length_app by done. done. Qed.

Lemma count_take_lt gs d e g : gs !! d = Some g → (d < e)%nat → (count g (take d gs) < count g (take e gs))%nat.
Proof.
  intros H Hl. assert (take e gs !! d = Some g) as Hd by (by rewrite lookup_take_lt). rewrite (count_split _ d g Hd), take_take, Nat.min_l by lia. lia.
Qed.

Lemma group_span_ge gs g : (count g gs ≤ group_span gs g)%nat.
Proof.
  unfold group_span. rewrite members_count. destruct (Nat.eqb _ _); [done|]. unfold kLine.
  pose proof (Nat.div_mod_eq (count g gs + 64 - 1) 64). pose proof (Nat.mod_upper_bound (count g gs + 64 - 1) 64). lia.
Qed.

Lemma group_base_lt gs g h : (g < h)%nat → (group_base gs g + group_span gs g ≤ group_base gs h)%nat.
Proof.
  intros H. unfold group_base. replace h with (S g + (h - S g))%nat by lia. rewrite seq_app, fmap_app.
  rewrite seq_S, fmap_app. cbn. assert (∀ l l', sum_list (l ++ l') = (sum_list l + sum_list l')%nat) as Ha by (intros l l'; induction l as [|x l IH]; cbn; lia).
  rewrite !Ha. cbn. lia.
Qed.

(** Two deques never share a flag byte. *)
Lemma flag_slots_apart gs d e g h : gs !! d = Some g → gs !! e = Some h → (d < e)%nat → flagSlot gs d ≠ flagSlot gs e.
Proof.
  intros Hd He Hl. unfold flagSlot. rewrite Hd, He. cbn [default from_option id]. rewrite !members_count.
  pose proof (count_split gs d g Hd). pose proof (count_split gs e h He). pose proof (group_span_ge gs g). pose proof (group_span_ge gs h).
  destruct (decide (g = h)) as [->|Hn]; [pose proof (count_take_lt gs d e h Hd Hl); lia|].
  destruct (decide (g < h)%nat) as [Hlt|Hge]; [pose proof (group_base_lt gs g h Hlt); lia|pose proof (group_base_lt gs h g ltac:(lia)); lia].
Qed.

(** The first worker is in group 0, so with several groups there is always somebody outside
    a group, and the remote cursor has a modulus. *)
Lemma others_nonempty masks forced n g : masks ≠ [] → (length masks ≤ n)%nat → let gs := l3GroupOf masks forced n in
  (1 < l3Groups gs)%nat → l3Others gs g ≠ [].
Proof.
  intros Hm Hn gs Hg. assert (H0 : gs !! 0%nat = Some 0%nat).
  { unfold gs, l3GroupOf. destruct masks as [|m masks]; [done|]. cbn in Hn. destruct n as [|n]; [lia|]. unfold worker_groups.
    destruct (_ && _); cbn; [done|]. by destruct (m =? 0). }
  assert (Hmax : ∃ d h, gs !! d = Some h ∧ h ≠ 0%nat).
  { clear H0. revert Hg. unfold l3Groups. generalize gs. intros l. induction l as [|x l IH]; cbn; [lia|]. destruct (decide (x = 0%nat)) as [->|Hx].
    - intros H. destruct IH as (d & h & Hd & Hh); [|by exists (S d), h]. destruct (foldr Nat.max 1%nat (S <$> l)) as [|[|k]] eqn:E; cbn in H; try lia.
    - intros _. by exists 0%nat, x. }
  assert (∀ d h, gs !! d = Some h → h ≠ g → l3Others gs g ≠ []) as Hd.
  { intros d h Hd Hh E. assert (d ∈ l3Others gs g) as Hin; [|by rewrite E in Hin; apply elem_of_nil in Hin].
    apply list_elem_of_filter. split; [congruence|]. apply elem_of_seq. pose proof (lookup_lt_Some _ _ _ Hd). lia. }
  destruct (decide (g = 0%nat)) as [->|Hg0]; [|by apply (Hd 0%nat 0%nat)]. destruct Hmax as (d & h & Hdh & Hh). by apply (Hd d h).
Qed.

(** ** Runs *)

(** Four deques in two groups; the only task is on the last. *)
Definition two_groups : Cfg := mkCfg 4 0 false true 8 None [0; 0; 1; 1]%nat.
Definition far_work : W := mkW [] [] [] [[]; []; []; [77]] None false 0 0 0 0 1 0 false.

Lemma two_groups_hunter : hunter two_groups.
Proof. constructor; cbn; done || lia. Qed.

Lemma hunter_finds_witness :
  length (l3Others (groups two_groups) (myG two_groups)) = 2%nat ∧
  none (passes (Nat.max 1 (length (l3Others (groups two_groups) (myG two_groups)))) two_groups far_work) = false ∧
  task (passes 1 two_groups far_work) = None ∧ task (passes 2 two_groups far_work) = Some 77.
Proof.
  split_and!; [reflexivity| |reflexivity|reflexivity].
  apply (hunter_finds two_groups far_work); [exact two_groups_hunter|reflexivity|discriminate].
Defined.

Definition near_work : W := mkW [] [5; 6; 7] [] [[]; [77]; []; []] None false 60 0 0 0 0 0 false.

Lemma find_pass_conserves_witness :
  tasks (find_pass two_groups (quiet_view near_work) near_work) ≡ₚ tasks near_work ∧
  task (find_pass two_groups (quiet_view near_work) near_work) = Some 7.
Proof.
  split; [|reflexivity]. apply (find_pass_conserves two_groups (quiet_view near_work) near_work). cbn. lia.
Defined.
