(* ===== verification/RefCounts.v ===== *)
(** * Counted references (include/Ref.h)

    [Ref]s to objects whose count lives on the object, with one shared pointer from which
    references are acquired under an epoch guard.  Any number of threads; an access to the
    count or to the shared pointer is a step.  That a retired object is freed only when no
    thread is inside [Acquire] with it in hand is what [EpochModel] shows of the epochs, and
    is the condition of the step that frees.  Fewer than 2^32 references exist at a time. *)

From S2P Require Import Prelude.

Inductive rpc :=
| RfIdle
| RfStart                      (* in [Acquire], about to load the pointer *)
| RfLoaded (o : nat)           (* about to load the count *)
| RfTry (o : nat) (c : Z)      (* in [TryIncrement] with the count it read *)
| RfGone (o : nat)             (* the count was zero: about to look at the pointer again *)
| RfRetire (o : nat).          (* dropped the last reference, about to retire *)

Record rstate := mkR { refs : gmap nat Z; src : option nat; held : list nat; retired : list nat; freed : list nat; rpcs : gmap nat rpc }.

Definition r_pc (i : nat) (p : rpc) (s : rstate) : rstate := mkR (refs s) (src s) (held s) (retired s) (freed s) (<[i := p]> (rpcs s)).
Definition r_refs (o : nat) (c : Z) (s : rstate) : rstate := mkR (<[o := c]> (refs s)) (src s) (held s) (retired s) (freed s) (rpcs s).
Definition r_held (l : list nat) (s : rstate) : rstate := mkR (refs s) (src s) l (retired s) (freed s) (rpcs s).
Definition r_src (p : option nat) (s : rstate) : rstate := mkR (refs s) p (held s) (retired s) (freed s) (rpcs s).

Definition rc (s : rstate) (o : nat) : Z := default 0 (refs s !! o).

(** The object a thread inside [Acquire] has in hand. *)
Definition in_hand (p : rpc) : list nat := match p with RfLoaded o | RfTry o _ | RfGone o => [o] | _ => [] end.
Definition leaving (p : rpc) : list nat := match p with RfRetire o => [o] | _ => [] end.

Inductive ref_step (i : nat) (s : rstate) : rstate → Prop :=
(* Make, a copy, ReleaseToShared into the pointer with AdoptFromShared of what was there *)
| rf_make o : rpcs s !! i = Some RfIdle → refs s !! o = None → ref_step i s (r_held (o :: held s) (r_refs o 1 s))
| rf_copy o : rpcs s !! i = Some RfIdle → o ∈ held s → ref_step i s (r_held (o :: held s) (r_refs o (u32 (rc s o + 1)) s))
| rf_share o l1 l2 : rpcs s !! i = Some RfIdle → held s = l1 ++ o :: l2 →
    ref_step i s (r_src (Some o) (r_held (option_list (src s) ++ l1 ++ l2) s))
| rf_unshare : rpcs s !! i = Some RfIdle → ref_step i s (r_src None (r_held (option_list (src s) ++ held s) s))
(* Acquire *)
| rf_begin : rpcs s !! i = Some RfIdle → ref_step i s (r_pc i RfStart s)
| rf_load_null : rpcs s !! i = Some RfStart → src s = None → ref_step i s (r_pc i RfIdle s)
| rf_load o : rpcs s !! i = Some RfStart → src s = Some o → ref_step i s (r_pc i (RfLoaded o) s)
| rf_count o : rpcs s !! i = Some (RfLoaded o) → ref_step i s (r_pc i (if rc s o =? 0 then RfGone o else RfTry o (rc s o)) s)
| rf_cas o c : rpcs s !! i = Some (RfTry o c) → rc s o = c → ref_step i s (r_pc i RfIdle (r_held (o :: held s) (r_refs o (u32 (c + 1)) s)))
| rf_cas_fail o c : rpcs s !! i = Some (RfTry o c) → ref_step i s (r_pc i (if rc s o =? 0 then RfGone o else RfTry o (rc s o)) s)
| rf_again o : rpcs s !! i = Some (RfGone o) → ref_step i s (r_pc i (if decide (src s = Some o) then RfIdle else RfStart) s)
(* Reset *)
| rf_drop o l1 l2 : rpcs s !! i = Some RfIdle → held s = l1 ++ o :: l2 →
    ref_step i s (r_pc i (if rc s o =? 1 then RfRetire o else RfIdle) (r_held (l1 ++ l2) (r_refs o (u32 (rc s o - 1)) s)))
| rf_retire o : rpcs s !! i = Some (RfRetire o) → ref_step i s (mkR (refs s) (src s) (held s) (o :: retired s) (freed s) (<[i := RfIdle]> (rpcs s)))
| rf_free o : rpcs s !! i = Some RfIdle → o ∈ retired s → o ∉ freed s → o ∉ gather in_hand (rpcs s) →
    ref_step i s (mkR (refs s) (src s) (held s) (retired s) (o :: freed s) (rpcs s)).

Definition ref_next (s s' : rstate) : Prop := (∃ i, ref_step i s s') ∧ Z.of_nat (length (held s')) < 2 ^ 32 - 1.
Definition ref_init (s : rstate) : Prop := s = mkR ∅ None [] [] [] (rpcs s) ∧ ∀ i p, rpcs s !! i = Some p → p = RfIdle.

(** ** Counting *)

Definition rocc (o : nat) (l : list nat) : Z := Z.of_nat (length (filter (λ x, x = o) l)).

Lemma rocc_app o l l' : rocc o (l ++ l') = rocc o l + rocc o l'.
Proof. unfold rocc. rewrite filter_app, length_app. lia. Qed.

Lemma rocc_cons o x l : rocc o (x :: l) = (if decide (x = o) then 1 else 0) + rocc o l.
Proof. unfold rocc. rewrite filter_cons. destruct (decide (x = o)); cbn [length]; lia. Qed.

Lemma rocc_nonneg o l : 0 ≤ rocc o l.
Proof. unfold rocc. lia. Qed.

Lemma rocc_pos o l : 0 < rocc o l ↔ o ∈ l.
Proof.
  induction l as [|x l IH]; [unfold rocc; cbn; split; [lia|by intros ?%elem_of_nil]|]. rewrite rocc_cons, elem_of_cons. pose proof (rocc_nonneg o l).
  destruct (decide (x = o)) as [->|Hn]; [split; [auto|lia]|]. rewrite Z.add_0_l, IH. naive_solver.
Qed.

Lemma rocc_length o l : rocc o l ≤ Z.of_nat (length l).
Proof. unfold rocc. pose proof (length_filter (λ x, x = o) l). lia. Qed.

(** The references to [o]: the [Ref]s and the shared pointer. *)
Definition refs_to (s : rstate) (o : nat) : Z := rocc o (option_list (src s)) + rocc o (held s).

Record ref_inv (s : rstate) : Prop := {
  ri_count o : rc s o = refs_to s o;
  ri_bound : Z.of_nat (length (held s)) < 2 ^ 32 - 1;
  ri_made o : o ∈ option_list (src s) ++ held s → is_Some (refs s !! o);
  ri_dead o : o ∈ gather leaving (rpcs s) ++ retired s ↔ is_Some (refs s !! o) ∧ rc s o = 0;
  ri_once : NoDup (gather leaving (rpcs s) ++ retired s);
  ri_freed : NoDup (freed s) ∧ ∀ o, o ∈ freed s → o ∈ retired s;
  ri_hand o : o ∈ gather in_hand (rpcs s) → is_Some (refs s !! o) ∧ o ∉ freed s;
  ri_try i o c : rpcs s !! i = Some (RfTry o c) → 0 < c }.

(** ** The invariant *)

Lemma ref_room s o : ref_inv s → rc s o ≤ Z.of_nat (length (held s)) + 1.
Proof.
  intros I. rewrite (ri_count _ I o). unfold refs_to. pose proof (rocc_length o (held s)). pose proof (rocc_length o (option_list (src s))).
  assert (Z.of_nat (length (option_list (src s))) ≤ 1) by (destruct (src s); cbn; lia). lia.
Qed.

Lemma ref_alive s o : ref_inv s → o ∈ option_list (src s) ++ held s → 0 < rc s o ∧ is_Some (refs s !! o) ∧ o ∉ gather leaving (rpcs s) ++ retired s.
Proof.
  intros I Ho. assert (Hc : 0 < rc s o).
  { rewrite (ri_count _ I o). unfold refs_to. rewrite <- rocc_app. by apply rocc_pos. }
  split_and!; [done|by apply (ri_made _ I)|]. rewrite (ri_dead _ I o). lia.
Qed.

Lemma ref_alive_hand s o : ref_inv s → o ∈ option_list (src s) ++ held s → is_Some (refs s !! o) ∧ o ∉ freed s.
Proof. intros I (_ & Hm & Hd)%(ref_alive _ _ I). split; [done|]. intros Hf. apply Hd, elem_of_app. right. by apply (proj2 (ri_freed _ I)). Qed.

(** A step that moves one thread, none of its debts changed. *)
Lemma ref_inv_pc s i p q :
  ref_inv s → rpcs s !! i = Some p → leaving q = leaving p → (∀ o, o ∈ in_hand q → is_Some (refs s !! o) ∧ o ∉ freed s) →
  (∀ o c, q = RfTry o c → 0 < c) → ref_inv (r_pc i q s).
Proof.
  intros I Hp Hl Hh Ht. destruct I as [C B M D O F H T]. pose proof (gather_move leaving (rpcs s) i p q Hp Hl) as Hg.
  constructor; cbn; try done.
  - intros o. rewrite Hg. apply D.
  - by rewrite Hg.
  - intros o. rewrite gather_insert, elem_of_app. intros [?|Ho]; [by apply Hh|]. apply H. rewrite (gather_delete in_hand _ _ _ Hp). set_solver.
  - intros j o c [[_ Hq]|[_ Hq]]%lookup_insert_Some; [by eapply Ht|by eapply T].
Qed.

(** A step that changes how many references one object has, to more than none. *)
Lemma ref_inv_count s o c l :
  ref_inv s → (refs s !! o = None ∨ 0 < rc s o) → 0 < c → Z.of_nat (length l) < 2 ^ 32 - 1 →
  (∀ x, rocc x (option_list (src s)) + rocc x l = if decide (x = o) then c else refs_to s x) → ref_inv (r_held l (r_refs o c s)).
Proof.
  intros I Ho Hc Hl Hx. destruct I as [C B M D O F H T].
  assert (Hrc : ∀ x, rc (r_held l (r_refs o c s)) x = if decide (x = o) then c else rc s x).
  { intros x. unfold rc. cbn. destruct (decide (x = o)) as [->|]; [by rewrite lookup_insert_eq|by rewrite lookup_insert_ne]. }
  constructor; cbn; try done.
  - intros x. rewrite Hrc. unfold refs_to. cbn. rewrite Hx. by destruct (decide _).
  - intros x Hin. destruct (decide (x = o)) as [->|Hn]; [rewrite lookup_insert_eq; eauto|]. rewrite lookup_insert_ne by done. apply M.
    apply rocc_pos in Hin. rewrite rocc_app, Hx, decide_False in Hin by done. unfold refs_to in Hin. rewrite <- rocc_app in Hin. by apply rocc_pos.
  - intros x. rewrite Hrc, D. destruct (decide (x = o)) as [->|Hn]; [|by rewrite lookup_insert_ne].
    split; [|lia]. intros [Hs Hz]. destruct Ho as [Ho|Ho]; [rewrite Ho in Hs; by destruct Hs|lia].
  - intros x [Hs Hf]%H. split; [|done]. rewrite lookup_insert_is_Some. destruct (decide (o = x)); auto.
Qed.

(** References that only change hands. *)
Lemma ref_inv_move s p l : ref_inv s → option_list p ++ l ≡ₚ option_list (src s) ++ held s → Z.of_nat (length l) < 2 ^ 32 - 1 → ref_inv (r_src p (r_held l s)).
Proof.
  intros I Hp Hl. destruct I as [C B M D O F H T]. constructor; cbn; try done.
  - intros x. unfold rc in *. cbn. rewrite C. unfold refs_to. cbn. rewrite <- !rocc_app. unfold rocc. by rewrite Hp.
  - intros x. rewrite Hp. apply M.
Qed.

(** The last reference dropped: the object is owed to the epochs. *)
Lemma ref_inv_last s i o l1 l2 :
  ref_inv s → rpcs s !! i = Some RfIdle → held s = l1 ++ o :: l2 → rc s o = 1 → ref_inv (r_pc i (RfRetire o) (r_held (l1 ++ l2) (r_refs o 0 s))).
Proof.
  intros I Hi Hh H1. assert (Ha : o ∈ option_list (src s) ++ held s) by (rewrite Hh; set_solver).
  destruct (ref_alive _ _ I Ha) as (_ & Hm & Hd). destruct I as [C B M D O F H T].
  assert (Hg : gather leaving (<[i := RfRetire o]> (rpcs s)) ≡ₚ o :: gather leaving (rpcs s)).
  { rewrite gather_insert, (gather_delete leaving _ _ _ Hi). done. }
  assert (Hrc : ∀ x, rc (r_pc i (RfRetire o) (r_held (l1 ++ l2) (r_refs o 0 s))) x = if decide (x = o) then 0 else rc s x).
  { intros x. unfold rc. cbn. destruct (decide (x = o)) as [->|]; [by rewrite lookup_insert_eq|by rewrite lookup_insert_ne]. }
  assert (Hx : ∀ x, rocc x (option_list (src s) ++ l1 ++ l2) = if decide (x = o) then 0 else rc s x).
  { intros x. pose proof (C x) as Cx. unfold refs_to in Cx. rewrite Hh in Cx. rewrite !rocc_app in *. rewrite rocc_cons in Cx. repeat case_decide; subst; try done; lia. }
  constructor; cbn.
  - intros x. rewrite Hrc, <- Hx. unfold refs_to. cbn. by rewrite !rocc_app.
  - rewrite Hh, length_app in B. rewrite length_app. cbn in B. lia.
  - intros x Hin%rocc_pos. rewrite Hx in Hin. case_decide; [lia|]. rewrite lookup_insert_ne by done. apply M, rocc_pos. rewrite rocc_app. pose proof (C x). unfold refs_to in *. lia.
  - intros x. rewrite Hrc, Hg. cbn. rewrite elem_of_cons, D. case_decide as Hd'; [subst; rewrite lookup_insert_eq; split; eauto|]. rewrite lookup_insert_ne by done. naive_solver.
  - rewrite Hg. cbn. by constructor.
  - done.
  - intros x. rewrite gather_insert, elem_of_app. intros [?|Ho]; [set_solver|].
    destruct (H x) as [Hs ?]; [rewrite (gather_delete in_hand _ _ _ Hi); set_solver|]. split; [|done]. rewrite lookup_insert_is_Some. destruct (decide (o = x)); auto.
  - intros j x c [[_ Hq]|[_ Hq]]%lookup_insert_Some; [done|by eapply T].
Qed.

Lemma ref_inv_retire s i o :
  ref_inv s → rpcs s !! i = Some (RfRetire o) → ref_inv (mkR (refs s) (src s) (held s) (o :: retired s) (freed s) (<[i := RfIdle]> (rpcs s))).
Proof.
  intros [C B M D O F H T] Hi.
  assert (Hg : gather leaving (<[i := RfIdle]> (rpcs s)) ++ o :: retired s ≡ₚ gather leaving (rpcs s) ++ retired s).
  { rewrite gather_insert, (gather_delete leaving _ _ _ Hi). cbn. solve_Permutation. }
  constructor; cbn; try done.
  - intros x. rewrite Hg. apply D.
  - by rewrite Hg.
  - split; [apply F|]. intros x Hx%(proj2 F). set_solver.
  - intros x. rewrite gather_insert, elem_of_app. intros [?|Ho]; [set_solver|]. apply H. rewrite (gather_delete in_hand _ _ _ Hi). set_solver.
  - intros j x c [[_ Hq]|[_ Hq]]%lookup_insert_Some; [done|by eapply T].
Qed.

Lemma ref_inv_free s o :
  ref_inv s → o ∈ retired s → o ∉ freed s → o ∉ gather in_hand (rpcs s) → ref_inv (mkR (refs s) (src s) (held s) (retired s) (o :: freed s) (rpcs s)).
Proof.
  intros [C B M D O F H T] Hr Hf Hn. constructor; cbn; try done.
  - split; [constructor; [done|apply F]|]. intros x [->|?]%elem_of_cons; [done|by apply (proj2 F)].
  - intros x Hx. destruct (H x Hx) as [? ?]. split; [done|]. intros [->|?]%elem_of_cons; done.
Qed.

(** The increments: of a reference held, and of a count that was found above zero. *)
Lemma ref_inv_more s o : ref_inv s → 0 < rc s o → Z.of_nat (length (o :: held s)) < 2 ^ 32 - 1 → ref_inv (r_held (o :: held s) (r_refs o (u32 (rc s o + 1)) s)).
Proof.
  intros I Hc Hl. pose proof (ref_room s o I) as Hr. cbn [length] in Hl.
  unfold u32; rewrite (Z.mod_small (rc s o + 1)) by lia. apply ref_inv_count; [done|by right|lia|cbn [length]; lia|].
  intros x. rewrite rocc_cons. pose proof (ri_count _ I x) as Cx. unfold refs_to in *. repeat case_decide; subst; try done; lia.
Qed.

Lemma ref_inv_less s o l1 l2 : ref_inv s → held s = l1 ++ o :: l2 → 1 < rc s o → ref_inv (r_held (l1 ++ l2) (r_refs o (u32 (rc s o - 1)) s)).
Proof.
  intros I Hh Hc. pose proof (ref_room s o I) as Hr. pose proof (ri_bound _ I) as B.
  unfold u32; rewrite (Z.mod_small (rc s o - 1)) by lia. apply ref_inv_count; [done|right; lia|lia|rewrite Hh, length_app in B; rewrite length_app; cbn [length] in B; lia|].
  intros x. pose proof (ri_count _ I x) as Cx. unfold refs_to in *. rewrite Hh, rocc_app, rocc_cons in Cx. rewrite Hh, !rocc_app, rocc_cons. repeat case_decide; subst; try done; lia.
Qed.

(** The count looked at, by [TryIncrement]'s load or by its failed exchange. *)
Lemma ref_inv_look s i o p :
  ref_inv s → rpcs s !! i = Some p → in_hand p = [o] → leaving p = [] → ref_inv (r_pc i (if rc s o =? 0 then RfGone o else RfTry o (rc s o)) s).
Proof.
  intros I Hp Hh Hl. apply (ref_inv_pc _ _ p); [done|done|rewrite Hl; by case_match| |].
  - intros x Hx. apply (ri_hand _ I), elem_of_gather. exists i, p. split; [done|]. rewrite Hh. by case_match.
  - intros x c. destruct (Z.eqb_spec (rc s o) 0) as [|Hz]; [done|]. intros [= <- <-]. rewrite (ri_count _ I). rewrite (ri_count _ I) in Hz.
    unfold refs_to in *. pose proof (rocc_nonneg o (option_list (src s))). pose proof (rocc_nonneg o (held s)). lia.
Qed.

Lemma ref_inv_step s s' : ref_inv s → ref_next s s' → ref_inv s'.
Proof.
  intros I [[i Hs] Hb]. destruct Hs as [o Hi Hn|o Hi Ho|o l1 l2 Hi Hh|Hi|Hi|Hi Hs|o Hi Hs|o Hi|o c Hi Hc|o c Hi|o Hi|o l1 l2 Hi Hh|o Hi|o Hi Hr Hf Hg].
  - assert (Hz : refs_to s o = 0) by (rewrite <- (ri_count _ I o); unfold rc; by rewrite Hn).
    apply ref_inv_count; [done|by left|lia|done|]. intros x. rewrite rocc_cons. unfold refs_to in *. repeat case_decide; subst; try done; lia.
  - apply ref_inv_more; [done| |done]. apply (ref_alive s); [done|set_solver].
  - apply ref_inv_move; [done| |done]. rewrite Hh. cbn. solve_Permutation.
  - apply ref_inv_move; [done|done|done].
  - apply (ref_inv_pc _ _ RfIdle); [done|done|done|set_solver|done].
  - apply (ref_inv_pc _ _ RfStart); [done|done|done|set_solver|done].
  - apply (ref_inv_pc _ _ RfStart); [done|done|done| |done]. intros x ->%list_elem_of_singleton. apply ref_alive_hand; [done|]. rewrite Hs. set_solver.
  - by apply (ref_inv_look _ _ o (RfLoaded o)).
  - subst c. apply (ref_inv_pc _ _ (RfTry o (rc s o))); [|done|done|set_solver|done]. apply ref_inv_more; [done|by apply (ri_try _ I i o)|done].
  - by apply (ref_inv_look _ _ o (RfTry o c)).
  - apply (ref_inv_pc _ _ (RfGone o)); [done|done|by case_decide|case_decide; set_solver|by case_decide].
  - destruct (ref_alive s o I) as [Hc _]; [rewrite Hh; set_solver|]. destruct (Z.eqb_spec (rc s o) 1) as [H1|H1].
    + rewrite H1. by apply ref_inv_last.
    + apply (ref_inv_pc _ _ RfIdle); [|done|done|set_solver|done]. apply ref_inv_less; [done|done|lia].
  - by apply ref_inv_retire.
  - by apply ref_inv_free.
Qed.

Lemma ref_inv_init s : ref_init s → ref_inv s.
Proof.
  intros [-> Hi]. cbn in Hi. assert (Hz : ∀ {B} (f : rpc → list B), f RfIdle = [] → gather f (rpcs s) = []).
  { intros B f Hf. apply gather_none. intros i p Hp. by rewrite (Hi i p Hp). }
  constructor; cbn; rewrite ?(Hz _ leaving), ?(Hz _ in_hand); try done; try set_solver.
  - intros o. rewrite lookup_empty. split; [by intros ?%elem_of_nil|by intros [[? ?] _]].
  - constructor.
  - split; [constructor|set_solver].
Qed.

(** a reference never dangles.  Whatever threads make, copy, publish, acquire and drop
    references, in any interleaving: every object has as many references as its count says, an
    object that a [Ref] or the shared pointer names has not been freed or even retired, a
    thread in [Acquire] never touches the count of a freed object, an object is retired at
    most once and freed at most once, and one with no references left has been retired or is
    about to be by the thread that dropped the last. *)
Theorem ref_safe s :
  reachable ref_init ref_next s →
  (∀ o, rc s o = refs_to s o) ∧
  (∀ o, o ∈ option_list (src s) ++ held s → o ∉ retired s ∧ o ∉ freed s) ∧
  (∀ i p o, rpcs s !! i = Some p → o ∈ in_hand p → o ∉ freed s) ∧
  NoDup (retired s) ∧ NoDup (freed s) ∧
  (∀ o, is_Some (refs s !! o) → refs_to s o = 0 → o ∈ gather leaving (rpcs s) ++ retired s).
Proof.
  intros Hr. assert (I : ref_inv s) by (by apply (reachable_ind _ _ ref_inv ref_inv_init ref_inv_step)).
  split_and!.
  - apply (ri_count _ I).
  - intros o Ho. destruct (ref_alive _ _ I Ho) as (_ & _ & Hd). split; [set_solver|]. by apply ref_alive_hand.
  - intros i p o Hp Ho. apply (ri_hand _ I), elem_of_gather. eauto.
  - pose proof (ri_once _ I) as Hn. apply NoDup_app in Hn. apply Hn.
  - apply (ri_freed _ I).
  - intros o Hm Hc. apply (ri_dead _ I). by rewrite (ri_count _ I).
Qed.

(** The race [Acquire] is written for: the pointer is loaded, then the last reference goes. *)
Definition two_idle : rstate := mkR ∅ None [] [] [] {[0%nat := RfIdle; 1%nat := RfIdle]}.
Definition lost_race : rstate := mkR {[7%nat := 0]} None [] [7%nat] [] {[0%nat := RfIdle; 1%nat := RfGone 7]}.

Tactic Notation "ref_go" constr(i) uconstr(c) := eapply rtc_l; [split; [exists i; eapply c; vm_compute; reflexivity|vm_compute; reflexivity]|]; eval_state.

Lemma ref_safe_witness :
  ref_init two_idle ∧ rtc ref_next two_idle lost_race ∧ NoDup (retired lost_race) ∧ rc lost_race 7 = refs_to lost_race 7 ∧ 7%nat ∉ freed lost_race.
Proof.
  assert (H0 : ref_init two_idle).
  { split; [reflexivity|]. cbn. intros i p [[_ <-]|[_ [<- <-]%lookup_singleton_Some]]%lookup_insert_Some; reflexivity. }
  assert (Hr : rtc ref_next two_idle lost_race).
  { ref_go 0%nat (rf_make _ _ 7%nat). ref_go 0%nat (rf_share _ _ 7%nat [] []).
    ref_go 1%nat rf_begin. ref_go 1%nat (rf_load _ _ 7%nat). ref_go 0%nat rf_unshare. ref_go 0%nat (rf_drop _ _ 7%nat [] []).
    ref_go 1%nat (rf_count _ _ 7%nat). ref_go 0%nat (rf_retire _ _ 7%nat). let y := eval vm_compute in lost_race in change lost_race with y. apply rtc_refl. }
  destruct (ref_safe lost_race) as (Hc & _ & Hh & Hn & _); [exists two_idle; split; [exact H0|exact Hr]|].
  split_and!; [exact H0|exact Hr|exact Hn|exact (Hc 7%nat)|]. apply (Hh 1%nat (RfGone 7)); [reflexivity|by apply list_elem_of_singleton].
Defined.
