(* ===== verification/TaskRun.v ===== *)
(** * Running a task (src/Thread.cpp, src/TaskScheduler.cpp, include/Coroutine.h)

    The life of a task from its creation to its death, as the thread that runs it sees it:
    [CreateTaskImpl], the dispatch of a worker, of main's helper, of main itself and of a
    thread that helps while it spins, the return of a fiber, the completion of a coroutine,
    [FreeTask].  Tasks, their records and coroutine frames are in a store from which
    [FreeTask] removes them; an access to something no longer there is the fault
    [UseAfterFree].  The placement functions are those of [Placement], the status word is
    [FiberModel]'s, and what a body does is an argument: the model runs every body to its
    next suspension or to its end and shows what the scheduler does around it.  The calls that
    leave the model (a group's [Done], the graph's [OnTaskDiscarded], destructors, frees, the
    hand-over of debts) are entries of a log, oldest first. *)

From S2P Require Import Prelude TaskTypes FiberModel CancelTokens Placement.

(** ** The store *)

Inductive ev :=
| EvRun (f d : Z)          (* a body entered from the top: [fn(data)] *)
| EvResume (h : Z)         (* a coroutine frame resumed *)
| EvAdd (g : Z)            (* a wait group counts one more *)
| EvDone (g : Z)           (* [WaitGroup::Done] *)
| EvDiscarded (t : Z)      (* [TaskDAG::OnTaskDiscarded] *)
| EvSignal (n : Z)         (* [SignalExternalNode] *)
| EvDestroy (t : Z)        (* the destructor of a lambda task *)
| EvLocals (l : Z)         (* [ReleaseFiberSlots] *)
| EvDebts (d : Z)          (* [HandOffTaskDebts] *)
| EvFree (p : Z)           (* [TaskAllocator::Free] *)
| EvFiber (f : Z).         (* [ReleaseFiber] *)

(** A fiber's status, owning task and stack class; a coroutine frame's promise: its task and its node. *)
Record fib := mkFib { fb_status : FiberStatus; fb_owner : Z; fb_class : StackClass }.
Record promise := mkPromise { pr_task : Z; pr_dagNode : Z }.

Record store := mkStore {
  tasks : gmap Z Task; records : gmap Z TaskRecord; fibers : gmap Z fib; frames : gmap Z promise;
  spare : gmap Z (list Z);           (* free fibers, by stack class *)
  w_pool : pool; w_cancel : Cancel; w_pinned : bool; w_log : list ev }.

Inductive fault := UseAfterFree (p : Z).

Definition M (A : Type) : Type := store → res fault (A * store).
#[export] Instance M_ret : MRet M := λ A a w, Ok (a, w).
#[export] Instance M_bind : MBind M := λ A B f m w, match m w with Ok (a, w') => f a w' | Err e => Err e end.

Definition with_tasks (m : gmap Z Task) (w : store) : store := mkStore m (records w) (fibers w) (frames w) (spare w) (w_pool w) (w_cancel w) (w_pinned w) (w_log w).
Definition with_records (m : gmap Z TaskRecord) (w : store) : store := mkStore (tasks w) m (fibers w) (frames w) (spare w) (w_pool w) (w_cancel w) (w_pinned w) (w_log w).
Definition with_fibers (m : gmap Z fib) (w : store) : store := mkStore (tasks w) (records w) m (frames w) (spare w) (w_pool w) (w_cancel w) (w_pinned w) (w_log w).
Definition with_frames (m : gmap Z promise) (w : store) : store := mkStore (tasks w) (records w) (fibers w) m (spare w) (w_pool w) (w_cancel w) (w_pinned w) (w_log w).
Definition with_spare (m : gmap Z (list Z)) (w : store) : store := mkStore (tasks w) (records w) (fibers w) (frames w) m (w_pool w) (w_cancel w) (w_pinned w) (w_log w).
Definition with_pool (p : pool) (w : store) : store := mkStore (tasks w) (records w) (fibers w) (frames w) (spare w) p (w_cancel w) (w_pinned w) (w_log w).
Definition with_log (l : list ev) (w : store) : store := mkStore (tasks w) (records w) (fibers w) (frames w) (spare w) (w_pool w) (w_cancel w) (w_pinned w) l.

Definition modify (f : store → store) : M unit := λ w, Ok (tt, f w).
Definition gets {A} (f : store → A) : M A := λ w, Ok (f w, w).
Definition emit (e : ev) : M unit := modify (λ w, with_log (w_log w ++ [e]) w).
Definition at_addr {A} (f : store → gmap Z A) (x : Z) : M A := λ w, match f w !! x with Some a => Ok (a, w) | None => Err (UseAfterFree x) end.

Definition get_task : Z → M Task := at_addr tasks.
Definition get_record : Z → M TaskRecord := at_addr records.
Definition get_frame : Z → M promise := at_addr frames.
Definition put_task (t : Z) (T : Task) : M unit := _ ← get_task t; modify (λ w, with_tasks (<[t := T]> (tasks w)) w).
Definition put_record (r : Z) (R : TaskRecord) : M unit := _ ← get_record r; modify (λ w, with_records (<[r := R]> (records w)) w).
Definition put_frame (h : Z) (p : promise) : M unit := _ ← get_frame h; modify (λ w, with_frames (<[h := p]> (frames w)) w).
Definition place (f : pool → pool) : M unit := modify (λ w, with_pool (f (w_pool w)) w).
Definition when (b : bool) (m : M unit) : M unit := if b then m else mret tt.

(** Stores to one field. *)
Definition task_started (T : Task) : Task := mkTask (fn T) (data T) (record T) (next T) (waitGroup T) (flags T) 1 (cancelledDirect T) (cancelToken T).
Definition task_data (d : Z) (T : Task) : Task := mkTask (fn T) d (record T) (next T) (waitGroup T) (flags T) (started T) (cancelledDirect T) (cancelToken T).
Definition rec_set_fiber (f : Z) (R : TaskRecord) : TaskRecord := mkTaskRecord f (rec_debts R) (rec_locals R) (rec_waitNext R) (rec_waitPrev R) (rec_generation R) (rec_pinTo R) (rec_home R).
Definition rec_set_pin (p : Z) (R : TaskRecord) : TaskRecord := mkTaskRecord (rec_fiber R) (rec_debts R) (rec_locals R) (rec_waitNext R) (rec_waitPrev R) (rec_generation R) p (rec_home R).
Definition rec_set_home (h : Z) (R : TaskRecord) : TaskRecord := mkTaskRecord (rec_fiber R) (rec_debts R) (rec_locals R) (rec_waitNext R) (rec_waitPrev R) (rec_generation R) (rec_pinTo R) h.

(** What placement reads off a task. *)
Definition ptask_of (t : Z) (T : Task) (R : TaskRecord) : ptask := mkPT t (lane (flags T)) (rec_pinTo R) (negb (started T =? 0)).
Definition place_task (t : Z) (f : ptask → pool → pool) : M unit := T ← get_task t; R ← get_record (record T); place (f (ptask_of t T R)).

(** ** Birth and death *)

(** [CreateTaskImpl], with where the task and its record are put; [None] when the slab has no
    slot for the task.  The record falls back to the heap. *)
Definition CreateTaskImpl (mem : option Z) (rmem : Z) (f d : Z) (ln : Lane) (ty : TaskType) (st : StackClass) : M Z :=
  match mem with
  | None => mret 0
  | Some t =>
      let T := new_Task_fn f d ln in
      _ ← modify (λ w, with_records (<[rmem := new_TaskRecord]> (records w)) w);
      _ ← modify (λ w, with_tasks (<[t := mkTask f d rmem (next T) (waitGroup T)
                     (mkFlags ln ty (priorityBoost (flags T)) true st) (started T) (cancelledDirect T) (cancelToken T)]> (tasks w)) w);
      mret t
  end.

Definition ReleaseRecord (r : Z) : M unit :=
  if r =? 0 then mret tt
  else
    R ← get_record r;
    _ ← when (negb (rec_locals R =? 0)) (_ ← emit (EvLocals (rec_locals R)); emit (EvFree (rec_locals R)));
    _ ← when (negb (rec_debts R =? 0)) (emit (EvDebts (rec_debts R)));
    _ ← modify (λ w, with_records (delete r (records w)) w);
    emit (EvFree r).

Definition FreeTask (t : Z) : M unit :=
  if t =? 0 then mret tt
  else
    T ← get_task t;
    _ ← when (DestroyTask T) (emit (EvDestroy t));
    _ ← modify (λ w, with_tasks (delete t (tasks w)) w);
    _ ← emit (EvFree t);
    ReleaseRecord (record T).

(** [if (t->waitGroup) t->waitGroup->Done();] *)
Definition settle_group (t : Z) : M unit := T ← get_task t; when (negb (waitGroup T =? 0)) (emit (EvDone (waitGroup T))).

Definition task_cancelled (c : Cancel) (T : Task) : bool := negb (cancelledDirect T =? 0) || Cancelled c (cancelToken T).

Definition DiscardIfCancelled (t : Z) : M bool :=
  if t =? 0 then mret false
  else
    T ← get_task t;
    c ← gets w_cancel;
    if negb (started T =? 0) || negb (task_cancelled c T) then mret false
    else
      _ ← emit (EvDiscarded t);
      _ ← settle_group t;
      _ ← FreeTask t;
      mret true.

(** [StampPin(t, pin)] on the calling thread. *)
Definition pool_slot (self : caller) : option Z := match self with Some (q, _) => if 0 <=? q then Some q else None | None => None end.
Definition stamp (self : caller) (t : Z) (p : Pin) : M unit :=
  T ← get_task t;
  R ← get_record (record T);
  pinned ← gets w_pinned;
  n ← gets (λ w, pl_n (w_pool w));
  put_record (record T) (rec_set_pin (StampPin pinned (pool_slot self) (Some n) p) R).

(** ** Coroutines *)

(** [ArmResume]: the pin is stamped and the task's data set to the frame. *)
Definition ArmResume (self : caller) (h : Z) (p : Pin) : M Z :=
  P ← get_frame h;
  let t := pr_task P in
  _ ← stamp self t p;
  T ← get_task t;
  _ ← put_task t (task_data h T);
  mret t.

(** [promise_type::Complete], run by [final_suspend], after which the frame is destroyed. *)
Definition Complete (h : Z) : M unit :=
  P ← get_frame h;
  let t := pr_task P in
  if t =? 0 then mret tt
  else
    _ ← put_frame h (mkPromise 0 (pr_dagNode P));
    _ ← settle_group t;
    _ ← FreeTask t;
    if pr_dagNode P =? 0 then mret tt
    else
      _ ← put_frame h (mkPromise 0 0);
      emit (EvSignal (pr_dagNode P)).
Definition destroy_frame (h : Z) : M unit := _ ← get_frame h; modify (λ w, with_frames (delete h (frames w)) w).
Definition final_suspend (h : Z) : M unit := _ ← Complete h; destroy_frame h.

(** What a body does: it returns; a coroutine finishes, or suspends with a pin, or suspends
    and has finished on another thread by the time the call comes back; on a fiber, the
    thread may be handed on with [SwitchTo] to the fibers of [path] in turn, and control comes
    back to the scheduler from the one that has it last, with a status and, unless it is dead,
    the pin it suspended with. *)
Inductive outcome :=
| Returns
| CoFinishes | CoWaits (p : Pin) | CoPasses (p : Pin)
| FbBack (path : list Z) (s : FiberStatus) (p : Pin).

(** [ResumeCoroutine]. *)
Definition ResumeCoroutine (self : caller) (h : Z) (o : outcome) : M unit :=
  _ ← get_frame h;
  _ ← emit (EvResume h);
  match o with
  | CoWaits p => _ ← ArmResume self h p; mret tt
  | CoPasses p => _ ← ArmResume self h p; final_suspend h
  | _ => final_suspend h
  end.

(** [t->Execute()] on the calling stack. *)
Definition execute (self : caller) (t : Z) (o : outcome) : M unit :=
  T ← get_task t;
  match type (flags T) with
  | Coroutine => ResumeCoroutine self (data T) o
  | _ => emit (EvRun (fn T) (data T))
  end.

(** [Spawn(c, wg, ...)] and [Spawn(c, node, ...)]: [h] is the coroutine's frame, [g] the group
    and [n] the node, at most one of them there. *)
Definition Spawn (self : caller) (h g n : Z) (ln : Lane) (token resume : Z) (mem : option Z) (rmem : Z) : M bool :=
  if h =? 0 then mret false
  else
    t ← CreateTaskImpl mem rmem resume h ln Coroutine Standard;
    if t =? 0 then _ ← destroy_frame h; mret false
    else
      P ← get_frame h;
      _ ← put_frame h (mkPromise t (pr_dagNode P));
      T ← get_task t;
      _ ← put_task t (mkTask (fn T) (data T) (record T) (next T) (waitGroup T) (flags T) (started T) (cancelledDirect T) token);
      _ ← when (negb (g =? 0)) (_ ← emit (EvAdd g); T ← get_task t;
             put_task t (mkTask (fn T) (data T) (record T) (next T) g (flags T) (started T) (cancelledDirect T) (cancelToken T)));
      _ ← when (negb (n =? 0)) (P ← get_frame h; put_frame h (mkPromise (pr_task P) n));
      T ← get_task t; R ← get_record (record T);
      p ← gets w_pool;
      let '(ok, p') := Push self (ptask_of t T R) p in
      _ ← place (λ _, p');
      mret ok.

(** ** Fibers *)

Definition get_fiber : Z → M fib := at_addr fibers.
Definition set_fiber (f : Z) (F : fib) : M unit := modify (λ w, with_fibers (<[f := F]> (fibers w)) w).
Definition set_fstatus (f : Z) (s : FiberStatus) : M unit := F ← get_fiber f; set_fiber f (mkFib s (fb_owner F) (fb_class F)).

(** [AcquireFiber] and [StealInto] of one: a spare fiber of the class, reset; 0 when the pool
    is past its memory limit. *)
Definition AcquireFiber (c : StackClass) : M Z :=
  l ← gets (λ w, default [] (spare w !! StackClass_code c));
  match l with
  | [] => mret 0
  | f :: l' =>
      _ ← modify (λ w, with_spare (<[StackClass_code c := l']> (spare w)) w);
      _ ← set_fiber f (mkFib READY 0 c);
      mret f
  end.

Definition ReleaseFiber (f : Z) : M unit :=
  F ← get_fiber f;
  let k := StackClass_code (fb_class F) in
  _ ← modify (λ w, with_spare (<[k := default [] (spare w !! k) ++ [f]]> (spare w)) w);
  emit (EvFiber f).

(** [Thread::OnFiberReturned] of the fiber [f] of the task [t]. *)
Definition fiber_returned (self : caller) (f t : Z) (s : FiberStatus) : M unit :=
  let '(s', what) := OnFiberReturned s in
  match what with
  | Recycled =>
      _ ← settle_group t;
      T ← get_task t;
      R ← get_record (record T);
      _ ← put_record (record T) (rec_set_fiber 0 R);
      _ ← ReleaseFiber f;
      FreeTask t
  | Yielded => _ ← set_fstatus f s'; place_task t (λ pt p, (YieldFiber self pt p).2)
  | Requeued => _ ← set_fstatus f s'; place_task t (ResumeFiber self)
  | Parked | Left => set_fstatus f s'
  end.

(** The statuses a suspension leaves, having stamped its pin. *)
Definition suspends (s : FiberStatus) : bool := match s with WANTS_YIELD | WANTS_SUSPEND | SUSPEND_SIGNALED => true | _ => false end.

Definition set_home (self t : Z) : M unit := T ← get_task t; R ← get_record (record T); put_record (record T) (rec_set_home self R).
Definition task_type (t : Z) : M TaskType := T ← get_task t; mret (type (flags T)).

(** [SwitchTo(g)] called on the running fiber [f]: whether the thread was handed over. *)
Definition switch_to (f g : Z) : M bool :=
  if (g =? 0) || (g =? f) then mret false
  else
    F ← get_fiber f;
    ty ← task_type (fb_owner F);
    if negb (can_suspend ty) then mret false
    else
      G ← get_fiber g;
      match fb_status G with
      | READY | TRANSFERRED =>
          _ ← set_fstatus g RUNNING;
          _ ← set_fstatus f TRANSFERRED;
          _ ← (if fb_owner G =? 0 then mret tt
               else
                 TG ← get_task (fb_owner G);
                 TF ← get_task (fb_owner F);
                 if (record TG =? 0) || (record TF =? 0) then mret tt
                 else R ← get_record (record TF); set_home (rec_home R) (fb_owner G));
          mret true
      | _ => mret false
      end.

(** The hand-overs of a run that entered the fiber [f]; the fiber that has the thread at the end. *)
Fixpoint pass_on (f : Z) (path : list Z) : M Z :=
  match path with
  | [] => mret f
  | g :: r => ok ← switch_to f g; pass_on (if ok : bool then g else f) r
  end.

(** The switch into the fiber and what happens when control is back: the fiber that came back
    is the one the thread now names as current, which a hand-over has changed. *)
Definition run_fiber (self : caller) (f t : Z) (o : outcome) : M unit :=
  _ ← set_fstatus f RUNNING;
  match o with
  | FbBack path s p =>
      back ← pass_on f path;
      F ← get_fiber back;
      let t' := if fb_owner F =? 0 then t else fb_owner F in
      _ ← when (suspends s) (stamp self t' p);
      fiber_returned self back t' s
  | _ => fiber_returned self f t DEAD
  end.

(** A body attached to the task if it has none. *)
Definition attach_fiber (t : Z) : M Z :=
  T ← get_task t;
  R ← get_record (record T);
  if negb (rec_fiber R =? 0) then mret (rec_fiber R)
  else
    f ← AcquireFiber (stackClass (flags T));
    if f =? 0 then mret 0
    else
      _ ← put_record (record T) (rec_set_fiber f R);
      F ← get_fiber f;
      _ ← set_fiber f (mkFib READY t (fb_class F));
      _ ← emit (EvRun (fn T) (data T));
      mret f.

(** A native task, run to its end and freed. *)
Definition run_native (self : caller) (t : Z) (o : outcome) : M unit := _ ← execute self t o; _ ← settle_group t; FreeTask t.

Definition mark_started (t : Z) : M unit := T ← get_task t; put_task t (task_started T).

(** ** The dispatchers *)

(** [Thread::isMain]: slot 0 with main in the pool. *)
Definition isMain (self : caller) : bool := match self with Some (_, m) => m | None => false end.

(** [Thread::Worker] with a task in hand; [io] whether a reserved worker that stole the task finds that latency work has come in. *)
Definition dispatch (self : caller) (me : Z) (io : bool) (o : outcome) (t : Z) : M unit :=
  d ← DiscardIfCancelled t;
  if d : bool then mret tt
  else if io then place_task t (λ pt p, (Requeue self pt p).2)
  else
    _ ← mark_started t;
    _ ← set_home me t;
    ty ← task_type t;
    match ty with
    | Coroutine => execute self t o
    | Native => run_native self t o
    | Fiber =>
        f ← attach_fiber t;
        if f =? 0 then place_task t (λ pt p, if isMain self then PushMainQueue pt p else (Requeue self pt p).2)
        else run_fiber self f t o
    end.

(** [Thread::RunHelped], on main's helper. *)
Definition RunHelped (self : caller) (me : Z) (o : outcome) (t : Z) : M unit :=
  d ← DiscardIfCancelled t;
  if d : bool then mret tt
  else
    _ ← set_home me t;
    ty ← task_type t;
    match ty with
    | Coroutine => _ ← mark_started t; execute self t o
    | Native => _ ← mark_started t; run_native self t o
    | Fiber =>
        f ← attach_fiber t;
        if f =? 0 then place_task t (λ pt p, (Requeue self pt p).2)
        else _ ← mark_started t; run_fiber self f t o
    end.

(** [RunMainTask]; [helper] whether the calling thread is main's helper. *)
Definition RunMainTask (self : caller) (me : Z) (helper : bool) (o : outcome) (t : Z) : M unit :=
  T ← get_task t;
  R ← get_record (record T);
  if negb (started T =? 0) && negb (rec_fiber R =? 0) && helper then RunHelped self me o t
  else
    _ ← set_home me t;
    _ ← execute self t o;
    _ ← settle_group t;
    FreeTask t.

Definition RunOneMainTask (self : caller) (me : Z) (helper : bool) (o : outcome) : M bool :=
  q ← gets (λ w, queue (w_pool w) MainQ);
  match q with
  | [] => mret false
  | t :: r =>
      _ ← place (λ p, with_q (<[MainQ := r]> (pl_q p)) p);
      d ← DiscardIfCancelled t;
      if d : bool then mret true else _ ← RunMainTask self me helper o t; mret true
  end.

(** [TryRunStolenNativeTask] with the coroutine it took off a deque. *)
Definition help_run (self : caller) (me : Z) (o : outcome) (t : Z) : M unit :=
  d ← DiscardIfCancelled t;
  if d : bool then mret tt
  else _ ← mark_started t; _ ← set_home me t; execute self t o.

(** ** What becomes of the task *)

Definition dones (l : list ev) : list Z := omap (λ e, match e with EvDone g => Some g | _ => None end) l.
Definition frees (l : list ev) : list Z := omap (λ e, match e with EvFree p => Some p | _ => None end) l.
Definition group_of (T : Task) : list Z := if waitGroup T =? 0 then [] else [waitGroup T].
Definition locals_of (R : TaskRecord) : list Z := if rec_locals R =? 0 then [] else [rec_locals R].

(** The task is in the store with its record. *)
Definition live (w : store) (t : Z) (T : Task) (R : TaskRecord) : Prop := t ≠ 0 ∧ record T ≠ 0 ∧ tasks w !! t = Some T ∧ records w !! record T = Some R.

(** The record is there as before, but for the worker it names as its home. *)
Definition kept (o o' : option TaskRecord) : Prop :=
  match o, o' with Some R, Some R' => R' = rec_set_home (rec_home R') R | None, None => True | _, _ => False end.

(** Ended; queued, in one of the ways there are; given back by main to its own high-priority
    inbox, for want of a fiber; or kept by whoever will wake it. *)
Inductive fate := Ended | Queued (how : placing) | GivenBack | Waits.

Definition fated (self : caller) (fa : fate) (t : Z) (T : Task) (R : TaskRecord) (w w' : store) : Prop :=
  (∀ x, x ≠ t → tasks w' !! x = tasks w !! x) ∧ (∀ r, r ≠ record T → kept (records w !! r) (records w' !! r)) ∧
  ∃ evs, w_log w' = w_log w ++ evs ∧
  match fa with
  | Ended => tasks w' !! t = None ∧ records w' !! record T = None ∧ w_pool w' = w_pool w ∧
             frees evs = [t] ++ locals_of R ++ [record T] ∧ dones evs = group_of T
  | Waits => frees evs = [] ∧ dones evs = [] ∧ w_pool w' = w_pool w ∧
             ∃ T' R', live w' t T' R' ∧ record T' = record T ∧ waitGroup T' = waitGroup T
  | _ => frees evs = [] ∧ dones evs = [] ∧
         ∃ T' R', live w' t T' R' ∧ record T' = record T ∧ waitGroup T' = waitGroup T ∧
         match fa with
         | Queued how => placed how self (ptask_of t T' R') (w_pool w) (w_pool w')
         | _ => placed_on (Hi 0) self (ptask_of t T' R') (w_pool w) (w_pool w')
         end
  end.

(** *** Evaluation *)

Lemma bind_ok {A B} (m : M A) (f : A → M B) w a w' : m w = Ok (a, w') → (m ≫= f) w = f a w'.
Proof. intros H. unfold mbind, M_bind. by rewrite H. Qed.

Lemma bind_assoc_ok {A B C} (m : M A) (f : A → M B) (g : B → M C) w : ((m ≫= f) ≫= g) w = (m ≫= λ a, f a ≫= g) w.
Proof. unfold mbind, M_bind. by destruct (m w) as [[]|]. Qed.

Lemma at_addr_ok {A} (g : store → gmap Z A) x a w : g w !! x = Some a → at_addr g x w = Ok (a, w).
Proof. intros H. unfold at_addr. by rewrite H. Qed.

Lemma put_task_ok t T T' w : tasks w !! t = Some T → put_task t T' w = Ok (tt, with_tasks (<[t := T']> (tasks w)) w).
Proof. intros H. unfold put_task. by rewrite (bind_ok _ _ w T w) by by apply at_addr_ok. Qed.

Lemma put_record_ok r R R' w : records w !! r = Some R → put_record r R' w = Ok (tt, with_records (<[r := R']> (records w)) w).
Proof. intros H. unfold put_record. by rewrite (bind_ok _ _ w R w) by by apply at_addr_ok. Qed.

Lemma put_frame_ok h P P' w : frames w !! h = Some P → put_frame h P' w = Ok (tt, with_frames (<[h := P']> (frames w)) w).
Proof. intros H. unfold put_frame. by rewrite (bind_ok _ _ w P w) by by apply at_addr_ok. Qed.

(** One more step of a computation whose first part is known. *)
Ltac run_by H := erewrite bind_ok; [|exact H].

Definition death (t : Z) (T : Task) (R : TaskRecord) : list ev :=
  (if DestroyTask T then [EvDestroy t] else []) ++ [EvFree t] ++
  (if rec_locals R =? 0 then [] else [EvLocals (rec_locals R); EvFree (rec_locals R)]) ++
  (if rec_debts R =? 0 then [] else [EvDebts (rec_debts R)]) ++ [EvFree (record T)].

Lemma frees_app l l' : frees (l ++ l') = frees l ++ frees l'.
Proof. apply omap_app. Qed.
Lemma dones_app l l' : dones (l ++ l') = dones l ++ dones l'.
Proof. apply omap_app. Qed.
Lemma frees_death t T R : frees (death t T R) = [t] ++ locals_of R ++ [record T].
Proof. unfold death, locals_of. by destruct (DestroyTask T), (rec_locals R =? 0), (rec_debts R =? 0). Qed.
Lemma dones_death t T R : dones (death t T R) = [].
Proof. unfold death. by destruct (DestroyTask T), (rec_locals R =? 0), (rec_debts R =? 0). Qed.
Lemma dones_group T : dones (EvDone <$> group_of T) = group_of T.
Proof. unfold group_of. by destruct (waitGroup T =? 0). Qed.
Lemma frees_group T : frees (EvDone <$> group_of T) = [].
Proof. unfold group_of. by destruct (waitGroup T =? 0). Qed.

Lemma with_log_same w : with_log (w_log w ++ []) w = w.
Proof. destruct w. unfold with_log. cbn. by rewrite app_nil_r. Qed.

Lemma settle_group_ok t T w : tasks w !! t = Some T → settle_group t w = Ok (tt, with_log (w_log w ++ (EvDone <$> group_of T)) w).
Proof.
  intros H. unfold settle_group. rewrite (bind_ok _ _ w T w) by by apply at_addr_ok. unfold group_of, when.
  destruct (waitGroup T =? 0); [|done]. cbn. by rewrite with_log_same.
Qed.

(** The store after the end of a task: its group told, then the task and its record gone. *)
Definition without (w : store) (t : Z) (T : Task) (l : list ev) : store :=
  with_log (w_log w ++ l) (with_records (delete (record T) (records w)) (with_tasks (delete t (tasks w)) w)).

Ltac run_monad :=
  cbv beta iota zeta delta [mbind M_bind mret M_ret when emit modify negb with_log with_records with_tasks with_fibers with_frames with_spare with_pool
    w_log tasks records fibers frames spare w_pool w_cancel w_pinned].

Lemma ReleaseRecord_ok r R w : r ≠ 0 → records w !! r = Some R → ReleaseRecord r w = Ok (tt, with_log (w_log w ++
    (if rec_locals R =? 0 then [] else [EvLocals (rec_locals R); EvFree (rec_locals R)]) ++
    (if rec_debts R =? 0 then [] else [EvDebts (rec_debts R)]) ++ [EvFree r]) (with_records (delete r (records w)) w)).
Proof.
  intros Hr HR. unfold ReleaseRecord. rewrite (proj2 (Z.eqb_neq _ 0) Hr). rewrite (bind_ok _ _ w R w) by by apply at_addr_ok.
  destruct (rec_locals R =? 0), (rec_debts R =? 0); destruct w; run_monad; rewrite <- ?app_assoc; reflexivity.
Qed.

Lemma FreeTask_ok t T R w : live w t T R → FreeTask t w = Ok (tt, without w t T (death t T R)).
Proof.
  intros (Ht & Hr & HT & HR). unfold FreeTask. rewrite (proj2 (Z.eqb_neq t 0) Ht). rewrite (bind_ok _ _ w T w) by by apply at_addr_ok.
  unfold without, death. destruct (DestroyTask T); destruct w; run_monad; rewrite (ReleaseRecord_ok _ R) by done; run_monad; rewrite <- ?app_assoc; reflexivity.
Qed.

(** The task has been brought along from [w0] to [w]: still in the store, nothing freed, no
    group told, no queue touched. *)
Record along (w0 w : store) (t : Z) (T : Task) (R : TaskRecord) (T1 : Task) (R1 : TaskRecord) (ds : list Z) : Prop := {
  al_others x : x ≠ t → tasks w !! x = tasks w0 !! x;
  al_records r : r ≠ record T → kept (records w0 !! r) (records w !! r);
  al_pool : w_pool w = w_pool w0;
  al_log : ∃ pre, w_log w = w_log w0 ++ pre ∧ frees pre = [] ∧ dones pre = ds;
  al_live : live w t T1 R1;
  al_rec : record T1 = record T; al_group : waitGroup T1 = waitGroup T; al_locals : rec_locals R1 = rec_locals R }.

Lemma kept_refl o : kept o o.
Proof. destruct o as [[]|]; done. Qed.
Lemma kept_trans o1 o2 o3 : kept o1 o2 → kept o2 o3 → kept o1 o3.
Proof. destruct o1, o2, o3; cbn; try done. intros -> ->. done. Qed.

Lemma along_start w t T R : live w t T R → along w w t T R T R [].
Proof. intros H. constructor; try done; [intros; apply kept_refl|]. exists []. by rewrite app_nil_r. Qed.

Lemma along_waits self w0 w t T R T1 R1 : along w0 w t T R T1 R1 [] → fated self Waits t T R w0 w.
Proof.
  intros A. destruct (al_log _ _ _ _ _ _ _ _ A) as (pre & Hl & Hf & Hd). split_and!; [apply A..|]. exists pre. split_and!; [done|done|done|apply A|].
  exists T1, R1. split_and!; apply A.
Qed.

Lemma along_queued how self w0 w t T R T1 R1 p :
  along w0 w t T R T1 R1 [] → placed how self (ptask_of t T1 R1) (w_pool w) p → fated self (Queued how) t T R w0 (with_pool p w).
Proof.
  intros A Hp. destruct (al_log _ _ _ _ _ _ _ _ A) as (pre & Hl & Hf & Hd). split_and!; [apply A..|]. exists pre. split_and!; [done|done|done|].
  exists T1, R1. split_and!; [apply A|apply A|apply A|]. cbn. by rewrite <- (al_pool _ _ _ _ _ _ _ _ A).
Qed.

Lemma along_given self w0 w t T R T1 R1 p :
  along w0 w t T R T1 R1 [] → placed_on (Hi 0) self (ptask_of t T1 R1) (w_pool w) p → fated self GivenBack t T R w0 (with_pool p w).
Proof.
  intros A Hp. destruct (al_log _ _ _ _ _ _ _ _ A) as (pre & Hl & Hf & Hd). split_and!; [apply A..|]. exists pre. split_and!; [done|done|done|].
  exists T1, R1. split_and!; [apply A|apply A|apply A|]. cbn. by rewrite <- (al_pool _ _ _ _ _ _ _ _ A).
Qed.

Lemma along_freed self w0 w t T R T1 R1 : along w0 w t T R T1 R1 (group_of T) → fated self Ended t T R w0 (without w t T1 (death t T1 R1)).
Proof.
  intros A. destruct (al_log _ _ _ _ _ _ _ _ A) as (pre & Hl & Hf & Hd). split_and!.
  - intros x Hx. cbn. rewrite lookup_delete_ne by done. by apply A.
  - intros r Hr. cbn. rewrite lookup_delete_ne by by rewrite (al_rec _ _ _ _ _ _ _ _ A). by apply A.
  - exists (pre ++ death t T1 R1). split; [cbn; rewrite Hl, <- app_assoc; reflexivity|].
    rewrite !frees_app, !dones_app, frees_death, dones_death, Hf, Hd, app_nil_r. unfold locals_of.
    rewrite (al_rec _ _ _ _ _ _ _ _ A), (al_locals _ _ _ _ _ _ _ _ A). cbn.
    split_and!; [by rewrite lookup_delete_eq| |apply A|done|done]. rewrite (al_rec _ _ _ _ _ _ _ _ A). by rewrite lookup_delete_eq.
Qed.

Lemma along_done w0 w t T R T1 R1 : along w0 w t T R T1 R1 [] → along w0 (with_log (w_log w ++ (EvDone <$> group_of T1)) w) t T R T1 R1 (group_of T).
Proof.
  intros [A1 Ar A2 (pre & L1 & L2 & L3) A4 A5 A6 A7]. constructor; try done. exists (pre ++ (EvDone <$> group_of T1)).
  cbn. rewrite L1, frees_app, dones_app, frees_group, dones_group, L2, L3, <- app_assoc. unfold group_of. by rewrite A6.
Qed.

(** The group told, then the task freed: the end of every task that ran. *)
Lemma end_ok self w0 w t T R T1 R1 : along w0 w t T R T1 R1 [] → ∃ w', (_ ← settle_group t; FreeTask t) w = Ok (tt, w') ∧ fated self Ended t T R w0 w'.
Proof.
  intros A. pose proof (along_done _ _ _ _ _ _ _ A) as A'. pose proof (al_live _ _ _ _ _ _ _ _ A) as L. eexists. split.
  - rewrite (bind_ok _ _ w tt _ (settle_group_ok t T1 w (proj1 (proj2 (proj2 L))))). apply (FreeTask_ok t T1 R1), A'.
  - by apply along_freed.
Qed.

(** A change to the rest of the store, or to a field of the task or its record. *)
Lemma along_rest w0 w w' t T R T1 R1 l ds :
  along w0 w t T R T1 R1 ds → tasks w' = tasks w → records w' = records w → w_pool w' = w_pool w → w_log w' = w_log w ++ l → frees l = [] → dones l = [] →
  along w0 w' t T R T1 R1 ds.
Proof.
  intros [A1 Ar A2 (pre & L1 & L2 & L3) A4 A5 A6 A7] H1 H2 H3 H4 Hf Hd. constructor; try done.
  - intros x. rewrite H1. apply A1.
  - intros r. rewrite H2. apply Ar.
  - by rewrite H3.
  - exists (pre ++ l). rewrite frees_app, dones_app, L2, L3, Hf, Hd, !app_nil_r. split_and!; [by rewrite H4, L1, <- app_assoc|done|done].
  - unfold live in *. by rewrite H1, H2.
Qed.

Lemma along_task w0 w t T R T1 R1 T2 ds :
  along w0 w t T R T1 R1 ds → record T2 = record T1 → waitGroup T2 = waitGroup T1 → along w0 (with_tasks (<[t := T2]> (tasks w)) w) t T R T2 R1 ds.
Proof.
  intros [A1 Ar A2 A3 (A4 & A5 & A6 & A7) A8 A9 A10] H1 H2. constructor; cbn; try done.
  - intros x Hx. rewrite lookup_insert_ne by done. by apply A1.
  - unfold live. cbn. rewrite lookup_insert_eq, H1. done.
  - by rewrite H1.
  - by rewrite H2.
Qed.

Lemma along_record w0 w t T R T1 R1 R2 ds :
  along w0 w t T R T1 R1 ds → rec_locals R2 = rec_locals R1 → along w0 (with_records (<[record T1 := R2]> (records w)) w) t T R T1 R2 ds.
Proof.
  intros [A1 Ar A2 A3 (A4 & A5 & A6 & A7) A8 A9 A10] H1. constructor; cbn; try done.
  - intros r Hr. rewrite lookup_insert_ne by by rewrite A8. by apply Ar.
  - unfold live. cbn. by rewrite lookup_insert_eq.
  - by rewrite H1.
Qed.

(** *** The steps of a dispatcher *)

Lemma mark_started_ok t T R w : live w t T R → mark_started t w = Ok (tt, with_tasks (<[t := task_started T]> (tasks w)) w).
Proof. intros (_ & _ & HT & _). unfold mark_started. rewrite (bind_ok _ _ w T w) by by apply at_addr_ok. by eapply put_task_ok. Qed.

Lemma set_home_ok me t T R w : live w t T R → set_home me t w = Ok (tt, with_records (<[record T := rec_set_home me R]> (records w)) w).
Proof.
  intros (_ & _ & HT & HR). unfold set_home. rewrite (bind_ok _ _ w T w) by by apply at_addr_ok. rewrite (bind_ok _ _ w R w) by by apply at_addr_ok.
  by eapply put_record_ok.
Qed.

Definition stamped (self : caller) (p : Pin) (w : store) (R : TaskRecord) : TaskRecord := rec_set_pin (StampPin (w_pinned w) (pool_slot self) (Some (pl_n (w_pool w))) p) R.

Lemma stamp_ok self p t T R w : live w t T R → stamp self t p w = Ok (tt, with_records (<[record T := stamped self p w R]> (records w)) w).
Proof.
  intros (_ & _ & HT & HR). unfold stamp. rewrite (bind_ok _ _ w T w) by by apply at_addr_ok. rewrite (bind_ok _ _ w R w) by by apply at_addr_ok.
  rewrite (bind_ok _ _ w (w_pinned w) w) by done. rewrite (bind_ok _ _ w (pl_n (w_pool w)) w) by done. by eapply put_record_ok.
Qed.

Lemma place_task_ok f t T R w : live w t T R → place_task t f w = Ok (tt, with_pool (f (ptask_of t T R) (w_pool w)) w).
Proof. intros (_ & _ & HT & HR). unfold place_task. rewrite (bind_ok _ _ w T w) by by apply at_addr_ok. by rewrite (bind_ok _ _ w R w) by by apply at_addr_ok. Qed.

Lemma task_type_ok t T R w : live w t T R → task_type t w = Ok (type (flags T), w).
Proof. intros (_ & _ & HT & _). unfold task_type. by rewrite (bind_ok _ _ w T w) by by apply at_addr_ok. Qed.

Definition discards (w : store) (T : Task) : bool := (started T =? 0) && task_cancelled (w_cancel w) T.

Lemma discard_ok t T R w : live w t T R →
  DiscardIfCancelled t w = if discards w T then Ok (true, without (with_log (w_log w ++ [EvDiscarded t]) w) t T ((EvDone <$> group_of T) ++ death t T R)) else Ok (false, w).
Proof.
  intros H. pose proof H as (Ht & _ & HT & _). unfold DiscardIfCancelled. rewrite (proj2 (Z.eqb_neq t 0) Ht).
  rewrite (bind_ok _ _ w T w) by by apply at_addr_ok. rewrite (bind_ok _ _ w (w_cancel w) w) by done. unfold discards.
  destruct (started T =? 0), (task_cancelled (w_cancel w) T); cbn [negb orb andb]; try reflexivity.
  rewrite (bind_ok _ _ w tt (with_log (w_log w ++ [EvDiscarded t]) w)) by done.
  rewrite (bind_ok _ _ _ tt _ (settle_group_ok t T (with_log (w_log w ++ [EvDiscarded t]) w) HT)).
  rewrite (bind_ok _ _ _ tt (without (with_log (w_log w ++ [EvDiscarded t]) w) t T ((EvDone <$> group_of T) ++ death t T R))); [done|].
  rewrite (FreeTask_ok t T R) by done. unfold without. destruct w; run_monad. by rewrite <- !app_assoc.
Qed.

Lemma stamped_pin self p t T R w :
  pool_ok (w_pool w) → caller_ok self (w_pool w) → 0 ≤ target p → pin_ok (ptask_of t T (stamped self p w R)) (w_pool w).
Proof.
  intros Hp Hs H0. pose proof (po_small _ Hp). unfold pin_ok, stamped, StampPin. cbn.
  destruct (_ =? kCurrent).
  { destruct self as [[q m]|]; cbn in *; [|auto]. destruct (0 <=? q) eqn:E; [|auto]. apply Z.leb_le in E. right; right. rewrite u16_small by lia. lia. }
  destruct (_ =? kMain); [auto|]. destruct (_ =? kNone); [auto|]. destruct (_ <? pl_n (w_pool w)) eqn:E; [|auto].
  apply Z.ltb_lt in E. right; right. split; [|done]. destruct (w_pinned w); cbn; [|done]. destruct (target p =? kMain); cbn; [done|]. unfold kCurrent. lia.
Qed.

(** *** Fibers *)

Definition fiber_fate (s : FiberStatus) : fate := match (OnFiberReturned s).2 with Recycled => Ended | Yielded => Queued YieldedBy | Requeued => Queued Resumed | _ => Waits end.

Lemma set_fstatus_ok f F s w : fibers w !! f = Some F → set_fstatus f s w = Ok (tt, with_fibers (<[f := mkFib s (fb_owner F) (fb_class F)]> (fibers w)) w).
Proof. intros H. unfold set_fstatus. by rewrite (bind_ok _ _ w F w) by by apply at_addr_ok. Qed.

Lemma along_fibers w0 w t T R T1 R1 m ds : along w0 w t T R T1 R1 ds → along w0 (with_fibers m w) t T R T1 R1 ds.
Proof. intros A. apply (along_rest _ _ _ _ _ _ _ _ [] _ A); try done. cbn. by rewrite app_nil_r. Qed.

Lemma along_spare w0 w t T R T1 R1 m ds : along w0 w t T R T1 R1 ds → along w0 (with_spare m w) t T R T1 R1 ds.
Proof. intros A. apply (along_rest _ _ _ _ _ _ _ _ [] _ A); try done. cbn. by rewrite app_nil_r. Qed.

Lemma along_frames w0 w t T R T1 R1 m ds : along w0 w t T R T1 R1 ds → along w0 (with_frames m w) t T R T1 R1 ds.
Proof. intros A. apply (along_rest _ _ _ _ _ _ _ _ [] _ A); try done. cbn. by rewrite app_nil_r. Qed.

Lemma along_emit w0 w t T R T1 R1 e ds : along w0 w t T R T1 R1 ds → frees [e] = [] → dones [e] = [] → along w0 (with_log (w_log w ++ [e]) w) t T R T1 R1 ds.
Proof. intros A Hf Hd. by apply (along_rest _ _ _ _ _ _ _ _ [e] _ A). Qed.

Lemma ReleaseFiber_ok f F w : fibers w !! f = Some F →
  ReleaseFiber f w = Ok (tt, with_log (w_log w ++ [EvFiber f]) (with_spare (<[StackClass_code (fb_class F) := default [] (spare w !! StackClass_code (fb_class F)) ++ [f]]> (spare w)) w)).
Proof. intros H. unfold ReleaseFiber. by rewrite (bind_ok _ _ w F w) by by apply at_addr_ok. Qed.

(** The place of a task after [f] put it where the placement functions do. *)
Lemma queued_by how self f w0 w t T R T1 R1 :
  along w0 w t T R T1 R1 [] → placed how self (ptask_of t T1 R1) (w_pool w) (f (ptask_of t T1 R1) (w_pool w)) →
  ∃ w', place_task t f w = Ok (tt, w') ∧ fated self (Queued how) t T R w0 w'.
Proof. intros A Hp. eexists. split; [by apply (place_task_ok f t T1 R1), A|]. by eapply along_queued. Qed.

Lemma given_by self f w0 w t T R T1 R1 :
  along w0 w t T R T1 R1 [] → placed_on (Hi 0) self (ptask_of t T1 R1) (w_pool w) (f (ptask_of t T1 R1) (w_pool w)) →
  ∃ w', place_task t f w = Ok (tt, w') ∧ fated self GivenBack t T R w0 w'.
Proof. intros A Hp. eexists. split; [by apply (place_task_ok f t T1 R1), A|]. by eapply along_given. Qed.

Lemma fiber_returned_settles self f F w0 w t T R T1 R1 s :
  pool_ok (w_pool w) → caller_ok self (w_pool w) → pin_ok (ptask_of t T1 R1) (w_pool w) →
  along w0 w t T R T1 R1 [] → fibers w !! f = Some F → ∃ w', fiber_returned self f t s w = Ok (tt, w') ∧ fated self (fiber_fate s) t T R w0 w'.
Proof.
  intros Hp Hs Hpin A HF. pose proof (al_live _ _ _ _ _ _ _ _ A) as L. unfold fiber_returned, fiber_fate.
  destruct (OnFiberReturned s) as [s' []]; cbn [snd].
  - rewrite (bind_ok _ _ w tt _ (settle_group_ok t T1 w (proj1 (proj2 (proj2 L))))). apply along_done in A. set (w1 := with_log _ w) in *.
    pose proof (al_live _ _ _ _ _ _ _ _ A) as L1. rewrite (bind_ok _ _ w1 T1 w1) by apply at_addr_ok, L1. rewrite (bind_ok _ _ w1 R1 w1) by apply at_addr_ok, L1.
    rewrite (bind_ok _ _ _ _ _ (put_record_ok _ R1 (rec_set_fiber 0 R1) w1 (proj2 (proj2 (proj2 L1))))).
    apply (along_record _ _ _ _ _ _ _ (rec_set_fiber 0 R1)) in A; [|done]. set (w2 := with_records _ w1) in *.
    rewrite (bind_ok _ _ _ _ _ (ReleaseFiber_ok f F w2 HF)).
    pose proof (along_emit _ _ _ _ _ _ _ (EvFiber f) _ (along_spare _ _ _ _ _ _ _ (<[StackClass_code (fb_class F) :=
      default [] (spare w2 !! StackClass_code (fb_class F)) ++ [f]]> (spare w2)) _ A) eq_refl eq_refl) as A3.
    eexists. split; [apply (FreeTask_ok t T1 (rec_set_fiber 0 R1)), A3|]. by apply along_freed.
  - rewrite (bind_ok _ _ _ _ _ (set_fstatus_ok f F s' w HF)). eapply queued_by; [by apply along_fibers|]. by apply placed_yield.
  - eexists. split; [by apply set_fstatus_ok|]. eapply along_waits. by apply along_fibers.
  - rewrite (bind_ok _ _ _ _ _ (set_fstatus_ok f F s' w HF)). eapply queued_by; [by apply along_fibers|]. by apply placed_resume.
  - eexists. split; [by apply set_fstatus_ok|]. eapply along_waits. by apply along_fibers.
Qed.

(** Control is back from the fiber [f] of the task [t]: the pin stamped if it suspends, then
    what its status asks for. *)
Lemma back_settles self f F w0 w t T R T1 R1 s p :
  pool_ok (w_pool w) → caller_ok self (w_pool w) → pin_ok (ptask_of t T1 R1) (w_pool w) → 0 ≤ target p →
  along w0 w t T R T1 R1 [] → fibers w !! f = Some F →
  ∃ w', (_ ← when (suspends s) (stamp self t p); fiber_returned self f t s) w = Ok (tt, w') ∧ fated self (fiber_fate s) t T R w0 w'.
Proof.
  intros Hp Hs Hpin Hpos A HF. pose proof (al_live _ _ _ _ _ _ _ _ A) as L. destruct (suspends s) eqn:E; cbn [when].
  - rewrite (bind_ok _ _ _ _ _ (stamp_ok self p t T1 R1 w L)).
    pose proof (along_record _ _ _ _ _ _ _ (stamped self p w R1) _ A eq_refl) as A2. set (w2 := with_records _ w) in *.
    exact (fiber_returned_settles self f _ w0 w2 t T R T1 (stamped self p w R1) s Hp Hs (stamped_pin self p t T1 R1 w Hp Hs Hpos) A2 HF).
  - rewrite (bind_ok _ _ w tt w) by done. by apply (fiber_returned_settles self f F w0 w t T R T1 R1 s).
Qed.

(** *** Hand-overs *)

(** The fiber [g] is there, with a task that is in the store. *)
Definition manned (w : store) (g : Z) : Prop :=
  ∃ F T R, fibers w !! g = Some F ∧ live w (fb_owner F) T R ∧ pin_ok (ptask_of (fb_owner F) T R) (w_pool w).

(** Nothing has changed but statuses of fibers and homes of tasks. *)
Record passed (w w' : store) : Prop := {
  pa_tasks : tasks w' = tasks w; pa_pool : w_pool w' = w_pool w; pa_log : w_log w' = w_log w; pa_frames : frames w' = frames w;
  pa_records r : kept (records w !! r) (records w' !! r);
  pa_fibers g F : fibers w !! g = Some F → ∃ s, fibers w' !! g = Some (mkFib s (fb_owner F) (fb_class F)) }.

Lemma passed_refl w : passed w w.
Proof. constructor; try done; [intros; apply kept_refl|]. intros g [s o c] H. by exists s. Qed.

Lemma passed_trans w1 w2 w3 : passed w1 w2 → passed w2 w3 → passed w1 w3.
Proof.
  intros [A1 A2 A3 A4 A5 A6] [B1 B2 B3 B4 B5 B6]. constructor; try congruence; [intros r; by eapply kept_trans|].
  intros g F H. destruct (A6 g F H) as [s Hs]. destruct (B6 g _ Hs) as [s' Hs']. by exists s'.
Qed.

Lemma passed_live w w' t T R : passed w w' → live w t T R → ∃ h, live w' t T (rec_set_home h R).
Proof.
  intros P (H1 & H2 & H3 & H4). pose proof (pa_records _ _ P (record T)) as K. rewrite H4 in K. destruct (records w' !! record T) as [R'|] eqn:E; [|done].
  exists (rec_home R'). cbn in K. rewrite K in E. cbn in E. split_and!; [done|done|by rewrite (pa_tasks _ _ P)|done].
Qed.

Lemma passed_manned w w' g : passed w w' → manned w g → manned w' g.
Proof.
  intros P (F & T & R & HF & L & Hp). destruct (pa_fibers _ _ P g F HF) as [s Hs]. destruct (passed_live _ _ _ _ _ P L) as [h L'].
  exists (mkFib s (fb_owner F) (fb_class F)), T, (rec_set_home h R). split_and!; [done|done|]. by rewrite (pa_pool _ _ P).
Qed.

Lemma passed_status w g F s : fibers w !! g = Some F → set_fstatus g s w = Ok (tt, with_fibers (<[g := mkFib s (fb_owner F) (fb_class F)]> (fibers w)) w) ∧
  passed w (with_fibers (<[g := mkFib s (fb_owner F) (fb_class F)]> (fibers w)) w).
Proof.
  intros HF. split; [by apply set_fstatus_ok|]. constructor; cbn; try done; [intros; apply kept_refl|]. intros x [sx ox cx] Hx.
  destruct (decide (x = g)) as [->|Hn]; [rewrite lookup_insert_eq; simplify_eq; by exists s|rewrite lookup_insert_ne by done; by exists sx].
Qed.

Lemma passed_home w t T R h : live w t T R → passed w (with_records (<[record T := rec_set_home h R]> (records w)) w).
Proof.
  intros (_ & _ & _ & HR). constructor; cbn; try done; [|intros g [s o c] H; by exists s]. intros r. destruct (decide (r = record T)) as [->|Hn].
  - by rewrite lookup_insert_eq, HR.
  - rewrite lookup_insert_ne by done. apply kept_refl.
Qed.

(** A hand-over goes through or is refused, and nothing else happens. *)
Lemma switch_to_ok f g w : manned w f → manned w g → ∃ ok w', switch_to f g w = Ok (ok, w') ∧ passed w w'.
Proof.
  intros Mf Mg. unfold switch_to. destruct ((g =? 0) || (g =? f)) eqn:E0; [exists false, w; split; [done|apply passed_refl]|].
  apply orb_false_iff in E0 as [_ Hne%Z.eqb_neq]. destruct Mf as (F & TF & RF & HF & LF & _). destruct Mg as (G & TG & RG & HG & LG & _).
  rewrite (bind_ok _ _ w F w) by by apply at_addr_ok. rewrite (bind_ok _ _ _ _ _ (task_type_ok _ _ _ w LF)).
  destruct (negb (can_suspend _)); [exists false, w; split; [done|apply passed_refl]|]. rewrite (bind_ok _ _ w G w) by by apply at_addr_ok.
  destruct (fb_status G); try (exists false, w; split; [done|apply passed_refl]).
  all: destruct (passed_status w g G RUNNING HG) as [E1 P1]; rewrite (bind_ok _ _ _ _ _ E1); clear E1; set (w1 := with_fibers _ w) in *;
    assert (HF1 : fibers w1 !! f = Some F) by (unfold w1; cbn; by rewrite lookup_insert_ne);
    destruct (passed_status w1 f F TRANSFERRED HF1) as [E2 P2]; rewrite (bind_ok _ _ _ _ _ E2); clear E2; set (w2 := with_fibers _ w1) in *;
    pose proof (passed_trans _ _ _ P1 P2) as P; destruct (passed_live _ _ _ _ _ P LF) as [hf LF2]; destruct (passed_live _ _ _ _ _ P LG) as [hg LG2];
    rewrite (proj2 (Z.eqb_neq (fb_owner G) 0)) by apply LG; rewrite bind_assoc_ok;
    rewrite (bind_ok _ _ w2 TG w2) by apply at_addr_ok, LG2; rewrite bind_assoc_ok; rewrite (bind_ok _ _ w2 TF w2) by apply at_addr_ok, LF2;
    rewrite (proj2 (Z.eqb_neq (record TG) 0)), (proj2 (Z.eqb_neq (record TF) 0)) by first [apply LG|apply LF]; cbn [orb]; rewrite bind_assoc_ok;
    rewrite (bind_ok _ _ w2 (rec_set_home hf RF) w2) by apply at_addr_ok, LF2;
    rewrite (bind_ok _ _ _ _ _ (set_home_ok _ _ _ _ w2 LG2));
    eexists true, _; split; [done|]; eapply passed_trans; [exact P|]; by eapply passed_home.
Qed.

Lemma pass_on_ok f path w : manned w f → (∀ g, g ∈ path → manned w g) → ∃ b w', pass_on f path w = Ok (b, w') ∧ passed w w' ∧ (b = f ∨ b ∈ path).
Proof.
  revert f w. induction path as [|g r IH]; intros f w Hf Hp; cbn [pass_on].
  { exists f, w. split_and!; [done|apply passed_refl|by left]. }
  destruct (switch_to_ok f g w Hf) as (ok & w1 & E & P); [apply Hp; set_solver|]. rewrite (bind_ok _ _ _ _ _ E).
  destruct (IH (if ok then g else f) w1) as (b & w2 & E2 & P2 & Hb).
  - apply (passed_manned w); [done|]. destruct ok; [apply Hp; set_solver|done].
  - intros x Hx. apply (passed_manned w); [done|]. apply Hp. set_solver.
  - exists b, w2. split_and!; [done|by eapply passed_trans|]. destruct Hb as [->|Hb]; [destruct ok; set_solver|set_solver].
Qed.

Definition path_of (o : outcome) : list Z := match o with FbBack path _ _ => path | _ => [] end.
Definition pin_fits (o : outcome) : Prop := match o with FbBack _ _ p | CoWaits p | CoPasses p => 0 ≤ target p | _ => True end.
Definition run_fate (o : outcome) : fate := match o with FbBack _ s _ => fiber_fate s | _ => Ended end.

(** Settled: with no hand-over the fate is the task's own.  After hand-overs along [path] the
    task is still in the store, its group not told, and the fate is that of the task [b]
    whose fiber had the thread last. *)
Definition settled (self : caller) (fa : fate) (path : list Z) (t : Z) (T : Task) (R : TaskRecord) (w w' : store) : Prop :=
  match path with
  | [] => fated self fa t T R w w'
  | _ => ∃ wm T1 R1 b Tb Rb, along w wm t T R T1 R1 [] ∧ live wm b Tb Rb ∧
         (b = t ∨ ∃ g F, g ∈ path ∧ fibers w !! g = Some F ∧ fb_owner F = b) ∧ fated self fa b Tb Rb wm w'
  end.

Lemma along_passed w0 w w' t T R T1 R1 ds : along w0 w t T R T1 R1 ds → passed w w' → ∃ h, along w0 w' t T R T1 (rec_set_home h R1) ds.
Proof.
  intros [A1 Ar A2 A3 A4 A5 A6 A7] P. destruct (passed_live _ _ _ _ _ P A4) as [h L]. exists h. constructor; try done.
  - intros x. rewrite (pa_tasks _ _ P). apply A1.
  - intros r Hr. eapply kept_trans; [by apply Ar|apply (pa_records _ _ P)].
  - by rewrite (pa_pool _ _ P).
  - by rewrite (pa_log _ _ P).
Qed.

(** What was manned at the start still is, while the task is brought along. *)
Lemma along_manned w0 w t T R T1 R1 g :
  along w0 w t T R T1 R1 [] → pin_ok (ptask_of t T1 R1) (w_pool w) → fibers w !! g = fibers w0 !! g → manned w0 g → manned w g.
Proof.
  intros A Hpin Hf (F & Tg & Rg & HF & (H1 & H2 & H3 & H4) & Hp). pose proof (al_live _ _ _ _ _ _ _ _ A) as L. destruct (decide (fb_owner F = t)) as [E|Hn].
  { exists F, T1, R1. rewrite E, Hf. done. }
  destruct (decide (record Tg = record T)) as [E|Hr].
  - exists F, Tg, R1. split_and!; [by rewrite Hf| |done]. split_and!; [done|done|by rewrite (al_others _ _ _ _ _ _ _ _ A)|].
    rewrite E, <- (al_rec _ _ _ _ _ _ _ _ A). apply L.
  - pose proof (al_records _ _ _ _ _ _ _ _ A _ Hr) as K. rewrite H4 in K. destruct (records w !! record Tg) as [R'|] eqn:E; [|done]. cbn in K.
    exists F, Tg, R'. split_and!; [by rewrite Hf|split_and!; [done|done|by rewrite (al_others _ _ _ _ _ _ _ _ A)|done]|].
    rewrite (al_pool _ _ _ _ _ _ _ _ A), K. exact Hp.
Qed.

Lemma run_fiber_settles self f F w0 w t T R T1 R1 o :
  pool_ok (w_pool w) → caller_ok self (w_pool w) → pin_ok (ptask_of t T1 R1) (w_pool w) → pin_fits o →
  (∀ g, g ∈ path_of o → g = f ∨ (manned w0 g ∧ fibers w !! g = fibers w0 !! g)) →
  along w0 w t T R T1 R1 [] → fibers w !! f = Some F → fb_owner F = t → ∃ w', run_fiber self f t o w = Ok (tt, w') ∧ settled self (run_fate o) (path_of o) t T R w0 w'.
Proof.
  intros Hp Hs Hpin Ho Hpath A HF HO. unfold run_fiber. rewrite (bind_ok _ _ _ _ _ (set_fstatus_ok f F RUNNING w HF)).
  apply (along_fibers _ _ _ _ _ _ _ (<[f := mkFib RUNNING (fb_owner F) (fb_class F)]> (fibers w))) in A. set (w1 := with_fibers _ w) in *.
  assert (HF1 : fibers w1 !! f = Some (mkFib RUNNING (fb_owner F) (fb_class F))) by apply lookup_insert_eq.
  pose proof (al_live _ _ _ _ _ _ _ _ A) as L. destruct o as [| | | |path s p]; try (by apply (fiber_returned_settles self f _ w0 w1 t T R T1 R1 DEAD Hp Hs Hpin A HF1)).
  cbn [pin_fits path_of run_fate] in *. 
  assert (Mf : manned w1 f) by (exists (mkFib RUNNING (fb_owner F) (fb_class F)), T1, R1; cbn [fb_owner]; rewrite HO in *; split_and!; [exact HF1|exact L|exact Hpin]).
  destruct path as [|g0 r].
  { cbn [pass_on settled]. rewrite (bind_ok _ _ w1 f w1) by done. rewrite (bind_ok _ _ w1 (mkFib RUNNING (fb_owner F) (fb_class F)) w1) by by apply at_addr_ok.
    cbn [fb_owner]. rewrite HO. rewrite (proj2 (Z.eqb_neq t 0)) by apply L. by eapply back_settles. }
  destruct (pass_on_ok f (g0 :: r) w1 Mf) as (b & w2 & E & P & Hb).
  { intros g Hg. destruct (decide (g = f)) as [->|Hn]; [done|]. destruct (Hpath g Hg) as [?|[M Eg]]; [done|].
    eapply along_manned; [exact A|done| |exact M]. unfold w1. cbn. by rewrite lookup_insert_ne. }
  rewrite (bind_ok _ _ _ _ _ E). destruct (along_passed _ _ _ _ _ _ _ _ _ A P) as [h A2].
  assert (Mb : manned w2 b ∧ (b = f ∨ b ≠ f ∧ b ∈ g0 :: r ∧ manned w0 b ∧ fibers w !! b = fibers w0 !! b)).
  { destruct (decide (b = f)) as [->|Hn]; [split; [by eapply passed_manned|by left]|]. destruct Hb as [?|Hb]; [done|]. destruct (Hpath b Hb) as [?|[M Eg]]; [done|].
    split; [|right; done]. eapply passed_manned; [exact P|]. eapply along_manned; [exact A|done| |exact M]. unfold w1. cbn. by rewrite lookup_insert_ne. }
  destruct Mb as [(Fb & Tb & Rb & HFb & Lb & Hpb) Hbf]. rewrite (bind_ok _ _ w2 Fb w2) by by apply at_addr_ok.
  rewrite (proj2 (Z.eqb_neq (fb_owner Fb) 0)) by apply Lb.
  destruct (back_settles self b Fb w2 w2 (fb_owner Fb) Tb Rb Tb Rb s p) as (w3 & E3 & F3);
    [by rewrite (pa_pool _ _ P)|by rewrite (pa_pool _ _ P)|done|done|by apply along_start|done|].
  exists w3. split; [done|]. exists w2, T1, (rec_set_home h R1), (fb_owner Fb), Tb, Rb. split_and!; [done|done| |done].
  destruct Hbf as [->|(Hn & Hin & (F0 & _ & _ & HF0 & _) & Eb)].
  - left. destruct (pa_fibers _ _ P f _ HF1) as [s' Hs']. rewrite HFb in Hs'. injection Hs' as ->. cbn. done.
  - right. exists b, F0. split_and!; [done|done|]. destruct (pa_fibers _ _ P b F0) as [s' Hs'].
    + unfold w1. cbn. rewrite lookup_insert_ne by done. by rewrite Eb.
    + rewrite HFb in Hs'. by injection Hs' as ->.
Qed.

Definition spare_of (w : store) (c : StackClass) : list Z := default [] (spare w !! StackClass_code c).

(** The fiber the task runs on: its own, or the next spare one. *)
Definition attached (w : store) (T : Task) (R : TaskRecord) : Z :=
  if rec_fiber R =? 0 then default 0 (head (spare_of w (stackClass (flags T)))) else rec_fiber R.

Lemma attach_fiber_ok w0 w t T R T1 R1 :
  along w0 w t T R T1 R1 [] → (rec_fiber R1 ≠ 0 → ∃ F, fibers w !! rec_fiber R1 = Some F ∧ fb_owner F = t) → 0 ∉ spare_of w (stackClass (flags T1)) →
  ∃ f w', attach_fiber t w = Ok (f, w') ∧
  if (rec_fiber R1 =? 0) && bool_decide (spare_of w (stackClass (flags T1)) = []) then f = 0 ∧ w' = w
  else f ≠ 0 ∧ f = attached w T1 R1 ∧ (∀ g, g ∉ spare_of w (stackClass (flags T1)) → fibers w' !! g = fibers w !! g) ∧
       (∃ F, fibers w' !! f = Some F ∧ fb_owner F = t) ∧ along w0 w' t T R T1 (rec_set_fiber f R1) [].
Proof.
  intros A HF H0. pose proof (al_live _ _ _ _ _ _ _ _ A) as (Ht & Hr & HT & HR). unfold attach_fiber, attached.
  rewrite (bind_ok _ _ w T1 w) by by apply at_addr_ok. rewrite (bind_ok _ _ w R1 w) by by apply at_addr_ok.
  destruct (rec_fiber R1 =? 0) eqn:E; cbn [negb andb].
  2: { apply Z.eqb_neq in E. exists (rec_fiber R1), w. split_and!; [done|done|done|done|by apply HF|]. by destruct R1. }
  unfold AcquireFiber. unfold spare_of in *. destruct (default [] (spare w !! StackClass_code (stackClass (flags T1)))) as [|f l] eqn:Es.
  { exists 0, w. split; [|by rewrite bool_decide_true]. rewrite (bind_ok _ _ w 0 w); [done|]. unfold gets, mbind, M_bind. by rewrite Es. }
  rewrite bool_decide_false by done.
  set (w1 := with_fibers (<[f := mkFib READY 0 (stackClass (flags T1))]> (fibers w)) (with_spare (<[StackClass_code (stackClass (flags T1)) := l]> (spare w)) w)).
  rewrite (bind_ok _ _ w f w1) by (unfold gets, mbind at 1, M_bind at 1; by rewrite Es).
  assert (Hf : f ≠ 0) by set_solver. rewrite (proj2 (Z.eqb_neq f 0) Hf).
  assert (A1 : along w0 w1 t T R T1 R1 []) by by apply along_fibers, along_spare.
  rewrite (bind_ok _ _ _ _ _ (put_record_ok _ R1 (rec_set_fiber f R1) w1 HR)). apply (along_record _ _ _ _ _ _ _ (rec_set_fiber f R1)) in A1; [|done].
  set (w2 := with_records _ w1) in *. rewrite (bind_ok _ _ w2 (mkFib READY 0 (stackClass (flags T1))) w2) by (apply at_addr_ok; apply lookup_insert_eq).
  set (w3 := with_fibers (<[f := mkFib READY t (stackClass (flags T1))]> (fibers w2)) w2). rewrite (bind_ok _ _ w2 tt w3) by done.
  exists f. eexists. split; [rewrite (bind_ok _ _ w3 tt (with_log (w_log w3 ++ [EvRun (fn T1) (data T1)]) w3)) by done; reflexivity|].
  split_and!; [done|done| |eexists; split; [apply lookup_insert_eq|done]|].
  { intros g Hg. cbn. rewrite !lookup_insert_ne by set_solver. done. }
  apply along_emit; [by apply along_fibers|done|done].
Qed.

(** *** Coroutines *)

Lemma fated_rest self fa t T R w0 w w' l :
  fated self fa t T R w0 w → tasks w' = tasks w → records w' = records w → w_pool w' = w_pool w → w_log w' = w_log w ++ l → frees l = [] → dones l = [] →
  fated self fa t T R w0 w'.
Proof.
  intros (H1 & Hr & (evs & H2 & H3)) E1 E2 E3 E4 Ef Ed. split_and!; [intros x; rewrite E1; apply H1|intros r; rewrite E2; apply Hr|]. exists (evs ++ l).
  split; [by rewrite E4, H2, <- app_assoc|]. rewrite frees_app, dones_app, Ef, Ed, !app_nil_r, E1, E2, E3. unfold live in *. rewrite E1, E2. destruct fa; exact H3.
Qed.

Lemma final_suspend_settles self w0 w t T R T1 R1 h n :
  along w0 w t T R T1 R1 [] → frames w !! h = Some (mkPromise t n) →
  ∃ w', final_suspend h w = Ok (tt, w') ∧ fated self Ended t T R w0 w' ∧ frames w' !! h = None.
Proof.
  intros A Hh. pose proof (al_live _ _ _ _ _ _ _ _ A) as (Ht & _). unfold final_suspend, Complete.
  set (w1 := with_frames (<[h := mkPromise 0 n]> (frames w)) w). assert (A1 : along w0 w1 t T R T1 R1 []) by by apply along_frames.
  destruct (end_ok self _ _ _ _ _ _ _ A1) as (w2 & E2 & F2).
  assert (Ef : frames w2 = frames w1).
  { rewrite (bind_ok _ _ _ _ _ (settle_group_ok t T1 w1 (proj1 (proj2 (proj2 (al_live _ _ _ _ _ _ _ _ A1)))))) in E2.
    rewrite (FreeTask_ok t T1 R1) in E2 by apply (al_live _ _ _ _ _ _ _ _ A1). by injection E2 as <-. }
  set (w3 := if n =? 0 then w2 else with_log (w_log w2 ++ [EvSignal n]) (with_frames (<[h := mkPromise 0 0]> (frames w2)) w2)).
  assert (E : Complete h w = Ok (tt, w3)).
  { unfold Complete. rewrite (bind_ok _ _ w (mkPromise t n) w) by by apply at_addr_ok. cbn [pr_task pr_dagNode]. rewrite (proj2 (Z.eqb_neq t 0) Ht).
    rewrite (bind_ok _ _ _ _ _ (put_frame_ok h _ (mkPromise 0 n) w Hh)). fold w1.
    rewrite (bind_ok _ _ w1 tt _ (settle_group_ok t T1 w1 (proj1 (proj2 (proj2 (al_live _ _ _ _ _ _ _ _ A1)))))).
    rewrite (bind_ok _ _ w1 tt _ (settle_group_ok t T1 w1 (proj1 (proj2 (proj2 (al_live _ _ _ _ _ _ _ _ A1)))))) in E2.
    rewrite (bind_ok _ _ _ _ _ E2). unfold w3. destruct (n =? 0); [done|].
    by rewrite (bind_ok _ _ _ _ _ (put_frame_ok h (mkPromise 0 n) (mkPromise 0 0) w2 ltac:(rewrite Ef; apply lookup_insert_eq))). }
  fold (Complete h). rewrite (bind_ok _ _ _ _ _ E).
  assert (H3 : ∃ P, frames w3 !! h = Some P) by (unfold w3; destruct (n =? 0); [rewrite Ef|]; eexists; apply lookup_insert_eq). destruct H3 as [P HP].
  eexists. split; [unfold destroy_frame; by rewrite (bind_ok _ _ w3 P w3) by by apply at_addr_ok|]. split; [|apply lookup_delete_eq].
  apply (fated_rest _ _ _ _ _ _ w3 _ []); [|done|done|done|cbn; by rewrite app_nil_r|done|done].
  unfold w3. destruct (n =? 0); [done|]. by apply (fated_rest _ _ _ _ _ _ w2 _ [EvSignal n]).
Qed.

Definition coro_fate (o : outcome) : fate := match o with CoWaits _ => Waits | _ => Ended end.
Definition frame_after (o : outcome) (P : promise) : option promise := match o with CoWaits _ => Some P | _ => None end.

Lemma ArmResume_ok self h n p w0 w t T R T1 R1 :
  along w0 w t T R T1 R1 [] → frames w !! h = Some (mkPromise t n) →
  ∃ w', ArmResume self h p w = Ok (t, w') ∧ along w0 w' t T R (task_data h T1) (stamped self p w R1) [] ∧ frames w' = frames w.
Proof.
  intros A Hh. pose proof (al_live _ _ _ _ _ _ _ _ A) as L. unfold ArmResume. rewrite (bind_ok _ _ w (mkPromise t n) w) by by apply at_addr_ok. cbn [pr_task].
  rewrite (bind_ok _ _ _ _ _ (stamp_ok self p t T1 R1 w L)). pose proof (along_record _ _ _ _ _ _ _ (stamped self p w R1) _ A eq_refl) as A1.
  set (w1 := with_records _ w) in *. pose proof (al_live _ _ _ _ _ _ _ _ A1) as (_ & _ & HT & _).
  rewrite (bind_ok _ _ w1 T1 w1) by by apply at_addr_ok. rewrite (bind_ok _ _ _ _ _ (put_task_ok t T1 (task_data h T1) w1 HT)).
  eexists. split; [done|]. split; [by apply along_task with (T1 := T1)|done].
Qed.

Lemma execute_coro_settles self o n w0 w t T R T1 R1 :
  along w0 w t T R T1 R1 [] → type (flags T1) = Coroutine → frames w !! data T1 = Some (mkPromise t n) →
  ∃ w', execute self t o w = Ok (tt, w') ∧ fated self (coro_fate o) t T R w0 w' ∧ frames w' !! data T1 = frame_after o (mkPromise t n).
Proof.
  intros A Hty Hh. pose proof (al_live _ _ _ _ _ _ _ _ A) as (_ & _ & HT & _). unfold execute. rewrite (bind_ok _ _ w T1 w) by by apply at_addr_ok. rewrite Hty.
  unfold ResumeCoroutine. rewrite (bind_ok _ _ w (mkPromise t n) w) by by apply at_addr_ok.
  set (w1 := with_log (w_log w ++ [EvResume (data T1)]) w). rewrite (bind_ok _ _ w tt w1) by done.
  assert (A1 : along w0 w1 t T R T1 R1 []) by by apply along_emit.
  destruct o as [| |p|p|other s p]; cbn [coro_fate frame_after]; try (by apply (final_suspend_settles self w0 w1 t T R T1 R1 (data T1) n A1)).
  - destruct (ArmResume_ok self (data T1) n p w0 w1 t T R T1 R1 A1 Hh) as (w2 & E2 & A2 & F2). exists w2. rewrite (bind_ok _ _ _ _ _ E2).
    split_and!; [done|by eapply along_waits|by rewrite F2].
  - destruct (ArmResume_ok self (data T1) n p w0 w1 t T R T1 R1 A1 Hh) as (w2 & E2 & A2 & F2). rewrite (bind_ok _ _ _ _ _ E2).
    eapply final_suspend_settles; [done|by rewrite F2].
Qed.

(** ** The dispatchers settle the task *)

(** The task [t] is in a thread's hands and [o] is something its body can do. *)
Record ready (self : caller) (w : store) (t : Z) (T : Task) (R : TaskRecord) (o : outcome) : Prop := {
  rd_pool : pool_ok (w_pool w);
  rd_caller : caller_ok self (w_pool w);
  rd_live : live w t T R;
  rd_pin : pin_ok (ptask_of t T R) (w_pool w);
  rd_out : pin_fits o;
  rd_frame : type (flags T) = Coroutine → ∃ n, frames w !! data T = Some (mkPromise t n);
  rd_fiber : rec_fiber R ≠ 0 → ∃ F, fibers w !! rec_fiber R = Some F ∧ fb_owner F = t;
  rd_spare : 0 ∉ spare_of w (stackClass (flags T));
  rd_path g : g ∈ path_of o → g = attached w T R ∨ (manned w g ∧ g ∉ spare_of w (stackClass (flags T))) }.

(** There is no fiber for the task. *)
Definition no_fiber (w : store) (T : Task) (R : TaskRecord) : bool := (rec_fiber R =? 0) && bool_decide (spare_of w (stackClass (flags T)) = []).

(** What becomes of a task that is run, when [none] is what becomes of one without a fiber;
    and the fibers its run hands the thread to. *)
Definition body_fate (none : fate) (w : store) (T : Task) (R : TaskRecord) (o : outcome) : fate :=
  match type (flags T) with
  | Coroutine => coro_fate o
  | Native => Ended
  | Fiber => if no_fiber w T R then none else run_fate o
  end.
Definition body_path (w : store) (T : Task) (R : TaskRecord) (o : outcome) : list Z :=
  match type (flags T) with Fiber => if no_fiber w T R then [] else path_of o | _ => [] end.

Lemma main_given self t p : caller_ok self p → isMain self = true → pool_ok p → placed_on (Hi 0) self t p (PushMainQueue t p).
Proof.
  intros Hs Hm Hok. destruct self as [[q m]|]; [|done]. cbn in Hm. subst m. destruct Hs as [Hq [-> Hin]]; [done|].
  unfold PushMainQueue. rewrite Hin. unfold PushTo. pose proof (po_n _ Hok). rewrite (proj2 (Z.leb_gt (pl_n p) 0)) by lia.
  split; [done|]. intros w [[= <-]|[=]]. right. by exists true.
Qed.

Lemma native_settles self o w0 w t T R T1 R1 :
  along w0 w t T R T1 R1 [] → type (flags T1) ≠ Coroutine → ∃ w', run_native self t o w = Ok (tt, w') ∧ fated self Ended t T R w0 w'.
Proof.
  intros A Hty. pose proof (al_live _ _ _ _ _ _ _ _ A) as (_ & _ & HT & _). unfold run_native.
  set (w1 := with_log (w_log w ++ [EvRun (fn T1) (data T1)]) w). rewrite (bind_ok _ _ w tt w1).
  - eapply end_ok. by apply along_emit.
  - unfold execute. rewrite (bind_ok _ _ w T1 w) by by apply at_addr_ok. by destruct (type (flags T1)).
Qed.

Lemma discard_settles self t T R w : live w t T R → fated self Ended t T R w (without (with_log (w_log w ++ [EvDiscarded t]) w) t T ((EvDone <$> group_of T) ++ death t T R)).
Proof.
  intros L. pose proof (along_emit _ _ _ _ _ _ _ (EvDiscarded t) _ (along_start w t T R L) eq_refl eq_refl) as A.
  apply along_done, (along_freed self) in A. unfold without in *. destruct w. cbn in *. by rewrite app_assoc.
Qed.

(** The fiber branch, from a task that may or may not have its fiber yet: [k] is what is done
    with the fiber, [g] where the task goes when there is none. *)
Lemma fiber_settles self o g none k w0 w t T R T1 R1 :
  (∀ f F w1, f ≠ 0 → (∀ x, x ∈ path_of o → x = f ∨ (manned w0 x ∧ fibers w1 !! x = fibers w0 !! x)) → fibers w1 !! f = Some F → fb_owner F = t →
     w_pool w1 = w_pool w → along w0 w1 t T R T1 (rec_set_fiber f R1) [] →
     ∃ w', k f w1 = Ok (tt, w') ∧ settled self (run_fate o) (path_of o) t T R w0 w') →
  (∃ w', place_task t g w = Ok (tt, w') ∧ fated self none t T R w0 w') → fibers w = fibers w0 →
  (∀ x, x ∈ path_of o → x = attached w T1 R1 ∨ (manned w0 x ∧ x ∉ spare_of w (stackClass (flags T1)))) →
  (rec_fiber R1 ≠ 0 → ∃ F, fibers w !! rec_fiber R1 = Some F ∧ fb_owner F = t) → 0 ∉ spare_of w (stackClass (flags T1)) → along w0 w t T R T1 R1 [] →
  ∃ w', (f ← attach_fiber t; if f =? 0 then place_task t g else k f) w = Ok (tt, w') ∧
  settled self (if no_fiber w T1 R1 then none else run_fate o) (if no_fiber w T1 R1 then [] else path_of o) t T R w0 w'.
Proof.
  intros Hk Hg Efib Hpath HF H0 A. destruct (attach_fiber_ok w0 w t T R T1 R1 A HF H0) as (f & w1 & E & H). rewrite (bind_ok _ _ _ _ _ E).
  unfold no_fiber. destruct ((rec_fiber R1 =? 0) && _).
  - destruct H as [-> ->]. exact Hg.
  - destruct H as (Hf & Ef & Hsame & (F & HF1 & HO) & A1). rewrite (proj2 (Z.eqb_neq f 0) Hf). eapply Hk; [done| |done|done| |done].
    + intros x Hx. destruct (Hpath x Hx) as [->|[M Hn]]; [by left|right]. split; [done|]. rewrite Hsame by done. by rewrite Efib.
    + by rewrite (al_pool _ _ _ _ _ _ _ _ A1), (al_pool _ _ _ _ _ _ _ _ A).
Qed.

(** C7: A worker settles every task it takes, exactly once.  Whatever the task's body does,
    dispatching it touches nothing that has been freed and does exactly one of three things:
    the task ends (its wait group, if it has one, is told exactly once; the task, its locals
    and its record are each freed exactly once, and no queue is touched), or it is queued on
    exactly one queue, the one the placement rules name for a task spread, yielded or resumed
    (main's own inbox when main has no fiber for it), or it waits, kept in the store with its
    record; in the last two cases no group is told and nothing freed.  It ends when it was
    cancelled before it started or its body finished; a coroutine's frame is then gone, and is
    kept when the coroutine waits.  If the body hands its thread to other fibers with
    [Fiber::SwitchTo], in any chain of fibers whose tasks are live, the task stays in the
    store with its group not told, and it is the task whose fiber had the thread last that
    is settled, by that fiber's status, in the same way. *)
Theorem dispatch_settles self me io o t T R w :
  ready self w t T R o →
  ∃ w', dispatch self me io o t w = Ok (tt, w') ∧
  settled self (if discards w T then Ended else if io then Queued Spread else body_fate (if isMain self then GivenBack else Queued Spread) w T R o)
    (if discards w T || io then [] else body_path w T R o) t T R w w' ∧
  (∀ P, discards w T = false → io = false → type (flags T) = Coroutine → frames w !! data T = Some P → frames w' !! data T = frame_after o P).
Proof.
  intros [Hp Hs L Hpin Ho Hfr Hfi Hsp Hpath]. unfold dispatch. pose proof (discard_ok t T R w L) as Ed. destruct (discards w T).
  { rewrite (bind_ok _ _ _ _ _ Ed). eexists. split; [done|]. split; [by apply discard_settles|done]. }
  rewrite (bind_ok _ _ _ _ _ Ed). pose proof (along_start w t T R L) as A. destruct io.
  { destruct (queued_by Spread self (λ pt p, (Requeue self pt p).2) w w t T R T R A) as (w' & E & F); [apply placed_requeue; by try intros _ ? []|]. by exists w'. }
  rewrite (bind_ok _ _ _ _ _ (mark_started_ok t T R w L)). apply (along_task _ _ _ _ _ _ _ (task_started T)) in A; [|done|done]. set (w1 := with_tasks _ w) in *.
  rewrite (bind_ok _ _ _ _ _ (set_home_ok me t _ _ w1 (al_live _ _ _ _ _ _ _ _ A))). apply (along_record _ _ _ _ _ _ _ (rec_set_home me R)) in A; [|done].
  set (w2 := with_records _ w1) in *. rewrite (bind_ok _ _ _ _ _ (task_type_ok t _ _ w2 (al_live _ _ _ _ _ _ _ _ A))). unfold body_fate, body_path. cbn [flags task_started orb].
  destruct (type (flags T)) eqn:Ety.
  - destruct (fiber_settles self o (λ pt p, if isMain self then PushMainQueue pt p else (Requeue self pt p).2) (if isMain self then GivenBack else Queued Spread)
      (λ f, run_fiber self f t o) w w2 t T R (task_started T) (rec_set_home me R)) as (w' & E & F); [| |done|exact Hpath|by apply Hfi|done|exact A|by exists w'; split_and!].
    + intros f F w3 Hf Hx HF HO Hw A3. apply (run_fiber_settles self f F w w3 t T R (task_started T) (rec_set_fiber f (rec_set_home me R)) o); rewrite ?Hw; done.
    + destruct (isMain self) eqn:Em; [eapply given_by; [exact A|by apply main_given]|eapply queued_by; [exact A|apply placed_requeue; by try intros _ ? []]].
  - destruct (Hfr eq_refl) as [n Hn]. destruct (execute_coro_settles self o n w w2 t T R _ _ A Ety Hn) as (w' & E & F & Ff).
    exists w'. split_and!; [done|done|]. intros P _ _ _ HP. rewrite Hn in HP. injection HP as <-. exact Ff.
  - destruct (native_settles self o w w2 t T R _ _ A) as (w' & E & F); [cbn; by rewrite Ety|]. by exists w'; split_and!.
Qed.

(** Main's helper settles it in the same way. *)
Lemma helped_settles self me o t T R w :
  ready self w t T R o →
  ∃ w', RunHelped self me o t w = Ok (tt, w') ∧
  settled self (if discards w T then Ended else body_fate (Queued Spread) w T R o) (if discards w T then [] else body_path w T R o) t T R w w'.
Proof.
  intros [Hp Hs L Hpin Ho Hfr Hfi Hsp Hpath]. unfold RunHelped. pose proof (discard_ok t T R w L) as Ed. destruct (discards w T).
  { rewrite (bind_ok _ _ _ _ _ Ed). eexists. split; [done|]. by apply discard_settles. }
  rewrite (bind_ok _ _ _ _ _ Ed). pose proof (along_start w t T R L) as A.
  rewrite (bind_ok _ _ _ _ _ (set_home_ok me t _ _ w L)). apply (along_record _ _ _ _ _ _ _ (rec_set_home me R)) in A; [|done].
  set (w2 := with_records _ w) in *. rewrite (bind_ok _ _ _ _ _ (task_type_ok t _ _ w2 (al_live _ _ _ _ _ _ _ _ A))). unfold body_fate, body_path.
  destruct (type (flags T)) eqn:Ety.
  - apply (fiber_settles self o (λ pt p, (Requeue self pt p).2) (Queued Spread) (λ f, _ ← mark_started t; run_fiber self f t o) w w2 t T R T (rec_set_home me R));
      [|eapply queued_by; [exact A|apply placed_requeue; by try intros _ ? []]|done|exact Hpath|by apply Hfi|done|exact A].
    intros f F w3 Hf Hx HF HO Hw A3. rewrite (bind_ok _ _ _ _ _ (mark_started_ok t _ _ w3 (al_live _ _ _ _ _ _ _ _ A3))).
    apply (along_task _ _ _ _ _ _ _ (task_started T)) in A3; [|done|done].
    eapply (run_fiber_settles self f F w _ t T R (task_started T) (rec_set_fiber f (rec_set_home me R)) o); [| | | | |exact A3|done|done]; cbn; rewrite ?Hw; done.
  - rewrite (bind_ok _ _ _ _ _ (mark_started_ok t _ _ w2 (al_live _ _ _ _ _ _ _ _ A))). apply (along_task _ _ _ _ _ _ _ (task_started T)) in A; [|done|done].
    destruct (Hfr eq_refl) as [n Hn]. destruct (execute_coro_settles self o n w _ t T R _ _ A Ety Hn) as (w' & E & F & _). by exists w'.
  - rewrite (bind_ok _ _ _ _ _ (mark_started_ok t _ _ w2 (al_live _ _ _ _ _ _ _ _ A))). apply (along_task _ _ _ _ _ _ _ (task_started T)) in A; [|done|done].
    apply (native_settles self o w _ t T R _ _ A). cbn. by rewrite Ety.
Qed.

(** Main out of the pool settles what it runs, fresh or resumed on its helper, as long as it
    is not a coroutine. *)
Theorem main_settles self me helper o t T R w :
  ready self w t T R o → type (flags T) ≠ Coroutine →
  let resumes := negb (started T =? 0) && negb (rec_fiber R =? 0) && helper in
  ∃ w', RunMainTask self me helper o t w = Ok (tt, w') ∧
  settled self (if resumes then body_fate (Queued Spread) w T R o else Ended) (if resumes then body_path w T R o else []) t T R w w'.
Proof.
  intros H Hty. pose proof H as [Hp Hs L Hpin Ho Hfr Hfi Hsp Hpath]. pose proof L as (_ & _ & HT & HR). unfold RunMainTask.
  rewrite (bind_ok _ _ w T w) by by apply at_addr_ok. rewrite (bind_ok _ _ w R w) by by apply at_addr_ok.
  destruct (negb (started T =? 0) && _ && helper) eqn:E.
  - destruct (helped_settles self me o t T R w H) as (w' & E' & F). exists w'. split; [done|]. unfold discards in F. by destruct (started T =? 0).
  - rewrite (bind_ok _ _ _ _ _ (set_home_ok me t _ _ w L)). apply (native_settles self o w _ t T R T (rec_set_home me R)); [|exact Hty].
    exact (along_record _ _ _ _ _ _ _ (rec_set_home me R) _ (along_start w t T R L) eq_refl).
Qed.

(** C40: A coroutine main runs: [RunMainTask] goes on with the task after the call, which the
    frame owned.  If the coroutine finished, the task is already free when its group is read;
    if it waits, the task is freed under the frame that still names it. *)
Theorem main_coroutine_unsafe self me helper o t T R w n :
  ready self w t T R o → type (flags T) = Coroutine → rec_fiber R = 0 → frames w !! data T = Some (mkPromise t n) →
  match o with
  | CoWaits _ => ∃ w', RunMainTask self me helper o t w = Ok (tt, w') ∧ tasks w' !! t = None ∧ frames w' !! data T = Some (mkPromise t n)
  | _ => RunMainTask self me helper o t w = Err (UseAfterFree t)
  end.
Proof.
  intros [Hp Hs L Hpin Ho Hfr Hfi Hsp Hpath] Hty Hf Hn. pose proof L as (_ & _ & HT & HR). unfold RunMainTask.
  rewrite (bind_ok _ _ w T w) by by apply at_addr_ok. rewrite (bind_ok _ _ w R w) by by apply at_addr_ok.
  rewrite Hf, andb_false_r. cbn [andb negb Z.eqb].
  rewrite (bind_ok _ _ _ _ _ (set_home_ok me t _ _ w L)). pose proof (along_record _ _ _ _ _ _ _ (rec_set_home me R) _ (along_start w t T R L) eq_refl) as A.
  destruct (execute_coro_settles self o n w _ t T R _ _ A Hty Hn) as (w1 & E1 & F1 & Fr1). rewrite (bind_ok _ _ _ _ _ E1).
  assert (Hend : coro_fate o = Ended → (_ ← settle_group t; FreeTask t) w1 = Err (UseAfterFree t)).
  { intros Hc. rewrite Hc in F1. destruct F1 as (_ & _ & evs & _ & Hd & _). unfold settle_group, get_task, at_addr, mbind, M_bind. by rewrite Hd. }
  destruct o as [| |p|p|other s p]; try (by apply Hend).
  destruct F1 as (_ & _ & evs & _ & _ & _ & _ & T1 & R1 & L1 & _).
  destruct (end_ok self w1 w1 t T1 R1 T1 R1 (along_start _ _ _ _ L1)) as (w2 & E2 & (_ & _ & l & _ & Hd & _)). exists w2. split_and!; [done|done|].
  rewrite (bind_ok _ _ _ _ _ (settle_group_ok t T1 w1 (proj1 (proj2 (proj2 L1))))) in E2. rewrite (FreeTask_ok t T1 R1) in E2 by done.
  injection E2 as <-. exact Fr1.
Qed.

(** A coroutine cancelled before it starts: its task is freed, its frame is left, naming the
    freed task, and nothing names the frame. *)
Theorem discard_leaks_frame self me io o t T R w n :
  ready self w t T R o → discards w T = true → frames w !! data T = Some (mkPromise t n) →
  ∃ w', dispatch self me io o t w = Ok (tt, w') ∧ tasks w' !! t = None ∧ frames w' !! data T = Some (mkPromise t n).
Proof.
  intros [_ _ L _ _ _ _ _ _] Hd Hn. unfold dispatch. pose proof (discard_ok t T R w L) as Ed. rewrite Hd in Ed. rewrite (bind_ok _ _ _ _ _ Ed).
  eexists. split; [done|]. split; [apply lookup_delete_eq|done].
Qed.

(** A fiber task for which there is no fiber is queued again without having run, but marked
    as started: a cancellation that comes after no longer discards it. *)
Theorem nofiber_marks_started self me o t T R w :
  ready self w t T R o → type (flags T) = Fiber → discards w T = false → rec_fiber R = 0 → spare_of w (stackClass (flags T)) = [] →
  ∃ w' T', dispatch self me false o t w = Ok (tt, w') ∧ w_log w' = w_log w ∧ tasks w' !! t = Some T' ∧ ∀ w'', discards w'' T' = false.
Proof.
  intros [Hp Hs L Hpin Ho Hfr Hfi Hsp Hpath] Hty Hd Hf Hnone. unfold dispatch. pose proof (discard_ok t T R w L) as Ed. rewrite Hd in Ed. rewrite (bind_ok _ _ _ _ _ Ed).
  pose proof (along_start w t T R L) as A.
  rewrite (bind_ok _ _ _ _ _ (mark_started_ok t T R w L)). apply (along_task _ _ _ _ _ _ _ (task_started T)) in A; [|done|done]. set (w1 := with_tasks _ w) in *.
  rewrite (bind_ok _ _ _ _ _ (set_home_ok me t _ _ w1 (al_live _ _ _ _ _ _ _ _ A))). apply (along_record _ _ _ _ _ _ _ (rec_set_home me R)) in A; [|done].
  set (w2 := with_records _ w1) in *. rewrite (bind_ok _ _ _ _ _ (task_type_ok t _ _ w2 (al_live _ _ _ _ _ _ _ _ A))). cbn [flags task_started]. rewrite Hty.
  destruct (attach_fiber_ok w w2 t T R _ _ A) as (f & w3 & E & H); [intros H; by destruct H|done|].
  change (spare_of w2 (stackClass (flags (task_started T)))) with (spare_of w (stackClass (flags T))) in H. cbn [rec_fiber rec_set_home] in H.
  rewrite Hf, Hnone in H. destruct H as [-> ->]. rewrite (bind_ok _ _ _ _ _ E). cbn [Z.eqb].
  eexists _, (task_started T). split; [by apply (place_task_ok _ t _ _ w2 (al_live _ _ _ _ _ _ _ _ A))|]. split_and!; [done|apply lookup_insert_eq|done].
Qed.

(** ** Spawning a coroutine *)

(** [Spawn] of a coroutine with room for its task: the task and the frame name each other,
    the group counts one more, and the task is queued once. *)
Theorem spawn_queues self h g ln token resume t r w P :
  pool_ok (w_pool w) → caller_ok self (w_pool w) → h ≠ 0 → t ≠ 0 → r ≠ 0 → frames w !! h = Some P →
  ∃ w' T R, Spawn self h g 0 ln token resume (Some t) r w = Ok (true, w') ∧ live w' t T R ∧ type (flags T) = Coroutine ∧ data T = h ∧ waitGroup T = g ∧
  frames w' !! h = Some (mkPromise t (pr_dagNode P)) ∧ w_log w' = w_log w ++ (EvAdd <$> group_of T) ∧ placed Fresh self (ptask_of t T R) (w_pool w) (w_pool w').
Proof.
  intros Hp Hs Hh Ht Hr HP. unfold Spawn. rewrite (proj2 (Z.eqb_neq h 0) Hh). cbn [CreateTaskImpl].
  set (T0 := mkTask resume h r 0 0 (mkFlags ln Coroutine false true Standard) 0 0 0xFFFFFFFF).
  set (w1 := with_tasks (<[t := T0]> (tasks w)) (with_records (<[r := new_TaskRecord]> (records w)) w)).
  rewrite (bind_ok _ _ w t w1) by done. rewrite (proj2 (Z.eqb_neq t 0) Ht). rewrite (bind_ok _ _ w1 P w1) by by apply at_addr_ok.
  rewrite (bind_ok _ _ _ _ _ (put_frame_ok h P (mkPromise t (pr_dagNode P)) w1 HP)). set (w2 := with_frames _ w1).
  assert (HT0 : tasks w2 !! t = Some T0) by apply lookup_insert_eq. rewrite (bind_ok _ _ w2 T0 w2) by by apply at_addr_ok.
  rewrite (bind_ok _ _ _ _ _ (put_task_ok t T0 _ w2 HT0)). set (T1 := mkTask _ _ _ _ _ _ _ _ token). set (w3 := with_tasks _ w2).
  set (T2 := mkTask resume h r 0 g (flags T0) 0 0 token).
  assert (E3 : when (negb (g =? 0)) (_ ← emit (EvAdd g); T ← get_task t;
             put_task t (mkTask (fn T) (data T) (record T) (next T) g (flags T) (started T) (cancelledDirect T) (cancelToken T))) w3 =
           Ok (tt, with_log (w_log w ++ (EvAdd <$> group_of T2)) (with_tasks (<[t := T2]> (tasks w2)) w3))).
  { unfold group_of. cbn [waitGroup T2]. destruct (g =? 0) eqn:Eg; cbn [negb when].
    - apply Z.eqb_eq in Eg. subst g. unfold mret, M_ret, with_log, w3, w2, w1. cbn [with_tasks with_frames with_records tasks records fibers frames spare w_pool w_cancel w_pinned w_log fmap list_fmap].
      by rewrite app_nil_r.
    - set (w4 := with_log (w_log w3 ++ [EvAdd g]) w3). rewrite (bind_ok _ _ w3 tt w4) by done.
      assert (HT4 : tasks w4 !! t = Some T1) by apply lookup_insert_eq. rewrite (bind_ok _ _ w4 T1 w4) by by apply at_addr_ok.
      etransitivity; [exact (put_task_ok t T1 T2 w4 HT4)|]. unfold w4, w3. cbn [with_log tasks with_tasks w_log fmap list_fmap]. by rewrite insert_insert_eq. }
  rewrite (bind_ok _ _ _ _ _ E3). set (w4 := with_log _ _). rewrite (bind_ok _ _ w4 tt w4) by done.
  assert (L : live w4 t T2 new_TaskRecord) by (split_and!; [done|done|apply lookup_insert_eq|apply lookup_insert_eq]).
  rewrite (bind_ok _ _ w4 T2 w4) by apply at_addr_ok, L. rewrite (bind_ok _ _ w4 new_TaskRecord w4) by apply at_addr_ok, L.
  rewrite (bind_ok _ _ w4 (w_pool w) w4) by done. pose proof (push_accepts self (ptask_of t T2 new_TaskRecord) (w_pool w)) as Hacc.
  pose proof (placed_push self (ptask_of t T2 new_TaskRecord) (w_pool w) Hp Hs eq_refl) as Hpl.
  destruct (Push self (ptask_of t T2 new_TaskRecord) (w_pool w)) as [ok p']. cbn in Hacc. subst ok.
  exists (with_pool p' w4), T2, new_TaskRecord. split_and!; try done; try apply L. apply lookup_insert_eq.
Qed.

(** With no room for the task the frame is destroyed and the group is left as it was: a
    caller that waits on the group goes on at once. *)
Theorem spawn_refused self h g n ln token resume r w P :
  h ≠ 0 → frames w !! h = Some P → Spawn self h g n ln token resume None r w = Ok (false, with_frames (delete h (frames w)) w).
Proof.
  intros Hh HP. unfold Spawn. rewrite (proj2 (Z.eqb_neq h 0) Hh). rewrite (bind_ok _ _ w 0 w) by done. cbn [Z.eqb]. unfold destroy_frame.
  unfold mbind at 1, M_bind at 1. by rewrite (bind_ok _ _ w P w) by by apply at_addr_ok.
Qed.

(** ** A coroutine that asks to go on on main, with main out of the pool *)

(** Frame 500 with nothing else; the coroutine is spawned into group 900, run by worker 1,
    suspends with [Pin::Main], is woken and queued for main, and finishes there. *)
Definition coro_store : store := mkStore ∅ ∅ ∅ {[500 := mkPromise 0 0]} ∅ (idle_pool 4 []) cancel_init false [].
Definition woken_for_main : M bool :=
  _ ← Spawn None 500 900 0 Normal kNoToken 7 (Some 1000) 2000;
  _ ← dispatch (Some (1, false)) 1 false (CoWaits Pin_Main) 1000;
  T ← get_task 1000; R ← get_record (record T);
  _ ← place (λ p, (WakeTask None (ptask_of 1000 T R) p).2);
  RunOneMainTask None 99 true CoFinishes.

(** [Pin::Main] is there for a task to go on on the main thread, but a coroutine that uses it
    is freed twice when main is out of the pool. *)
Theorem pin_main_coroutine_faults : woken_for_main coro_store = Err (UseAfterFree 1000).
Proof. vm_compute. reflexivity. Qed.

(** ** A fiber handed the thread while its task is queued *)

(** Fiber tasks 1000 and 1001 on fibers 20 and 21; 1001 has been resumed and is on worker 1's
    deque, READY.  Worker 2 runs 1000, whose body switches to fiber 21, which finishes; then
    worker 1 takes 1001 off its deque. *)
Definition fiber_task (r : Z) : Task := mkTask 7 0 r 0 0 (mkFlags Normal Fiber false true Standard) 1 0 kNoToken.
Definition handover_store : store :=
  mkStore {[1000 := fiber_task 2000; 1001 := fiber_task 2001]}
    {[2000 := rec_set_fiber 20 new_TaskRecord; 2001 := rec_set_fiber 21 new_TaskRecord]}
    {[20 := mkFib READY 1000 Standard; 21 := mkFib READY 1001 Standard]} ∅ ∅
    (enq (Dq 1) 1001 (idle_pool 4 [])) cancel_init false [].
Definition switch_then_finish : M unit := dispatch (Some (2, false)) 2 false (FbBack [21] DEAD Pin_None) 1000.

(** The hand-over settles task 1001 and leaves 1000 in the store, its fiber
    TRANSFERRED; but nothing took 1001 off the deque, where a READY fiber's task always is,
    and the worker that takes it finds it freed. *)
Theorem switch_to_queued_faults :
  (∃ w', switch_then_finish handover_store = Ok (tt, w') ∧ tasks w' !! 1001 = None ∧ is_Some (tasks w' !! 1000) ∧ queue (w_pool w') (Dq 1) = [1001] ∧
     (fb_status <$> fibers w' !! 20) = Some TRANSFERRED) ∧
  (_ ← switch_then_finish; dispatch (Some (1, false)) 1 false Returns 1001) handover_store = Err (UseAfterFree 1001).
Proof. split; [|by vm_compute]. eexists. split; [by vm_compute|]. split_and!; vm_compute; eauto. Qed.

Lemma handover_ready : ready (Some (2, false)) handover_store 1000 (fiber_task 2000) (rec_set_fiber 20 new_TaskRecord) (FbBack [21] DEAD Pin_None).
Proof.
  constructor; try done.
  - constructor; cbn; try done; try lia. set_solver.
  - by left.
  - intros _. by exists (mkFib READY 1000 Standard).
  - cbn. set_solver.
  - intros g Hg%list_elem_of_singleton. subst g. right. split; [|cbn; set_solver].
    exists (mkFib READY 1001 Standard), (fiber_task 2001), (rec_set_fiber 21 new_TaskRecord). split_and!; [done|done|by left].
Qed.

(** The coroutine just spawned. *)
Definition spawned : store := match Spawn None 500 900 0 Normal kNoToken 7 (Some 1000) 2000 coro_store with Ok (_, w) => w | Err _ => coro_store end.
Definition spawned_task : Task := mkTask 7 500 2000 0 900 (mkFlags Normal Coroutine false true Standard) 0 0 kNoToken.

Lemma spawned_ready self o : caller_ok self (w_pool spawned) → pin_fits o → path_of o = [] → ready self spawned 1000 spawned_task new_TaskRecord o.
Proof.
  intros Hs Ho Hn. constructor; try done.
  - constructor; cbn; try done; try lia. set_solver.
  - left. done.
  - exists 0. reflexivity.
  - cbn. set_solver.
  - rewrite Hn. by intros g ?%elem_of_nil.
Qed.

Lemma dispatch_settles_witness :
  (∃ w', dispatch (Some (1, false)) 1 false CoFinishes 1000 spawned = Ok (tt, w') ∧ tasks w' !! 1000 = None ∧ frames w' !! 500 = None ∧
     dones (w_log w') = [900] ∧ frees (w_log w') = [1000; 2000]) ∧
  ∃ w', switch_then_finish handover_store = Ok (tt, w') ∧
    settled (Some (2, false)) Ended [21] 1000 (fiber_task 2000) (rec_set_fiber 20 new_TaskRecord) handover_store w'.
Proof.
  split.
  - destruct (dispatch_settles (Some (1, false)) 1 false CoFinishes 1000 spawned_task new_TaskRecord spawned) as (w' & E & F & G); [by apply spawned_ready|].
    exists w'. split; [exact E|]. cbn in F. destruct F as (_ & _ & evs & Hl & Hd & _ & _ & Hf & Hdn). split; [exact Hd|].
    split; [by apply (G (mkPromise 1000 0))|]. rewrite Hl, dones_app, frees_app, Hf, Hdn. split; reflexivity.
  - destruct (dispatch_settles _ 2 false _ _ _ _ _ handover_ready) as (w' & E & F & _). exists w'. split; [exact E|exact F].
Defined.

Lemma main_coroutine_unsafe_witness :
  type (flags spawned_task) = Coroutine ∧ RunMainTask None 99 true CoFinishes 1000 spawned = Err (UseAfterFree 1000).
Proof.
  split; [reflexivity|].
  apply (main_coroutine_unsafe None 99 true CoFinishes 1000 spawned_task new_TaskRecord spawned 0); [by apply spawned_ready|reflexivity|reflexivity|reflexivity].
Defined.
