(* ===== verification/Topology.v ===== *)
(** * The machine's layout (include/Topology.h, src/posix/Topology.cpp)

    CPU masks of four 64-bit words, the parser of the kernel's CPU lists and the query that
    reads the layout.  The files under /sys are an argument: a function from a path to the
    bytes of the file.  A string is the list of its bytes. *)

From Stdlib Require Import Sorted.
From S2P Require Import Prelude.

(** ** CPU masks *)

Definition kWords : Z := 4.
Definition kMaxCpus : Z := kWords * 64.

(** The four words of a mask, lowest first. *)
Abbreviation CpuMask := (list Z).
Definition no_cpus : CpuMask := [0; 0; 0; 0].

Definition word_of (c : Z) : nat := Z.to_nat (Z.shiftr c 6).
Definition Set_cpu (c : Z) (m : CpuMask) : CpuMask :=
  if c <? kMaxCpus then alter (λ w, Z.lor w (Z.shiftl 1 (Z.land c 63))) (word_of c) m else m.
Definition Test (m : CpuMask) (c : Z) : bool :=
  (c <? kMaxCpus) && negb (Z.land (Z.shiftr (default 0 (m !! word_of c)) (Z.land c 63)) 1 =? 0).
Definition Any (m : CpuMask) : bool := existsb (λ w, negb (w =? 0)) m.

(** [for (x = w; x; x &= x - 1) ++n]: at most 64 passes. *)
Fixpoint count_word (fuel : nat) (x : Z) : Z :=
  match fuel with O => 0 | S f => if x =? 0 then 0 else 1 + count_word f (Z.land x (x - 1)) end.
Definition Count (m : CpuMask) : Z := foldr (λ w n, count_word 64 w + n) 0 m.

(** A mask holds four 64-bit words. *)
Definition mask_ok (m : CpuMask) : Prop := length m = 4%nat ∧ Forall (λ w, 0 ≤ w < 2 ^ 64) m.

(** ** The kernel's CPU lists *)

Definition is_digit (b : Z) : bool := (48 <=? b) && (b <=? 57).
Definition is_space (b : Z) : bool := (b =? 32) || ((9 <=? b) && (b <=? 13)).
Definition is_sep (b : Z) : bool := (b =? 44) || (b =? 32) || (b =? 10).

Fixpoint skip (f : Z → bool) (p : list Z) : list Z := match p with b :: r => if f b then skip f r else p | [] => [] end.
Fixpoint digits (acc : Z) (p : list Z) : Z * list Z :=
  match p with b :: r => if is_digit b then digits (acc * 10 + (b - 48)) r else (acc, p) | [] => (acc, []) end.

Definition LONG_MAX : Z := 2 ^ 63 - 1.
Definition LONG_MIN : Z := - 2 ^ 63.

(** [strtol(p, &end, 10)]: the value and what is left, or nothing when there is no number. *)
Definition strtol (p : list Z) : option (Z * list Z) :=
  let p := skip is_space p in
  let '(neg, p) := match p with 45 :: r => (true, r) | 43 :: r => (false, r) | _ => (false, p) end in
  match p with
  | b :: _ => if is_digit b then let '(v, r) := digits 0 p in Some (if neg : bool then Z.max LONG_MIN (- v) else Z.min LONG_MAX v, r) else None
  | [] => None
  end.

(** The loop from [lo] to [hi]: what it does for [c] in the mask's range. *)
Definition set_range (lo hi : Z) (m : CpuMask) : CpuMask :=
  foldl (λ m c, Set_cpu c m) m (seqZ (Z.max 0 lo) (Z.min hi (kMaxCpus - 1) + 1 - Z.max 0 lo)).

(** [p] ends at the first zero byte. *)
Definition c_str (s : list Z) : list Z := match list_find (λ b, b = 0) s with Some (i, _) => take i s | None => s end.

Fixpoint parse_loop (fuel : nat) (p : list Z) (m : CpuMask) : CpuMask :=
  match fuel with
  | O => m
  | S f =>
      match skip is_sep p with
      | [] => m
      | p =>
          match strtol p with
          | None => m
          | Some (lo, 45 :: r) => match strtol r with None => m | Some (hi, r) => parse_loop f r (set_range lo hi m) end
          | Some (lo, r) => parse_loop f r (set_range lo lo m)
          end
      end
  end.
Definition ParseCpuList (s : list Z) : CpuMask := let p := c_str s in parse_loop (length p) p no_cpus.

(** ** The query *)

(** A decimal number as [snprintf] prints it. *)
Fixpoint dec_fuel (f : nat) (n : Z) : list Z :=
  match f with O => [48 + n `mod` 10] | S f' => if n <? 10 then [48 + n] else dec_fuel f' (n / 10) ++ [48 + n `mod` 10] end.
Definition dec (n : Z) : list Z := dec_fuel 20 n.

(** The files that are read. *)
Inductive path :=
| thread_siblings_list (cpu : Z) | shared_cpu_list (cpu idx : Z) | cpu_capacity (cpu : Z) | cpu_core_cpus | cpu_atom_cpus.

Section query.
Context (sysfs : path → option (list Z)).

(** [ReadFileText]: the first 511 bytes. *)
Definition ReadFileText (p : path) : option (list Z) := take 511 <$> sysfs p.

(** A mask is added when it names a CPU and is not there yet. *)
Definition add_mask (l : list CpuMask) (m : CpuMask) : list CpuMask := if Any m && negb (bool_decide (m ∈ l)) then l ++ [m] else l.
Definition add_file (l : list CpuMask) (p : path) : list CpuMask := match ReadFileText p with Some t => add_mask l (ParseCpuList t) | None => l end.

Definition coreMasks (nCpu : Z) : list CpuMask := foldl (λ l cpu, add_file l (thread_siblings_list cpu)) [] (seqZ 0 nCpu).
Definition cacheMasks (nCpu : Z) : list CpuMask :=
  foldl (λ l cpu, foldl (λ l idx, add_file l (shared_cpu_list cpu idx)) l (seqZ 0 8)) [] (seqZ 0 nCpu).

(** Capacities: what [strtol(text, nullptr, 10)] gives, 0 for text that is no number. *)
Definition capacity (cpu : Z) : Z := match ReadFileText (cpu_capacity cpu) with Some t => match strtol (c_str t) with Some (v, _) => v | None => 0 end | None => -1 end.
Definition distinct_caps (nCpu : Z) : list Z :=
  foldl (λ l cpu, match ReadFileText (cpu_capacity cpu) with
                  | Some _ => if bool_decide (capacity cpu ∈ l) then l else l ++ [capacity cpu]
                  | None => l end) [] (seqZ 0 nCpu).

(** [std::sort], by insertion. *)
Fixpoint insert_sorted (x : Z) (l : list Z) : list Z := match l with [] => [x] | y :: r => if x <=? y then x :: l else y :: insert_sorted x r end.
Definition sort_caps (l : list Z) : list Z := foldr insert_sorted [] l.
Definition rank (x : Z) (l : list Z) : Z := match list_find (λ y, y = x) l with Some (i, _) => Z.of_nat i | None => Z.of_nat (length l) end.

(** [efficiencyClass] and [maxClass]. *)
Definition classes (nCpu : Z) : (Z → Z) * Z :=
  match ReadFileText cpu_core_cpus, ReadFileText cpu_atom_cpus with
  | Some pt, Some et =>
      let p := ParseCpuList pt in let e := ParseCpuList et in
      if Any p && Any e then (λ cpu, if (0 <=? cpu) && (cpu <? nCpu) then if Test p cpu then 1 else if Test e cpu then 0 else -1 else -1, 1)
      else (λ _, -1, -1)
  | _, _ =>
      let ds := distinct_caps nCpu in
      if 2 <=? Z.of_nat (length ds) then
        (λ cpu, if (0 <=? cpu) && (cpu <? nCpu) && (0 <=? capacity cpu) then rank (capacity cpu) (sort_caps ds) else -1, Z.of_nat (length ds) - 1)
      else (λ _, -1, -1)
  end.
End query.

(** ** Masks are sets of CPUs *)

Lemma testbit_land1 x k : 0 ≤ k → negb (Z.land (Z.shiftr x k) 1 =? 0) = Z.testbit x k.
Proof.
  intros Hk. rewrite (Z.land_ones _ 1) by lia. rewrite <- (Z.add_0_l k) at 2. rewrite <- Z.shiftr_spec by lia. rewrite <- Z.bit0_mod.
  destruct (Z.testbit (Z.shiftr x k) 0); done.
Qed.

Lemma word_of_div c : 0 ≤ c → Z.of_nat (word_of c) = c / 64.
Proof. intros H. unfold word_of. rewrite Z.shiftr_div_pow2 by lia. change (2 ^ 6) with 64. rewrite Z2Nat.id; [done|]. apply Z.div_pos; lia. Qed.

Lemma cpu_low_bits c : Z.land c 63 = c `mod` 64.
Proof. apply (Z.land_ones c 6). lia. Qed.

Lemma Test_testbit m c : 0 ≤ c → Test m c = (c <? kMaxCpus) && Z.testbit (default 0 (m !! word_of c)) (c `mod` 64).
Proof. intros H. unfold Test. rewrite cpu_low_bits, testbit_land1; [done|]. apply Z.mod_pos_bound. lia. Qed.

Lemma mask_lookup m c : mask_ok m → 0 ≤ c < kMaxCpus → is_Some (m !! word_of c).
Proof.
  intros [Hl _] Hc. apply lookup_lt_is_Some. rewrite Hl. pose proof (word_of_div c ltac:(lia)) as H. unfold kMaxCpus, kWords in Hc.
  assert (c / 64 < 4) by (apply Z.div_lt_upper_bound; lia). lia.
Qed.

Lemma Set_ok c m : 0 ≤ c → mask_ok m → mask_ok (Set_cpu c m).
Proof.
  intros Hc [Hl Hf]. unfold Set_cpu. destruct (c <? kMaxCpus); [|done]. split; [by rewrite length_alter|]. apply Forall_alter; [done|].
  intros w Hw [H0 H1]. rewrite cpu_low_bits. pose proof (Z.mod_pos_bound c 64 ltac:(lia)) as Hb. rewrite Z.shiftl_mul_pow2, Z.mul_1_l by lia.
  assert (Hp : 0 ≤ 2 ^ (c `mod` 64) < 2 ^ 64) by (split; [lia|apply Z.pow_lt_mono_r; lia]).
  split; [apply Z.lor_nonneg; lia|]. destruct (decide (Z.lor w (2 ^ (c `mod` 64)) = 0)) as [->|Hn]; [lia|].
  assert (0 < Z.lor w (2 ^ (c `mod` 64))) by (pose proof (proj2 (Z.lor_nonneg w (2 ^ (c `mod` 64))) (conj H0 (proj1 Hp))); lia).
  apply Z.log2_lt_pow2; [done|]. rewrite Z.log2_lor by lia. apply Z.max_lub_lt.
  - destruct (decide (w = 0)) as [->|]; [done|]. apply Z.log2_lt_pow2; lia.
  - rewrite Z.log2_pow2 by lia. lia.
Qed.

Lemma Test_Set c d m : 0 ≤ c → 0 ≤ d → mask_ok m → Test (Set_cpu c m) d = bool_decide (c = d ∧ c < kMaxCpus) || Test m d.
Proof.
  intros Hc Hd Hm. rewrite !Test_testbit by done. unfold Set_cpu. destruct (c <? kMaxCpus) eqn:Ec.
  2: { apply Z.ltb_ge in Ec. rewrite bool_decide_false by lia. done. }
  apply Z.ltb_lt in Ec. pose proof (Z.mod_pos_bound c 64 ltac:(lia)). pose proof (Z.mod_pos_bound d 64 ltac:(lia)).
  pose proof (word_of_div c Hc) as Wc. pose proof (word_of_div d Hd) as Wd. pose proof (Z.div_mod c 64 ltac:(lia)). pose proof (Z.div_mod d 64 ltac:(lia)).
  destruct (decide (word_of c = word_of d)) as [E|E].
  - rewrite E, list_lookup_alter_eq. destruct (m !! word_of d) as [w|] eqn:Ew.
    2: { destruct (mask_lookup m c Hm ltac:(lia)) as [w Hw]. rewrite E, Ew in Hw. done. }
    cbn. rewrite Z.lor_spec, cpu_low_bits, Z.shiftl_mul_pow2, Z.mul_1_l by lia. rewrite Z.pow2_bits_eqb by lia.
    destruct (Z.eqb_spec (c `mod` 64) (d `mod` 64)) as [Em|Em].
    + assert (c = d) by lia. subst d. rewrite orb_true_r, bool_decide_true by done. by rewrite (proj2 (Z.ltb_lt _ _)).
    + rewrite orb_false_r, bool_decide_false by (intros [-> _]; done). done.
  - rewrite list_lookup_alter_ne by done. rewrite bool_decide_false by (intros [-> _]; done). done.
Qed.

Lemma no_cpus_ok : mask_ok no_cpus.
Proof. split; [done|]. repeat constructor; lia. Qed.

Lemma Test_no_cpus c : Test no_cpus c = false.
Proof.
  unfold Test, no_cpus. destruct (c <? kMaxCpus); [|done]. cbn [andb].
  assert (E : default 0 ([0; 0; 0; 0] !! word_of c) = 0) by (destruct (word_of c) as [|[|[|[|n]]]]; done). by rewrite E, Z.shiftr_0_l.
Qed.

Lemma set_range_ok lo hi m : mask_ok m → mask_ok (set_range lo hi m) ∧
  ∀ c, 0 ≤ c → Test (set_range lo hi m) c = bool_decide (lo ≤ c ≤ hi ∧ c < kMaxCpus) || Test m c.
Proof.
  intros Hm. unfold set_range. set (a := Z.max 0 lo). set (n := Z.min hi (kMaxCpus - 1) + 1 - a).
  assert (H : ∀ l m, mask_ok m → Forall (λ c, 0 ≤ c) l → let m' := foldl (λ m c, Set_cpu c m) m l in
    mask_ok m' ∧ ∀ c, 0 ≤ c → Test m' c = bool_decide (c ∈ l ∧ c < kMaxCpus) || Test m c).
  { induction l as [|x l IH]; intros m0 Hm0 Hl; cbn.
    - split; [done|]. intros c _. rewrite bool_decide_false by (intros [H _]; by apply elem_of_nil in H). done.
    - apply Forall_cons in Hl as [Hx Hl]. destruct (IH (Set_cpu x m0) (Set_ok x m0 Hx Hm0) Hl) as [IH1 IH2]. split; [done|].
      intros c Hc. rewrite IH2, Test_Set by done. rewrite orb_assoc. f_equal. rewrite <- bool_decide_or. apply bool_decide_ext. rewrite elem_of_cons. naive_solver. }
  destruct (H (seqZ a n) m Hm) as [H1 H2]; [apply Forall_forall; intros c Hc%elem_of_seqZ; lia|]. split; [done|]. intros c Hc. rewrite H2 by done. f_equal.
  apply bool_decide_ext. rewrite elem_of_seqZ. unfold n, a. lia.
Qed.

(** ** Counting bits *)

Lemma land_pred_double y : Z.land (2 * y) (2 * y - 1) = 2 * Z.land y (y - 1).
Proof.
  replace (2 * y - 1) with (2 * (y - 1) + 1) by lia. apply Z.bits_inj'. intros n Hn. rewrite Z.land_spec.
  destruct (decide (n = 0)) as [->|Hz]; [by rewrite !Z.testbit_even_0|]. replace n with (Z.succ (Z.pred n)) by lia.
  rewrite Z.testbit_odd_succ, !Z.testbit_even_succ by lia. by rewrite Z.land_spec.
Qed.

Lemma land_pred_odd y : Z.land (2 * y + 1) (2 * y + 1 - 1) = 2 * y.
Proof.
  replace (2 * y + 1 - 1) with (2 * y) by lia. apply Z.bits_inj'. intros n Hn. rewrite Z.land_spec.
  destruct (decide (n = 0)) as [->|Hz]; [by rewrite Z.testbit_odd_0, Z.testbit_even_0|]. replace n with (Z.succ (Z.pred n)) by lia.
  rewrite Z.testbit_odd_succ, Z.testbit_even_succ by lia. by destruct (Z.testbit y _).
Qed.

Lemma count_word_double f y : count_word f (2 * y) = count_word f y.
Proof.
  revert y. induction f as [|f IH]; intros y; [done|]. cbn [count_word]. destruct (Z.eqb_spec y 0) as [->|Hn]; [done|].
  rewrite (proj2 (Z.eqb_neq (2 * y) 0)) by lia. by rewrite land_pred_double, IH.
Qed.

(** The number of the lowest [n] bits that are set. *)
Definition bits_set (n : nat) (x : Z) : Z := Z.of_nat (length (filter (λ i, Z.testbit x i = true) (seqZ 0 (Z.of_nat n)))).

Lemma filter_image (P Q : Z → Prop) `{∀ x, Decision (P x)} `{∀ x, Decision (Q x)} f l :
  (∀ x, x ∈ l → P (f x) ↔ Q x) → length (filter P (f <$> l)) = length (filter Q l).
Proof.
  induction l as [|x l IH]; intros Hl; [done|]. rewrite fmap_cons, !filter_cons. assert (Hx := Hl x ltac:(set_solver)).
  specialize (IH ltac:(set_solver)). destruct (decide (P (f x))), (decide (Q x)); cbn [length]; naive_solver.
Qed.

Lemma bits_set_half n x : bits_set (S n) x = Z.b2z (Z.odd x) + bits_set n (x / 2).
Proof.
  unfold bits_set. rewrite (seqZ_cons 0) by lia. rewrite filter_cons. replace (Z.pred (Z.of_nat (S n))) with (Z.of_nat n) by lia.
  assert (E : length (filter (λ i, Z.testbit x i = true) (seqZ (Z.succ 0) (Z.of_nat n))) = length (filter (λ i, Z.testbit (x / 2) i = true) (seqZ 0 (Z.of_nat n)))).
  { change (Z.succ 0) with (1 + 0). rewrite <- (fmap_add_seqZ 1 0). apply filter_image. intros i Hi%elem_of_seqZ.
    change (x / 2) with (x / 2 ^ 1). rewrite <- Z.shiftr_div_pow2 by lia. rewrite Z.shiftr_spec by lia. by rewrite (Z.add_comm i 1). }
  rewrite Z.bit0_odd. destruct (Z.odd x); cbn [Z.b2z]; [rewrite decide_True by done; cbn [length]; lia|rewrite decide_False by done; lia].
Qed.

Lemma count_word_bits n f x : (n ≤ f)%nat → 0 ≤ x < 2 ^ Z.of_nat n → count_word f x = bits_set n x.
Proof.
  revert f x. induction n as [|n IH]; intros f x Hf Hx.
  { assert (x = 0) by (cbn in Hx; lia). subst x. by destruct f. }
  rewrite bits_set_half. pose proof (Zmod_odd x) as Ho. pose proof (Z.div_mod x 2 ltac:(lia)) as Hd. rewrite Nat2Z.inj_succ, Z.pow_succ_r in Hx by lia.
  assert (Hr : 0 ≤ x / 2 < 2 ^ Z.of_nat n) by (split; [apply Z.div_pos; lia|apply Z.div_lt_upper_bound; lia]). destruct (Z.odd x).
  - assert (Hx' : x = 2 * (x / 2) + 1) by lia. rewrite Hx' at 1. destruct f as [|f]; [lia|]. cbn [count_word].
    rewrite (proj2 (Z.eqb_neq (2 * (x / 2) + 1) 0)) by lia. rewrite land_pred_odd, count_word_double, (IH f) by (done || lia). done.
  - assert (Hx' : x = 2 * (x / 2)) by lia. rewrite Hx' at 1. rewrite count_word_double, (IH f) by (done || lia). done.
Qed.

Lemma bits_block m b : mask_ok m → (b < 4)%nat →
  bits_set 64 (default 0 (m !! b)) = Z.of_nat (length (filter (λ c, Test m c = true) (seqZ (64 * Z.of_nat b) 64))).
Proof.
  intros Hm Hb. rewrite <- (Z.add_0_r (64 * Z.of_nat b)), <- fmap_add_seqZ. unfold bits_set. f_equal. symmetry. apply filter_image.
  intros i Hi%elem_of_seqZ. rewrite Test_testbit by lia. rewrite (proj2 (Z.ltb_lt _ _)) by (unfold kMaxCpus, kWords; lia).
  assert (E : (64 * Z.of_nat b + i) / 64 = Z.of_nat b) by (rewrite Z.mul_comm, Z.add_comm, Z.div_add, Z.div_small by lia; lia).
  assert (Em : (64 * Z.of_nat b + i) `mod` 64 = i) by (rewrite Z.mul_comm, Z.add_comm, Z.mod_add, Z.mod_small by lia; lia).
  rewrite Em. replace (word_of (64 * Z.of_nat b + i)) with b; [done|]. pose proof (word_of_div (64 * Z.of_nat b + i) ltac:(lia)). lia.
Qed.

(** The loop that clears the lowest bit counts the CPUs of the mask. *)
Theorem count_exact m : mask_ok m → Count m = Z.of_nat (length (filter (λ c, Test m c = true) (seqZ 0 kMaxCpus))).
Proof.
  intros Hm. pose proof (bits_block m 0 Hm ltac:(lia)) as B0. pose proof (bits_block m 1 Hm ltac:(lia)) as B1.
  pose proof (bits_block m 2 Hm ltac:(lia)) as B2. pose proof (bits_block m 3 Hm ltac:(lia)) as B3.
  destruct Hm as [Hl Hf]. assert (E : ∃ a b c d, m = [a; b; c; d]).
  { clear -Hl. destruct m as [|a [|b [|c [|d [|]]]]]; try discriminate. by exists a, b, c, d. }
  destruct E as (a & b & c & d & ->). rewrite !Forall_cons in Hf. destruct Hf as (Ha & Hb & Hc & Hd & _).
  assert (Es : seqZ 0 kMaxCpus = seqZ (64 * Z.of_nat 0) 64 ++ seqZ (64 * Z.of_nat 1) 64 ++ seqZ (64 * Z.of_nat 2) 64 ++ seqZ (64 * Z.of_nat 3) 64) by done. rewrite Es. clear Es.
  rewrite !filter_app, !length_app, !Nat2Z.inj_add, <- B0, <- B1, <- B2, <- B3. clear B0 B1 B2 B3.
  unfold Count. cbn [foldr]. rewrite !(count_word_bits 64 64) by (done || lia). change (default 0 ([a; b; c; d] !! 0%nat)) with a.
  change (default 0 ([a; b; c; d] !! 1%nat)) with b. change (default 0 ([a; b; c; d] !! 2%nat)) with c. change (default 0 ([a; b; c; d] !! 3%nat)) with d. lia.
Qed.

(** ** The parser reads what the kernel prints *)

(** A CPU list as the kernel prints it: ranges, separated by commas, and a newline. *)
Definition print_range (r : Z * Z) : list Z := if r.1 =? r.2 then dec r.1 else dec r.1 ++ 45 :: dec r.2.
Fixpoint print_ranges (rs : list (Z * Z)) : list Z :=
  match rs with [] => [] | [r] => print_range r | r :: rs' => print_range r ++ 44 :: print_ranges rs' end.
Definition print_list (rs : list (Z * Z)) : list Z := print_ranges rs ++ [10].

Definition range_ok (r : Z * Z) : Prop := 0 ≤ r.1 ≤ r.2 ∧ r.2 ≤ LONG_MAX.
Definition in_ranges (rs : list (Z * Z)) (c : Z) : Prop := ∃ r, r ∈ rs ∧ r.1 ≤ c ≤ r.2.

Definition stops (r : list Z) : Prop := match r with b :: _ => is_digit b = false | [] => True end.

Lemma digits_dec f n acc r : 0 ≤ n < 10 ^ Z.of_nat (S f) → digits acc (dec_fuel f n ++ r) = digits (acc * 10 ^ Z.of_nat (length (dec_fuel f n)) + n) r.
Proof.
  assert (D : ∀ k acc r, 0 ≤ k < 10 → digits acc ((48 + k) :: r) = digits (acc * 10 + k) r).
  { intros k a l Hk. cbn [digits]. unfold is_digit. rewrite (proj2 (Z.leb_le 48 (48 + k))), (proj2 (Z.leb_le (48 + k) 57)) by lia. cbn [andb]. f_equal. lia. }
  revert n acc r. induction f as [|f IH]; intros n acc r Hn; cbn [dec_fuel].
  { rewrite Z.mod_small by (cbn in Hn; lia). cbn [app length]. rewrite D by (cbn in Hn; lia). done. }
  destruct (n <? 10) eqn:E; [apply Z.ltb_lt in E|apply Z.ltb_ge in E].
  { cbn [app length]. rewrite D by lia. done. }
  rewrite <- app_assoc, length_app. cbn [app length]. pose proof (Z.mod_pos_bound n 10 ltac:(lia)). pose proof (Z.div_mod n 10 ltac:(lia)).
  rewrite IH.
  2: { split; [apply Z.div_pos; lia|]. apply Z.div_lt_upper_bound; [lia|]. rewrite (Nat2Z.inj_succ (S f)), Z.pow_succ_r in Hn by lia. lia. }
  rewrite D by lia. f_equal. rewrite Nat2Z.inj_add, Z.pow_add_r by lia. change (10 ^ Z.of_nat 1) with 10. lia.
Qed.

Lemma dec_head f n : 0 ≤ n < 10 ^ Z.of_nat (S f) → ∃ b l, dec_fuel f n = b :: l ∧ 48 ≤ b ≤ 57 ∧ Forall (λ b, 48 ≤ b ≤ 57) l.
Proof.
  revert n. induction f as [|f IH]; intros n Hn; cbn [dec_fuel].
  { pose proof (Z.mod_pos_bound n 10 ltac:(lia)). eexists _, []. split; [done|]. split; [lia|constructor]. }
  destruct (n <? 10) eqn:E; [apply Z.ltb_lt in E; eexists _, []; split; [done|]; split; [lia|constructor]|].
  destruct (IH (n / 10)) as (b & l & -> & Hb & Hl).
  { split; [apply Z.div_pos; lia|]. apply Z.div_lt_upper_bound; [lia|]. rewrite (Nat2Z.inj_succ (S f)), Z.pow_succ_r in Hn by lia. lia. }
  pose proof (Z.mod_pos_bound n 10 ltac:(lia)). exists b, (l ++ [48 + n `mod` 10]). split; [done|]. split; [done|]. apply Forall_app. split; [done|]. repeat constructor; lia.
Qed.

Lemma long_fits n : 0 ≤ n ≤ LONG_MAX → 0 ≤ n < 10 ^ Z.of_nat 21.
Proof. intros H. split; [lia|]. apply (Z.le_lt_trans _ LONG_MAX); [lia|]. done. Qed.

Lemma strtol_dec n r : 0 ≤ n ≤ LONG_MAX → stops r → strtol (dec n ++ r) = Some (n, r).
Proof.
  intros Hn Hr. destruct (dec_head 20 n (long_fits n Hn)) as (b & l & E & Hb & _). pose proof (digits_dec 20 n 0 r (long_fits n Hn)) as D.
  unfold dec. rewrite E in *. unfold strtol.
  assert (Es : is_space b = false) by (unfold is_space; rewrite (proj2 (Z.eqb_neq b 32)), (proj2 (Z.leb_gt b 13)), andb_false_r by lia; done).
  cbn [app skip]. rewrite Es. assert (Hm : (match b :: l ++ r with 45 :: r0 => (true, r0) | 43 :: r0 => (false, r0) | _ => (false, b :: l ++ r) end) = (false, b :: l ++ r)).
  { assert (Hc : b = 48 ∨ b = 49 ∨ b = 50 ∨ b = 51 ∨ b = 52 ∨ b = 53 ∨ b = 54 ∨ b = 55 ∨ b = 56 ∨ b = 57) by lia.
    by destruct Hc as [->|[->|[->|[->|[->|[->|[->|[->|[->| ->]]]]]]]]]. }
  rewrite Hm. assert (Ed : is_digit b = true) by (unfold is_digit; rewrite (proj2 (Z.leb_le 48 b)), (proj2 (Z.leb_le b 57)) by lia; done). rewrite Ed.
  cbn [app] in D. rewrite D, Z.mul_0_l, Z.add_0_l. destruct r as [|c r]; cbn [digits]; [|rewrite Hr]; by rewrite Z.min_r by lia.
Qed.

Lemma print_range_head r : range_ok r → ∃ b l, print_range r = b :: l ∧ is_sep b = false.
Proof.
  intros [H1 H2]. assert (H0 : 0 ≤ r.1 ≤ LONG_MAX) by lia. destruct (dec_head 20 r.1 (long_fits _ H0)) as (b & l & E & Hb & _). unfold print_range, dec. rewrite E.
  assert (is_sep b = false) by (unfold is_sep; rewrite (proj2 (Z.eqb_neq b 44)), (proj2 (Z.eqb_neq b 32)), (proj2 (Z.eqb_neq b 10)) by lia; done).
  destruct (r.1 =? r.2); eauto.
Qed.

(** One range read and set. *)
Lemma parse_range f r rest m : range_ok r → (rest = [10] ∨ ∃ l, rest = 44 :: l) →
  parse_loop (S f) (print_range r ++ rest) m = parse_loop f rest (set_range r.1 r.2 m).
Proof.
  intros Hr Hrest. destruct (print_range_head r Hr) as (b & l & Eb & Hb). destruct Hr as [H1 H2].
  assert (Hst : stops rest) by (destruct Hrest as [->|[l' ->]]; done).
  assert (H3 : 0 ≤ r.1 ≤ LONG_MAX) by lia. assert (H4 : 0 ≤ r.2 ≤ LONG_MAX) by lia.
  assert (Hs : skip is_sep (print_range r ++ rest) = print_range r ++ rest) by (rewrite Eb; cbn [app skip]; by rewrite Hb).
  cbn [parse_loop]. rewrite Hs, Eb. cbn [app]. change (b :: l ++ rest) with ((b :: l) ++ rest). rewrite <- Eb. clear Hs Eb. unfold print_range. destruct (Z.eqb_spec r.1 r.2) as [E|E].
  - rewrite strtol_dec by done. rewrite <- E. destruct Hrest as [->|[l' ->]]; done.
  - rewrite <- app_assoc. rewrite strtol_dec by done. cbn [app]. by rewrite strtol_dec by done.
Qed.

Lemma parse_ranges rs f sep m :
  Forall (λ b, is_sep b = true) sep → (length rs < f)%nat → Forall range_ok rs → mask_ok m →
  let m' := parse_loop f (sep ++ print_ranges rs ++ [10]) m in
  mask_ok m' ∧ ∀ c, 0 ≤ c → Test m' c = true ↔ (in_ranges rs c ∧ c < kMaxCpus) ∨ Test m c = true.
Proof.
  assert (Hskip : ∀ sep p, Forall (λ b, is_sep b = true) sep → skip is_sep (sep ++ p) = skip is_sep p).
  { intros s p. induction 1 as [|b s Hb _ IH]; [done|]. cbn [app skip]. by rewrite Hb. }
  assert (Hdrop : ∀ f sep p m, Forall (λ b, is_sep b = true) sep → parse_loop f (sep ++ p) m = parse_loop f p m).
  { intros f' s p m' Hs. destruct f'; [done|]. cbn [parse_loop]. by rewrite Hskip. }
  revert f sep m. induction rs as [|r rs IH]; intros f sep m Hsep Hf Hr Hm; cbn zeta; rewrite Hdrop by done.
  { destruct f as [|f]; [cbn in Hf; lia|]. cbn. split; [done|]. intros c _. split; [auto|]. intros [[(r & Hin & _) _]|?]; [by apply elem_of_nil in Hin|done]. }
  apply Forall_cons in Hr as [Hr Hrs]. destruct f as [|f]; [cbn in Hf; lia|]. cbn [length] in Hf. destruct (set_range_ok r.1 r.2 m Hm) as [Hm1 Ht].
  assert (E : ∃ sep', Forall (λ b, is_sep b = true) sep' ∧ parse_loop (S f) (print_ranges (r :: rs) ++ [10]) m = parse_loop f (sep' ++ print_ranges rs ++ [10]) (set_range r.1 r.2 m)).
  { destruct rs as [|r' rs]; cbn [print_ranges].
    - exists []. split; [done|]. apply parse_range; [done|by left].
    - exists [44]. split; [by repeat constructor|]. rewrite <- app_assoc. apply parse_range; [done|right; by eexists]. }
  destruct E as (sep' & Hsep' & ->). destruct (IH f sep' (set_range r.1 r.2 m) Hsep' ltac:(lia) Hrs Hm1) as [IH1 IH2].
  split; [done|]. intros c Hc. rewrite IH2, Ht by done. rewrite orb_true_iff, bool_decide_eq_true. unfold in_ranges. setoid_rewrite elem_of_cons. naive_solver.
Qed.

Lemma print_ranges_clean rs : Forall range_ok rs → Forall (λ b, b ≠ 0) (print_ranges rs).
Proof.
  assert (Hd : ∀ n, 0 ≤ n ≤ LONG_MAX → Forall (λ b, b ≠ 0) (dec n)).
  { intros n Hn. destruct (dec_head 20 n (long_fits n Hn)) as (b & l & E & Hb & Hl). unfold dec. rewrite E. constructor; [lia|]. eapply Forall_impl; [done|]. cbn. lia. }
  assert (Hp : ∀ r, range_ok r → Forall (λ b, b ≠ 0) (print_range r)).
  { intros r [H1 H2]. unfold print_range. destruct (r.1 =? r.2); [apply Hd; lia|]. apply Forall_app. split; [apply Hd; lia|]. constructor; [done|apply Hd; lia]. }
  induction 1 as [|r rs Hr Hrs IH]; [constructor|]. destruct rs as [|r' rs]; [by apply Hp|]. cbn [print_ranges]. apply Forall_app. split; [by apply Hp|]. by constructor.
Qed.

Lemma c_str_clean s : Forall (λ b, b ≠ 0) s → c_str s = s.
Proof.
  intros H. unfold c_str. destruct (list_find (λ b, b = 0) s) as [[i b]|] eqn:E; [|done]. apply list_find_Some in E as (Hl & -> & _).
  rewrite Forall_lookup in H. by apply H in Hl.
Qed.

Lemma print_long rs : Forall range_ok rs → (length rs ≤ length (print_ranges rs))%nat.
Proof.
  assert (Hp : ∀ r, range_ok r → (1 ≤ length (print_range r))%nat) by (intros r (b & l & -> & _)%print_range_head; cbn; lia).
  induction 1 as [|r rs Hr Hrs IH]; [done|]. specialize (Hp r Hr). destruct rs as [|r' rs]; [done|]. cbn [print_ranges] in *. rewrite length_app. cbn [length] in *. lia.
Qed.

(** The CPU lists are read as the kernel writes them.  Whatever ranges a list names, the
    mask parsed from its text has exactly the CPUs of the ranges below the 256 a mask can
    hold. *)
Theorem cpu_list_roundtrip rs c : Forall range_ok rs → 0 ≤ c → Test (ParseCpuList (print_list rs)) c = true ↔ in_ranges rs c ∧ c < kMaxCpus.
Proof.
  intros Hr Hc. unfold ParseCpuList, print_list. rewrite c_str_clean.
  2: { apply Forall_app. split; [by apply print_ranges_clean|by repeat constructor]. }
  pose proof (print_long rs Hr). destruct (parse_ranges rs (length (print_ranges rs ++ [10])) [] no_cpus) as [_ H1]; [constructor| |done|apply no_cpus_ok|].
  { rewrite length_app. cbn. lia. }
  cbn [app] in H1. rewrite H1, Test_no_cpus by done. naive_solver.
Qed.

Lemma cpu_list_roundtrip_witness :
  ParseCpuList (print_list [(0, 3); (8, 8); (300, 310)]) = [271; 0; 0; 0] ∧ Test (ParseCpuList (print_list [(0, 3); (8, 8); (300, 310)])) 8 = true.
Proof.
  split; [reflexivity|]. apply (cpu_list_roundtrip [(0, 3); (8, 8); (300, 310)] 8); [repeat constructor; cbn; unfold LONG_MAX; lia|lia|].
  split; [|reflexivity]. exists (8, 8). split; [|cbn; lia]. apply elem_of_cons. right. apply elem_of_cons. left. reflexivity.
Defined.

(** A list longer than the 511 bytes [ReadFileText] keeps is cut, perhaps inside a number:
    where the odd CPUs share a cache, the text ends in 28, cut from 283, and CPU 28 is taken to
    be one of them. *)
Theorem long_list_cut :
  ∃ t, t = print_list ((λ i, (2 * i + 1, 2 * i + 1)) <$> seqZ 0 256) ∧ Test (ParseCpuList t) 28 = false ∧ Test (ParseCpuList (take 511 t)) 28 = true.
Proof. eexists. split; [reflexivity|]. split; vm_compute; reflexivity. Qed.

(** ** Core classes *)

Lemma rank_cons x y l : rank x (y :: l) = if decide (y = x) then 0 else 1 + rank x l.
Proof.
  unfold rank. cbn [list_find]. destruct (decide (y = x)); [done|]. destruct (list_find (λ y, y = x) l) as [[i z]|]; cbn; lia.
Qed.

Lemma rank_nonneg x l : 0 ≤ rank x l.
Proof. unfold rank. destruct (list_find _ l) as [[i z]|]; lia. Qed.

Lemma rank_mono l x y : StronglySorted Z.lt l → x ∈ l → y ∈ l → x < y → rank x l < rank y l.
Proof.
  induction 1 as [|z l Hs IH Hz]; intros Hx Hy Hlt; [by apply elem_of_nil in Hx|]. rewrite !rank_cons. pose proof (rank_nonneg y l).
  rewrite Forall_forall in Hz. apply elem_of_cons in Hx as [->|Hx], Hy as [->|Hy].
  - lia.
  - rewrite decide_True by done. case_decide; lia.
  - specialize (Hz x Hx). lia.
  - pose proof (Hz x Hx). pose proof (Hz y Hy). specialize (IH Hx Hy Hlt). repeat case_decide; lia.
Qed.

Lemma rank_bound l x : x ∈ l → rank x l < Z.of_nat (length l).
Proof.
  induction l as [|y l IH]; intros Hx; [by apply elem_of_nil in Hx|]. rewrite rank_cons. cbn [length]. destruct (decide (y = x)); [lia|].
  assert (x ∈ l) by set_solver. specialize (IH ltac:(done)). lia.
Qed.

Lemma insert_sorted_in x l y : y ∈ insert_sorted x l ↔ y = x ∨ y ∈ l.
Proof. induction l as [|z l IH]; cbn; [set_solver|]. destruct (x <=? z); set_solver. Qed.

Lemma insert_sorted_sorted x l : StronglySorted Z.lt l → x ∉ l → StronglySorted Z.lt (insert_sorted x l).
Proof.
  induction 1 as [|z l Hs IH Hz]; intros Hx; cbn; [by repeat constructor|]. rewrite Forall_forall in Hz. destruct (x <=? z) eqn:E.
  - apply Z.leb_le in E. assert (x < z) by (assert (x ≠ z) by set_solver; lia). constructor; [by constructor; [|apply Forall_forall]|]. constructor; [done|].
    apply Forall_forall. intros y Hy%Hz. lia.
  - apply Z.leb_gt in E. constructor; [apply IH; set_solver|]. apply Forall_forall. intros y [->|Hy]%insert_sorted_in; [done|by apply Hz].
Qed.

Lemma sort_caps_ok l : NoDup l → StronglySorted Z.lt (sort_caps l) ∧ (∀ y, y ∈ sort_caps l ↔ y ∈ l) ∧ length (sort_caps l) = length l.
Proof.
  assert (Hlen : ∀ x l, length (insert_sorted x l) = S (length l)) by (intros x l'; induction l' as [|z l' IH]; cbn; [done|]; destruct (x <=? z); cbn; by rewrite ?IH).
  induction 1 as [|x l Hx Hn [IH1 [IH2 IH3]]]; [split_and!; [constructor|done|done]|]. change (sort_caps (x :: l)) with (insert_sorted x (sort_caps l)). split_and!.
  - apply insert_sorted_sorted; [done|]. by rewrite IH2.
  - intros y. rewrite insert_sorted_in, IH2. set_solver.
  - rewrite Hlen, IH3. done.
Qed.

Section classes.
Context (sysfs : path → option (list Z)) (nCpu : Z).

(** [cpu] is there and its capacity can be read. *)
Definition has_capacity (cpu : Z) : Prop := 0 ≤ cpu < nCpu ∧ is_Some (ReadFileText sysfs (cpu_capacity cpu)).

Lemma distinct_caps_ok : NoDup (distinct_caps sysfs nCpu) ∧ ∀ cpu, has_capacity cpu → capacity sysfs cpu ∈ distinct_caps sysfs nCpu.
Proof.
  unfold distinct_caps, has_capacity. set (step := λ (l : list Z) cpu, match ReadFileText sysfs (cpu_capacity cpu) with Some _ => _ | None => l end).
  assert (H : ∀ cs l, NoDup l → NoDup (foldl step l cs) ∧ (∀ x, x ∈ l → x ∈ foldl step l cs) ∧
    ∀ cpu, cpu ∈ cs → is_Some (ReadFileText sysfs (cpu_capacity cpu)) → capacity sysfs cpu ∈ foldl step l cs).
  { induction cs as [|c cs IH]; intros l Hl; cbn [foldl]; [split_and!; [done|done|intros cpu Hc; by apply elem_of_nil in Hc]|].
    assert (Hs : NoDup (step l c) ∧ (∀ x, x ∈ l → x ∈ step l c) ∧ (is_Some (ReadFileText sysfs (cpu_capacity c)) → capacity sysfs c ∈ step l c)).
    { unfold step. destruct (ReadFileText sysfs (cpu_capacity c)) as [t|]; [|by split_and!; [| |intros []]]. destruct (bool_decide_reflect (capacity sysfs c ∈ l)) as [Hin|Hin]; [done|].
      split_and!; [apply NoDup_app; split_and!; [done|set_solver|apply NoDup_singleton]|set_solver|set_solver]. }
    destruct Hs as (S1 & S2 & S3). destruct (IH (step l c) S1) as (I1 & I2 & I3). split_and!; [done|auto|]. intros cpu [->|Hc]%elem_of_cons Ht; auto. }
  destruct (H (seqZ 0 nCpu) [] (NoDup_nil_2)) as (H1 & _ & H3). split; [done|]. intros cpu [Hc Ht]. apply H3; [|done]. apply elem_of_seqZ. lia.
Qed.

(** The classes rank the CPUs by capacity, and the highest class is that of the CPUs with the
    highest capacity: those count as performance cores. *)
Theorem class_order a b :
  (ReadFileText sysfs cpu_core_cpus = None ∨ ReadFileText sysfs cpu_atom_cpus = None) → 2 ≤ Z.of_nat (length (distinct_caps sysfs nCpu)) →
  has_capacity a → has_capacity b → 0 ≤ capacity sysfs a → 0 ≤ capacity sysfs b →
  let '(cls, top) := classes sysfs nCpu in
  (cls a < cls b ↔ capacity sysfs a < capacity sysfs b) ∧ 0 ≤ cls a ≤ top ∧ (capacity sysfs a < capacity sysfs b → cls a ≠ top).
Proof.
  intros Hh H2 Ha Hb Ca Cb. destruct distinct_caps_ok as [Hn Hin]. destruct (sort_caps_ok _ Hn) as (Hs & Hm & Hl). unfold classes.
  assert (Hc : ∀ c, has_capacity c → 0 ≤ capacity sysfs c → (0 <=? c) && (c <? nCpu) && (0 <=? capacity sysfs c) = true).
  { intros c [[Hc1 Hc2] _] Hcap. by rewrite (proj2 (Z.leb_le 0 c)), (proj2 (Z.ltb_lt c nCpu)), (proj2 (Z.leb_le 0 _)). }
  assert (Hma : capacity sysfs a ∈ sort_caps (distinct_caps sysfs nCpu)) by (apply Hm; auto).
  assert (Hmb : capacity sysfs b ∈ sort_caps (distinct_caps sysfs nCpu)) by (apply Hm; auto).
  pose proof (rank_bound _ _ Hma) as Ba. pose proof (rank_bound _ _ Hmb) as Bb. pose proof (rank_nonneg (capacity sysfs a) (sort_caps (distinct_caps sysfs nCpu))).
  assert (Hiff : rank (capacity sysfs a) (sort_caps (distinct_caps sysfs nCpu)) < rank (capacity sysfs b) (sort_caps (distinct_caps sysfs nCpu)) ↔ capacity sysfs a < capacity sysfs b).
  { split; [|by apply rank_mono]. intros Hr. destruct (Z.lt_total (capacity sysfs a) (capacity sysfs b)) as [?|[E'|?]]; [done|rewrite E' in Hr; lia|].
    pose proof (rank_mono _ _ _ Hs Hmb Hma ltac:(done)). lia. }
  destruct Hh as [Eh|Eh]; rewrite Eh; [|destruct (ReadFileText sysfs cpu_core_cpus)]; rewrite (proj2 (Z.leb_le 2 _) H2); cbn beta iota; rewrite !Hc by done; (split; [done|]; rewrite Hl in Ba, Bb; split; [lia|]; intros Hlt; apply Hiff in Hlt; lia).
Qed.
End classes.
