(* ===== verification/PoolStart.v ===== *)
(** * Starting the pool (src/TaskScheduler.cpp)

    What [Init] and [StartPool] decide before the workers run: how many there are, which CPU
    each is given, who shares a core with whom, which are performance cores, which cache each
    belongs to, how many are reserved and which epoch slot each has.  The hardware concurrency
    and the layout are arguments; the layout is what [Topology] reads. *)

From S2P Require Import Prelude TaskTypes Topology Placement.

(** ** The configuration *)

Definition kMaxReservedWorkers : Z := 2.

(** The fields of [Config] that [StartPool] goes by; [c_physical] for
    [AffinityPolicy::PhysicalOnly]. *)
Record Config := mkConfig {
  c_mode : Mode; c_main : MainMode; c_workers : Z; c_hot : Z; c_timers : bool; c_reservedCores : Z; c_physical : bool; c_injector : bool }.

(** [Init]'s resolution of the requested configuration. *)
Definition resolve_config (c : Config) : Config :=
  mkConfig (c_mode c)
    (match c_main c with DefaultMain => match c_mode c with Migrate => InPool | Pinned => OutOfPool end | m => m end)
    (c_workers c) (if kMaxReservedWorkers <? c_hot c then kMaxReservedWorkers else c_hot c) (c_timers c) (c_reservedCores c) (c_physical c) (c_injector c).

(** [GetSafeTC]; [cores] is [hardware_concurrency]. *)
Definition GetSafeTC (cores : Z) (c : Config) : Z :=
  if cores <=? 1 then 1
  else
    let reserved := u32 (1 + (if c_timers c then 1 else 0) + c_reservedCores c) in
    if cores <=? reserved then 1 else cores - reserved.

(** ** CPUs *)

(** What [topology::Query] found. *)
Record Info := mkInfo { coreMasks : list CpuMask; cacheMasks : list CpuMask; efficiencyClass : Z → Z; maxClass : Z }.
Definition haveCores (i : Info) : bool := negb (bool_decide (coreMasks i = [])).
Definition haveCache (i : Info) : bool := negb (bool_decide (cacheMasks i = [])).

Definition cpus_of (m : CpuMask) : list Z := filter (λ c, Test m c = true) (seqZ 0 kMaxCpus).
Definition logicalCpus (i : Info) : list Z :=
  if haveCores i then cpus_of (foldl (λ all m, foldl (λ a c, Set_cpu c a) all (cpus_of m)) no_cpus (coreMasks i)) else [].

(** The first CPU of each core. *)
Definition first_cpus (i : Info) : list Z := omap (λ m, head (cpus_of m)) (coreMasks i).
Definition physicalCpus (c : Config) (i : Info) : list Z :=
  if c_physical c && (2 <=? Z.of_nat (length (first_cpus i))) then first_cpus i else [].

Definition pool_size (cores : Z) (c : Config) (i : Info) : Z :=
  let n := if c_workers c =? 0 then GetSafeTC cores c else c_workers c in
  let hw := if cores =? 0 then 4 else cores in
  let n := if hw <? n then hw else n in
  if bool_decide (physicalCpus c i = []) then n else Z.of_nat (length (physicalCpus c i)) - 1.

(** [qToCpu], -1 for none. *)
Definition cpuList (c : Config) (i : Info) : list Z := if bool_decide (physicalCpus c i = []) then logicalCpus i else physicalCpus c i.
Definition cpu_off (c : Config) : Z := match c_main c with InPool => 0 | _ => 1 end.
Definition cpu_of (c : Config) (i : Info) (q : Z) : Z :=
  match cpuList c i !! Z.to_nat (q + cpu_off c) with
  | Some cpu => cpu
  | None => if bool_decide (cpuList c i = []) then q + cpu_off c else -1
  end.
Definition qToCpu (cores : Z) (c : Config) (i : Info) : list Z := cpu_of c i <$> seqZ 0 (pool_size cores c i).

(** ** [BuildTopology] *)

Definition qIndexOf (qs : list Z) (cpu : Z) : option Z :=
  if cpu <? 0 then None else match list_find (λ c, c = cpu) qs with Some (q, _) => Some (Z.of_nat q) | None => None end.

(** The workers whose CPUs are in the mask. *)
Definition workers_in (qs : list Z) (m : CpuMask) : list Z := omap (qIndexOf qs) (cpus_of m).

Definition add_siblings (qs : list Z) (s : gmap Z Z) (m : CpuMask) : gmap Z Z :=
  match workers_in qs m with [a; b] => <[b := a]> (<[a := b]> s) | _ => s end.
Definition siblingQIndex (qs : list Z) (i : Info) : gmap Z Z := if haveCores i then foldl (add_siblings qs) ∅ (coreMasks i) else ∅.

Definition is_ecpu (i : Info) (cpu : Z) : Prop := 0 ≤ efficiencyClass i cpu < maxClass i.
Definition ecores (qs : list Z) (i : Info) : gset Z := list_to_set (omap (qIndexOf qs) (filter (is_ecpu i) (seqZ 0 kMaxCpus))).
Definition isPCore (qs : list Z) (i : Info) : gset Z := list_to_set (seqZ 0 (Z.of_nat (length qs))) ∖ ecores qs i.

(** [llcMaskOfWorker]: the largest cache mask the worker's CPU is in, the first of them. *)
Definition llc_step (cpu : Z) (best : Z * CpuMask) (m : CpuMask) : Z * CpuMask :=
  if negb (Test m cpu) then best else if best.1 <? Count m then (Count m, m) else best.
Definition llcMaskOfWorker (qs : list Z) (i : Info) (q : Z) : CpuMask :=
  match qs !! Z.to_nat q with
  | Some cpu => if negb (haveCache i) || (cpu <? 0) || (kMaxCpus <=? cpu) then no_cpus else (foldl (llc_step cpu) (0, no_cpus) (cacheMasks i)).2
  | None => no_cpus
  end.

(** ** [StartPool] *)

Definition epochId (c : Config) (q : Z) : Z := match c_main c with InPool => q | _ => q + 1 end.
Definition worker_isMain (c : Config) (q : Z) : bool := match c_main c with InPool => q =? 0 | _ => false end.
Definition deque_count (cores : Z) (c : Config) (i : Info) : Z := pool_size cores c i + match c_main c with InPool => 0 | _ => 1 end.
Definition nonWorkerLane (cores : Z) (c : Config) (i : Info) : Z := pool_size cores c i.

Definition StartPool (cores : Z) (requested : Config) (i : Info) : pool :=
  let c := resolve_config requested in
  let n := pool_size cores c i in
  let qs := qToCpu cores c i in
  mkPool n (ClampHotWorkersToPool n (c_hot c)) (c_main c) true (c_injector c) true 0 0 0 (0, 0) ∅ ∅ (isPCore qs i) (siblingQIndex qs i) 0 [] ∅ [] 0.

(** ** What the workers may rely on *)

(** No CPU is in two cores: each core's list is the CPUs that share it. *)
Definition cores_ok (ms : list CpuMask) : Prop := ∀ j k m m' c, ms !! j = Some m → ms !! k = Some m' → Test m c = true → Test m' c = true → j = k.

Lemma cpus_of_in m c : c ∈ cpus_of m ↔ 0 ≤ c < kMaxCpus ∧ Test m c = true.
Proof. unfold cpus_of. rewrite list_elem_of_filter, elem_of_seqZ. naive_solver lia. Qed.

Lemma cpus_of_nodup m : NoDup (cpus_of m).
Proof. apply NoDup_filter, NoDup_seqZ. Qed.

Lemma cores_ok_cons m ms : cores_ok (m :: ms) → cores_ok ms ∧ ∀ m' c, m' ∈ ms → Test m c = true → Test m' c = true → False.
Proof.
  intros H. split.
  - intros j k m1 m2 c H1 H2 T1 T2. specialize (H (S j) (S k) m1 m2 c H1 H2 T1 T2). lia.
  - intros m' c [k Hk]%list_elem_of_lookup T1 T2. specialize (H 0%nat (S k) m m' c eq_refl Hk T1 T2). done.
Qed.

Lemma first_in (ms : list CpuMask) x : x ∈ omap (λ m, head (cpus_of m)) ms → ∃ m, m ∈ ms ∧ x ∈ cpus_of m.
Proof. intros (m & Hm & Hx)%list_elem_of_omap. exists m. split; [done|]. destruct (cpus_of m); [done|]. cbn in Hx. injection Hx as ->. set_solver. Qed.

Lemma first_nodup (ms : list CpuMask) : cores_ok ms → NoDup (omap (λ m, head (cpus_of m)) ms).
Proof.
  induction ms as [|m ms IH]; intros H; [constructor|]. apply cores_ok_cons in H as [H1 H2]. cbn. destruct (cpus_of m) as [|x l] eqn:E; cbn; [auto|].
  constructor; [|auto]. intros (m' & Hm' & Hx)%first_in. apply cpus_of_in in Hx as [_ Hx]. apply (H2 m' x Hm'); [|done].
  apply (cpus_of_in m x). rewrite E. set_solver.
Qed.

Lemma small_list (l : list Z) n : NoDup l → (∀ x, x ∈ l → 0 ≤ x < n) → 0 ≤ n → Z.of_nat (length l) ≤ n.
Proof.
  intros Hn Hr H0. assert (Hs : l ⊆+ seqZ 0 n).
  { apply NoDup_submseteq; [done|]. intros x Hx. apply elem_of_seqZ. specialize (Hr x Hx). lia. }
  apply submseteq_length in Hs. rewrite length_seqZ in Hs. lia.
Qed.

Lemma cpuList_ok c i : cores_ok (coreMasks i) → NoDup (cpuList c i) ∧ ∀ x, x ∈ cpuList c i → 0 ≤ x < kMaxCpus.
Proof.
  intros H. unfold cpuList. case_bool_decide as Hp.
  - unfold logicalCpus. destruct (haveCores i); [|split; [constructor|set_solver]]. split; [apply cpus_of_nodup|]. intros x Hx%cpus_of_in. apply Hx.
  - unfold physicalCpus in *. destruct (_ && _); [|done]. split; [by apply first_nodup|]. intros x (m & _ & Hx)%first_in. apply cpus_of_in in Hx. apply Hx.
Qed.

Lemma physical_bound c i : cores_ok (coreMasks i) → physicalCpus c i ≠ [] → 2 ≤ Z.of_nat (length (physicalCpus c i)) ≤ kMaxCpus.
Proof.
  intros H Hp. pose proof (cpuList_ok c i H) as [H1 H2]. unfold cpuList in *. rewrite bool_decide_false in * by done. split; [|apply small_list; [done|done|done]].
  unfold physicalCpus in *. destruct (c_physical c && _) eqn:E; [|done]. apply andb_true_iff in E as [_ E%Z.leb_le]. done.
Qed.

Lemma pool_size_bound cores c i :
  cores_ok (coreMasks i) → 0 ≤ cores ≤ kMaxCpus → 0 ≤ c_workers c → 0 ≤ c_reservedCores c → 1 ≤ pool_size cores c i ≤ kMaxCpus.
Proof.
  intros H Hc Hw Hr. unfold pool_size. case_bool_decide as Hp; [|pose proof (physical_bound c i H Hp); lia].
  assert (Hs : 1 ≤ GetSafeTC cores c).
  { unfold GetSafeTC. destruct (cores <=? 1); [lia|]. destruct (cores <=? _) eqn:E; [lia|]. apply Z.leb_gt in E. lia. }
  assert (Hhw : 1 ≤ (if cores =? 0 then 4 else cores) ≤ kMaxCpus) by (destruct (Z.eqb_spec cores 0); [done|lia]).
  set (hw := if cores =? 0 then 4 else cores) in *. destruct (Z.eqb_spec (c_workers c) 0) as [E|E]; destruct (Z.ltb_spec hw (GetSafeTC cores c)), (Z.ltb_spec hw (c_workers c)); lia.
Qed.

(** No two workers are given the same CPU. *)
Lemma cpu_of_inj c i a b : cores_ok (coreMasks i) → 0 ≤ a → 0 ≤ b → cpu_of c i a = cpu_of c i b → 0 ≤ cpu_of c i a → a = b.
Proof.
  intros H Ha Hb. destruct (cpuList_ok c i H) as [Hn _]. unfold cpu_of. assert (Ho : 0 ≤ cpu_off c) by (unfold cpu_off; destruct (c_main c); lia).
  destruct (bool_decide_reflect (cpuList c i = [])) as [E|E].
  - rewrite E, !lookup_nil. lia.
  - destruct (cpuList c i !! Z.to_nat (a + cpu_off c)) as [x|] eqn:Ea; [|lia]. destruct (cpuList c i !! Z.to_nat (b + cpu_off c)) as [y|] eqn:Eb; [|lia].
    intros -> _. pose proof (proj1 (NoDup_alt _) Hn _ _ _ Ea Eb). lia.
Qed.

Definition distinct_cpus (qs : list Z) : Prop := ∀ a b cpu, 0 ≤ cpu → qs !! a = Some cpu → qs !! b = Some cpu → a = b.

Lemma qToCpu_distinct cores c i : cores_ok (coreMasks i) → distinct_cpus (qToCpu cores c i).
Proof.
  intros H a b cpu H0 Ha Hb. unfold qToCpu in *. rewrite list_lookup_fmap in Ha, Hb.
  apply fmap_Some in Ha as (x & [Ex Hx]%lookup_seqZ & Ha). apply fmap_Some in Hb as (y & [Ey Hy]%lookup_seqZ & Hb). subst.
  assert (0 + Z.of_nat a = 0 + Z.of_nat b); [|lia]. apply (cpu_of_inj c i); [done|lia|lia|congruence|lia].
Qed.

(** ** Siblings *)

Lemma qIndexOf_spec qs cpu q : qIndexOf qs cpu = Some q → 0 ≤ cpu ∧ 0 ≤ q < Z.of_nat (length qs) ∧ qs !! Z.to_nat q = Some cpu.
Proof.
  unfold qIndexOf. destruct (cpu <? 0) eqn:E; [done|]. apply Z.ltb_ge in E. destruct (list_find _ qs) as [[k x]|] eqn:Ef; [|done]. intros [= <-].
  apply list_find_Some in Ef as (Hk & -> & _). rewrite Nat2Z.id. apply lookup_lt_Some in Hk as Hl. split_and!; [done|lia|lia|done].
Qed.

Lemma workers_in_spec qs m q : q ∈ workers_in qs m → ∃ cpu, Test m cpu = true ∧ qs !! Z.to_nat q = Some cpu ∧ 0 ≤ q < Z.of_nat (length qs).
Proof. intros (cpu & Hc & Hq)%list_elem_of_omap. apply cpus_of_in in Hc as [_ Hc]. apply qIndexOf_spec in Hq as (_ & Hq & Hl). eauto. Qed.

Lemma workers_in_nodup qs m : NoDup (workers_in qs m).
Proof.
  unfold workers_in. assert (H : ∀ l, NoDup l → NoDup (omap (qIndexOf qs) l)); [|apply H, cpus_of_nodup].
  induction 1 as [|x l Hx Hl IH]; [constructor|]. cbn. destruct (qIndexOf qs x) as [q|] eqn:E; [|done]. constructor; [|done].
  intros (y & Hy & Ey)%list_elem_of_omap. apply qIndexOf_spec in E as (_ & _ & E), Ey as (_ & _ & Ey). rewrite E in Ey. injection Ey as ->. done.
Qed.

(** A pairing of workers: symmetric, of two different ones, in range. *)
Definition paired (n : Z) (s : gmap Z Z) : Prop := ∀ a b, s !! a = Some b → s !! b = Some a ∧ a ≠ b ∧ 0 ≤ a < n.

Lemma add_siblings_paired qs s m :
  paired (Z.of_nat (length qs)) s → (∀ q, q ∈ workers_in qs m → s !! q = None) →
  paired (Z.of_nat (length qs)) (add_siblings qs s m) ∧ ∀ q, is_Some (add_siblings qs s m !! q) → is_Some (s !! q) ∨ q ∈ workers_in qs m.
Proof.
  intros Hp Hf. unfold add_siblings. pose proof (workers_in_nodup qs m) as Hn. pose proof (workers_in_spec qs m) as Hw.
  destruct (workers_in qs m) as [|a [|b [|]]]; try (split; [done|auto]).
  assert (Hab : a ≠ b) by (apply NoDup_cons in Hn as [Hn _]; set_solver).
  assert (Fa : s !! a = None) by (apply Hf; set_solver). assert (Fb : s !! b = None) by (apply Hf; set_solver).
  assert (Ra : 0 ≤ a < Z.of_nat (length qs)) by (destruct (Hw a) as (? & _ & _ & ?); [set_solver|done]).
  assert (Rb : 0 ≤ b < Z.of_nat (length qs)) by (destruct (Hw b) as (? & _ & _ & ?); [set_solver|done]).
  split.
  - intros x y. rewrite !lookup_insert_Some. intros [[<- <-]|[Hx [[<- <-]|[Hy Hs]]]]; [split_and!; [right; auto|congruence|lia|lia]|split_and!; [left; auto|congruence|lia|lia]|].
    destruct (Hp x y Hs) as (Hys & ? & ?). split; [|done]. right. split; [congruence|]. right. split; [congruence|done].
  - intros q [y Hy]. rewrite !lookup_insert_Some in Hy. destruct Hy as [[<- _]|[_ [[<- _]|[_ Hs]]]]; [set_solver|set_solver|eauto].
Qed.

Lemma siblings_paired qs i : cores_ok (coreMasks i) → paired (Z.of_nat (length qs)) (siblingQIndex qs i).
Proof.
  intros H. unfold siblingQIndex. destruct (haveCores i); [|intros a b; by rewrite lookup_empty].
  assert (G : ∀ ms s, cores_ok ms → paired (Z.of_nat (length qs)) s → (∀ m q, m ∈ ms → q ∈ workers_in qs m → s !! q = None) → paired (Z.of_nat (length qs)) (foldl (add_siblings qs) s ms)).
  { induction ms as [|m ms IH]; intros s Hc Hp Hf; [done|]. cbn [foldl]. apply cores_ok_cons in Hc as [Hc Hd].
    destruct (add_siblings_paired qs s m Hp ltac:(intros q; apply Hf; set_solver)) as [Hp' Hn]. apply IH; [done|done|].
    intros m' q Hm' Hq. apply eq_None_not_Some. intros [Hs|Hs]%Hn; [rewrite (Hf m' q) in Hs by set_solver; by destruct Hs|].
    apply workers_in_spec in Hq as (c1 & T1 & E1 & _), Hs as (c2 & T2 & E2 & _). rewrite E1 in E2. injection E2 as ->. by apply (Hd m' c2). }
  apply G; [done|intros a b; by rewrite lookup_empty|done].
Qed.

(** ** The pool that is started *)

(** The pool is started as the rest of the scheduler assumes it.  On a machine of at most
    256 CPUs, whatever the configuration: there is at least one worker and fewer are reserved
    than there are, no two workers are given the same CPU, and neither is given main's when
    main is out of the pool; core siblings name each other and two different workers of the
    pool; every worker has an epoch slot of its own, and slot 0 is main's. *)
Theorem pool_starts_ok cores req i :
  cores_ok (coreMasks i) → 0 ≤ cores ≤ kMaxCpus → 0 ≤ c_workers req → 0 ≤ c_hot req → 0 ≤ c_reservedCores req →
  let c := resolve_config req in let p := StartPool cores req i in let qs := qToCpu cores c i in
  pool_ok p ∧ pl_hot p ≤ kMaxReservedWorkers ∧ Z.of_nat (length qs) = pl_n p ∧ distinct_cpus qs ∧
  (c_main c = OutOfPool → ∀ a x, head (cpuList c i) = Some x → qs !! a ≠ Some x) ∧
  (∀ a b, pl_sibling p !! a = Some b → pl_sibling p !! b = Some a ∧ a ≠ b ∧ 0 ≤ a < pl_n p ∧ 0 ≤ b < pl_n p) ∧
  (∀ a b, epochId c a = epochId c b → a = b) ∧ (∀ a, 0 ≤ a → epochId c a = 0 → worker_isMain c a = true).
Proof.
  intros Hm Hc Hw Hh Hr c p qs. assert (Hn := pool_size_bound cores c i Hm Hc Hw Hr).
  assert (Hk : 0 ≤ pl_hot p < pl_n p ∧ pl_hot p ≤ kMaxReservedWorkers).
  { cbn. unfold ClampHotWorkersToPool, kMaxReservedWorkers. rewrite (proj2 (Z.eqb_neq _ 0)) by (unfold c in Hn; lia).
    destruct (Z.ltb_spec 2 (c_hot req)), (Z.leb_spec (pool_size cores (resolve_config req) i) 2), (Z.leb_spec (pool_size cores (resolve_config req) i) (c_hot req)); unfold c in *; lia. }
  assert (Hl : Z.of_nat (length qs) = pl_n p) by (unfold qs, qToCpu; rewrite length_fmap, length_seqZ; cbn; unfold c in *; lia).
  assert (Hp : paired (pl_n p) (pl_sibling p)) by (rewrite <- Hl; by apply siblings_paired).
  split_and!; [|apply Hk|done|by apply qToCpu_distinct| | | |].
  - constructor; [cbn; unfold c in *; lia|cbn; unfold c, kMaxCpus, kWords in *; lia|apply Hk| |done|cbn; set_solver].
    cbn. destruct (c_main req); [done|done|by destruct (c_mode req)].
  - intros Ho a x Hx Ha. unfold qs, qToCpu in Ha. rewrite list_lookup_fmap in Ha. apply fmap_Some in Ha as (y & [Ey _]%lookup_seqZ & Ex).
    destruct (cpuList_ok c i Hm) as [Hnd Hrange]. unfold cpu_of, cpu_off in Ex. rewrite Ho in Ex. destruct (cpuList c i) as [|z l] eqn:E; [done|]. injection Hx as ->.
    destruct ((x :: l) !! Z.to_nat (y + 1)) as [v|] eqn:Ev; [|rewrite bool_decide_false in Ex by done; specialize (Hrange x ltac:(set_solver)); lia].
    subst v. assert (Z.to_nat (y + 1) = 0%nat) by (apply (proj1 (NoDup_alt _) Hnd _ 0%nat x Ev); done). lia.
  - intros a b Hab. destruct (Hp a b Hab) as (Hba & ? & ?). destruct (Hp b a Hba) as (_ & _ & ?). done.
  - intros a b. unfold epochId. destruct (c_main c); lia.
  - intros a Ha. unfold epochId, worker_isMain. destruct (c_main c); [lia| |lia]. intros ->. done.
Qed.

(** Eight CPUs on four cores, two of them slow. *)
Definition four_cores : Info := mkInfo [[3; 0; 0; 0]; [12; 0; 0; 0]; [48; 0; 0; 0]; [192; 0; 0; 0]] [[15; 0; 0; 0]; [240; 0; 0; 0]] (λ c, if c <? 6 then 1 else 0) 1.
Definition plain_config : Config := mkConfig Migrate DefaultMain 0 1 true 0 false true.

Lemma pool_starts_ok_witness :
  cores_ok (coreMasks four_cores) ∧ pool_ok (StartPool 8 plain_config four_cores) ∧ pl_n (StartPool 8 plain_config four_cores) = 6 ∧
  pl_hot (StartPool 8 plain_config four_cores) = 1 ∧ pl_sibling (StartPool 8 plain_config four_cores) !! 2 = Some 3.
Proof.
  assert (H : cores_ok (coreMasks four_cores)).
  { assert (D : ∀ a b : CpuMask, mask_ok a → mask_ok b → zip_with Z.land a b = [0; 0; 0; 0] → ∀ c, Test a c = true → Test b c = true → False).
    { intros a b [Ha _] [Hb _] Hz c Ta Tb. unfold Test in Ta, Tb. apply andb_true_iff in Ta as [_ Ta], Tb as [_ Tb].
      assert (H63 : 0 ≤ Z.land c 63) by (rewrite Topology.cpu_low_bits; apply Z.mod_pos_bound; lia). rewrite Topology.testbit_land1 in Ta, Tb by done.
      destruct (a !! Topology.word_of c) as [x|] eqn:Ex; cbn in Ta; [|by rewrite Z.bits_0 in Ta]. destruct (b !! Topology.word_of c) as [y|] eqn:Ey; cbn in Tb; [|by rewrite Z.bits_0 in Tb].
      assert (E : zip_with Z.land a b !! Topology.word_of c = Some (Z.land x y)) by (apply lookup_zip_with_Some; eauto). rewrite Hz in E.
      assert (Z.land x y = 0) as E0 by (apply list_elem_of_lookup_2 in E; repeat (apply elem_of_cons in E as [E|E]; [exact E|]); by apply elem_of_nil in E).
      assert (Eb : Z.testbit (Z.land x y) (Z.land c 63) = true) by (rewrite Z.land_spec, Ta, Tb; done). by rewrite E0, Z.bits_0 in Eb. }
    assert (O : ∀ j m, coreMasks four_cores !! j = Some m → mask_ok m).
    { intros j m Hj. apply list_elem_of_lookup_2 in Hj. cbn in Hj. repeat (apply elem_of_cons in Hj as [->|Hj]; [split; [reflexivity|repeat constructor; lia]|]). by apply elem_of_nil in Hj. }
    intros j k m m' c Hj Hk T T'. pose proof (O j m Hj) as Om. pose proof (O k m' Hk) as Om'. pose proof (λ Z, D m m' Om Om' Z c T T') as DD.
    destruct j as [|[|[|[|j]]]], k as [|[|[|[|k]]]]; try reflexivity; try discriminate; injection Hj as <-; injection Hk as <-; exfalso; apply DD; reflexivity. }
  destruct (pool_starts_ok 8 plain_config four_cores) as (Hok & _); [exact H|unfold kMaxCpus, kWords; lia|cbn; lia|cbn; lia|cbn; lia|].
  split_and!; [exact H|exact Hok|reflexivity|reflexivity|vm_compute; reflexivity].
Defined.
