(* ===== verification/DirectEvents.v ===== *)
(** * Direct events (include/DirectEvent.h, src/TaskScheduler.cpp)

    Events with one waiter and one signal, taken from a pool that grows and given back after
    the wait.  Any number of tasks wait and any number of sources signal, one atomic operation
    per step.  The vendored queue of free events is a list from which a dequeue may fail even
    when it is not empty, as its documentation allows; the lock around a growth makes the
    growth one step.  The suspension of the waiter is what [FiberModel] shows: here a wake
    before the waiter has switched out is a wake it does not lose. *)

From S2P Require Import Prelude.

Definition kBlock : nat := 256.

(** A task in [WaitOnEventDirectArmed]: outside; looking for an event, having missed some
    times; with the event, about to clear its word; about to store itself; about to arm;
    armed, waiting for the signal; woken, about to give the event back. *)
Inductive dpc :=
| DOut | DSeek (misses : Z) | DReset (e : Z) | DStore (e : Z) | DArm (e : Z) | DWait (e : Z) | DBack (e : Z).

(** [de_waiter] is the word of each event, 0 for no waiter; [de_free] the queue; [de_made] how
    many events the blocks hold; [de_armed] the signals owed, one for each arm; [de_woken] the
    tasks woken and not yet back. *)
Record devents := mkDE {
  de_waiter : gmap Z Z; de_free : list Z; de_made : Z; de_armed : list Z; de_woken : list Z; de_pcs : gmap nat dpc }.

Definition d_waiter (m : gmap Z Z) (s : devents) : devents := mkDE m (de_free s) (de_made s) (de_armed s) (de_woken s) (de_pcs s).
Definition d_pc (i : nat) (p : dpc) (s : devents) : devents := mkDE (de_waiter s) (de_free s) (de_made s) (de_armed s) (de_woken s) (<[i := p]> (de_pcs s)).
Definition d_free (l : list Z) (s : devents) : devents := mkDE (de_waiter s) l (de_made s) (de_armed s) (de_woken s) (de_pcs s).
Definition d_armed (l : list Z) (s : devents) : devents := mkDE (de_waiter s) (de_free s) (de_made s) l (de_woken s) (de_pcs s).
Definition d_woken (l : list Z) (s : devents) : devents := mkDE (de_waiter s) (de_free s) (de_made s) (de_armed s) l (de_pcs s).

(** Tasks are numbered from 1 in the words. *)
Definition task_id (i : nat) : Z := Z.of_nat i + 1.

(** [AddBlock(n)]: the events are numbered in the order they are made. *)
Definition AddBlock (n : nat) (s : devents) : devents :=
  mkDE (de_waiter s) (de_free s ++ seqZ (de_made s) (Z.of_nat n)) (de_made s + Z.of_nat n) (de_armed s) (de_woken s) (de_pcs s).

(** [misses >= 3 || size_approx() == 0]; the estimate may be anything while others dequeue. *)
Definition grows (misses : Z) (approx_empty : bool) : bool := (3 <=? misses) || approx_empty.

Inductive de_step (s : devents) : devents → Prop :=
| de_call i : de_pcs s !! i = Some DOut → de_step s (d_pc i (DSeek 0) s)
| de_take i k e l1 l2 : de_pcs s !! i = Some (DSeek k) → de_free s = l1 ++ e :: l2 → de_step s (d_pc i (DReset e) (d_free (l1 ++ l2) s))
| de_miss i k b : de_pcs s !! i = Some (DSeek k) →
    de_step s (if grows k b then d_pc i (DSeek 1) (AddBlock kBlock s) else d_pc i (DSeek (k + 1)) s)
| de_reset i e : de_pcs s !! i = Some (DReset e) → de_step s (d_pc i (DStore e) (d_waiter (<[e := 0]> (de_waiter s)) s))
| de_store i e : de_pcs s !! i = Some (DStore e) → de_step s (d_pc i (DArm e) (d_waiter (<[e := task_id i]> (de_waiter s)) s))
| de_arm i e : de_pcs s !! i = Some (DArm e) → de_step s (d_pc i (DWait e) (d_armed (e :: de_armed s) s))
(* a source: the exchange of [Signal], which wakes the task it finds *)
| de_signal e l1 l2 : de_armed s = l1 ++ e :: l2 →
    de_step s (d_woken (if default 0 (de_waiter s !! e) =? 0 then de_woken s else default 0 (de_waiter s !! e) :: de_woken s)
                 (d_waiter (<[e := 0]> (de_waiter s)) (d_armed (l1 ++ l2) s)))
| de_resume i e l1 l2 : de_pcs s !! i = Some (DWait e) → de_woken s = l1 ++ task_id i :: l2 → de_step s (d_pc i (DBack e) (d_woken (l1 ++ l2) s))
| de_release i e : de_pcs s !! i = Some (DBack e) → de_step s (d_pc i DOut (d_free (de_free s ++ [e]) s)).

(** [EventPool(n)]. *)
Definition de_init (s : devents) : Prop :=
  ∃ n, s = mkDE ∅ (seqZ 0 (Z.of_nat n)) (Z.of_nat n) [] [] (de_pcs s) ∧ ∀ i p, de_pcs s !! i = Some p → p = DOut.

(** ** The invariant *)

(** The event a task has in hand. *)
Definition in_use (p : dpc) : list Z := match p with DReset e | DStore e | DArm e | DWait e | DBack e => [e] | _ => [] end.

(** Every event is free or in one task's hands; the word of a task's event is as the point it is at
    says; a signal is owed, or the wake is there, for a task that waits. *)
Record de_inv (s : devents) : Prop := {
  di_once : NoDup (de_free s ++ gather in_use (de_pcs s));
  di_made e : e ∈ de_free s ++ gather in_use (de_pcs s) ↔ 0 ≤ e < de_made s;
  di_pos : 0 ≤ de_made s;
  di_store i e : de_pcs s !! i = Some (DArm e) → de_waiter s !! e = Some (task_id i);
  di_wait i e : de_pcs s !! i = Some (DWait e) → (e ∈ de_armed s ∧ de_waiter s !! e = Some (task_id i)) ∨ task_id i ∈ de_woken s;
  di_armed : NoDup (de_armed s) ∧ ∀ e, e ∈ de_armed s → ∃ i, de_pcs s !! i = Some (DWait e) ∧ task_id i ∉ de_woken s;
  di_woken : NoDup (de_woken s) ∧ ∀ t, t ∈ de_woken s → ∃ i e, t = task_id i ∧ de_pcs s !! i = Some (DWait e) }.

Lemma gather_nodup_inj {A B} (f : A → list B) (m : gmap nat A) i j p q x :
  NoDup (gather f m) → m !! i = Some p → m !! j = Some q → x ∈ f p → x ∈ f q → i = j.
Proof.
  intros Hn Hi Hj Hp Hq. destruct (decide (i = j)) as [|Hne]; [done|]. rewrite (gather_delete f m i p Hi) in Hn.
  apply NoDup_app in Hn as (_ & Hd & _). exfalso. apply (Hd x Hp). apply elem_of_gather. exists j, q. by rewrite lookup_delete_ne.
Qed.

(** An event is in the hands of one task. *)
Lemma own_unique s i j p q e : de_inv s → de_pcs s !! i = Some p → de_pcs s !! j = Some q → e ∈ in_use p → e ∈ in_use q → i = j.
Proof. intros I. pose proof (di_once _ I) as H. apply NoDup_app in H as (_ & _ & H). by apply gather_nodup_inj. Qed.

Lemma task_id_inj i j : task_id i = task_id j → i = j.
Proof. unfold task_id. lia. Qed.

(** The events after a step of one task: how its own and the free ones changed. *)
Lemma de_conserve s s' i p q l : de_inv s → de_pcs s !! i = Some p → de_pcs s' = <[i := q]> (de_pcs s) → de_made s' = de_made s →
  de_free s' ++ in_use q ≡ₚ de_free s ++ in_use p → l = de_free s' ++ gather in_use (de_pcs s') →
  l ≡ₚ de_free s ++ gather in_use (de_pcs s).
Proof.
  intros I Hp Hpc Hm Hl ->. rewrite Hpc, gather_insert, (gather_delete in_use _ _ _ Hp), !app_assoc. by rewrite Hl.
Qed.

Lemma pcs_move (P : Prop) (m : gmap nat dpc) i j q x : <[i := q]> m !! j = Some x → (j = i → x = q → P) → (j ≠ i → m !! j = Some x → P) → P.
Proof. intros [[<- <-]|[Hn Hm]]%lookup_insert_Some; auto. Qed.

(** A task moves between points at which no signal is owed to it. *)
Lemma de_quiet s i p q w l :
  de_inv s → de_pcs s !! i = Some p → (∀ e, p ≠ DWait e) → (∀ e, q ≠ DWait e) → (∀ e, q = DArm e → w !! e = Some (task_id i)) → l ++ in_use q ≡ₚ de_free s ++ in_use p →
  (∀ e, w !! e ≠ de_waiter s !! e → e ∈ in_use p) →
  de_inv (mkDE w l (de_made s) (de_armed s) (de_woken s) (<[i := q]> (de_pcs s))).
Proof.
  intros I Hp Hnw Hq Hq' Hl Hw. pose proof (de_conserve s (mkDE w l (de_made s) (de_armed s) (de_woken s) (<[i := q]> (de_pcs s))) i p q _ I Hp eq_refl eq_refl Hl eq_refl) as Hc.
  assert (Hsame : ∀ j x e, j ≠ i → de_pcs s !! j = Some x → e ∈ in_use x → w !! e = de_waiter s !! e).
  { intros j x e Hj Hx He. destruct (decide (w !! e = de_waiter s !! e)) as [|Hne]; [done|]. exfalso. apply Hj. by apply (own_unique s j i x p e I Hx Hp He (Hw e Hne)). }
  assert (Hkeep : ∀ j e, de_pcs s !! j = Some (DWait e) → <[i := q]> (de_pcs s) !! j = Some (DWait e)).
  { intros j e Hj. rewrite lookup_insert_ne; [done|]. intros ->. rewrite Hp in Hj. injection Hj as ->. by apply (Hnw e). }
  destruct I as [I1 I2 I3 I4 I5 [I6 I7] [I8 I9]] eqn:EI. clear EI. constructor; cbn [de_free de_pcs de_waiter de_made de_armed de_woken] in *.
  - by rewrite Hc.
  - intros e. rewrite Hc. apply I2.
  - done.
  - intros j e Hj. apply (pcs_move _ _ _ _ _ _ Hj); [intros -> <-; by apply Hq'|]. intros Hne Hj'. rewrite (Hsame j _ e Hne Hj') by set_solver. by apply I4.
  - intros j e Hj. apply (pcs_move _ _ _ _ _ _ Hj); [intros _ <-; by destruct (Hq e)|]. intros Hne Hj'. rewrite (Hsame j _ e Hne Hj') by set_solver. by apply I5.
  - split; [done|]. intros e (j & Hj & Ht)%I7. exists j. auto.
  - split; [done|]. intros t (j & e & -> & Hj)%I9. exists j, e. auto.
Qed.

Lemma de_inv_arm s i e : de_inv s → de_pcs s !! i = Some (DArm e) → de_inv (d_pc i (DWait e) (d_armed (e :: de_armed s) s)).
Proof.
  intros I Hi. pose proof (gather_move in_use (de_pcs s) i (DArm e) (DWait e) Hi eq_refl) as G.
  assert (Hown : ∀ j, de_pcs s !! j = Some (DWait e) → False).
  { intros j Hj. assert (j = i) as -> by (apply (own_unique s j i _ _ e I Hj Hi); set_solver). by rewrite Hi in Hj. }
  assert (Hkeep : ∀ j x, de_pcs s !! j = Some (DWait x) → <[i := DWait e]> (de_pcs s) !! j = Some (DWait x)).
  { intros j x Hj. rewrite lookup_insert_ne; [done|]. intros ->. by rewrite Hi in Hj. }
  destruct I as [I1 I2 I3 I4 I5 [I6 I7] [I8 I9]]. constructor; cbn.
  - by rewrite G.
  - intros x. by rewrite G.
  - done.
  - intros j x Hj. apply (pcs_move _ _ _ _ _ _ Hj); [done|]. intros _. apply I4.
  - intros j x Hj. apply (pcs_move _ _ _ _ _ _ Hj).
    + intros -> [= ->]. left. split; [set_solver|]. by apply I4.
    + intros _ [[? ?]|?]%I5; [left; split; [set_solver|done]|by right].
  - split; [constructor; [intros (j & Hj & _)%I7; by apply (Hown j)|done]|]. intros x [->|(j & Hj & Ht)%I7]%elem_of_cons; [|exists j; auto].
    exists i. split; [apply lookup_insert_eq|]. intros (j & x & Et & Hj)%I9. apply task_id_inj in Et as <-. by rewrite Hi in Hj.
  - split; [done|]. intros t (j & x & -> & Hj)%I9. exists j, x. auto.
Qed.

Lemma de_inv_signal s e l1 l2 : de_inv s → de_armed s = l1 ++ e :: l2 →
  de_inv (d_woken (if default 0 (de_waiter s !! e) =? 0 then de_woken s else default 0 (de_waiter s !! e) :: de_woken s)
            (d_waiter (<[e := 0]> (de_waiter s)) (d_armed (l1 ++ l2) s))).
Proof.
  intros I Ha. pose proof I as [I1 I2 I3 I4 I5 [I6 I7] [I8 I9]]. destruct (I7 e) as (i & Hi & Ht); [rewrite Ha; set_solver|].
  destruct (I5 i e Hi) as [[_ Hw]|?]; [|done]. rewrite Hw. change (default 0 (Some (task_id i))) with (task_id i). rewrite (proj2 (Z.eqb_neq (task_id i) 0)) by (unfold task_id; lia).
  assert (Hn : e ∉ l1 ++ l2 ∧ NoDup (l1 ++ l2)). { assert (P : e :: (l1 ++ l2) ≡ₚ de_armed s) by (rewrite Ha; solve_Permutation). rewrite <- P in I6. by apply NoDup_cons in I6. }
  assert (Hother : ∀ j x p, de_pcs s !! j = Some p → x ∈ in_use p → j ≠ i → x ≠ e).
  { intros j x p Hj Hx Hne ->. apply Hne. apply (own_unique s j i p _ e I Hj Hi Hx). set_solver. }
  constructor; cbn; [done|done|done| | | |].
  - intros j x Hj. rewrite lookup_insert_ne; [by apply I4|]. intros <-. apply (Hother j e (DArm e)); [done|set_solver| |done]. intros ->. by rewrite Hi in Hj.
  - intros j x Hj. destruct (decide (j = i)) as [->|Hne]; [right; set_solver|]. pose proof (Hother j x _ Hj ltac:(set_solver) Hne) as Hx.
    destruct (I5 j x Hj) as [[H1 H2]|H]; [left|right; set_solver]. rewrite Ha in H1. split; [set_solver|]. by rewrite lookup_insert_ne.
  - split; [apply Hn|]. intros x Hx. destruct (I7 x) as (j & Hj & Htj); [rewrite Ha; set_solver|]. exists j. split; [done|].
    intros [E|?]%elem_of_cons; [|done]. apply task_id_inj in E as ->. rewrite Hi in Hj. injection Hj as ->. by apply (proj1 Hn).
  - split; [by constructor|]. intros t [->|Hin]%elem_of_cons; [by exists i, e|by apply I9].
Qed.

Lemma de_inv_resume s i e l1 l2 : de_inv s → de_pcs s !! i = Some (DWait e) → de_woken s = l1 ++ task_id i :: l2 → de_inv (d_pc i (DBack e) (d_woken (l1 ++ l2) s)).
Proof.
  intros I Hi Hw. pose proof (gather_move in_use (de_pcs s) i (DWait e) (DBack e) Hi eq_refl) as G. pose proof I as [I1 I2 I3 I4 I5 [I6 I7] [I8 I9]].
  assert (Hn : task_id i ∉ l1 ++ l2 ∧ NoDup (l1 ++ l2)). { assert (P : task_id i :: (l1 ++ l2) ≡ₚ de_woken s) by (rewrite Hw; solve_Permutation). rewrite <- P in I8. by apply NoDup_cons in I8. }
  constructor; cbn.
  - by rewrite G.
  - intros x. by rewrite G.
  - done.
  - intros j x Hj. apply (pcs_move _ _ _ _ _ _ Hj); [done|]. intros _. apply I4.
  - intros j x Hj. apply (pcs_move _ _ _ _ _ _ Hj); [done|]. intros Hne [?|H]%I5; [by left|right]. rewrite Hw in H.
    assert (task_id j ≠ task_id i) by (intros E; by apply task_id_inj in E). set_solver.
  - split; [done|]. intros x Hx. destruct (I7 x Hx) as (j & Hj & Ht). exists j. assert (j ≠ i) by (intros ->; apply Ht; rewrite Hw; set_solver).
    split; [by rewrite lookup_insert_ne|]. rewrite Hw in Ht. set_solver.
  - split; [apply Hn|]. intros t Ht. destruct (I9 t) as (j & x & -> & Hj); [rewrite Hw; set_solver|]. exists j, x. split; [done|].
    rewrite lookup_insert_ne; [done|]. intros ->. by apply (proj1 Hn).
Qed.

Lemma de_inv_step s s' : de_inv s → de_step s s' → de_inv s'.
Proof.
  intros I Hs. destruct Hs as [i Hi|i k e l1 l2 Hi Hf|i k b Hi|i e Hi|i e Hi|i e Hi|e l1 l2 Ha|i e l1 l2 Hi Hw|i e Hi].
  - by apply (de_quiet s i DOut (DSeek 0) (de_waiter s) (de_free s)).
  - apply (de_quiet s i (DSeek k) (DReset e) (de_waiter s) (l1 ++ l2)); try done. rewrite Hf. cbn. solve_Permutation.
  - destruct (grows k b).
    + assert (G := gather_move in_use (de_pcs s) i _ (DSeek 1) Hi eq_refl). destruct I as [I1 I2 I3 I4 I5 [I6 I7] [I8 I9]].
      constructor; cbn [d_pc AddBlock de_free de_pcs de_waiter de_made de_armed de_woken].
      * rewrite G, <- app_assoc, (Permutation_app_comm (seqZ _ _)), app_assoc. apply NoDup_app. split_and!; [done| |apply NoDup_seqZ].
        intros x Hx Hin%elem_of_seqZ. apply I2 in Hx. lia.
      * intros e. rewrite G, <- app_assoc, (Permutation_app_comm (seqZ _ _)), app_assoc, elem_of_app, I2, elem_of_seqZ. lia.
      * lia.
      * intros j e Hj. apply (pcs_move _ _ _ _ _ _ Hj); [done|]. intros _. apply I4.
      * intros j e Hj. apply (pcs_move _ _ _ _ _ _ Hj); [done|]. intros _. apply I5.
      * split; [done|]. intros e (j & Hj & Ht)%I7. exists j. split; [|done]. rewrite lookup_insert_ne; [done|]. intros ->. by rewrite Hi in Hj.
      * split; [done|]. intros t (j & e & -> & Hj)%I9. exists j, e. split; [done|]. rewrite lookup_insert_ne; [done|]. intros ->. by rewrite Hi in Hj.
    + by apply (de_quiet s i (DSeek k) (DSeek (k + 1)) (de_waiter s) (de_free s)).
  - apply (de_quiet s i (DReset e) (DStore e) (<[e := 0]> (de_waiter s)) (de_free s)); try done. intros x Hx. destruct (decide (x = e)) as [->|Hne]; [set_solver|]. by rewrite lookup_insert_ne in Hx.
  - apply (de_quiet s i (DStore e) (DArm e) (<[e := task_id i]> (de_waiter s)) (de_free s)); try done.
    + intros x [= <-]. apply lookup_insert_eq.
    + intros x Hx. destruct (decide (x = e)) as [->|Hne]; [set_solver|]. by rewrite lookup_insert_ne in Hx.
  - by apply de_inv_arm.
  - by apply (de_inv_signal s e l1 l2).
  - by apply (de_inv_resume s i e l1 l2).
  - by apply (de_quiet s i (DBack e) DOut (de_waiter s) (de_free s ++ [e])); try done; rewrite app_nil_r.
Qed.

Lemma de_inv_init s : de_init s → de_inv s.
Proof.
  intros (n & -> & Hi). cbn in Hi. assert (G : gather in_use (de_pcs s) = []) by (apply gather_none; intros i p Hp; by rewrite (Hi i p Hp)).
  constructor; cbn; rewrite ?G, ?app_nil_r.
  - apply NoDup_seqZ.
  - intros e. rewrite elem_of_seqZ. lia.
  - lia.
  - intros i e He. by apply Hi in He.
  - intros i e He. by apply Hi in He.
  - split; [constructor|set_solver].
  - split; [constructor|set_solver].
Qed.

(** A direct event wakes the task that waits on it, once, and is not shared.  However tasks
    and sources interleave and however often the queue of free events fails: no event is
    handed to two tasks or both free and in use, and none is lost; a task that waits has its
    signal still owed and its name in the event's word, or its wake is there; a signal owed
    belongs to a task that waits for it, and no task is woken twice for one wait. *)
Theorem direct_event_once s :
  reachable de_init de_step s →
  NoDup (de_free s ++ gather in_use (de_pcs s)) ∧ (∀ e, e ∈ de_free s ++ gather in_use (de_pcs s) ↔ 0 ≤ e < de_made s) ∧
  (∀ i e, de_pcs s !! i = Some (DWait e) → (e ∈ de_armed s ∧ de_waiter s !! e = Some (task_id i)) ∨ task_id i ∈ de_woken s) ∧
  (∀ e, e ∈ de_armed s → ∃ i, de_pcs s !! i = Some (DWait e) ∧ task_id i ∉ de_woken s) ∧ NoDup (de_armed s) ∧ NoDup (de_woken s).
Proof.
  intros Hr. assert (I : de_inv s) by by apply (reachable_ind _ _ de_inv de_inv_init de_inv_step). destruct I as [I1 I2 I3 I4 I5 [I6 I7] [I8 I9]]. by split_and!.
Qed.

(** A task takes event 0, arms it and is signalled. *)
Definition de_start : devents := mkDE ∅ (seqZ 0 2) 2 [] [] {[0%nat := DOut; 1%nat := DOut]}.
Definition de_end : devents := mkDE {[0 := 0]} [1] 2 [] [1] {[0%nat := DWait 0; 1%nat := DOut]}.

Lemma direct_event_once_witness : reachable de_init de_step de_end ∧ NoDup (de_free de_end ++ gather in_use (de_pcs de_end)).
Proof.
  assert (Hr : reachable de_init de_step de_end).
  { exists de_start. split.
    - exists 2%nat. split; [reflexivity|]. cbn. intros i p [[_ <-]|[_ [<- <-]%lookup_singleton_Some]]%lookup_insert_Some; reflexivity.
    - eapply rtc_l; [apply (de_call _ 0%nat); reflexivity|]. eapply rtc_l; [apply (de_take _ 0%nat 0 0 [] [1]); reflexivity|].
      eapply rtc_l; [apply (de_reset _ 0%nat 0); reflexivity|]. eapply rtc_l; [apply (de_store _ 0%nat 0); reflexivity|].
      eapply rtc_l; [apply (de_arm _ 0%nat 0); reflexivity|]. eapply rtc_l; [apply (de_signal _ 0 [] []); reflexivity|].
      eval_state. let y := eval vm_compute in de_end in change de_end with y. apply rtc_refl. }
  split; [exact Hr|]. apply (direct_event_once de_end Hr).
Defined.
