(* ===== verification/EdgeArena.v ===== *)
(** * The edge arena of a task graph (include/TaskDAG.h, src/TaskDAG.cpp)

    Graph builders on any number of threads take edges from blocks: a worker from the block of
    its own slot, every other thread from the block of the last slot.  A thread that finds no
    block, or a full one, takes a fresh one, chains it for the destructor and then tries to
    install it.  Every atomic access is a step.  Blocks are at the addresses the allocator
    returned, which do not overlap; [TaskDag.AddDependency] relies on what is proved here of the
    edge it is given. *)

From S2P Require Import Prelude.

Definition kEdgeBlockBytes : Z := 4096.
(** Two pointers in an edge; a pointer and a counter at the front of a block. *)
Definition sizeof_DagEdge : Z := 16.
Definition kEdgesPerBlock : Z := (kEdgeBlockBytes - 8 - 8) / sizeof_DagEdge.

(** [&block->edges[i]] *)
Definition edge_addr (block i : Z) : Z := block + 16 + sizeof_DagEdge * i.

(** The slot of a thread, given the number of slots; [self] is the calling thread, if it is one
    of the scheduler's, whether it is a pool worker, and its [qIndex]. *)
Definition EdgeSlotForThisThread (slots : Z) (self : option (bool * Z)) : Z :=
  let outside := slots - 1 in
  match self with
  | None => outside
  | Some (IsPoolWorker, qIndex) => if negb IsPoolWorker || (qIndex <? 0) then outside else if qIndex <? outside then qIndex else outside
  end.

(** A thread in [AllocEdge]: outside; about to load its slot's block; about to bump the counter
    of the block it loaded; that block full or null, about to allocate; its fresh block's link
    to be stored ([head] as it last read it), about to swing [retireHead]; about to install. *)
Inductive epc :=
| EOut | ELoad (slot : Z) | EBump (slot block : Z) | EFull (slot block : Z)
| ELink (slot block fresh head : Z) | EChain (slot block fresh head : Z) | EInstall (slot block fresh : Z).

(** [ea_cur]: the slots; [ea_used], [ea_prev]: the counters and links of the blocks; [ea_blocks]:
    the blocks the allocator has returned; [ea_out]: the edges handed out, newest first. *)
Record arena := mkArena {
  ea_cur : gmap Z Z; ea_used : gmap Z Z; ea_prev : gmap Z Z; ea_retireHead : Z;
  ea_blocks : list Z; ea_out : list (Z * Z); ea_pcs : gmap nat epc }.

Definition e_pc (i : nat) (p : epc) (s : arena) : arena := mkArena (ea_cur s) (ea_used s) (ea_prev s) (ea_retireHead s) (ea_blocks s) (ea_out s) (<[i := p]> (ea_pcs s)).
Definition e_cur (sl b : Z) (s : arena) : arena := mkArena (<[sl := b]> (ea_cur s)) (ea_used s) (ea_prev s) (ea_retireHead s) (ea_blocks s) (ea_out s) (ea_pcs s).
Definition e_used (b n : Z) (s : arena) : arena := mkArena (ea_cur s) (<[b := n]> (ea_used s)) (ea_prev s) (ea_retireHead s) (ea_blocks s) (ea_out s) (ea_pcs s).
Definition e_prev (b h : Z) (s : arena) : arena := mkArena (ea_cur s) (ea_used s) (<[b := h]> (ea_prev s)) (ea_retireHead s) (ea_blocks s) (ea_out s) (ea_pcs s).
Definition e_head (h : Z) (s : arena) : arena := mkArena (ea_cur s) (ea_used s) (ea_prev s) h (ea_blocks s) (ea_out s) (ea_pcs s).
Definition e_block (b : Z) (s : arena) : arena := mkArena (ea_cur s) (ea_used s) (ea_prev s) (ea_retireHead s) (b :: ea_blocks s) (ea_out s) (ea_pcs s).
Definition e_out (e : Z * Z) (s : arena) : arena := mkArena (ea_cur s) (ea_used s) (ea_prev s) (ea_retireHead s) (ea_blocks s) (e :: ea_out s) (ea_pcs s).

(** What the allocator promises of a block it returns. *)
Definition good_block (l : list Z) (b : Z) : Prop := 0 < b ∧ b `mod` 8 = 0 ∧ ∀ x, x ∈ l → b + kEdgeBlockBytes ≤ x ∨ x + kEdgeBlockBytes ≤ b.

Inductive ea_step (slots : Z) (s : arena) : arena → Prop :=
| ea_call i self : ea_pcs s !! i = Some EOut → ea_step slots s (e_pc i (ELoad (EdgeSlotForThisThread slots self)) s)
| ea_load i sl : ea_pcs s !! i = Some (ELoad sl) →
    ea_step slots s (e_pc i (if next_of (ea_cur s) sl =? 0 then EFull sl 0 else EBump sl (next_of (ea_cur s) sl)) s)
| ea_bump i sl b : ea_pcs s !! i = Some (EBump sl b) →
    ea_step slots s
      (let k := next_of (ea_used s) b in
       if k <? kEdgesPerBlock then e_out (b, k) (e_pc i EOut (e_used b (k + 1) s)) else e_pc i (EFull sl b) (e_used b (k + 1) s))
(* the heap is out of memory: null is returned *)
| ea_nomem i sl b : ea_pcs s !! i = Some (EFull sl b) → ea_step slots s (e_pc i EOut s)
| ea_fresh i sl b f : ea_pcs s !! i = Some (EFull sl b) → good_block (ea_blocks s) f →
    ea_step slots s (e_pc i (ELink sl b f (ea_retireHead s)) (e_used f 1 (e_block f s)))
| ea_link i sl b f h : ea_pcs s !! i = Some (ELink sl b f h) → ea_step slots s (e_pc i (EChain sl b f h) (e_prev f h s))
| ea_chain i sl b f h : ea_pcs s !! i = Some (EChain sl b f h) → ea_retireHead s = h →
    ea_step slots s (e_pc i (EInstall sl b f) (e_head f s))
(* the weak exchange fails, perhaps for no reason, and reads the head again *)
| ea_chain_retry i sl b f h : ea_pcs s !! i = Some (EChain sl b f h) → ea_step slots s (e_pc i (ELink sl b f (ea_retireHead s)) s)
| ea_install i sl b f : ea_pcs s !! i = Some (EInstall sl b f) →
    ea_step slots s (if next_of (ea_cur s) sl =? b then e_out (f, 0) (e_pc i EOut (e_cur sl f s)) else e_pc i (ELoad sl) s).

(** The constructor: no blocks, and nobody in [AllocEdge]. *)
Definition ea_init (s : arena) : Prop := s = mkArena ∅ ∅ ∅ 0 [] [] (ea_pcs s) ∧ ∀ i p, ea_pcs s !! i = Some p → p = EOut.

(** The loop of the destructor: the blocks it retires, in order. *)
Fixpoint retire_blocks (fuel : nat) (prev : gmap Z Z) (block : Z) : option (list Z) :=
  match fuel with
  | O => None
  | S k => if block =? 0 then Some [] else l ← retire_blocks k prev (next_of prev block); Some (block :: l)
  end.

(** ** The invariant *)

(** A fresh block not yet chained; a fresh block whose first edge is still its taker's. *)
Definition unchained (p : epc) : list Z := match p with ELink _ _ f _ | EChain _ _ f _ => [f] | _ => [] end.
Definition private (p : epc) : list Z := match p with ELink _ _ f _ | EChain _ _ f _ | EInstall _ _ f => [f] | _ => [] end.

Record ea_inv (s : arena) : Prop := {
  ei_chain : ∃ l, chain (ea_prev s) (ea_retireHead s) l ∧ l ++ gather unchained (ea_pcs s) ≡ₚ ea_blocks s;
  ei_nodup : NoDup (ea_blocks s);
  ei_pos b : b ∈ ea_blocks s → 0 < b ∧ b `mod` 8 = 0;
  ei_apart b c : b ∈ ea_blocks s → c ∈ ea_blocks s → b = c ∨ b + kEdgeBlockBytes ≤ c ∨ c + kEdgeBlockBytes ≤ b;
  ei_used b : b ∈ ea_blocks s → 1 ≤ next_of (ea_used s) b;
  ei_priv : NoDup (gather private (ea_pcs s));
  ei_linked i sl b f h : ea_pcs s !! i = Some (EChain sl b f h) → next_of (ea_prev s) f = h;
  ei_fresh f : f ∈ gather private (ea_pcs s) → f ∈ ea_blocks s ∧ (∀ sl, next_of (ea_cur s) sl ≠ f) ∧ (∀ k, (f, k) ∉ ea_out s);
  ei_cur sl : next_of (ea_cur s) sl = 0 ∨ next_of (ea_cur s) sl ∈ ea_blocks s;
  ei_bump i sl b : ea_pcs s !! i = Some (EBump sl b) → b ∈ ea_blocks s ∧ b ∉ gather private (ea_pcs s);
  ei_out b k : (b, k) ∈ ea_out s → b ∈ ea_blocks s ∧ 0 ≤ k < kEdgesPerBlock ∧ k < next_of (ea_used s) b;
  ei_once : NoDup (ea_out s) }.

Lemma ei_unpriv s i p f : ea_pcs s !! i = Some p → f ∈ private p → f ∈ gather private (ea_pcs s).
Proof. intros. apply elem_of_gather. by exists i, p. Qed.

(** A step of one thread that keeps the blocks it holds. *)
Lemma ea_frame s i p q : ea_inv s → ea_pcs s !! i = Some p → private q = private p → unchained q = unchained p →
  (∀ sl b, q = EBump sl b → b ∈ ea_blocks s ∧ b ∉ gather private (ea_pcs s)) → (∀ sl b f h, q = EChain sl b f h → next_of (ea_prev s) f = h) →
  ea_inv (e_pc i q s).
Proof.
  intros [] Hp H1 H2 H3 H4. pose proof (gather_move private _ _ _ _ Hp H1) as G1. pose proof (gather_move unchained _ _ _ _ Hp H2) as G2.
  constructor; cbn; try done.
  - setoid_rewrite G2. done.
  - by rewrite G1.
  - intros j sl b f h [[_ E]|[_ E]]%lookup_insert_Some; eauto.
  - intros f. rewrite G1. auto.
  - intros j sl b [[_ E]|[_ E]]%lookup_insert_Some; rewrite G1; eauto.
Qed.

(** A counter goes up; an edge below it, of a block no thread has to itself, is handed out. *)
Lemma ea_inv_used s b : ea_inv s → ea_inv (e_used b (next_of (ea_used s) b + 1) s).
Proof.
  intros []. constructor; cbn; try done.
  - intros x Hx. rewrite next_of_insert. case_decide as E; [subst x|]; specialize (ei_used0 _ Hx); lia.
  - intros x k Hx. destruct (ei_out0 x k Hx) as (? & ? & ?). split_and!; [done|lia|lia|]. rewrite next_of_insert. case_decide as E; [subst x|]; lia.
Qed.

Lemma ea_inv_out s b k : ea_inv s → b ∈ ea_blocks s → b ∉ gather private (ea_pcs s) → 0 ≤ k < kEdgesPerBlock → k < next_of (ea_used s) b →
  (b, k) ∉ ea_out s → ea_inv (e_out (b, k) s).
Proof.
  intros [] Hb Hp Hk Hu Ho. constructor; cbn; try done.
  - intros f Hf. destruct (ei_fresh0 f Hf) as (? & ? & H). split_and!; [done|done|]. intros j. specialize (H j). assert (f ≠ b) by congruence. set_solver.
  - intros x j [[= -> ->]|?]%elem_of_cons; auto.
  - by constructor.
Qed.

(** The taker of a fresh block lets go of it. *)
Lemma ea_inv_drop s i sl b f q : ea_inv s → ea_pcs s !! i = Some (EInstall sl b f) → q = EOut ∨ q = ELoad sl →
  ea_inv (e_pc i q s) ∧ f ∉ gather private (ea_pcs (e_pc i q s)).
Proof.
  intros [] Hi Hq. assert (G : gather private (ea_pcs s) ≡ₚ f :: gather private (<[i := q]> (ea_pcs s))).
  { rewrite gather_insert, (gather_delete private _ _ _ Hi). by destruct Hq as [-> | ->]. }
  rewrite G in ei_priv0. apply NoDup_cons in ei_priv0 as [Hf Hn]. split; [|done].
  constructor; cbn; try done.
  - setoid_rewrite (gather_move unchained _ _ _ q Hi); [done|by destruct Hq as [-> | ->]].
  - intros j sl' b' f' h [[_ E]|[_ E]]%lookup_insert_Some; [by destruct Hq; subst|eauto].
  - intros x Hx. apply ei_fresh0. rewrite G. set_solver.
  - intros j sl' b' [[_ E]|[_ E]]%lookup_insert_Some; [by destruct Hq; subst|]. destruct (ei_bump0 _ _ _ E) as [? H]. rewrite G in H. set_solver.
Qed.

(** A slot gets a block that was chained before. *)
Lemma ea_inv_cur s sl f : ea_inv s → f ∈ ea_blocks s → f ∉ gather private (ea_pcs s) → ea_inv (e_cur sl f s).
Proof.
  intros [] Hb Hp. constructor; cbn; try done.
  - intros x Hx. destruct (ei_fresh0 x Hx) as (? & H & ?). split_and!; [done| |done]. intros k. rewrite next_of_insert. case_decide; [by intros ->|apply H].
  - intros k. rewrite next_of_insert. case_decide; auto.
Qed.

(** The link of a fresh block is stored. *)
Lemma ea_inv_prev s i sl b f h : ea_inv s → ea_pcs s !! i = Some (ELink sl b f h) → ea_inv (e_prev f h s).
Proof.
  intros [] Hi. constructor; cbn; try done.
  - destruct ei_chain0 as (l & Hl & E). exists l. split; [|done]. apply lseg_insert; [|done]. intros Hf.
    rewrite <- E in ei_nodup0. apply NoDup_app in ei_nodup0 as (_ & H & _). apply (H f Hf). apply elem_of_gather. exists i, (ELink sl b f h). set_solver.
  - intros j sl' b' f' h' Hj. rewrite next_of_insert. case_decide as E; [|by eapply ei_linked0]. subst f'. exfalso.
    rewrite (gather_delete private _ _ _ Hi) in ei_priv0. apply NoDup_app in ei_priv0 as (_ & H & _). apply (H f); [set_solver|].
    apply elem_of_gather. exists j, (EChain sl' b' f h'). split; [|set_solver]. rewrite lookup_delete_ne; [done|]. intros <-. congruence.
Qed.

(** [retireHead] is swung to a fresh block. *)
Lemma ea_inv_chain s i sl b f : ea_inv s → ea_pcs s !! i = Some (EChain sl b f (ea_retireHead s)) → ea_inv (e_pc i (EInstall sl b f) (e_head f s)).
Proof.
  intros [] Hi. pose proof (gather_move private _ _ _ (EInstall sl b f) Hi eq_refl) as G. pose proof (gather_change unchained _ _ _ (EInstall sl b f) Hi) as U.
  constructor; cbn; try done.
  - destruct ei_chain0 as (l & Hl & E). exists (f :: l). split; [|cbn in U; rewrite <- E, <- U; solve_Permutation].
    split_and!; [done| |by rewrite (ei_linked0 _ _ _ _ _ Hi)]. destruct (ei_fresh0 f) as [H _]; [by apply (ei_unpriv _ _ _ _ Hi); set_solver|]. specialize (ei_pos0 f H). lia.
  - by rewrite G.
  - intros j sl' b' f' h [[_ ?]|[_ E]]%lookup_insert_Some; [done|eauto].
  - intros x. rewrite G. auto.
  - intros j sl' b' [[_ ?]|[_ E]]%lookup_insert_Some; [done|]. rewrite G. eauto.
Qed.

(** The allocator returns a block. *)
Lemma ea_inv_fresh s i sl b f : ea_inv s → ea_pcs s !! i = Some (EFull sl b) → good_block (ea_blocks s) f →
  ea_inv (e_pc i (ELink sl b f (ea_retireHead s)) (e_used f 1 (e_block f s))).
Proof.
  intros [] Hi (Hf & Ha & Hd). assert (Hn : f ∉ ea_blocks s). { intros H. unfold kEdgeBlockBytes in Hd. destruct (Hd f H); lia. }
  pose proof (gather_change private _ _ _ (ELink sl b f (ea_retireHead s)) Hi) as G. pose proof (gather_change unchained _ _ _ (ELink sl b f (ea_retireHead s)) Hi) as U. cbn in G, U.
  constructor; cbn; try done.
  - destruct ei_chain0 as (l & Hl & E). exists l. split; [done|]. by rewrite U, <- E, <- Permutation_middle.
  - by constructor.
  - intros x [->|Hx]%elem_of_cons; auto.
  - intros x y [->|Hx]%elem_of_cons [->|Hy]%elem_of_cons; auto. right. destruct (Hd x Hx); auto.
  - intros x Hx. rewrite next_of_insert. case_decide; [lia|]. apply ei_used0. set_solver.
  - rewrite G. constructor; [|done]. intros H%ei_fresh0. naive_solver.
  - intros j sl' b' f' h [[_ ?]|[_ E]]%lookup_insert_Some; [done|eauto].
  - intros x. rewrite G. intros [->|Hx]%elem_of_cons.
    + split_and!; [set_solver| |]; [intros k E; destruct (ei_cur0 k); [lia|congruence]|]. intros k Hk. by destruct (ei_out0 f k Hk).
    + destruct (ei_fresh0 x Hx) as (? & ? & ?). split_and!; [set_solver|done|done].
  - intros k. destruct (ei_cur0 k); set_solver.
  - intros j sl' b' [[_ ?]|[_ E]]%lookup_insert_Some; [done|]. destruct (ei_bump0 _ _ _ E). rewrite G. split; [set_solver|]. intros [->|?]%elem_of_cons; done.
  - intros x k Hx. destruct (ei_out0 x k Hx) as (? & ? & ?). split_and!; [set_solver|lia|lia|]. rewrite next_of_insert. case_decide; [by subst|done].
Qed.

Lemma ea_inv_step slots s s' : ea_inv s → ea_step slots s s' → ea_inv s'.
Proof.
  intros I Hs. destruct Hs as [i self Hi|i sl Hi|i sl b Hi|i sl b Hi|i sl b f Hi Hf|i sl b f h Hi|i sl b f h Hi <-|i sl b f h Hi|i sl b f Hi].
  - by eapply ea_frame.
  - destruct (Z.eqb_spec (next_of (ea_cur s) sl) 0) as [E|E]; [by eapply ea_frame|]. eapply ea_frame; [done..| |done].
    intros ? ? [= _ <-]. destruct (ei_cur _ I sl) as [?|Hb]; [done|]. split; [done|]. intros Hp. by destruct (ei_fresh _ I _ Hp) as (_ & H & _); eapply H.
  - destruct (ei_bump _ I _ _ _ Hi) as [Hb Hp]. pose proof (ea_inv_used s b I) as I'. cbv zeta. case_match eqn:E; [|by eapply ea_frame].
    apply Z.ltb_lt in E. pose proof (ei_used _ I b Hb). apply ea_inv_out; cbn; try done; [by eapply ea_frame| |lia| |].
    + rewrite (gather_move private _ _ _ EOut Hi eq_refl). done.
    + rewrite next_of_eq. lia.
    + intros Ho. apply (ei_out _ I) in Ho. lia.
  - by eapply ea_frame.
  - by apply ea_inv_fresh.
  - eapply ea_frame; [by eapply ea_inv_prev|done..|]. intros ? ? ? ? [= _ _ <- <-]. cbn. apply next_of_eq.
  - by apply ea_inv_chain.
  - by eapply ea_frame.
  - destruct (ei_fresh _ I f) as (Hb & Hc & Ho); [apply (ei_unpriv _ _ _ _ Hi); set_solver|]. case_match; [|by eapply (ea_inv_drop s i); eauto].
    destruct (ea_inv_drop s i sl b f EOut I Hi) as [I' Hn]; [by left|]. apply (ea_inv_out (e_pc i EOut (e_cur sl f s))); try done.
    + by apply (ea_inv_cur (e_pc i EOut s)).
    + pose proof (ei_used _ I f Hb). cbn. lia.
Qed.

Lemma ea_inv_init s : ea_init s → ea_inv s.
Proof.
  intros [-> Hi]. cbn in Hi. assert (G : ∀ f : epc → list Z, f EOut = [] → gather f (ea_pcs s) = []). { intros f Hf. apply gather_none. intros i p Hp. by rewrite (Hi i p Hp). }
  constructor; cbn; rewrite ?G by done; try set_solver; try by constructor.
  by exists [].
Qed.

(** ** What the graph relies on *)

Lemma EdgeSlot_range slots self : 1 ≤ slots → 0 ≤ EdgeSlotForThisThread slots self < slots.
Proof. unfold EdgeSlotForThisThread. intros H. repeat case_match; lia. Qed.

Lemma retire_blocks_chain prev h l fuel : chain prev h l → (length l < fuel)%nat → retire_blocks fuel prev h = Some l.
Proof.
  unfold chain. revert h fuel. induction l as [|b l IH]; intros h [|k] Hc Hf; cbn in *; try lia; [by subst|].
  destruct Hc as (-> & Hb & Hc). rewrite (proj2 (Z.eqb_neq b 0)) by done. by rewrite (IH _ k Hc) by lia.
Qed.

Definition out_addr (e : Z * Z) : Z := edge_addr e.1 e.2.

(** Edges of blocks that do not overlap are at different addresses. *)
Lemma ea_addr_inj s : ea_inv s → NoDup (out_addr <$> ea_out s).
Proof.
  intros []. apply NoDup_fmap_2_strong; [|done]. intros [b i] [c j] (Hb & Hi & _)%ei_out0 (Hc & Hj & _)%ei_out0.
  unfold out_addr, edge_addr, kEdgesPerBlock, kEdgeBlockBytes, sizeof_DagEdge in *. cbn. change ((4096 - 8 - 8) / 16) with 255 in *. intros E.
  destruct (ei_apart0 b c Hb Hc) as [->|]; [|lia]. f_equal. lia.
Qed.

(** The edges of a graph are each given out once, and its blocks each retired once.  However
    builders on worker threads and outside threads interleave: the addresses handed out are all
    different, not null, with the two low bits clear that the seal uses, and inside a block on
    the heap; once no thread is chaining a block, the destructor's loop ends and retires every
    block the allocator gave exactly once, the blocks that lost the race to be installed too. *)
Theorem edges_once slots s :
  reachable ea_init (ea_step slots) s →
  NoDup (out_addr <$> ea_out s) ∧
  (∀ e, e ∈ ea_out s → out_addr e ≠ 0 ∧ out_addr e `mod` 4 = 0 ∧ e.1 ∈ ea_blocks s ∧ e.1 ≤ out_addr e ∧ out_addr e + sizeof_DagEdge ≤ e.1 + kEdgeBlockBytes) ∧
  (gather unchained (ea_pcs s) = [] → ∃ l, retire_blocks (S (length (ea_blocks s))) (ea_prev s) (ea_retireHead s) = Some l ∧ l ≡ₚ ea_blocks s ∧ NoDup l).
Proof.
  intros Hr. assert (I : ea_inv s) by by apply (reachable_ind _ _ ea_inv ea_inv_init (ea_inv_step slots)). split_and!.
  - by apply ea_addr_inj.
  - intros [b k] (Hb & Hk & _)%(ei_out _ I). destruct (ei_pos _ I b Hb) as [H0 Ha].
    unfold out_addr, edge_addr, kEdgesPerBlock, kEdgeBlockBytes, sizeof_DagEdge in *. cbn. change ((4096 - 8 - 8) / 16) with 255 in *.
    split_and!; [lia| |done|lia|lia]. apply Z.mod_divide in Ha as [x ->]; [|lia]. replace (x * 8 + 16 + 16 * k) with ((2 * x + 4 + 4 * k) * 4) by lia. apply Z.mod_mul. lia.
  - intros Hu. destruct (ei_chain _ I) as (l & Hl & E). rewrite Hu, app_nil_r in E. exists l. split_and!; [|done|rewrite E; apply (ei_nodup _ I)].
    apply retire_blocks_chain; [done|]. rewrite E. lia.
Qed.

(** Two outside threads race to install a first block; the second takes its edge from the first's. *)
Definition ea_start : arena := mkArena ∅ ∅ ∅ 0 [] [] {[0%nat := EOut; 1%nat := EOut]}.
Definition ea_end : arena :=
  mkArena {[4 := 4096]} {[4096 := 2; 8192 := 1]} {[4096 := 0; 8192 := 4096]} 8192 [8192; 4096] [(4096, 1); (4096, 0)] {[0%nat := EOut; 1%nat := EOut]}.

Lemma edges_once_witness : reachable ea_init (ea_step 5) ea_end ∧ NoDup (out_addr <$> ea_out ea_end).
Proof.
  assert (Hr : reachable ea_init (ea_step 5) ea_end).
  { exists ea_start. split.
    - split; [reflexivity|]. cbn. intros i p [[_ <-]|[_ [<- <-]%lookup_singleton_Some]]%lookup_insert_Some; reflexivity.
    - eapply rtc_l; [apply (ea_call _ _ 0%nat None); reflexivity|]. eapply rtc_l; [apply (ea_load _ _ 0%nat 4); reflexivity|].
      eapply rtc_l; [apply (ea_call _ _ 1%nat None); reflexivity|]. eapply rtc_l; [apply (ea_load _ _ 1%nat 4); reflexivity|].
      eapply rtc_l; [apply (ea_fresh _ _ 0%nat 4 0 4096); [reflexivity|]; split_and!; [reflexivity..|set_solver]|].
      eapply rtc_l; [apply (ea_link _ _ 0%nat 4 0 4096 0); reflexivity|]. eapply rtc_l; [apply (ea_chain _ _ 0%nat 4 0 4096 0); reflexivity|].
      eapply rtc_l; [apply (ea_fresh _ _ 1%nat 4 0 8192); [reflexivity|]; split_and!; [reflexivity..|]; intros x ->%list_elem_of_singleton; by right|].
      eapply rtc_l; [apply (ea_link _ _ 1%nat 4 0 8192 4096); reflexivity|]. eapply rtc_l; [apply (ea_chain _ _ 1%nat 4 0 8192 4096); reflexivity|].
      eapply rtc_l; [apply (ea_install _ _ 0%nat 4 0 4096); reflexivity|]. eapply rtc_l; [apply (ea_install _ _ 1%nat 4 0 8192); reflexivity|].
      eapply rtc_l; [apply (ea_load _ _ 1%nat 4); reflexivity|]. eapply rtc_l; [apply (ea_bump _ _ 1%nat 4 4096); reflexivity|].
      eval_state. let y := eval vm_compute in ea_end in change ea_end with y. apply rtc_refl. }
  split; [exact Hr|]. apply (edges_once 5 ea_end Hr).
Defined.
