(* ===== verification/MainWait.v ===== *)
(** * Main waiting for a group (src/TaskScheduler.cpp, src/Thread.cpp)

    Main parks on a word of its own that pushes to its queue, the group's last [Done] and
    [WakeMain] kick.  Outside the pool ([OutOfPoolMainWait]) it runs what is routed to it and
    registers its word in the group's list under the lock; in the pool it is worker 0, runs
    [Worker] and leaves its word in [threadWaiter].  Main and any number of other threads are
    interleaved at every atomic access, the futex at its system calls; a section under the
    group's mutex is one step.  The queue counts a task from the exchange that publishes it, which
    is what [quiescent] sees ([MPSCQueue.quiescent_exact]), so that a pop may still miss it.  The
    [waking] mark and [Settle] are in [WaitGroups], the hunt and the other workers in [HuntPark]. *)

From S2P Require Import Prelude WaitGroups.

Definition kAttemptsBeforePark : Z := 32.

(** Another thread: between operations; about to kick main's word; about to wake the address;
    in [Done] with the wake its own; in [WakeAllDirect] about to clear the bit. *)
Inductive opc := OIdle | OKick | OWake | OTake | OClear.

(** [mw_word]: main's word; [mw_queue]: the tasks routed to main; [mw_n]: the group's counter;
    [mw_reg]: whether main's word is in [blockedThreads], or in [threadWaiter]. *)
Record mainwait (P : Type) := mkMW {
  mw_word : Z; mw_queue : list Z; mw_n : Z; mw_reg : bool; mw_active : bool; mw_main : P; mw_pcs : gmap nat opc }.
#[global] Arguments mkMW {P}.
#[global] Arguments mw_word {P}.
#[global] Arguments mw_queue {P}.
#[global] Arguments mw_n {P}.
#[global] Arguments mw_reg {P}.
#[global] Arguments mw_active {P}.
#[global] Arguments mw_main {P}.
#[global] Arguments mw_pcs {P}.

Definition m_word {P} (w : Z) (s : mainwait P) : mainwait P := mkMW w (mw_queue s) (mw_n s) (mw_reg s) (mw_active s) (mw_main s) (mw_pcs s).
Definition m_queue {P} (q : list Z) (s : mainwait P) : mainwait P := mkMW (mw_word s) q (mw_n s) (mw_reg s) (mw_active s) (mw_main s) (mw_pcs s).
Definition m_n {P} (n : Z) (s : mainwait P) : mainwait P := mkMW (mw_word s) (mw_queue s) n (mw_reg s) (mw_active s) (mw_main s) (mw_pcs s).
Definition m_reg {P} (b : bool) (s : mainwait P) : mainwait P := mkMW (mw_word s) (mw_queue s) (mw_n s) b (mw_active s) (mw_main s) (mw_pcs s).
Definition m_active {P} (b : bool) (s : mainwait P) : mainwait P := mkMW (mw_word s) (mw_queue s) (mw_n s) (mw_reg s) b (mw_main s) (mw_pcs s).
Definition m_main {P} (p : P) (s : mainwait P) : mainwait P := mkMW (mw_word s) (mw_queue s) (mw_n s) (mw_reg s) (mw_active s) p (mw_pcs s).
Definition m_pc {P} (i : nat) (p : opc) (s : mainwait P) : mainwait P := mkMW (mw_word s) (mw_queue s) (mw_n s) (mw_reg s) (mw_active s) (mw_main s) (<[i := p]> (mw_pcs s)).

(** A step of thread [i].  [woken] is what a wake of the address does to main; [keep] says that the
    group's wake leaves main's registration in place, as it does when main is a worker. *)
Inductive other_step {P} (woken : P → P) (keep : bool) (i : nat) (s : mainwait P) : mainwait P → Prop :=
(* [PushMainQueue], or a push to slot 0, then its kick; [WakeMain] *)
| mo_push t : mw_pcs s !! i = Some OIdle → other_step woken keep i s (m_pc i OKick (m_queue (mw_queue s ++ [t]) s))
| mo_wakemain : mw_pcs s !! i = Some OIdle → other_step woken keep i s (m_pc i OKick s)
(* [KickWaitWord] *)
| mo_kick : mw_pcs s !! i = Some OKick → other_step woken keep i s (m_pc i (if mw_word s =? kWaitWaiting then OWake else OIdle) (m_word kWaitKicked s))
| mo_wake : mw_pcs s !! i = Some OWake → other_step woken keep i s (m_pc i OIdle (m_main (woken (mw_main s)) s))
(* a task of the group starts another, under the count it holds *)
| mo_add : mw_pcs s !! i = Some OIdle → 0 < count_of (mw_n s) → count_of (mw_n s) + 1 < WAITER_BIT → other_step woken keep i s (m_n (mw_n s + 1) s)
(* a task of the group ends: [DoneBegin] *)
| mo_done : mw_pcs s !! i = Some OIdle → 0 < count_of (mw_n s) →
    other_step woken keep i s (m_pc i (if (count_of (mw_n s) =? 1) && has_waiter (mw_n s) then OTake else OIdle) (m_n (mw_n s - 1) s))
(* [WakeAll]: the list is taken and the bit cleared under the lock *)
| mo_take : mw_pcs s !! i = Some OTake →
    other_step woken keep i s (m_pc i (if mw_reg s then OKick else OIdle) (m_reg (keep && mw_reg s) (m_n (clear_waiter (mw_n s)) s)))
(* a task waits on the group too: [AddWaiter] and, at a count of zero, [WakeAllDirect], which
   clears the bit unless another took the list *)
| mo_waiter : mw_pcs s !! i = Some OIdle →
    other_step woken keep i s (m_pc i (if count_of (mw_n s) =? 0 then OClear else OIdle) (m_n (or_waiter (mw_n s)) s))
| mo_clear b : mw_pcs s !! i = Some OClear → other_step woken keep i s (m_pc i OIdle (if b : bool then m_n (clear_waiter (mw_n s)) s else s)).

(** ** Main outside the pool *)

(** Main: at the loop's test; at the pop; about to store WAITING; to register; to look at the
    queue again; at the pool's flag; in [BlockOnWaitWord] before the load of the word; before the
    futex call; asleep in it; about to store RUNNING (registered or not); about to remove its
    registration; out of the loop. *)
Inductive main_pc :=
| MTest (attempts : Z) | MPop (attempts : Z) | MStore | MRegister | MRecheck | MActive | MLoad | MFutex | MAsleep
| MRunning (registered : bool) | MRemove | MOut.

Definition m_woken (p : main_pc) : main_pc := match p with MAsleep => MLoad | _ => p end.

(** A step of main. *)
Inductive main_step (s : mainwait main_pc) : mainwait main_pc → Prop :=
| mm_test a : mw_main s = MTest a → main_step s (m_main (if 0 <? count_of (mw_n s) then MPop a else MOut) s)
(* [RunOneMainTask] takes and runs a task *)
| mm_pop a t q : mw_main s = MPop a → mw_queue s = t :: q → main_step s (m_main (MTest 0) (m_queue q s))
(* it finds none: the queue is empty, or the next task is not linked yet *)
| mm_none a : mw_main s = MPop a → main_step s (m_main (if a + 1 <? kAttemptsBeforePark then MTest (a + 1) else MStore) s)
| mm_store : mw_main s = MStore → main_step s (m_main MRegister (m_word kWaitWaiting s))
| mm_register : mw_main s = MRegister →
    main_step s (if count_of (mw_n s) =? 0 then m_main (MRunning false) (m_n (or_waiter (mw_n s)) s)
                 else m_main MRecheck (m_reg true (m_n (or_waiter (mw_n s)) s)))
| mm_recheck : mw_main s = MRecheck → main_step s (m_main (if bool_decide (mw_queue s = []) then MActive else MRunning true) s)
| mm_active : mw_main s = MActive → main_step s (m_main (if mw_active s then MLoad else MRunning true) s)
| mm_load : mw_main s = MLoad → main_step s (m_main (if mw_word s =? kWaitWaiting then MFutex else MRunning true) s)
(* the kernel compares the word again before it sleeps *)
| mm_futex : mw_main s = MFutex → main_step s (m_main (if mw_word s =? kWaitWaiting then MAsleep else MLoad) s)
(* the futex may return on its own *)
| mm_spurious : mw_main s = MAsleep → main_step s (m_main MLoad s)
| mm_running b : mw_main s = MRunning b → main_step s (m_main (if b then MRemove else MTest 0) (m_word kWaitRunning s))
| mm_remove : mw_main s = MRemove → main_step s (m_main (MTest 0) (m_reg false s)).

Inductive mw_step (s : mainwait main_pc) : mainwait main_pc → Prop :=
| mw_by_main s' : main_step s s' → mw_step s s'
| mw_by_other i s' : other_step m_woken false i s s' → mw_step s s'
| mw_stop : mw_step s (m_active false s).

(** Main enters the wait: the word may hold an old kick, and the queue anything. *)
Definition mw_init (s : mainwait main_pc) : Prop :=
  mw_main s = MTest 0 ∧ mw_reg s = false ∧ mw_word s ≠ kWaitWaiting ∧ (∃ c b, 0 ≤ c < WAITER_BIT ∧ mw_n s = word c b) ∧
  ∀ i p, mw_pcs s !! i = Some p → p = OIdle ∨ p = OKick.

(** ** The invariant *)

Definition kicker (p : opc) : bool := match p with OKick => true | _ => false end.
Definition waker (p : opc) : bool := match p with OWake => true | _ => false end.
Definition mtaker (p : opc) : bool := match p with OTake => true | _ => false end.
Definition clearer (p : opc) : bool := match p with OClear => true | _ => false end.

(** Registered and not yet back; and having seen the queue empty since. *)
Definition parking (p : main_pc) : bool := match p with MRecheck | MActive | MLoad | MFutex | MAsleep => true | _ => false end.
Definition rechecked (p : main_pc) : bool := match p with MActive | MLoad | MFutex | MAsleep => true | _ => false end.
Definition unregistered (p : main_pc) : bool := match p with MTest _ | MPop _ | MStore | MRegister | MRunning false | MOut => true | _ => false end.

Record mw_inv (s : mainwait main_pc) (c : Z) (b : bool) : Prop := {
  mi_n : mw_n s = word c b;
  mi_c : 0 ≤ c < WAITER_BIT;
  (* a registration and a count: the bit is there for the last [Done] *)
  mi_bit : mw_reg s = true → 0 < c → b = true;
  mi_take : mw_reg s = true → c = 0 → 0 < num mtaker (mw_pcs s);
  mi_zero : 0 < num mtaker (mw_pcs s) + num clearer (mw_pcs s) → c = 0;
  mi_unreg : unregistered (mw_main s) = true → mw_reg s = false;
  mi_reg : parking (mw_main s) = true → mw_reg s = true ∨ 0 < num kicker (mw_pcs s) ∨ mw_word s ≠ kWaitWaiting;
  mi_queue : rechecked (mw_main s) = true → mw_queue s = [] ∨ 0 < num kicker (mw_pcs s) ∨ mw_word s ≠ kWaitWaiting;
  mi_asleep : mw_main s = MAsleep → mw_word s = kWaitWaiting ∨ 0 < num waker (mw_pcs s);
  mi_out : mw_main s = MOut → c = 0 }.

(** The fields of the invariant after a step, from those before. *)
Ltac mw_fields :=
  constructor; cbn -[num word count_of WAITER_BIT kWaitWaiting kWaitRunning kWaitKicked Z.lt Z.add Z.sub] in *; try done; try lia; try tauto; try (intuition (try congruence; try lia); fail).

Lemma main_step_inv s c b s' : mw_inv s c b → main_step s s' → ∃ b', mw_inv s' c b'.
Proof.
  intros I Hs. pose proof (mi_c _ _ _ I) as Hc. destruct Hs as [a Hm|a t q Hm Hq|a Hm|Hm|Hm|Hm|Hm|Hm|Hm|Hm|r Hm|Hm].
  - exists b. rewrite (mi_n _ _ _ I), word_count by done. destruct I. rewrite Hm in *. case_match eqn:E; mw_fields.
  - exists b. destruct I. rewrite Hm in *. mw_fields.
  - exists b. destruct I. rewrite Hm in *. case_match; mw_fields.
  - exists b. destruct I. rewrite Hm in *. mw_fields.
  - exists true. rewrite (mi_n _ _ _ I), word_count, word_or by done. destruct I. rewrite Hm in *. case_match eqn:E; mw_fields.
  - exists b. destruct I. rewrite Hm in *. case_bool_decide; mw_fields.
  - exists b. destruct I. rewrite Hm in *. case_match; mw_fields.
  - exists b. destruct I. rewrite Hm in *. case_match eqn:E; mw_fields.
  - exists b. destruct I. rewrite Hm in *. case_match eqn:E; mw_fields.
  - exists b. destruct I. rewrite Hm in *. mw_fields.
  - exists b. destruct I. rewrite Hm in *. destruct r; mw_fields.
  - exists b. destruct I. rewrite Hm in *. mw_fields.
Qed.

(** The same for a step that moves another thread. *)
Ltac mw_moved Hp :=
  constructor; cbn -[num word count_of WAITER_BIT kWaitWaiting kWaitRunning kWaitKicked Z.lt Z.add Z.sub] in *;
  rewrite ?(num_insert _ _ _ _ _ Hp); cbn [kicker waker mtaker clearer Z.b2z]; rewrite ?Z.add_0_r, ?Z.sub_0_r; try done; try lia; try tauto;
  try (intuition (try congruence; try lia); fail).

Lemma other_step_inv s c b i s' : mw_inv s c b → other_step m_woken false i s s' → ∃ c' b', mw_inv s' c' b'.
Proof.
  intros I Hs. pose proof (mi_c _ _ _ I) as Hc.
  pose proof (num_nonneg kicker (mw_pcs s)). pose proof (num_nonneg waker (mw_pcs s)). pose proof (num_nonneg mtaker (mw_pcs s)). pose proof (num_nonneg clearer (mw_pcs s)).
  destruct Hs as [t Hp|Hp|Hp|Hp|Hp Hpos Hmax|Hp Hpos|Hp|Hp|r Hp].
  - exists c, b. destruct I. mw_moved Hp.
  - exists c, b. destruct I. mw_moved Hp.
  - assert (kWaitKicked ≠ kWaitWaiting) by done. exists c, b. destruct I. case_match eqn:E; mw_moved Hp.
  - exists c, b. destruct I. destruct (mw_main s) eqn:Hm; mw_moved Hp; rewrite Hm; auto.
  - rewrite (mi_n _ _ _ I), word_count in Hpos, Hmax by done. exists (c + 1), b. destruct I. mw_moved Hp. rewrite mi_n0. unfold word. lia.
  - rewrite (mi_n _ _ _ I), ?word_count, ?word_bit in * by done. exists (c - 1), b. destruct I. destruct (Z.eqb_spec c 1), b; mw_moved Hp; unfold word; lia.
  - rewrite (mi_n _ _ _ I), word_clear by done. exists c, false. pose proof (num_pos mtaker _ _ _ Hp eq_refl). destruct I. destruct (mw_reg s) eqn:Hr; mw_moved Hp.
  - rewrite (mi_n _ _ _ I), word_count, word_or by done. exists c, true. destruct I. case_match eqn:E; mw_moved Hp.
  - pose proof (num_pos clearer _ _ _ Hp eq_refl). exists c, (if r then false else b). destruct r; [rewrite (mi_n _ _ _ I), word_clear by done|]; destruct I; mw_moved Hp.
Qed.

Lemma mw_step_inv s s' : (∃ c b, mw_inv s c b) → mw_step s s' → ∃ c b, mw_inv s' c b.
Proof.
  intros (c & b & I) [s1 H|i s1 H|].
  - destruct (main_step_inv _ _ _ _ I H) as [b' ?]. by exists c, b'.
  - by apply (other_step_inv s c b i).
  - exists c, b. by destruct I; constructor.
Qed.

Lemma mw_inv_init s : mw_init s → ∃ c b, mw_inv s c b.
Proof.
  intros (Hm & Hr & Hw & (c & b & Hc & Hn) & Hp). exists c, b.
  assert (Hz : ∀ P : opc → bool, P OIdle = false → P OKick = false → num P (mw_pcs s) = 0).
  { intros P H1 H2. apply num_none. intros i p Hi. by destruct (Hp i p Hi) as [-> | ->]. }
  constructor; rewrite ?Hm, ?Hr; try done. intros H. rewrite !Hz in H by done. lia.
Qed.

(** Another thread is about to kick main, to wake it, or to take its registration, or none is. *)
Lemma on_their_way (m : gmap nat opc) :
  (∃ i, m !! i = Some OKick ∨ m !! i = Some OWake ∨ m !! i = Some OTake) ∨ num kicker m = 0 ∧ num waker m = 0 ∧ num mtaker m = 0.
Proof.
  assert (Hsome : ∀ P : opc → bool, num P m ≠ 0 → ∃ i p, m !! i = Some p ∧ P p = true) by (intros P; apply num_some).
  destruct (decide (num kicker m = 0)) as [?|Hk]; [|destruct (Hsome _ Hk) as (i & [] & Hi & ?); try done; left; exists i; auto].
  destruct (decide (num waker m = 0)) as [?|Hw]; [|destruct (Hsome _ Hw) as (i & [] & Hi & ?); try done; left; exists i; auto].
  destruct (decide (num mtaker m = 0)) as [?|Ht]; [|destruct (Hsome _ Ht) as (i & [] & Hi & ?); try done; left; exists i; auto]. by right.
Qed.

(** Main is not left asleep with something to do.  However main, the pushers, the members of
    the group and its other waiters interleave: if main is asleep, then nothing is routed to it and
    the group it waits for is still counting, with main registered and the bit set that sends the
    last [Done] to wake it, or another thread is on its way to kick or wake it; and main leaves the
    wait only at a count of zero, with its registration gone. *)
Theorem main_wait_no_lost_wake s :
  reachable mw_init mw_step s →
  (mw_main s = MAsleep →
     (mw_queue s = [] ∧ 0 < count_of (mw_n s) ∧ mw_reg s = true ∧ has_waiter (mw_n s) = true ∧ mw_word s = kWaitWaiting) ∨
     ∃ i, mw_pcs s !! i = Some OKick ∨ mw_pcs s !! i = Some OWake ∨ mw_pcs s !! i = Some OTake) ∧
  (mw_main s = MOut → count_of (mw_n s) = 0 ∧ mw_reg s = false).
Proof.
  intros Hr. destruct (reachable_ind _ _ _ mw_inv_init mw_step_inv s Hr) as (c & b & I). pose proof (mi_c _ _ _ I) as Hc.
  rewrite (mi_n _ _ _ I), word_count, word_bit by done. split; [|intros Hm; split; [by apply (mi_out _ _ _ I)|apply (mi_unreg _ _ _ I); by rewrite Hm]].
  intros Hm. destruct I as [_ _ I1 I2 _ _ I3 I4 I5 _]. rewrite Hm in *. destruct (on_their_way (mw_pcs s)) as [H|(Hk & Hw & Ht)]; [by right|].
  left. destruct (I5 eq_refl) as [Hword|?]; [|lia]. destruct (I4 eq_refl) as [Hq|[?|?]]; [|lia|done]. destruct (I3 eq_refl) as [Hreg|[?|?]]; [|lia|done].
  assert (0 < c) by (destruct (decide (c = 0)) as [E|E]; [specialize (I2 Hreg E)|]; lia). split_and!; auto.
Qed.

(** Main goes to sleep on a group of one; that task ends and takes main's registration. *)
Definition mw_start : mainwait main_pc := mkMW kWaitRunning [] 1 false true (MTest 0) {[0%nat := OIdle]}.
Definition mw_end : mainwait main_pc := mkMW kWaitWaiting [] 0 false true MAsleep {[0%nat := OKick]}.

(** The empty looks before parking. *)
Lemma mw_spin n s a : mw_main s = MTest a → 0 < count_of (mw_n s) → a + Z.of_nat n < kAttemptsBeforePark → rtc mw_step s (m_main (MTest (a + Z.of_nat n)) s).
Proof.
  revert s a. induction n as [|n IH]; intros s a Hm Hc Ha.
  - replace (a + Z.of_nat 0) with a by lia. rewrite <- Hm. by destruct s.
  - apply rtc_l with (m_main (MPop a) s).
    { pose proof (mw_by_main _ _ (mm_test s a Hm)) as H. by rewrite (proj2 (Z.ltb_lt _ _) Hc) in H. }
    apply rtc_l with (m_main (MTest (a + 1)) s).
    { pose proof (mw_by_main _ _ (mm_none (m_main (MPop a) s) a eq_refl)) as H. rewrite (proj2 (Z.ltb_lt _ _)) in H by lia. exact H. }
    replace (a + Z.of_nat (S n)) with (a + 1 + Z.of_nat n) by lia. apply (IH (m_main (MTest (a + 1)) s)); [done|done|lia].
Qed.

Lemma main_wait_no_lost_wake_witness : reachable mw_init mw_step mw_end ∧ ∃ i, mw_pcs mw_end !! i = Some OKick.
Proof.
  assert (Hr : reachable mw_init mw_step mw_end).
  { exists mw_start. split.
    - split_and!; [reflexivity|reflexivity|done|exists 1, false; done|]. cbn. intros i p [<- <-]%lookup_singleton_Some. by left.
    - etrans; [apply (mw_spin 31 mw_start 0); reflexivity|].
      eapply rtc_l; [apply mw_by_main, (mm_test _ 31); reflexivity|]. eapply rtc_l; [apply mw_by_main, (mm_none _ 31); reflexivity|].
      eapply rtc_l; [apply mw_by_main, mm_store; reflexivity|]. eapply rtc_l; [apply mw_by_main, mm_register; reflexivity|].
      eapply rtc_l; [apply mw_by_main, mm_recheck; reflexivity|]. eapply rtc_l; [apply mw_by_main, mm_active; reflexivity|].
      eapply rtc_l; [apply mw_by_main, mm_load; reflexivity|]. eapply rtc_l; [apply mw_by_main, mm_futex; reflexivity|].
      eapply rtc_l; [apply (mw_by_other _ 0%nat), mo_done; reflexivity|]. eapply rtc_l; [apply (mw_by_other _ 0%nat), mo_take; reflexivity|].
      eval_state. let y := eval vm_compute in mw_end in change mw_end with y. apply rtc_refl. }
  split; [exact Hr|]. destruct (proj1 (main_wait_no_lost_wake mw_end Hr) eq_refl) as [(_ & _ & H & _)|_]; [discriminate H|]. by exists 0%nat.
Defined.

(** ** Main in the pool *)

(** Main in [Worker], waiting for a group: at the top of the loop; in the find pass; about to
    publish WAITING; about to take back a kick; about to store [threadWaiter]; to set the bit; to
    look at the count again; at its inboxes; at the rest of what it looks at; in [BlockOnWaitWord];
    about to store RUNNING; in [mainExit]; out. *)
Inductive pool_pc :=
| PTop | PFind | PCas | PConsume | PPublish | PBit | PDone | PInbox | PRest | PLoad | PFutex | PAsleep | PRunning | PExit | POut.

Definition p_woken (p : pool_pc) : pool_pc := match p with PAsleep => PLoad | _ => p end.

Inductive pool_main_step (s : mainwait pool_pc) : mainwait pool_pc → Prop :=
| pm_top : mw_main s = PTop → pool_main_step s (m_main (if count_of (mw_n s) =? 0 then PExit else PFind) s)
(* the find pass takes a task from main's inboxes, or elsewhere, or main is refused the park *)
| pm_take t q : mw_main s = PFind → mw_queue s = t :: q → pool_main_step s (m_main PTop (m_queue q s))
| pm_again : mw_main s = PFind → pool_main_step s (m_main PTop s)
| pm_nothing : mw_main s = PFind → pool_main_step s (m_main PCas s)
| pm_cas : mw_main s = PCas →
    pool_main_step s (if mw_word s =? kWaitRunning then m_main PPublish (m_word kWaitWaiting s) else m_main PConsume s)
| pm_consume : mw_main s = PConsume → pool_main_step s (m_main PTop (m_word kWaitRunning s))
| pm_publish : mw_main s = PPublish → pool_main_step s (m_main PBit (m_reg true s))
| pm_bit : mw_main s = PBit → pool_main_step s (m_main PDone (m_n (or_waiter (mw_n s)) s))
| pm_done : mw_main s = PDone → pool_main_step s (m_main (if count_of (mw_n s) =? 0 then PRunning else PInbox) s)
| pm_inbox : mw_main s = PInbox → pool_main_step s (m_main (if bool_decide (mw_queue s = []) then PRest else PRunning) s)
(* [running], main's deque, [hasQueuedWork] and the injector may say anything *)
| pm_rest b : mw_main s = PRest → pool_main_step s (m_main (if b : bool then PLoad else PRunning) s)
| pm_load : mw_main s = PLoad → pool_main_step s (m_main (if mw_word s =? kWaitWaiting then PFutex else PRunning) s)
| pm_futex : mw_main s = PFutex → pool_main_step s (m_main (if mw_word s =? kWaitWaiting then PAsleep else PLoad) s)
| pm_spurious : mw_main s = PAsleep → pool_main_step s (m_main PLoad s)
| pm_running : mw_main s = PRunning → pool_main_step s (m_main PTop (m_word kWaitRunning s))
| pm_exit : mw_main s = PExit → pool_main_step s (m_main POut (m_reg false s)).

Inductive pool_step (s : mainwait pool_pc) : mainwait pool_pc → Prop :=
| pw_by_main s' : pool_main_step s s' → pool_step s s'
| pw_by_other i s' : other_step p_woken true i s s' → pool_step s s'.

(** Main enters: its word may hold a kick, and a wait of the same group further out on main's stack
    may have left [threadWaiter] set. *)
Definition pool_init (s : mainwait pool_pc) : Prop :=
  mw_main s = PTop ∧ mw_word s ≠ kWaitWaiting ∧ (∃ c b, 0 ≤ c < WAITER_BIT ∧ mw_n s = word c b) ∧ ∀ i p, mw_pcs s !! i = Some p → p = OIdle ∨ p = OKick.

(** Published; the count seen above zero; the inboxes seen empty. *)
Definition published (p : pool_pc) : bool := match p with PBit | PDone | PInbox | PRest | PLoad | PFutex | PAsleep => true | _ => false end.
Definition counted (p : pool_pc) : bool := match p with PInbox | PRest | PLoad | PFutex | PAsleep => true | _ => false end.
Definition looked (p : pool_pc) : bool := match p with PRest | PLoad | PFutex | PAsleep => true | _ => false end.

Record pool_inv (s : mainwait pool_pc) (c : Z) (b : bool) : Prop := {
  pi_n : mw_n s = word c b;
  pi_c : 0 ≤ c < WAITER_BIT;
  pi_zero : 0 < num mtaker (mw_pcs s) + num clearer (mw_pcs s) → c = 0;
  pi_reg : published (mw_main s) = true → mw_reg s = true;
  pi_bit : mw_main s = PDone → 0 < c → b = true;
  pi_count : counted (mw_main s) = true → (0 < c ∧ b = true) ∨ 0 < num mtaker (mw_pcs s) ∨ 0 < num kicker (mw_pcs s) ∨ mw_word s ≠ kWaitWaiting;
  pi_queue : looked (mw_main s) = true → mw_queue s = [] ∨ 0 < num kicker (mw_pcs s) ∨ mw_word s ≠ kWaitWaiting;
  pi_asleep : mw_main s = PAsleep → mw_word s = kWaitWaiting ∨ 0 < num waker (mw_pcs s);
  pi_exit : mw_main s = PExit ∨ mw_main s = POut → c = 0;
  pi_out : mw_main s = POut → mw_reg s = false }.

Lemma pool_main_step_inv s c b s' : pool_inv s c b → pool_main_step s s' → ∃ b', pool_inv s' c b'.
Proof.
  intros I Hs. pose proof (pi_c _ _ _ I) as Hc. destruct Hs as [Hm|t q Hm Hq|Hm|Hm|Hm|Hm|Hm|Hm|Hm|Hm|r Hm|Hm|Hm|Hm|Hm|Hm].
  - exists b. rewrite (pi_n _ _ _ I), word_count by done. destruct I. rewrite Hm in *. case_match eqn:E; mw_fields.
  - exists b. destruct I. rewrite Hm in *. mw_fields.
  - exists b. destruct I. rewrite Hm in *. mw_fields.
  - exists b. destruct I. rewrite Hm in *. mw_fields.
  - exists b. destruct I. rewrite Hm in *. case_match; mw_fields.
  - exists b. destruct I. rewrite Hm in *. mw_fields.
  - exists b. destruct I. rewrite Hm in *. mw_fields.
  - exists true. rewrite (pi_n _ _ _ I), word_or by done. destruct I. rewrite Hm in *. mw_fields.
  - exists b. rewrite (pi_n _ _ _ I), word_count by done. destruct I. rewrite Hm in *. destruct (Z.eqb_spec c 0); [mw_fields|]. assert (0 < c) by lia. mw_fields.
  - exists b. destruct I. rewrite Hm in *. case_bool_decide; mw_fields.
  - exists b. destruct I. rewrite Hm in *. destruct r; mw_fields.
  - exists b. destruct I. rewrite Hm in *. case_match eqn:E; mw_fields.
  - exists b. destruct I. rewrite Hm in *. case_match eqn:E; mw_fields.
  - exists b. destruct I. rewrite Hm in *. mw_fields.
  - exists b. destruct I. rewrite Hm in *. mw_fields.
  - exists b. destruct I. rewrite Hm in *. mw_fields.
Qed.

Lemma pool_other_step_inv s c b i s' : pool_inv s c b → other_step p_woken true i s s' → ∃ c' b', pool_inv s' c' b'.
Proof.
  intros I Hs. pose proof (pi_c _ _ _ I) as Hc. assert (kWaitKicked ≠ kWaitWaiting) by done.
  pose proof (num_nonneg kicker (mw_pcs s)). pose proof (num_nonneg waker (mw_pcs s)). pose proof (num_nonneg mtaker (mw_pcs s)). pose proof (num_nonneg clearer (mw_pcs s)).
  destruct Hs as [t Hp|Hp|Hp|Hp|Hp Hpos Hmax|Hp Hpos|Hp|Hp|r Hp].
  - exists c, b. destruct I. mw_moved Hp.
  - exists c, b. destruct I. mw_moved Hp.
  - exists c, b. destruct I. case_match eqn:E; mw_moved Hp.
  - exists c, b. destruct I. destruct (mw_main s) eqn:Hm; mw_moved Hp.
  - rewrite (pi_n _ _ _ I), word_count in Hpos, Hmax by done. exists (c + 1), b. destruct I. mw_moved Hp. rewrite pi_n0. unfold word. lia.
  - rewrite (pi_n _ _ _ I), ?word_count, ?word_bit in * by done. exists (c - 1), b. destruct I. destruct (Z.eqb_spec c 1), b; mw_moved Hp; unfold word; lia.
  - rewrite (pi_n _ _ _ I), word_clear by done. exists c, false. pose proof (num_pos mtaker _ _ _ Hp eq_refl). assert (counted (mw_main s) = true → published (mw_main s) = true) by (by destruct (mw_main s)). destruct I. destruct (mw_reg s) eqn:Hr; mw_moved Hp.
  - rewrite (pi_n _ _ _ I), word_count, word_or by done. exists c, true. destruct I. case_match eqn:E; mw_moved Hp.
  - pose proof (num_pos clearer _ _ _ Hp eq_refl). exists c, (if r then false else b). destruct r; [rewrite (pi_n _ _ _ I), word_clear by done|]; destruct I; mw_moved Hp.
Qed.

Lemma pool_step_inv s s' : (∃ c b, pool_inv s c b) → pool_step s s' → ∃ c b, pool_inv s' c b.
Proof.
  intros (c & b & I) [s1 H|i s1 H].
  - destruct (pool_main_step_inv _ _ _ _ I H) as [b' ?]. by exists c, b'.
  - by apply (pool_other_step_inv s c b i).
Qed.

Lemma pool_inv_init s : pool_init s → ∃ c b, pool_inv s c b.
Proof.
  intros (Hm & Hw & (c & b & Hc & Hn) & Hp). exists c, b.
  assert (Hz : ∀ P : opc → bool, P OIdle = false → P OKick = false → num P (mw_pcs s) = 0).
  { intros P H1 H2. apply num_none. intros i p Hi. by destruct (Hp i p Hi) as [-> | ->]. }
  constructor; rewrite ?Hm; try done; [|by intros [?|?]]. intros H. rewrite !Hz in H by done. lia.
Qed.

(** Main in the pool is not left asleep with something to do.  However main, the pushers, the
    members of the group and its other waiters interleave: if main is asleep, then its inboxes are
    empty and the group it waits for is still counting, with [threadWaiter] its word and the bit set
    that sends the last [Done] to wake it, or another thread is on its way to kick or wake it; and
    main leaves only at a count of zero, with [threadWaiter] cleared. *)
Theorem main_pool_no_lost_wake s :
  reachable pool_init pool_step s →
  (mw_main s = PAsleep →
     (mw_queue s = [] ∧ 0 < count_of (mw_n s) ∧ mw_reg s = true ∧ has_waiter (mw_n s) = true ∧ mw_word s = kWaitWaiting) ∨
     ∃ i, mw_pcs s !! i = Some OKick ∨ mw_pcs s !! i = Some OWake ∨ mw_pcs s !! i = Some OTake) ∧
  (mw_main s = POut → count_of (mw_n s) = 0 ∧ mw_reg s = false).
Proof.
  intros Hr. destruct (reachable_ind _ _ _ pool_inv_init pool_step_inv s Hr) as (c & b & I). pose proof (pi_c _ _ _ I) as Hc.
  rewrite (pi_n _ _ _ I), word_count, word_bit by done. split; [|intros Hm; split; [apply (pi_exit _ _ _ I); by right|by apply (pi_out _ _ _ I)]].
  intros Hm. destruct I as [_ _ _ I1 _ I2 I3 I4 _ _]. rewrite Hm in *.
  destruct (on_their_way (mw_pcs s)) as [H|(Hk & Hw & Ht)]; [by right|].
  left. destruct (I4 eq_refl) as [Hword|?]; [|lia]. destruct (I3 eq_refl) as [Hq|[?|?]]; [|lia|done]. destruct (I2 eq_refl) as [[? ?]|[?|[?|?]]]; [|lia|lia|done].
  split_and!; auto.
Qed.

(** Main finds nothing and goes to sleep on a group of one; that task ends and reads main's word. *)
Definition pool_start : mainwait pool_pc := mkMW kWaitRunning [] 1 false true PTop {[0%nat := OIdle]}.
Definition pool_end : mainwait pool_pc := mkMW kWaitWaiting [] 0 true true PAsleep {[0%nat := OKick]}.

Lemma main_pool_no_lost_wake_witness : reachable pool_init pool_step pool_end ∧ ∃ i, mw_pcs pool_end !! i = Some OKick.
Proof.
  assert (Hr : reachable pool_init pool_step pool_end).
  { exists pool_start. split.
    - split_and!; [reflexivity|done|exists 1, false; done|]. cbn. intros i p [<- <-]%lookup_singleton_Some. by left.
    - eapply rtc_l; [apply pw_by_main, pm_top; reflexivity|]. eapply rtc_l; [apply pw_by_main, pm_nothing; reflexivity|].
      eapply rtc_l; [apply pw_by_main, pm_cas; reflexivity|]. eapply rtc_l; [apply pw_by_main, pm_publish; reflexivity|].
      eapply rtc_l; [apply pw_by_main, pm_bit; reflexivity|]. eapply rtc_l; [apply pw_by_main, pm_done; reflexivity|].
      eapply rtc_l; [apply pw_by_main, pm_inbox; reflexivity|]. eapply rtc_l; [apply pw_by_main, (pm_rest _ true); reflexivity|].
      eapply rtc_l; [apply pw_by_main, pm_load; reflexivity|]. eapply rtc_l; [apply pw_by_main, pm_futex; reflexivity|].
      eapply rtc_l; [apply (pw_by_other _ 0%nat), mo_done; reflexivity|]. eapply rtc_l; [apply (pw_by_other _ 0%nat), mo_take; reflexivity|].
      eval_state. let y := eval vm_compute in pool_end in change pool_end with y. apply rtc_refl. }
  split; [exact Hr|]. destruct (proj1 (main_pool_no_lost_wake pool_end Hr) eq_refl) as [(_ & H & _)|_]; [discriminate H|]. by exists 0%nat.
Defined.
