(* ===== verification/CoroFrames.v ===== *)
(** * Coroutine frames (include/Coroutine.h, src/TaskScheduler.cpp)

    [FrameAlloc] takes a frame from the running pool's size-class allocator, or from the heap,
    and writes in front of it the generation of the pool it came from, 0 for the heap; [FrameFree]
    reads it back.  A frame may die under another pool than the one that made it, or under none.
    The allocator is that of [TaskAllocator], shared with the tasks; the pages of a pool that is
    gone stay mapped ([~SlabPool]), so no later block overlaps them. *)

From S2P Require Import Prelude SlabPool TaskAllocator.

Definition kFrameHeader : Z := 16.

(** [fr_inst]: [instance], with its [poolGen_] and its allocator; [fr_gens]:
    [g_poolGenerations]; [fr_pooling], [fr_small]: the two switches; [fr_hdr]: the [poolGen] of
    the header at an address; [fr_heap]: the blocks [operator new] has given and not got back;
    [fr_live]: the frames in use; [fr_tasks]: the slots of the running pool others hold. *)
Record frames := mkFrames {
  fr_inst : option (Z * list Class); fr_gens : Z; fr_pooling : bool; fr_small : bool;
  fr_hdr : gmap Z Z; fr_heap : list Z; fr_live : list Z; fr_tasks : list Z }.

Definition PoolGeneration (s : frames) : Z := match fr_inst s with Some (g, _) => g | None => 0 end.
Definition hdr_of (s : frames) (b : Z) : Z := default 0 (fr_hdr s !! b).

Definition with_classes (cs : list Class) (s : frames) : frames :=
  mkFrames (match fr_inst s with Some (g, _) => Some (g, cs) | None => None end) (fr_gens s) (fr_pooling s) (fr_small s) (fr_hdr s) (fr_heap s) (fr_live s) (fr_tasks s).
Definition with_heap (l : list Z) (s : frames) : frames :=
  mkFrames (fr_inst s) (fr_gens s) (fr_pooling s) (fr_small s) (fr_hdr s) l (fr_live s) (fr_tasks s).
Definition with_tasks (l : list Z) (s : frames) : frames :=
  mkFrames (fr_inst s) (fr_gens s) (fr_pooling s) (fr_small s) (fr_hdr s) (fr_heap s) (fr_live s) l.
Definition with_live (l : list Z) (s : frames) : frames :=
  mkFrames (fr_inst s) (fr_gens s) (fr_pooling s) (fr_small s) (fr_hdr s) (fr_heap s) l (fr_tasks s).
(** The header is written and the frame is in use. *)
Definition stamp_frame (base gen : Z) (s : frames) : frames :=
  mkFrames (fr_inst s) (fr_gens s) (fr_pooling s) (fr_small s) (<[base := gen]> (fr_hdr s)) (fr_heap s) (base :: fr_live s) (fr_tasks s).

(** The size asked of the allocator. *)
Definition frame_want (small : bool) (total : Z) : Z := if small then total else if total <=? SLOT then SLOT else total.

(** [FrameAlloc(n)] on thread [t]; [heap] is what [operator new] returns if it is asked. *)
Definition FrameAlloc (growth : bool) (fresh : Z → option Z) (heap : Z) (t : nat) (n : Z) (s : frames) : Z * frames :=
  let total := n + kFrameHeader in
  let '(base, s1) :=
    match fr_inst s with
    | Some (_, cs) => if fr_pooling s then let '(r, cs') := AllocSized growth fresh t (frame_want (fr_small s) total) cs in (r, with_classes cs' s) else (None, s)
    | None => (None, s)
    end in
  match base with
  | Some b => (b + kFrameHeader, stamp_frame b (PoolGeneration s1) s1)
  | None => (heap + kFrameHeader, stamp_frame heap 0 (with_heap (heap :: fr_heap s1) s1))
  end.

(** [operator delete] of what [operator new] did not give. *)
Inductive FrameFault := ForeignDelete.

(** [FrameFree(p)] on thread [t]. *)
Definition FrameFree (t : nat) (p : Z) (s : frames) : res FrameFault frames :=
  if p =? 0 then Ok s else
  let base := p - kFrameHeader in
  let gen := hdr_of s base in
  let s1 := with_live (filter (λ b, b ≠ base) (fr_live s)) s in
  if gen =? 0 then (if bool_decide (base ∈ fr_heap s) then Ok (with_heap (filter (λ b, b ≠ base) (fr_heap s)) s1) else Err ForeignDelete)
  else match fr_inst s with
       | Some (g, cs) => if g =? gen then Ok (with_classes (FreeSized t base cs).2 s1) else Ok s1
       | None => Ok s1
       end.

(** ** Frames, tasks and pools in any order *)

(** A class whose only block is the byte at [b]: what keeps clear of it keeps clear of [b]. *)
Definition point (b : Z) : Class := mkClass 1 (mkPool b 1 [] false 0 0 0) no_statics.

(** What the system allocator promises of an extent and of a heap block: neither overlaps what
    is in use, nor the pages of any pool. *)
Definition fresh_avoids (fresh : Z → option Z) (cs : list Class) (l : list Z) : Prop := ∀ b, b ∈ l → Forall (λ c, fresh_for fresh c (point b)) cs.
Definition system_ok (fresh : Z → option Z) (heap : Z) (s : frames) : Prop :=
  0 < heap ∧ heap ∉ fr_live s ∧
  match fr_inst s with Some (_, cs) => fresh_clear fresh cs ∧ fresh_avoids fresh cs (heap :: fr_live s) ∧ Forall (foreign (point heap)) cs | None => True end.

Inductive fr_step (s : frames) : frames → Prop :=
| fs_alloc growth fresh heap t n : 0 ≤ n → system_ok fresh heap s → fr_step s (FrameAlloc growth fresh heap t n s).2
| fs_free t b s' : b ∈ fr_live s → FrameFree t (b + kFrameHeader) s = Ok s' → fr_step s s'
(* a task's slot, from the same allocator *)
| fs_take growth fresh t n g cs x cs' : fr_inst s = Some (g, cs) → fresh_clear fresh cs → fresh_avoids fresh cs (fr_live s) →
    AllocSized growth fresh t n cs = (Some x, cs') → fr_step s (with_tasks (x :: fr_tasks s) (with_classes cs' s))
| fs_give t g cs x l : fr_inst s = Some (g, cs) → fr_tasks s ≡ₚ x :: l → fr_step s (with_tasks l (with_classes (FreeSized t x cs).2 s))
(* [Init]: the constructor takes the next generation; [new_TaskAllocator] has handed out nothing *)
| fs_init cs : fr_inst s = None → alloc_inv cs (replicate (length cs) []) → (∀ b, b ∈ fr_live s → Forall (foreign (point b)) cs) →
    fr_step s (mkFrames (Some (fr_gens s + 1, cs)) (fr_gens s + 1) (fr_pooling s) (fr_small s) (fr_hdr s) (fr_heap s) (fr_live s) [])
(* the pool ends *)
| fs_destroy : fr_step s (mkFrames None (fr_gens s) (fr_pooling s) (fr_small s) (fr_hdr s) (fr_heap s) (fr_live s) [])
(* [SetCoroFramePooling], [SetCoroSmallFrameClass] *)
| fs_set a b : fr_step s (mkFrames (fr_inst s) (fr_gens s) a b (fr_hdr s) (fr_heap s) (fr_live s) (fr_tasks s)).

Definition fr_init (s : frames) : Prop := s = mkFrames None 0 true true ∅ [] [] [].

(** The frames in use of one generation. *)
Definition of_gen (s : frames) (g : Z) : list Z := filter (λ b, hdr_of s b = g) (fr_live s).

Record fr_inv (s : frames) : Prop := {
  fi_live : NoDup (fr_live s);
  fi_pos b : b ∈ fr_live s → 0 < b;
  fi_gens : 0 ≤ fr_gens s;
  fi_hdr b : b ∈ fr_live s → 0 ≤ hdr_of s b ≤ fr_gens s;
  fi_heap : fr_heap s ≡ₚ of_gen s 0;
  fi_pool g cs : fr_inst s = Some (g, cs) →
    g = fr_gens s ∧ 0 < g ∧ (∃ outs, alloc_inv cs outs ∧ mjoin outs ≡ₚ of_gen s g ++ fr_tasks s) ∧
    ∀ b, b ∈ fr_live s → hdr_of s b ≠ g → Forall (foreign (point b)) cs }.

(** ** Slots of the allocator *)

Lemma slot_in_block c A x : class_inv c A → x ∈ A → 0 < x ∧ ∃ e, e ∈ blocks (cpool c) ∧ ext_mem e ≤ x < ext_mem e + ext_slots e * slotSize c.
Proof.
  intros Hc Hx. pose proof (class_out c A x Hc Hx) as Hb. destruct Hc as (Hs & L & C & [_ Hok _ _ _ _]).
  pose proof (carved_nonzero _ Hs _ Hok) as H0. pose proof Hb as (e & He & Hxe)%carved_in. rewrite Forall_forall in Hok. pose proof (Hok e He) as Hbe.
  destruct (slots_of_in _ Hs _ _ Hbe Hxe) as [Hr _]. destruct Hbe as (_ & Hm & _). split; [|by exists e].
  assert (x ≠ 0) by (intros ->; by apply H0). lia.
Qed.

(** A slot handed out is in its class's block, so nothing that keeps clear of the pool is there. *)
Lemma out_not_clear c A x : class_inv c A → x ∈ A → ¬ foreign (point x) c.
Proof.
  intros Hc Hx Hf. destruct (slot_in_block c A x Hc Hx) as (_ & e & He & Hr). specialize (Hf (block0 (cpool (point x))) ltac:(set_solver) e He). cbn in Hf. lia.
Qed.

Lemma elem_of_outs cs outs x : alloc_inv cs outs → x ∈ mjoin outs → ∃ i c A, cs !! i = Some c ∧ outs !! i = Some A ∧ x ∈ A ∧ class_inv c A.
Proof.
  intros [Hc _] (A & Hx & [i Hi]%list_elem_of_lookup_1)%list_elem_of_join. destruct (Forall2_lookup_r _ _ _ _ _ Hc Hi) as (c & Hci & ?). by exists i, c, A.
Qed.

Lemma outs_not_clear cs outs x : alloc_inv cs outs → x ∈ mjoin outs → ¬ Forall (foreign (point x)) cs.
Proof.
  intros I Hx Hf. destruct (elem_of_outs _ _ _ I Hx) as (i & c & A & Hc & _ & Hin & Hinv). apply (out_not_clear c A x Hinv Hin). rewrite Forall_forall in Hf. apply Hf. by eapply list_elem_of_lookup_2.
Qed.

Lemma outs_pos cs outs x : alloc_inv cs outs → x ∈ mjoin outs → 0 < x.
Proof. intros I Hx. destruct (elem_of_outs _ _ _ I Hx) as (i & c & A & _ & _ & Hin & Hinv). by apply (slot_in_block c A). Qed.

Lemma class_nodup c A : class_inv c A → NoDup A.
Proof.
  intros (Hs & L & C & [_ Hok Hap _ _ Hp]). pose proof (carved_nodup _ Hs _ Hok Hap) as Hn. change (carved _ _) with (bumped (slotSize c) (cpool c)) in Hn.
  rewrite <- Hp in Hn. apply NoDup_app in Hn as (_ & _ & Hn). by apply NoDup_app in Hn as (_ & _ & Hn).
Qed.

(** No slot is out twice, whatever its class. *)
Lemma outs_nodup cs outs : alloc_inv cs outs → NoDup (mjoin outs).
Proof.
  intros [Hc Hp]. revert Hp. induction Hc as [|c A cs outs Hc Hcs IH]; [constructor|]. intros [Hf Hp]. cbn. apply NoDup_app. split_and!; [by eapply class_nodup| |by apply IH].
  intros x Hx Hxo. destruct (elem_of_outs cs outs x (conj Hcs Hp) Hxo) as (i & d & B & Hd & _ & HB & Hinv).
  rewrite Forall_forall in Hf. specialize (Hf d (list_elem_of_lookup_2 _ _ _ Hd)).
  destruct (slot_in_block c A x Hc Hx) as (_ & e & He & Hr). destruct (slot_in_block d B x Hinv HB) as (_ & e' & He' & Hr'). specialize (Hf e He e' He'). lia.
Qed.

Lemma join_insert (outs : list (list Z)) i A B l : outs !! i = Some A → B ≡ₚ l ++ A → mjoin (<[i := B]> outs) ≡ₚ l ++ mjoin outs.
Proof.
  intros Hi HB. rewrite insert_take_drop by (by eapply lookup_lt_Some). rewrite <- (take_drop_middle outs i A Hi) at 3.
  rewrite !join_app. cbn. rewrite HB. solve_Permutation.
Qed.

(** What [AllocSized] does to the slots that are out. *)
Lemma frames_alloc growth fresh t n cs outs x cs' : alloc_inv cs outs → fresh_clear fresh cs → AllocSized growth fresh t n cs = (Some x, cs') →
  ∃ outs', alloc_inv cs' outs' ∧ mjoin outs' ≡ₚ x :: mjoin outs ∧ x ∉ mjoin outs ∧ 0 < x.
Proof.
  intros I Hf Ha. destruct (AllocSized_inv _ _ _ _ _ _ _ _ I Hf Ha) as [(i & c & A & _ & HA & _ & _ & I') _].
  assert (Hj : mjoin (<[i := x :: A]> outs) ≡ₚ x :: mjoin outs) by (by apply (join_insert outs i A (x :: A) [x])).
  exists (<[i := x :: A]> outs). split_and!; [done|done| |].
  - pose proof (outs_nodup _ _ I') as Hn. rewrite Hj in Hn. by apply NoDup_cons in Hn as [? _].
  - apply (outs_pos _ _ x I'). rewrite Hj. set_solver.
Qed.

Lemma frames_free t x cs outs l : alloc_inv cs outs → mjoin outs ≡ₚ x :: l →
  ∃ cs' outs', FreeSized t x cs = (true, cs') ∧ alloc_inv cs' outs' ∧ mjoin outs' ≡ₚ l ∧ ∀ d, Forall (foreign d) cs → Forall (foreign d) cs'.
Proof.
  intros I Hl. destruct (elem_of_outs cs outs x I) as (i & c & A & _ & Hi & Hx & _); [rewrite Hl; set_solver|].
  apply elem_of_Permutation in Hx as [A' HA]. destruct (FreeSized_inv t x cs outs i A A' I Hi HA) as (cs' & Hf & I' & Hd). exists cs', (<[i := A']> outs). split_and!; try done.
  apply (Permutation_cons_inv (a := x)). rewrite <- Hl. assert (Hi' : <[i := A']> outs !! i = Some A') by (apply list_lookup_insert_eq; by eapply lookup_lt_Some).
  rewrite <- (join_insert (<[i := A']> outs) i A' A [x] Hi' HA), list_insert_insert_eq, list_insert_id by done. done.
Qed.

(** ** The invariant is kept *)

Lemma filter_agree (P Q : Z → Prop) `{∀ x, Decision (P x), ∀ x, Decision (Q x)} (l : list Z) : (∀ x, x ∈ l → P x ↔ Q x) → filter P l = filter Q l.
Proof.
  induction l as [|x l IH]; [done|]. intros H1. rewrite !filter_cons, IH by set_solver. specialize (H1 x ltac:(set_solver)). repeat case_decide; tauto.
Qed.

Lemma of_gen_stamp s b g g' : b ∉ fr_live s → of_gen (stamp_frame b g s) g' = (if decide (g = g') then [b] else []) ++ of_gen s g'.
Proof.
  intros Hb. unfold of_gen, hdr_of. cbn [stamp_frame fr_live fr_hdr]. assert (Hs : filter (λ x, default 0 (<[b:=g]> (fr_hdr s) !! x) = g') (fr_live s) = filter (λ x, default 0 (fr_hdr s !! x) = g') (fr_live s)).
  { apply filter_agree. intros x Hx. by rewrite lookup_insert_ne by (by intros ->). }
  rewrite filter_cons, Hs, lookup_insert_eq. cbn. repeat case_decide; done.
Qed.

Lemma hdr_stamp s b g x : hdr_of (stamp_frame b g s) x = if decide (x = b) then g else hdr_of s x.
Proof. unfold hdr_of. cbn. case_decide as E; [by rewrite E, lookup_insert_eq|by rewrite lookup_insert_ne]. Qed.

(** What a frame leaves when it is gone. *)
Lemma filter_remove (l : list Z) b : NoDup l → b ∈ l → l ≡ₚ b :: filter (λ x, x ≠ b) l.
Proof.
  intros Hn [l' Hl]%elem_of_Permutation. rewrite Hl in Hn |- *. apply NoDup_cons in Hn as [Hb _]. rewrite filter_cons_False by (by intros H). f_equiv. rewrite filter_keep; [done|]. intros x Hx ->. done.
Qed.

Lemma of_gen_gone s b g : NoDup (fr_live s) → b ∈ fr_live s →
  of_gen s g ≡ₚ (if decide (hdr_of s b = g) then [b] else []) ++ of_gen (with_live (filter (λ x, x ≠ b) (fr_live s)) s) g.
Proof.
  intros Hn Hb. unfold of_gen. rewrite (filter_remove _ _ Hn Hb) at 1. rewrite filter_cons. by case_decide.
Qed.

(** A block nobody has becomes a frame of generation [g]. *)
Lemma fr_inv_new s b g inst heap : fr_inv s → b ∉ fr_live s → 0 < b → 0 ≤ g ≤ fr_gens s → heap ≡ₚ of_gen (stamp_frame b g s) 0 →
  (∀ h cs, inst = Some (h, cs) → h = fr_gens s ∧ 0 < h ∧ (∃ outs, alloc_inv cs outs ∧ mjoin outs ≡ₚ of_gen (stamp_frame b g s) h ++ fr_tasks s) ∧
     (g ≠ h → Forall (foreign (point b)) cs) ∧ ∀ x, x ∈ fr_live s → hdr_of s x ≠ h → Forall (foreign (point x)) cs) →
  fr_inv (mkFrames inst (fr_gens s) (fr_pooling s) (fr_small s) (<[b := g]> (fr_hdr s)) heap (b :: fr_live s) (fr_tasks s)).
Proof.
  intros [] Hb Hp Hg Hh Hi. constructor; try done.
  - by constructor.
  - intros x [->|Hx]%elem_of_cons; auto.
  - intros x Hx. change (0 ≤ hdr_of (stamp_frame b g s) x ≤ fr_gens s). rewrite hdr_stamp. case_decide as Ex; [done|]. apply fi_hdr0. set_solver.
  - intros h cs E. destruct (Hi h cs E) as (? & ? & ? & Hn & Hf). split_and!; try done.
    intros x Hx. change (hdr_of (stamp_frame b g s) x ≠ h → Forall (foreign (point x)) cs). rewrite hdr_stamp. case_decide as Ex; [by rewrite Ex|]. apply Hf. set_solver.
Qed.

(** The allocator of the running pool changes and no frame does. *)
Lemma fr_inv_classes s g cs cs' l : fr_inv s → fr_inst s = Some (g, cs) → (∃ outs, alloc_inv cs' outs ∧ mjoin outs ≡ₚ of_gen s g ++ l) →
  (∀ b, b ∈ fr_live s → Forall (foreign (point b)) cs → Forall (foreign (point b)) cs') → fr_inv (with_tasks l (with_classes cs' s)).
Proof.
  intros [] E Ho Hf. constructor; try done. intros h ds. cbn. rewrite E. intros [= <- <-]. destruct (fi_pool0 g cs E) as (? & ? & _ & Hc). split_and!; try done. auto.
Qed.

(** A frame from the heap. *)
Lemma fr_inv_heap s heap : fr_inv s → heap ∉ fr_live s → 0 < heap → (∀ g cs, fr_inst s = Some (g, cs) → Forall (foreign (point heap)) cs) →
  fr_inv (stamp_frame heap 0 (with_heap (heap :: fr_heap s) s)).
Proof.
  intros I Hl Hp Hc. apply (fr_inv_new s heap 0); try done.
  - pose proof (fi_gens _ I). lia.
  - rewrite of_gen_stamp, decide_True by done. apply perm_skip, (fi_heap _ I).
  - intros h cs E. destruct (fi_pool _ I h cs E) as (? & ? & ? & ?). rewrite of_gen_stamp, decide_False by (done || lia). split_and!; try done. intros _. by eapply Hc.
Qed.

Lemma fr_inv_alloc growth fresh heap t n s : fr_inv s → 0 ≤ n → system_ok fresh heap s → fr_inv (FrameAlloc growth fresh heap t n s).2.
Proof.
  intros I Hn (Hh & Hl & Hsys). unfold FrameAlloc.
  destruct (fr_inst s) as [[g cs]|] eqn:E; [|apply fr_inv_heap; try done; intros g cs E1; by rewrite E in E1]. destruct Hsys as (Hfc & Hfa & Hfh).
  destruct (fr_pooling s); [|apply fr_inv_heap; try done; intros h ds E1; rewrite E in E1; by injection E1 as <- <-]. destruct (AllocSized _ _ _ _ _) as [r cs'] eqn:Ha.
  destruct (fi_pool _ I g cs E) as (Eg & Hg & (outs & Ho & Hj) & Hf).
  assert (Hpt : ∀ b, b ∈ heap :: fr_live s → Forall (foreign (point b)) cs → Forall (foreign (point b)) cs') by (intros b Hb Hc; by eapply AllocSized_foreign; eauto).
  destruct r as [x|].
  - destruct (frames_alloc _ _ _ _ _ _ _ _ Ho Hfc Ha) as (outs' & Ho' & Hj' & Hx & Hx0).
    assert (Hxl : x ∉ fr_live s).
    { intros Hin. destruct (decide (hdr_of s x = g)) as [Eh|Eh].
      - apply Hx. rewrite Hj. apply elem_of_app. left. by apply list_elem_of_filter.
      - apply (outs_not_clear cs' outs' x Ho'); [rewrite Hj'; set_solver|]. apply Hpt; [set_solver|]. by apply Hf. }
    unfold PoolGeneration, with_classes. cbn [snd fr_inst]. rewrite E. apply (fr_inv_new s x g (Some (g, cs')) (fr_heap s)); try done; [lia| |].
    + rewrite of_gen_stamp, decide_False by (done || lia). apply (fi_heap _ I).
    + intros h ds [= <- <-]. split_and!; try done.
      * exists outs'. split; [done|]. by rewrite of_gen_stamp, decide_True, Hj', Hj by done.
      * intros b Hb Hne. apply Hpt; [set_solver|]. by apply Hf.
  - assert (I' : fr_inv (with_tasks (fr_tasks s) (with_classes cs' s))).
    { apply (fr_inv_classes s g cs); [done|done| |].
      - exists outs. split; [|done]. by destruct (AllocSized_inv _ _ _ _ _ _ _ _ Ho Hfc Ha).
      - intros b Hb. apply Hpt. set_solver. }
    apply (fr_inv_heap (with_tasks (fr_tasks s) (with_classes cs' s))); try done. cbn. rewrite E. intros h ds [= <- <-]. apply Hpt; [set_solver|done].
Qed.

(** What freeing a frame does, by where it came from. *)
Lemma FrameFree_cases s b t : fr_inv s → b ∈ fr_live s →
  let s1 := with_live (filter (λ x, x ≠ b) (fr_live s)) s in
  (hdr_of s b = 0 ∧ fr_heap s ≡ₚ b :: filter (λ x, x ≠ b) (fr_heap s) ∧ FrameFree t (b + kFrameHeader) s = Ok (with_heap (filter (λ x, x ≠ b) (fr_heap s)) s1)) ∨
  (∃ cs cs' outs', fr_inst s = Some (hdr_of s b, cs) ∧ hdr_of s b ≠ 0 ∧ FreeSized t b cs = (true, cs') ∧ FrameFree t (b + kFrameHeader) s = Ok (with_classes cs' s1) ∧
     alloc_inv cs' outs' ∧ mjoin outs' ≡ₚ of_gen s1 (hdr_of s b) ++ fr_tasks s ∧ ∀ d, Forall (foreign d) cs → Forall (foreign d) cs') ∨
  (hdr_of s b ≠ 0 ∧ hdr_of s b ≠ PoolGeneration s ∧ FrameFree t (b + kFrameHeader) s = Ok s1).
Proof.
  intros I Hb s1. unfold FrameFree. replace (b + kFrameHeader - kFrameHeader) with b by lia. pose proof (fi_pos _ I b Hb) as Hp.
  rewrite (proj2 (Z.eqb_neq (b + kFrameHeader) 0)) by (unfold kFrameHeader; lia). destruct (Z.eqb_spec (hdr_of s b) 0) as [E|E].
  - left. assert (Hh : b ∈ fr_heap s) by (rewrite (fi_heap _ I); by apply list_elem_of_filter). split_and!; [done| |by rewrite bool_decide_true].
    apply filter_remove; [|done]. rewrite (fi_heap _ I). apply NoDup_filter, (fi_live _ I).
  - right. unfold PoolGeneration. destruct (fr_inst s) as [[g cs]|] eqn:Ei; [|right; by split_and!].
    destruct (Z.eqb_spec g (hdr_of s b)) as [Eg|Eg]; [left|right; by split_and!]. destruct (fi_pool _ I g cs Ei) as (_ & _ & (outs & Ho & Hj) & _). rewrite Eg in Hj |- *.
    rewrite (of_gen_gone s b (hdr_of s b) (fi_live _ I) Hb), decide_True in Hj by done. destruct (frames_free t b cs outs _ Ho Hj) as (cs' & outs' & Hf & Ho' & Hj' & Hd).
    exists cs, cs', outs'. rewrite Hf. by split_and!.
Qed.

(** A frame is gone, from the heap or the allocator, or with its pool. *)
Lemma fr_inv_gone s b inst heap : let s1 := with_live (filter (λ x, x ≠ b) (fr_live s)) s in
  fr_inv s → b ∈ fr_live s → heap ≡ₚ of_gen s1 0 →
  (∀ h cs, inst = Some (h, cs) → h = fr_gens s ∧ 0 < h ∧ (∃ outs, alloc_inv cs outs ∧ mjoin outs ≡ₚ of_gen s1 h ++ fr_tasks s) ∧
     ∀ x, x ∈ fr_live s → hdr_of s x ≠ h → Forall (foreign (point x)) cs) →
  fr_inv (mkFrames inst (fr_gens s) (fr_pooling s) (fr_small s) (fr_hdr s) heap (fr_live s1) (fr_tasks s)).
Proof.
  intros s1 [] Hb Hh Hi. assert (Hin : ∀ x, x ∈ fr_live s1 → x ∈ fr_live s) by (intros x [_ Hx]%list_elem_of_filter; done).
  constructor; try done; cbn [fr_live fr_gens].
  - by apply NoDup_filter.
  - auto.
  - intros x Hx. apply (fi_hdr0 x). auto.
  - intros h cs E. destruct (Hi h cs E) as (? & ? & ? & Hf). split_and!; try done. intros x Hx. by apply Hf, Hin.
Qed.

Lemma fr_inv_free s b t s' : fr_inv s → b ∈ fr_live s → FrameFree t (b + kFrameHeader) s = Ok s' → fr_inv s'.
Proof.
  intros I Hb Hf. pose proof (of_gen_gone s b 0 (fi_live _ I) Hb) as G0.
  assert (Hother : ∀ h cs, fr_inst s = Some (h, cs) → hdr_of s b ≠ h → h = fr_gens s ∧ 0 < h ∧
    (∃ outs, alloc_inv cs outs ∧ mjoin outs ≡ₚ of_gen (with_live (filter (λ x, x ≠ b) (fr_live s)) s) h ++ fr_tasks s) ∧ ∀ x, x ∈ fr_live s → hdr_of s x ≠ h → Forall (foreign (point x)) cs).
  { intros h cs E Hne. destruct (fi_pool _ I h cs E) as (? & ? & (outs & Ho & Hj) & ?). split_and!; try done. exists outs. split; [done|].
    by rewrite (of_gen_gone s b h (fi_live _ I) Hb), decide_False in Hj by done. }
  destruct (FrameFree_cases s b t I Hb) as [(Eh & Hh & Er)|[(cs & cs' & outs' & Ei & Eh & _ & Er & Ho & Hj & Hd)|(Eh & En & Er)]]; rewrite Er in Hf; injection Hf as <-.
  - rewrite decide_True in G0 by done. apply (fr_inv_gone s b (fr_inst s)); try done.
    + apply (Permutation_cons_inv (a := b)). rewrite <- Hh, (fi_heap _ I). done.
    + intros h cs E. apply Hother; [done|]. destruct (fi_pool _ I h cs E) as (? & ? & _). lia.
  - rewrite decide_False in G0 by done. unfold with_classes. cbn [fr_inst with_live]. rewrite Ei. apply (fr_inv_gone s b (Some (hdr_of s b, cs')) (fr_heap s)); try done.
    + by rewrite (fi_heap _ I).
    + intros h ds [= <- <-]. destruct (fi_pool _ I _ cs Ei) as (? & ? & _ & Hc). split_and!; try done; [by exists outs'|]. intros x Hx Hne. by apply Hd, Hc.
  - rewrite decide_False in G0 by done. apply (fr_inv_gone s b (fr_inst s) (fr_heap s)); try done; [by rewrite (fi_heap _ I)|].
    intros h cs E. apply Hother; [done|]. unfold PoolGeneration in En. by rewrite E in En.
Qed.

Lemma fr_inv_step s s' : fr_inv s → fr_step s s' → fr_inv s'.
Proof.
  intros I Hs. destruct Hs as [growth fresh heap t n Hn Hsys|t b s' Hb Hf|growth fresh t n g cs x cs' E Hfc Hfa Ha|t g cs x l E Hx|cs E Ho Hf| |a b].
  - by apply fr_inv_alloc.
  - by eapply fr_inv_free.
  - destruct (fi_pool _ I g cs E) as (_ & _ & (outs & Ho & Hj) & _). destruct (frames_alloc _ _ _ _ _ _ _ _ Ho Hfc Ha) as (outs' & Ho' & Hj' & _ & _).
    apply (fr_inv_classes s g cs); [done|done| |intros b Hb Hc; by eapply AllocSized_foreign; eauto].
    exists outs'. split; [done|]. rewrite Hj', Hj. solve_Permutation.
  - destruct (fi_pool _ I g cs E) as (_ & _ & (outs & Ho & Hj) & _). destruct (frames_free t x cs outs (of_gen s g ++ l) Ho) as (cs' & outs' & -> & Ho' & Hj' & Hd).
    { rewrite Hj, Hx. solve_Permutation. }
    apply (fr_inv_classes s g cs); [done|done|by exists outs'|auto].
  - destruct I. assert (H0 : of_gen s (fr_gens s + 1) = []).
    { destruct (of_gen s (fr_gens s + 1)) as [|x l] eqn:El; [done|]. assert (Hx : x ∈ of_gen s (fr_gens s + 1)) by (rewrite El; set_solver). apply list_elem_of_filter in Hx as [Hx Hin]. specialize (fi_hdr0 x Hin). lia. }
    constructor; try done; cbn [fr_gens fr_live fr_inst]; [lia|intros b Hb; specialize (fi_hdr0 b Hb); change (0 ≤ hdr_of s b ≤ fr_gens s + 1); lia|]. intros h ds [= <- <-]. split_and!; [done|lia| |auto].
    exists (replicate (length cs) []). split; [done|]. change (mjoin (replicate (length cs) []) ≡ₚ of_gen s (fr_gens s + 1) ++ []). rewrite H0. clear. induction (length cs) as [|k IH]; [done|exact IH].
  - destruct I. by constructor.
  - by destruct I.
Qed.

Lemma fr_inv_init s : fr_init s → fr_inv s.
Proof. intros ->. constructor; cbn; try done; try lia; try set_solver. constructor. Qed.

(** Every frame goes back where it came from, and nowhere else.  However frames are made and
    freed, tasks take and give slots of the same allocator, the switches are turned and pools are
    started and ended in between: no two frames in use are at one address, and freeing a frame never
    deletes what the heap did not give; a heap frame goes to the heap, a frame of the running pool
    is recognised by its allocator and given back to it, and a frame of a pool that is gone
    changes neither. *)
Theorem frames_go_home s b t :
  reachable fr_init fr_step s → b ∈ fr_live s →
  NoDup (fr_live s) ∧ ∃ s', FrameFree t (b + kFrameHeader) s = Ok s' ∧ fr_live s ≡ₚ b :: fr_live s' ∧
  ((hdr_of s b = 0 ∧ fr_heap s ≡ₚ b :: fr_heap s' ∧ fr_inst s' = fr_inst s) ∨
   (∃ cs cs', fr_inst s = Some (hdr_of s b, cs) ∧ FreeSized t b cs = (true, cs') ∧ fr_inst s' = Some (hdr_of s b, cs') ∧ fr_heap s' = fr_heap s) ∨
   (hdr_of s b ≠ 0 ∧ hdr_of s b ≠ PoolGeneration s ∧ fr_inst s' = fr_inst s ∧ fr_heap s' = fr_heap s)).
Proof.
  intros Hr Hb. pose proof (reachable_ind _ _ fr_inv fr_inv_init fr_inv_step s Hr) as I. pose proof (fi_live _ I) as Hn. pose proof (filter_remove _ _ Hn Hb) as Hl. split; [done|].
  destruct (FrameFree_cases s b t I Hb) as [(Eh & Hh & Er)|[(cs & cs' & outs' & Ei & Eh & Hf & Er & _)|(Eh & En & Er)]]; rewrite Er; eexists; (split; [reflexivity|split; [exact Hl|]]).
  - by left.
  - right. left. exists cs, cs'. unfold with_classes. cbn. by rewrite Ei.
  - right. right. done.
Qed.

(** A frame made under the first pool dies under the second. *)
Definition fr_none : frames := mkFrames None 0 true true ∅ [] [] [].
Definition fr_first : frames := mkFrames (Some (1, small_allocator)) 1 true true ∅ [] [] [].
Definition fr_one : frames := (FrameAlloc true (λ _, None) 64 0 100 fr_first).2.
Definition fr_after : frames := mkFrames None 1 true true (fr_hdr fr_one) [] (fr_live fr_one) [].

Lemma frames_go_home_witness : reachable fr_init fr_step fr_after ∧ hdr_of fr_after 524416 = 1 ∧ ∃ s', FrameFree 0 (524416 + kFrameHeader) fr_after = Ok s' ∧ fr_heap s' = [].
Proof.
  assert (Hr : reachable fr_init fr_step fr_after).
  { exists fr_none. split; [reflexivity|]. eapply rtc_l; [apply (fs_init _ small_allocator); [reflexivity|exact small_allocator_inv|set_solver]|].
    eapply rtc_l; [apply (fs_alloc _ true (λ _, None) 64 0%nat 100); [done|]; split_and!; [done|set_solver|]|].
    - split_and!; [done| |].
      + intros b _. apply Forall_forall. intros c _ base ?. done.
      + repeat (apply Forall_cons; split; [intros e ->%list_elem_of_singleton e' ->%list_elem_of_singleton; vm_compute; left; discriminate|]). by apply Forall_nil.
    - apply rtc_once. exact (fs_destroy fr_one). }
  split; [exact Hr|]. split; [reflexivity|]. destruct (frames_go_home fr_after 524416 0%nat Hr) as (_ & s' & H1 & _ & [(Hz & _)|[(cs & cs' & Hi & _)|(_ & _ & _ & H2)]]).
  - vm_compute. left.
  - discriminate Hz.
  - discriminate Hi.
  - exists s'. split; [exact H1|exact H2].
Defined.
