(* ===== verification/SpinHelp.v ===== *)
(** * Helping while spinning, and blocking in place (src/TaskScheduler.cpp, src/Thread.cpp)

    A thread that spins on a lock or waits off the pool takes coroutines off the deques
    ([GetTask], [TryRunStolenNativeTask]; running the task is [TaskRun.help_run]).  A worker about to
    block in foreign code moves its inbox onto its deque and says it is away ([BlockBegin]).  The
    first part and the counting of nested blocks are functions; what a push that has already picked
    the worker can still do to its inbox is a step relation. *)

From S2P Require Import Prelude TaskTypes Placement WorkerFind.

(** ** The inbox goes onto the deque *)

(** The loop of [DrainOwnInboxesToDeques]: batches of up to 64, in order; whether it moved
    anything. *)
Fixpoint drain_loop (fuel : nat) (inbox deque : list Z) (moved : bool) : option (bool * list Z * list Z) :=
  match fuel with
  | O => None
  | S k =>
      let batch := take BATCH_SIZE inbox in
      match batch with
      | [] => Some (moved, inbox, deque)
      | _ =>
          let batch := filter (λ t, t ≠ 0) batch in
          drain_loop k (drop BATCH_SIZE inbox) (deque ++ batch) (moved || negb (bool_decide (batch = [])))
      end
  end.

Definition DrainOwnInboxesToDeques (reserved : bool) (inbox deque : list Z) : option (bool * list Z * list Z) :=
  if reserved then Some (false, inbox, deque) else drain_loop (S (length inbox)) inbox deque false.

Lemma drain_loop_spec fuel inbox deque m : (length inbox < fuel)%nat →
  drain_loop fuel inbox deque m = Some (m || negb (bool_decide (filter (λ t, t ≠ 0) inbox = [])), [], deque ++ filter (λ t, t ≠ 0) inbox).
Proof.
  revert inbox deque m. induction fuel as [|k IH]; intros inbox deque m Hf; [lia|]. cbn [drain_loop].
  destruct (take BATCH_SIZE inbox) as [|x b] eqn:E.
  - assert (inbox = []) as -> by (by destruct inbox). cbn. by rewrite orb_false_r, app_nil_r.
  - rewrite <- E. assert (inbox ≠ []) by (by intros ->). rewrite IH by (rewrite length_drop; unfold BATCH_SIZE; destruct inbox; [done|]; simpl in *; lia).
    assert (Hs : filter (λ t, t ≠ 0) inbox = filter (λ t, t ≠ 0) (take BATCH_SIZE inbox) ++ filter (λ t, t ≠ 0) (drop BATCH_SIZE inbox)) by (by rewrite <- filter_app, take_drop).
    rewrite Hs, app_assoc, <- orb_assoc. do 4 f_equal. destruct (filter _ (take _ _)); [done|]. rewrite !bool_decide_false by done. done.
Qed.

(** ** Coroutines off the deques *)

Section help.
Variable ty : Z → TaskType.

Definition fiberlessRunnable (t : Z) : bool := bool_decide (ty t = Coroutine).

(** [steal_if] on a deque: its front, if it passes; [comes] is false when another took it. *)
Definition front_if (comes : nat → bool) (d : nat) (deqs : list (list Z)) : option Z * list (list Z) :=
  match deqs !! d with
  | Some (t :: r) => if fiberlessRunnable t && comes d then (Some t, <[d := r]> deqs) else (None, deqs)
  | _ => (None, deqs)
  end.

Fixpoint scan_deques (comes : nat → bool) (targets : list nat) (deqs : list (list Z)) : option Z * list (list Z) :=
  match targets with
  | [] => (None, deqs)
  | d :: r => match front_if comes d deqs with (Some t, deqs') => (Some t, deqs') | (None, _) => scan_deques comes r deqs end
  end.

(** [GetTask]: every deque once, from a random one; [rnd] is what [rand] returns. *)
Definition scan_order (rnd n : nat) : list nat := (λ i, ((rnd mod n + i) mod n)%nat) <$> seq 0 n.
Definition GetTask (comes : nat → bool) (rnd : nat) (deqs : list (list Z)) : option Z * list (list Z) := scan_deques comes (scan_order rnd (length deqs)) deqs.

(** The calling thread: whether it is a pool worker, its [qIndex] and whether that is reserved. *)
Record helper := mkHelper { h_pool : bool; h_q : nat; h_reserved : bool }.

(** The first half of [TryRunStolenNativeTask]: the task to run, the inbox, the deques, and whether
    all workers are notified. *)
Definition help_find (self : option helper) (comes1 comes2 : nat → bool) (rnd1 rnd2 : nat) (inbox : list Z) (deqs : list (list Z))
  : option (option Z * list Z * list (list Z) * bool) :=
  let laneWorker := match self with Some h => h_reserved h | None => false end in
  let '(t, deqs) := if laneWorker then (None, deqs) else GetTask comes1 rnd1 deqs in
  match t with
  | Some t => Some (Some t, inbox, deqs, false)
  | None =>
      match self with
      | Some h =>
          if negb (h_pool h) then Some (None, inbox, deqs, false)
          else
            '(moved, inbox, dq) ← DrainOwnInboxesToDeques (h_reserved h) inbox (default [] (deqs !! h_q h));
            let deqs := <[h_q h := dq]> deqs in
            if moved : bool then let '(t, deqs) := GetTask comes2 rnd2 deqs in Some (t, inbox, deqs, true)
            else Some (None, inbox, deqs, false)
      | None => Some (None, inbox, deqs, false)
      end
  end.

(** *** The scan *)

Lemma scan_order_all rnd n d : (d < n)%nat → d ∈ scan_order rnd n.
Proof.
  intros Hd. apply list_elem_of_fmap. set (s := (rnd mod n)%nat). assert (s < n)%nat by (apply Nat.mod_upper_bound; lia).
  exists ((d + n - s) mod n)%nat. split; [|apply elem_of_seq; pose proof (Nat.mod_upper_bound (d + n - s) n); lia].
  rewrite Nat.Div0.add_mod_idemp_r. replace (s + (d + n - s))%nat with (d + 1 * n)%nat by lia. by rewrite Nat.Div0.mod_add, Nat.mod_small.
Qed.

Lemma front_if_keeps comes d deqs : option_list (front_if comes d deqs).1 ++ mjoin (front_if comes d deqs).2 ≡ₚ mjoin deqs ∧
  length (front_if comes d deqs).2 = length deqs ∧ (∀ t, (front_if comes d deqs).1 = Some t → ty t = Coroutine) ∧ ((front_if comes d deqs).1 = None → (front_if comes d deqs).2 = deqs).
Proof.
  unfold front_if. destruct (deqs !! d) as [[|t r]|] eqn:E; try done. destruct (fiberlessRunnable t) eqn:Ef, (comes d); cbn; try done.
  split_and!; [|apply length_insert|intros x [= <-]; by apply bool_decide_eq_true in Ef|done]. pose proof (mjoin_insert deqs d (t :: r) r E) as H.
  apply (Permutation_app_inv_r r). rewrite (Permutation_app_comm (mjoin deqs)), <- H. cbn. solve_Permutation.
Qed.

Lemma scan_deques_keeps comes l deqs : option_list (scan_deques comes l deqs).1 ++ mjoin (scan_deques comes l deqs).2 ≡ₚ mjoin deqs ∧
  length (scan_deques comes l deqs).2 = length deqs ∧ (∀ t, (scan_deques comes l deqs).1 = Some t → ty t = Coroutine) ∧
  ((scan_deques comes l deqs).1 = None → (scan_deques comes l deqs).2 = deqs ∧ ∀ d, d ∈ l → (front_if comes d deqs).1 = None).
Proof.
  induction l as [|d l IH]; cbn [scan_deques]; [split_and!; try done; by intros _; split; [|intros d ?%elem_of_nil]|].
  pose proof (front_if_keeps comes d deqs) as H. destruct (front_if comes d deqs) as [[t|] deqs'] eqn:E; cbn in *; [destruct H as (? & ? & ? & _); by split_and!|].
  destruct IH as (? & ? & ? & I4). split_and!; try done. intros Hn. destruct (I4 Hn) as [? Hl]. split; [done|]. intros x [->|Hx]%elem_of_cons; [by rewrite E|by apply Hl].
Qed.

(** No coroutine at the front of a deque. *)
Definition no_coroutine (deqs : list (list Z)) : Prop := ∀ d t r, deqs !! d = Some (t :: r) → ty t ≠ Coroutine.

Lemma scan_finds comes rnd deqs : (∀ d, comes d = true) → (GetTask comes rnd deqs).1 = None → no_coroutine deqs.
Proof.
  intros Hc Hn d t r Hd Ht. destruct (scan_deques_keeps comes (scan_order rnd (length deqs)) deqs) as (_ & _ & _ & H). destruct (H Hn) as [_ Hl].
  specialize (Hl d (scan_order_all rnd _ d (lookup_lt_Some _ _ _ Hd))). unfold front_if in Hl. rewrite Hd, Hc in Hl. unfold fiberlessRunnable in Hl. by rewrite bool_decide_true in Hl.
Qed.

(** The inbox on the deque. *)
Lemma help_drain h inbox deqs : 0 ∉ inbox → h_reserved h = false → (h_q h < length deqs)%nat →
  ∃ dq, DrainOwnInboxesToDeques (h_reserved h) inbox (default [] (deqs !! h_q h)) = Some (negb (bool_decide (inbox = [])), [], dq) ∧
    mjoin (<[h_q h := dq]> deqs) ≡ₚ inbox ++ mjoin deqs ∧ (inbox = [] → <[h_q h := dq]> deqs = deqs).
Proof.
  intros H0 Hr Hq. unfold DrainOwnInboxesToDeques. rewrite Hr, drain_loop_spec by lia. assert (Hf : filter (λ t, t ≠ 0) inbox = inbox) by (apply filter_keep; intros x Hx ->; done). rewrite Hf.
  destruct (lookup_lt_is_Some_2 _ _ Hq) as [l Hl]. rewrite Hl. cbn [default from_option id]. eexists. split; [reflexivity|]. split.
  - pose proof (mjoin_insert deqs (h_q h) l (l ++ inbox) Hl) as Hm. apply (Permutation_app_inv_r l). rewrite Hm. solve_Permutation.
  - intros ->. rewrite app_nil_r. by apply list_insert_id.
Qed.
End help.

(** Helping takes coroutines only and loses nothing.  Whatever other threads do to the deques
    meanwhile: [TryRunStolenNativeTask] ends; the task it takes is a coroutine, and every task that
    was in the inbox or on a deque is still in one of them or in hand; a reserved worker and its
    queues are left as they are, and a thread with no inbox leaves the inboxes alone; and a compute
    worker nobody disturbs comes back with nothing only if its inbox is empty and no deque has a
    coroutine at its front. *)
Theorem spin_help_sound ty self c1 c2 r1 r2 inbox deqs :
  0 ∉ inbox → (∀ h, self = Some h → (h_q h < length deqs)%nat) →
  ∃ t inbox' deqs' n, help_find ty self c1 c2 r1 r2 inbox deqs = Some (t, inbox', deqs', n) ∧
  option_list t ++ inbox' ++ mjoin deqs' ≡ₚ inbox ++ mjoin deqs ∧ (∀ x, t = Some x → ty x = Coroutine) ∧
  (∀ h, self = Some h → h_reserved h = true → t = None ∧ inbox' = inbox ∧ deqs' = deqs) ∧
  ((∀ h, self = Some h → h_pool h = false) → inbox' = inbox) ∧
  (∀ h, self = Some h → h_pool h = true → h_reserved h = false → (∀ d, c1 d = true) → (∀ d, c2 d = true) → t = None → inbox' = [] ∧ no_coroutine ty deqs').
Proof.
  intros H0 Hq. unfold help_find. pose proof (scan_deques_keeps ty c1 (scan_order r1 (length deqs)) deqs) as (K1 & _ & K3 & K4). fold (GetTask ty c1 r1 deqs) in *.
  pose proof (scan_finds ty c1 r1 deqs) as K5.
  destruct self as [h|]; cbv zeta; [|destruct (GetTask ty c1 r1 deqs) as [[t|] deqs']; cbn in *; do 4 eexists; (split; [reflexivity|]); split_and!; try done; cbn; rewrite <- K1; solve_Permutation].
  specialize (Hq h eq_refl). destruct (h_reserved h) eqn:Er.
  { assert (Hid : <[h_q h := default [] (deqs !! h_q h)]> deqs = deqs) by (apply list_insert_id; by destruct (lookup_lt_is_Some_2 _ _ Hq) as [l ->]).
    destruct (h_pool h); cbn; rewrite ?Hid; do 4 eexists; (split; [reflexivity|]); split_and!; try done; intros h' [= <-]; congruence. }
  destruct (GetTask ty c1 r1 deqs) as [[t|] deqs1]; cbn [fst snd] in *.
  { do 4 eexists. split; [reflexivity|]. split_and!; try done; try (intros h' [= <-]; congruence). rewrite <- K1. cbn. solve_Permutation. }
  destruct (K4 eq_refl) as [-> _]. destruct (h_pool h) eqn:Ep; cbn [negb]; [|do 4 eexists; split; [reflexivity|]; split_and!; try done; intros h' [= <-]; congruence].
  destruct (help_drain h inbox deqs H0 Er Hq) as (dq & Hd & Hm & Hid). rewrite Er in Hd. rewrite Hd. cbn [mbind option_bind].
  destruct (bool_decide_reflect (inbox = [])) as [E|E]; cbn [negb].
  - rewrite (Hid E). subst inbox. do 4 eexists. split; [reflexivity|]. split_and!; try done; try (intros h' [= <-]; congruence). intros h' _ _ _ Hc _ _. split; [done|]. by apply K5.
  - set (deqs1 := <[h_q h := dq]> deqs) in *. pose proof (scan_deques_keeps ty c2 (scan_order r2 (length deqs1)) deqs1) as (J1 & _ & J3 & J4). fold (GetTask ty c2 r2 deqs1) in *.
    pose proof (scan_finds ty c2 r2 deqs1) as J5. destruct (GetTask ty c2 r2 deqs1) as [t deqs2]. cbn [fst snd] in *. do 4 eexists. split; [reflexivity|].
    split_and!; try done; try (intros h' [= <-]; congruence).
    + by rewrite <- Hm, <- J1.
    + intros H. by rewrite (H h eq_refl) in Ep.
    + intros h' _ _ _ _ Hc ->. split; [done|]. destruct (J4 eq_refl) as [-> _]. by apply J5.
Qed.

(** A worker with an empty deque and a coroutine in its inbox. *)
Definition help_ty (t : Z) : TaskType := if t =? 7 then Coroutine else Fiber.

Lemma spin_help_sound_witness :
  ∃ t inbox' deqs' n, help_find help_ty (Some (mkHelper true 0 false)) (λ _, true) (λ _, true) 5 5 [7] [[]; [3]] = Some (t, inbox', deqs', n) ∧
  t = Some 7 ∧ option_list t ++ inbox' ++ mjoin deqs' ≡ₚ [7] ++ mjoin [[]; [3]].
Proof.
  destruct (spin_help_sound help_ty (Some (mkHelper true 0 false)) (λ _, true) (λ _, true) 5 5 [7] [[]; [3]]) as (t & i & d & n & E & P & _).
  - set_solver.
  - intros h [= <-]. cbn. lia.
  - exists t, i, d, n. split; [exact E|]. split; [|exact P]. vm_compute in E. by injection E as <- _ _ _.
Defined.

(** ** Blocking in place *)

(** What [BlockBegin] and [BlockEnd] touch of the calling thread: its depth, its flag, its normal
    inbox and its deque. *)
Record blocker := mkBlocker { blockDepth : Z; away : bool; bk_inbox : list Z; bk_deque : list Z }.

Inductive BlockFatal := GuardHeld.

(** [pool]: the caller is a pool worker; [reserved]: of the reserved band; [guard]: inside an
    [EpochGuard]. *)
Definition BlockBegin (pool reserved guard : bool) (b : blocker) : option (res BlockFatal blocker) :=
  if negb pool then Some (Ok b)
  else if negb (blockDepth b =? 0) then Some (Ok (mkBlocker (blockDepth b + 1) (away b) (bk_inbox b) (bk_deque b)))
  else if guard then Some (Err GuardHeld)
  else if reserved then Some (Ok (mkBlocker 1 (away b) (bk_inbox b) (bk_deque b)))
  else '(_, inbox, deque) ← DrainOwnInboxesToDeques false (bk_inbox b) (bk_deque b); Some (Ok (mkBlocker 1 true inbox deque)).

Definition BlockEnd (pool reserved : bool) (b : blocker) : blocker :=
  if negb pool then b
  else if blockDepth b =? 0 then b
  else let d := blockDepth b - 1 in mkBlocker d (if negb (d =? 0) || reserved then away b else false) (bk_inbox b) (bk_deque b).

(** Calls in any order; tasks arrive in the inbox and leave the deque in between. *)
Inductive block_op := OpBegin (guard : bool) | OpEnd | OpArrive (t : Z) | OpSteal.

Definition block_run (pool reserved : bool) (o : block_op) (b : blocker) : option (res BlockFatal blocker) :=
  match o with
  | OpBegin g => BlockBegin pool reserved g b
  | OpEnd => Some (Ok (BlockEnd pool reserved b))
  | OpArrive t => Some (Ok (mkBlocker (blockDepth b) (away b) (bk_inbox b ++ [t]) (bk_deque b)))
  | OpSteal => Some (Ok (mkBlocker (blockDepth b) (away b) (bk_inbox b) (drop 1 (bk_deque b))))
  end.

Fixpoint block_runs (pool reserved : bool) (ops : list block_op) (b : blocker) : option (res BlockFatal blocker) :=
  match ops with
  | [] => Some (Ok b)
  | o :: r => match block_run pool reserved o b with Some (Ok b') => block_runs pool reserved r b' | x => x end
  end.

(** The depth the calls made leave. *)
Definition depth_after (o : block_op) (d : Z) : Z := match o with OpBegin _ => d + 1 | OpEnd => Z.max 0 (d - 1) | _ => d end.

Lemma block_run_cases pool reserved o b : 0 ≤ blockDepth b → (pool = true → away b = (0 <? blockDepth b) && negb reserved) →
  (block_run pool reserved o b = Some (Err GuardHeld) ∧ o = OpBegin true ∧ pool = true ∧ blockDepth b = 0) ∨
  ∃ b', block_run pool reserved o b = Some (Ok b') ∧ blockDepth b' = (if pool then depth_after o (blockDepth b) else blockDepth b) ∧
    (pool = true → away b' = (0 <? blockDepth b') && negb reserved).
Proof.
  intros H0 Ha. destruct o as [g| |t|]; cbn [block_run]; [| |right; eexists; split; [reflexivity|]; by destruct pool..].
  - unfold BlockBegin. destruct pool; cbn [negb]; [|right; by eexists]. specialize (Ha eq_refl). destruct (Z.eqb_spec (blockDepth b) 0) as [E|E]; cbn [negb].
    + destruct g; [by left|]. right. destruct reserved.
      * eexists. split; [reflexivity|]. cbn. rewrite E. split; [done|]. intros _. by rewrite Ha, E.
      * unfold DrainOwnInboxesToDeques. rewrite drain_loop_spec by lia. eexists. split; [reflexivity|]. cbn. by rewrite E.
    + right. eexists. split; [reflexivity|]. cbn. split; [done|]. intros _. rewrite Ha. f_equal. destruct (Z.ltb_spec 0 (blockDepth b)), (Z.ltb_spec 0 (blockDepth b + 1)); done || lia.
  - right. unfold BlockEnd. destruct pool; cbn [negb]; [|by eexists]. specialize (Ha eq_refl). destruct (Z.eqb_spec (blockDepth b) 0) as [E|E].
    + eexists. split; [reflexivity|]. cbn. split; [lia|done].
    + eexists. split; [reflexivity|]. cbn. split; [lia|]. intros _. rewrite Ha.
      destruct (Z.eqb_spec (blockDepth b - 1) 0), (Z.ltb_spec 0 (blockDepth b - 1)), (Z.ltb_spec 0 (blockDepth b)), reserved; done || lia.
Qed.

Definition depths (d : Z) (ops : list block_op) : Z := foldl (λ d o, depth_after o d) d ops.

Lemma blocks_nest_from reserved ops b : 0 ≤ blockDepth b → away b = (0 <? blockDepth b) && negb reserved →
  (∃ b', block_runs true reserved ops b = Some (Ok b') ∧ blockDepth b' = depths (blockDepth b) ops ∧ away b' = (0 <? blockDepth b') && negb reserved) ∨
  (block_runs true reserved ops b = Some (Err GuardHeld) ∧ ∃ l r, ops = l ++ OpBegin true :: r ∧ depths (blockDepth b) l = 0).
Proof.
  revert b. induction ops as [|o ops IH]; intros b H0 H1; [left; by exists b|]. cbn [block_runs].
  destruct (block_run_cases true reserved o b H0 (λ _, H1)) as [(-> & -> & _ & E)|(b' & -> & Ed & Ea)].
  - right. split; [done|]. by exists [], ops.
  - specialize (Ea eq_refl). assert (0 ≤ blockDepth b') by (rewrite Ed; destruct o; cbn; lia). destruct (IH b' ltac:(done) Ea) as [(b2 & E2 & D2 & A2)|(E2 & l & r & -> & D2)].
    + left. exists b2. unfold depths in *. cbn [foldl]. by rewrite <- Ed.
    + right. split; [done|]. exists (o :: l), r. unfold depths in *. cbn [foldl]. by rewrite <- Ed.
Qed.

(** Blocks nest: however the two calls are mixed on a worker, with tasks arriving and being stolen
    in between, the worker is away exactly while a block is open (a reserved worker never), the
    depth is that of the calls, unmatched ends counting for nothing, and the only way it fails is a
    first [BlockBegin] inside an [EpochGuard]. *)
Theorem blocks_nest reserved ops b :
  blockDepth b = 0 → away b = false →
  (∃ b', block_runs true reserved ops b = Some (Ok b') ∧ blockDepth b' = depths 0 ops ∧ away b' = (0 <? blockDepth b') && negb reserved) ∨
  (block_runs true reserved ops b = Some (Err GuardHeld) ∧ ∃ l r, ops = l ++ OpBegin true :: r ∧ depths 0 l = 0).
Proof. intros Hd Ha. pose proof (blocks_nest_from reserved ops b ltac:(lia) ltac:(by rewrite Ha, Hd)) as H. by rewrite Hd in H. Qed.

Lemma blocks_nest_witness : (∃ b', block_runs true false [OpBegin false; OpBegin true; OpEnd; OpArrive 4; OpEnd] (mkBlocker 0 false [1; 2] [3]) = Some (Ok b') ∧ blockDepth b' = 0 ∧ away b' = false).
Proof.
  destruct (blocks_nest false [OpBegin false; OpBegin true; OpEnd; OpArrive 4; OpEnd] (mkBlocker 0 false [1; 2] [3]) eq_refl eq_refl) as [(b' & E & D & A)|[E _]]; [|discriminate E].
  exists b'. split; [exact E|]. assert (D' : blockDepth b' = 0) by exact D. rewrite A, D'. by split.
Defined.

(** ** What a block can hide *)

(** A worker and the threads that push unplaced work, each of which first reads the worker's flag and
    then appends to its inbox.  The worker: at its loop; draining; about to raise its flag;
    blocked. *)
Inductive bpc := BLoop | BDrain | BRaise | BBlocked.
Inductive push_pc := UIdle | UChose.

(** [bw_window] counts the pushes that had picked the worker when its drain found the inbox
    empty, and those that picked it from then until the flag was up. *)
Record bwindow := mkBW { bw_pc : bpc; bw_away : bool; bw_inbox : list Z; bw_deque : list Z; bw_window : Z; bw_pcs : gmap nat push_pc }.

Definition chose (p : push_pc) : bool := match p with UChose => true | UIdle => false end.

Inductive bw_step (s : bwindow) : bwindow → Prop :=
(* the worker takes from its queues *)
| bw_take l1 l2 : bw_pc s = BLoop → bw_inbox s = l1 ++ l2 → bw_step s (mkBW BLoop (bw_away s) l2 (bw_deque s) (bw_window s) (bw_pcs s))
| bw_begin : bw_pc s = BLoop → bw_step s (mkBW BDrain (bw_away s) (bw_inbox s) (bw_deque s) (bw_window s) (bw_pcs s))
| bw_move t l : bw_pc s = BDrain → bw_inbox s = t :: l → bw_step s (mkBW BDrain (bw_away s) l (bw_deque s ++ [t]) (bw_window s) (bw_pcs s))
| bw_empty : bw_pc s = BDrain → bw_inbox s = [] → bw_step s (mkBW BRaise (bw_away s) [] (bw_deque s) (num chose (bw_pcs s)) (bw_pcs s))
| bw_raise : bw_pc s = BRaise → bw_step s (mkBW BBlocked true (bw_inbox s) (bw_deque s) (bw_window s) (bw_pcs s))
| bw_end : bw_pc s = BBlocked → bw_step s (mkBW BLoop false (bw_inbox s) (bw_deque s) (bw_window s) (bw_pcs s))
(* anyone steals from the deque *)
| bw_steal t l : bw_deque s = t :: l → bw_step s (mkBW (bw_pc s) (bw_away s) (bw_inbox s) l (bw_window s) (bw_pcs s))
(* a push reads the flag down and picks the worker; it appends *)
| bw_choose i : bw_pcs s !! i = Some UIdle → bw_away s = false →
    bw_step s (mkBW (bw_pc s) (bw_away s) (bw_inbox s) (bw_deque s) (bw_window s + match bw_pc s with BRaise => 1 | _ => 0 end) (<[i := UChose]> (bw_pcs s)))
| bw_push i t : bw_pcs s !! i = Some UChose →
    bw_step s (mkBW (bw_pc s) (bw_away s) (bw_inbox s ++ [t]) (bw_deque s) (bw_window s) (<[i := UIdle]> (bw_pcs s))).

Definition bw_init (s : bwindow) : Prop := s = mkBW BLoop false [] [] 0 (bw_pcs s) ∧ ∀ i p, bw_pcs s !! i = Some p → p = UIdle.

(** In the window and while blocked, what is in the inbox or about to be is what the window counts. *)
Definition bw_inv (s : bwindow) : Prop :=
  (bw_pc s = BBlocked ↔ bw_away s = true) ∧
  (bw_pc s = BRaise ∨ bw_pc s = BBlocked → Z.of_nat (length (bw_inbox s)) + num chose (bw_pcs s) = bw_window s).

Lemma bw_inv_step s s' : bw_inv s → bw_step s s' → bw_inv s'.
Proof.
  intros [A B] Hs. unfold bw_inv. destruct Hs as [l1 l2 Hp Hi|Hp|t l Hp Hi|Hp Hi|Hp|Hp|t l Hd|i Hi Ha|i t Hi]; cbn -[num Z.of_nat Z.add]; try rewrite Hp in *; try (split; [naive_solver|naive_solver lia]).
  - split; [done|]. rewrite (num_insert _ _ _ _ _ Hi). cbn [chose Z.b2z]. destruct (bw_pc s) eqn:E; intros [?|?]; try done; [rewrite <- B by auto; lia|]. exfalso. rewrite (proj1 A eq_refl) in Ha. done.
  - split; [done|]. rewrite (num_insert _ _ _ _ _ Hi), length_app. cbn [chose Z.b2z length]. intros H. rewrite <- (B H). lia.
Qed.

Lemma bw_inv_init s : bw_init s → bw_inv s.
Proof. intros [-> _]. split; [done|]. by intros [?|?]. Qed.

(** A block hides exactly the pushes of its window: while the worker is blocked, its inbox and the
    pushes on their way to it are as many as had picked it when the drain ended or picked it before
    the flag was up; nothing that picks later comes.  With no such push the inbox is and stays
    empty. *)
Theorem block_window_exact s : reachable bw_init bw_step s → bw_pc s = BBlocked →
  Z.of_nat (length (bw_inbox s)) + num chose (bw_pcs s) = bw_window s ∧ (bw_window s = 0 → bw_inbox s = []).
Proof.
  intros Hr Hb. destruct (reachable_ind _ _ bw_inv bw_inv_init bw_inv_step s Hr) as [_ H]. specialize (H (or_intror Hb)). split; [done|].
  intros E. pose proof (num_nonneg chose (bw_pcs s)). apply nil_length_inv. lia.
Qed.

(** A push picks the worker between its drain and its flag: the task waits in the inbox of a blocked
    worker, where nobody else may take it. *)
Definition bw_start : bwindow := mkBW BLoop false [] [] 0 {[0%nat := UIdle]}.
Definition bw_hidden : bwindow := mkBW BBlocked true [5] [] 1 {[0%nat := UIdle]}.

Lemma bw_hidden_reachable : reachable bw_init bw_step bw_hidden.
Proof.
  exists bw_start. split; [split; [reflexivity|]; cbn; by intros i p [<- <-]%lookup_singleton_Some|].
  eapply rtc_l; [apply bw_begin; reflexivity|]. eapply rtc_l; [apply bw_empty; reflexivity|]. eapply rtc_l; [apply (bw_choose _ 0%nat); reflexivity|].
  eapply rtc_l; [apply bw_raise; reflexivity|]. eapply rtc_l; [apply (bw_push _ 0%nat 5); reflexivity|].
  eval_state. let y := eval vm_compute in bw_hidden in change bw_hidden with y. apply rtc_refl.
Qed.

Theorem block_hides_push : ∃ s, reachable bw_init bw_step s ∧ bw_pc s = BBlocked ∧ bw_inbox s = [5] ∧ bw_deque s = [] ∧ num chose (bw_pcs s) = 0.
Proof. exists bw_hidden. split; [exact bw_hidden_reachable|done]. Qed.

Lemma block_window_exact_witness : bw_pc bw_hidden = BBlocked ∧ Z.of_nat (length (bw_inbox bw_hidden)) + num chose (bw_pcs bw_hidden) = 1.
Proof. split; [reflexivity|]. apply (block_window_exact bw_hidden bw_hidden_reachable eq_refl). Defined.
