(* ===== verification/Registry.v ===== *)
(** * The registry of blocking primitives (include/WaitPrimitive.h, src/TaskScheduler.cpp)

    Every mutex, semaphore, condition variable and event links itself into a list of the scheduler
    when it is made and leaves it when it is destroyed; [Join] takes the primitives off one by
    one and cancels their waiters.  The list is doubly linked through the objects, as that of
    [WaitLists.Event], whose lemmas are used.  The second part interleaves the life of primitives
    with [Join], a locked section per step. *)

From S2P Require Import Prelude WaitLists.

Record Registry := mkRegistry { nextPrimitive_ : gmap Z Z; prevPrimitive_ : gmap Z Z; primitivesHead : Z }.

(** The constructor: both links null, then in front of the list. *)
Definition EnterRegistry (p : Z) (r : Registry) : Registry :=
  let nx := <[p := 0]> (nextPrimitive_ r) in
  let pv := <[p := 0]> (prevPrimitive_ r) in
  let h := primitivesHead r in
  mkRegistry (<[p := h]> nx) (if h =? 0 then pv else <[h := p]> pv) p.

Definition LeaveRegistry (p : Z) (r : Registry) : Registry :=
  let nx := next_of (nextPrimitive_ r) p in
  let pv := next_of (prevPrimitive_ r) p in
  if (nx =? 0) && (pv =? 0) && negb (primitivesHead r =? p) then r
  else
    let next1 := if pv =? 0 then nextPrimitive_ r else <[pv := nx]> (nextPrimitive_ r) in
    let head1 := if pv =? 0 then (if primitivesHead r =? p then nx else primitivesHead r) else primitivesHead r in
    let prev1 := if nx =? 0 then prevPrimitive_ r else <[nx := pv]> (prevPrimitive_ r) in
    mkRegistry (<[p := 0]> next1) (<[p := 0]> prev1) head1.

(** The locked section of the loop of [Join]. *)
Definition PopRegistry (r : Registry) : option (Z * Registry) :=
  let p := primitivesHead r in
  if p =? 0 then None
  else
    let h := next_of (nextPrimitive_ r) p in
    let prev1 := if h =? 0 then prevPrimitive_ r else <[h := 0]> (prevPrimitive_ r) in
    Some (p, mkRegistry (<[p := 0]> (nextPrimitive_ r)) (<[p := 0]> prev1) h).

(** The loop: the primitives drained, in order. *)
Fixpoint DrainRegistry (fuel : nat) (r : Registry) : option (list Z * Registry) :=
  match fuel with
  | O => None
  | S k => match PopRegistry r with None => Some ([], r) | Some (p, r') => '(l, r'') ← DrainRegistry k r'; Some (p :: l, r'') end
  end.

(** ** It is a list *)

Definition as_event (r : Registry) (l : list Z) : Event := mkEvent (nextPrimitive_ r) (prevPrimitive_ r) (primitivesHead r) (default 0 (last l)).

(** The list, and that an object not on it has null links, by which [LeaveRegistry] knows it. *)
Record registry_ok (r : Registry) (l : list Z) : Prop := {
  rg_list : event_ok (as_event r l) l;
  rg_out x : x ∉ l → next_of (nextPrimitive_ r) x = 0 ∧ next_of (prevPrimitive_ r) x = 0 }.

Lemma registry_facts r l : registry_ok r l → NoDup l ∧ 0 ∉ l ∧ primitivesHead r = default 0 (head l).
Proof.
  intros [[[Hc _] _] _]. pose proof (chain_NoDup _ _ _ Hc) as Hn. cbn in Hc. split_and!; [done| |].
  - intros H0. apply list_elem_of_split in H0 as (l1 & l2 & ->). apply lseg_app in Hc as (k & _ & (_ & ? & _)). done.
  - destruct l; [done|]. by destruct Hc.
Qed.

Lemma reg_enter_ok r l p : registry_ok r l → p ≠ 0 → p ∉ l → registry_ok (EnterRegistry p r) (p :: l).
Proof.
  intros R Hp Hl. pose proof (registry_facts _ _ R) as (Hn & H0 & Hh). destruct R as [[[Hc Ht] Hb] Ho]. cbn in Hc, Hb. constructor; [split; [split|]|].
  - cbn. split_and!; [done|done|]. rewrite next_of_eq. do 2 (apply lseg_insert; [done|]). exact Hc.
  - done.
  - cbn. rewrite Hh. destruct l as [|y l]; cbn [head default from_option id]; [cbn; by rewrite next_of_eq|].
    assert (y ≠ 0) by set_solver. rewrite (proj2 (Z.eqb_neq y 0)) by done. destruct Hb as [Hy Hb]. rewrite next_of_insert, decide_False by set_solver. rewrite next_of_eq. split; [done|].
    cbn [dl]. rewrite next_of_eq. split; [done|]. apply NoDup_cons in Hn as [Hyl _]. eapply dl_ext; [|exact Hb]. intros z Hz. rewrite !next_of_insert, !decide_False by set_solver. done.
  - intros x Hx. destruct (Ho x) as [O1 O2]; [set_solver|]. cbn. rewrite !next_of_insert, !decide_False by set_solver. split; [done|]. rewrite Hh.
    destruct l as [|y l]; cbn [head default from_option id]; [rewrite (proj2 (Z.eqb_eq 0 0)) by done; by rewrite next_of_insert, decide_False by set_solver|].
    assert (y ≠ 0) by set_solver. rewrite (proj2 (Z.eqb_neq y 0)) by done. rewrite !next_of_insert, !decide_False by set_solver. done.
Qed.

(** A primitive on the list leaves it. *)
Lemma leave_linked r K p l : registry_ok r (K ++ p :: l) → registry_ok (LeaveRegistry p r) (K ++ l).
Proof.
  intros R. pose proof (registry_facts _ _ R) as (Hn & H0 & Hh). destruct R as [E Ho]. pose proof (unlink_spec _ K p l E) as (U & _ & _ & U4).
  assert (Hpv : next_of (prevPrimitive_ r) p = default 0 (last K)) by (destruct E as [_ Hb]; cbn in Hb; by apply dl_app in Hb as [_ [? _]]).
  assert (Hnx : next_of (nextPrimitive_ r) p = default 0 (head l)).
  { destruct E as [[Hc _] _]. cbn in Hc. apply lseg_app in Hc as (k & _ & (-> & _ & Hc)). destruct l; [done|]. by destruct Hc. }
  assert (Hlast : ∀ (k : list Z) x, last k = Some x → x ∈ k) by (intros k x; apply last_Some_elem_of).
  assert (Hz : default 0 (last K) = 0 ↔ K = []).
  { split; [|by intros ->]. intros Hz. destruct (last K) as [x|] eqn:EK; [|by apply last_None in EK]. cbn in Hz. subst x. exfalso. apply H0. apply Hlast in EK. set_solver. }
  assert (Hlin : (next_of (nextPrimitive_ r) p =? 0) && (next_of (prevPrimitive_ r) p =? 0) && negb (primitivesHead r =? p) = false).
  { rewrite Hpv, Hh. destruct (Z.eqb_spec (default 0 (last K)) 0) as [EK|]; [|by rewrite andb_false_r]. apply Hz in EK as ->. cbn. rewrite Z.eqb_refl. by rewrite andb_false_r. }
  assert (Hhead : (if next_of (prevPrimitive_ r) p =? 0 then (if primitivesHead r =? p then next_of (nextPrimitive_ r) p else primitivesHead r) else primitivesHead r) =
    (if next_of (prevPrimitive_ r) p =? 0 then next_of (nextPrimitive_ r) p else primitivesHead r)).
  { rewrite Hpv. destruct (Z.eqb_spec (default 0 (last K)) 0) as [EK|]; [|done]. apply Hz in EK as ->. rewrite Hh. cbn. by rewrite Z.eqb_refl. }
  assert (Htail : (if next_of (nextPrimitive_ r) p =? 0 then next_of (prevPrimitive_ r) p else default 0 (last (K ++ p :: l))) = default 0 (last (K ++ l))).
  { rewrite Hnx, Hpv. destruct l as [|y l]; [by rewrite app_nil_r|]. cbn [head default from_option id]. assert (y ≠ 0) by set_solver. rewrite (proj2 (Z.eqb_neq y 0)) by done. rewrite !last_app. by rewrite last_cons_cons. }
  unfold LeaveRegistry. rewrite Hlin, Hhead. constructor.
  - unfold unlink, as_event in U. cbn [ev_next ev_prev ev_head ev_tail] in U. rewrite Htail in U. exact U.
  - intros x Hx. cbn. destruct (decide (x = p)) as [->|Hxp]; [by rewrite !next_of_eq|]. destruct (Ho x) as [O1 O2]; [set_solver|]. rewrite !next_of_insert, !decide_False by done. rewrite Hpv, Hnx.
    split; [destruct (default 0 (last K) =? 0) eqn:EK; [done|]; rewrite next_of_insert, decide_False; [done|]|destruct (default 0 (head l) =? 0) eqn:El; [done|]; rewrite next_of_insert, decide_False; [done|]].
    + intros <-. apply Hx. destruct (last K) as [z|] eqn:EL; [|done]. cbn. apply Hlast in EL. set_solver.
    + intros <-. apply Hx. destruct l as [|y l]; [done|]. cbn. set_solver.
Qed.

(** A primitive that is not on it, because it was made before the pool or [Join] took it off. *)
Lemma leave_unlinked r l p : registry_ok r l → p ≠ 0 → p ∉ l → LeaveRegistry p r = r.
Proof.
  intros R Hp Hl. pose proof (registry_facts _ _ R) as (_ & _ & Hh). destruct (rg_out _ _ R p Hl) as [E1 E2]. unfold LeaveRegistry. rewrite E1, E2.
  rewrite (proj2 (Z.eqb_neq (primitivesHead r) p)); [done|]. rewrite Hh. destruct l; cbn; [done|]. set_solver.
Qed.

(** [Join]'s section is the first primitive leaving. *)
Lemma pop_spec r l : registry_ok r l → PopRegistry r = match l with [] => None | p :: _ => Some (p, LeaveRegistry p r) end.
Proof.
  intros R. pose proof (registry_facts _ _ R) as (_ & H0 & Hh). unfold PopRegistry. rewrite Hh. destruct l as [|p l]; [done|]. cbn [head default from_option id].
  assert (p ≠ 0) by set_solver. rewrite (proj2 (Z.eqb_neq p 0)) by done. unfold LeaveRegistry. destruct R as [[_ [Hpv _]] _]. cbn in Hpv. rewrite Hpv, Hh. cbn [head default from_option id].
  rewrite !Z.eqb_refl. by rewrite andb_false_r.
Qed.

Lemma reg_leave_ok r l p : registry_ok r l → p ≠ 0 → registry_ok (LeaveRegistry p r) (filter (λ x, x ≠ p) l).
Proof.
  intros R Hp. pose proof (registry_facts _ _ R) as (Hn & _ & _). destruct (decide (p ∈ l)) as [Hin|Hin].
  - apply list_elem_of_split in Hin as (K & l' & ->). apply NoDup_app in Hn as (_ & Hd & [Hl _]%NoDup_cons). rewrite filter_app, filter_cons_False by (by intros H).
    rewrite !filter_keep; [by apply leave_linked|set_solver|]. intros x Hx ->. apply (Hd p Hx). set_solver.
  - rewrite (leave_unlinked r l p R Hp Hin), filter_keep; [done|]. by intros x Hx ->.
Qed.

Lemma reg_drain_ok l r fuel : registry_ok r l → (length l < fuel)%nat → ∃ r', DrainRegistry fuel r = Some (l, r') ∧ registry_ok r' [].
Proof.
  revert r fuel. induction l as [|p l IH]; intros r [|k] R Hf; cbn in Hf; try lia; cbn [DrainRegistry]; rewrite (pop_spec _ _ R); [by exists r|].
  destruct (IH (LeaveRegistry p r) k) as (r' & -> & R'); [by apply (leave_linked r [] p l)|lia|]. by exists r'.
Qed.

(** The registry is a list: a primitive enters in front, leaves from wherever it is and is not
    bothered if it is not on it; the loop of [Join] ends, visits every primitive once, newest
    first, and leaves the registry empty. *)
Theorem registry_refines r l : registry_ok r l →
  (∀ p, p ≠ 0 → p ∉ l → registry_ok (EnterRegistry p r) (p :: l)) ∧
  (∀ p, p ≠ 0 → registry_ok (LeaveRegistry p r) (filter (λ x, x ≠ p) l)) ∧ (∀ p, p ≠ 0 → p ∉ l → LeaveRegistry p r = r) ∧
  ∃ r', DrainRegistry (S (length l)) r = Some (l, r') ∧ registry_ok r' [] ∧ NoDup l.
Proof.
  intros R. split_and!; intros; [by apply reg_enter_ok|by apply reg_leave_ok|by apply (leave_unlinked r l)|].
  destruct (reg_drain_ok l r (S (length l)) R ltac:(lia)) as (r' & ? & ?). exists r'. split_and!; [done|done|by apply (registry_facts r)].
Qed.

Definition empty_registry : Registry := mkRegistry ∅ ∅ 0.

Lemma empty_registry_ok : registry_ok empty_registry [].
Proof. constructor; [done|]. intros x _. cbn. unfold next_of. by rewrite lookup_empty. Qed.

Lemma registry_refines_witness : ∃ r', DrainRegistry 3 (LeaveRegistry 16 (EnterRegistry 32 (EnterRegistry 16 (EnterRegistry 8 empty_registry)))) = Some ([32; 8], r').
Proof.
  assert (R : registry_ok (LeaveRegistry 16 (EnterRegistry 32 (EnterRegistry 16 (EnterRegistry 8 empty_registry)))) [32; 8]).
  { apply (reg_leave_ok _ [32; 16; 8] 16); [|done]. apply reg_enter_ok; [|done|set_solver]. apply reg_enter_ok; [|done|set_solver]. apply reg_enter_ok; [exact empty_registry_ok|done|set_solver]. }
  destruct (registry_refines _ _ R) as (_ & _ & _ & r' & H & _). exists r'. exact H.
Defined.

(** ** Primitives that die while the pool shuts down *)

(** A thread that owns a primitive: none; one, in use; one whose destructor has left the registry. *)
Inductive prim_owner := WNone | WOwns (p : Z) | WLeft (p : Z).
(** [Join]: before the loop; at the locked section; about to call [DrainForShutdown]; past the loop. *)
Inductive join_pc := JBefore | JPop | JDrain (p : Z) | JAfter.

(** [rs_alive]: the objects that exist; [rs_fault]: a method of one that does not was called. *)
Record regstate := mkRS { rs_reg : Registry; rs_alive : gset Z; rs_join : join_pc; rs_fault : bool; rs_pcs : gmap nat prim_owner }.

Inductive rs_step (s : regstate) : regstate → Prop :=
| rs_make i p : rs_pcs s !! i = Some WNone → p ≠ 0 → p ∉ rs_alive s →
    rs_step s (mkRS (EnterRegistry p (rs_reg s)) ({[p]} ∪ rs_alive s) (rs_join s) (rs_fault s) (<[i := WOwns p]> (rs_pcs s)))
| rs_leave i p : rs_pcs s !! i = Some (WOwns p) →
    rs_step s (mkRS (LeaveRegistry p (rs_reg s)) (rs_alive s) (rs_join s) (rs_fault s) (<[i := WLeft p]> (rs_pcs s)))
| rs_free i p : rs_pcs s !! i = Some (WLeft p) →
    rs_step s (mkRS (rs_reg s) (rs_alive s ∖ {[p]}) (rs_join s) (rs_fault s) (<[i := WNone]> (rs_pcs s)))
| rs_begin : rs_join s = JBefore → rs_step s (mkRS (rs_reg s) (rs_alive s) JPop (rs_fault s) (rs_pcs s))
| rs_pop : rs_join s = JPop →
    rs_step s (match PopRegistry (rs_reg s) with
               | None => mkRS (rs_reg s) (rs_alive s) JAfter (rs_fault s) (rs_pcs s)
               | Some (p, r) => mkRS r (rs_alive s) (JDrain p) (rs_fault s) (rs_pcs s)
               end)
| rs_drain p : rs_join s = JDrain p → rs_step s (mkRS (rs_reg s) (rs_alive s) JPop (rs_fault s || bool_decide (p ∉ rs_alive s)) (rs_pcs s)).

Definition rs_init (s : regstate) : Prop := s = mkRS empty_registry ∅ JBefore false (rs_pcs s) ∧ ∀ i o, rs_pcs s !! i = Some o → o = WNone.

(** The primitive a thread has, and the one it may still have on the registry. *)
Definition has (o : prim_owner) : list Z := match o with WOwns p | WLeft p => [p] | WNone => [] end.
Definition uses (o : prim_owner) : list Z := match o with WOwns p => [p] | _ => [] end.

Record rs_inv (s : regstate) : Prop := {
  ri_has : NoDup (gather has (rs_pcs s));
  ri_alive p : p ∈ gather has (rs_pcs s) ↔ p ∈ rs_alive s;
  ri_nz : 0 ∉ rs_alive s;
  ri_reg : ∃ l, registry_ok (rs_reg s) l ∧ ∀ p, p ∈ l → p ∈ gather uses (rs_pcs s) }.

Lemma rs_inv_step s s' : rs_inv s → rs_step s s' → rs_inv s'.
Proof.
  intros [I1 I2 I3 (l & R & I4)] Hs. destruct Hs as [i p Hi Hp Hf|i p Hi|i p Hi|Hj|Hj|p Hj].
  - pose proof (gather_change has _ _ _ (WOwns p) Hi) as G. pose proof (gather_change uses _ _ _ (WOwns p) Hi) as U. cbn in G, U.
    assert (Hnl : p ∉ l). { intros Hl%I4. apply elem_of_gather in Hl as (j & o & Ho & Hx). apply Hf, I2, elem_of_gather. exists j, o. split; [done|]. destruct o; cbn in *; set_solver. }
    constructor; cbn.
    + rewrite G. constructor; [|done]. by rewrite I2.
    + intros x. rewrite G, elem_of_cons, I2. set_solver.
    + set_solver.
    + exists (p :: l). split; [by apply reg_enter_ok|]. intros x. rewrite U. set_solver.
  - pose proof (gather_move has _ _ _ (WLeft p) Hi eq_refl) as G. pose proof (gather_change uses _ _ _ (WLeft p) Hi) as U. cbn in U.
    assert (Hpz : p ≠ 0). { intros ->. apply I3, I2, elem_of_gather. exists i, (WOwns 0). set_solver. }
    constructor; cbn; [by rewrite G|by intros x; rewrite G|done|]. exists (filter (λ x, x ≠ p) l). split; [by apply reg_leave_ok|].
    intros x [Hx Hl%I4]%list_elem_of_filter. rewrite <- U in Hl. set_solver.
  - pose proof (gather_change has _ _ _ WNone Hi) as G. pose proof (gather_move uses _ _ _ WNone Hi eq_refl) as U. cbn in G. rewrite <- G in I1. apply NoDup_cons in I1 as [Hn I1].
    constructor; cbn; [done| |set_solver|]; [|exists l; split; [done|]; intros x; rewrite U; apply I4].
    intros x. rewrite elem_of_difference, <- I2, <- G, elem_of_cons, elem_of_singleton. split; [intros Hx; split; [by right|by intros ->]|]. by intros [[->|Hx] ?].
  - constructor; cbn; try done. by exists l.
  - rewrite (pop_spec _ _ R). destruct l as [|p l]; [constructor; cbn; try done; by exists []|]. constructor; cbn; try done. exists l. split; [by apply (leave_linked _ [] p l)|]. intros x Hx. apply I4. set_solver.
  - constructor; cbn; try done. by exists l.
Qed.

Lemma rs_inv_init s : rs_init s → rs_inv s.
Proof.
  intros [-> Hi]. cbn in Hi. assert (G : gather has (rs_pcs s) = []) by (apply gather_none; intros i o Ho; by rewrite (Hi i o Ho)).
  constructor; cbn; rewrite ?G; [constructor|set_solver|set_solver|]. exists []. split; [exact empty_registry_ok|set_solver].
Qed.

(** No primitive on the registry is one whose destructor has begun to leave it: however primitives
    are made and destroyed while [Join] empties the registry, it is a list of objects that exist
    and whose owners still use them. *)
Theorem registry_lives s : reachable rs_init rs_step s →
  ∃ l, registry_ok (rs_reg s) l ∧ ∀ p, p ∈ l → p ∈ rs_alive s ∧ ∃ i, rs_pcs s !! i = Some (WOwns p).
Proof.
  intros Hr. destruct (reachable_ind _ _ rs_inv rs_inv_init rs_inv_step s Hr) as [_ I2 _ (l & R & I4)]. exists l. split; [done|].
  intros p Hp%I4. apply elem_of_gather in Hp as (i & o & Ho & Hx). destruct o as [|q|q]; cbn in Hx; try set_solver. apply list_elem_of_singleton in Hx as ->. split; [|by exists i].
  apply I2, elem_of_gather. exists i, (WOwns q). set_solver.
Qed.

(** A primitive is taken off by [Join], then destroyed by its owner, then drained. *)
Definition rs_start : regstate := mkRS empty_registry ∅ JBefore false {[0%nat := WNone]}.
Definition rs_made : regstate := mkRS (EnterRegistry 8 empty_registry) ({[8]} ∪ ∅) JBefore false (<[0%nat := WOwns 8]> {[0%nat := WNone]}).

Lemma rs_start_init : rs_init rs_start.
Proof. split; [reflexivity|]. cbn. by intros i o [<- <-]%lookup_singleton_Some. Qed.

Lemma rs_made_reachable : reachable rs_init rs_step rs_made.
Proof. exists rs_start. split; [exact rs_start_init|]. apply rtc_once. apply (rs_make rs_start 0%nat 8); [reflexivity|done|set_solver]. Qed.

(** [Join] calls a primitive that is gone: between the locked section, after which
    [LeaveRegistry] finds the primitive off the list and lets its destructor finish, and the call. *)
Theorem join_drains_freed : ∃ s, reachable rs_init rs_step s ∧ rs_fault s = true.
Proof.
  eexists. split.
  - exists rs_start. split; [exact rs_start_init|]. eapply rtc_l; [apply (rs_make _ 0%nat 8); [reflexivity|done|set_solver]|].
    eapply rtc_l; [apply rs_begin; reflexivity|]. eapply rtc_l; [apply rs_pop; reflexivity|]. eapply rtc_l; [apply (rs_leave _ 0%nat 8); reflexivity|].
    eapply rtc_l; [apply (rs_free _ 0%nat 8); reflexivity|]. eapply rtc_l; [apply (rs_drain _ 8); reflexivity|]. apply rtc_refl.
  - vm_compute. reflexivity.
Qed.

Lemma registry_lives_witness : reachable rs_init rs_step rs_made ∧ ∃ l, registry_ok (rs_reg rs_made) l.
Proof. split; [exact rs_made_reachable|]. destruct (registry_lives rs_made rs_made_reachable) as (l & H & _). by exists l. Defined.
